(* ===== verification/_CoqProject ===== *)
-Q . S2P
Prelude.v
Encoding.v
Serialize.v
OMap.v
Crypto.v
Chunks.v
Raid.v
RaidFacts.v
Files.v
Fingerprint.v
MetaMac.v
SharedMutex.v
Quota.v
Tlv.v
Json.v
Writer.v
Keys.v
KeyManager.v
KeyCommits.v
ContactKeys.v
Splitter.v
Filters.v
Media.v
AttrMap.v
Timers.v
Download.v
Transfers.v
AvlTree.v
RangeTree.v
FileCache.v
FileServing.v
Requests.v
Streaming.v
Replies.v
