(* ===== verification/Prelude.v ===== *)
(** * A verification library for the core of the MEGA SDK

    The repository is the C++ SDK of an end-to-end encrypted storage service.
    Most of its code moves data between an object graph, a server and a local
    cache; the code that must be right bit by bit lies below that: how a file
    is cut into chunks, encrypted and authenticated, fetched from several
    servers and put together, how local files are recognised, and how the keys,
    records and attributes that describe all this are written and read back.
    This library models that code and proves it correct.

    ** Parts and how they interact

    - [Encoding]: base64, base32, URL escaping and hexadecimal
      (src/src/base64.cpp, src/src/utils.cpp).  Used by [Json], [AttrMap] and
      [Fingerprint].
    - [Serialize]: [Serialize64], [CacheableWriter], [CacheableReader]
      (src/src/serialize64.cpp, src/src/utils.cpp); the class [Cacheable] is the
      promise of one pair of calls, and the records of [Chunks] and
      [Fingerprint] are proved against it.
    - [Crypto]: [SymmCipher] and [PaddedCBC] (src/src/crypto/cryptopp.cpp,
      src/src/utils.cpp) over the class [AES] of Crypto++'s modes.
    - [Chunks]: [ChunkedHash] and [chunkmac_map] (include/mega/utils.h,
      src/src/utils.cpp), the state a transfer keeps per file, and the corrective
      search of src/src/transferslot.cpp.
    - [Raid], [RaidFacts]: [RaidBufferManager] (src/src/raid.cpp), the operations
      first, their correctness after.  The virtual operations of the C++ class
      are the class [RaidClient].
    - [Files]: reading from files (src/src/filesystem.cpp, src/src/posix/fs.cpp)
      and the interface [InputStream], used by [Fingerprint] and [MetaMac].
    - [Fingerprint]: [FileFingerprint] (src/src/filefingerprint.cpp).
    - [MetaMac]: the file MAC of a local file and the comparison of files with
      nodes (src/src/utils.cpp), proved to agree with what a transfer computes
      chunk by chunk ([Chunks]).
    - [Download]: what happens to a delivered piece until the file is complete
      (src/src/raid.cpp, src/src/transferslot.cpp): the two passes of
      [FilePiece::finalize], the hand-over of its MACs, streaming reads, and the
      choice of the next request.  It composes [Raid], [Chunks] and [MetaMac].
    - [SharedMutex]: src/src/common/shared_mutex.cpp, as sections of a step
      relation over any number of threads.
    - [Quota]: the upload quota ledger (src/src/transfer/ws/ws_quota.cpp).
    - [Tlv]: containers of user attributes (src/src/tlv.cpp) over the class
      [AEAD] of Crypto++'s authenticated modes.
    - [Json], [AttrMap]: the JSON scanner (src/src/json.cpp) and node attributes
      (src/src/attrmap.cpp), the scanner's client.
    - [Writer]: [JSONWriter] of src/src/json.cpp, which writes the commands.
    - [Splitter], [Streaming]: the streaming parser of replies
      ([JSONSplitter] of src/src/json.cpp), which hands out values while the
      text is still arriving, and its driver, the chunks of a streamed reply
      ([Request::processChunk] of src/src/request.cpp and its caller).
    - [Filters]: the exclusion rules of syncs (src/src/syncfilter.cpp, and the
      walk to the parent's rules of src/src/sync.cpp): globs, rule lines, the
      default file and what is excluded.
    - [Media]: media attributes of files
      (src/src/mediafileattribute.cpp) and their cipher.
    - [Transfers]: the queue of transfers by priority ([TransferList] of
      src/src/transfer.cpp).
    - [Keys], [KeyManager], [KeyCommits]: the keys of an account
      ([KeyManager] of src/src/megaclient.cpp, [AuthRing] of src/src/user.cpp):
      the format of the attribute ^!keys over [Serialize] and [Encoding]; its
      encrypted container ([AEAD] of [Tlv]) with the downgrade check, trust in
      contacts and the promotion of pending shares; and the queue of commits as
      a machine that executes the calls of the source one after the other.
    - [ContactKeys]: tracking the public keys and signatures of contacts, and
      their credentials (src/src/megaclient.cpp and its callers in
      src/src/commands.cpp), over the rings of [KeyManager] and as a client of the
      commits.
    - [Timers]: src/src/backofftimer.cpp.
    - [AvlTree], [RangeTree]: the containers of the file service
      (src/src/file_service/mega/file_service/): balanced trees as links between
      nodes in memory, and the trees of disjoint file ranges that keep one index by
      begin and one by end.  The class [OrderedIndex] with its laws is what a tree
      of ranges asks of an index and what the AVL tree provides.
    - [FileCache], [FileServing]: [FileContext] of src/src/file_service/, the cache
      of a file's content, as a machine whose steps are its requests, the events of
      its downloads and its callbacks; the sets and maps of ranges are the lists that
      [RangeTree] implements.  [FileServing] proves that requests are served.
    - [Requests], [Replies]: the client-server request queue (src/src/request.cpp,
      [Command::checkError] of src/src/command.cpp, the sequence tags of
      src/src/megaclient.cpp) over the class [CommandOps] of the commands'
      virtual methods and the scanner of [Json]; [Replies] has the reference
      that deals out a reply and the proof that the parser agrees with it.
    - [OMap], and the rest of this file: ordered maps, machine integers, byte
      strings, and the automation.

    Names follow the source: [Class.method] is the definition [method] in the
    Module [Class] where a file models several classes.

    ** What the theorems show

    - Downloads: bytes delivered by the RAID buffers, whatever part fails and
      in whatever order the pieces arrive, are the requested range of the file,
      in order and once ([raid_download], [raid_part_sizes]).  A transfer ends
      with the plain file in every interleaving of deliveries, decryptions,
      writes and failed writes ([transfer_download]); a direct read streams the
      plain range ([direct_read]); requests cover what is missing
      ([next_request]).
    - Chunks and MACs: the chunk boundaries partition the file; every reachable
      chunk map is well formed; folding MACs into the prefix, splitting a chunk
      into pieces and serializing keep the file MAC; progress counters agree
      with the map.  CTR decryption inverts encryption and both compute the same
      MAC.  The MAC of a local file is that of its download.
    - Comparisons of files, fingerprints over arbitrary streams, and their
      error branches.
    - Round trips of every format: text encodings, cache records, fingerprints,
      chunk maps, TLV containers (plain and encrypted), attributes (record and
      JSON); with what truncated input gives.
    - The JSON scanner: on well-formed text it consumes exactly one value, and it
      terminates, or, for [leaveobject], exactly when it does.  The writer
      produces the text of the value that its calls describe, as long as arrays are
      not mixed and at most eight are nested ([writer_text]).
    - State machines: mutual exclusion and absence of lost wake-ups of the
      mutex; the ledger's refinement of the sum of reservations and its handling
      of stale replies; the tracker's multimap agrees with the timers.
    - The request queue, for replies that arrive whole: batches keep the order of
      the commands and lose none unless the queue is cleared ([request_queue]), retries repeat text and identifier
      ([idempotent_retry]), every command is told its own part of the reply
      ([reply_dispatch], [servererror_all]) and, with a sequence tag, in step
      with the action packets ([seqtag_order]).
    - Streamed replies, without error objects inside of the text: the splitter
      calls the same filters with the same values however the text is cut into
      chunks ([splitter_chunks]) and consumes a well-formed text entirely
      ([splitter_document]), and a streamed reply calls the filters of its command
      as the whole document would ([streamed_reply_chunks]).  The lemmas
      [error_object_by_chunks] and [bracket_alone] show where the cut matters.
    - Exclusion rules: the glob matcher agrees with the meaning of patterns
      ([glob_matcher_meaning]), a rule line is accepted exactly when it is
      documented or its pattern is empty ([rule_grammar]), a loaded file is a list
      of well-formed rules or nothing ([ignore_file_load]), the default file
      written for a legacy configuration reads back as it, unless its limits
      meet ([default_rules_roundtrip]), and what is excluded is decided by the
      last rule that applies, nearest folder first ([exclusion_decided],
      [exclusion_by_path]).
    - Account keys: whatever is read is well formed ([keys_read_well_formed]),
      what a client writes another one reads ([keys_container]; the format on
      its own is [keys_roundtrip]), an older container is never accepted
      ([keys_no_downgrade]), share keys go to verified contacts only and no
      pending share is lost ([shares_promoted]), every commit is answered once,
      in order and with success only after its changes were stored
      ([commit_queue]), and none is forgotten ([commit_progress]).  Tracking
      the keys of a contact never trusts anybody more and withdraws the trust in
      whom the key does not fit ([contact_tracking]; it can come back with a commit
      on its way, [withdrawal_window]); credentials are verified and reset when the
      calls say so, but for one case in which an assertion fails
      ([credentials_changed]).
    - Media attributes as their packed layout shows them
      ([media_attributes_roundtrip]), and the order of the transfer queue
      ([transfer_queue_order]).
    - File service: an AVL tree is the ordered list of its nodes, balanced, and no
      operation follows a null or dangling pointer ([avl_tree]); a tree of ranges is
      a list of disjoint ranges, whatever is added and removed, and the gaps between
      them are what no range covers ([range_tree], [gaps_uncovered]).  In every
      interleaving of orderly requests, downloads and cancellations the cache of a
      file is a plain file to its readers and writers ([cache_is_file]) and what it
      keeps about the ranges on disk is in order ([cache_invariant]); and under the
      conditions of [FileServing] no request is left waiting ([requests_served]).
    - Where the code does not do what it means to, a lemma named in a comment runs
      the model on the input that shows it, next to the theorem whose conditions
      exclude it.

    ** Conventions

    Integers are [Z]; conversions and arithmetic of unsigned types wrap by
    [u8], [u16], [u32], [u64] and those of signed types that the source relies
    on by [s32], [s64].  Positions in files ([m_off_t], 63 bits) do not wrap:
    theorems that depend on it bound the file size.  Supported platforms are
    little-endian, so [memcpy] of an integer is [le_bytes].  An [assert] is
    modelled where the checked build is meant ([SharedMutex], and [AuthRing.add],
    which gives [None] where one fails) and otherwise is a hypothesis of a theorem
    that needs it, since release builds go on.

    Fuel: loops that are not structural take a number of rounds computed from
    their input (the length of the text or file, the number of chunks), and a
    theorem shows that they end within it: [metamac_terminates],
    [json_storeobject], [raid_download] (which delivers all bytes),
    [seqtag_order] (two rounds of the loop are enough), the closed forms of the
    fingerprint generators.  Where the source does not terminate
    the theorem says so ([json_leaveobject]).

    ** Parameters

    Code that is not in the repository enters as classes or arguments with its
    documented laws: [AES] and [AEAD] (Crypto++), [CRC32] (Crypto++),
    [UTF8PROC], [OSFile] (system calls of one file), the regular expressions
    of the standard library and Unicode normalisation in [Filters], the
    filters' callbacks in [Splitter], the random part of a backoff, the clock and the cancel tokens;
    for the keys [KeyCrypto] and [ContactCrypto] (libsodium and Crypto++).  Four
    classes are interfaces to parts of the client that are not modelled: [CommandOps] for
    the virtual methods of commands ([Recorded], [reads] and [KeepsTags] are
    what theorems ask of them), [KeyClient] for the users and nodes that the
    keys refer to, [ContactClient] for the attributes of users, and [CommitOps] for the changes that are committed.

    ** Not modelled

    The client core and its commands, the sync engine, the node graph, the
    public API with its bindings, and the WebSocket engine are large objects
    driven by server replies and callbacks; the databases, networking, media and
    FUSE layers, and the service around the cache of a file, are calls into other
    software.  Logging, timing statistics
    and debug text are left out everywhere; [getfloat] is [strtod].

    Parts of modelled components that are left out: the conversion of local
    names and upload throttling. *)

From stdpp Require Export prelude list gmap strings.
From Stdlib Require Export ZArith Lia.
From Stdlib Require Import Ascii.

#[export] Set Default Goal Selector "!".

Local Open Scope Z_scope.

(** ** Character and string literals

    [chr "x"] and [str "xyz"] elaborate to the numerals of the ASCII codes, so
    that models read like the source and [lia] sees plain numbers. *)

Definition ascii_code (c : ascii) : Z := Z.of_N (N_of_ascii c).

Definition bytes_of_string (s : string) : list Z :=
  map ascii_code (String.list_ascii_of_string s).

Notation "'chr' c" :=
  (ltac:(let v := eval vm_compute in (default 0 (head (bytes_of_string c%string))) in exact v))
  (at level 9, c at level 0, only parsing).
Notation "'str' s" :=
  (ltac:(let v := eval vm_compute in (bytes_of_string s%string) in exact v))
  (at level 9, s at level 0, only parsing).

(** The double quote and the backslash, which have no comfortable literal. *)
Abbreviation cDquote := 34.
Abbreviation cBackslash := 92.

(** [lia] for goals with divisions and remainders by constants. *)
Ltac dlia := Z.to_euclidean_division_equations; lia.

(** ** Bytes and fixed-width integers *)

Abbreviation bytes := (list Z).

(** A value of the C++ type [byte] (an 8-bit unsigned integer). *)
Definition byte_ok (b : Z) : Prop := 0 <= b < 256.
Abbreviation bytes_ok := (Forall byte_ok).

#[export] Instance byte_ok_dec b : Decision (byte_ok b).
Proof. unfold byte_ok. apply _. Defined.

(** Conversions to the unsigned types are reductions modulo [2^w]; conversions
    to the signed types pick the representative in [-2^(w-1), 2^(w-1)). *)
Definition wrapu (w z : Z) : Z := z mod 2 ^ w.
Definition wraps (w z : Z) : Z := (z + 2 ^ (w - 1)) mod 2 ^ w - 2 ^ (w - 1).

Abbreviation u8 := (wrapu 8).
Abbreviation u16 := (wrapu 16).
Abbreviation u32 := (wrapu 32).
Abbreviation u64 := (wrapu 64).
Abbreviation s32 := (wraps 32).
Abbreviation s64 := (wraps 64).

Create HintDb mega discriminated.
Create Rewrite HintDb mega.

Lemma wrapu_range w z : 0 <= w -> 0 <= wrapu w z < 2 ^ w.
Proof. intros. apply Z.mod_pos_bound, Z.pow_pos_nonneg; lia. Qed.

Lemma wrapu_id w z : 0 <= z < 2 ^ w -> wrapu w z = z.
Proof. intros. by apply Z.mod_small. Qed.

Lemma wraps_id w z : - 2 ^ (w - 1) <= z < 2 ^ (w - 1) -> 0 < w -> wraps w z = z.
Proof.
  intros Hz Hw. unfold wraps.
  assert (2 ^ w = 2 * 2 ^ (w - 1)) as E.
  { rewrite <- Z.pow_succ_r by lia. f_equal. lia. }
  rewrite Z.mod_small; lia.
Qed.

Lemma s32_id z : - 2 ^ 31 <= z < 2 ^ 31 -> s32 z = z.
Proof. intros. apply wraps_id; [exact H|lia]. Qed.
Lemma s64_id z : - 2 ^ 63 <= z < 2 ^ 63 -> s64 z = z.
Proof. intros. apply wraps_id; [exact H|lia]. Qed.

Lemma wraps_range w z : 0 < w -> - 2 ^ (w - 1) <= wraps w z < 2 ^ (w - 1).
Proof.
  intros Hw. unfold wraps.
  assert (2 ^ w = 2 * 2 ^ (w - 1)) as E.
  { rewrite <- Z.pow_succ_r by lia. f_equal. lia. }
  assert (0 < 2 ^ w) by (apply Z.pow_pos_nonneg; lia).
  pose proof (Z.mod_pos_bound (z + 2 ^ (w - 1)) (2 ^ w)). lia.
Qed.

(** Reading a signed field back from the bit pattern of its unsigned image. *)
Lemma wraps_wrapu w z :
  - 2 ^ (w - 1) <= z < 2 ^ (w - 1) -> 0 < w -> wraps w (wrapu w z) = z.
Proof.
  intros Hz Hw. rewrite <- (wraps_id w z) at 2 by done.
  unfold wraps, wrapu. by rewrite Zplus_mod_idemp_l.
Qed.

(** Bit operations as arithmetic: shifts are products and quotients, and a
    bitwise or with a number below the lowest set bit is a sum. *)
Lemma lor_low a b k : 0 <= k -> 0 <= b < 2 ^ k -> Z.lor (a * 2 ^ k) b = a * 2 ^ k + b.
Proof.
  intros Hk Hb. rewrite <- Z.add_nocarry_lor; [done|].
  destruct (decide (b = 0)) as [->|]; [apply Z.land_0_r|].
  apply Z.bits_inj'. intros m Hm. rewrite Z.land_spec, Z.bits_0.
  destruct (decide (m < k)); [by rewrite Z.mul_pow2_bits_low|].
  rewrite (Z.bits_above_log2 b m), andb_false_r; [done|lia|].
  apply Z.log2_lt_pow2; [lia|]. assert (2 ^ k <= 2 ^ m) by (apply Z.pow_le_mono_r; lia). lia.
Qed.

Lemma lor_shiftl a b k : 0 <= k -> 0 <= b < 2 ^ k -> Z.lor (Z.shiftl a k) b = a * 2 ^ k + b.
Proof. intros. rewrite Z.shiftl_mul_pow2 by lia. by apply lor_low. Qed.

Lemma byte_ok_u8 z : byte_ok (u8 z).
Proof. apply (wrapu_range 8 z). lia. Qed.
#[export] Hint Resolve byte_ok_u8 : mega.

(** ** Little-endian images

    The source copies integers to and from buffers by appending the object
    representation ([sizeof x] chars) and with [MemAccess::get<T>]; on the supported (little-endian)
    platforms the image of an [n]-byte integer is [le_bytes n]. *)

Fixpoint le_bytes (n : nat) (z : Z) : bytes :=
  match n with
  | O => []
  | S n => z mod 256 :: le_bytes n (z / 256)
  end.

Fixpoint le_value (l : bytes) : Z :=
  match l with
  | [] => 0
  | b :: l => b + 256 * le_value l
  end.

Lemma length_le_bytes n z : length (le_bytes n z) = n.
Proof. revert z. induction n; intros; simpl; auto. Qed.
#[export] Hint Rewrite length_le_bytes : mega.

Lemma le_bytes_ok n z : bytes_ok (le_bytes n z).
Proof.
  revert z. induction n; intros z; simpl; constructor; auto.
  apply Z.mod_pos_bound. lia.
Qed.
#[export] Hint Resolve le_bytes_ok : mega.

Lemma le_value_bytes n z : le_value (le_bytes n z) = z mod 256 ^ Z.of_nat n.
Proof.
  revert z. induction n as [|n IH]; intros z; simpl le_bytes; simpl le_value.
  { by rewrite Z.mod_1_r. }
  rewrite IH, Nat2Z.inj_succ, Z.pow_succ_r, Z.rem_mul_r by lia. lia.
Qed.

Lemma le_value_range l : bytes_ok l -> 0 <= le_value l < 256 ^ Z.of_nat (length l).
Proof.
  induction 1 as [|b l Hb Hl IH]; simpl le_value; simpl length; [lia|].
  rewrite Nat2Z.inj_succ, Z.pow_succ_r by lia. unfold byte_ok in Hb. nia.
Qed.

Lemma le_bytes_value l : bytes_ok l -> le_bytes (length l) (le_value l) = l.
Proof.
  induction 1 as [|b l Hb Hl IH]; simpl; [done|].
  unfold byte_ok in Hb. f_equal.
  - rewrite Z.mul_comm, Z.mod_add by lia. by apply Z.mod_small.
  - rewrite Z.mul_comm, Z.div_add by lia. rewrite Z.div_small by lia. done.
Qed.

Lemma le_value_app l1 l2 :
  le_value (l1 ++ l2) = le_value l1 + 256 ^ Z.of_nat (length l1) * le_value l2.
Proof.
  induction l1 as [|b l1 IH]; simpl le_value; simpl length; [simpl; lia|].
  change ((b :: l1) ++ l2) with (b :: (l1 ++ l2)). simpl le_value.
  rewrite IH, Nat2Z.inj_succ, Z.pow_succ_r by lia. lia.
Qed.

Lemma le_bytes_app n m x y :
  0 <= x < 256 ^ Z.of_nat n ->
  le_bytes (n + m) (x + 256 ^ Z.of_nat n * y) = le_bytes n x ++ le_bytes m y.
Proof.
  revert x. induction n as [|n IH]; intros x Hx.
  { simpl in *. f_equal. lia. }
  rewrite Nat2Z.inj_succ, Z.pow_succ_r in * by lia. simpl. f_equal.
  - by rewrite <- Z.mul_assoc, (Z.mul_comm 256), Z.mod_add.
  - rewrite <- Z.mul_assoc, (Z.mul_comm 256), Z.div_add by lia.
    apply IH. dlia.
Qed.

(** ** Lists indexed by [Z], as C++ indexes buffers *)

Abbreviation zlength l := (Z.of_nat (length l)).

(** [substr l i n]: the [n] bytes from offset [i]. *)
Definition substr {A} (l : list A) (i n : nat) : list A := take n (drop i l).

(** Reading a NUL-terminated buffer: past the last character lies the NUL. *)
Definition cchar (l : bytes) : Z := default 0 (head l).

Lemma cchar_cons b l : cchar (b :: l) = b.
Proof. done. Qed.

Lemma take_app_exact {A} (l1 l2 : list A) n : n = length l1 -> take n (l1 ++ l2) = l1.
Proof. intros ->. by rewrite take_app_length. Qed.

Lemma drop_app_exact {A} (l1 l2 : list A) n : n = length l1 -> drop n (l1 ++ l2) = l2.
Proof. intros ->. by rewrite drop_app_length. Qed.

Lemma mjoin_cons {A} (l : list A) ls : mjoin (l :: ls) = l ++ mjoin ls.
Proof. done. Qed.

Lemma in_filter {A} (Q : A -> bool) l x : In x (List.filter Q l) <-> In x l /\ Q x = true.
Proof. apply List.filter_In. Qed.

Lemma filter_kept {A} (Q : A -> bool) (l : list A) : (forall x, In x l -> Q x = true) -> List.filter Q l = l.
Proof. induction l as [|x l IH]; intros Hl; [done|]. cbn [List.filter]. rewrite Hl by by left. f_equal. apply IH. intros y Hy. apply Hl. by right. Qed.

Lemma filter_dropped {A} (Q : A -> bool) (l : list A) : (forall x, In x l -> Q x = false) -> List.filter Q l = [].
Proof. induction l as [|x l IH]; intros Hl; [done|]. cbn [List.filter]. rewrite Hl by by left. apply IH. intros y Hy. apply Hl. by right. Qed.

Lemma filter_permutation {A} (Q : A -> bool) (l l' : list A) : Permutation l l' -> Permutation (List.filter Q l) (List.filter Q l').
Proof.
  intros H. induction H as [|x l l' H IH|x y l|l l' l'' H1 IH1 H2 IH2]; cbn [List.filter]; [done| | |by etrans].
  - destruct (Q x); [by constructor|done].
  - destruct (Q x), (Q y); try done. apply perm_swap.
Qed.

(** ** Exhaustive checks over small ranges

    A boolean property of all bytes (or pairs of bytes) is decided by
    evaluation; these lemmas turn the evaluation into a quantified fact. *)

Definition all_below (n : nat) (f : Z -> bool) : bool := forallb f (seqZ 0 (Z.of_nat n)).

Lemma all_below_spec n f :
  all_below n f = true -> forall z, 0 <= z < Z.of_nat n -> f z = true.
Proof.
  unfold all_below. rewrite forallb_forall. intros H z Hz.
  apply H, list_elem_of_In, elem_of_seqZ. lia.
Qed.

Definition all_below2 (n m : nat) (f : Z -> Z -> bool) : bool :=
  all_below n (fun x => all_below m (f x)).

Lemma all_below2_spec n m f :
  all_below2 n m f = true ->
  forall x y, 0 <= x < Z.of_nat n -> 0 <= y < Z.of_nat m -> f x y = true.
Proof.
  intros H x y Hx Hy. apply (all_below_spec m); [|done].
  apply (all_below_spec n (fun x => all_below m (f x)) H x Hx).
Qed.

(** [exhaust n x] and [exhaust2 n m x y] prove an equation between integers
    for all [0 <= x < n] (and [0 <= y < m]) by evaluating it everywhere. *)
Ltac exhaust n x :=
  apply Z.eqb_eq;
  match goal with
  | |- ?b = true =>
      let f := eval pattern x in b in
      match f with ?g x => apply (all_below_spec n g); [vm_compute; reflexivity|] end
  end; unfold byte_ok in *; lia.
Ltac exhaust2 n m x y :=
  apply Z.eqb_eq;
  match goal with
  | |- ?b = true =>
      let f := eval pattern x, y in b in
      match f with
      | ?g x y => apply (all_below2_spec n m g); [vm_compute; reflexivity| |]
      end
  end; unfold byte_ok in *; lia.

(** ** Automation *)

(** Turn every boolean comparison of integers into the proposition it decides. *)
Ltac zbool :=
  repeat match goal with
  | H : _ && _ = true |- _ => apply andb_true_iff in H; destruct H
  | H : _ || _ = false |- _ => apply orb_false_iff in H; destruct H
  | H : negb _ = true |- _ => apply negb_true_iff in H
  | H : negb _ = false |- _ => apply negb_false_iff in H
  | H : (_ =? _) = true |- _ => apply Z.eqb_eq in H
  | H : (_ =? _) = false |- _ => apply Z.eqb_neq in H
  | H : (_ <? _) = true |- _ => apply Z.ltb_lt in H
  | H : (_ <? _) = false |- _ => apply Z.ltb_ge in H
  | H : (_ <=? _) = true |- _ => apply Z.leb_le in H
  | H : (_ <=? _) = false |- _ => apply Z.leb_gt in H
  end.

(** Open every conjunction and existential among the hypotheses. *)
Ltac hyps :=
  repeat match goal with
  | H : _ /\ _ |- _ => destruct H
  | H : exists _, _ |- _ => destruct H
  end.

(** Case analysis on the conditions the code tests, innermost first. *)
Ltac case_if :=
  match goal with
  | |- context [if ?b then _ else _] =>
      lazymatch b with
      | context [if _ then _ else _] => fail
      | _ => destruct b eqn:?
      end
  end.
Ltac case_ifs := repeat (case_if; zbool; try lia).

#[export] Hint Extern 1 (_ <= _) => lia : mega.
#[export] Hint Extern 1 (_ < _) => lia : mega.
