(* ===== verification/Encoding.v ===== *)
(** * Text encodings of binary data (src/src/base64.cpp, src/src/utils.cpp)

    [Base64] (the modified alphabet with '-' and '_', no padding), [Base32],
    [URLCodec] and the hexadecimal helpers of [Utils].  A C string is the list
    of its characters before the NUL; reading past them yields the NUL
    ([cchar]).  Each decoder is proved to invert its encoder. *)

From S2P Require Import Prelude.
Local Open Scope Z_scope.

Module Base64.

(** [Base64::to64]: the character of a 6-bit value. *)
Definition to64 (c : Z) : Z :=
  let c := Z.land c 63 in
  if c <? 26 then c + chr "A"
  else if c <? 52 then c - 26 + chr "a"
  else if c <? 62 then c - 52 + chr "0"
  else if c =? 62 then chr "-"
  else chr "_".

(** [Base64::from64]: the 6-bit value of a character, 255 when it is none. *)
Definition from64 (c : Z) : Z :=
  if (chr "A" <=? c) && (c <=? chr "Z") then c - chr "A"
  else if (chr "a" <=? c) && (c <=? chr "z") then c - chr "a" + 26
  else if (chr "0" <=? c) && (c <=? chr "9") then c - chr "0" + 52
  else if (c =? chr "-") || (c =? chr "+") then 62
  else if (c =? chr "_") || (c =? chr "/") then 63
  else 255.

(** [Base64::btoa(const byte*, size_t, char* )]: the characters written to the
    output buffer before the terminating NUL. *)
Fixpoint btoa (b : bytes) : bytes :=
  match b with
  | [] => []
  | [b0] =>
      [to64 (u8 (Z.shiftr b0 2));
       to64 (u8 (Z.lor (Z.shiftl b0 4) (Z.shiftr 0 4)))]
  | [b0; b1] =>
      [to64 (u8 (Z.shiftr b0 2));
       to64 (u8 (Z.lor (Z.shiftl b0 4) (Z.shiftr b1 4)));
       to64 (u8 (Z.lor (Z.shiftl b1 2) (Z.shiftr 0 6)))]
  | b0 :: b1 :: b2 :: rest =>
      to64 (u8 (Z.shiftr b0 2)) ::
      to64 (u8 (Z.lor (Z.shiftl b0 4) (Z.shiftr b1 4))) ::
      to64 (u8 (Z.lor (Z.shiftl b1 2) (Z.shiftr b2 6))) ::
      to64 b2 :: btoa rest
  end.

(** The inner loop of [Base64::atob]: up to [n] more characters are decoded
    into [c] from index [i]; an invalid one stores 255 and ends the group.  The
    result is the number of valid characters, the array and the rest of the
    input ([*a++] also steps over the invalid character). *)
Fixpoint read_group (from : Z -> Z) (n i : nat) (a c : bytes) : nat * bytes * bytes :=
  match n with
  | O => (i, c, a)
  | S n =>
      let v := from (cchar a) in
      let c := <[i := v]> c in
      let a := drop 1 a in
      if v =? 255 then (i, c, a) else read_group from n (S i) a c
  end.

Definition at_ (c : bytes) (i : nat) : Z := default 0 (c !! i).

(** [Base64::atob(const char*, byte*, int)]: [out] is what has been written to
    [b] (most recent first), [c] the array of the group, which lives across the
    iterations. *)
Fixpoint atob_loop (fuel : nat) (a c : bytes) (blen : Z) (out : bytes) : option bytes :=
  match fuel with
  | O => None
  | S fuel =>
      let '(i, c, a) := read_group from64 4 0 a c in
      if (blen <=? zlength out) || (i =? 0)%nat then Some (rev out)
      else
        let out := u8 (Z.lor (Z.shiftl (at_ c 0) 2) (Z.shiftr (Z.land (at_ c 1) 48) 4)) :: out in
        if (blen <=? zlength out) || (i <? 3)%nat then Some (rev out)
        else
          let out := u8 (Z.lor (Z.shiftl (at_ c 1) 4) (Z.shiftr (Z.land (at_ c 2) 60) 2)) :: out in
          if (blen <=? zlength out) || (i <? 4)%nat then Some (rev out)
          else
            let out := u8 (Z.lor (Z.shiftl (at_ c 2) 6) (at_ c 3)) :: out in
            atob_loop fuel a c blen out
  end.

(** Every full group consumes four characters, so the number of characters
    (plus one round for the end) bounds the rounds. *)
Definition atob (a : bytes) (blen : Z) : option bytes :=
  atob_loop (S (length a)) a [0; 0; 0; 0] blen [].

(** [Base64::atob(const string&)] and [Base64::atob(const string&, string&)]:
    the buffer has [in.size() * 3 / 4 + 3] bytes, passed as an [int]. *)
Definition atob_string (s : bytes) : option bytes :=
  atob s (s32 (zlength s * 3 / 4 + 3)).

(** [Base64::btoa(const string&)] and [Base64::btoa(const string&, string&)]. *)
Definition btoa_string (s : bytes) : bytes := btoa s.

(** The capacity [Base64::btoa(const string&)] gives the output buffer. *)
Definition btoa_capacity (s : bytes) : Z := zlength s * 4 / 3 + 4.

(** [Base64::itoa]: base-64 digits of a non-negative number, most significant
    first; [None] for the result means that [*result] is left alone. *)
Fixpoint itoa_loop (fuel : nat) (val : Z) (result : bytes) : option bytes :=
  match fuel with
  | O => None
  | S fuel =>
      if val =? 0 then Some result
      else itoa_loop fuel (Z.quot val 64) (to64 (u8 (Z.rem val 64)) :: result)
  end.

Definition itoa (val : Z) (result : bytes) : option bytes :=
  if val <? 0 then Some result
  else if val =? 0 then Some (str "A")
  else itoa_loop 12 val [].

(** [Base64::atoi]: characters outside the alphabet are skipped; the
    accumulator is an [int64_t]. *)
Fixpoint atoi_loop (val : bytes) (res valid : Z) : Z * Z :=
  match val with
  | [] => (res, valid)
  | ch :: val =>
      let b := from64 ch in
      if b =? 255 then atoi_loop val res valid
      else atoi_loop val (s64 (s64 (res * 64) + b)) (valid + 1)
  end.

Definition atoi (val : bytes) : Z :=
  match val with
  | [] => -1
  | _ =>
      let '(res, valid) := atoi_loop val 0 0 in
      if (valid =? 0) || (res <? 0) then -1 else res
  end.

(** [Base64::toStandard]: back to the '+' '/' alphabet with '=' padding. *)
Definition toStandard (s : bytes) : bytes :=
  let s := map (fun c => if c =? chr "-" then chr "+" else c) s in
  let s := map (fun c => if c =? chr "_" then chr "/" else c) s in
  let padChars := 4 - zlength s mod 4 in
  if padChars <? 4 then s ++ replicate (Z.to_nat padChars) (chr "=") else s.

(** *** The digits of a group, as numbers *)

Lemma from64_to64 c : byte_ok c -> from64 (to64 c) = c mod 64.
Proof. intros. exhaust 256%nat c. Qed.

Lemma from64_to64_u8 c : from64 (to64 (u8 c)) = c mod 64.
Proof.
  rewrite from64_to64 by apply byte_ok_u8. unfold wrapu.
  change (2 ^ 8) with (64 * 4). rewrite Z.rem_mul_r by lia.
  by rewrite Z.mul_comm, Z.mod_add, Z.mod_mod by lia.
Qed.

Lemma enc_d0 b0 : byte_ok b0 -> from64 (to64 (u8 (Z.shiftr b0 2))) = b0 / 4.
Proof. intros. rewrite from64_to64_u8, Z.shiftr_div_pow2 by lia. unfold byte_ok in *. dlia. Qed.
Lemma enc_d1 b0 b1 :
  byte_ok b0 -> byte_ok b1 ->
  from64 (to64 (u8 (Z.lor (Z.shiftl b0 4) (Z.shiftr b1 4)))) = 16 * (b0 mod 4) + b1 / 16.
Proof.
  unfold byte_ok. intros. rewrite from64_to64_u8, Z.shiftr_div_pow2, lor_shiftl by dlia. dlia.
Qed.
Lemma enc_d2 b1 b2 :
  byte_ok b1 -> byte_ok b2 ->
  from64 (to64 (u8 (Z.lor (Z.shiftl b1 2) (Z.shiftr b2 6)))) = 4 * (b1 mod 16) + b2 / 64.
Proof.
  unfold byte_ok. intros. rewrite from64_to64_u8, Z.shiftr_div_pow2, lor_shiftl by dlia. dlia.
Qed.
Lemma enc_d3 b2 : byte_ok b2 -> from64 (to64 b2) = b2 mod 64.
Proof. apply from64_to64. Qed.

Lemma dec_b0 d0 d1 :
  0 <= d0 < 64 -> 0 <= d1 < 64 ->
  u8 (Z.lor (Z.shiftl d0 2) (Z.shiftr (Z.land d1 48) 4)) = 4 * d0 + d1 / 16.
Proof.
  intros. assert (Z.shiftr (Z.land d1 48) 4 = d1 / 16) as -> by exhaust 64%nat d1.
  rewrite lor_shiftl by dlia. unfold wrapu. dlia.
Qed.
Lemma dec_b1 d1 d2 :
  0 <= d1 < 64 -> 0 <= d2 < 64 ->
  u8 (Z.lor (Z.shiftl d1 4) (Z.shiftr (Z.land d2 60) 2)) = 16 * (d1 mod 16) + d2 / 4.
Proof.
  intros. assert (Z.shiftr (Z.land d2 60) 2 = d2 / 4) as -> by exhaust 64%nat d2.
  rewrite lor_shiftl by dlia. unfold wrapu. dlia.
Qed.
Lemma dec_b2 d2 d3 :
  0 <= d2 < 64 -> 0 <= d3 < 64 ->
  u8 (Z.lor (Z.shiftl d2 6) d3) = 64 * (d2 mod 4) + d3.
Proof. intros. rewrite lor_shiftl by dlia. unfold wrapu. dlia. Qed.

(** Reading a group whose valid characters are [xs]: the count, and the
    decoded digits at the front of the array. *)
Lemma read_group_app from xs tail n i c :
  Forall (fun x => from x <> 255) xs -> length c = (i + n)%nat ->
  (length xs <= n)%nat -> ((length xs < n)%nat -> from (cchar tail) = 255) ->
  exists c' a', read_group from n i (xs ++ tail) c = ((i + length xs)%nat, c', a')
    /\ length c' = length c
    /\ (forall k, (k < i)%nat -> at_ c' k = at_ c k)
    /\ (forall k x, xs !! k = Some x -> at_ c' (i + k) = from x)
    /\ (length xs = n -> a' = tail).
Proof.
  intros Hxs. revert n i c. induction Hxs as [|x xs Hx Hxs IH]; intros n i c Hc Hn Ht.
  - destruct n as [|n]; simpl.
    + eexists c, tail. rewrite Nat.add_0_r. naive_solver lia.
    + rewrite Ht, Z.eqb_refl, Nat.add_0_r by (simpl; lia). eexists _, _. split_and!; [done|..].
      * by rewrite length_insert.
      * intros k Hk. unfold at_. rewrite list_lookup_insert_ne by lia. done.
      * naive_solver.
      * lia.
  - destruct n as [|n]; [simpl in Hn; lia|]. simpl in Hn.
    simpl. unfold cchar; simpl. rewrite (proj2 (Z.eqb_neq _ _)) by done.
    rewrite drop_0.
    destruct (IH n (S i) (<[i:=from x]> c)) as (c' & a' & E & Hl & Hlo & Hhi & Ha).
    { rewrite length_insert. lia. } { lia. } { intros. apply Ht. simpl. lia. }
    exists c', a'. rewrite E, length_insert in *. split_and!; [f_equal; f_equal; lia|done|..].
    + intros k Hk. rewrite Hlo by lia. unfold at_. rewrite list_lookup_insert_ne by lia. done.
    + intros [|k] y Hy; simpl in Hy.
      * simplify_eq. rewrite Nat.add_0_r, Hlo by lia. unfold at_.
        by rewrite list_lookup_insert_eq by lia.
      * rewrite <- (Hhi k y Hy). f_equal. lia.
    + intros. apply Ha. lia.
Qed.

(** Decide the tests of the decoder on the room left and on the group size. *)
Ltac decide_room :=
  repeat match goal with
  | |- context [?x <=? ?y] =>
      first [ rewrite (proj2 (Z.leb_gt x y)) by (simpl; lia)
            | rewrite (proj2 (Z.leb_le x y)) by (simpl; lia) ]
  end; cbn [orb Nat.eqb Nat.ltb Nat.leb Nat.add length].

Lemma read_group_0 from xs tail n c :
  Forall (fun x => from x <> 255) xs -> length c = n ->
  (length xs <= n)%nat -> ((length xs < n)%nat -> from (cchar tail) = 255) ->
  exists c' a', read_group from n 0 (xs ++ tail) c = (length xs, c', a')
    /\ length c' = n
    /\ (forall k x, xs !! k = Some x -> at_ c' k = from x)
    /\ (length xs = n -> a' = tail).
Proof.
  intros Hxs Hc Hn Ht.
  destruct (read_group_app from xs tail n 0 c) as (c' & a' & E & ? & _ & ? & ?); eauto.
  exists c', a'. rewrite E. split_and!; auto; congruence.
Qed.

(** Evaluate the reading of the group at the head of the input, leaving the
    facts on the digit array as [D]. *)
Ltac read_group_of D encs :=
  lazymatch goal with
  | |- context [read_group ?f ?n 0 (?xs ++ ?tail) ?c] =>
      let c' := fresh "c'" in let a' := fresh "a'" in let E := fresh "E" in
      let L := fresh "L" in let R := fresh "R" in
      destruct (read_group_0 f xs tail n c) as (c' & a' & E & L & D & R);
      [ repeat apply Forall_cons_2; try apply Forall_nil_2; encs; dlia
      | done | simpl; lia | simpl; (done || lia) | rewrite E; clear E; try rewrite (R eq_refl) ]
  end.

Ltac enc64 := rewrite ?enc_d0, ?enc_d1, ?enc_d2, ?enc_d3 by done.

Lemma atob_loop_btoa fuel bs c tail blen out :
  bytes_ok bs -> length c = 4%nat -> from64 (cchar tail) = 255 ->
  zlength out + zlength bs <= blen -> (length bs < fuel)%nat ->
  atob_loop fuel (btoa bs ++ tail) c blen out = Some (rev out ++ bs).
Proof.
  revert bs c out. induction fuel as [|fuel IH]; intros bs c out Hbs Hc Htail Hlen Hf; [lia|].
  cbn [atob_loop].
  destruct bs as [|b0 [|b1 [|b2 rest]]].
  all: repeat match goal with H : Forall _ (_ :: _) |- _ => apply Forall_cons in H as [? ?] end.
  all: assert (byte_ok 0) by done; simpl in Hlen, Hf.
  - change (btoa [] ++ tail) with ([] ++ tail). read_group_of D enc64.
    rewrite orb_true_r. by rewrite app_nil_r.
  - unfold byte_ok in *. cbn [btoa]. read_group_of D enc64. decide_room.
    rewrite (D 0%nat _ eq_refl), (D 1%nat _ eq_refl), enc_d0, enc_d1, dec_b0 by (done || dlia).
    rewrite orb_true_r. simpl. do 3 f_equal. dlia.
  - unfold byte_ok in *. cbn [btoa]. read_group_of D enc64. decide_room.
    rewrite (D 0%nat _ eq_refl), (D 1%nat _ eq_refl), (D 2%nat _ eq_refl).
    rewrite enc_d0, enc_d1, enc_d2, dec_b0, dec_b1 by (done || dlia).
    rewrite orb_true_r. simpl. rewrite <- app_assoc. simpl. do 3 f_equal; [|f_equal]; dlia.
  - cbn [btoa]. unfold byte_ok in *.
    lazymatch goal with
    | |- context [(?x0 :: ?x1 :: ?x2 :: ?x3 :: btoa rest) ++ tail] =>
        change ((x0 :: x1 :: x2 :: x3 :: btoa rest) ++ tail)
          with ([x0; x1; x2; x3] ++ (btoa rest ++ tail))
    end.
    read_group_of D enc64. decide_room.
    rewrite (D 0%nat _ eq_refl), (D 1%nat _ eq_refl), (D 2%nat _ eq_refl), (D 3%nat _ eq_refl).
    rewrite enc_d0, enc_d1, enc_d2, enc_d3, dec_b0, dec_b1, dec_b2 by (done || dlia).
    rewrite IH by (done || simpl; lia). simpl. rewrite <- !app_assoc. simpl.
    do 3 f_equal; [|f_equal; [|f_equal]]; dlia.
Qed.

(** Decoding stops at the first character outside the alphabet. *)
Lemma atob_btoa_app bs tail blen :
  bytes_ok bs -> from64 (cchar tail) = 255 -> zlength bs <= blen ->
  atob (btoa bs ++ tail) blen = Some bs.
Proof.
  intros Hb Ht Hl. unfold atob.
  destruct (decide (length bs < S (length (btoa bs ++ tail)))%nat) as [Hf|Hf].
  - by rewrite atob_loop_btoa by (done || simpl; lia).
  - exfalso. apply Hf. rewrite length_app.
    enough (length bs <= length (btoa bs))%nat by lia.
    clear. revert bs. fix IH 1. intros [|b0 [|b1 [|b2 rest]]]; simpl; [lia..|].
    specialize (IH rest). lia.
Qed.

Lemma length_btoa bs : zlength (btoa bs) = (zlength bs * 4 + 2) / 3.
Proof.
  revert bs. fix IH 1. intros [|b0 [|b1 [|b2 rest]]]; [done..|].
  cbn [btoa length]. specialize (IH rest). dlia.
Qed.

(** A full group comes from that many characters of the input. *)
Lemma read_group_consumes from n i a c i' c' a' :
  from 0 = 255 -> read_group from n i a c = (i', c', a') ->
  (i <= i' <= i + n)%nat /\ (i' = (i + n)%nat -> (length a' + n = length a)%nat).
Proof.
  intros H0. revert i a c. induction n as [|n IH]; intros i a c; simpl; intros E.
  { simplify_eq. lia. }
  destruct a as [|x a]; unfold cchar in E; simpl in E.
  { rewrite H0, Z.eqb_refl in E. simplify_eq. lia. }
  rewrite drop_0 in E. case_match; [simplify_eq; simpl; lia|].
  apply IH in E as [? E']. split; [lia|]. simpl. lia.
Qed.

(** The decoder always returns and never writes past the buffer. *)
Lemma atob_loop_total fuel a c blen out :
  (length a < fuel)%nat -> zlength out <= Z.max 0 blen ->
  exists out', atob_loop fuel a c blen out = Some out' /\ zlength out' <= Z.max 0 blen.
Proof.
  revert a c out. induction fuel as [|fuel IH]; intros a c out Hf Ho; [lia|].
  cbn [atob_loop]. destruct (read_group from64 4 0 a c) as [[i c'] a'] eqn:E.
  apply read_group_consumes in E as [Hi Ha]; [|done].
  repeat (case_if; [eexists; split; [done|]; rewrite length_rev; simpl in *; lia|];
          match goal with H : _ || _ = false |- _ =>
            apply orb_false_iff in H as [?%Z.leb_gt ?] end).
  repeat match goal with H : (_ <? _)%nat = false |- _ => apply Nat.ltb_ge in H end.
  apply IH; [lia|]. simpl length in *. lia.
Qed.

(** *** Numbers *)

Lemma digit64 v : 0 <= v < 64 -> from64 (to64 (u8 v)) = v.
Proof. intros. exhaust 64%nat v. Qed.

Lemma itoa_loop_digits fuel v r :
  0 <= v < 64 ^ Z.of_nat fuel ->
  exists ds, itoa_loop (S fuel) v r = Some (ds ++ r) /\ (v = 0 \/ ds <> [])
    /\ forall acc n tail, 0 <= acc -> acc * 64 ^ zlength ds + v < 2 ^ 63 ->
       atoi_loop (ds ++ tail) acc n =
       atoi_loop tail (acc * 64 ^ zlength ds + v) (n + zlength ds).
Proof.
  revert v r. induction fuel as [|fuel IH]; intros v r Hv; cbn [itoa_loop].
  { assert (v = 0) as -> by (simpl in Hv; lia). exists []. split_and!; [done|by left|].
    intros. simpl. f_equal; lia. }
  destruct (Z.eqb_spec v 0) as [->|Hne].
  { exists []. split_and!; [done|by left|]. intros. simpl. f_equal; lia. }
  rewrite Nat2Z.inj_succ, Z.pow_succ_r in Hv by lia.
  rewrite Z.quot_div_nonneg, Z.rem_mod_nonneg by lia.
  destruct (IH (v / 64) (to64 (u8 (v mod 64)) :: r)) as (ds & E & _ & HD); [dlia|].
  exists (ds ++ [to64 (u8 (v mod 64))]). split_and!.
  - cbn [itoa_loop] in E. rewrite E. by rewrite <- app_assoc.
  - right. by destruct ds.
  - intros acc n tail Hacc Hlt. rewrite length_app, Nat2Z.inj_add in *. simpl length in *.
    rewrite Z.pow_add_r in Hlt by lia. change (64 ^ Z.of_nat 1) with 64 in Hlt.
    assert (0 <= acc * 64 ^ zlength ds) by (apply Z.mul_nonneg_nonneg; [lia|]; apply Z.pow_nonneg; lia).
    rewrite <- app_assoc, HD by (lia || dlia). cbn [app atoi_loop].
    rewrite digit64 by dlia. rewrite (proj2 (Z.eqb_neq _ _)) by dlia.
    rewrite (wraps_id 64 (_ * 64)) by dlia. rewrite (wraps_id 64) by dlia.
    rewrite Z.pow_add_r by lia. change (64 ^ Z.of_nat 1) with 64. f_equal; dlia.
Qed.

End Base64.

(** Decoding the text [Base64::btoa(const string&)] produces gives back the
    binary string, for every string short enough for the decoder's [int]
    buffer length. *)
Theorem base64_roundtrip (s : bytes) :
  bytes_ok s -> zlength s < 2 ^ 29 ->
  Base64.atob_string (Base64.btoa_string s) = Some s.
Proof.
  intros Hs Hl. unfold Base64.atob_string, Base64.btoa_string.
  pose proof (Base64.length_btoa s) as L. rewrite L, (wraps_id 32) by dlia.
  rewrite <- (app_nil_r (Base64.btoa s)).
  apply Base64.atob_btoa_app; [done|done|dlia].
Qed.

Lemma base64_roundtrip_witness :
  Base64.atob_string (Base64.btoa_string [0; 255; 16; 131; 7]) = Some [0; 255; 16; 131; 7].
Proof. apply base64_roundtrip; [repeat constructor; lia|vm_compute; reflexivity]. Defined.

(** [Base64::btoa] fits the buffers the SDK gives it (its output and the
    NUL fit [size*4/3+4] bytes and have the length of [Base64Str]), and
    [Base64::atob] returns on every input without writing past [blen] bytes. *)
Theorem base64_buffer_bounds (s a : bytes) (blen : Z) :
  zlength (Base64.btoa s) + 1 <= Base64.btoa_capacity s
  /\ zlength (Base64.btoa s) = (zlength s * 4 + 2) / 3
  /\ exists out, Base64.atob a blen = Some out /\ zlength out <= Z.max 0 blen.
Proof.
  split_and!.
  - rewrite Base64.length_btoa. unfold Base64.btoa_capacity. dlia.
  - apply Base64.length_btoa.
  - apply Base64.atob_loop_total; simpl; lia.
Qed.

(** [Base64::atoi] inverts [Base64::itoa] on every non-negative [int64_t],
    and [itoa] leaves its result string alone on negative ones. *)
Theorem base64_number_roundtrip (v : Z) (old : bytes) :
  - 2 ^ 63 <= v < 2 ^ 63 ->
  exists s, Base64.itoa v old = Some s
    /\ (v < 0 -> s = old) /\ (0 <= v -> Base64.atoi s = v).
Proof.
  intros Hv. unfold Base64.itoa. case_if; zbool; [exists old; split_and!; (done || lia)|].
  case_if; zbool; [exists (str "A"); subst; split_and!; (done || lia)|].
  destruct (Base64.itoa_loop_digits 11 v []) as (ds & E & Hds & HD).
  { change (64 ^ Z.of_nat 11) with (2 ^ 66). lia. }
  exists (ds ++ []). split_and!; [done|lia|intros _].
  destruct Hds as [?|Hds]; [lia|]. rewrite app_nil_r in *. unfold Base64.atoi.
  specialize (HD 0 0 []). rewrite app_nil_r in HD. rewrite HD by lia. cbn [Base64.atoi_loop].
  destruct ds; [done|]. rewrite (proj2 (Z.eqb_neq _ 0)) by (simpl length; lia).
  by rewrite (proj2 (Z.ltb_ge _ 0)) by lia.
Qed.

Lemma base64_number_roundtrip_witness :
  exists s, Base64.itoa 1234567 [] = Some s
    /\ (1234567 < 0 -> s = []) /\ (0 <= 1234567 -> Base64.atoi s = 1234567).
Proof. apply base64_number_roundtrip. vm_compute. split; congruence. Defined.

Module Base32.

(** [Base32::to32] and [Base32::from32]. *)
Definition to32 (c : Z) : Z :=
  let c := Z.land c 31 in
  if c <? 26 then c + chr "a" else c - 26 + chr "2".

Definition from32 (c : Z) : Z :=
  if (chr "a" <=? c) && (c <=? chr "z") then c - chr "a"
  else if (chr "2" <=? c) && (c <=? chr "9") then c - chr "2" + 26
  else 255.

(** [Base32::btoa]: the characters written before the terminating NUL. *)
Definition enc0 (b0 : Z) : Z := to32 (u8 (Z.shiftr b0 3)).
Definition enc1 (b0 b1 : Z) : Z := to32 (u8 (Z.lor (Z.shiftl b0 2) (Z.shiftr b1 6))).
Definition enc2 (b1 : Z) : Z := to32 (u8 (Z.shiftr b1 1)).
Definition enc3 (b1 b2 : Z) : Z := to32 (u8 (Z.lor (Z.shiftl b1 4) (Z.shiftr b2 4))).
Definition enc4 (b2 b3 : Z) : Z := to32 (u8 (Z.lor (Z.shiftl b2 1) (Z.shiftr b3 7))).
Definition enc5 (b3 : Z) : Z := to32 (u8 (Z.shiftr b3 2)).
Definition enc6 (b3 b4 : Z) : Z := to32 (u8 (Z.lor (Z.shiftl b3 3) (Z.shiftr b4 5))).
Definition enc7 (b4 : Z) : Z := to32 b4.

Fixpoint btoa (b : bytes) : bytes :=
  match b with
  | [] => []
  | [b0] => [enc0 b0; enc1 b0 0]
  | [b0; b1] => [enc0 b0; enc1 b0 b1; enc2 b1; enc3 b1 0]
  | [b0; b1; b2] => [enc0 b0; enc1 b0 b1; enc2 b1; enc3 b1 b2; enc4 b2 0]
  | [b0; b1; b2; b3] =>
      [enc0 b0; enc1 b0 b1; enc2 b1; enc3 b1 b2; enc4 b2 b3; enc5 b3; enc6 b3 0]
  | b0 :: b1 :: b2 :: b3 :: b4 :: rest =>
      enc0 b0 :: enc1 b0 b1 :: enc2 b1 :: enc3 b1 b2 :: enc4 b2 b3 :: enc5 b3 ::
      enc6 b3 b4 :: enc7 b4 :: btoa rest
  end.

(** [Base32::atob]: the same loop as in [Base64] over groups of eight. *)
Definition dec0 (c : bytes) : Z :=
  u8 (Z.lor (Z.shiftl (Base64.at_ c 0) 3) (Z.shiftr (Z.land (Base64.at_ c 1) 28) 2)).
Definition dec1 (c : bytes) : Z :=
  u8 (Z.lor (Z.lor (Z.shiftl (Base64.at_ c 1) 6) (Z.shiftl (Base64.at_ c 2) 1))
            (Z.shiftr (Z.land (Base64.at_ c 3) 16) 4)).
Definition dec2 (c : bytes) : Z :=
  u8 (Z.lor (Z.shiftl (Base64.at_ c 3) 4) (Z.shiftr (Z.land (Base64.at_ c 4) 30) 1)).
Definition dec3 (c : bytes) : Z :=
  u8 (Z.lor (Z.lor (Z.shiftl (Base64.at_ c 4) 7) (Z.shiftl (Base64.at_ c 5) 2))
            (Z.shiftr (Z.land (Base64.at_ c 6) 24) 3)).
Definition dec4 (c : bytes) : Z :=
  u8 (Z.lor (Z.shiftl (Base64.at_ c 6) 5) (Base64.at_ c 7)).

Fixpoint atob_loop (fuel : nat) (a c : bytes) (blen : Z) (out : bytes) : option bytes :=
  match fuel with
  | O => None
  | S fuel =>
      let '(i, c, a) := Base64.read_group from32 8 0 a c in
      if (blen <=? zlength out) || (i =? 0)%nat then Some (rev out)
      else
        let out := dec0 c :: out in
        if (blen <=? zlength out) || (i <? 4)%nat then Some (rev out)
        else
          let out := dec1 c :: out in
          if (blen <=? zlength out) || (i <? 5)%nat then Some (rev out)
          else
            let out := dec2 c :: out in
            if (blen <=? zlength out) || (i <? 7)%nat then Some (rev out)
            else
              let out := dec3 c :: out in
              if (blen <=? zlength out) || (i <? 8)%nat then Some (rev out)
              else atob_loop fuel a c blen (dec4 c :: out)
  end.

Definition atob (a : bytes) (blen : Z) : option bytes :=
  atob_loop (S (length a)) a [0; 0; 0; 0; 0; 0; 0; 0] blen [].

Lemma from32_to32 c : byte_ok c -> from32 (to32 c) = c mod 32.
Proof. intros. exhaust 256%nat c. Qed.

Lemma from32_to32_u8 c : from32 (to32 (u8 c)) = c mod 32.
Proof.
  rewrite from32_to32 by apply byte_ok_u8. unfold wrapu.
  change (2 ^ 8) with (32 * 8). rewrite Z.rem_mul_r by lia.
  by rewrite Z.mul_comm, Z.mod_add, Z.mod_mod by lia.
Qed.

Ltac digit32 :=
  unfold byte_ok; intros; rewrite ?from32_to32_u8, ?Z.shiftr_div_pow2, ?lor_shiftl by dlia; dlia.

Lemma enc0_d b0 : byte_ok b0 -> from32 (enc0 b0) = b0 / 8.
Proof. unfold enc0. digit32. Qed.
Lemma enc1_d b0 b1 : byte_ok b0 -> byte_ok b1 -> from32 (enc1 b0 b1) = 4 * (b0 mod 8) + b1 / 64.
Proof. unfold enc1. digit32. Qed.
Lemma enc2_d b1 : byte_ok b1 -> from32 (enc2 b1) = (b1 / 2) mod 32.
Proof. unfold enc2. digit32. Qed.
Lemma enc3_d b1 b2 : byte_ok b1 -> byte_ok b2 -> from32 (enc3 b1 b2) = 16 * (b1 mod 2) + b2 / 16.
Proof. unfold enc3. digit32. Qed.
Lemma enc4_d b2 b3 : byte_ok b2 -> byte_ok b3 -> from32 (enc4 b2 b3) = 2 * (b2 mod 16) + b3 / 128.
Proof. unfold enc4. digit32. Qed.
Lemma enc5_d b3 : byte_ok b3 -> from32 (enc5 b3) = (b3 / 4) mod 32.
Proof. unfold enc5. digit32. Qed.
Lemma enc6_d b3 b4 : byte_ok b3 -> byte_ok b4 -> from32 (enc6 b3 b4) = 8 * (b3 mod 4) + b4 / 32.
Proof. unfold enc6. digit32. Qed.
Lemma enc7_d b4 : byte_ok b4 -> from32 (enc7 b4) = b4 mod 32.
Proof. apply from32_to32. Qed.

Lemma dec0_d c d0 d1 :
  Base64.at_ c 0 = d0 -> Base64.at_ c 1 = d1 -> 0 <= d0 < 32 -> 0 <= d1 < 32 ->
  dec0 c = 8 * d0 + d1 / 4.
Proof.
  unfold dec0. intros -> -> ? ?.
  assert (Z.shiftr (Z.land d1 28) 2 = d1 / 4) as -> by exhaust 32%nat d1.
  rewrite lor_shiftl by dlia. unfold wrapu. dlia.
Qed.
Lemma dec1_d c d1 d2 d3 :
  Base64.at_ c 1 = d1 -> Base64.at_ c 2 = d2 -> Base64.at_ c 3 = d3 ->
  0 <= d1 < 32 -> 0 <= d2 < 32 -> 0 <= d3 < 32 ->
  dec1 c = 64 * (d1 mod 4) + 2 * d2 + d3 / 16.
Proof.
  unfold dec1. intros -> -> -> ? ? ?.
  assert (Z.shiftr (Z.land d3 16) 4 = d3 / 16) as -> by exhaust 32%nat d3.
  rewrite <- Z.lor_assoc, !lor_shiftl by (rewrite ?lor_shiftl; dlia). unfold wrapu. dlia.
Qed.
Lemma dec2_d c d3 d4 :
  Base64.at_ c 3 = d3 -> Base64.at_ c 4 = d4 -> 0 <= d3 < 32 -> 0 <= d4 < 32 ->
  dec2 c = 16 * (d3 mod 16) + d4 / 2.
Proof.
  unfold dec2. intros -> -> ? ?.
  assert (Z.shiftr (Z.land d4 30) 1 = d4 / 2) as -> by exhaust 32%nat d4.
  rewrite lor_shiftl by dlia. unfold wrapu. dlia.
Qed.
Lemma dec3_d c d4 d5 d6 :
  Base64.at_ c 4 = d4 -> Base64.at_ c 5 = d5 -> Base64.at_ c 6 = d6 ->
  0 <= d4 < 32 -> 0 <= d5 < 32 -> 0 <= d6 < 32 ->
  dec3 c = 128 * (d4 mod 2) + 4 * d5 + d6 / 8.
Proof.
  unfold dec3. intros -> -> -> ? ? ?.
  assert (Z.shiftr (Z.land d6 24) 3 = d6 / 8) as -> by exhaust 32%nat d6.
  rewrite <- Z.lor_assoc, !lor_shiftl by (rewrite ?lor_shiftl; dlia). unfold wrapu. dlia.
Qed.
Lemma dec4_d c d6 d7 :
  Base64.at_ c 6 = d6 -> Base64.at_ c 7 = d7 -> 0 <= d6 < 32 -> 0 <= d7 < 32 ->
  dec4 c = 32 * (d6 mod 8) + d7.
Proof. unfold dec4. intros -> -> ? ?. rewrite lor_shiftl by dlia. unfold wrapu. dlia. Qed.

Ltac enc32 :=
  rewrite ?enc0_d, ?enc1_d, ?enc2_d, ?enc3_d, ?enc4_d, ?enc5_d, ?enc6_d, ?enc7_d by done.

(** Rewrite the bytes decoded from the digit array described by [D]. *)
Ltac dec32 D :=
  repeat first
    [ erewrite dec0_d by (first [apply D; reflexivity | enc32; dlia])
    | erewrite dec1_d by (first [apply D; reflexivity | enc32; dlia])
    | erewrite dec2_d by (first [apply D; reflexivity | enc32; dlia])
    | erewrite dec3_d by (first [apply D; reflexivity | enc32; dlia])
    | erewrite dec4_d by (first [apply D; reflexivity | enc32; dlia]) ]; enc32.

Lemma atob32_loop_btoa fuel bs c tail blen out :
  bytes_ok bs -> length c = 8%nat -> from32 (cchar tail) = 255 ->
  zlength out + zlength bs <= blen -> (length bs < fuel)%nat ->
  atob_loop fuel (btoa bs ++ tail) c blen out = Some (rev out ++ bs).
Proof.
  revert bs c out. induction fuel as [|fuel IH]; intros bs c out Hbs Hc Htail Hlen Hf; [lia|].
  cbn [atob_loop].
  destruct bs as [|b0 [|b1 [|b2 [|b3 [|b4 rest]]]]].
  all: repeat match goal with H : Forall _ (_ :: _) |- _ => apply Forall_cons in H as [? ?] end.
  all: assert (byte_ok 0) by done; simpl in Hlen, Hf.
  6: lazymatch goal with
     | |- context [btoa (b0 :: b1 :: b2 :: b3 :: b4 :: rest) ++ tail] =>
         change (btoa (b0 :: b1 :: b2 :: b3 :: b4 :: rest) ++ tail) with
           ([enc0 b0; enc1 b0 b1; enc2 b1; enc3 b1 b2; enc4 b2 b3; enc5 b3; enc6 b3 b4; enc7 b4]
              ++ (btoa rest ++ tail))
     end.
  1: change (btoa [] ++ tail) with ([] ++ tail).
  all: unfold byte_ok in *; cbn [btoa]; Base64.read_group_of D enc32; Base64.decide_room.
  all: rewrite ?orb_true_r.
  1: by rewrite app_nil_r.
  5: rewrite IH by (done || simpl; lia).
  all: dec32 D; simpl rev; rewrite <- ?app_assoc; simpl.
  all: repeat first [lia | dlia | progress f_equal].
Qed.

End Base32.

(** [Base32::atob] inverts [Base32::btoa] whatever follows the text, as
    long as it is not a base-32 digit, when the buffer is large enough. *)
Theorem base32_roundtrip (s tail : bytes) (blen : Z) :
  bytes_ok s -> Base32.from32 (cchar tail) = 255 -> zlength s <= blen ->
  Base32.atob (Base32.btoa s ++ tail) blen = Some s.
Proof.
  intros Hs Ht Hl. unfold Base32.atob.
  rewrite Base32.atob32_loop_btoa; [done|done|done|done|simpl; lia|].
  rewrite length_app. enough (length s <= length (Base32.btoa s))%nat by lia.
  clear. revert s. fix IH 1.
  intros [|b0 [|b1 [|b2 [|b3 [|b4 rest]]]]]; simpl; [lia..|]. specialize (IH rest). lia.
Qed.

Lemma base32_roundtrip_witness :
  Base32.atob (Base32.btoa [1; 250; 33; 128; 64; 9; 8] ++ [34]) 7 = Some [1; 250; 33; 128; 64; 9; 8].
Proof.
  apply base32_roundtrip; [repeat constructor; lia|vm_compute; reflexivity|vm_compute; congruence].
Defined.

(** The lower-case digit [printf("%x")] writes and [hexval] (mega/utils.h). *)
Definition hexdigit (v : Z) : Z := if v <? 10 then v + chr "0" else v - 10 + chr "a".

Definition hexval (c : Z) : Z :=
  Z.lor (Z.land c 15 + Z.shiftr c 6) (Z.land (Z.shiftr c 3) 8).

Module URLCodec.

Definition ishexdigit (c : Z) : bool :=
  ((chr "0" <=? c) && (c <=? chr "9")) || ((chr "a" <=? c) && (c <=? chr "f"))
  || ((chr "A" <=? c) && (c <=? chr "F")).

Definition issafe (c : Z) : bool :=
  ishexdigit c || ((chr "a" <=? c) && (c <=? chr "z")) || ((chr "A" <=? c) && (c <=? chr "Z"))
  || (c =? chr "-") || (c =? chr ".") || (c =? chr "_") || (c =? chr "~").

(** [URLCodec::escape]: unsafe characters become [%xx]. *)
Fixpoint escape (plain : bytes) : bytes :=
  match plain with
  | [] => []
  | c :: plain =>
      if issafe c then c :: escape plain
      else chr "%" :: hexdigit (Z.shiftr c 4) :: hexdigit (Z.land c 15) :: escape plain
  end.

(** [URLCodec::unescape]. *)
Fixpoint unescape (escaped : bytes) : bytes :=
  match escaped with
  | [] => []
  | c :: m =>
      match m with
      | m1 :: m2 :: m' =>
          if (c =? chr "%") && (ishexdigit m1 && ishexdigit m2)
          then u8 (Z.lor (Z.shiftl (hexval m1) 4) (hexval m2)) :: unescape m'
          else c :: unescape m
      | _ => c :: unescape m
      end
  end.

(** An escaped byte reads back as the byte. *)
Lemma escaped_byte c :
  byte_ok c ->
  ishexdigit (hexdigit (Z.shiftr c 4)) && ishexdigit (hexdigit (Z.land c 15)) = true
  /\ u8 (Z.lor (Z.shiftl (hexval (hexdigit (Z.shiftr c 4))) 4)
               (hexval (hexdigit (Z.land c 15)))) = c.
Proof.
  intros Hc. split.
  - apply (all_below_spec 256 (fun c =>
      ishexdigit (hexdigit (Z.shiftr c 4)) && ishexdigit (hexdigit (Z.land c 15))));
      [vm_compute; reflexivity|unfold byte_ok in Hc; lia].
  - exhaust 256%nat c.
Qed.

Lemma issafe_not_percent c : issafe c = true -> c <> chr "%".
Proof. by intros H ->. Qed.

Lemma unescape_safe c m : c <> chr "%" -> unescape (c :: m) = c :: unescape m.
Proof.
  intros Hc. destruct m as [|m1 [|m2 m']]; [done|done|].
  cbn [unescape]. by rewrite (proj2 (Z.eqb_neq _ _) Hc).
Qed.

Lemma escape_safe s : bytes_ok s -> Forall (fun c => issafe c = true \/ c = chr "%") (escape s).
Proof.
  induction 1 as [|c s Hc Hs IH]; [constructor|]. cbn [escape]. case_if; [auto|].
  repeat apply Forall_cons_2; auto.
  all: left; apply orb_true_iff; left; apply orb_true_iff; left; apply orb_true_iff; left.
  all: apply orb_true_iff; left; apply orb_true_iff; left; apply orb_true_iff; left.
  all: pose proof (proj1 (escaped_byte c Hc)) as [? ?]%andb_true_iff; done.
Qed.

End URLCodec.

(** [URLCodec::unescape] inverts [URLCodec::escape] on every binary string,
    and the escaped form uses only the unreserved characters and '%'. *)
Theorem url_escape_roundtrip (s : bytes) :
  bytes_ok s ->
  URLCodec.unescape (URLCodec.escape s) = s
  /\ Forall (fun c => URLCodec.issafe c = true \/ c = chr "%") (URLCodec.escape s).
Proof.
  intros Hs. split; [|by apply URLCodec.escape_safe].
  induction Hs as [|c s Hc Hs IH]; [done|]. cbn [URLCodec.escape]. case_if.
  - by rewrite URLCodec.unescape_safe, IH by by apply URLCodec.issafe_not_percent.
  - destruct (URLCodec.escaped_byte c Hc) as [H1 H2]. cbn [URLCodec.unescape].
    by rewrite H1, H2, IH.
Qed.

Lemma url_escape_roundtrip_witness :
  URLCodec.unescape (URLCodec.escape [37; 52; 49; 200; 126]) = [37; 52; 49; 200; 126]
  /\ Forall (fun c => URLCodec.issafe c = true \/ c = chr "%") (URLCodec.escape [37; 52; 49; 200; 126]).
Proof. apply url_escape_roundtrip. repeat constructor; lia. Defined.

Module Hex.

Definition lut : bytes := str "0123456789ABCDEF".

(** [Utils::stringToHex]. *)
Fixpoint stringToHex (input : bytes) (spaceBetweenBytes : bool) : bytes :=
  match input with
  | [] => []
  | c :: input =>
      default 0 (lut !! Z.to_nat (Z.shiftr c 4)) ::
      default 0 (lut !! Z.to_nat (Z.land c 15)) ::
      (if spaceBetweenBytes && bool_decide (input <> []) then [32] else []) ++
      stringToHex input spaceBetweenBytes
  end.

(** [std::lower_bound] over the table: the index of the first entry that is not
    smaller than the character ([char] is signed), 16 when there is none. *)
Fixpoint lower_bound (l : bytes) (a : Z) : nat :=
  match l with
  | [] => O
  | x :: l => if x <? wraps 8 a then S (lower_bound l a) else O
  end.

(** [Utils::hexToString]: [None] when it throws [std::invalid_argument]; the
    table is followed by its NUL. *)
Fixpoint hexToString (input : bytes) : option bytes :=
  match input with
  | [] => Some []
  | [_] => None
  | a :: b :: input =>
      let p := lower_bound lut a in
      let q := lower_bound lut b in
      if negb (default 0 (lut !! p) =? a) then None
      else if negb (default 0 (lut !! q) =? b) then None
      else
        s ← hexToString input;
        Some (u8 (Z.lor (Z.shiftl (Z.of_nat p) 4) (Z.of_nat q)) :: s)
  end.

Lemma hex_byte c :
  byte_ok c ->
  let hi := default 0 (lut !! Z.to_nat (Z.shiftr c 4)) in
  let lo := default 0 (lut !! Z.to_nat (Z.land c 15)) in
  (default 0 (lut !! lower_bound lut hi) =? hi) && (default 0 (lut !! lower_bound lut lo) =? lo)
  && (u8 (Z.lor (Z.shiftl (Z.of_nat (lower_bound lut hi)) 4) (Z.of_nat (lower_bound lut lo))) =? c)
  = true.
Proof.
  intros Hc. unfold byte_ok in Hc. cbv zeta.
  match goal with |- ?b = true => let f := eval pattern c in b in
    match f with ?g c => apply (all_below_spec 256 g); [vm_compute; reflexivity|lia] end end.
Qed.

End Hex.

(** [Utils::hexToString] inverts [Utils::stringToHex] (without spaces) and
    rejects every string of odd length. *)
Theorem hex_roundtrip (s : bytes) :
  bytes_ok s ->
  Hex.hexToString (Hex.stringToHex s false) = Some s
  /\ forall t, Nat.odd (length t) = true -> Hex.hexToString t = None.
Proof.
  intros Hs. split.
  - induction Hs as [|c s Hc Hs IH]; [done|]. cbn [Hex.stringToHex app andb Hex.hexToString].
    pose proof (Hex.hex_byte c Hc) as H. cbv zeta in H.
    apply andb_true_iff in H as [[-> ->]%andb_true_iff H]. cbn [negb].
    rewrite IH. simpl. f_equal. f_equal. by apply Z.eqb_eq.
  - fix IH 1. intros [|a [|b t]] Ht; [done|done|].
    cbn [Hex.hexToString]. rewrite (IH t Ht). repeat case_match; done.
Qed.

Lemma hex_roundtrip_witness :
  Hex.hexToString (Hex.stringToHex [0; 171; 255] false) = Some [0; 171; 255]
  /\ forall t, Nat.odd (length t) = true -> Hex.hexToString t = None.
Proof. apply hex_roundtrip. repeat constructor; lia. Defined.
