(* ===== verification/Serialize.v ===== *)
(** * Binary serialization (src/src/serialize64.cpp, src/src/utils.cpp)

    [Serialize64] (length-prefixed compressed integers), [CacheableWriter] and
    [CacheableReader].  The reader's [ptr, end) is the list of the bytes still
    to be read, so the test [ptr + n > end] is [length ptr < n].  Every read
    takes the old contents of the field it fills and returns whether it
    succeeded, the new contents and the reader it leaves.

    The class [Cacheable] states what a pair of matching calls promises; the
    record codecs of the SDK are proved against it. *)

From S2P Require Import Prelude.
Local Open Scope Z_scope.

Module Serialize64.

(** The bytes after the count: the value, low byte first, without leading
    zeros.  [Serialize64::serialize] loops while [value] is not zero. *)
Fixpoint value_bytes (fuel : nat) (value : Z) : bytes :=
  match fuel with
  | O => []
  | S fuel => if value =? 0 then [] else u8 value :: value_bytes fuel (Z.shiftr value 8)
  end.

(** [Serialize64::serialize]: a [uint64_t] is exhausted after eight rounds. *)
Definition serialize (value : Z) : bytes :=
  let vs := value_bytes 8 value in
  u8 (zlength vs) :: vs.

(** The decoding loop: from [bytes[byteCount]] down to [bytes[1]]. *)
Definition accumulate (vs : bytes) : Z :=
  fold_right (fun b value => u64 (u64 (Z.shiftl value 8) + b)) 0 vs.

(** [Serialize64::unserialize]: the value and the number of bytes read, [None]
    when it returns -1.  [bytes[0]] is read before the length is tested; an
    empty input is only possible where the source reads past the buffer. *)
Definition unserialize (b : bytes) (blen : Z) : option (Z * Z) :=
  let byteCount := cchar b in
  if (8 <? byteCount) || (blen <=? byteCount) then None
  else Some (accumulate (take (Z.to_nat byteCount) (drop 1 b)), byteCount + 1).

Lemma value_bytes_ok fuel v : bytes_ok (value_bytes fuel v).
Proof.
  revert v. induction fuel as [|fuel IH]; intros v; cbn [value_bytes]; [constructor|].
  case_if; constructor; auto with mega.
Qed.

Lemma length_value_bytes fuel v : (length (value_bytes fuel v) <= fuel)%nat.
Proof.
  revert v. induction fuel as [|fuel IH]; intros v; cbn [value_bytes]; [simpl; lia|].
  case_if; simpl; [lia|]. specialize (IH (Z.shiftr v 8)). lia.
Qed.

Lemma accumulate_le_value vs :
  bytes_ok vs -> (length vs <= 8)%nat -> accumulate vs = le_value vs.
Proof.
  induction 1 as [|b vs Hb Hvs IH]; intros Hl; [done|]. simpl in *.
  rewrite IH, Z.shiftl_mul_pow2 by lia.
  pose proof (le_value_range vs Hvs) as R.
  assert (256 ^ zlength vs <= 256 ^ 7) by (apply Z.pow_le_mono_r; lia).
  change (256 ^ 7) with (2 ^ 56) in *. unfold byte_ok in Hb.
  rewrite (wrapu_id 64 (_ * _)), wrapu_id by lia. lia.
Qed.

Lemma le_value_value_bytes fuel v :
  0 <= v < 256 ^ Z.of_nat fuel -> le_value (value_bytes fuel v) = v.
Proof.
  revert v. induction fuel as [|fuel IH]; intros v Hv; [simpl in *; lia|].
  rewrite Nat2Z.inj_succ, Z.pow_succ_r in Hv by lia. cbn [value_bytes]. case_if; zbool; [done|].
  cbn [le_value]. rewrite Z.shiftr_div_pow2 by lia. unfold wrapu. change (2 ^ 8) with 256.
  rewrite IH; [pose proof (Z.div_mod v 256); lia|].
  split; [apply Z.div_pos; lia|apply Z.div_lt_upper_bound; lia].
Qed.

Lemma length_serialize v : (1 <= length (serialize v) <= 9)%nat.
Proof. unfold serialize. pose proof (length_value_bytes 8 v). cbn [length]. lia. Qed.

Lemma serialize_head v rest :
  cchar (serialize v ++ rest) = zlength (value_bytes 8 v).
Proof.
  pose proof (length_value_bytes 8 v). unfold cchar, serialize; cbn [app head default].
  apply wrapu_id. lia.
Qed.

Lemma unserialize_serialize v rest blen :
  0 <= v < 2 ^ 64 -> zlength (serialize v) <= blen ->
  unserialize (serialize v ++ rest) blen = Some (v, zlength (serialize v)).
Proof.
  intros Hv Hl. unfold unserialize. rewrite serialize_head.
  pose proof (length_value_bytes 8 v) as L. unfold serialize in *; cbn [length] in *.
  rewrite (proj2 (Z.ltb_ge _ _)), (proj2 (Z.leb_gt _ _)) by lia. cbn [orb].
  rewrite Nat2Z.id. cbn [app drop]. rewrite drop_0, take_app_length.
  rewrite accumulate_le_value, le_value_value_bytes;
    [|change (256 ^ Z.of_nat 8) with (2 ^ 64); lia|apply value_bytes_ok|lia].
  do 2 f_equal. lia.
Qed.

#[global] Arguments value_bytes : simpl never.

End Serialize64.

(** ** The writer

    [dest] is the string the writer appends to. *)
Module CacheableWriter.

Definition serializebinary (dest data : bytes) : bytes := dest ++ data.

(** [serializecstr]: [None] is the null pointer; the 16-bit length also bounds
    what is copied, and the terminating NUL may be stored. *)
Definition serializecstr (dest : bytes) (field : option bytes) (storeNull : bool) : bytes :=
  let ll := match field with
            | Some f => u16 (zlength f + (if storeNull then 1 else 0))
            | None => 0
            end in
  dest ++ le_bytes 2 ll ++ take (Z.to_nat ll) (default [] field ++ [0]).

Definition serializepstr (dest : bytes) (field : option bytes) : bytes :=
  let ll := match field with Some f => u16 (zlength f) | None => 0 end in
  let dest := dest ++ le_bytes 2 ll in
  match field with Some f => dest ++ take (Z.to_nat ll) f | None => dest end.

(** A string behind its length in [n] bytes (the length is truncated to the
    integer type, and so is what is copied). *)
Definition write_prefixed (n : nat) (dest field : bytes) : bytes :=
  let ll := wrapu (8 * Z.of_nat n) (zlength field) in
  dest ++ le_bytes n ll ++ take (Z.to_nat ll) field.

Definition serializestring : bytes -> bytes -> bytes := write_prefixed 2.

(** The [std::wstring] overload, for a [wchar_t] of [wsz] bytes. *)
Definition serializewstring (wsz : nat) (dest : bytes) (field : list Z) : bytes :=
  let ll := u16 (zlength field * Z.of_nat wsz) in
  dest ++ le_bytes 2 ll ++ take (Z.to_nat ll) (mjoin (le_bytes wsz <$> field)).

Definition serializestring_u32 : bytes -> bytes -> bytes := write_prefixed 4.

Definition serializecompressedu64 (dest : bytes) (field : Z) : bytes :=
  dest ++ Serialize64.serialize field.
Definition serializecompressedi64 (dest : bytes) (field : Z) : bytes :=
  serializecompressedu64 dest (u64 field).

Definition serializei8 (dest : bytes) (field : Z) : bytes := dest ++ le_bytes 1 field.
Definition serializei32 (dest : bytes) (field : Z) : bytes := dest ++ le_bytes 4 field.
Definition serializei64 (dest : bytes) (field : Z) : bytes := dest ++ le_bytes 8 field.
Definition serializeu64 (dest : bytes) (field : Z) : bytes := dest ++ le_bytes 8 field.
Definition serializeu32 (dest : bytes) (field : Z) : bytes := dest ++ le_bytes 4 field.
Definition serializeu16 (dest : bytes) (field : Z) : bytes := dest ++ le_bytes 2 field.
Definition serializeu8 (dest : bytes) (field : Z) : bytes := dest ++ le_bytes 1 field.
Definition serializehandle (dest : bytes) (field : Z) : bytes := dest ++ le_bytes 8 field.

(** Node handles have [MegaClient::NODEHANDLE] = 6 significant bytes. *)
Definition serializenodehandle (dest : bytes) (field : Z) : bytes := dest ++ le_bytes 6 field.

Definition serializebool (dest : bytes) (field : bool) : bytes := dest ++ le_bytes 1 (Z.b2z field).
Definition serializebyte (dest : bytes) (field : Z) : bytes := dest ++ le_bytes 1 field.

(** A [double] is its 64-bit pattern. *)
Definition serializedouble (dest : bytes) (field : Z) : bytes := dest ++ le_bytes 8 field.

Definition serializeexpansionflags (dest : bytes) (b : list bool) : bytes :=
  dest ++ (Z.b2z <$> b).

End CacheableWriter.

(** ** Node handles (mega/types.h) *)
Module NodeHandle.
Definition mask48 (h : Z) : Z := Z.land h (2 ^ 48 - 1).
Definition UNDEF : Z := 2 ^ 64 - 1.
Definition isUndef (h : Z) : bool := mask48 h =? 2 ^ 48 - 1.
Definition eq (a b : Z) : bool := mask48 a =? mask48 b.
Definition as8byte (h : Z) : Z := if isUndef h then UNDEF else mask48 h.
Definition set6byte (n : Z) : Z := n.
End NodeHandle.

Definition serializeNodeHandle (dest : bytes) (field : Z) : bytes :=
  CacheableWriter.serializenodehandle dest (NodeHandle.as8byte field).

(** ** The reader *)
Record reader := Reader { ptr : bytes; fieldnum : Z }.

Module CacheableReader.

(** The constructor: the whole string, no field read yet. *)
Definition init (d : bytes) : reader := Reader d 0.

Definition hasdataleft (r : reader) : bool := bool_decide (ptr r <> []).

(** [eraseused]: what is left of the string the reader was built on. *)
Definition eraseused (r : reader) : bytes := ptr r.

(** Advance by [n] bytes and count the field ([unsigned fieldnum]). *)
Definition advance (r : reader) (n : nat) : reader :=
  Reader (drop n (ptr r)) (u32 (fieldnum r + 1)).

(** The common shape of the fixed-size reads: test the room, convert the bytes
    with [MemAccess::get], advance. *)
Definition read_fixed {A} (n : nat) (conv : bytes -> A) (field : A) (r : reader)
    : bool * A * reader :=
  if (length (ptr r) <? n)%nat then (false, field, r)
  else (true, conv (take n (ptr r)), advance r n).

Definition unserializebinary (len : nat) (data : bytes) (r : reader) : bool * bytes * reader :=
  read_fixed len id data r.

(** [unserializecstr]: the two length bytes are consumed even when the
    characters are missing, and an empty string leaves [s] alone. *)
Definition unserializecstr (removeNull : bool) (s : bytes) (r : reader) : bool * bytes * reader :=
  if (length (ptr r) <? 2)%nat then (false, s, r)
  else
    let len := Z.to_nat (le_value (take 2 (ptr r))) in
    let r := Reader (drop 2 (ptr r)) (fieldnum r) in
    if (length (ptr r) <? len)%nat then (false, s, r)
    else
      let s := if (len =? 0)%nat then s
               else take (len - (if removeNull then 1 else 0)) (ptr r) in
      (true, s, advance r len).

(** A string behind its length in [n] bytes. *)
Definition read_prefixed (n : nat) (s : bytes) (r : reader) : bool * bytes * reader :=
  if (length (ptr r) <? n)%nat then (false, s, r)
  else
    let len := Z.to_nat (le_value (take n (ptr r))) in
    let r := Reader (drop n (ptr r)) (fieldnum r) in
    if (length (ptr r) <? len)%nat then (false, s, r)
    else (true, if (len =? 0)%nat then s else take len (ptr r), advance r len).

Definition unserializestring : bytes -> reader -> bool * bytes * reader := read_prefixed 2.

(** [n] wide characters of [wsz] bytes from a buffer. *)
Fixpoint wchars (wsz n : nat) (b : bytes) : list Z :=
  match n with
  | O => []
  | S n => le_value (take wsz b) :: wchars wsz n (drop wsz b)
  end.

Definition unserializewstring (wsz : nat) (s : list Z) (r : reader) : bool * list Z * reader :=
  if (length (ptr r) <? 2)%nat then (false, s, r)
  else
    let len := Z.to_nat (le_value (take 2 (ptr r))) in
    let r := Reader (drop 2 (ptr r)) (fieldnum r) in
    if (length (ptr r) <? len)%nat then (false, s, r)
    else if negb (len =? 0)%nat && negb (len mod wsz =? 0)%nat then (false, s, r)
    else (true, if (len =? 0)%nat then s else wchars wsz (len / wsz) (ptr r), advance r len).

Definition unserializestring_u32 : bytes -> reader -> bool * bytes * reader := read_prefixed 4.

(** [unserializecompressedu64] does not count the field. *)
Definition unserializecompressedu64 (field : Z) (r : reader) : bool * Z * reader :=
  match Serialize64.unserialize (ptr r) (s32 (zlength (ptr r))) with
  | None => (false, field, r)
  | Some (v, n) => (true, v, Reader (drop (Z.to_nat n) (ptr r)) (fieldnum r))
  end.
Definition unserializecompressedi64 (field : Z) (r : reader) : bool * Z * reader :=
  let '(ok, v, r') := unserializecompressedu64 (u64 field) r in (ok, s64 v, r').

Definition unserializei8 := read_fixed 1 (fun b => wraps 8 (le_value b)).
Definition unserializei32 := read_fixed 4 (fun b => s32 (le_value b)).
Definition unserializei64 := read_fixed 8 (fun b => s64 (le_value b)).
Definition unserializeu16 := read_fixed 2 le_value.
Definition unserializeu32 := read_fixed 4 le_value.
Definition unserializeu8 := read_fixed 1 le_value.
Definition unserializeu64 := read_fixed 8 le_value.
Definition unserializehandle := read_fixed 8 le_value.
Definition unserializenodehandle := read_fixed 6 le_value.
Definition unserializebyte := read_fixed 1 le_value.
Definition unserializedouble := read_fixed 8 le_value.
Definition unserializebool := read_fixed 1 (fun b => negb (le_value b =? 0)).

(** [direction_t] is an enum of four bytes on the supported compilers. *)
Definition unserializedirection := read_fixed 4 (fun b => s32 (le_value b)).

Definition unserializeNodeHandle (field : Z) (r : reader) : bool * Z * reader :=
  let '(ok, h, r') := unserializenodehandle 0 r in
  if ok then (true, NodeHandle.set6byte h, r') else (false, field, r').

(** [unserializeexpansionflags]: the flags this version does not know must be
    zero, otherwise nothing is consumed. *)
Definition unserializeexpansionflags (usedFlagCount : nat) (field : bytes) (r : reader)
    : bool * bytes * reader :=
  if (length (ptr r) <? 8)%nat then (false, field, r)
  else
    let field := take 8 (ptr r) in
    if bool_decide (Forall (fun b => b = 0) (drop usedFlagCount field))
    then (true, field, advance r 8) else (false, field, r).

End CacheableReader.

(** ** The contract of a matching pair of calls *)
Class Cacheable (A : Type) := {
  put : bytes -> A -> bytes;
  get : A -> reader -> bool * A * reader;
  (** the values [put] can represent, given what the reader starts from *)
  storable : A -> A -> Prop;
  put_app : forall dest a, put dest a = dest ++ put [] a;
  (** reading returns the value and leaves what follows it *)
  get_put : forall old a rest n, storable old a -> zlength rest < 2 ^ 30 ->
    exists n', get old (Reader (put [] a ++ rest) n) = (true, a, Reader rest n');
  (** a record cut short is refused, not misread *)
  get_truncated : forall old a p q n, storable old a -> zlength p < 2 ^ 30 ->
    put [] a = p ++ q -> q <> [] -> (get old (Reader p n)).1.1 = false
}.

Section fixed_fields.
Context {A : Type} (n : nat) (enc : A -> bytes) (conv : bytes -> A) (ok : A -> Prop).
Hypothesis enc_length : forall a, length (enc a) = n.
Hypothesis conv_enc : forall a, ok a -> conv (enc a) = a.

#[program] Definition fixed_cacheable : Cacheable A := {|
  put dest a := dest ++ enc a;
  get := CacheableReader.read_fixed n conv;
  storable _ a := ok a
|}.
Next Obligation. done. Qed.
Next Obligation.
  intros old a rest k Ha _. eexists. unfold CacheableReader.read_fixed. simpl ptr.
  rewrite length_app, enc_length. rewrite (proj2 (Nat.ltb_ge _ _)) by lia.
  rewrite take_app_exact, conv_enc by done. unfold CacheableReader.advance; simpl.
  by rewrite drop_app_exact.
Qed.
Next Obligation.
  intros old a p q k _ _ E Hq. unfold CacheableReader.read_fixed. simpl in *.
  assert (length p < n)%nat as Hl.
  { rewrite <- (enc_length a), E, length_app. destruct q; [done|simpl; lia]. }
  by rewrite (proj2 (Nat.ltb_lt _ _) Hl).
Qed.
End fixed_fields.

(** *** Instances *)

Section integer_fields.
Context (n : nat).
Local Abbreviation w := (8 * Z.of_nat n).

Lemma pow256 : 256 ^ Z.of_nat n = 2 ^ w.
Proof. change 256 with (2 ^ 8). rewrite <- Z.pow_mul_r by lia. done. Qed.

Definition unsigned_field : Cacheable Z.
Proof.
  refine (fixed_cacheable n (le_bytes n) le_value (fun z => 0 <= z < 2 ^ w) _ _).
  - intros. apply length_le_bytes.
  - intros a Ha. rewrite le_value_bytes, pow256. by apply Z.mod_small.
Defined.

Hypothesis Hn : (0 < n)%nat.

Definition signed_field : Cacheable Z.
Proof.
  refine (fixed_cacheable n (le_bytes n) (fun b => wraps w (le_value b))
            (fun z => - 2 ^ (w - 1) <= z < 2 ^ (w - 1)) _ _).
  - intros. apply length_le_bytes.
  - intros a Ha. rewrite le_value_bytes, pow256. apply (wraps_wrapu w a); lia.
Defined.
End integer_fields.

Definition bool_field : Cacheable bool.
Proof.
  refine (fixed_cacheable 1 (fun b => le_bytes 1 (Z.b2z b)) (fun b => negb (le_value b =? 0))
            (fun _ => True) _ _); [done|]. by intros [] _.
Defined.

Definition binary_field (len : nat) : Cacheable bytes.
Proof.
  refine (fixed_cacheable len (fun b => take len (b ++ replicate len 0)) id
            (fun b => length b = len) _ _).
  - intros b. rewrite length_take, length_app, length_replicate. lia.
  - intros b <-. by rewrite take_app_length.
Defined.

Section prefixed_fields.
Context (n : nat).

Lemma write_prefixed_eq f :
  zlength f < 2 ^ (8 * Z.of_nat n) ->
  CacheableWriter.write_prefixed n [] f = le_bytes n (zlength f) ++ f.
Proof.
  intros Hf. unfold CacheableWriter.write_prefixed.
  by rewrite (wrapu_id _ (zlength f)), Nat2Z.id, firstn_all, app_nil_l by lia.
Qed.

Lemma le_value_length (f : bytes) :
  zlength f < 2 ^ (8 * Z.of_nat n) -> le_value (le_bytes n (zlength f)) = zlength f.
Proof. intros. rewrite le_value_bytes, pow256. apply Z.mod_small. lia. Qed.

(** Where a prefixed string is cut: within the length or within the text. *)
Lemma prefixed_cut (f p q : bytes) :
  zlength f < 2 ^ (8 * Z.of_nat n) -> le_bytes n (zlength f) ++ f = p ++ q -> q <> [] ->
  (length p < n)%nat \/
  ((n <= length p)%nat /\ (length (drop n p) < Z.to_nat (le_value (take n p)))%nat).
Proof.
  intros Hf E Hq. destruct (decide (length p < n)%nat) as [|Hp]; [by left|right].
  assert (take n p = le_bytes n (zlength f)) as ->.
  { transitivity (take n (p ++ q)); [by rewrite take_app_le by lia|].
    rewrite <- E. apply take_app_exact. by rewrite length_le_bytes. }
  rewrite le_value_length, Nat2Z.id, length_drop by lia.
  apply (f_equal length) in E. rewrite !length_app, length_le_bytes in E.
  destruct q; [done|simpl in E; lia].
Qed.

#[program] Definition prefixed_field : Cacheable bytes := {|
  put := CacheableWriter.write_prefixed n;
  get := CacheableReader.read_prefixed n;
  storable old s := zlength s < 2 ^ (8 * Z.of_nat n) /\ (s = [] -> old = [])
|}.
Next Obligation. done. Qed.
Next Obligation.
  intros old s rest k [Hs Hold] _. eexists. rewrite write_prefixed_eq by done.
  unfold CacheableReader.read_prefixed. cbn [ptr].
  rewrite <- app_assoc, take_app_exact, drop_app_exact by (by rewrite length_le_bytes).
  rewrite le_value_length, Nat2Z.id by done.
  rewrite !(proj2 (Nat.ltb_ge _ _)) by (rewrite !length_app, ?length_le_bytes; lia).
  unfold CacheableReader.advance; cbn [ptr]. rewrite drop_app_exact, take_app_exact by done.
  destruct s; [by rewrite Hold|done].
Qed.
Next Obligation.
  intros old s p q k [Hs _] _ E Hq. rewrite write_prefixed_eq in E by done.
  unfold CacheableReader.read_prefixed. cbn [ptr].
  destruct (prefixed_cut s p q) as [Hl|[Hl1 Hl2]]; [done..| |].
  - by rewrite (proj2 (Nat.ltb_lt _ _) Hl).
  - by rewrite (proj2 (Nat.ltb_ge _ _) Hl1), (proj2 (Nat.ltb_lt _ _) Hl2).
Qed.
End prefixed_fields.

#[program] Definition compressed_field : Cacheable Z := {|
  put := CacheableWriter.serializecompressedu64;
  get := CacheableReader.unserializecompressedu64;
  storable _ z := 0 <= z < 2 ^ 64
|}.
Next Obligation. done. Qed.
Next Obligation.
  intros old v rest k Hv Hrest. eexists.
  unfold CacheableWriter.serializecompressedu64, CacheableReader.unserializecompressedu64.
  rewrite app_nil_l. cbn [ptr]. pose proof (Serialize64.length_serialize v) as L.
  rewrite s32_id, Serialize64.unserialize_serialize by (done || rewrite ?length_app; lia).
  by rewrite Nat2Z.id, drop_app_length.
Qed.
Next Obligation.
  intros old v p q k Hv Hp E Hq. unfold CacheableWriter.serializecompressedu64 in E.
  rewrite app_nil_l in E. unfold CacheableReader.unserializecompressedu64. cbn [ptr].
  enough (Serialize64.unserialize p (s32 (zlength p)) = None) as -> by done.
  rewrite s32_id by lia. unfold Serialize64.unserialize.
  rewrite (proj2 (Z.leb_le (zlength p) _)), orb_true_r; [done|].
  destruct p as [|b p]; [done|]. pose proof (Serialize64.serialize_head v []) as Hh.
  rewrite app_nil_r, E in Hh. unfold cchar in *; simpl in Hh |- *. rewrite Hh.
  apply (f_equal length) in E. unfold Serialize64.serialize in E. cbn [length app] in E.
  rewrite length_app in E. destruct q; [done|simpl in E; lia].
Qed.

(** ** Records as sequences of fields *)

Inductive kind :=
  | KI8 | KI32 | KI64 | KU8 | KU16 | KU32 | KU64 | KHandle | KNodeHandle | KByte | KDouble
  | KBool | KCompressed | KString | KStringU32 | KBinary (len : nat).

Definition carrier (k : kind) : Type :=
  match k with
  | KBool => bool
  | KString | KStringU32 | KBinary _ => bytes
  | _ => Z
  end.

(** What the variable the reader fills holds before: a fresh object. *)
Definition fresh (k : kind) : carrier k :=
  match k with
  | KBool => false
  | KString | KStringU32 | KBinary _ => []
  | _ => 0
  end.

Definition codec (k : kind) : Cacheable (carrier k) :=
  match k with
  | KI8 => signed_field 1 ltac:(lia)
  | KI32 => signed_field 4 ltac:(lia)
  | KI64 => signed_field 8 ltac:(lia)
  | KU8 | KByte => unsigned_field 1
  | KU16 => unsigned_field 2
  | KU32 => unsigned_field 4
  | KU64 | KHandle | KDouble => unsigned_field 8
  | KNodeHandle => unsigned_field 6
  | KBool => bool_field
  | KCompressed => compressed_field
  | KString => prefixed_field 2
  | KStringU32 => prefixed_field 4
  | KBinary len => binary_field len
  end.

(** The calls of the writer and the reader for each kind of field. *)
Definition write_field (k : kind) : bytes -> carrier k -> bytes :=
  match k with
  | KI8 => CacheableWriter.serializei8
  | KI32 => CacheableWriter.serializei32
  | KI64 => CacheableWriter.serializei64
  | KU8 => CacheableWriter.serializeu8
  | KU16 => CacheableWriter.serializeu16
  | KU32 => CacheableWriter.serializeu32
  | KU64 => CacheableWriter.serializeu64
  | KHandle => CacheableWriter.serializehandle
  | KNodeHandle => CacheableWriter.serializenodehandle
  | KByte => CacheableWriter.serializebyte
  | KDouble => CacheableWriter.serializedouble
  | KBool => CacheableWriter.serializebool
  | KCompressed => CacheableWriter.serializecompressedu64
  | KString => CacheableWriter.serializestring
  | KStringU32 => CacheableWriter.serializestring_u32
  | KBinary len => CacheableWriter.serializebinary
  end.

Definition read_field (k : kind) : carrier k -> reader -> bool * carrier k * reader :=
  match k with
  | KI8 => CacheableReader.unserializei8
  | KI32 => CacheableReader.unserializei32
  | KI64 => CacheableReader.unserializei64
  | KU8 => CacheableReader.unserializeu8
  | KU16 => CacheableReader.unserializeu16
  | KU32 => CacheableReader.unserializeu32
  | KU64 => CacheableReader.unserializeu64
  | KHandle => CacheableReader.unserializehandle
  | KNodeHandle => CacheableReader.unserializenodehandle
  | KByte => CacheableReader.unserializebyte
  | KDouble => CacheableReader.unserializedouble
  | KBool => CacheableReader.unserializebool
  | KCompressed => CacheableReader.unserializecompressedu64
  | KString => CacheableReader.unserializestring
  | KStringU32 => CacheableReader.unserializestring_u32
  | KBinary len => CacheableReader.unserializebinary len
  end.

(** The values a field of each kind can carry. *)
Definition representable (k : kind) (v : carrier k) : Prop := @storable _ (codec k) (fresh k) v.

Lemma write_field_put k dest v :
  representable k v -> write_field k dest v = @put _ (codec k) dest v.
Proof.
  destruct k; try done. intros Hv. simpl in *. unfold CacheableWriter.serializebinary.
  by rewrite <- Hv, take_app_length.
Qed.

Lemma read_field_get k old r : read_field k old r = @get _ (codec k) old r.
Proof. by destruct k. Qed.

Definition fields := list (sigT carrier).

Definition write_fields (dest : bytes) (fs : fields) : bytes :=
  fold_left (fun dest '(existT k v) => write_field k dest v) fs dest.

(** [if (!r.unserializeX(x) || !r.unserializeY(y) ...) return false]. *)
Fixpoint read_fields (ks : list kind) (r : reader) : option (fields * reader) :=
  match ks with
  | [] => Some ([], r)
  | k :: ks =>
      let '(ok, v, r) := read_field k (fresh k) r in
      if ok then '(vs, r) ← read_fields ks r; Some (existT k v :: vs, r) else None
  end.

Definition fields_ok (fs : fields) : Prop := Forall (fun '(existT k v) => representable k v) fs.

Lemma write_fields_cons k v fs dest :
  representable k v -> fields_ok fs ->
  write_fields dest (existT k v :: fs) = dest ++ @put _ (codec k) [] v ++ write_fields [] fs.
Proof.
  intros Hv Hfs. simpl. rewrite write_field_put, put_app by done.
  generalize (@put _ (codec k) [] v). intros p.
  enough (forall d, write_fields d fs = d ++ write_fields [] fs) as ->
    by (by rewrite <- app_assoc).
  induction Hfs as [|[k' v'] fs Hv' Hfs IH]; intros d; [by rewrite app_nil_r|].
  simpl. rewrite write_field_put, put_app by done.
  rewrite (write_field_put k' [] v') by done.
  rewrite (IH (d ++ _)), (IH (@put _ (codec k') [] v')). by rewrite app_assoc.
Qed.

Lemma write_fields_nil_cons k v fs :
  representable k v -> fields_ok fs ->
  write_fields [] (existT k v :: fs) = @put _ (codec k) [] v ++ write_fields [] fs.
Proof. intros. by rewrite write_fields_cons. Qed.

Lemma read_fields_cons k v fs rest n :
  representable k v -> zlength rest < 2 ^ 30 ->
  exists n', read_fields (k :: fs) (Reader (@put _ (codec k) [] v ++ rest) n) =
    ('(vs, r) ← read_fields fs (Reader rest n'); Some (existT k v :: vs, r)).
Proof.
  intros Hv Hr. destruct (@get_put _ (codec k) (fresh k) v rest n Hv Hr) as [n' E].
  exists n'. cbn [read_fields]. by rewrite read_field_get, E.
Qed.

(** Whatever sequence of fields a record consists of, reading it with the
    matching sequence of [CacheableReader] calls returns exactly the values
    written and leaves what follows the record. *)
Theorem record_roundtrip (fs : fields) (rest : bytes) (n : Z) :
  fields_ok fs -> zlength (write_fields [] fs ++ rest) < 2 ^ 30 ->
  exists n', read_fields (projT1 <$> fs) (Reader (write_fields [] fs ++ rest) n)
    = Some (fs, Reader rest n').
Proof.
  intros Hfs. revert n. induction Hfs as [|[k v] fs Hv Hfs IH]; intros n Hl; [by exists n|].
  rewrite write_fields_nil_cons in * by done. rewrite <- app_assoc in *.
  destruct (read_fields_cons k v (projT1 <$> fs) (write_fields [] fs ++ rest) n) as [n1 E];
    [done|rewrite length_app in Hl; lia|].
  cbn [fmap list_fmap projT1]. rewrite E.
  destruct (IH n1) as [n2 ->]; [rewrite length_app in Hl; lia|]. by exists n2.
Qed.

Lemma record_roundtrip_witness :
  exists n', read_fields [KHandle; KString; KBool; KCompressed]
      (Reader (write_fields [] [existT KHandle 77; existT KString [1; 2]; existT KBool true;
                                existT KCompressed 70000] ++ [9]) 0)
    = Some ([existT KHandle 77; existT KString [1; 2]; existT KBool true;
             existT KCompressed 70000], Reader [9] n').
Proof.
  apply (record_roundtrip [existT KHandle 77; existT KString [1; 2]; existT KBool true;
                           existT KCompressed 70000] [9] 0).
  - repeat apply Forall_cons_2; try apply Forall_nil_2; unfold representable; simpl;
      repeat split; (lia || done).
  - vm_compute. reflexivity.
Defined.

(** C38: a record cut anywhere before its end is refused by the reader: no proper
    prefix of a serialized record unserializes. *)
Theorem record_truncated (fs : fields) (p q : bytes) (n : Z) :
  fields_ok fs -> write_fields [] fs = p ++ q -> q <> [] -> zlength p < 2 ^ 30 ->
  read_fields (projT1 <$> fs) (Reader p n) = None.
Proof.
  intros Hfs. revert p n. induction Hfs as [|[k v] fs Hv Hfs IH]; intros p n E Hq Hp.
  { by destruct p, q. }
  rewrite write_fields_nil_cons in E by done. symmetry in E.
  apply app_eq_inv in E as [(x & -> & E)|(x & Hput & E)].
  - destruct (read_fields_cons k v (projT1 <$> fs) x n) as [n1 E1];
      [done|rewrite length_app in Hp; lia|].
    cbn [fmap list_fmap projT1]. rewrite E1.
    by rewrite IH by (done || rewrite length_app in Hp; lia).
  - destruct (decide (x = [])) as [->|Hx].
    { rewrite app_nil_r in Hput. cbn [app] in E.
      destruct (read_fields_cons k v (projT1 <$> fs) [] n) as [n1 E1]; [done|done|].
      rewrite app_nil_r, Hput in E1. cbn [fmap list_fmap projT1]. rewrite E1.
      by rewrite IH by done. }
    cbn [fmap list_fmap projT1 read_fields]. rewrite read_field_get.
    pose proof (@get_truncated _ (codec k) (fresh k) v p x n Hv Hp ltac:(done) Hx) as Hg.
    destruct (get _ _) as [[ok v'] r']. simpl in Hg. by subst.
Qed.

Lemma record_truncated_witness :
  read_fields [KU32; KString] (Reader [5; 0; 0; 0; 3; 0; 97; 98] 0) = None.
Proof.
  apply (record_truncated [existT KU32 5; existT KString [97; 98; 99]] _ [99] 0).
  - repeat apply Forall_cons_2; try apply Forall_nil_2; unfold representable; simpl;
      repeat split; (lia || done).
  - vm_compute. reflexivity.
  - done.
  - vm_compute. reflexivity.
Defined.

Lemma mask48_mod h : NodeHandle.mask48 h = h mod 2 ^ 48.
Proof. unfold NodeHandle.mask48. change (2 ^ 48 - 1) with (Z.ones 48). by apply Z.land_ones. Qed.

(** A node handle survives the 6-byte serialization up to the equality of
    node handles, so the undefined handle stays undefined. *)
Theorem nodehandle_roundtrip (h old n : Z) (rest : bytes) :
  0 <= h < 2 ^ 64 ->
  exists h' n', CacheableReader.unserializeNodeHandle old
      (Reader (serializeNodeHandle [] h ++ rest) n) = (true, h', Reader rest n')
    /\ NodeHandle.eq h h' = true /\ NodeHandle.isUndef h' = NodeHandle.isUndef h.
Proof.
  intros Hh. unfold CacheableReader.unserializeNodeHandle, serializeNodeHandle,
    CacheableReader.unserializenodehandle, CacheableReader.read_fixed,
    CacheableWriter.serializenodehandle. rewrite app_nil_l. cbn [ptr].
  rewrite (proj2 (Nat.ltb_ge _ _)) by (rewrite length_app, length_le_bytes; lia).
  rewrite take_app_exact by done. eexists _, _. unfold CacheableReader.advance; cbn [ptr].
  rewrite drop_app_exact by done. split; [done|]. unfold NodeHandle.set6byte.
  rewrite le_value_bytes. change (256 ^ Z.of_nat 6) with (2 ^ 48).
  enough (NodeHandle.mask48 (NodeHandle.as8byte h mod 2 ^ 48) = NodeHandle.mask48 h) as E.
  { unfold NodeHandle.eq, NodeHandle.isUndef. by rewrite E, Z.eqb_refl. }
  unfold NodeHandle.as8byte, NodeHandle.isUndef. rewrite !mask48_mod.
  case_if; zbool; rewrite ?Zmod_mod; [|done]. by rewrite Heqb.
Qed.

Lemma nodehandle_roundtrip_witness :
  exists h' n', CacheableReader.unserializeNodeHandle 0
      (Reader (serializeNodeHandle [] (2 ^ 64 - 1) ++ [7]) 3) = (true, h', Reader [7] n')
    /\ NodeHandle.eq (2 ^ 64 - 1) h' = true
    /\ NodeHandle.isUndef h' = NodeHandle.isUndef (2 ^ 64 - 1).
Proof. apply nodehandle_roundtrip. vm_compute. split; congruence. Defined.

Lemma flags_zero (b : list bool) :
  Forall (fun x => x = 0) (Z.b2z <$> b) <-> Forall (fun f => f = false) b.
Proof. rewrite Forall_fmap. apply Forall_iff. by intros []. Qed.

(** The expansion flags gate the record's version: a reader that knows
    [used] of the eight flags accepts exactly the records that set none of the
    others, and a refused record is not consumed. *)
Theorem expansionflags_gate (flags : list bool) (used : nat) (old rest : bytes) (n : Z) :
  length flags = 8%nat ->
  let r := Reader (CacheableWriter.serializeexpansionflags [] flags ++ rest) n in
  let '(ok, field, r') := CacheableReader.unserializeexpansionflags used old r in
  field = (Z.b2z <$> flags)
  /\ (ok = true <-> Forall (fun f => f = false) (drop used flags))
  /\ ptr r' = (if ok then rest else ptr r).
Proof.
  intros Hf r. unfold CacheableReader.unserializeexpansionflags.
  subst r. unfold CacheableWriter.serializeexpansionflags. rewrite app_nil_l. cbn [ptr].
  rewrite (proj2 (Nat.ltb_ge _ _)) by (rewrite length_app, length_fmap; lia).
  rewrite take_app_exact by (by rewrite length_fmap).
  rewrite <- fmap_drop. case_bool_decide as H; rewrite flags_zero in H; split_and!; try done.
  unfold CacheableReader.advance; cbn [ptr]. apply drop_app_exact. by rewrite length_fmap.
Qed.

Lemma expansionflags_gate_witness :
  let flags := [true; false; true; false; false; false; false; false] in
  let r := Reader (CacheableWriter.serializeexpansionflags [] flags ++ [4]) 0 in
  let '(ok, field, r') := CacheableReader.unserializeexpansionflags 2 [] r in
  field = (Z.b2z <$> flags)
  /\ (ok = true <-> Forall (fun f => f = false) (drop 2 flags))
  /\ ptr r' = (if ok then [4] else ptr r).
Proof. apply expansionflags_gate. reflexivity. Defined.
