(* ===== verification/OMap.v ===== *)
(** * Ordered maps: the part of [std::map] the models use

    A map is the list of its entries in the order of the keys, which is the
    order in which the source iterates over it.  [omap_insert] is assignment
    through [operator[]], [omap_find] is [find], [omap_erase] is [erase]. *)

From S2P Require Import Prelude.
Local Open Scope Z_scope.

(** A strict total order, as the comparator of a [std::map]. *)
Class StrictOrd (K : Type) := {
  kltb : K -> K -> bool;
  kltb_irrefl : forall a, kltb a a = false;
  kltb_trans : forall a b c, kltb a b = true -> kltb b c = true -> kltb a c = true;
  kltb_total : forall a b, kltb a b = false -> kltb b a = false -> a = b
}.

#[export, program] Instance Z_StrictOrd : StrictOrd Z := {| kltb := Z.ltb |}.
Next Obligation. intros. apply Z.ltb_irrefl. Qed.
Next Obligation. intros a b c H1 H2. zbool. apply Z.ltb_lt. lia. Qed.
Next Obligation. intros a b H1 H2. zbool. lia. Qed.

(** [std::string] keys compare as unsigned bytes, then by length. *)
Fixpoint bytes_ltb (a b : bytes) : bool :=
  match a, b with
  | _, [] => false
  | [], _ => true
  | x :: a, y :: b => (x <? y) || ((x =? y) && bytes_ltb a b)
  end.

#[export, program] Instance bytes_StrictOrd : StrictOrd bytes := {| kltb := bytes_ltb |}.
Next Obligation. induction a as [|x a IH]; [done|]. simpl. by rewrite Z.ltb_irrefl, Z.eqb_refl, IH. Qed.
Next Obligation.
  induction a as [|x a IH]; intros [|y b] [|z c] H1 H2; try done. simpl in *.
  apply orb_true_iff in H1 as [H1|[H1 H1']%andb_true_iff];
    apply orb_true_iff in H2 as [H2|[H2 H2']%andb_true_iff]; zbool; apply orb_true_iff.
  1-3: left; apply Z.ltb_lt; lia.
  right. apply andb_true_iff. split; [apply Z.eqb_eq; lia|eauto].
Qed.
Next Obligation.
  induction a as [|x a IH]; intros [|y b] H1 H2; try done. simpl in *. zbool.
  assert (x = y) as -> by lia. rewrite Z.eqb_refl in *. simpl in *. f_equal. eauto.
Qed.

Section omap.
Context {K V : Type} `{StrictOrd K}.
Abbreviation omap := (list (K * V)).
Implicit Types (m : omap) (k : K) (v : V).

Fixpoint omap_find k m : option V :=
  match m with
  | [] => None
  | (k', v') :: m => if kltb k k' then None else if kltb k' k then omap_find k m else Some v'
  end.

Fixpoint omap_insert k v m : omap :=
  match m with
  | [] => [(k, v)]
  | (k', v') :: m' =>
      if kltb k k' then (k, v) :: m
      else if kltb k' k then (k', v') :: omap_insert k v m'
      else (k, v) :: m'
  end.

Fixpoint omap_erase k m : omap :=
  match m with
  | [] => []
  | (k', v') :: m' =>
      if kltb k k' then m
      else if kltb k' k then (k', v') :: omap_erase k m'
      else m'
  end.

(** The entries are in strictly increasing order of the keys. *)
Definition below k m : Prop := Forall (fun e => kltb k e.1 = true) m.

Fixpoint omap_ok m : Prop :=
  match m with
  | [] => True
  | (k, _) :: m => below k m /\ omap_ok m
  end.

Lemma kltb_asym a b : kltb a b = true -> kltb b a = false.
Proof.
  intros H1. destruct (kltb b a) eqn:E; [|done].
  pose proof (kltb_trans _ _ _ H1 E) as C. by rewrite kltb_irrefl in C.
Qed.

Lemma below_trans k k' m : kltb k k' = true -> below k' m -> below k m.
Proof.
  intros Hk Hb. eapply Forall_impl; [done|]. intros [] ?. by eapply kltb_trans.
Qed.

Lemma find_below k m : below k m -> omap_find k m = None.
Proof. destruct m as [|[k' v'] m]; [done|]. intros [Hk _]%Forall_cons. simpl in *. by rewrite Hk. Qed.

Lemma find_insert_eq k v m : omap_find k (omap_insert k v m) = Some v.
Proof.
  induction m as [|[k' v'] m IH]; simpl; [by rewrite kltb_irrefl|].
  destruct (kltb k k') eqn:E1; simpl; [by rewrite kltb_irrefl|].
  destruct (kltb k' k) eqn:E2; simpl; [by rewrite E1, E2|by rewrite kltb_irrefl].
Qed.

Lemma find_insert_ne k k' v m :
  omap_ok m -> k <> k' -> omap_find k' (omap_insert k v m) = omap_find k' m.
Proof.
  intros Hm Hne. induction m as [|[k1 v1] m IH]; simpl.
  - destruct (kltb k' k) eqn:E1; [done|]. destruct (kltb k k') eqn:E2; [done|].
    by destruct Hne; apply kltb_total.
  - destruct Hm as [Hb Hm]. destruct (kltb k k1) eqn:E1; simpl.
    + destruct (kltb k' k) eqn:E2.
      { by rewrite (kltb_trans _ _ _ E2 E1). }
      destruct (kltb k k') eqn:E3; [done|]. by destruct Hne; apply kltb_total.
    + destruct (kltb k1 k) eqn:E2; simpl; [by rewrite IH|].
      pose proof (kltb_total _ _ E1 E2) as <-.
      destruct (kltb k' k) eqn:E3; [done|]. destruct (kltb k k') eqn:E4; [done|].
      by destruct Hne; apply kltb_total.
Qed.

Lemma insert_below k0 k v m : kltb k0 k = true -> below k0 m -> below k0 (omap_insert k v m).
Proof.
  intros Hk. induction m as [|[k1 v1] m IH]; simpl; intros Hb; [by constructor|].
  apply Forall_cons in Hb as [Hb1 Hb]. repeat case_if; repeat constructor; auto.
  by apply IH.
Qed.

Lemma insert_ok k v m : omap_ok m -> omap_ok (omap_insert k v m).
Proof.
  induction m as [|[k1 v1] m IH]; simpl; intros Hm; [by repeat constructor|].
  destruct Hm as [Hb Hm]. destruct (kltb k k1) eqn:E1; [|destruct (kltb k1 k) eqn:E2].
  - split; [|done]. constructor; [done|]. by eapply below_trans.
  - split; [by apply insert_below|auto].
  - rewrite <- (kltb_total _ _ E1 E2) in Hb. done.
Qed.

Lemma erase_below k0 k m : below k0 m -> below k0 (omap_erase k m).
Proof.
  induction m as [|[k1 v1] m IH]; simpl; intros Hb; [done|].
  apply Forall_cons in Hb as [Hb1 Hb]. repeat case_if; repeat constructor; auto. by apply IH.
Qed.

Lemma erase_ok k m : omap_ok m -> omap_ok (omap_erase k m).
Proof.
  induction m as [|[k1 v1] m IH]; simpl; [done|]. intros [Hb Hm].
  repeat case_if; simpl; auto. split; [by apply erase_below|auto].
Qed.

Lemma find_erase_eq k m : omap_ok m -> omap_find k (omap_erase k m) = None.
Proof.
  induction m as [|[k1 v1] m IH]; simpl; [done|]. intros [Hb Hm].
  destruct (kltb k k1) eqn:E1; simpl; [by rewrite E1|].
  destruct (kltb k1 k) eqn:E2; simpl; [rewrite E1, E2; auto|].
  rewrite (kltb_total _ _ E1 E2). by apply find_below.
Qed.

Lemma find_erase_ne k k' m :
  omap_ok m -> k <> k' -> omap_find k' (omap_erase k m) = omap_find k' m.
Proof.
  intros Hm Hne. induction m as [|[k1 v1] m IH]; simpl; [done|]. destruct Hm as [Hb Hm].
  destruct (kltb k k1) eqn:E1; simpl; [done|].
  destruct (kltb k1 k) eqn:E2; simpl; [by rewrite IH|].
  pose proof (kltb_total _ _ E1 E2) as <-.
  destruct (kltb k' k) eqn:E3.
  - apply find_below. eapply below_trans; eauto.
  - destruct (kltb k k') eqn:E4; [done|]. by destruct Hne; apply kltb_total.
Qed.

Lemma find_In k v m : omap_ok m -> omap_find k m = Some v <-> (k, v) ∈ m.
Proof.
  intros Hm. induction m as [|[k1 v1] m IH]; simpl; [split; [done|by intros ?%not_elem_of_nil]|].
  destruct Hm as [Hb Hm]. rewrite elem_of_cons.
  destruct (kltb k k1) eqn:E1; [|destruct (kltb k1 k) eqn:E2].
  - split; [done|]. intros [E|E]; [simplify_eq; by rewrite kltb_irrefl in E1|].
    unfold below in Hb. rewrite Forall_forall in Hb. specialize (Hb _ E). simpl in Hb.
    by rewrite (kltb_asym _ _ E1) in Hb.
  - rewrite IH by done. split; [by right|]. intros [E|E]; [|done].
    simplify_eq. by rewrite kltb_irrefl in E2.
  - pose proof (kltb_total _ _ E1 E2) as ->. split; [intros [= ->]; by left|].
    intros [E|E]; [by simplify_eq|]. unfold below in Hb. rewrite Forall_forall in Hb.
    specialize (Hb _ E). simpl in Hb. by rewrite kltb_irrefl in Hb.
Qed.

Lemma take_ok (n : nat) m : omap_ok m -> omap_ok (take n m).
Proof.
  revert n. induction m as [|[k v] m IH]; intros [|n]; simpl; try done.
  intros [Hb Hok]. split; [by apply Forall_take|auto].
Qed.

(** Two maps with the same lookups are the same map. *)
Lemma omap_ext m1 m2 :
  omap_ok m1 -> omap_ok m2 -> (forall k, omap_find k m1 = omap_find k m2) -> m1 = m2.
Proof.
  revert m2. induction m1 as [|[k1 v1] m1 IH]; intros [|[k2 v2] m2] H1 H2 E; [done|..].
  - specialize (E k2). simpl in E. by rewrite kltb_irrefl in E.
  - specialize (E k1). simpl in E. by rewrite kltb_irrefl in E.
  - destruct H1 as [Hb1 H1], H2 as [Hb2 H2].
    assert (k1 = k2) as <-.
    { pose proof (E k1) as E1. pose proof (E k2) as E2. simpl in E1, E2.
      rewrite kltb_irrefl in E1, E2. apply kltb_total.
      - destruct (kltb k1 k2); [done|done].
      - destruct (kltb k2 k1); [done|done]. }
    pose proof (E k1) as E1. simpl in E1. rewrite kltb_irrefl in E1. simplify_eq. f_equal.
    apply IH; [done..|]. intros k. specialize (E k). simpl in E.
    destruct (kltb k k1) eqn:E1.
    { rewrite !find_below; [done|by eapply below_trans..]. }
    destruct (kltb k1 k) eqn:E2; [done|].
    rewrite (kltb_total _ _ E1 E2), !find_below; done.
Qed.

(** Inserting above every key appends. *)
Lemma insert_last k v m :
  Forall (fun e => kltb e.1 k = true) m -> omap_insert k v m = m ++ [(k, v)].
Proof.
  induction 1 as [|[k1 v1] m Hk Hm IH]; simpl in *; [done|].
  by rewrite (kltb_asym _ _ Hk), Hk, IH.
Qed.

(** Filling an empty map with the entries of another rebuilds it. *)
Lemma rebuild m1 m2 :
  omap_ok (m1 ++ m2) -> foldl (fun m e => omap_insert e.1 e.2 m) m1 m2 = m1 ++ m2.
Proof.
  revert m1. induction m2 as [|[k v] m2 IH]; intros m1 Hok; [by rewrite app_nil_r|].
  simpl. rewrite insert_last.
  - rewrite IH by by rewrite <- app_assoc. by rewrite <- app_assoc.
  - clear IH. induction m1 as [|[k1 v1] m1 IH1]; [constructor|].
    destruct Hok as [Hb Hok]. constructor; [|auto]. apply Forall_app in Hb as [_ Hb].
    by apply Forall_cons in Hb as [? _].
Qed.

(** The second of two assignments to a key wins. *)
Lemma insert_insert k v v' m : omap_insert k v' (omap_insert k v m) = omap_insert k v' m.
Proof.
  induction m as [|[k1 v1] m IH]; simpl; [by rewrite kltb_irrefl|].
  destruct (kltb k k1) eqn:E1; simpl; [by rewrite kltb_irrefl|].
  destruct (kltb k1 k) eqn:E2; simpl; [by rewrite E1, E2, IH|by rewrite kltb_irrefl].
Qed.

End omap.
#[global] Arguments omap_find : simpl nomatch.

(** ** Integer keys *)
Section zmap.
Context {V : Type}.
Implicit Types (m : list (Z * V)).

(** How many keys are not below [p]: the measure of loops that walk upwards. *)
Fixpoint count_ge (p : Z) m : nat :=
  match m with
  | [] => 0
  | (k, _) :: m => ((if (p <=? k)%Z then 1 else 0) + count_ge p m)%nat
  end.

Lemma count_ge_length p m : (count_ge p m <= length m)%nat.
Proof. induction m as [|[k v] m IH]; simpl; [lia|]. case_if; lia. Qed.

Lemma count_ge_mono p p' m : p <= p' -> (count_ge p' m <= count_ge p m)%nat.
Proof. intros Hp. induction m as [|[k v] m IH]; simpl; [lia|]. repeat case_if; lia. Qed.

Lemma find_cons k k0 v0 m :
  omap_find k ((k0, v0) :: m)
  = if k <? k0 then None else if k0 <? k then omap_find k m else Some v0.
Proof. done. Qed.

Lemma insert_cons k v k0 v0 m :
  omap_insert k v ((k0, v0) :: m)
  = if k <? k0 then (k, v) :: (k0, v0) :: m
    else if k0 <? k then (k0, v0) :: omap_insert k v m else (k, v) :: m.
Proof. done. Qed.

Lemma count_ge_found p p' m v :
  omap_find p m = Some v -> p < p' -> (count_ge p' m < count_ge p m)%nat.
Proof.
  intros Hf Hp. induction m as [|[k w] m IH]; [done|].
  rewrite find_cons in Hf. cbn [count_ge]. destruct (p <? k) eqn:E1; [done|]. destruct (k <? p) eqn:E2; zbool.
  - rewrite (proj2 (Z.leb_gt p' k)), (proj2 (Z.leb_gt p k)) by lia. auto.
  - rewrite (proj2 (Z.leb_gt p' k)), (proj2 (Z.leb_le p k)) by lia.
    pose proof (count_ge_mono p p' m). lia.
Qed.

Lemma find_Forall (P : Z * V -> Prop) k v m :
  omap_find k m = Some v -> Forall P m -> P (k, v).
Proof.
  intros Hf Hm. induction Hm as [|[k1 v1] m H1 Hm IH]; [done|]. rewrite find_cons in Hf.
  destruct (k <? k1) eqn:E1; [done|]. destruct (k1 <? k) eqn:E2; [auto|]. zbool.
  simplify_eq. by assert (k = k1) as -> by lia.
Qed.

Lemma insert_Forall (P : Z * V -> Prop) k v m :
  P (k, v) -> Forall P m -> Forall P (omap_insert k v m).
Proof.
  intros Hv. induction 1 as [|[k1 v1] m H1 Hm IH]; simpl; [by constructor|].
  repeat case_if; repeat constructor; auto.
Qed.

(** Looking above the first key skips it. *)
Lemma find_tail k k0 v0 m : k0 < k -> omap_find k ((k0, v0) :: m) = omap_find k m.
Proof.
  intros Hk. rewrite find_cons, (proj2 (Z.ltb_ge k k0)), (proj2 (Z.ltb_lt k0 k)) by lia. done.
Qed.

Lemma find_head k v0 m : omap_find k ((k, v0) :: m) = Some v0.
Proof. by rewrite find_cons, Z.ltb_irrefl. Qed.

End zmap.
