(* ===== verification/Crypto.v ===== *)
(** * Symmetric encryption of file data

    [SymmCipher] (src/crypto/cryptopp.cpp): block arithmetic, the combined CTR
    encryption and CBC-MAC of file chunks, the key handling, and [PaddedCBC]
    (src/utils.cpp).  The AES primitives come from Crypto++ and are parameters:
    the class [AES] names them and [AES_laws] states the documented behaviour
    the SDK relies on. *)

From S2P Require Import Prelude.
Local Open Scope Z_scope.

Definition BLOCKSIZE : nat := 16.
Definition KEYLENGTH : nat := 16.
Definition FILENODEKEYLENGTH : nat := 32.
Definition FOLDERNODEKEYLENGTH : nat := 16.

(** ** The primitives of Crypto++

    [ecb_encrypt] is AES of one block under the cipher's key, [ctr_process] is
    [CTR_Mode<AES>::ProcessData] for an initial counter block, [cbc_process_e] and
    [cbc_process_d] are CBC encryption and decryption for an IV ([None]: the
    library throws). *)
Class AES := {
  ecb_encrypt : bytes -> bytes;
  ctr_process : bytes -> bytes -> bytes;
  cbc_process_e : bytes -> bytes -> option bytes;
  cbc_process_d : bytes -> bytes -> option bytes
}.

Definition be_bytes (n : nat) (z : Z) : bytes := rev (le_bytes n z).
Definition be_value (l : bytes) : Z := le_value (rev l).

(** The counter block as a 128-bit big-endian integer. *)
Definition ctr_next (iv : bytes) : bytes := be_bytes 16 (be_value iv + 1).

Fixpoint keystream `{AES} (iv : bytes) (nblocks : nat) : bytes :=
  match nblocks with
  | O => []
  | S n => ecb_encrypt iv ++ keystream (ctr_next iv) n
  end.

Class AES_laws `{AES} : Prop := {
  ecb_length : forall b, length b = BLOCKSIZE -> length (ecb_encrypt b) = BLOCKSIZE;
  ecb_bytes_ok : forall b, length b = BLOCKSIZE -> bytes_ok (ecb_encrypt b);
  ctr_process_spec : forall iv data n,
    length iv = BLOCKSIZE -> length data = (BLOCKSIZE * n)%nat ->
    ctr_process iv data = zip_with Z.lxor data (keystream iv n);
  cbc_inverse : forall iv data, length iv = BLOCKSIZE -> (BLOCKSIZE | length data)%nat ->
    exists c, cbc_process_e iv data = Some c /\ length c = length data
      /\ cbc_process_d iv c = Some data
}.

Module SymmCipher.

(** [xorblock(src, dst, len)]: the new contents of [dst]; the word-wise variant
    for aligned pointers computes the same for [len = BLOCKSIZE]. *)
Definition xorblock_len (src dst : bytes) (len : nat) : bytes :=
  zip_with Z.lxor (take len dst) (take len src) ++ drop len dst.
Definition xorblock (src dst : bytes) : bytes := xorblock_len src dst BLOCKSIZE.

(** [setint64]: the big-endian image. *)
Definition setint64 (value : Z) : bytes := be_bytes 8 value.

(** [incblock]: increment the first [len] bytes as a big-endian counter. *)
Fixpoint incblock (dst : bytes) (len : nat) : bytes :=
  match len with
  | O => dst
  | S l =>
      let b := u8 (default 0 (dst !! l) + 1) in
      let dst := <[l := b]> dst in
      if b =? 0 then incblock dst l else dst
  end.

(** [setkey]: a file key is folded by xoring its halves, any other type uses
    the first 16 bytes; the string variant dispatches on the size. *)
Definition setkey (newkey : bytes) (type : Z) : bytes :=
  let key := take KEYLENGTH newkey in
  if type =? 0 then xorblock (drop KEYLENGTH newkey) key else key.

Definition setkey_string (key newKey : bytes) : bool * bytes :=
  if (length newKey =? FILENODEKEYLENGTH)%nat || (length newKey =? FOLDERNODEKEYLENGTH)%nat
  then (true, setkey newKey (if (length newKey =? FOLDERNODEKEYLENGTH)%nat then 1 else 0))
  else (false, key).

Definition isZeroKey (key : option bytes) (keySize : nat) : bool :=
  match key with
  | None => false
  | Some key =>
      if (keySize =? FILENODEKEYLENGTH)%nat
      then bool_decide (take BLOCKSIZE key = take BLOCKSIZE (drop BLOCKSIZE key))
      else if (keySize =? BLOCKSIZE)%nat
      then bool_decide (take BLOCKSIZE key = replicate BLOCKSIZE 0)
      else false
  end.

Section ctr_crypt.
Context `{AES}.

(** The first phase when encrypting: [remaining] is signed and whole blocks are
    folded, so the buffer must be padded to a whole block. *)
Fixpoint mac_encrypt (fuel : nat) (p : bytes) (remaining : Z) (mac : bytes) : bytes :=
  match fuel with
  | O => mac
  | S f =>
      if remaining <=? 0 then mac
      else mac_encrypt f (drop BLOCKSIZE p) (remaining - 16) (ecb_encrypt (xorblock p mac))
  end.

(** The second phase when decrypting folds only the [remaining] bytes of the
    last block. *)
Fixpoint mac_decrypt (fuel : nat) (p : bytes) (remaining : Z) (mac : bytes) : bytes :=
  match fuel with
  | O => mac
  | S f =>
      if 16 <=? remaining
      then mac_decrypt f (drop BLOCKSIZE p) (remaining - 16) (ecb_encrypt (xorblock p mac))
      else if 0 <? remaining
      then ecb_encrypt (xorblock_len p mac (Z.to_nat remaining))
      else mac
  end.

(** The counter block: the IV's object representation, then the block index. *)
Definition ctr_init (pos ctriv : Z) : bytes := le_bytes 8 ctriv ++ setint64 (pos / 16).

Definition paddedLen (len : Z) : Z := Z.land (u32 (len + 15)) (2 ^ 32 - 16).

(** [ctr_crypt]: the buffer and the MAC after the call.  The loops make at most
    [len] iterations, which is the fuel they get. *)
Definition ctr_crypt (data : bytes) (len pos ctriv : Z) (mac : option bytes)
    (encrypt initmac : bool) : bytes * option bytes :=
  let ctr := ctr_init pos ctriv in
  let mac := match mac with
             | Some m => Some (if initmac then take 8 ctr ++ take 8 ctr else m)
             | None => None
             end in
  let n := Z.to_nat (paddedLen len) in
  if encrypt then
    let mac := mac_encrypt (Z.to_nat len) data len <$> mac in
    (ctr_process ctr (take n data) ++ drop n data, mac)
  else
    let data := ctr_process ctr (take n data) ++ drop n data in
    (data, mac_decrypt (Z.to_nat len) data len <$> mac).

End ctr_crypt.

(** *** Block arithmetic *)

Lemma length_xorblock_len src dst n :
  (n <= length src)%nat -> length (xorblock_len src dst n) = length dst.
Proof.
  intros Hs. unfold xorblock_len.
  rewrite length_app, length_zip_with, !length_take, length_drop. lia.
Qed.

Lemma length_xorblock src dst :
  (BLOCKSIZE <= length src)%nat -> length (xorblock src dst) = length dst.
Proof. apply length_xorblock_len. Qed.

Lemma lxor_cancel data ks :
  (length data <= length ks)%nat ->
  zip_with Z.lxor (zip_with Z.lxor data ks) ks = data.
Proof.
  revert ks. induction data as [|d data IH]; intros [|k ks] Hl; simpl in *; [done..|lia|].
  rewrite IH by lia. f_equal. by rewrite Z.lxor_assoc, Z.lxor_nilpotent, Z.lxor_0_r.
Qed.

(** Xoring a partial block is xoring the block padded with zeros. *)
Lemma xorblock_zero_pad p z dst :
  length (p ++ replicate z 0) = BLOCKSIZE -> length dst = BLOCKSIZE ->
  xorblock (p ++ replicate z 0) dst = xorblock_len (p ++ replicate z 0) dst (length p).
Proof.
  intros Hl Hd. unfold xorblock, xorblock_len.
  rewrite length_app, length_replicate in Hl.
  rewrite (drop_ge dst BLOCKSIZE), app_nil_r by lia.
  rewrite take_app_length, !take_ge by (rewrite ?length_app, ?length_replicate; lia).
  rewrite <- (take_drop (length p) dst) at 1.
  rewrite zip_with_app by (rewrite length_take; lia). f_equal.
  assert (length (drop (length p) dst) = z) as Hz by (rewrite length_drop; lia).
  revert Hz. generalize (drop (length p) dst). clear.
  induction z as [|z IH]; intros [|x l] Hz; simpl in *; [done..|].
  rewrite Z.lxor_0_r, IH by lia. done.
Qed.

Lemma xorblock_app p q dst :
  length p = BLOCKSIZE -> xorblock (p ++ q) dst = xorblock p dst.
Proof.
  intros Hp. unfold xorblock, xorblock_len. rewrite take_app_le by lia. done.
Qed.

Lemma xorblock_len_app p q dst n :
  (n <= length p)%nat -> xorblock_len (p ++ q) dst n = xorblock_len p dst n.
Proof. intros Hp. unfold xorblock_len. by rewrite take_app_le by lia. Qed.

(** *** The MAC loops *)

Section mac_loops.
Context `{AES_laws}.

Lemma length_mac_step p mac :
  (BLOCKSIZE <= length p)%nat -> length mac = BLOCKSIZE ->
  length (ecb_encrypt (xorblock p mac)) = BLOCKSIZE.
Proof. intros. apply ecb_length. by rewrite length_xorblock. Qed.

(** Both loops compute the same MAC of a block-padded buffer. *)
Lemma mac_decrypt_encrypt f1 f2 (p : bytes) z r (mac : bytes) :
  length mac = BLOCKSIZE -> zlength p = r -> (BLOCKSIZE | length (p ++ replicate z 0%Z))%nat ->
  (z < BLOCKSIZE)%nat -> (length p <= f1)%nat -> (length p <= f2)%nat ->
  mac_decrypt f1 (p ++ replicate z 0) r mac = mac_encrypt f2 (p ++ replicate z 0) r mac.
Proof.
  revert f2 p r mac. induction f1 as [|f1 IH]; intros f2 p r mac Hm Hr [k Hk] Hz H1 H2.
  { destruct p; [|simpl in *; lia]. simpl in Hr. subst r. by destruct f2. }
  destruct f2 as [|f2]. { destruct p; [|simpl in *; lia]. simpl in Hr. by subst r. }
  cbn [mac_decrypt mac_encrypt]. rewrite length_app, length_replicate in Hk.
  unfold BLOCKSIZE in *.
  destruct (16 <=? r) eqn:E1; zbool.
  - rewrite (proj2 (Z.leb_gt _ _)) by lia.
    rewrite drop_app_le by lia. apply IH.
    + apply length_mac_step; [rewrite length_app; unfold BLOCKSIZE; lia|done].
    + rewrite length_drop. lia.
    + exists (k - 1)%nat. rewrite length_app, length_drop, length_replicate. lia.
    + done.
    + rewrite length_drop. lia.
    + rewrite length_drop. lia.
  - destruct (0 <? r) eqn:E2; zbool.
    + rewrite (proj2 (Z.leb_gt _ _)) by lia.
      assert (length p + z = 16)%nat as Hpz by lia.
      replace (Z.to_nat r) with (length p) by lia.
      rewrite <- xorblock_zero_pad by (rewrite ?length_app, ?length_replicate; done).
      destruct f2; cbn [mac_encrypt]; [done|]. by rewrite (proj2 (Z.leb_le _ _)) by lia.
    + by rewrite (proj2 (Z.leb_le _ _)) by lia.
Qed.

(** Any fuel not below the remaining length gives the same result. *)
Lemma mac_decrypt_fuel f n p r mac :
  (Z.to_nat r <= n)%nat -> (Z.to_nat r <= f)%nat ->
  mac_decrypt f p r mac = mac_decrypt n p r mac.
Proof.
  revert f p r mac. induction n as [|n IH]; intros [|f] p r mac Hn Hf; cbn [mac_decrypt]; try done.
  - by rewrite (proj2 (Z.leb_gt _ _)), (proj2 (Z.ltb_ge _ _)) by lia.
  - by rewrite (proj2 (Z.leb_gt _ _)), (proj2 (Z.ltb_ge _ _)) by lia.
  - case_if; [|done]. zbool. apply IH; lia.
Qed.

(** The MAC of a buffer whose first part is whole blocks resumes from the MAC
    of that part. *)
Lemma mac_decrypt_app f (p q : bytes) r (mac : bytes) :
  length mac = BLOCKSIZE -> (BLOCKSIZE | length p)%nat -> 0 <= r -> r <= zlength q ->
  (length p + Z.to_nat r <= f)%nat ->
  mac_decrypt f (p ++ q) (zlength p + r) mac
  = mac_decrypt (Z.to_nat r) q r (mac_decrypt (length p) p (zlength p) mac).
Proof.
  intros Hm [k Hk] Hr0 Hrq Hf. revert f p mac Hm Hk Hf.
  induction k as [|k IH]; intros f p mac Hm Hk Hf.
  - destruct p; [|done]. cbn [length mac_decrypt app]. clear Hk.
    apply mac_decrypt_fuel; simpl in *; lia.
  - assert (16 <= length p)%nat as Hp by (unfold BLOCKSIZE in *; lia).
    destruct f as [|f]; [lia|]. destruct (length p) as [|n] eqn:En; [lia|].
    cbn [mac_decrypt]. rewrite (proj2 (Z.leb_le _ _)), (proj2 (Z.leb_le _ _)) by lia.
    rewrite drop_app_le by (unfold BLOCKSIZE; lia).
    set (p' := drop BLOCKSIZE p).
    assert (length p' = (k * BLOCKSIZE)%nat) as Hp'.
    { subst p'. rewrite length_drop. unfold BLOCKSIZE in *. lia. }
    assert (xorblock (p ++ q) mac = xorblock p mac) as ->.
    { unfold xorblock. apply xorblock_len_app. unfold BLOCKSIZE. lia. }
    set (m' := ecb_encrypt (xorblock p mac)).
    replace (Z.of_nat (S n) + r - 16) with (zlength p' + r) by (unfold BLOCKSIZE in *; lia).
    replace (Z.of_nat (S n) - 16) with (zlength p') by (unfold BLOCKSIZE in *; lia).
    rewrite IH.
    + f_equal. apply mac_decrypt_fuel; unfold BLOCKSIZE in *; lia.
    + apply length_mac_step; [unfold BLOCKSIZE; lia|done].
    + done.
    + unfold BLOCKSIZE in *. lia.
Qed.

End mac_loops.

(** *** The key stream *)

Lemma paddedLen_eq len : 0 <= len < 2 ^ 31 -> paddedLen len = 16 * ((len + 15) / 16).
Proof.
  intros Hl. unfold paddedLen. rewrite wrapu_id by lia.
  change (2 ^ 32 - 16) with (Z.ldiff (Z.ones 32) (Z.ones 4)).
  assert (forall x, Z.land x (Z.ldiff (Z.ones 32) (Z.ones 4))
                    = Z.ldiff (Z.land x (Z.ones 32)) (Z.ones 4)) as ->.
  { intros x. apply Z.bits_inj'. intros n Hn.
    rewrite !Z.land_spec, !Z.ldiff_spec, !Z.land_spec. by rewrite andb_assoc. }
  rewrite Z.land_ones, Z.mod_small, Z.ldiff_ones_r, Z.shiftl_mul_pow2, Z.shiftr_div_pow2 by lia.
  change (2 ^ 4) with 16. lia.
Qed.

Lemma length_ctr_init pos ctriv : length (ctr_init pos ctriv) = BLOCKSIZE.
Proof.
  unfold ctr_init, setint64, be_bytes.
  by rewrite length_app, length_rev, !length_le_bytes.
Qed.

Lemma ctr_next_init pos ctriv :
  0 <= pos -> pos + 16 < 2 ^ 63 -> ctr_next (ctr_init pos ctriv) = ctr_init (pos + 16) ctriv.
Proof.
  intros H0 H1. unfold ctr_next, ctr_init, setint64, be_value, be_bytes.
  rewrite rev_app_distr, rev_involutive, le_value_app, length_le_bytes, le_value_bytes.
  rewrite Z.mod_small by (change (256 ^ Z.of_nat 8) with (2 ^ 64); dlia).
  replace (pos / 16 + 256 ^ Z.of_nat 8 * le_value (rev (le_bytes 8 ctriv)) + 1)
    with ((pos + 16) / 16 + 256 ^ Z.of_nat 8 * le_value (rev (le_bytes 8 ctriv))) by dlia.
  rewrite (le_bytes_app 8 8) by (change (256 ^ Z.of_nat 8) with (2 ^ 64); dlia).
  rewrite rev_app_distr. f_equal.
  assert (length (rev (le_bytes 8 ctriv)) = 8%nat) as Hl by (by rewrite length_rev, length_le_bytes).
  rewrite <- Hl at 1. rewrite le_bytes_value by (apply Forall_rev; auto with mega).
  apply rev_involutive.
Qed.

Section keystream_facts.
Context `{AES_laws}.

Lemma length_keystream iv n : length iv = BLOCKSIZE -> length (keystream iv n) = (BLOCKSIZE * n)%nat.
Proof.
  revert iv. induction n as [|n IH]; intros iv Hi; cbn [keystream]; [done|].
  rewrite length_app, ecb_length, IH by (try done; unfold ctr_next, be_bytes;
    by rewrite length_rev, length_le_bytes).
  unfold BLOCKSIZE. lia.
Qed.

Lemma keystream_app pos ctriv n m :
  0 <= pos -> pos + 16 * Z.of_nat (n + m) < 2 ^ 63 ->
  keystream (ctr_init pos ctriv) (n + m)
  = keystream (ctr_init pos ctriv) n ++ keystream (ctr_init (pos + 16 * Z.of_nat n) ctriv) m.
Proof.
  revert pos. induction n as [|n IH]; intros pos H0' H1; cbn [keystream Nat.add].
  { by rewrite Z.mul_0_r, Z.add_0_r. }
  rewrite ctr_next_init by lia. rewrite IH by lia. rewrite <- app_assoc.
  do 4 f_equal. lia.
Qed.

(** What the counter mode does to a whole-block buffer. *)
Lemma ctr_process_blocks pos ctriv data n :
  length data = (BLOCKSIZE * n)%nat ->
  ctr_process (ctr_init pos ctriv) data = zip_with Z.lxor data (keystream (ctr_init pos ctriv) n).
Proof. intros. by apply ctr_process_spec; [apply length_ctr_init|]. Qed.

Lemma length_ctr_process pos ctriv data n :
  length data = (BLOCKSIZE * n)%nat -> length (ctr_process (ctr_init pos ctriv) data) = length data.
Proof.
  intros Hd. rewrite (ctr_process_blocks _ _ _ n) by done.
  rewrite length_zip_with, length_keystream by apply length_ctr_init. lia.
Qed.

Lemma ctr_process_involutive pos ctriv data n :
  length data = (BLOCKSIZE * n)%nat ->
  ctr_process (ctr_init pos ctriv) (ctr_process (ctr_init pos ctriv) data) = data.
Proof.
  intros Hd. rewrite (ctr_process_blocks _ _ (ctr_process _ _) n) by by rewrite (length_ctr_process _ _ _ n).
  rewrite (ctr_process_blocks _ _ data n) by done.
  apply lxor_cancel. rewrite length_keystream by apply length_ctr_init. lia.
Qed.

Lemma ctr_process_app pos ctriv d1 d2 n m :
  length d1 = (BLOCKSIZE * n)%nat -> length d2 = (BLOCKSIZE * m)%nat ->
  0 <= pos -> pos + 16 * Z.of_nat (n + m) < 2 ^ 63 ->
  ctr_process (ctr_init pos ctriv) (d1 ++ d2)
  = ctr_process (ctr_init pos ctriv) d1 ++ ctr_process (ctr_init (pos + zlength d1) ctriv) d2.
Proof.
  intros H1 H2 Hp Hb.
  rewrite (ctr_process_blocks _ _ (d1 ++ d2) (n + m)), (ctr_process_blocks _ _ d1 n),
    (ctr_process_blocks _ _ d2 m) by (rewrite ?length_app, ?H1, ?H2; unfold BLOCKSIZE; lia).
  rewrite keystream_app by done. replace (zlength d1) with (16 * Z.of_nat n) by (unfold BLOCKSIZE in *; lia).
  apply zip_with_app. rewrite length_keystream by apply length_ctr_init. done.
Qed.

End keystream_facts.

End SymmCipher.

(** ** PaddedCBC (src/utils.cpp) *)
Module PaddedCBC.

(** [std::string::resize(n, c)] and [find_last_of(c)]. *)
Definition resize (n : nat) (c : Z) (l : bytes) : bytes := take n l ++ replicate (n - length l) c.

Fixpoint find_last_of (c : Z) (l : bytes) : option nat :=
  match l with
  | [] => None
  | x :: l =>
      match find_last_of c l with
      | Some i => Some (S i)
      | None => if x =? c then Some O else None
      end
  end.

(** What [append] of a [const char] pointer appends: up to the first NUL. *)
Fixpoint cstring (l : bytes) : bytes :=
  match l with
  | [] => []
  | c :: l => if c =? 0 then [] else c :: cstring l
  end.

Section cbc.
Context `{AES}.

(** [SymmCipher::cbc_encrypt] and [cbc_decrypt]: an exception of the library is
    caught and reported. *)
Definition cbc_encrypt (data iv : bytes) : bool * bytes :=
  match cbc_process_e iv data with Some d => (true, d) | None => (false, data) end.
Definition cbc_decrypt (data iv : bytes) : bool * bytes :=
  match cbc_process_d iv data with Some d => (true, d) | None => (false, data) end.

Definition zeroiv : bytes := replicate BLOCKSIZE 0.

(** The IV as both directions prepare it: 8 bytes, then zeros. *)
Definition widen_iv (iv : bytes) : bytes :=
  resize BLOCKSIZE 0 (if (8 <? length iv)%nat then resize 8 0 iv else iv).

(** [rnd] are the 8 bytes of [genblock] and [heap] is the memory after that
    buffer: an empty IV becomes the C string that starts there. *)
Definition fresh_iv (rnd heap iv : bytes) : bytes :=
  if (length iv =? 0)%nat then cstring (rnd ++ heap) else iv.

Definition padded (data : bytes) : bytes :=
  let data := data ++ [chr "E"] in
  resize (Z.to_nat (Z.land (zlength data + 15) (Z.lnot 15))) (chr "P") data.

Definition encrypt (rnd heap data : bytes) (iv : option bytes) : bool * bytes * option bytes :=
  let iv := widen_iv <$> (fresh_iv rnd heap <$> iv) in
  let '(encrypted, data) := cbc_encrypt (padded data) (default zeroiv iv) in
  (encrypted, data, resize 8 0 <$> iv).

Definition decrypt (data : bytes) (iv : option bytes) : bool * bytes * option bytes :=
  let iv := widen_iv <$> iv in
  if negb (Z.land (zlength data) 15 =? 0) then (false, data, iv)
  else
    let '(decrypted, data) := cbc_decrypt data (default zeroiv iv) in
    if negb decrypted then (false, data, iv)
    else match find_last_of (chr "E") data with
         | None => (false, data, iv)
         | Some p => (true, resize p 0 data, iv)
         end.

End cbc.

Lemma find_last_of_replicate c d n : c <> d -> find_last_of c (replicate n d) = None.
Proof.
  intros Hc. induction n as [|n IH]; simpl; [done|]. rewrite IH.
  by rewrite (proj2 (Z.eqb_neq _ _)).
Qed.

Lemma find_last_of_marker c l t :
  find_last_of c t = None -> find_last_of c (l ++ c :: t) = Some (length l).
Proof.
  intros Ht. induction l as [|x l IH]; simpl; [by rewrite Ht, Z.eqb_refl|by rewrite IH].
Qed.

Lemma length_resize n c l : length (resize n c l) = n.
Proof. unfold resize. rewrite length_app, length_take, length_replicate. lia. Qed.

Lemma resize_app n c l1 l2 : n = length l1 -> resize n c (l1 ++ l2) = l1.
Proof.
  intros ->. unfold resize. rewrite take_app_length, length_app.
  by rewrite (proj2 (Nat.sub_0_le _ _)), app_nil_r by lia.
Qed.

Lemma land_low x : Z.land x 15 = x mod 16.
Proof. change 15 with (Z.ones 4). by rewrite Z.land_ones. Qed.

Lemma land_high x : Z.land x (Z.lnot 15) = 16 * (x / 16).
Proof.
  rewrite <- Z.ldiff_land. change 15 with (Z.ones 4).
  rewrite Z.ldiff_ones_r, Z.shiftl_mul_pow2, Z.shiftr_div_pow2 by lia. change (2 ^ 4) with 16. lia.
Qed.

(** The padded buffer: the data, the marker, at most 15 fill bytes. *)
Lemma padded_eq data :
  exists n, padded data = data ++ chr "E" :: replicate n (chr "P")
    /\ (BLOCKSIZE | length (padded data))%nat.
Proof.
  unfold padded, resize. rewrite land_high.
  set (d := data ++ [chr "E"]). set (n := Z.to_nat (16 * ((zlength d + 15) / 16))).
  assert (length d <= n)%nat as Hn by (subst n; dlia).
  exists (n - length d)%nat. rewrite take_ge by done. split.
  - subst d. by rewrite <- app_assoc.
  - rewrite length_app, length_replicate. exists (Z.to_nat ((zlength d + 15) / 16)).
    unfold BLOCKSIZE. subst n. dlia.
Qed.

(** Truncating the IV to 8 bytes loses nothing of the one that was used. *)
Lemma widen_iv_eq iv :
  exists v, (length v <= 8)%nat /\ widen_iv iv = v ++ replicate (BLOCKSIZE - length v) 0.
Proof.
  unfold widen_iv. exists (if (8 <? length iv)%nat then resize 8 0 iv else iv).
  split.
  - case_if; [by rewrite length_resize|]. by apply Nat.ltb_ge in Heqb.
  - unfold resize at 1. f_equal. apply take_ge. unfold BLOCKSIZE.
    case_if; [rewrite length_resize; lia|]. apply Nat.ltb_ge in Heqb. lia.
Qed.

Lemma widen_iv_resize iv : widen_iv (resize 8 0 (widen_iv iv)) = widen_iv iv.
Proof.
  destruct (widen_iv_eq iv) as (v & Hv & ->). unfold widen_iv. rewrite length_resize.
  cbn [Nat.ltb Nat.leb]. unfold resize, BLOCKSIZE.
  rewrite (take_app_ge v _ 8), take_replicate, length_app, length_replicate by lia.
  rewrite (proj2 (Nat.sub_0_le 8 (length v + (16 - length v)))), app_nil_r by lia.
  rewrite take_ge by (rewrite length_app, length_replicate; lia).
  rewrite <- app_assoc, <- replicate_add, length_app, length_replicate. do 2 f_equal. lia.
Qed.

End PaddedCBC.

(** The cipher used by the witnesses: a byte-wise permutation of the block in
    place of AES, with the modes built on it as the laws describe. *)
Module ToyCipher.
Definition toy_block (b : bytes) : bytes := (fun x => u8 (x + 7)) <$> rev b.

Definition toy : AES := {|
  ecb_encrypt := toy_block;
  ctr_process iv data :=
    zip_with Z.lxor data
      ((fix ks iv n := match n with O => [] | S n => toy_block iv ++ ks (ctr_next iv) n end)
         iv (length data / BLOCKSIZE)%nat);
  cbc_process_e iv data := Some (rev data);
  cbc_process_d iv data := Some (rev data)
|}.

Lemma toy_laws : @AES_laws toy.
Proof.
  split.
  - intros b Hb. simpl. unfold toy_block. by rewrite length_fmap, length_rev.
  - intros b Hb. simpl. unfold toy_block. rewrite Forall_fmap. apply Forall_true.
    intros x. apply byte_ok_u8.
  - intros iv data n Hi Hd. cbn [ctr_process toy].
    assert (length data / BLOCKSIZE = n)%nat as ->
      by (rewrite Hd, Nat.mul_comm; by apply Nat.div_mul). f_equal.
    clear Hd data. revert iv Hi. induction n as [|n IH]; intros iv Hi; [done|].
    cbn [keystream]. f_equal. apply IH. unfold ctr_next, be_bytes.
    by rewrite length_rev, length_le_bytes.
  - intros iv data Hi Hd. exists (rev data). simpl. by rewrite length_rev, rev_involutive.
Qed.
End ToyCipher.

(** Decryption undoes encryption and folds the same MAC. *)
Lemma ctr_crypt_inverse `{AES_laws} (plain m0 m1 : bytes) (z : nat) (pos ctriv : Z) :
  zlength plain < 2 ^ 31 -> (z < BLOCKSIZE)%nat -> (BLOCKSIZE | length plain + z)%nat ->
  let data := plain ++ replicate z 0 in
  let '(c, m) := SymmCipher.ctr_crypt data (zlength plain) pos ctriv (Some m0) true true in
  SymmCipher.ctr_crypt c (zlength plain) pos ctriv (Some m1) false true = (data, m).
Proof.
  intros Hl Hz [n Hn] data. unfold SymmCipher.ctr_crypt.
  assert (length data = (BLOCKSIZE * n)%nat) as Hd
    by (subst data; rewrite length_app, length_replicate; lia).
  assert (Z.to_nat (SymmCipher.paddedLen (zlength plain)) = length data) as Hp.
  { rewrite SymmCipher.paddedLen_eq by lia. unfold BLOCKSIZE in *. rewrite Hd. dlia. }
  rewrite Hp, drop_all, app_nil_r.
  pose proof (SymmCipher.length_ctr_process pos ctriv data n Hd) as Hc.
  rewrite (take_ge data), (take_ge (ctr_process _ data)), drop_ge, app_nil_r by lia.
  rewrite (SymmCipher.ctr_process_involutive _ _ _ n) by done.
  cbn [fmap option_fmap option_map]. do 2 f_equal.
  apply SymmCipher.mac_decrypt_encrypt; try done; [|lia|lia].
  rewrite length_app, length_replicate. by exists n.
Qed.

(** What [ctr_crypt] encrypts, [ctr_crypt] decrypts: the buffer (padded with
    zeros to whole blocks, as encryption requires) comes back and both
    directions compute the same chunk MAC, whatever the MAC buffers held. *)
Theorem ctr_crypt_roundtrip `{AES_laws} (plain m0 m1 : bytes) (z : nat) (pos ctriv : Z) :
  zlength plain < 2 ^ 31 -> (z < BLOCKSIZE)%nat -> (BLOCKSIZE | length plain + z)%nat ->
  let data := plain ++ replicate z 0 in
  let '(c, m) := SymmCipher.ctr_crypt data (zlength plain) pos ctriv (Some m0) true true in
  SymmCipher.ctr_crypt c (zlength plain) pos ctriv (Some m1) false true = (data, m).
Proof. apply ctr_crypt_inverse. Qed.

Local Existing Instances ToyCipher.toy ToyCipher.toy_laws.

Lemma ctr_crypt_roundtrip_witness :
  let plain := [1; 2; 3; 200; 255; 0; 9; 8; 7; 6; 5; 4; 3; 2; 1; 0; 42; 43; 44; 45] in
  let data := plain ++ replicate 12 0 in
  let '(c, m) := SymmCipher.ctr_crypt data (zlength plain) 131072 12345 (Some []) true true in
  SymmCipher.ctr_crypt c (zlength plain) 131072 12345 (Some [5]) false true = (data, m).
Proof.
  apply (ctr_crypt_roundtrip [1; 2; 3; 200; 255; 0; 9; 8; 7; 6; 5; 4; 3; 2; 1; 0; 42; 43; 44; 45]
           [] [5] 12).
  - vm_compute. reflexivity.
  - vm_compute. lia.
  - exists 2%nat. reflexivity.
Defined.

(** A buffer can be decrypted piece by piece: processing whole blocks first
    and the rest later, with the MAC carried over, gives the data and the MAC
    of processing it at once. *)
Lemma ctr_crypt_app `{AES_laws} (d1 d2 mac : bytes) (len2 pos ctriv : Z) (initmac : bool) :
  length mac = BLOCKSIZE -> (BLOCKSIZE | length d1)%nat ->
  0 <= len2 -> zlength d2 = 16 * ((len2 + 15) / 16) ->
  zlength d1 + len2 < 2 ^ 31 -> 0 <= pos < 2 ^ 62 ->
  SymmCipher.ctr_crypt (d1 ++ d2) (zlength d1 + len2) pos ctriv (Some mac) false initmac
  = let '(p1, m1) := SymmCipher.ctr_crypt d1 (zlength d1) pos ctriv (Some mac) false initmac in
    let '(p2, m2) := SymmCipher.ctr_crypt d2 len2 (pos + zlength d1) ctriv m1 false false in
    (p1 ++ p2, m2).
Proof.
  intros Hm [n Hn] H2 Hd2 Hl Hp. unfold SymmCipher.ctr_crypt.
  set (k := Z.to_nat ((len2 + 15) / 16)).
  assert (length d1 = (BLOCKSIZE * n)%nat) as Hd1 by lia.
  assert (length d2 = (BLOCKSIZE * k)%nat) as Hk by (unfold BLOCKSIZE; subst k; dlia).
  assert (Z.to_nat (SymmCipher.paddedLen (zlength d1 + len2)) = length (d1 ++ d2)) as E.
  { rewrite SymmCipher.paddedLen_eq by lia. rewrite length_app. unfold BLOCKSIZE in *. dlia. }
  assert (Z.to_nat (SymmCipher.paddedLen (zlength d1)) = length d1) as E1.
  { rewrite SymmCipher.paddedLen_eq by lia. unfold BLOCKSIZE in *. dlia. }
  assert (Z.to_nat (SymmCipher.paddedLen len2) = length d2) as E2.
  { rewrite SymmCipher.paddedLen_eq by lia. unfold BLOCKSIZE in *. dlia. }
  rewrite E, E1, E2, !firstn_all, !drop_all, !app_nil_r.
  rewrite (SymmCipher.ctr_process_app _ _ _ _ n k)
    by (try done; unfold BLOCKSIZE in *; clear E E1 E2; dlia).
  cbn [fmap option_fmap option_map]. do 2 f_equal.
  set (p1 := ctr_process (SymmCipher.ctr_init pos ctriv) d1).
  set (p2 := ctr_process _ d2).
  assert (length p1 = length d1) as L1 by by apply (SymmCipher.length_ctr_process _ _ _ n).
  assert (length p2 = length d2) as L2 by by apply (SymmCipher.length_ctr_process _ _ _ k).
  rewrite <- L1. replace (Z.to_nat (zlength p1)) with (length p1) by lia.
  apply SymmCipher.mac_decrypt_app; try done.
  - destruct initmac; [|done]. by rewrite length_app, !length_take, SymmCipher.length_ctr_init.
  - exists n. rewrite L1. lia.
  - rewrite L2. unfold BLOCKSIZE in *. dlia.
  - lia.
Qed.

(** [PaddedCBC::decrypt] recovers exactly the data [PaddedCBC::encrypt] was
    given, whatever bytes it holds, with no IV, a given IV of any size, or the
    IV generated for an empty one. *)
Theorem paddedcbc_roundtrip `{AES_laws} (rnd heap data : bytes) (iv : option bytes) :
  let '(ok, c, iv') := PaddedCBC.encrypt rnd heap data iv in
  ok = true /\ (BLOCKSIZE | length c)%nat
  /\ exists iv'', PaddedCBC.decrypt c iv' = (true, data, iv'').
Proof.
  unfold PaddedCBC.encrypt, PaddedCBC.cbc_encrypt.
  set (w := PaddedCBC.widen_iv <$> (PaddedCBC.fresh_iv rnd heap <$> iv)).
  destruct (PaddedCBC.padded_eq data) as (n & Hpad & k & Hk).
  assert (length (default PaddedCBC.zeroiv w) = BLOCKSIZE) as Hw.
  { subst w. destruct iv as [iv|]; [|done]. apply PaddedCBC.length_resize. }
  destruct (cbc_inverse (default PaddedCBC.zeroiv w) (PaddedCBC.padded data) Hw)
    as (c & -> & Hc & Hd); [by exists k|].
  split_and!; [done|exists k; lia|].
  unfold PaddedCBC.decrypt, PaddedCBC.cbc_decrypt.
  assert (PaddedCBC.widen_iv <$> (PaddedCBC.resize 8 0 <$> w) = w) as ->.
  { subst w. destruct iv as [iv|]; [|done]. simpl. f_equal. apply PaddedCBC.widen_iv_resize. }
  rewrite PaddedCBC.land_low, Hc, Hk. replace (Z.of_nat (k * BLOCKSIZE) mod 16) with 0
    by (unfold BLOCKSIZE; dlia).
  cbn [Z.eqb negb]. rewrite Hd. cbn [negb].
  rewrite Hpad, PaddedCBC.find_last_of_marker by by apply PaddedCBC.find_last_of_replicate.
  by rewrite PaddedCBC.resize_app; eauto.
Qed.

Lemma paddedcbc_roundtrip_witness :
  let '(ok, c, iv') := PaddedCBC.encrypt [1; 2; 3; 0; 5; 6; 7; 8] [] [69; 80; 69; 80] (Some []) in
  ok = true /\ (BLOCKSIZE | length c)%nat
  /\ exists iv'', PaddedCBC.decrypt c iv' = (true, [69; 80; 69; 80], iv'').
Proof. apply paddedcbc_roundtrip. Defined.

(** A file key is flagged as zero exactly when the cipher key folded from it
    is the zero key, which is what the check is for. *)
Theorem zero_file_key (key : bytes) :
  length key = FILENODEKEYLENGTH ->
  SymmCipher.isZeroKey (Some key) FILENODEKEYLENGTH
  = SymmCipher.isZeroKey (Some (SymmCipher.setkey key 0)) BLOCKSIZE
  /\ SymmCipher.setkey_string [] key = (true, SymmCipher.setkey key 0).
Proof.
  intros Hk. split; [|unfold SymmCipher.setkey_string; by rewrite Hk].
  unfold SymmCipher.isZeroKey, SymmCipher.setkey, SymmCipher.xorblock, SymmCipher.xorblock_len.
  cbn [Nat.eqb FILENODEKEYLENGTH BLOCKSIZE KEYLENGTH Z.eqb]. unfold FILENODEKEYLENGTH in Hk.
  assert (length (take 16 key) = 16%nat) as H1 by (rewrite length_take; lia).
  assert (length (take 16 (drop 16 key)) = 16%nat) as H2 by (rewrite length_take, length_drop; lia).
  change KEYLENGTH with 16%nat; change BLOCKSIZE with 16%nat.
  rewrite (drop_ge (take 16 key)), app_nil_r by lia.
  rewrite (take_ge (take 16 key)), (take_ge (zip_with _ _ _)) by (rewrite ?length_zip_with; lia).
  apply bool_decide_ext. revert H1 H2. generalize (take 16 key), (take 16 (drop 16 key)).
  generalize 16%nat. clear. intros n. induction n as [|n IH]; intros [|a l1] [|b l2] H1 H2;
    simpl in *; try done.
  specialize (IH l1 l2 ltac:(lia) ltac:(lia)). split.
  - intros E. simplify_eq. rewrite Z.lxor_nilpotent. f_equal. by apply IH.
  - intros E. simplify_eq. apply Z.lxor_eq in H as ->. f_equal. by apply IH.
Qed.

Lemma zero_file_key_witness :
  SymmCipher.isZeroKey (Some (replicate 32 9)) FILENODEKEYLENGTH
  = SymmCipher.isZeroKey (Some (SymmCipher.setkey (replicate 32 9) 0)) BLOCKSIZE
  /\ SymmCipher.setkey_string [] (replicate 32 9) = (true, SymmCipher.setkey (replicate 32 9) 0).
Proof. apply zero_file_key. reflexivity. Defined.
