(* ===== verification/Chunks.v ===== *)
(** * File chunks and their MACs

    [ChunkedHash] (the lattice of chunk boundaries) and [chunkmac_map] (the MAC
    of every chunk of a file in transfer, the progress derived from it, and the
    file MAC folded from the chunk MACs), from src/utils.cpp and
    include/mega/utils.h, with the corrective search of
    [TransferSlot::checkMetaMacWithMissingLateEntries] (src/transferslot.cpp). *)

From S2P Require Import Prelude Encoding Serialize OMap Crypto.
Local Open Scope Z_scope.

(** ** The chunk lattice *)
Module ChunkedHash.

Definition SEGSIZE : Z := 131072.

(** The loop over the first eight chunks: the chunk [cp, np) that holds [p], or
    where the eighth one ends. *)
Fixpoint scan (n : nat) (i cp p : Z) : Z + Z * Z :=
  match n with
  | O => inl cp
  | S n =>
      let np := cp + i * SEGSIZE in
      if (cp <=? p) && (p <? np) then inr (cp, np) else scan n (i + 1) np p
  end.

Definition chunkfloor (p : Z) : Z :=
  match scan 8 1 0 p with
  | inr (cp, _) => cp
  | inl cp => Z.land (p - cp) (- (8 * SEGSIZE)) + cp
  end.

Definition chunkceil (p limit : Z) : Z :=
  let np := match scan 8 1 0 p with
            | inr (_, np) => np
            | inl cp => Z.land (p - cp) (- (8 * SEGSIZE)) + cp + 8 * SEGSIZE
            end in
  if (limit <? 0) || (np <? limit) then np else limit.

(** The boundaries as a predicate: the first eight chunks grow by one segment
    each, all later ones have eight segments. *)
Definition is_chunk (c n : Z) : Prop :=
  (c = 0 /\ n = 131072) \/ (c = 131072 /\ n = 393216) \/ (c = 393216 /\ n = 786432)
  \/ (c = 786432 /\ n = 1310720) \/ (c = 1310720 /\ n = 1966080) \/ (c = 1966080 /\ n = 2752512)
  \/ (c = 2752512 /\ n = 3670016) \/ (c = 3670016 /\ n = 4718592)
  \/ exists k, 0 <= k /\ c = 4718592 + k * 1048576 /\ n = c + 1048576.

Lemma land_mega x : Z.land x (- (8 * SEGSIZE)) = 1048576 * (x / 1048576).
Proof.
  change (- (8 * SEGSIZE)) with (Z.lnot (Z.ones 20)).
  rewrite <- Z.ldiff_land, Z.ldiff_ones_r, Z.shiftl_mul_pow2, Z.shiftr_div_pow2 by lia.
  change (2 ^ 20) with 1048576. lia.
Qed.

Lemma chunk_spec p :
  0 <= p -> is_chunk (chunkfloor p) (chunkceil p (-1)) /\ chunkfloor p <= p < chunkceil p (-1).
Proof.
  intros Hp. unfold chunkfloor, chunkceil, is_chunk. change (-1 <? 0) with true. cbn [orb].
  cbn [scan]. change SEGSIZE with 131072. cbn [Z.add Z.mul Pos.mul Pos.add Pos.succ Pos.add_carry].
  repeat (case_if; [split; [lia|lia]|]).
  change 131072 with SEGSIZE. rewrite land_mega. change SEGSIZE with 131072.
  assert (4718592 <= p) as Hge by lia. clear - Hge.
  split; [do 8 right|dlia].
  exists ((p - 4718592) / 1048576). split_and!; dlia.
Qed.

Lemma is_chunk_unique c n c' n' x :
  is_chunk c n -> is_chunk c' n' -> c <= x < n -> c' <= x < n' -> c = c' /\ n = n'.
Proof.
  unfold is_chunk. intros H1 H2 Hx Hx'.
  repeat destruct H1 as [H1|H1]; repeat destruct H2 as [H2|H2];
    hyps; lia.
Qed.

Lemma is_chunk_size c n : is_chunk c n -> 0 <= c /\ c + SEGSIZE <= n <= c + 8 * SEGSIZE.
Proof. unfold is_chunk, SEGSIZE. intros H. repeat destruct H as [H|H]; hyps; lia. Qed.

Lemma is_chunk_at c n x : is_chunk c n -> c <= x < n -> chunkfloor x = c /\ chunkceil x (-1) = n.
Proof.
  intros Hc Hx.
  assert (0 <= x) as H0 by (pose proof (is_chunk_size _ _ Hc); lia).
  destruct (chunk_spec x H0) as [H1 H2]. by apply (is_chunk_unique _ _ _ _ x).
Qed.

Lemma is_chunk_next c n : is_chunk c n -> exists n', is_chunk n n'.
Proof.
  unfold is_chunk. intros H. repeat destruct H as [H|H]; hyps; subst.
  1-8: eexists; do 8 (try (left; done); right); exists 0; done.
  eexists. do 8 right. exists (x + 1). split_and!; [lia|lia|reflexivity].
Qed.

Lemma chunkceil_limit p limit :
  0 <= limit -> chunkceil p limit = Z.min (chunkceil p (-1)) limit.
Proof.
  intros Hl. unfold chunkceil. change (-1 <? 0) with true. cbn [orb].
  rewrite (proj2 (Z.ltb_ge limit 0)) by done. cbn [orb]. case_if; zbool; lia.
Qed.

Lemma chunkceil_nolimit p limit : limit < 0 -> chunkceil p limit = chunkceil p (-1).
Proof. intros Hl. unfold chunkceil. by rewrite (proj2 (Z.ltb_lt limit 0)). Qed.

(** A chunk start: where [chunkfloor] stays. *)
Lemma floor_is_chunk c : 0 <= c -> chunkfloor c = c -> is_chunk c (chunkceil c (-1)).
Proof. intros H0 H1. destruct (chunk_spec c H0) as [H _]. by rewrite H1 in H. Qed.

Lemma floor_ceil p : 0 <= p -> chunkfloor (chunkceil p (-1)) = chunkceil p (-1).
Proof.
  intros H0. destruct (chunk_spec p H0) as [H _].
  destruct (is_chunk_next _ _ H) as [n' Hn]. pose proof (is_chunk_size _ _ Hn) as Hs.
  unfold SEGSIZE in Hs. by destruct (is_chunk_at _ _ (chunkceil p (-1)) Hn ltac:(lia)).
Qed.

End ChunkedHash.

(** The chunk boundaries partition the non-negative offsets: [chunkfloor] and
    [chunkceil] give the chunk an offset lies in, agree on the whole chunk, the
    end of a chunk is the start of the next, every chunk has one to eight
    segments, and a limit caps the end. *)
Theorem chunk_lattice (p : Z) :
  0 <= p ->
  let c := ChunkedHash.chunkfloor p in
  let n := ChunkedHash.chunkceil p (-1) in
  c <= p < n
  /\ (forall x, c <= x < n -> ChunkedHash.chunkfloor x = c /\ ChunkedHash.chunkceil x (-1) = n)
  /\ ChunkedHash.chunkfloor n = n
  /\ ChunkedHash.SEGSIZE <= n - c <= 8 * ChunkedHash.SEGSIZE
  /\ (forall limit, 0 <= limit -> ChunkedHash.chunkceil p limit = Z.min n limit).
Proof.
  intros Hp c n. destruct (ChunkedHash.chunk_spec p Hp) as [Hc Hb]. split_and!.
  - apply Hb.
  - apply Hb.
  - intros x Hx. by apply ChunkedHash.is_chunk_at.
  - by apply ChunkedHash.floor_ceil.
  - pose proof (ChunkedHash.is_chunk_size _ _ Hc). lia.
  - pose proof (ChunkedHash.is_chunk_size _ _ Hc). lia.
  - intros limit Hl. by apply ChunkedHash.chunkceil_limit.
Qed.

Lemma chunk_lattice_witness :
  let c := ChunkedHash.chunkfloor 6000000 in
  let n := ChunkedHash.chunkceil 6000000 (-1) in
  c <= 6000000 < n
  /\ (forall x, c <= x < n -> ChunkedHash.chunkfloor x = c /\ ChunkedHash.chunkceil x (-1) = n)
  /\ ChunkedHash.chunkfloor n = n
  /\ ChunkedHash.SEGSIZE <= n - c <= 8 * ChunkedHash.SEGSIZE
  /\ (forall limit, 0 <= limit -> ChunkedHash.chunkceil 6000000 limit = Z.min n limit).
Proof. apply chunk_lattice. lia. Defined.


(** ** The chunk MACs of a file *)

Record ChunkMAC := MkChunkMAC { mac : bytes; offset : Z; finished : bool }.

(** A value-initialised entry, as [operator[]] creates it. *)
Definition ChunkMAC_init : ChunkMAC := MkChunkMAC (replicate BLOCKSIZE 0) 0 false.

Definition notStarted (c : ChunkMAC) : bool := negb (finished c) && (offset c =? 0).
Definition isMacsmacSoFar (c : ChunkMAC) : bool := finished c && (offset c =? 2 ^ 32 - 1).

Record chunkmac_map := MkChunkmacMap {
  mMacMap : list (Z * ChunkMAC);
  macsmacSoFarPos : Z;
  progresscontiguous : Z
}.

Module ChunkmacMap.
Import ChunkedHash.

Definition clear : chunkmac_map := MkChunkmacMap [] (-1) 0.
Definition size (m : chunkmac_map) : nat := length (mMacMap m).
Definition set_map (l : list (Z * ChunkMAC)) (m : chunkmac_map) : chunkmac_map :=
  MkChunkmacMap l (macsmacSoFarPos m) (progresscontiguous m).
Definition setProgressContiguous (p : Z) (m : chunkmac_map) : chunkmac_map :=
  MkChunkmacMap (mMacMap m) (macsmacSoFarPos m) p.
Definition set_macsmacSoFarPos (p : Z) (m : chunkmac_map) : chunkmac_map :=
  MkChunkmacMap (mMacMap m) p (progresscontiguous m).

(** [mMacMap[pos]] as a reference: its value, created when absent. *)
Definition entry (pos : Z) (m : chunkmac_map) : ChunkMAC :=
  default ChunkMAC_init (omap_find pos (mMacMap m)).

Definition swap (a b : chunkmac_map) : chunkmac_map * chunkmac_map := (b, a).

(** *** Serialization: the object representation of every entry.  [pad k] are
    the three padding bytes of the record of key [k], whose values the language
    leaves open. *)
Definition chunkmac_bytes (padding : bytes) (c : ChunkMAC) : bytes :=
  mac c ++ le_bytes 4 (offset c) ++ [Z.b2z (finished c)] ++ padding.

Definition serialize (pad : Z -> bytes) (m : chunkmac_map) (d : bytes) : bytes :=
  d ++ le_bytes 2 (u16 (Z.of_nat (size m)))
    ++ mjoin ((fun e => le_bytes 8 e.1 ++ chunkmac_bytes (pad e.1) e.2) <$> mMacMap m).

Definition read_chunkmac (b : bytes) : ChunkMAC :=
  MkChunkMAC (substr b 0 16) (le_value (substr b 16 4)) (negb (le_value (substr b 20 1) =? 0)).

Fixpoint unserialize_entries (n : nat) (ptr : bytes) (m : chunkmac_map) : chunkmac_map * bytes :=
  match n with
  | O => (m, ptr)
  | S n =>
      let pos := s64 (le_value (take 8 ptr)) in
      let c := read_chunkmac (substr ptr 8 24) in
      let m := set_map (omap_insert pos c (mMacMap m)) m in
      let m := if isMacsmacSoFar c then set_macsmacSoFarPos pos m else m in
      unserialize_entries n (drop 32 ptr) m
  end.

Definition unserialize (m : chunkmac_map) (ptr : bytes) : bool * chunkmac_map * bytes :=
  if (length ptr <? 2)%nat then (false, m, ptr)
  else
    let ll := le_value (take 2 ptr) in
    if zlength ptr <? ll * 32 + 2 then (false, m, ptr)
    else let '(m, ptr) := unserialize_entries (Z.to_nat ll) (drop 2 ptr) m in (true, m, ptr).

(** *** Progress *)

Record progress := MkProgress { chunkpos : Z; progresscompleted : Z; partial : Z; soFarPos : Z }.

(** One entry of the loop of [calcprogress]; [soFarPos] is [macsmacSoFarPos]
    and [partial] what is added to [*sumOfPartialChunks]. *)
Definition calc_entry (size : Z) (st : progress) (e : Z * ChunkMAC) : progress :=
  let '(k, c) := e in
  let ceil := chunkceil k size in
  if isMacsmacSoFar c then MkProgress ceil ceil (partial st) k
  else if (chunkpos st =? k) && finished c then MkProgress ceil ceil (partial st) (soFarPos st)
  else if finished c then
    MkProgress (chunkpos st) (progresscompleted st + (ceil - chunkfloor k)) (partial st) (soFarPos st)
  else MkProgress (chunkpos st) (progresscompleted st + offset c) (partial st + offset c) (soFarPos st).

(** The map, [chunkpos], [progresscompleted] and the sum added. *)
Definition calcprogress (size : Z) (m : chunkmac_map) : chunkmac_map * Z * Z * Z :=
  let st := foldl (calc_entry size) (MkProgress 0 0 0 (macsmacSoFarPos m)) (mMacMap m) in
  (setProgressContiguous (chunkpos st) (set_macsmacSoFarPos (soFarPos st) m),
   chunkpos st, progresscompleted st, partial st).

(** Loops that chase chunks through the map visit a different entry each time;
    [None] is running out of fuel. *)
Fixpoint next_loop (fuel : nat) (m : chunkmac_map) (pos : Z) : option Z :=
  match omap_find (chunkfloor pos) (mMacMap m) with
  | None => Some pos
  | Some c =>
      if finished c then
        match fuel with
        | O => None
        | S f => next_loop f m (chunkceil pos (-1))
        end
      else Some (pos + offset c)
  end.

Definition nextUnprocessedPosFrom (m : chunkmac_map) (pos : Z) : option Z :=
  next_loop (size m) m pos.

Fixpoint expand_loop (fuel : nat) (m : chunkmac_map) (pos npos fileSize maxReqSize : Z) : option Z :=
  if (npos <? fileSize) && (npos - pos <? maxReqSize)
     && match omap_find npos (mMacMap m) with None => true | Some c => notStarted c end
  then
    match fuel with
    | O => None
    | S f => expand_loop f m pos (chunkceil npos fileSize) fileSize maxReqSize
    end
  else Some npos.

(** At most one step leads to a chunk boundary, then every step is a segment at
    least. *)
Definition expandUnprocessedPiece (m : chunkmac_map) (pos npos fileSize maxReqSize : Z) : option Z :=
  expand_loop (S (Z.to_nat ((fileSize - npos) / SEGSIZE + 1))) m pos npos fileSize maxReqSize.

Fixpoint gap_loop (fileSize : Z) (whole l : list (Z * ChunkMAC)) (sawUnfinished : bool) : bool :=
  match l with
  | [] => false
  | (k, c) :: rest =>
      let saw := sawUnfinished || negb (finished c) in
      let nextpos := chunkceil k fileSize in
      let expected := omap_find nextpos whole in
      if saw && match expected with Some e => finished e | None => false end then true
      else
        let same := match rest, expected with
                    | [], None => true
                    | (k', _) :: _, Some _ => k' =? nextpos
                    | _, _ => false
                    end in
        gap_loop fileSize whole rest (saw || negb same)
  end.

Definition hasUnfinishedGap (m : chunkmac_map) (fileSize : Z) : bool :=
  gap_loop fileSize (mMacMap m) (mMacMap m) false.

Definition finishedAt (pos : Z) (m : chunkmac_map) : bool :=
  match omap_find pos (mMacMap m) with Some c => finished c | None => false end.

Fixpoint contiguous_loop (fuel : nat) (fileSize : Z) (m : chunkmac_map) : option chunkmac_map :=
  if finishedAt (progresscontiguous m) m then
    match fuel with
    | O => None
    | S f => contiguous_loop f fileSize
               (setProgressContiguous (chunkceil (progresscontiguous m) fileSize) m)
    end
  else Some m.

Definition updateContiguousProgress (fileSize : Z) (m : chunkmac_map) : option (Z * chunkmac_map) :=
  m' ← contiguous_loop (size m) fileSize m; Some (progresscontiguous m', m').

Definition finishedUploadChunks (macs m : chunkmac_map) : chunkmac_map * chunkmac_map :=
  let done := prod_map id (fun c => MkChunkMAC (mac c) (offset c) true) <$> mMacMap macs in
  (set_map done macs, set_map (foldl (fun l e => omap_insert e.1 e.2 l) (mMacMap m) done) m).

(** *** Copies between maps *)

Definition copyEntriesTo (m other : chunkmac_map) : chunkmac_map :=
  set_map (foldl (fun l e => omap_insert e.1 e.2 l) (mMacMap other) (mMacMap m)) other.

(** [this[pos] = other[pos]], creating the entry of [other]. *)
Definition copyEntryTo (pos : Z) (m other : chunkmac_map) : chunkmac_map * chunkmac_map :=
  let c := entry pos other in
  (set_map (omap_insert pos c (mMacMap m)) m,
   match omap_find pos (mMacMap other) with
   | Some _ => other
   | None => set_map (omap_insert pos c (mMacMap other)) other
   end).

Definition RAIDLINE : Z := 80.

(** Step back to a chunk boundary that is also a RAID line boundary. *)
Fixpoint raidline_loop (fuel : nat) (maxPos : Z) : option Z :=
  if (0 <? maxPos) && negb (Z.rem maxPos RAIDLINE =? 0) then
    match fuel with
    | O => None
    | S f => raidline_loop f (chunkfloor (maxPos - Z.rem maxPos RAIDLINE))
    end
  else Some maxPos.

Fixpoint copy_until (maxPos : Z) (l other : list (Z * ChunkMAC)) : list (Z * ChunkMAC) :=
  match l with
  | [] => other
  | (k, c) :: l =>
      if maxPos <=? k then other
      else if negb (finished c) then other
      else copy_until maxPos l (omap_insert k c other)
  end.

Definition copyEntriesToUntilRaidlineBeforePos (m : chunkmac_map) (maxPos : Z) (other : chunkmac_map)
    : option (Z * chunkmac_map) :=
  maxPos ← raidline_loop 16 (chunkfloor maxPos);
  if maxPos =? 0 then Some (0, other)
  else Some (maxPos, set_map (copy_until maxPos (mMacMap m) (mMacMap other)) other).

(** *** Encryption, decryption and the file MAC *)
Section cipher.
Context `{AES}.

Definition ctr_encrypt (m : chunkmac_map) (chunkid : Z) (chunkstart : bytes) (chunksize startpos ctriv : Z)
    (finishesChunk : bool) : bytes * chunkmac_map :=
  let chunk := entry chunkid m in
  let '(data, mc) := SymmCipher.ctr_crypt chunkstart chunksize startpos ctriv (Some (mac chunk)) true true in
  (data, set_map (omap_insert chunkid (MkChunkMAC (default [] mc) 0 finishesChunk) (mMacMap m)) m).

Definition ctr_decrypt (m : chunkmac_map) (chunkid : Z) (chunkstart : bytes) (chunksize startpos ctriv : Z)
    (finishesChunk : bool) : bytes * chunkmac_map :=
  let chunk := entry chunkid m in
  let '(data, mc) :=
    SymmCipher.ctr_crypt chunkstart chunksize startpos ctriv (Some (mac chunk)) false (notStarted chunk) in
  let chunk :=
    if finishesChunk then MkChunkMAC (default [] mc) 0 true
    else MkChunkMAC (default [] mc) (u32 (offset chunk + chunksize)) false in
  (data, set_map (omap_insert chunkid chunk (mMacMap m)) m).

(** One round of the folding loop; [None]: neither branch applies. *)
Definition macsmac_step (m : chunkmac_map) : option chunkmac_map :=
  match mMacMap m with
  | (k0, c0) :: rest =>
      if isMacsmacSoFar c0 then
        match rest with
        | (k1, c1) :: rest =>
            let mac' := ecb_encrypt (SymmCipher.xorblock (mac c1) (mac c0)) in
            Some (MkChunkmacMap ((k1, MkChunkMAC mac' (2 ^ 32 - 1) (finished c1)) :: rest)
                    k1 (progresscontiguous m))
        | [] => None
        end
      else if (k0 =? 0) && finishedAt 0 m then
        let mac' := ecb_encrypt (SymmCipher.xorblock (mac c0) (replicate BLOCKSIZE 0)) in
        Some (MkChunkmacMap ((k0, MkChunkMAC mac' (2 ^ 32 - 1) (finished c0)) :: rest)
                0 (progresscontiguous m))
      else None
  | [] => None
  end.

Definition macsmac_pending (m : chunkmac_map) : bool :=
  (macsmacSoFarPos m + 1024 * 1024 * 5 <? progresscontiguous m) && (32 * 3 + 5 <? Z.of_nat (size m)).

(** A round that applies neither branch leaves the state as it is, so the loop
    spins: [None]. *)
Fixpoint macsmac_loop (fuel : nat) (m : chunkmac_map) : option chunkmac_map :=
  if macsmac_pending m then
    match fuel with
    | O => None
    | S f => m' ← macsmac_step m; macsmac_loop f m'
    end
  else Some m.

Definition updateMacsmacProgress (m : chunkmac_map) : option chunkmac_map :=
  macsmac_loop (S (size m)) m.

(** The two words of the condensed MAC. *)
Definition condense (mac : bytes) : Z :=
  let w i := le_value (substr mac (4 * i) 4) in
  s64 (le_value (le_bytes 4 (Z.lxor (w 0%nat) (w 1%nat)) ++ le_bytes 4 (Z.lxor (w 2%nat) (w 3%nat)))).

Definition fold_mac (acc : bytes) (c : ChunkMAC) : bytes :=
  if isMacsmacSoFar c then mac c else ecb_encrypt (SymmCipher.xorblock (mac c) acc).

Definition macsmac (m : chunkmac_map) : Z :=
  condense (foldl fold_mac (replicate BLOCKSIZE 0) ((mMacMap m).*2)).

(** How many chunk starts lie in [0, upto]. *)
Fixpoint count_chunks (fuel : nat) (pos upto : Z) : nat :=
  match fuel with
  | O => 0
  | S f => if pos <=? upto then S (count_chunks f (chunkceil pos (-1)) upto) else 0
  end.

Definition chunks_upto (upto : Z) : nat := count_chunks (Z.to_nat (upto / SEGSIZE + 2)) 0 upto.

(** The loop of [macsmac_gaps] with its running chunk number [n]. *)
Fixpoint gaps_loop (g1 g2 g3 g4 n : nat) (acc : bytes) (l : list (Z * ChunkMAC)) : bytes :=
  match l with
  | [] => acc
  | (k, c) :: l =>
      if isMacsmacSoFar c then gaps_loop g1 g2 g3 g4 (S (n + chunks_upto k)) (mac c) l
      else if ((g1 <=? n) && (n <? g2) || (g3 <=? n) && (n <? g4))%nat
      then gaps_loop g1 g2 g3 g4 (S n) acc l
      else gaps_loop g1 g2 g3 g4 (S n) (ecb_encrypt (SymmCipher.xorblock (mac c) acc)) l
  end.

Definition macsmac_gaps (m : chunkmac_map) (g1 g2 g3 g4 : nat) : Z :=
  condense (gaps_loop g1 g2 g3 g4 0 (replicate BLOCKSIZE 0) (mMacMap m)).

(** [TransferSlot::checkMetaMacWithMissingLateEntries]: the result and the
    metamac afterwards.  [from lo n] are the [n] values a counting loop takes
    from [lo]. *)
Definition from (lo n : nat) : list nat := seq lo n.

Definition one_gap (m : chunkmac_map) (metamac : Z) : bool :=
  let stop := size m in
  let finalN := Nat.min (32 * 3) stop in
  existsb (fun countBack =>
    let start1 := (stop - countBack)%nat in
    existsb (fun len1 => (start1 + len1 <=? stop)%nat
                         && (metamac =? macsmac_gaps m start1 (start1 + len1) stop stop))
      (from 1 64))
    (from 1 finalN).

Definition two_gaps (m : chunkmac_map) (metamac : Z) : bool :=
  let stop := size m in
  let finalN := Nat.min (16 * 2 + 8) stop in
  existsb (fun start1 =>
    existsb (fun len1 => (start1 + len1 <=? stop)%nat &&
      existsb (fun start2 =>
        existsb (fun len2 => (start2 + len2 <=? stop)%nat
          && (metamac =? macsmac_gaps m start1 (start1 + len1) start2 (start2 + len2)))
          (from 1 16))
        (from (start1 + len1 + 1) (stop - (start1 + len1 + 1))))
      (from 1 16))
    (from (stop - finalN) finalN).

Definition checkMetaMacWithMissingLateEntries (m : chunkmac_map) (metamac : Z) : bool * Z :=
  if one_gap m metamac || two_gaps m metamac then (true, macsmac m) else (false, metamac).

End cipher.

(** *** Serialization lemmas *)

Definition entry_ok (e : Z * ChunkMAC) : Prop :=
  - 2 ^ 63 <= e.1 < 2 ^ 63 /\ length (mac e.2) = BLOCKSIZE /\ 0 <= offset e.2 < 2 ^ 32.

Lemma read_chunkmac_bytes padding e rest :
  entry_ok e -> length padding = 3%nat ->
  read_chunkmac (chunkmac_bytes padding e.2 ++ rest) = e.2.
Proof.
  destruct e as [k [mc off fin]]. intros (_ & Hm & Ho) Hp. simpl in *.
  unfold BLOCKSIZE in Hm. unfold read_chunkmac, chunkmac_bytes, substr. cbn [mac offset finished].
  rewrite <- !app_assoc. f_equal.
  - rewrite drop_0. by apply take_app_exact.
  - rewrite drop_app_exact by done. rewrite take_app_exact by by rewrite length_le_bytes.
    rewrite le_value_bytes. by apply Z.mod_small.
  - rewrite app_assoc, drop_app_exact by by rewrite length_app, length_le_bytes, Hm.
    simpl. by destruct fin.
Qed.

Lemma length_chunkmac_bytes padding e :
  entry_ok e -> length padding = 3%nat -> length (chunkmac_bytes padding e.2) = 24%nat.
Proof.
  intros (_ & Hm & _) Hp. unfold chunkmac_bytes.
  rewrite !length_app, length_le_bytes, Hm, Hp. done.
Qed.

Definition put_entry (m : chunkmac_map) (e : Z * ChunkMAC) : chunkmac_map :=
  let m := set_map (omap_insert e.1 e.2 (mMacMap m)) m in
  if isMacsmacSoFar e.2 then set_macsmacSoFarPos e.1 m else m.

Lemma unserialize_entries_app pad l rest m :
  (forall k, length (pad k) = 3%nat) -> Forall entry_ok l ->
  unserialize_entries (length l)
    (mjoin ((fun e => le_bytes 8 e.1 ++ chunkmac_bytes (pad e.1) e.2) <$> l) ++ rest) m
  = (foldl put_entry m l, rest).
Proof.
  intros Hpad Hl. revert m. induction Hl as [|e l He Hl IH]; intros m; [done|].
  cbn [length unserialize_entries foldl]. rewrite fmap_cons, mjoin_cons.
  set (tl := mjoin _) in IH |- *. rewrite <- !app_assoc.
  rewrite take_app_exact by by rewrite length_le_bytes.
  assert (s64 (le_value (le_bytes 8 e.1)) = e.1) as ->.
  { rewrite le_value_bytes. change (256 ^ Z.of_nat 8) with (2 ^ 64).
    destruct He as [Hk _]. apply (wraps_wrapu 64); [exact Hk|lia]. }
  pose proof (length_chunkmac_bytes (pad e.1) e He (Hpad _)) as Hlen.
  assert (substr (le_bytes 8 e.1 ++ chunkmac_bytes (pad e.1) e.2 ++ tl ++ rest) 8 24
          = chunkmac_bytes (pad e.1) e.2) as ->.
  { unfold substr. rewrite drop_app_exact by done. by apply take_app_exact. }
  assert (drop 32 (le_bytes 8 e.1 ++ chunkmac_bytes (pad e.1) e.2 ++ tl ++ rest) = tl ++ rest) as ->.
  { rewrite app_assoc. apply drop_app_exact. rewrite length_app, length_le_bytes, Hlen. done. }
  rewrite <- (app_nil_r (chunkmac_bytes _ _)), read_chunkmac_bytes by done. apply IH.
Qed.

Lemma length_entries pad l :
  (forall k, length (pad k) = 3%nat) -> Forall entry_ok l ->
  length (mjoin ((fun e => le_bytes 8 e.1 ++ chunkmac_bytes (pad e.1) e.2) <$> l)) = (length l * 32)%nat.
Proof.
  intros Hpad. induction 1 as [|e l He Hl IH]; [done|].
  rewrite fmap_cons, mjoin_cons, !length_app, length_le_bytes, length_chunkmac_bytes, IH by done.
  simpl. lia.
Qed.

Lemma put_entries_map m l :
  mMacMap (foldl put_entry m l) = foldl (fun l e => omap_insert e.1 e.2 l) (mMacMap m) l.
Proof.
  revert m. induction l as [|e l IH]; intros m; [done|]. cbn [foldl].
  rewrite IH. unfold put_entry. by case_if.
Qed.

Lemma put_entries_plain m l :
  Forall (fun e => isMacsmacSoFar e.2 = false) l ->
  macsmacSoFarPos (foldl put_entry m l) = macsmacSoFarPos m.
Proof.
  intros Hl. revert m. induction Hl as [|e l He Hl IH]; intros m; [done|]. cbn [foldl].
  rewrite IH. unfold put_entry. by rewrite He.
Qed.

Lemma put_entries_progress m l : progresscontiguous (foldl put_entry m l) = progresscontiguous m.
Proof.
  revert m. induction l as [|e l IH]; intros m; [done|]. cbn [foldl].
  rewrite IH. unfold put_entry. by case_if.
Qed.

(** Only the first entry may be the folded prefix, at [macsmacSoFarPos]. *)
Definition prefix_ok (m : chunkmac_map) : Prop :=
  match mMacMap m with
  | [] => macsmacSoFarPos m = -1
  | (k, c) :: l =>
      macsmacSoFarPos m = (if isMacsmacSoFar c then k else -1)
      /\ Forall (fun e => isMacsmacSoFar e.2 = false) l
  end.

End ChunkmacMap.

(** The chunk MACs of a transfer survive the cache: unserializing what
    [chunkmac_map::serialize] wrote rebuilds the map and the position of the
    folded prefix and leaves what follows, whatever the padding bytes are. *)
Theorem chunkmacs_roundtrip (pad : Z -> bytes) (m : chunkmac_map) (rest : bytes) :
  (forall k, length (pad k) = 3%nat) ->
  omap_ok (mMacMap m) -> Forall ChunkmacMap.entry_ok (mMacMap m) -> ChunkmacMap.prefix_ok m ->
  Z.of_nat (ChunkmacMap.size m) < 2 ^ 16 ->
  ChunkmacMap.unserialize ChunkmacMap.clear (ChunkmacMap.serialize pad m [] ++ rest)
  = (true, ChunkmacMap.setProgressContiguous 0 m, rest).
Proof.
  intros Hpad Hok Hent Hpre Hsz. unfold ChunkmacMap.serialize, ChunkmacMap.unserialize.
  rewrite app_nil_l, <- app_assoc.
  rewrite (proj2 (Nat.ltb_ge _ _)) by (rewrite !length_app, length_le_bytes; lia).
  rewrite take_app_exact, drop_app_exact by (by rewrite length_le_bytes).
  rewrite le_value_bytes, wrapu_id, Z.mod_small by (change (256 ^ Z.of_nat 2) with (2 ^ 16); lia).
  rewrite (proj2 (Z.ltb_ge _ _)).
  2:{ rewrite !length_app, length_le_bytes, ChunkmacMap.length_entries by done.
      unfold ChunkmacMap.size. lia. }
  unfold ChunkmacMap.size. rewrite Nat2Z.id, ChunkmacMap.unserialize_entries_app by done.
  do 2 f_equal.
  pose proof (ChunkmacMap.put_entries_map ChunkmacMap.clear (mMacMap m)) as E1.
  rewrite rebuild in E1 by done. simpl in E1.
  pose proof (ChunkmacMap.put_entries_progress ChunkmacMap.clear (mMacMap m)) as E2.
  assert (macsmacSoFarPos (foldl ChunkmacMap.put_entry ChunkmacMap.clear (mMacMap m))
          = macsmacSoFarPos m) as E3.
  { unfold ChunkmacMap.prefix_ok in Hpre. destruct (mMacMap m) as [|[k c] l]; [done|].
    destruct Hpre as [-> Hl]. cbn [foldl].
    rewrite ChunkmacMap.put_entries_plain by done. unfold ChunkmacMap.put_entry. cbn [snd fst].
    by destruct (isMacsmacSoFar c). }
  destruct (foldl _ _ _). simpl in *. subst. done.
Qed.

Lemma chunkmacs_roundtrip_witness :
  let m := MkChunkmacMap [(0, MkChunkMAC (replicate 16 7) (2 ^ 32 - 1) true);
                          (131072, MkChunkMAC (replicate 16 250) 0 true);
                          (393216, MkChunkMAC (replicate 16 1) 4096 false)] 0 393216 in
  ChunkmacMap.unserialize ChunkmacMap.clear (ChunkmacMap.serialize (fun _ => [1; 2; 3]) m [] ++ [9])
  = (true, ChunkmacMap.setProgressContiguous 0 m, [9]).
Proof.
  apply chunkmacs_roundtrip.
  - intros k. reflexivity.
  - simpl. repeat constructor.
  - repeat apply Forall_cons_2; try apply Forall_nil_2; unfold ChunkmacMap.entry_ok; simpl;
      split_and!; (lia || reflexivity).
  - unfold ChunkmacMap.prefix_ok. simpl. repeat constructor.
  - vm_compute. reflexivity.
Defined.

Module ChunkmacFacts.
Import ChunkedHash ChunkmacMap.

(** Every entry sits at the start of a chunk of the file. *)
Definition keys_ok (fileSize : Z) (m : chunkmac_map) : Prop :=
  Forall (fun e => 0 <= e.1 < fileSize /\ chunkfloor e.1 = e.1) (mMacMap m).

(** [c] starts a chunk. *)
Definition chunk_start (c : Z) : Prop := 0 <= c /\ chunkfloor c = c.

Lemma finishedAt_found p m : finishedAt p m = true -> exists c, omap_find p (mMacMap m) = Some c /\ finished c = true.
Proof. unfold finishedAt. destruct (omap_find _ _); [eauto|done]. Qed.

Lemma chunkceil_step fileSize p :
  0 <= p < fileSize -> p < chunkceil p fileSize <= fileSize.
Proof.
  intros Hp. rewrite chunkceil_limit by lia. destruct (chunk_spec p ltac:(lia)) as [_ ?]. lia.
Qed.

(** The only chunk start in a chunk is its first byte. *)
Lemma chunk_start_unique p c :
  chunk_start p -> chunk_start c -> p <= c < chunkceil p (-1) -> c = p.
Proof.
  intros [H0 H1] [H2 H3] Hc. destruct (chunk_spec p H0) as [Hp Hb]. rewrite H1 in *.
  destruct (is_chunk_at _ _ c Hp Hc) as [E _]. lia.
Qed.

Lemma chunk_start_ceil p : 0 <= p -> chunk_start (chunkceil p (-1)).
Proof.
  intros H0. split; [|by apply floor_ceil]. destruct (chunk_spec p H0). lia.
Qed.

Lemma contiguous_loop_spec fileSize fuel m :
  keys_ok fileSize m -> chunk_start (progresscontiguous m) ->
  (count_ge (progresscontiguous m) (mMacMap m) <= fuel)%nat ->
  exists p, contiguous_loop fuel fileSize m = Some (setProgressContiguous p m)
    /\ progresscontiguous m <= p /\ (chunk_start p \/ p = fileSize)
    /\ finishedAt p m = false
    /\ (progresscontiguous m < p -> p <= fileSize)
    /\ forall c, chunk_start c -> progresscontiguous m <= c < p -> finishedAt c m = true.
Proof.
  revert m. induction fuel as [|fuel IH]; intros m Hk Hs Hc; cbn [contiguous_loop].
  all: destruct (finishedAt (progresscontiguous m) m) eqn:E.
  all: try (exists (progresscontiguous m); split_and!; try done; try (by left); try lia;
            destruct m; done).
  - apply finishedAt_found in E as (c & Hf & _).
    pose proof (count_ge_found _ (progresscontiguous m + 1) _ _ Hf). lia.
  - destruct (finishedAt_found _ _ E) as (c & Hf & _).
    destruct (find_Forall _ _ _ _ Hf Hk) as [Hr _]. simpl in Hr.
    pose proof (chunkceil_step _ _ Hr) as Hstep.
    set (p' := chunkceil (progresscontiguous m) fileSize) in *.
    set (m' := setProgressContiguous p' m).
    assert (chunk_start p' \/ p' = fileSize) as Hp'.
    { subst p'. rewrite chunkceil_limit by lia.
      destruct (Z.min_spec (chunkceil (progresscontiguous m) (-1)) fileSize) as [[_ ->]|[_ ->]];
        [left; apply chunk_start_ceil; lia|by right]. }
    destruct Hp' as [Hp'|Hp'].
    + destruct (IH m' Hk Hp') as (p & -> & H1 & H2 & H3 & H4 & H5).
      { pose proof (count_ge_found _ p' _ _ Hf). simpl. lia. }
      simpl in *. exists p. split_and!; try done; [lia|lia|].
      intros x Hx Hr'. destruct (decide (p' <= x)); [apply H5; [done|lia]|].
      assert (x = progresscontiguous m) as ->; [|done].
      apply chunk_start_unique; [done..|].
      subst p'. rewrite chunkceil_limit in * by lia. lia.
    + (* the end of the file *)
      assert (finishedAt fileSize m = false) as Hend.
      { destruct (finishedAt fileSize m) eqn:E'; [|done].
        apply finishedAt_found in E' as (c' & Hf' & _).
        destruct (find_Forall _ _ _ _ Hf' Hk) as [Hr' _]. simpl in Hr'. lia. }
      exists fileSize. split_and!; try done; try lia; try (by right).
      * destruct fuel; cbn [contiguous_loop]; subst m'; cbn [progresscontiguous setProgressContiguous];
          rewrite Hp'; change (finishedAt fileSize (setProgressContiguous fileSize m))
            with (finishedAt fileSize m); by rewrite Hend.
      * intros x Hx Hr'. assert (x = progresscontiguous m) as ->; [|done].
        apply chunk_start_unique; [done..|].
        subst p'. rewrite chunkceil_limit in * by lia. lia.
Qed.

(** The invariant of the map of a file of [fileSize] bytes: sorted chunk
    starts, at most a folded prefix, and every chunk before the contiguous
    progress is finished or folded. *)
Record inv (fileSize : Z) (m : chunkmac_map) : Prop := {
  inv_ok : omap_ok (mMacMap m);
  inv_keys : keys_ok fileSize m;
  inv_prefix : prefix_ok m;
  inv_prog : 0 <= progresscontiguous m <= fileSize
             /\ (chunk_start (progresscontiguous m) \/ progresscontiguous m = fileSize);
  inv_cover : forall c, chunk_start c -> c < progresscontiguous m ->
              c <= macsmacSoFarPos m \/ finishedAt c m = true
}.

Lemma soFar_finished c : isMacsmacSoFar c = true -> finished c = true.
Proof. unfold isMacsmacSoFar. by intros [? _]%andb_true_iff. Qed.

(** In a covered map the chunk after the folded prefix is the second entry. *)
Lemma prefix_next fileSize m k0 c0 rest :
  inv fileSize m -> mMacMap m = (k0, c0) :: rest -> isMacsmacSoFar c0 = true ->
  k0 + 8 * SEGSIZE < progresscontiguous m ->
  exists c1 rest', rest = (chunkceil k0 (-1), c1) :: rest' /\ finished c1 = true
    /\ macsmacSoFarPos m = k0.
Proof.
  intros [Hok Hk Hp _ Hcov] E Hs Hlt. unfold prefix_ok, keys_ok, finishedAt in *. rewrite E in *.
  destruct Hp as [Hpos Hrest]. rewrite Hs in Hpos.
  apply Forall_cons in Hk as [[Hk0 Hf0] Hk]. simpl in Hk0, Hf0.
  assert (chunk_start k0) as Hc0 by (split; [lia|done]).
  destruct (chunk_spec k0 ltac:(lia)) as [Hch Hb]. rewrite Hf0 in *.
  pose proof (is_chunk_size _ _ Hch) as Hsz.
  set (n := chunkceil k0 (-1)) in *.
  assert (chunk_start n) as Hn by (apply chunk_start_ceil; lia).
  destruct (Hcov n Hn ltac:(lia)) as [?|Hfin]; [lia|].
  rewrite find_tail in Hfin by lia. destruct Hok as [Hbel Hok].
  destruct rest as [|[k1 c1] rest']; [done|].
  apply Forall_cons in Hbel as [Hlt1 _]. simpl in Hlt1. apply Z.ltb_lt in Hlt1.
  apply Forall_cons in Hk as [[Hk1 Hf1] _]. simpl in Hk1, Hf1.
  assert (n <= k1) as Hnk.
  { destruct (decide (n <= k1)) as [|Hn']; [done|].
    assert (k1 = k0); [|lia]. apply chunk_start_unique; [done|split; [lia|done]|fold n; lia]. }
  rewrite find_cons in Hfin.
  destruct (n <? k1) eqn:E1; [done|]. zbool. assert (k1 = n) as -> by lia.
  rewrite Z.ltb_irrefl in Hfin. eauto.
Qed.

Section fold.
Context `{AES}.

(** What one round of [updateMacsmacProgress] does under the invariant. *)
Record advances (m m' : chunkmac_map) : Prop := {
  adv_mac : macsmac m' = macsmac m;
  adv_progress : progresscontiguous m' = progresscontiguous m;
  adv_pos : macsmacSoFarPos m <= macsmacSoFarPos m';
  adv_folded : forall c, chunk_start c -> macsmacSoFarPos m < c <= macsmacSoFarPos m' ->
               finishedAt c m = true;
  adv_rest : forall c, macsmacSoFarPos m' < c -> omap_find c (mMacMap m') = omap_find c (mMacMap m)
}.

Definition fuel_need (m : chunkmac_map) : nat :=
  (size m + (if (macsmacSoFarPos m =? -1)%Z then 1 else 0))%nat.

Lemma step_prefix fileSize m k0 c0 rest :
  inv fileSize m -> mMacMap m = (k0, c0) :: rest -> isMacsmacSoFar c0 = true ->
  k0 + 8 * SEGSIZE < progresscontiguous m ->
  exists m', macsmac_step m = Some m' /\ inv fileSize m' /\ advances m m'
    /\ (fuel_need m' < fuel_need m)%nat.
Proof.
  intros Hinv E Hs Hlt.
  destruct (prefix_next _ _ _ _ _ Hinv E Hs Hlt) as (c1 & rest' & -> & Hfin & Hpos).
  destruct Hinv as [Hok Hk Hp Hprog Hcov].
  unfold macsmac_step. rewrite E, Hs. eexists. split; [done|].
  unfold prefix_ok, keys_ok in *. rewrite E in *. destruct Hp as [_ [Hs1 Hrest]%Forall_cons].
  simpl in Hs1. destruct Hok as [Hbel [Hbel1 Hok]].
  apply Forall_cons in Hbel as [Hlt1 _]. simpl in Hlt1. apply Z.ltb_lt in Hlt1.
  apply Forall_cons in Hk as [Hk0 [Hk1 Hk]%Forall_cons]. simpl in Hk0, Hk1.
  set (k1 := chunkceil k0 (-1)) in *.
  split_and!; [split; simpl|split; simpl|].
  - done.
  - by constructor.
  - unfold prefix_ok, isMacsmacSoFar. simpl. rewrite Hfin. simpl. done.
  - done.
  - intros c Hc Hcp. destruct (decide (c <= k1)); [by left|right].
    destruct (Hcov c Hc Hcp) as [?|Hf]; [lia|]. unfold finishedAt in *. rewrite E in Hf.
    rewrite !find_tail in Hf by lia. simpl. by rewrite find_tail by lia.
  - unfold macsmac. rewrite E. simpl. f_equal. f_equal. unfold fold_mac.
    rewrite Hs, Hs1. unfold isMacsmacSoFar. simpl. by rewrite Hfin.
  - done.
  - lia.
  - intros c Hc Hr. rewrite Hpos in Hr. assert (c = k1) as ->.
    { destruct (decide (c = k1)) as [|Hne]; [done|].
      assert (c = k0); [|lia].
      apply chunk_start_unique; [split; [lia|tauto]|done|fold k1; lia]. }
    unfold finishedAt. rewrite E, find_tail, find_head by lia. done.
  - intros c Hc. rewrite E, !find_tail by lia. done.
  - unfold fuel_need, size. rewrite E. simpl. repeat case_if; zbool; lia.
Qed.

Lemma step_first fileSize m :
  inv fileSize m -> macsmacSoFarPos m = -1 -> 0 < progresscontiguous m ->
  exists m', macsmac_step m = Some m' /\ inv fileSize m' /\ advances m m'
    /\ (fuel_need m' < fuel_need m)%nat.
Proof.
  intros [Hok Hk Hp Hprog Hcov] Hpos Hlt.
  assert (chunk_start 0) as H0 by (split; [lia|done]).
  destruct (Hcov 0 H0 Hlt) as [?|Hfin]; [lia|].
  unfold macsmac_step. unfold prefix_ok, keys_ok in *.
  destruct (mMacMap m) as [|[k0 c0] rest] eqn:E; [unfold finishedAt in Hfin; by rewrite E in Hfin|].
  destruct Hp as [Hsp Hrest]. apply Forall_cons in Hk as [[Hk0 Hf0] Hk]. simpl in Hk0, Hf0.
  destruct (isMacsmacSoFar c0) eqn:Hs; [lia|].
  assert (k0 = 0) as ->.
  { pose proof Hfin as Hfin'. unfold finishedAt in Hfin'. rewrite E, find_cons in Hfin'.
    destruct (0 <? k0) eqn:E1; [done|]. zbool. lia. }
  rewrite Hfin. rewrite Z.eqb_refl. cbn [andb]. eexists. split; [done|].
  destruct Hok as [Hbel Hok].
  assert (finished c0 = true) as Hc0 by (unfold finishedAt in Hfin; by rewrite E, find_head in Hfin).
  split_and!; [split; simpl|split; simpl|].
  - done.
  - by constructor.
  - unfold prefix_ok, isMacsmacSoFar. simpl. rewrite Hc0. simpl. done.
  - done.
  - intros c Hc Hcp. destruct (decide (c <= 0)); [by left|right].
    destruct (Hcov c Hc Hcp) as [?|Hf]; [lia|]. unfold finishedAt in *. rewrite E in Hf.
    rewrite find_tail in Hf by lia. simpl. by rewrite find_tail by lia.
  - unfold macsmac. rewrite E. simpl. f_equal. f_equal. unfold fold_mac.
    rewrite Hs. unfold isMacsmacSoFar. simpl. by rewrite Hc0.
  - done.
  - lia.
  - intros c [Hc _] Hr. by assert (c = 0) as -> by lia.
  - intros c Hc. rewrite E, !find_tail by lia. done.
  - unfold fuel_need, size. rewrite E, Hpos. simpl. lia.
Qed.

#[export] Instance advances_refl : Reflexive advances.
Proof. intros m. split; try done. intros c _ ?. lia. Qed.

#[export] Instance advances_trans : Transitive advances.
Proof.
  intros m1 m2 m3 [A1 A2 A3 A4 A5] [B1 B2 B3 B4 B5]. split; [congruence..|lia| |].
  - intros c Hc Hr. destruct (decide (c <= macsmacSoFarPos m2)); [apply A4; [done|lia]|].
    rewrite <- (B4 c) by (done || lia). unfold finishedAt. by rewrite A5 by lia.
  - intros c Hc. rewrite B5, A5; [done|lia|lia].
Qed.

Lemma step_pending fileSize m :
  inv fileSize m -> macsmac_pending m = true ->
  exists m', macsmac_step m = Some m' /\ inv fileSize m' /\ advances m m'
    /\ (fuel_need m' < fuel_need m)%nat.
Proof.
  intros Hinv Hpend. unfold macsmac_pending in Hpend. zbool.
  destruct (decide (macsmacSoFarPos m = -1)) as [Hpos|Hpos].
  { apply (step_first fileSize); [done|done|lia]. }
  pose proof (inv_prefix _ _ Hinv) as Hp. unfold prefix_ok in Hp.
  destruct (mMacMap m) as [|[k0 c0] rest] eqn:E; [done|]. destruct Hp as [Hp _].
  destruct (isMacsmacSoFar c0) eqn:Hs; [|done].
  apply (step_prefix fileSize m k0 c0 rest); [done..|]. unfold SEGSIZE. lia.
Qed.

Lemma macsmac_loop_spec fileSize fuel m :
  inv fileSize m -> (fuel_need m <= fuel)%nat ->
  exists m', macsmac_loop fuel m = Some m' /\ inv fileSize m' /\ advances m m'
    /\ macsmac_pending m' = false.
Proof.
  revert m. induction fuel as [|fuel IH]; intros m Hinv Hf; cbn [macsmac_loop];
    destruct (macsmac_pending m) eqn:E; [|by exists m| |by exists m].
  - unfold macsmac_pending in E. unfold fuel_need in Hf. zbool. lia.
  - destruct (step_pending _ _ Hinv E) as (m1 & -> & Hinv1 & Ha & Hlt). simpl.
    destruct (IH m1 Hinv1 ltac:(lia)) as (m2 & -> & Hinv2 & Hb & Hd).
    exists m2. split_and!; [done|done|by etrans|done].
Qed.

Lemma updateMacsmacProgress_spec fileSize m :
  inv fileSize m ->
  exists m', updateMacsmacProgress m = Some m' /\ inv fileSize m' /\ advances m m'
    /\ macsmac_pending m' = false.
Proof.
  intros Hinv. apply macsmac_loop_spec; [done|]. unfold fuel_need. case_if; lia.
Qed.

End fold.

Lemma updateContiguousProgress_spec fileSize m :
  inv fileSize m ->
  exists p, updateContiguousProgress fileSize m = Some (p, setProgressContiguous p m)
    /\ inv fileSize (setProgressContiguous p m)
    /\ progresscontiguous m <= p /\ finishedAt p m = false
    /\ forall c, chunk_start c -> progresscontiguous m <= c < p -> finishedAt c m = true.
Proof.
  intros [Hok Hk Hp [Hr Hs] Hcov]. unfold updateContiguousProgress.
  assert (progresscontiguous m = fileSize -> finishedAt fileSize m = false) as Hend.
  { intros _. destruct (finishedAt fileSize m) eqn:E; [|done].
    apply finishedAt_found in E as (c & Hf & _).
    destruct (find_Forall _ _ _ _ Hf Hk) as [Hr' _]. simpl in Hr'. lia. }
  destruct (decide (progresscontiguous m = fileSize)) as [He|Hne].
  - exists fileSize.
    assert (setProgressContiguous fileSize m = m) as Hm by (rewrite <- He; by destruct m).
    rewrite Hm. assert (contiguous_loop (size m) fileSize m = Some m) as ->.
    { destruct (size m); cbn [contiguous_loop]; rewrite He, Hend by done; done. }
    simpl. rewrite He. split_and!; try done; [auto|]. intros. lia.
  - destruct Hs as [Hs|Hs]; [|done].
    destruct (contiguous_loop_spec fileSize (size m) m Hk Hs (count_ge_length _ _))
      as (p & -> & H1 & H2 & H3 & H4 & H5).
    exists p. simpl. split_and!; try done. split; simpl; try done.
    + split; [|done]. destruct (decide (progresscontiguous m < p)); [specialize (H4 ltac:(lia))|]; lia.
    + intros c Hc Hcp. destruct (decide (c < progresscontiguous m)); [by apply Hcov|].
      right. change (finishedAt c m = true). apply H5; [done|lia].
Qed.

(** *** The operations as steps *)

Lemma prefix_ok_plain m :
  macsmacSoFarPos m = -1 -> Forall (fun e => isMacsmacSoFar e.2 = false) (mMacMap m) -> prefix_ok m.
Proof.
  intros Hp Hl. unfold prefix_ok. destruct (mMacMap m) as [|[k c] l]; [done|].
  apply Forall_cons in Hl as [Hc Hl]. simpl in Hc. by rewrite Hc.
Qed.

(** What the callers guarantee when they store the entry of a chunk. *)
Definition storable_entry (fileSize : Z) (m : chunkmac_map) (k : Z) (c : ChunkMAC) : Prop :=
  chunk_start k /\ k < fileSize /\ macsmacSoFarPos m < k /\ isMacsmacSoFar c = false
  /\ (finishedAt k m = true -> finished c = true).

Lemma inv_insert fileSize m k c :
  inv fileSize m -> storable_entry fileSize m k c ->
  inv fileSize (set_map (omap_insert k c (mMacMap m)) m).
Proof.
  intros [Hok Hk Hp Hprog Hcov] ([H0 Hs] & Hlt & Hpos & Hc & Hfin). split; simpl.
  - by apply insert_ok.
  - apply insert_Forall; [simpl; auto|done].
  - unfold prefix_ok in Hp. destruct (mMacMap m) as [|[k0 c0] l] eqn:E.
    + apply prefix_ok_plain; simpl; [done|]. by repeat constructor.
    + destruct Hp as [Hp Hl]. destruct (isMacsmacSoFar c0) eqn:Hs0.
      * unfold prefix_ok. cbn [mMacMap set_map]. rewrite insert_cons.
        rewrite (proj2 (Z.ltb_ge k k0)), (proj2 (Z.ltb_lt k0 k)) by lia. simpl. rewrite Hs0.
        split; [done|]. by apply insert_Forall.
      * apply prefix_ok_plain; [done|]. cbn [mMacMap set_map].
        apply insert_Forall; [done|]. by constructor.
  - done.
  - intros x Hx Hxp. destruct (Hcov x Hx Hxp) as [?|Hf]; [by left|right].
    unfold finishedAt in *. cbn [mMacMap set_map].
    destruct (decide (x = k)) as [->|Hne]; [rewrite find_insert_eq; auto|].
    by rewrite find_insert_ne by done.
Qed.

(** *** Choosing the next piece to transfer *)

Lemma next_loop_spec fuel m pos :
  chunk_start pos -> (count_ge pos (mMacMap m) <= fuel)%nat ->
  exists q, chunk_start q /\ pos <= q
    /\ (forall c, chunk_start c -> pos <= c < q -> finishedAt c m = true)
    /\ finishedAt q m = false
    /\ next_loop fuel m pos = Some (q + offset (entry q m)).
Proof.
  revert pos. induction fuel as [|fuel IH]; intros pos Hs Hc; cbn [next_loop];
    rewrite (proj2 Hs); destruct (omap_find pos (mMacMap m)) as [c|] eqn:E;
    try (exists pos; unfold finishedAt, entry; rewrite E; split_and!; try done;
         [intros; lia|simpl; f_equal; lia]);
    destruct (finished c) eqn:Ef;
    try (exists pos; unfold finishedAt, entry; rewrite E; split_and!; try done; intros; lia).
  - pose proof (count_ge_found _ (pos + 1) _ _ E). lia.
  - destruct (chunk_spec pos (proj1 Hs)) as [_ Hb].
    destruct (IH (chunkceil pos (-1))) as (q & H1 & H2 & H3 & H4 & H5).
    { apply chunk_start_ceil, Hs. }
    { pose proof (count_ge_found _ (chunkceil pos (-1)) _ _ E). lia. }
    exists q. split_and!; try done; [lia|].
    intros x Hx Hr. destruct (decide (chunkceil pos (-1) <= x)); [apply H3; [done|lia]|].
    assert (x = pos) as -> by (apply chunk_start_unique; (done || lia)).
    unfold finishedAt. by rewrite E.
Qed.

Lemma expand_loop_spec fileSize maxReqSize fuel m pos npos :
  (chunk_start npos \/ fileSize <= npos) ->
  (npos < fileSize -> fileSize - npos <= SEGSIZE * Z.of_nat fuel) ->
  exists q, expand_loop fuel m pos npos fileSize maxReqSize = Some q
    /\ npos <= q /\ (npos <= fileSize -> q <= fileSize)
    /\ (forall c, chunk_start c -> npos <= c < q ->
         match omap_find c (mMacMap m) with None => True | Some e => notStarted e = true end).
Proof.
  revert npos. induction fuel as [|fuel IH]; intros npos Hs Hf; cbn [expand_loop];
    destruct (_ && _ && _) eqn:E; try (exists npos; split_and!; try done; intros; lia).
  zbool. destruct Hs as [Hs|?]; [|lia]. specialize (Hf ltac:(lia)).
  pose proof (chunkceil_step fileSize npos) as Hst. destruct Hs as [Hn0 Hfl].
  specialize (Hst ltac:(lia)). destruct (chunk_spec npos Hn0) as [Hch _]. rewrite Hfl in Hch.
  pose proof (is_chunk_size _ _ Hch) as Hsz.
  pose proof (chunkceil_limit npos fileSize ltac:(lia)) as Hlim.
  destruct (IH (chunkceil npos fileSize)) as (q & -> & G1 & G2 & G3).
  + destruct (decide (chunkceil npos fileSize = fileSize)); [right; lia|left].
    rewrite Hlim, Z.min_l by lia. by apply chunk_start_ceil.
  + unfold SEGSIZE in *. lia.
  + exists q. split_and!; try done; [lia|intros; apply G2; lia|].
    intros x Hx Hr. destruct (decide (chunkceil npos fileSize <= x)); [apply G3; [done|lia]|].
    assert (x = npos) as ->.
    { apply chunk_start_unique; [by split|done|lia]. }
    by destruct (omap_find npos (mMacMap m)).
Qed.

Section steps.
Context `{AES} (fileSize : Z).

Inductive step (m : chunkmac_map) : chunkmac_map -> Prop :=
| step_encrypt chunkid data len ctriv fin :
    chunk_start chunkid -> chunkid < fileSize -> macsmacSoFarPos m < chunkid ->
    finishedAt chunkid m = false ->
    step m (ctr_encrypt m chunkid data len chunkid ctriv fin).2
| step_decrypt chunkid data len startpos ctriv fin :
    chunk_start chunkid -> chunkid < fileSize -> macsmacSoFarPos m < chunkid ->
    finishedAt chunkid m = false ->
    step m (ctr_decrypt m chunkid data len startpos ctriv fin).2
| step_uploaded macs :
    Forall (fun e => chunk_start e.1 /\ e.1 < fileSize /\ macsmacSoFarPos m < e.1
                     /\ offset e.2 <> 2 ^ 32 - 1) (mMacMap macs) ->
    step m (finishedUploadChunks macs m).2
| step_progress p m' : updateContiguousProgress fileSize m = Some (p, m') -> step m m'
| step_fold m' : updateMacsmacProgress m = Some m' -> step m m'.

Lemma plain_entry mc off fin : off <> 2 ^ 32 - 1 -> isMacsmacSoFar (MkChunkMAC mc off fin) = false.
Proof.
  intros Ho. unfold isMacsmacSoFar. simpl. rewrite (proj2 (Z.eqb_neq off _)) by done.
  by rewrite andb_false_r.
Qed.

Lemma uploaded_inv l m :
  inv fileSize m ->
  Forall (fun e => chunk_start e.1 /\ e.1 < fileSize /\ macsmacSoFarPos m < e.1
                   /\ offset e.2 <> 2 ^ 32 - 1) l ->
  inv fileSize (set_map (foldl (fun l e => omap_insert e.1 e.2 l) (mMacMap m)
    (prod_map id (fun c => MkChunkMAC (mac c) (offset c) true) <$> l)) m).
Proof.
  intros Hinv Hl. revert m Hinv Hl. induction l as [|[k c] l IH]; intros m Hinv Hl.
  { by destruct m. }
  apply Forall_cons in Hl as [(H1 & H2 & H3 & H4) Hl]. simpl in *.
  apply (IH (set_map (omap_insert k _ (mMacMap m)) m)); [|done].
  apply inv_insert; [done|]. split_and!; try done. by apply plain_entry.
Qed.

Lemma step_inv m m' : inv fileSize m -> step m m' -> inv fileSize m'.
Proof.
  intros Hinv Hstep. destruct Hstep as [id d len iv fin Hc Hs Hp Hf|id d len sp iv fin Hc Hs Hp Hf|macs Hl|p m' E|m' E].
  - unfold ctr_encrypt. destruct (SymmCipher.ctr_crypt _ _ _ _ _ _ _) as [data mc]. simpl.
    apply inv_insert; [done|]. split_and!; try done; [by apply plain_entry|by rewrite Hf].
  - unfold ctr_decrypt. destruct (SymmCipher.ctr_crypt _ _ _ _ _ _ _) as [data mc]. simpl.
    apply inv_insert; [done|]. split_and!; try done; [|by rewrite Hf].
    destruct fin; [by apply plain_entry|done].
  - by apply uploaded_inv.
  - destruct (updateContiguousProgress_spec _ _ Hinv) as (q & Eq & Hq & _). by simplify_eq.
  - destruct (updateMacsmacProgress_spec _ _ Hinv) as (q & Eq & Hq & _). by simplify_eq.
Qed.

End steps.
End ChunkmacFacts.

(** C8: every map the transfer engine reaches from an empty one by encrypting or
    decrypting chunks, confirming uploads, advancing the contiguous progress and
    folding the MACs satisfies the invariant, and both progress loops return. *)
Theorem chunkmac_reachable `{AES} (fileSize : Z) (m : chunkmac_map) :
  0 <= fileSize -> rtc (ChunkmacFacts.step fileSize) ChunkmacMap.clear m ->
  ChunkmacFacts.inv fileSize m
  /\ is_Some (ChunkmacMap.updateContiguousProgress fileSize m)
  /\ is_Some (ChunkmacMap.updateMacsmacProgress m).
Proof.
  intros Hsz Hr. assert (ChunkmacFacts.inv fileSize m) as Hinv.
  { assert (ChunkmacFacts.inv fileSize ChunkmacMap.clear) as H0.
    { split; try done; [constructor|split; [simpl; lia|by left]|].
      intros c [? _] Hc. simpl in Hc. lia. }
    induction Hr as [|m1 m2 m3 Hs _ IH]; [done|]. apply IH. by eapply ChunkmacFacts.step_inv. }
  split_and!; [done|..].
  - destruct (ChunkmacFacts.updateContiguousProgress_spec _ _ Hinv) as (p & -> & _). eauto.
  - destruct (ChunkmacFacts.updateMacsmacProgress_spec _ _ Hinv) as (q & -> & _). eauto.
Qed.

Local Existing Instances ToyCipher.toy ToyCipher.toy_laws.

Lemma chunkmac_reachable_witness :
  let m := (ChunkmacMap.ctr_decrypt ChunkmacMap.clear 0 (replicate 32 1) 32 0 7 false).2 in
  ChunkmacFacts.inv 1000000 m
  /\ is_Some (ChunkmacMap.updateContiguousProgress 1000000 m)
  /\ is_Some (ChunkmacMap.updateMacsmacProgress m).
Proof.
  apply (chunkmac_reachable 1000000); [lia|]. apply rtc_once, ChunkmacFacts.step_decrypt.
  - split; [lia|reflexivity].
  - lia.
  - vm_compute. reflexivity.
  - reflexivity.
Defined.

(** C10: folding the leading chunk MACs never changes the file MAC: under the
    invariant [updateMacsmacProgress] returns, [macsmac] is unchanged, only
    finished chunks before the contiguous progress are folded, later entries are
    untouched and nothing is left to fold. *)
Theorem macsmac_progress `{AES} (fileSize : Z) (m : chunkmac_map) :
  ChunkmacFacts.inv fileSize m ->
  exists m', ChunkmacMap.updateMacsmacProgress m = Some m'
    /\ ChunkmacFacts.inv fileSize m'
    /\ ChunkmacMap.macsmac m' = ChunkmacMap.macsmac m
    /\ progresscontiguous m' = progresscontiguous m
    /\ (forall c, ChunkmacFacts.chunk_start c ->
          macsmacSoFarPos m < c <= macsmacSoFarPos m' -> ChunkmacMap.finishedAt c m = true)
    /\ (forall c, macsmacSoFarPos m' < c ->
          omap_find c (mMacMap m') = omap_find c (mMacMap m))
    /\ ChunkmacMap.macsmac_pending m' = false.
Proof.
  intros Hinv. destruct (ChunkmacFacts.updateMacsmacProgress_spec _ _ Hinv)
    as (m' & E & Hi & [H1 H2 H3 H4 H5] & Hd). exists m'. by split_and!.
Qed.

(** A file of [n] chunks, all finished. *)
Module FullMap.
Import ChunkedHash ChunkmacMap ChunkmacFacts.

Fixpoint entries (f : Z -> bytes) (n : nat) (c : Z) : list (Z * ChunkMAC) :=
  match n with
  | O => []
  | S n => (c, MkChunkMAC (f c) 0 true) :: entries f n (chunkceil c (-1))
  end.

Fixpoint stop (n : nat) (c : Z) : Z :=
  match n with O => c | S n => stop n (chunkceil c (-1)) end.

Definition full (f : Z -> bytes) (n : nat) : chunkmac_map :=
  MkChunkmacMap (entries f n 0) (-1) (stop n 0).

Lemma ceil_gt c : chunk_start c -> c < chunkceil c (-1).
Proof. intros [H0 _]. destruct (chunk_spec c H0). lia. Qed.

Lemma entries_facts f n c :
  chunk_start c ->
  chunk_start (stop n c) /\ c <= stop n c
  /\ omap_ok (entries f n c)
  /\ Forall (fun e => c <= e.1 < stop n c /\ chunkfloor e.1 = e.1 /\ e.2 = MkChunkMAC (f e.1) 0 true)
       (entries f n c)
  /\ forall x, chunk_start x -> c <= x < stop n c ->
       omap_find x (entries f n c) = Some (MkChunkMAC (f x) 0 true).
Proof.
  revert c. induction n as [|n IH]; intros c Hc; cbn [entries stop].
  { split_and!; try done. intros. lia. }
  pose proof (ceil_gt c Hc) as Hgt.
  destruct (IH (chunkceil c (-1)) (chunk_start_ceil c (proj1 Hc))) as (H1 & H2 & H3 & H4 & H5).
  split_and!; [done|lia| | |].
  - split; [|done]. eapply Forall_impl; [exact H4|]. intros e [He _]. apply Z.ltb_lt. lia.
  - constructor.
    + simpl. destruct Hc. split_and!; [lia|lia|done|done].
    + eapply Forall_impl; [exact H4|]. simpl. intros e (? & ? & ?). split_and!; (done || lia).
  - intros x Hx Hr. destruct (decide (x = c)) as [->|Hne]; [apply find_head|].
    rewrite find_tail by lia. apply H5; [done|].
    destruct (decide (chunkceil c (-1) <= x)); [lia|].
    destruct Hne. apply chunk_start_unique; (done || lia).
Qed.

Lemma full_inv f n : inv (stop n 0) (full f n).
Proof.
  destruct (entries_facts f n 0) as (H1 & H2 & H3 & H4 & H5); [split; [lia|done]|].
  split; simpl.
  - done.
  - eapply Forall_impl; [exact H4|]. simpl. tauto.
  - apply prefix_ok_plain; [done|]. eapply Forall_impl; [exact H4|].
    intros [k v] (_ & _ & Hv). simpl in *. by rewrite Hv.
  - split; [lia|by left].
  - intros c Hc Hlt. right. unfold finishedAt. simpl. rewrite H5; [done|done|].
    destruct Hc. lia.
Qed.

End FullMap.

(** A file of 110 chunks, where eight chunks are folded. *)
Lemma macsmac_progress_witness :
  exists m', ChunkmacMap.updateMacsmacProgress (FullMap.full (fun c => replicate 16 (c mod 251)) 110) = Some m'
    /\ ChunkmacFacts.inv (FullMap.stop 110 0) m'
    /\ ChunkmacMap.macsmac m' = ChunkmacMap.macsmac (FullMap.full (fun c => replicate 16 (c mod 251)) 110)
    /\ progresscontiguous m' = FullMap.stop 110 0
    /\ (forall c, ChunkmacFacts.chunk_start c ->
          -1 < c <= macsmacSoFarPos m' ->
          ChunkmacMap.finishedAt c (FullMap.full (fun c => replicate 16 (c mod 251)) 110) = true)
    /\ (forall c, macsmacSoFarPos m' < c ->
          omap_find c (mMacMap m')
          = omap_find c (mMacMap (FullMap.full (fun c => replicate 16 (c mod 251)) 110)))
    /\ ChunkmacMap.macsmac_pending m' = false.
Proof.
  apply (macsmac_progress (FullMap.stop 110 0) (FullMap.full (fun c => replicate 16 (c mod 251)) 110)).
  apply FullMap.full_inv.
Defined.

(** Under the invariant [updateContiguousProgress] returns the end of the
    run of finished chunks: every chunk it passes over is finished, the chunk
    it stops at is not, and the invariant is kept. *)
Theorem contiguous_progress (fileSize : Z) (m : chunkmac_map) :
  ChunkmacFacts.inv fileSize m ->
  exists p, ChunkmacMap.updateContiguousProgress fileSize m
            = Some (p, ChunkmacMap.setProgressContiguous p m)
    /\ ChunkmacFacts.inv fileSize (ChunkmacMap.setProgressContiguous p m)
    /\ progresscontiguous m <= p <= fileSize
    /\ ChunkmacMap.finishedAt p m = false
    /\ forall c, ChunkmacFacts.chunk_start c -> progresscontiguous m <= c < p ->
         ChunkmacMap.finishedAt c m = true.
Proof.
  intros Hinv. destruct (ChunkmacFacts.updateContiguousProgress_spec _ _ Hinv)
    as (p & E & Hi & H1 & H2 & H3). exists p. split_and!; try done.
  apply (ChunkmacFacts.inv_prog _ _ Hi).
Qed.

Lemma contiguous_progress_witness :
  let m := ChunkmacMap.setProgressContiguous 0
             (FullMap.full (fun _ => replicate 16 3) 5) in
  exists p, ChunkmacMap.updateContiguousProgress (FullMap.stop 5 0) m
            = Some (p, ChunkmacMap.setProgressContiguous p m)
    /\ ChunkmacFacts.inv (FullMap.stop 5 0) (ChunkmacMap.setProgressContiguous p m)
    /\ progresscontiguous m <= p <= FullMap.stop 5 0
    /\ ChunkmacMap.finishedAt p m = false
    /\ forall c, ChunkmacFacts.chunk_start c -> progresscontiguous m <= c < p ->
         ChunkmacMap.finishedAt c m = true.
Proof.
  apply contiguous_progress. destruct (FullMap.full_inv (fun _ => replicate 16 3) 5) as [H1 H2 H3 H4 H5].
  split; [exact H1|exact H2|exact H3|split; [vm_compute; split; congruence|left; split; [simpl; lia|reflexivity]]|].
  intros c [Hc _] Hlt. simpl in Hlt. lia.
Defined.

(** The piece chosen for the next download request: [nextUnprocessedPosFrom]
    skips exactly the finished chunks and resumes inside a partial one, and
    [expandUnprocessedPiece] grows a piece only over chunks that were not
    started and never past the end of the file; both return. *)
Theorem next_piece (m : chunkmac_map) (pos npos fileSize maxReqSize : Z) :
  ChunkmacFacts.chunk_start pos -> ChunkmacFacts.chunk_start npos -> npos <= fileSize ->
  (exists q, ChunkmacFacts.chunk_start q /\ pos <= q
    /\ (forall c, ChunkmacFacts.chunk_start c -> pos <= c < q -> ChunkmacMap.finishedAt c m = true)
    /\ ChunkmacMap.finishedAt q m = false
    /\ ChunkmacMap.nextUnprocessedPosFrom m pos = Some (q + offset (ChunkmacMap.entry q m)))
  /\ (exists q, ChunkmacMap.expandUnprocessedPiece m pos npos fileSize maxReqSize = Some q
    /\ npos <= q <= fileSize
    /\ forall c, ChunkmacFacts.chunk_start c -> npos <= c < q ->
         match omap_find c (mMacMap m) with None => True | Some e => notStarted e = true end).
Proof.
  intros Hp Hn Hl. split.
  - apply ChunkmacFacts.next_loop_spec; [done|]. apply count_ge_length.
  - destruct (ChunkmacFacts.expand_loop_spec fileSize maxReqSize
      (S (Z.to_nat ((fileSize - npos) / ChunkedHash.SEGSIZE + 1))) m pos npos)
      as (q & E & H1 & H2 & H3); [by left| |].
    { intros _. unfold ChunkedHash.SEGSIZE. rewrite Nat2Z.inj_succ, Z2Nat.id by dlia. dlia. }
    exists q. split_and!; try done. by apply H2.
Qed.

Lemma next_piece_witness :
  let m := MkChunkmacMap [(0, MkChunkMAC (replicate 16 7) 0 true);
                          (131072, MkChunkMAC (replicate 16 1) 4096 false)] (-1) 131072 in
  (exists q, ChunkmacFacts.chunk_start q /\ 0 <= q
    /\ (forall c, ChunkmacFacts.chunk_start c -> 0 <= c < q -> ChunkmacMap.finishedAt c m = true)
    /\ ChunkmacMap.finishedAt q m = false
    /\ ChunkmacMap.nextUnprocessedPosFrom m 0 = Some (q + offset (ChunkmacMap.entry q m)))
  /\ (exists q, ChunkmacMap.expandUnprocessedPiece m 0 393216 5000000 2000000 = Some q
    /\ 393216 <= q <= 5000000
    /\ forall c, ChunkmacFacts.chunk_start c -> 393216 <= c < q ->
         match omap_find c (mMacMap m) with None => True | Some e => notStarted e = true end).
Proof.
  apply next_piece; [split; [lia|reflexivity]|split; [lia|reflexivity]|lia].
Defined.

(** A chunk downloaded in pieces ends up like one decrypted at once: the
    plaintext is the concatenation and the stored MAC and offset are the same,
    for a first piece of whole cipher blocks. *)
Theorem chunk_pieces `{AES_laws} (m : chunkmac_map) (chunkid pos ctriv len2 : Z) (d1 d2 : bytes)
    (fin : bool) :
  length (mac (ChunkmacMap.entry chunkid m)) = BLOCKSIZE ->
  0 <= offset (ChunkmacMap.entry chunkid m) ->
  offset (ChunkmacMap.entry chunkid m) + zlength d1 < 2 ^ 32 ->
  d1 <> [] -> (BLOCKSIZE | length d1)%nat ->
  0 <= len2 -> zlength d2 = 16 * ((len2 + 15) / 16) -> zlength d1 + len2 < 2 ^ 31 ->
  0 <= pos < 2 ^ 62 ->
  let '(p1, m1) := ChunkmacMap.ctr_decrypt m chunkid d1 (zlength d1) pos ctriv false in
  let '(p2, m2) := ChunkmacMap.ctr_decrypt m1 chunkid d2 len2 (pos + zlength d1) ctriv fin in
  ChunkmacMap.ctr_decrypt m chunkid (d1 ++ d2) (zlength d1 + len2) pos ctriv fin = (p1 ++ p2, m2).
Proof.
  intros Hmac Ho Hob Hne Hdiv H2 Hd2 Hl Hp. unfold ChunkmacMap.ctr_decrypt.
  rewrite ctr_crypt_app by done. set (c := ChunkmacMap.entry chunkid m) in *.
  destruct (SymmCipher.ctr_crypt d1 _ _ _ _ _ _) as [p1 mc1] eqn:E1.
  assert (exists mc, mc1 = Some mc) as [mc ->].
  { unfold SymmCipher.ctr_crypt in E1. simplify_eq. eauto. }
  cbn [default id from_option]. set (c1 := MkChunkMAC mc _ false).
  assert (ChunkmacMap.entry chunkid (ChunkmacMap.set_map (omap_insert chunkid c1 (mMacMap m)) m) = c1)
    as -> by (unfold ChunkmacMap.entry; simpl; by rewrite find_insert_eq).
  assert (0 < zlength d1) as Hpos by (destruct d1; [done|simpl; lia]).
  assert (notStarted c1 = false) as ->.
  { unfold notStarted, c1. simpl. apply Z.eqb_neq. rewrite wrapu_id by lia. lia. }
  change (mac c1) with mc.
  destruct (SymmCipher.ctr_crypt d2 len2 (pos + zlength d1) ctriv (Some mc) false false) as [p2 mc2].
  f_equal. unfold ChunkmacMap.set_map. cbn [mMacMap macsmacSoFarPos progresscontiguous]. f_equal. rewrite insert_insert.
  destruct fin; [done|]. do 2 f_equal. subst c1. cbn [offset]. unfold wrapu. rewrite Zplus_mod_idemp_l. f_equal. lia.
Qed.

Lemma chunk_pieces_witness :
  let m := ChunkmacMap.clear in
  let '(p1, m1) := ChunkmacMap.ctr_decrypt m 131072 (replicate 32 77) (zlength (replicate 32 77)) 131072 5 false in
  let '(p2, m2) := ChunkmacMap.ctr_decrypt m1 131072 (replicate 16 9) 10 (131072 + zlength (replicate 32 77)) 5 true in
  ChunkmacMap.ctr_decrypt m 131072 (replicate 32 77 ++ replicate 16 9) (zlength (replicate 32 77) + 10) 131072 5 true
  = (p1 ++ p2, m2).
Proof.
  apply (chunk_pieces ChunkmacMap.clear).
  - reflexivity.
  - vm_compute. congruence.
  - vm_compute. reflexivity.
  - done.
  - exists 2%nat. reflexivity.
  - lia.
  - vm_compute. reflexivity.
  - vm_compute. reflexivity.
  - lia.
Defined.

Section gaps.
Context `{AES}.
Import ChunkmacMap.

(** Past both gaps no chunk is skipped. *)
Lemma gaps_loop_past g1 g2 g3 g4 n acc l :
  Forall (fun e => isMacsmacSoFar e.2 = false) l -> (g2 <= n)%nat -> (g4 <= n)%nat ->
  gaps_loop g1 g2 g3 g4 n acc l = foldl fold_mac acc (l.*2).
Proof.
  intros Hl. revert n acc. induction Hl as [|[k c] l Hc Hl IH]; intros n acc H2 H4; [done|].
  cbn [gaps_loop fmap list_fmap snd foldl]. simpl in Hc. unfold fold_mac at 2. rewrite Hc.
  rewrite (proj2 (Nat.ltb_ge n g2)), (proj2 (Nat.ltb_ge n g4)), !andb_false_r by done.
  apply IH; lia.
Qed.

Lemma macsmac_gaps_past m k c rest g1 g2 g3 g4 :
  mMacMap m = (k, c) :: rest -> isMacsmacSoFar c = true ->
  Forall (fun e => isMacsmacSoFar e.2 = false) rest ->
  (g2 <= S (chunks_upto k))%nat -> (g4 <= S (chunks_upto k))%nat ->
  macsmac_gaps m g1 g2 g3 g4 = macsmac m.
Proof.
  intros E Hs Hr H2 H4. unfold macsmac_gaps, macsmac. rewrite E. f_equal.
  cbn [gaps_loop fmap list_fmap snd foldl]. rewrite Hs, gaps_loop_past by (done || lia).
  f_equal. unfold fold_mac. by rewrite Hs.
Qed.

Lemma existsb_none {A} (f : A -> bool) l : (forall x, x ∈ l -> f x = false) -> existsb f l = false.
Proof.
  intros Hf. apply not_true_iff_false. rewrite existsb_exists. intros (x & Hx & E).
  rewrite Hf in E; [done|]. by apply list_elem_of_In.
Qed.

End gaps.

(** Once the map carries a folded prefix of at least as many chunks as it
    has entries, the search for missing late entries finds nothing: the gaps are
    numbered by map entries while [macsmac_gaps] numbers the entries after the
    prefix by chunks of the file, so no entry is ever left out. *)
Theorem late_entries_unreachable `{AES} (m : chunkmac_map) (metamac : Z) (k : Z) (c : ChunkMAC)
    (rest : list (Z * ChunkMAC)) :
  mMacMap m = (k, c) :: rest -> isMacsmacSoFar c = true -> ChunkmacMap.prefix_ok m ->
  (ChunkmacMap.size m <= S (ChunkmacMap.chunks_upto k))%nat ->
  metamac <> ChunkmacMap.macsmac m ->
  ChunkmacMap.checkMetaMacWithMissingLateEntries m metamac = (false, metamac).
Proof.
  intros E Hs Hpre Hsz Hne. unfold ChunkmacMap.checkMetaMacWithMissingLateEntries.
  unfold ChunkmacMap.prefix_ok in Hpre. rewrite E in Hpre. destruct Hpre as [_ Hrest].
  assert (forall g1 g2 g3 g4, (g2 <= ChunkmacMap.size m)%nat -> (g4 <= ChunkmacMap.size m)%nat ->
    (metamac =? ChunkmacMap.macsmac_gaps m g1 g2 g3 g4) = false) as Hgap.
  { intros g1 g2 g3 g4 H2 H4. rewrite (macsmac_gaps_past m k c rest) by (done || lia).
    by apply Z.eqb_neq. }
  assert (ChunkmacMap.one_gap m metamac = false) as ->.
  { apply existsb_none. intros b _. apply existsb_none. intros len _.
    destruct (_ <=? _)%nat eqn:El; [|done]. apply Nat.leb_le in El. by rewrite Hgap by lia. }
  assert (ChunkmacMap.two_gaps m metamac = false) as ->; [|done].
  apply existsb_none. intros s1 _. apply existsb_none. intros l1 _.
  destruct (_ <=? _)%nat eqn:El1; [|done]. apply Nat.leb_le in El1.
  apply existsb_none. intros s2 _. apply existsb_none. intros l2 _.
  destruct (_ <=? _)%nat eqn:El2; [|done]. apply Nat.leb_le in El2. by rewrite Hgap by lia.
Qed.

(** One chunk folded and one entry after it, whose MAC is missing from the
    metamac: the search does not find it. *)
Lemma late_entries_unreachable_witness :
  let m := MkChunkmacMap [(0, MkChunkMAC (seqZ 1 16) (2 ^ 32 - 1) true);
                          (131072, MkChunkMAC (seqZ 101 16) 0 true)] 0 393216 in
  ChunkmacMap.checkMetaMacWithMissingLateEntries m (ChunkmacMap.condense (seqZ 1 16))
  = (false, ChunkmacMap.condense (seqZ 1 16)).
Proof.
  apply (late_entries_unreachable _ _ 0 (MkChunkMAC (seqZ 1 16) (2 ^ 32 - 1) true)
           [(131072, MkChunkMAC (seqZ 101 16) 0 true)]).
  - reflexivity.
  - reflexivity.
  - unfold ChunkmacMap.prefix_ok. simpl. repeat constructor.
  - vm_compute. lia.
  - vm_compute. congruence.
Defined.
