(* ===== verification/Raid.v ===== *)
(** * Reassembling files from RAID parts

    [RaidBufferManager] (src/raid.cpp, include/mega/raid.h): a file stored on
    six servers, five data parts and one parity part, is downloaded over up to
    six connections and put together again in order, with one part recovered
    from the parity when its connection is not used.  The virtual operations of
    the class are the methods of the class [RaidClient]; [FaultyServers] records
    recent failures. *)

From S2P Require Import Prelude Encoding Serialize OMap Crypto Chunks.
Local Open Scope Z_scope.

Definition RAIDPARTS : nat := 6.
Definition EFFECTIVE_RAIDPARTS : Z := 5.
Definition RAIDSECTOR : Z := 16.
Definition RAIDLINE : Z := EFFECTIVE_RAIDPARTS * RAIDSECTOR.

(** ** Recent failures of servers *)
Module FaultyServers.

Definition Map : Type := list (bytes * Z).

(** [find(needle, from)] of [std::string]. *)
Fixpoint starts_with (needle s : bytes) : bool :=
  match needle, s with
  | [], _ => true
  | a :: n, b :: s => (a =? b) && starts_with n s
  | _, [] => false
  end.

Fixpoint find_from (needle s : bytes) (i : nat) : option nat :=
  if starts_with needle s then Some i
  else match s with [] => None | _ :: s => find_from needle s (S i) end.

(** The host part of a URL: between "://" and the next "/". *)
Definition server (url : bytes) : bytes :=
  match find_from (str "://") url 0 with
  | Some n =>
      let n := (n + 3)%nat in
      match find_from (str "/") (drop n url) n with
      | Some m => substr url n (m - n)
      | None => []
      end
  | None => []
  end.

Definition add (now : Z) (url : bytes) (recentFails : Map) : Map :=
  omap_insert (server url) now recentFails.

(** The scan over the URLs, from the last to the first. *)
Fixpoint worst_loop (recentFails : Map) (urls : list bytes) (i worstindex : nat) (worsttime : Z) : nat :=
  match i with
  | O => worstindex
  | S i =>
      match omap_find (server (default [] (urls !! i))) recentFails with
      | Some t => if worsttime <? t then worst_loop recentFails urls i i t
                  else worst_loop recentFails urls i worstindex worsttime
      | None => worst_loop recentFails urls i worstindex worsttime
      end
  end.

Definition selectWorstServer (now : Z) (urls : list bytes) (recentFails : Map) : nat * Map :=
  (match recentFails with
   | [] => RAIDPARTS
   | _ => worst_loop recentFails urls (length urls) RAIDPARTS (now - 10 * 3600)
   end,
   filter (fun e => now - 10 * 3600 <= e.2) recentFails).

End FaultyServers.

(** ** Buffers *)

(** [HttpReq::http_buf_t]: bytes, or a null buffer that only has a length (the
    place of the part that is not downloaded). *)
Inductive http_buf := Data (d : bytes) | Null (len : nat).

Definition datalen (b : http_buf) : nat := match b with Data d => length d | Null n => n end.
Definition isNull (b : http_buf) : bool := match b with Data _ => false | Null _ => true end.

(** [buf.start += n] and [buf.end -= n]. *)
Definition advance_start (n : nat) (b : http_buf) : http_buf :=
  match b with Data d => Data (drop n d) | Null len => Null (len - n) end.
Definition retract_end (n : nat) (b : http_buf) : http_buf :=
  match b with Data d => Data (take (length d - n) d) | Null len => Null (len - n) end.

Record FilePiece := MkPiece { ppos : Z; pbuf : http_buf }.
Definition piece_end (p : FilePiece) : Z := ppos p + Z.of_nat (datalen (pbuf p)).

(** The virtual operations: what a finished piece goes through, and up to where
    acquired data may be delivered. *)
Class RaidClient := {
  finalize : FilePiece -> FilePiece;
  calcOutputChunkPos : Z -> Z
}.

Record RaidBufferManager := MkRBM {
  is_raid : bool;
  is_newRaid : bool;
  raidKnown : bool;
  deliverlimitpos : Z;
  acquirelimitpos : Z;
  fullfilesize : Z;
  raidLinesPerChunk : Z;
  unusedRaidConnection : nat;
  tempurls : list bytes;
  connectionPaused : list bool;
  raidrequestpartpos : list Z;
  raidinputparts : list (list FilePiece);
  asyncoutputbuffers : list (Z * option FilePiece);
  leftoverchunk : FilePiece;
  raidpartspos : Z;
  outputfilepos : Z;
  startfilepos : Z;
  resumewastedbytes : nat;
  raidHttpGetErrorCount : list Z;
  connectionStarted : list bool;
  mDisableAvoidSmallLastRequest : bool;
  (** what [transferPos] refers to for a file that is not raid *)
  streampos : Z
}.

(** Assignments to the members. *)
Definition set_unusedRaidConnection (v : nat) (s : RaidBufferManager) : RaidBufferManager :=
  MkRBM (is_raid s) (is_newRaid s) (raidKnown s) (deliverlimitpos s) (acquirelimitpos s)
    (fullfilesize s) (raidLinesPerChunk s) v (tempurls s) (connectionPaused s)
    (raidrequestpartpos s) (raidinputparts s) (asyncoutputbuffers s) (leftoverchunk s)
    (raidpartspos s) (outputfilepos s) (startfilepos s) (resumewastedbytes s)
    (raidHttpGetErrorCount s) (connectionStarted s) (mDisableAvoidSmallLastRequest s) (streampos
    s).
Definition set_tempurls (v : list bytes) (s : RaidBufferManager) : RaidBufferManager :=
  MkRBM (is_raid s) (is_newRaid s) (raidKnown s) (deliverlimitpos s) (acquirelimitpos s)
    (fullfilesize s) (raidLinesPerChunk s) (unusedRaidConnection s) v (connectionPaused s)
    (raidrequestpartpos s) (raidinputparts s) (asyncoutputbuffers s) (leftoverchunk s)
    (raidpartspos s) (outputfilepos s) (startfilepos s) (resumewastedbytes s)
    (raidHttpGetErrorCount s) (connectionStarted s) (mDisableAvoidSmallLastRequest s) (streampos
    s).
Definition set_connectionPaused (v : list bool) (s : RaidBufferManager) : RaidBufferManager :=
  MkRBM (is_raid s) (is_newRaid s) (raidKnown s) (deliverlimitpos s) (acquirelimitpos s)
    (fullfilesize s) (raidLinesPerChunk s) (unusedRaidConnection s) (tempurls s) v
    (raidrequestpartpos s) (raidinputparts s) (asyncoutputbuffers s) (leftoverchunk s)
    (raidpartspos s) (outputfilepos s) (startfilepos s) (resumewastedbytes s)
    (raidHttpGetErrorCount s) (connectionStarted s) (mDisableAvoidSmallLastRequest s) (streampos
    s).
Definition set_raidrequestpartpos (v : list Z) (s : RaidBufferManager) : RaidBufferManager :=
  MkRBM (is_raid s) (is_newRaid s) (raidKnown s) (deliverlimitpos s) (acquirelimitpos s)
    (fullfilesize s) (raidLinesPerChunk s) (unusedRaidConnection s) (tempurls s)
    (connectionPaused s) v (raidinputparts s) (asyncoutputbuffers s) (leftoverchunk s)
    (raidpartspos s) (outputfilepos s) (startfilepos s) (resumewastedbytes s)
    (raidHttpGetErrorCount s) (connectionStarted s) (mDisableAvoidSmallLastRequest s) (streampos
    s).
Definition set_raidinputparts (v : list (list FilePiece)) (s : RaidBufferManager) : RaidBufferManager :=
  MkRBM (is_raid s) (is_newRaid s) (raidKnown s) (deliverlimitpos s) (acquirelimitpos s)
    (fullfilesize s) (raidLinesPerChunk s) (unusedRaidConnection s) (tempurls s)
    (connectionPaused s) (raidrequestpartpos s) v (asyncoutputbuffers s) (leftoverchunk s)
    (raidpartspos s) (outputfilepos s) (startfilepos s) (resumewastedbytes s)
    (raidHttpGetErrorCount s) (connectionStarted s) (mDisableAvoidSmallLastRequest s) (streampos
    s).
Definition set_asyncoutputbuffers (v : list (Z * option FilePiece)) (s : RaidBufferManager) : RaidBufferManager :=
  MkRBM (is_raid s) (is_newRaid s) (raidKnown s) (deliverlimitpos s) (acquirelimitpos s)
    (fullfilesize s) (raidLinesPerChunk s) (unusedRaidConnection s) (tempurls s)
    (connectionPaused s) (raidrequestpartpos s) (raidinputparts s) v (leftoverchunk s)
    (raidpartspos s) (outputfilepos s) (startfilepos s) (resumewastedbytes s)
    (raidHttpGetErrorCount s) (connectionStarted s) (mDisableAvoidSmallLastRequest s) (streampos
    s).
Definition set_raidHttpGetErrorCount (v : list Z) (s : RaidBufferManager) : RaidBufferManager :=
  MkRBM (is_raid s) (is_newRaid s) (raidKnown s) (deliverlimitpos s) (acquirelimitpos s)
    (fullfilesize s) (raidLinesPerChunk s) (unusedRaidConnection s) (tempurls s)
    (connectionPaused s) (raidrequestpartpos s) (raidinputparts s) (asyncoutputbuffers s)
    (leftoverchunk s) (raidpartspos s) (outputfilepos s) (startfilepos s) (resumewastedbytes s)
    v (connectionStarted s) (mDisableAvoidSmallLastRequest s) (streampos s).
Definition set_connectionStarted (v : list bool) (s : RaidBufferManager) : RaidBufferManager :=
  MkRBM (is_raid s) (is_newRaid s) (raidKnown s) (deliverlimitpos s) (acquirelimitpos s)
    (fullfilesize s) (raidLinesPerChunk s) (unusedRaidConnection s) (tempurls s)
    (connectionPaused s) (raidrequestpartpos s) (raidinputparts s) (asyncoutputbuffers s)
    (leftoverchunk s) (raidpartspos s) (outputfilepos s) (startfilepos s) (resumewastedbytes s)
    (raidHttpGetErrorCount s) v (mDisableAvoidSmallLastRequest s) (streampos s).
Definition set_mDisableAvoidSmallLastRequest (v : bool) (s : RaidBufferManager) : RaidBufferManager :=
  MkRBM (is_raid s) (is_newRaid s) (raidKnown s) (deliverlimitpos s) (acquirelimitpos s)
    (fullfilesize s) (raidLinesPerChunk s) (unusedRaidConnection s) (tempurls s)
    (connectionPaused s) (raidrequestpartpos s) (raidinputparts s) (asyncoutputbuffers s)
    (leftoverchunk s) (raidpartspos s) (outputfilepos s) (startfilepos s) (resumewastedbytes s)
    (raidHttpGetErrorCount s) (connectionStarted s) v (streampos s).
Definition set_streampos (v : Z) (s : RaidBufferManager) : RaidBufferManager :=
  MkRBM (is_raid s) (is_newRaid s) (raidKnown s) (deliverlimitpos s) (acquirelimitpos s)
    (fullfilesize s) (raidLinesPerChunk s) (unusedRaidConnection s) (tempurls s)
    (connectionPaused s) (raidrequestpartpos s) (raidinputparts s) (asyncoutputbuffers s)
    (leftoverchunk s) (raidpartspos s) (outputfilepos s) (startfilepos s) (resumewastedbytes s)
    (raidHttpGetErrorCount s) (connectionStarted s) (mDisableAvoidSmallLastRequest s) v.

(** The members the reassembly assigns together. *)
Definition set_assembly (v_raidinputparts : list (list FilePiece)) (v_leftoverchunk : FilePiece) (v_raidpartspos : Z) (v_outputfilepos : Z) (v_resumewastedbytes : nat) (s : RaidBufferManager) : RaidBufferManager :=
  MkRBM (is_raid s) (is_newRaid s) (raidKnown s) (deliverlimitpos s) (acquirelimitpos s)
    (fullfilesize s) (raidLinesPerChunk s) (unusedRaidConnection s) (tempurls s)
    (connectionPaused s) (raidrequestpartpos s) v_raidinputparts (asyncoutputbuffers s)
    v_leftoverchunk v_raidpartspos v_outputfilepos (startfilepos s) v_resumewastedbytes
    (raidHttpGetErrorCount s) (connectionStarted s) (mDisableAvoidSmallLastRequest s) (streampos
    s).

Module RBM.

Definition emptyFilePiece : FilePiece := MkPiece 0 (Null 0).

(** The constructor. *)
Definition init : RaidBufferManager :=
  MkRBM false false false 0 0 0 (16 * 1024) 0 [] (replicate RAIDPARTS false) (replicate RAIDPARTS 0)
    (replicate RAIDPARTS []) [] emptyFilePiece 0 0 0 0 (replicate RAIDPARTS 0)
    (replicate RAIDPARTS false) false 0.

(** [setIsRaid]; the failure records are shared, [now] is [m_time()]. *)
Definition setIsRaid (now : Z) (tempUrls : list bytes) (resumepos readtopos filesize maxRequestSize : Z)
    (isNewRaid : bool) (faulty : FaultyServers.Map) (s : RaidBufferManager)
    : RaidBufferManager * FaultyServers.Map :=
  let six := (length tempUrls =? RAIDPARTS)%nat in
  let newRaid := is_newRaid s || (six && isNewRaid) in
  let raid := is_raid s || (six && negb isNewRaid) in
  let acquire := readtopos + RAIDLINE - 1 in
  let acquire := acquire - Z.rem acquire RAIDLINE in
  let acquire := Z.min acquire filesize in
  if raid then
    let partspos := Z.quot resumepos EFFECTIVE_RAIDPARTS in
    let partspos := partspos - Z.rem partspos RAIDSECTOR in
    let wasted := resumepos - partspos * EFFECTIVE_RAIDPARTS in
    let lines := u32 (Z.quot maxRequestSize (Z.of_nat RAIDPARTS * 3 * RAIDSECTOR)) in
    let lines := lines - lines mod 1024 in
    let lines := Z.max (Z.min lines (256 * 1024)) (64 * 1024) in
    let '(worst, faulty) := FaultyServers.selectWorstServer now tempUrls faulty in
    (MkRBM raid newRaid true readtopos acquire filesize lines worst tempUrls
       (connectionPaused s) (replicate RAIDPARTS partspos) (raidinputparts s) (asyncoutputbuffers s)
       (leftoverchunk s) partspos (resumepos - wasted) resumepos (Z.to_nat wasted)
       (raidHttpGetErrorCount s) (connectionStarted s) (mDisableAvoidSmallLastRequest s) (streampos s),
     faulty)
  else
    (MkRBM raid newRaid true readtopos acquire filesize (raidLinesPerChunk s) (unusedRaidConnection s)
       tempUrls (connectionPaused s) (raidrequestpartpos s) (raidinputparts s) (asyncoutputbuffers s)
       (leftoverchunk s) (raidpartspos s) resumepos resumepos (resumewastedbytes s)
       (raidHttpGetErrorCount s) (connectionStarted s) (mDisableAvoidSmallLastRequest s) (streampos s),
     faulty).

Definition queue (i : nat) (s : RaidBufferManager) : list FilePiece := default [] (raidinputparts s !! i).

(** Where the next piece of a connection has to start. *)
Definition contiguouspos (i : nat) (s : RaidBufferManager) : Z :=
  match last (queue i s) with Some p => piece_end p | None => raidpartspos s end.

Definition transferPos (i : nat) (s : RaidBufferManager) : Z :=
  if is_raid s then default 0 (raidrequestpartpos s !! i) else streampos s.
Definition set_transferPos (i : nat) (p : Z) (s : RaidBufferManager) : RaidBufferManager :=
  if is_raid s then set_raidrequestpartpos (<[i := p]> (raidrequestpartpos s)) s else set_streampos p s.

Definition updateUrlsAndResetPos (tempUrls : list bytes) (s : RaidBufferManager) : RaidBufferManager :=
  if (length (tempurls s) =? length tempUrls)%nat then
    let s := set_tempurls tempUrls s in
    if is_raid s
    then foldr (fun i s => set_transferPos i (contiguouspos i s) s) s (seq 0 RAIDPARTS)
    else set_transferPos 0 (outputfilepos s) s
  else s.

Definition disableAvoidSmallLastRequest (s : RaidBufferManager) : RaidBufferManager :=
  set_mDisableAvoidSmallLastRequest true s.
Definition isUnusedRaidConection (i : nat) (s : RaidBufferManager) : bool := (i =? unusedRaidConnection s)%nat.
Definition isRaidConnectionProgressBlocked (i : nat) (s : RaidBufferManager) : bool :=
  default false (connectionPaused s !! i).
Definition tempURL (i : nat) (s : RaidBufferManager) : bytes :=
  if is_raid s then default [] (tempurls s !! i) else default [] (head (tempurls s)).

(** [raidPartSize]: the residual line fills the sectors of parts 1, 2, ... in
    turn; the parity part is as long as the largest data part. *)
Definition raidPartSize (part : nat) (filesize : Z) : Z :=
  let r := Z.rem filesize RAIDLINE in
  let t := r - (Z.of_nat part - (if (part =? 0)%nat then 0 else 1)) * RAIDSECTOR in
  let t := if t <? 0 then 0 else if RAIDSECTOR <? t then RAIDSECTOR else t in
  Z.quot (filesize - r) EFFECTIVE_RAIDPARTS + t.

Definition offsetToRaidLine (offset : Z) : Z := Z.rem offset RAIDLINE.

Definition transferSize (i : nat) (s : RaidBufferManager) : Z :=
  if is_raid s then raidPartSize i (acquirelimitpos s) else fullfilesize s.

Definition resetPart (now : Z) (i : nat) (faulty : FaultyServers.Map) (s : RaidBufferManager)
    : RaidBufferManager * FaultyServers.Map :=
  (set_transferPos i (raidpartspos s) s,
   FaultyServers.add now (default [] (tempurls s !! i)) faulty).

(** *** Combining *)

(** [recoverSectorFromParity]: the xor of the sectors that are there, from the
    last part to the first. *)
Definition xor_sector (off : nat) (dest : option bytes) (inp : option bytes) : option bytes :=
  match inp with
  | None => dest
  | Some d =>
      let sector := substr d off 16 in
      match dest with
      | None => Some sector
      | Some dest => Some (zip_with Z.lxor dest sector)
      end
  end.

Definition recoverSectorFromParity (inputbufs : list (option bytes)) (off : nat) : bytes :=
  default [] (foldl (xor_sector off) None (rev inputbufs)).

Definition sector_at (inputbufs : list (option bytes)) (off j : nat) : bytes :=
  match default None (inputbufs !! j) with
  | Some d => substr d off 16
  | None => recoverSectorFromParity inputbufs off
  end.

(** One RAID line per round: sectors of parts 1 to 5 at the offset [off]. *)
Fixpoint combine_lines (inputbufs : list (option bytes)) (n off : nat) : bytes :=
  match n with
  | O => []
  | S n =>
      sector_at inputbufs off 1 ++ sector_at inputbufs off 2 ++ sector_at inputbufs off 3
      ++ sector_at inputbufs off 4 ++ sector_at inputbufs off 5
      ++ combine_lines inputbufs n (off + 16)
  end.

Definition front (q : list FilePiece) : option http_buf := pbuf <$> head q.
Definition input_of (b : option http_buf) : option bytes :=
  match b with Some (Data d) => Some d | _ => None end.

(** The inner [combineRaidParts]: the bytes written to the result, after the
    leftover of the previous round. *)
Definition combine_full (partslen : nat) (prevleftover : bytes) (fronts : list (option http_buf)) : bytes :=
  prevleftover ++ combine_lines (input_of <$> fronts) (partslen / 16) 0.

(** The missing part of the last line: zeros, then every part that is there is
    xored in as far as it reaches. *)
Definition xor_into (dest src : bytes) : bytes :=
  let x := Nat.min (length dest) (length src) in
  zip_with Z.lxor (take x dest) (take x src) ++ drop x dest.

Definition recover_tail (n : nat) (fronts : list (option http_buf)) : bytes :=
  foldl (fun dest b => match b with Some (Data d) => xor_into dest d | _ => dest end)
    (replicate n 0) (rev fronts).

Fixpoint last_line (js : list nat) (fronts : list (option http_buf)) (remaining : nat) : bytes :=
  match js with
  | [] => []
  | j :: js =>
      if (remaining =? 0)%nat then []
      else match default None (fronts !! j) with
           | None => last_line js fronts remaining
           | Some b =>
               let n := Nat.min remaining (datalen b) in
               (match b with Data d => take n d | Null _ => recover_tail n fronts end)
               ++ last_line js fronts (remaining - n)
           end
  end.

Definition combineLastRaidLine (fronts : list (option http_buf)) (remaining : nat) : bytes :=
  last_line [1; 2; 3; 4; 5]%nat fronts remaining.

Definition roll_queue (n : nat) (q : list FilePiece) : list FilePiece :=
  match q with
  | [] => []
  | p :: q =>
      if (datalen (pbuf p) <=? n)%nat then q
      else MkPiece (ppos p + Z.of_nat n) (advance_start n (pbuf p)) :: q
  end.

Definition rollInputBuffers (n : nat) (parts : list (list FilePiece)) : list (list FilePiece) :=
  roll_queue n <$> parts.

Definition front_len (b : option http_buf) : nat := match b with Some b => datalen b | None => 0%nat end.

(** The common length of the front buffers, in whole sectors. *)
Definition common_len (fronts : list (option http_buf)) : nat :=
  let m := foldr (fun b m => match b with None => 0%nat | Some b => Nat.min m (datalen b) end)
             (Z.to_nat 0x10000000) fronts in
  (m - m mod 16)%nat.

Definition sum_len (fronts : list (option http_buf)) : nat := foldr (fun b n => (front_len b + n)%nat) 0%nat fronts.

Definition leftover_bytes (p : FilePiece) : bytes := match pbuf p with Data d => d | Null _ => [] end.

(** What is cut off at the front (data fetched only to align a resumed file) and
    at the end (data fetched only for the parity). *)
Definition trim (wasted : nat) (deliverlimit pos : Z) (data : bytes) : FilePiece :=
  let n := Nat.min (length data) wasted in
  let pos := pos + Z.of_nat n in
  let data := drop n data in
  let data := if deliverlimit <? pos + zlength data
              then take (length data - Nat.min (Z.to_nat (pos + zlength data - deliverlimit)) (length data)) data
              else data in
  MkPiece pos (Data data).

Section client.
Context `{RaidClient}.

(** The outer [combineRaidParts]: the new state and the piece made available. *)
Definition combineRaidParts (s : RaidBufferManager) : RaidBufferManager * option FilePiece :=
  let fronts := front <$> raidinputparts s in
  let partslen := common_len fronts in
  let sumdatalen := sum_len (drop 1 fronts) in
  let xorlen := sum_len (take 1 fronts) in
  let left := leftover_bytes (leftoverchunk s) in
  let newdatafilepos := outputfilepos s + Z.of_nat (datalen (pbuf (leftoverchunk s))) in
  let processToEnd :=
    (newdatafilepos + Z.of_nat sumdatalen =? acquirelimitpos s)
    && (Z.quot newdatafilepos EFFECTIVE_RAIDPARTS + Z.of_nat xorlen =? raidPartSize 0 (acquirelimitpos s)) in
  if (0 <? partslen)%nat || processToEnd then
    let macchunkpos := calcOutputChunkPos (newdatafilepos + Z.of_nat partslen * EFFECTIVE_RAIDPARTS) in
    let out := combine_full partslen left fronts in
    let parts := rollInputBuffers partslen (raidinputparts s) in
    let partspos := raidpartspos s + Z.of_nat partslen in
    let rest := (sumdatalen - partslen * 5)%nat in
    let outpos := outputfilepos s + Z.of_nat partslen * EFFECTIVE_RAIDPARTS
                  + Z.of_nat (datalen (pbuf (leftoverchunk s))) in
    let '(out, parts, leftover, outpos) :=
      if processToEnd && (0 <? rest)%nat then
        (out ++ combineLastRaidLine (front <$> parts) rest, rollInputBuffers 16 parts,
         emptyFilePiece, outpos)
      else if negb processToEnd && (macchunkpos <? outpos) then
        let excess := Z.to_nat (outpos - macchunkpos) in
        (take (length out - excess) out, parts,
         MkPiece (outpos - Z.of_nat excess) (Data (drop (length out - excess) out)),
         outpos - Z.of_nat excess)
      else (out, parts, emptyFilePiece, outpos) in
    let outputrec := trim (resumewastedbytes s) (deliverlimitpos s) (outputfilepos s) out in
    let wasted := (resumewastedbytes s - Nat.min (length out) (resumewastedbytes s))%nat in
    (set_assembly parts leftover partspos outpos wasted s,
     if (0 <? datalen (pbuf outputrec))%nat then Some (finalize outputrec) else None)
  else (s, None).

Definition submitBuffer (i : nat) (piece : FilePiece) (s : RaidBufferManager) : RaidBufferManager :=
  if is_raid s then
    let s := if isNull (pbuf piece) then s
             else set_raidHttpGetErrorCount (<[i := 0]> (raidHttpGetErrorCount s)) s in
    if ppos piece =? contiguouspos i s then
      set_raidinputparts (<[i := queue i s ++ [piece]]> (raidinputparts s))
        (set_transferPos i (piece_end piece) s)
    else s
  else set_asyncoutputbuffers (omap_insert (Z.of_nat i) (Some (finalize piece)) (asyncoutputbuffers s)) s.

Definition getAsyncOutputBufferPointer (i : nat) (s : RaidBufferManager)
    : RaidBufferManager * option FilePiece :=
  let cur := default None (omap_find (Z.of_nat i) (asyncoutputbuffers s)) in
  match is_raid s, cur with
  | true, None =>
      let '(s, out) := combineRaidParts s in
      match out with
      | Some p => (set_asyncoutputbuffers (omap_insert (Z.of_nat i) (Some p) (asyncoutputbuffers s)) s, Some p)
      | None => (s, None)
      end
  | _, _ => (s, cur)
  end.

(** The write is done: the piece handed to [bufferWriteCompletedAction], if any. *)
Definition bufferWriteCompleted (i : nat) (success : bool) (s : RaidBufferManager)
    : RaidBufferManager * option FilePiece :=
  match omap_find (Z.of_nat i) (asyncoutputbuffers s) with
  | Some (Some p) =>
      (set_asyncoutputbuffers (omap_insert (Z.of_nat i) None (asyncoutputbuffers s)) s,
       if success then Some p else None)
  | _ => (s, None)
  end.

Definition MIN_LAST_CHUNK : Z := 10 * 1024 * 1024.
Definition MAX_LAST_CHUNK : Z := 16 * 1024 * 1024.

(** The state, the range to request, and the flags [newInputBufferSupplied] and
    [pauseConnectionForRaid]. *)
Definition nextNPosForConnection (i : nat) (s : RaidBufferManager)
    : RaidBufferManager * (Z * Z) * bool * bool :=
  if negb (is_raid s) then (s, (transferPos i s, deliverlimitpos s), false, false)
  else
    let curpos := transferPos i s in
    let maxpos := transferSize i s in
    let lines := raidLinesPerChunk s in
    if (raidpartspos s + u32 (8 * lines * RAIDSECTOR) <=? curpos)
       || ((raidpartspos s + u32 (4 * lines * RAIDSECTOR) <? curpos) && default false (connectionPaused s !! i))
    then (set_connectionPaused (<[i := true]> (connectionPaused s)) s, (curpos, curpos), false, true)
    else
      let s := set_connectionPaused (<[i := false]> (connectionPaused s)) s in
      let npos := Z.min (curpos + u32 (lines * RAIDSECTOR * 5)) maxpos in
      let npos :=
        if mDisableAvoidSmallLastRequest s then npos
        else
          let lastChunkSize := if npos <? maxpos then maxpos - npos else 0 in
          if negb (lastChunkSize =? 0) && (lastChunkSize <? MIN_LAST_CHUNK) then
            let remaining := u64 (maxpos - curpos) in
            if MAX_LAST_CHUNK <=? remaining then curpos + Z.land (remaining / 2) (Z.lnot 15) else maxpos
          else npos in
      if (unusedRaidConnection s =? i)%nat && (curpos <? npos) then
        let s := submitBuffer i (MkPiece curpos (Null (Z.to_nat (npos - curpos)))) s in
        (set_transferPos i npos s, (curpos, npos), true, false)
      else (s, (curpos, npos), false, false).

End client.

(** *** Failures and the choice of the unused connection *)

Definition RAID_ACTIVE_CHANNEL_FAIL_THRESHOLD : Z := 5.

Definition clear_part (i : nat) (s : RaidBufferManager) : RaidBufferManager :=
  set_raidrequestpartpos (<[i := raidpartspos s]> (raidrequestpartpos s))
    (set_raidinputparts (<[i := []]> (raidinputparts s)) s).

Definition tryRaidHttpGetErrorRecovery (now : Z) (i : nat) (incrementErrors : bool)
    (faulty : FaultyServers.Map) (s : RaidBufferManager)
    : bool * RaidBufferManager * FaultyServers.Map :=
  let s := if incrementErrors
           then set_raidHttpGetErrorCount
                  (<[i := u32 (default 0 (raidHttpGetErrorCount s !! i) + 1)]> (raidHttpGetErrorCount s)) s
           else s in
  let faulty := FaultyServers.add now (default [] (tempurls s !! i)) faulty in
  let errorSum := u32 (foldr Z.add 0 (raidHttpGetErrorCount s)) in
  let highestErrors := foldr Z.max 0 (raidHttpGetErrorCount s) in
  if u32 (errorSum - highestErrors) <? RAID_ACTIVE_CHANNEL_FAIL_THRESHOLD then
    let s := if (unusedRaidConnection s <? RAIDPARTS)%nat then clear_part (unusedRaidConnection s) s else s in
    (true, set_unusedRaidConnection i (clear_part i s), faulty)
  else (false, s, faulty).

(** The scan from the last connection down: how many have not started, and the
    last one seen. *)
Definition unstarted (started : list bool) (slowest : nat) : nat * nat :=
  foldr (fun j '(count, slowest) =>
           if default false (started !! j) then (count, slowest) else (S count, j))
    (0%nat, slowest) (seq 0 RAIDPARTS).

Definition detectSlowestRaidConnection (this slowest : nat) (s : RaidBufferManager)
    : bool * nat * RaidBufferManager :=
  if is_raid s && (unusedRaidConnection s =? RAIDPARTS)%nat then
    let s := set_connectionStarted (<[this := true]> (connectionStarted s)) s in
    let '(count, slowest) := unstarted (connectionStarted s) slowest in
    if (count =? 1)%nat then
      let s := set_unusedRaidConnection slowest s in
      (true, slowest, set_raidrequestpartpos (<[slowest := raidpartspos s]> (raidrequestpartpos s)) s)
    else (false, slowest, s)
  else (false, slowest, s).

Definition setUnusedRaidConnection (new : nat) (s : RaidBufferManager) : bool * RaidBufferManager :=
  if is_raid s && (new <? RAIDPARTS)%nat then
    let old := unusedRaidConnection s in
    let s := if (old <? RAIDPARTS)%nat then clear_part old s else s in
    (true, set_unusedRaidConnection new (clear_part new s))
  else (false, s).

Definition piece_progress (p : FilePiece) : Z :=
  if isNull (pbuf p) then 0 else Z.of_nat (datalen (pbuf p)).

Definition progress (s : RaidBufferManager) : Z :=
  foldr (fun q n => foldr (fun p n => piece_progress p + n) 0 q + n) 0 (raidinputparts s)
  + piece_progress (leftoverchunk s).

End RBM.

(** The two clients: transfers deliver up to chunk boundaries and decrypt later;
    direct reads deliver everything at once, decrypted. *)
Definition TransferBufferManager : RaidClient := {|
  finalize := id;
  calcOutputChunkPos := ChunkedHash.chunkfloor
|}.

Definition DirectReadBufferManager (decrypt : FilePiece -> FilePiece) : RaidClient := {|
  finalize := decrypt;
  calcOutputChunkPos := id
|}.
