(* ===== verification/RaidFacts.v ===== *)
(** * Correctness of the RAID reassembly

    The reference: how a file is laid out over the six parts.  The theorems: the
    bytes combined from consistent input buffers are the bytes of the file,
    whichever part is missing, and a download delivers the requested range of
    the file in order, without gaps. *)

From S2P Require Import Prelude Encoding Serialize OMap Crypto Chunks Raid.
Import RBM.
Local Open Scope Z_scope.

(** ** Ranges of a byte function *)

Fixpoint fsub (f : Z -> Z) (a : Z) (n : nat) : bytes :=
  match n with
  | O => []
  | S n => f a :: fsub f (a + 1) n
  end.

Lemma length_fsub f a n : length (fsub f a n) = n.
Proof. revert a. induction n as [|n IH]; intros a; simpl; [done|]. by rewrite IH. Qed.
#[export] Hint Rewrite length_fsub : mega.

Lemma fsub_ext f g a b n :
  (forall i, 0 <= i < Z.of_nat n -> f (a + i) = g (b + i)) -> fsub f a n = fsub g b n.
Proof.
  revert a b. induction n as [|n IH]; intros a b H; simpl; [done|]. f_equal.
  - specialize (H 0). rewrite !Z.add_0_r in H. apply H. lia.
  - apply IH. intros i Hi. specialize (H (1 + i)). rewrite !Z.add_assoc in H. apply H. lia.
Qed.

Lemma fsub_app f a n m : fsub f a n ++ fsub f (a + Z.of_nat n) m = fsub f a (n + m).
Proof.
  revert a. induction n as [|n IH]; intros a; cbn [app Nat.add fsub].
  - by rewrite Z.add_0_r.
  - f_equal. rewrite <- IH. by replace (a + 1 + Z.of_nat n) with (a + Z.of_nat (S n)) by lia.
Qed.

Lemma take_fsub f a n m : take m (fsub f a n) = fsub f a (Nat.min m n).
Proof.
  revert a m. induction n as [|n IH]; intros a [|m]; simpl; [done..|]. by rewrite IH.
Qed.

Lemma drop_fsub f a n m : drop m (fsub f a n) = fsub f (a + Z.of_nat m) (n - m).
Proof.
  revert a m. induction n as [|n IH]; intros a [|m]; cbn [drop fsub Nat.sub]; [done..| |].
  - rewrite Z.add_0_r. done.
  - rewrite IH. f_equal. lia.
Qed.

Lemma substr_fsub f a n i m :
  (i + m <= n)%nat -> substr (fsub f a n) i m = fsub f (a + Z.of_nat i) m.
Proof. intros H. unfold substr. rewrite drop_fsub, take_fsub. f_equal. lia. Qed.

Lemma lxor_fsub f g a b n :
  zip_with Z.lxor (fsub f a n) (fsub g b n) = fsub (fun i => Z.lxor (f (a + i)) (g (b + i))) 0 n.
Proof.
  assert (forall k, zip_with Z.lxor (fsub f (a + k) n) (fsub g (b + k) n)
                    = fsub (fun i => Z.lxor (f (a + i)) (g (b + i))) k n) as H.
  { induction n as [|n IH]; intros k; simpl; [done|]. f_equal.
    rewrite <- IH. f_equal; f_equal; lia. }
  specialize (H 0). by rewrite !Z.add_0_r in H.
Qed.

(** ** The layout of a file over the parts *)
Section layout.
Context (fb : Z -> Z).

Definition data_byte (j : Z) (o : Z) : Z := fb (80 * (o / 16) + 16 * (j - 1) + o mod 16).

(** Part 0 is the parity of the data parts 1 to 5. *)
Definition part_byte (j : nat) (o : Z) : Z :=
  match j with
  | O => Z.lxor (data_byte 1 o) (Z.lxor (data_byte 2 o) (Z.lxor (data_byte 3 o)
           (Z.lxor (data_byte 4 o) (data_byte 5 o))))
  | _ => data_byte (Z.of_nat j) o
  end.

(** A sector of a data part is a range of the file. *)
Lemma sector_file j q :
  (1 <= j <= 5)%nat -> q mod 16 = 0 ->
  fsub (part_byte j) q 16 = fsub fb (5 * q + 16 * (Z.of_nat j - 1)) 16.
Proof.
  intros Hj Hq. apply fsub_ext. intros i Hi. destruct j as [|j]; [lia|].
  unfold part_byte, data_byte. f_equal. dlia.
Qed.

Lemma sectors_file q :
  q mod 16 = 0 ->
  fsub (part_byte 1) q 16 ++ fsub (part_byte 2) q 16 ++ fsub (part_byte 3) q 16
  ++ fsub (part_byte 4) q 16 ++ fsub (part_byte 5) q 16 = fsub fb (5 * q) 80.
Proof.
  intros Hq. rewrite !sector_file by (done || lia).
  replace (5 * q + 16 * (Z.of_nat 1 - 1)) with (5 * q) by lia.
  replace (5 * q + 16 * (Z.of_nat 5 - 1)) with (5 * q + Z.of_nat 64) by lia.
  replace (5 * q + 16 * (Z.of_nat 4 - 1)) with (5 * q + Z.of_nat 48) by lia.
  replace (5 * q + 16 * (Z.of_nat 3 - 1)) with (5 * q + Z.of_nat 32) by lia.
  replace (5 * q + 16 * (Z.of_nat 2 - 1)) with (5 * q + Z.of_nat 16) by lia.
  by rewrite !app_assoc, !fsub_app.
Qed.

(** The xor of any five parts is the sixth. *)
Definition others (m : nat) (o : Z) : Z :=
  foldr Z.lxor 0 ((fun j => if (j =? m)%nat then 0 else part_byte j o) <$> seq 0 6).

Lemma lxor_bits a b : (forall n, 0 <= n -> Z.testbit a n = Z.testbit b n) -> a = b.
Proof. intros H. by apply Z.bits_inj'. Qed.

Lemma others_part m o : (m < 6)%nat -> others m o = part_byte m o.
Proof.
  intros Hm. unfold others, part_byte.
  destruct m as [|[|[|[|[|[|m]]]]]]; [..|lia]; cbn -[Z.lxor data_byte];
    change (Z.of_nat 1) with 1; change (Z.of_nat 2) with 2; change (Z.of_nat 3) with 3;
    change (Z.of_nat 4) with 4; change (Z.of_nat 5) with 5.
  all: apply lxor_bits; intros n Hn; rewrite !Z.lxor_spec, ?Z.bits_0.
  all: repeat match goal with |- context [Z.testbit ?x ?k] => destruct (Z.testbit x k) end; done.
Qed.

(** ** Whole lines *)

(** The input buffers hold at least [len] bytes of their parts from [p]; only
    part [m] may be missing. *)
Definition inputs_ok (m : nat) (p : Z) (len : nat) (inputs : list (option bytes)) : Prop :=
  length inputs = RAIDPARTS
  /\ forall j, (j < RAIDPARTS)%nat ->
      match default None (inputs !! j) with
      | None => j = m
      | Some d => (len <= length d)%nat /\ d = fsub (part_byte j) p (length d)
      end.

Lemma inputs_six m p len inputs :
  inputs_ok m p len inputs ->
  exists i0 i1 i2 i3 i4 i5, inputs = [i0; i1; i2; i3; i4; i5].
Proof.
  intros [Hl _]. unfold RAIDPARTS in Hl.
  do 6 (destruct inputs as [|? inputs]; [done|]). destruct inputs; [|done]. eauto 10.
Qed.

Lemma input_sector m p len inputs j d off :
  inputs_ok m p len inputs -> (j < RAIDPARTS)%nat -> inputs !! j = Some (Some d) ->
  (off + 16 <= len)%nat -> substr d off 16 = fsub (part_byte j) (p + Z.of_nat off) 16.
Proof.
  intros [_ H] Hj E Hoff. specialize (H j Hj). rewrite E in H. simpl in H. destruct H as [Hd ->].
  apply substr_fsub. lia.
Qed.

(** The recovery loop as one pass over the bytes. *)
Fixpoint xor_parts (js : list nat) (inputs : list (option bytes)) (q : Z) : option (Z -> Z) :=
  match js with
  | [] => None
  | j :: js =>
      match default None (inputs !! j), xor_parts js inputs q with
      | None, r => r
      | Some _, None => Some (fun i => part_byte j (q + i))
      | Some _, Some r => Some (fun i => Z.lxor (r i) (part_byte j (q + i)))
      end
  end.

Lemma recover_xor_parts m p len inputs off :
  inputs_ok m p len inputs -> (off + 16 <= len)%nat ->
  foldl (xor_sector off) None (rev inputs)
  = (fun f => fsub f 0 16) <$> xor_parts (seq 0 6) inputs (p + Z.of_nat off).
Proof.
  intros Hin Hoff. destruct (inputs_six _ _ _ _ Hin) as (i0 & i1 & i2 & i3 & i4 & i5 & ->).
  assert (forall j d, (j < RAIDPARTS)%nat -> [i0; i1; i2; i3; i4; i5] !! j = Some (Some d) ->
    substr d off 16 = fsub (part_byte j) (p + Z.of_nat off) 16) as Hsec.
  { intros j d Hj E. by eapply input_sector. }
  assert (forall j f, zip_with Z.lxor (fsub f 0 16) (fsub (part_byte j) (p + Z.of_nat off) 16)
    = fsub (fun i => Z.lxor (f i) (part_byte j (p + Z.of_nat off + i))) 0 16) as Hx.
  { intros j f. rewrite lxor_fsub. apply fsub_ext. intros i Hi. by rewrite !Z.add_0_l. }
  assert (forall j, fsub (part_byte j) (p + Z.of_nat off) 16
    = fsub (fun i => part_byte j (p + Z.of_nat off + i)) 0 16) as Hb.
  { intros j. apply fsub_ext. intros i Hi. by rewrite Z.add_0_l. }
  unfold RAIDPARTS in Hsec. clear Hin Hoff.
  pose proof (fun d H => Hsec 0%nat d ltac:(lia) H) as H0.
  pose proof (fun d H => Hsec 1%nat d ltac:(lia) H) as H1.
  pose proof (fun d H => Hsec 2%nat d ltac:(lia) H) as H2.
  pose proof (fun d H => Hsec 3%nat d ltac:(lia) H) as H3.
  pose proof (fun d H => Hsec 4%nat d ltac:(lia) H) as H4.
  pose proof (fun d H => Hsec 5%nat d ltac:(lia) H) as H5. clear Hsec.
  cbn [lookup list_lookup] in *.
  destruct i0 as [d0|], i1 as [d1|], i2 as [d2|], i3 as [d3|], i4 as [d4|], i5 as [d5|];
    cbn [rev app foldl xor_sector xor_parts seq default id lookup list_lookup fmap option_fmap option_map];
    rewrite ?(H0 _ eq_refl), ?(H1 _ eq_refl), ?(H2 _ eq_refl), ?(H3 _ eq_refl), ?(H4 _ eq_refl), ?(H5 _ eq_refl);
    rewrite ?Hb, ?Hx; done.
Qed.

Lemma xor_parts_missing m p len inputs q :
  inputs_ok m p len inputs -> (m < RAIDPARTS)%nat -> inputs !! m = Some None ->
  exists f, xor_parts (seq 0 6) inputs q = Some f /\ forall i, f i = part_byte m (q + i).
Proof.
  intros Hin Hm E. destruct (inputs_six _ _ _ _ Hin) as (i0 & i1 & i2 & i3 & i4 & i5 & ->).
  destruct Hin as [_ Hin]. unfold RAIDPARTS in *.
  pose proof (Hin 0%nat ltac:(lia)) as H0. pose proof (Hin 1%nat ltac:(lia)) as H1.
  pose proof (Hin 2%nat ltac:(lia)) as H2. pose proof (Hin 3%nat ltac:(lia)) as H3.
  pose proof (Hin 4%nat ltac:(lia)) as H4. pose proof (Hin 5%nat ltac:(lia)) as H5. clear Hin.
  cbn [lookup list_lookup default id] in *.
  destruct m as [|[|[|[|[|[|m]]]]]]; [..|lia]; cbn [lookup list_lookup] in E; simplify_eq.
  all: repeat match goal with
       | H : match ?x with Some _ => _ | None => ?a = ?b end |- _ => destruct x; [clear H|lia]
       end.
  all: cbn [xor_parts seq default id lookup list_lookup]; eexists; split; [reflexivity|]; intros i;
    cbn beta; rewrite <- others_part by lia; unfold others, part_byte;
    cbn [foldr seq fmap list_fmap Nat.eqb]; apply lxor_bits; intros n Hn;
    rewrite !Z.lxor_spec, ?Z.bits_0;
    change (Z.of_nat 1) with 1; change (Z.of_nat 2) with 2; change (Z.of_nat 3) with 3;
    change (Z.of_nat 4) with 4; change (Z.of_nat 5) with 5;
    repeat match goal with |- context [Z.testbit ?x ?k] => destruct (Z.testbit x k) end; done.
Qed.

Lemma recover_missing m p len inputs off :
  inputs_ok m p len inputs -> (m < RAIDPARTS)%nat -> inputs !! m = Some None ->
  (off + 16 <= len)%nat ->
  recoverSectorFromParity inputs off = fsub (part_byte m) (p + Z.of_nat off) 16.
Proof.
  intros Hin Hm E Hoff. unfold recoverSectorFromParity.
  rewrite (recover_xor_parts _ _ _ _ _ Hin Hoff).
  destruct (xor_parts_missing _ _ _ _ (p + Z.of_nat off) Hin Hm E) as (f & -> & Hf).
  simpl. apply (fsub_ext f _ 0 _ 16). intros i Hi. by rewrite Hf, Z.add_0_l.
Qed.

Lemma sector_at_ok m p len inputs off j :
  inputs_ok m p len inputs -> (j < RAIDPARTS)%nat -> (off + 16 <= len)%nat ->
  sector_at inputs off j = fsub (part_byte j) (p + Z.of_nat off) 16.
Proof.
  intros Hin Hj Hoff. unfold sector_at.
  destruct (lookup_lt_is_Some_2 inputs j) as [b E]; [by rewrite (proj1 Hin)|].
  rewrite E. cbn [default id from_option]. destruct b as [d|]; [by eapply input_sector|].
  assert (j = m) as ->; [|by eapply recover_missing].
  pose proof (proj2 Hin j Hj) as H. by rewrite E in H.
Qed.

Lemma combine_lines_ok m p len inputs n off :
  inputs_ok m p len inputs -> p mod 16 = 0 -> Z.of_nat off mod 16 = 0 ->
  (off + 16 * n <= len)%nat ->
  combine_lines inputs n off = fsub fb (5 * (p + Z.of_nat off)) (80 * n).
Proof.
  intros Hin Hp. revert off. induction n as [|n IH]; intros off Ho Hl; cbn [combine_lines].
  { by rewrite Nat.mul_0_r. }
  rewrite !(sector_at_ok m p len) by (done || unfold RAIDPARTS; lia).
  rewrite IH by (lia || dlia).
  rewrite !app_assoc, <- (app_assoc _ _ (fsub (part_byte 3) _ _)).
  replace (80 * S n)%nat with (80 + 80 * n)%nat by lia. rewrite <- fsub_app.
  rewrite <- sectors_file by dlia. rewrite <- !app_assoc. repeat f_equal. lia.
Qed.

(** ** The last line *)

(** How many bytes of a part lie in the last line of [r] bytes. *)
Definition tail_len (j r : nat) : nat := Nat.min 16 (r - 16 * (j - 1)).

(** The front buffers hold the rest of their parts from [q]; only part [m] may
    be a null buffer, and the file ends [r] bytes into the line. *)
Definition tail_ok (m : nat) (q : Z) (r : nat) (fronts : list (option http_buf)) : Prop :=
  length fronts = RAIDPARTS /\ q mod 16 = 0
  /\ (forall x, 5 * q + Z.of_nat r <= x -> fb x = 0)
  /\ forall j, (j < RAIDPARTS)%nat ->
      match default None (fronts !! j) with
      | None => tail_len j r = 0%nat
      | Some (Data d) => d = fsub (part_byte j) q (tail_len j r)
      | Some (Null n) => n = tail_len j r /\ j = m
      end.

Lemma data_byte_file j q i :
  q mod 16 = 0 -> 0 <= i < 16 -> data_byte j (q + i) = fb (5 * q + 16 * (j - 1) + i).
Proof. intros Hq Hi. unfold data_byte. f_equal. dlia. Qed.

(** Past its end a part reads as zeros, the parity included. *)
Lemma part_tail_zero m q r fronts j i :
  tail_ok m q r fronts -> (j < RAIDPARTS)%nat -> Z.of_nat (tail_len j r) <= i < 16 ->
  part_byte j (q + i) = 0.
Proof.
  intros (_ & Hq & Hz & _) Hj Hi. unfold RAIDPARTS, tail_len in *. destruct j as [|j]; cbn [part_byte].
  - rewrite !data_byte_file by lia. rewrite !Hz by lia. done.
  - rewrite data_byte_file by lia. apply Hz. lia.
Qed.

Lemma xor_into_fsub f g q n t :
  (forall i, Z.of_nat t <= i < Z.of_nat n -> g (q + i) = 0) ->
  xor_into (fsub f 0 n) (fsub g q t) = fsub (fun i => Z.lxor (f i) (g (q + i))) 0 n.
Proof.
  intros Hz. unfold xor_into. rewrite !length_fsub, !take_fsub, drop_fsub.
  set (x := Nat.min n t).
  replace (Nat.min x n) with x by lia. replace (Nat.min x t) with x by lia.
  rewrite lxor_fsub. replace n with (x + (n - x))%nat at 2 by lia.
  rewrite <- fsub_app. f_equal.
  apply fsub_ext. intros i Hi. rewrite Hz by lia. by rewrite Z.lxor_0_r, !Z.add_0_l.
Qed.

Lemma replicate_fsub n a : replicate n 0 = fsub (fun _ => 0) a n.
Proof. revert a. induction n as [|n IH]; intros a; simpl; [done|]. by rewrite (IH (a + 1)). Qed.

Lemma recover_tail_ok m q r fronts n :
  tail_ok m q r fronts -> (m < RAIDPARTS)%nat -> fronts !! m = Some (Some (Null n)) ->
  recover_tail n fronts = fsub (part_byte m) q n.
Proof.
  intros Hok Hm E.
  assert (n <= 16)%nat as Hn.
  { destruct Hok as (_ & _ & _ & H). specialize (H m Hm). rewrite E in H. simpl in H.
    unfold tail_len in H. lia. }
  assert (forall k f, (k < RAIDPARTS)%nat ->
    match default None (fronts !! k) with Some (Data d) => xor_into (fsub f 0 n) d | _ => fsub f 0 n end
    = fsub (fun i => Z.lxor (f i) (if (k =? m)%nat then 0 else part_byte k (q + i))) 0 n) as Hstep.
  { intros k f Hk. pose proof Hok as (_ & Hq & Hz & H). specialize (H k Hk).
    destruct (Nat.eqb_spec k m) as [->|Hne].
    - rewrite E. simpl. apply fsub_ext. intros i Hi. by rewrite Z.lxor_0_r.
    - destruct (default None (fronts !! k)) as [[d|l]|]; [|lia|].
      + rewrite H. apply xor_into_fsub. intros i Hi.
        apply (part_tail_zero m q r fronts); [done..|lia].
      + apply fsub_ext. intros i Hi. rewrite (part_tail_zero m q r fronts k) by (done || lia).
        by rewrite Z.lxor_0_r. }
  destruct Hok as (Hl & _). unfold RAIDPARTS in *. unfold recover_tail.
  destruct fronts as [|b0 [|b1 [|b2 [|b3 [|b4 [|b5 [|]]]]]]]; try done.
  pose proof (fun f => Hstep 0%nat f ltac:(lia)) as H0. pose proof (fun f => Hstep 1%nat f ltac:(lia)) as H1.
  pose proof (fun f => Hstep 2%nat f ltac:(lia)) as H2. pose proof (fun f => Hstep 3%nat f ltac:(lia)) as H3.
  pose proof (fun f => Hstep 4%nat f ltac:(lia)) as H4. pose proof (fun f => Hstep 5%nat f ltac:(lia)) as H5.
  clear Hstep. cbn [lookup list_lookup default id from_option] in *. cbn [rev app foldl].
  rewrite (replicate_fsub n 0), H5, H4, H3, H2, H1, H0.
  apply fsub_ext. intros i Hi. rewrite Z.add_0_l. rewrite <- (others_part m (q + i)) by done.
  unfold others. cbn [foldr seq fmap list_fmap].
  apply lxor_bits. intros x Hx. rewrite !Z.lxor_spec, !Z.bits_0.
  repeat match goal with |- context [Z.testbit ?y x] => destruct (Z.testbit y x) end; done.
Qed.

Lemma last_line_ok m q r fronts k j :
  tail_ok m q r fronts -> (1 <= j)%nat -> (j + k = 6)%nat -> (r <= 80)%nat ->
  last_line (seq j k) fronts (r - 16 * (j - 1))
  = fsub fb (5 * q + 16 * (Z.of_nat j - 1)) (r - 16 * (j - 1)).
Proof.
  intros Hok Hj Hk Hr. revert j Hj Hk. induction k as [|k IH]; intros j Hj Hk; cbn [seq last_line].
  { replace (r - 16 * (j - 1))%nat with 0%nat by lia. done. }
  destruct (Nat.eqb_spec (r - 16 * (j - 1)) 0) as [->|Hne]; [done|].
  pose proof Hok as (_ & Hq & _ & H). specialize (H j). unfold RAIDPARTS in H. specialize (H ltac:(lia)).
  assert (fsub (part_byte j) q (tail_len j r)
          = fsub fb (5 * q + 16 * (Z.of_nat j - 1)) (tail_len j r)) as Hpart.
  { apply fsub_ext. intros i Hi. unfold tail_len in Hi. destruct j as [|j]; [lia|].
    cbn [part_byte]. by rewrite data_byte_file by lia. }
  assert (last_line (seq (S j) k) fronts (r - 16 * (j - 1) - tail_len j r)
    = fsub fb (5 * q + 16 * (Z.of_nat j - 1) + Z.of_nat (tail_len j r)) (r - 16 * (j - 1) - tail_len j r)) as Hrest.
  { assert (r - 16 * (j - 1) - tail_len j r = r - 16 * (S j - 1))%nat as -> by (unfold tail_len; lia).
    rewrite IH by lia. unfold tail_len.
    destruct (decide (r - 16 * (S j - 1) = 0)%nat) as [->|]; [done|]. f_equal. lia. }
  destruct (default None (fronts !! j)) as [[d|l]|] eqn:E.
  - assert (datalen (Data d) = tail_len j r) as Hd by (rewrite H; apply length_fsub).
    rewrite Hd, Nat.min_r by (unfold tail_len; lia).
    rewrite H at 1. rewrite take_fsub, Nat.min_id, Hpart, Hrest, fsub_app. f_equal.
    unfold tail_len. lia.
  - destruct H as [-> ->]. cbn [datalen]. rewrite Nat.min_r by (unfold tail_len; lia).
    assert (fronts !! m = Some (Some (Null (tail_len m r)))) as E'.
    { destruct (fronts !! m) as [b|]; [|done]. simpl in E. by rewrite E. }
    rewrite (recover_tail_ok m q r) by (done || unfold RAIDPARTS; lia).
    rewrite Hpart, Hrest, fsub_app. f_equal. unfold tail_len. lia.
  - exfalso. unfold tail_len in H. lia.
Qed.

Lemma combineLastRaidLine_ok m q r fronts :
  tail_ok m q r fronts -> (r <= 80)%nat -> combineLastRaidLine fronts r = fsub fb (5 * q) r.
Proof.
  intros Hok Hr. pose proof (last_line_ok m q r fronts 5 1 Hok ltac:(lia) ltac:(lia) Hr) as E.
  rewrite Nat.sub_diag, Nat.mul_0_r, Nat.sub_0_r in E. unfold combineLastRaidLine.
  change [1; 2; 3; 4; 5]%nat with (seq 1 5). rewrite E. f_equal. lia.
Qed.

End layout.

(** ** Sizes of the parts *)

Definition residue (A : Z) : nat := Z.to_nat (A mod 80).
Definition base_size (A : Z) : Z := 16 * (A / 80).

Lemma raidPartSize_eq j A :
  0 <= A -> raidPartSize j A = base_size A + Z.of_nat (tail_len j (residue A)).
Proof.
  intros HA. unfold raidPartSize, base_size, tail_len, residue.
  change RAIDLINE with 80. change EFFECTIVE_RAIDPARTS with 5. change RAIDSECTOR with 16.
  rewrite Z.rem_mod_nonneg by lia. pose proof (Z.mod_pos_bound A 80 ltac:(lia)) as Hr.
  assert (A - A mod 80 = 80 * (A / 80)) as -> by dlia.
  rewrite Z.quot_div_nonneg by dlia.
  replace (80 * (A / 80) / 5) with (16 * (A / 80)) by dlia. f_equal.
  destruct (Nat.eqb_spec j 0) as [->|Hj]; case_ifs.
Qed.

Lemma part_sizes_sum A :
  0 <= A ->
  raidPartSize 1 A + raidPartSize 2 A + raidPartSize 3 A + raidPartSize 4 A + raidPartSize 5 A = A.
Proof.
  intros HA. rewrite !raidPartSize_eq by done. unfold base_size, tail_len, residue. dlia.
Qed.

(** The five data parts of a raid file hold exactly its bytes, the parity part
    is as long as the longest data part, part sizes never grow with the part
    number, and every part is the whole lines of the file plus at most a sector. *)
Theorem raid_part_sizes (A : Z) :
  0 <= A ->
  foldr Z.add 0 ((fun j => raidPartSize j A) <$> [1; 2; 3; 4; 5]%nat) = A
  /\ raidPartSize 0 A = raidPartSize 1 A
  /\ (forall i j, (1 <= i <= j)%nat -> raidPartSize j A <= raidPartSize i A <= raidPartSize j A + 16)
  /\ (forall j, base_size A <= raidPartSize j A <= base_size A + 16).
Proof.
  intros HA. split_and!.
  - pose proof (part_sizes_sum A HA). simpl. lia.
  - by rewrite !raidPartSize_eq.
  - intros i j Hij. rewrite !raidPartSize_eq by done. unfold tail_len. lia.
  - intros j. rewrite raidPartSize_eq by done. unfold tail_len. lia.
Qed.

Lemma raid_part_sizes_witness :
  foldr Z.add 0 ((fun j => raidPartSize j 1000003) <$> [1; 2; 3; 4; 5]%nat) = 1000003
  /\ raidPartSize 0 1000003 = raidPartSize 1 1000003
  /\ (forall i j, (1 <= i <= j)%nat ->
       raidPartSize j 1000003 <= raidPartSize i 1000003 <= raidPartSize j 1000003 + 16)
  /\ (forall j, base_size 1000003 <= raidPartSize j 1000003 <= base_size 1000003 + 16).
Proof. apply raid_part_sizes. lia. Defined.

(** ** The invariant of a download *)
Section download.
Context (fb : Z -> Z) `{RaidClient}.

(** The pieces queued for part [j] are the bytes of that part from [p] on, or
    placeholders for the part [m] that is not downloaded. *)
Fixpoint queue_ok (m : nat) (A : Z) (j : nat) (p : Z) (q : list FilePiece) : Prop :=
  match q with
  | [] => True
  | pc :: q =>
      ppos pc = p
      /\ match pbuf pc with
         | Data d => d = fsub (part_byte fb j) p (length d)
         | Null _ => j = m
         end
      /\ (0 < datalen (pbuf pc))%nat /\ Z.of_nat (datalen (pbuf pc)) < 2 ^ 28
      /\ piece_end pc <= raidPartSize j A
      /\ queue_ok m A j (piece_end pc) q
  end.

Record raid_inv (s : RaidBufferManager) : Prop := {
  ri_raid : is_raid s = true;
  ri_file : forall x, fullfilesize s <= x -> fb x = 0;
  ri_limits : 0 <= deliverlimitpos s <= acquirelimitpos s /\ acquirelimitpos s <= fullfilesize s;
  ri_acquire : acquirelimitpos s = fullfilesize s \/ acquirelimitpos s mod 80 = 0;
  ri_lines : 0 <= raidLinesPerChunk s <= 256 * 1024;
  ri_parts : length (raidinputparts s) = RAIDPARTS;
  ri_queues : forall j, (j < RAIDPARTS)%nat ->
    queue_ok (unusedRaidConnection s) (acquirelimitpos s) j (raidpartspos s) (queue j s);
  ri_pos : 0 <= raidpartspos s <= base_size (acquirelimitpos s) /\ raidpartspos s mod 16 = 0;
  ri_left : datalen (pbuf (leftoverchunk s)) = length (leftover_bytes (leftoverchunk s))
    /\ leftover_bytes (leftoverchunk s)
       = fsub fb (outputfilepos s) (length (leftover_bytes (leftoverchunk s)))
    /\ 5 * raidpartspos s = outputfilepos s + zlength (leftover_bytes (leftoverchunk s))
    /\ 0 <= outputfilepos s;
  ri_base : raidpartspos s = base_size (acquirelimitpos s)
    \/ exists B, calcOutputChunkPos B = B /\ outputfilepos s <= B < 5 * raidpartspos s + 80
}.

(** What the clients promise of [calcOutputChunkPos]. *)
Class RaidClientLaws : Prop := {
  calc_le : forall x, 0 <= x -> calcOutputChunkPos x <= x;
  calc_mono : forall x y, 0 <= x <= y -> calcOutputChunkPos x <= calcOutputChunkPos y;
  calc_idem : forall x, 0 <= x -> calcOutputChunkPos (calcOutputChunkPos x) = calcOutputChunkPos x
}.

(** The next byte to deliver, and the piece that delivers up to [e]. *)
Definition next_pos (s : RaidBufferManager) : Z := outputfilepos s + Z.of_nat (resumewastedbytes s).

Definition range_piece (D e : Z) : option FilePiece :=
  if D <? e then Some (MkPiece D (Data (fsub fb D (Z.to_nat (e - D))))) else None.

(** The front buffers of all parts reach the end of their parts. *)
Definition at_end (s : RaidBufferManager) : Prop :=
  forall j, (j < RAIDPARTS)%nat ->
    raidpartspos s + Z.of_nat (front_len (front (queue j s))) = raidPartSize j (acquirelimitpos s).

Lemma trim_range wasted deliver O L :
  trim wasted deliver O (fsub fb O L)
  = MkPiece (O + Z.of_nat (Nat.min L wasted))
      (Data (fsub fb (O + Z.of_nat (Nat.min L wasted))
         (Z.to_nat (Z.min (O + Z.of_nat L) deliver - (O + Z.of_nat (Nat.min L wasted)))))).
Proof.
  unfold trim. rewrite drop_fsub, !length_fsub. f_equal. f_equal.
  case_if; zbool; rewrite ?take_fsub; f_equal; lia.
Qed.

Lemma trim_piece wasted deliver O L :
  (let r := trim wasted deliver O (fsub fb O L) in
   if (0 <? datalen (pbuf r))%nat then Some (finalize r) else None)
  = finalize <$> range_piece (O + Z.of_nat wasted) (Z.min (O + Z.of_nat L) deliver).
Proof.
  rewrite trim_range. cbn zeta. cbn [pbuf datalen]. rewrite length_fsub. unfold range_piece.
  destruct (Z.ltb_spec (O + Z.of_nat wasted) (Z.min (O + Z.of_nat L) deliver)) as [Hlt|Hge].
  - rewrite (proj2 (Nat.ltb_lt 0 _)) by lia. cbn [fmap option_fmap option_map].
    replace (Nat.min L wasted) with wasted by lia. done.
  - rewrite (proj2 (Nat.ltb_ge 0 _)) by lia. done.
Qed.

(** *** Front buffers *)

Lemma queue_front m A j p q :
  queue_ok m A j p q -> 0 <= p <= base_size A -> 0 <= A ->
  p + Z.of_nat (front_len (front q)) <= raidPartSize j A.
Proof.
  intros Hq Hp HA. rewrite raidPartSize_eq by done. destruct q as [|pc q]; simpl; [lia|].
  destruct Hq as (Hpos & _ & _ & _ & He & _). rewrite raidPartSize_eq in He by done.
  unfold piece_end in He. lia.
Qed.

(** Rolling a queue by what its front buffer holds at least. *)
Lemma roll_queue_ok m A j p q c :
  queue_ok m A j p q -> (c <= front_len (front q))%nat ->
  queue_ok m A j (p + Z.of_nat c) (roll_queue c q).
Proof.
  destruct q as [|[pp b] q]; intros Hq Hc; [done|]. cbn [front front_len head fmap option_fmap option_map pbuf] in Hc.
  destruct Hq as (Hpos & Hb & H0 & Hlt & He & Hq). cbn [ppos pbuf] in *. unfold piece_end in *.
  cbn [ppos pbuf] in *. cbn [roll_queue pbuf].
  destruct (Nat.leb_spec (datalen b) c) as [Hle|Hgt].
  - replace (p + Z.of_nat c) with (pp + Z.of_nat (datalen b)) by lia. done.
  - assert (datalen (advance_start c b) = (datalen b - c)%nat) as Hd.
    { destruct b; simpl; [apply length_drop|done]. }
    cbn [queue_ok]. unfold piece_end. cbn [ppos pbuf]. rewrite Hd. split_and!; try lia.
    + destruct b as [d|n]; cbn [advance_start datalen] in *; [|done].
      rewrite Hb at 1. rewrite drop_fsub. f_equal. rewrite length_drop. done.
    + replace (pp + Z.of_nat c + Z.of_nat (datalen b - c)) with (pp + Z.of_nat (datalen b)) by lia.
      done.
Qed.

Lemma roll_front_len q c : (c < front_len (front q))%nat -> front_len (front (roll_queue c q)) = (front_len (front q) - c)%nat.
Proof.
  destruct q as [|[pp b] q]; simpl; [lia|]. intros Hc.
  rewrite (proj2 (Nat.leb_gt _ _)) by done. simpl. destruct b; simpl; [apply length_drop|done].
Qed.

Lemma common_len_mod fronts : Z.of_nat (common_len fronts) mod 16 = 0.
Proof. unfold common_len. set (m := foldr _ _ _). rewrite Nat2Z.inj_sub by (apply Nat.Div0.mod_le). rewrite Nat2Z.inj_mod. dlia. Qed.

Lemma common_len_le fronts j b :
  fronts !! j = Some b -> (common_len fronts <= front_len b)%nat.
Proof.
  unfold common_len. set (f := fun b m => _). intros Hj.
  enough (foldr f (Z.to_nat 0x10000000) fronts <= front_len b)%nat by lia.
  generalize (Z.to_nat 0x10000000). intros k. revert j Hj.
  induction fronts as [|a l IH]; intros [|j] Hj; simpl in *; [done|done| |].
  - simplify_eq. destruct b; simpl; lia.
  - specialize (IH j Hj). destruct a; simpl; lia.
Qed.

(** A whole number of sectors that every front buffer holds is common. *)
Lemma common_len_ge fronts k :
  (forall b, b ∈ fronts -> exists x, b = Some x /\ (k <= datalen x)%nat) ->
  Z.of_nat k <= 2 ^ 28 -> Z.of_nat k mod 16 = 0 -> (k <= common_len fronts)%nat.
Proof.
  intros Hb Hk Hm. unfold common_len. set (f := fun b m => _).
  assert (k <= foldr f (Z.to_nat 0x10000000) fronts)%nat as Hge.
  { assert (k <= Z.to_nat 0x10000000)%nat as H0 by lia. revert H0.
    generalize (Z.to_nat 0x10000000). intros n Hn.
    induction fronts as [|a l IH]; simpl; [done|].
    destruct (Hb a) as (x & -> & Hx); [left|]. cbn. apply Nat.min_glb; [|done].
    apply IH. intros b Hin. apply Hb. by right. }
  set (m := foldr _ _ _) in *. clearbody m. clear - Hge Hm.
  assert (Z.of_nat (m mod 16) = Z.of_nat m mod 16) by (rewrite Nat2Z.inj_mod; done). dlia.
Qed.

Lemma common_len_zero fronts : None ∈ fronts -> common_len fronts = 0%nat.
Proof.
  intros (j & Hj)%list_elem_of_lookup. pose proof (common_len_le _ _ _ Hj) as Hle. simpl in Hle. lia.
Qed.

(** *** The state before a combination *)

Lemma fronts_lookup s j :
  raid_inv s -> (j < RAIDPARTS)%nat ->
  (front <$> raidinputparts s) !! j = Some (front (queue j s)).
Proof.
  intros Hi Hj. rewrite list_lookup_fmap. unfold queue.
  destruct (lookup_lt_is_Some_2 (raidinputparts s) j) as [q E]; [by rewrite (ri_parts _ Hi)|].
  by rewrite E.
Qed.

Lemma parts_six s :
  raid_inv s -> raidinputparts s = [queue 0 s; queue 1 s; queue 2 s; queue 3 s; queue 4 s; queue 5 s].
Proof.
  intros Hi. pose proof (ri_parts _ Hi) as Hl. unfold queue, RAIDPARTS in *.
  destruct (raidinputparts s) as [|b0 [|b1 [|b2 [|b3 [|b4 [|b5 [|]]]]]]]; done.
Qed.

Lemma acquire_nonneg s : raid_inv s -> 0 <= acquirelimitpos s.
Proof. intros Hi. pose proof (ri_limits _ Hi). lia. Qed.

(** The common length never reaches beyond the whole lines of the file. *)
Lemma common_len_base s :
  raid_inv s ->
  raidpartspos s + Z.of_nat (common_len (front <$> raidinputparts s)) <= base_size (acquirelimitpos s).
Proof.
  intros Hi. set (fr := front <$> raidinputparts s).
  pose proof (common_len_le fr 5 _ (fronts_lookup s 5 Hi ltac:(unfold RAIDPARTS; lia))) as H5.
  pose proof (queue_front _ _ _ _ _ (ri_queues _ Hi 5%nat ltac:(unfold RAIDPARTS; lia))
    (proj1 (ri_pos _ Hi)) (acquire_nonneg _ Hi)) as Hf.
  rewrite raidPartSize_eq in Hf by by apply acquire_nonneg.
  pose proof (common_len_mod fr) as Hm. pose proof (ri_pos _ Hi) as [Hp Hpm].
  pose proof (acquire_nonneg _ Hi).
  assert (tail_len 5 (residue (acquirelimitpos s)) < 16)%nat as Ht by (unfold tail_len, residue; dlia).
  unfold base_size in *. generalize dependent (tail_len 5 (residue (acquirelimitpos s))).
  intros t. clear - H5 Hm Hp Hpm. dlia.
Qed.

Lemma inputs_of_fronts s :
  raid_inv s -> (0 < common_len (front <$> raidinputparts s))%nat ->
  inputs_ok fb (unusedRaidConnection s) (raidpartspos s) (common_len (front <$> raidinputparts s))
    (input_of <$> (front <$> raidinputparts s)).
Proof.
  intros Hi Hc. split; [by rewrite !length_fmap, (ri_parts _ Hi)|]. intros j Hj.
  rewrite list_lookup_fmap, (fronts_lookup s j Hi Hj). cbn [fmap option_fmap option_map default id from_option].
  pose proof (common_len_le _ j _ (fronts_lookup s j Hi Hj)) as Hle.
  pose proof (ri_queues _ Hi j Hj) as Hq.
  destruct (queue j s) as [|[pp b] q]; [simpl in Hle; lia|].
  destruct Hq as (Hpos & Hb & _). cbn [pbuf ppos] in *. simpl in Hle.
  unfold front, input_of. simpl. destruct b as [d|n]; [|done]. done.
Qed.

(** What the whole lines contribute. *)
Lemma combine_full_ok s :
  raid_inv s ->
  let c := common_len (front <$> raidinputparts s) in
  combine_full c (leftover_bytes (leftoverchunk s)) (front <$> raidinputparts s)
  = fsub fb (outputfilepos s) (length (leftover_bytes (leftoverchunk s)) + 5 * c).
Proof.
  intros Hi c. unfold combine_full. pose proof (ri_left _ Hi) as (Hd & Hl & Hpos & _).
  rewrite Hl at 1. set (n := length (leftover_bytes (leftoverchunk s))) in *.
  rewrite <- fsub_app. f_equal.
  pose proof (common_len_mod (front <$> raidinputparts s)) as Hm. fold c in Hm.
  destruct (decide (c = 0%nat)) as [->|Hne]; [done|].
  rewrite (combine_lines_ok fb (unusedRaidConnection s) (raidpartspos s) c).
  - f_equal; [lia|]. assert (Z.of_nat (c / 16) = Z.of_nat c / 16) by (rewrite Nat2Z.inj_div; done). dlia.
  - apply inputs_of_fronts; [done|]. fold c. lia.
  - apply (ri_pos _ Hi).
  - done.
  - assert (Z.of_nat (c / 16) = Z.of_nat c / 16) by (rewrite Nat2Z.inj_div; done). dlia.
Qed.

(** *** The end of the file *)

Definition process_to_end (s : RaidBufferManager) : bool :=
  let fronts := front <$> raidinputparts s in
  let newdatafilepos := outputfilepos s + Z.of_nat (datalen (pbuf (leftoverchunk s))) in
  (newdatafilepos + Z.of_nat (sum_len (drop 1 fronts)) =? acquirelimitpos s)
  && (Z.quot newdatafilepos EFFECTIVE_RAIDPARTS + Z.of_nat (sum_len (take 1 fronts))
      =? raidPartSize 0 (acquirelimitpos s)).

Lemma newdata_pos s :
  raid_inv s -> outputfilepos s + Z.of_nat (datalen (pbuf (leftoverchunk s))) = 5 * raidpartspos s.
Proof. intros Hi. pose proof (ri_left _ Hi) as (-> & _ & -> & _). done. Qed.

Lemma sums_eq s :
  raid_inv s ->
  let fl j := front_len (front (queue j s)) in
  sum_len (drop 1 (front <$> raidinputparts s)) = (fl 1 + fl 2 + fl 3 + fl 4 + fl 5)%nat
  /\ sum_len (take 1 (front <$> raidinputparts s)) = fl 0%nat.
Proof. intros Hi fl. rewrite (parts_six s Hi). subst fl. simpl. lia. Qed.

Lemma front_within s j :
  raid_inv s -> (j < RAIDPARTS)%nat ->
  raidpartspos s + Z.of_nat (front_len (front (queue j s))) <= raidPartSize j (acquirelimitpos s).
Proof.
  intros Hi Hj. eapply queue_front; [by apply (ri_queues _ Hi)|apply (ri_pos _ Hi)|by apply acquire_nonneg].
Qed.

Lemma process_to_end_spec s : raid_inv s -> process_to_end s = true <-> at_end s.
Proof.
  intros Hi. unfold process_to_end. rewrite (newdata_pos s Hi).
  destruct (sums_eq s Hi) as [-> ->]. pose proof (acquire_nonneg s Hi) as HA.
  pose proof (part_sizes_sum _ HA) as Hsum. pose proof (ri_pos _ Hi) as [Hp _].
  change EFFECTIVE_RAIDPARTS with 5. rewrite Z.quot_div_nonneg by lia.
  replace (5 * raidpartspos s / 5) with (raidpartspos s) by dlia.
  pose proof (fun j H => front_within s j Hi H) as Hw. unfold RAIDPARTS in Hw.
  pose proof (Hw 0%nat ltac:(lia)). pose proof (Hw 1%nat ltac:(lia)). pose proof (Hw 2%nat ltac:(lia)).
  pose proof (Hw 3%nat ltac:(lia)). pose proof (Hw 4%nat ltac:(lia)). pose proof (Hw 5%nat ltac:(lia)).
  clear Hw. split.
  - intros E. zbool. unfold at_end, RAIDPARTS. intros j Hj.
    destruct j as [|[|[|[|[|[|j]]]]]]; lia.
  - unfold at_end, RAIDPARTS. intros Hend.
    pose proof (Hend 0%nat ltac:(lia)). pose proof (Hend 1%nat ltac:(lia)). pose proof (Hend 2%nat ltac:(lia)).
    pose proof (Hend 3%nat ltac:(lia)). pose proof (Hend 4%nat ltac:(lia)). pose proof (Hend 5%nat ltac:(lia)).
    apply andb_true_iff. split; apply Z.eqb_eq; lia.
Qed.

Lemma front_some s j :
  raid_inv s -> (j < RAIDPARTS)%nat ->
  front_len (front (queue j s)) = 0%nat -> queue j s = [].
Proof.
  intros Hi Hj E. pose proof (ri_queues _ Hi j Hj) as Hq. destruct (queue j s) as [|pc q]; [done|].
  simpl in *. destruct Hq as (_ & _ & H0 & _). lia.
Qed.

Lemma at_end_common s :
  raid_inv s -> at_end s ->
  raidpartspos s + Z.of_nat (common_len (front <$> raidinputparts s)) = base_size (acquirelimitpos s).
Proof.
  intros Hi Hend. pose proof (common_len_base s Hi) as Hle.
  enough (base_size (acquirelimitpos s) - raidpartspos s
          <= Z.of_nat (common_len (front <$> raidinputparts s))) by lia.
  pose proof (ri_pos _ Hi) as [Hp Hpm]. pose proof (acquire_nonneg s Hi) as HA.
  destruct (decide (base_size (acquirelimitpos s) = raidpartspos s)) as [|Hne]; [lia|].
  set (k := Z.to_nat (base_size (acquirelimitpos s) - raidpartspos s)).
  assert (forall j, (j < RAIDPARTS)%nat -> (k <= front_len (front (queue j s)))%nat) as Hk.
  { intros j Hj. pose proof (Hend j Hj) as E. rewrite raidPartSize_eq in E by done. lia. }
  enough (k <= common_len (front <$> raidinputparts s))%nat by lia.
  apply common_len_ge.
  - intros b (j & Hb)%list_elem_of_lookup.
    assert (j < RAIDPARTS)%nat as Hj.
    { apply lookup_lt_Some in Hb. by rewrite length_fmap, (ri_parts _ Hi) in Hb. }
    rewrite (fronts_lookup s j Hi Hj) in Hb. simplify_eq. specialize (Hk j Hj).
    destruct (queue j s) as [|[pp b] q]; simpl in *; [lia|]. eauto.
  - pose proof (Hk 5%nat ltac:(unfold RAIDPARTS; lia)) as H5.
    pose proof (ri_queues _ Hi 5%nat ltac:(unfold RAIDPARTS; lia)) as Hq.
    destruct (queue 5 s) as [|[pp b] q]; simpl in *; [lia|]. destruct Hq as (_ & _ & _ & Hlt & _). lia.
  - unfold base_size in *. subst k. rewrite Z2Nat.id by lia. dlia.
Qed.

(** The rolled buffers are the last line. *)
Lemma tail_ok_rolled s :
  raid_inv s -> at_end s -> (0 < residue (acquirelimitpos s))%nat ->
  (forall x, fullfilesize s <= x -> fb x = 0) ->
  tail_ok fb (unusedRaidConnection s) (base_size (acquirelimitpos s)) (residue (acquirelimitpos s))
    (front <$> rollInputBuffers (common_len (front <$> raidinputparts s)) (raidinputparts s)).
Proof.
  intros Hi Hend Hr Hz. pose proof (acquire_nonneg s Hi) as HA.
  set (c := common_len (front <$> raidinputparts s)).
  pose proof (at_end_common s Hi Hend) as Hc. fold c in Hc. split_and!.
  - unfold rollInputBuffers. by rewrite !length_fmap, (ri_parts _ Hi).
  - unfold base_size. dlia.
  - intros x Hx. apply Hz. unfold residue, base_size in *.
    destruct (ri_acquire _ Hi) as [<-|Hm]; [dlia|lia].
  - intros j Hj. unfold rollInputBuffers. rewrite !list_lookup_fmap.
    destruct (lookup_lt_is_Some_2 (raidinputparts s) j) as [q E]; [by rewrite (ri_parts _ Hi)|].
    assert (queue j s = q) as Hqj by (unfold queue; by rewrite E).
    rewrite E. cbn [fmap option_fmap option_map default id from_option].
    pose proof (common_len_le _ j _ (fronts_lookup s j Hi Hj)) as Hle. fold c in Hle.
    pose proof (roll_queue_ok _ _ _ _ _ c (ri_queues _ Hi j Hj) Hle) as Hq.
    pose proof (Hend j Hj) as He. rewrite raidPartSize_eq in He by done.
    rewrite Hc in Hq. rewrite Hqj in *.
    destruct (decide (c < front_len (front q))%nat) as [Hlt|Hge].
    + pose proof (roll_front_len q c Hlt) as Hl.
      destruct (roll_queue c q) as [|[pp b] q']; simpl in Hl; [lia|].
      destruct Hq as (_ & Hb & _). cbn [pbuf] in Hb. simpl.
      assert (datalen b = tail_len j (residue (acquirelimitpos s))) as Hd by lia.
      destruct b as [d|n]; simpl in Hd; [by rewrite <- Hd|done].
    + destruct (roll_queue c q) as [|pc q']; simpl; [lia|].
      destruct Hq as (Hpos & _ & H0 & _ & He' & _). unfold piece_end in He'.
      rewrite raidPartSize_eq in He' by done. lia.
Qed.

(** After the last line nothing is queued. *)
Lemma rolled_out s :
  raid_inv s -> at_end s ->
  forall j, (j < RAIDPARTS)%nat ->
    roll_queue 16 (roll_queue (common_len (front <$> raidinputparts s)) (queue j s)) = [].
Proof.
  intros Hi Hend j Hj. pose proof (acquire_nonneg s Hi) as HA.
  set (c := common_len (front <$> raidinputparts s)).
  pose proof (at_end_common s Hi Hend) as Hc. fold c in Hc.
  pose proof (common_len_le _ j _ (fronts_lookup s j Hi Hj)) as Hle. fold c in Hle.
  pose proof (roll_queue_ok _ _ _ _ _ c (ri_queues _ Hi j Hj) Hle) as Hq. rewrite Hc in Hq.
  pose proof (Hend j Hj) as He. rewrite raidPartSize_eq in He by done.
  destruct (decide (c < front_len (front (queue j s)))%nat) as [Hlt|Hge].
  - pose proof (roll_front_len _ c Hlt) as Hl.
    destruct (roll_queue c (queue j s)) as [|[pp b] q]; [done|]. simpl in Hl.
    destruct Hq as (Hpos & _ & _ & _ & _ & Hq). unfold piece_end in Hq. cbn [ppos pbuf] in *.
    cbn [roll_queue pbuf]. rewrite (proj2 (Nat.leb_le _ _)) by (unfold tail_len in He; lia).
    destruct q as [|pc q]; [done|]. destruct Hq as (Hp' & _ & H0 & _ & He' & _).
    unfold piece_end in He'. rewrite raidPartSize_eq in He' by done. lia.
  - destruct (roll_queue c (queue j s)) as [|pc q]; [done|].
    destruct Hq as (Hpos & _ & H0 & _ & He' & _). unfold piece_end in He'.
    rewrite raidPartSize_eq in He' by done. lia.
Qed.

(** *** One combination *)

Lemma inv_assembly s parts left pp op w :
  raid_inv s -> length parts = RAIDPARTS ->
  (forall j, (j < RAIDPARTS)%nat ->
     queue_ok (unusedRaidConnection s) (acquirelimitpos s) j pp (default [] (parts !! j))) ->
  0 <= pp <= base_size (acquirelimitpos s) -> pp mod 16 = 0 ->
  datalen (pbuf left) = length (leftover_bytes left) ->
  leftover_bytes left = fsub fb op (length (leftover_bytes left)) ->
  5 * pp = op + zlength (leftover_bytes left) -> 0 <= op ->
  (pp = base_size (acquirelimitpos s)
   \/ exists B, calcOutputChunkPos B = B /\ op <= B < 5 * pp + 80) ->
  raid_inv (set_assembly parts left pp op w s).
Proof. intros [] Hl Hq Hp Hm H1 H2 H3 H4 Hb. split; simpl; auto. Qed.

Lemma rolled_lookup s c j :
  (j < RAIDPARTS)%nat -> raid_inv s ->
  default [] (rollInputBuffers c (raidinputparts s) !! j) = roll_queue c (queue j s).
Proof.
  intros Hj Hi. unfold rollInputBuffers, queue. rewrite list_lookup_fmap.
  by destruct (raidinputparts s !! j).
Qed.

Lemma rolled_queue s c j :
  raid_inv s -> (j < RAIDPARTS)%nat -> c = common_len (front <$> raidinputparts s) ->
  queue_ok (unusedRaidConnection s) (acquirelimitpos s) j (raidpartspos s + Z.of_nat c)
    (default [] (rollInputBuffers c (raidinputparts s) !! j)).
Proof.
  intros Hi Hj ->. rewrite rolled_lookup by done. apply roll_queue_ok; [by apply (ri_queues _ Hi)|].
  apply (common_len_le _ j). by apply fronts_lookup.
Qed.

(** The outcome of a combination that delivers up to [E]. *)
Definition combined (s s' : RaidBufferManager) (out : option FilePiece) (E : Z) : Prop :=
  raid_inv s'
  /\ outputfilepos s <= E <= acquirelimitpos s
  /\ out = finalize <$> range_piece (next_pos s) (Z.min E (deliverlimitpos s))
  /\ (E = acquirelimitpos s \/ next_pos s' = Z.max E (next_pos s))
  /\ (at_end s -> E = acquirelimitpos s)
  /\ deliverlimitpos s' = deliverlimitpos s.

Lemma combine_idle s :
  raid_inv s -> process_to_end s = false -> combined s s None (outputfilepos s).
Proof.
  intros Hi Hend. pose proof (ri_left _ Hi) as (_ & _ & Hl & H0).
  pose proof (ri_pos _ Hi) as [Hp _]. pose proof (ri_limits _ Hi).
  assert (5 * base_size (acquirelimitpos s) <= acquirelimitpos s) by (unfold base_size; dlia).
  unfold combined, next_pos, range_piece. split_and!; try done; try lia.
  - rewrite (proj2 (Z.ltb_ge _ _)) by lia. done.
  - intros Hae. apply (process_to_end_spec s Hi) in Hae. congruence.
Qed.

Lemma fold_trim s L :
  (let r := trim (resumewastedbytes s) (deliverlimitpos s) (outputfilepos s) (fsub fb (outputfilepos s) L) in
   if (0 <? datalen (pbuf r))%nat then Some (finalize r) else None)
  = finalize <$> range_piece (next_pos s) (Z.min (outputfilepos s + Z.of_nat L) (deliverlimitpos s)).
Proof. apply trim_piece. Qed.

Context `{!RaidClientLaws}.

(** All parts reached their ends: everything up to the limit is delivered. *)
Lemma combine_end s s' out :
  raid_inv s -> process_to_end s = true -> combineRaidParts s = (s', out) ->
  combined s s' out (acquirelimitpos s).
Proof.
  intros Hi Hpe E. pose proof (proj1 (process_to_end_spec s Hi) Hpe) as Hend.
  unfold combineRaidParts in E. cbv zeta in E.
  fold (process_to_end s) in E. rewrite Hpe in E.
  rewrite orb_true_r in E. cbn [andb negb] in E.
  set (c := common_len (front <$> raidinputparts s)) in *.
  pose proof (combine_full_ok s Hi) as Hfull. cbv zeta in Hfull. fold c in Hfull. rewrite Hfull in E.
  pose proof (at_end_common s Hi Hend) as Hc. fold c in Hc.
  pose proof (acquire_nonneg s Hi) as HA. pose proof (ri_left _ Hi) as (Hd & Hl & Hp5 & Hop).
  set (n := length (leftover_bytes (leftoverchunk s))) in *. rewrite Hd in E.
  assert (sum_len (drop 1 (front <$> raidinputparts s)) - c * 5 = residue (acquirelimitpos s))%nat as Hrest.
  { destruct (sums_eq s Hi) as [-> _]. pose proof (part_sizes_sum _ HA) as Hsum.
    unfold at_end, RAIDPARTS in Hend.
    pose proof (Hend 1%nat ltac:(lia)). pose proof (Hend 2%nat ltac:(lia)). pose proof (Hend 3%nat ltac:(lia)).
    pose proof (Hend 4%nat ltac:(lia)). pose proof (Hend 5%nat ltac:(lia)).
    unfold residue, base_size in *. dlia. }
  rewrite Hrest in E.
  assert (Z.of_nat (residue (acquirelimitpos s)) = acquirelimitpos s - 5 * base_size (acquirelimitpos s))
    as Hres by (unfold residue, base_size; dlia).
  assert (acquirelimitpos s = outputfilepos s + Z.of_nat (n + 5 * c + residue (acquirelimitpos s))) as HE by lia.
  pose proof (ri_limits _ Hi) as Hlim. change EFFECTIVE_RAIDPARTS with 5 in E.
  destruct (Nat.ltb_spec 0 (residue (acquirelimitpos s))) as [Hr|Hr].
  - pose proof (tail_ok_rolled s Hi Hend Hr (ri_file s Hi)) as Htail. fold c in Htail.
    rewrite (combineLastRaidLine_ok fb _ _ _ _ Htail) in E by (unfold residue; dlia).
    replace (5 * base_size (acquirelimitpos s)) with (outputfilepos s + Z.of_nat (n + 5 * c)) in E by lia.
    rewrite fsub_app in E. pose proof (fold_trim s (n + 5 * c + residue (acquirelimitpos s))) as Ht.
    cbv zeta in Ht. rewrite Ht in E. apply pair_equal_spec in E as [<- <-]. clear Ht.
    unfold combined. split_and!; try done; try lia; [|by rewrite <- HE].
    apply inv_assembly; try done; try lia.
    + unfold rollInputBuffers. by rewrite !length_fmap, (ri_parts _ Hi).
    + intros j Hj. unfold rollInputBuffers at 1. rewrite list_lookup_fmap.
      pose proof (rolled_lookup s c j Hj Hi) as Hroll.
      destruct (rollInputBuffers c (raidinputparts s) !! j) as [q|]; [|done].
      cbn [fmap option_fmap option_map default id from_option] in *. subst q.
      pose proof (rolled_out s Hi Hend j Hj) as Hout. fold c in Hout. by rewrite Hout.
    + unfold base_size in Hc. rewrite Hc. dlia.
    + simpl. lia.
  - assert (residue (acquirelimitpos s) = 0%nat) as Hr0 by lia. rewrite Hr0 in *.
    pose proof (fold_trim s (n + 5 * c)) as Ht. cbv zeta in Ht. rewrite Ht in E.
    apply pair_equal_spec in E as [<- <-]. clear Ht.
    unfold combined. split_and!; try done; try lia; [|by rewrite Nat.add_0_r in HE; rewrite <- HE].
    apply inv_assembly; try done; try lia.
    + unfold rollInputBuffers. by rewrite length_fmap, (ri_parts _ Hi).
    + intros j Hj. by apply rolled_queue.
    + unfold base_size in Hc. rewrite Hc. dlia.
    + simpl. lia.
Qed.

(** Whole lines are available but not the end: what lies past the client's
    boundary is held over. *)
Lemma combine_lines_step s s' out :
  raid_inv s -> process_to_end s = false ->
  (0 < common_len (front <$> raidinputparts s))%nat ->
  combineRaidParts s = (s', out) ->
  exists E, combined s s' out E.
Proof.
  intros Hi Hpe Hc0 E. unfold combineRaidParts in E. cbv zeta in E.
  fold (process_to_end s) in E. rewrite Hpe in E.
  pose proof (common_len_mod (front <$> raidinputparts s)) as Hcm.
  pose proof (common_len_base s Hi) as Hcb.
  pose proof (combine_full_ok s Hi) as Hfull. cbv zeta in Hfull.
  pose proof (fun j Hj => rolled_queue s _ j Hi Hj eq_refl) as Hroll.
  set (c := common_len (front <$> raidinputparts s)) in *.
  rewrite (proj2 (Nat.ltb_lt 0 c) Hc0) in E. cbn [orb andb negb] in E. rewrite Hfull in E.
  pose proof (ri_left _ Hi) as (Hd & Hl & Hp5 & Hop). pose proof (ri_pos _ Hi) as [Hp Hpm].
  set (n := length (leftover_bytes (leftoverchunk s))) in *. rewrite Hd in E.
  pose proof (ri_limits _ Hi) as Hlim. pose proof (acquire_nonneg s Hi) as HA.
  change EFFECTIVE_RAIDPARTS with 5 in E.
  assert (5 * base_size (acquirelimitpos s) <= acquirelimitpos s) as Hb5 by (unfold base_size; dlia).
  destruct (ri_base _ Hi) as [Hbase|(B & HB & HBr)]; [lia|].
  assert (outputfilepos s + Z.of_nat n + Z.of_nat c * 5 = outputfilepos s + Z.of_nat (n + 5 * c)) as Ea by lia.
  assert (outputfilepos s + Z.of_nat c * 5 + Z.of_nat n = outputfilepos s + Z.of_nat (n + 5 * c)) as Eb by lia.
  rewrite Ea, Eb in E. clear Ea Eb.
  set (op := outputfilepos s + Z.of_nat (n + 5 * c)) in *.
  assert (op = 5 * (raidpartspos s + Z.of_nat c)) as Hop5 by lia.
  assert (16 <= Z.of_nat c) as Hc16 by dlia.
  pose proof (calc_le op ltac:(lia)) as Hcle.
  pose proof (calc_mono B op ltac:(lia)) as Hcmono. rewrite HB in Hcmono.
  pose proof (calc_idem op ltac:(lia)) as Hcidem.
  assert (at_end s -> False) as Hne.
  { intros Hae. apply (process_to_end_spec s Hi) in Hae. congruence. }
  set (mc := calcOutputChunkPos op) in *. rewrite length_fsub in E.
  destruct (Z.ltb_spec mc op) as [Hlt|Hge].
  - rewrite take_fsub, drop_fsub, length_fsub in E.
    set (k := (n + 5 * c - Z.to_nat (op - mc))%nat) in *.
    replace (Nat.min k (n + 5 * c)) with k in E by lia.
    pose proof (fold_trim s k) as Ht. cbv zeta in Ht. rewrite Ht in E.
    apply pair_equal_spec in E as [<- <-]. clear Ht.
    assert (outputfilepos s + Z.of_nat k = mc) as Hk by (unfold op in *; lia). rewrite Hk.
    exists mc. unfold combined. split_and!; try done; try lia.
    + apply inv_assembly; try done; try lia.
      * unfold rollInputBuffers. by rewrite length_fmap, (ri_parts _ Hi).
      * dlia.
      * cbn [leftover_bytes pbuf]. rewrite length_fsub. f_equal. lia.
      * cbn [leftover_bytes pbuf]. rewrite length_fsub. lia.
      * right. exists mc. split; [done|lia].
    + right. unfold next_pos. simpl. lia.
  - pose proof (fold_trim s (n + 5 * c)) as Ht. cbv zeta in Ht. rewrite Ht in E.
    apply pair_equal_spec in E as [<- <-]. clear Ht. fold op.
    exists op. unfold combined. split_and!; try done; try lia.
    + apply inv_assembly; try done; try lia.
      * unfold rollInputBuffers. by rewrite length_fmap, (ri_parts _ Hi).
      * dlia.
      * simpl. lia.
      * right. exists mc. split; [done|lia].
    + right. unfold next_pos. simpl. rewrite length_fsub. unfold op in *. lia.
Qed.

Lemma combine_spec s s' out :
  raid_inv s -> combineRaidParts s = (s', out) -> exists E, combined s s' out E.
Proof.
  intros Hi E. destruct (process_to_end s) eqn:Hpe; [eexists; by apply combine_end|].
  destruct (Nat.ltb_spec 0 (common_len (front <$> raidinputparts s))) as [Hc|Hc];
    [by apply combine_lines_step|].
  exists (outputfilepos s). unfold combineRaidParts in E. cbv zeta in E.
  fold (process_to_end s) in E. rewrite Hpe, (proj2 (Nat.ltb_ge _ _) Hc) in E.
  cbn [orb] in E. apply pair_equal_spec in E as [<- <-]. by apply combine_idle.
Qed.

(** *** The other operations keep the invariant *)

Lemma queue_ok_snoc m A j p q pc :
  queue_ok m A j p q ->
  ppos pc = match last q with Some x => piece_end x | None => p end ->
  match pbuf pc with
  | Data d => d = fsub (part_byte fb j) (ppos pc) (length d)
  | Null _ => j = m
  end ->
  (0 < datalen (pbuf pc))%nat -> Z.of_nat (datalen (pbuf pc)) < 2 ^ 28 ->
  piece_end pc <= raidPartSize j A ->
  queue_ok m A j p (q ++ [pc]).
Proof.
  revert p. induction q as [|x q IH]; intros p Hq Hpos Hb Hn0 Hlt He.
  - simpl in Hpos. subst p. by split_and!.
  - destruct Hq as (Hx & Hxb & Hx0 & Hxl & Hxe & Hq). cbn [app queue_ok].
    split_and!; [done..|]. apply IH; try done. rewrite last_cons in Hpos. by destruct (last q).
Qed.

Lemma queue_ok_other m m' A j p q : queue_ok m A j p q -> j <> m -> queue_ok m' A j p q.
Proof.
  revert p. induction q as [|x q IH]; intros p Hq Hj; [done|].
  destruct Hq as (Hx & Hxb & Hx0 & Hxl & Hxe & Hq). cbn [queue_ok].
  split_and!; [done| |done..|auto]. by destruct (pbuf x).
Qed.

Lemma inv_transferPos s i p : raid_inv s -> raid_inv (set_transferPos i p s).
Proof. intros []. unfold set_transferPos. case_if; split; done. Qed.
Lemma inv_paused s v : raid_inv s -> raid_inv (set_connectionPaused v s).
Proof. intros []. split; done. Qed.
Lemma inv_errors s v : raid_inv s -> raid_inv (set_raidHttpGetErrorCount v s).
Proof. intros []. split; done. Qed.
Lemma inv_started s v : raid_inv s -> raid_inv (set_connectionStarted v s).
Proof. intros []. split; done. Qed.
Lemma inv_urls s v : raid_inv s -> raid_inv (set_tempurls v s).
Proof. intros []. split; done. Qed.
Lemma inv_requestpos s v : raid_inv s -> raid_inv (set_raidrequestpartpos v s).
Proof. intros []. split; done. Qed.

Lemma queue_insert s i q j :
  raid_inv s -> (i < RAIDPARTS)%nat ->
  queue j (set_raidinputparts (<[i := q]> (raidinputparts s)) s) = if decide (j = i) then q else queue j s.
Proof.
  intros Hi Hlt. unfold queue. simpl. case_decide as E.
  - subst. rewrite list_lookup_insert_eq by by rewrite (ri_parts _ Hi). done.
  - by rewrite list_lookup_insert_ne by congruence.
Qed.

Lemma inv_queue s i q :
  raid_inv s -> (i < RAIDPARTS)%nat ->
  queue_ok (unusedRaidConnection s) (acquirelimitpos s) i (raidpartspos s) q ->
  raid_inv (set_raidinputparts (<[i := q]> (raidinputparts s)) s).
Proof.
  intros Hi Hlt Hq. split; try (by destruct Hi).
  - simpl. rewrite length_insert. apply (ri_parts _ Hi).
  - intros j Hj. rewrite queue_insert by done. simpl.
    case_decide; [by subst|by apply (ri_queues _ Hi)].
Qed.

(** A submitted piece: bytes of the part, or a placeholder for the unused one. *)
Definition piece_ok (s : RaidBufferManager) (i : nat) (pc : FilePiece) : Prop :=
  match pbuf pc with
  | Data d => d = fsub (part_byte fb i) (ppos pc) (length d)
  | Null _ => i = unusedRaidConnection s
  end
  /\ (0 < datalen (pbuf pc))%nat /\ Z.of_nat (datalen (pbuf pc)) < 2 ^ 28
  /\ piece_end pc <= raidPartSize i (acquirelimitpos s).

Lemma submit_inv s i pc :
  raid_inv s -> (i < RAIDPARTS)%nat -> piece_ok s i pc -> raid_inv (submitBuffer i pc s).
Proof.
  intros Hi Hlt (Hb & Hn0 & Hl & He). unfold submitBuffer. rewrite (ri_raid _ Hi).
  set (s1 := if isNull (pbuf pc) then s else _).
  assert (raid_inv s1 /\ raidinputparts s1 = raidinputparts s /\ raidpartspos s1 = raidpartspos s
          /\ unusedRaidConnection s1 = unusedRaidConnection s
          /\ acquirelimitpos s1 = acquirelimitpos s) as (Hi1 & E1 & E2 & E3 & E4).
  { subst s1. destruct (isNull (pbuf pc)); [done|]. split; [by apply inv_errors|done]. }
  clearbody s1. destruct (Z.eqb_spec (ppos pc) (contiguouspos i s1)) as [Hpos|]; [|done].
  assert (raid_inv (set_transferPos i (piece_end pc) s1)) as Hi2 by by apply inv_transferPos.
  assert (raidinputparts (set_transferPos i (piece_end pc) s1) = raidinputparts s1
    /\ unusedRaidConnection (set_transferPos i (piece_end pc) s1) = unusedRaidConnection s1
    /\ acquirelimitpos (set_transferPos i (piece_end pc) s1) = acquirelimitpos s1
    /\ raidpartspos (set_transferPos i (piece_end pc) s1) = raidpartspos s1) as (G1 & G2 & G3 & G4).
  { unfold set_transferPos. by destruct (is_raid s1). }
  rewrite <- G1. apply inv_queue; [done..|]. rewrite G2, G3, G4.
  apply queue_ok_snoc; try done; [by apply (ri_queues _ Hi1)| |by rewrite E4].
  unfold piece_ok in Hb. destruct (pbuf pc); [done|]. by rewrite E3.
Qed.

Lemma nextNPos_inv s i :
  raid_inv s -> (i < RAIDPARTS)%nat -> raid_inv (nextNPosForConnection i s).1.1.1.
Proof.
  intros Hi Hlt. unfold nextNPosForConnection. rewrite (ri_raid _ Hi). cbn [negb].
  destruct (_ || _); [by apply inv_paused|].
  set (s1 := set_connectionPaused _ s). assert (raid_inv s1) as Hi1 by by apply inv_paused.
  assert (transferSize i s = raidPartSize i (acquirelimitpos s1)) as Hsz.
  { unfold transferSize. by rewrite (ri_raid _ Hi). }
  assert (transferPos i s = transferPos i s1) as -> by done.
  rewrite Hsz. pose proof (ri_lines _ Hi) as Hlines.
  change (raidLinesPerChunk s) with (raidLinesPerChunk s1) in *. clearbody s1.
  set (cur := transferPos i s1). set (mx := raidPartSize i (acquirelimitpos s1)).
  rewrite (wrapu_id 32) by (change RAIDSECTOR with 16; lia).
  set (n1 := Z.min (cur + raidLinesPerChunk s1 * RAIDSECTOR * 5) mx).
  change RAIDSECTOR with 16 in *.
  set (np := if mDisableAvoidSmallLastRequest s1 then _ else _).
  assert (cur < np -> np <= mx /\ np - cur < 2 ^ 28) as Hnp.
  { intros _. subst np. destruct (mDisableAvoidSmallLastRequest s1); [lia|].
    destruct (_ && _) eqn:E; [|lia]. unfold MIN_LAST_CHUNK, MAX_LAST_CHUNK in *.
    destruct (Z.ltb_spec n1 mx); [|done]. zbool. rewrite (wrapu_id 64) by lia.
    case_if; zbool; [|lia]. rewrite PaddedCBC.land_high. dlia. }
  clearbody np. destruct (_ && _) eqn:E; [|done]. cbn [fst].
  apply inv_transferPos, submit_inv; [done..|].
  apply andb_true_iff in E as [E1%Nat.eqb_eq E2%Z.ltb_lt].
  unfold piece_ok, piece_end. cbn [pbuf ppos datalen]. split_and!; [|lia..]. done.
Qed.

Lemma clear_inv s i : raid_inv s -> (i < RAIDPARTS)%nat -> raid_inv (clear_part i s).
Proof. intros Hi Hlt. apply inv_requestpos. by apply inv_queue. Qed.

Lemma queue_clear s i j :
  raid_inv s -> (i < RAIDPARTS)%nat -> queue j (clear_part i s) = if decide (j = i) then [] else queue j s.
Proof.
  intros Hi Hlt. change (queue j (clear_part i s))
    with (queue j (set_raidinputparts (<[i := []]> (raidinputparts s)) s)).
  by apply queue_insert.
Qed.

(** The unused connection may change when its queue holds no placeholders. *)
Lemma set_unused_inv s m :
  raid_inv s -> ((unusedRaidConnection s < RAIDPARTS)%nat -> queue (unusedRaidConnection s) s = []) ->
  raid_inv (set_unusedRaidConnection m s).
Proof.
  intros Hi He. split; try (by destruct Hi). intros j Hj.
  change (queue j (set_unusedRaidConnection m s)) with (queue j s). simpl.
  destruct (decide (j = unusedRaidConnection s)) as [->|Hne]; [by rewrite He|].
  eapply queue_ok_other; [by apply (ri_queues _ Hi)|done].
Qed.

(** Switching to another unused connection clears the old and the new one. *)
Lemma switch_inv s m :
  raid_inv s -> (m < RAIDPARTS)%nat ->
  let s1 := if (unusedRaidConnection s <? RAIDPARTS)%nat then clear_part (unusedRaidConnection s) s else s in
  raid_inv (set_unusedRaidConnection m (clear_part m s1)).
Proof.
  intros Hi Hm s1. assert (raid_inv s1) as Hi1.
  { subst s1. destruct (Nat.ltb_spec (unusedRaidConnection s) RAIDPARTS); [by apply clear_inv|done]. }
  apply set_unused_inv; [by apply clear_inv|].
  intros Hlt. change (unusedRaidConnection (clear_part m s1)) with (unusedRaidConnection s1) in *.
  rewrite queue_clear by done. case_decide; [done|].
  assert (unusedRaidConnection s1 = unusedRaidConnection s) as E by (subst s1; by case_if).
  rewrite E in *. subst s1. rewrite (proj2 (Nat.ltb_lt _ _) Hlt).
  rewrite queue_clear by done. by case_decide.
Qed.

End download.

(** ** Whole downloads *)

(** A client that passes pieces on as they are (a transfer, or a direct read
    before its decryption). *)
Definition plain_client (calc : Z -> Z) : RaidClient := {|
  finalize := id;
  calcOutputChunkPos := calc
|}.

Section trace.
Context (fb : Z -> Z) (calc : Z -> Z).
Local Instance client : RaidClient := plain_client calc.
Context `{!RaidClientLaws}.

(** The delivered pieces cover the range from [p] to [e] of the file in order. *)
Fixpoint tiled (p : Z) (t : list FilePiece) (e : Z) : Prop :=
  match t with
  | [] => e = p
  | pc :: t => ppos pc = p /\ (exists n, pbuf pc = Data (fsub fb p n)) /\ tiled (piece_end pc) t e
  end.

Definition total (p : Z) (t : list FilePiece) : Z :=
  p + foldr (fun pc n => Z.of_nat (datalen (pbuf pc)) + n) 0 t.

(** The operations of a download; a combination is only asked for while
    something of the range remains to be delivered. *)
Inductive dstep (R : Z) : RaidBufferManager * list FilePiece -> RaidBufferManager * list FilePiece -> Prop :=
| d_submit s t i pc :
    (i < RAIDPARTS)%nat -> isNull (pbuf pc) = false -> piece_ok fb s i pc ->
    dstep R (s, t) (submitBuffer i pc s, t)
| d_next s t i : (i < RAIDPARTS)%nat -> dstep R (s, t) ((nextNPosForConnection i s).1.1.1, t)
| d_combine s t s' out :
    total R t < deliverlimitpos s -> combineRaidParts s = (s', out) ->
    dstep R (s, t) (s', t ++ option_list out)
| d_recover s t now i inc faulty :
    (i < RAIDPARTS)%nat -> dstep R (s, t) ((tryRaidHttpGetErrorRecovery now i inc faulty s).1.2, t)
| d_slowest s t i slowest :
    dstep R (s, t) ((detectSlowestRaidConnection i slowest s).2, t)
| d_unused s t i : dstep R (s, t) ((setUnusedRaidConnection i s).2, t)
| d_urls s t urls : dstep R (s, t) (updateUrlsAndResetPos urls s, t)
| d_reset s t now i faulty : dstep R (s, t) ((resetPart now i faulty s).1, t).

Definition trace_inv (R limit : Z) (st : RaidBufferManager * list FilePiece) : Prop :=
  raid_inv fb st.1 /\ deliverlimitpos st.1 = limit
  /\ exists e, tiled R st.2 e /\ e <= limit /\ (e = limit \/ e = next_pos st.1).

Lemma tiled_total p t e : tiled p t e -> total p t = e.
Proof.
  revert p. induction t as [|pc t IH]; intros p Ht; unfold total; simpl.
  - simpl in Ht. lia.
  - destruct Ht as (Hp & _ & Ht). specialize (IH _ Ht). unfold total, piece_end in *. lia.
Qed.

Lemma tiled_snoc p t e n :
  tiled p t e -> tiled p (t ++ [MkPiece e (Data (fsub fb e n))]) (e + Z.of_nat n).
Proof.
  revert p. induction t as [|pc t IH]; intros p Ht.
  - simpl in Ht. subst e. cbn [app tiled ppos pbuf]. split_and!; [done|eauto|].
    unfold piece_end. cbn [ppos pbuf datalen]. by rewrite length_fsub.
  - destruct Ht as (Hp & Hb & Ht). cbn [app tiled]. split_and!; [done|done|]. by apply IH.
Qed.

Lemma tiled_range p t e e' :
  tiled p t e -> tiled p (t ++ option_list (finalize <$> range_piece fb e e')) (Z.max e e').
Proof.
  intros Ht. unfold range_piece. destruct (Z.ltb_spec e e') as [Hlt|Hge].
  - cbn [fmap option_fmap option_map option_list]. change (finalize ?x) with x.
    replace (Z.max e e') with (e + Z.of_nat (Z.to_nat (e' - e))) by lia. by apply tiled_snoc.
  - cbn. rewrite app_nil_r. by replace (Z.max e e') with e by lia.
Qed.

(** Operations that leave the output side alone. *)
Definition same_out (s s' : RaidBufferManager) : Prop :=
  deliverlimitpos s' = deliverlimitpos s /\ outputfilepos s' = outputfilepos s
  /\ resumewastedbytes s' = resumewastedbytes s.

Lemma same_out_transferPos s i p : same_out s (set_transferPos i p s).
Proof. unfold set_transferPos. by case_if. Qed.

Lemma same_out_trans s1 s2 s3 : same_out s1 s2 -> same_out s2 s3 -> same_out s1 s3.
Proof. intros (A1 & A2 & A3) (B1 & B2 & B3). split_and!; congruence. Qed.

Lemma same_out_submit s i pc : is_raid s = true -> same_out s (submitBuffer i pc s).
Proof.
  intros Hr. unfold submitBuffer. rewrite Hr. set (s1 := if isNull _ then s else _).
  assert (same_out s s1) as H1 by (subst s1; by case_if). clearbody s1. case_if; [|done].
  apply (same_out_trans _ s1); [done|]. apply (same_out_transferPos s1).
Qed.

Lemma same_out_next s i : is_raid s = true -> same_out s (nextNPosForConnection i s).1.1.1.
Proof.
  intros Hr. unfold nextNPosForConnection. rewrite Hr. cbn [negb].
  destruct (_ || _); [done|]. destruct (_ && _); [|done]. cbn [fst].
  eapply same_out_trans; [|apply same_out_transferPos].
  apply (same_out_trans _ (set_connectionPaused (<[i:=false]> (connectionPaused s)) s)); [done|].
  by apply same_out_submit.
Qed.

Lemma same_out_clear s i : same_out s (clear_part i s).
Proof. done. Qed.

Lemma trace_same R limit s s' t :
  trace_inv R limit (s, t) -> raid_inv fb s' -> same_out s s' -> trace_inv R limit (s', t).
Proof.
  intros (_ & Hl & e & Ht & He & Hn) Hi (E1 & E2 & E3). split_and!; simpl in *; [done|congruence|].
  exists e. split_and!; [done..|]. unfold next_pos in *. simpl. by rewrite E2, E3.
Qed.

Lemma trace_combine R limit s t s' out :
  trace_inv R limit (s, t) -> total R t < limit -> combineRaidParts s = (s', out) ->
  trace_inv R limit (s', t ++ option_list out)
  /\ (at_end s -> total R (t ++ option_list out) = limit).
Proof.
  intros (Hi & Hl & e & Ht & He & Hn) Hlt Hc. simpl in *.
  rewrite (tiled_total _ _ _ Ht) in Hlt. destruct Hn as [?|Hn]; [lia|].
  destruct (combine_spec fb s s' out Hi Hc) as (E & Hi' & HE & -> & Hnext & Hend & Hlim).
  pose proof (tiled_range _ _ _ (Z.min E (deliverlimitpos s)) Ht) as Ht'. rewrite <- Hn in *.
  pose proof (ri_limits _ _ Hi) as Hlims.
  assert (raid_inv fb s' /\ deliverlimitpos s' = limit) as [Hs' Hd'] by (split; [done|congruence]).
  split.
  - split_and!; [done..|]. eexists. split; [exact Ht'|]. cbn [fst]. rewrite Hl in *.
    split; [lia|]. destruct Hnext as [->|Hnext]; [left; lia|].
    destruct (decide (Z.max e (Z.min E limit) = limit)); [by left|right; lia].
  - intros Hae. rewrite (tiled_total _ _ _ Ht'), (Hend Hae), Hl. lia.
Qed.

Lemma dstep_inv R limit st st' : trace_inv R limit st -> dstep R st st' -> trace_inv R limit st'.
Proof.
  intros Hinv Hstep.
  destruct Hstep as [s t i pc Hi Hnull Hpc|s t i Hi|s t s' out Hlt Hc|s t now i inc faulty Hi
    |s t i slowest|s t i|s t urls|s t now i faulty];
    pose proof (ri_raid _ _ (proj1 Hinv)) as Hraid; cbn [fst] in Hraid.
  - apply (trace_same _ _ s); [done|by apply submit_inv; [apply Hinv|..]|by apply same_out_submit].
  - apply (trace_same _ _ s); [done|by apply nextNPos_inv; [apply Hinv|]|by apply same_out_next].
  - eapply trace_combine; [done| |done]. destruct Hinv as (_ & Hl & _). simpl in Hl. lia.
  - unfold tryRaidHttpGetErrorRecovery. cbv zeta. set (s1 := if inc then _ else s).
    assert (raid_inv fb s1) as Hi1 by (subst s1; destruct inc; [by apply inv_errors, Hinv|apply Hinv]).
    assert (same_out s s1) as Hs1 by (subst s1; by destruct inc). clearbody s1.
    case_if; cbn [fst snd]; [|by apply (trace_same _ _ s)].
    apply (trace_same _ _ s); [done|by apply switch_inv|].
    apply (same_out_trans _ s1); [done|]. by destruct (_ <? _)%nat.
  - unfold detectSlowestRaidConnection. destruct (_ && _) eqn:E; [|done].
    apply andb_true_iff in E as [_ E%Nat.eqb_eq].
    destruct (unstarted _ _) as [count sl]. destruct (_ =? _)%nat; cbn [snd].
    + apply (trace_same _ _ s); [done| |done]. apply inv_requestpos, set_unused_inv.
      * apply inv_started, Hinv.
      * simpl. rewrite E. intros Hlt. by apply Nat.lt_irrefl in Hlt.
    + apply (trace_same _ _ s); [done|apply inv_started, Hinv|done].
  - unfold setUnusedRaidConnection. destruct (_ && _) eqn:E; [|done].
    apply andb_true_iff in E as [_ E%Nat.ltb_lt]. cbn [snd].
    apply (trace_same _ _ s); [done|apply switch_inv; [apply Hinv|done]|]. by destruct (_ <? _)%nat.
  - unfold updateUrlsAndResetPos. destruct (_ =? _)%nat; [|done].
    assert (forall l s1, trace_inv R limit (s1, t) ->
      trace_inv R limit (foldr (fun i s => set_transferPos i (contiguouspos i s) s) s1 l, t)) as Hfold.
    { intros l s1 H1. induction l as [|i l IH]; [done|]. simpl.
      apply (trace_same _ _ (foldr (fun i s => set_transferPos i (contiguouspos i s) s) s1 l)); [done|..].
      - apply inv_transferPos, IH.
      - apply same_out_transferPos. }
    assert (trace_inv R limit (set_tempurls urls s, t)) as H1.
    { apply (trace_same _ _ s); [done|apply inv_urls, Hinv|done]. }
    case_if; [by apply Hfold|].
    apply (trace_same _ _ (set_tempurls urls s)); [done|apply inv_transferPos, H1|].
    apply same_out_transferPos.
  - unfold resetPart. cbn [fst].
    apply (trace_same _ _ s); [done|apply inv_transferPos, Hinv|apply same_out_transferPos].
Qed.

Lemma setIsRaid_inv now urls R limit filesize maxreq faulty :
  length urls = RAIDPARTS -> 0 <= R <= limit -> limit <= filesize -> calc R = R ->
  (forall x, filesize <= x -> fb x = 0) ->
  trace_inv R limit ((setIsRaid now urls R limit filesize maxreq false faulty init).1, []).
Proof.
  intros Hu HR Hf Hc Hz. unfold setIsRaid. rewrite Hu, Nat.eqb_refl. cbn [andb orb negb init is_raid is_newRaid].
  change EFFECTIVE_RAIDPARTS with 5. change RAIDSECTOR with 16. change RAIDLINE with 80.
  rewrite (Z.quot_div_nonneg R 5), (Z.rem_mod_nonneg (R / 5) 16), (Z.rem_mod_nonneg (limit + 80 - 1) 80) by dlia.
  destruct (FaultyServers.selectWorstServer _ _ _) as [worst faulty']. cbn [fst].
  assert (R / 5 - (R / 5) mod 16 = 16 * (R / 80)) as -> by dlia.
  set (lines := wrapu 32 _). set (A := Z.min _ filesize).
  assert (limit <= A <= filesize /\ (A = filesize \/ A mod 80 = 0)) as [HA HAm] by (subst A; dlia).
  assert (0 <= 16 * (R / 80) <= base_size A) as Hb by (unfold base_size; dlia).
  split_and!; [split; simpl; try done; try lia|done|].
  - intros j Hj. unfold queue. simpl. unfold RAIDPARTS in *.
    destruct j as [|[|[|[|[|[|j]]]]]]; (done || lia).
  - dlia.
  - split_and!; [done|done|simpl; lia|dlia].
  - right. exists R. split; [done|dlia].
  - exists R. split_and!; [done|lia|]. right. unfold next_pos. simpl. dlia.
Qed.

End trace.

(** C1: a raid download delivers the requested range of the file: from a fresh
    manager, whatever the order in which pieces of the parts arrive, whichever
    connection is unused, fails or is replaced, the pieces delivered so far are
    consecutive and hold the bytes of the file from the resume position on; and
    once all parts have reached their ends, one more combination delivers the
    rest of the range. *)
Theorem raid_download (fb calc : Z -> Z) (now : Z) (urls : list bytes)
    (R limit filesize maxreq : Z) (faulty : FaultyServers.Map)
    (s : RaidBufferManager) (t : list FilePiece) :
  @RaidClientLaws (plain_client calc) ->
  length urls = RAIDPARTS -> 0 <= R <= limit -> limit <= filesize -> calc R = R ->
  (forall x, filesize <= x -> fb x = 0) ->
  rtc (dstep fb calc R) ((setIsRaid now urls R limit filesize maxreq false faulty init).1, []) (s, t) ->
  (exists e, tiled fb R t e /\ R <= e <= limit)
  /\ (at_end s -> total R t < limit ->
      let '(s', out) := @combineRaidParts (plain_client calc) s in
      tiled fb R (t ++ option_list out) limit).
Proof.
  intros Hlaws Hu HR Hf Hc Hz Hrtc.
  assert (trace_inv fb calc R limit (s, t)) as Hinv.
  { pose proof (setIsRaid_inv fb calc now urls R limit filesize maxreq faulty Hu HR Hf Hc Hz) as H0.
    revert H0. clear -Hrtc Hlaws. induction Hrtc as [st|st st1 st2 Hs _ IH]; intros H0; [done|].
    apply IH. by eapply dstep_inv. }
  split.
  - destruct Hinv as (Hi & Hl & e & Ht & He & _). exists e. split_and!; [done| |done].
    rewrite <- (tiled_total _ _ _ _ Ht). unfold total. simpl. clear.
    assert (0 <= foldr (fun pc n => Z.of_nat (datalen (pbuf pc)) + n) 0 t); [|lia].
    induction t; simpl; lia.
  - intros Hae Hlt. destruct (combineRaidParts s) as [s' out] eqn:E.
    destruct (trace_combine fb calc R limit s t s' out Hinv Hlt E) as [(_ & _ & e & Ht & _) Hend].
    simpl in Ht. rewrite <- (Hend Hae), (tiled_total _ _ _ _ Ht). done.
Qed.

(** Transfers deliver up to chunk boundaries. *)
Lemma transfer_laws : @RaidClientLaws TransferBufferManager.
Proof.
  split; cbn [calcOutputChunkPos TransferBufferManager].
  - intros x Hx. destruct (ChunkedHash.chunk_spec x Hx). lia.
  - intros x y Hxy. destruct (ChunkedHash.chunk_spec x ltac:(lia)) as [Hcx Hx].
    destruct (ChunkedHash.chunk_spec y ltac:(lia)) as [Hcy Hy].
    destruct (decide (ChunkedHash.chunkfloor x <= ChunkedHash.chunkfloor y)) as [|Hgt]; [done|].
    destruct (ChunkedHash.is_chunk_at _ _ x Hcy ltac:(lia)) as [E _]. lia.
  - intros x Hx. destruct (ChunkedHash.chunk_spec x Hx) as [Hcx Hb].
    pose proof (ChunkedHash.is_chunk_size _ _ Hcx).
    by destruct (ChunkedHash.is_chunk_at _ _ (ChunkedHash.chunkfloor x) Hcx ltac:(unfold ChunkedHash.SEGSIZE in *; lia)).
Qed.

Lemma raid_download_witness :
  let fb := fun x => if (0 <=? x) && (x <? 100) then 100 - x else 0 in
  let s0 := (setIsRaid 0 (replicate 6 []) 0 100 100 1000000 false [] init).1 in
  let s := @submitBuffer (plain_client ChunkedHash.chunkfloor) 1
             (MkPiece 0 (Data (fsub (part_byte fb 1) 0 32))) (setUnusedRaidConnection 2 s0).2 in
  (exists e, tiled fb 0 [] e /\ 0 <= e <= 100)
  /\ (at_end s -> total 0 [] < 100 ->
      let '(s', out) := @combineRaidParts (plain_client ChunkedHash.chunkfloor) s in
      tiled fb 0 ([] ++ option_list out) 100).
Proof.
  intros fb s0 s.
  apply (raid_download fb ChunkedHash.chunkfloor 0 (replicate 6 []) 0 100 100 1000000 [] s []).
  - exact transfer_laws.
  - reflexivity.
  - lia.
  - lia.
  - reflexivity.
  - intros x Hx. subst fb. cbn beta. rewrite (proj2 (Z.ltb_ge _ _)) by lia. by rewrite andb_false_r.
  - eapply rtc_l; [apply (d_unused _ _ _ _ _ 2)|]. apply rtc_once.
    apply d_submit; [unfold RAIDPARTS; lia|reflexivity|].
    unfold piece_ok. split_and!; [reflexivity|vm_compute; lia|vm_compute; reflexivity|].
    vm_compute. congruence.
Defined.

(** ** Servers that failed recently *)

Definition fail_time (fails : FaultyServers.Map) (urls : list bytes) (i : nat) : option Z :=
  omap_find (FaultyServers.server (default [] (urls !! i))) fails.

Lemma worst_loop_spec fails urls i w wt :
  let r := FaultyServers.worst_loop fails urls i w wt in
  (r = w /\ (forall k t, (k < i)%nat -> fail_time fails urls k = Some t -> t <= wt))
  \/ ((r < i)%nat /\ exists t, fail_time fails urls r = Some t /\ wt < t
      /\ forall k t', (k < i)%nat -> fail_time fails urls k = Some t' -> t' <= t).
Proof.
  revert w wt. induction i as [|i IH]; intros w wt r; [left; split; [done|intros; lia]|].
  assert (forall k, (k < S i)%nat -> k = i \/ (k < i)%nat) as Hk by lia.
  unfold r. cbn [FaultyServers.worst_loop]. fold (fail_time fails urls i).
  destruct (fail_time fails urls i) as [t|] eqn:E; [destruct (Z.ltb_spec wt t) as [Hlt|Hge]|].
  - destruct (IH i t) as [[-> Hall]|(Hr & t1 & H1 & H2 & Hall)].
    + right. split; [lia|]. exists t. split_and!; [done|done|].
      intros k t' [->|Hki]%Hk Hkt; [by simplify_eq|eauto].
    + right. split; [lia|]. exists t1. split_and!; [done|lia|].
      intros k t' [->|Hki]%Hk Hkt; [simplify_eq; lia|eauto].
  - destruct (IH w wt) as [[-> Hall]|(Hr & t1 & H1 & H2 & Hall)].
    + left. split; [done|]. intros k t' [->|Hki]%Hk Hkt; [simplify_eq; lia|eauto].
    + right. split; [lia|]. exists t1. split_and!; [done|lia|].
      intros k t' [->|Hki]%Hk Hkt; [simplify_eq; lia|eauto].
  - destruct (IH w wt) as [[-> Hall]|(Hr & t1 & H1 & H2 & Hall)].
    + left. split; [done|]. intros k t' [->|Hki]%Hk Hkt; [congruence|eauto].
    + right. split; [lia|]. exists t1. split_and!; [done|lia|].
      intros k t' [->|Hki]%Hk Hkt; [congruence|eauto].
Qed.

(** The server left out at the start of a raid download is the one of the six
    URLs that failed last, if that was less than ten hours ago; otherwise none
    is left out; records older than ten hours are forgotten, others kept. *)
Theorem worst_server (now : Z) (urls : list bytes) (fails : FaultyServers.Map) :
  length urls = RAIDPARTS ->
  let '(w, fails') := FaultyServers.selectWorstServer now urls fails in
  ((w < RAIDPARTS)%nat /\ (exists t, fail_time fails urls w = Some t /\ now - 36000 < t
      /\ forall k t', (k < RAIDPARTS)%nat -> fail_time fails urls k = Some t' -> t' <= t)
   \/ w = RAIDPARTS
      /\ forall k t, (k < RAIDPARTS)%nat -> fail_time fails urls k = Some t -> t <= now - 36000)
  /\ forall e, e ∈ fails' <-> e ∈ fails /\ now - 36000 <= e.2.
Proof.
  intros Hl. unfold FaultyServers.selectWorstServer. change (10 * 3600) with 36000. split.
  - destruct fails as [|f fails]; [right; split; [done|]; intros k t Hk Hf; discriminate Hf|].
    pose proof (worst_loop_spec (f :: fails) urls (length urls) RAIDPARTS (now - 36000)) as Hw.
    cbv zeta in Hw. rewrite Hl in *. destruct Hw as [[-> H]|[Hlt H]]; [by right|by left].
  - intros e. rewrite list_elem_of_filter. tauto.
Qed.

Lemma worst_server_witness :
  let urls := [str "http://a/1"; str "http://b/2"; str "http://c/3"; str "http://d/4";
               str "http://e/5"; str "http://f/6"] in
  let fails := FaultyServers.add 90000 (str "http://c/9") (FaultyServers.add 95000 (str "http://e/x") []) in
  let '(w, fails') := FaultyServers.selectWorstServer 100000 urls fails in
  ((w < RAIDPARTS)%nat /\ (exists t, fail_time fails urls w = Some t /\ 100000 - 36000 < t
      /\ forall k t', (k < RAIDPARTS)%nat -> fail_time fails urls k = Some t' -> t' <= t)
   \/ w = RAIDPARTS
      /\ forall k t, (k < RAIDPARTS)%nat -> fail_time fails urls k = Some t -> t <= 100000 - 36000)
  /\ forall e, e ∈ fails' <-> e ∈ fails /\ 100000 - 36000 <= e.2.
Proof. apply worst_server. reflexivity. Defined.
