(* ===== verification/Files.v ===== *)
(** * File access and input streams

    [FileAccess] (mega/filesystem.h, src/filesystem.cpp) with the POSIX reads
    of src/posix/fs.cpp, and the [InputStreamAccess] interface
    (mega/filefingerprint.h) with its implementation [FileInputStream]
    (src/filesystem.cpp).  The operating system is a parameter: what [pread],
    [stat] and [open] answer for the file. *)

From S2P Require Import Prelude.
Local Open Scope Z_scope.

(** The system calls on one file: [pread len off] is the error number or the
    bytes read, [os_stat] its modification time and size. *)
Record OSFile := MkOSFile {
  os_pread : Z -> Z -> Z + bytes;
  os_stat : option (Z * Z);
  os_open : bool
}.

Definition EIO : Z := 5.

Record FileAccess := MkFileAccess {
  fa_size : Z;
  fa_mtime : Z;
  fa_nonblocking : bool;   (* nonblocking_localname is not empty *)
  fa_retry : bool;
  fa_errorcode : Z
}.

Definition set_errorcode (e : Z) (fa : FileAccess) : FileAccess :=
  MkFileAccess (fa_size fa) (fa_mtime fa) (fa_nonblocking fa) (fa_retry fa) e.
Definition set_retry (r : bool) (fa : FileAccess) : FileAccess :=
  MkFileAccess (fa_size fa) (fa_mtime fa) (fa_nonblocking fa) r (fa_errorcode fa).
Definition set_stat (mtime size : Z) (fa : FileAccess) : FileAccess :=
  MkFileAccess size mtime (fa_nonblocking fa) (fa_retry fa) (fa_errorcode fa).

Section os.
Context (os : OSFile).

(** [mega::sysread] and [PosixFileAccess::sysread]: the bytes when all of them
    were read, and the error code left in the object. *)
Definition sysread (fa : FileAccess) (length offset : Z) : option bytes * FileAccess :=
  let fa := set_retry false fa in
  match os_pread os length offset with
  | inl errno => (None, set_errorcode errno fa)
  | inr d =>
      if zlength d =? length then (Some d, set_errorcode 0 fa)
      else (None, set_errorcode EIO fa)
  end.

(** [FileAccess::openf]: a file opened in nonblocking mode must still have the
    size and time it had then. *)
Definition openf (fa : FileAccess) : bool * FileAccess :=
  if negb (fa_nonblocking fa) then (true, fa)
  else
    match os_stat os with
    | None => (false, fa)
    | Some (mtime, size) =>
        if negb (mtime =? fa_mtime fa) || negb (size =? fa_size fa)
        then (false, set_retry false (set_stat mtime size fa))
        else (os_open os, fa)
    end.

(** [FileAccess::frawread] *)
Definition frawread (fa : FileAccess) (length offset : Z) (alreadyOpened : bool)
    : option bytes * FileAccess :=
  let '(ok, fa) := if alreadyOpened then (true, fa) else openf fa in
  if ok then sysread fa length offset else (None, fa).

End os.

(** [InputStreamAccess]: [is_read] is [read(buffer, n)], [is_skip] is
    [read(nullptr, n)]. *)
Class InputStream (S : Type) := {
  is_size : S -> Z;
  is_read : S -> Z -> option bytes * S;
  is_skip : S -> Z -> bool * S
}.

Record FileInputStream := MkFileInputStream { fileAccess : FileAccess; fis_offset : Z }.

Module FileInputStreamOps.

(** The constructor. *)
Definition open (fa : FileAccess) : FileInputStream := MkFileInputStream fa 0.

Definition size (s : FileInputStream) : Z := fa_size (fileAccess s).

Definition skip (s : FileInputStream) (n : Z) : bool * FileInputStream :=
  if fis_offset s + n <=? fa_size (fileAccess s)
  then (true, MkFileInputStream (fileAccess s) (fis_offset s + n))
  else (false, s).

Definition read (os : OSFile) (s : FileInputStream) (n : Z) : option bytes * FileInputStream :=
  match frawread os (fileAccess s) n (fis_offset s) true with
  | (Some d, fa) => (Some d, MkFileInputStream fa (fis_offset s + n))
  | (None, fa) => (None, MkFileInputStream fa (fis_offset s))
  end.

Definition stream (os : OSFile) : InputStream FileInputStream :=
  {| is_size := size; is_read := read os; is_skip := skip |}.

End FileInputStreamOps.

(** ** Facts *)

Lemma sysread_length os fa n off d fa' :
  sysread os fa n off = (Some d, fa') -> zlength d = n.
Proof.
  unfold sysread. destruct (os_pread os n off); [done|]. case_if; intros; simplify_eq. by zbool.
Qed.

Lemma sysread_size os fa n off : fa_size (sysread os fa n off).2 = fa_size fa.
Proof. unfold sysread. destruct (os_pread os n off); [done|]. by case_if. Qed.

Lemma frawread_length os fa n off d fa' :
  frawread os fa n off true = (Some d, fa') -> zlength d = n.
Proof. apply sysread_length. Qed.

Lemma frawread_size os fa n off r fa' :
  frawread os fa n off true = (r, fa') -> fa_size fa' = fa_size fa.
Proof. intros E. pose proof (sysread_size os fa n off) as H. unfold frawread in E. by rewrite E in H. Qed.

(** An ordinary file: every read inside it succeeds, a read past its end is
    short. *)
Definition plain_file (content : bytes) : OSFile := {|
  os_pread n off := inr (substr content (Z.to_nat off) (Z.to_nat n));
  os_stat := None;
  os_open := true
|}.

Definition plain_access (content : bytes) (mtime : Z) : FileAccess :=
  MkFileAccess (zlength content) mtime false false 0.

Lemma length_substr {A} (l : list A) i n :
  (i + n <= length l)%nat -> length (substr l i n) = n.
Proof. intros. unfold substr. rewrite length_take, length_drop. lia. Qed.

Lemma plain_read content fa n off :
  0 <= n -> 0 <= off -> off + n <= zlength content ->
  frawread (plain_file content) fa n off true
  = (Some (substr content (Z.to_nat off) (Z.to_nat n)), set_errorcode 0 (set_retry false fa)).
Proof.
  intros. unfold frawread, sysread. simpl. rewrite length_substr by lia.
  by rewrite (proj2 (Z.eqb_eq _ _)) by lia.
Qed.
