(* ===== verification/Fingerprint.v ===== *)
(** * Sparse file fingerprints

    src/filefingerprint.cpp and the legacy CRC of src/utils.cpp: the record,
    its comparisons and orders, its two serializations, and its generation from
    a file or from a forward-only stream.  CRC32 is Crypto++'s and a parameter;
    the operating system's part of reading is a parameter of [Files]. *)

From S2P Require Import Prelude OMap Encoding Serialize Files.
Local Open Scope Z_scope.

(** The digest of the bytes a [CryptoPP::CRC32] was updated with. *)
Class CRC32 := crc32_digest : bytes -> bytes.

(** [HashCRC32]: the bytes added since the last [get] ([Final] restarts). *)
Module HashCRC32.
Definition t : Type := bytes.
Definition init : t := [].
Definition add (h : t) (data : bytes) : t := h ++ data.
Definition get `{CRC32} (h : t) : bytes * t := (crc32_digest h, []).
End HashCRC32.

(** [htonl] on the supported platforms: the bytes swapped. *)
Definition htonl (x : Z) : Z := le_value (rev (le_bytes 4 x)).

Definition FS_MTIME_TOLERANCE_SECS : Z := 2.
Definition MAXFULL : Z := 8192.
Definition CRC_SIZE : Z := 16.      (* sizeof crc *)
Definition CRC_COUNT : Z := 4.      (* crc.size() *)

(** [crc] is the object representation of the four words. *)
Record FileFingerprint := MkFileFingerprint {
  size : Z;
  mtime : Z;
  crc : bytes;
  isvalid : bool
}.

Module FP.

(** The default member initialisers. *)
Definition init : FileFingerprint := MkFileFingerprint (-1) 0 (replicate 16 0) false.

Definition set_size (v : Z) (f : FileFingerprint) := MkFileFingerprint v (mtime f) (crc f) (isvalid f).
Definition set_mtime (v : Z) (f : FileFingerprint) := MkFileFingerprint (size f) v (crc f) (isvalid f).
Definition set_crc (v : bytes) (f : FileFingerprint) := MkFileFingerprint (size f) (mtime f) v (isvalid f).
Definition set_isvalid (v : bool) (f : FileFingerprint) := MkFileFingerprint (size f) (mtime f) (crc f) v.

(** ** Comparisons *)

Definition same_crc (a b : bytes) : bool := bool_decide (a = b).

Definition eq (lhs rhs : FileFingerprint) : bool :=
  if negb (size lhs =? size rhs) then false
  else if FS_MTIME_TOLERANCE_SECS <? Z.abs (mtime lhs - mtime rhs) then false
  else if negb (isvalid lhs) || negb (isvalid rhs) then false
  else same_crc (crc lhs) (crc rhs).

Definition neq (lhs rhs : FileFingerprint) : bool := negb (eq lhs rhs).

Definition EqualExceptValidFlag (this rhs : FileFingerprint) : bool :=
  if negb (size this =? size rhs) then false
  else if FS_MTIME_TOLERANCE_SECS <? Z.abs (mtime this - mtime rhs) then false
  else same_crc (crc this) (crc rhs).

Definition equalExceptMtime (this rhs : FileFingerprint) : bool :=
  if negb (size this =? size rhs) then false
  else if negb (isvalid this) || negb (isvalid rhs) then false
  else same_crc (crc this) (crc rhs).

Definition equalExceptMtimeAndIsValid (this rhs : FileFingerprint) : bool :=
  same_crc (crc this) (crc rhs) && (size this =? size rhs).

(** [FileFingerprintCmp] and [FileFingerprintCmpNoMtime]; [memcmp] orders the
    CRCs as unsigned bytes. *)
Definition cmp (a b : FileFingerprint) : bool :=
  if size a <? size b then true
  else if size b <? size a then false
  else if mtime a <? mtime b then true
  else if mtime b <? mtime a then false
  else bytes_ltb (crc a) (crc b).

Definition cmp_no_mtime (a b : FileFingerprint) : bool :=
  if size a <? size b then true
  else if size b <? size a then false
  else bytes_ltb (crc a) (crc b).

(** ** Serialization *)

Definition serialize (f : FileFingerprint) (d : bytes) : bytes :=
  d ++ le_bytes 8 (size f) ++ le_bytes 8 (mtime f) ++ crc f ++ [Z.b2z (isvalid f)].

Definition serializeExcludingMtime (f : FileFingerprint) (d : bytes) : bytes :=
  d ++ le_bytes 8 (size f) ++ crc f ++ [Z.b2z (isvalid f)].

(** [ptr] is the rest of the input; the new fingerprint and the advanced
    pointer, or the null pointer. *)
Definition unserialize (ptr : bytes) : option (FileFingerprint * bytes) :=
  if zlength ptr <? 8 + 8 + 4 * 4 + 1 then None
  else
    let fp := init in
    let fp := set_size (s64 (le_value (take 8 ptr))) fp in
    let ptr := drop 8 ptr in
    let fp := set_mtime (s64 (le_value (take 8 ptr))) fp in
    let ptr := drop 8 ptr in
    let fp := set_crc (take 16 ptr) fp in
    let ptr := drop 16 ptr in
    let fp := set_isvalid (negb (cchar ptr =? 0)) fp in
    Some (fp, drop 1 ptr).

(** The string form stored in node attributes: base64 of the CRC and the
    compressed time. *)
Definition serializefingerprint (f : FileFingerprint) : bytes :=
  Base64.btoa (crc f ++ Serialize64.serialize (u64 (mtime f))).

Definition unserializefingerprint (d : bytes) (f : FileFingerprint) : bool * FileFingerprint :=
  match Base64.atob d (16 + 8 + 1) with
  | Some buf =>
      let l := zlength buf in
      if l <? 16 + 1 then (false, f)
      else
        match Serialize64.unserialize (drop 16 buf) (l - 16) with
        | None => (false, f)
        | Some (t, _) => (true, set_isvalid true (set_mtime (s64 t) (set_crc (take 16 buf) f)))
        end
  | None => (false, f)
  end.

(** ** Generation *)

(** [legacySparseOffset32Bug] (utils.cpp): the product is taken modulo 2^32. *)
Definition LEGACY_CRC_WINDOW_BYTES : Z := 64.
Definition LEGACY_CRC_LANES : Z := 4.
Definition LEGACY_CRC_BLOCKS_PER_LANE : Z := 32.
Definition LEGACY_SPARSE_DENOM : Z := LEGACY_CRC_LANES * LEGACY_CRC_BLOCKS_PER_LANE - 1.
Definition LEGACY_OVERFLOW_MIN_SIZE : Z := (2 ^ 32 - 1) / LEGACY_SPARSE_DENOM + LEGACY_CRC_WINDOW_BYTES.

Definition legacySparseOffset32Bug (size lane block : Z) : Z :=
  let sizeU64 := u64 size in
  let clampMax := u64 (sizeU64 - LEGACY_CRC_WINDOW_BYTES) in
  let sz32 := u32 sizeU64 in
  let idx32 := u32 (u32 (lane * LEGACY_CRC_BLOCKS_PER_LANE) + block) in
  let numer := u32 (u32 (sz32 - LEGACY_CRC_WINDOW_BYTES) * idx32) in
  let off32 := if LEGACY_SPARSE_DENOM =? 0 then 0 else numer / LEGACY_SPARSE_DENOM in
  s64 (if clampMax <? off32 then clampMax else off32).

(** [computeSparseOffset64]; [useLegacy] is the test hook of debug builds,
    false everywhere else. *)
Definition computeSparseOffset64 (useLegacy : bool) (size lane_i block_j blocks crcCount blockBytes : Z) : Z :=
  if useLegacy then legacySparseOffset32Bug size lane_i block_j
  else
    let sz := u64 size in
    let idx64 := u64 (u64 (lane_i * blocks) + block_j) in
    let numer := u64 (u64 (sz - blockBytes) * idx64) in
    let denom := u64 (u64 (crcCount * blocks) - 1) in
    let off64 := if denom =? 0 then 0 else numer / denom in
    let clampMax := u64 (sz - blockBytes) in
    s64 (if clampMax <? off64 then clampMax else off64).

(** [sizeof block] and the number of blocks of a lane. *)
Definition block_size : Z := 4 * CRC_SIZE.
Definition blocks : Z := MAXFULL / (block_size * CRC_COUNT).

Section generation.
Context `{CRC32} (useLegacy : bool).

(** The lane's digest, in network order, becomes the next word of the CRC. *)
Definition get_lane (hash : HashCRC32.t) : bytes * HashCRC32.t :=
  let '(crcval, hash) := HashCRC32.get hash in
  (le_bytes 4 (htonl (u32 (le_value crcval))), hash).

(** A tiny file is its own CRC, padded with zeros. *)
Definition tiny_crc (size : Z) (data : bytes) : bytes :=
  if size <? CRC_SIZE then data ++ replicate (Z.to_nat (CRC_SIZE - size)) 0 else data.

(** A small file: four lanes that cover it. *)
Definition small_lane (size : Z) (buf : bytes) (st : HashCRC32.t * bytes) (i : Z) : HashCRC32.t * bytes :=
  let '(hash, newcrc) := st in
  let begin_ := i * size / CRC_COUNT in
  let end_ := (i + 1) * size / CRC_COUNT in
  let hash := HashCRC32.add hash (substr buf (Z.to_nat begin_) (Z.to_nat (end_ - begin_))) in
  let '(word, hash) := get_lane hash in
  (hash, newcrc ++ word).

Definition small_crc (size : Z) (buf : bytes) : bytes :=
  (foldl (small_lane size buf) (HashCRC32.init, []) (seqZ 0 CRC_COUNT)).2.

(** The tail both generators share: adopt the CRC, become valid. *)
Definition adopt (changed : bool) (newcrc : bytes) (f : FileFingerprint) : bool * FileFingerprint :=
  let '(changed, f) := if bool_decide (crc f = newcrc) then (changed, f) else (true, set_crc newcrc f) in
  if isvalid f then (changed, f) else (true, set_isvalid true f).

(** The head both share: take over the time and the size. *)
Definition head (f : FileFingerprint) (cmtime csize : Z) (ignoremtime : bool) : bool * FileFingerprint :=
  let '(changed, f) := if mtime f =? cmtime then (false, f) else (negb ignoremtime, set_mtime cmtime f) in
  if size f =? csize then (changed, f) else (true, set_size csize f).

(** *** From a file *)
Section file.
Context (os : OSFile).

(** The blocks [js] of lane [i]; [None] is a failed read. *)
Fixpoint file_blocks (size i : Z) (js : list Z) (hash : HashCRC32.t) (fa : FileAccess)
    : option HashCRC32.t * FileAccess :=
  match js with
  | [] => (Some hash, fa)
  | j :: js =>
      let offset := computeSparseOffset64 useLegacy size i j blocks CRC_COUNT block_size in
      match frawread os fa block_size offset true with
      | (None, fa) => (None, fa)
      | (Some block, fa) => file_blocks size i js (HashCRC32.add hash block) fa
      end
  end.

Fixpoint file_lanes (size : Z) (ids : list Z) (hash : HashCRC32.t) (newcrc : bytes) (fa : FileAccess)
    : option bytes * FileAccess :=
  match ids with
  | [] => (Some newcrc, fa)
  | i :: ids =>
      match file_blocks size i (seqZ 0 blocks) hash fa with
      | (None, fa) => (None, fa)
      | (Some hash, fa) =>
          let '(word, hash) := get_lane hash in
          file_lanes size ids hash (newcrc ++ word) fa
      end
  end.

Definition file_crc (size : Z) (fa : FileAccess) : option bytes * FileAccess :=
  if size <=? CRC_SIZE then
    match frawread os fa (u32 size) 0 true with
    | (None, fa) => (None, fa)
    | (Some data, fa) => (Some (tiny_crc size data), fa)
    end
  else if size <=? MAXFULL then
    match frawread os fa (u32 size) 0 true with
    | (None, fa) => (None, fa)
    | (Some buf, fa) => (Some (small_crc size buf), fa)
    end
  else file_lanes size (seqZ 0 CRC_COUNT) HashCRC32.init [] fa.

(** [genfingerprint(FileAccess*, bool)]: whether the fingerprint changed, the
    fingerprint and the file object ([closef] only releases the descriptor). *)
Definition genfingerprint_file (f : FileFingerprint) (fa : FileAccess) (ignoremtime : bool)
    : bool * FileFingerprint * FileAccess :=
  let '(changed, f) := head f (fa_mtime fa) (fa_size fa) ignoremtime in
  let '(opened, fa) := openf os fa in
  if negb opened then (true, set_size (-1) f, fa)
  else
    match file_crc (size f) fa with
    | (None, fa) => (true, set_size (-1) f, fa)
    | (Some newcrc, fa) => let '(changed, f) := adopt changed newcrc f in (changed, f, fa)
    end.

End file.

(** *** From a stream *)
Section stream.
Context {T : Type} {IS : InputStream T}.

(** The seek: [read(nullptr, step)] with steps of at most [UINT_MAX]. *)
Fixpoint seek (fuel : nat) (ia : T) (fullstep : Z) : bool * T :=
  if 0 <? fullstep then
    match fuel with
    | O => (false, ia)
    | S fuel =>
        let step := if 2 ^ 32 - 1 <? fullstep then 2 ^ 32 - 1 else u32 fullstep in
        match is_skip ia step with
        | (false, ia) => (false, ia)
        | (true, ia) => seek fuel ia (fullstep - step)
        end
    end
  else (true, ia).

(** Rounds the seek needs: every round but the last covers [UINT_MAX]. *)
Definition seek_fuel (fullstep : Z) : nat := S (Z.to_nat (fullstep / (2 ^ 32 - 1))).

Fixpoint stream_blocks (size i : Z) (js : list Z) (hash : HashCRC32.t) (current : Z) (ia : T)
    : option (HashCRC32.t * Z) * T :=
  match js with
  | [] => (Some (hash, current), ia)
  | j :: js =>
      let offset := computeSparseOffset64 useLegacy size i j blocks CRC_COUNT block_size in
      match seek (seek_fuel (offset - current)) ia (offset - current) with
      | (false, ia) => (None, ia)
      | (true, ia) =>
          let current := current + (offset - current) in
          match is_read ia block_size with
          | (None, ia) => (None, ia)
          | (Some block, ia) =>
              stream_blocks size i js (HashCRC32.add hash block) (current + block_size) ia
          end
      end
  end.

Fixpoint stream_lanes (size : Z) (ids : list Z) (hash : HashCRC32.t) (current : Z) (newcrc : bytes) (ia : T)
    : option bytes * T :=
  match ids with
  | [] => (Some newcrc, ia)
  | i :: ids =>
      match stream_blocks size i (seqZ 0 blocks) hash current ia with
      | (None, ia) => (None, ia)
      | (Some (hash, current), ia) =>
          let '(word, hash) := get_lane hash in
          stream_lanes size ids hash current (newcrc ++ word) ia
      end
  end.

Definition stream_crc (size : Z) (ia : T) : option bytes * T :=
  if size <=? CRC_SIZE then
    match is_read ia (u32 size) with
    | (None, ia) => (None, ia)
    | (Some data, ia) => (Some (tiny_crc size data), ia)
    end
  else if size <=? MAXFULL then
    match is_read ia (u32 size) with
    | (None, ia) => (None, ia)
    | (Some buf, ia) => (Some (small_crc size buf), ia)
    end
  else stream_lanes size (seqZ 0 CRC_COUNT) HashCRC32.init 0 [] ia.

(** [genfingerprint(InputStreamAccess*, m_time_t, bool)] *)
Definition genfingerprint_stream (f : FileFingerprint) (ia : T) (cmtime : Z) (ignoremtime : bool)
    : bool * FileFingerprint * T :=
  let '(changed, f) := head f cmtime (is_size ia) ignoremtime in
  if size f <? 0 then (true, set_size (-1) f, ia)
  else
    match stream_crc (size f) ia with
    | (None, ia) => (true, set_size (-1) f, ia)
    | (Some newcrc, ia) => let '(changed, f) := adopt changed newcrc f in (changed, f, ia)
    end.

End stream.

End generation.

(** ** The legacy CRC (src/utils.cpp)

    [opened] is the file object [newfileaccess] and [fopen] produced for the
    path, when there is one and it is a file. *)
Section legacy.
Context `{CRC32} (os : OSFile).

Fixpoint legacy_fa_blocks (expectedSize lane : Z) (js : list Z) (hash : HashCRC32.t) (fa : FileAccess)
    : option HashCRC32.t * FileAccess :=
  match js with
  | [] => (Some hash, fa)
  | j :: js =>
      let offset := legacySparseOffset32Bug expectedSize lane j in
      match frawread os fa LEGACY_CRC_WINDOW_BYTES offset true with
      | (None, fa) => (None, fa)
      | (Some block, fa) => legacy_fa_blocks expectedSize lane js (HashCRC32.add hash block) fa
      end
  end.

Fixpoint legacy_fa_lanes (expectedSize : Z) (lanes : list Z) (crcOut : bytes) (fa : FileAccess) : option bytes :=
  match lanes with
  | [] => Some crcOut
  | lane :: lanes =>
      match legacy_fa_blocks expectedSize lane (seqZ 0 LEGACY_CRC_BLOCKS_PER_LANE) HashCRC32.init fa with
      | (None, _) => None
      | (Some hash, fa) => legacy_fa_lanes expectedSize lanes (crcOut ++ (get_lane hash).1) fa
      end
  end.

Definition computeLegacyBuggySparseCrcFA (opened : option FileAccess) (expectedSize : Z) : option bytes :=
  if (expectedSize <=? LEGACY_CRC_WINDOW_BYTES) || (u64 expectedSize <=? LEGACY_OVERFLOW_MIN_SIZE) then None
  else
    fa ← opened;
    if negb (fa_size fa =? expectedSize) then None
    else
      let '(ok, fa) := openf os fa in
      if negb ok then None else legacy_fa_lanes expectedSize (seqZ 0 LEGACY_CRC_LANES) [] fa.

(** The forward-only skip: the position it leaves. *)
Fixpoint legacy_skip (fuel : nat) (stream fullstep : Z) : Z :=
  if 0 <? fullstep then
    match fuel with
    | O => stream
    | S fuel =>
        let step := if 2 ^ 32 - 1 <? fullstep then 2 ^ 32 - 1 else u32 fullstep in
        legacy_skip fuel (stream + step) (fullstep - step)
    end
  else stream.

Fixpoint legacy_ia_blocks (expectedSize lane : Z) (js : list Z) (hash : HashCRC32.t) (current stream : Z)
    (fa : FileAccess) : option (HashCRC32.t * Z * Z) * FileAccess :=
  match js with
  | [] => (Some (hash, current, stream), fa)
  | j :: js =>
      let offset := legacySparseOffset32Bug expectedSize lane j in
      let stream := legacy_skip (seek_fuel (offset - current)) stream (offset - current) in
      let current := current + (offset - current) in
      if (stream <? 0) || (expectedSize <? stream + 64) then (None, fa)
      else
        match frawread os fa 64 stream true with
        | (None, fa) => (None, fa)
        | (Some block, fa) =>
            legacy_ia_blocks expectedSize lane js (HashCRC32.add hash block) (current + 64) (stream + 64) fa
        end
  end.

Fixpoint legacy_ia_lanes (expectedSize : Z) (lanes : list Z) (current stream : Z) (crcOut : bytes)
    (fa : FileAccess) : option bytes :=
  match lanes with
  | [] => Some crcOut
  | lane :: lanes =>
      match legacy_ia_blocks expectedSize lane (seqZ 0 32) HashCRC32.init current stream fa with
      | (None, _) => None
      | (Some (hash, current, stream), fa) =>
          legacy_ia_lanes expectedSize lanes current stream (crcOut ++ (get_lane hash).1) fa
      end
  end.

Definition computeLegacyBuggySparseCrcIA (opened : option FileAccess) (expectedSize : Z) : option bytes :=
  fa ← opened;
  if negb (fa_size fa =? expectedSize) then None
  else
    let '(ok, fa) := openf os fa in
    if negb ok then None else legacy_ia_lanes expectedSize (seqZ 0 4) 0 0 [] fa.

Definition areCrcEqual (lhs rhs : bytes) : bool := same_crc lhs rhs.

End legacy.

End FP.

(** ** The windows of the sparse CRC *)
Module FPFacts.
Import FP.

(** The start of window [k] of 128, before any clamping. *)
Definition window (size k : Z) : Z := (size - 64) * k / 127.

Lemma window_step size k : MAXFULL < size -> window size k + 64 <= window size (k + 1).
Proof. unfold MAXFULL, window. intros. dlia. Qed.

Lemma window_bounds size k : 64 <= size -> 0 <= k <= 127 -> 0 <= window size k <= size - 64.
Proof.
  unfold window. intros Hs Hk. split; [apply Z.div_pos; nia|].
  apply Z.div_le_upper_bound; nia.
Qed.

Lemma window_last size : window size 127 = size - 64.
Proof. unfold window. apply Z.div_mul. lia. Qed.

Lemma sparse_offset_eq size i j :
  64 < size < 2 ^ 56 -> 0 <= i < 4 -> 0 <= j < 32 ->
  computeSparseOffset64 false size i j blocks CRC_COUNT block_size = window size (32 * i + j).
Proof.
  intros Hs Hi Hj. unfold computeSparseOffset64.
  change blocks with 32. change CRC_COUNT with 4. change block_size with 64.
  change (u64 (u64 (4 * 32) - 1) =? 0) with false. change (u64 (u64 (4 * 32) - 1)) with 127. cbv iota.
  rewrite (wrapu_id 64 size), (wrapu_id 64 (size - 64)), (wrapu_id 64 (i * 32)), (wrapu_id 64 (i * 32 + j)),
    (wrapu_id 64 ((size - 64) * (i * 32 + j))) by nia.
  replace (i * 32 + j) with (32 * i + j) by lia.
  pose proof (window_bounds size (32 * i + j)) as B. unfold window in *.
  rewrite (proj2 (Z.ltb_ge _ _)) by (apply B; lia).
  apply s64_id. lia.
Qed.

Lemma legacy_idx i j :
  0 <= i < 4 -> 0 <= j < 32 -> u32 (u32 (i * LEGACY_CRC_BLOCKS_PER_LANE) + j) = 32 * i + j.
Proof.
  intros. unfold LEGACY_CRC_BLOCKS_PER_LANE. rewrite (wrapu_id 32 (i * 32)), wrapu_id by lia. lia.
Qed.

(** Below the threshold nothing wraps. *)
Lemma legacy_offset_eq size i j :
  64 < size <= LEGACY_OVERFLOW_MIN_SIZE -> 0 <= i < 4 -> 0 <= j < 32 ->
  legacySparseOffset32Bug size i j = window size (32 * i + j).
Proof.
  change LEGACY_OVERFLOW_MIN_SIZE with 33818704. intros Hs Hi Hj. unfold legacySparseOffset32Bug.
  rewrite legacy_idx by done. change LEGACY_SPARSE_DENOM with 127. change LEGACY_CRC_WINDOW_BYTES with 64.
  cbv zeta. change (127 =? 0) with false. cbv iota.
  rewrite (wrapu_id 64 size), (wrapu_id 64 (size - 64)) by lia.
  rewrite (wrapu_id 32 size), (wrapu_id 32 (size - 64)) by lia. rewrite (wrapu_id 32) by nia.
  pose proof (window_bounds size (32 * i + j)) as B. unfold window in *.
  rewrite (proj2 (Z.ltb_ge _ _)) by (apply B; lia).
  apply s64_id. lia.
Qed.

(** Above it the offsets are wrong, but the clamp keeps them in the file. *)
Lemma legacy_offset_bounds size i j :
  64 < size < 2 ^ 63 -> 0 <= legacySparseOffset32Bug size i j <= size - 64.
Proof.
  intros Hs. unfold legacySparseOffset32Bug. change LEGACY_SPARSE_DENOM with 127.
  change LEGACY_CRC_WINDOW_BYTES with 64. cbv zeta. change (127 =? 0) with false. cbv iota.
  rewrite (wrapu_id 64 size), (wrapu_id 64 (size - 64)) by lia.
  set (n := u32 (_ * _)). assert (0 <= n < 2 ^ 32) by (apply wrapu_range; lia).
  assert (0 <= n / 127) by (apply Z.div_pos; lia).
  case_if; zbool; rewrite s64_id; lia.
Qed.

(** The forward seek of a file stream. *)
Lemma seek_spec os fuel fa off full :
  0 <= full -> full / (2 ^ 32 - 1) < Z.of_nat fuel -> off + full <= fa_size fa ->
  seek (IS := FileInputStreamOps.stream os) fuel (MkFileInputStream fa off) full
  = (true, MkFileInputStream fa (off + full)).
Proof.
  revert off full. induction fuel as [|fuel IH]; intros off full H0 Hf Hs.
  { exfalso. assert (0 <= full / (2 ^ 32 - 1)) by (apply Z.div_pos; lia). lia. }
  cbn [seek]. case_if; zbool; [|do 2 f_equal; lia].
  set (st := if 2 ^ 32 - 1 <? full then _ else _).
  assert (st = Z.min full (2 ^ 32 - 1)) as ->.
  { subst st. case_if; zbool; [|rewrite wrapu_id]; lia. }
  cbn [is_skip FileInputStreamOps.stream]. unfold FileInputStreamOps.skip. cbn [fileAccess fis_offset].
  rewrite (proj2 (Z.leb_le _ _)) by lia.
  destruct (decide (full <= 2 ^ 32 - 1)).
  - rewrite Z.min_l, Z.sub_diag by lia. by destruct fuel.
  - rewrite Z.min_r by lia. rewrite IH; [do 2 f_equal; lia|lia| |lia].
    replace full with (full - (2 ^ 32 - 1) + 1 * (2 ^ 32 - 1)) in Hf by lia.
    rewrite Z.div_add in Hf by lia. lia.
Qed.

Lemma seek_fuel_enough full : 0 <= full -> full / (2 ^ 32 - 1) < Z.of_nat (seek_fuel full).
Proof. intros. unfold seek_fuel. assert (0 <= full / (2 ^ 32 - 1)) by (apply Z.div_pos; lia). lia. Qed.

Lemma seek_behind {T} `{InputStream T} fuel (ia : T) full : full <= 0 -> seek (S fuel) ia full = (true, ia).
Proof. intros. cbn [seek]. by rewrite (proj2 (Z.ltb_ge _ _)) by lia. Qed.

Lemma legacy_skip_spec fuel stream full :
  0 <= full -> full / (2 ^ 32 - 1) < Z.of_nat fuel -> legacy_skip fuel stream full = stream + full.
Proof.
  revert stream full. induction fuel as [|fuel IH]; intros stream full H0 Hf.
  { exfalso. assert (0 <= full / (2 ^ 32 - 1)) by (apply Z.div_pos; lia). lia. }
  cbn [legacy_skip]. case_if; zbool; [|lia].
  destruct (decide (full <= 2 ^ 32 - 1)).
  - rewrite (proj2 (Z.ltb_ge _ _)), wrapu_id, Z.sub_diag by lia. by destruct fuel.
  - rewrite (proj2 (Z.ltb_lt _ _)) by lia. rewrite IH; [lia|lia|].
    replace full with (full - (2 ^ 32 - 1) + 1 * (2 ^ 32 - 1)) in Hf by lia.
    rewrite Z.div_add in Hf by lia. lia.
Qed.

Lemma seqZ_cons' j n : 0 < n -> seqZ j n = j :: seqZ (j + 1) (n - 1).
Proof. intros. rewrite seqZ_cons by lia. do 2 f_equal; lia. Qed.

(** ** Forward-only reading agrees with reading by offset *)
Section agree.
Context `{CRC32} (os : OSFile) (size : Z).
Hypothesis Hsize : MAXFULL < size < 2 ^ 56.
#[local] Instance fis : InputStream FileInputStream := FileInputStreamOps.stream os.

(** A stream at or before window [32 i + j] reads the lane's remaining blocks as
    the file does, and stops at or before the next window. *)
Lemma blocks_agree i n : forall j current hash fa,
  0 <= i < 4 -> 0 <= j -> j + Z.of_nat n <= 32 -> fa_size fa = size ->
  0 <= current <= window size (32 * i + j) ->
  match file_blocks false os size i (seqZ j (Z.of_nat n)) hash fa with
  | (Some h, fa') => exists c,
      stream_blocks false size i (seqZ j (Z.of_nat n)) hash current (MkFileInputStream fa current)
        = (Some (h, c), MkFileInputStream fa' c)
      /\ fa_size fa' = size /\ 0 <= c <= window size (32 * i + j + Z.of_nat n)
  | (None, fa') => exists c,
      stream_blocks false size i (seqZ j (Z.of_nat n)) hash current (MkFileInputStream fa current)
        = (None, MkFileInputStream fa' c)
  end.
Proof.
  induction n as [|n IH]; intros j current hash fa Hi Hj Hn Hfa Hc.
  { simpl. rewrite Z.add_0_r. exists current. split_and!; (done || lia). }
  rewrite seqZ_cons' by lia. replace (Z.of_nat (S n) - 1) with (Z.of_nat n) by lia.
  cbn [file_blocks stream_blocks]. unfold MAXFULL in Hsize.
  rewrite sparse_offset_eq by lia.
  pose proof (window_bounds size (32 * i + j) ltac:(lia) ltac:(lia)) as Hw.
  unfold fis in *. rewrite seek_spec; [|lia|apply seek_fuel_enough; lia|lia].
  replace (current + (window size (32 * i + j) - current)) with (window size (32 * i + j)) by lia.
  change (is_read (MkFileInputStream fa ?o) ?k) with (FileInputStreamOps.read os (MkFileInputStream fa o) k).
  unfold FileInputStreamOps.read. cbn [fileAccess fis_offset].
  destruct (frawread os fa block_size _ true) as [[b|] fa1] eqn:E; [|eauto].
  pose proof (window_step size (32 * i + j)) as Hst. unfold MAXFULL in Hst.
  specialize (IH (j + 1) (window size (32 * i + j) + block_size) (HashCRC32.add hash b) fa1).
  change block_size with 64 in *. replace (32 * i + (j + 1)) with (32 * i + j + 1) in IH by lia.
  replace (32 * i + j + Z.of_nat (S n)) with (32 * i + j + 1 + Z.of_nat n) by lia.
  apply IH; try lia. by rewrite (frawread_size _ _ _ _ _ _ E).
Qed.

Lemma lanes_agree n : forall i current hash newcrc fa,
  0 <= i -> i + Z.of_nat n <= 4 -> fa_size fa = size -> 0 <= current <= window size (32 * i) ->
  (stream_lanes false size (seqZ i (Z.of_nat n)) hash current newcrc (MkFileInputStream fa current)).1
  = (file_lanes false os size (seqZ i (Z.of_nat n)) hash newcrc fa).1.
Proof.
  induction n as [|n IH]; intros i current hash newcrc fa Hi Hn Hfa Hc; [done|].
  rewrite seqZ_cons' by lia. replace (Z.of_nat (S n) - 1) with (Z.of_nat n) by lia.
  cbn [file_lanes stream_lanes].
  pose proof (blocks_agree i 32 0 current hash fa) as B.
  change (Z.of_nat 32) with 32 in B. change blocks with 32.
  replace (32 * i + 0) with (32 * i) in B by lia.
  destruct (file_blocks _ _ _ _ _ _ _) as [[h|] fa'].
  - destruct B as (c & -> & Hf & Hc'); try (done || lia).
    destruct (get_lane h) as [w h']. apply IH; try lia; try done.
    replace (32 * (i + 1)) with (32 * i + 32) by lia. done.
  - by destruct B as (c & ->); try (done || lia).
Qed.

End agree.

Lemma stream_crc_agrees `{CRC32} os fa :
  0 <= fa_size fa < 2 ^ 56 ->
  (stream_crc (IS := FileInputStreamOps.stream os) false (fa_size fa) (FileInputStreamOps.open fa)).1
  = (file_crc false os (fa_size fa) fa).1.
Proof.
  intros Hs. unfold stream_crc, file_crc. cbn [is_read FileInputStreamOps.stream].
  unfold FileInputStreamOps.read, FileInputStreamOps.open. cbn [fileAccess fis_offset].
  repeat case_if; zbool; try (by destruct (frawread _ _ _ _ _) as [[?|] ?]).
  apply (lanes_agree os (fa_size fa) ltac:(lia) 4 0 0); try done; try lia.
  change (32 * 0) with 0. unfold window. rewrite Z.mul_0_r. done.
Qed.

Lemma openf_true os fa fa' : openf os fa = (true, fa') -> fa' = fa.
Proof. unfold openf. case_if; [by intros [= ->]|]. destruct (os_stat os) as [[? ?]|]; [|done]. case_if; [done|]. by intros [= _ ->]. Qed.

Lemma blocks_eq : blocks = 32.
Proof. done. Qed.

Lemma get_lane_restart `{CRC32} h : (get_lane h).2 = HashCRC32.init.
Proof. done. Qed.

(** ** The legacy CRC is what the generators compute under the test hook *)
Section legacy.
Context `{CRC32} (os : OSFile) (size : Z).

Lemma legacy_fa_blocks_eq lane js : forall hash fa,
  legacy_fa_blocks os size lane js hash fa = file_blocks true os size lane js hash fa.
Proof.
  induction js as [|j js IH]; intros hash fa; [done|]. cbn [legacy_fa_blocks file_blocks].
  change block_size with LEGACY_CRC_WINDOW_BYTES.
  change (computeSparseOffset64 true size lane j blocks CRC_COUNT LEGACY_CRC_WINDOW_BYTES)
    with (legacySparseOffset32Bug size lane j).
  destruct (frawread _ _ _ _ _) as [[b|] fa']; [apply IH|done].
Qed.

Lemma legacy_fa_lanes_eq lanes : forall acc fa,
  legacy_fa_lanes os size lanes acc fa = (file_lanes true os size lanes HashCRC32.init acc fa).1.
Proof.
  induction lanes as [|lane lanes IH]; intros acc fa; [done|]. cbn [legacy_fa_lanes file_lanes].
  rewrite legacy_fa_blocks_eq. change LEGACY_CRC_BLOCKS_PER_LANE with blocks.
  destruct (file_blocks _ _ _ _ _ _ _) as [[h|] fa']; [|done].
  pose proof (get_lane_restart h) as Hr. destruct (get_lane h) as [w h']. cbn [snd] in Hr. subst h'. apply IH.
Qed.

(** Under the threshold the hook changes nothing. *)
Lemma file_blocks_hook lane n : forall j hash fa,
  64 < size <= LEGACY_OVERFLOW_MIN_SIZE -> 0 <= lane < 4 -> 0 <= j -> j + Z.of_nat n <= 32 ->
  file_blocks true os size lane (seqZ j (Z.of_nat n)) hash fa
  = file_blocks false os size lane (seqZ j (Z.of_nat n)) hash fa.
Proof.
  induction n as [|n IH]; intros j hash fa Hs Hl Hj Hn; [done|].
  rewrite seqZ_cons' by lia. replace (Z.of_nat (S n) - 1) with (Z.of_nat n) by lia. cbn [file_blocks].
  change (computeSparseOffset64 true size lane j blocks CRC_COUNT block_size)
    with (legacySparseOffset32Bug size lane j).
  rewrite legacy_offset_eq, sparse_offset_eq
    by (change LEGACY_OVERFLOW_MIN_SIZE with 33818704 in Hs; lia || done).
  destruct (frawread _ _ _ _ _) as [[b|] fa']; [|done]. apply IH; (done || lia).
Qed.

Lemma file_lanes_hook n : forall i hash acc fa,
  64 < size <= LEGACY_OVERFLOW_MIN_SIZE -> 0 <= i -> i + Z.of_nat n <= 4 ->
  file_lanes true os size (seqZ i (Z.of_nat n)) hash acc fa
  = file_lanes false os size (seqZ i (Z.of_nat n)) hash acc fa.
Proof.
  induction n as [|n IH]; intros i hash acc fa Hs Hi Hn; [done|].
  rewrite seqZ_cons' by lia. replace (Z.of_nat (S n) - 1) with (Z.of_nat n) by lia. cbn [file_lanes].
  change blocks with (Z.of_nat 32). rewrite file_blocks_hook by (done || lia).
  destruct (file_blocks _ _ _ _ _ _ _) as [[h|] fa']; [|done].
  destruct (get_lane h). apply IH; (done || lia).
Qed.

(** The hand-written forward reader follows a [FileInputStream]. *)
#[local] Instance lfis : InputStream FileInputStream := FileInputStreamOps.stream os.

Lemma legacy_ia_blocks_agree lane js : forall hash current stream fa r fa',
  fa_size fa = size -> 
  legacy_ia_blocks os size lane js hash current stream fa = (Some r, fa') ->
  stream_blocks true size lane js hash current (MkFileInputStream fa stream)
    = (Some r.1, MkFileInputStream fa' r.2)
  /\ fa_size fa' = size.
Proof.
  induction js as [|j js IH]; intros hash current stream fa r fa' Hfa E.
  { simpl in *. by simplify_eq. }
  cbn [legacy_ia_blocks stream_blocks] in *.
  change (computeSparseOffset64 true size lane j blocks CRC_COUNT block_size)
    with (legacySparseOffset32Bug size lane j).
  set (off := legacySparseOffset32Bug size lane j) in *. set (d := off - current) in *.
  destruct (_ || _) eqn:Hb; [done|]. zbool.
  assert (legacy_skip (seek_fuel d) stream d = stream + Z.max 0 d) as Hsk.
  { destruct (decide (0 <= d)).
    - rewrite legacy_skip_spec; [lia|lia|by apply seek_fuel_enough].
    - unfold seek_fuel. cbn [legacy_skip]. rewrite (proj2 (Z.ltb_ge _ _)) by lia. lia. }
  rewrite Hsk in *.
  assert (seek (seek_fuel d) (MkFileInputStream fa stream) d
          = (true, MkFileInputStream fa (stream + Z.max 0 d))) as ->.
  { destruct (decide (0 <= d)).
    - unfold lfis. rewrite seek_spec; [do 2 f_equal; lia|done|by apply seek_fuel_enough|lia].
    - rewrite Z.max_l, Z.add_0_r by lia. apply seek_behind. lia. }
  change (is_read (MkFileInputStream fa ?o) ?k) with (FileInputStreamOps.read os (MkFileInputStream fa o) k).
  unfold FileInputStreamOps.read. cbn [fileAccess fis_offset]. change block_size with 64.
  destruct (frawread os fa 64 _ true) as [[b|] fa1] eqn:Er; [|done].
  apply IH; [|done]. by rewrite (frawread_size _ _ _ _ _ _ Er).
Qed.

Lemma legacy_ia_lanes_cons lane lanes current stream acc fa :
  legacy_ia_lanes os size (lane :: lanes) current stream acc fa
  = match legacy_ia_blocks os size lane (seqZ 0 32) HashCRC32.init current stream fa with
    | (None, _) => None
    | (Some (hash, current, stream), fa) =>
        legacy_ia_lanes os size lanes current stream (acc ++ (get_lane hash).1) fa
    end.
Proof. reflexivity. Qed.

Lemma stream_lanes_cons {T} `{InputStream T} lane lanes current acc (ia : T) :
  stream_lanes true size (lane :: lanes) HashCRC32.init current acc ia
  = match stream_blocks true size lane (seqZ 0 32) HashCRC32.init current ia with
    | (None, ia) => (None, ia)
    | (Some (hash, current), ia) =>
        stream_lanes true size lanes HashCRC32.init current (acc ++ (get_lane hash).1) ia
    end.
Proof. reflexivity. Qed.

Lemma legacy_ia_lanes_agree lanes : forall current stream acc fa c,
  fa_size fa = size ->
  legacy_ia_lanes os size lanes current stream acc fa = Some c ->
  (stream_lanes true size lanes HashCRC32.init current acc (MkFileInputStream fa stream)).1 = Some c.
Proof.
  induction lanes as [|lane lanes IH]; intros current stream acc fa c Hfa E; [done|].
  rewrite legacy_ia_lanes_cons in E. rewrite stream_lanes_cons.
  destruct (legacy_ia_blocks _ _ _ _ _ _ _ _) as [[[[h cu] st]|] fa'] eqn:Eb; [|done].
  destruct (legacy_ia_blocks_agree _ _ _ _ _ _ _ _ Hfa Eb) as [-> Hf].
  exact (IH _ _ _ _ _ Hf E).
Qed.

End legacy.

Section adopt.
Context `{CRC32}.

Lemma stream_crc_large hook size {T} `{InputStream T} (ia : T) :
  MAXFULL < size ->
  stream_crc hook size ia = stream_lanes hook size (seqZ 0 4) HashCRC32.init 0 [] ia.
Proof.
  intros Hs. unfold stream_crc, MAXFULL, CRC_SIZE in *. by rewrite !(proj2 (Z.leb_gt _ _)) by lia.
Qed.

Lemma adopt_facts changed newcrc f :
  let f' := (adopt changed newcrc f).2 in
  crc f' = newcrc /\ isvalid f' = true /\ size f' = size f /\ mtime f' = mtime f.
Proof. unfold adopt. case_bool_decide; cbn [isvalid set_crc]; destruct (isvalid f) eqn:?; by simpl. Qed.
Lemma read_s64 v k : - 2 ^ 63 <= v < 2 ^ 63 -> s64 (le_value (take 8 (le_bytes 8 v ++ k))) = v.
Proof.
  intros. rewrite take_app_exact by by rewrite length_le_bytes.
  rewrite le_value_bytes. by apply (wraps_wrapu 64).
Qed.

(** The conversion test must not run the lanes. *)
#[local] Opaque legacy_ia_lanes legacy_fa_lanes stream_lanes file_lanes.

Lemma head_facts f cmtime csize ig ch f' :
  head f cmtime csize ig = (ch, f') -> size f' = csize /\ mtime f' = cmtime.
Proof. unfold head. repeat case_if; intros; simplify_eq; by zbool. Qed.

Lemma legacy_ia_crc os fa c :
  MAXFULL < fa_size fa -> openf os fa = (true, fa) ->
  computeLegacyBuggySparseCrcIA os (Some fa) (fa_size fa) = Some c ->
  (stream_crc (IS := FileInputStreamOps.stream os) true (fa_size fa) (FileInputStreamOps.open fa)).1 = Some c.
Proof.
  intros Hs Ho E. rewrite stream_crc_large by done.
  assert (legacy_ia_lanes os (fa_size fa) (seqZ 0 4) 0 0 [] fa = Some c) as E'.
  { unfold computeLegacyBuggySparseCrcIA, mbind, option_bind in E. rewrite Z.eqb_refl, Ho in E. exact E. }
  exact (legacy_ia_lanes_agree os (fa_size fa) (seqZ 0 4) 0 0 [] fa c eq_refl E').
Qed.

End adopt.
End FPFacts.

(** C32: the two generators agree.  A forward-only stream over a file never has
    to go back (the windows of a large file are in order and apart), so the
    fingerprint and the changed flag are those of reading at offsets, whatever
    the file's reads answer. *)
Theorem stream_fingerprint `{CRC32} (os : OSFile) (f : FileFingerprint) (fa : FileAccess) (ignoremtime : bool) :
  0 <= fa_size fa < 2 ^ 56 -> openf os fa = (true, fa) ->
  (FP.genfingerprint_stream (IS := FileInputStreamOps.stream os) false f (FileInputStreamOps.open fa)
     (fa_mtime fa) ignoremtime).1
  = (FP.genfingerprint_file false os f fa ignoremtime).1.
Proof.
  intros Hs Ho. unfold FP.genfingerprint_stream, FP.genfingerprint_file. rewrite Ho.
  change (is_size (FileInputStreamOps.open fa)) with (fa_size fa).
  destruct (FP.head f (fa_mtime fa) (fa_size fa) ignoremtime) as [ch f'] eqn:E. cbn [negb].
  apply FPFacts.head_facts in E as [-> _].
  rewrite (proj2 (Z.ltb_ge _ _)) by lia.
  pose proof (FPFacts.stream_crc_agrees os fa Hs) as A.
  destruct (FP.stream_crc _ _ _) as [[c|] ?], (FP.file_crc _ _ _ _) as [[c'|] ?]; simpl in A; simplify_eq; [|done].
  by destruct (FP.adopt _ _ _).
Qed.

(** The sparse windows of a large file: window [j] of lane [i] is inside the
    file, ends before the next one begins, the first is at the start of the
    file and the last at its end. *)
Theorem sparse_windows (size i j : Z) :
  MAXFULL < size < 2 ^ 56 -> 0 <= i < CRC_COUNT -> 0 <= j < FP.blocks ->
  let off i j := FP.computeSparseOffset64 false size i j FP.blocks CRC_COUNT FP.block_size in
  0 <= off i j /\ off i j + FP.block_size <= size
  /\ (j + 1 < FP.blocks -> off i j + FP.block_size <= off i (j + 1))
  /\ (i + 1 < CRC_COUNT -> off i (FP.blocks - 1) + FP.block_size <= off (i + 1) 0)
  /\ off 0 0 = 0 /\ off (CRC_COUNT - 1) (FP.blocks - 1) = size - FP.block_size.
Proof.
  change FP.blocks with 32. change CRC_COUNT with 4. change FP.block_size with 64.
  intros Hs Hi Hj. cbv beta zeta. pose proof Hs as Hs'. unfold MAXFULL in Hs'.
  assert (forall i j, 0 <= i < 4 -> 0 <= j < 32 ->
            FP.computeSparseOffset64 false size i j 32 4 64 = FPFacts.window size (32 * i + j)) as W.
  { intros. apply FPFacts.sparse_offset_eq; lia. }
  rewrite !(W i j), (W i (32 - 1)), (W 0 0), (W (4 - 1) (32 - 1)) by lia.
  pose proof (FPFacts.window_bounds size (32 * i + j) ltac:(lia) ltac:(lia)).
  split_and!; [lia|lia| | |unfold FPFacts.window; by rewrite Z.mul_0_r|apply FPFacts.window_last].
  - intros. rewrite W by lia. replace (32 * i + (j + 1)) with (32 * i + j + 1) by lia.
    apply FPFacts.window_step. lia.
  - intros. rewrite W by lia. replace (32 * (i + 1) + 0) with (32 * i + (32 - 1) + 1) by lia.
    apply FPFacts.window_step. lia.
Qed.

(** The legacy CRC for files read by offset.  Below the overflow threshold,
    where [computeLegacyBuggySparseCrcFA] declines, the historical 32-bit
    arithmetic gives the fingerprint of today; above it, the function recomputes
    exactly the CRC the historical generator produced, reading only inside the
    file. *)
Theorem legacy_crc_file `{CRC32} (os : OSFile) (fa : FileAccess) :
  MAXFULL < fa_size fa < 2 ^ 56 -> openf os fa = (true, fa) ->
  (FP.computeLegacyBuggySparseCrcFA os (Some fa) (fa_size fa)
   = if fa_size fa <=? FP.LEGACY_OVERFLOW_MIN_SIZE then None
     else (FP.file_crc true os (fa_size fa) fa).1)
  /\ (fa_size fa <= FP.LEGACY_OVERFLOW_MIN_SIZE ->
      FP.file_crc true os (fa_size fa) fa = FP.file_crc false os (fa_size fa) fa)
  /\ (forall lane block, 0 <= FP.legacySparseOffset32Bug (fa_size fa) lane block
        <= fa_size fa - FP.LEGACY_CRC_WINDOW_BYTES).
Proof.
  unfold MAXFULL. intros Hs Ho. split_and!.
  - unfold FP.computeLegacyBuggySparseCrcFA. rewrite wrapu_id by lia.
    change FP.LEGACY_CRC_WINDOW_BYTES with 64. rewrite (proj2 (Z.leb_gt _ 64)) by lia. cbn [orb].
    case_if; [done|]. cbn [mbind option_bind]. rewrite Z.eqb_refl, Ho. cbn [negb].
    rewrite FPFacts.legacy_fa_lanes_eq. unfold FP.file_crc, CRC_SIZE, MAXFULL.
    by rewrite !(proj2 (Z.leb_gt _ _)) by lia.
  - intros Hle. unfold FP.file_crc. case_ifs; [done|done|].
    change CRC_COUNT with (Z.of_nat 4). apply FPFacts.file_lanes_hook; (done || lia).
  - intros. change FP.LEGACY_CRC_WINDOW_BYTES with 64. apply FPFacts.legacy_offset_bounds. lia.
Qed.

(** The legacy CRC for streams.  Whenever [computeLegacyBuggySparseCrcIA]
    succeeds on a large file, the stream generator with the historical offsets
    makes a valid fingerprint with that CRC, going forward where the offsets go
    backward. *)
Theorem legacy_crc_stream `{CRC32} (os : OSFile) (fa : FileAccess) (f : FileFingerprint) (c : bytes)
    (cmtime : Z) (ignoremtime : bool) :
  MAXFULL < fa_size fa -> openf os fa = (true, fa) ->
  FP.computeLegacyBuggySparseCrcIA os (Some fa) (fa_size fa) = Some c ->
  let f' := (FP.genfingerprint_stream (IS := FileInputStreamOps.stream os) true f
               (FileInputStreamOps.open fa) cmtime ignoremtime).1.2 in
  crc f' = c /\ isvalid f' = true /\ size f' = fa_size fa /\ mtime f' = cmtime.
Proof.
  intros Hs Ho E. pose proof (FPFacts.legacy_ia_crc os fa c Hs Ho E) as A.
  unfold FP.genfingerprint_stream. change (is_size (FileInputStreamOps.open fa)) with (fa_size fa).
  destruct (FP.head f cmtime (fa_size fa) ignoremtime) as [ch f1] eqn:Eh.
  apply FPFacts.head_facts in Eh as [Hsz Hm]. rewrite Hsz. unfold MAXFULL in Hs.
  rewrite (proj2 (Z.ltb_ge _ _)) by lia.
  destruct (FP.stream_crc _ _ _) as [[c'|] is']; cbn [fst] in A; simplify_eq.
  pose proof (FPFacts.adopt_facts ch c f1) as (H1 & H2 & H3 & H4). destruct (FP.adopt ch c f1) as [ch' f2].
  cbn [fst snd] in *. split_and!; congruence.
Qed.

(** The string form of a fingerprint (as stored with a node) gives back the
    CRC and the time and marks the result valid; the size is not stored.  A
    string that is refused leaves the fingerprint alone. *)
Theorem fingerprint_string_roundtrip (f g : FileFingerprint) :
  zlength (crc f) = CRC_SIZE -> bytes_ok (crc f) -> - 2 ^ 63 <= mtime f < 2 ^ 63 ->
  FP.unserializefingerprint (FP.serializefingerprint f) g
    = (true, MkFileFingerprint (size g) (mtime f) (crc f) true)
  /\ forall d g', FP.unserializefingerprint d g = (false, g') -> g' = g.
Proof.
  unfold CRC_SIZE. intros Hl Hb Hm. split.
  - unfold FP.unserializefingerprint, FP.serializefingerprint.
    set (t := u64 (mtime f)). assert (0 <= t < 2 ^ 64) as Ht by (apply wrapu_range; lia).
    pose proof (Serialize64.length_serialize t) as Hs.
    rewrite <- (app_nil_r (Base64.btoa _)).
    rewrite Base64.atob_btoa_app; [|apply Forall_app; split; [done|]|done|rewrite length_app; lia].
    2: { unfold Serialize64.serialize. constructor; [apply byte_ok_u8|apply Serialize64.value_bytes_ok]. }
    rewrite length_app, (proj2 (Z.ltb_ge _ _)) by lia.
    rewrite drop_app_exact by lia. rewrite <- (app_nil_r (Serialize64.serialize t)).
    rewrite Serialize64.unserialize_serialize; [|done|rewrite app_nil_r; lia].
    rewrite take_app_exact by lia. unfold FP.set_isvalid, FP.set_mtime, FP.set_crc. cbn [size mtime crc].
    do 2 f_equal. by apply (wraps_wrapu 64).
  - intros d g'. unfold FP.unserializefingerprint. repeat case_match; intros; by simplify_eq.
Qed.

Lemma fingerprint_string_roundtrip_witness :
  let f := MkFileFingerprint 77 (-5) (str "0123456789abcdef") false in
  FP.unserializefingerprint (FP.serializefingerprint f) FP.init
    = (true, MkFileFingerprint (-1) (-5) (str "0123456789abcdef") true)
  /\ forall d g', FP.unserializefingerprint d FP.init = (false, g') -> g' = FP.init.
Proof.
  apply (fingerprint_string_roundtrip (MkFileFingerprint 77 (-5) (str "0123456789abcdef") false));
    [reflexivity|repeat constructor; simpl; lia|simpl; lia].
Defined.

(** The database form of a fingerprint: reading back what [serialize] wrote
    gives the fingerprint and stops right behind it, and every proper prefix is
    refused. *)
Theorem fingerprint_record_roundtrip (f : FileFingerprint) (d rest : bytes) :
  - 2 ^ 63 <= size f < 2 ^ 63 -> - 2 ^ 63 <= mtime f < 2 ^ 63 -> zlength (crc f) = CRC_SIZE ->
  exists image, FP.serialize f d = d ++ image
    /\ FP.unserialize (image ++ rest) = Some (f, rest)
    /\ forall p q, image = p ++ q -> q <> [] -> FP.unserialize p = None.
Proof.
  unfold CRC_SIZE. intros Hs Hm Hc.
  exists (le_bytes 8 (size f) ++ le_bytes 8 (mtime f) ++ crc f ++ [Z.b2z (isvalid f)]).
  split_and!; [done| |].
  - unfold FP.unserialize. rewrite <- !app_assoc.
    rewrite (proj2 (Z.ltb_ge _ _)) by (rewrite !length_app, !length_le_bytes; simpl; lia).
    rewrite FPFacts.read_s64, (drop_app_exact (le_bytes 8 (size f))), FPFacts.read_s64,
      (drop_app_exact (le_bytes 8 (mtime f))), take_app_exact, drop_app_exact
      by (done || rewrite ?length_le_bytes; lia).
    destruct f as [? ? ? []]; reflexivity.
  - intros p q E Hq. unfold FP.unserialize. apply (f_equal length) in E.
    rewrite !length_app, !length_le_bytes in E. simpl in E.
    assert (length q <> 0%nat) by (by destruct q).
    by rewrite (proj2 (Z.ltb_lt _ _)) by lia.
Qed.

Lemma fingerprint_record_roundtrip_witness :
  let f := MkFileFingerprint 77 (-5) (str "0123456789abcdef") true in
  exists image, FP.serialize f [9] = [9] ++ image
    /\ FP.unserialize (image ++ [1; 2]) = Some (f, [1; 2])
    /\ forall p q, image = p ++ q -> q <> [] -> FP.unserialize p = None.
Proof.
  apply (fingerprint_record_roundtrip (MkFileFingerprint 77 (-5) (str "0123456789abcdef") true));
    [simpl; lia|simpl; lia|reflexivity].
Defined.

(** [FileFingerprintCmp] is a strict weak order whose equivalence is equality
    of size, time and CRC, and [FileFingerprintCmpNoMtime] one whose equivalence
    is [equalExceptMtimeAndIsValid]; equivalent valid fingerprints are equal for
    [operator==]. *)
Theorem fingerprint_orders (a b c : FileFingerprint) :
  FP.cmp a a = false /\ FP.cmp_no_mtime a a = false
  /\ (FP.cmp a b = true -> FP.cmp b c = true -> FP.cmp a c = true)
  /\ (FP.cmp_no_mtime a b = true -> FP.cmp_no_mtime b c = true -> FP.cmp_no_mtime a c = true)
  /\ (FP.cmp a b = false /\ FP.cmp b a = false
      <-> size a = size b /\ mtime a = mtime b /\ crc a = crc b)
  /\ (FP.cmp_no_mtime a b = false /\ FP.cmp_no_mtime b a = false
      <-> FP.equalExceptMtimeAndIsValid a b = true)
  /\ (FP.cmp a b = false -> FP.cmp b a = false ->
      FP.eq a b = isvalid a && isvalid b).
Proof.
  assert (forall x y : bytes, bytes_ltb x y = false -> bytes_ltb y x = false -> x = y) as T
    by exact (@kltb_total bytes bytes_StrictOrd).
  assert (forall x : bytes, bytes_ltb x x = false) as I by exact (@kltb_irrefl bytes bytes_StrictOrd).
  assert (forall x y z : bytes, bytes_ltb x y = true -> bytes_ltb y z = true -> bytes_ltb x z = true) as R
    by exact (@kltb_trans bytes bytes_StrictOrd).
  assert (FP.cmp a b = false /\ FP.cmp b a = false
          <-> size a = size b /\ mtime a = mtime b /\ crc a = crc b) as E.
  { unfold FP.cmp. split.
    - intros [H1 H2]. revert H1 H2. case_ifs; intros H1 H2; try done. repeat split; [lia|lia|by apply T].
    - intros (-> & -> & ->). by rewrite !Z.ltb_irrefl, I. }
  split_and!; try exact E.
  - unfold FP.cmp. by rewrite !Z.ltb_irrefl.
  - unfold FP.cmp_no_mtime. by rewrite !Z.ltb_irrefl.
  - unfold FP.cmp. case_ifs; try done; eauto.
  - unfold FP.cmp_no_mtime. case_ifs; try done; eauto.
  - unfold FP.cmp_no_mtime, FP.equalExceptMtimeAndIsValid, FP.same_crc. split.
    + intros [H1 H2]. apply andb_true_iff. revert H1 H2. case_ifs; intros H1 H2; try done.
      split; [by apply bool_decide_eq_true, T|apply Z.eqb_eq; lia].
    + intros [H1%bool_decide_eq_true H2]%andb_true_iff. zbool. rewrite H1, H2. by rewrite !Z.ltb_irrefl, I.
  - intros H1 H2. destruct (proj1 E (conj H1 H2)) as (Es & Em & Ec). unfold FP.eq, FP.same_crc.
    rewrite Es, Em, Ec, Z.eqb_refl, Z.sub_diag, bool_decide_true by done. cbn [negb].
    change (FS_MTIME_TOLERANCE_SECS <? Z.abs 0) with false. by destruct (isvalid a), (isvalid b).
Qed.

(** ** Concrete instances

    A digest that depends on the whole message, and files that answer every
    read inside them. *)
Module FPExamples.
Definition sum_digest : CRC32 := fun m => le_bytes 4 (fold_right Z.add 0 m).
Definition pattern_file (n : Z) : OSFile :=
  MkOSFile (fun len off => inr (replicate (Z.to_nat len) (off mod 256))) None true.
Definition access (n mtime : Z) : FileAccess := MkFileAccess n mtime false false 0.
End FPExamples.

Lemma stream_fingerprint_witness :
  let os := FPExamples.pattern_file 1000000007 in
  let fa := FPExamples.access 1000000007 1700000000 in
  (FP.genfingerprint_stream (H := FPExamples.sum_digest) (IS := FileInputStreamOps.stream os) false FP.init
     (FileInputStreamOps.open fa) (fa_mtime fa) false).1
  = (FP.genfingerprint_file (H := FPExamples.sum_digest) false os FP.init fa false).1.
Proof.
  exact (@stream_fingerprint FPExamples.sum_digest (FPExamples.pattern_file 1000000007) FP.init
           (FPExamples.access 1000000007 1700000000) false ltac:(simpl; lia) eq_refl).
Defined.

Lemma sparse_windows_witness :
  let off i j := FP.computeSparseOffset64 false 8193 i j FP.blocks CRC_COUNT FP.block_size in
  0 <= off 1 31 /\ off 1 31 + FP.block_size <= 8193
  /\ (31 + 1 < FP.blocks -> off 1 31 + FP.block_size <= off 1 (31 + 1))
  /\ (1 + 1 < CRC_COUNT -> off 1 (FP.blocks - 1) + FP.block_size <= off (1 + 1) 0)
  /\ off 0 0 = 0 /\ off (CRC_COUNT - 1) (FP.blocks - 1) = 8193 - FP.block_size.
Proof.
  apply (sparse_windows 8193 1 31);
    [unfold MAXFULL; lia|unfold CRC_COUNT; lia|change FP.blocks with 32; lia].
Defined.

Lemma legacy_crc_file_witness :
  let os := FPExamples.pattern_file 1000000007 in
  let fa := FPExamples.access 1000000007 1700000000 in
  (FP.computeLegacyBuggySparseCrcFA (H := FPExamples.sum_digest) os (Some fa) (fa_size fa)
   = if fa_size fa <=? FP.LEGACY_OVERFLOW_MIN_SIZE then None
     else (FP.file_crc (H := FPExamples.sum_digest) true os (fa_size fa) fa).1)
  /\ (fa_size fa <= FP.LEGACY_OVERFLOW_MIN_SIZE ->
      FP.file_crc (H := FPExamples.sum_digest) true os (fa_size fa) fa
      = FP.file_crc (H := FPExamples.sum_digest) false os (fa_size fa) fa)
  /\ (forall lane block, 0 <= FP.legacySparseOffset32Bug (fa_size fa) lane block
        <= fa_size fa - FP.LEGACY_CRC_WINDOW_BYTES).
Proof.
  exact (@legacy_crc_file FPExamples.sum_digest (FPExamples.pattern_file 1000000007)
           (FPExamples.access 1000000007 1700000000) ltac:(unfold MAXFULL; simpl; lia) eq_refl).
Defined.

(** For this size the stream reader still ends inside the file although the
    32-bit offsets jump back and forth. *)
Definition jumping_size : Z := 80000000.

Lemma legacy_crc_stream_witness :
  let c := [0; 3; 218; 0; 0; 3; 170; 192; 0; 3; 220; 0; 0; 4; 55; 64] in
  let f' := (FP.genfingerprint_stream (H := FPExamples.sum_digest)
               (IS := FileInputStreamOps.stream (FPExamples.pattern_file jumping_size)) true FP.init
               (FileInputStreamOps.open (FPExamples.access jumping_size 1700000000)) 1700000000 false).1.2 in
  crc f' = c /\ isvalid f' = true /\ size f' = jumping_size /\ mtime f' = 1700000000.
Proof.
  exact (@legacy_crc_stream FPExamples.sum_digest (FPExamples.pattern_file jumping_size)
           (FPExamples.access jumping_size 1700000000) FP.init
           [0; 3; 218; 0; 0; 3; 170; 192; 0; 3; 220; 0; 0; 4; 55; 64] 1700000000 false
           eq_refl eq_refl ltac:(vm_compute; reflexivity)).
Defined.
