(* ===== verification/MetaMac.v ===== *)
(** * Meta-MACs of local files, and the comparison of files with nodes

    The MetaMAC utilities of src/utils.cpp: [generateMetaMacCancellable] reads a
    file chunk by chunk, encrypts each chunk for its MAC and condenses the MACs;
    the comparisons decide from fingerprints and MACs whether two items are the
    same.  AES under a key, the stream, the file and the cancel token (whose
    answer may change between two queries) are parameters. *)

From S2P Require Import Prelude OMap Crypto Chunks Files Fingerprint.
Local Open Scope Z_scope.

Definition INVALID_META_MAC : Z := 4294967295.
Definition API_EKEY : Z := -14.
Definition API_EINCOMPLETE : Z := -13.

Inductive MetaMacGenerationStatus := Success | ReadError | Cancelled.

#[export] Instance status_eq_dec : EqDecision MetaMacGenerationStatus.
Proof. solve_decision. Defined.

Record MetaMacGenerationResult := MkResult { status : MetaMacGenerationStatus; metamac : Z }.

Record MacComparisonResult := MkComparison {
  areEqualMacs : bool;
  localMac : Z;
  remoteMac : Z;
  errorCode : Z
}.

Inductive node_comparison_result :=
  | NODE_COMP_EREAD | NODE_COMP_CANCELLED | NODE_COMP_EARGS | NODE_COMP_PENDING
  | NODE_COMP_EQUAL | NODE_COMP_DIFFERS_FP | NODE_COMP_DIFFERS_MAC | NODE_COMP_DIFFERS_MTIME.

(** The part of a [Node] the comparisons look at. *)
Definition FILENODE : Z := 0.
Record Node := MkNode {
  node_fp : FileFingerprint;
  node_type : Z;
  node_keyApplied : bool;
  node_key : bytes
}.

Module MetaMac.

Definition SZ_1024K : Z := 2 ^ 20.
Definition SZ_128K : Z := 2 ^ 17.

Section generate.
Context `{AES} {T : Type} `{InputStream T}.

(** The token's answers, in the order it is asked. *)
Context (isCancelled : nat -> bool).

(** The loop; [q] counts the queries, [None] means the fuel ran out. *)
Fixpoint loop (fuel q : nat) (isAccess : T) (chunkMacs : chunkmac_map)
    (chunkLength current remaining iv : Z) : option (MetaMacGenerationResult * T) :=
  match fuel with
  | O => None
  | S fuel =>
      if remaining <=? 0 then
        if isCancelled q then Some (MkResult Cancelled 0, isAccess)
        else Some (MkResult Success (ChunkmacMap.macsmac chunkMacs), isAccess)
      else if isCancelled q then Some (MkResult Cancelled 0, isAccess)
      else
        let chunkLength := Z.min (u32 (chunkLength + SZ_128K)) (Z.min remaining SZ_1024K) in
        match is_read isAccess chunkLength with
        | (None, isAccess) => Some (MkResult ReadError 0, isAccess)
        | (Some buffer, isAccess) =>
            if isCancelled (q + 1)%nat then Some (MkResult Cancelled 0, isAccess)
            else
              let buffer := buffer ++ replicate BLOCKSIZE 0 in
              let '(_, chunkMacs) :=
                ChunkmacMap.ctr_encrypt chunkMacs current buffer chunkLength current iv true in
              loop fuel (q + 2) isAccess chunkMacs chunkLength (current + chunkLength)
                (remaining - chunkLength) iv
        end
  end.

(** Every read but the last takes at least 128K, and one more round ends the loop. *)
Definition fuel_for (size : Z) : nat := S (S (Z.to_nat (size / SZ_128K))).

Definition generateMetaMacCancellable (isAccess : T) (iv : Z) : option (MetaMacGenerationResult * T) :=
  loop (fuel_for (is_size isAccess)) 0 isAccess ChunkmacMap.clear 0 0 (is_size isAccess) iv.

End generate.

(** The overload for a file, and the public functions, which never cancel. *)
Definition generateMetaMacCancellable_file `{AES} (os : OSFile) (isCancelled : nat -> bool)
    (fa : FileAccess) (iv : Z) : option (MetaMacGenerationResult * FileAccess) :=
  prod_map id fileAccess
    <$> generateMetaMacCancellable (H0 := FileInputStreamOps.stream os) isCancelled (FileInputStreamOps.open fa) iv.

Definition never : nat -> bool := fun _ => false.

Definition generateMetaMac_file `{AES} (os : OSFile) (fa : FileAccess) (iv : Z) : option (bool * Z * FileAccess) :=
  '(result, fa) ← generateMetaMacCancellable_file os never fa iv;
  Some (bool_decide (status result = Success), metamac result, fa).

Definition generateMetaMac_stream `{AES, InputStream T} (isAccess : T) (iv : Z) : option (bool * Z * T) :=
  '(result, isAccess) ← generateMetaMacCancellable never isAccess iv;
  Some (bool_decide (status result = Success), metamac result, isAccess).

(** The words of a node key behind the AES key: the IV and the MAC. *)
Definition key_iv (nodeKey : bytes) : Z := s64 (le_value (substr nodeKey KEYLENGTH 8)).
Definition key_mac (nodeKey : bytes) : Z := s64 (le_value (substr nodeKey (KEYLENGTH + 8) 8)).

Definition areEqualNodesByMetaMac (nodeKey_a nodeKey_b : bytes) : bool :=
  if negb (length nodeKey_a =? FILENODEKEYLENGTH)%nat || negb (length nodeKey_b =? FILENODEKEYLENGTH)%nat
  then false
  else key_mac nodeKey_a =? key_mac nodeKey_b.

Section compare.
Context (aes : bytes -> AES) (os : OSFile).

(** [CompareLocalFileMetaMacWithNodeKey]; a failed read has left its error code
    in the file object. *)
Definition CompareLocalFileMetaMacWithNodeKey (fa : FileAccess) (nodeKey : bytes) (type : Z)
    (isCancelled : nat -> bool) : option MacComparisonResult :=
  if negb (length nodeKey =? FILENODEKEYLENGTH)%nat then
    Some (MkComparison false INVALID_META_MAC INVALID_META_MAC API_EKEY)
  else
    let remoteIv := key_iv nodeKey in
    let remoteMac := key_mac nodeKey in
    '(generated, fa) ←
      generateMetaMacCancellable_file (H := aes (SymmCipher.setkey nodeKey type)) os isCancelled fa remoteIv;
    Some match status generated with
         | Success => MkComparison (metamac generated =? remoteMac) (metamac generated) remoteMac 0
         | ReadError => MkComparison false INVALID_META_MAC remoteMac (fa_errorcode fa)
         | Cancelled => MkComparison false INVALID_META_MAC remoteMac API_EINCOMPLETE
         end.

Definition CompareLocalFileMetaMacWithNode (fa : FileAccess) (node : Node) (isCancelled : nat -> bool)
    : option MacComparisonResult :=
  CompareLocalFileMetaMacWithNodeKey fa (node_key node) (node_type node) isCancelled.

Definition genLocalAndRemoteMetaMac (fa : FileAccess) (nodeKey : bytes) (type : Z) : option (Z * Z) :=
  if negb (length nodeKey =? FILENODEKEYLENGTH)%nat then Some (INVALID_META_MAC, INVALID_META_MAC)
  else
    let remoteIv := key_iv nodeKey in
    let remoteMac := key_mac nodeKey in
    '(succeeded, calcMac, _) ← generateMetaMac_file (H := aes (SymmCipher.setkey nodeKey type)) os fa remoteIv;
    Some (if succeeded : bool then calcMac else INVALID_META_MAC, remoteMac).

Definition CompareMacAndFpExcludingMtime (fp1 fp2 : FileFingerprint) (metamac1 metamac2 : Z)
    : node_comparison_result :=
  if negb (FP.equalExceptMtime fp1 fp2) then NODE_COMP_DIFFERS_FP
  else if negb (metamac1 =? metamac2) then NODE_COMP_DIFFERS_MAC
  else if mtime fp1 =? mtime fp2 then NODE_COMP_EQUAL else NODE_COMP_DIFFERS_MTIME.

Definition comparable (node : option Node) : option Node :=
  node ← node;
  if negb (node_type node =? FILENODE) || negb (node_keyApplied node) then None else Some node.

Definition CompareNodeWithProvidedMacAndFpExcludingMtime (node : option Node) (fp : FileFingerprint)
    (precalcMetamac : Z) : node_comparison_result :=
  match comparable node with
  | None => NODE_COMP_EARGS
  | Some node =>
      if negb (FP.equalExceptMtime fp (node_fp node)) then NODE_COMP_DIFFERS_FP
      else
        let remoteMac := key_mac (node_key node) in
        if negb (precalcMetamac =? remoteMac) then NODE_COMP_DIFFERS_MAC
        else if mtime fp =? mtime (node_fp node) then NODE_COMP_EQUAL else NODE_COMP_DIFFERS_MTIME
  end.

(** [opened]: the file object [fopen] made for the path, when it is a file; the
    event that is sent on a mismatch does not influence the result. *)
Definition CompareLocalFileWithNodeMacAndFpExludingMtime (opened : option FileAccess) (fp : FileFingerprint)
    (node : option Node) (isCancelled : nat -> bool) : option (node_comparison_result * Z) :=
  match comparable node with
  | None => Some (NODE_COMP_EARGS, INVALID_META_MAC)
  | Some node =>
      if negb (FP.equalExceptMtime fp (node_fp node)) then Some (NODE_COMP_DIFFERS_FP, INVALID_META_MAC)
      else
        match opened with
        | Some fa =>
            macResult ← CompareLocalFileMetaMacWithNodeKey fa (node_key node) (node_type node) isCancelled;
            Some (if errorCode macResult =? API_EINCOMPLETE then (NODE_COMP_CANCELLED, INVALID_META_MAC)
                  else if negb (areEqualMacs macResult) then (NODE_COMP_DIFFERS_MAC, localMac macResult)
                  else ((if mtime fp =? mtime (node_fp node) then NODE_COMP_EQUAL else NODE_COMP_DIFFERS_MTIME),
                        localMac macResult))
        | None => Some (NODE_COMP_EREAD, INVALID_META_MAC)
        end
  end.

End compare.

End MetaMac.

(** ** The chunks of a file *)
Module MetaMacFacts.
Import ChunkedHash ChunkmacMap ChunkmacFacts MetaMac.

(** The bytes of the chunk at [c], and the buffer with them, padded to whole
    blocks. *)
Definition chunk (content : bytes) (c : Z) : bytes :=
  substr content (Z.to_nat c) (Z.to_nat (chunkceil c (zlength content) - c)).
Definition padding (d : bytes) : nat := Z.to_nat (16 * ((zlength d + 15) / 16) - zlength d).
Definition pad16 (d : bytes) : bytes := d ++ replicate (padding d) 0.

Section macs.
Context `{AES}.

(** The MAC of a chunk: the CBC-MAC of the padded bytes from the doubled IV. *)
Definition chunk_mac (iv c : Z) (d : bytes) : bytes :=
  SymmCipher.mac_encrypt (length d) (pad16 d) (zlength d)
    (take 8 (SymmCipher.ctr_init c iv) ++ take 8 (SymmCipher.ctr_init c iv)).

(** The map with the finished MACs of the chunks before [n]. *)
Definition macs_upto (content : bytes) (iv n : Z) (l : list (Z * ChunkMAC)) : Prop :=
  omap_ok l /\ forall k, omap_find k l =
    if decide (chunk_start k /\ k < n) then Some (MkChunkMAC (chunk_mac iv k (chunk content k)) 0 true)
    else None.

Lemma macs_unique content iv n l1 l2 :
  macs_upto content iv n l1 -> macs_upto content iv n l2 -> l1 = l2.
Proof. intros [H1 F1] [H2 F2]. apply omap_ext; [done..|]. intros k. by rewrite F1, F2. Qed.

Lemma mac_encrypt_prefix f (p q : bytes) r mac :
  (BLOCKSIZE | length p)%nat -> r <= zlength p ->
  SymmCipher.mac_encrypt f (p ++ q) r mac = SymmCipher.mac_encrypt f p r mac.
Proof.
  intros Hd Hr. revert p r mac Hd Hr. induction f as [|f IH]; intros p r mac [k Hk] Hr; [done|].
  cbn [SymmCipher.mac_encrypt]. case_if; [done|]. zbool. unfold BLOCKSIZE in *.
  rewrite drop_app_le by lia. rewrite IH.
  - do 2 f_equal. unfold SymmCipher.xorblock, SymmCipher.xorblock_len, BLOCKSIZE.
    by rewrite (take_app_le p) by lia.
  - exists (k - 1)%nat. rewrite length_drop. lia.
  - rewrite length_drop. lia.
Qed.

Lemma padding_facts d :
  (padding d < BLOCKSIZE)%nat /\ (BLOCKSIZE | length d + padding d)%nat.
Proof.
  unfold padding, BLOCKSIZE. split; [dlia|].
  exists (Z.to_nat ((zlength d + 15) / 16)). dlia.
Qed.

(** Encrypting a chunk out of the reading buffer, which is padded with a block
    of zeros. *)
Lemma encrypt_chunk m c d iv :
  (ctr_encrypt m c (d ++ replicate BLOCKSIZE 0) (zlength d) c iv true).2
  = set_map (omap_insert c (MkChunkMAC (chunk_mac iv c d) 0 true) (mMacMap m)) m.
Proof.
  unfold ctr_encrypt, SymmCipher.ctr_crypt. cbn [fmap option_fmap option_map snd default id from_option].
  do 4 f_equal. unfold chunk_mac. rewrite Nat2Z.id.
  destruct (padding_facts d) as [H1 H2].
  replace (d ++ replicate BLOCKSIZE 0) with (pad16 d ++ replicate (BLOCKSIZE - padding d) 0).
  - apply mac_encrypt_prefix; unfold pad16; rewrite length_app, length_replicate; [done|lia].
  - unfold pad16. rewrite <- app_assoc, <- replicate_add. do 2 f_equal. lia.
Qed.

(** The transfer's view: the chunk's ciphertext, and the map after it has been
    decrypted. *)
Definition cipher_chunk (iv c : Z) (d : bytes) : bytes :=
  (SymmCipher.ctr_crypt (pad16 d) (zlength d) c iv (Some []) true true).1.
Definition decrypt_chunk (content : bytes) (iv : Z) (m : chunkmac_map) (c : Z) : bytes * chunkmac_map :=
  let d := chunk content c in
  ctr_decrypt m c (cipher_chunk iv c d) (zlength d) c iv true.
Definition download (content : bytes) (iv : Z) (order : list Z) : chunkmac_map :=
  foldl (fun m c => (decrypt_chunk content iv m c).2) clear order.

End macs.

Lemma decrypt_chunk_spec `{AES_laws} content iv m c :
  omap_find c (mMacMap m) = None -> zlength (chunk content c) < 2 ^ 31 ->
  decrypt_chunk content iv m c
  = (pad16 (chunk content c),
     set_map (omap_insert c (MkChunkMAC (chunk_mac iv c (chunk content c)) 0 true) (mMacMap m)) m).
Proof.
  intros Hf Hl. unfold decrypt_chunk, cipher_chunk. set (d := chunk content c) in *.
  destruct (padding_facts d) as [H1 H2].
  pose proof (ctr_crypt_inverse d [] (mac (entry c m)) (padding d) c iv Hl H1 H2) as E. cbv zeta in E.
  fold (pad16 d) in E.
  destruct (SymmCipher.ctr_crypt (pad16 d) (zlength d) c iv (Some []) true true) as [ct mc] eqn:Ec.
  cbn [fst]. unfold ctr_decrypt.
  assert (notStarted (entry c m) = true) as ->.
  { unfold entry. by rewrite Hf. }
  rewrite E. unfold SymmCipher.ctr_crypt in Ec. simplify_eq. cbn [fmap option_fmap option_map default id from_option].
  unfold chunk_mac. by rewrite Nat2Z.id.
Qed.

Lemma chunk_length content c :
  0 <= c < zlength content ->
  zlength (chunk content c) = chunkceil c (zlength content) - c /\ zlength (chunk content c) <= SZ_1024K.
Proof.
  intros Hc. unfold chunk. rewrite chunkceil_limit by lia.
  destruct (chunk_spec c ltac:(lia)) as [Hch Hr]. pose proof (is_chunk_size _ _ Hch) as Hs.
  rewrite length_substr by lia. unfold SZ_1024K, SEGSIZE in *. lia.
Qed.

Lemma download_macs `{AES_laws} content iv order n l :
  NoDup order -> (forall c, c ∈ order -> chunk_start c /\ c < zlength content /\ n <= c) ->
  omap_ok (mMacMap l) -> (forall c, c ∈ order -> omap_find c (mMacMap l) = None) ->
  let l' := foldl (fun m c => (decrypt_chunk content iv m c).2) l order in
  omap_ok (mMacMap l')
  /\ forall k, omap_find k (mMacMap l') =
       if decide (k ∈ order) then Some (MkChunkMAC (chunk_mac iv k (chunk content k)) 0 true)
       else omap_find k (mMacMap l).
Proof.
  revert l. induction order as [|c order IH]; intros l Hnd Hst Hok Hnone; cbn [foldl].
  { split; [done|]. intros k. by rewrite decide_False by apply not_elem_of_nil. }
  apply NoDup_cons in Hnd as [Hc Hnd].
  destruct (Hst c ltac:(by left)) as ([Hc0 _] & Hcs & _).
  pose proof (chunk_length content c ltac:(lia)) as [_ HL]. unfold SZ_1024K in HL.
  rewrite decrypt_chunk_spec by (try lia; apply Hnone; by left). cbn [snd].
  destruct (IH (set_map (omap_insert c (MkChunkMAC (chunk_mac iv c (chunk content c)) 0 true) (mMacMap l)) l))
    as [H1 H2]; simpl.
  - done.
  - intros x Hx. apply Hst. by right.
  - by apply insert_ok.
  - intros x Hx. rewrite find_insert_ne; [apply Hnone; by right|done|]. intros ->. done.
  - split; [done|]. intros k. rewrite H2. simpl.
    destruct (decide (k = c)) as [->|Hne].
    + rewrite decide_False, decide_True by (done || by left). by rewrite find_insert_eq.
    + destruct (decide (k ∈ order)).
      * by rewrite decide_True by by right.
      * rewrite decide_False by by intros [?|?]%elem_of_cons. apply find_insert_ne; congruence.
Qed.

(** ** The loop *)

Lemma chunk_start_dec_lt n c k :
  chunk_start c -> n = chunkceil c (-1) \/ (c < n /\ n <= chunkceil c (-1)) ->
  (chunk_start k /\ k < n) <-> (chunk_start k /\ k < c) \/ k = c.
Proof.
  intros Hc Hn. pose proof (chunk_spec c (proj1 Hc)) as [_ Hb]. split.
  - intros [Hk Hlt]. destruct (decide (k < c)); [by left|right].
    apply chunk_start_unique; (done || lia).
  - intros [ [Hk Hlt] | ->]; split; (done || lia).
Qed.

(** What the growing chunk length amounts to: the next chunk of the lattice. *)
Definition at_chunk (current L : Z) : Prop :=
  (current = 0 /\ L = 0) \/ is_chunk (current - L) current.

Lemma at_chunk_start current L : at_chunk current L -> chunk_start current /\ 0 <= L <= SZ_1024K.
Proof.
  unfold SZ_1024K. intros [ [-> ->] | Hc]; [split; [split; [lia|done]|lia]|].
  pose proof (is_chunk_size _ _ Hc) as Hs. unfold SEGSIZE in Hs. split; [|lia].
  destruct (is_chunk_at _ _ (current - L) Hc ltac:(lia)) as [_ <-].
  apply chunk_start_ceil. lia.
Qed.

Lemma next_length current L size :
  at_chunk current L -> current < size ->
  let L' := Z.min (u32 (L + SZ_128K)) (Z.min (size - current) SZ_1024K) in
  current + L' = chunkceil current size
  /\ (chunkceil current size < size -> at_chunk (current + L') L').
Proof.
  intros Hat Hlt. destruct (at_chunk_start _ _ Hat) as [Hst HL]. destruct Hst as [H0 Hf].
  cbv zeta. rewrite chunkceil_limit by lia.
  unfold SZ_1024K, SZ_128K in *. rewrite (wrapu_id 32) by lia.
  pose proof (floor_is_chunk current H0 Hf) as Hc. set (n := chunkceil current (-1)) in *.
  assert (n = current + Z.min (L + 2 ^ 17) (2 ^ 20)) as En.
  { destruct Hat as [ [-> ->] | Hat]; unfold is_chunk in *; [|].
    - repeat destruct Hc as [Hc|Hc]; hyps; lia.
    - repeat destruct Hc as [Hc|Hc]; repeat destruct Hat as [Hat|Hat]; hyps; lia. }
  split; [lia|]. intros Hn. right.
  replace (Z.min (L + 2 ^ 17) (Z.min (size - current) (2 ^ 20))) with (n - current) by lia.
  replace (current + (n - current) - (n - current)) with current by lia.
  by replace (current + (n - current)) with n by lia.
Qed.

Section run.
Context `{AES} (content : bytes) (iv : Z).
#[local] Instance file_stream : InputStream FileInputStream := FileInputStreamOps.stream (plain_file content).

Lemma macs_upto_step c m :
  chunk_start c -> c < zlength content ->
  macs_upto content iv c m ->
  macs_upto content iv (chunkceil c (zlength content))
    (omap_insert c (MkChunkMAC (chunk_mac iv c (chunk content c)) 0 true) m).
Proof.
  intros Hc Hlt [Hok Hf]. split; [by apply insert_ok|]. intros k.
  pose proof (chunk_spec c (proj1 Hc)) as [_ Hb].
  assert (Hd := chunk_start_dec_lt (chunkceil c (zlength content)) c k Hc
    ltac:(rewrite chunkceil_limit by lia; lia)).
  destruct (decide (k = c)) as [->|Hne].
  - rewrite find_insert_eq. rewrite decide_True; [done|]. apply Hd. by right.
  - rewrite find_insert_ne, Hf by (done || congruence).
    destruct (decide (chunk_start k /\ k < c)); [rewrite decide_True by tauto; done|].
    by rewrite decide_False by tauto.
Qed.

Lemma loop_spec fuel : forall q fa m current L,
  fa_size fa = zlength content ->
  current = zlength content \/ (at_chunk current L /\ current < zlength content) ->
  macs_upto content iv current (mMacMap m) ->
  (zlength content - current + (SZ_128K - 1)) / SZ_128K < Z.of_nat fuel ->
  exists m' s, loop never fuel q (MkFileInputStream fa current) m L current (zlength content - current) iv
      = Some (MkResult Success (macsmac m'), s)
    /\ macs_upto content iv (zlength content) (mMacMap m').
Proof.
  induction fuel as [|fuel IH]; intros q fa m current L Hfa Hcur Hm Hfuel.
  { exfalso. unfold SZ_128K in Hfuel.
    assert (0 <= (zlength content - current + (2 ^ 17 - 1)) / 2 ^ 17) by (apply Z.div_pos; lia). lia. }
  cbn [loop]. unfold never at 1 2. case_if; zbool.
  { exists m, (MkFileInputStream fa current). split; [done|].
    destruct Hcur as [->|?]; [done|lia]. }
  destruct Hcur as [?|[Hat Hlt]]; [lia|].
  destruct (next_length current L (zlength content) Hat Hlt) as [E1 E2].
  set (L' := Z.min (u32 (L + SZ_128K)) _) in *.
  destruct (at_chunk_start _ _ Hat) as [Hst HL].
  assert (Z.min (zlength content - current) SZ_128K <= L') as Hmin.
  { unfold L', SZ_128K, SZ_1024K in *. rewrite wrapu_id by lia. lia. }
  destruct (chunk_length content current ltac:(destruct Hst; lia)) as [Hcl _].
  pose proof (chunkceil_step (zlength content) current ltac:(destruct Hst; lia)) as Hcs.
  change (is_read (MkFileInputStream fa current) L')
    with (FileInputStreamOps.read (plain_file content) (MkFileInputStream fa current) L').
  unfold FileInputStreamOps.read. cbn [fileAccess fis_offset].
  rewrite plain_read by (destruct Hst; lia).
  replace (substr content (Z.to_nat current) (Z.to_nat L')) with (chunk content current)
    by (unfold chunk; do 2 f_equal; lia).
  replace L' with (zlength (chunk content current)) in * by lia.
  pose proof (encrypt_chunk m current (chunk content current) iv) as Ee.
  destruct (ctr_encrypt _ _ _ _ _ _ _) as [o m1]. cbn [snd] in Ee. subst m1.
  unfold never at 1.
  replace (zlength content - current - zlength (chunk content current))
    with (zlength content - (current + zlength (chunk content current))) by lia.
  apply IH.
  - done.
  - rewrite E1 in *. destruct (decide (chunkceil current (zlength content) < zlength content)); [right|left; lia].
    split; [by apply E2|done].
  - rewrite E1. by apply macs_upto_step.
  - unfold SZ_128K in *. destruct (decide (zlength content - current <= 2 ^ 17)); dlia.
Qed.

Lemma macs_upto_0 : macs_upto content iv 0 [].
Proof. split; [done|]. intros k. rewrite decide_False; [done|]. intros [[? _] ?]. lia. Qed.

(** A file is read to its end, whatever its size. *)
Lemma generate_plain mtime :
  exists m s, generateMetaMacCancellable never (FileInputStreamOps.open (plain_access content mtime)) iv
      = Some (MkResult Success (macsmac m), s)
    /\ macs_upto content iv (zlength content) (mMacMap m).
Proof.
  unfold generateMetaMacCancellable. change (is_size _) with (zlength content).
  replace (loop never (fuel_for (zlength content)) 0 (FileInputStreamOps.open (plain_access content mtime)) clear 0 0
             (zlength content) iv)
    with (loop never (fuel_for (zlength content)) 0 (MkFileInputStream (plain_access content mtime) 0) clear 0 0
             (zlength content - 0) iv) by (unfold FileInputStreamOps.open; do 2 f_equal; lia).
  apply loop_spec; [done| |apply macs_upto_0|].
  - destruct (decide (0 < zlength content)); [right|left; lia]. split; [by left|done].
  - unfold fuel_for, SZ_128K. dlia.
Qed.

End run.

(** On any stream, with any answers of the token, the loop ends. *)
Lemma loop_total `{AES} {T} `{InputStream T} isCancelled fuel : forall q (s : T) m L current remaining iv,
  0 <= L <= SZ_1024K -> (Z.max 0 remaining + (SZ_128K - 1)) / SZ_128K < Z.of_nat fuel ->
  is_Some (loop isCancelled fuel q s m L current remaining iv).
Proof.
  induction fuel as [|fuel IH]; intros q s m L current remaining iv HL Hf.
  { exfalso. unfold SZ_128K in Hf. assert (0 <= (Z.max 0 remaining + (2 ^ 17 - 1)) / 2 ^ 17) by (apply Z.div_pos; lia). lia. }
  cbn [loop]. case_if; [case_if; eauto|]. case_if; [eauto|]. zbool.
  unfold SZ_128K, SZ_1024K in *. rewrite wrapu_id by lia.
  destruct (is_read s _) as [[d|] s']; [|eauto]. case_if; [eauto|].
  destruct (ctr_encrypt _ _ _ _ _ _ _). apply IH; [lia|].
  destruct (decide (remaining <= 2 ^ 17)); dlia.
Qed.

(** Why a result is not a MAC. *)
Lemma loop_status `{AES} {T} `{InputStream T} isCancelled fuel : forall q (s : T) m L current remaining iv r s',
  loop isCancelled fuel q s m L current remaining iv = Some (r, s') ->
  (status r = Cancelled -> exists q, isCancelled q = true)
  /\ (status r = ReadError -> exists s n, (is_read s n).1 = None)
  /\ (status r <> Success -> metamac r = 0).
Proof.
  induction fuel as [|fuel IH]; intros q s m L current remaining iv r s' E; [done|].
  cbn [loop] in E. destruct (remaining <=? 0).
  { destruct (isCancelled q) eqn:Ec; simplify_eq; simpl; split_and!; (done || eauto). }
  destruct (isCancelled q) eqn:Ec; [simplify_eq; simpl; split_and!; (done || eauto)|].
  destruct (is_read s _) as [[d|] s1] eqn:Er.
  - destruct (isCancelled (q + 1)%nat) eqn:Ec'; [simplify_eq; simpl; split_and!; (done || eauto)|].
    destruct (ctr_encrypt _ _ _ _ _ _ _). by eapply IH.
  - simplify_eq. simpl. split_and!; try done. intros _. eexists s, _. by rewrite Er.
Qed.

(** The transfer's map and the reader's map are the same. *)
Lemma download_upto `{AES_laws} content iv order :
  NoDup order -> (forall c, c ∈ order <-> chunk_start c /\ c < zlength content) ->
  macs_upto content iv (zlength content) (mMacMap (download content iv order)).
Proof.
  intros Hnd Hord. destruct (download_macs content iv order 0 clear Hnd) as [H1 H2]; try done.
  { intros c Hc. apply Hord in Hc as [Hc ?]. destruct Hc. split_and!; done. }
  split; [done|]. intros k. unfold download. rewrite H2.
  destruct (decide (k ∈ order)) as [Hk|Hk]; rewrite Hord in Hk.
  - by rewrite decide_True.
  - by rewrite decide_False.
Qed.

Lemma macsmac_map `{AES} m m' : mMacMap m = mMacMap m' -> macsmac m = macsmac m'.
Proof. intros E. unfold macsmac. by rewrite E. Qed.

Lemma generate_download `{AES_laws} content mtime iv order :
  NoDup order -> (forall c, c ∈ order <-> chunk_start c /\ c < zlength content) ->
  exists fa, generateMetaMacCancellable_file (plain_file content) never (plain_access content mtime) iv
    = Some (MkResult Success (macsmac (download content iv order)), fa).
Proof.
  intros Hnd Hord. destruct (generate_plain content iv mtime) as (m & s & E & Hm).
  exists (fileAccess s). unfold generateMetaMacCancellable_file. unfold file_stream in E. rewrite E. cbn.
  do 3 f_equal. apply macsmac_map. eapply macs_unique; [exact Hm|]. by apply download_upto.
Qed.

End MetaMacFacts.

(** C9: the MAC of a local file is the one a transfer computes.  Whatever the
    order in which the chunks of the encrypted file arrive, decrypting each of
    them gives its plaintext (padded to blocks), and [macsmac] of the resulting
    map is what [generateMetaMac] finds by reading the plain file. *)
Theorem metamac_of_download `{AES_laws} (content : bytes) (mtime iv : Z) (order : list Z) :
  NoDup order ->
  (forall c, c ∈ order <-> ChunkmacFacts.chunk_start c /\ c < zlength content) ->
  (exists fa, MetaMac.generateMetaMac_file (plain_file content) (plain_access content mtime) iv
     = Some (true, ChunkmacMap.macsmac (MetaMacFacts.download content iv order), fa))
  /\ (forall done c, c ∈ order -> ~ c ∈ done -> NoDup done -> (forall d, d ∈ done -> d ∈ order) ->
      (MetaMacFacts.decrypt_chunk content iv (MetaMacFacts.download content iv done) c).1
      = MetaMacFacts.pad16 (MetaMacFacts.chunk content c)).
Proof.
  intros Hnd Hord. split.
  - destruct (MetaMacFacts.generate_download content mtime iv order Hnd Hord) as [fa E].
    exists fa. unfold MetaMac.generateMetaMac_file. by rewrite E.
  - intros ds c Hc Hnc Hds Hsub. apply Hord in Hc as [Hst Hlt]. destruct Hst as [Hc0 _].
    destruct (MetaMacFacts.chunk_length content c ltac:(lia)) as [_ HL]. unfold MetaMac.SZ_1024K in HL.
    rewrite MetaMacFacts.decrypt_chunk_spec; [done| |lia].
    destruct (MetaMacFacts.download_macs content iv ds 0 ChunkmacMap.clear Hds) as [_ F]; try done.
    { intros d Hd. apply Hsub, Hord in Hd as [Hd ?]. destruct Hd. by split_and!. }
    unfold MetaMacFacts.download. rewrite F. by rewrite decide_False.
Qed.

(** C33: [generateMetaMac] always comes to a result, on any stream and whatever
    the token answers; it reports a cancellation only if the token said so, a
    read error only if a read failed, and a MAC only on success. *)
Theorem metamac_terminates `{AES} {T : Type} `{InputStream T} (isCancelled : nat -> bool) (isAccess : T) (iv : Z) :
  exists r s, MetaMac.generateMetaMacCancellable isCancelled isAccess iv = Some (r, s)
    /\ (status r = Cancelled -> exists q, isCancelled q = true)
    /\ (status r = ReadError -> exists s n, (is_read s n).1 = None)
    /\ (status r <> Success -> metamac r = 0).
Proof.
  unfold MetaMac.generateMetaMacCancellable.
  destruct (MetaMacFacts.loop_total isCancelled (MetaMac.fuel_for (is_size isAccess)) 0 isAccess
              ChunkmacMap.clear 0 0 (is_size isAccess) iv) as [[r s] E].
  - by split.
  - unfold MetaMac.fuel_for, MetaMac.SZ_128K. dlia.
  - exists r, s. split; [exact E|]. exact (MetaMacFacts.loop_status _ _ _ _ _ _ _ _ _ _ _ E).
Qed.

(** The comparison of a readable local file with a file node whose
    fingerprint matches (the time apart) is decided by the MAC in the node's
    key: the node differs exactly when that MAC is not the one a transfer of the
    file under the key would compute, and otherwise the times decide. *)
Theorem compare_file_with_node (aes : bytes -> AES) (laws : forall k, @AES_laws (aes k))
    (content : bytes) (mtime' : Z) (fp : FileFingerprint) (node : Node) (order : list Z) :
  node_type node = FILENODE -> node_keyApplied node = true ->
  length (node_key node) = FILENODEKEYLENGTH ->
  FP.equalExceptMtime fp (node_fp node) = true ->
  NoDup order ->
  (forall c, c ∈ order <-> ChunkmacFacts.chunk_start c /\ c < zlength content) ->
  let cipher := aes (SymmCipher.setkey (node_key node) FILENODE) in
  let mac := @ChunkmacMap.macsmac cipher
               (@MetaMacFacts.download cipher content (MetaMac.key_iv (node_key node)) order) in
  MetaMac.CompareLocalFileWithNodeMacAndFpExludingMtime aes (plain_file content)
    (Some (plain_access content mtime')) fp (Some node) MetaMac.never
  = Some ((if negb (mac =? MetaMac.key_mac (node_key node)) then NODE_COMP_DIFFERS_MAC
           else if mtime fp =? mtime (node_fp node) then NODE_COMP_EQUAL else NODE_COMP_DIFFERS_MTIME),
          mac).
Proof.
  intros Ht Hk Hl Hf Hnd Hord cipher mac.
  destruct (@MetaMacFacts.generate_download cipher (laws _) content mtime'
              (MetaMac.key_iv (node_key node)) order Hnd Hord) as [fa E].
  unfold MetaMac.CompareLocalFileWithNodeMacAndFpExludingMtime, MetaMac.comparable. cbn [mbind option_bind].
  rewrite Ht, Z.eqb_refl, Hk. cbn [negb orb]. rewrite Hf. cbn [negb].
  unfold MetaMac.CompareLocalFileMetaMacWithNodeKey. rewrite Hl. cbn [negb Nat.eqb FILENODEKEYLENGTH].
  cbv zeta. rewrite Ht. unfold cipher in E. rewrite E. cbn [mbind option_bind status metamac errorCode areEqualMacs localMac].
  change (0 =? API_EINCOMPLETE) with false. cbv iota. subst mac. destruct (negb _); reflexivity.
Qed.

(** A file that cannot be read to its end is reported as different.  The
    header promises [NODE_COMP_EREAD] for an error reading the local file and
    warns that a non-zero [errorCode] does not imply a difference, but only a
    failed open is reported so: when the first read fails with any error number,
    the answer is [NODE_COMP_DIFFERS_MAC], without a MAC. *)
Theorem compare_read_error (aes : bytes -> AES) (os : OSFile) (fa : FileAccess) (errno : Z)
    (fp : FileFingerprint) (node : Node) (isCancelled : nat -> bool) :
  node_type node = FILENODE -> node_keyApplied node = true ->
  length (node_key node) = FILENODEKEYLENGTH ->
  FP.equalExceptMtime fp (node_fp node) = true ->
  0 < fa_size fa -> 0 < errno -> (forall n off, os_pread os n off = inl errno) ->
  isCancelled 0%nat = false ->
  MetaMac.CompareLocalFileMetaMacWithNodeKey aes os fa (node_key node) (node_type node) isCancelled
  = Some (MkComparison false INVALID_META_MAC (MetaMac.key_mac (node_key node)) errno)
  /\ MetaMac.CompareLocalFileWithNodeMacAndFpExludingMtime aes os (Some fa) fp (Some node) isCancelled
     = Some (NODE_COMP_DIFFERS_MAC, INVALID_META_MAC).
Proof.
  intros Ht Hk Hl Hf Hs He Hr Hc.
  assert (MetaMac.CompareLocalFileMetaMacWithNodeKey aes os fa (node_key node) (node_type node) isCancelled
          = Some (MkComparison false INVALID_META_MAC (MetaMac.key_mac (node_key node)) errno)) as E.
  { unfold MetaMac.CompareLocalFileMetaMacWithNodeKey. rewrite Hl. cbn [negb Nat.eqb FILENODEKEYLENGTH].
    unfold MetaMac.generateMetaMacCancellable_file, MetaMac.generateMetaMacCancellable, MetaMac.fuel_for.
    change (is_size (FileInputStreamOps.open fa)) with (fa_size fa). cbn [MetaMac.loop].
    rewrite (proj2 (Z.leb_gt _ _)), Hc by lia.
    cbn [is_read FileInputStreamOps.stream]. unfold FileInputStreamOps.read, frawread, sysread.
    by rewrite Hr. }
  split; [exact E|].
  unfold MetaMac.CompareLocalFileWithNodeMacAndFpExludingMtime, MetaMac.comparable. cbn [mbind option_bind].
  rewrite Ht, Z.eqb_refl, Hk. cbn [negb orb]. rewrite Hf. cbn [negb]. rewrite E.
  cbn [mbind option_bind errorCode areEqualMacs].
  by rewrite (proj2 (Z.eqb_neq _ _)) by (unfold API_EINCOMPLETE; lia).
Qed.

(** ** Concrete instances: a file of 131073 bytes has the chunks 0 and 131072. *)
Module MetaMacExamples.
Import ChunkedHash ChunkmacFacts.

Definition content : bytes := replicate (Z.to_nat 131073) 7.
Definition node (fp : FileFingerprint) : Node := MkNode fp FILENODE true (replicate 32 5).
Definition fp : FileFingerprint := MkFileFingerprint 131073 100 (replicate 16 1) true.

Lemma length_content : zlength content = 131073.
Proof. unfold content. rewrite length_replicate. lia. Qed.

Lemma two_chunks c : c ∈ [131072; 0] <-> chunk_start c /\ c < zlength content.
Proof.
  rewrite length_content, !elem_of_cons. split.
  - intros [->|[->|[]%not_elem_of_nil]]; (split; [split; [lia|vm_compute; reflexivity]|lia]).
  - intros [Hc Hlt]. assert (0 <= c) by apply Hc. destruct (decide (c < 131072)).
    + right. left. apply (chunk_start_unique 0 c); [by split|done|].
      change (chunkceil 0 (-1)) with 131072. lia.
    + left. lia.
Qed.
End MetaMacExamples.

Lemma metamac_of_download_witness :
  (exists fa, @MetaMac.generateMetaMac_file ToyCipher.toy (plain_file MetaMacExamples.content)
                (plain_access MetaMacExamples.content 9) 77
     = Some (true, @ChunkmacMap.macsmac ToyCipher.toy
                     (@MetaMacFacts.download ToyCipher.toy MetaMacExamples.content 77 [131072; 0]), fa))
  /\ (forall done c, c ∈ [131072; 0] -> ~ c ∈ done -> NoDup done -> (forall d, d ∈ done -> d ∈ [131072; 0]) ->
      (@MetaMacFacts.decrypt_chunk ToyCipher.toy MetaMacExamples.content 77
         (@MetaMacFacts.download ToyCipher.toy MetaMacExamples.content 77 done) c).1
      = MetaMacFacts.pad16 (MetaMacFacts.chunk MetaMacExamples.content c)).
Proof.
  apply (@metamac_of_download ToyCipher.toy ToyCipher.toy_laws).
  - apply NoDup_cons. split; [|apply NoDup_singleton]. intros E. apply list_elem_of_singleton in E. done.
  - apply MetaMacExamples.two_chunks.
Defined.

Lemma compare_file_with_node_witness :
  let node := MetaMacExamples.node MetaMacExamples.fp in
  let cipher := ToyCipher.toy in
  let mac := @ChunkmacMap.macsmac cipher
               (@MetaMacFacts.download cipher MetaMacExamples.content
                  (MetaMac.key_iv (node_key node)) [131072; 0]) in
  MetaMac.CompareLocalFileWithNodeMacAndFpExludingMtime (fun _ => ToyCipher.toy)
    (plain_file MetaMacExamples.content)
    (Some (plain_access MetaMacExamples.content 3)) MetaMacExamples.fp (Some node) MetaMac.never
  = Some ((if negb (mac =? MetaMac.key_mac (node_key node)) then NODE_COMP_DIFFERS_MAC
           else if mtime MetaMacExamples.fp =? mtime (node_fp node) then NODE_COMP_EQUAL else NODE_COMP_DIFFERS_MTIME),
          mac).
Proof.
  apply (compare_file_with_node (fun _ => ToyCipher.toy) (fun _ => ToyCipher.toy_laws)
           MetaMacExamples.content 3 MetaMacExamples.fp (MetaMacExamples.node MetaMacExamples.fp) [131072; 0]).
  - reflexivity.
  - reflexivity.
  - reflexivity.
  - reflexivity.
  - apply NoDup_cons. split; [|apply NoDup_singleton]. intros E. apply list_elem_of_singleton in E. done.
  - apply MetaMacExamples.two_chunks.
Defined.

Lemma compare_read_error_witness :
  let node := MetaMacExamples.node MetaMacExamples.fp in
  let os := MkOSFile (fun _ _ => inl 5) None true in
  let fa := MkFileAccess 131073 100 false false 0 in
  MetaMac.CompareLocalFileMetaMacWithNodeKey (fun _ => ToyCipher.toy) os fa (node_key node) (node_type node)
    MetaMac.never
  = Some (MkComparison false INVALID_META_MAC (MetaMac.key_mac (node_key node)) 5)
  /\ MetaMac.CompareLocalFileWithNodeMacAndFpExludingMtime (fun _ => ToyCipher.toy) os (Some fa)
       MetaMacExamples.fp (Some node) MetaMac.never
     = Some (NODE_COMP_DIFFERS_MAC, INVALID_META_MAC).
Proof.
  apply (compare_read_error (fun _ => ToyCipher.toy) (MkOSFile (fun _ _ => inl 5) None true)
           (MkFileAccess 131073 100 false false 0) 5 MetaMacExamples.fp
           (MetaMacExamples.node MetaMacExamples.fp) MetaMac.never);
    try reflexivity; simpl; lia.
Defined.
