(* ===== verification/SharedMutex.v ===== *)
(** * The recursive shared mutex

    src/common/shared_mutex.cpp, in its checked build: every member function is
    one critical section of the inner [std::mutex] up to its wait, and the model
    has one function per section; a failing [assert] is the result [None].  A
    step relation interleaves the sections of any number of threads, with the
    waits and notifications of the two condition variables. *)

From stdpp Require Import functions.
From S2P Require Import Prelude.
Local Open Scope Z_scope.

Abbreviation tid := nat.

(** [mReaders] is the map the assertions maintain; [None] is the default
    [std::thread::id]. *)
Record SharedMutex := MkSharedMutex {
  mCounter : Z;
  mReaders : gmap tid Z;
  mWriterID : option tid
}.

Module SM.

Definition init : SharedMutex := MkSharedMutex 0 ∅ None.

Definition assert_ (b : bool) : option unit := if b then Some () else None.

Definition owns (m : SharedMutex) (id : tid) : bool := bool_decide (mWriterID m = Some id).

(** The predicate readers wait for, and the one writers wait for. *)
Definition readable (m : SharedMutex) : bool := 0 <=? mCounter m.
Definition writable (m : SharedMutex) : bool := mCounter m =? 0.

(** [++mReaders[id]]: an absent entry counts from zero. *)
Definition add_reader (id : tid) (m : SharedMutex) : gmap tid Z :=
  <[id := default 0 (mReaders m !! id) + 1]> (mReaders m).

(** [try_lock_shared_until] when its wait ends: at once, on a notification or
    at the deadline.  The result says whether the predicate held then. *)
Definition try_lock_shared (id : tid) (validate : bool) (m : SharedMutex) : option (bool * SharedMutex) :=
  assert_ (negb validate || negb (owns m id));;
  if readable m then
    Some (true, MkSharedMutex (mCounter m + 1) (add_reader id m) (mWriterID m))
  else Some (false, m).

(** [try_lock_until], likewise; the owner does not wait. *)
Definition try_lock (id : tid) (m : SharedMutex) : option (bool * SharedMutex) :=
  assert_ (bool_decide (mReaders m !! id = None));;
  if owns m id then Some (true, MkSharedMutex (mCounter m - 1) (mReaders m) (mWriterID m))
  else if writable m then Some (true, MkSharedMutex (mCounter m - 1) (mReaders m) (Some id))
  else Some (false, m).

(** Whom an operation notifies when it is done. *)
Record notification := MkNotification { all_readers : bool; one_writer : bool }.

Definition unique_to_shared (id : tid) (m : SharedMutex) : option (SharedMutex * notification) :=
  assert_ (owns m id);;
  assert_ (mCounter m =? -1);;
  assert_ (negb (default 0 (mReaders m !! id) + 1 =? 0));;
  Some (MkSharedMutex 1 (add_reader id m) None, MkNotification true false).

Definition unlock (id : tid) (m : SharedMutex) : option (SharedMutex * notification) :=
  assert_ (mCounter m <? 0);;
  assert_ (owns m id);;
  let counter := mCounter m + 1 in
  let m := MkSharedMutex counter (mReaders m) (if counter =? 0 then None else mWriterID m) in
  if counter <? 0 then Some (m, MkNotification false false)
  else Some (m, MkNotification true true).

Definition unlock_shared (id : tid) (m : SharedMutex) : option (SharedMutex * notification) :=
  assert_ (0 <? mCounter m);;
  n ← mReaders m !! id;
  assert_ (0 <? n);;
  let readers := if n - 1 =? 0 then delete id (mReaders m) else <[id := n - 1]> (mReaders m) in
  let counter := mCounter m - 1 in
  let m := MkSharedMutex counter readers (mWriterID m) in
  if 0 <? counter then Some (m, MkNotification false false)
  else Some (m, MkNotification false true).

(** ** Threads

    What a thread holds or waits for; a waiting thread may have been notified
    and not run yet. *)
Inductive thread :=
  | Idle
  | WaitR (notified : bool)
  | WaitW (notified : bool)
  | Shared (n : Z)
  | Exclusive (n : Z).

#[export] Instance thread_eq_dec : EqDecision thread.
Proof. solve_decision. Defined.

(** The notifications are made after the inner mutex is released, so they may
    come after sections of other threads: [to_readers] calls of [notify_all] and
    [to_writers] calls of [notify_one] are still to be made. *)
Record system := MkSystem {
  mutex : SharedMutex;
  threads : tid -> thread;
  to_readers : nat;
  to_writers : nat
}.

Definition start : system := MkSystem init (fun _ => Idle) 0 0.

(** A section that notifies nobody. *)
Definition set_thread (s : system) (m : SharedMutex) (t : tid) (x : thread) : system :=
  MkSystem m (<[t := x]> (threads s)) (to_readers s) (to_writers s).

(** A section that ends with notifications. *)
Definition release (s : system) (m : SharedMutex) (t : tid) (x : thread) (k : notification) : system :=
  MkSystem m (<[t := x]> (threads s))
    (to_readers s + Nat.b2n (all_readers k)) (to_writers s + Nat.b2n (one_writer k)).

(** [notify_all] on the condition variable of the readers. *)
Definition notify_readers (ths : tid -> thread) : tid -> thread := fun t =>
  match ths t with WaitR false => WaitR true | s => s end.

(** [notify_one] wakes one of the blocked writers, if there is one. *)
Inductive notify_writer (ths : tid -> thread) : (tid -> thread) -> Prop :=
  | notify_nobody : (forall t, ths t <> WaitW false) -> notify_writer ths ths
  | notify_some t : ths t = WaitW false -> notify_writer ths (<[t := WaitW true]> ths).

(** What a thread holds after one more or one less lock. *)
Definition more_shared (s : thread) : thread := match s with Shared n => Shared (n + 1) | _ => Shared 1 end.
Definition more_exclusive (s : thread) : thread := match s with Exclusive n => Exclusive (n + 1) | _ => Exclusive 1 end.
Definition less (s : thread) : thread :=
  match s with
  | Shared n => if n =? 1 then Idle else Shared (n - 1)
  | Exclusive n => if n =? 1 then Idle else Exclusive (n - 1)
  | s => s
  end.

(** The calls a thread may make, which is what the assertions ask for: it does
    not ask for shared ownership while it owns the mutex exclusively, nor the
    other way round, and releases only what it holds. *)
Definition may_lock_shared (s : thread) : bool :=
  match s with Idle | Shared _ => true | _ => false end.
Definition may_lock (s : thread) : bool :=
  match s with Idle | Exclusive _ => true | _ => false end.
Definition is_waiting_r (s : thread) : bool := match s with WaitR _ => true | _ => false end.
Definition is_waiting_w (s : thread) : bool := match s with WaitW _ => true | _ => false end.

(** One critical section of one thread.  [lock_shared] and [lock] are the same
    sections as their timed variants: a thread whose predicate fails either
    blocks (again) or, at its deadline, gives up. *)
Inductive step (s : system) : system -> Prop :=
  | step_shared t v m :
      may_lock_shared (threads s t) || is_waiting_r (threads s t) = true ->
      try_lock_shared t v (mutex s) = Some (true, m) ->
      step s (set_thread s m t (more_shared (threads s t)))
  | step_shared_block t v m :
      may_lock_shared (threads s t) || is_waiting_r (threads s t) = true ->
      try_lock_shared t v (mutex s) = Some (false, m) ->
      step s (set_thread s m t (WaitR false))
  | step_shared_timeout t v m :
      is_waiting_r (threads s t) = true -> try_lock_shared t v (mutex s) = Some (false, m) ->
      step s (set_thread s m t Idle)
  | step_lock t m :
      may_lock (threads s t) || is_waiting_w (threads s t) = true ->
      try_lock t (mutex s) = Some (true, m) ->
      step s (set_thread s m t (more_exclusive (threads s t)))
  | step_lock_block t m :
      may_lock (threads s t) || is_waiting_w (threads s t) = true ->
      try_lock t (mutex s) = Some (false, m) ->
      step s (set_thread s m t (WaitW false))
  | step_lock_timeout t m :
      is_waiting_w (threads s t) = true -> try_lock t (mutex s) = Some (false, m) ->
      step s (set_thread s m t Idle)
  | step_unlock t n m k :
      threads s t = Exclusive n -> unlock t (mutex s) = Some (m, k) ->
      step s (release s m t (less (Exclusive n)) k)
  | step_unlock_shared t n m k :
      threads s t = Shared n -> unlock_shared t (mutex s) = Some (m, k) ->
      step s (release s m t (less (Shared n)) k)
  | step_downgrade t m k :
      threads s t = Exclusive 1 -> unique_to_shared t (mutex s) = Some (m, k) ->
      step s (release s m t (Shared 1) k)
  | step_notify_readers n :
      to_readers s = S n ->
      step s (MkSystem (mutex s) (notify_readers (threads s)) n (to_writers s))
  | step_notify_writer n ths :
      to_writers s = S n -> notify_writer (threads s) ths ->
      step s (MkSystem (mutex s) ths (to_readers s) n).

Definition reachable : system -> Prop := rtc step start.

(** ** The invariant *)

Definition sum (m : gmap tid Z) : Z := map_fold (fun _ n acc => n + acc) 0 m.

Lemma sum_delete t n m : m !! t = Some n -> sum m = n + sum (delete t m).
Proof. intros. unfold sum. apply (map_fold_delete_L (fun _ n acc => n + acc)); [intros; lia|done]. Qed.

Lemma sum_add t d m : sum (<[t := default 0 (m !! t) + d]> m) = sum m + d.
Proof.
  rewrite (sum_delete t _ (<[t := _]> m)) by apply lookup_insert_eq. rewrite delete_insert_eq.
  destruct (m !! t) as [n|] eqn:E; simpl.
  - rewrite (sum_delete t n m) by done. lia.
  - rewrite delete_id by done. lia.
Qed.

Lemma sum_at t n m : (forall t n, m !! t = Some n -> 0 < n) -> m !! t = Some n -> n <= sum m.
Proof.
  intros Hp Ht. rewrite (sum_delete t n m) by done.
  enough (0 <= sum (delete t m)) by lia.
  assert (forall t' n', delete t m !! t' = Some n' -> 0 < n') as Hd.
  { intros t' n' E. apply lookup_delete_Some in E as [_ E]. eauto. }
  revert Hd. generalize (delete t m). clear. intros m. unfold sum.
  apply (map_fold_weak_ind (fun acc m => (forall t n, m !! t = Some n -> 0 < n) -> 0 <= acc)); [done|].
  intros i x m' r Hi IH Hp. assert (0 < x) by (apply (Hp i); apply lookup_insert_eq).
  enough (0 <= r) by lia. apply IH. intros t n E. apply (Hp t).
  rewrite lookup_insert_ne; [done|]. intros ->. congruence.
Qed.

(** What the counter, the reader map and the owner say about the threads. *)
Record shape (s : system) : Prop := {
  inv_readers : forall t n, mReaders (mutex s) !! t = Some n <-> threads s t = Shared n;
  inv_positive : forall t n, threads s t = Shared n -> 0 < n;
  inv_owner : forall t n, threads s t = Exclusive n <->
    mWriterID (mutex s) = Some t /\ n = - mCounter (mutex s);
  inv_free : mWriterID (mutex s) = None <-> 0 <= mCounter (mutex s);
  inv_sum : 0 <= mCounter (mutex s) -> mCounter (mutex s) = sum (mReaders (mutex s));
  inv_alone : mCounter (mutex s) < 0 -> mReaders (mutex s) = ∅
}.

(** And that nobody sleeps through its chance. *)
Record inv (s : system) : Prop := {
  inv_shape :> shape s;
  inv_wake_readers : 0 <= mCounter (mutex s) -> forall t, threads s t = WaitR false -> (0 < to_readers s)%nat;
  inv_wake_writer : mCounter (mutex s) = 0 -> (exists t, threads s t = WaitW false) ->
    (exists t, threads s t = WaitW true) \/ (0 < to_writers s)%nat
}.

Lemma inv_start : inv start.
Proof.
  split; [split|..]; cbn [mutex threads start init mReaders mWriterID mCounter to_readers to_writers]; try done.
  - intros t n. by split; intros; hyps.
  - intros _ [t Ht]. done.
Qed.

(** Reading an updated thread map. *)
Ltac upd t' t :=
  destruct (decide (t' = t)) as [->|?];
  [rewrite fn_lookup_insert in *|rewrite (fn_lookup_insert_ne _ t t') in * by congruence].

Lemma try_lock_shared_spec id v m r m' :
  try_lock_shared id v m = Some (r, m') ->
  (r = true /\ 0 <= mCounter m
     /\ m' = MkSharedMutex (mCounter m + 1) (<[id := default 0 (mReaders m !! id) + 1]> (mReaders m)) (mWriterID m))
  \/ (r = false /\ mCounter m < 0 /\ m' = m).
Proof.
  unfold try_lock_shared, assert_, readable. destruct (negb v || _); [|done]. simpl.
  destruct (0 <=? mCounter m) eqn:E; intros; simplify_eq; zbool; [left|right]; auto.
Qed.

Lemma try_lock_spec id m r m' :
  try_lock id m = Some (r, m') ->
  mReaders m !! id = None /\
  ((r = true /\ (mWriterID m = Some id \/ mCounter m = 0)
     /\ m' = MkSharedMutex (mCounter m - 1) (mReaders m) (Some id))
   \/ (r = false /\ mCounter m <> 0 /\ mWriterID m <> Some id /\ m' = m)).
Proof.
  unfold try_lock, assert_, owns, writable.
  destruct (bool_decide (mReaders m !! id = None)) eqn:E1; [|done]. apply bool_decide_eq_true in E1. simpl.
  destruct (bool_decide (mWriterID m = Some id)) eqn:E2; [apply bool_decide_eq_true in E2|apply bool_decide_eq_false in E2].
  - intros; simplify_eq. split; [done|left]. split_and!; [done|by left|by rewrite E2].
  - destruct (mCounter m =? 0) eqn:E; intros; simplify_eq; zbool; (split; [done|]); [left|right]; auto.
Qed.

(** The releases, under their assertions. *)
Lemma unlock_spec id m m' k :
  unlock id m = Some (m', k) ->
  mCounter m < 0 /\ mWriterID m = Some id /\
  ((mCounter m < -1 /\ m' = MkSharedMutex (mCounter m + 1) (mReaders m) (mWriterID m)
      /\ k = MkNotification false false)
   \/ (mCounter m = -1 /\ m' = MkSharedMutex 0 (mReaders m) None /\ k = MkNotification true true)).
Proof.
  unfold unlock, assert_, owns. destruct (mCounter m <? 0) eqn:E; [|done]. simpl.
  destruct (bool_decide (mWriterID m = Some id)) eqn:E2; [apply bool_decide_eq_true in E2|done]. simpl. zbool.
  destruct (mCounter m + 1 =? 0) eqn:E0; zbool.
  - replace (mCounter m + 1) with 0 by lia. simpl. intros; simplify_eq. split_and!; try done. right. split_and!; (done || lia).
  - rewrite (proj2 (Z.ltb_lt _ _)) by lia. intros; simplify_eq. split_and!; try done. left. split_and!; (done || lia).
Qed.

Lemma unlock_shared_spec id m m' k :
  unlock_shared id m = Some (m', k) ->
  0 < mCounter m /\ exists n, mReaders m !! id = Some n /\ 0 < n
  /\ mCounter m' = mCounter m - 1 /\ mWriterID m' = mWriterID m
  /\ mReaders m' = (if n - 1 =? 0 then delete id (mReaders m) else <[id := n - 1]> (mReaders m))
  /\ all_readers k = false /\ (one_writer k = true <-> mCounter m = 1).
Proof.
  unfold unlock_shared, assert_. destruct (0 <? mCounter m) eqn:E; [|done]. simpl.
  destruct (mReaders m !! id) as [n|]; [|done]. simpl. destruct (0 <? n) eqn:En; [|done]. simpl. zbool.
  destruct (0 <? mCounter m - 1) eqn:E1; zbool; intros; simplify_eq; (split; [done|]);
    exists n; simpl; split_and!; try done; split; intros; (done || lia).
Qed.

Lemma positive_readers s : inv s -> forall t n, mReaders (mutex s) !! t = Some n -> 0 < n.
Proof. intros Hi t n Ht. apply (inv_positive s Hi t). by apply (inv_readers s Hi). Qed.

Lemma no_owner s : inv s -> 0 <= mCounter (mutex s) -> forall t n, threads s t <> Exclusive n.
Proof.
  intros Hi Hc t n Ht. apply (inv_owner s Hi) in Ht as [Ht _]. apply (inv_free s Hi) in Hc. congruence.
Qed.

Lemma no_readers s : inv s -> mCounter (mutex s) < 0 -> forall t n, threads s t <> Shared n.
Proof.
  intros Hi Hc t n Ht. apply (inv_readers s Hi) in Ht. rewrite (inv_alone s Hi Hc), lookup_empty in Ht. done.
Qed.

Lemma shared_step_inv s t v m :
  inv s -> may_lock_shared (threads s t) || is_waiting_r (threads s t) = true ->
  try_lock_shared t v (mutex s) = Some (true, m) ->
  inv (set_thread s m t (more_shared (threads s t))).
Proof.
  intros Hi Hmay E. apply try_lock_shared_spec in E as [(_ & Hc & ->)|[? _]]; [|done].
  assert (more_shared (threads s t) = Shared (default 0 (mReaders (mutex s) !! t) + 1)) as ->.
  { destruct (mReaders (mutex s) !! t) as [n|] eqn:Et.
    - apply (inv_readers s Hi) in Et. by rewrite Et.
    - destruct (threads s t) as [| | |n|n] eqn:Eth; try done. apply (inv_readers s Hi) in Eth. congruence. }
  assert (0 < default 0 (mReaders (mutex s) !! t) + 1) as Hpos.
  { destruct (mReaders (mutex s) !! t) as [n|] eqn:Et; simpl; [|lia].
    pose proof (positive_readers s Hi t n Et). lia. }
  split; [split|..]; cbn [set_thread mutex threads mCounter mReaders mWriterID to_readers to_writers]; try lia.
  - intros t' n. upd t' t; [rewrite lookup_insert_eq; split; congruence|].
    rewrite lookup_insert_ne by congruence. apply (inv_readers s Hi).
  - intros t' n. upd t' t; [intros [= <-]; lia|]. apply (inv_positive s Hi).
  - intros t' n. pose proof (no_owner s Hi Hc t') as Hno. pose proof (proj2 (inv_free s Hi) Hc) as Hw.
    rewrite Hw. split; [|by intros [? _]]. upd t' t; [done|]. intros Ht. by destruct (Hno n).
  - split; [lia|]. intros _. by apply (inv_free s Hi).
  - intros _. rewrite sum_add, <- (inv_sum s Hi) by done. done.
  - intros _ t'. upd t' t; [done|]. by apply (inv_wake_readers s Hi).
Qed.

(** A thread that holds nothing and comes to wait, or stops waiting, while the
    mutex is not free. *)
Lemma idle_step_inv s t x :
  inv s -> (forall n, threads s t <> Shared n) -> (forall n, threads s t <> Exclusive n) ->
  (x = WaitR false /\ mCounter (mutex s) < 0) \/ (x = WaitW false /\ mCounter (mutex s) <> 0)
    \/ (x = Idle /\ mCounter (mutex s) <> 0) ->
  inv (set_thread s (mutex s) t x).
Proof.
  intros Hi Hs He Hx.
  assert (forall n, x <> Shared n) by (intros n ->; naive_solver).
  assert (forall n, x <> Exclusive n) by (intros n ->; naive_solver).
  split; [split|..]; cbn [set_thread mutex threads to_readers to_writers]; try apply (inv_shape s Hi).
  - intros t' n. upd t' t; [|apply (inv_readers s Hi)]. rewrite (inv_readers s Hi). naive_solver.
  - intros t' n. upd t' t; [naive_solver|apply (inv_positive s Hi)].
  - intros t' n. upd t' t; [|apply (inv_owner s Hi)]. rewrite <- (inv_owner s Hi). naive_solver.
  - intros Hc t'. upd t' t; [|by apply (inv_wake_readers s Hi)]. intros ->. naive_solver lia.
  - intros Hc. naive_solver lia.
Qed.

Lemma lock_step_inv s t m :
  inv s -> may_lock (threads s t) || is_waiting_w (threads s t) = true ->
  try_lock t (mutex s) = Some (true, m) ->
  inv (set_thread s m t (more_exclusive (threads s t))).
Proof.
  intros Hi Hmay E. apply try_lock_spec in E as [Hnr [(_ & Hc & ->)|[? _]]]; [|done].
  assert (mCounter (mutex s) <= 0) as Hle.
  { destruct Hc as [Ho|]; [|lia]. destruct (decide (0 <= mCounter (mutex s))) as [Hge|]; [|lia].
    apply (inv_free s Hi) in Hge. congruence. }
  assert (more_exclusive (threads s t) = Exclusive (- (mCounter (mutex s) - 1))) as ->.
  { destruct (decide (mCounter (mutex s) < 0)).
    - destruct Hc as [Ho|]; [|lia].
      rewrite (proj2 (inv_owner s Hi t (- mCounter (mutex s)))) by done. simpl. f_equal. lia.
    - assert (mCounter (mutex s) = 0) as E0 by lia. rewrite E0.
      pose proof (no_owner s Hi ltac:(lia) t) as Hno. destruct (threads s t) as [| | | |k]; try done.
      by destruct (Hno k). }
  assert (mReaders (mutex s) = ∅) as Hemp.
  { destruct (decide (mCounter (mutex s) < 0)); [by apply (inv_alone s Hi)|].
    apply map_empty. intros t'. destruct (mReaders (mutex s) !! t') as [k|] eqn:Et; [|done].
    pose proof (sum_at t' k _ (positive_readers s Hi) Et). pose proof (positive_readers s Hi t' k Et).
    pose proof (inv_sum s Hi ltac:(lia)). lia. }
  split; [split|..]; cbn [set_thread mutex threads mCounter mReaders mWriterID to_readers to_writers]; try lia; try done.
  - intros t' n. rewrite Hemp, lookup_empty. split; [done|]. upd t' t; [done|].
    intros Ht. apply (inv_readers s Hi) in Ht. by rewrite Hemp, lookup_empty in Ht.
  - intros t' n. upd t' t; [done|]. apply (inv_positive s Hi).
  - intros t' n. upd t' t; [split; [intros [= <-]; done|intros [_ ->]; done]|].
    split; [|intros [? _]; congruence]. intros Ht. apply (inv_owner s Hi) in Ht as [Ho ?].
    destruct Hc as [?|Hc0]; [congruence|]. pose proof (proj2 (inv_free s Hi) ltac:(lia)). congruence.
  - split; [done|lia].
Qed.

(** A release keeps the shape, and announces whom it lets go on. *)
Lemma release_inv s m t x k :
  inv s -> shape (MkSystem m (<[t := x]> (threads s)) 0 0) ->
  (forall b, x <> WaitR b) -> (forall b, x <> WaitW b) ->
  (forall b, threads s t <> WaitR b) -> (forall b, threads s t <> WaitW b) ->
  (0 <= mCounter m -> all_readers k = true \/ 0 <= mCounter (mutex s)) ->
  (mCounter m = 0 -> one_writer k = true) ->
  inv (release s m t x k).
Proof.
  intros Hi Hs Hx1 Hx2 Ht1 Ht2 Hr Hw.
  split; [split|..]; cbn [release mutex threads to_readers to_writers]; try apply Hs.
  - intros Hc t' Ht'. destruct (Hr Hc) as [->|Hc']; [simpl; lia|].
    assert (threads s t' = WaitR false) as E.
    { upd t' t; [by destruct (Hx1 false)|done]. }
    pose proof (inv_wake_readers s Hi Hc' t' E). lia.
  - intros Hc _. right. rewrite (Hw Hc). simpl. lia.
Qed.

Lemma unlock_step_inv s t n m k :
  inv s -> threads s t = Exclusive n -> unlock t (mutex s) = Some (m, k) ->
  inv (release s m t (less (Exclusive n)) k).
Proof.
  intros Hi Ht E. pose proof Ht as Ht0. apply unlock_spec in E as (Hc & Ho & Hcase).
  pose proof (inv_alone s Hi Hc) as Hemp. pose proof (no_readers s Hi Hc) as Hnr.
  apply (inv_owner s Hi) in Ht as [_ ->].
  apply release_inv; [done|..].
  - destruct Hcase as [(Hlt & -> & ->)|(He & -> & ->)]; cbn [less].
    + rewrite (proj2 (Z.eqb_neq _ _)) by lia.
      split; cbn [set_thread mutex threads mCounter mReaders mWriterID to_readers to_writers]; try lia.
      * intros t' x. rewrite Hemp, lookup_empty. split; [done|]. upd t' t; [done|]. intros Hx. by destruct (Hnr t' x).
      * intros t' x. upd t' t; [done|]. apply (inv_positive s Hi).
      * intros t' x. upd t' t; [split; [intros [= <-]; split; (done || lia)|intros [_ ->]; f_equal; lia]|].
        rewrite (inv_owner s Hi). split; intros [? _]; congruence.
      * rewrite Ho. split; [done|lia].
      * intros _. done.
    + rewrite He. cbn. split; cbn [mutex threads mCounter mReaders mWriterID]; try done.
      * intros t' x. rewrite Hemp, lookup_empty. split; [done|]. upd t' t; [done|]. intros Hx. by destruct (Hnr t' x).
      * intros t' x. upd t' t; [done|]. apply (inv_positive s Hi).
      * intros t' x. split; [|by intros [? _]]. upd t' t; [done|].
        intros Hx. apply (inv_owner s Hi) in Hx as [? _]. congruence.
      * intros _. by rewrite Hemp.
  - intros b. cbn [less]. by case_if.
  - intros b. cbn [less]. by case_if.
  - by rewrite Ht0.
  - by rewrite Ht0.
  - destruct Hcase as [(Hlt & -> & ->)|(He & -> & ->)]; cbn; [lia|by left].
  - destruct Hcase as [(Hlt & -> & ->)|(He & -> & ->)]; cbn; [lia|done].
Qed.

Lemma unlock_shared_step_inv s t n m k :
  inv s -> threads s t = Shared n -> unlock_shared t (mutex s) = Some (m, k) ->
  inv (release s m t (less (Shared n)) k).
Proof.
  intros Hi Ht E. pose proof Ht as Ht0. apply unlock_shared_spec in E as (Hc & x & Hx & Hpos & Em & Ew & Er & Ea & Eo).
  assert (x = n) as -> by (apply (inv_readers s Hi) in Hx; congruence).
  pose proof (no_owner s Hi ltac:(lia)) as Hno. pose proof (proj2 (inv_free s Hi) ltac:(lia)) as Hw.
  apply release_inv; [done|..].
  - split; cbn [mutex threads].
    + intros t' y. rewrite Er. cbn [less]. destruct (n - 1 =? 0) eqn:E1; zbool.
      * rewrite (proj2 (Z.eqb_eq n 1)) by lia. upd t' t; [rewrite lookup_delete_eq; done|].
        rewrite lookup_delete_ne by congruence. apply (inv_readers s Hi).
      * rewrite (proj2 (Z.eqb_neq n 1)) by lia. upd t' t; [rewrite lookup_insert_eq; split; congruence|].
        rewrite lookup_insert_ne by congruence. apply (inv_readers s Hi).
    + intros t' y. upd t' t; [|apply (inv_positive s Hi)]. cbn [less].
      destruct (n =? 1) eqn:E1; [done|]. zbool. intros [= <-]. lia.
    + intros t' y. rewrite Ew, Hw. split; [|by intros [? _]]. upd t' t.
      * cbn [less]. by case_if.
      * intros Hy. by destruct (Hno t' y).
    + rewrite Ew, Hw, Em. split; [lia|done].
    + intros _. rewrite Em, Er, (inv_sum s Hi), (sum_delete t n) by (done || lia).
      destruct (n - 1 =? 0) eqn:E1; zbool; [lia|].
      rewrite (sum_delete t (n - 1) (<[t := n - 1]> _)) by apply lookup_insert_eq.
      rewrite delete_insert_eq. lia.
    + lia.
  - intros b. cbn [less]. by case_if.
  - intros b. cbn [less]. by case_if.
  - by rewrite Ht0.
  - by rewrite Ht0.
  - intros _. right. lia.
  - intros H0. apply Eo. lia.
Qed.

Lemma downgrade_step_inv s t m k :
  inv s -> threads s t = Exclusive 1 -> unique_to_shared t (mutex s) = Some (m, k) ->
  inv (release s m t (Shared 1) k).
Proof.
  intros Hi Ht E. pose proof Ht as Ho. apply (inv_owner s Hi) in Ho as [Ho Hc].
  pose proof (inv_alone s Hi ltac:(lia)) as Hemp. pose proof (no_readers s Hi ltac:(lia)) as Hnr.
  assert (m = MkSharedMutex 1 {[t := 1]} None /\ k = MkNotification true false) as [-> ->].
  { unfold unique_to_shared, assert_, owns, add_reader in E.
    rewrite bool_decide_true, (proj2 (Z.eqb_eq (mCounter (mutex s)) (-1))), Hemp, lookup_empty in E by (done || lia).
    simpl in E. by simplify_eq. }
  apply release_inv; [done| |done|done|by rewrite Ht|by rewrite Ht|by left|done].
  split; cbn [mutex threads mCounter mReaders mWriterID]; try done.
  - intros t' x. upd t' t; [rewrite lookup_singleton_eq; split; congruence|].
    rewrite lookup_singleton_ne by congruence. split; [done|]. intros Hx. by destruct (Hnr t' x).
  - intros t' x. upd t' t; [intros [= <-]; lia|]. apply (inv_positive s Hi).
  - intros t' x. split; [|by intros [? _]]. upd t' t; [done|].
    intros Hx. apply (inv_owner s Hi) in Hx as [? _]. congruence.
  - intros _. unfold sum. by rewrite map_fold_singleton.
Qed.

Lemma shape_threads s ths a b :
  shape s -> (forall t n, ths t = Shared n <-> threads s t = Shared n) ->
  (forall t n, ths t = Exclusive n <-> threads s t = Exclusive n) ->
  shape (MkSystem (mutex s) ths a b).
Proof.
  intros Hs N1 N2. split; cbn [mutex threads]; try apply Hs.
  - intros t n. rewrite N1. apply (inv_readers _ Hs).
  - intros t n. rewrite N1. apply (inv_positive _ Hs).
  - intros t n. rewrite N2. apply (inv_owner _ Hs).
Qed.

Lemma notify_readers_at ths t :
  notify_readers ths t <> WaitR false
  /\ (ths t <> WaitR false -> notify_readers ths t = ths t).
Proof. unfold notify_readers. destruct (ths t) as [|[]|[]| |] eqn:E; split; congruence. Qed.

Lemma notify_readers_step_inv s n :
  inv s -> to_readers s = S n ->
  inv (MkSystem (mutex s) (notify_readers (threads s)) n (to_writers s)).
Proof.
  intros Hi Hn.
  assert (forall t x, x <> WaitR true -> x <> WaitR false -> notify_readers (threads s) t = x <-> threads s t = x) as Hsame.
  { intros t x H1 H2. unfold notify_readers. destruct (threads s t) as [|[]|[]| |] eqn:E; split; congruence. }
  split; cbn [mutex threads to_readers to_writers].
  - by apply shape_threads; [apply Hi|intros; apply Hsame..].
  - intros Hc t Ht. by destruct (notify_readers_at (threads s) t).
  - intros Hc [t Ht]. rewrite Hsame in Ht by done.
    destruct (inv_wake_writer s Hi Hc (ex_intro _ t Ht)) as [[t' Ht']|]; [left|by right].
    exists t'. by rewrite Hsame.
Qed.

Lemma notify_writer_step_inv s n ths :
  inv s -> to_writers s = S n -> notify_writer (threads s) ths ->
  inv (MkSystem (mutex s) ths (to_readers s) n).
Proof.
  intros Hi Hn Hw. destruct Hw as [Hno|t Ht].
  - split; cbn [mutex threads to_readers to_writers].
    + by apply shape_threads; [apply Hi|..].
    + apply (inv_wake_readers s Hi).
    + intros _ [t Ht]. by destruct (Hno t).
  - split; cbn [mutex threads to_readers to_writers].
    + apply shape_threads; [apply Hi|..]; intros t' x; upd t' t; [split; congruence|done|split; congruence|done].
    + intros Hc t' Ht'. apply (inv_wake_readers s Hi Hc t'). by upd t' t.
    + intros _ _. left. exists t. by rewrite fn_lookup_insert.
Qed.

Lemma sm_step_inv s s' : inv s -> step s s' -> inv s'.
Proof.
  intros Hi Hs.
  assert (forall t, may_lock_shared (threads s t) || is_waiting_r (threads s t) = true ->
            forall n, threads s t <> Exclusive n) as X1 by (intros t Hm n Ht; by rewrite Ht in Hm).
  assert (forall t, may_lock (threads s t) || is_waiting_w (threads s t) = true ->
            forall n, threads s t <> Shared n) as X2 by (intros t Hm n Ht; by rewrite Ht in Hm).
  destruct Hs as [t v m Hm E|t v m Hm E|t v m Hm E|t m Hm E|t m Hm E|t m Hm E|t n m k|t n m k|t m k|n Hn|n ths Hn Hw].
  - by eapply shared_step_inv.
  - apply try_lock_shared_spec in E as [[? _]|(_ & Hc & ->)]; [done|].
    apply idle_step_inv; [done|by apply no_readers|by apply X1|by left].
  - apply try_lock_shared_spec in E as [[? _]|(_ & Hc & ->)]; [done|].
    apply idle_step_inv; [done|by apply no_readers|apply X1; rewrite Hm; apply orb_true_r|].
    right; right. split; [done|lia].
  - by apply lock_step_inv.
  - apply try_lock_spec in E as [_ [[? _]|(_ & Hc & Ho & ->)]]; [done|].
    apply idle_step_inv; [done|by apply X2| |by right; left].
    intros n Hn. apply (inv_owner s Hi) in Hn as [? _]. done.
  - apply try_lock_spec in E as [_ [[? _]|(_ & Hc & Ho & ->)]]; [done|].
    apply idle_step_inv; [done|apply X2; rewrite Hm; apply orb_true_r| |by right; right].
    intros n Hn. apply (inv_owner s Hi) in Hn as [? _]. done.
  - by eapply unlock_step_inv.
  - by eapply unlock_shared_step_inv.
  - by eapply downgrade_step_inv.
  - by apply notify_readers_step_inv.
  - by apply notify_writer_step_inv.
Qed.

Lemma reachable_inv s : reachable s -> inv s.
Proof.
  unfold reachable. assert (forall a, inv a -> rtc step a s -> inv s) as X; [|by apply X, inv_start].
  intros a Ha Hr. induction Hr; [done|]. eauto using sm_step_inv.
Qed.

(** ** What the invariant gives *)
Lemma exclusive_facts s t n :
  inv s -> threads s t = Exclusive n ->
  0 < n /\ mCounter (mutex s) = - n
  /\ forall t' k, threads s t' <> Shared k /\ (threads s t' = Exclusive k -> t' = t).
Proof.
  intros Hi Ht. pose proof Ht as Ho. apply (inv_owner s Hi) in Ho as [Ho ->].
  assert (mCounter (mutex s) < 0) as Hc.
  { destruct (decide (0 <= mCounter (mutex s))) as [Hge|]; [|lia]. apply (inv_free s Hi) in Hge. congruence. }
  split_and!; [lia|lia|]. intros t' k. split; [by apply no_readers|].
  intros Ht'. apply (inv_owner s Hi) in Ht' as [? _]. congruence.
Qed.

Lemma shared_facts s t n :
  inv s -> threads s t = Shared n ->
  0 < n /\ n <= mCounter (mutex s) /\ mReaders (mutex s) !! t = Some n.
Proof.
  intros Hi Ht. pose proof Ht as Hr. apply (inv_readers s Hi) in Hr.
  assert (0 <= mCounter (mutex s)) as Hc.
  { destruct (decide (mCounter (mutex s) < 0)) as [Hlt|]; [|lia]. by destruct (no_readers s Hi Hlt t n). }
  pose proof (sum_at t n _ (positive_readers s Hi) Hr). pose proof (inv_sum s Hi Hc).
  split_and!; [by apply (inv_positive s Hi t)|lia|done].
Qed.

Lemma not_owner s t : inv s -> (forall n, threads s t <> Exclusive n) -> owns (mutex s) t = false.
Proof.
  intros Hi Hn. unfold owns. apply bool_decide_eq_false. intros Ho.
  by apply (Hn (- mCounter (mutex s))), (inv_owner s Hi).
Qed.

Lemma not_reader s t : inv s -> (forall n, threads s t <> Shared n) -> mReaders (mutex s) !! t = None.
Proof.
  intros Hi Hn. destruct (mReaders (mutex s) !! t) as [n|] eqn:E; [|done].
  apply (inv_readers s Hi) in E. by destruct (Hn n).
Qed.

Lemma try_lock_shared_defined s t v :
  inv s -> may_lock_shared (threads s t) || is_waiting_r (threads s t) = true ->
  is_Some (try_lock_shared t v (mutex s)).
Proof.
  intros Hi Hm. unfold try_lock_shared. rewrite not_owner; [|done|by intros n Hn; rewrite Hn in Hm].
  rewrite orb_true_r. simpl. case_if; eauto.
Qed.

Lemma try_lock_defined s t :
  inv s -> may_lock (threads s t) || is_waiting_w (threads s t) = true -> is_Some (try_lock t (mutex s)).
Proof.
  intros Hi Hm. unfold try_lock. rewrite bool_decide_true by (apply not_reader; [done|by intros n Hn; rewrite Hn in Hm]).
  simpl. repeat case_if; eauto.
Qed.

Lemma owner_facts s t n : inv s -> threads s t = Exclusive n -> owns (mutex s) t = true.
Proof. intros Hi Ht. apply (inv_owner s Hi) in Ht as [Ho _]. unfold owns. by rewrite bool_decide_true. Qed.

Lemma unlock_defined s t n : inv s -> threads s t = Exclusive n -> is_Some (unlock t (mutex s)).
Proof.
  intros Hi Ht. destruct (exclusive_facts s t n Hi Ht) as (? & Hc & _). unfold unlock.
  rewrite (proj2 (Z.ltb_lt (mCounter (mutex s)) 0)), (owner_facts s t n Hi Ht) by lia. simpl. case_if; eauto.
Qed.

Lemma unlock_shared_defined s t n : inv s -> threads s t = Shared n -> is_Some (unlock_shared t (mutex s)).
Proof.
  intros Hi Ht. destruct (shared_facts s t n Hi Ht) as (? & ? & Hr). unfold unlock_shared.
  rewrite (proj2 (Z.ltb_lt 0 (mCounter (mutex s)))), Hr by lia. simpl.
  rewrite (proj2 (Z.ltb_lt 0 n)) by lia. simpl. case_if; eauto.
Qed.

Lemma downgrade_defined s t : inv s -> threads s t = Exclusive 1 -> is_Some (unique_to_shared t (mutex s)).
Proof.
  intros Hi Ht. destruct (exclusive_facts s t 1 Hi Ht) as (_ & Hc & _). unfold unique_to_shared.
  unfold add_reader. rewrite (owner_facts s t 1 Hi Ht), (inv_alone s Hi), Hc, lookup_empty by lia. simpl. eauto.
Qed.

Lemma reader_runs s t b :
  inv s -> 0 <= mCounter (mutex s) -> threads s t = WaitR b ->
  exists s', step s s' /\ threads s' t = Shared 1.
Proof.
  intros Hi Hc Ht. eexists. split.
  - apply (step_shared s t false); [by rewrite Ht|]. unfold try_lock_shared, readable. simpl.
    by rewrite (proj2 (Z.leb_le _ _)).
  - simpl. by rewrite fn_lookup_insert, Ht.
Qed.

Lemma writer_runs s t b :
  inv s -> mCounter (mutex s) = 0 -> threads s t = WaitW b ->
  exists s', step s s' /\ threads s' t = Exclusive 1.
Proof.
  intros Hi Hc Ht. eexists. split.
  - apply (step_lock s t); [by rewrite Ht|]. unfold try_lock, writable.
    rewrite bool_decide_true by (apply not_reader; [done|by rewrite Ht]).
    rewrite not_owner by (done || by rewrite Ht). simpl. by rewrite Hc.
  - simpl. by rewrite fn_lookup_insert, Ht.
Qed.

End SM.

(** C34: in every reachable state the mutex protects: a thread that owns it
    exclusively is the only one that holds it, the counter is what the holders
    add up to, and no assertion of the checked build can fail in a call the
    discipline allows. *)
Theorem mutex_exclusion (s : SM.system) :
  SM.reachable s ->
  (forall t n, SM.threads s t = SM.Exclusive n ->
     0 < n /\ mCounter (SM.mutex s) = - n
     /\ forall t' k, SM.threads s t' <> SM.Shared k /\ (SM.threads s t' = SM.Exclusive k -> t' = t))
  /\ (forall t n, SM.threads s t = SM.Shared n -> 0 < n <= mCounter (SM.mutex s))
  /\ (forall t v, SM.may_lock_shared (SM.threads s t) || SM.is_waiting_r (SM.threads s t) = true ->
        is_Some (SM.try_lock_shared t v (SM.mutex s)))
  /\ (forall t, SM.may_lock (SM.threads s t) || SM.is_waiting_w (SM.threads s t) = true ->
        is_Some (SM.try_lock t (SM.mutex s)))
  /\ (forall t n, SM.threads s t = SM.Exclusive n -> is_Some (SM.unlock t (SM.mutex s)))
  /\ (forall t n, SM.threads s t = SM.Shared n -> is_Some (SM.unlock_shared t (SM.mutex s)))
  /\ (forall t, SM.threads s t = SM.Exclusive 1 -> is_Some (SM.unique_to_shared t (SM.mutex s))).
Proof.
  intros Hi%SM.reachable_inv. split_and!.
  - intros t n Ht. apply (SM.exclusive_facts s t n Hi Ht).
  - intros t n Ht. destruct (SM.shared_facts s t n Hi Ht) as (? & ? & _). lia.
  - intros t v Hm. apply (SM.try_lock_shared_defined s t v Hi Hm).
  - intros t Hm. apply (SM.try_lock_defined s t Hi Hm).
  - intros t n Ht. apply (SM.unlock_defined s t n Hi Ht).
  - intros t n Ht. apply (SM.unlock_shared_defined s t n Hi Ht).
  - intros t Ht. apply (SM.downgrade_defined s t Hi Ht).
Qed.

(** C35: no wake-up is lost.  Once the notifications of past releases are
    through, every reader that still waits while the mutex admits readers has
    been notified, and of the writers that wait while it is free one has been;
    running any of these acquires the mutex. *)
Theorem mutex_wakeups (s : SM.system) :
  SM.reachable s ->
  (0 <= mCounter (SM.mutex s) -> SM.to_readers s = 0%nat -> forall t b, SM.threads s t = SM.WaitR b ->
     b = true /\ exists s', SM.step s s' /\ SM.threads s' t = SM.Shared 1)
  /\ (mCounter (SM.mutex s) = 0 -> SM.to_writers s = 0%nat -> (exists t b, SM.threads s t = SM.WaitW b) ->
     exists t s', SM.threads s t = SM.WaitW true /\ SM.step s s' /\ SM.threads s' t = SM.Exclusive 1).
Proof.
  intros Hi%SM.reachable_inv. split.
  - intros Hc Hp t b Ht. split; [|by apply (SM.reader_runs s t b Hi Hc Ht)].
    destruct b; [done|]. pose proof (SM.inv_wake_readers s Hi Hc t Ht). lia.
  - intros Hc Hp (t & b & Ht).
    assert (exists t, SM.threads s t = SM.WaitW true) as [t' Ht'].
    { destruct b; [by exists t|].
      destruct (SM.inv_wake_writer s Hi Hc (ex_intro _ t Ht)) as [?|?]; [done|lia]. }
    destruct (SM.writer_runs s t' true Hi Hc Ht') as (s' & ? & ?). by exists t', s'.
Qed.

(** Thread 1 owns the mutex, 2 wants to read and 3 to write; then 1 keeps only
    shared ownership and 2 is notified. *)
Module SMExample.
Import SM.

Definition s1 : system := set_thread start (MkSharedMutex (-1) ∅ (Some 1%nat)) 1%nat (Exclusive 1).
Definition s2 : system := set_thread s1 (mutex s1) 2%nat (WaitR false).
Definition s3 : system := set_thread s2 (mutex s2) 3%nat (WaitW false).
Definition s4 : system :=
  release s3 (MkSharedMutex 1 {[1%nat := 1]} None) 1%nat (Shared 1) (MkNotification true false).
Definition s5 : system := MkSystem (mutex s4) (notify_readers (threads s4)) 0 0.

Lemma reachable_s3 : reachable s3.
Proof.
  apply (rtc_l _ _ s1); [exact (step_lock start 1%nat _ eq_refl eq_refl)|].
  apply (rtc_l _ _ s2); [exact (step_shared_block s1 2%nat true _ eq_refl eq_refl)|].
  apply (rtc_l _ _ s3); [exact (step_lock_block s2 3%nat _ eq_refl eq_refl)|]. apply rtc_refl.
Qed.

Lemma reachable_s5 : reachable s5.
Proof.
  apply (rtc_r _ s4); [|exact (step_notify_readers s4 0 eq_refl)].
  apply (rtc_r _ s3); [apply reachable_s3|].
  exact (step_downgrade s3 1%nat _ (MkNotification true false) eq_refl eq_refl).
Qed.
End SMExample.

Lemma mutex_exclusion_witness :
  let s := SMExample.s3 in
  (forall t n, SM.threads s t = SM.Exclusive n ->
     0 < n /\ mCounter (SM.mutex s) = - n
     /\ forall t' k, SM.threads s t' <> SM.Shared k /\ (SM.threads s t' = SM.Exclusive k -> t' = t))
  /\ (forall t n, SM.threads s t = SM.Shared n -> 0 < n <= mCounter (SM.mutex s))
  /\ (forall t v, SM.may_lock_shared (SM.threads s t) || SM.is_waiting_r (SM.threads s t) = true ->
        is_Some (SM.try_lock_shared t v (SM.mutex s)))
  /\ (forall t, SM.may_lock (SM.threads s t) || SM.is_waiting_w (SM.threads s t) = true ->
        is_Some (SM.try_lock t (SM.mutex s)))
  /\ (forall t n, SM.threads s t = SM.Exclusive n -> is_Some (SM.unlock t (SM.mutex s)))
  /\ (forall t n, SM.threads s t = SM.Shared n -> is_Some (SM.unlock_shared t (SM.mutex s)))
  /\ (forall t, SM.threads s t = SM.Exclusive 1 -> is_Some (SM.unique_to_shared t (SM.mutex s))).
Proof. apply (mutex_exclusion SMExample.s3). apply SMExample.reachable_s3. Defined.

Lemma mutex_wakeups_witness :
  let s := SMExample.s5 in
  (0 <= mCounter (SM.mutex s) -> SM.to_readers s = 0%nat -> forall t b, SM.threads s t = SM.WaitR b ->
     b = true /\ exists s', SM.step s s' /\ SM.threads s' t = SM.Shared 1)
  /\ (mCounter (SM.mutex s) = 0 -> SM.to_writers s = 0%nat -> (exists t b, SM.threads s t = SM.WaitW b) ->
     exists t s', SM.threads s t = SM.WaitW true /\ SM.step s s' /\ SM.threads s' t = SM.Exclusive 1).
Proof. apply (mutex_wakeups SMExample.s5). apply SMExample.reachable_s5. Defined.
