(* ===== verification/Quota.v ===== *)
(** * The upload quota ledger

    src/transfer/ws/ws_quota.cpp: [ws::UploadQuotaManager], the client-thread
    ledger that merges the balances of a "tfs" reply into pools, and the pure
    reduction [computeWsQuotaQueueFit].  The classifier that names the pool of a
    folder is the caller's and a parameter. *)

From S2P Require Import Prelude Serialize.
Local Open Scope Z_scope.

Record Pool := MkPool { remaining : Z; outstanding : Z; foreign : bool }.

(** The two [std::unordered_map]s are only looked up and extended. *)
Record UploadQuotaManager := MkManager {
  mPools : list Pool;
  mPoolByFolder : gmap Z nat;
  mPoolIndexByKey : gmap Z nat;
  mHaveBalances : bool;
  mUnconstrained : bool;
  mEvalPending : bool;
  mDirty : bool;
  mInFlight : bool;
  mLatestGen : Z
}.

(** [WsTfsGroupBalances] and [PoolClassifier]. *)
Definition groups_t : Type := list (Z * list Z).
Definition classifier : Type := Z -> Z * bool.

Module Quota.

Definition init : UploadQuotaManager := MkManager [] ∅ ∅ false true false false false 0.

(** Field updates. *)
Definition set_pools (ps : list Pool) (m : UploadQuotaManager) : UploadQuotaManager :=
  MkManager ps (mPoolByFolder m) (mPoolIndexByKey m) (mHaveBalances m) (mUnconstrained m) (mEvalPending m)
    (mDirty m) (mInFlight m) (mLatestGen m).
Definition set_unconstrained (b : bool) (m : UploadQuotaManager) : UploadQuotaManager :=
  MkManager (mPools m) (mPoolByFolder m) (mPoolIndexByKey m) (mHaveBalances m) b (mEvalPending m)
    (mDirty m) (mInFlight m) (mLatestGen m).
Definition set_haveBalances (b : bool) (m : UploadQuotaManager) : UploadQuotaManager :=
  MkManager (mPools m) (mPoolByFolder m) (mPoolIndexByKey m) b (mUnconstrained m) (mEvalPending m)
    (mDirty m) (mInFlight m) (mLatestGen m).
Definition setEvalPending (v : bool) (m : UploadQuotaManager) : UploadQuotaManager :=
  MkManager (mPools m) (mPoolByFolder m) (mPoolIndexByKey m) (mHaveBalances m) (mUnconstrained m) v
    (mDirty m) (mInFlight m) (mLatestGen m).
Definition set_issue (dirty inflight : bool) (gen : Z) (m : UploadQuotaManager) : UploadQuotaManager :=
  MkManager (mPools m) (mPoolByFolder m) (mPoolIndexByKey m) (mHaveBalances m) (mUnconstrained m)
    (mEvalPending m) dirty inflight gen.

(** ** The issue protocol *)

Definition markDirty (m : UploadQuotaManager) : UploadQuotaManager :=
  set_issue true (mInFlight m) (mLatestGen m) m.

Definition invalidate (m : UploadQuotaManager) : UploadQuotaManager :=
  let gen := if mInFlight m || mHaveBalances m then u64 (mLatestGen m + 1) else mLatestGen m in
  set_issue true false gen m.

Definition shouldIssue (m : UploadQuotaManager) : bool := mDirty m && negb (mInFlight m).

Definition consumeDirtyNoIssue (m : UploadQuotaManager) : UploadQuotaManager :=
  set_issue false (mInFlight m) (mLatestGen m) m.

Definition beginIssue (m : UploadQuotaManager) : Z * UploadQuotaManager :=
  let gen := u64 (mLatestGen m + 1) in (gen, set_issue false true gen m).

Definition endIssue (gen : Z) (m : UploadQuotaManager) : UploadQuotaManager :=
  if gen =? mLatestGen m then set_issue (mDirty m) false (mLatestGen m) m else m.

(** ** The balances *)

Definition clearBalanceSnapshot (m : UploadQuotaManager) : UploadQuotaManager :=
  MkManager [] ∅ ∅ false true false (mDirty m) (mInFlight m) (mLatestGen m).

(** [emplace]: an existing entry stays. *)
Definition emplace (k : Z) (i : nat) (m : gmap Z nat) : gmap Z nat :=
  match m !! k with Some _ => m | None => <[k := i]> m end.

(** The body of the loop over the folders of a group. *)
Definition add_folder (classify : classifier) (bytes_ : Z) (m : UploadQuotaManager) (folder : Z)
    : UploadQuotaManager :=
  let '(key, isForeign) := classify folder in
  let '(idx, pools, index) :=
    match mPoolIndexByKey m !! key with
    | None =>
        let idx := length (mPools m) in
        (idx, mPools m ++ [MkPool bytes_ 0 isForeign], emplace key idx (mPoolIndexByKey m))
    | Some idx =>
        (idx,
         alter (fun p => if bytes_ <? remaining p then MkPool bytes_ (outstanding p) (foreign p) else p)
           idx (mPools m),
         mPoolIndexByKey m)
    end in
  MkManager pools (emplace (NodeHandle.as8byte folder) idx (mPoolByFolder m)) index
    (mHaveBalances m) (mUnconstrained m) (mEvalPending m) (mDirty m) (mInFlight m) (mLatestGen m).

Definition add_group (classify : classifier) (m : UploadQuotaManager) (group : Z * list Z) : UploadQuotaManager :=
  let '(bytes_, folders) := group in
  if (bytes_ <? 0) || bool_decide (folders = []) then m
  else foldl (add_folder classify bytes_) m folders.

Definition applyGroups (gen : Z) (groups : groups_t) (classify : classifier) (m : UploadQuotaManager)
    : bool * UploadQuotaManager :=
  if negb (gen =? mLatestGen m) then (false, m)
  else
    let m := foldl (add_group classify) (clearBalanceSnapshot m) groups in
    (true, set_haveBalances (negb (bool_decide (mPoolByFolder m = ∅))) m).

(** The pool of a folder. *)
Definition pool_index (folder : Z) (m : UploadQuotaManager) : option nat :=
  mPoolByFolder m !! NodeHandle.as8byte folder.
Definition pool_at (folder : Z) (m : UploadQuotaManager) : option Pool :=
  i ← pool_index folder m; mPools m !! i.

Definition deduct (size : Z) (p : Pool) : Pool :=
  let r := remaining p - size in
  let o := outstanding p - size in
  MkPool (if r <? 0 then 0 else r) (if o <? 0 then 0 else o) (foreign p).

Definition deductOnCompletion (folder size : Z) (m : UploadQuotaManager) : UploadQuotaManager :=
  match pool_index folder m with
  | None => m
  | Some i => set_pools (alter (deduct size) i (mPools m)) m
  end.

Definition availableFor (folder : Z) (m : UploadQuotaManager) : Z :=
  match pool_at folder m with Some p => remaining p | None => 0 end.
Definition hasBalanceFor (folder : Z) (m : UploadQuotaManager) : bool :=
  bool_decide (is_Some (pool_index folder m)).
Definition isForeignGroup (folder : Z) (m : UploadQuotaManager) : bool :=
  match pool_at folder m with Some p => foreign p | None => false end.

(** ** Outstanding uploads *)

Definition beginOutstandingAccumulation (m : UploadQuotaManager) : UploadQuotaManager :=
  set_pools ((fun p => MkPool (remaining p) 0 (foreign p)) <$> mPools m) m.

Definition add_outstanding (size : Z) (m : UploadQuotaManager) (folder : Z) : UploadQuotaManager :=
  match pool_index folder m with
  | None => m
  | Some i => set_pools (alter (fun p => MkPool (remaining p) (outstanding p + size) (foreign p)) i (mPools m)) m
  end.

Definition addOutstandingForTargets (folders : list Z) (size : Z) (m : UploadQuotaManager) : UploadQuotaManager :=
  foldl (add_outstanding size) m folders.

Definition finishOutstandingAccumulation (m : UploadQuotaManager) : UploadQuotaManager :=
  set_unconstrained (forallb (fun p => negb (remaining p <? outstanding p)) (mPools m)) m.

End Quota.

(** ** The queue-fit query *)
Module QueueFit.

Inductive State := Unknown | Fits | Shortfall.

Record WsQuotaQueueFit := MkFit { state : State; shortfallBytes : Z; foreignShortfall : bool }.

Record WsQuotaPoolFit := MkPoolFit { sum : Z; remaining : Z; foreign : bool }.

Definition step (st : bool * Z * bool) (p : WsQuotaPoolFit) : bool * Z * bool :=
  let '(anyShort, shortfall, foreignShort) := st in
  let over := sum p - remaining p in
  if 0 <? over then (true, shortfall + over, foreignShort || foreign p) else st.

Definition computeWsQuotaQueueFit (haveBalances : bool) (pools : list WsQuotaPoolFit) : WsQuotaQueueFit :=
  if negb haveBalances then MkFit Unknown 0 false
  else
    let '(anyShort, shortfall, foreignShort) := foldl step (false, 0, false) pools in
    MkFit (if anyShort : bool then Shortfall else Fits) shortfall foreignShort.

End QueueFit.

(** ** What a reply means *)
Module QuotaFacts.
Import Quota.

(** The usable entries of a reply, one per folder, in order. *)
Definition pairs (groups : groups_t) : list (Z * Z) :=
  groups ≫= fun '(b, fs) => if (b <? 0) || bool_decide (fs = []) then [] else pair b <$> fs.

(** [b] is the least balance the entries report for the pool [k]. *)
Definition is_balance (c : classifier) (ps : list (Z * Z)) (k b : Z) : Prop :=
  (exists f, (b, f) ∈ ps /\ (c f).1 = k)
  /\ forall b' f', (b', f') ∈ ps -> (c f').1 = k -> b <= b'.

Lemma add_groups_pairs c groups : forall m,
  foldl (add_group c) m groups = foldl (fun m '(b, f) => add_folder c b m f) m (pairs groups).
Proof.
  induction groups as [|[b fs] groups IH]; intros m; [done|].
  cbn [foldl]. rewrite IH. unfold pairs. rewrite bind_cons, foldl_app. f_equal. cbn [add_group].
  case_if; [done|]. clear. revert m. induction fs as [|f fs IH]; intros m; [done|]. cbn. apply IH.
Qed.

(** The ledger after the entries [ps]. *)
Record tracks (c : classifier) (ps : list (Z * Z)) (m : UploadQuotaManager) : Prop := {
  tr_pool : forall k i, mPoolIndexByKey m !! k = Some i ->
    exists p, mPools m !! i = Some p /\ is_balance c ps k (remaining p) /\ outstanding p = 0
      /\ exists b f, (b, f) ∈ ps /\ c f = (k, foreign p);
  tr_known : forall b f, (b, f) ∈ ps -> is_Some (mPoolIndexByKey m !! (c f).1);
  tr_inj : forall k k' i, mPoolIndexByKey m !! k = Some i -> mPoolIndexByKey m !! k' = Some i -> k = k';
  tr_folder : forall h i, mPoolByFolder m !! h = Some i <->
    exists b f, (b, f) ∈ ps /\ NodeHandle.as8byte f = h /\ mPoolIndexByKey m !! (c f).1 = Some i
}.

Lemma lookup_emplace k i m k' :
  emplace k i m !! k' = match m !! k' with Some j => Some j | None => if decide (k' = k) then Some i else None end.
Proof.
  unfold emplace. destruct (m !! k) eqn:E.
  - destruct (m !! k') eqn:E'; [done|]. rewrite decide_False; [done|]. intros ->. congruence.
  - destruct (decide (k' = k)) as [->|Hne].
    + by rewrite lookup_insert_eq, E.
    + rewrite lookup_insert_ne by congruence. by destruct (m !! k').
Qed.

Section tracks.
Context (c : classifier).
Hypothesis Hc : forall f f', NodeHandle.as8byte f = NodeHandle.as8byte f' -> c f = c f'.

Lemma is_balance_snoc_other ps k b b0 f0 :
  (c f0).1 <> k -> is_balance c (ps ++ [(b0, f0)]) k b <-> is_balance c ps k b.
Proof.
  intros Hk. unfold is_balance. split; intros [[f [Hf1 Hf2]] Hmin]; split.
  - exists f. apply elem_of_app in Hf1 as [?|Hf1]; [done|]. apply list_elem_of_singleton in Hf1. by simplify_eq.
  - intros b' f' Hb'. apply Hmin. apply elem_of_app. by left.
  - exists f. split; [|done]. apply elem_of_app. by left.
  - intros b' f' Hb' Hk'. apply elem_of_app in Hb' as [?|Hb']; [by apply (Hmin b' f')|].
    apply list_elem_of_singleton in Hb'. by simplify_eq.
Qed.

Lemma is_balance_snoc_new ps b0 f0 :
  (forall b f, (b, f) ∈ ps -> (c f).1 <> (c f0).1) -> is_balance c (ps ++ [(b0, f0)]) (c f0).1 b0.
Proof.
  intros Hnew. split.
  - exists f0. split; [|done]. apply elem_of_app. right. by apply list_elem_of_singleton.
  - intros b' f' Hb' Hk. apply elem_of_app in Hb' as [Hb'|Hb']; [by destruct (Hnew b' f' Hb')|].
    apply list_elem_of_singleton in Hb'. simplify_eq. lia.
Qed.

Lemma is_balance_snoc_same ps b b0 f0 :
  is_balance c ps (c f0).1 b -> is_balance c (ps ++ [(b0, f0)]) (c f0).1 (if b0 <? b then b0 else b).
Proof.
  intros [[f [Hf1 Hf2]] Hmin]. split.
  - case_if; [exists f0|exists f]; (split; [|done]); apply elem_of_app; [right|by left].
    by apply list_elem_of_singleton.
  - intros b' f' Hb' Hk. apply elem_of_app in Hb' as [Hb'|Hb'].
    + pose proof (Hmin b' f' Hb' Hk). case_if; zbool; lia.
    + apply list_elem_of_singleton in Hb'. simplify_eq. case_if; zbool; lia.
Qed.

Lemma elem_of_entry (ps : list (Z * Z)) b0 f0 b f :
  (b, f) ∈ ps ++ [(b0, f0)] <-> (b, f) ∈ ps \/ (b = b0 /\ f = f0).
Proof. rewrite elem_of_app, list_elem_of_singleton. naive_solver. Qed.

(** The folder map after an entry whose pool is [idx]. *)
Lemma folder_snoc (ps : list (Z * Z)) (byFolder index index' : gmap Z nat) b0 f0 idx :
  (forall h i, byFolder !! h = Some i <->
     exists b f, (b, f) ∈ ps /\ NodeHandle.as8byte f = h /\ index !! (c f).1 = Some i) ->
  index' !! (c f0).1 = Some idx ->
  (forall b f i, (b, f) ∈ ps -> index' !! (c f).1 = Some i <-> index !! (c f).1 = Some i) ->
  forall h i, emplace (NodeHandle.as8byte f0) idx byFolder !! h = Some i <->
    exists b f, (b, f) ∈ ps ++ [(b0, f0)] /\ NodeHandle.as8byte f = h /\ index' !! (c f).1 = Some i.
Proof.
  intros Hf H0 Hsame h i. rewrite lookup_emplace. split.
  - destruct (byFolder !! h) as [j|] eqn:Eh.
    + intros [= <-]. apply Hf in Eh as (b & f & Hbf & ? & ?). exists b, f.
      rewrite elem_of_entry, (Hsame b f) by done. tauto.
    + case_decide as Hd; [|done]. intros [= <-]. exists b0, f0. rewrite elem_of_entry. subst. tauto.
  - intros (b & f & Hbf & Hh & Hki). destruct (byFolder !! h) as [j|] eqn:Eh.
    + apply Hf in Eh as (b' & f' & Hb' & Hh' & Hj). apply (Hsame b' f' _ Hb') in Hj.
      rewrite <- Hh in Hh'. rewrite (Hc _ _ Hh') in Hj. congruence.
    + apply elem_of_entry in Hbf as [Hbf|[-> ->]]; [|rewrite decide_True by done; congruence].
      exfalso. apply (Hsame b f i Hbf) in Hki.
      assert (byFolder !! h = Some i) by (apply Hf; eauto). congruence.
Qed.

(** An entry of a known pool lowers its balance; one of a new pool opens it. *)
Lemma add_known_tracks ps m b0 f0 idx :
  tracks c ps m -> mPoolIndexByKey m !! (c f0).1 = Some idx -> tracks c (ps ++ [(b0, f0)]) (add_folder c b0 m f0).
Proof.
  intros [Hp Hk Hi Hf] E. unfold add_folder. destruct (c f0) as [key isF] eqn:Ec. cbn [fst] in E. rewrite E.
  assert ((c f0).1 = key) as Ek by by rewrite Ec.
  split; cbn [mPools mPoolByFolder mPoolIndexByKey]; [| |exact Hi|].
  - intros k i Hki. destruct (Hp k i Hki) as (p & P1 & P2 & P3 & b & f & P4 & P5).
    destruct (decide (i = idx)) as [->|Hne].
    + assert (k = key) as -> by by apply (Hi k key idx).
      rewrite list_lookup_alter_eq, P1. cbn. eexists. split; [done|].
      rewrite <- Ek in P2 |- *. pose proof (is_balance_snoc_same ps (remaining p) b0 f0 P2) as B.
      case_if; cbn; split_and!; try done; exists b, f; rewrite elem_of_entry, Ek; by split; [left|].
    + rewrite list_lookup_alter_ne by congruence. exists p. split; [done|].
      assert (k <> key) by (intros ->; congruence).
      rewrite is_balance_snoc_other by congruence. split_and!; try done.
      exists b, f. rewrite elem_of_entry. by split; [left|].
  - intros b f Hbf. apply elem_of_entry in Hbf as [Hbf|[-> ->]]; [by eapply Hk|]. rewrite Ek, E. eauto.
  - by apply (folder_snoc ps _ (mPoolIndexByKey m)); [|rewrite Ek|].
Qed.

Lemma add_new_tracks ps m b0 f0 :
  tracks c ps m -> mPoolIndexByKey m !! (c f0).1 = None -> tracks c (ps ++ [(b0, f0)]) (add_folder c b0 m f0).
Proof.
  intros [Hp Hk Hi Hf] E. unfold add_folder. destruct (c f0) as [key isF] eqn:Ec. cbn [fst] in E. rewrite E.
  assert ((c f0).1 = key) as Ek by by rewrite Ec.
  assert (forall b f, (b, f) ∈ ps -> (c f).1 <> key) as Hnew.
  { intros b f Hbf Hkey. destruct (Hk b f Hbf) as [j Hj]. congruence. }
  assert (forall k i, mPoolIndexByKey m !! k = Some i -> (i < length (mPools m))%nat) as Hlt.
  { intros k i Hki. destruct (Hp k i Hki) as (p & P1 & _). by eapply lookup_lt_Some. }
  assert (forall k i, emplace key (length (mPools m)) (mPoolIndexByKey m) !! k = Some i <->
            mPoolIndexByKey m !! k = Some i \/ (k = key /\ i = length (mPools m))) as Hem.
  { intros k i. rewrite lookup_emplace. destruct (mPoolIndexByKey m !! k) eqn:Ek'; [naive_solver|].
    case_decide; naive_solver. }
  split; cbn [mPools mPoolByFolder mPoolIndexByKey].
  - intros k i [Hki|[-> ->]]%Hem.
    + destruct (Hp k i Hki) as (p & P1 & P2 & P3 & b & f & P4 & P5).
      exists p. rewrite lookup_app_l by by eapply Hlt. split; [done|].
      assert (k <> key) by (intros ->; congruence).
      rewrite is_balance_snoc_other by congruence. split_and!; try done.
      exists b, f. rewrite elem_of_entry. by split; [left|].
    + rewrite lookup_app_r, Nat.sub_diag by lia. eexists. split; [done|]. cbn.
      split_and!; [rewrite <- Ek; apply is_balance_snoc_new; rewrite Ek; by apply Hnew|done|].
      exists b0, f0. rewrite elem_of_entry. tauto.
  - intros b f [Hbf|[-> ->]]%elem_of_entry; [destruct (Hk b f Hbf) as [j Hj]; exists j; apply Hem; by left|].
    exists (length (mPools m)). apply Hem. by right.
  - intros k k' i [H1|[-> ->]]%Hem [H2|[-> H2]]%Hem; subst; try done; [by eapply Hi|apply Hlt in H1; lia|].
    apply Hlt in H2. lia.
  - apply (folder_snoc ps _ (mPoolIndexByKey m)); [done|rewrite Ek; apply Hem; by right|].
    intros b f i Hbf. rewrite Hem. pose proof (Hnew b f Hbf). tauto.
Qed.

(** One entry. *)
Lemma add_folder_tracks ps m b0 f0 :
  tracks c ps m -> tracks c (ps ++ [(b0, f0)]) (add_folder c b0 m f0).
Proof.
  intros Ht. destruct (mPoolIndexByKey m !! (c f0).1) as [idx|] eqn:E.
  - by eapply add_known_tracks.
  - by apply add_new_tracks.
Qed.

Lemma apply_tracks groups m :
  tracks c (pairs groups) (foldl (add_group c) (clearBalanceSnapshot m) groups).
Proof.
  rewrite add_groups_pairs. induction (pairs groups) as [|[b f] ps IH] using rev_ind.
  - split; cbn; try done; intros; try (by rewrite lookup_empty in *); try by apply elem_of_nil in H.
    rewrite lookup_empty. split; [done|]. intros (b & f & Hbf & _). by apply elem_of_nil in Hbf.
  - rewrite foldl_app. cbn. by apply add_folder_tracks.
Qed.

End tracks.

(** ** The issue protocol over time *)
Inductive op :=
  | OpMarkDirty | OpInvalidate | OpConsume | OpBegin | OpEnd (gen : Z)
  | OpApply (gen : Z) (groups : groups_t) (c : classifier)
  | OpDeduct (folder size : Z) | OpBeginAcc | OpAdd (folders : list Z) (size : Z) | OpFinish
  | OpSetEval (v : bool) | OpClear.

Definition run_op (m : UploadQuotaManager) (o : op) : UploadQuotaManager :=
  match o with
  | OpMarkDirty => markDirty m
  | OpInvalidate => invalidate m
  | OpConsume => consumeDirtyNoIssue m
  | OpBegin => (beginIssue m).2
  | OpEnd gen => endIssue gen m
  | OpApply gen groups c => (applyGroups gen groups c m).2
  | OpDeduct folder size => deductOnCompletion folder size m
  | OpBeginAcc => beginOutstandingAccumulation m
  | OpAdd folders size => addOutstandingForTargets folders size m
  | OpFinish => finishOutstandingAccumulation m
  | OpSetEval v => setEvalPending v m
  | OpClear => clearBalanceSnapshot m
  end.

Lemma fold_gen {A} (f : UploadQuotaManager -> A -> UploadQuotaManager) l :
  (forall m x, mLatestGen (f m x) = mLatestGen m) ->
  forall m, mLatestGen (foldl f m l) = mLatestGen m.
Proof. intros Hf. induction l as [|x l IH]; intros m; [done|]. cbn. by rewrite IH. Qed.

Lemma add_folder_gen c b m f : mLatestGen (add_folder c b m f) = mLatestGen m.
Proof. unfold add_folder. destruct (c f). by destruct (mPoolIndexByKey m !! _). Qed.

Lemma run_op_gen m o :
  0 <= mLatestGen m < 2 ^ 64 - 1 ->
  mLatestGen m <= mLatestGen (run_op m o) <= mLatestGen m + 1.
Proof.
  intros Hg. destruct o; cbn; try lia.
  - case_if; [rewrite wrapu_id by lia; lia|lia].
  - rewrite wrapu_id by lia. lia.
  - unfold endIssue. case_if; cbn; lia.
  - unfold applyGroups. case_if; cbn; [lia|]. rewrite fold_gen; [cbn; lia|].
    intros m' [b fs]. unfold add_group. case_if; [done|]. apply fold_gen. intros. apply add_folder_gen.
  - unfold deductOnCompletion. case_match; cbn; lia.
  - unfold addOutstandingForTargets. rewrite fold_gen; [lia|].
    intros m' f. unfold add_outstanding. by case_match.
Qed.

Lemma run_gen ops : forall m,
  0 <= mLatestGen m -> mLatestGen m + Z.of_nat (length ops) < 2 ^ 64 ->
  mLatestGen m <= mLatestGen (foldl run_op m ops).
Proof.
  induction ops as [|o ops IH]; intros m H0 Hl; cbn in *; [lia|].
  pose proof (run_op_gen m o ltac:(lia)). specialize (IH (run_op m o)). lia.
Qed.

(** ** Pools never overdrawn *)
Definition covered (m : UploadQuotaManager) : Prop :=
  Forall (fun p => 0 <= remaining p /\ 0 <= outstanding p <= remaining p) (mPools m).

(** How often the targets of an upload hit pool [i]. *)
Definition hits (m : UploadQuotaManager) (folders : list Z) (i : nat) : Z :=
  Z.of_nat (length (filter (fun f => pool_index f m = Some i) folders)).

Lemma add_outstanding_at size folders : forall m i,
  mPoolByFolder (addOutstandingForTargets folders size m) = mPoolByFolder m
  /\ mPools (addOutstandingForTargets folders size m) !! i
     = (fun p => MkPool (remaining p) (outstanding p + hits m folders i * size) (foreign p)) <$> mPools m !! i.
Proof.
  unfold addOutstandingForTargets. induction folders as [|f folders IH]; intros m i; cbn [foldl].
  - split; [done|]. destruct (mPools m !! i) as [[r o fg]|]; [|done]. cbn. do 2 f_equal. unfold hits. cbn. lia.
  - destruct (IH (add_outstanding size m f) i) as [H1 H2].
    assert (mPoolByFolder (add_outstanding size m f) = mPoolByFolder m) as E
      by (unfold add_outstanding; by case_match).
    split; [congruence|]. rewrite H2.
    assert (hits (add_outstanding size m f) folders i = hits m folders i) as Eh.
    { unfold hits, pool_index. by rewrite E. }
    rewrite Eh. unfold hits. rewrite filter_cons. unfold add_outstanding.
    destruct (pool_index f m) as [j|] eqn:Ej.
    + cbn [mPools set_pools]. destruct (decide (Some j = Some i)) as [[= ->]|Hne].
      * rewrite list_lookup_alter_eq. destruct (mPools m !! i) as [[r o fg]|]; [|done]. cbn. do 2 f_equal. lia.
      * rewrite list_lookup_alter_ne by congruence. done.
    + rewrite decide_False by done. done.
Qed.

Lemma scan_at uploads : forall m i,
  let m' := foldl (fun m '(folders, size) => addOutstandingForTargets folders size m) m uploads in
  mPoolByFolder m' = mPoolByFolder m
  /\ mPools m' !! i
     = (fun p => MkPool (remaining p)
          (outstanding p + foldr Z.add 0 ((fun '(folders, size) => hits m folders i * size) <$> uploads))
          (foreign p)) <$> mPools m !! i.
Proof.
  induction uploads as [|[folders size] uploads IH]; intros m i; cbn [foldl].
  - split; [done|]. destruct (mPools m !! i) as [[r o fg]|]; [|done]. cbn. do 2 f_equal. lia.
  - destruct (add_outstanding_at size folders m i) as [A1 A2].
    destruct (IH (addOutstandingForTargets folders size m) i) as [-> ->]. split; [done|].
    rewrite A2. destruct (mPools m !! i) as [[r o fg]|]; [|done]. cbn. do 2 f_equal.
    rewrite <- Z.add_assoc. do 2 f_equal. f_equal. apply list_fmap_ext. intros _ [fs sz] _.
    unfold hits, pool_index. by rewrite A1.
Qed.

Lemma finish_spec m :
  mUnconstrained (finishOutstandingAccumulation m) = true
  <-> Forall (fun p => outstanding p <= remaining p) (mPools m).
Proof.
  unfold finishOutstandingAccumulation. cbn. rewrite forallb_forall, Forall_forall. split.
  - intros H p Hp. specialize (H p (proj1 (list_elem_of_In _ _) Hp)). zbool. lia.
  - intros H p Hp. apply negb_true_iff, Z.ltb_ge, H. by apply list_elem_of_In.
Qed.

(** ** The fit query as sums *)
Definition overs (ps : list QueueFit.WsQuotaPoolFit) : Z :=
  foldr Z.add 0 ((fun p => Z.max 0 (QueueFit.sum p - QueueFit.remaining p)) <$> ps).

Lemma fit_fold ps : forall a s f,
  foldl QueueFit.step (a, s, f) ps
  = (a || existsb (fun p => QueueFit.remaining p <? QueueFit.sum p) ps, s + overs ps,
     f || existsb (fun p => (QueueFit.remaining p <? QueueFit.sum p) && QueueFit.foreign p) ps).
Proof.
  unfold overs. induction ps as [|p ps IH]; intros a s f; cbn.
  - by rewrite !orb_false_r, Z.add_0_r.
  - replace (QueueFit.remaining p <? QueueFit.sum p) with (0 <? QueueFit.sum p - QueueFit.remaining p).
    2: { destruct (0 <? _) eqn:E1; zbool; symmetry; [apply Z.ltb_lt|apply Z.ltb_ge]; lia. }
    destruct (0 <? QueueFit.sum p - QueueFit.remaining p) eqn:E; zbool; rewrite IH.
    + rewrite orb_true_l, orb_true_r, orb_assoc. cbn. do 2 f_equal. lia.
    + cbn. do 2 f_equal. lia.
Qed.

End QuotaFacts.

(** C40: a reply for the current generation rebuilds the ledger: a folder has a
    balance exactly when a usable entry names it, and then the balance is the
    least one any entry reports for a folder of the same pool; a folder without
    one has no bytes to show.  Foreign pools are those the classifier calls so. *)
Theorem quota_reply (m : UploadQuotaManager) (groups : groups_t) (c : classifier) :
  (forall f f', NodeHandle.as8byte f = NodeHandle.as8byte f' -> c f = c f') ->
  let ps := QuotaFacts.pairs groups in
  exists m', Quota.applyGroups (mLatestGen m) groups c m = (true, m')
    /\ (mHaveBalances m' = true <-> ps <> [])
    /\ forall f,
      (Quota.hasBalanceFor f m' = true <-> exists b f', (b, f') ∈ ps /\ NodeHandle.as8byte f' = NodeHandle.as8byte f)
      /\ (Quota.hasBalanceFor f m' = true -> QuotaFacts.is_balance c ps (c f).1 (Quota.availableFor f m'))
      /\ (Quota.hasBalanceFor f m' = false -> Quota.availableFor f m' = 0 /\ Quota.isForeignGroup f m' = false)
      /\ (Quota.hasBalanceFor f m' = true -> (forall g, (c g).1 = (c f).1 -> (c g).2 = (c f).2) ->
          Quota.isForeignGroup f m' = (c f).2).
Proof.
  intros Hc ps. unfold Quota.applyGroups. rewrite Z.eqb_refl. cbn [negb]. eexists. split; [reflexivity|].
  pose proof (QuotaFacts.apply_tracks c Hc groups m) as [Hp Hk Hi Hf]. fold ps in Hp, Hk, Hf.
  set (m' := foldl _ _ _) in *. cbn [mHaveBalances Quota.set_haveBalances]. split.
  { rewrite negb_true_iff, bool_decide_eq_false. split; intros Hne E; apply Hne.
    - apply map_empty. intros h. destruct (mPoolByFolder m' !! h) eqn:Eh; [|done].
      apply Hf in Eh as (b & f & Hbf & _). rewrite E in Hbf. by apply elem_of_nil in Hbf.
    - destruct ps as [|[b f] l]; [done|]. destruct (Hk b f ltac:(by left)) as [i Hki].
      assert (mPoolByFolder m' !! NodeHandle.as8byte f = Some i) as X by (apply Hf; exists b, f; split; [left|done]).
      by rewrite E, lookup_empty in X. }
  intros f.
  assert (Quota.pool_index f (Quota.set_haveBalances (negb (bool_decide (mPoolByFolder m' = ∅))) m')
          = mPoolByFolder m' !! NodeHandle.as8byte f) as Epi by done.
  unfold Quota.hasBalanceFor, Quota.availableFor, Quota.isForeignGroup, Quota.pool_at. rewrite Epi.
  cbn [mPools Quota.set_haveBalances].
  destruct (mPoolByFolder m' !! NodeHandle.as8byte f) as [i|] eqn:E; cbn [mbind option_bind].
  - rewrite bool_decide_true by eauto. apply Hf in E as (b & f' & Hbf & Hh & Hki).
    rewrite (Hc _ _ Hh) in Hki. destruct (Hp _ _ Hki) as (p & -> & Hb & _ & b2 & f2 & _ & Hc2).
    split_and!; try done; [by split; intros; [exists b, f'|]|].
    intros _ Hcons. specialize (Hcons f2). rewrite Hc2 in Hcons. by apply Hcons.
  - rewrite bool_decide_false by (by intros []). split_and!; try done. split; [done|].
    intros (b & f' & Hbf & Hh). destruct (Hk b f' Hbf) as [i Hi'].
    assert (mPoolByFolder m' !! NodeHandle.as8byte f = Some i) by (apply Hf; eauto). congruence.
Qed.

(** Stale replies are harmless.  Once an issue in flight has been
    invalidated, its reply neither changes the ledger nor the in-flight mark,
    whatever happened in between (while the 64-bit generation does not wrap). *)
Theorem quota_stale_reply (m : UploadQuotaManager) (ops : list QuotaFacts.op) (groups : groups_t) (c : classifier) :
  mInFlight m = true -> 0 <= mLatestGen m ->
  mLatestGen m + 1 + Z.of_nat (length ops) < 2 ^ 64 ->
  let m' := foldl QuotaFacts.run_op (Quota.invalidate m) ops in
  Quota.applyGroups (mLatestGen m) groups c m' = (false, m') /\ Quota.endIssue (mLatestGen m) m' = m'.
Proof.
  intros Hfl H0 Hl m'.
  assert (mLatestGen (Quota.invalidate m) = mLatestGen m + 1) as E.
  { cbn. rewrite Hfl. cbn. apply wrapu_id. lia. }
  pose proof (QuotaFacts.run_gen ops (Quota.invalidate m)) as G. rewrite E in G.
  assert (mLatestGen m <> mLatestGen m') as Hne by (subst m'; lia).
  unfold Quota.applyGroups, Quota.endIssue. by rewrite (proj2 (Z.eqb_neq _ _) Hne).
Qed.

(** The accounting of uploads.  After an evaluation scan a pool's
    outstanding bytes are the sizes of the uploads times their targets in the
    pool; [unconstrained] says that no pool is short, which is when the queue-fit
    query over the same pools answers [Fits]; and completing uploads keeps the
    pools covered. *)
Theorem quota_accounting (m : UploadQuotaManager) (uploads : list (list Z * Z)) :
  let scan := foldl (fun m '(folders, size) => Quota.addOutstandingForTargets folders size m)
                (Quota.beginOutstandingAccumulation m) uploads in
  let m' := Quota.finishOutstandingAccumulation scan in
  let fit := QueueFit.computeWsQuotaQueueFit true
               ((fun p => QueueFit.MkPoolFit (outstanding p) (remaining p) (foreign p)) <$> mPools m') in
  (forall i p, mPools m' !! i = Some p ->
     outstanding p = foldr Z.add 0 ((fun '(folders, size) => QuotaFacts.hits m folders i * size) <$> uploads)
     /\ Some (remaining p) = remaining <$> mPools m !! i)
  /\ (mUnconstrained m' = true <-> QueueFit.state fit = QueueFit.Fits)
  /\ QueueFit.shortfallBytes fit
     = foldr Z.add 0 ((fun p => Z.max 0 (outstanding p - remaining p)) <$> mPools m')
  /\ (forall folder size, 0 <= size -> QuotaFacts.covered m' ->
        QuotaFacts.covered (Quota.deductOnCompletion folder size m')).
Proof.
  intros scan m' fit.
  assert (mPools m' = mPools scan) as Em by done.
  pose proof (QuotaFacts.fit_fold
                ((fun p => QueueFit.MkPoolFit (outstanding p) (remaining p) (foreign p)) <$> mPools m') false 0 false) as F.
  split_and!.
  - intros i p Hp. rewrite Em in Hp.
    destruct (QuotaFacts.scan_at uploads (Quota.beginOutstandingAccumulation m) i) as [_ Hs].
    unfold scan in Hp. rewrite Hs in Hp. cbn [mPools Quota.beginOutstandingAccumulation Quota.set_pools] in Hp.
    rewrite list_lookup_fmap in Hp. destruct (mPools m !! i) as [q|]; [|done]. cbn in Hp. simplify_eq. by cbn.
  - unfold fit, QueueFit.computeWsQuotaQueueFit. rewrite F. cbn [negb orb QueueFit.state].
    unfold m'. rewrite QuotaFacts.finish_spec. fold m'. rewrite Em. clear F Em.
    induction (mPools scan) as [|p ps IH]; cbn; [by split|].
    rewrite Forall_cons. destruct (remaining p <? outstanding p) eqn:E; zbool; cbn.
    + split; [lia|done].
    + rewrite IH. split; [by intros [_ ?]|]. intros ?. split; [lia|done].
  - unfold fit, QueueFit.computeWsQuotaQueueFit. rewrite F. cbn [negb QueueFit.shortfallBytes].
    rewrite Z.add_0_l. unfold QuotaFacts.overs. by rewrite <- list_fmap_compose.
  - intros folder size Hs Hcov. unfold Quota.deductOnCompletion.
    destruct (Quota.pool_index folder m') as [i|]; [|done]. unfold QuotaFacts.covered in *. cbn [mPools Quota.set_pools].
    apply Forall_lookup. intros j p Hj. rewrite Forall_lookup in Hcov.
    destruct (decide (j = i)) as [->|Hne]; [|rewrite list_lookup_alter_ne in Hj by congruence; eauto].
    rewrite list_lookup_alter_eq in Hj. destruct (mPools m' !! i) as [q|] eqn:Eq; [|done]. cbn in Hj. simplify_eq.
    specialize (Hcov i q Eq). unfold Quota.deduct. cbn. case_ifs.
Qed.

(** *** Witnesses *)
Module QuotaExample.
(** Folders 1 and 2 share pool 7; folder 3 is in the foreign pool 8. *)
Definition classify : classifier := fun f =>
  if NodeHandle.as8byte f =? 3 then (8, true) else (7, false).
Definition groups : groups_t := [(500, [1]); (-3, [2]); (300, [2; 3]); (900, [])].
End QuotaExample.

Lemma quota_reply_witness :
  let m := Quota.init in
  let ps := QuotaFacts.pairs QuotaExample.groups in
  exists m', Quota.applyGroups (mLatestGen m) QuotaExample.groups QuotaExample.classify m = (true, m')
    /\ (mHaveBalances m' = true <-> ps <> [])
    /\ forall f,
      (Quota.hasBalanceFor f m' = true <-> exists b f', (b, f') ∈ ps /\ NodeHandle.as8byte f' = NodeHandle.as8byte f)
      /\ (Quota.hasBalanceFor f m' = true ->
          QuotaFacts.is_balance QuotaExample.classify ps (QuotaExample.classify f).1 (Quota.availableFor f m'))
      /\ (Quota.hasBalanceFor f m' = false -> Quota.availableFor f m' = 0 /\ Quota.isForeignGroup f m' = false)
      /\ (Quota.hasBalanceFor f m' = true ->
          (forall g, (QuotaExample.classify g).1 = (QuotaExample.classify f).1 ->
             (QuotaExample.classify g).2 = (QuotaExample.classify f).2) ->
          Quota.isForeignGroup f m' = (QuotaExample.classify f).2).
Proof.
  apply (quota_reply Quota.init QuotaExample.groups QuotaExample.classify).
  intros f f' E. unfold QuotaExample.classify. by rewrite E.
Defined.

Lemma quota_stale_reply_witness :
  let m := (Quota.beginIssue Quota.init).2 in
  let m' := foldl QuotaFacts.run_op (Quota.invalidate m) [QuotaFacts.OpBegin; QuotaFacts.OpClear] in
  Quota.applyGroups (mLatestGen m) QuotaExample.groups QuotaExample.classify m' = (false, m')
  /\ Quota.endIssue (mLatestGen m) m' = m'.
Proof.
  apply (quota_stale_reply (Quota.beginIssue Quota.init).2 [QuotaFacts.OpBegin; QuotaFacts.OpClear]);
    vm_compute; done.
Defined.
