(* ===== verification/Tlv.v ===== *)
(** * TLV containers of user attributes (src/src/tlv.cpp)

    [TLVstore]: a map of records, its plain serialization (a NUL-terminated
    type, a 16-bit big-endian length, the value), the encrypted container around
    it (the setting, the IV, the authenticated ciphertext) and the two decoders,
    with [Utils::utf8toUnicode], which repairs containers that an old client
    stored as UTF-8.  The authenticated ciphers of Crypto++ are the class [AEAD].

    [new string] and [new TLVstore] results are options: [None] is the null
    pointer.  The model is of the release build, where the [assert] of
    [tlvRecordsToContainer] does not stop an oversized value. *)

From S2P Require Import Prelude OMap Crypto.
Local Open Scope Z_scope.

(** ** The authenticated ciphers

    [ccm_seal] and [ccm_open] run [CCM<AES, tag>] over a message, [gcm_seal] and
    [gcm_open] run [GCM<AES>] with a tag of [tag] bytes; sealing appends the
    tag.  [None]: the library throws. *)
Class AEAD := {
  ccm_seal : nat -> bytes -> bytes -> option bytes;
  ccm_open : nat -> bytes -> bytes -> option bytes;
  gcm_seal : nat -> bytes -> bytes -> option bytes;
  gcm_open : nat -> bytes -> bytes -> option bytes
}.

(** Opening inverts sealing and only a sealed message with its tag opens.  CCM with an IV of [n] bytes counts the message in
    [15 - n] bytes; GCM is limited to [2^36 - 32] bytes. *)
Class AEAD_laws `{AEAD} : Prop := {
  ccm_inverse : forall tag iv p,
    tag = 8%nat \/ tag = 16%nat -> (7 <= length iv <= 13)%nat ->
    zlength p < 256 ^ (15 - zlength iv) ->
    exists c, ccm_seal tag iv p = Some c /\ length c = (length p + tag)%nat
      /\ ccm_open tag iv c = Some p;
  gcm_inverse : forall tag iv p,
    tag = 8%nat \/ tag = 16%nat -> (1 <= length iv)%nat -> zlength p <= 2 ^ 36 - 32 ->
    exists c, gcm_seal tag iv p = Some c /\ length c = (length p + tag)%nat
      /\ gcm_open tag iv c = Some p;
  ccm_open_length : forall tag iv c p, ccm_open tag iv c = Some p -> length c = (length p + tag)%nat;
  gcm_open_length : forall tag iv c p, gcm_open tag iv c = Some p -> length c = (length p + tag)%nat
}.

(** The wrappers of [SymmCipher] (src/src/crypto/cryptopp.cpp): the output is
    appended to [result], and cleared when the verification fails. *)
Module Authenticated.
Section cipher.
Context `{AEAD}.

Definition ccm_encrypt (data iv : bytes) (taglen : nat) (result : bytes) : bool * bytes :=
  if (taglen =? 16)%nat || (taglen =? 8)%nat then
    match ccm_seal taglen iv data with
    | Some c => (true, result ++ c)
    | None => (false, result)
    end
  else (false, result).

Definition ccm_decrypt (data iv : bytes) (taglen : nat) (result : bytes) : bool * bytes :=
  if (taglen =? 16)%nat || (taglen =? 8)%nat then
    match ccm_open taglen iv data with
    | Some p => (true, result ++ p)
    | None => (false, [])
    end
  else (false, result).

Definition gcm_encrypt (data iv : bytes) (taglen : nat) (result : bytes) : bool * bytes :=
  match gcm_seal taglen iv data with
  | Some c => (true, result ++ c)
  | None => (false, result)
  end.

Definition gcm_decrypt (data iv : bytes) (taglen : nat) (result : bytes) : bool * bytes :=
  match gcm_open taglen iv data with
  | Some p => (true, result ++ p)
  | None => (false, [])
  end.

End cipher.
End Authenticated.

(** [Utils::utf8toUnicode]: two-byte sequences of code points below 256 become
    one byte; anything else of two bytes is refused. *)
Fixpoint utf8toUnicode (src : bytes) : option bytes :=
  match src with
  | [] => Some []
  | utf8cp1 :: src =>
      if utf8cp1 <? 0x80 then cons utf8cp1 <$> utf8toUnicode src
      else
        match src with
        | [] => None
        | utf8cp2 :: src =>
            if ((utf8cp1 =? 0xC2) || (utf8cp1 =? 0xC3)) && (0x80 <=? utf8cp2) && (utf8cp2 <=? 0xBF)
            then
              let unicodecp := Z.shiftl (Z.land utf8cp1 0x1F) 6 + Z.land utf8cp2 0x3F in
              cons (Z.land unicodecp 0xFF) <$> utf8toUnicode src
            else None
        end
  end.

Module TLVstore.

(** ** Settings *)

(** [encryptionsetting_t], as stored in the first byte of a container. *)
Definition AES_CCM_12_16 : Z := 0x00.
Definition AES_CCM_10_16 : Z := 0x01.
Definition AES_CCM_10_08 : Z := 0x02.
Definition AES_GCM_12_16_BROKEN : Z := 0x03.
Definition AES_GCM_10_08_BROKEN : Z := 0x04.
Definition AES_GCM_12_16 : Z := 0x10.
Definition AES_GCM_10_08 : Z := 0x11.

Inductive encryptionmode_t := AES_MODE_UNKNOWN | AES_MODE_CCM | AES_MODE_GCM.

#[export] Instance encryptionmode_t_eq_dec : EqDecision encryptionmode_t.
Proof. solve_decision. Defined.

Definition any (mode : Z) (settings : list Z) : bool := existsb (Z.eqb mode) settings.

Definition getTaglen (mode : Z) : nat :=
  if any mode [AES_CCM_10_16; AES_CCM_12_16; AES_GCM_12_16_BROKEN; AES_GCM_12_16] then 16
  else if any mode [AES_CCM_10_08; AES_GCM_10_08_BROKEN; AES_GCM_10_08] then 8
  else 0.

Definition getIvlen (mode : Z) : nat :=
  if any mode [AES_CCM_12_16; AES_GCM_12_16_BROKEN; AES_GCM_12_16] then 12
  else if any mode [AES_CCM_10_08; AES_GCM_10_08_BROKEN; AES_CCM_10_16; AES_GCM_10_08] then 10
  else 0.

Definition getMode (mode : Z) : encryptionmode_t :=
  if any mode [AES_CCM_12_16; AES_GCM_12_16_BROKEN; AES_CCM_10_16; AES_CCM_10_08;
               AES_GCM_10_08_BROKEN] then AES_MODE_CCM
  else if any mode [AES_GCM_12_16; AES_GCM_10_08] then AES_MODE_GCM
  else AES_MODE_UNKNOWN.

(** ** The store *)

Abbreviation TLV_map := (list (bytes * bytes)).

Definition get (tlv : TLV_map) (type value : bytes) : bool * bytes :=
  match omap_find type tlv with
  | Some v => (true, v)
  | None => (false, value)
  end.
Definition getKeys (tlv : TLV_map) : list bytes := fst <$> tlv.
Definition set (tlv : TLV_map) (type value : bytes) : TLV_map := omap_insert type value tlv.
Definition reset (tlv : TLV_map) (type : bytes) : TLV_map := omap_erase type tlv.
Definition size (tlv : TLV_map) : Z := zlength tlv.
(** [moveMap] hands out the map and leaves an empty one. *)
Definition moveMap (tlv : TLV_map) : TLV_map * TLV_map := (tlv, []).

(** ** Plain containers *)

(** One round of the loop: the new [result] and [offset].  The resize fills in
    the NUL behind the type. *)
Definition write_record (type value : bytes) (result : bytes) (offset : nat) : bytes * nat :=
  let result := result ++ type in
  let offset := (offset + (length type + 1))%nat in
  let len := zlength value in
  let len := if 0xFFFF <? len then 0xFFFF else len in
  let result := PaddedCBC.resize (offset + 2) 0 result in
  let result := <[offset := u8 (Z.shiftr len 8)]> result in
  let result := <[(offset + 1)%nat := u8 (Z.land len 0xFF)]> result in
  let offset := (offset + 2)%nat in
  (result ++ value, (offset + length value)%nat).

Fixpoint write_records (tlv : TLV_map) (result : bytes) (offset : nat) : bytes :=
  match tlv with
  | [] => result
  | (type, value) :: tlv =>
      let '(result, offset) := write_record type value result offset in
      write_records tlv result offset
  end.

Definition tlvRecordsToContainer (tlv : TLV_map) : bytes := write_records tlv [] 0.

(** [std::string::find(c)] from the start of [l]. *)
Fixpoint find_char (c : Z) (l : bytes) : option nat :=
  match l with
  | [] => None
  | x :: l => if x =? c then Some O else S <$> find_char c l
  end.

(** The decoding loop.  The outer option is the fuel, the inner one the result
    (every round consumes at least three bytes). *)
Fixpoint read_records (fuel : nat) (data : bytes) (offset : nat) (tlv : TLV_map)
    : option (option TLV_map) :=
  match fuel with
  | O => None
  | S fuel =>
      let datalen := length data in
      if (offset <? datalen)%nat then
        match find_char 0 (drop offset data) with
        | None => Some None
        | Some typelen =>
            if (datalen <? offset + typelen + 3)%nat then Some None
            else
              let type := substr data offset typelen in
              let offset := (offset + (typelen + 1))%nat in
              let valuelen := Z.to_nat (Z.lor (Z.shiftl (default 0 (data !! offset)) 8)
                                              (default 0 (data !! (offset + 1)%nat))) in
              let offset := (offset + 2)%nat in
              if (datalen <? offset + valuelen)%nat then Some None
              else
                let value := substr data offset valuelen in
                read_records fuel data (offset + valuelen) (set tlv type value)
        end
      else Some (Some tlv)
  end.

(** 1 + 2 + 0xFFFF: from this size on a container that starts with an empty type
    is taken to be a single record. *)
Definition maxSize : Z := 1 + 2 + 0xFFFF.

Definition containerToTLVrecords (data : bytes) : option TLV_map :=
  match data with
  | [] => None
  | first :: _ =>
      if (maxSize <=? zlength data) && (first =? 0) then Some (set [] [] (drop 3 data))
      else default None (read_records (S (length data)) data 0 [])
  end.

(** ** Encrypted containers *)
Section encrypted.
Context `{AEAD}.

(** [rng n] are the [n] bytes of [PrnGen::genblock]. *)
Definition tlvRecordsToContainer_key (rng : nat -> bytes) (encSetting : Z) (tlv : TLV_map)
    : option bytes :=
  let ivlen := getIvlen encSetting in
  let taglen := getTaglen encSetting in
  let encMode := getMode encSetting in
  if (ivlen =? 0)%nat || (taglen =? 0)%nat || bool_decide (encMode = AES_MODE_UNKNOWN) then None
  else
    let container := tlvRecordsToContainer tlv in
    let iv := rng ivlen in
    let '(ok, cipherText) :=
      match encMode with
      | AES_MODE_CCM => Authenticated.ccm_encrypt container iv taglen []
      | AES_MODE_GCM => Authenticated.gcm_encrypt container iv taglen []
      | AES_MODE_UNKNOWN => (true, [])
      end in
    if ok then Some (u8 encSetting :: iv ++ cipherText) else None.

Definition containerToTLVrecords_key (data : bytes) : option TLV_map :=
  match data with
  | [] => None
  | first :: rest =>
      let encSetting := wraps 8 first in
      let ivlen := getIvlen encSetting in
      let taglen := getTaglen encSetting in
      let encMode := getMode encSetting in
      if bool_decide (encMode = AES_MODE_UNKNOWN) || (ivlen =? 0)%nat || (taglen =? 0)%nat
         || (length data <? 1 + ivlen + taglen)%nat
      then None
      else
        let iv := take ivlen rest in
        let cipherText := drop ivlen rest in
        let clearTextLen := (length cipherText - taglen)%nat in
        let '(decrypted, clearText) :=
          match encMode with
          | AES_MODE_CCM => Authenticated.ccm_decrypt cipherText iv taglen []
          | AES_MODE_GCM => Authenticated.gcm_decrypt cipherText iv taglen []
          | AES_MODE_UNKNOWN => (false, [])
          end in
        if negb decrypted then None
        else
          match clearText with
          | [] => Some []
          | _ =>
              match containerToTLVrecords clearText with
              | Some tlv => Some tlv
              | None =>
                  match utf8toUnicode (take clearTextLen clearText) with
                  | None => None
                  | Some clearTextUnicode => containerToTLVrecords clearTextUnicode
                  end
              end
          end
  end.

(** The functions of [namespace tlv] wrap the two pairs. *)
Definition containerToRecords_key (container : bytes) : option TLV_map :=
  match containerToTLVrecords_key container with
  | Some tlv => Some (fst (moveMap tlv))
  | None => None
  end.
Definition recordsToContainer_key (records : TLV_map) (rng : nat -> bytes) : option bytes :=
  tlvRecordsToContainer_key rng AES_GCM_12_16 records.

End encrypted.

Definition containerToRecords (container : bytes) : option TLV_map :=
  match containerToTLVrecords container with
  | Some tlv => Some (fst (moveMap tlv))
  | None => None
  end.
Definition recordsToContainer (records : TLV_map) : bytes := tlvRecordsToContainer records.

End TLVstore.

(** ** The wire format *)
Module TlvFacts.
Import TLVstore.

(** A record the format can hold, and its image. *)
Definition record_ok (r : bytes * bytes) : Prop :=
  0 ∉ r.1 /\ zlength r.2 <= 0xFFFF.

#[export] Instance record_ok_dec r : Decision (record_ok r).
Proof. unfold record_ok. apply _. Defined.

Definition size_bytes (value : bytes) : bytes :=
  let len := Z.min (zlength value) 0xFFFF in [Z.shiftr len 8; Z.land len 0xFF].
Definition record_bytes (r : bytes * bytes) : bytes := r.1 ++ 0 :: size_bytes r.2 ++ r.2.
Definition image (tlv : TLV_map) : bytes := mjoin (record_bytes <$> tlv).

Lemma length_record r : length (record_bytes r) = (length r.1 + 3 + length r.2)%nat.
Proof. unfold record_bytes. rewrite length_app. cbn [length app size_bytes]. lia. Qed.

Lemma size_bytes_u8 value :
  size_bytes value
  = let len := if 0xFFFF <? zlength value then 0xFFFF else zlength value in
    [u8 (Z.shiftr len 8); u8 (Z.land len 0xFF)].
Proof.
  unfold size_bytes. cbv zeta.
  replace (Z.min (zlength value) 0xFFFF)
    with (if 0xFFFF <? zlength value then 0xFFFF else zlength value) by (case_ifs; zbool; lia).
  set (len := if 0xFFFF <? zlength value then 0xFFFF else zlength value).
  assert (0 <= len < 2 ^ 16) as L by (subst len; case_ifs; zbool; lia). clearbody len.
  rewrite Z.shiftr_div_pow2 by lia. change 0xFF with (Z.ones 8). rewrite Z.land_ones by lia.
  rewrite !wrapu_id; [done|..]; change (2 ^ 8) with 256; dlia.
Qed.

Lemma size_value value :
  zlength value <= 0xFFFF ->
  match size_bytes value with
  | [hi; lo] => Z.to_nat (Z.lor (Z.shiftl hi 8) lo) = length value
  | _ => False
  end.
Proof.
  intros L. unfold size_bytes. rewrite Z.min_l by done. cbv zeta.
  change 0xFF with (Z.ones 8). rewrite Z.land_ones, Z.shiftr_div_pow2 by lia.
  rewrite lor_shiftl by (try lia; apply Z.mod_pos_bound; lia).
  pose proof (Z.div_mod (zlength value) (2 ^ 8)). lia.
Qed.

Lemma write_record_eq r result :
  write_record r.1 r.2 result (length result)
  = (result ++ record_bytes r, length (result ++ record_bytes r)).
Proof.
  destruct r as [type value]. unfold write_record. cbn [fst snd].
  assert (PaddedCBC.resize (length result + (length type + 1) + 2) 0 (result ++ type)
    = (result ++ type) ++ [0; 0; 0]) as ->.
  { unfold PaddedCBC.resize. rewrite take_ge by (rewrite length_app; lia).
    rewrite length_app.
    by replace (length result + (length type + 1) + 2 - (length result + length type))%nat
      with 3%nat by lia. }
  rewrite insert_app_r_alt by (rewrite length_app; lia).
  rewrite insert_app_r_alt by (rewrite length_app; lia). rewrite length_app.
  replace (length result + (length type + 1) - (length result + length type))%nat
    with 1%nat by lia.
  replace (length result + (length type + 1) + 1 - (length result + length type))%nat
    with 2%nat by lia.
  cbn [insert list_insert]. rewrite !length_app, length_record. cbn [fst snd].
  f_equal; [|lia].
  unfold record_bytes. cbn [fst snd]. rewrite size_bytes_u8. cbv zeta. by rewrite <- !app_assoc.
Qed.

Lemma write_records_image tlv result :
  write_records tlv result (length result) = result ++ image tlv.
Proof.
  revert result. induction tlv as [|[t v] tlv IH]; intros result; cbn [write_records].
  { by rewrite app_nil_r. }
  pose proof (write_record_eq (t, v) result) as E. cbn [fst snd] in E. rewrite E, IH.
  unfold image. by rewrite fmap_cons, mjoin_cons, app_assoc.
Qed.

Lemma container_image tlv : tlvRecordsToContainer tlv = image tlv.
Proof. apply (write_records_image tlv []). Qed.

Lemma find_char_app c l1 l2 : c ∉ l1 -> find_char c (l1 ++ c :: l2) = Some (length l1).
Proof.
  induction l1 as [|x l1 IH]; intros Hc; cbn [app find_char length]; [by rewrite Z.eqb_refl|].
  apply not_elem_of_cons in Hc as [Hx Hc]. rewrite (proj2 (Z.eqb_neq x c)) by done.
  by rewrite IH.
Qed.

Lemma find_char_none c l : c ∉ l -> find_char c l = None.
Proof.
  induction l as [|x l IH]; intros Hc; [done|]. apply not_elem_of_cons in Hc as [Hx Hc].
  cbn [find_char]. rewrite (proj2 (Z.eqb_neq x c)) by done. by rewrite IH.
Qed.

(** One round of the decoder, by what is left of the data. *)
Lemma read_step fuel data offset tlv r rest :
  record_ok r -> (offset <= length data)%nat -> drop offset data = record_bytes r ++ rest ->
  read_records (S fuel) data offset tlv
  = read_records fuel data (offset + length (record_bytes r)) (set tlv r.1 r.2).
Proof.
  intros [Ht Hv] Ho Hd. destruct r as [t v]. cbn [fst snd] in *.
  assert (length data = offset + (length t + 3 + length v) + length rest)%nat as L.
  { assert (length (drop offset data) = length (record_bytes (t, v) ++ rest)) as E by by rewrite Hd.
    rewrite length_drop, length_app, length_record in E. cbn [fst snd] in E. lia. }
  cbn [read_records]. rewrite (proj2 (Nat.ltb_lt _ _)) by lia.
  pose proof (size_value v Hv) as Hs. unfold record_bytes in Hd. cbn [fst snd] in Hd.
  destruct (size_bytes v) as [|hi [|lo [|]]] eqn:E; try done.
  assert (drop offset data = t ++ 0 :: hi :: lo :: v ++ rest) as Hd'.
  { rewrite Hd. cbn [app]. by rewrite <- app_assoc. }
  rewrite Hd', find_char_app by done.
  rewrite (proj2 (Nat.ltb_ge _ _)) by lia.
  assert (forall k, data !! (offset + k)%nat = (t ++ 0 :: hi :: lo :: v ++ rest) !! k) as Hl.
  { intros k. by rewrite <- Hd', lookup_drop. }
  replace (offset + (length t + 1) + 1)%nat with (offset + (length t + 2))%nat by lia.
  rewrite !Hl, !lookup_app_r by lia.
  replace (length t + 1 - length t)%nat with 1%nat by lia.
  replace (length t + 2 - length t)%nat with 2%nat by lia.
  cbn [lookup list_lookup from_option id]. rewrite Hs.
  rewrite (proj2 (Nat.ltb_ge _ _)) by lia.
  replace (substr data offset (length t)) with t.
  2: { unfold substr. by rewrite Hd', take_app_length. }
  replace (substr data (offset + (length t + 1) + 2) (length v)) with v.
  2: { unfold substr. replace (offset + (length t + 1) + 2)%nat with (offset + (length t + 3))%nat by lia.
       rewrite <- drop_drop, Hd'. change (t ++ 0 :: hi :: lo :: v ++ rest)
         with (t ++ [0; hi; lo] ++ (v ++ rest)). rewrite app_assoc.
       rewrite drop_app_exact, take_app_exact; [done..|].
       rewrite length_app. simpl. lia. }
  f_equal. rewrite length_record. cbn [fst snd]. lia.
Qed.

(** A round over a record that is cut refuses the container. *)
Lemma read_cut fuel data offset tlv r n :
  record_ok r -> (0 < n < length (record_bytes r))%nat -> length data = (offset + n)%nat ->
  drop offset data = take n (record_bytes r) ->
  read_records (S fuel) data offset tlv = Some None.
Proof.
  intros [Ht Hv] Hn L Hd. destruct r as [t v]. rewrite length_record in Hn. cbn [fst snd] in *.
  cbn [read_records]. rewrite (proj2 (Nat.ltb_lt _ _)) by lia. rewrite Hd.
  pose proof (size_value v Hv) as Hs. unfold record_bytes in *. cbn [fst snd] in *.
  destruct (decide (n <= length t)%nat) as [Hle|Hgt].
  { rewrite find_char_none; [done|]. rewrite take_app_le by done.
    intros Hin. apply Ht. by apply (subseteq_take n t). }
  destruct (size_bytes v) as [|hi [|lo [|]]] eqn:E; try done.
  rewrite take_app_ge in Hd by lia. rewrite take_app_ge by lia.
  replace (n - length t)%nat with (S (n - length t - 1)) by lia. cbn [take].
  rewrite find_char_app by done.
  destruct (decide (n < length t + 3)%nat) as [Hlt|Hge].
  { by rewrite (proj2 (Nat.ltb_lt _ _)) by lia. }
  rewrite (proj2 (Nat.ltb_ge _ _)) by lia.
  assert (drop offset data = t ++ 0 :: hi :: lo :: take (n - length t - 3) v) as Hd'.
  { rewrite Hd. remember (n - length t - 3)%nat as k eqn:Ek.
    by replace (n - length t)%nat with (S (S (S k))) by lia. }
  assert (forall k, data !! (offset + k)%nat
                    = (t ++ 0 :: hi :: lo :: take (n - length t - 3) v) !! k) as Hl.
  { intros k. by rewrite <- Hd', lookup_drop. }
  replace (offset + (length t + 1) + 1)%nat with (offset + (length t + 2))%nat by lia.
  rewrite !Hl, !lookup_app_r by lia.
  replace (length t + 1 - length t)%nat with 1%nat by lia.
  replace (length t + 2 - length t)%nat with 2%nat by lia.
  cbn [lookup list_lookup from_option id]. rewrite Hs.
  by rewrite (proj2 (Nat.ltb_lt _ _)) by lia.
Qed.

Lemma read_end fuel data offset tlv :
  (length data <= offset)%nat -> read_records (S fuel) data offset tlv = Some (Some tlv).
Proof. intros. cbn [read_records]. by rewrite (proj2 (Nat.ltb_ge _ _)). Qed.

(** The decoder on a whole image. *)
Lemma read_image fuel data offset tlv rs :
  Forall record_ok rs -> (length rs < fuel)%nat -> (offset <= length data)%nat ->
  drop offset data = image rs ->
  read_records fuel data offset tlv
  = Some (Some (foldl (fun m e => omap_insert e.1 e.2 m) tlv rs)).
Proof.
  intros Hrs. revert fuel offset tlv.
  induction Hrs as [|r rs Hr Hrs IH]; intros [|fuel] offset tlv Hf Ho Hd; simpl in Hf; try lia.
  - apply read_end. assert (length (drop offset data) = 0%nat) as E by by rewrite Hd.
    rewrite length_drop in E. lia.
  - unfold image in Hd. rewrite fmap_cons, mjoin_cons in Hd.
    assert (length (drop offset data) >= length (record_bytes r))%nat as L.
    { rewrite Hd, length_app. lia. }
    rewrite length_drop in L.
    rewrite (read_step fuel _ _ _ r (image rs)) by done. cbn [foldl].
    rewrite length_record in *.
    apply IH; [lia|lia|]. rewrite <- drop_drop, Hd.
    apply drop_app_exact. by rewrite length_record.
Qed.

(** The decoder on a cut image: refused unless the cut is between records. *)
Lemma read_prefix fuel data offset tlv rs n m' :
  Forall record_ok rs -> (length rs < fuel)%nat -> length data = (offset + n)%nat ->
  (n <= length (image rs))%nat -> drop offset data = take n (image rs) ->
  read_records fuel data offset tlv = Some (Some m') ->
  exists k, m' = foldl (fun m e => omap_insert e.1 e.2 m) tlv (take k rs)
    /\ take n (image rs) = image (take k rs).
Proof.
  intros Hrs. revert fuel offset tlv n.
  induction Hrs as [|r rs Hr Hrs IH]; intros [|fuel] offset tlv n Hf L Hn Hd Hread;
    simpl in Hf; try lia.
  - simpl in Hn. rewrite read_end in Hread by lia. simplify_eq. exists 0%nat.
    by destruct n.
  - unfold image in Hd, Hn. rewrite fmap_cons, mjoin_cons in Hd, Hn. fold (image rs) in Hd, Hn.
    rewrite length_app in Hn.
    destruct (decide (n = 0)%nat) as [->|Hn0].
    { rewrite read_end in Hread by lia. simplify_eq. exists 0%nat. by rewrite !take_0. }
    destruct (decide (n < length (record_bytes r))%nat) as [Hlt|Hge].
    + rewrite take_app_le in Hd by lia. rewrite (read_cut fuel _ _ _ r n) in Hread by (done || lia). done.
    + rewrite take_app_ge in Hd by lia.
      rewrite (read_step fuel _ _ _ r (take (n - length (record_bytes r)) (image rs))) in Hread
        by (done || lia).
      destruct (IH fuel (offset + length (record_bytes r))%nat (set tlv r.1 r.2)
                   (n - length (record_bytes r))%nat) as (k & Hm & Hk); [lia..| |done|].
      * rewrite <- drop_drop, Hd. by apply drop_app_exact.
      * exists (S k). split; [done|]. unfold image. cbn [take]. rewrite !fmap_cons, !mjoin_cons.
        fold (image rs) (image (take k rs)). by rewrite take_app_ge, Hk by lia.
Qed.


Lemma length_image rs : (3 * length rs <= length (image rs))%nat.
Proof.
  induction rs as [|r rs IH]; [simpl; lia|]. unfold image in *. rewrite fmap_cons, mjoin_cons.
  rewrite length_app, length_record. simpl. lia.
Qed.

Lemma decode_loop data :
  data <> [] -> (maxSize <= zlength data -> cchar data <> 0) ->
  containerToTLVrecords data = default None (read_records (S (length data)) data 0 []).
Proof.
  destruct data as [|x data]; [done|]. intros _ Hl. unfold containerToTLVrecords.
  rewrite cchar_cons in Hl. destruct (maxSize <=? _) eqn:E; [|done]. zbool.
  by rewrite (proj2 (Z.eqb_neq x 0)) by auto.
Qed.

(** When the first type is empty the image starts with a NUL, and only then. *)
Lemma image_head r rs : record_ok r -> cchar (image (r :: rs)) = 0 <-> r.1 = [].
Proof.
  intros [Ht _]. unfold image. rewrite fmap_cons, mjoin_cons. unfold record_bytes.
  destruct r as [[|c t] v]; cbn [fst snd app] in *; [done|]. rewrite cchar_cons.
  apply not_elem_of_cons in Ht as [Hc _]. by split.
Qed.

Lemma decode_large data :
  cchar data = 0 -> maxSize <= zlength data -> containerToTLVrecords data = Some [([], drop 3 data)].
Proof.
  intros Hc Hl. destruct data as [|x data]; [by vm_compute in Hl|]. unfold containerToTLVrecords.
  rewrite cchar_cons in Hc. subst x. by rewrite (proj2 (Z.leb_le _ _)) by done.
Qed.

(** The condition under which the container is read as it was written. *)
Definition readable (tlv : TLV_map) : Prop :=
  (exists value, tlv = [([], value)]) \/ (fst <$> head tlv <> Some []) \/
  zlength (tlvRecordsToContainer tlv) < maxSize.

Lemma decode_image tlv :
  omap_ok tlv -> Forall record_ok tlv -> tlv <> [] ->
  (fst <$> head tlv <> Some [] \/ zlength (image tlv) < maxSize) ->
  containerToTLVrecords (image tlv) = Some tlv.
Proof.
  intros Hok Hrs Hne Hlarge. pose proof (length_image tlv) as L.
  destruct tlv as [|r tlv]; [done|]. rewrite decode_loop.
  - rewrite (read_image _ _ 0 [] (r :: tlv)) by (done || lia). cbn [from_option id]. f_equal.
    by apply (rebuild []).
  - intros E. rewrite E in L. simpl in L. lia.
  - intros Hl. apply Forall_cons in Hrs as [Hr _]. rewrite (image_head r tlv) by done.
    destruct Hlarge as [Hk|Hs]; [|lia]. simpl in Hk. congruence.
Qed.

(** A single value behind an empty type, of any size. *)
Lemma decode_single value : containerToTLVrecords (image [([], value)]) = Some [([], value)].
Proof.
  destruct (decide (zlength value < 0xFFFF)) as [Hs|Hl].
  - apply decode_image; [by split; [constructor|]| |done|].
    + repeat constructor; cbn [fst snd]; [apply not_elem_of_nil|lia].
    + right. unfold image. simpl. rewrite length_app. unfold record_bytes, maxSize. simpl. lia.
  - assert (image [([], value)] = [0] ++ size_bytes value ++ value) as ->.
    { unfold image. simpl. by rewrite app_nil_r. }
    rewrite decode_large; [done..|]. unfold maxSize. simpl. lia.
Qed.

Lemma decode_readable tlv :
  omap_ok tlv -> Forall record_ok tlv -> tlv <> [] -> readable tlv ->
  containerToTLVrecords (image tlv) = Some tlv.
Proof.
  unfold readable. rewrite container_image.
  intros Hok Hrs Hne [ [v ->] | Hr]; [apply decode_single|]. by apply decode_image.
Qed.

Lemma default_some {A} (o : option (option A)) a : default None o = Some a -> o = Some (Some a).
Proof. by destruct o; intros; simplify_eq/=. Qed.

(** More fuel than the decoder needs changes nothing. *)
Lemma read_fuel fuel fuel' data offset tlv r :
  read_records fuel data offset tlv = Some r -> (fuel <= fuel')%nat ->
  read_records fuel' data offset tlv = Some r.
Proof.
  revert fuel' offset tlv. induction fuel as [|fuel IH]; intros [|fuel'] offset tlv; [done|done|lia|].
  cbn [read_records]. intros Hr Hle. cbv zeta in *.
  repeat (case_if; [|done..]). destruct (find_char _ _); [|done].
  repeat (case_if; [done|]). apply IH; [done|lia].
Qed.

(** A container that a client has encoded as UTF-8 once more. *)
Definition utf8_of_unicode (data : bytes) : bytes :=
  mjoin ((fun b => if b <? 0x80 then [b]
                   else [Z.lor 0xC0 (Z.shiftr b 6); Z.lor 0x80 (Z.land b 0x3F)]) <$> data).

Definition utf8_byte_check (b : Z) : bool :=
  if b <? 0x80 then true
  else
    let c1 := Z.lor 0xC0 (Z.shiftr b 6) in
    let c2 := Z.lor 0x80 (Z.land b 0x3F) in
    negb (c1 <? 0x80) && ((c1 =? 0xC2) || (c1 =? 0xC3)) && (0x80 <=? c2) && (c2 <=? 0xBF)
    && (Z.land (Z.shiftl (Z.land c1 0x1F) 6 + Z.land c2 0x3F) 0xFF =? b).

Lemma utf8_byte b : byte_ok b -> utf8_byte_check b = true.
Proof.
  intros Hb. apply (all_below_spec 256 utf8_byte_check); [vm_compute; reflexivity|].
  unfold byte_ok in Hb. lia.
Qed.

Lemma utf8_nil data : utf8_of_unicode data = [] -> data = [].
Proof.
  destruct data as [|b data]; [done|]. unfold utf8_of_unicode.
  rewrite fmap_cons, mjoin_cons. by case_if.
Qed.

Lemma utf8toUnicode_inverse data : bytes_ok data -> utf8toUnicode (utf8_of_unicode data) = Some data.
Proof.
  induction 1 as [|b data Hb Hd IH]; [done|]. unfold utf8_of_unicode in *.
  rewrite fmap_cons, mjoin_cons. pose proof (utf8_byte b Hb) as C. unfold utf8_byte_check in C.
  destruct (b <? 0x80) eqn:E; cbn [app utf8toUnicode]; [by rewrite E, IH|]. cbv zeta in *.
  apply andb_true_iff in C as [C C5]. apply andb_true_iff in C as [C C4].
  apply andb_true_iff in C as [C C3]. apply andb_true_iff in C as [C1 C2].
  apply negb_true_iff in C1. rewrite C1, C2, C3, C4. cbn [andb]. apply Z.eqb_eq in C5.
  by rewrite IH, C5.
Qed.

(** ** Encrypted containers *)

Lemma setting_cases s :
  getMode s <> AES_MODE_UNKNOWN ->
  s ∈ [AES_CCM_12_16; AES_CCM_10_16; AES_CCM_10_08; AES_GCM_12_16_BROKEN; AES_GCM_10_08_BROKEN;
       AES_GCM_12_16; AES_GCM_10_08].
Proof.
  unfold getMode, any. cbn [existsb]. repeat rewrite elem_of_cons. intros Hm.
  repeat match type of Hm with
  | context [Z.eqb s ?x] =>
      destruct (Z.eqb s x) eqn:?; [zbool; subst s; repeat (first [left; reflexivity | right])|]
  end. by destruct Hm.
Qed.

(** What the code needs of a setting it knows. *)
Lemma setting_facts s :
  getMode s <> AES_MODE_UNKNOWN ->
  wraps 8 (u8 s) = s
  /\ (getTaglen s = 8%nat \/ getTaglen s = 16%nat)
  /\ (getIvlen s = 10%nat \/ getIvlen s = 12%nat).
Proof.
  intros Hs%setting_cases. repeat rewrite elem_of_cons in Hs. rewrite elem_of_nil in Hs.
  destruct_or! Hs; subst; try done; vm_compute; auto.
Qed.

Section sealed.
Context `{AEAD_laws}.

(** Sealing under the mode of a setting, as both directions of the container
    use it. *)
Definition seal (s : Z) (iv p : bytes) : option bytes :=
  match getMode s with
  | AES_MODE_CCM => ccm_seal (getTaglen s) iv p
  | AES_MODE_GCM => gcm_seal (getTaglen s) iv p
  | AES_MODE_UNKNOWN => None
  end.
Definition open (s : Z) (iv c : bytes) : option bytes :=
  match getMode s with
  | AES_MODE_CCM => ccm_open (getTaglen s) iv c
  | AES_MODE_GCM => gcm_open (getTaglen s) iv c
  | AES_MODE_UNKNOWN => None
  end.

Lemma seal_open s iv p :
  getMode s <> AES_MODE_UNKNOWN -> length iv = getIvlen s -> zlength p < 2 ^ 24 ->
  exists c, seal s iv p = Some c /\ length c = (length p + getTaglen s)%nat /\ open s iv c = Some p.
Proof.
  intros Hs Hiv Hp. destruct (setting_facts s Hs) as (_ & Ht & Hi). unfold seal, open.
  destruct (getMode s) eqn:E; [done|apply ccm_inverse|apply gcm_inverse]; try lia.
  destruct Hi as [Hi|Hi]; rewrite Hiv, Hi; [|done].
  change (256 ^ (15 - Z.of_nat 10)) with (2 ^ 40). change (2 ^ 24) with 16777216 in Hp. lia.
Qed.

Lemma encode_sealed rng s tlv c :
  getMode s <> AES_MODE_UNKNOWN -> seal s (rng (getIvlen s)) (image tlv) = Some c ->
  tlvRecordsToContainer_key rng s tlv = Some (u8 s :: rng (getIvlen s) ++ c).
Proof.
  intros Hs Hc. destruct (setting_facts s Hs) as (_ & Ht & Hi).
  unfold tlvRecordsToContainer_key, seal in *. rewrite container_image.
  rewrite (proj2 (Nat.eqb_neq (getIvlen s) 0)), (proj2 (Nat.eqb_neq (getTaglen s) 0)) by lia.
  rewrite bool_decide_eq_false_2 by done. cbn [orb]. cbv zeta.
  destruct (getMode s); [done| |].
  - unfold Authenticated.ccm_encrypt. rewrite Hc. by destruct Ht as [-> | ->].
  - unfold Authenticated.gcm_encrypt. by rewrite Hc.
Qed.

Lemma open_length s iv c p : open s iv c = Some p -> length c = (length p + getTaglen s)%nat.
Proof. unfold open. destruct (getMode s); [done|apply ccm_open_length|apply gcm_open_length]. Qed.

(** The decoder as the composition of opening and reading. *)
Definition read_clear (p : bytes) : option TLV_map :=
  match p with
  | [] => Some []
  | _ =>
      match containerToTLVrecords p with
      | Some tlv => Some tlv
      | None => utf8toUnicode p ≫= containerToTLVrecords
      end
  end.

Lemma read_clear_image tlv :
  (tlv <> [] -> containerToTLVrecords (image tlv) = Some tlv) -> read_clear (image tlv) = Some tlv.
Proof.
  intros Hd. unfold read_clear. destruct (image tlv) as [|c l] eqn:E.
  - pose proof (length_image tlv) as L. rewrite E in L. destruct tlv; [done|]. simpl in L. lia.
  - rewrite Hd; [done|]. by intros ->.
Qed.

Lemma decode_sealed s iv c p :
  getMode s <> AES_MODE_UNKNOWN -> length iv = getIvlen s ->
  (getTaglen s <= length c)%nat ->
  open s iv c = p ->
  containerToTLVrecords_key (u8 s :: iv ++ c) = p ≫= read_clear.
Proof.
  intros Hs Hiv Hc Hopen. destruct (setting_facts s Hs) as (Hw & Ht & Hi).
  pose proof (open_length s iv c) as Hlen.
  unfold containerToTLVrecords_key. rewrite Hw.
  rewrite (proj2 (Nat.eqb_neq (getIvlen s) 0)), (proj2 (Nat.eqb_neq (getTaglen s) 0)) by lia.
  rewrite bool_decide_eq_false_2 by done.
  rewrite (proj2 (Nat.ltb_ge _ _)) by (cbn [length]; rewrite length_app; lia). cbn [orb].
  rewrite take_app_exact, drop_app_exact by done. unfold open in *. cbv zeta.
  destruct (getMode s); [done| |].
  - unfold Authenticated.ccm_decrypt. rewrite Hopen.
    replace ((getTaglen s =? 16)%nat || (getTaglen s =? 8)%nat) with true
      by by destruct Ht as [-> | ->].
    destruct p as [p|]; [|done]. specialize (Hlen p Hopen). cbn [app negb mbind option_bind].
    destruct p as [|x p]; [done|]. unfold read_clear.
    rewrite take_ge by lia. destruct (containerToTLVrecords (x :: p)); [done|].
    by destruct (utf8toUnicode (x :: p)).
  - unfold Authenticated.gcm_decrypt. rewrite Hopen.
    destruct p as [p|]; [|done]. specialize (Hlen p Hopen). cbn [app negb mbind option_bind].
    destruct p as [|x p]; [done|]. unfold read_clear.
    rewrite take_ge by lia. destruct (containerToTLVrecords (x :: p)); [done|].
    by destruct (utf8toUnicode (x :: p)).
Qed.

End sealed.
End TlvFacts.

(** ** Properties *)

(** Writing records to a plain container and reading it back gives the
    records, unless the first type is empty, there are other records and the
    container reaches 65538 bytes: then the size rule of the decoder takes the
    whole of it as one value, and the records are not read back.  A single
    record with an empty type is read back whatever its size. *)
Theorem tlv_roundtrip tlv :
  omap_ok tlv -> Forall TlvFacts.record_ok tlv -> tlv <> [] ->
  (TLVstore.containerToTLVrecords (TLVstore.tlvRecordsToContainer tlv) = Some tlv
   <-> TlvFacts.readable tlv)
  /\ forall value, TLVstore.containerToTLVrecords (TLVstore.tlvRecordsToContainer [([], value)])
     = Some [([], value)].
Proof.
  intros Hok Hrs Hne. rewrite TlvFacts.container_image.
  split; [|intros value; rewrite TlvFacts.container_image; apply TlvFacts.decode_single].
  unfold TlvFacts.readable. rewrite TlvFacts.container_image. split.
  - intros Hd. destruct tlv as [|r tlv]; [done|]. apply Forall_cons in Hrs as [Hr _].
    destruct (decide (r.1 = [])) as [E|]; [|right; left; simpl; congruence].
    destruct (decide (zlength (TlvFacts.image (r :: tlv)) < TLVstore.maxSize)); [by auto|].
    rewrite TlvFacts.decode_large in Hd; [|by apply TlvFacts.image_head|lia].
    left. eexists. symmetry. injection Hd as Hr' Ht'. by f_equal.
  - intros Hread. apply TlvFacts.decode_readable; [done..|].
    unfold TlvFacts.readable. by rewrite TlvFacts.container_image.
Qed.

(** A plain container that has been cut short is refused, unless the cut
    falls between two records: then exactly the records before it are read. *)
Theorem tlv_truncated tlv n tlv' :
  omap_ok tlv -> Forall TlvFacts.record_ok tlv ->
  (fst <$> head tlv <> Some [] \/ zlength (TLVstore.tlvRecordsToContainer tlv) < TLVstore.maxSize) ->
  (n <= length (TLVstore.tlvRecordsToContainer tlv))%nat ->
  TLVstore.containerToTLVrecords (take n (TLVstore.tlvRecordsToContainer tlv)) = Some tlv' ->
  exists k, tlv' = take k tlv
    /\ take n (TLVstore.tlvRecordsToContainer tlv) = TLVstore.tlvRecordsToContainer (take k tlv).
Proof.
  rewrite TlvFacts.container_image. intros Hok Hrs Hl Hn Hd.
  assert (n <> 0)%nat as Hn0 by (intros ->; done).
  pose proof (TlvFacts.length_image tlv) as L.
  rewrite TlvFacts.decode_loop in Hd.
  - apply TlvFacts.default_some in Hd as E.
    assert (exists f, TLVstore.read_records f (take n (TlvFacts.image tlv)) 0 [] = Some (Some tlv')
                      /\ (length tlv < f)%nat) as (f & Hf & Hlt).
    { exists (S (length tlv + length (take n (TlvFacts.image tlv)))). split; [|lia].
      eapply TlvFacts.read_fuel; [exact E|lia]. }
    destruct (TlvFacts.read_prefix f (take n (TlvFacts.image tlv)) 0 [] tlv n tlv') as (k & Hm & Hk);
      [done|done|rewrite length_take; lia|done|done|done|].
    exists k. rewrite TlvFacts.container_image. split; [|done]. subst tlv'.
    apply (rebuild []). by apply take_ok.
  - intros E. apply (f_equal length) in E. rewrite length_take in E. simpl in E. lia.
  - rewrite length_take. intros Hsize. destruct Hl as [Hk|Hs]; [|lia].
    destruct tlv as [|r tlv]; [simpl in Hn; lia|]. apply Forall_cons in Hrs as [Hr _].
    pose proof (TlvFacts.image_head r tlv Hr) as Hh.
    destruct (TlvFacts.image (r :: tlv)) as [|c l] eqn:E; [simpl in Hn; lia|].
    destruct n as [|n]; [done|]. rewrite cchar_cons in Hh. cbn [take]. rewrite cchar_cons.
    simpl in Hk. intros ->. apply Hk. f_equal. by apply Hh.
Qed.

(** A container encrypted under any known setting opens to the records that
    were put into it (an empty store included); so does a container whose clear
    text an old client encoded as UTF-8, when that encoding is no container by
    itself; and a container that does not verify, or whose setting is unknown,
    is refused. *)
Theorem tlv_encrypted_roundtrip `{AEAD_laws} rng s tlv :
  (forall n, length (rng n) = n) -> TLVstore.getMode s <> TLVstore.AES_MODE_UNKNOWN ->
  omap_ok tlv -> Forall TlvFacts.record_ok tlv -> TlvFacts.readable tlv ->
  zlength (TLVstore.tlvRecordsToContainer tlv) < 2 ^ 24 ->
  (exists c, TLVstore.tlvRecordsToContainer_key rng s tlv = Some c
     /\ TLVstore.containerToTLVrecords_key c = Some tlv)
  /\ (forall c p, bytes_ok (TLVstore.tlvRecordsToContainer tlv) ->
      TlvFacts.open s (rng (TLVstore.getIvlen s)) c = Some p ->
      p = TlvFacts.utf8_of_unicode (TLVstore.tlvRecordsToContainer tlv) ->
      tlv <> [] -> TLVstore.containerToTLVrecords p = None ->
      TLVstore.containerToTLVrecords_key (u8 s :: rng (TLVstore.getIvlen s) ++ c) = Some tlv)
  /\ (forall c, (TLVstore.getTaglen s <= length c)%nat ->
      TlvFacts.open s (rng (TLVstore.getIvlen s)) c = None ->
      TLVstore.containerToTLVrecords_key (u8 s :: rng (TLVstore.getIvlen s) ++ c) = None)
  /\ (forall b c, TLVstore.getMode (wraps 8 b) = TLVstore.AES_MODE_UNKNOWN ->
      TLVstore.containerToTLVrecords_key (b :: c) = None).
Proof.
  intros Hrng Hs Hok Hrs Hread Hsize. rewrite TlvFacts.container_image in *.
  assert (tlv <> [] -> TLVstore.containerToTLVrecords (TlvFacts.image tlv) = Some tlv) as Hplain.
  { intros Hne. by apply TlvFacts.decode_readable. }
  split; [|split; [|split] ].
  - destruct (TlvFacts.seal_open s (rng (TLVstore.getIvlen s)) (TlvFacts.image tlv))
      as (c & Hc & Hl & Ho); [done..|].
    eexists. split; [by apply TlvFacts.encode_sealed|].
    erewrite TlvFacts.decode_sealed; [|done|done|lia|exact Ho]. cbn [mbind option_bind].
    apply TlvFacts.read_clear_image. done.
  - intros c p Hb Ho -> Hne Hnone.
    erewrite TlvFacts.decode_sealed; [|done|done| |exact Ho]; cbn [mbind option_bind].
    + unfold TlvFacts.read_clear. rewrite Hnone, TlvFacts.utf8toUnicode_inverse by done.
      cbn [mbind option_bind]. rewrite Hplain by done.
      destruct (TlvFacts.utf8_of_unicode _) eqn:E; [|done]. apply TlvFacts.utf8_nil in E.
      pose proof (TlvFacts.length_image tlv) as L. rewrite E in L.
      destruct tlv; [done|]. simpl in L. lia.
    + apply TlvFacts.open_length in Ho. lia.
  - intros c Hl Ho. by erewrite TlvFacts.decode_sealed; [|done|done|done|exact Ho].
  - intros b c Hb. unfold TLVstore.containerToTLVrecords_key. by rewrite Hb.
Qed.

(** ** Witnesses *)
Module ToyAEAD.

(** A cipher whose tag is the sum of the message. *)
Definition tag_of (tag : nat) (p : bytes) : bytes := replicate tag (u8 (foldr Z.add 0 p)).
Definition seal (tag : nat) (iv p : bytes) : option bytes := Some (p ++ tag_of tag p).
Definition open (tag : nat) (iv c : bytes) : option bytes :=
  let p := take (length c - tag) c in
  if (tag <=? length c)%nat && bool_decide (drop (length c - tag) c = tag_of tag p)
  then Some p else None.

#[local] Instance toy : AEAD :=
  {| ccm_seal := seal; ccm_open := open; gcm_seal := seal; gcm_open := open |}.

Lemma inverse tag iv p :
  exists c, seal tag iv p = Some c /\ length c = (length p + tag)%nat /\ open tag iv c = Some p.
Proof.
  eexists. split; [done|]. assert (length (p ++ tag_of tag p) = (length p + tag)%nat) as L.
  { rewrite length_app. unfold tag_of. by rewrite length_replicate. }
  split; [done|]. unfold open. rewrite L, Nat.add_sub, take_app_length, drop_app_length.
  by rewrite (proj2 (Nat.leb_le _ _)), bool_decide_eq_true_2 by (done || lia).
Qed.

Lemma open_shortens tag iv c p : open tag iv c = Some p -> length c = (length p + tag)%nat.
Proof.
  unfold open. case_if; [|done]. intros [= <-]. zbool. rewrite length_take.
  match goal with H : (_ <=? _)%nat = true |- _ => apply Nat.leb_le in H end. lia.
Qed.

#[local] Instance toy_laws : AEAD_laws.
Proof.
  split; simpl; intros; [apply inverse..| |]; by eapply open_shortens.
Qed.

Definition records : list (bytes * bytes) :=
  [(str "k", [200; 0; 7]); (str "name", str "secret")].
Definition rng (n : nat) : bytes := replicate n 9.

Lemma records_ok : omap_ok records /\ Forall TlvFacts.record_ok records
  /\ TlvFacts.readable records.
Proof.
  split; [by repeat constructor|split; [by repeat constructor; apply (bool_decide_unpack _)|] ].
  right. by left.
Qed.

End ToyAEAD.

Lemma tlv_roundtrip_witness :
  TLVstore.containerToTLVrecords (TLVstore.tlvRecordsToContainer ToyAEAD.records)
  = Some ToyAEAD.records.
Proof.
  destruct ToyAEAD.records_ok as (H1 & H2 & H3).
  apply (tlv_roundtrip ToyAEAD.records H1 H2); [done|exact H3].
Defined.

Lemma tlv_truncated_witness :
  exists k, [(str "k", [200; 0; 7])] = take k ToyAEAD.records
    /\ take 7 (TLVstore.tlvRecordsToContainer ToyAEAD.records)
       = TLVstore.tlvRecordsToContainer (take k ToyAEAD.records).
Proof.
  destruct ToyAEAD.records_ok as (H1 & H2 & H3).
  apply (tlv_truncated ToyAEAD.records 7 _ H1 H2); [by left|vm_compute; lia|vm_compute; reflexivity].
Defined.

Lemma tlv_encrypted_roundtrip_witness :
  exists c, @TLVstore.tlvRecordsToContainer_key ToyAEAD.toy ToyAEAD.rng TLVstore.AES_GCM_12_16
      ToyAEAD.records = Some c
    /\ @TLVstore.containerToTLVrecords_key ToyAEAD.toy c = Some ToyAEAD.records.
Proof.
  destruct ToyAEAD.records_ok as (H1 & H2 & H3).
  apply (@tlv_encrypted_roundtrip ToyAEAD.toy ToyAEAD.toy_laws ToyAEAD.rng TLVstore.AES_GCM_12_16
    ToyAEAD.records); try done.
  intros n. apply length_replicate.
Defined.
