(* ===== verification/Json.v ===== *)
(** * The JSON scanner (src/src/json.cpp, [JSON])

    A [JSON] object is a position in a NUL-terminated text.  The model of the
    position is the list of the characters from there to the terminator, so
    [*pos] is [cchar pos] (0 at the end) and [pos++] is [drop 1].  Methods take
    the position and return their result with the position they leave.  Where
    the source can step over the terminator (unterminated strings, which its
    assertions exclude) the model stays at the end of the text.

    Characters are kept as 0..255; a [char] that is read as a number is the
    signed value [schar].  [getfloat] is not modelled (it is [strtod]). *)

From S2P Require Import Prelude Crypto Encoding Serialize.
Local Open Scope Z_scope.

(** ** The C library *)
Module CLib.

Definition is_space (c : Z) : bool := ((9 <=? c) && (c <=? 13)) || (c =? 32).
Definition is_digit (c : Z) : bool := (chr "0" <=? c) && (c <=? chr "9").

Fixpoint skip_spaces (l : bytes) : bytes :=
  match l with
  | c :: l' => if is_space c then skip_spaces l' else l
  | [] => []
  end.

(** The digits of a number in the given base, as [strtol] reads them. *)
Definition digit_value (base c : Z) : option Z :=
  let v := if is_digit c then c - chr "0"
           else if (chr "a" <=? c) && (c <=? chr "z") then c - chr "a" + 10
           else if (chr "A" <=? c) && (c <=? chr "Z") then c - chr "A" + 10
           else base in
  if v <? base then Some v else None.

Fixpoint digits (base : Z) (l : bytes) (acc : Z) : Z :=
  match l with
  | c :: l => match digit_value base c with
              | Some v => digits base l (acc * base + v)
              | None => acc
              end
  | [] => acc
  end.

(** What is left behind the digits of a decimal number. *)
Fixpoint skip_digits (l : bytes) : bytes :=
  match l with
  | c :: l' => if is_digit c then skip_digits l' else l
  | [] => []
  end.

(** [atoll], which saturates like [strtoll]. *)
Definition atoll (l : bytes) : Z :=
  let l := skip_spaces l in
  let '(neg, l) := if cchar l =? chr "-" then (true, drop 1 l)
                   else if cchar l =? chr "+" then (false, drop 1 l) else (false, l) in
  let v := digits 10 l 0 in
  let v := if neg then - v else v in
  Z.max (- 2 ^ 63) (Z.min (2 ^ 63 - 1) v).

(** [strtoull(ptr, nullptr, 0)] of a text that starts with a digit. *)
Definition strtoull0 (l : bytes) : Z :=
  let v :=
    if cchar l =? chr "0" then
      let x := cchar (drop 1 l) in
      if ((x =? chr "x") || (x =? chr "X")) && bool_decide (is_Some (digit_value 16 (cchar (drop 2 l))))
      then digits 16 (drop 2 l) 0
      else digits 8 l 0
    else digits 10 l 0 in
  Z.min (2 ^ 64 - 1) v.

(** A number in decimal digits, as [std::to_string] and [ostream] print it. *)
Fixpoint decimal (fuel : nat) (n : Z) : bytes :=
  match fuel with
  | O => []
  | S fuel => (if n <? 10 then [] else decimal fuel (n / 10)) ++ [chr "0" + n mod 10]
  end.
Definition print_u64 (n : Z) : bytes := decimal 20 n.
Definition print_s64 (n : Z) : bytes := if n <? 0 then chr "-" :: print_u64 (- n) else print_u64 n.

End CLib.

(** A [char] as a number. *)
Definition schar (c : Z) : Z := wraps 8 c.

(** [id = (id << 8) + static_cast<nameid>(c)]. *)
Definition nameid_push (id c : Z) : Z := u64 (u64 (Z.shiftl id 8) + u64 (schar c)).

Definition EOO : Z := 0.

(** [mega/name_id.h] *)
Definition makeNameid (name : bytes) : Z := foldl nameid_push 0 name.

Module JSON.

Definition is_any (c : Z) (l : list Z) : bool := existsb (Z.eqb c) l.

(** [if (pos is one of l) pos++]. *)
Definition skip_one (l : list Z) (pos : bytes) : bytes :=
  if is_any (cchar pos) l then drop 1 pos else pos.

(** The characters before the next quote, or all of them, and what follows. *)
Fixpoint until_quote (l : bytes) : bytes * bytes :=
  match l with
  | [] => ([], [])
  | c :: l' =>
      if (c =? 0) || (c =? cDquote) then ([], l)
      else let '(name, rest) := until_quote l' in (c :: name, rest)
  end.

(** ** Skipping one value *)

(** Inside a string: up to the closing quote.  [escaped] is a variable of
    [storeobject], so it also is a result. *)
Fixpoint skip_string (ptr : bytes) (escaped : bool) : bytes * bool :=
  match ptr with
  | [] => ([], escaped)
  | c :: ptr' =>
      if negb (c =? 0) && (escaped || negb (c =? cDquote))
      then skip_string ptr' ((c =? cBackslash) && negb escaped)
      else (ptr, escaped)
  end.

Definition number_start (c : Z) : bool := CLib.is_digit c || is_any c [chr "-"; chr "."].
Definition number_char (c : Z) : bool := CLib.is_digit c || is_any c [chr "."; chr "e"; chr "E"].

Fixpoint skip_number (ptr : bytes) : bytes :=
  match ptr with
  | c :: ptr' => if number_char c then skip_number ptr' else ptr
  | [] => []
  end.

(** The loop of [storeobject]: [o0] counts the open braces, [o1] the open
    brackets.  The outer option is the fuel, the inner one the parse error; the
    result is the position after the value. *)
Fixpoint object_loop (fuel : nat) (ptr : bytes) (o0 o1 : Z) (escaped : bool)
    : option (option bytes) :=
  match fuel with
  | O => None
  | S fuel =>
      let next ptr o0 o1 escaped :=
        if (o0 =? 0) && (o1 =? 0) then Some (Some ptr) else object_loop fuel ptr o0 o1 escaped in
      let c := cchar ptr in
      if c =? chr "[" then next (drop 1 ptr) o0 (o1 + 1) escaped
      else if c =? chr "{" then next (drop 1 ptr) (o0 + 1) o1 escaped
      else if c =? chr "]" then next (drop 1 ptr) o0 (o1 - 1) escaped
      else if c =? chr "}" then next (drop 1 ptr) (o0 - 1) o1 escaped
      else if c =? cDquote then
        let '(ptr, escaped) := skip_string (drop 1 ptr) escaped in
        if cchar ptr =? 0 then Some None else next (drop 1 ptr) o0 o1 escaped
      else if number_start c then next (skip_number (drop 1 ptr)) o0 o1 escaped
      else if (c =? chr ":") || (c =? chr ",") then next (drop 1 ptr) o0 o1 escaped
      else Some None
  end.

(** White space before a value ([*pos] is compared as a signed character). *)
Fixpoint skip_blank (pos : bytes) : bytes :=
  match pos with
  | c :: pos' => if (0 <? schar c) && (schar c <=? 32) then skip_blank pos' else pos
  | [] => []
  end.

(** What is stored: the text from [pos] to [ptr], without the quotes of a
    string. *)
Definition stored (pos ptr : bytes) : bytes :=
  let n := (length pos - length ptr)%nat in
  if cchar pos =? cDquote then substr pos 1 (n - 2) else take n pos.

(** [storeobject(s)]: the result, the position and the string [s]. *)
Definition storeobject (pos s : bytes) : bool * bytes * bytes :=
  let pos := skip_blank pos in
  if (cchar pos =? chr "]") || (cchar pos =? chr "}") then (false, pos, s)
  else
    let pos := skip_one [chr ","] pos in
    match object_loop (S (length pos)) pos 0 0 false with
    | Some (Some ptr) => (true, ptr, stored pos ptr)
    | _ => (false, pos, s)
    end.

Definition skip_object (pos : bytes) : bytes := (storeobject pos []).1.2.

Definition storeKeyValueFromObject (pos key value : bytes) : bool * bytes * bytes * bytes :=
  let '(ok, pos, key) := storeobject pos key in
  if negb ok || negb (cchar pos =? chr ":") then (false, pos, key, value)
  else
    let '(ok, pos, value) := storeobject (drop 1 pos) value in (ok, pos, key, value).

(** [skipnullvalue], without the assertion against [null]. *)
Definition skipnullvalue (pos : bytes) : bool * bytes :=
  let c := cchar pos in
  if c =? chr "," then (true, drop 1 pos)
  else if is_any c [chr "]"; chr "}"] then (true, pos)
  else if (c =? chr "n") && bool_decide (take 4 pos = str "null") then
    let c := cchar (drop 4 pos) in
    if c =? chr "," then (true, drop 5 pos)
    else if is_any c [chr "]"; chr "}"] then (true, drop 4 pos)
    else (false, pos)
  else (false, pos).

Definition isnumeric (pos : bytes) : bool * bytes :=
  let pos := skip_one [chr ","] pos in
  let ptr := skip_one [chr "-"] pos in
  (CLib.is_digit (cchar ptr), pos).

(** ** Names *)

(** [getnameid(ptr)]. *)
Definition getnameid_at (ptr : bytes) : Z := foldl nameid_push EOO (until_quote ptr).1.

(** [getNameidSkipNull]: one round, then again while a null value is skipped
    (only after a non-empty name, so the text gets shorter). *)
Fixpoint getNameidSkipNull (fuel : nat) (pos : bytes) (skipnullvalues : bool) : option (Z * bytes) :=
  match fuel with
  | O => None
  | S fuel =>
      let ptr := skip_one [chr ","; chr ":"] pos in
      let '(id, pos) :=
        if cchar ptr =? cDquote then
          let '(name, ptr) := until_quote (drop 1 ptr) in
          (foldl nameid_push 0 name, skip_one [chr ":"; chr ","] (drop 1 ptr))
        else (0, pos) in
      let '(skipped, pos) :=
        if negb (id =? 0) && skipnullvalues then skipnullvalue pos else (false, pos) in
      if skipped then getNameidSkipNull fuel pos true else Some (id, pos)
  end.

Definition getnameid (pos : bytes) : Z * bytes :=
  default (0, pos) (getNameidSkipNull (S (length pos)) pos true).
Definition getnameidvalue (pos : bytes) : Z * bytes :=
  default (0, pos) (getNameidSkipNull (S (length pos)) pos false).

Definition getname (pos : bytes) : bytes * bytes :=
  let ptr := skip_one [chr ","; chr ":"] pos in
  if cchar ptr =? cDquote then
    let '(name, ptr) := until_quote (drop 1 ptr) in (name, drop 2 ptr)
  else ([], pos).

Definition getnameWithoutAdvance (pos : bytes) : bytes := (getname pos).1.

(** [is(value)]; [value] is a C string. *)
Definition is_ (pos value : bytes) : bool * bytes :=
  let pos := skip_one [chr ","] pos in
  if negb (cchar pos =? cDquote) then (false, pos)
  else
    let t := length value in
    if negb (bool_decide (substr pos 1 t = value)) || negb (cchar (drop (t + 1) pos) =? cDquote)
    then (false, pos)
    else (true, drop (t + 2) pos).

(** ** Values *)

(** [storebinary(dst, dstlen)]: what is written to the buffer. *)
Definition storebinary_buf (pos : bytes) (dstlen : Z) : bytes * bytes :=
  let pos := skip_one [chr ","] pos in
  if cchar pos =? cDquote
  then (default [] (Base64.atob (drop 1 pos) dstlen), skip_object pos)
  else ([], pos).

Definition storebinary (pos dst : bytes) : bool * bytes * bytes :=
  let pos := skip_one [chr ","] pos in
  if cchar pos =? cDquote then
    let '(body, ptr) := until_quote (drop 1 pos) in
    if cchar ptr =? cDquote then
      let size := zlength body / 4 * 3 + 3 in
      (true, skip_object pos, default [] (Base64.atob (drop 1 pos) (s32 size)))
    else (false, pos, dst)
  else (true, pos, dst).

Definition ishandle (pos : bytes) (size : Z) : bool * bytes :=
  let size := if size =? 6 then 8%nat else 11%nat in
  let pos := skip_one [chr ","] pos in
  if cchar pos =? cDquote then
    if (length (PaddedCBC.cstring pos) <=? size)%nat then (false, pos)
    else (default 0 (pos !! S size) =? cDquote, pos)
  else (false, pos).

Definition gethandle (pos : bytes) (size : Z) : Z * bytes :=
  let '(buf, pos) := storebinary_buf pos 9 in
  if zlength buf =? size then (le_value (PaddedCBC.resize 8 0 buf), pos)
  else (NodeHandle.UNDEF, pos).

Definition getNodeHandle (pos : bytes) : Z * bytes :=
  let '(h, pos) := gethandle pos 6 in (NodeHandle.set6byte h, pos).

Definition getint (pos : bytes) : Z * bytes :=
  let pos := skip_one [chr ":"; chr ","] pos in
  let ptr := skip_one [cDquote] pos in
  if negb (CLib.is_digit (cchar ptr)) && negb (cchar ptr =? chr "-") then (-1, pos)
  else (s64 (u64 (CLib.atoll ptr)), skip_object pos).

Definition getuint64 (pos : bytes) : Z * bytes :=
  let pos := skip_one [chr ":"; chr ","] pos in
  let ptr := skip_one [cDquote] pos in
  if negb (CLib.is_digit (cchar ptr)) then (2 ^ 64 - 1, pos)
  else (CLib.strtoull0 ptr, skip_object pos).

(** [getvalue]: the text the returned pointer points to. *)
Definition getvalue (pos : bytes) : bytes * bytes :=
  let pos := skip_one [chr ":"; chr ","] pos in
  ((if cchar pos =? cDquote then drop 1 pos else pos), skip_object pos).

Definition getfsfp (pos : bytes) : Z * bytes := gethandle pos 8.

Definition isNumericError (pos : bytes) : bool * bytes * Z :=
  let ptr := skip_one [chr ","] pos in
  let c := cchar ptr in
  if negb (c =? chr "-") && negb (c =? chr "0") then (false, pos, 0)
  else if (c =? chr "-")
          && negb ((chr "1" <=? cchar (drop 1 ptr)) && (cchar (drop 1 ptr) <=? chr "9"))
  then (false, pos, 0)
  else (true, skip_object pos, s32 (CLib.atoll ptr)).

(** ** Arrays and objects *)

Definition enterarray (pos : bytes) : bool * bytes :=
  let pos := skip_one [chr ","; chr ":"] pos in
  if cchar pos =? chr "[" then (true, drop 1 pos) else (false, pos).

Definition leavearray (pos : bytes) : bool * bytes :=
  if cchar pos =? chr "]" then (true, drop 1 pos) else (false, pos).

Definition enterobject (pos : bytes) : bool * bytes :=
  let pos := skip_one [chr "}"] pos in
  let pos := skip_one [chr ","] pos in
  if cchar pos =? chr "{" then (true, drop 1 pos) else (false, pos).

(** The loop of [leaveobject], which skips the rest of the object; [None] is the
    end of the fuel. *)
Fixpoint leave_loop (fuel : nat) (pos : bytes) : option bytes :=
  match fuel with
  | O => None
  | S fuel =>
      let c := cchar pos in
      if is_any c [chr ":"; chr ","; 32] then leave_loop fuel (drop 1 pos)
      else if is_any c [cDquote; chr "-"; chr "["; chr "{"] || CLib.is_digit c
      then leave_loop fuel (skip_object pos)
      else if c =? chr "]" then leave_loop fuel (drop 1 pos)
      else Some pos
  end.

Definition leaveobject (fuel : nat) (pos : bytes) : option (bool * bytes) :=
  match leave_loop fuel pos with
  | None => None
  | Some pos => Some (if cchar pos =? chr "}" then (true, drop 1 pos) else (false, pos))
  end.

(** ** Escaping *)

Definition ishex (c : Z) : bool := URLCodec.ishexdigit c.

(** UTF-8 of a code point of the BMP. *)
Definition utf8encode (cp : Z) : bytes :=
  if cp <? 0x80 then [u8 cp]
  else if cp <? 0x800 then
    [u8 (Z.lor 0xC0 (Z.shiftr cp 6)); u8 (Z.lor 0x80 (Z.land cp 0x3F))]
  else
    [u8 (Z.lor 0xE0 (Z.shiftr cp 12)); u8 (Z.lor 0x80 (Z.land (Z.shiftr cp 6) 0x3F));
     u8 (Z.lor 0x80 (Z.land cp 0x3F))].

Definition unescape_char (c : Z) : Z :=
  if c =? chr "n" then 10
  else if c =? chr "r" then 13
  else if c =? chr "b" then 8
  else if c =? chr "f" then 12
  else if c =? chr "t" then 9
  else c.

(** [unescape]: the part of the string from index [i]; what is written is not
    scanned again. *)
Fixpoint unescape (s : bytes) : bytes :=
  match s with
  | c :: ((d :: rest) as s') =>
      if negb (c =? cBackslash) then c :: unescape s'
      else if negb (d =? chr "u") then unescape_char d :: unescape rest
      else
        match rest with
        | h1 :: h2 :: h3 :: h4 :: rest' =>
            if ishex h1 && ishex h2 && ishex h3 && ishex h4 then
              let cp := Z.lor (Z.lor (Z.lor (Z.shiftl (hexval h1) 12) (Z.shiftl (hexval h2) 8))
                                     (Z.shiftl (hexval h3) 4)) (hexval h4) in
              utf8encode cp ++ unescape rest'
            else chr "u" :: unescape rest
        | _ => chr "u" :: unescape rest
        end
  | _ => s
  end.

(** [utf8proc_iterate]: the number of bytes of the first character (or an error,
    not positive) and its code point. *)
Class UTF8PROC := { utf8proc_iterate : bytes -> Z * Z }.

(** A character takes bytes of the text; a one-byte character is the ASCII
    character it is, every byte of a longer one is above ASCII, and an ASCII
    character is always decoded. *)
Class UTF8PROC_laws `{UTF8PROC} : Prop := {
  iterate_range : forall l read cp, utf8proc_iterate l = (read, cp) -> read <= zlength l;
  iterate_ascii : forall c l, 0 <= c < 0x80 -> utf8proc_iterate (c :: l) = (1, c);
  iterate_one : forall c l cp, byte_ok c -> utf8proc_iterate (c :: l) = (1, cp) -> c < 0x80;
  iterate_long : forall l read cp,
    utf8proc_iterate l = (read, cp) -> 1 < read ->
    Forall (fun c => 0x80 <= c) (take (Z.to_nat read) l)
}.

(** The escape of an ASCII character; control characters without a letter of
    their own are printed with [\u%04x]. *)
Definition escape_char (cp c : Z) : bytes :=
  if cp =? cDquote then [cBackslash; cDquote]
  else if cp =? cBackslash then [cBackslash; cBackslash]
  else if cp =? 8 then [cBackslash; chr "b"]
  else if cp =? 12 then [cBackslash; chr "f"]
  else if cp =? 10 then [cBackslash; chr "n"]
  else if cp =? 13 then [cBackslash; chr "r"]
  else if cp =? 9 then [cBackslash; chr "t"]
  else if cp <? 0x20
  then [cBackslash; chr "u"; chr "0"; chr "0"; hexdigit (Z.shiftr cp 4); hexdigit (Z.land cp 15)]
  else [c].

Section escape.
Context `{UTF8PROC}.

Fixpoint escape_loop (fuel : nat) (current : bytes) : bytes :=
  match fuel with
  | O => []
  | S fuel =>
      match current with
      | [] => []
      | c :: rest =>
          let '(read, codepoint) := utf8proc_iterate current in
          if read <=? 0 then c :: escape_loop fuel rest
          else
            let n := Z.to_nat read in
            if 1 <? read then take n current ++ escape_loop fuel (drop n current)
            else escape_char codepoint c ++ escape_loop fuel rest
      end
  end.

(** Every round consumes a byte. *)
Definition escape (data : bytes) : bytes := escape_loop (length data) data.

End escape.

(** ** Text utilities *)

(** [std::string::find] of a pattern: the text from its first occurrence. *)
Fixpoint find_pattern (pattern text : bytes) : option bytes :=
  if bool_decide (take (length pattern) text = pattern) then Some text
  else match text with [] => None | _ :: text => find_pattern pattern text end.

Fixpoint find_quote (l : bytes) : option bytes :=
  match l with
  | [] => None
  | c :: l => if c =? cDquote then Some [] else cons c <$> find_quote l
  end.

Definition extractstringvalue (json name value : bytes) : bool * bytes :=
  let pattern := name ++ [cDquote; chr ":"; cDquote] in
  match find_pattern pattern json with
  | None => (false, value)
  | Some at_ =>
      match find_quote (drop (length pattern) at_) with
      | None => (false, value)
      | Some v => (true, v)
      end
  end.

Definition copystring (p : option bytes) : bytes :=
  match p with
  | Some p => default p (find_quote p)
  | None => []
  end.

(** [stripWhitespace]: every round consumes a character. *)
Fixpoint strip_loop (fuel : nat) (pos result : bytes) : bytes :=
  match fuel with
  | O => result
  | S fuel =>
      match pos with
      | [] => result
      | c :: pos' =>
          if c =? cDquote then
            let result := result ++ [cDquote] in
            let '(ok, pos, temp) := storeobject pos [] in
            if negb ok then result
            else strip_loop fuel pos (result ++ temp ++ [cDquote])
          else if CLib.is_space c then strip_loop fuel pos' result
          else strip_loop fuel pos' (result ++ [c])
      end
  end.

Definition stripWhitespace (text : bytes) : bytes := strip_loop (length text) text [].

End JSON.

(** ** The values the scanner is meant for

    [print] is the compact text of a JSON value; [raw] strings are the text
    between the quotes. *)
Module JsonValue.

Inductive value :=
  | VString (raw : bytes)
  | VNumber (text : bytes)
  | VArray (items : list value)
  | VObject (members : list (bytes * value)).

Fixpoint sep (l : list bytes) : bytes :=
  match l with
  | [] => []
  | [x] => x
  | x :: l => x ++ chr "," :: sep l
  end.

Definition quoted (raw : bytes) : bytes := cDquote :: raw ++ [cDquote].

Fixpoint print (v : value) : bytes :=
  match v with
  | VString raw => quoted raw
  | VNumber text => text
  | VArray items => chr "[" :: sep (map print items) ++ [chr "]"]
  | VObject members =>
      chr "{" :: sep (map (fun m => quoted m.1 ++ chr ":" :: print m.2) members) ++ [chr "}"]
  end.

Definition print_member (m : bytes * value) : bytes := quoted m.1 ++ chr ":" :: print m.2.

(** The body of a string: every quote is escaped and the last escape is
    complete. *)
Fixpoint raw_ok (raw : bytes) (escaped : bool) : bool :=
  match raw with
  | [] => negb escaped
  | c :: raw =>
      negb (c =? 0) && (escaped || negb (c =? cDquote))
      && raw_ok raw ((c =? cBackslash) && negb escaped)
  end.

Definition number_ok (text : bytes) : bool :=
  match text with
  | [] => false
  | c :: text => (CLib.is_digit c || (c =? chr "-")) && forallb JSON.number_char text
  end.

Fixpoint wf (v : value) : bool :=
  match v with
  | VString raw => raw_ok raw false
  | VNumber text => number_ok text
  | VArray items => forallb wf items
  | VObject members => forallb (fun m => raw_ok m.1 false && wf m.2) members
  end.

(** A number must not be followed by a character that would continue it. *)
Definition ends_number (rest : bytes) : bool := negb (JSON.number_char (cchar rest)).

(** What [storeobject] stores. *)
Definition content (v : value) : bytes :=
  match v with
  | VString raw => raw
  | _ => print v
  end.

(** Induction with the hypothesis for every item. *)
Section value_ind.
Context (P : value -> Prop)
  (Hstring : forall raw, P (VString raw))
  (Hnumber : forall text, P (VNumber text))
  (Harray : forall items, Forall P items -> P (VArray items))
  (Hobject : forall members, Forall (fun m => P m.2) members -> P (VObject members)).

Fixpoint value_induction (v : value) : P v :=
  match v with
  | VString raw => Hstring raw
  | VNumber text => Hnumber text
  | VArray items =>
      Harray items ((fix go l : Forall P l :=
        match l with
        | [] => Forall_nil_2 _
        | v :: l => Forall_cons_2 _ _ _ (value_induction v) (go l)
        end) items)
  | VObject members =>
      Hobject members ((fix go l : Forall (fun m => P m.2) l :=
        match l with
        | [] => Forall_nil_2 _
        | m :: l => Forall_cons_2 _ _ _ (value_induction m.2) (go l)
        end) members)
  end.
End value_ind.

End JsonValue.

Module JsonFacts.
Import JSON JsonValue.

(** *** The loop as a relation without fuel *)

Lemma skip_string_length ptr e : (length (skip_string ptr e).1 <= length ptr)%nat.
Proof.
  revert e. induction ptr as [|c ptr IH]; intros e; [done|]. cbn [skip_string].
  case_if; [|done]. etransitivity; [apply IH|simpl; lia].
Qed.

Lemma skip_number_length ptr : (length (skip_number ptr) <= length ptr)%nat.
Proof. induction ptr as [|c ptr IH]; [done|]. simpl. case_if; simpl; lia. Qed.

Lemma drop1_length (l : bytes) : cchar l <> 0 -> length l = S (length (drop 1 l)).
Proof. by destruct l. Qed.

Lemma object_loop_total fuel ptr o0 o1 e :
  (length ptr < fuel)%nat -> object_loop fuel ptr o0 o1 e <> None.
Proof.
  revert ptr o0 o1 e. induction fuel as [|fuel IH]; intros ptr o0 o1 e Hf; [lia|].
  cbn [object_loop]. cbv zeta.
  assert (forall p o0 o1 e, cchar ptr <> 0 -> (length p <= length (drop 1 ptr))%nat ->
    (if (o0 =? 0) && (o1 =? 0) then Some (Some p) else object_loop fuel p o0 o1 e) <> None) as Hn.
  { intros p o0' o1' e' Hc Hp. case_if; [done|]. apply IH. apply drop1_length in Hc. lia. }
  do 4 (case_if; [zbool; apply Hn; [congruence|lia]|]). zbool.
  case_if; [zbool|case_if; [|case_if; [|done] ] ].
  - destruct (skip_string _ _) as [p e'] eqn:E. destruct (cchar p =? 0); [done|].
    apply Hn; [congruence|].
    pose proof (skip_string_length (drop 1 ptr) e) as L. rewrite E in L. cbn [fst] in L.
    rewrite length_drop. lia.
  - apply Hn; [|apply skip_number_length]. by intros E; rewrite E in *.
  - apply Hn; [|done]. by intros E; rewrite E in *.
Qed.

Lemma object_loop_mono fuel fuel' ptr o0 o1 e r :
  object_loop fuel ptr o0 o1 e = Some r -> (fuel <= fuel')%nat ->
  object_loop fuel' ptr o0 o1 e = Some r.
Proof.
  revert fuel' ptr o0 o1 e. induction fuel as [|fuel IH]; intros [|fuel'] ptr o0 o1 e Hr Hle; try lia; [done..|].
  cbn [object_loop] in *. cbv zeta in *.
  assert (forall p o0 o1 e,
    (if (o0 =? 0) && (o1 =? 0) then Some (Some p) else object_loop fuel p o0 o1 e) = Some r ->
    (if (o0 =? 0) && (o1 =? 0) then Some (Some p) else object_loop fuel' p o0 o1 e) = Some r) as Hn.
  { intros p o0' o1' e'. case_if; [done|]. intros. apply IH; [done|lia]. }
  do 4 (case_if; [by auto|]). case_if; [|case_if; [|case_if] ]; [|by auto..].
  destruct (skip_string _ _) as [p e']. destruct (cchar p =? 0); auto.
Qed.

(** [runs ptr o0 o1 r]: the loop, outside a string, answers [r]; [next_runs]: so
    does what follows a complete token. *)
Definition runs (ptr : bytes) (o0 o1 : Z) (r : option bytes) : Prop :=
  exists fuel, object_loop fuel ptr o0 o1 false = Some r.
Definition next_runs (ptr : bytes) (o0 o1 : Z) (r : option bytes) : Prop :=
  if (o0 =? 0) && (o1 =? 0) then r = Some ptr else runs ptr o0 o1 r.

Lemma runs_answer ptr o0 o1 r :
  runs ptr o0 o1 r -> object_loop (S (length ptr)) ptr o0 o1 false = Some r.
Proof.
  intros [fuel Hf]. destruct (object_loop (S (length ptr)) ptr o0 o1 false) as [r'|] eqn:E.
  - apply (object_loop_mono _ (fuel + S (length ptr))) in Hf; [|lia].
    apply (object_loop_mono _ (fuel + S (length ptr))) in E; [|lia]. congruence.
  - exfalso. revert E. apply object_loop_total. lia.
Qed.

(** A token is one round of the loop. *)
Lemma next_fuel ptr o0 o1 r :
  next_runs ptr o0 o1 r ->
  exists f, forall fuel, (f <= fuel)%nat ->
    (if (o0 =? 0) && (o1 =? 0) then Some (Some ptr) else object_loop fuel ptr o0 o1 false) = Some r.
Proof.
  unfold next_runs. case_if; [intros ->; by exists 0%nat|]. intros [f Hf]. exists f.
  intros fuel' Hle. by eapply object_loop_mono.
Qed.

Ltac token H :=
  apply next_fuel in H as [f Hf]; exists (S f); cbn [object_loop]; cbv zeta;
  rewrite ?cchar_cons; cbn [drop]; rewrite ?drop_0.

Lemma runs_open_array ptr o0 o1 r : next_runs ptr o0 (o1 + 1) r -> runs (chr "[" :: ptr) o0 o1 r.
Proof. intros H. token H. by apply Hf. Qed.
Lemma runs_open_object ptr o0 o1 r : next_runs ptr (o0 + 1) o1 r -> runs (chr "{" :: ptr) o0 o1 r.
Proof. intros H. token H. by apply Hf. Qed.
Lemma runs_close_array ptr o0 o1 r : next_runs ptr o0 (o1 - 1) r -> runs (chr "]" :: ptr) o0 o1 r.
Proof. intros H. token H. by apply Hf. Qed.
Lemma runs_close_object ptr o0 o1 r : next_runs ptr (o0 - 1) o1 r -> runs (chr "}" :: ptr) o0 o1 r.
Proof. intros H. token H. by apply Hf. Qed.
Lemma runs_comma ptr o0 o1 r : next_runs ptr o0 o1 r -> runs (chr "," :: ptr) o0 o1 r.
Proof. intros H. token H. by apply Hf. Qed.
Lemma runs_colon ptr o0 o1 r : next_runs ptr o0 o1 r -> runs (chr ":" :: ptr) o0 o1 r.
Proof. intros H. token H. by apply Hf. Qed.

Lemma skip_string_raw raw e rest :
  raw_ok raw e = true -> skip_string (raw ++ cDquote :: rest) e = (cDquote :: rest, false).
Proof.
  revert e. induction raw as [|c raw IH]; intros e; cbn [raw_ok app skip_string].
  - intros ->%negb_true_iff. done.
  - intros [H1 H2]%andb_true_iff. rewrite H1. by apply IH.
Qed.

Lemma runs_string raw ptr o0 o1 r :
  raw_ok raw false = true -> next_runs ptr o0 o1 r -> runs (quoted raw ++ ptr) o0 o1 r.
Proof.
  intros Hraw H. token H. unfold quoted. cbn [app].
  rewrite ?cchar_cons. cbn [drop]. rewrite drop_0, <- app_assoc. cbn [app].
  rewrite skip_string_raw by done. by apply Hf.
Qed.

Lemma skip_number_all text rest :
  forallb number_char text = true -> ends_number rest = true -> skip_number (text ++ rest) = rest.
Proof.
  intros Ht Hr. induction text as [|c text IH]; cbn [app].
  - destruct rest as [|c rest]; [done|]. unfold ends_number in Hr. rewrite cchar_cons in Hr.
    apply negb_true_iff in Hr. cbn [skip_number]. by rewrite Hr.
  - simpl in *. apply andb_true_iff in Ht as [-> Ht]. auto.
Qed.

Lemma digit_range c : CLib.is_digit c || (c =? chr "-") = true -> c = 45 \/ 48 <= c <= 57.
Proof. unfold CLib.is_digit. intros [H|H]%orb_true_iff; zbool; lia. Qed.

Lemma number_head c :
  c = 45 \/ 48 <= c <= 57 ->
  (c =? chr "[") = false /\ (c =? chr "{") = false /\ (c =? chr "]") = false
  /\ (c =? chr "}") = false /\ (c =? cDquote) = false /\ number_start c = true.
Proof.
  intros Hc. repeat split; try (apply Z.eqb_neq; lia).
  unfold number_start, CLib.is_digit, is_any. cbn [existsb].
  destruct Hc as [-> | Hc]; [done|]. rewrite (proj2 (Z.leb_le _ _)), (proj2 (Z.leb_le _ _)) by lia.
  done.
Qed.

Lemma runs_number text ptr o0 o1 r :
  number_ok text = true -> ends_number ptr = true -> next_runs ptr o0 o1 r ->
  runs (text ++ ptr) o0 o1 r.
Proof.
  destruct text as [|c text]; [done|]. cbn [number_ok]. intros [Hc%digit_range Ht]%andb_true_iff He H.
  destruct (number_head c Hc) as (E1 & E2 & E3 & E4 & E5 & E6).
  token H. cbn [app]. rewrite ?cchar_cons, E1, E2, E3, E4, E5, E6. cbn [drop].
  rewrite drop_0, skip_number_all by done. by apply Hf.
Qed.

(** *** A whole value *)

(** The loop passes over the text [t], whatever the open brackets. *)
Definition passes (t : bytes) : Prop :=
  forall rest o0 o1 r, 0 <= o0 -> 0 <= o1 -> ends_number rest = true ->
  next_runs rest o0 o1 r -> runs (t ++ rest) o0 o1 r.

Lemma open_runs ptr o0 o1 r :
  0 <= o0 -> 0 <= o1 -> 0 < o0 + o1 -> next_runs ptr o0 o1 r <-> runs ptr o0 o1 r.
Proof.
  intros. unfold next_runs. destruct ((o0 =? 0) && (o1 =? 0)) eqn:E; [|done].
  apply andb_true_iff in E as [? ?]. zbool. lia.
Qed.

Lemma sep_cons x y l : sep (x :: y :: l) = x ++ chr "," :: sep (y :: l).
Proof. done. Qed.

(** The same inside a bracket or a brace, where nothing is complete yet. *)
Definition passes_inside (t : bytes) : Prop :=
  forall rest o0 o1 r, 0 <= o0 -> 0 <= o1 -> 0 < o0 + o1 -> ends_number rest = true ->
  runs rest o0 o1 r -> runs (t ++ rest) o0 o1 r.

Lemma passes_in t : passes t -> passes_inside t.
Proof. intros Ht rest o0 o1 r H0 H1 Ho He Hr. apply Ht; [done..|]. by apply open_runs. Qed.

Lemma inside_items ts : Forall passes_inside ts -> passes_inside (sep ts).
Proof.
  induction 1 as [|t ts Ht Hts IH]; intros rest o0 o1 r H0 H1 Ho He Hr; [done|].
  destruct ts as [|t' ts]; [by apply Ht|].
  rewrite sep_cons, <- app_assoc. apply Ht; [done..|]. cbn [app].
  apply runs_comma. apply open_runs; [done..|]. by apply IH.
Qed.

Lemma inside_member m : raw_ok m.1 false = true -> passes (print m.2) -> passes_inside (print_member m).
Proof.
  intros Hk Hv rest o0 o1 r H0 H1 Ho He Hr. unfold print_member. rewrite <- app_assoc.
  apply runs_string; [done|]. apply open_runs; [done..|]. cbn [app].
  apply runs_colon. apply open_runs; [done..|]. by apply passes_in.
Qed.

Lemma forallb_items {A} (f : A -> bool) l : forallb f l = true -> Forall (fun x => f x = true) l.
Proof. rewrite forallb_forall, Forall_forall. intros H x Hx. by apply H, list_elem_of_In. Qed.

Lemma value_passes v : wf v = true -> passes (print v).
Proof.
  induction v as [raw|text|items IH|members IH] using value_induction;
    intros Hv rest o0 o1 r H0 H1 He Hr; cbn [wf print] in *.
  - by apply runs_string.
  - by apply runs_number.
  - cbn [app]. rewrite <- app_assoc. apply runs_open_array. apply open_runs; [lia..|].
    apply inside_items; [|lia..|done|].
    + apply forallb_items in Hv. clear Hr. induction IH as [|v items Hv' IH IHl]; [constructor|].
      apply Forall_cons in Hv as [Hv Hvs]. constructor; [by apply passes_in, Hv'|auto].
    + cbn [app]. apply runs_close_array. by replace (o1 + 1 - 1) with o1 by lia.
  - cbn [app]. rewrite <- app_assoc. apply runs_open_object. apply open_runs; [lia..|].
    apply inside_items; [|lia..|done|].
    + apply forallb_items in Hv. clear Hr. induction IH as [|m members Hm IH IHl]; [constructor|].
      apply Forall_cons in Hv as [ [Hk Hv]%andb_true_iff Hvs]. constructor; [|auto].
      apply inside_member; [done|]. by apply Hm.
    + cbn [app]. apply runs_close_object. by replace (o0 + 1 - 1) with o0 by lia.
Qed.

(** The first character of a value tells it from white space and separators. *)
Definition starts_value (c : Z) : Prop :=
  c = cDquote \/ c = chr "-" \/ c = chr "[" \/ c = chr "{" \/ 48 <= c <= 57.

Lemma value_head v rest : wf v = true -> starts_value (cchar (print v ++ rest)).
Proof.
  unfold starts_value. destruct v as [raw|[|c text]|items|members]; cbn [wf print number_ok]; try done.
  - intros _. by left.
  - intros [Hc%digit_range _]%andb_true_iff. cbn [app]. rewrite cchar_cons. lia.
  - intros _. do 2 right. by left.
  - intros _. do 3 right. by left.
Qed.

Lemma schar_ascii c : 0 <= c < 128 -> schar c = c.
Proof. intros. unfold schar. apply wraps_id; [simpl; lia|lia]. Qed.

Lemma skip_blank_stop l c : cchar l = c -> 33 <= c < 128 -> skip_blank l = l.
Proof.
  destruct l as [|x l]; [done|]. rewrite cchar_cons. intros -> Hc. cbn [skip_blank].
  rewrite schar_ascii by lia. by rewrite (proj2 (Z.leb_gt c 32)), andb_false_r by lia.
Qed.

Lemma skip_blank_app blanks l :
  Forall (fun c => 0 < c <= 32) blanks -> skip_blank (blanks ++ l) = skip_blank l.
Proof.
  induction 1 as [|c blanks Hc Hb IH]; [done|]. cbn [app skip_blank].
  rewrite schar_ascii, (proj2 (Z.ltb_lt _ _)), (proj2 (Z.leb_le _ _)) by lia. done.
Qed.

Lemma starts_value_facts c :
  starts_value c -> 33 <= c < 128 /\ c <> chr "]" /\ c <> chr "}" /\ c <> chr "," /\ c <> chr ":".
Proof. unfold starts_value. intros. lia. Qed.

(** [storeobject] at the start of a text that begins like a value. *)
Lemma storeobject_at pos s :
  starts_value (cchar pos) ->
  storeobject pos s =
    match object_loop (S (length pos)) pos 0 0 false with
    | Some (Some ptr) => (true, ptr, stored pos ptr)
    | _ => (false, pos, s)
    end.
Proof.
  intros (Hc & H1 & H2 & H3 & H4)%starts_value_facts. unfold storeobject.
  rewrite (skip_blank_stop pos _ eq_refl Hc).
  rewrite (proj2 (Z.eqb_neq _ _) H1), (proj2 (Z.eqb_neq _ _) H2). cbn [orb].
  unfold skip_one, is_any. cbn [existsb]. by rewrite (proj2 (Z.eqb_neq _ _) H3).
Qed.

Lemma stored_value v rest : wf v = true -> stored (print v ++ rest) rest = content v.
Proof.
  intros Hv. unfold stored. rewrite length_app, Nat.add_sub. destruct v as [raw|[|c text]|l|l]; try done.
  - cbn [print content]. unfold quoted. cbn [app]. rewrite cchar_cons.
    rewrite (Z.eqb_refl cDquote). unfold substr. cbn [drop]. rewrite drop_0, <- app_assoc.
    apply take_app_exact. simpl. rewrite length_app. simpl. lia.
  - cbn [wf number_ok] in Hv. apply andb_true_iff in Hv as [Hc%digit_range _].
    cbn [print app]. rewrite cchar_cons. rewrite (proj2 (Z.eqb_neq c cDquote)) by lia.
    apply (take_app_length (c :: text)).
  - change (content (VArray l)) with (print (VArray l)).
    replace (cchar (print (VArray l) ++ rest)) with (chr "[") by done.
    apply take_app_length.
  - change (content (VObject l)) with (print (VObject l)).
    replace (cchar (print (VObject l) ++ rest)) with (chr "{") by done.
    apply take_app_length.
Qed.

Lemma storeobject_value v rest s :
  wf v = true -> ends_number rest = true ->
  storeobject (print v ++ rest) s = (true, rest, content v).
Proof.
  intros Hv He. rewrite storeobject_at by by apply value_head.
  rewrite (runs_answer _ _ _ (Some rest)); [by rewrite stored_value|].
  by apply value_passes.
Qed.

(** A separator or white space in front changes nothing. *)
Lemma storeobject_lead blanks lead v rest s :
  Forall (fun c => 0 < c <= 32) blanks -> lead = [] \/ lead = [chr ","] -> wf v = true ->
  storeobject (blanks ++ lead ++ print v ++ rest) s = storeobject (print v ++ rest) s.
Proof.
  intros Hb Hl Hv. pose proof (value_head v rest Hv) as Hs.
  rewrite (storeobject_at (print v ++ rest)) by done.
  apply starts_value_facts in Hs as (Hc & H1 & H2 & H3 & H4).
  unfold storeobject. rewrite skip_blank_app by done.
  destruct Hl as [-> | ->]; cbn [app].
  - rewrite (skip_blank_stop _ _ eq_refl Hc).
    rewrite (proj2 (Z.eqb_neq _ _) H1), (proj2 (Z.eqb_neq _ _) H2). cbn [orb].
    unfold skip_one, is_any. cbn [existsb]. by rewrite (proj2 (Z.eqb_neq _ _) H3).
  - rewrite (skip_blank_stop _ (chr ",") (cchar_cons _ _)) by lia. rewrite cchar_cons.
    unfold skip_one, is_any. rewrite cchar_cons. cbn [existsb Z.eqb Pos.eqb orb drop].
    by rewrite drop_0.
Qed.

(** ** Leaving an object *)

(** What is left of an object: members behind their commas, up to the brace. *)
Definition remaining (members : list (bytes * value)) : bytes :=
  mjoin ((fun m => chr "," :: print_member m) <$> members).

Lemma leave_class c :
  starts_value c ->
  is_any c [chr ":"; chr ","; 32] = false
  /\ is_any c [cDquote; chr "-"; chr "["; chr "{"] || CLib.is_digit c = true.
Proof.
  unfold is_any, CLib.is_digit. cbn [existsb]. intros Hs. split.
  - unfold starts_value in Hs. by rewrite !(proj2 (Z.eqb_neq c _)) by lia.
  - destruct Hs as [-> |[-> |[-> |[-> |[H1 H2] ] ] ] ]; try done.
    rewrite (proj2 (Z.leb_le _ _) H1), (proj2 (Z.leb_le _ _) H2). apply orb_true_r.
Qed.

Lemma leave_value fuel v rest :
  wf v = true -> ends_number rest = true ->
  leave_loop (S fuel) (print v ++ rest) = leave_loop fuel rest.
Proof.
  intros Hv He. pose proof (value_head v rest Hv) as Hs. cbn [leave_loop].
  unfold skip_object. rewrite storeobject_value by done. cbn [fst snd].
  by destruct (leave_class _ Hs) as [-> ->].
Qed.

Lemma leave_skip fuel c rest :
  c = chr ":" \/ c = chr "," -> leave_loop (S fuel) (c :: rest) = leave_loop fuel rest.
Proof. intros [-> | ->]; cbn [leave_loop]; rewrite cchar_cons; cbn [drop]; by rewrite drop_0. Qed.

Lemma leave_members fuel members rest :
  Forall (fun m => raw_ok m.1 false = true /\ wf m.2 = true) members ->
  leave_loop (S fuel + 4 * length members) (remaining members ++ chr "}" :: rest)
  = Some (chr "}" :: rest).
Proof.
  induction 1 as [|[k v] members [Hk Hv] Hms IH]; [done|].
  unfold remaining in *. rewrite fmap_cons, mjoin_cons. unfold print_member at 1. cbn [fst snd] in *.
  rewrite <- app_assoc. cbn [app]. rewrite <- app_assoc. cbn [app].
  replace (S fuel + 4 * length ((k, v) :: members))%nat
    with (S (S (S (S (S fuel + 4 * length members))))) by (simpl; lia).
  rewrite leave_skip by by right.
  rewrite (leave_value _ (VString k)) by done.
  rewrite leave_skip by by left.
  rewrite leave_value; [exact IH|done|].
  by destruct members.
Qed.

(** Once a value cannot be skipped the loop stays where it is. *)
Lemma leave_stuck fuel pos :
  starts_value (cchar pos) -> (storeobject pos []).1.1 = false -> leave_loop fuel pos = None.
Proof.
  intros Hs Hf. induction fuel as [|fuel IH]; [done|]. cbn [leave_loop].
  assert (skip_object pos = pos) as E.
  { unfold skip_object. rewrite storeobject_at in * by done.
    by destruct (object_loop _ _ _ _ _) as [ [p|]|]. }
  rewrite E, IH. by destruct (leave_class _ Hs) as [-> ->].
Qed.

End JsonFacts.

(** ** Escaping *)
Module EscapeFacts.
Import JSON.

Lemma unescape_plain c s : c <> cBackslash -> unescape (c :: s) = c :: unescape s.
Proof.
  intros Hc. destruct s as [|d s]; [done|]. cbn [unescape].
  by rewrite (proj2 (Z.eqb_neq _ _) Hc).
Qed.

Lemma unescape_plains l s :
  Forall (fun c => c <> cBackslash) l -> unescape (l ++ s) = l ++ unescape s.
Proof. induction 1 as [|c l Hc Hl IH]; [done|]. cbn [app]. by rewrite unescape_plain, IH. Qed.

(** A two-character escape, other than [\u]. *)
Lemma unescape_short d s :
  d <> chr "u" -> unescape (cBackslash :: d :: s) = unescape_char d :: unescape s.
Proof. intros Hd. cbn [unescape]. by rewrite (proj2 (Z.eqb_neq _ _) Hd). Qed.

Definition control_check (c : Z) : bool :=
  ishex (hexdigit (Z.shiftr c 4)) && ishex (hexdigit (Z.land c 15))
  && bool_decide (utf8encode (Z.lor (Z.lor (Z.lor (Z.shiftl (hexval (chr "0")) 12)
        (Z.shiftl (hexval (chr "0")) 8)) (Z.shiftl (hexval (hexdigit (Z.shiftr c 4))) 4))
        (hexval (hexdigit (Z.land c 15)))) = [c]).

Lemma unescape_control c s :
  0 <= c < 0x20 ->
  unescape ([cBackslash; chr "u"; chr "0"; chr "0"; hexdigit (Z.shiftr c 4); hexdigit (Z.land c 15)] ++ s)
  = c :: unescape s.
Proof.
  intros Hc.
  assert (control_check c = true) as C.
  { apply (all_below_spec 32 control_check); [vm_compute; reflexivity|lia]. }
  unfold control_check in C. apply andb_true_iff in C as [C C3]. apply andb_true_iff in C as [C1 C2].
  apply bool_decide_eq_true_1 in C3. cbn [app unescape].
  rewrite (Z.eqb_refl cBackslash), (Z.eqb_refl (chr "u")). cbn [negb].
  replace (ishex (chr "0")) with true by done. rewrite C1, C2. cbn [andb]. cbv zeta.
  by rewrite C3.
Qed.

(** One escaped ASCII character. *)
Lemma unescape_escape_char c s : 0 <= c < 0x80 -> unescape (escape_char c c ++ s) = c :: unescape s.
Proof.
  intros Hc. unfold escape_char.
  repeat match goal with
  | |- context [if c =? ?x then _ else _] =>
      destruct (c =? x) eqn:?; zbool; [subst c; cbn [app]; rewrite unescape_short by lia; reflexivity|]
  end.
  destruct (c <? 0x20) eqn:?; zbool; [by apply unescape_control; lia|]. by apply unescape_plain.
Qed.

Section escape.
Context `{UTF8PROC_laws}.

Lemma escape_loop_inverse fuel s :
  bytes_ok s -> (length s <= fuel)%nat -> unescape (escape_loop fuel s) = s.
Proof.
  revert s. induction fuel as [|fuel IH]; intros [|c s] Hs Hf; try done; [simpl in Hf; lia|].
  cbn [escape_loop]. apply Forall_cons in Hs as [Hc Hs]. simpl in Hf.
  destruct (utf8proc_iterate (c :: s)) as [read cp] eqn:E.
  destruct (read <=? 0) eqn:Hr; zbool.
  - rewrite unescape_plain; [by rewrite IH by (done || lia)|].
    intros ->. rewrite iterate_ascii in E by lia. simplify_eq. lia.
  - destruct (1 <? read) eqn:H1; zbool.
    + pose proof (iterate_range _ _ _ E) as Hrange. pose proof (iterate_long _ _ _ E H1) as Hl.
      rewrite unescape_plains.
      * rewrite IH, take_drop; [done|by apply Forall_drop; constructor|].
        rewrite length_drop. simpl. simpl in Hrange. lia.
      * eapply Forall_impl; [exact Hl|]. simpl. lia.
    + assert (read = 1) as -> by lia. assert (c < 0x80) as Hlow by by eapply iterate_one.
      unfold byte_ok in Hc. rewrite iterate_ascii in E by lia. simplify_eq.
      rewrite unescape_escape_char, IH by (done || lia). done.
Qed.

End escape.
End EscapeFacts.

(** ** Properties *)

(** [storeobject] on the compact text of any JSON value, after white space
    or one comma, stores the value (a string without its quotes) and stops
    right behind it; and on every text the loop ends within its fuel, so the
    scanner always answers. *)
Theorem json_storeobject blanks lead v rest s :
  Forall (fun c => 0 < c <= 32) blanks -> lead = [] \/ lead = [chr ","] ->
  JsonValue.wf v = true -> JsonValue.ends_number rest = true ->
  JSON.storeobject (blanks ++ lead ++ JsonValue.print v ++ rest) s
  = (true, rest, JsonValue.content v)
  /\ forall pos, JSON.object_loop (S (length pos)) pos 0 0 false <> None.
Proof.
  intros Hb Hl Hv He. split; [|intros pos; apply JsonFacts.object_loop_total; lia].
  rewrite JsonFacts.storeobject_lead by done. by apply JsonFacts.storeobject_value.
Qed.

(** [leaveobject] skips the remaining members of an object and its closing
    brace; but when the next value cannot be skipped (an unterminated string or
    bracket) its loop makes no progress and never ends. *)
Theorem json_leaveobject members rest :
  Forall (fun m => JsonValue.raw_ok m.1 false = true /\ JsonValue.wf m.2 = true) members ->
  (exists fuel, JSON.leaveobject fuel (JsonFacts.remaining members ++ chr "}" :: rest)
     = Some (true, rest))
  /\ (forall pos, JsonFacts.starts_value (cchar pos) -> (JSON.storeobject pos []).1.1 = false ->
      forall fuel, JSON.leaveobject fuel pos = None).
Proof.
  intros Hms. split.
  - exists (S 0 + 4 * length members)%nat. unfold JSON.leaveobject.
    rewrite JsonFacts.leave_members by done. rewrite cchar_cons. cbn [drop]. by rewrite drop_0.
  - intros pos Hs Hf fuel. unfold JSON.leaveobject. by rewrite JsonFacts.leave_stuck.
Qed.

(** [JSON::unescape] inverts [JSON::escape] on every byte string, valid
    UTF-8 or not. *)
Theorem json_escape_roundtrip `{JSON.UTF8PROC_laws} s :
  bytes_ok s -> JSON.unescape (JSON.escape s) = s.
Proof. intros Hs. by apply EscapeFacts.escape_loop_inverse. Qed.

(** ** Witnesses *)
Module JsonExamples.
Import JsonValue.

(** An object with an array (of two numbers and a string with an escaped quote)
    and an empty object. *)
Definition sample : value :=
  VObject [(str "a", VArray [VNumber (str "1"); VNumber (str "-2.5");
                              VString [chr "x"; cBackslash; cDquote; chr "y"]]);
           (str "b", VObject [])].

(** A decoder that knows ASCII and two-byte sequences. *)
#[local] Instance toy_utf8 : JSON.UTF8PROC := {|
  JSON.utf8proc_iterate l :=
    match l with
    | [] => (0, 0)
    | c :: l =>
        if (0 <=? c) && (c <? 0x80) then (1, c)
        else
          match l with
          | d :: _ =>
              if (0xC2 <=? c) && (c <? 0xE0) && (0x80 <=? d) && (d <? 0xC0)
              then (2, (c - 0xC0) * 64 + (d - 0x80)) else (-1, 0)
          | [] => (-1, 0)
          end
    end |}.

#[local] Instance toy_utf8_laws : JSON.UTF8PROC_laws.
Proof.
  split; unfold JSON.utf8proc_iterate; cbn.
  - intros [|c [|d l] ] read cp; simpl; repeat case_if; intros; simplify_eq; simpl; lia.
  - intros c l Hc. by rewrite (proj2 (Z.leb_le _ _)), (proj2 (Z.ltb_lt _ _)) by lia.
  - intros c [|d l] cp Hc; repeat case_if; intros; simplify_eq; zbool; lia.
  - intros [|c [|d l] ] read cp; simpl; repeat case_if; intros; simplify_eq; zbool; simpl; try lia.
    repeat constructor; lia.
Qed.

End JsonExamples.

Lemma json_storeobject_witness :
  JSON.storeobject ([32; 10] ++ [chr ","] ++ JsonValue.print JsonExamples.sample ++ str ",0") []
  = (true, str ",0", JsonValue.print JsonExamples.sample).
Proof.
  apply (json_storeobject [32; 10] [chr ","] JsonExamples.sample (str ",0") []);
    [repeat constructor; lia|by right|reflexivity|reflexivity].
Defined.

Lemma json_leaveobject_witness :
  (exists fuel, JSON.leaveobject fuel (str "}]") = Some (true, str "]"))
  /\ forall fuel, JSON.leaveobject fuel [cDquote; chr "a"] = None.
Proof.
  destruct (json_leaveobject [] (str "]")) as [H1 H2]; [constructor|].
  split; [exact H1|]. apply H2; [by left|reflexivity].
Defined.

Lemma json_escape_roundtrip_witness :
  JSON.unescape (@JSON.escape JsonExamples.toy_utf8 [195; 169; 34; 7; 10; 255; 92; 110])
  = [195; 169; 34; 7; 10; 255; 92; 110].
Proof.
  apply (@json_escape_roundtrip JsonExamples.toy_utf8 JsonExamples.toy_utf8_laws).
  repeat constructor; lia.
Defined.
