(* ===== verification/Writer.v ===== *)
(** * The JSON writer

    [JSONWriter] of src/src/json.cpp writes the text of the commands that the
    client sends: members and array elements are appended one after the other,
    and a comma goes in front of what needs one.  Two rules decide about the
    comma: members, arrays and objects look at the last character
    ([addcomma]), elements look at a flag of the innermost array ([elements]).

    Proved: written in the way the commands use it, the writer produces the
    compact text of the value that the calls describe, for every nesting of at
    most eight arrays, so that the scanner of Json.v reads it back; and a lemma
    shows what happens where the two rules meet in one array. *)

From S2P Require Import Prelude OMap Encoding Serialize Crypto Json.
Local Open Scope Z_scope.

Module JSONWriter.

Definition MAXDEPTH : nat := 8.

Record JSONWriter := MkJSONWriter {
  mJson : bytes;
  mLevels : list Z;
  mLevel : Z
}.

(** The constructor. *)
Definition new_JSONWriter : JSONWriter := MkJSONWriter [] (replicate MAXDEPTH 0) (-1).

Definition append (s : bytes) (w : JSONWriter) : JSONWriter := MkJSONWriter (mJson w ++ s) (mLevels w) (mLevel w).

Definition size (w : JSONWriter) : Z := zlength (mJson w).
Definition getstring (w : JSONWriter) : bytes := mJson w.
Definition clear (w : JSONWriter) : JSONWriter := MkJSONWriter [] (mLevels w) (mLevel w).

(** Access to [mLevels]; [None]: outside of the array. *)
Definition set_level (x : Z) (w : JSONWriter) : option JSONWriter :=
  if (0 <=? mLevel w) && (mLevel w <? Z.of_nat MAXDEPTH)
  then Some (MkJSONWriter (mJson w) (<[Z.to_nat (mLevel w) := x]> (mLevels w)) (mLevel w)) else None.
Definition get_level (w : JSONWriter) : option Z :=
  if (0 <=? mLevel w) && (mLevel w <? Z.of_nat MAXDEPTH) then mLevels w !! Z.to_nat (mLevel w) else None.

(** [strchr] also finds the terminator. *)
Definition no_comma_after (c : Z) : bool := JSON.is_any c [chr "["; chr "{"; 0].

Definition addcomma (w : JSONWriter) : JSONWriter :=
  match last (mJson w) with
  | Some c => if no_comma_after c then w else append [chr ","] w
  | None => w
  end.

Definition cmd (c : bytes) (w : JSONWriter) : JSONWriter :=
  append [cDquote] (append c (append ([cDquote] ++ str "a" ++ [cDquote; chr ":"; cDquote]) w)).

Definition notself (sessionid : bytes) (w : JSONWriter) : JSONWriter :=
  append [cDquote] (append sessionid (append ([chr ","; cDquote] ++ str "i" ++ [cDquote; chr ":"; cDquote]) w)).

(** *** Members *)

(** [arg] of C strings, and of a string, of which what follows a zero is lost. *)
Definition arg (name value : bytes) (quotes : bool) (w : JSONWriter) : JSONWriter :=
  let w := addcomma w in
  let w := append [cDquote] w in
  let w := append name w in
  let w := append (if quotes then [cDquote; chr ":"; cDquote] else [cDquote; chr ":"]) w in
  let w := append value w in
  if quotes then append [cDquote] w else w.

Definition arg_string (name value : bytes) (quotes : bool) (w : JSONWriter) : JSONWriter :=
  arg name (PaddedCBC.cstring value) quotes w.

Definition arg_bytes (name value : bytes) (w : JSONWriter) : JSONWriter := arg name (Base64.btoa value) true w.

Definition arg_handle (name : bytes) (h : Z) (len : nat) (w : JSONWriter) : JSONWriter :=
  arg name (Base64.btoa (take len (le_bytes 8 h))) true w.

Definition arg_nodehandle (name : bytes) (h : Z) (w : JSONWriter) : JSONWriter := arg_handle name h 6 w.

Definition arg_B64 (name data : bytes) (w : JSONWriter) : JSONWriter := arg_bytes name data w.
Definition arg_fsfp (name : bytes) (fp : Z) (w : JSONWriter) : JSONWriter := arg_bytes name (le_bytes 8 fp) w.

Definition arg_number (name : bytes) (n : Z) (w : JSONWriter) : JSONWriter := arg name (CLib.print_s64 n) false w.

Definition arg_stringWithEscapes `{JSON.UTF8PROC} (name value : bytes) (quote : bool) (w : JSONWriter) : JSONWriter :=
  arg_string name (JSON.escape value) quote w.

Definition appendraw (s : bytes) (w : JSONWriter) : JSONWriter := append s w.

(** *** Arrays and objects *)

Definition openobject (w : JSONWriter) : option JSONWriter :=
  set_level 0 (MkJSONWriter (mJson w) (mLevels w) (mLevel w + 1)).
Definition closeobject (w : JSONWriter) : JSONWriter := MkJSONWriter (mJson w) (mLevels w) (mLevel w - 1).

(** [None]: without a name. *)
Definition name_prefix (name : option bytes) : bytes :=
  match name with Some n => cDquote :: n ++ [cDquote; chr ":"] | None => [] end.

Definition beginarray (name : option bytes) (w : JSONWriter) : option JSONWriter :=
  openobject (append (name_prefix name ++ [chr "["]) (addcomma w)).
Definition endarray (w : JSONWriter) : JSONWriter := closeobject (append [chr "]"] w).

Definition beginobject (name : option bytes) (w : JSONWriter) : JSONWriter :=
  append (name_prefix name ++ [chr "{"]) (addcomma w).
Definition endobject (w : JSONWriter) : JSONWriter := append [chr "}"] w.

(** Whether the array has elements already; then it has. *)
Definition elements (w : JSONWriter) : option (bool * JSONWriter) :=
  l ← get_level w;
  if l =? 0 then w ← set_level 1 w; Some (false, w) else Some (true, w).

(** The parameter is an [int]: what is passed is converted to 32 bits. *)
Definition element_int (n : Z) (w : JSONWriter) : option JSONWriter :=
  let n := s32 n in
  '(more, w) ← elements w;
  let w := if (more : bool) then append [chr ","] w else w in
  Some (append (CLib.print_s64 n) w).

(** The elements in quotes. *)
Definition element_text (data : bytes) (w : JSONWriter) : option JSONWriter :=
  '(more, w) ← elements w;
  let w := append (if (more : bool) then [chr ","; cDquote] else [cDquote]) w in
  Some (append [cDquote] (append data w)).

Definition element_handle (h : Z) (len : nat) (w : JSONWriter) : option JSONWriter :=
  element_text (Base64.btoa (take len (le_bytes 8 h))) w.
Definition element_bytes (data : bytes) (w : JSONWriter) : option JSONWriter := element_text (Base64.btoa data) w.
Definition element_string (data : bytes) (w : JSONWriter) : option JSONWriter :=
  element_text (PaddedCBC.cstring data) w.
Definition element_B64 (s : bytes) (w : JSONWriter) : option JSONWriter := element_bytes s w.

End JSONWriter.

(** ** What the calls write

    A tree of calls: a member or an element, or an array or object with the calls
    between its begin and its end.  Members have names, elements have none. *)

Module WriterSpec.
Import JSONWriter JsonValue.

Inductive field :=
  | FText (raw : bytes) (quotes : bool)
  | FEscaped (text : bytes)
  | FBytes (data : bytes)
  | FHandle (h : Z) (len : nat)
  | FNumber (n : Z).

Inductive call :=
  | Leaf (name : option bytes) (f : field)
  | Array (name : option bytes) (items : list call)
  | Object (name : option bytes) (items : list call).

Section spec.
Context `{JSON.UTF8PROC}.

Definition write_field (name : option bytes) (f : field) (w : JSONWriter) : option JSONWriter :=
  match name, f with
  | Some n, FText raw quotes => Some (arg_string n raw quotes w)
  | Some n, FEscaped text => Some (arg_stringWithEscapes n text true w)
  | Some n, FBytes data => Some (arg_bytes n data w)
  | Some n, FHandle h len => Some (arg_handle n h len w)
  | Some n, FNumber n' => Some (arg_number n n' w)
  | None, FText raw _ => element_string raw w
  | None, FEscaped text => None
  | None, FBytes data => element_bytes data w
  | None, FHandle h len => element_handle h len w
  | None, FNumber n => element_int n w
  end.

Fixpoint write (t : call) (w : JSONWriter) : option JSONWriter :=
  let fix all items w :=
    match items with
    | [] => Some w
    | t :: items => w ← write t w; all items w
    end in
  match t with
  | Leaf name f => write_field name f w
  | Array name items => w ← beginarray name w; w ← all items w; Some (endarray w)
  | Object name items => w ← all items (beginobject name w); Some (endobject w)
  end.

Fixpoint write_all (items : list call) (w : JSONWriter) : option JSONWriter :=
  match items with
  | [] => Some w
  | t :: items => w ← write t w; write_all items w
  end.

(** *** The value they describe *)

Definition field_value (f : field) : value :=
  match f with
  | FText raw quotes => if quotes then VString raw else VNumber raw
  | FEscaped text => VString (JSON.escape text)
  | FBytes data => VString (Base64.btoa data)
  | FHandle h len => VString (Base64.btoa (take len (le_bytes 8 h)))
  | FNumber n => VNumber (CLib.print_s64 n)
  end.

Definition call_name (t : call) : option bytes :=
  match t with Leaf name _ | Array name _ | Object name _ => name end.

Fixpoint value_of (t : call) : value :=
  match t with
  | Leaf _ f => field_value f
  | Array _ items => VArray (map value_of items)
  | Object _ items => VObject (map (fun t => (default [] (call_name t), value_of t)) items)
  end.

Definition member_of (t : call) : bytes * value := (default [] (call_name t), value_of t).

(** The text of a call. *)
Definition text (t : call) : bytes := name_prefix (call_name t) ++ print (value_of t).

(** Raw text is the body of a string, or a number; what is escaped is any text;
    the number of a member has 64 bits and that of an element 32. *)
Definition field_ok (named : bool) (f : field) : bool :=
  match f with
  | FText raw quotes => if quotes then raw_ok raw false else named && number_ok raw
  | FEscaped text => named && bool_decide (bytes_ok text)
  | FBytes _ | FHandle _ _ => true
  | FNumber n =>
      if named then (- 2 ^ 63 <=? n) && (n <? 2 ^ 63) else (- 2 ^ 31 <=? n) && (n <? 2 ^ 31)
  end.

Definition name_ok (named : bool) (name : option bytes) : bool :=
  match name with Some n => named && raw_ok n false | None => negb named end.

Definition is_leaf (t : call) : bool := match t with Leaf _ _ => true | _ => false end.

(** Calls with names are in objects, calls without in arrays; an array has only
    elements or only arrays and objects. *)
Fixpoint ok (named : bool) (t : call) : bool :=
  name_ok named (call_name t) &&
  match t with
  | Leaf _ f => field_ok named f
  | Array _ items =>
      forallb (ok false) items && (forallb is_leaf items || forallb (fun t => negb (is_leaf t)) items)
  | Object _ items => forallb (ok true) items
  end.

Fixpoint depth (t : call) : nat :=
  match t with
  | Leaf _ _ => 0
  | Array _ items => S (fold_right (fun t n => Nat.max (depth t) n) 0%nat items)
  | Object _ items => fold_right (fun t n => Nat.max (depth t) n) 0%nat items
  end.

End spec.

(** Induction with the hypothesis for every item. *)
Section call_ind.
Context (P : call -> Prop)
  (Hleaf : forall name f, P (Leaf name f))
  (Harray : forall name items, Forall P items -> P (Array name items))
  (Hobject : forall name items, Forall P items -> P (Object name items)).

Fixpoint call_induction (t : call) : P t :=
  let fix all items : Forall P items :=
    match items with
    | [] => Forall_nil_2 _
    | t :: items => Forall_cons_2 _ _ _ (call_induction t) (all items)
    end in
  match t with
  | Leaf name f => Hleaf name f
  | Array name items => Harray name items (all items)
  | Object name items => Hobject name items (all items)
  end.
End call_ind.

End WriterSpec.

Module WriterFacts.
Import JSONWriter JsonValue WriterSpec.

(** *** Text that is well formed *)

Definition plain (c : Z) : Prop := c <> 0 /\ c <> cDquote /\ c <> cBackslash.

Lemma raw_app a b : raw_ok a false = true -> raw_ok (a ++ b) false = raw_ok b false.
Proof.
  generalize false at 1 2. induction a as [|c a IH]; intros e; cbn [raw_ok app]; [by destruct e|].
  intros [-> Ha]%andb_true_iff. cbn [andb]. by apply IH.
Qed.

Lemma raw_plain l : Forall plain l -> raw_ok l false = true.
Proof.
  induction 1 as [|c l (H0 & H1 & H2) Hl IH]; [done|]. cbn [raw_ok].
  by rewrite (proj2 (Z.eqb_neq _ _) H0), (proj2 (Z.eqb_neq _ _) H1), (proj2 (Z.eqb_neq _ _) H2).
Qed.

Lemma cstring_raw l e : raw_ok l e = true -> PaddedCBC.cstring l = l.
Proof.
  revert e. induction l as [|c l IH]; intros e; [done|]. cbn [raw_ok PaddedCBC.cstring].
  intros [[Hc _]%andb_true_iff Hl]%andb_true_iff. apply negb_true_iff in Hc. rewrite Hc. f_equal. by eapply IH.
Qed.

Lemma number_char_facts c : JSON.number_char c = true -> 46 <= c <= 101 /\ c <> chr "[".
Proof. unfold JSON.number_char, CLib.is_digit, JSON.is_any. cbn [existsb]. intros. zbool. lia. Qed.

Lemma number_nonzero l : number_ok l = true -> Forall (fun c => 45 <= c <= 101 /\ c <> chr "[") l.
Proof.
  destruct l as [|c l]; [done|]. cbn [number_ok]. intros [Hc Hl]%andb_true_iff.
  apply JsonFacts.digit_range in Hc. constructor; [lia|].
  apply JsonFacts.forallb_items in Hl. eapply Forall_impl; [exact Hl|]. cbn. intros x Hx%number_char_facts. lia.
Qed.

Lemma cstring_nonzero l : Forall (fun c => 45 <= c <= 101 /\ c <> chr "[") l -> PaddedCBC.cstring l = l.
Proof.
  induction 1 as [|c l Hc Hl IH]; [done|]. cbn [PaddedCBC.cstring].
  rewrite (proj2 (Z.eqb_neq c 0)) by lia. by f_equal.
Qed.

Lemma btoa_plain b : Forall plain (Base64.btoa b).
Proof.
  assert (forall c, plain (Base64.to64 c)) as Ht.
  { intros c. unfold plain, Base64.to64. pose proof (Z.land_ones c 6 ltac:(lia)) as E.
    change (Z.ones 6) with 63 in E. rewrite E. pose proof (Z.mod_pos_bound c (2 ^ 6) ltac:(lia)).
    change (2 ^ 6) with 64 in *. repeat case_if; zbool; lia. }
  revert b. fix IH 1. intros [|b0 [|b1 [|b2 b] ] ]; cbn [Base64.btoa];
    repeat (apply Forall_cons; split); try apply Ht; try apply Forall_nil_2. apply IH.
Qed.

Lemma decimal_chars fuel : forall n, 0 <= n -> forallb CLib.is_digit (CLib.decimal fuel n) = true.
Proof.
  induction fuel as [|fuel IH]; intros n Hn; cbn [CLib.decimal]; [done|]. rewrite forallb_app. apply andb_true_iff. split.
  - destruct (n <? 10); [done|]. apply IH. apply Z.div_pos; lia.
  - cbn [forallb]. unfold CLib.is_digit. pose proof (Z.mod_pos_bound n 10). zbool; lia.
Qed.

Lemma digits_number l : l <> [] -> forallb CLib.is_digit l = true -> number_ok l = true /\ forallb JSON.number_char l = true.
Proof.
  intros Hne Hl. assert (forallb JSON.number_char l = true) as Hn.
  { revert Hl. clear Hne. induction l as [|c l IH]; [done|]. cbn [forallb]. intros [Hc Hl]%andb_true_iff.
    rewrite IH by done. unfold JSON.number_char. by rewrite Hc. }
  split; [|done]. destruct l as [|c l]; [done|]. cbn [forallb number_ok] in *.
  apply andb_true_iff in Hl as [-> _], Hn as [_ ->]. done.
Qed.

Lemma decimal_not_empty fuel n : CLib.decimal (S fuel) n <> [].
Proof. cbn [CLib.decimal]. by intros [_ E]%app_eq_nil. Qed.

Lemma number_printed n : - 2 ^ 63 <= n < 2 ^ 63 -> number_ok (CLib.print_s64 n) = true.
Proof.
  intros Hn. unfold CLib.print_s64, CLib.print_u64. destruct (Z.ltb_spec n 0).
  - destruct (digits_number (CLib.decimal 20 (- n))) as [_ E]; [apply decimal_not_empty|apply decimal_chars; lia|].
    cbn [number_ok]. by rewrite E.
  - by apply digits_number; [apply decimal_not_empty|apply decimal_chars].
Qed.

Section escape.
Context `{JSON.UTF8PROC_laws}.

Lemma escape_char_raw c : 0 <= c < 0x80 -> raw_ok (JSON.escape_char c c) false = true.
Proof.
  intros Hc. assert (Z.eqb (if raw_ok (JSON.escape_char c c) false then 1 else 0) 1 = true) as E.
  { apply Z.eqb_eq. exhaust 128%nat c. }
  by destruct (raw_ok _ _).
Qed.

(** What is escaped can be put between quotes. *)
Lemma escape_raw fuel s : bytes_ok s -> raw_ok (JSON.escape_loop fuel s) false = true.
Proof.
  revert s. induction fuel as [|fuel IH]; intros [|c s] Hs; try done.
  cbn [JSON.escape_loop]. pose proof Hs as [Hc Hs']%Forall_cons.
  destruct (JSON.utf8proc_iterate (c :: s)) as [read cp] eqn:E. destruct (Z.leb_spec read 0).
  - change (c :: JSON.escape_loop fuel s) with ([c] ++ JSON.escape_loop fuel s). rewrite raw_app; [by apply IH|].
    apply raw_plain, Forall_singleton. unfold plain. unfold byte_ok in Hc.
    destruct (Z.ltb_spec c 0x80); [|lia]. rewrite JSON.iterate_ascii in E by lia. injection E as <- _. lia.
  - destruct (Z.ltb_spec 1 read).
    + rewrite raw_app; [by apply IH, Forall_drop|]. apply raw_plain.
      eapply Forall_impl; [by eapply JSON.iterate_long|]. cbn. unfold plain. lia.
    + assert (read = 1) as -> by lia. pose proof (JSON.iterate_one _ _ _ Hc E) as Hlow. unfold byte_ok in Hc.
      rewrite JSON.iterate_ascii in E by lia. injection E as <-.
      rewrite raw_app by (apply escape_char_raw; lia). by apply IH.
Qed.

Lemma field_wf named f : field_ok named f = true -> wf (field_value f) = true.
Proof.
  destruct f as [raw [|]|t|data|h len|n]; cbn [field_ok field_value wf].
  - done.
  - by intros [_ ?]%andb_true_iff.
  - intros [_ Ht%bool_decide_eq_true]%andb_true_iff. by apply escape_raw.
  - intros _. apply raw_plain, btoa_plain.
  - intros _. apply raw_plain, btoa_plain.
  - destruct named; intros [? ?]%andb_true_iff; zbool; apply number_printed; lia.
Qed.

Lemma call_wf t : forall named, ok named t = true -> wf (value_of t) = true.
Proof.
  induction t as [name f|name items IH|name items IH] using call_induction; intros named Hok;
    cbn [ok value_of wf call_name] in *; apply andb_true_iff in Hok as [_ Hok].
  - by eapply field_wf.
  - apply andb_true_iff in Hok as [Hok _]. apply forallb_forall. intros v (t & <- & Ht)%in_map_iff.
    rewrite forallb_forall in Hok. rewrite Forall_forall in IH. eapply IH; [by apply list_elem_of_In|by apply Hok].
  - apply forallb_forall. intros m (t & <- & Ht)%in_map_iff. cbn [fst snd].
    rewrite forallb_forall in Hok. rewrite Forall_forall in IH. specialize (Hok t Ht).
    apply andb_true_iff. split; [|eapply IH; [by apply list_elem_of_In|done]].
    assert (name_ok true (call_name t) = true) as Hn by (by destruct t; apply andb_true_iff in Hok as [Hn _]).
    destruct (call_name t); [done|done].
Qed.

(** *** Commas *)

(** What goes in front of the next element ([leaf]) or of anything else. *)
Definition pending (leaf : bool) (w : JSONWriter) : bytes :=
  if leaf then match get_level w with Some l => if l =? 0 then [] else [chr ","] | None => [] end
  else match last (mJson w) with Some c => if no_comma_after c then [] else [chr ","] | None => [] end.

Definition valid (w : JSONWriter) : Prop := length (mLevels w) = MAXDEPTH /\ -1 <= mLevel w.

Definition after (leaf : bool) (s : bytes) (w w' : JSONWriter) : Prop :=
  valid w' /\ mLevel w' = mLevel w /\ mJson w' = mJson w ++ pending leaf w ++ s.

Definition step (leaf : bool) (t : call) : Prop :=
  forall w, valid w -> mLevel w + Z.of_nat (depth t) < Z.of_nat MAXDEPTH -> (leaf = true -> 0 <= mLevel w) ->
  exists w', write t w = Some w' /\ after leaf (text t) w w' /\ pending leaf w' = [chr ","].

Lemma addcomma_json w : addcomma w = append (pending false w) w.
Proof using.
  unfold addcomma, pending, append. destruct (last (mJson w)) as [c|]; [destruct (no_comma_after c)|]; try done;
    rewrite app_nil_r; by destruct w.
Qed.

(** A value does not end in a character that suppresses the comma. *)
Lemma print_last v : wf v = true -> exists l c, print v = l ++ [c] /\ no_comma_after c = false.
Proof using.
  destruct v as [raw|tx|items|members]; cbn [wf print]; intros Hv.
  - by exists (cDquote :: raw), cDquote.
  - destruct tx as [|x tx _] using rev_ind; [done|]. exists tx, x. split; [done|].
    apply number_nonzero, Forall_app in Hv as [_ [Hx _]%Forall_cons].
    unfold no_comma_after, JSON.is_any. cbn [existsb].
    by rewrite (proj2 (Z.eqb_neq x 91)), (proj2 (Z.eqb_neq x 123)), (proj2 (Z.eqb_neq x 0)) by lia.
  - by exists (chr "[" :: sep (map print items)), (chr "]").
  - by eexists (chr "{" :: sep (map _ members)), (chr "}").
Qed.

Lemma pending_text t w s :
  wf (value_of t) = true -> mJson w = s ++ text t -> pending false w = [chr ","].
Proof using.
  intros (l & c & El & Ec)%print_last Ew. unfold pending. rewrite Ew. unfold text.
  by rewrite El, !app_assoc, last_snoc, Ec.
Qed.

(** *** Members and elements *)

Lemma step_member name f : ok true (Leaf (Some name) f) = true -> step false (Leaf (Some name) f).
Proof.
  intros Hok w Hw Hd _. pose proof (call_wf _ _ Hok) as Hwf. cbn [ok call_name] in Hok.
  apply andb_true_iff in Hok as [_ Hf].
  assert (exists raw (q : bool), write_field (Some name) f w = Some (arg name raw q w)
    /\ print (field_value f) = if q then quoted raw else raw) as (raw & q & E1 & E2).
  { destruct f as [raw [|]|t|data|h len|n]; cbn [write_field field_value print field_ok] in *.
    - exists raw, true. unfold arg_string. by rewrite (cstring_raw raw false).
    - exists raw, false. unfold arg_string. rewrite cstring_nonzero; [done|]. by apply number_nonzero.
    - exists (JSON.escape t), true. unfold arg_stringWithEscapes, arg_string. rewrite (cstring_raw _ false); [done|].
      exact Hwf.
    - by exists (Base64.btoa data), true.
    - by exists (Base64.btoa (take len (le_bytes 8 h))), true.
    - by exists (CLib.print_s64 n), false. }
  cbn [write]. rewrite E1. eexists. split; [done|].
  assert (mJson (arg name raw q w) = mJson w ++ pending false w ++ text (Leaf (Some name) f)) as Ej.
  { unfold text. cbn [call_name value_of name_prefix]. rewrite E2. unfold arg, quoted. rewrite addcomma_json.
    destruct q; cbn [append mJson app]; by rewrite <- ?app_assoc; cbn [app]; rewrite <- ?app_assoc. }
  split.
  - split_and!; [|..|exact Ej]; unfold arg; rewrite addcomma_json; by destruct q.
  - eapply pending_text; [exact Hwf|]. rewrite Ej. by rewrite app_assoc.
Qed.

Lemma level_in w : valid w -> 0 <= mLevel w < Z.of_nat MAXDEPTH ->
  exists l, get_level w = Some l /\ forall x, set_level x w = Some (MkJSONWriter (mJson w) (<[Z.to_nat (mLevel w) := x]> (mLevels w)) (mLevel w)).
Proof.
  intros [Hl _] Hr. unfold get_level, set_level.
  rewrite (proj2 (Z.leb_le _ _)), (proj2 (Z.ltb_lt _ _)) by lia. cbn [andb].
  destruct (lookup_lt_is_Some_2 (mLevels w) (Z.to_nat (mLevel w))) as [l E]; [lia|]. by exists l.
Qed.

Lemma get_put x w : valid w -> 0 <= mLevel w < Z.of_nat MAXDEPTH ->
  get_level (MkJSONWriter (mJson w) (<[Z.to_nat (mLevel w) := x]> (mLevels w)) (mLevel w)) = Some x.
Proof.
  intros [Hl _] Hr. unfold get_level. cbn [mLevel mLevels].
  rewrite (proj2 (Z.leb_le _ _)), (proj2 (Z.ltb_lt _ _)) by lia. cbn [andb].
  apply list_lookup_insert_eq. lia.
Qed.

Lemma elements_spec w : valid w -> 0 <= mLevel w < Z.of_nat MAXDEPTH ->
  exists more w1, elements w = Some (more, w1) /\ pending true w = (if (more : bool) then [chr ","] else [])
    /\ valid w1 /\ mLevel w1 = mLevel w /\ mJson w1 = mJson w /\ forall s, pending true (append s w1) = [chr ","].
Proof.
  intros Hw Hr. destruct (level_in w Hw Hr) as (l & El & Es). unfold elements, pending. rewrite El. cbn [mbind option_bind].
  destruct (Z.eqb_spec l 0) as [->|Hne].
  - rewrite Es. cbn [mbind option_bind]. exists false. eexists. split; [done|].
    pose proof (get_put 1 w Hw Hr) as Hg. split_and!; [done| |done..|].
    + destruct Hw. split; cbn [mLevels mLevel]; [by rewrite length_insert|done].
    + intros s. unfold append, get_level in *. cbn [mLevel mLevels] in *. by rewrite Hg.
  - exists true, w. split_and!; [done..|by destruct Hw|by destruct Hw|done|done|].
    intros s. unfold append, get_level in *. cbn [mLevel mLevels] in *. rewrite El. by rewrite (proj2 (Z.eqb_neq l 0)).
Qed.

Lemma step_element f : ok false (Leaf None f) = true -> step true (Leaf None f).
Proof.
  intros Hok w Hw Hd Hl. specialize (Hl eq_refl). cbn [depth] in Hd. cbn [ok call_name name_ok negb andb] in Hok.
  destruct (elements_spec w Hw ltac:(lia)) as (more & w1 & E & Ep & Hw1 & El & Ej & Hp).
  assert (forall tx, field_value f = VString tx -> write (Leaf None f) w = element_text tx w ->
    exists w', write (Leaf None f) w = Some w' /\ after true (text (Leaf None f)) w w' /\ pending true w' = [chr ","]) as Htext.
  { intros tx Ev ->. unfold element_text. rewrite E. cbn [mbind option_bind].
    eexists. split; [done|]. split; [|apply Hp].
    split_and!; [done..|]. unfold text. cbn [call_name value_of name_prefix app]. rewrite Ev, Ep. cbn [print append mJson].
    rewrite Ej. unfold quoted. destruct more; cbn [app]; rewrite <- ?app_assoc; by cbn [app]. }
  destruct f as [raw [|]|t|data|h len|n]; cbn [field_ok andb] in Hok; try done.
  - apply (Htext raw); [done|]. cbn [write write_field]. unfold element_string. by rewrite (cstring_raw raw false).
  - by apply (Htext (Base64.btoa data)).
  - by apply (Htext (Base64.btoa (take len (le_bytes 8 h)))).
  - apply andb_true_iff in Hok as [Hlo Hhi]. cbn [write write_field]. unfold element_int.
    rewrite s32_id by (zbool; lia). rewrite E. cbn [mbind option_bind]. eexists. split; [done|].
    split; [|destruct more; exact (Hp [])]. split_and!; [by destruct more..|].
    unfold text. cbn [call_name value_of name_prefix app field_value print]. rewrite Ep.
    destruct more; cbn [append mJson]; rewrite Ej; by rewrite <- ?app_assoc.
Qed.

(** *** Arrays and objects *)

Lemma write_container name items w :
  write (Array name items) w = (w ← beginarray name w; w ← write_all items w; Some (endarray w))
  /\ write (Object name items) w = (w ← write_all items (beginobject name w); Some (endobject w)).
Proof.
  assert (forall w, (fix all items w := match items with [] => Some w | t :: items => w ← write t w; all items w end)
    items w = write_all items w) as E.
  { induction items as [|t items IH]; intros w0; [done|]. cbn [write_all]. destruct (write t w0); [|done]. apply IH. }
  split; cbn [write]; [destruct (beginarray name w); [|done]|]; cbn [mbind option_bind]; by rewrite E.
Qed.

Definition max_depth (items : list call) : nat := fold_right (fun t n => Nat.max (depth t) n) 0%nat items.

(** The items of an array or object, one after the other. *)
Lemma write_items leaf items : forall w,
  Forall (step leaf) items -> valid w -> mLevel w + Z.of_nat (max_depth items) < Z.of_nat MAXDEPTH ->
  (leaf = true -> 0 <= mLevel w) ->
  exists w', write_all items w = Some w' /\ valid w' /\ mLevel w' = mLevel w
    /\ mJson w' = mJson w ++ match items with [] => [] | _ => pending leaf w ++ sep (map text items) end.
Proof.
  induction items as [|t items IH]; intros w Hs Hw Hd Hl.
  { exists w. by rewrite app_nil_r. }
  apply Forall_cons in Hs as [Ht Hs]. cbn [max_depth fold_right] in Hd. fold (max_depth items) in Hd.
  destruct (Ht w Hw) as (w1 & E1 & (Hw1 & El1 & Ej1) & Ep1); [lia|done|].
  destruct (IH w1 Hs Hw1) as (w2 & E2 & Hw2 & El2 & Ej2); [lia|by rewrite El1|].
  exists w2. cbn [write_all]. rewrite E1. cbn [mbind option_bind]. split; [done|].
  split_and!; [done|congruence|]. rewrite Ej2, Ej1, Ep1. destruct items as [|t' items]; cbn [map].
  - cbn [sep]. by rewrite app_nil_r.
  - rewrite JsonFacts.sep_cons. by rewrite <- !app_assoc.
Qed.

Lemma items_step b leaf items :
  Forall (fun t => forall named, ok named t = true -> step (negb named && is_leaf t) t) items ->
  forallb (ok b) items = true -> (forall t, In t items -> negb b && is_leaf t = leaf) -> Forall (step leaf) items.
Proof.
  intros Hi Ho Hl. rewrite Forall_forall in *. rewrite forallb_forall in Ho. intros t Ht.
  rewrite <- (Hl t) by by apply list_elem_of_In. apply Hi; [done|]. by apply Ho, list_elem_of_In.
Qed.

(** What opening an array or object writes; nothing is pending behind it. *)
Lemma open_json s c w : valid w -> no_comma_after c = true ->
  let w1 := append (s ++ [c]) (addcomma w) in
  mJson w1 = mJson w ++ pending false w ++ s ++ [c] /\ valid w1 /\ mLevel w1 = mLevel w /\ pending false w1 = [].
Proof.
  intros Hw Hc. cbv zeta. rewrite addcomma_json. cbn [append mJson mLevel].
  split_and!; [by rewrite <- !app_assoc|done..|]. unfold pending. cbn [mJson append].
  by rewrite !app_assoc, last_snoc, Hc.
Qed.

Lemma items_text name items : Forall (fun t => call_name t <> None) items ->
  print (value_of (Object name items)) = chr "{" :: sep (map text items) ++ [chr "}"].
Proof.
  intros Hn. cbn [value_of print]. do 2 f_equal. f_equal. rewrite map_map. apply map_ext_in.
  intros t Ht. rewrite Forall_forall in Hn. specialize (Hn t ltac:(by apply list_elem_of_In)).
  unfold text, quoted. destruct (call_name t) as [n|]; [|done]. cbn [default id name_prefix fst snd app].
  by rewrite <- !app_assoc.
Qed.

Lemma named_ok items : forallb (ok true) items = true -> Forall (fun t => call_name t <> None) items.
Proof.
  intros Ho. apply Forall_forall. intros t Ht. rewrite forallb_forall in Ho.
  specialize (Ho t ltac:(by apply list_elem_of_In)). destruct t; apply andb_true_iff in Ho as [Hn _];
    cbn [call_name] in *; by destruct name.
Qed.

Lemma unnamed_text items : forallb (ok false) items = true -> map text items = map print (map value_of items).
Proof.
  intros Ho. rewrite map_map. apply map_ext_in. intros t Ht. rewrite forallb_forall in Ho. specialize (Ho t Ht).
  unfold text. destruct t; apply andb_true_iff in Ho as [Hn _]; cbn [call_name] in *; by destruct name.
Qed.

Lemma step_object name items named :
  Forall (fun t => forall named, ok named t = true -> step (negb named && is_leaf t) t) items ->
  ok named (Object name items) = true -> step false (Object name items).
Proof.
  intros IH Hok w Hw Hd _. pose proof (call_wf _ _ Hok) as Hwf. cbn [ok call_name] in Hok.
  apply andb_true_iff in Hok as [_ Ho]. destruct (write_container name items w) as [_ ->].
  destruct (open_json (name_prefix name) (chr "{") w Hw eq_refl) as (Ej & Hw1 & El & Ep).
  fold (beginobject name w) in Ej, Hw1, El, Ep.
  destruct (write_items false items (beginobject name w)) as (w2 & E2 & Hw2 & El2 & Ej2);
    [by apply (items_step true false items IH Ho)|done|by rewrite El|done|].
  rewrite E2. cbn [mbind option_bind]. eexists. split; [done|].
  assert (mJson (endobject w2) = mJson w ++ pending false w ++ text (Object name items)) as Efin.
  { cbn [endobject append mJson]. rewrite Ej2, Ej, Ep. unfold text. rewrite items_text by (by apply named_ok).
    cbn [call_name]. destruct items as [|t items]; cbn [app]; rewrite <- ?app_assoc; by cbn [app map sep]. }
  split; [split_and!; [done|by rewrite El in El2|exact Efin]|].
  eapply pending_text; [exact Hwf|]. rewrite Efin. by rewrite app_assoc.
Qed.

Lemma step_array name items named :
  Forall (fun t => forall named, ok named t = true -> step (negb named && is_leaf t) t) items ->
  ok named (Array name items) = true -> step false (Array name items).
Proof.
  intros IH Hok w Hw Hd _. pose proof (call_wf _ _ Hok) as Hwf. cbn [ok call_name] in Hok.
  apply andb_true_iff in Hok as [_ [Ho Hh]%andb_true_iff]. destruct (write_container name items w) as [-> _].
  destruct (open_json (name_prefix name) (chr "[") w Hw eq_refl) as (Ej & Hw1 & El & Ep).
  cbn [depth] in Hd. fold (max_depth items) in Hd. destruct Hw as [Hlen Hlow].
  set (w1 := append (name_prefix name ++ [chr "["]) (addcomma w)) in *.
  set (w1' := MkJSONWriter (mJson w1) (mLevels w1) (mLevel w1 + 1)).
  assert (valid w1') as Hw1' by (destruct Hw1; split; [done|]; unfold w1'; cbn [mLevel]; lia).
  assert (0 <= mLevel w1' < Z.of_nat MAXDEPTH) as Hr by (unfold w1'; cbn [mLevel]; lia).
  destruct (level_in w1' Hw1' Hr) as (_ & _ & Es).
  unfold beginarray, openobject. fold w1 w1'. rewrite Es. cbn [mbind option_bind].
  pose proof (get_put 0 w1' Hw1' Hr) as Hg. set (w2 := MkJSONWriter (mJson w1') _ _) in *.
  assert (valid w2) as Hw2 by (destruct Hw1'; split; [by unfold w2; cbn; rewrite length_insert|done]).
  assert (exists leaf, Forall (step leaf) items /\ pending leaf w2 = []) as (leaf & Hs & Hp).
  { apply orb_true_iff in Hh as [Hh|Hh]; rewrite forallb_forall in Hh.
    - exists true. split; [apply (items_step false true items IH Ho); intros t Ht; by rewrite Hh|].
      unfold pending. by rewrite Hg.
    - exists false. split; [apply (items_step false false items IH Ho); intros t Ht; by rewrite <- (negb_involutive (is_leaf t)), Hh|].
      exact Ep. }
  destruct (write_items leaf items w2 Hs Hw2) as (w3 & E3 & Hw3 & El3 & Ej3);
    [unfold w2; cbn [mLevel]; unfold w1'; cbn [mLevel]; lia|unfold w2; cbn [mLevel]; lia|].
  rewrite E3. cbn [mbind option_bind]. eexists. split; [done|].
  assert (mLevel (endarray w3) = mLevel w) as Elv.
  { cbn [endarray closeobject append mLevel]. rewrite El3. unfold w2, w1'. cbn [mLevel]. lia. }
  assert (mJson (endarray w3) = mJson w ++ pending false w ++ text (Array name items)) as Efin.
  { cbn [endarray closeobject append mJson]. rewrite Ej3, Hp. change (mJson w2) with (mJson w1). rewrite Ej.
    unfold text. cbn [call_name value_of print]. rewrite <- unnamed_text by done.
    destruct items as [|t items]; cbn [app]; rewrite <- ?app_assoc; by cbn [app map sep]. }
  split; [split_and!; [|done|exact Efin]|].
  - destruct Hw3 as [Hl3 _]. split; [done|]. rewrite Elv. done.
  - eapply pending_text; [exact Hwf|]. rewrite Efin. by rewrite app_assoc.
Qed.

Lemma call_step t : forall named, ok named t = true -> step (negb named && is_leaf t) t.
Proof.
  induction t as [name f|name items IH|name items IH] using call_induction; intros named Hok.
  - cbn [is_leaf]. rewrite andb_true_r. pose proof Hok as [Hn _]%andb_true_iff. cbn [call_name] in Hn.
    destruct named, name as [n|]; try done; [by apply step_member|by apply step_element].
  - cbn [is_leaf]. rewrite andb_false_r. by eapply step_array.
  - cbn [is_leaf]. rewrite andb_false_r. by eapply step_object.
Qed.

End escape.
End WriterFacts.

(** ** Properties *)

Section theorems.
Import JSONWriter JsonValue WriterSpec WriterFacts.
Context `{JSON.UTF8PROC_laws}.

(** C7: An array or object that is written call by call is the compact text of the
    value that the calls describe, which the scanner reads back as one value; a
    command and its members are the members of one object.  This is so for every
    nest of calls in which an array holds only elements or only arrays and objects
    (it is false for other arrays, [mixed_array]), at most eight arrays are nested
    (the ninth is out of bounds, [nine_arrays]), members of objects have names and
    elements of arrays have none, names and raw text are the body of a string or
    a number, and only members are escaped.  Escaped strings, binary data and
    handles may hold any bytes, and numbers are any that their types can hold: 64
    bits in members and 32 bits in elements. *)
Theorem writer_text (t : call) (c : bytes) (items : list call) :
  ok false t = true -> is_leaf t = false -> (depth t <= MAXDEPTH)%nat ->
  raw_ok c false = true -> forallb (ok true) items = true -> (max_depth items <= MAXDEPTH)%nat ->
  (exists w, write t new_JSONWriter = Some w /\ getstring w = print (value_of t)
     /\ forall rest s, ends_number rest = true ->
          JSON.storeobject (getstring w ++ rest) s = (true, rest, getstring w))
  /\ (exists w, write_all items (cmd c new_JSONWriter) = Some w
     /\ chr "{" :: getstring w ++ [chr "}"] = print (VObject ((str "a", VString c) :: map member_of items))).
Proof.
  intros Ho Hl Hd Hc Hi Hm.
  assert (valid new_JSONWriter) as Hnew by (split; cbn; [done|lia]).
  assert (forall t, ok true t = true -> step false t) as Hstep.
  { intros t' Ht'. apply (call_step t' true Ht'). }
  split.
  - pose proof (call_step t false Ho) as Hs. rewrite Hl in Hs.
    destruct (Hs new_JSONWriter Hnew) as (w & E & (_ & _ & Ej) & _); [cbn [mLevel new_JSONWriter]; lia|done|].
    assert (call_name t = None) as En.
    { destruct t; cbn [ok call_name] in *; apply andb_true_iff in Ho as [Hn _]; by destruct name. }
    assert (getstring w = print (value_of t)) as Ew.
    { unfold getstring. rewrite Ej. unfold text. by rewrite En. }
    exists w. split; [done|]. split; [exact Ew|]. intros rest s Hr. rewrite Ew.
    rewrite (JsonFacts.storeobject_value _ _ s (call_wf t false Ho) Hr). by destruct t.
  - set (w0 := cmd c new_JSONWriter).
    destruct (write_items false items w0) as (w & E & _ & _ & Ej);
      [apply Forall_forall; intros t' Ht'; apply Hstep; rewrite forallb_forall in Hi; by apply Hi, list_elem_of_In
      |done|unfold w0; cbn [mLevel cmd append new_JSONWriter]; lia|done|].
    exists w. split; [done|].
    assert (pending false w0 = [chr ","]) as Ep.
    { unfold pending, w0. cbn [cmd append mJson new_JSONWriter]. by rewrite last_snoc. }
    unfold getstring. rewrite Ej, Ep.
    assert (mJson w0 = quoted (str "a") ++ chr ":" :: quoted c) as E0.
    { unfold w0, quoted. cbn [cmd append mJson new_JSONWriter app]. by rewrite <- ?app_assoc. }
    rewrite E0. assert (map (fun m => quoted m.1 ++ chr ":" :: print m.2) (map member_of items) = map text items) as Et.
    { rewrite map_map. apply map_ext_in. intros t' Ht'. pose proof (named_ok items Hi) as Hn.
      rewrite Forall_forall in Hn. specialize (Hn t' ltac:(by apply list_elem_of_In)).
      unfold text, quoted, member_of. destruct (call_name t') as [n|]; [|done]. cbn [default id name_prefix fst snd app].
      by rewrite <- !app_assoc. }
    cbn [map fst snd print]. rewrite Et. destruct items as [|t' items]; cbn [map sep]; rewrite ?app_nil_r, <- ?app_assoc; done.
Qed.

End theorems.

(** Where elements and objects are mixed, the two rules for commas disagree: the
    flag of the array does not know about the object. *)
Lemma mixed_array :
  (w ← JSONWriter.beginarray None JSONWriter.new_JSONWriter;
   w ← JSONWriter.element_int 5 (JSONWriter.endobject (JSONWriter.beginobject None w));
   Some (JSONWriter.getstring (JSONWriter.endarray w))) = Some (str "[{}5]").
Proof. vm_compute. reflexivity. Qed.

(** The ninth nested array is written outside of [mLevels]. *)
Lemma nine_arrays :
  (fix nested n w := match n with O => Some w | S n => w ← JSONWriter.beginarray None w; nested n w end)
    9%nat JSONWriter.new_JSONWriter = None.
Proof. vm_compute. reflexivity. Qed.

Module WriterExamples.
Import WriterSpec.

Definition node : call :=
  Object None [Leaf (Some (str "h")) (FHandle 0x0102030405060708 6);
               Leaf (Some (str "a")) (FEscaped (str "a b" ++ [cDquote; 10]));
               Leaf (Some (str "t")) (FNumber (-3))].
Definition nodes : call := Array (Some (str "n")) [node; node].
Definition ids : call := Array None [Leaf None (FNumber 1); Leaf None (FBytes [1; 2]); Leaf None (FText (str "x") true)].

End WriterExamples.

#[local] Existing Instance JsonExamples.toy_utf8.
#[local] Existing Instance JsonExamples.toy_utf8_laws.

Lemma writer_text_witness :
  (exists w, WriterSpec.write WriterExamples.ids JSONWriter.new_JSONWriter = Some w
     /\ JSONWriter.getstring w = JsonValue.print (WriterSpec.value_of WriterExamples.ids))
  /\ exists w, WriterSpec.write_all [WriterExamples.nodes] (JSONWriter.cmd (str "p") JSONWriter.new_JSONWriter) = Some w.
Proof.
  destruct (writer_text WriterExamples.ids (str "p") [WriterExamples.nodes]) as [(w & E1 & E2 & _) (w' & E3 & _)];
    [vm_compute; reflexivity|reflexivity|vm_compute; lia|reflexivity|vm_compute; reflexivity|vm_compute; lia|].
  split; [exists w; split; assumption|exists w'; exact E3].
Defined.
