(* ===== verification/Keys.v ===== *)
(** * The keys of an account

    The user attribute ^!keys holds the private keys of an account, the trust in
    the keys of its contacts, the keys of its shares and the shares that wait for
    a contact to be verified.  This file has the data of [KeyManager]
    (src/megaclient.cpp, include/mega/megaclient.h) and its binary formats: a
    sequence of tagged records, some of which are tables of fixed-size entries or
    of length-prefixed tags and values (LTLV).  Proved: what is read is well
    formed, and what was read is written such that reading it again gives the
    same keys, a newer generation, and every record an older client does not
    know.

    [CacheableReader] and [CacheableWriter] are those of Serialize.v. *)

From S2P Require Import Prelude OMap Encoding Serialize Crypto.
Local Open Scope Z_scope.

(** [htons], [htonl] and their inverses on the supported platforms. *)
Definition byte_swap (n : nat) (x : Z) : Z := le_value (rev (le_bytes n x)).

(** [toHandle]: a user handle in base64. *)
Definition toHandle (h : Z) : bytes := Base64.btoa (le_bytes 8 h).

(** [toNodeHandle]. *)
Definition toNodeHandle (h : Z) : bytes := Base64.btoa (le_bytes 6 h).

Module Keys.

Definition TAG_VERSION := 1.
Definition TAG_CREATION_TIME := 2.
Definition TAG_IDENTITY := 3.
Definition TAG_GENERATION := 4.
Definition TAG_ATTR := 5.
Definition TAG_PRIV_ED25519 := 16.
Definition TAG_PRIV_CU25519 := 17.
Definition TAG_PRIV_RSA := 18.
Definition TAG_AUTHRING_ED25519 := 32.
Definition TAG_AUTHRING_CU25519 := 33.
Definition TAG_SHAREKEYS := 48.
Definition TAG_PENDING_OUTSHARES := 64.
Definition TAG_PENDING_INSHARES := 65.
Definition TAG_BACKUPS := 80.
Definition TAG_WARNINGS := 96.

(** Bits of the flags of a share key. *)
Definition TRUSTED := 0.
Definition INUSE := 1.

(** [EdDSA::SEED_KEY_LENGTH] and [ECDH::PRIVATE_KEY_LENGTH]. *)
Definition SEED_KEY_LENGTH : nat := 32.
Definition PRIVATE_KEY_LENGTH : nat := 32.

(** Share keys with their flags (a [bitset] of eight bits) by node handle,
    sharees by node handle (a [set] is a map to [unit]), and sharer and encrypted
    key by the base64 of the node handle. *)
Abbreviation ShareKeys := (list (Z * (bytes * Z))).
Abbreviation OutShares := (list (Z * list (bytes * unit))).
Abbreviation InShares := (list (bytes * (Z * bytes))).
Abbreviation StringMap := (list (bytes * bytes)).

Record Keys := MkKeys {
  mVersion : Z;
  mCreationTime : Z;
  mIdentity : Z;
  mGeneration : Z;
  mAttr : bytes;
  mPrivEd25519 : bytes;
  mPrivCu25519 : bytes;
  mPrivRSA : bytes;
  mAuthEd25519 : bytes;
  mAuthCu25519 : bytes;
  mBackups : bytes;
  mOther : bytes;
  mShareKeys : ShareKeys;
  mPendingOutShares : OutShares;
  mPendingInShares : InShares;
  mWarnings : StringMap
}.

(** The members' initializers. *)
Definition new_Keys : Keys :=
  MkKeys 0 0 (2 ^ 64 - 1) 0 [] [] [] [] [] [] [] [] [] [] [] [].

Definition set_mVersion x k := MkKeys x (mCreationTime k) (mIdentity k) (mGeneration k) (mAttr k) (mPrivEd25519 k) (mPrivCu25519 k) (mPrivRSA k) (mAuthEd25519 k) (mAuthCu25519 k) (mBackups k) (mOther k) (mShareKeys k) (mPendingOutShares k) (mPendingInShares k) (mWarnings k).
Definition set_mCreationTime x k := MkKeys (mVersion k) x (mIdentity k) (mGeneration k) (mAttr k) (mPrivEd25519 k) (mPrivCu25519 k) (mPrivRSA k) (mAuthEd25519 k) (mAuthCu25519 k) (mBackups k) (mOther k) (mShareKeys k) (mPendingOutShares k) (mPendingInShares k) (mWarnings k).
Definition set_mIdentity x k := MkKeys (mVersion k) (mCreationTime k) x (mGeneration k) (mAttr k) (mPrivEd25519 k) (mPrivCu25519 k) (mPrivRSA k) (mAuthEd25519 k) (mAuthCu25519 k) (mBackups k) (mOther k) (mShareKeys k) (mPendingOutShares k) (mPendingInShares k) (mWarnings k).
Definition set_mGeneration x k := MkKeys (mVersion k) (mCreationTime k) (mIdentity k) x (mAttr k) (mPrivEd25519 k) (mPrivCu25519 k) (mPrivRSA k) (mAuthEd25519 k) (mAuthCu25519 k) (mBackups k) (mOther k) (mShareKeys k) (mPendingOutShares k) (mPendingInShares k) (mWarnings k).
Definition set_mAttr x k := MkKeys (mVersion k) (mCreationTime k) (mIdentity k) (mGeneration k) x (mPrivEd25519 k) (mPrivCu25519 k) (mPrivRSA k) (mAuthEd25519 k) (mAuthCu25519 k) (mBackups k) (mOther k) (mShareKeys k) (mPendingOutShares k) (mPendingInShares k) (mWarnings k).
Definition set_mPrivEd25519 x k := MkKeys (mVersion k) (mCreationTime k) (mIdentity k) (mGeneration k) (mAttr k) x (mPrivCu25519 k) (mPrivRSA k) (mAuthEd25519 k) (mAuthCu25519 k) (mBackups k) (mOther k) (mShareKeys k) (mPendingOutShares k) (mPendingInShares k) (mWarnings k).
Definition set_mPrivCu25519 x k := MkKeys (mVersion k) (mCreationTime k) (mIdentity k) (mGeneration k) (mAttr k) (mPrivEd25519 k) x (mPrivRSA k) (mAuthEd25519 k) (mAuthCu25519 k) (mBackups k) (mOther k) (mShareKeys k) (mPendingOutShares k) (mPendingInShares k) (mWarnings k).
Definition set_mPrivRSA x k := MkKeys (mVersion k) (mCreationTime k) (mIdentity k) (mGeneration k) (mAttr k) (mPrivEd25519 k) (mPrivCu25519 k) x (mAuthEd25519 k) (mAuthCu25519 k) (mBackups k) (mOther k) (mShareKeys k) (mPendingOutShares k) (mPendingInShares k) (mWarnings k).
Definition set_mAuthEd25519 x k := MkKeys (mVersion k) (mCreationTime k) (mIdentity k) (mGeneration k) (mAttr k) (mPrivEd25519 k) (mPrivCu25519 k) (mPrivRSA k) x (mAuthCu25519 k) (mBackups k) (mOther k) (mShareKeys k) (mPendingOutShares k) (mPendingInShares k) (mWarnings k).
Definition set_mAuthCu25519 x k := MkKeys (mVersion k) (mCreationTime k) (mIdentity k) (mGeneration k) (mAttr k) (mPrivEd25519 k) (mPrivCu25519 k) (mPrivRSA k) (mAuthEd25519 k) x (mBackups k) (mOther k) (mShareKeys k) (mPendingOutShares k) (mPendingInShares k) (mWarnings k).
Definition set_mBackups x k := MkKeys (mVersion k) (mCreationTime k) (mIdentity k) (mGeneration k) (mAttr k) (mPrivEd25519 k) (mPrivCu25519 k) (mPrivRSA k) (mAuthEd25519 k) (mAuthCu25519 k) x (mOther k) (mShareKeys k) (mPendingOutShares k) (mPendingInShares k) (mWarnings k).
Definition set_mOther x k := MkKeys (mVersion k) (mCreationTime k) (mIdentity k) (mGeneration k) (mAttr k) (mPrivEd25519 k) (mPrivCu25519 k) (mPrivRSA k) (mAuthEd25519 k) (mAuthCu25519 k) (mBackups k) x (mShareKeys k) (mPendingOutShares k) (mPendingInShares k) (mWarnings k).
Definition set_mShareKeys x k := MkKeys (mVersion k) (mCreationTime k) (mIdentity k) (mGeneration k) (mAttr k) (mPrivEd25519 k) (mPrivCu25519 k) (mPrivRSA k) (mAuthEd25519 k) (mAuthCu25519 k) (mBackups k) (mOther k) x (mPendingOutShares k) (mPendingInShares k) (mWarnings k).
Definition set_mPendingOutShares x k := MkKeys (mVersion k) (mCreationTime k) (mIdentity k) (mGeneration k) (mAttr k) (mPrivEd25519 k) (mPrivCu25519 k) (mPrivRSA k) (mAuthEd25519 k) (mAuthCu25519 k) (mBackups k) (mOther k) (mShareKeys k) x (mPendingInShares k) (mWarnings k).
Definition set_mPendingInShares x k := MkKeys (mVersion k) (mCreationTime k) (mIdentity k) (mGeneration k) (mAttr k) (mPrivEd25519 k) (mPrivCu25519 k) (mPrivRSA k) (mAuthEd25519 k) (mAuthCu25519 k) (mBackups k) (mOther k) (mShareKeys k) (mPendingOutShares k) x (mWarnings k).
Definition set_mWarnings x k := MkKeys (mVersion k) (mCreationTime k) (mIdentity k) (mGeneration k) (mAttr k) (mPrivEd25519 k) (mPrivCu25519 k) (mPrivRSA k) (mAuthEd25519 k) (mAuthCu25519 k) (mBackups k) (mOther k) (mShareKeys k) (mPendingOutShares k) (mPendingInShares k) x.

(** ** Tables *)

(** A read of the reader whose failure ends the caller with [false]. *)
Definition check {A} (res : bool * A * reader) : option (A * reader) :=
  if res.1.1 then Some (res.1.2, res.2) else None.

(** [while (r.hasdataleft())] with a body that may return [false]. *)
Fixpoint while_data {A} (fuel : nat) (body : A -> reader -> option (A * reader)) (a : A) (r : reader)
    : option A :=
  match fuel with
  | O => None
  | S fuel =>
      if CacheableReader.hasdataleft r then
        '(a, r) ← body a r;
        while_data fuel body a r
      else Some a
  end.

(** Every entry takes a byte at least. *)
Definition read_table {A} (body : A -> reader -> option (A * reader)) (a : A) (blob : bytes) : option A :=
  while_data (S (length blob)) body a (CacheableReader.init blob).

Definition read_sharekey (m : ShareKeys) (r : reader) : option (ShareKeys * reader) :=
  '(h, r) ← check (CacheableReader.unserializenodehandle NodeHandle.UNDEF r);
  '(shareKey, r) ← check (CacheableReader.unserializebinary KEYLENGTH [] r);
  '(flagsBuf, r) ← check (CacheableReader.unserializebyte 0 r);
  Some (omap_insert h (shareKey, flagsBuf) m, r).

Definition deserializeShareKeys (blob : bytes) : option ShareKeys :=
  read_table read_sharekey [] blob.

Definition write_sharekey (w : bytes) (it : Z * (bytes * Z)) : bytes :=
  let w := CacheableWriter.serializenodehandle w it.1 in
  let w := CacheableWriter.serializebinary w it.2.1 in
  CacheableWriter.serializebyte w it.2.2.

Definition serializeShareKeys (m : ShareKeys) : bytes := foldl write_sharekey [] m.

(** The sharee is a user handle behind a zero and an email behind its length. *)
Definition read_outshare (m : OutShares) (r : reader) : option (OutShares * reader) :=
  '(len, r) ← check (CacheableReader.unserializebyte 0 r);
  '(h, r) ← check (CacheableReader.unserializenodehandle NodeHandle.UNDEF r);
  '(uid, r) ←
    (if (len =? 0)%Z then
       '(uh, r) ← check (CacheableReader.unserializehandle NodeHandle.UNDEF r);
       Some (toHandle uh, r)
     else check (CacheableReader.unserializebinary (Z.to_nat len) [] r));
  Some (omap_insert h (omap_insert uid tt (default [] (omap_find h m))) m, r).

Definition deserializePendingOutshares (blob : bytes) : option OutShares :=
  read_table read_outshare [] blob.

Definition isEmail (uid : bytes) : bool := bool_decide (chr "@" ∈ uid).

(** [uninit] is what the uninitialised variable [uh] holds; a user handle of
    eleven base64 characters overwrites all of it. *)
Definition write_outshare (uninit : bytes) (h : Z) (w : bytes) (e : bytes * unit) : bytes :=
  let uid := e.1 in
  if isEmail uid && (256 <=? zlength uid) then w
  else if negb (isEmail uid) && negb (zlength uid =? 11) then w
  else
    let len := if isEmail uid then u8 (zlength uid) else 0 in
    let w := CacheableWriter.serializebyte w len in
    let w := CacheableWriter.serializenodehandle w h in
    if 0 <? len then CacheableWriter.serializebinary w uid
    else
      let b := default [] (Base64.atob uid 8) in
      CacheableWriter.serializehandle w (le_value (take 8 (b ++ drop (length b) uninit))).

Definition serializePendingOutshares (uninit : bytes) (m : OutShares) : bytes :=
  foldl (fun w it => foldl (write_outshare uninit it.1) w it.2) [] m.

(** ** Length, tag, length, value

    The length of a tag takes a byte, that of a value two, or six when the first
    two are 0xFFFF; both are big-endian. *)

Definition read_ltlv (data : StringMap) (r : reader) : option (StringMap * reader) :=
  '(len, r) ← check (CacheableReader.unserializebyte 0 r);
  '(tag, r) ← check (CacheableReader.unserializebinary (Z.to_nat len) [] r);
  let '(success, lenValue16, r) := CacheableReader.unserializeu16 0 r in
  let lenValue16 := byte_swap 2 lenValue16 in
  let '(success, lenValue, r) :=
    if lenValue16 =? 65535 then
      let '(success, lenValue, r) := CacheableReader.unserializeu32 0 r in
      (success, byte_swap 4 lenValue, r)
    else (success, lenValue16, r) in
  if (success : bool) then
    '(value, r) ← check (CacheableReader.unserializebinary (Z.to_nat lenValue) [] r);
    Some (omap_insert tag value data, r)
  else None.

Definition deserializeFromLTLV (blob : bytes) (data : StringMap) : option StringMap :=
  read_table read_ltlv data blob.

Definition write_ltlv (w : bytes) (it : bytes * bytes) : bytes :=
  let w := CacheableWriter.serializebyte w (u8 (zlength it.1)) in
  let w := CacheableWriter.serializebinary w it.1 in
  let w :=
    if zlength it.2 <? 65535 then
      CacheableWriter.serializeu16 w (byte_swap 2 (u16 (zlength it.2)))
    else
      CacheableWriter.serializeu32 (CacheableWriter.serializeu16 w 65535)
        (byte_swap 4 (u32 (zlength it.2))) in
  CacheableWriter.serializebinary w it.2.

Definition serializeToLTLV (values : StringMap) : bytes := foldl write_ltlv [] values.

(** The value of a pending in-share: the sharer's handle and the encrypted key,
    which may be missing. *)
Definition read_inshare (value : bytes) : option (Z * bytes) :=
  if zlength value <? 8 then None
  else
    let r := CacheableReader.init value in
    '(uh, r) ← check (CacheableReader.unserializehandle NodeHandle.UNDEF r);
    '(shareKey, r) ← check (CacheableReader.unserializebinary (length value - 8) [] r);
    Some (uh, shareKey).

Fixpoint read_inshares (decoded : StringMap) (m : InShares) : option InShares :=
  match decoded with
  | [] => Some m
  | (tag, value) :: decoded =>
      v ← read_inshare value;
      read_inshares decoded (omap_insert tag v m)
  end.

Definition deserializePendingInshares (blob : bytes) : option InShares :=
  decoded ← deserializeFromLTLV blob [];
  read_inshares decoded [].

Definition inshare_value (v : Z * bytes) : bytes :=
  CacheableWriter.serializebinary (CacheableWriter.serializehandle [] v.1) v.2.

Definition serializePendingInshares (m : InShares) : bytes :=
  serializeToLTLV (foldl (fun values it => omap_insert it.1 (inshare_value it.2) values) [] m).

Definition deserializeWarnings (blob : bytes) : option StringMap := deserializeFromLTLV blob [].
Definition serializeWarnings (m : StringMap) : bytes := serializeToLTLV m.

Definition deserializeBackups (blob : bytes) : bytes := blob.
Definition serializeBackups (backups : bytes) : bytes := backups.

(** ** Records *)

Definition tagHeader (tag len : Z) : bytes :=
  [tag; Z.shiftr (Z.land len 16711680) 16; Z.shiftr (Z.land len 65280) 8; Z.land len 255].

(** A header and its content. *)
Definition record (tag : Z) (content : bytes) : bytes := tagHeader tag (zlength content) ++ content.

(** The generation that is written is the next one. *)
Definition serialize (uninit : bytes) (k : Keys) : bytes :=
  record TAG_VERSION (le_bytes 1 (mVersion k))
  ++ record TAG_CREATION_TIME (le_bytes 4 (byte_swap 4 (mCreationTime k)))
  ++ record TAG_IDENTITY (le_bytes 8 (mIdentity k))
  ++ record TAG_GENERATION (le_bytes 4 (byte_swap 4 (u32 (mGeneration k + 1))))
  ++ record TAG_ATTR (mAttr k)
  ++ tagHeader TAG_PRIV_ED25519 (Z.of_nat SEED_KEY_LENGTH) ++ mPrivEd25519 k
  ++ tagHeader TAG_PRIV_CU25519 (Z.of_nat PRIVATE_KEY_LENGTH) ++ mPrivCu25519 k
  ++ record TAG_PRIV_RSA (mPrivRSA k)
  ++ record TAG_AUTHRING_ED25519 (mAuthEd25519 k)
  ++ record TAG_AUTHRING_CU25519 (mAuthCu25519 k)
  ++ record TAG_SHAREKEYS (serializeShareKeys (mShareKeys k))
  ++ record TAG_PENDING_OUTSHARES (serializePendingOutshares uninit (mPendingOutShares k))
  ++ record TAG_PENDING_INSHARES (serializePendingInshares (mPendingInShares k))
  ++ record TAG_BACKUPS (serializeBackups (mBackups k))
  ++ record TAG_WARNINGS (serializeWarnings (mWarnings k))
  ++ mOther k.

(** The cases of the switch; [header] and [content] are the bytes of a record. *)
Definition unserialize_record (k : Keys) (tag : Z) (header content : bytes) : option Keys :=
  let len := zlength content in
  if tag =? TAG_VERSION then
    if len =? 1 then Some (set_mVersion (le_value content) k) else None
  else if tag =? TAG_CREATION_TIME then
    if len =? 4 then Some (set_mCreationTime (byte_swap 4 (le_value content)) k) else None
  else if tag =? TAG_IDENTITY then
    if len =? 8 then Some (set_mIdentity (le_value content) k) else None
  else if tag =? TAG_GENERATION then
    if len =? 4 then Some (set_mGeneration (byte_swap 4 (le_value content)) k) else None
  else if tag =? TAG_ATTR then Some (set_mAttr content k)
  else if tag =? TAG_PRIV_ED25519 then
    if len =? Z.of_nat SEED_KEY_LENGTH then Some (set_mPrivEd25519 content k) else None
  else if tag =? TAG_PRIV_CU25519 then
    if len =? Z.of_nat PRIVATE_KEY_LENGTH then Some (set_mPrivCu25519 content k) else None
  else if tag =? TAG_PRIV_RSA then Some (set_mPrivRSA content k)
  else if tag =? TAG_AUTHRING_ED25519 then Some (set_mAuthEd25519 content k)
  else if tag =? TAG_AUTHRING_CU25519 then Some (set_mAuthCu25519 content k)
  else if tag =? TAG_SHAREKEYS then
    m ← deserializeShareKeys content; Some (set_mShareKeys m k)
  else if tag =? TAG_PENDING_OUTSHARES then
    m ← deserializePendingOutshares content; Some (set_mPendingOutShares m k)
  else if tag =? TAG_PENDING_INSHARES then
    m ← deserializePendingInshares content; Some (set_mPendingInShares m k)
  else if tag =? TAG_BACKUPS then Some (set_mBackups (deserializeBackups content) k)
  else if tag =? TAG_WARNINGS then
    m ← deserializeWarnings content; Some (set_mWarnings m k)
  else Some (set_mOther (mOther k ++ header ++ content) k).

(** The loop over [blob], of which [rest] starts at [offset - headerSize]; fewer
    than four bytes at the end are ignored. *)
Fixpoint unserialize_loop (fuel : nat) (k : Keys) (rest : bytes) : option Keys :=
  match fuel with
  | O => None
  | S fuel =>
      match rest with
      | tag :: l2 :: l1 :: l0 :: rest =>
          let len := Z.shiftl l2 16 + Z.shiftl l1 8 + l0 in
          if zlength rest <? len then None
          else
            let content := take (Z.to_nat len) rest in
            k ← unserialize_record k tag [tag; l2; l1; l0] content;
            unserialize_loop fuel k (drop (Z.to_nat len) rest)
      | _ => Some k
      end
  end.

Definition unserialize (k : Keys) (keysContainer : bytes) : option Keys :=
  unserialize_loop (S (length keysContainer)) k keysContainer.


(** ** What is well formed *)

Definition sharekey_ok (e : Z * (bytes * Z)) : Prop :=
  0 <= e.1 < 2 ^ 48 /\ length e.2.1 = KEYLENGTH /\ byte_ok e.2.2.
Definition sharekeys_ok (m : ShareKeys) : Prop := omap_ok m /\ Forall sharekey_ok m.

(** What the reader gives: up to 255 bytes, or a user handle. *)
Definition is_handle (uid : bytes) : Prop := exists uh, 0 <= uh < 2 ^ 64 /\ uid = toHandle uh.
Definition uid_ok (uid : bytes) : Prop := 0 < zlength uid < 256 \/ is_handle uid.
Definition sharees_ok (e : Z * list (bytes * unit)) : Prop :=
  0 <= e.1 < 2 ^ 48 /\ omap_ok e.2 /\ Forall (fun u => uid_ok u.1) e.2.
Definition outshares_ok (m : OutShares) : Prop := omap_ok m /\ Forall sharees_ok m.

(** What the writer does not skip or change. *)
Definition writable_uid (uid : bytes) : Prop := isEmail uid = true \/ is_handle uid.
Definition writable (m : OutShares) : Prop :=
  Forall (fun e => Forall (fun u => writable_uid u.1) e.2) m.

Definition ltlv_ok (e : bytes * bytes) : Prop := zlength e.1 < 256 /\ zlength e.2 < 2 ^ 32.
Definition strings_ok (m : StringMap) : Prop := omap_ok m /\ Forall ltlv_ok m.

Definition inshare_ok (e : bytes * (Z * bytes)) : Prop :=
  zlength e.1 < 256 /\ 0 <= e.2.1 < 2 ^ 64 /\ 8 + zlength e.2.2 < 2 ^ 32.
Definition inshares_ok (m : InShares) : Prop := omap_ok m /\ Forall inshare_ok m.

(** The tags of the switch. *)
Definition known : list Z :=
  [TAG_VERSION; TAG_CREATION_TIME; TAG_IDENTITY; TAG_GENERATION; TAG_ATTR; TAG_PRIV_ED25519;
   TAG_PRIV_CU25519; TAG_PRIV_RSA; TAG_AUTHRING_ED25519; TAG_AUTHRING_CU25519; TAG_SHAREKEYS;
   TAG_PENDING_OUTSHARES; TAG_PENDING_INSHARES; TAG_BACKUPS; TAG_WARNINGS].

Definition fits (b : bytes) : Prop := zlength b < 2 ^ 24.

(** Records with other tags, one after the other. *)
Definition other_ok (o : bytes) : Prop :=
  exists rs : list (Z * bytes),
    o = mjoin ((fun r => record r.1 r.2) <$> rs) /\ Forall (fun r => r.1 ∉ known /\ fits r.2) rs.

Record keys_ok (k : Keys) : Prop := {
  ok_version : byte_ok (mVersion k);
  ok_time : 0 <= mCreationTime k < 2 ^ 32;
  ok_identity : 0 <= mIdentity k < 2 ^ 64;
  ok_generation : 0 <= mGeneration k < 2 ^ 32;
  ok_attr : fits (mAttr k);
  ok_ed25519 : mPrivEd25519 k = [] \/ length (mPrivEd25519 k) = SEED_KEY_LENGTH;
  ok_cu25519 : mPrivCu25519 k = [] \/ length (mPrivCu25519 k) = PRIVATE_KEY_LENGTH;
  ok_rsa : fits (mPrivRSA k);
  ok_auth_ed : fits (mAuthEd25519 k);
  ok_auth_cu : fits (mAuthCu25519 k);
  ok_backups : fits (mBackups k);
  ok_other : other_ok (mOther k);
  ok_sharekeys : sharekeys_ok (mShareKeys k) /\ fits (serializeShareKeys (mShareKeys k));
  ok_outshares : outshares_ok (mPendingOutShares k)
    /\ forall u, fits (serializePendingOutshares u (mPendingOutShares k));
  ok_inshares : inshares_ok (mPendingInShares k)
    /\ fits (serializePendingInshares (mPendingInShares k));
  ok_warnings : strings_ok (mWarnings k) /\ fits (serializeWarnings (mWarnings k))
}.

(** A sharee set may become empty and is not written then. *)
Definition prune (m : OutShares) : OutShares := filter (fun e => e.2 <> []) m.

(** The keys that are read after [k] was written. *)
Definition written (k : Keys) : Keys :=
  set_mPendingOutShares (prune (mPendingOutShares k)) (set_mGeneration (mGeneration k + 1) k).

End Keys.

(** ** Tables *)

Module KeysFacts.
Import Keys.

Lemma check_fixed {A} n (conv : bytes -> A) f x rest k :
  length x = n ->
  check (CacheableReader.read_fixed n conv f (Reader (x ++ rest) k))
  = Some (conv x, Reader rest (u32 (k + 1))).
Proof.
  intros <-. unfold check, CacheableReader.read_fixed, CacheableReader.advance. cbn [ptr fieldnum].
  rewrite (proj2 (Nat.ltb_ge _ _)) by (rewrite length_app; lia). cbn [fst snd].
  by rewrite take_app_length, drop_app_length.
Qed.

Lemma check_inv {A} n (conv : bytes -> A) f r v r' :
  check (CacheableReader.read_fixed n conv f r) = Some (v, r') ->
  exists x, length x = n /\ ptr r = x ++ ptr r' /\ v = conv x.
Proof.
  unfold check, CacheableReader.read_fixed, CacheableReader.advance.
  destruct (_ <? n)%nat eqn:E; cbn [fst snd]; [done|]. apply Nat.ltb_ge in E.
  intros [= <- <-]. exists (take n (ptr r)). cbn [ptr].
  rewrite length_take, take_drop. split_and!; [lia|done..].
Qed.

Section table.
Context {A E : Type} (body : A -> reader -> option (A * reader)) (ins : A -> E -> A).
Context (enc : E -> bytes) (ok : E -> Prop).

Definition entries (es : list E) : bytes := mjoin (enc <$> es).

Hypothesis enc_nonempty : forall e, ok e -> enc e <> [].
Hypothesis body_enc : forall a e rest n, ok e ->
  exists n', body a (Reader (enc e ++ rest) n) = Some (ins a e, Reader rest n').

Lemma read_table_entries es a :
  Forall ok es -> read_table body a (entries es) = Some (foldl ins a es).
Proof using enc_nonempty body_enc.
  unfold read_table, CacheableReader.init. generalize 0 as n.
  generalize (Nat.lt_succ_diag_r (length (entries es))).
  generalize (S (length (entries es))) as fuel.
  intros fuel Hf n Hok. revert a n fuel Hf.
  induction Hok as [|e es He Hes IH]; intros a n [|fuel] Hf; [lia| |lia|].
  - done.
  - cbn [while_data]. change (entries (e :: es)) with (enc e ++ entries es) in *.
    rewrite length_app in Hf. unfold CacheableReader.hasdataleft. cbn [ptr].
    assert (enc e <> []) as Hne by auto. destruct (enc e) as [|b x] eqn:Ee; [done|].
    rewrite bool_decide_eq_true_2 by done. rewrite <- Ee.
    destruct (body_enc a e (entries es) n He) as [n' ->]. simpl in *. apply IH. lia.
Qed.

Hypothesis body_inv : forall a r a' r',
  bytes_ok (ptr r) -> body a r = Some (a', r') ->
  exists e, ok e /\ a' = ins a e /\ (length (enc e) + length (ptr r') <= length (ptr r))%nat
    /\ bytes_ok (ptr r').

Lemma read_table_inv blob a a' :
  bytes_ok blob -> read_table body a blob = Some a' ->
  exists es, Forall ok es /\ a' = foldl ins a es /\ (length (entries es) <= length blob)%nat.
Proof using body_inv.
  unfold read_table. change blob with (ptr (CacheableReader.init blob)) at 1 4.
  generalize (CacheableReader.init blob) as r. generalize (S (length blob)) as fuel.
  intros fuel. revert a. induction fuel as [|fuel IH]; intros a r Hb; [done|].
  cbn [while_data]. destruct (CacheableReader.hasdataleft r).
  - destruct (body a r) as [[a1 r1]|] eqn:E1; simpl; [|done]. intros H.
    destruct (body_inv _ _ _ _ Hb E1) as (e & He & -> & Hl & Hb1).
    destruct (IH _ _ Hb1 H) as (es & Hes & -> & Hl2). exists (e :: es).
    split_and!; [by constructor|done|].
    change (entries (e :: es)) with (enc e ++ entries es). rewrite length_app. lia.
  - intros [= <-]. exists []. simpl. split_and!; [done|done|lia].
Qed.

End table.

Lemma bytes_ok_app_inv (x y : bytes) : bytes_ok (x ++ y) -> bytes_ok x /\ bytes_ok y.
Proof. apply Forall_app. Qed.


Lemma foldl_entries {E} (write : bytes -> E -> bytes) (enc : E -> bytes) w es :
  (forall w e, write w e = w ++ enc e) -> foldl write w es = w ++ entries enc es.
Proof.
  intros Hw. revert w. induction es as [|e es IH]; intros w; simpl; [by rewrite app_nil_r|].
  rewrite IH, Hw. unfold entries. cbn [fmap list_fmap]. by rewrite mjoin_cons, app_assoc.
Qed.

Section inserts.
Context {K V : Type} `{StrictOrd K}.
Implicit Types (m : list (K * V)).

Lemma omap_insert_Forall (P : K * V -> Prop) k v m :
  P (k, v) -> Forall P m -> Forall P (omap_insert k v m).
Proof.
  intros Hv. induction 1 as [|[k1 v1] m H1 Hm IH]; simpl; [by constructor|].
  repeat case_if; repeat constructor; auto.
Qed.

Lemma insert_size (f : K * V -> bytes) k v m :
  (length (entries f (omap_insert k v m)) <= length (f (k, v)) + length (entries f m))%nat.
Proof.
  unfold entries. induction m as [|[k1 v1] m IH]; cbn [omap_insert].
  { simpl. rewrite app_nil_r. lia. }
  repeat case_if; rewrite ?fmap_cons, ?mjoin_cons, ?length_app in *; lia.
Qed.

(** A table read into a map: well formed, and not longer than what was read. *)
Lemma inserts_ok (P : K * V -> Prop) (f : K * V -> bytes) es m :
  Forall P es -> omap_ok m -> Forall P m ->
  let m' := foldl (fun m e => omap_insert e.1 e.2 m) m es in
  omap_ok m' /\ Forall P m' /\ (length (entries f m') <= length (entries f m) + length (entries f es))%nat.
Proof.
  intros Hes. revert m. induction Hes as [|[k v] es He Hes IH]; intros m Hm HP; simpl.
  { split_and!; [done|done|unfold entries; simpl; lia]. }
  destruct (IH (omap_insert k v m)) as (H1 & H2 & H3);
    [by apply insert_ok|by apply omap_insert_Forall|].
  split_and!; [done|done|]. pose proof (insert_size f k v m). unfold entries in *.
  rewrite fmap_cons, mjoin_cons, length_app. lia.
Qed.
(** Keys below [k], to which [k] is appended. *)
Definition above k m : Prop := Forall (fun e => kltb e.1 k = true) m.

Lemma omap_find_cons k k1 v1 m :
  omap_find k ((k1, v1) :: m)
  = if kltb k k1 then None else if kltb k1 k then omap_find k m else Some v1.
Proof. done. Qed.

Lemma find_above k m : above k m -> omap_find k m = None.
Proof.
  induction 1 as [|[k1 v1] m Hk Hm IH]; [done|]. cbn [fst] in Hk.
  by rewrite omap_find_cons, (kltb_asym _ _ Hk), Hk.
Qed.

Lemma find_last k v m : above k m -> omap_find k (m ++ [(k, v)]) = Some v.
Proof.
  induction 1 as [|[k1 v1] m Hk Hm IH]; cbn [fst app] in *; rewrite omap_find_cons.
  - by rewrite kltb_irrefl.
  - by rewrite (kltb_asym _ _ Hk), Hk.
Qed.

Lemma insert_above k v v' m : above k m -> omap_insert k v' (m ++ [(k, v)]) = m ++ [(k, v')].
Proof.
  intros Hm. rewrite <- (insert_last k v m) by done. rewrite insert_insert. by apply insert_last.
Qed.

(** The keys before the last part of a sorted map. *)
Lemma app_above m1 k v m : omap_ok (m1 ++ (k, v) :: m) -> above k m1 /\ omap_ok (m1 ++ m).
Proof.
  induction m1 as [|[k1 v1] m1 IH]; simpl; intros Hm; [destruct Hm; by split; [constructor|]|].
  destruct Hm as [Hb Hm]. destruct (IH Hm) as [H1 H2].
  apply Forall_app in Hb as [Hb1 Hb2]. apply Forall_cons in Hb2 as [Hk Hb2]. cbn [fst] in Hk.
  split; [by constructor|split; [|done]]. by apply Forall_app.
Qed.

End inserts.

(** *** Share keys *)

Definition sharekey_bytes (e : Z * (bytes * Z)) : bytes :=
  le_bytes 6 e.1 ++ e.2.1 ++ le_bytes 1 e.2.2.

Lemma serializeShareKeys_entries m : serializeShareKeys m = entries sharekey_bytes m.
Proof.
  unfold serializeShareKeys. rewrite (foldl_entries _ sharekey_bytes); [done|]. intros w e.
  unfold write_sharekey, sharekey_bytes, CacheableWriter.serializenodehandle,
    CacheableWriter.serializebinary, CacheableWriter.serializebyte. by rewrite <- !app_assoc.
Qed.

Lemma le_value_mod n z : 0 <= z < 256 ^ Z.of_nat n -> le_value (le_bytes n z) = z.
Proof. intros. rewrite le_value_bytes. by apply Z.mod_small. Qed.

Lemma read_sharekey_enc m e rest n :
  sharekey_ok e ->
  exists n', read_sharekey m (Reader (sharekey_bytes e ++ rest) n)
    = Some (omap_insert e.1 e.2 m, Reader rest n').
Proof.
  destruct e as [h [key flags]]. intros (Hh & Hk & Hf). cbn [fst snd] in *. eexists.
  unfold read_sharekey, sharekey_bytes, CacheableReader.unserializenodehandle,
    CacheableReader.unserializebinary, CacheableReader.unserializebyte.
  cbn [fst snd]. rewrite <- !app_assoc, check_fixed by apply length_le_bytes. cbn [mbind option_bind].
  rewrite check_fixed by done. cbn [mbind option_bind]. rewrite check_fixed by done.
  cbn [mbind option_bind]. by rewrite !le_value_mod by done.
Qed.

Lemma read_sharekey_inv m r m' r' :
  bytes_ok (ptr r) -> read_sharekey m r = Some (m', r') ->
  exists e, sharekey_ok e /\ m' = omap_insert e.1 e.2 m
    /\ (length (sharekey_bytes e) + length (ptr r') <= length (ptr r))%nat /\ bytes_ok (ptr r').
Proof.
  intros Hb. unfold read_sharekey, CacheableReader.unserializenodehandle,
    CacheableReader.unserializebinary, CacheableReader.unserializebyte.
  intros ([h r1] & (x & Hx & Px & ->)%check_inv & H)%bind_Some.
  apply bind_Some in H as ([key r2] & (y & Hy & Py & ->)%check_inv & H).
  apply bind_Some in H as ([flags r3] & (z & Hz & Pz & ->)%check_inv & [= <- <-]).
  rewrite Px in Hb. apply bytes_ok_app_inv in Hb as [Hbx Hb].
  rewrite Py in Hb. apply bytes_ok_app_inv in Hb as [Hby Hb].
  rewrite Pz in Hb. apply bytes_ok_app_inv in Hb as [Hbz Hb].
  exists (le_value x, (id y, le_value z)). pose proof (le_value_range x Hbx) as Rx.
  pose proof (le_value_range z Hbz) as Rz. rewrite Hx in Rx. rewrite Hz in Rz.
  change (256 ^ Z.of_nat 6) with (2 ^ 48) in Rx. change (256 ^ Z.of_nat 1) with 256 in Rz.
  unfold sharekey_ok, byte_ok. cbn [fst snd]. split_and!; [lia|lia|done|lia|lia|done| |done].
  unfold sharekey_bytes. cbn [fst snd]. rewrite Px, Py, Pz, !length_app, !length_le_bytes.
  unfold id. lia.
Qed.

Lemma sharekey_bytes_nonempty e : sharekey_ok e -> sharekey_bytes e <> [].
Proof. done. Qed.

Lemma sharekeys_roundtrip m : sharekeys_ok m -> deserializeShareKeys (serializeShareKeys m) = Some m.
Proof.
  intros [Hm Hok]. rewrite serializeShareKeys_entries. unfold deserializeShareKeys.
  rewrite (read_table_entries _ _ _ _ sharekey_bytes_nonempty read_sharekey_enc) by done.
  by rewrite (rebuild [] m).
Qed.

Lemma sharekeys_read blob m :
  bytes_ok blob -> deserializeShareKeys blob = Some m ->
  sharekeys_ok m /\ (length (serializeShareKeys m) <= length blob)%nat.
Proof.
  intros Hb (es & Hes & -> & Hl)%(read_table_inv _ _ _ _ read_sharekey_inv); [|done].
  rewrite serializeShareKeys_entries.
  destruct (inserts_ok sharekey_ok sharekey_bytes es [] Hes) as (H1 & H2 & H3); [done|constructor|].
  split; [done|]. unfold entries in *. simpl in *. lia.
Qed.


(** *** Tags and values *)

Lemma length_rev_le_bytes n x : length (rev (le_bytes n x)) = n.
Proof. by rewrite length_rev, length_le_bytes. Qed.

Lemma byte_swap_range n x : 0 <= byte_swap n x < 256 ^ Z.of_nat n.
Proof.
  pose proof (le_value_range (rev (le_bytes n x))) as R. rewrite length_rev_le_bytes in R.
  apply R, Forall_rev, le_bytes_ok.
Qed.

Lemma byte_swap_swap n x : 0 <= x < 256 ^ Z.of_nat n -> byte_swap n (byte_swap n x) = x.
Proof.
  intros Hx. unfold byte_swap at 1. unfold byte_swap.
  rewrite <- (length_rev_le_bytes n x) at 1.
  rewrite le_bytes_value, rev_involutive by apply Forall_rev, le_bytes_ok.
  by apply le_value_mod.
Qed.

Definition ltlv_bytes (e : bytes * bytes) : bytes :=
  le_bytes 1 (u8 (zlength e.1)) ++ e.1
  ++ (if zlength e.2 <? 65535 then le_bytes 2 (byte_swap 2 (u16 (zlength e.2)))
      else le_bytes 2 65535 ++ le_bytes 4 (byte_swap 4 (u32 (zlength e.2)))) ++ e.2.

Lemma serializeToLTLV_entries m : serializeToLTLV m = entries ltlv_bytes m.
Proof.
  unfold serializeToLTLV. rewrite (foldl_entries _ ltlv_bytes); [done|]. intros w e.
  unfold write_ltlv, ltlv_bytes, CacheableWriter.serializeu16, CacheableWriter.serializeu32,
    CacheableWriter.serializebinary, CacheableWriter.serializebyte.
  case_if; by rewrite <- !app_assoc.
Qed.

Lemma read_fixed_app {A} n (conv : bytes -> A) f x rest k :
  length x = n ->
  CacheableReader.read_fixed n conv f (Reader (x ++ rest) k) = (true, conv x, Reader rest (u32 (k + 1))).
Proof.
  intros <-. unfold CacheableReader.read_fixed, CacheableReader.advance. cbn [ptr fieldnum].
  rewrite (proj2 (Nat.ltb_ge _ _)) by (rewrite length_app; lia).
  by rewrite take_app_length, drop_app_length.
Qed.

Lemma read_fixed_inv {A} n (conv : bytes -> A) f r v r' :
  CacheableReader.read_fixed n conv f r = (true, v, r') ->
  exists x, length x = n /\ ptr r = x ++ ptr r' /\ v = conv x.
Proof. intros E. apply (check_inv n conv f). unfold check. by rewrite E. Qed.

Lemma read_ltlv_enc m e rest n :
  ltlv_ok e ->
  exists n', read_ltlv m (Reader (ltlv_bytes e ++ rest) n)
    = Some (omap_insert e.1 e.2 m, Reader rest n').
Proof.
  destruct e as [tag value]. intros (Ht & Hv). cbn [fst snd] in *.
  unfold read_ltlv, ltlv_bytes, CacheableReader.unserializebinary, CacheableReader.unserializebyte,
    CacheableReader.unserializeu16, CacheableReader.unserializeu32.
  cbn [fst snd]. rewrite <- !app_assoc, check_fixed by done. cbn [mbind option_bind].
  rewrite wrapu_id, le_value_mod, check_fixed by (simpl; lia). cbn [mbind option_bind].
  destruct (zlength value <? 65535) eqn:E; zbool.
  - rewrite read_fixed_app by done. rewrite wrapu_id by lia.
    rewrite le_value_mod by apply byte_swap_range. rewrite byte_swap_swap by (simpl; lia).
    rewrite (proj2 (Z.eqb_neq _ _)) by lia. rewrite check_fixed by lia. by eexists.
  - rewrite <- app_assoc, read_fixed_app by done.
    change (byte_swap 2 (le_value (le_bytes 2 65535)) =? 65535) with true. cbn iota.
    rewrite read_fixed_app by done. rewrite (wrapu_id 32 (zlength value)) by lia.
    rewrite le_value_mod by apply byte_swap_range. rewrite byte_swap_swap by (simpl; lia).
    rewrite check_fixed by lia. by eexists.
Qed.

Lemma byte_value x : bytes_ok x -> length x = 1%nat -> 0 <= le_value x < 256.
Proof. intros H L. pose proof (le_value_range x H) as R. by rewrite L in R. Qed.

Lemma read_ltlv_inv m r m' r' :
  bytes_ok (ptr r) -> read_ltlv m r = Some (m', r') ->
  exists e, (ltlv_ok e /\ bytes_ok e.2) /\ m' = omap_insert e.1 e.2 m
    /\ (length (ltlv_bytes e) + length (ptr r') <= length (ptr r))%nat /\ bytes_ok (ptr r').
Proof.
  intros Hb. unfold read_ltlv, CacheableReader.unserializebinary, CacheableReader.unserializebyte,
    CacheableReader.unserializeu16, CacheableReader.unserializeu32.
  intros ([len r1] & (x & Hx & Px & ->)%check_inv & H)%bind_Some.
  apply bind_Some in H as ([tag r2] & (t & Hy & Py & ->)%check_inv & H).
  rewrite Px in Hb. apply bytes_ok_app_inv in Hb as [Hbx Hb].
  rewrite Py in Hb. apply bytes_ok_app_inv in Hb as [_ Hb].
  pose proof (byte_value x Hbx Hx) as Rx.
  destruct (CacheableReader.read_fixed 2 le_value 0 r2) as [[ok16 l16] r3] eqn:E16.
  pose proof (byte_swap_range 2 l16) as R16. change (256 ^ Z.of_nat 2) with 65536 in R16.
  set (v16 := byte_swap 2 l16) in *.
  assert (forall k v, zlength k = le_value x -> zlength v < 2 ^ 32 ->
    length (ltlv_bytes (k, v)) = (1 + length k + (if (zlength v <? 65535)%Z then 2 else 6) + length v)%nat) as L.
  { intros k v _ _. unfold ltlv_bytes. cbn [fst snd]. rewrite !length_app, length_le_bytes.
    case_if; rewrite ?length_app, ?length_le_bytes; lia. }
  destruct (v16 =? 65535) eqn:E.
  - destruct (CacheableReader.read_fixed 4 le_value 0 r3) as [[ok32 l32] r4] eqn:E32.
    destruct ok32; [|done]. apply bind_Some in H as ([value r5] & (v & Hv & Pv & ->)%check_inv & [= <- <-]).
    apply read_fixed_inv in E32 as (y32 & Hy32 & P32 & _).
    assert (ok16 = true) as ->.
    { unfold CacheableReader.read_fixed in E16. case_match; [|congruence].
      assert (l16 = 0) as -> by congruence. done. }
    apply read_fixed_inv in E16 as (y16 & Hy16 & P16 & _).
    rewrite P16 in Hb. apply bytes_ok_app_inv in Hb as [_ Hb].
    rewrite P32 in Hb. apply bytes_ok_app_inv in Hb as [_ Hb].
    rewrite Pv in Hb. apply bytes_ok_app_inv in Hb as [Hbv Hb].
    pose proof (byte_swap_range 4 l32) as R32. change (256 ^ Z.of_nat 4) with (2 ^ 32) in R32.
    exists (id t, id v). unfold id. assert (zlength v < 2 ^ 32) by lia.
    split_and!; [split; cbn; lia|done..| |done].
    rewrite L by lia. rewrite Px, Py, P16, P32, Pv, !length_app. case_if; lia.
  - destruct ok16; [|done]. apply bind_Some in H as ([value r5] & (v & Hv & Pv & ->)%check_inv & [= <- <-]).
    apply read_fixed_inv in E16 as (y16 & Hy16 & P16 & _).
    rewrite P16 in Hb. apply bytes_ok_app_inv in Hb as [_ Hb].
    rewrite Pv in Hb. apply bytes_ok_app_inv in Hb as [Hbv Hb]. zbool.
    exists (id t, id v). unfold id. assert (zlength v < 65535) by lia.
    split_and!; [split; cbn; lia|done..| |done].
    rewrite L by lia. rewrite Px, Py, P16, Pv, !length_app. case_if; lia.
Qed.

Lemma ltlv_roundtrip m :
  strings_ok m -> deserializeFromLTLV (serializeToLTLV m) [] = Some m.
Proof.
  intros [Hm Hok]. rewrite serializeToLTLV_entries. unfold deserializeFromLTLV.
  rewrite (read_table_entries _ (fun m e => omap_insert e.1 e.2 m) ltlv_bytes ltlv_ok);
    [|done|apply read_ltlv_enc|done].
  by rewrite (rebuild [] m).
Qed.

Lemma ltlv_read blob m :
  bytes_ok blob -> deserializeFromLTLV blob [] = Some m ->
  strings_ok m /\ Forall (fun e => bytes_ok e.2) m
  /\ (length (serializeToLTLV m) <= length blob)%nat.
Proof.
  intros Hb (es & Hes & -> & Hl)%(read_table_inv _ _ _ _ read_ltlv_inv); [|done].
  rewrite serializeToLTLV_entries.
  destruct (inserts_ok (fun e => ltlv_ok e /\ bytes_ok e.2) ltlv_bytes es [] Hes) as (H1 & H2 & H3);
    [done|constructor|].
  apply Forall_and in H2 as [H2 H2']. do 2 (split; [done|]). unfold entries in *. simpl in *. lia.
Qed.


(** *** Pending in-shares *)

Definition values (m : InShares) : StringMap := (fun e => (e.1, inshare_value e.2)) <$> m.

Lemma omap_ok_map {K V W} `{StrictOrd K} (f : V -> W) (m : list (K * V)) :
  omap_ok m <-> omap_ok ((fun e => (e.1, f e.2)) <$> m).
Proof.
  induction m as [|[k v] m IH]; [done|]. cbn [fmap list_fmap omap_ok fst snd]. rewrite <- IH.
  unfold below. by rewrite Forall_fmap.
Qed.

Lemma serializePendingInshares_values m :
  omap_ok m -> serializePendingInshares m = serializeToLTLV (values m).
Proof.
  intros Hm. unfold serializePendingInshares. f_equal.
  transitivity (foldl (fun m e => omap_insert e.1 e.2 m) [] (values m)).
  - unfold values. generalize (@nil (bytes * bytes)) as acc. clear Hm.
    induction m as [|e m IH]; intros acc; simpl; [done|]. apply IH.
  - apply (rebuild []). by apply omap_ok_map.
Qed.

Lemma read_inshare_value v : 0 <= v.1 < 2 ^ 64 -> read_inshare (inshare_value v) = Some v.
Proof.
  destruct v as [uh key]. intros Hv. unfold read_inshare, inshare_value, CacheableWriter.serializebinary,
    CacheableWriter.serializehandle, CacheableReader.init, CacheableReader.unserializehandle,
    CacheableReader.unserializebinary. cbn [fst snd] in *. rewrite app_nil_l.
  rewrite length_app, length_le_bytes, (proj2 (Z.ltb_ge _ _)) by lia.
  rewrite check_fixed by done. cbn [mbind option_bind]. rewrite <- (app_nil_r key) at 2.
  rewrite check_fixed by lia. cbn [mbind option_bind]. by rewrite le_value_mod by done.
Qed.

Lemma read_inshare_inv value v :
  bytes_ok value -> read_inshare value = Some v -> 0 <= v.1 < 2 ^ 64 /\ inshare_value v = value.
Proof.
  intros Hb. unfold read_inshare, CacheableReader.init, CacheableReader.unserializehandle,
    CacheableReader.unserializebinary. case_if; [done|].
  intros ([uh r1] & (x & Hx & Px & ->)%check_inv & H)%bind_Some.
  apply bind_Some in H as ([key r2] & (y & Hy & Py & ->)%check_inv & [= <-]).
  cbn [ptr] in Px. rewrite Px in *. apply bytes_ok_app_inv in Hb as [Hbx _].
  pose proof (le_value_range x Hbx) as R. rewrite Hx in R. split; [exact R|].
  unfold inshare_value, CacheableWriter.serializebinary, CacheableWriter.serializehandle, id.
  cbn [fst snd]. rewrite app_nil_l, <- Hx, le_bytes_value by done. f_equal.
  rewrite Py. assert (ptr r2 = []) as ->; [|by rewrite app_nil_r].
  apply nil_length_inv. rewrite Py, !length_app in Hy. lia.
Qed.

Lemma read_inshares_values es m :
  Forall inshare_ok es ->
  read_inshares (values es) m = Some (foldl (fun m e => omap_insert e.1 e.2 m) m es).
Proof.
  intros Hes. revert m. induction Hes as [|[k v] es (_ & Hv & _) Hes IH]; intros m; [done|].
  unfold values. rewrite fmap_cons. cbn [read_inshares fst snd].
  rewrite read_inshare_value by done. apply IH.
Qed.

Lemma read_inshares_inv decoded m m' :
  Forall (fun e => ltlv_ok e /\ bytes_ok e.2) decoded -> read_inshares decoded m = Some m' ->
  exists es, Forall inshare_ok es /\ values es = decoded
    /\ m' = foldl (fun m e => omap_insert e.1 e.2 m) m es.
Proof.
  intros Hd. revert m. induction Hd as [|[k value] decoded [[Hk Hl] Hb] Hd IH]; intros m.
  { intros [= <-]. by exists []. }
  cbn [read_inshares]. intros (v & [Hv Ev]%read_inshare_inv & H)%bind_Some; [|done].
  destruct (IH _ H) as (es & Hes & <- & ->). exists ((k, v) :: es). split_and!.
  - constructor; [|done]. unfold inshare_ok. cbn [fst snd] in *. split_and!; [done|lia|lia|].
    rewrite <- Ev in Hl. unfold inshare_value, CacheableWriter.serializebinary,
      CacheableWriter.serializehandle in Hl. rewrite app_nil_l, length_app, length_le_bytes in Hl. lia.
  - unfold values. rewrite fmap_cons. cbn [fst snd]. by rewrite Ev.
  - done.
Qed.

Lemma inshares_roundtrip m :
  inshares_ok m -> deserializePendingInshares (serializePendingInshares m) = Some m.
Proof.
  intros [Hm Hok]. rewrite serializePendingInshares_values by done.
  unfold deserializePendingInshares. rewrite ltlv_roundtrip.
  - cbn [mbind option_bind]. rewrite read_inshares_values by done. by rewrite (rebuild [] m).
  - split; [by apply omap_ok_map|]. apply Forall_fmap. eapply Forall_impl; [exact Hok|].
    intros [k v] (H1 & _ & H3). split; [done|]. unfold inshare_value, CacheableWriter.serializebinary,
      CacheableWriter.serializehandle. cbn [fst snd compose] in *.
    rewrite app_nil_l, length_app, length_le_bytes. lia.
Qed.

Lemma inshares_read blob m :
  bytes_ok blob -> deserializePendingInshares blob = Some m ->
  inshares_ok m /\ (length (serializePendingInshares m) <= length blob)%nat.
Proof.
  intros Hb (decoded & Hd0 & H)%bind_Some.
  destruct (ltlv_read _ _ Hb Hd0) as ([Hd Hs] & Hv & Hl).
  assert (Forall (fun e => ltlv_ok e /\ bytes_ok e.2) decoded) as Hdv by (by apply Forall_and).
  destruct (read_inshares_inv _ _ _ Hdv H) as (es & Hes & Ev & ->).
  assert (omap_ok es) as Hok by (rewrite <- Ev in Hd; by apply omap_ok_map in Hd).
  rewrite (rebuild [] es) by done. split; [done|].
  simpl app. by rewrite serializePendingInshares_values, Ev.
Qed.

(** *** Pending out-shares *)

Definition outshares_flat (m : OutShares) : list (Z * bytes) :=
  mjoin ((fun e => (fun u => (e.1, u.1)) <$> e.2) <$> m).

Definition add_sharee (m : OutShares) (e : Z * bytes) : OutShares :=
  omap_insert e.1 (omap_insert e.2 tt (default [] (omap_find e.1 m))) m.

Definition outshare_bytes (uninit : bytes) (e : Z * bytes) : bytes :=
  write_outshare uninit e.1 [] (e.2, tt).

Lemma write_outshare_app uninit h w u :
  write_outshare uninit h w u = w ++ outshare_bytes uninit (h, u.1).
Proof.
  destruct u as [uid []]. unfold outshare_bytes, write_outshare, CacheableWriter.serializebinary,
    CacheableWriter.serializebyte, CacheableWriter.serializehandle, CacheableWriter.serializenodehandle.
  cbn [fst snd]. repeat (case_match; [by rewrite ?app_nil_r, ?app_nil_l, <- ?app_assoc|]).
  by rewrite ?app_nil_r, ?app_nil_l, <- ?app_assoc.
Qed.

Lemma serializePendingOutshares_entries uninit m :
  serializePendingOutshares uninit m = entries (outshare_bytes uninit) (outshares_flat m).
Proof.
  unfold serializePendingOutshares, outshares_flat.
  rewrite (foldl_entries _ (fun e => entries (outshare_bytes uninit) ((fun u => (e.1, u.1)) <$> e.2))).
  - rewrite app_nil_l. unfold entries. induction m as [|e m IH]; [done|].
    rewrite !fmap_cons, !mjoin_cons, IH, fmap_app. by rewrite join_app.
  - intros w e. rewrite (foldl_entries _ (fun u => outshare_bytes uninit (e.1, u.1)))
      by (intros; apply write_outshare_app).
    f_equal. unfold entries. by rewrite <- list_fmap_compose.
Qed.

Lemma to64_not_at c : Base64.to64 c <> chr "@".
Proof.
  unfold Base64.to64. pose proof (Z.land_ones c 6). change (Z.ones 6) with 63 in *.
  rewrite H by lia. pose proof (Z.mod_pos_bound c (2 ^ 6)). case_ifs; lia.
Qed.

Lemma toHandle_not_email uh : isEmail (toHandle uh) = false.
Proof.
  unfold isEmail, toHandle. apply bool_decide_eq_false_2.
  generalize (length_le_bytes 8 uh). generalize (le_bytes 8 uh) as b. intros b Hb.
  do 8 (destruct b as [|? b]; [done|]). destruct b; [|done]. cbn [Base64.btoa].
  repeat (intros [E|H]%elem_of_cons; [by eapply to64_not_at|revert H]). apply not_elem_of_nil.
Qed.

Lemma length_toHandle uh : zlength (toHandle uh) = 11.
Proof. unfold toHandle. by rewrite Base64.length_btoa, length_le_bytes. Qed.

Lemma atob_toHandle uh : 0 <= uh < 2 ^ 64 -> Base64.atob (toHandle uh) 8 = Some (le_bytes 8 uh).
Proof.
  intros. unfold toHandle. rewrite <- (app_nil_r (Base64.btoa _)).
  apply Base64.atob_btoa_app; [apply le_bytes_ok|done|by rewrite length_le_bytes].
Qed.


Definition outshare_ok (e : Z * bytes) : Prop := 0 <= e.1 < 2 ^ 48 /\ uid_ok e.2.

Lemma uid_email_bounds uid : uid_ok uid -> isEmail uid = true -> 0 < zlength uid < 256.
Proof. intros [?|(uh & _ & ->)]; [done|by rewrite toHandle_not_email]. Qed.

Lemma outshare_bytes_email uninit h uid :
  uid_ok uid -> isEmail uid = true ->
  outshare_bytes uninit (h, uid) = le_bytes 1 (zlength uid) ++ le_bytes 6 h ++ uid.
Proof.
  intros Hok Hm. pose proof (uid_email_bounds uid Hok Hm) as R.
  unfold outshare_bytes, write_outshare. cbn [fst snd]. rewrite Hm. cbn [andb negb].
  rewrite (proj2 (Z.leb_gt _ _)), wrapu_id, (proj2 (Z.ltb_lt _ _)) by lia.
  unfold CacheableWriter.serializebinary, CacheableWriter.serializenodehandle, CacheableWriter.serializebyte.
  by rewrite app_nil_l, <- app_assoc.
Qed.

Lemma outshare_bytes_handle uninit h uh :
  0 <= uh < 2 ^ 64 ->
  outshare_bytes uninit (h, toHandle uh) = le_bytes 1 0 ++ le_bytes 6 h ++ le_bytes 8 uh.
Proof.
  intros Hu. unfold outshare_bytes, write_outshare. cbn [fst snd].
  rewrite toHandle_not_email, length_toHandle, atob_toHandle by done. cbn [andb negb Z.eqb Pos.eqb Z.ltb Z.compare].
  change (default [] (Some (le_bytes 8 uh))) with (le_bytes 8 uh).
  rewrite take_app_exact, le_value_mod by done.
  unfold CacheableWriter.serializehandle, CacheableWriter.serializenodehandle, CacheableWriter.serializebyte.
  by rewrite app_nil_l, <- app_assoc.
Qed.

Lemma outshare_bytes_other uninit h uid :
  isEmail uid = false -> zlength uid <> 11 -> outshare_bytes uninit (h, uid) = [].
Proof.
  intros Hm Hl. unfold outshare_bytes, write_outshare. cbn [fst snd]. rewrite Hm. cbn [andb negb].
  by rewrite (proj2 (Z.eqb_neq _ _)).
Qed.

Lemma length_outshare_bytes uninit h uid :
  uid_ok uid -> (length (outshare_bytes uninit (h, uid)) <= 7 + length uid)%nat.
Proof.
  intros Hok. destruct (isEmail uid) eqn:Hm.
  - rewrite outshare_bytes_email by done. rewrite !length_app, !length_le_bytes. lia.
  - destruct (decide (zlength uid = 11)); [|rewrite outshare_bytes_other by done; simpl; lia].
    unfold outshare_bytes, write_outshare. cbn [fst snd]. rewrite Hm. cbn [andb negb].
    rewrite (proj2 (Z.eqb_eq _ _)) by done. cbn [negb Z.ltb Z.compare].
    unfold CacheableWriter.serializehandle, CacheableWriter.serializenodehandle,
      CacheableWriter.serializebyte. rewrite app_nil_l, !length_app, !length_le_bytes. lia.
Qed.

Lemma read_outshare_enc uninit m e rest n :
  outshare_ok e /\ writable_uid e.2 ->
  exists n', read_outshare m (Reader (outshare_bytes uninit e ++ rest) n)
    = Some (add_sharee m e, Reader rest n').
Proof.
  destruct e as [h uid]. intros ((Hh & Hok) & Hw). cbn [fst snd] in *.
  unfold read_outshare, CacheableReader.unserializebinary, CacheableReader.unserializebyte,
    CacheableReader.unserializehandle, CacheableReader.unserializenodehandle.
  destruct Hw as [Hm|(uh & Hu & ->)].
  - pose proof (uid_email_bounds uid Hok Hm) as R.
    rewrite outshare_bytes_email by done. rewrite <- !app_assoc, check_fixed by done.
    cbn [mbind option_bind]. rewrite check_fixed by done. cbn [mbind option_bind].
    rewrite !le_value_mod by (simpl; lia). rewrite (proj2 (Z.eqb_neq _ _)) by lia.
    rewrite check_fixed by lia. by eexists.
  - rewrite outshare_bytes_handle by done. rewrite <- !app_assoc, check_fixed by done.
    cbn [mbind option_bind]. rewrite check_fixed by done. cbn [mbind option_bind].
    rewrite !le_value_mod by (simpl; lia). cbn [Z.eqb].
    rewrite check_fixed by done. cbn [mbind option_bind]. rewrite le_value_mod by done. by eexists.
Qed.

Lemma read_outshare_inv uninit m r m' r' :
  bytes_ok (ptr r) -> read_outshare m r = Some (m', r') ->
  exists e, outshare_ok e /\ m' = add_sharee m e
    /\ (length (outshare_bytes uninit e) + length (ptr r') <= length (ptr r))%nat
    /\ bytes_ok (ptr r').
Proof.
  intros Hb. unfold read_outshare, CacheableReader.unserializebinary, CacheableReader.unserializebyte,
    CacheableReader.unserializehandle, CacheableReader.unserializenodehandle.
  intros ([len r1] & (x & Hx & Px & ->)%check_inv & H)%bind_Some.
  apply bind_Some in H as ([h r2] & (y & Hy & Py & ->)%check_inv & H).
  rewrite Px in Hb. apply bytes_ok_app_inv in Hb as [Hbx Hb].
  rewrite Py in Hb. apply bytes_ok_app_inv in Hb as [Hby Hb].
  pose proof (byte_value x Hbx Hx) as Rx. pose proof (le_value_range y Hby) as Ry. rewrite Hy in Ry.
  apply bind_Some in H as ([uid r3] & Hu & [= <- <-]).
  assert (uid_ok uid /\ (length (outshare_bytes uninit (le_value y, uid)) + length (ptr r3) <= 7 + length (ptr r2))%nat
    /\ bytes_ok (ptr r3)) as (H1 & H2 & H3).
  { destruct (le_value x =? 0) eqn:E; zbool.
    - apply bind_Some in Hu as ([uh r4] & (z & Hz & Pz & ->)%check_inv & [= <- <-]).
      rewrite Pz in Hb. apply bytes_ok_app_inv in Hb as [Hbz Hb].
      pose proof (le_value_range z Hbz) as Rz. rewrite Hz in Rz.
      assert (is_handle (toHandle (le_value z))) as D by by eexists.
      split_and!; [by right| |done].
      rewrite outshare_bytes_handle by done. rewrite Pz, !length_app, !length_le_bytes. lia.
    - apply check_inv in Hu as (z & Hz & Pz & ->). rewrite Pz in Hb. apply bytes_ok_app_inv in Hb as [_ Hb].
      unfold id. assert (uid_ok z) as Hok by (left; lia). split_and!; [done| |done].
      pose proof (length_outshare_bytes uninit (le_value y) z Hok) as L. rewrite Pz, length_app. lia. }
  exists (le_value y, uid). split_and!; [split; [exact Ry|done]|done| |done].
  rewrite Px, Py, !length_app. lia.
Qed.


Lemma add_sharees m h us s :
  above h m -> omap_ok (s ++ us) ->
  foldl add_sharee (if bool_decide (s = []) then m else m ++ [(h, s)]) ((fun u => (h, u.1)) <$> us)
  = if bool_decide (s ++ us = []) then m else m ++ [(h, s ++ us)].
Proof.
  intros Hm. revert s. induction us as [|[uid []] us IH]; intros s Hs.
  { by rewrite !app_nil_r. }
  rewrite fmap_cons. cbn [foldl].
  assert (add_sharee (if bool_decide (s = []) then m else m ++ [(h, s)]) (h, uid)
    = m ++ [(h, s ++ [(uid, tt)])]) as E.
  { assert (omap_insert uid tt s = s ++ [(uid, tt)]) as Ei.
    { apply insert_last. by apply app_above in Hs as [? _]. }
    unfold add_sharee. cbn [fst snd]. case_bool_decide as D.
    - subst s. rewrite find_above by done. cbn [default]. by apply insert_last.
    - rewrite find_last by done. change (default [] (Some s)) with s. rewrite Ei. by apply insert_above. }
  cbn [fst]. rewrite E. specialize (IH (s ++ [(uid, tt)])). rewrite <- app_assoc in IH. cbn [app] in IH.
  rewrite bool_decide_eq_false_2 in IH by (by intros ?%app_eq_nil%proj2). by apply IH.
Qed.

Lemma add_outshares m1 m :
  omap_ok (m1 ++ m) -> Forall (fun e => omap_ok e.2) m ->
  foldl add_sharee m1 (outshares_flat m) = m1 ++ prune m.
Proof.
  intros Hm Hs. revert m1 Hm. induction Hs as [|[h s] m Hs Hms IH]; intros m1 Hm.
  { by rewrite app_nil_r. }
  unfold outshares_flat. rewrite fmap_cons, mjoin_cons, foldl_app. cbn [fst snd] in *.
  destruct (app_above _ _ _ _ Hm) as [Ha Hm'].
  pose proof (add_sharees m1 h s [] Ha Hs) as E. rewrite bool_decide_eq_true_2 in E by done.
  cbn [app] in E. rewrite E. unfold prune. rewrite filter_cons. cbn [snd].
  fold (prune m) (outshares_flat m). case_bool_decide as D.
  - rewrite decide_False by congruence. by apply IH.
  - rewrite decide_True by done. rewrite IH by by rewrite <- app_assoc. by rewrite <- app_assoc.
Qed.

Lemma outshares_flat_Forall (P : Z -> bytes -> Prop) m :
  Forall (fun e => Forall (fun u => P e.1 u.1) e.2) m ->
  Forall (fun e => P e.1 e.2) (outshares_flat m).
Proof.
  induction 1 as [|e m He Hm IH]; [constructor|]. unfold outshares_flat.
  rewrite fmap_cons, mjoin_cons. apply Forall_app; split; [|done]. by apply Forall_fmap.
Qed.

Lemma outshares_roundtrip uninit m :
  outshares_ok m -> writable m ->
  deserializePendingOutshares (serializePendingOutshares uninit m) = Some (prune m).
Proof.
  intros [Hm Hok] Hw. rewrite serializePendingOutshares_entries. unfold deserializePendingOutshares.
  rewrite (read_table_entries _ add_sharee _ (fun e => outshare_ok e /\ writable_uid e.2)).
  - rewrite (add_outshares []); [done|done|]. eapply Forall_impl; [exact Hok|]. by intros e (_ & ? & _).
  - intros [h uid] [[_ Hu] [Hm'|(uh & Huh & E)]]; cbn [fst snd] in *.
    + by rewrite outshare_bytes_email.
    + subst uid. by rewrite outshare_bytes_handle.
  - intros. by apply read_outshare_enc.
  - apply Forall_and; split.
    + apply (outshares_flat_Forall (fun h uid => 0 <= h < 2 ^ 48 /\ uid_ok uid)).
      eapply Forall_impl; [exact Hok|]. intros e (Hh & _ & Hu). eapply Forall_impl; [exact Hu|]. done.
    + by apply (outshares_flat_Forall (fun _ => writable_uid)).
Qed.

(** Adding a sharee lengthens the table by its entry at most. *)
Lemma flat_insert (f : Z * bytes -> bytes) h s m :
  (length (entries f (outshares_flat (omap_insert h s m)))
   + length (entries f ((fun u => (h, u.1)) <$> default [] (omap_find h m)))
   <= length (entries f ((fun u => (h, u.1)) <$> s)) + length (entries f (outshares_flat m)))%nat.
Proof.
  unfold entries, outshares_flat. induction m as [|[h1 s1] m IH].
  { simpl. rewrite !app_nil_r. lia. }
  rewrite omap_find_cons. cbn [omap_insert]. destruct (kltb h h1) eqn:E1; [|destruct (kltb h1 h) eqn:E2].
  - change (default [] None) with (@nil (bytes * unit)). rewrite fmap_nil.
    change (length (mjoin (f <$> @nil (Z * bytes)))) with 0%nat.
    rewrite !fmap_cons, !mjoin_cons, !fmap_app, !join_app, !length_app. cbn [fst snd]. lia.
  - rewrite !fmap_cons, !mjoin_cons, !fmap_app, !join_app, !length_app. lia.
  - pose proof (kltb_total _ _ E1 E2) as <-. change (default [] (Some s1)) with s1.
    rewrite !fmap_cons, !mjoin_cons, !fmap_app, !join_app, !length_app. cbn [fst snd]. lia.
Qed.

Lemma add_sharee_size (f : Z * bytes -> bytes) m e :
  (length (entries f (outshares_flat (add_sharee m e)))
   <= length (entries f (outshares_flat m)) + length (f e))%nat.
Proof.
  destruct e as [h uid]. unfold add_sharee. cbn [fst snd].
  set (s := default [] (omap_find h m)).
  pose proof (flat_insert f h (omap_insert uid tt s) m) as L. fold s in L.
  pose proof (insert_size (fun u => f (h, u.1)) uid tt s) as L2.
  unfold entries in *. rewrite <- !list_fmap_compose in L.
  unfold compose in *. cbn [fst] in L2. lia.
Qed.

Lemma add_sharee_ok m e : outshares_ok m -> outshare_ok e -> outshares_ok (add_sharee m e).
Proof.
  destruct e as [h uid]. intros [Hm Hs] [Hh Hu]. unfold add_sharee. cbn [fst snd] in *.
  split; [by apply insert_ok|]. apply omap_insert_Forall; [|done].
  assert (omap_ok (default [] (omap_find h m))
    /\ Forall (fun u => uid_ok u.1) (default [] (omap_find h m))) as [H1 H2].
  { destruct (omap_find h m) as [s|] eqn:E; [|split; [done|constructor]].
    by apply (find_Forall sharees_ok) in E as (_ & ? & ?). }
  split; [exact Hh|]. cbn [snd]. split; [by apply insert_ok|by apply omap_insert_Forall].
Qed.

Lemma outshares_read blob m :
  bytes_ok blob -> deserializePendingOutshares blob = Some m ->
  outshares_ok m /\ forall u, (length (serializePendingOutshares u m) <= length blob)%nat.
Proof.
  intros Hb H.
  assert (forall u, outshares_ok m /\ (length (serializePendingOutshares u m) <= length blob)%nat) as G;
    [|split; [apply (G [])|apply G]].
  intros u. destruct (read_table_inv _ _ _ _ (read_outshare_inv u) _ _ _ Hb H) as (es & Hes & -> & Hl).
  rewrite serializePendingOutshares_entries. clear H Hb.
  assert (forall m, outshares_ok m -> outshares_ok (foldl add_sharee m es)
    /\ (length (entries (outshare_bytes u) (outshares_flat (foldl add_sharee m es)))
        <= length (entries (outshare_bytes u) (outshares_flat m)) + length (entries (outshare_bytes u) es))%nat) as G.
  { clear Hl. induction Hes as [|e es He Hes IH]; intros m Hm; cbn [foldl].
    { split; [done|]. lia. }
    destruct (IH _ (add_sharee_ok m e Hm He)) as [G1 G2]. split; [done|].
    pose proof (add_sharee_size (outshare_bytes u) m e).
    assert (length (entries (outshare_bytes u) (e :: es))
      = (length (outshare_bytes u e) + length (entries (outshare_bytes u) es))%nat) as ->
      by (unfold entries; by rewrite fmap_cons, mjoin_cons, length_app). lia. }
  destruct (G []) as [G1 G2]; [split; [done|constructor]|]. split; [done|].
  unfold entries at 2 in G2. cbn in G2. lia.
Qed.


(** *** Records *)

Lemma byte_of len i :
  0 <= i -> Z.shiftr (Z.land len (Z.shiftl 255 i)) i = (len / 2 ^ i) mod 256.
Proof.
  intros Hi. rewrite Z.shiftr_land, Z.shiftr_shiftl_l, Z.sub_diag, Z.shiftl_0_r by lia.
  change 255 with (Z.ones 8). rewrite Z.land_ones by lia. by rewrite Z.shiftr_div_pow2.
Qed.

Lemma tagHeader_eq tag len :
  tagHeader tag len = [tag; (len / 65536) mod 256; (len / 256) mod 256; len mod 256].
Proof.
  unfold tagHeader. change 16711680 with (Z.shiftl 255 16). change 65280 with (Z.shiftl 255 8).
  rewrite !byte_of by lia. change 255 with (Z.ones 8). by rewrite Z.land_ones.
Qed.

Lemma tagHeader_length l2 l1 l0 tag :
  byte_ok l2 -> byte_ok l1 -> byte_ok l0 ->
  [tag; l2; l1; l0] = tagHeader tag (Z.shiftl l2 16 + Z.shiftl l1 8 + l0).
Proof.
  unfold byte_ok. intros. rewrite tagHeader_eq, !Z.shiftl_mul_pow2 by lia. repeat f_equal; dlia.
Qed.

Lemma unserialize_loop_cons fuel k tag l2 l1 l0 rest :
  unserialize_loop (S fuel) k (tag :: l2 :: l1 :: l0 :: rest)
  = let len := Z.shiftl l2 16 + Z.shiftl l1 8 + l0 in
    if zlength rest <? len then None
    else
      k ← unserialize_record k tag [tag; l2; l1; l0] (take (Z.to_nat len) rest);
      unserialize_loop fuel k (drop (Z.to_nat len) rest).
Proof. done. Qed.

Lemma keys_fuel f1 f2 k rest :
  (length rest < f1)%nat -> (length rest < f2)%nat ->
  unserialize_loop f1 k rest = unserialize_loop f2 k rest.
Proof.
  revert f2 k rest. induction f1 as [|f1 IH]; intros [|f2] k rest H1 H2; [lia..|].
  destruct rest as [|tag [|l2 [|l1 [|l0 rest]]]]; [done..|]. rewrite !unserialize_loop_cons.
  cbv zeta. case_if; [done|]. destruct (unserialize_record _ _ _ _) as [k'|]; [|done].
  simpl in *. apply IH; rewrite length_drop; lia.
Qed.

Lemma unserialize_app k tag c rest :
  fits c ->
  unserialize k (record tag c ++ rest)
  = (k' ← unserialize_record k tag (tagHeader tag (zlength c)) c; unserialize k' rest).
Proof.
  unfold fits. intros Hc. unfold record, unserialize. rewrite tagHeader_eq. rewrite <- app_assoc.
  cbn [app length]. rewrite unserialize_loop_cons.
  assert (Z.shiftl ((zlength c / 65536) mod 256) 16 + Z.shiftl ((zlength c / 256) mod 256) 8
    + zlength c mod 256 = zlength c) as -> by (rewrite !Z.shiftl_mul_pow2 by lia; dlia).
  cbv zeta. rewrite length_app, (proj2 (Z.ltb_ge _ _)) by lia.
  rewrite Nat2Z.id, take_app_length, drop_app_length.
  destruct (unserialize_record _ _ _ _) as [k'|]; [|done]. cbn [mbind option_bind].
  apply keys_fuel; lia.
Qed.

Lemma unserialize_nil k : unserialize k [] = Some k.
Proof. done. Qed.

Lemma unknown_record k tag header c :
  tag ∉ known -> unserialize_record k tag header c = Some (set_mOther (mOther k ++ header ++ c) k).
Proof.
  intros Hn. unfold unserialize_record.
  repeat match goal with
  | |- context [tag =? ?t] =>
      rewrite (proj2 (Z.eqb_neq tag t)) by (intros ->; apply Hn; unfold known; set_solver)
  end. done.
Qed.

Lemma unserialize_other k o :
  other_ok o -> unserialize k o = Some (set_mOther (mOther k ++ o) k).
Proof.
  intros (rs & -> & Hrs). revert k. induction Hrs as [|[tag c] rs [Ht Hc] Hrs IH]; intros k.
  { rewrite unserialize_nil. cbn. rewrite app_nil_r. by destruct k. }
  rewrite fmap_cons, mjoin_cons, unserialize_app by done. cbn [fst snd] in *.
  rewrite unknown_record by done. cbn [mbind option_bind]. rewrite IH. unfold set_mOther.
  cbn. by rewrite <- !app_assoc.
Qed.

(** The record a header with the length of its content starts. *)
Lemma header_record tag c n : length c = n -> tagHeader tag (Z.of_nat n) ++ c = record tag c.
Proof. by intros <-. Qed.

Lemma byte_swap_value n x :
  0 <= x < 256 ^ Z.of_nat n -> byte_swap n (le_value (le_bytes n (byte_swap n x))) = x.
Proof. intros. rewrite le_value_mod by apply byte_swap_range. by apply byte_swap_swap. Qed.

(** The cases of the switch on what the writer writes. *)
Section cases.
Context (k : Keys) (header : bytes).

Lemma fixed_case (n : nat) (x : bytes) (v : Keys) :
  length x = n -> (if zlength x =? Z.of_nat n then Some v else None) = Some v.
Proof. intros ->. by rewrite Z.eqb_refl. Qed.

Lemma version_case v :
  byte_ok v -> unserialize_record k TAG_VERSION header (le_bytes 1 v) = Some (set_mVersion v k).
Proof. intros. unfold byte_ok in *. rewrite <- (le_value_mod 1 v) at 2 by (simpl; lia). refine (fixed_case 1 (le_bytes 1 v) (set_mVersion (le_value (le_bytes 1 v)) k) (length_le_bytes _ _)). Qed.

Lemma time_case v :
  0 <= v < 2 ^ 32 ->
  unserialize_record k TAG_CREATION_TIME header (le_bytes 4 (byte_swap 4 v)) = Some (set_mCreationTime v k).
Proof. intros. rewrite <- (byte_swap_value 4 v) at 2 by done. refine (fixed_case 4 (le_bytes 4 (byte_swap 4 v)) (set_mCreationTime (byte_swap 4 (le_value (le_bytes 4 (byte_swap 4 v)))) k) (length_le_bytes _ _)). Qed.

Lemma identity_case v :
  0 <= v < 2 ^ 64 ->
  unserialize_record k TAG_IDENTITY header (le_bytes 8 v) = Some (set_mIdentity v k).
Proof. intros. rewrite <- (le_value_mod 8 v) at 2 by done. refine (fixed_case 8 (le_bytes 8 v) (set_mIdentity (le_value (le_bytes 8 v)) k) (length_le_bytes _ _)). Qed.

Lemma generation_case v :
  0 <= v < 2 ^ 32 ->
  unserialize_record k TAG_GENERATION header (le_bytes 4 (byte_swap 4 v)) = Some (set_mGeneration v k).
Proof. intros. rewrite <- (byte_swap_value 4 v) at 2 by done. refine (fixed_case 4 (le_bytes 4 (byte_swap 4 v)) (set_mGeneration (byte_swap 4 (le_value (le_bytes 4 (byte_swap 4 v)))) k) (length_le_bytes _ _)). Qed.

Lemma ed25519_case c :
  length c = SEED_KEY_LENGTH ->
  unserialize_record k TAG_PRIV_ED25519 header c = Some (set_mPrivEd25519 c k).
Proof. exact (fixed_case SEED_KEY_LENGTH c (set_mPrivEd25519 c k)). Qed.

Lemma cu25519_case c :
  length c = PRIVATE_KEY_LENGTH ->
  unserialize_record k TAG_PRIV_CU25519 header c = Some (set_mPrivCu25519 c k).
Proof. exact (fixed_case PRIVATE_KEY_LENGTH c (set_mPrivCu25519 c k)). Qed.

Lemma sharekeys_case m :
  sharekeys_ok m ->
  unserialize_record k TAG_SHAREKEYS header (serializeShareKeys m) = Some (set_mShareKeys m k).
Proof.
  intros. change (unserialize_record k TAG_SHAREKEYS header ?c)
    with (m ← deserializeShareKeys c; Some (set_mShareKeys m k)).
  by rewrite sharekeys_roundtrip.
Qed.

Lemma outshares_case uninit m :
  outshares_ok m -> writable m ->
  unserialize_record k TAG_PENDING_OUTSHARES header (serializePendingOutshares uninit m)
  = Some (set_mPendingOutShares (prune m) k).
Proof.
  intros. change (unserialize_record k TAG_PENDING_OUTSHARES header ?c)
    with (m ← deserializePendingOutshares c; Some (set_mPendingOutShares m k)).
  by rewrite outshares_roundtrip.
Qed.

Lemma inshares_case m :
  inshares_ok m ->
  unserialize_record k TAG_PENDING_INSHARES header (serializePendingInshares m)
  = Some (set_mPendingInShares m k).
Proof.
  intros. change (unserialize_record k TAG_PENDING_INSHARES header ?c)
    with (m ← deserializePendingInshares c; Some (set_mPendingInShares m k)).
  by rewrite inshares_roundtrip.
Qed.

Lemma warnings_case m :
  strings_ok m ->
  unserialize_record k TAG_WARNINGS header (serializeWarnings m) = Some (set_mWarnings m k).
Proof.
  intros. change (unserialize_record k TAG_WARNINGS header ?c)
    with (m ← deserializeWarnings c; Some (set_mWarnings m k)).
  unfold deserializeWarnings, serializeWarnings. by rewrite ltlv_roundtrip.
Qed.
End cases.

Lemma unserialize_step k tag c rest k' :
  fits c -> unserialize_record k tag (tagHeader tag (zlength c)) c = Some k' ->
  unserialize k (record tag c ++ rest) = unserialize k' rest.
Proof. intros Hc E. rewrite unserialize_app by done. by rewrite E. Qed.

Lemma serialized uninit k :
  length (mPrivEd25519 k) = SEED_KEY_LENGTH -> length (mPrivCu25519 k) = PRIVATE_KEY_LENGTH ->
  keys_ok k -> mGeneration k < 2 ^ 32 - 1 -> writable (mPendingOutShares k) ->
  unserialize new_Keys (serialize uninit k) = Some (written k).
Proof.
  intros Hed Hcu [] Hgen Hw. unfold serialize.
  rewrite (app_assoc (tagHeader TAG_PRIV_ED25519 _)), (header_record _ _ _ Hed).
  rewrite (app_assoc (tagHeader TAG_PRIV_CU25519 _)), (header_record _ _ _ Hcu).
  assert (fits (mPrivEd25519 k)) as Fed by (unfold fits; by rewrite Hed).
  assert (fits (mPrivCu25519 k)) as Fcu by (unfold fits; by rewrite Hcu).
  destruct ok_sharekeys0 as [Ssk Fsk], ok_outshares0 as [Sos Fos], ok_inshares0 as [Sis Fis],
    ok_warnings0 as [Sw Fw]. specialize (Fos uninit).
  rewrite (wrapu_id 32 (mGeneration k + 1)) by lia.
  assert (forall n x, (n <= 8)%nat -> fits (le_bytes n x)) as Fle
    by (intros; unfold fits; rewrite length_le_bytes; lia).
  rewrite (unserialize_step _ _ _ _ _ (Fle 1%nat _ ltac:(lia)) (version_case _ _ _ ok_version0)).
  rewrite (unserialize_step _ _ _ _ _ (Fle 4%nat _ ltac:(lia)) (time_case _ _ _ ok_time0)).
  rewrite (unserialize_step _ _ _ _ _ (Fle 8%nat _ ltac:(lia)) (identity_case _ _ _ ok_identity0)).
  rewrite (unserialize_step _ _ _ _ _ (Fle 4%nat _ ltac:(lia)) (generation_case _ _ (mGeneration k + 1) ltac:(lia))).
  rewrite (unserialize_step _ TAG_ATTR _ _ _ ok_attr0 eq_refl).
  rewrite (unserialize_step _ _ _ _ _ Fed (ed25519_case _ _ _ Hed)).
  rewrite (unserialize_step _ _ _ _ _ Fcu (cu25519_case _ _ _ Hcu)).
  rewrite (unserialize_step _ TAG_PRIV_RSA _ _ _ ok_rsa0 eq_refl).
  rewrite (unserialize_step _ TAG_AUTHRING_ED25519 _ _ _ ok_auth_ed0 eq_refl).
  rewrite (unserialize_step _ TAG_AUTHRING_CU25519 _ _ _ ok_auth_cu0 eq_refl).
  rewrite (unserialize_step _ _ _ _ _ Fsk (sharekeys_case _ _ _ Ssk)).
  rewrite (unserialize_step _ _ _ _ _ Fos (outshares_case _ _ _ _ Sos Hw)).
  rewrite (unserialize_step _ _ _ _ _ Fis (inshares_case _ _ _ Sis)).
  rewrite (unserialize_step _ TAG_BACKUPS _ _ _ ok_backups0 eq_refl).
  rewrite (unserialize_step _ _ _ _ _ Fw (warnings_case _ _ _ Sw)).
  rewrite unserialize_other by done. by destruct k.
Qed.


(** *** What is read is well formed *)

Lemma fits_le (x y : bytes) : fits y -> (length x <= length y)%nat -> fits x.
Proof. unfold fits. lia. Qed.

Lemma other_app o tag c :
  other_ok o -> tag ∉ known -> fits c -> other_ok (o ++ record tag c).
Proof.
  intros (rs & -> & Hrs) Ht Hc. exists (rs ++ [(tag, c)]). split.
  - rewrite fmap_app, join_app. cbn. by rewrite app_nil_r.
  - apply Forall_app. by repeat constructor.
Qed.

Lemma new_Keys_ok : keys_ok new_Keys.
Proof.
  assert (fits []) as F by done.
  constructor; cbn [new_Keys mVersion mCreationTime mIdentity mGeneration mAttr mPrivEd25519
    mPrivCu25519 mPrivRSA mAuthEd25519 mAuthCu25519 mBackups mOther mShareKeys mPendingOutShares
    mPendingInShares mWarnings]; try exact F; try lia; try (by left).
  - unfold byte_ok. lia.
  - exists []. by split.
  - split; [split; [done|constructor]|exact F].
  - split; [split; [done|constructor]|intros; exact F].
  - split; [split; [done|constructor]|exact F].
  - split; [split; [done|constructor]|exact F].
Qed.

(** One field changes, the conditions on the others stay. *)
Ltac field Hk := destruct Hk; constructor; cbn in *; try done.

Lemma not_known tag : Forall (fun t => (tag =? t) = false) known -> tag ∉ known.
Proof. intros H Hin. rewrite Forall_forall in H. specialize (H _ Hin). zbool. lia. Qed.

Lemma value_range n (c : bytes) :
  bytes_ok c -> zlength c = Z.of_nat n -> 0 <= le_value c < 256 ^ Z.of_nat n.
Proof. intros Hb <-. by apply le_value_range. Qed.

Lemma record_keeps k tag c k' :
  keys_ok k -> bytes_ok c -> fits c ->
  unserialize_record k tag (tagHeader tag (zlength c)) c = Some k' -> keys_ok k'.
Proof.
  intros Hk Hb Hf. unfold unserialize_record.
  destruct (tag =? TAG_VERSION) eqn:E1.
  { case_if; [|done]. intros [= <-]. zbool. pose proof (value_range 1 c Hb Heqb). field Hk. }
  destruct (tag =? TAG_CREATION_TIME) eqn:E2.
  { case_if; [|done]. intros [= <-]. pose proof (byte_swap_range 4 (le_value c)). field Hk. }
  destruct (tag =? TAG_IDENTITY) eqn:E3.
  { case_if; [|done]. intros [= <-]. zbool. pose proof (value_range 8 c Hb Heqb). field Hk. }
  destruct (tag =? TAG_GENERATION) eqn:E4.
  { case_if; [|done]. intros [= <-]. pose proof (byte_swap_range 4 (le_value c)). field Hk. }
  destruct (tag =? TAG_ATTR) eqn:E5; [intros [= <-]; field Hk|].
  destruct (tag =? TAG_PRIV_ED25519) eqn:E6.
  { case_if; [|done]. intros [= <-]. zbool. assert (length c = SEED_KEY_LENGTH) by lia.
    field Hk. by right. }
  destruct (tag =? TAG_PRIV_CU25519) eqn:E7.
  { case_if; [|done]. intros [= <-]. zbool. assert (length c = PRIVATE_KEY_LENGTH) by lia.
    field Hk. by right. }
  destruct (tag =? TAG_PRIV_RSA) eqn:E8; [intros [= <-]; field Hk|].
  destruct (tag =? TAG_AUTHRING_ED25519) eqn:E9; [intros [= <-]; field Hk|].
  destruct (tag =? TAG_AUTHRING_CU25519) eqn:E10; [intros [= <-]; field Hk|].
  destruct (tag =? TAG_SHAREKEYS) eqn:E11.
  { intros (m & Hm & [= <-])%bind_Some. destruct (sharekeys_read _ _ Hb Hm) as [H1 H2].
    pose proof (fits_le _ _ Hf H2). field Hk. }
  destruct (tag =? TAG_PENDING_OUTSHARES) eqn:E12.
  { intros (m & Hm & [= <-])%bind_Some. destruct (outshares_read _ _ Hb Hm) as [H1 H2].
    assert (forall u, fits (serializePendingOutshares u m)) by (intros u; exact (fits_le _ _ Hf (H2 u))).
    field Hk. }
  destruct (tag =? TAG_PENDING_INSHARES) eqn:E13.
  { intros (m & Hm & [= <-])%bind_Some. destruct (inshares_read _ _ Hb Hm) as [H1 H2].
    pose proof (fits_le _ _ Hf H2). field Hk. }
  destruct (tag =? TAG_BACKUPS) eqn:E14; [intros [= <-]; field Hk|].
  destruct (tag =? TAG_WARNINGS) eqn:E15.
  { intros (m & Hm & [= <-])%bind_Some. destruct (ltlv_read _ _ Hb Hm) as (H1 & _ & H2).
    pose proof (fits_le _ _ Hf H2). field Hk. }
  intros [= <-]. assert (tag ∉ known) by (apply not_known; by repeat constructor).
  pose proof (other_app (mOther k) tag c (ok_other k Hk) ltac:(done) Hf). field Hk.
Qed.

Lemma unserialize_keeps fuel k rest k' :
  keys_ok k -> bytes_ok rest -> unserialize_loop fuel k rest = Some k' -> keys_ok k'.
Proof.
  revert k rest. induction fuel as [|fuel IH]; intros k rest Hk Hb; [done|].
  destruct rest as [|tag [|l2 [|l1 [|l0 rest]]]];
    [by intros [= <-]|by intros [= <-]|by intros [= <-]|by intros [= <-]|].
  rewrite unserialize_loop_cons. cbv zeta. case_if; [done|]. zbool.
  repeat match goal with H : Forall _ (_ :: _) |- _ => apply Forall_cons in H as [? H] end.
  intros (k1 & Hrec & Hloop)%bind_Some. eapply IH; [|by apply Forall_drop|exact Hloop].
  set (len := Z.shiftl l2 16 + Z.shiftl l1 8 + l0) in *.
  assert (0 <= len < 2 ^ 24) as R.
  { subst len. rewrite !Z.shiftl_mul_pow2 by lia. unfold byte_ok in *. lia. }
  assert (zlength (take (Z.to_nat len) rest) = len) as L by (rewrite length_take; lia).
  apply (record_keeps k tag (take (Z.to_nat len) rest)); [exact Hk|by apply Forall_take|unfold fits; lia|].
  rewrite L. rewrite (tagHeader_length l2 l1 l0 tag) in Hrec by done. exact Hrec.
Qed.

(** [prune] changes no table that was read. *)
Lemma prune_id m : Forall (fun e => e.2 <> []) m -> prune m = m.
Proof.
  unfold prune. induction 1 as [|e m He Hm IH]; [done|]. rewrite filter_cons, decide_True by done.
  by rewrite IH.
Qed.

End KeysFacts.

(** ** The keys *)

(** C37: Whatever bytes an ^!keys attribute holds, reading it succeeds only with
    well-formed keys: every integer in its width, private keys of the right
    length or missing, sorted tables whose entries have the right sizes and
    which fit a record when written again, and the unknown records as a sequence
    of whole records with unknown tags. *)
Theorem keys_read_well_formed (blob : bytes) (k : Keys.Keys) :
  bytes_ok blob -> Keys.unserialize Keys.new_Keys blob = Some k -> Keys.keys_ok k.
Proof. intros Hb. apply KeysFacts.unserialize_keeps; [apply KeysFacts.new_Keys_ok|done]. Qed.

Definition keys_example : bytes :=
  Keys.record 1 [1] ++ Keys.record 4 [0; 0; 1; 2] ++ Keys.record 200 [7; 8]
  ++ Keys.record 48 ([1; 2; 3; 4; 5; 6] ++ replicate 16 9 ++ [3]) ++ Keys.record 96 [2; 99; 118; 0; 1; 49].

Lemma keys_read_well_formed_witness :
  exists k, Keys.unserialize Keys.new_Keys keys_example = Some k /\ Keys.keys_ok k
    /\ Keys.mGeneration k = 258 /\ Keys.mOther k = Keys.record 200 [7; 8].
Proof.
  eexists. split; [vm_compute; reflexivity|]. split; [|by split].
  apply (keys_read_well_formed keys_example); [|vm_compute; reflexivity].
  apply (bool_decide_unpack (bytes_ok keys_example)). vm_compute. exact I.
Defined.

(** Reading the keys of an account, writing them and reading what was written
    gives the same keys with the next generation: no share key, pending share,
    warning or record of an unknown kind is lost or changed, whatever an
    uninitialised variable holds.  It takes both private keys, a generation that
    is not the last one, and sharees that are emails or user handles; a folder
    without a pending sharee has no entry afterwards. *)
Theorem keys_roundtrip (uninit : bytes) (k : Keys.Keys) :
  Keys.keys_ok k ->
  length (Keys.mPrivEd25519 k) = Keys.SEED_KEY_LENGTH ->
  length (Keys.mPrivCu25519 k) = Keys.PRIVATE_KEY_LENGTH ->
  Keys.mGeneration k < 2 ^ 32 - 1 -> Keys.writable (Keys.mPendingOutShares k) ->
  Keys.unserialize Keys.new_Keys (Keys.serialize uninit k) = Some (Keys.written k).
Proof. intros. by apply KeysFacts.serialized. Qed.

Definition keys_example2 : Keys.Keys :=
  Keys.MkKeys 1 1700000000 77 41 [] (replicate 32 1) (replicate 32 2) [5] [] (replicate 29 3) []
    (Keys.record 200 [7; 8]) [(3, (replicate 16 4, 3))]
    [(9, [(toHandle 12345, tt); (str "a@b.c", tt)])] [(toNodeHandle 3, (66, replicate 16 7))]
    [(str "cv", str "1")].

Lemma keys_roundtrip_witness :
  Keys.unserialize Keys.new_Keys (Keys.serialize [1; 2] (Keys.set_mGeneration 42 keys_example2))
  = Some (Keys.set_mGeneration 43 keys_example2).
Proof.
  apply (keys_roundtrip [1; 2] (Keys.set_mGeneration 42 keys_example2)); [|done|done|done|].
  - apply (KeysFacts.unserialize_keeps 1000 Keys.new_Keys (Keys.serialize [] keys_example2));
      [apply KeysFacts.new_Keys_ok| |vm_compute; reflexivity].
    apply (bool_decide_unpack (bytes_ok (Keys.serialize [] keys_example2))). vm_compute. exact I.
  - constructor; [|constructor]. constructor; [right; exists 12345; split; [lia|done]|].
    constructor; [left; vm_compute; reflexivity|constructor].
Defined.
