(* ===== verification/KeyManager.v ===== *)
(** * Trust, shares and commits of keys

    [KeyManager] (src/megaclient.cpp) and [AuthRing] (src/user.cpp) over the
    formats of Keys.v: the container of the user attribute ^!keys and its
    validation, who has to be verified before share keys are exchanged, the
    promotion of pending shares, and the queue of commits that writes changes
    back to the server.  Proved: an older container is never accepted and changes
    nothing; share keys leave only for verified users; every commit is answered
    exactly once, in order, and a batch is reported as stored only after the
    server took keys to which all of its changes had just been applied. *)

From S2P Require Import Prelude OMap Encoding Serialize Crypto Tlv Json Keys.
Local Open Scope Z_scope.

(** Attribute types, and the authentication methods of a key. *)
Definition ATTR_AUTHRING := 3.
Definition ATTR_AUTHCU255 := 29.
Definition AUTH_METHOD_UNKNOWN := -1.
Definition AUTH_METHOD_SEEN := 0.
Definition AUTH_METHOD_FINGERPRINT := 1.
Definition AUTH_METHOD_SIGNATURE := 2.

(** ** The keys of contacts *)

Module AuthRing.

Record AuthRing := MkAuthRing {
  mType : Z;
  mFingerprint : list (Z * bytes);
  mAuthMethod : list (Z * Z);
  mNeedsUpdate : bool
}.

(** [deserialize]: records of 29 bytes; [false] if something is left over. *)
Fixpoint deserialize_loop (fuel : nat) (ptr : bytes) (ring : AuthRing) : bool * AuthRing :=
  match fuel with
  | O => (false, ring)
  | S fuel =>
      if (29 <=? length ptr)%nat then
        let userhandle := le_value (take 8 ptr) in
        let ptr := drop 8 ptr in
        let authFingerprint := take 20 ptr in
        let ptr := drop 20 ptr in
        let authMethod := wraps 8 (le_value (take 1 ptr)) in
        let ptr := drop 1 ptr in
        deserialize_loop fuel ptr
          (MkAuthRing (mType ring) (omap_insert userhandle authFingerprint (mFingerprint ring))
             (omap_insert userhandle authMethod (mAuthMethod ring)) (mNeedsUpdate ring))
      else (bool_decide (ptr = []), ring)
  end.

(** The constructor from a string; the rest of an incomplete record is ignored. *)
Definition new_AuthRing (type : Z) (authValue : bytes) : AuthRing :=
  (deserialize_loop (S (length authValue)) authValue (MkAuthRing type [] [] false)).2.

(** Both maps are walked together. *)
Definition serializeForJS (ring : AuthRing) : bytes :=
  mjoin (zip_with (fun f m => le_bytes 8 f.1 ++ f.2 ++ le_bytes 1 m.2) (mFingerprint ring) (mAuthMethod ring)).

Definition isTracked (ring : AuthRing) (uh : Z) : bool := bool_decide (is_Some (omap_find uh (mAuthMethod ring))).

Definition getAuthMethod (ring : AuthRing) (uh : Z) : Z :=
  default AUTH_METHOD_UNKNOWN (omap_find uh (mAuthMethod ring)).

Definition getFingerprint (ring : AuthRing) (uh : Z) : bytes := default [] (omap_find uh (mFingerprint ring)).

Definition getTrackedUsers (ring : AuthRing) : list Z := (mFingerprint ring).*1.

(** Two assertions demand that the user is not tracked; [None]: one of them fails. *)
Definition add (uh : Z) (fingerprint : bytes) (authMethod : Z) (ring : AuthRing) : option AuthRing :=
  if bool_decide (omap_find uh (mFingerprint ring) = None) && bool_decide (omap_find uh (mAuthMethod ring) = None) then
    Some (MkAuthRing (mType ring) (omap_insert uh fingerprint (mFingerprint ring))
      (omap_insert uh authMethod (mAuthMethod ring)) true)
  else None.

(** [map::at] throws for a user that is not tracked. *)
Definition update (uh : Z) (authMethod : Z) (ring : AuthRing) : option AuthRing :=
  if isTracked ring uh then
    Some (MkAuthRing (mType ring) (mFingerprint ring) (omap_insert uh authMethod (mAuthMethod ring)) true)
  else None.

Definition isSignedKey (ring : AuthRing) : bool := negb (mType ring =? ATTR_AUTHRING).

Definition areCredentialsVerified (ring : AuthRing) (uh : Z) : bool :=
  if isSignedKey ring then getAuthMethod ring uh =? AUTH_METHOD_SIGNATURE
  else getAuthMethod ring uh =? AUTH_METHOD_FINGERPRINT.

End AuthRing.

(** ** The rest of the client

    A user of the client, with the public Cu25519 key if it is cached and valid;
    a node, with the sharer if it is an in-share; a folder with out-shares, with
    the users of its shares ([None]: a folder link). *)

Record User := MkUser { userhandle : Z; email : bytes; uid : bytes; cu25519 : option bytes }.
Record Node := MkNode { inshare : option Z; has_sharekey : bool; keyApplied : bool }.
Record SharedNode := MkSharedNode { nodehandle : Z; outshares : option (list (option User)) }.

(** A share whose key is to be merged into its node; [sent_key] is a
    [CommandPendingKeys]. *)
Record NewShare := MkNewShare { ns_h : Z; ns_outgoing : Z; ns_key : bytes }.
Record PendingKeys := MkPendingKeys { pk_user : Z; pk_node : Z; pk_key : bytes }.

Definition pk (user node : Z) (key : bytes) : PendingKeys := MkPendingKeys user node key.

(** What the keys need from the users and nodes of the client; [W] is their
    state.  Merging a share compares its key with the known ones. *)
Class KeyClient (W : Type) := {
  me : W -> Z;
  umindex : bytes -> W -> option User;
  uhindex : Z -> W -> option User;
  nodebyhandle : Z -> W -> option Node;
  getNodesWithOutShares : W -> list SharedNode;
  isbelow : Z -> Z -> W -> bool;
  isShared : Z -> W -> bool;
  mergenewshare : Keys.Keys -> NewShare -> W -> W;
  decodeRSAKey : bytes -> W -> W
}.

(** libsodium's shared secret of our private key and a public key, and the HMAC
    and block cipher of Crypto++ under a key. *)
Class KeyCrypto := {
  ecdh : bytes -> option bytes;
  hmac_sha256 : bytes -> bytes -> bytes;
  aes_encrypt : bytes -> bytes -> bytes;
  aes_decrypt : bytes -> bytes -> bytes
}.

(** ** The key manager *)

Module KeyManager.
Import Keys AuthRing.

Section manager.
Context {W : Type} `{KeyClient W} `{KeyCrypto} `{AEAD}.

(** [queued] are the commands given to the client, oldest first; [newshares] and
    [mAuthRings] are the members of the client. *)
Record KeyManager := MkKM {
  keys : Keys;
  mDowngradeAttack : bool;
  mManualVerification : bool;
  mPostRegistration : bool;
  mAuthRings : list (Z * AuthRing);
  newshares : list NewShare;
  queued : list PendingKeys;
  client : W
}.

Definition set_keys (x : Keys) (m : KeyManager) : KeyManager := MkKM x (mDowngradeAttack m) (mManualVerification m) (mPostRegistration m) (mAuthRings m) (newshares m) (queued m) (client m).
Definition set_mDowngradeAttack (x : bool) (m : KeyManager) : KeyManager := MkKM (keys m) x (mManualVerification m) (mPostRegistration m) (mAuthRings m) (newshares m) (queued m) (client m).
Definition set_mPostRegistration (x : bool) (m : KeyManager) : KeyManager := MkKM (keys m) (mDowngradeAttack m) (mManualVerification m) x (mAuthRings m) (newshares m) (queued m) (client m).
Definition set_mAuthRings (x : list (Z * AuthRing)) (m : KeyManager) : KeyManager := MkKM (keys m) (mDowngradeAttack m) (mManualVerification m) (mPostRegistration m) x (newshares m) (queued m) (client m).
Definition set_newshares (x : list NewShare) (m : KeyManager) : KeyManager := MkKM (keys m) (mDowngradeAttack m) (mManualVerification m) (mPostRegistration m) (mAuthRings m) x (queued m) (client m).
Definition set_queued (x : list PendingKeys) (m : KeyManager) : KeyManager := MkKM (keys m) (mDowngradeAttack m) (mManualVerification m) (mPostRegistration m) (mAuthRings m) (newshares m) x (client m).
Definition set_client (x : W) (m : KeyManager) : KeyManager := MkKM (keys m) (mDowngradeAttack m) (mManualVerification m) (mPostRegistration m) (mAuthRings m) (newshares m) (queued m) x.

Definition generation (m : KeyManager) : Z := mGeneration (keys m).

(** The first keys of an account, at the time [now].  [short_rsa] decodes the
    RSA key and writes its short form; it fails on a bad key. *)
Definition init (now : Z) (short_rsa : bytes -> option bytes) (prEd25519 prCu25519 prRSA : bytes) (m : KeyManager)
    : KeyManager :=
  if negb (mVersion (keys m) =? 0) || negb (mGeneration (keys m) =? 0) then m
  else
    let k := set_mVersion 1 (keys m) in
    let k := set_mCreationTime (u32 now) k in
    let k := set_mIdentity (me (client m)) k in
    let k := set_mGeneration 1 k in
    let k := set_mPrivEd25519 prEd25519 k in
    let k := set_mPrivCu25519 prCu25519 k in
    let k := set_mPrivRSA [] k in
    let k := if bool_decide (prRSA = []) then k
             else match short_rsa prRSA with Some rsa => set_mPrivRSA rsa k | None => k end in
    set_mPostRegistration false (set_keys k m).

(** *** Getters and setters *)

Definition setPostRegistration (postRegistration : bool) (m : KeyManager) : KeyManager :=
  set_mPostRegistration postRegistration m.

Definition addPendingOutShare (sharehandle : Z) (u : bytes) (m : KeyManager) : bool * KeyManager :=
  let shares := mPendingOutShares (keys m) in
  let s := omap_insert u tt (default [] (omap_find sharehandle shares)) in
  (true, set_keys (set_mPendingOutShares (omap_insert sharehandle s shares) (keys m)) m).

Definition addPendingInShare (sharehandle : bytes) (userHandle : Z) (encryptedKey : bytes) (m : KeyManager)
    : bool * KeyManager :=
  (true, set_keys (set_mPendingInShares
     (omap_insert sharehandle (userHandle, encryptedKey) (mPendingInShares (keys m))) (keys m)) m).

Definition removePendingInShare (shareHandle : bytes) (m : KeyManager) : bool * KeyManager :=
  let shares := mPendingInShares (keys m) in
  (bool_decide (is_Some (omap_find shareHandle shares)),
   set_keys (set_mPendingInShares (omap_erase shareHandle shares) (keys m)) m).

(** [tolower] of every character, in the C locale. *)
Definition tolower_string (s : bytes) : bytes :=
  (fun c => if (chr "A" <=? c) && (c <=? chr "Z") then c + 32 else c) <$> s.

(** [MegaClient::finduser] of a C string, without adding: an email in any case,
    or a user handle in base64. *)
Definition finduser_handle (uh : Z) (w : W) : option User :=
  if uh =? 0 then None else uhindex uh w.

Definition finduser (userID : bytes) (w : W) : option User :=
  if bool_decide (userID = []) then None
  else if negb (isEmail userID) then
    match Base64.atob userID 8 with
    | Some b => if (length b =? 8)%nat then finduser_handle (le_value b) w else None
    | None => None
    end
  else umindex (tolower_string (JSON.copystring (Some userID))) w.

(** The set is that of [operator[]], which adds an empty one. *)
Definition erase_sharee (sharehandle : Z) (u : bytes) (shares : OutShares) : bool * OutShares :=
  let s := default [] (omap_find sharehandle shares) in
  (bool_decide (is_Some (omap_find u s)), omap_insert sharehandle (omap_erase u s) shares).

Definition removePendingOutShare (sharehandle : Z) (u : bytes) (m : KeyManager) : bool * KeyManager :=
  let shares := mPendingOutShares (keys m) in
  match finduser u (client m) with
  | Some user =>
      let '(removed, shares) := erase_sharee sharehandle (email user) shares in
      let '(removed', shares) := erase_sharee sharehandle (uid user) shares in
      (removed || removed', set_keys (set_mPendingOutShares shares (keys m)) m)
  | None =>
      let '(removed, shares) := erase_sharee sharehandle u shares in
      (removed, set_keys (set_mPendingOutShares shares (keys m)) m)
  end.

(** A new key has only the given flag. *)
Definition addShareKey (sharehandle : Z) (shareKey : bytes) (sharedSecurely : bool) (m : KeyManager)
    : bool * KeyManager :=
  let flags := if sharedSecurely then Z.setbit 0 TRUSTED else 0 in
  (true, set_keys (set_mShareKeys (omap_insert sharehandle (shareKey, flags) (mShareKeys (keys m))) (keys m)) m).

Definition getShareKey (sharehandle : Z) (m : KeyManager) : bytes :=
  match omap_find sharehandle (mShareKeys (keys m)) with Some (key, _) => key | None => [] end.

Definition share_flag (flag sharehandle : Z) (m : KeyManager) : bool :=
  match omap_find sharehandle (mShareKeys (keys m)) with Some (_, flags) => Z.testbit flags flag | None => false end.

Definition isShareKeyTrusted : Z -> KeyManager -> bool := share_flag TRUSTED.
Definition isShareKeyInUse : Z -> KeyManager -> bool := share_flag INUSE.

Definition setSharekeyInUse (sharehandle : Z) (sent : bool) (m : KeyManager) : KeyManager :=
  match omap_find sharehandle (mShareKeys (keys m)) with
  | Some (key, flags) =>
      let flags := if sent then Z.setbit flags INUSE else Z.clearbit flags INUSE in
      set_keys (set_mShareKeys (omap_insert sharehandle (key, flags) (mShareKeys (keys m))) (keys m)) m
  | None => m
  end.

(** The shares that are marked as in use but are not shared any more, and the
    change that [syncSharekeyInUseBit] commits for them if there are any. *)
Definition sharesToClear (m : KeyManager) : list Z :=
  fst <$> filter (fun it : Z * (bytes * Z) =>
    Z.testbit it.2.2 INUSE = true
    /\ is_Some (nodebyhandle it.1 (client m))
    /\ isShared it.1 (client m) = false) (mShareKeys (keys m)).

Definition clearSharekeysInUse (shares : list Z) (m : KeyManager) : KeyManager :=
  foldl (fun m nh => setSharekeyInUse nh false m) m shares.

(** The warning about unverified contacts: a number, read with [strtol] of a C
    string, of which nothing may be left. *)
Definition getContactVerificationWarning (m : KeyManager) : bool :=
  match omap_find (str "cv") (mWarnings (keys m)) with
  | Some (c :: cv) =>
      let s := CLib.skip_spaces (c :: cv) in
      let sign := cchar s =? chr "-" in
      let s := if sign || (cchar s =? chr "+") then drop 1 s else s in
      let value := (if sign then -1 else 1) * CLib.digits 10 s 0 in
      let rest := CLib.skip_digits s in
      if negb (cchar rest =? 0) || bool_decide (length rest = length s)
         || (value <? - 2 ^ 63) || (2 ^ 63 - 1 <? value)
      then false
      else negb (value =? 0)
  | _ => false
  end.

Definition setContactVerificationWarning (enabled : bool) (m : KeyManager) : KeyManager :=
  set_keys (set_mWarnings (omap_insert (str "cv") (if enabled then str "1" else str "0") (mWarnings (keys m)))
              (keys m)) m.

Definition setAuthRing (authring : bytes) (m : KeyManager) : KeyManager :=
  set_keys (set_mAuthEd25519 authring (keys m)) m.
Definition setAuthCU255 (authring : bytes) (m : KeyManager) : KeyManager :=
  set_keys (set_mAuthCu25519 authring (keys m)) m.
Definition setPrivRSA (privRSA : bytes) (m : KeyManager) : KeyManager :=
  set_keys (set_mPrivRSA privRSA (keys m)) m.

Definition isUnverifiedOutShare (nodeHandle : Z) (u : bytes) (m : KeyManager) : bool :=
  match omap_find nodeHandle (mPendingOutShares (keys m)) with
  | None => false
  | Some s =>
      existsb (fun uidIt =>
        bool_decide (uidIt = u)
        || (negb (isEmail u) &&
            match finduser u (client m) with Some user => bool_decide (uidIt = email user) | None => false end)) s.*1
  end.

Definition isUnverifiedInShare (nodeHandle userHandle : Z) (m : KeyManager) : bool :=
  match omap_find (toNodeHandle nodeHandle) (mPendingInShares (keys m)) with
  | None => false
  | Some (uh, _) => uh =? userHandle
  end.

(** *** Who is verified *)

(** [MegaClient::areCredentialsVerified]. *)
Definition areCredentialsVerified (uh : Z) (m : KeyManager) : bool :=
  if uh =? me (client m) then false
  else
    match omap_find ATTR_AUTHCU255 (mAuthRings m) with
    | None => false
    | Some cu =>
        if negb (AuthRing.areCredentialsVerified cu uh) then false
        else
          match omap_find ATTR_AUTHRING (mAuthRings m) with
          | None => false
          | Some ed => AuthRing.areCredentialsVerified ed uh
          end
    end.

Definition verificationRequired (userHandle : Z) (m : KeyManager) : bool :=
  if mManualVerification m then negb (areCredentialsVerified userHandle m)
  else
    match omap_find ATTR_AUTHRING (mAuthRings m) with
    | None => true
    | Some ed =>
        if getAuthMethod ed userHandle <? AUTH_METHOD_SEEN then true
        else
          match omap_find ATTR_AUTHCU255 (mAuthRings m) with
          | None => true
          | Some cu => negb (getAuthMethod cu userHandle =? AUTH_METHOD_SIGNATURE)
          end
    end.

(** *** Share keys for a user *)

Definition SVCRYPTO_PAIRWISE_KEY : bytes := str "strongvelope pairwise key" ++ [1].

Definition computeSymmetricKey (user : Z) (m : KeyManager) : bytes :=
  match finduser_handle user (client m) with
  | None => []
  | Some u =>
      match cu25519 u with
      | None => []
      | Some attribute =>
          match ecdh attribute with
          | None => []
          | Some sharedSecret =>
              let step1 := hmac_sha256 [] sharedSecret in
              take BLOCKSIZE (hmac_sha256 step1 SVCRYPTO_PAIRWISE_KEY)
          end
      end
  end.

Definition encryptShareKeyTo (user : Z) (shareKey : bytes) (m : KeyManager) : bytes :=
  if verificationRequired user m then []
  else
    let sharedKey := computeSymmetricKey user m in
    if bool_decide (sharedKey = []) then []
    else if negb (length shareKey =? BLOCKSIZE)%nat then []
    else aes_encrypt sharedKey shareKey.

Definition decryptShareKeyFrom (user : Z) (key : bytes) (m : KeyManager) : bytes :=
  if verificationRequired user m then []
  else
    let sharedKey := computeSymmetricKey user m in
    if bool_decide (sharedKey = []) then []
    else if negb (length key =? BLOCKSIZE)%nat then []
    else aes_decrypt sharedKey key.

Definition sendPendingKey (node : Z) (u : User) (m : KeyManager) : bool * KeyManager :=
  match omap_find node (mShareKeys (keys m)) with
  | None => (false, m)
  | Some (key, _) =>
      let encryptedKey := encryptShareKeyTo (userhandle u) key m in
      if bool_decide (encryptedKey = []) then (false, m)
      else (true, set_queued (queued m ++ [pk (userhandle u) node encryptedKey]) m)
  end.

(** The share of a folder is told to the sharees of the folders above, and the
    shares below to the new sharees. *)
Definition tell_higher (node : Z) (shares : list (option User)) (m : KeyManager) : KeyManager :=
  foldl (fun m share =>
    match share with
    | Some existingSharee =>
        if verificationRequired (userhandle existingSharee) m then m
        else (sendPendingKey node existingSharee m).2
    | None => m
    end) m shares.

Definition tell_lower (node : Z) (newShareeUids : list bytes) (m : KeyManager) : KeyManager :=
  foldl (fun m newShareeUID =>
    match finduser newShareeUID (client m) with
    | Some newShareeUser => (sendPendingKey node newShareeUser m).2
    | None => m
    end) m newShareeUids.

Definition propagateKeysForNestedShares (promoted : Z) (newShareeUids : list bytes) (m : KeyManager) : KeyManager :=
  match nodebyhandle promoted (client m) with
  | None => m
  | Some _ =>
      foldl (fun m alreadySharedNode =>
        match outshares alreadySharedNode with
        | None => m
        | Some shares =>
            let m := if isbelow promoted (nodehandle alreadySharedNode) (client m)
                     then tell_higher promoted shares m else m in
            if isbelow (nodehandle alreadySharedNode) promoted (client m)
            then tell_lower (nodehandle alreadySharedNode) newShareeUids m else m
        end) m (getNodesWithOutShares (client m))
  end.

(** The sharees of a folder that can be told its key now. *)
Definition promote_sharees (node : Z) (sharees : list bytes) (m : KeyManager) : list bytes * KeyManager :=
  foldl (fun '(keysToDelete, m) u =>
    match finduser u (client m) with
    | Some user =>
        if verificationRequired (userhandle user) m then (keysToDelete, m)
        else
          let '(sent, m) := sendPendingKey node user m in
          (if (sent : bool) then keysToDelete ++ [u] else keysToDelete, m)
    | None => (keysToDelete, m)
    end) ([], m) sharees.

(** The folders and sharees are those at the start: removing a sharee changes the
    set of its folder, after it was walked. *)
Definition promote_outshares (m : KeyManager) : bool * KeyManager :=
  foldl (fun '(attributeUpdated, m) e =>
    let '(keysToDelete, m) := promote_sharees e.1 e.2.*1 m in
    let m := if bool_decide (keysToDelete = []) then m else propagateKeysForNestedShares e.1 keysToDelete m in
    (attributeUpdated || negb (bool_decide (keysToDelete = [])),
     foldl (fun m u => (removePendingOutShare e.1 u m).2) m keysToDelete))
    (false, m) (mPendingOutShares (keys m)).

(** An in-share of a verified sharer gets its key; an established one is
    dropped. *)
Definition promote_inshare (st : list bytes * bool * KeyManager) (it : bytes * (Z * bytes))
    : list bytes * bool * KeyManager :=
  let '(keysToDelete, newshares_, m) := st in
  let nodeHandle := le_value (default [] (Base64.atob it.1 6)) in
  let user := it.2.1 in
  if negb (verificationRequired user m) then
    let encryptedShareKey :=
      if (16 <? length it.2.2)%nat then default [] (Base64.atob_string it.2.2) else it.2.2 in
    let shareKey := decryptShareKeyFrom user encryptedShareKey m in
    if bool_decide (shareKey = []) then (keysToDelete, newshares_, m)
    else
      let m := (addShareKey nodeHandle shareKey true m).2 in
      let m := set_newshares (newshares m ++ [MkNewShare nodeHandle 0 shareKey]) m in
      (keysToDelete ++ [it.1], true, m)
  else
    match nodebyhandle nodeHandle (client m) with
    | Some node =>
        if keyApplied node && bool_decide (inshare node = Some user)
           && bool_decide (is_Some (omap_find nodeHandle (mShareKeys (keys m))))
        then (keysToDelete ++ [it.1], newshares_, m) else (keysToDelete, newshares_, m)
    | None => (keysToDelete, newshares_, m)
    end.

(** [MegaClient::mergenewshares]. *)
Definition mergenewshares (m : KeyManager) : KeyManager :=
  set_newshares [] (set_client (foldl (fun w s => mergenewshare (keys m) s w) (client m) (newshares m)) m).

Definition promotePendingShares (m : KeyManager) : bool * KeyManager :=
  let '(attributeUpdated, m) := promote_outshares m in
  let '(keysToDelete, newshares_, m) := foldl promote_inshare ([], false, m) (mPendingInShares (keys m)) in
  let attributeUpdated := attributeUpdated || negb (bool_decide (keysToDelete = [])) in
  let m := foldl (fun m h => (removePendingInShare h m).2) m keysToDelete in
  (attributeUpdated, if (newshares_ : bool) then mergenewshares m else m).

(** *** The container *)

Definition IV_LEN : nat := 12.

(** The key of a share is set at its node if it has none. *)
Definition loadShareKeys (m : KeyManager) : KeyManager :=
  foldl (fun m it =>
    match nodebyhandle it.1 (client m) with
    | Some n =>
        if has_sharekey n then m
        else
          let outgoing := match inshare n with Some _ => 0 | None => -1 end in
          set_client (mergenewshare (keys m) (MkNewShare it.1 outgoing it.2.1) (client m)) m
    | None => m
    end) m (mShareKeys (keys m)).

(** Differences to the old keys are reported only. *)
Definition updateShareKeys (shareKeys : ShareKeys) (m : KeyManager) : KeyManager :=
  loadShareKeys (set_keys (set_mShareKeys shareKeys (keys m)) m).

Definition updateAuthring (at_ : Z) (value : bytes) (m : KeyManager) : KeyManager :=
  let m := set_keys (if at_ =? ATTR_AUTHRING then set_mAuthEd25519 value (keys m)
                     else set_mAuthCu25519 value (keys m)) m in
  set_mAuthRings (omap_insert at_ (new_AuthRing at_ value) (omap_erase at_ (mAuthRings m))) m.

(** Private keys are taken over only when there is none yet; the asserts that
    they agree are not part of release builds. *)
Definition isValidKeysContainer (km : Keys) (m : KeyManager) : bool * KeyManager :=
  if mGeneration km <? mGeneration (keys m) then (false, set_mDowngradeAttack true m)
  else
    let m := if bool_decide (mPrivEd25519 (keys m) = [])
             then set_keys (set_mPrivEd25519 (mPrivEd25519 km) (keys m)) m else m in
    let m := if bool_decide (mPrivCu25519 (keys m) = [])
             then set_keys (set_mPrivCu25519 (mPrivCu25519 km) (keys m)) m else m in
    let m := if bool_decide (mPrivRSA (keys m) = []) && (512 <=? zlength (mPrivRSA km))
             then set_client (decodeRSAKey (mPrivRSA km) (client m)) (set_keys (set_mPrivRSA (mPrivRSA km) (keys m)) m)
             else m in
    (true, m).

(** [updateValues] up to the promotion of pending shares, in the order of the
    assignments. *)
Definition assignValues (km : Keys) (m : KeyManager) : KeyManager :=
  let k := keys m in
  let k := set_mVersion (mVersion km) k in
  let k := set_mCreationTime (mCreationTime km) k in
  let k := set_mIdentity (mIdentity km) k in
  let k := set_mGeneration (mGeneration km) k in
  let k := set_mAttr (mAttr km) k in
  let m := set_keys k m in
  let m := updateAuthring ATTR_AUTHRING (mAuthEd25519 km) m in
  let m := updateAuthring ATTR_AUTHCU255 (mAuthCu25519 km) m in
  let m := updateShareKeys (mShareKeys km) m in
  let k := keys m in
  let k := set_mPendingOutShares (mPendingOutShares km) k in
  let k := set_mPendingInShares (mPendingInShares km) k in
  let k := set_mBackups (mBackups km) k in
  let k := set_mWarnings (mWarnings km) k in
  let k := set_mOther (mOther km) k in
  set_keys k m.

(** Whether the promotion has to be committed. *)
Definition updateValues (km : Keys) (m : KeyManager) : bool * KeyManager :=
  promotePendingShares (assignValues km m).

(** What a container holds. *)
Definition readContainer (data : bytes) : option Keys :=
  if (2 <? length data)%nat && (cchar data =? 20) then
    if (2 + IV_LEN <? length data)%nat then
      let keysCiphered := drop (2 + IV_LEN) data in
      let '(ok, keysPlain) := Authenticated.gcm_decrypt keysCiphered (take IV_LEN (drop 2 data)) 16 [] in
      if (ok : bool) then unserialize new_Keys keysPlain else None
    else None
  else None.

(** The result, and whether the promotion of pending shares is to be committed. *)
Definition fromKeysContainer (data : bytes) (m : KeyManager) : bool * bool * KeyManager :=
  match readContainer data with
  | None => (false, false, m)
  | Some km =>
      let '(success, m) := isValidKeysContainer km m in
      if (success : bool) then
        let '(promoted, m) := updateValues km m in (true, promoted, m)
      else (false, false, m)
  end.

(** [iv] is a random string; [uninit] is that of Keys.v. *)
Definition toKeysContainer (iv uninit : bytes) (m : KeyManager) : bytes :=
  if mVersion (keys m) =? 0 then []
  else
    let '(ok, keysCiphered) := Authenticated.gcm_encrypt (serialize uninit (keys m)) iv 16 [] in
    if (ok : bool) then [20; 0] ++ iv ++ keysCiphered else [].

(** [reset], without the queues. *)
Definition reset (m : KeyManager) : KeyManager :=
  MkKM new_Keys false false false (mAuthRings m) (newshares m) (queued m) (client m).

End manager.
End KeyManager.

(** ** Promotion *)

Module Promotion.
Import Keys AuthRing KeyManager.

Section promotion.
Context {W : Type} `{KeyClient W} `{KeyCrypto}.
Implicit Types (m : KeyManager (W:=W)).

(** The rings are kept under their own types. *)
Definition rings_ok m : Prop := forall t ring, omap_find t (mAuthRings m) = Some ring -> mType ring = t.

(** The signature of the user's Cu25519 key is verified, and its Ed25519 key is
    known; where verification is manual, its fingerprint was compared and the
    user is not oneself. *)
Definition contact_verified m (user : Z) : Prop :=
  exists ed cu, omap_find ATTR_AUTHRING (mAuthRings m) = Some ed
    /\ omap_find ATTR_AUTHCU255 (mAuthRings m) = Some cu
    /\ getAuthMethod cu user = AUTH_METHOD_SIGNATURE
    /\ (if mManualVerification m
        then getAuthMethod ed user = AUTH_METHOD_FINGERPRINT /\ user <> me (client m)
        else AUTH_METHOD_SEEN <= getAuthMethod ed user).

Lemma verified_contact m user :
  rings_ok m -> verificationRequired user m = false -> contact_verified m user.
Proof using.
  intros Hr. unfold verificationRequired, contact_verified, areCredentialsVerified.
  destruct (mManualVerification m).
  - intros E%negb_false_iff. destruct (user =? me (client m)) eqn:Em; [done|].
    destruct (omap_find ATTR_AUTHCU255 (mAuthRings m)) as [cu|] eqn:Ec; [|done].
    destruct (AuthRing.areCredentialsVerified cu user) eqn:Ecv; [|done].
    destruct (omap_find ATTR_AUTHRING (mAuthRings m)) as [ed|] eqn:Ee; [|done].
    exists ed, cu. unfold AuthRing.areCredentialsVerified, isSignedKey in *.
    rewrite (Hr _ _ Ec) in Ecv. rewrite (Hr _ _ Ee) in E. cbn in Ecv, E. zbool. done.
  - destruct (omap_find ATTR_AUTHRING (mAuthRings m)) as [ed|]; [|done].
    case_if; [done|]. destruct (omap_find ATTR_AUTHCU255 (mAuthRings m)) as [cu|]; [|done].
    intros E%negb_false_iff. zbool. by exists ed, cu.
Qed.

(** What the exchange of keys depends on. *)
Record same m m' : Prop := {
  same_shares : mShareKeys (keys m') = mShareKeys (keys m);
  same_inshares : mPendingInShares (keys m') = mPendingInShares (keys m);
  same_rings : mAuthRings m' = mAuthRings m;
  same_manual : mManualVerification m' = mManualVerification m;
  same_client : client m' = client m
}.

Lemma same_deps_refl m : same m m.
Proof using. done. Qed.
Lemma same_deps_trans m1 m2 m3 : same m1 m2 -> same m2 m3 -> same m1 m3.
Proof using. intros [] []. split; congruence. Qed.

(** Whom a command tells which key. *)
Definition sent_ok m (p : PendingKeys) : Prop :=
  verificationRequired (pk_user p) m = false
  /\ exists key flags, omap_find (pk_node p) (mShareKeys (keys m)) = Some (key, flags)
    /\ length key = BLOCKSIZE
    /\ pk_key p = aes_encrypt (computeSymmetricKey (pk_user p) m) key.

Lemma same_required m m' user : same m m' -> verificationRequired user m' = verificationRequired user m.
Proof using.
  intros []. unfold verificationRequired, areCredentialsVerified.
  by rewrite same_rings0, same_manual0, same_client0.
Qed.

Lemma same_symmetric m m' user : same m m' -> computeSymmetricKey user m' = computeSymmetricKey user m.
Proof using. intros []. unfold computeSymmetricKey. by rewrite same_client0. Qed.

Lemma same_decrypt m m' user key : same m m' -> decryptShareKeyFrom user key m' = decryptShareKeyFrom user key m.
Proof using.
  intros Hs. unfold decryptShareKeyFrom.
  by rewrite (same_required _ _ _ Hs), (same_symmetric _ _ _ Hs).
Qed.

Lemma same_sent_ok m m' p : same m m' -> sent_ok m' p -> sent_ok m p.
Proof using.
  intros Hs (H1 & key & flags & H2 & H3 & H4). rewrite (same_required _ _ _ Hs) in H1.
  rewrite (same_symmetric _ _ _ Hs) in H4. split; [done|]. exists key, flags.
  rewrite (same_shares _ _ Hs) in H2. done.
Qed.

(** Commands are queued, nothing else changes. *)
Definition sends m (l : list PendingKeys) m' : Prop :=
  same m m' /\ (queued m' = queued m ++ l /\ keys m' = keys m) /\ Forall (sent_ok m) l.

Lemma sends_nil m : sends m [] m.
Proof using. split; [apply same_deps_refl|]. by rewrite app_nil_r. Qed.

Lemma sends_app m1 l1 m2 l2 m3 : sends m1 l1 m2 -> sends m2 l2 m3 -> sends m1 (l1 ++ l2) m3.
Proof using.
  intros (S1 & [Q1 K1] & F1) (S2 & [Q2 K2] & F2).
  split_and!; [by eapply same_deps_trans|by rewrite Q2, Q1, app_assoc|by rewrite K2|].
  apply Forall_app; split; [done|]. eapply Forall_impl; [exact F2|]. intros p. by apply same_sent_ok.
Qed.

Lemma sends_foldl {X} (f : KeyManager -> X -> KeyManager) xs m :
  (forall m x, exists l, sends m l (f m x)) -> exists l, sends m l (foldl f m xs).
Proof using.
  intros Hf. revert m. induction xs as [|x xs IH]; intros m; simpl; [exists []; apply sends_nil|].
  destruct (Hf m x) as [l1 H1], (IH (f m x)) as [l2 H2]. exists (l1 ++ l2). by eapply sends_app.
Qed.

Lemma sendPendingKey_sends node u m :
  exists l, sends m l (sendPendingKey node u m).2
    /\ ((sendPendingKey node u m).1 = true ->
        exists key, l = [pk (userhandle u) node key]).
Proof using.
  unfold sendPendingKey. destruct (omap_find node (mShareKeys (keys m))) as [[key flags]|] eqn:E.
  - case_bool_decide as Ek; [exists []; split; [apply sends_nil|done]|].
    eexists. split; [|by eexists]. split; [done|]. split; [done|]. constructor; [|constructor].
    unfold encryptShareKeyTo in *. destruct (verificationRequired (userhandle u) m) eqn:Ev; [done|].
    case_bool_decide; [done|]. destruct (negb _) eqn:El; [done|].
    apply negb_false_iff, Nat.eqb_eq in El. split; [done|]. by exists key, flags.
  - exists []. split; [apply sends_nil|done].
Qed.

Lemma propagate_sends node uids m : exists l, sends m l (propagateKeysForNestedShares node uids m).
Proof using.
  assert (forall m : KeyManager, exists l, sends m l m) as Hrefl by (intros; exists []; apply sends_nil).
  unfold propagateKeysForNestedShares. destruct (nodebyhandle node (client m)); [|apply Hrefl].
  apply sends_foldl. intros m1 sn. destruct (outshares sn) as [shares|]; [|apply Hrefl]. cbv zeta.
  set (m2 := if isbelow node _ _ then _ else _).
  assert (exists l, sends m1 l m2) as [l1 H1].
  { subst m2. case_if; [|apply Hrefl]. unfold tell_higher. apply sends_foldl. intros m3 [u|]; [|apply Hrefl].
    case_if; [apply Hrefl|]. destruct (sendPendingKey_sends node u m3) as (l & Hl & _). by exists l. }
  case_if; [|by exists l1].
  assert (exists l, sends m2 l (tell_lower (nodehandle sn) uids m2)) as [l2 H2].
  { unfold tell_lower. apply sends_foldl. intros m3 u. destruct (finduser u _) as [user|]; [|apply Hrefl].
    destruct (sendPendingKey_sends (nodehandle sn) user m3) as (l & Hl & _). by exists l. }
  exists (l1 ++ l2). by eapply sends_app.
Qed.

(** Everyone in [del] was told the key of the folder. *)
Definition told (l : list PendingKeys) (w : W) (node : Z) (u : bytes) : Prop :=
  exists user p, finduser u w = Some user /\ p ∈ l /\ pk_node p = node /\ pk_user p = userhandle user.

Lemma told_app l1 l2 w node u : told l1 w node u \/ told l2 w node u -> told (l1 ++ l2) w node u.
Proof using.
  intros [(user & p & H1 & H2 & H3)|(user & p & H1 & H2 & H3)]; exists user, p;
    (split; [done|split; [|done]]); rewrite elem_of_app; auto.
Qed.

Lemma promote_sharees_sends node us m :
  exists l, sends m l (promote_sharees node us m).2
    /\ Forall (told l (client m) node) (promote_sharees node us m).1.
Proof using.
  unfold promote_sharees.
  set (f := fun '(keysToDelete, m0) u => _).
  assert (forall us del m0 l0, sends m l0 m0 -> Forall (told l0 (client m) node) del ->
    exists l, sends m l (foldl f (del, m0) us).2 /\ Forall (told l (client m) node) (foldl f (del, m0) us).1) as G.
  { clear us. induction us as [|u us IH]; intros del m0 l0 S0 F0; simpl; [by exists l0|].
    pose proof (same_client _ _ (proj1 S0)) as Ec.
    destruct (finduser u (client m0)) as [user|] eqn:Eu; [|by eapply IH].
    destruct (verificationRequired _ m0); [by eapply IH|].
    destruct (sendPendingKey node user m0) as [sent m1] eqn:Es.
    destruct (sendPendingKey_sends node user m0) as (l1 & H1 & K1). rewrite Es in H1, K1. cbn in H1, K1.
    apply (IH _ m1 (l0 ++ l1)); [by eapply sends_app|].
    assert (Forall (told (l0 ++ l1) (client m) node) del) as F1.
    { eapply Forall_impl; [exact F0|]. intros v ?. apply told_app. by left. }
    destruct sent; [|done]. apply Forall_app; split; [done|]. constructor; [|constructor].
    destruct (K1 eq_refl) as [key ->]. apply told_app. right. rewrite Ec in Eu.
    exists user, (pk (userhandle user) node key). split_and!; [done|constructor|done..]. }
  apply (G us [] m []); [apply sends_nil|constructor].
Qed.

(** A sharee of a folder waits for its key. *)
Definition waits (outs : OutShares) (node : Z) (u : bytes) : Prop :=
  is_Some (omap_find u (default [] (omap_find node outs))).

Definition sets_ok (outs : OutShares) : Prop :=
  omap_ok outs /\ forall h s, omap_find h outs = Some s -> omap_ok s.

Lemma erase_sharee_waits h u outs :
  sets_ok outs ->
  sets_ok (erase_sharee h u outs).2
  /\ forall h' u', waits outs h' u' -> waits (erase_sharee h u outs).2 h' u' \/ (h' = h /\ u' = u).
Proof using.
  intros [Hm Hs]. unfold erase_sharee. cbn [snd].
  assert (omap_ok (default [] (omap_find h outs))) as Hd.
  { destruct (omap_find h outs) as [s|] eqn:E; [by apply Hs in E|done]. }
  split.
  - split; [by apply insert_ok|]. intros h' s. destruct (decide (h = h')) as [<-|Hne].
    + rewrite find_insert_eq. intros [= <-]. by apply erase_ok.
    + rewrite find_insert_ne by done. apply Hs.
  - intros h' u' Hw. destruct (decide (h = h')) as [<-|Hne].
    + destruct (decide (u = u')) as [<-|Hu]; [by right|]. left. unfold waits.
      rewrite find_insert_eq. change (default [] (Some ?x)) with x.
      by rewrite find_erase_ne.
    + left. unfold waits. by rewrite find_insert_ne.
Qed.

Lemma removePendingOutShare_same h u m : same m (removePendingOutShare h u m).2.
Proof using. unfold removePendingOutShare. by destruct (finduser u (client m)). Qed.

(** The users whose entry is removed were told the key of the folder. *)
Definition served (l : list PendingKeys) (w : W) (node : Z) (u : bytes) : Prop :=
  exists v user p, finduser v w = Some user /\ (u = email user \/ u = uid user)
    /\ p ∈ l /\ pk_node p = node /\ pk_user p = userhandle user.

Lemma removePendingOutShare_waits h u m l :
  sets_ok (mPendingOutShares (keys m)) -> told l (client m) h u ->
  let outs' := mPendingOutShares (keys (removePendingOutShare h u m).2) in
  sets_ok outs'
  /\ forall h' u', waits (mPendingOutShares (keys m)) h' u' -> waits outs' h' u' \/ served l (client m) h' u'.
Proof using.
  intros Hok (user & p & Hu & Hp). unfold removePendingOutShare. rewrite Hu. cbv zeta.
  destruct (erase_sharee h (email user) _) as [b1 o1] eqn:E1.
  destruct (erase_sharee h (uid user) o1) as [b2 o2] eqn:E2. cbn.
  destruct (erase_sharee_waits h (email user) _ Hok) as [K1 P1]. rewrite E1 in K1, P1. cbn in K1, P1.
  destruct (erase_sharee_waits h (uid user) _ K1) as [K2 P2]. rewrite E2 in K2, P2. cbn in K2, P2.
  split; [done|]. intros h' u' Hw.
  destruct (P1 _ _ Hw) as [Hw1|[-> ->]]; [destruct (P2 _ _ Hw1) as [Hw2|[-> ->]]; [by left|]|];
    right; exists u, user, p; naive_solver.
Qed.

Lemma served_mono l1 l2 w node u : l1 ⊆ l2 -> served l1 w node u -> served l2 w node u.
Proof using. intros Hl (v & user & p & ? & ? & ? & ?). exists v, user, p. naive_solver. Qed.

(** One promotion, or several. *)
Definition promotes m (l : list PendingKeys) m' : Prop :=
  same m m' /\ queued m' = queued m ++ l /\ Forall (sent_ok m) l
  /\ sets_ok (mPendingOutShares (keys m'))
  /\ forall h u, waits (mPendingOutShares (keys m)) h u ->
       waits (mPendingOutShares (keys m')) h u \/ served l (client m) h u.

Lemma promotes_app m1 l1 m2 l2 m3 : promotes m1 l1 m2 -> promotes m2 l2 m3 -> promotes m1 (l1 ++ l2) m3.
Proof using.
  intros (S1 & Q1 & F1 & O1 & W1) (S2 & Q2 & F2 & O2 & W2).
  split_and!; [by eapply same_deps_trans|by rewrite Q2, Q1, app_assoc| |done|].
  - apply Forall_app; split; [done|]. eapply Forall_impl; [exact F2|]. intros p. by apply same_sent_ok.
  - intros h u Hw. destruct (W1 h u Hw) as [Hw1|Hs1].
    + destruct (W2 h u Hw1) as [|Hs2]; [by left|]. right. rewrite (same_client _ _ S1) in Hs2.
      eapply served_mono; [|exact Hs2]. set_solver.
    + right. eapply served_mono; [|exact Hs1]. set_solver.
Qed.

Lemma sends_promotes m l m' : sets_ok (mPendingOutShares (keys m)) -> sends m l m' -> promotes m l m'.
Proof using.
  intros Ho (S1 & [Q1 K1] & F1). split_and!; [done|done|done|by rewrite K1|].
  intros. left. by rewrite K1.
Qed.

Lemma remove_told l m0 node us m :
  Forall (told l (client m0) node) us -> promotes m0 l m ->
  promotes m0 l (foldl (fun m u => (removePendingOutShare node u m).2) m us).
Proof using.
  intros Hus. revert m. induction Hus as [|u us Hu Hus IH]; intros m Hp; [done|]. cbn [foldl]. apply IH.
  destruct Hp as (S1 & Q1 & F1 & O1 & W1). pose proof (removePendingOutShare_same node u m) as S2.
  rewrite <- (same_client _ _ S1) in Hu.
  destruct (removePendingOutShare_waits node u m l O1 Hu) as [O2 W2].
  split_and!; [by eapply same_deps_trans| |done|done|].
  - rewrite <- Q1. unfold removePendingOutShare. by destruct (finduser u (client m)).
  - intros h' u' Hw. destruct (W1 _ _ Hw) as [Hw1|]; [|by right].
    destruct (W2 _ _ Hw1) as [|Hs]; [by left|]. right. by rewrite (same_client _ _ S1) in Hs.
Qed.

Lemma promote_outshares_promotes m :
  sets_ok (mPendingOutShares (keys m)) -> exists l, promotes m l (promote_outshares m).2.
Proof using.
  intros Hok. unfold promote_outshares.
  set (f := fun '(attributeUpdated, m0) e => _).
  assert (forall es b m0 l0, promotes m l0 m0 -> exists l, promotes m l (foldl f (b, m0) es).2) as G.
  { induction es as [|[node s] es IH]; intros b m0 l0 P0; cbn [foldl]; [by exists l0|].
    destruct (f (b, m0) (node, s)) as [b1 m1] eqn:E.
    assert (exists l, promotes m0 l m1) as [l1 P1].
    { unfold f in E. cbn [fst snd] in E. destruct (promote_sharees node s.*1 m0) as [del m2] eqn:Es.
      destruct (promote_sharees_sends node s.*1 m0) as (l2 & S2 & T2). rewrite Es in S2, T2. cbn in S2, T2.
      injection E as _ <-. destruct P0 as (_ & _ & _ & O0 & _).
      set (m3 := if bool_decide _ then _ else _).
      assert (exists l, sends m2 l m3) as [l3 S3].
      { subst m3. case_bool_decide; [exists []; apply sends_nil|]. apply propagate_sends. }
      exists (l2 ++ l3). apply remove_told.
      - eapply Forall_impl; [exact T2|]. intros u ?. apply told_app. by left.
      - apply sends_promotes; [done|]. by eapply sends_app. }
    apply (IH _ m1 (l0 ++ l1)). by eapply promotes_app. }
  apply (G _ _ m []). split_and!; [apply same_deps_refl|by rewrite app_nil_r|constructor|done|by left].
Qed.

(** The key of a pending in-share, once its sharer is verified. *)
Definition inshare_node (b64 : bytes) : Z := le_value (default [] (Base64.atob b64 6)).
Definition inshare_key m (uh : Z) (enc : bytes) : bytes :=
  decryptShareKeyFrom uh (if (16 <? length enc)%nat then default [] (Base64.atob_string enc) else enc) m.

Definition received m (b64 : bytes) (uh : Z) (enc : bytes) : Prop :=
  verificationRequired uh m = false /\ inshare_key m uh enc <> [].

Definition established m (b64 : bytes) (uh : Z) : Prop :=
  exists node, nodebyhandle (inshare_node b64) (client m) = Some node
    /\ inshare node = Some uh /\ keyApplied node = true.

(** Where the keys of folders come from, in [m'] after some in-shares of [m]. *)
Definition keys_from m m' : Prop :=
  omap_ok (mShareKeys (keys m'))
  /\ forall h, omap_find h (mShareKeys (keys m')) = omap_find h (mShareKeys (keys m))
      \/ exists b64 uh enc, (b64, (uh, enc)) ∈ mPendingInShares (keys m) /\ h = inshare_node b64
           /\ received m b64 uh enc /\ omap_find h (mShareKeys (keys m')) = Some (inshare_key m uh enc, 1).

Definition settled m (b64 : bytes) : Prop :=
  exists uh enc, (b64, (uh, enc)) ∈ mPendingInShares (keys m)
    /\ (received m b64 uh enc \/ established m b64 uh).

Definition same_but_shares m m' : Prop :=
  mAuthRings m' = mAuthRings m /\ mManualVerification m' = mManualVerification m
  /\ client m' = client m /\ queued m' = queued m
  /\ mPendingInShares (keys m') = mPendingInShares (keys m)
  /\ mPendingOutShares (keys m') = mPendingOutShares (keys m).

Lemma but_shares_required m m' user :
  same_but_shares m m' -> verificationRequired user m' = verificationRequired user m.
Proof using.
  intros (E1 & E2 & E3 & _). unfold verificationRequired, areCredentialsVerified. by rewrite E1, E2, E3.
Qed.

Lemma but_shares_key m m' uh enc : same_but_shares m m' -> inshare_key m' uh enc = inshare_key m uh enc.
Proof using.
  intros Hs. pose proof (but_shares_required m m' uh Hs) as Er. destruct Hs as (_ & _ & E3 & _).
  unfold inshare_key, decryptShareKeyFrom, computeSymmetricKey. by rewrite Er, E3.
Qed.

Lemma promote_inshare_from m0 del ns m it :
  it ∈ mPendingInShares (keys m0) -> same_but_shares m0 m -> keys_from m0 m -> Forall (settled m0) del ->
  let '(del', ns', m') := promote_inshare (del, ns, m) it in
  same_but_shares m0 m' /\ keys_from m0 m' /\ Forall (settled m0) del'.
Proof using.
  destruct it as [b64 [uh enc]]. intros Hit Hs Hk Hd.
  pose proof (but_shares_required m0 m uh Hs) as Er. pose proof (but_shares_key m0 m uh enc Hs) as Ek.
  unfold promote_inshare. cbn [fst snd]. rewrite Er. fold (inshare_node b64).
  fold (inshare_key m uh enc). rewrite Ek.
  destruct (verificationRequired uh m0) eqn:Ev; cbn [negb].
  - destruct (nodebyhandle _ (client m)) as [node|] eqn:En; [|done].
    case_if; [|done]. apply andb_true_iff in Heqb as [[K1 K2%bool_decide_eq_true]%andb_true_iff _].
    split; [exact Hs|]. split; [exact Hk|].
    apply Forall_app; split; [done|]. constructor; [|constructor]. exists uh, enc. split; [done|]. right.
    exists node. by rewrite (proj1 (proj2 (proj2 Hs))) in En.
  - case_bool_decide as Dk; [done|]. cbn [addShareKey snd].
    split; [exact Hs|]. split.
    + destruct Hk as [Ho Hk]. split; [by apply insert_ok|]. intros h. cbn.
      destruct (decide (inshare_node b64 = h)) as [<-|Hne].
      * right. exists b64, uh, enc. split; [done|]. split; [done|]. split; [done|].
        by rewrite find_insert_eq.
      * rewrite find_insert_ne by done. apply Hk.
    + apply Forall_app; split; [done|]. constructor; [|constructor]. exists uh, enc. split; [done|]. by left.
Qed.

Lemma promote_inshares_from m0 its del ns m :
  its ⊆ mPendingInShares (keys m0) -> same_but_shares m0 m -> keys_from m0 m -> Forall (settled m0) del ->
  let '(del', ns', m') := foldl promote_inshare (del, ns, m) its in
  same_but_shares m0 m' /\ keys_from m0 m' /\ Forall (settled m0) del'.
Proof using.
  revert del ns m. induction its as [|it its IH]; intros del ns m Hi Hs Hk Hd; [done|]. cbn [foldl].
  pose proof (promote_inshare_from m0 del ns m it ltac:(apply Hi; by left) Hs Hk Hd) as G.
  destruct (promote_inshare (del, ns, m) it) as [[del1 ns1] m1]. destruct G as (? & ? & ?).
  apply IH; [|done..]. intros x Hx. apply Hi. by right.
Qed.

Lemma remove_inshares del m :
  omap_ok (mPendingInShares (keys m)) ->
  let m' := foldl (fun m h => (removePendingInShare h m).2) m del in
  set_keys (set_mPendingInShares (mPendingInShares (keys m')) (keys m)) m = m'
  /\ (forall b64, b64 ∉ del ->
      omap_find b64 (mPendingInShares (keys m')) = omap_find b64 (mPendingInShares (keys m))).
Proof using.
  revert m. induction del as [|h del IH]; intros m Ho; cbn [foldl].
  { split; [|done]. by destruct m as [[] ?]. }
  destruct (IH (removePendingInShare h m).2) as [E1 E2]; [by apply erase_ok|]. split.
  - rewrite <- E1 at 2. done.
  - intros b64 [Hne Hnd]%not_elem_of_cons. rewrite E2 by done. cbn. by apply find_erase_ne.
Qed.

(** The tables of the keys are sorted. *)
Definition tables_ok (k : Keys) : Prop :=
  omap_ok (mShareKeys k) /\ sets_ok (mPendingOutShares k) /\ omap_ok (mPendingInShares k).

Lemma keys_tables k : keys_ok k -> tables_ok k.
Proof using.
  intros []. destruct ok_sharekeys0 as [[? _] _], ok_outshares0 as [[? Ho] _], ok_inshares0 as [[? _] _].
  split_and!; [done|split; [done|]|done]. intros h s E. apply (find_Forall _ _ _ _ E) in Ho.
  by destruct Ho as (_ & ? & _).
Qed.

End promotion.
End Promotion.

Section promotion_theorem.
Import Keys KeyManager Promotion.
Context {W : Type} `{KeyClient W} `{KeyCrypto}.

(** C15: Promoting pending shares sends share keys to verified contacts only, each
    encrypted with the key shared with that contact; every waiting sharee keeps
    waiting or belongs to a user who was sent the key of that folder; the key of a
    folder is unchanged or the trusted key that a verified sharer sent for it; and
    a pending in-share stays until its key was received or its folder is already
    usable. *)
Theorem shares_promoted (m : KeyManager) :
  tables_ok (keys m) -> rings_ok m ->
  let m' := (promotePendingShares m).2 in
  exists l, queued m' = queued m ++ l
  /\ Forall (fun p => contact_verified m (pk_user p)
       /\ exists key flags, omap_find (pk_node p) (mShareKeys (keys m)) = Some (key, flags)
          /\ pk_key p = aes_encrypt (computeSymmetricKey (pk_user p) m) key) l
  /\ (forall node u, waits (mPendingOutShares (keys m)) node u ->
       waits (mPendingOutShares (keys m')) node u \/ served l (client m) node u)
  /\ (forall node, omap_find node (mShareKeys (keys m')) = omap_find node (mShareKeys (keys m))
       \/ exists b64 uh enc, (b64, (uh, enc)) ∈ mPendingInShares (keys m) /\ node = inshare_node b64
            /\ contact_verified m uh
            /\ omap_find node (mShareKeys (keys m')) = Some (inshare_key m uh enc, 1))
  /\ (forall b64, omap_find b64 (mPendingInShares (keys m')) = omap_find b64 (mPendingInShares (keys m))
       \/ settled m b64).
Proof.
  intros (Hsk & Hso & Hsi) Hr m'. subst m'. unfold promotePendingShares.
  destruct (promote_outshares_promotes m Hso) as (l & S1 & Q1 & F1 & O1 & W1).
  destruct (promote_outshares m) as [b m1]. cbn [snd] in *.
  assert (same_but_shares m1 m1) as Sb by done.
  pose proof (promote_inshares_from m1 (mPendingInShares (keys m1)) [] false m1 ltac:(done) Sb) as G.
  destruct (foldl promote_inshare _ _) as [[del ns] m2].
  destruct G as ((B1 & B2 & B3 & B4 & B5 & B6) & (_ & Hk) & Hd).
  { split; [by rewrite (same_shares _ _ S1)|by left]. }
  { constructor. }
  pose proof (remove_inshares del m2 ltac:(by rewrite B5, (same_inshares _ _ S1))) as [E1 E2].
  set (m3 := foldl _ m2 del) in *. exists l.
  set (m4 := if ns then mergenewshares m3 else m3).
  assert (keys m4 = keys m3 /\ queued m4 = queued m3) as [K4 Q4] by (subst m4; by destruct ns).
  assert (queued m3 = queued m2 /\ mShareKeys (keys m3) = mShareKeys (keys m2)
    /\ mPendingOutShares (keys m3) = mPendingOutShares (keys m2)) as (Q3 & K3 & P3) by by rewrite <- E1.
  assert (forall uh enc, inshare_key m1 uh enc = inshare_key m uh enc) as Ek
    by (intros; apply same_decrypt, S1).
  cbn [snd]. rewrite K4, Q4, Q3, K3, P3. split_and!.
  - by rewrite B4.
  - eapply Forall_impl; [exact F1|]. intros p (V1 & key & flags & V2 & _ & V3).
    split; [by apply verified_contact|]. by exists key, flags.
  - rewrite B6. exact W1.
  - intros h. destruct (Hk h) as [E|(b64 & uh & enc & I1 & I2 & [I3 _] & I4)].
    + left. by rewrite E, (same_shares _ _ S1).
    + right. exists b64, uh, enc. rewrite (same_inshares _ _ S1) in I1.
      rewrite (same_required _ _ _ S1) in I3. rewrite I4, Ek.
      split_and!; [done|done|by apply verified_contact|done].
  - intros b64. destruct (decide (b64 ∈ del)) as [Hin|Hn].
    + right. rewrite Forall_forall in Hd. destruct (Hd _ Hin) as (uh & enc & I1 & I2).
      exists uh, enc. rewrite (same_inshares _ _ S1) in I1. split; [done|].
      destruct I2 as [[I2 I3]|(node & I2)]; [left|right].
      * split; [by rewrite <- (same_required _ _ _ S1)|by rewrite <- Ek].
      * exists node. by rewrite (same_client _ _ S1) in I2.
    + left. by rewrite E2, B5, (same_inshares _ _ S1).
Qed.

End promotion_theorem.

(** *** A client to evaluate the definitions on *)

Module Demo.
Import Keys AuthRing KeyManager.

(** Users 7 and 8; folders 3 and 4, the first one shared by user 8. *)
Definition alice : User := MkUser 7 (str "alice@x.y") (toHandle 7) (Some (replicate 32 5)).
Definition bob : User := MkUser 8 (str "bob@x.y") (toHandle 8) (Some (replicate 32 6)).

#[export] Instance demo_client : KeyClient unit := {
  me _ := 1;
  umindex e _ := if bool_decide (e = str "alice@x.y") then Some alice
                 else if bool_decide (e = str "bob@x.y") then Some bob else None;
  uhindex h _ := if h =? 7 then Some alice else if h =? 8 then Some bob else None;
  nodebyhandle h _ := if h =? 3 then Some (MkNode (Some 8) false false) else None;
  getNodesWithOutShares _ := [];
  isbelow _ _ _ := false;
  isShared _ _ := false;
  mergenewshare _ _ w := w;
  decodeRSAKey _ w := w
}.

(** Toy primitives. *)
#[export] Instance demo_crypto : KeyCrypto := {
  ecdh k := Some k;
  hmac_sha256 k x := take 32 (x ++ k ++ replicate 32 0);
  aes_encrypt k x := zip_with Z.lxor k x;
  aes_decrypt k x := zip_with Z.lxor k x
}.

Definition ring (t : Z) (m : Z) : AuthRing :=
  MkAuthRing t [(7, replicate 20 1); (8, replicate 20 2)] [(7, m); (8, m)] true.

(** The share of folder 4 waits for alice, and bob sent the key of folder 3. *)
Definition demo_keys : Keys :=
  MkKeys 1 0 1 5 [] (replicate 32 1) (replicate 32 2) [] [] [] [] [] [(4, (replicate 16 9, 1))]
    [(4, [(str "alice@x.y", tt)])] [(toNodeHandle 3, (8, replicate 16 3))] [].

Definition demo : KeyManager (W:=unit) :=
  MkKM demo_keys false false false
    [(ATTR_AUTHRING, ring ATTR_AUTHRING AUTH_METHOD_SEEN);
     (ATTR_AUTHCU255, ring ATTR_AUTHCU255 AUTH_METHOD_SIGNATURE)] [] [] tt.

Lemma demo_rings : Promotion.rings_ok demo.
Proof.
  intros t r. unfold demo. cbn [mAuthRings]. unfold omap_find, kltb. cbn.
  repeat case_match; intros E; simplify_eq; zbool; unfold ATTR_AUTHRING, ATTR_AUTHCU255 in *; cbn; lia.
Qed.

Lemma demo_tables : Promotion.tables_ok demo_keys.
Proof.
  split; [repeat constructor|]. split; [split; [repeat constructor|]|repeat constructor].
  intros h s. unfold omap_find, kltb. cbn. repeat case_match; intros; simplify_eq. repeat constructor.
Qed.

End Demo.

#[local] Existing Instance Demo.demo_client.
#[local] Existing Instance Demo.demo_crypto.

Lemma shares_promoted_witness :
  exists p, KeyManager.queued (KeyManager.promotePendingShares Demo.demo).2 = [p]
    /\ Promotion.contact_verified Demo.demo (pk_user p) /\ pk_user p = 7
    /\ omap_find 3 (Keys.mShareKeys (KeyManager.keys (KeyManager.promotePendingShares Demo.demo).2))
       = Some (Promotion.inshare_key Demo.demo 8 (replicate 16 3), 1).
Proof.
  destruct (shares_promoted Demo.demo Demo.demo_tables Demo.demo_rings) as (l & Q & F & _ & S & _).
  assert (exists p, KeyManager.queued (KeyManager.promotePendingShares Demo.demo).2 = [p] /\ pk_user p = 7)
    as (p & Hq & Hp) by (eexists; split; vm_compute; reflexivity).
  exists p. split; [exact Hq|]. change (KeyManager.queued Demo.demo) with (@nil PendingKeys) in Q.
  rewrite Hq in Q. cbn [app] in Q. subst l. apply Forall_cons in F as [[F _] _].
  split; [exact F|]. split; [exact Hp|]. vm_compute. reflexivity.
Defined.

(** ** The container *)

Module Container.
Import Keys AuthRing KeyManager Promotion.

Section container.
Context {W : Type} `{KeyClient W} `{KeyCrypto}.
Implicit Types (m : KeyManager (W:=W)).

(** What promoting shares leaves alone. *)
Definition core (k : Keys) : Keys :=
  set_mShareKeys [] (set_mPendingOutShares [] (set_mPendingInShares [] k)).

Definition frame m : Keys * bool * bool * bool * list (Z * AuthRing) :=
  (core (keys m), mDowngradeAttack m, mManualVerification m, mPostRegistration m, mAuthRings m).

Lemma foldl_frame {X} (f : KeyManager -> X -> KeyManager) xs m :
  (forall m x, frame (f m x) = frame m) -> frame (foldl f m xs) = frame m.
Proof using.
  intros Hf. revert m. induction xs as [|x xs IH]; intros m; simpl; [done|]. by rewrite IH, Hf.
Qed.

Lemma foldl_frame_pair {X Y} (f : Y * KeyManager -> X -> Y * KeyManager) xs y m :
  (forall y m x, frame (f (y, m) x).2 = frame m) -> frame (foldl f (y, m) xs).2 = frame m.
Proof using.
  intros Hf. revert y m. induction xs as [|x xs IH]; intros y m; cbn [foldl]; [done|].
  specialize (Hf y m x). destruct (f (y, m) x) as [y1 m1]. cbn in Hf. by rewrite IH.
Qed.

Lemma sendPendingKey_frame node u m : frame (sendPendingKey node u m).2 = frame m.
Proof using.
  unfold sendPendingKey. destruct (omap_find _ _) as [[key ?]|]; [|done]. by case_bool_decide.
Qed.

Lemma removePendingOutShare_frame h u m : frame (removePendingOutShare h u m).2 = frame m.
Proof using. unfold removePendingOutShare. by destruct (finduser u (client m)). Qed.

Lemma propagate_frame node us m : frame (propagateKeysForNestedShares node us m) = frame m.
Proof using.
  unfold propagateKeysForNestedShares. destruct (nodebyhandle _ _); [|done].
  apply foldl_frame. intros m1 sn. destruct (outshares sn) as [shares|]; [|done]. cbv zeta.
  set (m2 := if isbelow node _ _ then _ else _).
  assert (frame m2 = frame m1) as <-.
  { subst m2. case_if; [|done]. apply foldl_frame. intros m3 [u|]; [|done].
    case_if; [done|]. apply sendPendingKey_frame. }
  case_if; [|done]. apply foldl_frame. intros m3 u. destruct (finduser u _); [|done].
  apply sendPendingKey_frame.
Qed.

Lemma promote_outshares_frame m : frame (promote_outshares m).2 = frame m.
Proof using.
  unfold promote_outshares. apply foldl_frame_pair. intros b m1 [node s]. cbn [fst snd].
  destruct (promote_sharees node s.*1 m1) as [del m2] eqn:E. cbn [snd].
  assert (frame m2 = frame m1) as <-.
  { change m2 with (del, m2).2. rewrite <- E. unfold promote_sharees. apply foldl_frame_pair.
    intros d m3 u. destruct (finduser u (client m3)) as [user|]; [|done]. case_if; [done|].
    pose proof (sendPendingKey_frame node user m3) as F. by destruct (sendPendingKey node user m3) as [[] ?]. }
  rewrite foldl_frame by (intros; apply removePendingOutShare_frame).
  case_bool_decide; [done|apply propagate_frame].
Qed.

Lemma promote_frame m : frame (promotePendingShares m).2 = frame m.
Proof using.
  unfold promotePendingShares. pose proof (promote_outshares_frame m) as E1.
  destruct (promote_outshares m) as [b m1]. cbn [snd] in E1. rewrite <- E1. clear E1.
  assert (frame (foldl promote_inshare ([], false, m1) (mPendingInShares (keys m1))).2 = frame m1) as E2.
  { apply foldl_frame_pair. intros [del ns] m2 [b64 [uh enc]]. unfold promote_inshare.
    case_if; [case_bool_decide; done|]. destruct (nodebyhandle _ _); [by case_if|done]. }
  destruct (foldl promote_inshare _ _) as [[del ns] m2]. cbn [snd] in *. rewrite <- E2.
  transitivity (frame (foldl (fun m h => (removePendingInShare h m).2) m2 del)); [by destruct ns|].
  by apply foldl_frame.
Qed.

Lemma loadShareKeys_client m : exists w, loadShareKeys m = set_client w m.
Proof using.
  unfold loadShareKeys. generalize (mShareKeys (keys m)) as l. intros l. revert m.
  induction l as [|it l IH]; intros m; [exists (client m); by destruct m|]. cbn [foldl].
  destruct (nodebyhandle it.1 (client m)) as [n|]; [|apply IH]. destruct (has_sharekey n); [apply IH|].
  edestruct IH as [w E]. exists w. rewrite E. done.
Qed.

(** The keys after a container was accepted, but for the pending shares that are
    promoted at once. *)
Definition accepted (km old : Keys) : Keys :=
  set_mPrivEd25519 (if bool_decide (mPrivEd25519 old = []) then mPrivEd25519 km else mPrivEd25519 old)
  (set_mPrivCu25519 (if bool_decide (mPrivCu25519 old = []) then mPrivCu25519 km else mPrivCu25519 old)
  (set_mPrivRSA (if bool_decide (mPrivRSA old = []) && (512 <=? zlength (mPrivRSA km))
                 then mPrivRSA km else mPrivRSA old) km)).

Lemma take_ed km m :
  (if bool_decide (mPrivEd25519 (keys m) = []) then set_keys (set_mPrivEd25519 (mPrivEd25519 km) (keys m)) m else m)
  = set_keys (set_mPrivEd25519 (mPrivEd25519 (accepted km (keys m))) (keys m)) m.
Proof using. unfold accepted. cbn. case_bool_decide; [done|]. by destruct m as [[] ?]. Qed.

Lemma take_cu km m :
  (if bool_decide (mPrivCu25519 (keys m) = []) then set_keys (set_mPrivCu25519 (mPrivCu25519 km) (keys m)) m else m)
  = set_keys (set_mPrivCu25519 (mPrivCu25519 (accepted km (keys m))) (keys m)) m.
Proof using. unfold accepted. cbn. case_bool_decide; [done|]. by destruct m as [[] ?]. Qed.

Lemma take_rsa km m :
  exists w, (if bool_decide (mPrivRSA (keys m) = []) && (512 <=? zlength (mPrivRSA km))
   then set_client (decodeRSAKey (mPrivRSA km) (client m)) (set_keys (set_mPrivRSA (mPrivRSA km) (keys m)) m) else m)
  = set_client w (set_keys (set_mPrivRSA (mPrivRSA (accepted km (keys m))) (keys m)) m).
Proof using.
  unfold accepted. cbn [mPrivRSA set_mPrivEd25519 set_mPrivCu25519 set_mPrivRSA].
  destruct (_ && _); [by eexists|]. exists (client m). by destruct m as [[] ?].
Qed.

(** The private keys that are missing are taken over. *)
Definition with_private (a k : Keys) : Keys :=
  set_mPrivRSA (mPrivRSA a) (set_mPrivCu25519 (mPrivCu25519 a) (set_mPrivEd25519 (mPrivEd25519 a) k)).

Lemma valid_keys km m :
  mGeneration (keys m) <= mGeneration km ->
  exists w, isValidKeysContainer km m
    = (true, set_client w (set_keys (with_private (accepted km (keys m)) (keys m)) m)).
Proof using.
  intros Hg. unfold isValidKeysContainer. rewrite (proj2 (Z.ltb_ge _ _)) by done.
  rewrite take_ed, take_cu.
  match goal with |- context [if bool_decide (mPrivRSA (keys ?x) = []) && _ then _ else _] =>
    destruct (take_rsa km x) as [w E] end.
  exists w. f_equal. exact E.
Qed.

(** The rings that are read from the keys. *)
Definition rings_of (km : Keys) (rings : list (Z * AuthRing)) : list (Z * AuthRing) :=
  omap_insert ATTR_AUTHCU255 (new_AuthRing ATTR_AUTHCU255 (mAuthCu25519 km))
    (omap_erase ATTR_AUTHCU255
      (omap_insert ATTR_AUTHRING (new_AuthRing ATTR_AUTHRING (mAuthEd25519 km))
        (omap_erase ATTR_AUTHRING rings))).

Lemma assign_keys km k w0 m :
  exists w, assignValues km (set_client w0 (set_keys k m))
    = set_client w (set_mAuthRings (rings_of km (mAuthRings m)) (set_keys (with_private k km) m)).
Proof using.
  unfold assignValues, updateShareKeys. cbv zeta.
  set (m2 := updateAuthring ATTR_AUTHCU255 _ _). set (m3 := set_keys _ m2).
  destruct (loadShareKeys_client m3) as [w ->]. exists w. subst m3 m2. by destruct km.
Qed.

End container.
End Container.

Section container_theorems.
Import Keys AuthRing KeyManager Promotion Container.
Context {W : Type} `{KeyClient W} `{KeyCrypto} `{AEAD_laws}.

(** C14: A container of ^!keys is validated before anything is taken from it.  One
    that cannot be decrypted or read changes nothing; an older one than the known
    keys changes nothing but reports the attack; any other replaces the keys, the
    trusted keys of contacts and the records, keeps the private keys that are
    known, and promotes the pending shares.  So the generation never decreases. *)
Theorem keys_no_downgrade (data : bytes) (m : KeyManager (W:=W)) :
  let '(ok, promoted, m') := fromKeysContainer data m in
  generation m <= generation m'
  /\ match readContainer data with
     | None => ok = false /\ m' = m
     | Some km =>
         if mGeneration km <? generation m then ok = false /\ m' = set_mDowngradeAttack true m
         else
           ok = true /\ generation m' = mGeneration km
           /\ mDowngradeAttack m' = mDowngradeAttack m
           /\ mAuthRings m' = rings_of km (mAuthRings m)
           /\ core (keys m') = core (accepted km (keys m))
           /\ exists m1, keys m1 = accepted km (keys m) /\ mAuthRings m1 = rings_of km (mAuthRings m)
                /\ queued m1 = queued m /\ promotePendingShares m1 = (promoted, m')
     end.
Proof.
  unfold fromKeysContainer. destruct (readContainer data) as [km|]; [|by split].
  destruct (mGeneration km <? generation m) eqn:Eg.
  { unfold isValidKeysContainer. unfold generation in Eg. rewrite Eg. by split. }
  zbool. destruct (valid_keys km m Eg) as [w0 ->].
  unfold updateValues. destruct (assign_keys km (with_private (accepted km (keys m)) (keys m)) w0 m) as [w ->].
  match goal with |- context [promotePendingShares ?x] =>
    pose proof (promote_frame x) as F; set (m1 := x) in *; destruct (promotePendingShares m1) as [b m'] eqn:E end.
  cbn [snd] in F. pose proof (f_equal (fun x => x.1.1.1.1) F : core (keys m') = core (keys m1)) as Fc.
  pose proof (f_equal (fun x => x.1.1.1.2) F : mDowngradeAttack m' = mDowngradeAttack m1) as Fd.
  pose proof (f_equal snd F : mAuthRings m' = mAuthRings m1) as Fr.
  assert (keys m1 = accepted km (keys m)) as K1 by (subst m1; by destruct km).
  assert (generation m' = mGeneration km) as Gm.
  { unfold generation. change (mGeneration (keys m')) with (mGeneration (core (keys m'))).
    by rewrite Fc, K1. }
  split; [lia|]. split; [done|]. split; [exact Gm|]. split; [exact Fd|]. split; [exact Fr|].
  split; [by rewrite Fc, K1|]. exists m1. by rewrite K1.
Qed.

(** C36: What is written as ^!keys, any client with the same key reads as the keys
    that were written, with the next generation: the container round trip, for
    keys that are well formed and initialised, and whatever the initialisation
    vector is. *)
Theorem keys_container (iv uninit : bytes) (m : KeyManager (W:=W)) :
  keys_ok (keys m) -> mVersion (keys m) <> 0 ->
  length (mPrivEd25519 (keys m)) = SEED_KEY_LENGTH ->
  length (mPrivCu25519 (keys m)) = PRIVATE_KEY_LENGTH ->
  mGeneration (keys m) < 2 ^ 32 - 1 -> writable (mPendingOutShares (keys m)) ->
  length iv = IV_LEN -> zlength (serialize uninit (keys m)) <= 2 ^ 36 - 32 ->
  readContainer (toKeysContainer iv uninit m) = Some (written (keys m)).
Proof.
  intros Hok Hv Hed Hcu Hg Hw Hiv Hl. unfold toKeysContainer.
  rewrite (proj2 (Z.eqb_neq _ _)) by done. unfold Authenticated.gcm_encrypt.
  destruct (gcm_inverse 16 iv (serialize uninit (keys m))) as (c & -> & Lc & Oc);
    [by right|rewrite Hiv; unfold IV_LEN; lia|done|].
  unfold readContainer. cbn [app length]. rewrite length_app, Hiv.
  change (cchar (20 :: 0 :: iv ++ c)) with 20.
  rewrite (proj2 (Nat.ltb_lt 2 _)), (proj2 (Nat.ltb_lt (2 + IV_LEN) _)) by (unfold IV_LEN; lia).
  cbn [andb Z.eqb Pos.eqb]. change (drop 2 (20 :: 0 :: iv ++ c)) with (iv ++ c).
  change (drop (2 + IV_LEN) (20 :: 0 :: iv ++ c)) with (drop IV_LEN (iv ++ c)).
  rewrite take_app_exact, drop_app_exact by done. unfold Authenticated.gcm_decrypt. rewrite Oc.
  by apply KeysFacts.serialized.
Qed.

End container_theorems.

#[local] Existing Instance ToyAEAD.toy.
#[local] Existing Instance ToyAEAD.toy_laws.

Lemma keys_container_witness :
  KeyManager.readContainer (KeyManager.toKeysContainer (replicate 12 7) [1] Demo.demo)
  = Some (Keys.written Demo.demo_keys).
Proof.
  apply (keys_container (replicate 12 7) [1] Demo.demo); [|done..| |done|vm_compute; discriminate].
  - apply (KeysFacts.unserialize_keeps 1000 Keys.new_Keys (Keys.serialize [] (Keys.set_mGeneration 4 Demo.demo_keys)));
      [apply KeysFacts.new_Keys_ok| |vm_compute; reflexivity].
    apply (bool_decide_unpack (bytes_ok (Keys.serialize [] (Keys.set_mGeneration 4 Demo.demo_keys)))).
    vm_compute. exact I.
  - constructor; [|constructor]. constructor; [left; vm_compute; reflexivity|constructor].
Defined.
