(* ===== verification/KeyCommits.v ===== *)
(** * Commits of keys

    Changes of the keys of an account are committed ([KeyManager::commit],
    src/megaclient.cpp): a batch of changes is applied, the container is written
    to the user attribute, and where another client was faster the new value is
    fetched and the batch applied again.  The machine below executes the calls of
    [commit], [nextCommit], [tryCommit] and [updateAttribute] one after the other
    ([tasks] is the stack of the calls that are under way), with
    [MegaClient::putua] and the replies of the server to the two commands.

    Proved: every commit is answered exactly once and in order; a commit is only
    reported as stored when the server took a container after all changes of its
    batch had been applied; and the calls come to an end, with nothing left to do
    or a command on its way. *)

From S2P Require Import Prelude OMap Serialize Crypto Tlv Keys KeyManager.
Local Open Scope Z_scope.

Definition API_OK := 0.
Definition API_EINTERNAL := -1.
Definition API_EARGS := -2.
Definition API_EEXPIRED := -8.
Definition API_EACCESS := -11.
Definition API_EINCOMPLETE := -13.

(** [MAX_USER_VAR_SIZE], the limit of ^!keys. *)
Definition maxAttributeSize : Z := 16 * 1024 * 1024.

(** The functions that are passed to [commit]: the changes and the completion,
    both optional.  They work on the key manager; the commits they request are
    returned, since a commit that is requested while a batch is active is only
    queued. *)
Class CommitOps (C W : Type) := {
  applyChanges : C -> option (KeyManager.KeyManager (W:=W) -> KeyManager.KeyManager (W:=W) * list C);
  completion : C -> option (Z -> KeyManager.KeyManager (W:=W) -> KeyManager.KeyManager (W:=W) * list C)
}.

Module Commits.
Import Keys KeyManager.

Section commits.
Context {C W : Type} `{KeyClient W} `{KeyCrypto} `{AEAD} `{!CommitOps C W}.

(** What is committed: the promotion of pending shares after an update of the
    keys ([updateValues]), or what the client asks for. *)
Inductive Update := Promote | Client (c : C).

Inductive Task :=
  | DoCommit (u : Update)
  | Reject (u : Update)
  | TryCommit (e : Z)
  | Apply (u : Update)
  | UpdateAttribute
  | PutDone (e : Z)
  | Complete (u : Update) (e : Z)
  | FinishCommit
  | SetAttribute.

(** The command whose reply is awaited. *)
Inductive Flight := PutUA (data : bytes) | GetUA.

(** What happened, oldest first. *)
Inductive Obs :=
  | Accepted (u : Update)
  | Rejected (u : Update)
  | Started
  | Applied (u : Update)
  | Put (data : bytes)
  | Replied (e : Z)
  | Completed (u : Update) (e : Z).

(** [expired] and [ownUser] are the state of the cached attribute and whether
    the client still has its own user. *)
Record Machine := MkMachine {
  km : KeyManager (W:=W);
  activeQueue : list Update;
  nextQueue : list Update;
  tasks : list Task;
  flight : option Flight;
  expired : bool;
  ownUser : bool;
  log : list Obs
}.

Definition set_km x m := MkMachine x (activeQueue m) (nextQueue m) (tasks m) (flight m) (expired m) (ownUser m) (log m).
Definition set_active x m := MkMachine (km m) x (nextQueue m) (tasks m) (flight m) (expired m) (ownUser m) (log m).
Definition set_next x m := MkMachine (km m) (activeQueue m) x (tasks m) (flight m) (expired m) (ownUser m) (log m).
Definition set_tasks x m := MkMachine (km m) (activeQueue m) (nextQueue m) x (flight m) (expired m) (ownUser m) (log m).
Definition set_flight x m := MkMachine (km m) (activeQueue m) (nextQueue m) (tasks m) x (expired m) (ownUser m) (log m).
Definition set_expired x m := MkMachine (km m) (activeQueue m) (nextQueue m) (tasks m) (flight m) x (ownUser m) (log m).

(** Calls are executed before what is already under way. *)
Definition call (ts : list Task) (m : Machine) : Machine := set_tasks (ts ++ tasks m) m.
Definition note (o : Obs) (m : Machine) : Machine :=
  MkMachine (km m) (activeQueue m) (nextQueue m) (tasks m) (flight m) (expired m) (ownUser m) (log m ++ [o]).

(** *** The calls *)

Definition run_apply (u : Update) (k : KeyManager (W:=W)) : KeyManager (W:=W) * list C :=
  match u with
  | Promote => ((promotePendingShares k).2, [])
  | Client c => match applyChanges c with Some f => f k | None => (k, []) end
  end.

Definition run_completion (u : Update) (e : Z) (k : KeyManager (W:=W)) : KeyManager (W:=W) * list C :=
  match u with
  | Promote => (k, [])
  | Client c => match completion c with Some f => f e k | None => (k, []) end
  end.

(** A function of the client runs, and then the commits it requested. *)
Definition run (f : KeyManager (W:=W) -> KeyManager (W:=W) * list C) (m : Machine) : Machine :=
  let '(k, cs) := f (km m) in
  call (DoCommit <$> (Client <$> cs)) (set_km k m).

Definition nextCommit (m : Machine) : Machine :=
  if bool_decide (nextQueue m = []) then m
  else call [TryCommit API_EINCOMPLETE] (set_next [] (set_active (nextQueue m) m)).

Definition commit (u : Update) (m : Machine) : Machine :=
  if mVersion (keys (km m)) =? 0 then call [Reject u] m
  else
    let m := note (Accepted u) (set_next (nextQueue m ++ [u]) m) in
    if bool_decide (activeQueue m = []) then nextCommit m else m.

Definition tryCommit (e : Z) (m : Machine) : Machine :=
  if (e =? API_OK) || mDowngradeAttack (km m) || (e =? API_EARGS) then
    call (((fun u => Complete u e) <$> activeQueue m) ++ [FinishCommit]) m
  else call ((Apply <$> activeQueue m) ++ [UpdateAttribute]) (note Started m).

(** [MegaClient::putua] of the attribute, which may answer at once. *)
Definition putua (data : bytes) (m : Machine) : Machine :=
  if negb (ownUser m) then call [PutDone API_EACCESS] m
  else if maxAttributeSize <=? zlength data then call [PutDone API_EARGS] m
  else if expired m then call [PutDone API_EEXPIRED] m
  else set_flight (Some (PutUA data)) (note (Put data) m).

(** [updateAttribute], with the random vector and the uninitialised variable of
    the container. *)
Definition updateAttribute (iv uninit : bytes) (m : Machine) : Machine :=
  putua (toKeysContainer iv uninit (km m)) m.

(** The function that [updateAttribute] passes to [putua]. *)
Definition putDone (e : Z) (m : Machine) : Machine :=
  if e =? API_OK then call [TryCommit API_OK] m
  else if negb (ownUser m) then call [TryCommit API_OK] m
  else if negb (e =? API_EEXPIRED) then call [TryCommit e] m
  else set_flight (Some GetUA) m.

Definition exec (iv uninit : bytes) (t : Task) (m : Machine) : Machine :=
  match t with
  | DoCommit u => commit u m
  | Reject u => run (run_completion u API_EINTERNAL) (note (Rejected u) m)
  | TryCommit e => tryCommit e m
  | Apply u => run (run_apply u) (note (Applied u) m)
  | UpdateAttribute => updateAttribute iv uninit m
  | PutDone e => putDone e m
  | Complete u e => run (run_completion u e) (note (Completed u e) m)
  | FinishCommit => nextCommit (set_active [] m)
  | SetAttribute => set_expired false m
  end.

Definition step (iv uninit : bytes) (m : Machine) : Machine :=
  match tasks m with
  | [] => m
  | t :: ts => exec iv uninit t (set_tasks ts m)
  end.

(** *** Events *)

(** [PutStored] and [GotValue] are answers with a value, the errors those
    without; [Fetched] is a value that was fetched for another reason. *)
Inductive Event :=
  | Commit (c : C)
  | PutStored
  | PutError (e : Z)
  | GotValue (value : bytes)
  | GetError (e : Z)
  | Expire
  | Fetched (value : bytes).

(** A new value of the attribute: the keys are updated, which may commit the
    promotion of shares, the value is cached, and [after] goes on. *)
Definition newValue (data : bytes) (after : list Task) (m : Machine) : Machine :=
  let '(_, promoted, k) := fromKeysContainer data (km m) in
  call ((if (promoted : bool) then [DoCommit Promote] else []) ++ SetAttribute :: after) (set_km k m).

(** [None]: the event is not possible.  [CommandPutUAVer] marks the attribute as
    expired when it is; an error of [CommandGetUA] is not [API_OK]. *)
Definition handle_event (ev : Event) (m : Machine) : option Machine :=
  if negb (bool_decide (tasks m = [])) then None
  else
    match ev, flight m with
    | Commit c, _ => Some (call [DoCommit (Client c)] m)
    | PutStored, Some (PutUA data) =>
        Some (newValue data [PutDone API_OK] (note (Replied API_OK) (set_flight None m)))
    | PutError e, Some (PutUA _) =>
        let m := note (Replied e) (set_flight None m) in
        Some (call [PutDone e] (if e =? API_EEXPIRED then set_expired true m else m))
    | GotValue value, Some GetUA => Some (newValue value [TryCommit API_EEXPIRED] (set_flight None m))
    | GetError e, Some GetUA =>
        if e =? API_OK then None else Some (call [TryCommit e] (set_flight None m))
    | Expire, _ => Some (set_expired true m)
    | Fetched value, _ => Some (newValue value [] m)
    | _, _ => None
    end.

Definition start (k : KeyManager (W:=W)) (own : bool) : Machine := MkMachine k [] [] [] None false own [].

Inductive reachable (k : KeyManager (W:=W)) (own : bool) : Machine -> Prop :=
  | reach_start : reachable k own (start k own)
  | reach_step iv uninit m : reachable k own m -> reachable k own (step iv uninit m)
  | reach_event ev m m' : reachable k own m -> handle_event ev m = Some m' -> reachable k own m'.

End commits.
End Commits.

(** ** The queue *)

Module CommitFacts.
Import Keys KeyManager Commits.

Section facts.
Context {C W : Type} `{KeyClient W} `{KeyCrypto} `{AEAD} `{!CommitOps C W}.
Local Abbreviation Machine := (Commits.Machine (C:=C) (W:=W)).
Local Abbreviation Update := (Commits.Update (C:=C)).
Local Abbreviation Task := (Commits.Task (C:=C)).
Local Abbreviation Obs := (Commits.Obs (C:=C)).
Implicit Types (m : Machine) (l : list Obs).

Definition accepted l : list Update := omap (fun o => match o with Accepted u => Some u | _ => None end) l.
Definition completed l : list Update := omap (fun o => match o with Completed u _ => Some u | _ => None end) l.

(** What happened since the changes of the batch were last applied. *)
Definition attempt_step (acc : list Obs) (o : Obs) : list Obs :=
  match o with
  | Started => []
  | Applied _ | Put _ | Replied _ => acc ++ [o]
  | _ => acc
  end.
Definition attempt l : list Obs := foldl attempt_step [] l.

(** All changes of a batch were applied, a container was sent and the server
    took it. *)
Definition taken (us : list Update) l : Prop :=
  exists d, attempt l = (Applied <$> us) ++ [Put d; Replied API_OK].

Definition stored m : Prop := ownUser m = false \/ taken (activeQueue m) (log m).

(** Calls that only queue commits or change the cached attribute. *)
Definition light (t : Task) : Prop :=
  match t with DoCommit _ | Reject _ | SetAttribute => True | _ => False end.

(** The calls of the commit in progress, and the updates of its batch that are
    not answered yet. *)
Inductive heavy m : list Task -> list Update -> Prop :=
  | h_idle : activeQueue m = [] -> nextQueue m = [] -> flight m = None -> heavy m [] []
  | h_wait f : activeQueue m <> [] -> flight m = Some f ->
      (forall d, f = PutUA d -> attempt (log m) = (Applied <$> activeQueue m) ++ [Put d]) ->
      heavy m [] (activeQueue m)
  | h_try e : activeQueue m <> [] -> flight m = None -> (e = API_OK -> stored m) ->
      heavy m [TryCommit e] (activeQueue m)
  | h_apply us us' : activeQueue m <> [] -> flight m = None -> activeQueue m = us ++ us' ->
      attempt (log m) = Applied <$> us ->
      heavy m ((Apply <$> us') ++ [UpdateAttribute]) (activeQueue m)
  | h_putdone e : activeQueue m <> [] -> flight m = None -> (e = API_OK -> stored m) ->
      heavy m [PutDone e] (activeQueue m)
  | h_complete us us' e : activeQueue m <> [] -> flight m = None -> activeQueue m = us ++ us' ->
      (e = API_OK -> stored m) ->
      heavy m (((fun u => Complete u e) <$> us') ++ [FinishCommit]) us'.

(** Reported as stored only when it was. *)
Definition honest (own : bool) l : Prop :=
  forall l1 u l2, l = l1 ++ Completed u API_OK :: l2 ->
    own = false \/ exists us, u ∈ us /\ taken us l1.

Record Inv m : Prop := {
  inv_tasks : exists t1 h t2 rest, tasks m = t1 ++ h ++ t2 /\ Forall light t1 /\ Forall light t2
    /\ heavy m h rest /\ accepted (log m) = completed (log m) ++ rest ++ nextQueue m;
  inv_honest : honest (ownUser m) (log m)
}.

Lemma attempt_note l o : attempt (l ++ [o]) = attempt_step (attempt l) o.
Proof using. unfold attempt. by rewrite foldl_app. Qed.
Lemma accepted_note l o :
  accepted (l ++ [o]) = accepted l ++ match o with Accepted u => [u] | _ => [] end.
Proof using. unfold accepted. rewrite omap_app. by destruct o. Qed.
Lemma completed_note l o :
  completed (l ++ [o]) = completed l ++ match o with Completed u _ => [u] | _ => [] end.
Proof using. unfold completed. rewrite omap_app. by destruct o. Qed.

Lemma honest_note own l o :
  honest own l ->
  (forall u, o = Completed u API_OK -> own = false \/ exists us, u ∈ us /\ taken us l) ->
  honest own (l ++ [o]).
Proof using.
  intros Hl Ho l1 u l2 E. destruct l2 as [|o2 l2 _] using rev_ind.
  - apply app_inj_tail in E as [-> ->]. by apply Ho.
  - rewrite app_comm_cons, app_assoc in E. apply app_inj_tail in E as [-> _]. by eapply Hl.
Qed.

(** The machine differs in what the calls in progress do not depend on. *)
Definition similar m m' : Prop :=
  activeQueue m' = activeQueue m /\ flight m' = flight m /\ ownUser m' = ownUser m
  /\ attempt (log m') = attempt (log m) /\ (activeQueue m = [] -> nextQueue m' = nextQueue m).

Lemma similar_stored m m' : similar m m' -> stored m -> stored m'.
Proof using.
  intros (E1 & _ & E3 & E4 & _). unfold stored, taken. by rewrite E1, E3, E4.
Qed.

Lemma similar_heavy m m' h rest : similar m m' -> heavy m h rest -> heavy m' h rest.
Proof using.
  intros Hs Hh. pose proof Hs as (E1 & E2 & E3 & E4 & E5).
  destruct Hh as [K1 K2 K3|f K1 K2 K3|e K1 K2 K3|us us' K1 K2 K3 K4|e K1 K2 K3|us us' e K1 K2 K3 K4].
  - constructor; [congruence|by rewrite E5|congruence].
  - rewrite <- E1. apply (h_wait _ f); [congruence..|]. rewrite E4, E1. exact K3.
  - rewrite <- E1. apply h_try; [congruence..|]. intros ?. eapply similar_stored; eauto.
  - rewrite <- E1. apply (h_apply _ us us'); congruence.
  - rewrite <- E1. apply h_putdone; [congruence..|]. intros ?. eapply similar_stored; eauto.
  - apply (h_complete _ us us' e); [congruence..|]. intros ?. eapply similar_stored; eauto.
Qed.

Lemma similar_trans m1 m2 m3 : similar m1 m2 -> similar m2 m3 -> similar m1 m3.
Proof using.
  intros (A1 & A2 & A3 & A4 & A5) (B1 & B2 & B3 & B4 & B5). split_and!; [congruence..|].
  intros. rewrite B5 by congruence. auto.
Qed.

(** A function of the client queues calls that are light. *)
Lemma run_light f m :
  exists ts k, run f m = call ts (set_km k m) /\ Forall light ts.
Proof using.
  unfold run. destruct (f (km m)) as [k cs]. eexists _, k. split; [reflexivity|].
  apply Forall_fmap, Forall_true. intros u. exact I.
Qed.

(** Light calls at the top. *)
Lemma light_step iv uninit t ts1 h ts2 rest m :
  light t -> Forall light ts1 -> Forall light ts2 -> tasks m = ts1 ++ h ++ ts2 ->
  heavy m h rest -> accepted (log m) = completed (log m) ++ rest ++ nextQueue m ->
  honest (ownUser m) (log m) -> Inv (exec iv uninit t m).
Proof using.
  intros Ht L1 L2 Et Hh Ha Ho. destruct t; try done; cbn [exec].
  - unfold commit. case_if.
    { split; [|exact Ho]. exists (Reject u :: ts1), h, ts2, rest. cbn. rewrite Et.
      split_and!; [done|by constructor|done| |done]. eapply similar_heavy; [|exact Hh]. done. }
    set (m1 := note (Accepted u) _).
    assert (accepted (log m1) = completed (log m1) ++ rest ++ nextQueue m1) as Ha1.
    { subst m1. cbn. rewrite accepted_note, completed_note, Ha, app_nil_r. by rewrite <- !app_assoc. }
    assert (honest (ownUser m1) (log m1)) as Ho1 by (apply honest_note; [exact Ho|done]).
    change (activeQueue m1) with (activeQueue m). case_bool_decide as Ea.
    + inversion Hh; subst; try done. unfold nextCommit.
      rewrite bool_decide_eq_false_2 by (subst m1; cbn; by intros ?%app_eq_nil%proj2).
      split; [|exact Ho1]. exists [], [TryCommit API_EINCOMPLETE], (ts1 ++ ts2), (nextQueue m1).
      cbn. rewrite Et. split_and!; [done|constructor|by apply Forall_app| |].
      * match goal with |- heavy ?x _ _ => apply (h_try x) end; cbn; [|done|done].
        subst m1. cbn. by intros ?%app_eq_nil%proj2.
      * change (accepted (log m1) = completed (log m1) ++ nextQueue m1 ++ []).
        by rewrite Ha1, app_nil_r.
    + split; [|exact Ho1]. exists ts1, h, ts2, rest. split_and!; [exact Et|done|done| |exact Ha1].
      eapply similar_heavy; [|exact Hh]. subst m1. split_and!; try done. cbn.
      by rewrite attempt_note.
  - destruct (run_light (run_completion u API_EINTERNAL) (note (Rejected u) m)) as (ts & k & -> & Lt).
    split; cbn; [|by apply honest_note]. exists (ts ++ ts1), h, ts2, rest.
    rewrite Et, accepted_note, completed_note, !app_nil_r, app_assoc.
    split_and!; [done|by apply Forall_app|done| |done].
    eapply similar_heavy; [|exact Hh]. split_and!; try done. cbn. by rewrite attempt_note.
  - split; [|exact Ho]. exists ts1, h, ts2, rest. split_and!; [exact Et|done|done| |done].
    eapply similar_heavy; [|exact Hh]. done.
Qed.

(** The calls of the commit in progress. *)
Lemma nextCommit_inv ts m :
  tasks m = ts -> Forall light ts -> activeQueue m = [] -> flight m = None ->
  accepted (log m) = completed (log m) ++ nextQueue m -> honest (ownUser m) (log m) ->
  Inv (nextCommit m).
Proof using.
  intros Et Lt Ea Ef Hacc Ho. unfold nextCommit. case_bool_decide as En.
  - split; [|exact Ho]. exists [], [], ts, []. split_and!; [done|constructor|done| |by rewrite En in *].
    by apply h_idle.
  - split; [|exact Ho]. exists [], [TryCommit API_EINCOMPLETE], ts, (nextQueue m). cbn. rewrite Et.
    split_and!; [done|constructor|done| |by rewrite app_nil_r].
    match goal with |- heavy ?x _ _ => by apply (h_try x) end.
Qed.

Lemma tryCommit_inv e ts m :
  tasks m = ts -> Forall light ts -> activeQueue m <> [] -> flight m = None -> (e = API_OK -> stored m) ->
  accepted (log m) = completed (log m) ++ activeQueue m ++ nextQueue m -> honest (ownUser m) (log m) ->
  Inv (tryCommit e m).
Proof using.
  intros Et Lt Ea Ef He Hacc Ho. unfold tryCommit. case_if.
  - split; [|exact Ho]. eexists [], _, ts, (activeQueue m). cbn. rewrite Et.
    split_and!; [done|constructor|done| |done].
    match goal with |- heavy ?x _ _ => by apply (h_complete x [] (activeQueue m) e) end.
  - split; [|by apply honest_note]. eexists [], _, ts, (activeQueue m). cbn.
    rewrite Et, accepted_note, completed_note, !app_nil_r.
    split_and!; [done|constructor|done| |done].
    match goal with |- heavy ?x _ _ => apply (h_apply x [] (activeQueue m)) end; try done.
    cbn. by rewrite attempt_note.
Qed.

Lemma putDone_inv e ts m :
  tasks m = ts -> Forall light ts -> activeQueue m <> [] -> flight m = None -> (e = API_OK -> stored m) ->
  accepted (log m) = completed (log m) ++ activeQueue m ++ nextQueue m -> honest (ownUser m) (log m) ->
  Inv (putDone e m).
Proof using.
  intros Et Lt Ea Ef He Hacc Ho. unfold putDone.
  assert (forall e', (e' = API_OK -> stored m) -> Inv (call [TryCommit e'] m)) as Htry.
  { intros e' He'. split; [|exact Ho]. exists [], [TryCommit e'], ts, (activeQueue m). cbn. rewrite Et.
    split_and!; [done|constructor|done| |done].
    match goal with |- heavy ?x _ _ => by apply (h_try x) end. }
  destruct (e =? API_OK) eqn:E0; zbool; [by apply Htry; auto|].
  destruct (ownUser m) eqn:Eo; cbn [negb]; [|apply Htry; by left].
  case_if; [apply Htry; done|].
  split; [|cbn; by rewrite Eo]. exists [], [], ts, (activeQueue m). cbn. split_and!; [done|constructor|done| |done].
  match goal with |- heavy ?x _ _ => by apply (h_wait x GetUA) end.
Qed.

Lemma update_inv data ts m :
  tasks m = ts -> Forall light ts -> activeQueue m <> [] -> flight m = None ->
  attempt (log m) = Applied <$> activeQueue m ->
  accepted (log m) = completed (log m) ++ activeQueue m ++ nextQueue m -> honest (ownUser m) (log m) ->
  Inv (putua data m).
Proof using.
  intros Et Lt Ea Ef Hat Hacc Ho. unfold putua.
  assert (forall e, e <> API_OK -> Inv (call [PutDone e] m)) as Hput.
  { intros e He. split; [|exact Ho]. exists [], [PutDone e], ts, (activeQueue m). cbn. rewrite Et.
    split_and!; [done|constructor|done| |done].
    match goal with |- heavy ?x _ _ => by apply (h_putdone x) end. }
  case_if; [by apply Hput|]. case_if; [by apply Hput|]. case_if; [by apply Hput|].
  split; [|by apply honest_note]. exists [], [], ts, (activeQueue m). cbn.
  rewrite accepted_note, completed_note, !app_nil_r. split_and!; [done|constructor|done| |done].
  match goal with |- heavy ?x _ _ => apply (h_wait x (PutUA data)) end; try done.
  intros d [= <-]. cbn. by rewrite attempt_note, Hat.
Qed.

Lemma apply_inv iv uninit us u us' ts m :
  tasks m = (Apply <$> us') ++ UpdateAttribute :: ts -> Forall light ts ->
  activeQueue m <> [] -> flight m = None -> activeQueue m = us ++ u :: us' ->
  attempt (log m) = Applied <$> us ->
  accepted (log m) = completed (log m) ++ activeQueue m ++ nextQueue m -> honest (ownUser m) (log m) ->
  Inv (exec iv uninit (Apply u) m).
Proof using.
  intros Et Lt Ea Ef Eq Hat Hacc Ho. cbn [exec].
  destruct (run_light (run_apply u) (note (Applied u) m)) as (cs & k & -> & Lc).
  split; cbn; [|by apply honest_note].
  exists cs, ((Apply <$> us') ++ [UpdateAttribute]), ts, (activeQueue m).
  rewrite Et, accepted_note, completed_note, !app_nil_r. split_and!; [by rewrite <- app_assoc|done..| |done].
  match goal with |- heavy ?x _ _ => apply (h_apply x (us ++ [u]) us') end; try done; cbn.
  - by rewrite <- app_assoc.
  - by rewrite attempt_note, Hat, fmap_app.
Qed.

Lemma complete_inv iv uninit us u us' e ts m :
  tasks m = ((fun u => Complete u e) <$> us') ++ FinishCommit :: ts -> Forall light ts ->
  activeQueue m <> [] -> flight m = None -> activeQueue m = us ++ u :: us' -> (e = API_OK -> stored m) ->
  accepted (log m) = completed (log m) ++ (u :: us') ++ nextQueue m -> honest (ownUser m) (log m) ->
  Inv (exec iv uninit (Complete u e) m).
Proof using.
  intros Et Lt Ea Ef Eq He Hacc Ho. cbn [exec].
  destruct (run_light (run_completion u e) (note (Completed u e) m)) as (cs & k & -> & Lc).
  split; cbn.
  - exists cs, (((fun u => Complete u e) <$> us') ++ [FinishCommit]), ts, us'.
    rewrite Et, accepted_note, completed_note, app_nil_r, Hacc.
    split_and!; [by rewrite <- app_assoc|done..| |by rewrite <- app_assoc].
    match goal with |- heavy ?x _ _ => apply (h_complete x (us ++ [u]) us' e) end; try done; cbn.
    + by rewrite <- app_assoc.
    + intros E0. eapply similar_stored; [|exact (He E0)]. split_and!; try done. cbn. by rewrite attempt_note.
  - apply honest_note; [exact Ho|]. intros u' [= <- ->]. destruct (He eq_refl) as [|Hs]; [by left|right].
    exists (activeQueue m). split; [|done]. rewrite Eq. set_solver.
Qed.

Lemma commit_step_inv iv uninit m : Inv m -> Inv (step iv uninit m).
Proof using.
  intros [(t1 & h & t2 & rest & Et & L1 & L2 & Hh & Hacc) Ho]. unfold step. rewrite Et.
  destruct t1 as [|t t1].
  - destruct Hh as [K1 K2 K3|f K1 K2 K3|e K1 K2 K3|us us' K1 K2 K3 K4|e K1 K2 K3|us us' e K1 K2 K3 K4]; cbn [app].
    + destruct t2 as [|t t2]; [split; [|done]; exists [], [], [], []; rewrite Et; split_and!; try done; by apply h_idle|].
      apply Forall_cons in L2 as [Lt L2]. apply (light_step _ _ t t2 [] [] []); try done; [by rewrite app_nil_r|].
      match goal with |- heavy ?x _ _ => by apply (h_idle x) end.
    + destruct t2 as [|t t2].
      { split; [|done]. exists [], [], [], (activeQueue m). rewrite Et. split_and!; try done. by apply (h_wait _ f). }
      apply Forall_cons in L2 as [Lt L2].
      apply (light_step _ _ t t2 [] [] (activeQueue m)); try done; [by rewrite app_nil_r|].
      match goal with |- heavy ?x _ _ => by apply (h_wait x f) end.
    + by apply (tryCommit_inv e t2 (set_tasks t2 m)).
    + destruct us' as [|u us']; cbn [fmap list_fmap app].
      * apply (update_inv _ t2 (set_tasks t2 m)); try done.
        change (attempt (log m) = Applied <$> activeQueue m). by rewrite K4, K3, app_nil_r.
      * rewrite <- app_assoc. by eapply (apply_inv _ _ us u us' t2 (set_tasks _ m)).
    + by apply (putDone_inv e t2 (set_tasks t2 m)).
    + destruct us' as [|u us']; cbn [fmap list_fmap app].
      * by apply (nextCommit_inv t2).
      * rewrite <- app_assoc. by eapply (complete_inv _ _ us u us' e t2 (set_tasks _ m)).
  - apply Forall_cons in L1 as [Lt L1]. cbn [app].
    apply (light_step iv uninit t t1 h t2 rest); try done. by eapply similar_heavy; [|exact Hh].
Qed.

Lemma start_inv k own : Inv (start k own).
Proof using.
  split; [|by intros [|] ? ?]. exists [], [], [], []. split_and!; try done. by apply h_idle.
Qed.

(** A machine at rest is idle or waits for a reply. *)
Lemma at_rest m h rest :
  heavy m h rest -> h = [] ->
  (activeQueue m = [] /\ nextQueue m = [] /\ flight m = None /\ rest = [])
  \/ exists f, activeQueue m <> [] /\ flight m = Some f
       /\ (forall d, f = PutUA d -> attempt (log m) = (Applied <$> activeQueue m) ++ [Put d])
       /\ rest = activeQueue m.
Proof using.
  intros Hh. destruct Hh; intros E; try done; [by left|right; by exists f|by destruct us'..].
Qed.

Lemma awaited m rest f :
  heavy m [] rest -> flight m = Some f ->
  activeQueue m <> [] /\ rest = activeQueue m
  /\ (forall d, f = PutUA d -> attempt (log m) = (Applied <$> activeQueue m) ++ [Put d]).
Proof using.
  intros Hh Ef. destruct (at_rest _ _ _ Hh eq_refl) as [(_ & _ & E & _)|(f' & E1 & E2 & E3 & E4)]; [congruence|].
  rewrite Ef in E2. by injection E2 as <-.
Qed.

Lemma call_inv ts h rest m :
  tasks m = [] -> Forall light ts -> heavy m h rest ->
  accepted (log m) = completed (log m) ++ rest ++ nextQueue m -> honest (ownUser m) (log m) ->
  Inv (call (ts ++ h) m).
Proof using.
  intros Et Lt Hh Ha Ho. split; [|exact Ho]. exists ts, h, [], rest. cbn. rewrite Et.
  split_and!; [by rewrite <- app_assoc|done|constructor| |done]. by eapply similar_heavy; [|exact Hh].
Qed.

Lemma newValue_inv data after m rest :
  tasks m = [] -> heavy m after rest ->
  accepted (log m) = completed (log m) ++ rest ++ nextQueue m -> honest (ownUser m) (log m) ->
  Inv (newValue data after m).
Proof using.
  intros Et Hh Ha Ho. unfold newValue. destruct (fromKeysContainer data (km m)) as [[b promoted] k].
  set (ts := if promoted then _ else _).
  change (SetAttribute :: after) with ([SetAttribute] ++ after). rewrite app_assoc.
  apply (call_inv _ _ rest); try done.
  - apply Forall_app; split; [by subst ts; destruct promoted; repeat constructor|by repeat constructor].
  - by eapply similar_heavy; [|exact Hh].
Qed.

Lemma event_inv ev m m' : Inv m -> handle_event ev m = Some m' -> Inv m'.
Proof using.
  intros [(t1 & h & t2 & rest & Et & _ & _ & Hh & Ha) Ho]. unfold handle_event.
  case_bool_decide as E; [|done]. rewrite E in Et.
  symmetry in Et. apply app_eq_nil in Et as [-> Et]. apply app_eq_nil in Et as [-> ->].
  cbn [negb]. destruct ev as [c| |e|value|e| |value].
  - intros [= <-]. apply (call_inv [DoCommit (Client c)] [] rest); try done. by repeat constructor.
  - destruct (flight m) as [[data|]|] eqn:Ef; [|done..]. intros [= <-].
    destruct (awaited _ _ _ Hh Ef) as (K1 & -> & K3). specialize (K3 _ eq_refl).
    apply (newValue_inv _ _ _ (activeQueue m)); [done| | |by apply honest_note].
    + match goal with |- heavy ?x _ _ => apply (h_putdone x) end; [done|done|]. intros _. right.
      exists data. cbn. rewrite attempt_note. cbn. by rewrite K3, <- app_assoc.
    + cbn. by rewrite accepted_note, completed_note, !app_nil_r.
  - destruct (flight m) as [[data|]|] eqn:Ef; [|done..]. intros [= <-].
    destruct (awaited _ _ _ Hh Ef) as (K1 & -> & K3). specialize (K3 _ eq_refl).
    set (m1 := if e =? API_EEXPIRED then _ else _).
    assert (similar (note (Replied e) (set_flight None m)) m1 /\ tasks m1 = [] /\ nextQueue m1 = nextQueue m
      /\ log m1 = log m ++ [Replied e]) as (S1 & E1 & E2 & E3) by (subst m1; by case_if).
    destruct S1 as (A1 & A2 & A3 & A4 & _). cbn in A1, A2, A3.
    change (call [PutDone e] m1) with (call ([] ++ [PutDone e]) m1).
    apply (call_inv [] [PutDone e] (activeQueue m)); [done|constructor| | |].
    + rewrite <- A1. match goal with |- heavy ?x _ _ => apply (h_putdone x) end; [congruence|done|].
      intros ->. right. exists data. rewrite E3, A1, attempt_note. cbn. by rewrite K3, <- app_assoc.
    + rewrite E2, E3, accepted_note, completed_note, !app_nil_r. done.
    + rewrite A3, E3. by apply honest_note.
  - destruct (flight m) as [[data|]|] eqn:Ef; [done| |done]. intros [= <-].
    destruct (awaited _ _ _ Hh Ef) as (K1 & -> & K3).
    apply (newValue_inv _ _ _ (activeQueue m)); try done.
    match goal with |- heavy ?x _ _ => by apply (h_try x) end.
  - destruct (flight m) as [[data|]|] eqn:Ef; [done| |done]. destruct (e =? API_OK) eqn:Ee; [done|].
    intros [= <-]. zbool.
    destruct (awaited _ _ _ Hh Ef) as (K1 & -> & K3).
    apply (call_inv [] [TryCommit e] (activeQueue m)); try done.
    match goal with |- heavy ?x _ _ => by apply (h_try x) end.
  - intros [= <-]. split; [|exact Ho]. exists [], [], [], rest. split_and!; try done.
    by eapply similar_heavy; [|exact Hh].
  - intros [= <-]. by apply (newValue_inv _ _ _ rest).
Qed.

Lemma run_own f m : ownUser (run f m) = ownUser m.
Proof using. unfold run. by destruct (f (km m)). Qed.

Lemma exec_own iv uninit t m : ownUser (exec iv uninit t m) = ownUser m.
Proof using.
  destruct t; cbn [exec]; rewrite ?run_own; try done;
    unfold commit, nextCommit, tryCommit, updateAttribute, putua, putDone; repeat case_match; done.
Qed.

Lemma newValue_own data after m : ownUser (newValue data after m) = ownUser m.
Proof using. unfold newValue. by destruct (fromKeysContainer _ _) as [[] ?]. Qed.

Lemma event_own ev m m' : handle_event ev m = Some m' -> ownUser m' = ownUser m.
Proof using.
  unfold handle_event. case_if; [done|].
  destruct ev, (flight m) as [[]|]; try done; try case_if; intros [= <-];
    rewrite ?newValue_own; try done.
Qed.

Lemma commits_inv k own m : reachable k own m -> Inv m /\ ownUser m = own.
Proof using.
  induction 1 as [|iv uninit m _ [IH Eo]|ev m m' _ [IH Eo] E].
  - split; [apply start_inv|done].
  - split; [by apply commit_step_inv|]. rewrite <- Eo. unfold step.
    destruct (tasks m); [done|]. by rewrite exec_own.
  - split; [by eapply event_inv|]. rewrite <- Eo. by eapply event_own.
Qed.

(** *** The calls come to an end *)

(** The functions of the client do not commit again. *)
Definition quiet : Prop :=
  (forall c f k, applyChanges c = Some f -> (f k).2 = []) /\ (forall c f e k, completion c = Some f -> (f e k).2 = []).

(** How many calls a call causes at most, for a batch of [b] updates. *)
Definition cost_try (b : nat) (e : Z) : nat :=
  if (e =? API_OK) || (e =? API_EARGS) then b + 2 else 2 * b + 5.

Definition cost (own : bool) (b : nat) (t : Task) : nat :=
  match t with
  | DoCommit _ => 8
  | Reject _ | Apply _ | Complete _ _ | FinishCommit | SetAttribute => 1
  | TryCommit e => cost_try b e
  | UpdateAttribute => b + 4
  | PutDone e =>
      if (e =? API_OK) || negb own then b + 3 else if negb (e =? API_EEXPIRED) then 1 + cost_try b e else 1
  end.

Definition costs m (ts : list Task) : nat := sum_list_with (cost (ownUser m) (length (activeQueue m))) ts.
Definition measure m : nat := costs m (tasks m) + 7 * length (nextQueue m).

Lemma costs_app m ts ts' : costs m (ts ++ ts') = (costs m ts + costs m ts')%nat.
Proof using. apply sum_list_with_app. Qed.

Lemma costs_light m m' ts : Forall light ts -> ownUser m' = ownUser m -> costs m' ts = costs m ts.
Proof using.
  intros Hl Eo. unfold costs. rewrite Eo. induction Hl as [|t ts Ht Hl IH]; [done|]. cbn.
  rewrite IH. by destruct t.
Qed.

Lemma costs_units m (f : Update -> Task) us :
  (forall u, cost (ownUser m) (length (activeQueue m)) (f u) = 1%nat) -> costs m (f <$> us) = length us.
Proof using. intros Hf. unfold costs. induction us as [|u us IH]; [done|]. cbn. rewrite Hf. cbn in IH. by rewrite IH. Qed.

Lemma run_quiet f m : (f (km m)).2 = [] -> run f m = set_km (f (km m)).1 m.
Proof using. unfold run. destruct (f (km m)) as [k cs]. cbn. by intros ->. Qed.

Lemma nextCommit_measure ts m :
  tasks m = ts -> Forall light ts -> (measure (nextCommit m) <= costs m ts + 7 * length (nextQueue m))%nat.
Proof using.
  intros Et Lt. unfold nextCommit, measure. case_bool_decide as En; [by rewrite Et|].
  cbn [call set_tasks set_next set_active tasks nextQueue]. rewrite costs_app, Et.
  rewrite (costs_light m _ ts) by done. unfold costs at 1. cbn.
  destruct (nextQueue m); [done|]. cbn. unfold cost_try. cbn. lia.
Qed.

Lemma exec_quiet iv uninit t m (Hq : quiet) :
  match t with Reject _ | Apply _ | Complete _ _ => True | _ => False end ->
  measure (exec iv uninit t m) = measure m.
Proof using.
  intros Ht. destruct Hq as [Qa Qc]. destruct t as [|[|c]| |[|c]| | |[|c] e| |]; try done; cbn [exec].
  all: rewrite run_quiet; [done|]. all: cbn; case_match; naive_solver.
Qed.

Lemma call_measure ts m : measure (call ts m) = (costs m ts + measure m)%nat.
Proof using.
  unfold measure. change (tasks (call ts m)) with (ts ++ tasks m). rewrite costs_app.
  change (costs (call ts m)) with (costs m). change (nextQueue (call ts m)) with (nextQueue m). lia.
Qed.

Lemma finish_light m t1 h t2 rest ts :
  FinishCommit :: ts = t1 ++ h ++ t2 -> Forall light t1 -> Forall light t2 -> heavy m h rest -> Forall light ts.
Proof using.
  intros Et L1 L2 Hh.
  destruct t1 as [|t t1]; [|injection Et as <- ->; by apply Forall_cons in L1 as [? _]].
  destruct Hh as [| | |us us'| |us us' e]; cbn [app] in Et; try done.
  1-2: subst t2; by apply Forall_cons in L2 as [? _].
  - by destruct us'.
  - destruct us'; [|done]. by injection Et as ->.
Qed.

Lemma step_measure iv uninit m :
  quiet -> Inv m -> tasks m <> [] -> (measure (step iv uninit m) < measure m)%nat.
Proof using.
  intros Hq [(t1 & h & t2 & rest & Et & L1 & L2 & Hh & _) _] Hne. unfold step.
  destruct (tasks m) as [|t ts] eqn:Etm; [done|].
  set (m0 := set_tasks ts m).
  assert (measure m = (cost (ownUser m0) (length (activeQueue m0)) t + measure m0)%nat) as Em.
  { unfold measure. rewrite Etm. cbn. lia. }
  rewrite Em. clear Em.
  assert (activeQueue m = [] -> nextQueue m = [] /\ Forall light (t :: ts)) as Hidle.
  { intros Ea. destruct Hh; try done. rewrite Et. split; [done|]. by apply Forall_app. }
  destruct t as [u|u|e|u| |e|u e| |];
    try (rewrite exec_quiet; [cbn [cost]; lia|exact Hq|exact I]); cbn [exec].
  - unfold commit. case_if; [rewrite call_measure; cbn; lia|].
    set (m1 := note _ _). change (activeQueue m1) with (activeQueue m). case_bool_decide as Ea.
    + destruct (Hidle Ea) as [_ [_ Lt]%Forall_cons].
      pose proof (nextCommit_measure ts m1 eq_refl Lt) as L.
      change (costs m1 ts) with (costs m0 ts) in L. change (nextQueue m1) with (nextQueue m0 ++ [u]) in L.
      rewrite length_app in L. change (measure m0) with (costs m0 ts + 7 * length (nextQueue m0))%nat.
      cbn [cost]. cbn [length] in L. lia.
    + unfold measure. subst m1. cbn. rewrite length_app. unfold costs. cbn. lia.
  - unfold tryCommit. change (costs m0 [?x]) with (cost (ownUser m0) (length (activeQueue m0)) x).
    cbn [cost]. unfold cost_try. destruct (e =? API_OK) eqn:E0, (e =? API_EARGS) eqn:E1;
      cbn [orb]; rewrite ?orb_true_r, ?orb_false_r; try case_if;
      rewrite ?call_measure, ?costs_app, ?costs_units by done; unfold measure, costs; cbn; lia.
  - unfold updateAttribute, putua. cbn [cost].
    case_if; [|case_if; [|case_if]]; rewrite ?call_measure; unfold measure, costs; cbn;
      change (ownUser m0) with (ownUser m) in *; destruct (ownUser m); cbn; unfold cost_try; cbn; try done; lia.
  - unfold putDone. cbn [cost]. destruct (e =? API_OK) eqn:E0; cbn [orb].
    { rewrite call_measure. unfold measure, costs. cbn. unfold cost_try. cbn. lia. }
    destruct (negb (ownUser m0)) eqn:Eo.
    { rewrite call_measure. unfold measure, costs. cbn. unfold cost_try. cbn. lia. }
    case_if; [rewrite call_measure; unfold measure, costs; cbn; lia|]. unfold measure, costs. cbn. lia.
  - pose proof (finish_light _ _ _ _ _ _ Et L1 L2 Hh) as Lt.
    pose proof (nextCommit_measure ts (set_active [] m0) eq_refl Lt) as L.
    rewrite (costs_light m0 _ ts) in L by done. change (nextQueue (set_active [] m0)) with (nextQueue m0) in L.
    change (measure m0) with (costs m0 ts + 7 * length (nextQueue m0))%nat. cbn [cost]. lia.
  - unfold measure, costs. cbn. lia.
Qed.

Fixpoint steps (iv uninit : bytes) (n : nat) m : Machine :=
  match n with O => m | S n => steps iv uninit n (step iv uninit m) end.

Lemma settles iv uninit m : quiet -> Inv m -> exists n, tasks (steps iv uninit n m) = [].
Proof using.
  intros Hq. remember (measure m) as d eqn:Ed. revert m Ed.
  induction (Nat.lt_wf_0 d) as [d _ IH]. intros m -> Hi.
  destruct (decide (tasks m = [])) as [E|E]; [by exists 0%nat|].
  destruct (IH _ (step_measure iv uninit m Hq Hi E) _ eq_refl (commit_step_inv iv uninit m Hi)) as [n Hn].
  by exists (S n).
Qed.

Lemma steps_reachable k own iv uninit n m : reachable k own m -> reachable k own (steps iv uninit n m).
Proof using. revert m. induction n as [|n IH]; intros m Hr; [done|]. apply IH. by constructor. Qed.

End facts.
End CommitFacts.

Section theorems.
Import Keys KeyManager Commits CommitFacts.
Context {C W : Type} `{KeyClient W} `{KeyCrypto} `{AEAD} `{!CommitOps C W}.

(** C16: However commits, replies of the server and new values from elsewhere come
    in, commits are answered once each and in the order in which they were
    accepted, those that are not answered yet wait in the two queues, and a commit
    is answered with success only when, after all changes of a batch that has it
    were applied one after the other, a container was sent and the server took it,
    unless the client has lost its user. *)
Theorem commit_queue (k : KeyManager (W:=W)) (own : bool) (m : Machine) :
  reachable k own m ->
  (exists waiting, accepted (log m) = completed (log m) ++ waiting)
  /\ (tasks m = [] -> accepted (log m) = completed (log m) ++ activeQueue m ++ nextQueue m)
  /\ forall l1 u l2, log m = l1 ++ Completed u API_OK :: l2 ->
       own = false \/ exists us, u ∈ us /\ taken us l1.
Proof.
  intros Hr. destruct (commits_inv _ _ _ Hr) as [[(t1 & h & t2 & rest & Et & _ & _ & Hh & Ha) Ho] <-].
  split_and!; [by eexists| |exact Ho]. intros E. rewrite E in Et.
  symmetry in Et. apply app_eq_nil in Et as [-> Et]. apply app_eq_nil in Et as [-> ->].
  destruct (at_rest _ _ _ Hh eq_refl) as [(E1 & _ & _ & ->)|(f & _ & _ & _ & ->)]; [by rewrite Ha, E1|done].
Qed.

(** C19: The calls of a commit always end, as long as the functions that are
    passed to it do not commit again, and then no commit is forgotten: both queues
    are empty and every accepted commit is answered, or a batch is active and a
    command to the server is on its way. *)
Theorem commit_progress (k : KeyManager (W:=W)) (own : bool) (m : Machine) (iv uninit : bytes) :
  quiet -> reachable k own m ->
  exists n, let m' := steps iv uninit n m in
    tasks m' = []
    /\ ((activeQueue m' = [] /\ nextQueue m' = [] /\ accepted (log m') = completed (log m'))
        \/ (activeQueue m' <> [] /\ flight m' <> None)).
Proof.
  intros Hq Hr. destruct (commits_inv _ _ _ Hr) as [Hi _]. destruct (settles iv uninit m Hq Hi) as [n Hn].
  exists n. cbv zeta. split; [done|].
  destruct (commits_inv _ _ _ (steps_reachable k own iv uninit n m Hr)) as [[(t1 & h & t2 & rest & Et & _ & _ & Hh & Ha) _] _].
  rewrite Hn in Et. symmetry in Et. apply app_eq_nil in Et as [-> Et]. apply app_eq_nil in Et as [-> ->].
  destruct (at_rest _ _ _ Hh eq_refl) as [(E1 & E2 & _ & ->)|(f & E1 & E2 & _)]; [left|right].
  - rewrite E2, app_nil_r in Ha. done.
  - split; [done|]. by rewrite E2.
Qed.

End theorems.

(** *** A run: two commits, a clash with another client, and success *)

Module CommitDemo.
Import Keys KeyManager Commits.

Inductive Change := SetWarning (n : Z).

#[export] Instance demo_ops : CommitOps Change unit := {
  applyChanges c := match c with SetWarning n =>
    Some (fun k => (set_keys (set_mWarnings (omap_insert [n] [1] (mWarnings (keys k))) (keys k)) k, [])) end;
  completion c := match c with SetWarning _ => Some (fun _ k => (k, [])) end
}.

#[local] Existing Instance Demo.demo_client.
#[local] Existing Instance Demo.demo_crypto.
#[local] Existing Instance ToyAEAD.toy.

Definition iv : bytes := replicate 12 7.
Definition quiesce (m : Machine) : Machine := CommitFacts.steps iv [] 40 m.
Definition on (ev : Event) (m : option (Machine (C:=Change) (W:=unit))) : option Machine :=
  m ← m; m ← handle_event ev m; Some (quiesce m).

(** Another client wrote the keys of generation 9. *)
Definition value : bytes :=
  toKeysContainer iv [] (set_keys (set_mGeneration 8 Demo.demo_keys) Demo.demo).

Definition run1 : option Machine :=
  on PutStored (on PutStored (on (GotValue value) (on (PutError API_EEXPIRED)
    (on (Commit (SetWarning 2)) (on (Commit (SetWarning 1)) (Some (start Demo.demo true))))))).

Definition commits_of (l : list (Obs (C:=Change))) : list Change :=
  omap (fun o => match o with Completed (Client c) 0 => Some c | _ => None end) l.

Lemma run1_result :
  match run1 with
  | Some m => commits_of (log m) = [SetWarning 1; SetWarning 2] /\ generation (km m) = 11
  | None => False
  end.
Proof. vm_compute. done. Qed.

Lemma quiesce_reachable k own m : reachable k own m -> reachable k own (quiesce m).
Proof. apply CommitFacts.steps_reachable. Qed.

Lemma on_reachable k own ev m m' :
  (forall x, m = Some x -> reachable k own x) -> on ev m = Some m' -> reachable k own m'.
Proof.
  intros Hm (x & -> & (y & Ey & Em)%bind_Some)%bind_Some. apply (inj Some) in Em as <-.
  apply quiesce_reachable. eapply reach_event; [by apply Hm|exact Ey].
Qed.

Lemma run1_reachable m : run1 = Some m -> reachable Demo.demo true m.
Proof.
  unfold run1. repeat (apply on_reachable; intros ?). intros E. apply (inj Some) in E as <-. constructor.
Qed.

Definition result : Machine := default (start Demo.demo true) run1.

Lemma run1_some : run1 = Some result.
Proof. unfold result. pose proof run1_result. by destruct run1. Qed.

Lemma quiet_demo : CommitFacts.quiet (C:=Change) (W:=unit).
Proof. split; [intros [n] f k|intros [n] f e k]; cbn; intros [= <-]; done. Qed.

End CommitDemo.

#[local] Existing Instance Demo.demo_client.
#[local] Existing Instance Demo.demo_crypto.
#[local] Existing Instance ToyAEAD.toy.
#[local] Existing Instance CommitDemo.demo_ops.

Lemma commit_queue_witness :
  let m := CommitDemo.result in
  CommitFacts.accepted (Commits.log m)
  = CommitFacts.completed (Commits.log m) ++ Commits.activeQueue m ++ Commits.nextQueue m
  /\ Commits.activeQueue m = [] /\ KeyManager.generation (Commits.km m) = 11.
Proof.
  destruct (commit_queue Demo.demo true CommitDemo.result (CommitDemo.run1_reachable _ CommitDemo.run1_some))
    as (_ & H2 & _).
  split; [apply H2; vm_compute; reflexivity|]. split; vm_compute; reflexivity.
Defined.

Lemma commit_progress_witness :
  exists n, Commits.tasks (CommitFacts.steps CommitDemo.iv [] n (Commits.start (C:=CommitDemo.Change) Demo.demo true)) = [].
Proof.
  destruct (commit_progress Demo.demo true (Commits.start Demo.demo true) CommitDemo.iv []
    CommitDemo.quiet_demo (Commits.reach_start Demo.demo true)) as (n & Hn & _).
  exists n. exact Hn.
Defined.
