(* ===== verification/ContactKeys.v ===== *)
(** * Trust in the keys of contacts

    The public keys of contacts are fetched from the server and tracked: the
    fingerprint of the first key that is seen is pinned in an authring together
    with how far it was authenticated ([trackKey], [trackSignature],
    [verifyCredentials], [resetCredentials] of src/src/megaclient.cpp, and the
    replies of src/src/commands.cpp that call them).  Trust decides who is sent
    share keys ([verificationRequired] of KeyManager.v); changes of the rings are
    committed to ^!keys (KeyCommits.v).

    Proved: tracking never verifies anybody and never changes a pinned
    fingerprint, a key or signature that does not fit ends the trust in its user
    at once, and verifying or resetting credentials changes exactly the entry of
    that user in what is committed.  One concrete run shows that the withdrawal of
    trust lasts only until the reply of a commit that was already on its way
    ([withdrawal_window]), another that of two contacts tracked at the same time one
    can be lost ([tracked_contact_lost]). *)

From S2P Require Import Prelude OMap Encoding Serialize Crypto Tlv Json Keys KeyManager KeyCommits.
Local Open Scope Z_scope.

Definition ATTR_UNKNOWN := -1.
Definition ATTR_ED25519_PUBK := 5.
Definition ATTR_CU25519_PUBK := 6.
Definition ATTR_SIG_CU255_PUBK := 9.

Definition API_ENOENT := -9.
Definition API_EEXIST := -12.
Definition API_EKEY := -14.
Definition API_ETEMPUNAVAIL := -18.

(** The valid cached attributes of users, by handle ([cu25519] of [User] is the
    third), the contacts in the order of the user table, and the attributes as the
    replies of the server set them. *)
Class ContactClient (W : Type) := {
  ed25519 : Z -> W -> option bytes;
  sig_cu255 : Z -> W -> option bytes;
  users : W -> list Z;
  expire_cu25519 : Z -> W -> W;
  set_attribute : Z -> Z -> bytes -> W -> W;
  remove_attribute : Z -> Z -> W -> W
}.

(** SHA-256 of Crypto++ and the detached signatures of libsodium: message,
    signature, public key. *)
Class ContactCrypto := {
  sha256 : bytes -> bytes;
  length_sha256 x : length (sha256 x) = 32%nat;
  sign_verify_detached : bytes -> bytes -> bytes -> bool
}.

Module ContactKeys.
Import Keys AuthRing KeyManager.

(** The changes of rings that are committed: a whole ring, or one user. *)
Inductive Change :=
  | SetRing (authringType : Z) (serializedAuthring : bytes)
  | Verify (uh : Z)
  | Reset (uh : Z).

Section contacts.
Context {W : Type} `{KeyClient W} `{KeyCrypto} `{!ContactClient W} `{ContactCrypto}.

(** The rings and pending users of the client, the commits it requested, the
    attributes it asked for, and the changed keys it reported, oldest first. *)
Record Contacts := MkContacts {
  km : KeyManager (W:=W);
  mAuthRingsTemp : list (Z * AuthRing);
  mPendingContactKeys : list (Z * list (Z * unit));
  commits : list Change;
  requests : list (Z * Z);
  modified : list (Z * Z)
}.

Definition set_km x c := MkContacts x (mAuthRingsTemp c) (mPendingContactKeys c) (commits c) (requests c) (modified c).
Definition set_temp x c := MkContacts (km c) x (mPendingContactKeys c) (commits c) (requests c) (modified c).
Definition set_pending x c := MkContacts (km c) (mAuthRingsTemp c) x (commits c) (requests c) (modified c).

Definition commit (ch : Change) (c : Contacts) : Contacts :=
  MkContacts (km c) (mAuthRingsTemp c) (mPendingContactKeys c) (commits c ++ [ch]) (requests c) (modified c).
Definition getua (uh at_ : Z) (c : Contacts) : Contacts :=
  MkContacts (km c) (mAuthRingsTemp c) (mPendingContactKeys c) (commits c) (requests c ++ [(uh, at_)]) (modified c).
Definition key_modified (uh at_ : Z) (c : Contacts) : Contacts :=
  MkContacts (km c) (mAuthRingsTemp c) (mPendingContactKeys c) (commits c) (requests c) (modified c ++ [(uh, at_)]).

Definition world (c : Contacts) : W := client (km c).
Definition rings (c : Contacts) : list (Z * AuthRing) := mAuthRings (km c).
Definition set_rings (x : list (Z * AuthRing)) (c : Contacts) : Contacts := set_km (set_mAuthRings x (km c)) c.

Definition keyTypeToAuthringType (at_ : Z) : Z :=
  if at_ =? ATTR_ED25519_PUBK then ATTR_AUTHRING
  else if at_ =? ATTR_CU25519_PUBK then ATTR_AUTHCU255 else ATTR_UNKNOWN.

Definition signatureTypeToAuthringType (at_ : Z) : Z :=
  if at_ =? ATTR_SIG_CU255_PUBK then ATTR_AUTHCU255 else ATTR_UNKNOWN.

Definition authringTypeToSignatureType (at_ : Z) : Z :=
  if at_ =? ATTR_AUTHCU255 then ATTR_SIG_CU255_PUBK else ATTR_UNKNOWN.

(** The first 160 bits of the hash. *)
Definition fingerprint (pubKey : bytes) : bytes := take 20 (sha256 pubKey).

(** [EdDSA::verifyKey]: a timestamp and the signature of it with the key. *)
Definition verifyKey (pubk sig signingPubKey : bytes) : bool :=
  if zlength sig <? 72 then false
  else sign_verify_detached (str "keyauth" ++ take 8 sig ++ pubk) (drop 8 sig) signingPubKey.

(** [AuthRing::update] of a user that is tracked, which does not throw. *)
Definition updated (uh authMethod : Z) (ring : AuthRing) : AuthRing := default ring (update uh authMethod ring).

(** [AuthRing::add] of a user that is not tracked, whose assertions hold. *)
Definition added (uh : Z) (keyFingerprint : bytes) (authMethod : Z) (ring : AuthRing) : AuthRing :=
  default ring (add uh keyFingerprint authMethod ring).

(** The ring that tracking works on: that of the initialization, or a copy of the
    active one ([false]), of which changes are only committed. *)
Definition working (authringType : Z) (c : Contacts) : option (bool * AuthRing) :=
  match omap_find authringType (mAuthRingsTemp c) with
  | Some ring => Some (true, ring)
  | None => ring ← omap_find authringType (rings c); Some (false, ring)
  end.

(** A changed working ring: the temporal one is changed in place. *)
Definition keep (temporalAuthring : bool) (authringType : Z) (ring : AuthRing) (c : Contacts) : Contacts :=
  if temporalAuthring then set_temp (omap_insert authringType ring (mAuthRingsTemp c)) c else c.

Definition updateActiveAuthring (authringType uh newValue : Z) (c : Contacts) : Contacts :=
  match omap_find authringType (rings c) with
  | Some ring =>
      if isTracked ring uh && negb (getAuthMethod ring uh =? newValue)
      then set_rings (omap_insert authringType (updated uh newValue ring) (rings c)) c else c
  | None => c
  end.

(** Whether the users of the initialization are all done. *)
Definition finish_user (authringType : Z) (temporalAuthring : bool) (updateduh : Z) (c : Contacts)
    : bool * Contacts :=
  if temporalAuthring then
    match omap_find authringType (mPendingContactKeys c) with
    | Some pending =>
        let pending := omap_erase updateduh pending in
        if negb (bool_decide (pending = [])) then
          (false, set_pending (omap_insert authringType pending (mPendingContactKeys c)) c)
        else (true, set_pending (omap_erase authringType (mPendingContactKeys c)) c)
    | None => (true, c)
    end
  else (true, c).

Definition updateAuthring (authring : AuthRing) (authringType : Z) (temporalAuthring : bool) (updateduh : Z)
    (c : Contacts) : Z * Contacts :=
  let '(finished, c) := finish_user authringType temporalAuthring updateduh c in
  if (finished : bool) then
    let erased c := set_temp (omap_erase authringType (mAuthRingsTemp c)) c in
    if mNeedsUpdate authring then
      let serializedAuthring := serializeForJS authring in
      if negb (generation (km c) =? 0) then
        (API_OK, erased (commit (SetRing authringType serializedAuthring) c))
      else
        match omap_find authringType (rings c) with
        | None => (API_ETEMPUNAVAIL, c)
        | Some _ => (API_OK, erased (set_rings (omap_insert authringType authring (rings c)) c))
        end
    else (API_OK, erased c)
  else (API_OK, c).

(** A user whose key or signature does not fit loses its trust: at once in the
    active ring, and in the working ring, whose change is committed. *)
Definition downgrade (threshold : Z -> bool) (temporalAuthring : bool) (authringType uh : Z) (authring : AuthRing)
    (flush : bool) (c : Contacts) : Contacts :=
  if threshold (getAuthMethod authring uh) then
    let authring := updated uh AUTH_METHOD_UNKNOWN authring in
    let c := keep temporalAuthring authringType authring c in
    let c := updateActiveAuthring authringType uh AUTH_METHOD_UNKNOWN c in
    (updateAuthring authring authringType temporalAuthring uh c).2
  else if flush then (updateAuthring authring authringType temporalAuthring uh c).2
  else c.

Definition trackSignature (signatureType uh : Z) (signature : bytes) (c : Contacts) : Z * Contacts :=
  match finduser_handle uh (world c) with
  | None => (API_EARGS, c)
  | Some user =>
      let authringType := signatureTypeToAuthringType signatureType in
      if authringType =? ATTR_UNKNOWN then (API_EARGS, c)
      else
        match working authringType c with
        | None => (API_ETEMPUNAVAIL, c)
        | Some (temporalAuthring, authring) =>
            match cu25519 user with
            | None => (API_EINTERNAL, c)
            | Some pubKey =>
                match ed25519 uh (world c) with
                | None => (API_ETEMPUNAVAIL, c)
                | Some signingPubKey =>
                    let keyFingerprint := fingerprint pubKey in
                    let keyTracked := isTracked authring uh in
                    if verifyKey pubKey signature signingPubKey then
                      if keyTracked && negb (bool_decide (keyFingerprint = getFingerprint authring uh)) then
                        let c := key_modified uh ATTR_CU25519_PUBK c in
                        (API_EKEY, downgrade (Z.eqb AUTH_METHOD_SIGNATURE) temporalAuthring authringType uh
                                     authring false c)
                      else
                        let authring :=
                          if keyTracked then
                            if negb (getAuthMethod authring uh =? AUTH_METHOD_SIGNATURE)
                            then updated uh AUTH_METHOD_SIGNATURE authring else authring
                          else added uh keyFingerprint AUTH_METHOD_SIGNATURE authring in
                        updateAuthring authring authringType temporalAuthring uh
                          (keep temporalAuthring authringType authring c)
                    else
                      let c := key_modified uh signatureType c in
                      (API_EKEY, downgrade (fun method => keyTracked && (method =? AUTH_METHOD_SIGNATURE))
                                   temporalAuthring authringType uh authring temporalAuthring c)
                end
            end
        end
  end.

(** The signature of a signed key is checked, or asked for. *)
Definition track_signed (authringType uh : Z) (c : Contacts) : Contacts :=
  let attrType := authringTypeToSignatureType authringType in
  match sig_cu255 uh (world c) with
  | Some signature => (trackSignature attrType uh signature c).2
  | None => getua uh attrType c
  end.

Definition trackKey (keyType uh : Z) (pubKey : bytes) (c : Contacts) : Z * Contacts :=
  match finduser_handle uh (world c) with
  | None => (API_EARGS, c)
  | Some _ =>
      let authringType := keyTypeToAuthringType keyType in
      if authringType =? ATTR_UNKNOWN then (API_EARGS, c)
      else
        match working authringType c with
        | None => (API_ETEMPUNAVAIL, c)
        | Some (temporalAuthring, authring) =>
            let keyFingerprint := fingerprint pubKey in
            let keyTracked := isTracked authring uh in
            let fingerprintMatch := bool_decide (keyFingerprint = getFingerprint authring uh) in
            if isSignedKey authring then (API_OK, track_signed authringType uh c)
            else if keyTracked && negb fingerprintMatch then
              let c := key_modified uh keyType c in
              (API_EKEY, downgrade (Z.leb AUTH_METHOD_SEEN) temporalAuthring authringType uh authring
                           temporalAuthring c)
            else
              let authring :=
                if keyTracked then
                  if getAuthMethod authring uh <? AUTH_METHOD_SEEN then updated uh AUTH_METHOD_SEEN authring
                  else authring
                else added uh keyFingerprint AUTH_METHOD_SEEN authring in
              updateAuthring authring authringType temporalAuthring uh
                (keep temporalAuthring authringType authring c)
        end
  end.

(** *** Fetching the keys of contacts *)

(** The retrieval of the obsolete RSA key is left out.  A missing signing key lets
    the other key expire, so that it is tracked later. *)
Definition fetchContactKeys (uh : Z) (c : Contacts) : Contacts :=
  let c :=
    match ed25519 uh (world c) with
    | None =>
        let c := getua uh ATTR_ED25519_PUBK c in
        set_km (set_client (expire_cu25519 uh (world c)) (km c)) c
    | Some key => (trackKey ATTR_ED25519_PUBK uh key c).2
    end in
  match u ← finduser_handle uh (world c); cu25519 u with
  | None => getua uh ATTR_CU25519_PUBK c
  | Some key => (trackKey ATTR_CU25519_PUBK uh key c).2
  end.

(** The keys of all contacts, at the start of a session: changes are collected in
    temporal rings until the last contact is done. *)
Definition fetchContactsKeys (c : Contacts) : Contacts :=
  let contacts := filter (fun uh => uh <> me (world c)) (users (world c)) in
  let pending := foldl (fun s uh => omap_insert uh tt s) [] contacts in
  if bool_decide (pending = []) then set_pending [] c
  else
    let c := set_pending (omap_insert ATTR_AUTHCU255 pending (omap_insert ATTR_AUTHRING pending [])) c in
    let c := set_temp (rings c) c in
    foldl (fun c uh => fetchContactKeys uh c) c contacts.

(** [CommandGetUA::procresult] for a public attribute of a contact (not of a
    temporary user or a chat preview): the value, or that it does not exist. *)
Definition track (at_ uh : Z) (value : bytes) (c : Contacts) : Contacts :=
  if (at_ =? ATTR_ED25519_PUBK) || (at_ =? ATTR_CU25519_PUBK) then (trackKey at_ uh value c).2
  else if at_ =? ATTR_SIG_CU255_PUBK then (trackSignature at_ uh value c).2
  else c.

Definition received (at_ uh : Z) (value : bytes) (c : Contacts) : Contacts :=
  match finduser_handle uh (world c) with
  | None => c
  | Some _ =>
      let c := set_km (set_client (set_attribute uh at_ value (world c)) (km c)) c in
      if uh =? me (world c) then c else track at_ uh value c
  end.

Definition missing (at_ uh : Z) (c : Contacts) : Contacts :=
  match finduser_handle uh (world c) with
  | None => c
  | Some _ =>
      let c := set_km (set_client (remove_attribute uh at_ (world c)) (km c)) c in
      if uh =? me (world c) then c
      else
        let done authringType :=
          match omap_find authringType (mAuthRingsTemp c) with
          | Some ring => (updateAuthring ring authringType true uh c).2
          | None => c
          end in
        if (at_ =? ATTR_ED25519_PUBK) || (at_ =? ATTR_CU25519_PUBK) then done (keyTypeToAuthringType at_)
        else if at_ =? ATTR_SIG_CU255_PUBK then done (signatureTypeToAuthringType at_)
        else c
  end.

(** *** Credentials *)

Definition verifyCredentials (uh : Z) (c : Contacts) : Z * Contacts :=
  if generation (km c) =? 0 then (API_EINCOMPLETE, c)
  else
    match omap_find ATTR_AUTHRING (rings c), omap_find ATTR_AUTHCU255 (rings c) with
    | Some ed, Some cu =>
        if negb (getAuthMethod cu uh =? AUTH_METHOD_SIGNATURE) then
          (API_EINTERNAL,
           match finduser_handle uh (world c) with
           | Some user =>
               match cu25519 user with
               | None => getua uh ATTR_CU25519_PUBK c
               | Some key => (trackKey ATTR_CU25519_PUBK (userhandle user) key c).2
               end
           | None => c
           end)
        else
          let authMethod := getAuthMethod ed uh in
          if authMethod =? AUTH_METHOD_FINGERPRINT then (API_EEXIST, c)
          else if authMethod =? AUTH_METHOD_SIGNATURE then (API_EINTERNAL, c)
          else if (authMethod =? AUTH_METHOD_UNKNOWN)
                  && negb (bool_decide (is_Some (_ ← finduser_handle uh (world c); ed25519 uh (world c))))
          then (API_ETEMPUNAVAIL, c)
          else (API_OK, commit (Verify uh) c)
    | _, _ => (API_ETEMPUNAVAIL, c)
    end.

Definition resetCredentials (uh : Z) (c : Contacts) : Z * Contacts :=
  if generation (km c) =? 0 then (API_EINCOMPLETE, c)
  else
    match omap_find ATTR_AUTHRING (rings c) with
    | None => (API_ETEMPUNAVAIL, c)
    | Some ed =>
        if getAuthMethod ed uh =? AUTH_METHOD_SEEN then (API_EARGS, c)
        else if getAuthMethod ed uh =? AUTH_METHOD_UNKNOWN then (API_ENOENT, c)
        else (API_OK, commit (Reset uh) c)
    end.

(** The changes when they are applied, on the rings of that time; [None]: an
    assertion of [AuthRing::add] fails, since the user is tracked without being
    trusted. *)
Definition apply_verify (uh : Z) (m : KeyManager (W:=W)) : option (KeyManager (W:=W)) :=
  match omap_find ATTR_AUTHRING (mAuthRings m), omap_find ATTR_AUTHCU255 (mAuthRings m) with
  | Some authring, Some cu =>
      if negb (getAuthMethod cu uh =? AUTH_METHOD_SIGNATURE) then Some m
      else
        let authMethod := getAuthMethod authring uh in
        if authMethod =? AUTH_METHOD_SEEN then
          Some (setAuthRing (serializeForJS (updated uh AUTH_METHOD_FINGERPRINT authring)) m)
        else if authMethod =? AUTH_METHOD_UNKNOWN then
          match _ ← finduser_handle uh (client m); ed25519 uh (client m) with
          | Some key =>
              authring ← add uh (fingerprint key) AUTH_METHOD_FINGERPRINT authring;
              Some (setAuthRing (serializeForJS authring) m)
          | None => Some m
          end
        else Some m
  | _, _ => Some m
  end.

Definition apply_reset (uh : Z) (m : KeyManager (W:=W)) : KeyManager (W:=W) :=
  match omap_find ATTR_AUTHRING (mAuthRings m) with
  | Some authring =>
      if negb (getAuthMethod authring uh =? AUTH_METHOD_FINGERPRINT) then m
      else setAuthRing (serializeForJS (updated uh AUTH_METHOD_SEEN authring)) m
  | None => m
  end.

Definition apply_change (ch : Change) (m : KeyManager (W:=W)) : option (KeyManager (W:=W)) :=
  match ch with
  | SetRing authringType serializedAuthring =>
      Some (if authringType =? ATTR_AUTHRING then setAuthRing serializedAuthring m
            else if authringType =? ATTR_AUTHCU255 then setAuthCU255 serializedAuthring m
            else m)
  | Verify uh => apply_verify uh m
  | Reset uh => Some (apply_reset uh m)
  end.

(** The commits' functions; the completion of a verification or a reset is the
    app's.  They are run on changes whose assertions hold (no assertion of
    [SetRing] or [Reset] can fail). *)
#[export] Instance contact_ops : CommitOps Change W := {
  applyChanges ch := Some (fun m => (default m (apply_change ch m), []));
  completion ch := match ch with SetRing _ _ => None | _ => Some (fun _ m => (m, [])) end
}.

(** *** With the commits *)

(** The contacts and the commits they requested. *)
Record System := MkSystem {
  machine : Commits.Machine (C:=Change) (W:=W);
  contacts : list (Z * AuthRing) * list (Z * list (Z * unit)) * list (Z * Z) * list (Z * Z)
}.

(** A call on the contacts, whose commits are then started. *)
Definition on_contacts (f : Contacts -> Contacts) (s : System) : System :=
  let '(temp, pending, reqs, mods) := contacts s in
  let c := f (MkContacts (Commits.km (machine s)) temp pending [] reqs mods) in
  MkSystem
    (Commits.call (Commits.DoCommit <$> (Commits.Client <$> commits c)) (Commits.set_km (km c) (machine s)))
    (mAuthRingsTemp c, mPendingContactKeys c, requests c, modified c).

End contacts.
End ContactKeys.

(** ** Tracking *)

Module TrackFacts.
Import Keys AuthRing KeyManager ContactKeys.

Section facts.
Context {W : Type} `{KeyClient W} `{KeyCrypto} `{!ContactClient W} `{ContactCrypto}.
Implicit Types (c : Contacts (W:=W)) (m : KeyManager (W:=W)) (r : AuthRing).

(** What a container gives: fingerprints of 20 bytes and methods of one byte, for
    the same users. *)
Record ring_ok r : Prop := {
  fingerprints_sorted : omap_ok (mFingerprint r);
  methods_sorted : omap_ok (mAuthMethod r);
  same_users : (mFingerprint r).*1 = (mAuthMethod r).*1;
  fingerprints_ok : Forall (fun e => 0 <= e.1 < 2 ^ 64 /\ length e.2 = 20%nat) (mFingerprint r);
  methods_ok : Forall (fun e => - 2 ^ 7 <= e.2 < 2 ^ 7) (mAuthMethod r)
}.

(** Every ring is kept under its own type. *)
Definition rings_ok (rs : list (Z * AuthRing)) : Prop :=
  omap_ok rs /\ forall t r, omap_find t rs = Some r -> mType r = t /\ ring_ok r.

Definition consistent c : Prop := rings_ok (rings c) /\ rings_ok (mAuthRingsTemp c).

(** The fingerprint is that of the user's cached key, and a signature of that key
    with the user's cached signing key was checked. *)
Definition signature_ok (uh : Z) (fp : bytes) c : Prop :=
  exists user key signature signing, finduser_handle uh (world c) = Some user /\ cu25519 user = Some key
    /\ ed25519 uh (world c) = Some signing /\ verifyKey key signature signing = true /\ fp = fingerprint key.

(** One ring after tracking: only the entry of the user differs, a pinned
    fingerprint stays, nobody becomes verified, and the user is trusted only for
    the key at hand. *)
Record ring_step (uh : Z) (value : bytes) c r r' : Prop := {
  rs_type : mType r' = mType r;
  rs_others v : v <> uh -> getAuthMethod r' v = getAuthMethod r v /\ getFingerprint r' v = getFingerprint r v;
  rs_pinned : isTracked r uh = true -> getFingerprint r' uh = getFingerprint r uh;
  rs_verified : getAuthMethod r' uh = AUTH_METHOD_FINGERPRINT -> getAuthMethod r uh = AUTH_METHOD_FINGERPRINT;
  rs_trusted :
    if isSignedKey r then getAuthMethod r' uh = AUTH_METHOD_SIGNATURE -> signature_ok uh (getFingerprint r' uh) c
    else AUTH_METHOD_SEEN <= getAuthMethod r' uh -> getFingerprint r' uh = fingerprint value
}.

(** The active rings lost at most the trust in one user. *)
Definition distrusts (uh : Z) m m' : Prop :=
  exists rs, m' = set_mAuthRings rs m /\ forall t,
    match omap_find t (mAuthRings m), omap_find t rs with
    | Some r, Some r' => mType r' = mType r /\ (forall v, v <> uh -> getAuthMethod r' v = getAuthMethod r v)
        /\ (getAuthMethod r' uh = getAuthMethod r uh \/ getAuthMethod r' uh = AUTH_METHOD_UNKNOWN)
    | None, None => True
    | _, _ => False
    end.

(** *** Rings *)

Lemma getAuthMethod_updated uh x r v :
  ring_ok r -> isTracked r uh = true -> getAuthMethod (updated uh x r) v = if v =? uh then x else getAuthMethod r v.
Proof using.
  intros Hr Ht. unfold updated, update. rewrite Ht. cbn [default id]. unfold getAuthMethod. cbn [mAuthMethod].
  destruct (Z.eqb_spec v uh) as [->|Hne]; [by rewrite find_insert_eq|rewrite find_insert_ne; [done|apply Hr|congruence]].
Qed.

Lemma ring_updated_same uh x r :
  mType (updated uh x r) = mType r /\ mFingerprint (updated uh x r) = mFingerprint r.
Proof using. unfold updated, update. by destruct (isTracked r uh). Qed.

Lemma find_same_keys {A B} k (l1 : list (Z * A)) : forall l2 : list (Z * B),
  l1.*1 = l2.*1 -> omap_find k l2 = None -> omap_find k l1 = None.
Proof using.
  induction l1 as [|[k1 a1] l1 IH]; intros [|[k2 b2] l2] E; try done.
  cbn [fmap list_fmap fst] in E. injection E as -> E. rewrite !KeysFacts.omap_find_cons.
  destruct (kltb k k2); [done|]. destruct (kltb k2 k); [by apply IH|done].
Qed.

(** The assertions of [add] hold for a user that is not tracked, and no other. *)
Lemma add_untracked uh fp x r :
  ring_ok r -> isTracked r uh = false ->
  add uh fp x r = Some (MkAuthRing (mType r) (omap_insert uh fp (mFingerprint r)) (omap_insert uh x (mAuthMethod r)) true).
Proof using.
  intros Hr Ht%bool_decide_eq_false. apply eq_None_not_Some in Ht. unfold add.
  by rewrite !bool_decide_true by (done || by eapply find_same_keys; [apply Hr|]).
Qed.

Lemma add_tracked uh fp x r : isTracked r uh = true -> add uh fp x r = None.
Proof using.
  intros [y Hy]%bool_decide_eq_true. unfold add. by rewrite Hy, andb_false_r.
Qed.

Lemma getAuthMethod_added uh fp x r v :
  ring_ok r -> isTracked r uh = false ->
  getAuthMethod (added uh fp x r) v = if v =? uh then x else getAuthMethod r v.
Proof using.
  intros Hr Ht. unfold added. rewrite add_untracked by done. unfold getAuthMethod. cbn [default id mAuthMethod].
  destruct (Z.eqb_spec v uh) as [->|Hne]; [by rewrite find_insert_eq|rewrite find_insert_ne; [done|apply Hr|congruence]].
Qed.

Lemma getFingerprint_added uh fp x r v :
  ring_ok r -> isTracked r uh = false ->
  getFingerprint (added uh fp x r) v = if v =? uh then fp else getFingerprint r v.
Proof using.
  intros Hr Ht. unfold added. rewrite add_untracked by done. unfold getFingerprint. cbn [default id mFingerprint].
  destruct (Z.eqb_spec v uh) as [->|Hne]; [by rewrite find_insert_eq|rewrite find_insert_ne; [done|apply Hr|congruence]].
Qed.

Lemma untracked r uh : isTracked r uh = false -> getAuthMethod r uh = AUTH_METHOD_UNKNOWN.
Proof using.
  unfold isTracked, getAuthMethod. intros E%bool_decide_eq_false.
  destruct (omap_find uh (mAuthMethod r)); [by destruct E|done].
Qed.

Lemma trusted_tracked r uh : getAuthMethod r uh <> AUTH_METHOD_UNKNOWN -> isTracked r uh = true.
Proof using. intros Hne. destruct (isTracked r uh) eqn:E; [done|]. by apply untracked in E. Qed.

Lemma step_refl uh value c r :
  (if isSignedKey r then getAuthMethod r uh = AUTH_METHOD_SIGNATURE -> signature_ok uh (getFingerprint r uh) c
   else AUTH_METHOD_SEEN <= getAuthMethod r uh -> getFingerprint r uh = fingerprint value) ->
  ring_step uh value c r r.
Proof using. by constructor. Qed.

Lemma signed_same r r' : mType r' = mType r -> isSignedKey r' = isSignedKey r.
Proof using. unfold isSignedKey. by intros ->. Qed.

(** A tracked user gets another method than fingerprint verification. *)
Lemma step_updated uh value c r x :
  ring_ok r -> isTracked r uh = true -> x <> AUTH_METHOD_FINGERPRINT ->
  (if isSignedKey r then x = AUTH_METHOD_SIGNATURE -> signature_ok uh (getFingerprint r uh) c
   else AUTH_METHOD_SEEN <= x -> getFingerprint r uh = fingerprint value) ->
  ring_step uh value c r (updated uh x r).
Proof using.
  intros Hr Ht Hx Hv. destruct (ring_updated_same uh x r) as [E1 E2].
  assert (forall v, getFingerprint (updated uh x r) v = getFingerprint r v) as Ef
    by (intros v; unfold getFingerprint; by rewrite E2).
  pose proof (getAuthMethod_updated uh x r uh Hr Ht) as Em. rewrite Z.eqb_refl in Em.
  constructor; [done| |by rewrite Ef|by rewrite Em|by rewrite Em, Ef].
  intros v Hne. rewrite Ef, getAuthMethod_updated by done. by rewrite (proj2 (Z.eqb_neq v uh) Hne).
Qed.

(** A user that is not tracked is added with the key at hand. *)
Lemma step_added uh value c r fp x :
  ring_ok r -> isTracked r uh = false -> x <> AUTH_METHOD_FINGERPRINT ->
  (if isSignedKey r then x = AUTH_METHOD_SIGNATURE -> signature_ok uh fp c
   else AUTH_METHOD_SEEN <= x -> fp = fingerprint value) ->
  ring_step uh value c r (added uh fp x r).
Proof using.
  intros Hr Ht Hx Hv.
  pose proof (getAuthMethod_added uh fp x r uh Hr Ht) as Em. pose proof (getFingerprint_added uh fp x r uh Hr Ht) as Ef.
  rewrite Z.eqb_refl in Em, Ef.
  constructor; [| |congruence|by rewrite Em|by rewrite Em, Ef].
  - unfold added. by rewrite add_untracked.
  - intros v Hne. by rewrite getAuthMethod_added, getFingerprint_added, (proj2 (Z.eqb_neq v uh) Hne).
Qed.

(** *** Who has to be verified *)

Lemma distrusts_refl uh m : distrusts uh m m.
Proof using.
  exists (mAuthRings m). split; [by destruct m|]. intros t. destruct (omap_find _ _); [|done].
  split_and!; [done..|by left].
Qed.

Lemma distrusts_others uh m m' v :
  distrusts uh m m' -> v <> uh -> verificationRequired v m' = verificationRequired v m.
Proof using.
  intros (rs & -> & Hrs) Hv. pose proof (Hrs ATTR_AUTHRING) as He. pose proof (Hrs ATTR_AUTHCU255) as Hc.
  unfold verificationRequired, KeyManager.areCredentialsVerified, AuthRing.areCredentialsVerified.
  cbn [mManualVerification mAuthRings client set_mAuthRings].
  destruct (omap_find ATTR_AUTHRING (mAuthRings m)) as [e|], (omap_find ATTR_AUTHRING rs) as [e'|]; try done;
    destruct (omap_find ATTR_AUTHCU255 (mAuthRings m)) as [cu|], (omap_find ATTR_AUTHCU255 rs) as [cu'|]; try done;
    repeat match goal with
      | H : _ /\ (forall v, v <> uh -> _) /\ _ |- _ =>
          let A := fresh in let B := fresh in destruct H as (A & B & _); rewrite ?(signed_same _ _ A), ?(B v Hv)
      end; done.
Qed.

(** Trust that is gone: no signing key that was seen, or no signature. *)
Lemma untrusted_ed uh m r :
  omap_find ATTR_AUTHRING (mAuthRings m) = Some r -> mType r = ATTR_AUTHRING ->
  getAuthMethod r uh < AUTH_METHOD_SEEN -> verificationRequired uh m = true.
Proof using.
  intros E Et Hr. unfold AUTH_METHOD_SEEN in Hr.
  unfold verificationRequired, KeyManager.areCredentialsVerified, AuthRing.areCredentialsVerified. rewrite E.
  assert (isSignedKey r = false) as Es by (unfold isSignedKey; by rewrite Et).
  unfold AUTH_METHOD_SEEN, AUTH_METHOD_FINGERPRINT.
  rewrite (proj2 (Z.ltb_lt _ _)) by done. destruct (mManualVerification m); [|done].
  destruct (uh =? me (client m)); [done|].
  destruct (omap_find ATTR_AUTHCU255 (mAuthRings m)) as [cu|]; [|done].
  destruct (if isSignedKey cu then _ else _); [|done]. rewrite Es. apply negb_true_iff, Z.eqb_neq. lia.
Qed.

Lemma untrusted_cu uh m r :
  omap_find ATTR_AUTHCU255 (mAuthRings m) = Some r -> mType r = ATTR_AUTHCU255 ->
  getAuthMethod r uh <> AUTH_METHOD_SIGNATURE -> verificationRequired uh m = true.
Proof using.
  intros E Et Hr%Z.eqb_neq.
  unfold verificationRequired, KeyManager.areCredentialsVerified, AuthRing.areCredentialsVerified. rewrite E.
  assert (isSignedKey r = true) as Es by (unfold isSignedKey; by rewrite Et).
  rewrite Es, Hr. cbn [negb]. destruct (mManualVerification m); [by destruct (uh =? _)|].
  destruct (omap_find ATTR_AUTHRING (mAuthRings m)); [|done]. by destruct (_ <? _).
Qed.

(** Losing trust never makes a user trusted. *)
Lemma distrusts_required uh m m' v :
  (forall t r, omap_find t (mAuthRings m) = Some r -> mType r = t) ->
  distrusts uh m m' -> verificationRequired v m = true -> verificationRequired v m' = true.
Proof using.
  intros Ht Hd. destruct (decide (v = uh)) as [->|Hne]; [|by rewrite (distrusts_others uh m m')].
  destruct Hd as (rs & -> & Hrs). pose proof (Hrs ATTR_AUTHRING) as He. pose proof (Hrs ATTR_AUTHCU255) as Hc.
  destruct (omap_find ATTR_AUTHRING (mAuthRings m)) as [e|] eqn:E1, (omap_find ATTR_AUTHRING rs) as [e'|] eqn:E1';
    try done; [|intros _; unfold verificationRequired, KeyManager.areCredentialsVerified;
                cbn [mManualVerification mAuthRings client set_mAuthRings]; rewrite E1';
                destruct (mManualVerification m); [|done]; repeat (case_match; try done)].
  destruct (omap_find ATTR_AUTHCU255 (mAuthRings m)) as [cu|] eqn:E2, (omap_find ATTR_AUTHCU255 rs) as [cu'|] eqn:E2';
    try done; [|intros _; unfold verificationRequired, KeyManager.areCredentialsVerified;
                cbn [mManualVerification mAuthRings client set_mAuthRings]; rewrite E1', E2';
                destruct (mManualVerification m); repeat (case_match; try done)].
  destruct He as (T1 & _ & [M1|M1]), Hc as (T2 & _ & [M2|M2]); intros Hv;
    [|apply (untrusted_cu uh _ cu'); [exact E2'|by rewrite T2; apply Ht|by rewrite M2]
     |apply (untrusted_ed uh _ e'); [exact E1'|by rewrite T1; apply Ht|by rewrite M1]..].
  revert Hv. unfold verificationRequired, KeyManager.areCredentialsVerified, AuthRing.areCredentialsVerified.
  cbn [mManualVerification mAuthRings client set_mAuthRings].
  by rewrite E1, E1', E2, E2', (signed_same _ _ T1), (signed_same _ _ T2), M1, M2.
Qed.

(** *** What tracking does *)

Definition temp_step (uh : Z) (value : bytes) c c' : Prop :=
  omap_ok (mAuthRingsTemp c') /\ forall t r', omap_find t (mAuthRingsTemp c') = Some r' ->
    exists r, omap_find t (mAuthRingsTemp c) = Some r /\ (r' = r \/ ring_step uh value c r r').

(** The commit of one ring, or none. *)
Definition commit_step (uh : Z) (value : bytes) c c' : Prop :=
  commits c' = commits c
  \/ exists t tmp r r', working t c = Some (tmp, r) /\ ring_step uh value c r r'
      /\ commits c' = commits c ++ [SetRing t (serializeForJS r')].

(** A changed key that is reported ends the trust in its user, at least once the
    initialization is over. *)
Definition report_step (uh : Z) c c' : Prop :=
  modified c' = modified c
  \/ exists a, modified c' = modified c ++ [(uh, a)]
      /\ (mAuthRingsTemp c = [] -> verificationRequired uh (km c') = true).

Record outcome (uh : Z) (value : bytes) c c' : Prop := {
  o_active : distrusts uh (km c) (km c');
  o_commits : commit_step uh value c c';
  o_temp : temp_step uh value c c';
  o_modified : report_step uh c c'
}.

Lemma temp_refl uh value c c' :
  consistent c -> mAuthRingsTemp c' = mAuthRingsTemp c -> temp_step uh value c c'.
Proof using. intros [_ [Ht _]] E. split; rewrite E; [done|]. intros t r ?. exists r. by split; [|left]. Qed.

Lemma outcome_refl uh value c c' :
  consistent c -> km c' = km c -> commits c' = commits c -> mAuthRingsTemp c' = mAuthRingsTemp c ->
  modified c' = modified c -> outcome uh value c c'.
Proof using.
  intros Hc E1 E2 E3 E4. constructor;
    [rewrite E1; apply distrusts_refl|by left|by apply temp_refl|by left].
Qed.

Lemma working_find t c tmp r :
  working t c = Some (tmp, r) ->
  if tmp then omap_find t (mAuthRingsTemp c) = Some r
  else omap_find t (rings c) = Some r /\ omap_find t (mAuthRingsTemp c) = None.
Proof using.
  unfold working. destruct (omap_find t (mAuthRingsTemp c)); [by intros [= <- <-]|].
  intros (r' & E & [= <- <-])%bind_Some. done.
Qed.

Lemma working_ok t c tmp r : consistent c -> working t c = Some (tmp, r) -> mType r = t /\ ring_ok r.
Proof using.
  intros [[_ H2] [_ H4]] Hw%working_find. destruct tmp; [by apply H4|]. apply H2, Hw.
Qed.

Lemma keep_temp uh value t tmp r r' c :
  consistent c -> working t c = Some (tmp, r) -> ring_step uh value c r r' ->
  temp_step uh value c (keep tmp t r' c).
Proof using.
  intros Hc Hw Hs. pose proof (working_find _ _ _ _ Hw) as Hf. pose proof Hc as [_ [Ho Ht]].
  destruct tmp; [|by apply temp_refl]. split; [by apply insert_ok|].
  intros t' r1. cbn [keep set_temp mAuthRingsTemp]. destruct (decide (t' = t)) as [->|Hne].
  - rewrite find_insert_eq. intros [= <-]. exists r. by split; [|right].
  - rewrite find_insert_ne by (done || congruence). intros E. exists r1. by split; [|left].
Qed.

Lemma distrusts_keys uh m m' : distrusts uh m m' -> keys m' = keys m.
Proof using. by intros (rs & -> & _). Qed.

(** The flush of a ring: it may be committed, and replaces the temporal one or
    ends it. *)
Lemma flush_outcome uh value t tmp r r' c c1 :
  generation (km c) <> 0 -> working t c = Some (tmp, r) -> ring_step uh value c r r' ->
  distrusts uh (km c) (km c1) -> commits c1 = commits c -> temp_step uh value c c1 ->
  let c' := (updateAuthring r' t tmp uh c1).2 in
  km c' = km c1 /\ modified c' = modified c1 /\ commit_step uh value c c' /\ temp_step uh value c c'.
Proof using.
  intros Hg Hw Hs Hd Ec Ht. unfold updateAuthring.
  assert (exists b c2, finish_user t tmp uh c1 = (b, c2) /\ km c2 = km c1 /\ modified c2 = modified c1
    /\ commits c2 = commits c1 /\ mAuthRingsTemp c2 = mAuthRingsTemp c1) as (b & c2 & -> & E1 & E2 & E3 & E4).
  { unfold finish_user. destruct tmp; [|by do 2 eexists]. destruct (omap_find t _); [|by do 2 eexists].
    case_match; by do 2 eexists. }
  assert (generation (km c2) =? 0 = false) as Eg.
  { apply Z.eqb_neq. unfold generation. by rewrite E1, (distrusts_keys _ _ _ Hd). }
  assert (forall c3, mAuthRingsTemp c3 = omap_erase t (mAuthRingsTemp c1) -> temp_step uh value c c3) as Hte.
  { intros c3 E. destruct Ht as [Ho Ht]. split; rewrite E; [by apply erase_ok|]. intros t' r1.
    destruct (decide (t' = t)) as [->|Hne]; [by rewrite find_erase_eq|].
    rewrite find_erase_ne by (done || congruence). apply Ht. }
  destruct b; cbn [snd]; [|split_and!; [done..|left; by rewrite E3, Ec|]].
  2: { destruct Ht as [Ho Ht]. split; by rewrite E4. }
  rewrite Eg. destruct (mNeedsUpdate r'); cbn [negb snd]; (split_and!; [done..| |]).
  - right. exists t, tmp, r, r'. split_and!; [done..|]. cbn [commits commit set_temp]. by rewrite E3, Ec.
  - apply Hte. cbn [mAuthRingsTemp commit set_temp]. by rewrite E4.
  - left. cbn [commits set_temp]. by rewrite E3, Ec.
  - apply Hte. cbn [mAuthRingsTemp set_temp]. by rewrite E4.
Qed.

Lemma updateActive_spec uh value t c c1 :
  consistent c -> km c1 = km c -> temp_step uh value c c1 ->
  let c' := updateActiveAuthring t uh AUTH_METHOD_UNKNOWN c1 in
  distrusts uh (km c) (km c') /\ commits c' = commits c1 /\ modified c' = modified c1
  /\ temp_step uh value c c'
  /\ (forall r, omap_find t (rings c) = Some r -> exists r', omap_find t (rings c') = Some r'
        /\ mType r' = mType r /\ getAuthMethod r' uh = AUTH_METHOD_UNKNOWN).
Proof using.
  intros [[Ho Hr] _] Ek Ht. cbv zeta. unfold updateActiveAuthring.
  assert (rings c1 = rings c) as Er by (unfold rings; by rewrite Ek). rewrite Er.
  assert (forall (P : Prop), P -> distrusts uh (km c) (km c1) /\ commits c1 = commits c1 /\ modified c1 = modified c1
    /\ temp_step uh value c c1 /\ P) as Hsame by (intros P HP; rewrite Ek; split_and!; try done; apply distrusts_refl).
  destruct (omap_find t (rings c)) as [r|] eqn:E; [|by apply Hsame].
  destruct (Hr t r E) as [Et Hok].
  destruct (isTracked r uh) eqn:Etr; cbn [andb]; [destruct (Z.eqb_spec (getAuthMethod r uh) AUTH_METHOD_UNKNOWN) as [Em|Em]|];
    cbn [negb].
  - apply Hsame. intros r0 [= <-]. exists r. by rewrite Er.
  - destruct (ring_updated_same uh AUTH_METHOD_UNKNOWN r) as [Eu _].
    pose proof (getAuthMethod_updated uh AUTH_METHOD_UNKNOWN r uh Hok Etr) as Ev. rewrite Z.eqb_refl in Ev.
    split_and!; [|done..|].
    + exists (omap_insert t (updated uh AUTH_METHOD_UNKNOWN r) (rings c)). cbn [km set_rings set_km]. rewrite Ek.
      split; [done|]. intros t'. fold (rings c). destruct (decide (t' = t)) as [->|Hne].
      * rewrite E, find_insert_eq. split_and!; [done| |by right].
        intros v Hv. rewrite getAuthMethod_updated by done. by rewrite (proj2 (Z.eqb_neq v uh) Hv).
      * rewrite find_insert_ne by (done || congruence). destruct (omap_find t' (rings c)); [|done].
        split_and!; [done..|by left].
    + intros r0 [= <-]. eexists. split; [apply find_insert_eq|]. done.
  - apply Hsame. intros r0 [= <-]. exists r. rewrite Er. split_and!; [done..|by apply untracked].
Qed.

(** A key that does not fit: [required] is what the caller knows when the user is
    not trusted in the active ring. *)
Lemma downgrade_outcome uh value threshold t tmp r flush a c :
  consistent c -> generation (km c) <> 0 -> working t c = Some (tmp, r) ->
  (threshold (getAuthMethod r uh) = true -> isTracked r uh = true) ->
  (threshold (getAuthMethod r uh) = false ->
     if isSignedKey r then getAuthMethod r uh <> AUTH_METHOD_SIGNATURE else getAuthMethod r uh < AUTH_METHOD_SEEN) ->
  t = ATTR_AUTHRING \/ t = ATTR_AUTHCU255 ->
  outcome uh value c (downgrade threshold tmp t uh r flush (key_modified uh a c)).
Proof using.
  intros Hc Hg Hw Htr Hno Ht. destruct (working_ok _ _ _ _ Hc Hw) as [Et Hok].
  assert (isSignedKey r = negb (t =? ATTR_AUTHRING)) as Es by (unfold isSignedKey; by rewrite Et).
  assert (forall m' r', (mAuthRingsTemp c = [] -> omap_find t (mAuthRings m') = Some r') -> mType r' = t ->
    (if isSignedKey r then getAuthMethod r' uh <> AUTH_METHOD_SIGNATURE else getAuthMethod r' uh < AUTH_METHOD_SEEN) ->
    mAuthRingsTemp c = [] -> verificationRequired uh m' = true) as Hreq.
  { intros m' r' Hf Et' Hm E. specialize (Hf E). rewrite Es in Hm. destruct Ht as [-> | ->].
    - by apply (untrusted_ed uh m' r').
    - by apply (untrusted_cu uh m' r'). }
  unfold downgrade. destruct (threshold (getAuthMethod r uh)) eqn:Eth.
  - set (r' := updated uh AUTH_METHOD_UNKNOWN r). set (c0 := key_modified uh a c).
    assert (ring_step uh value c r r') as Hs.
    { apply step_updated; [done|by apply Htr|done|]. by destruct (isSignedKey r). }
    pose proof (keep_temp uh value t tmp r r' c Hc Hw Hs) as Hk.
    assert (temp_step uh value c (keep tmp t r' c0)) as Hk0 by (by destruct tmp).
    assert (km (keep tmp t r' c0) = km c /\ commits (keep tmp t r' c0) = commits c
      /\ modified (keep tmp t r' c0) = modified c ++ [(uh, a)]) as (K1 & K2 & K3) by (by destruct tmp).
    destruct (updateActive_spec uh value t c (keep tmp t r' c0) Hc K1 Hk0) as (A1 & A2 & A3 & A4 & A5).
    set (c1 := updateActiveAuthring t uh AUTH_METHOD_UNKNOWN (keep tmp t r' c0)) in *.
    destruct (flush_outcome uh value t tmp r r' c c1 Hg Hw Hs A1 (eq_trans A2 K2) A4) as (F1 & F2 & F3 & F4).
    constructor; [by rewrite F1|done|done|]. right. exists a. split; [by rewrite F2, A3|]. rewrite F1.
    intros E. apply working_find in Hw. destruct tmp; [by rewrite E in Hw|]. destruct Hw as [Hw _].
    destruct (A5 r Hw) as (r1 & R1 & R2 & R3). apply (Hreq (km c1) r1); [done|congruence| |done].
    rewrite R3. by destruct (isSignedKey r).
  - specialize (Hno eq_refl).
    assert (ring_step uh value c r r) as Hs.
    { apply step_refl. destruct (isSignedKey r); [done|lia]. }
    assert (forall m', m' = km c -> mAuthRingsTemp c = [] -> verificationRequired uh m' = true) as Hr0.
    { intros m' -> E. apply (Hreq (km c) r); [|done..]. intros _. apply working_find in Hw.
      destruct tmp; [by rewrite E in Hw|]. apply Hw. }
    assert (temp_step uh value c (key_modified uh a c)) as Ht0 by (by apply temp_refl).
    destruct flush.
    + destruct (flush_outcome uh value t tmp r r c (key_modified uh a c) Hg Hw Hs (distrusts_refl uh _) eq_refl Ht0)
        as (F1 & F2 & F3 & F4).
      constructor; [rewrite F1; apply distrusts_refl|done|done|]. right. exists a.
      split; [by rewrite F2|]. apply Hr0. by rewrite F1.
    + constructor; [apply distrusts_refl|by left|done|]. right. exists a. split; [done|by apply Hr0].
Qed.

(** A key that fits is kept in the ring. *)
Lemma accept_outcome uh value t tmp r r' c :
  consistent c -> generation (km c) <> 0 -> working t c = Some (tmp, r) -> ring_step uh value c r r' ->
  outcome uh value c (updateAuthring r' t tmp uh (keep tmp t r' c)).2.
Proof using.
  intros Hc Hg Hw Hs. pose proof (keep_temp uh value t tmp r r' c Hc Hw Hs) as Hk.
  assert (km (keep tmp t r' c) = km c /\ commits (keep tmp t r' c) = commits c
    /\ modified (keep tmp t r' c) = modified c) as (K1 & K2 & K3) by (by destruct tmp).
  assert (distrusts uh (km c) (km (keep tmp t r' c))) as Hd by (rewrite K1; apply distrusts_refl).
  destruct (flush_outcome uh value t tmp r r' c _ Hg Hw Hs Hd K2 Hk) as (F1 & F2 & F3 & F4).
  constructor; [by rewrite F1|done|done|left; by rewrite F2].
Qed.

Lemma trackSignature_outcome at_ uh sig value c :
  consistent c -> generation (km c) <> 0 -> outcome uh value c (trackSignature at_ uh sig c).2.
Proof using.
  intros Hc Hg. pose proof (outcome_refl uh value c c Hc eq_refl eq_refl eq_refl eq_refl) as Hrefl.
  unfold trackSignature. destruct (finduser_handle uh (world c)) as [user|] eqn:Eu; [|done].
  unfold signatureTypeToAuthringType. destruct (at_ =? ATTR_SIG_CU255_PUBK); cbn [Z.eqb ATTR_UNKNOWN ATTR_AUTHCU255]; [|done].
  destruct (working ATTR_AUTHCU255 c) as [[tmp r]|] eqn:Ew; [|done].
  destruct (working_ok _ _ _ _ Hc Ew) as [Et Hok].
  assert (isSignedKey r = true) as Es by (unfold isSignedKey; by rewrite Et).
  destruct (cu25519 user) as [key|] eqn:Ec; [|done]. destruct (ed25519 uh (world c)) as [signing|] eqn:Ee; [|done].
  destruct (verifyKey key sig signing) eqn:Ev; cbn [snd].
  - assert (signature_ok uh (fingerprint key) c) as Hsig by (by exists user, key, sig, signing).
    destruct (isTracked r uh) eqn:Etr; [case_bool_decide as Ef; cbn [negb andb snd]|cbn [andb snd]].
    + destruct (Z.eqb_spec (getAuthMethod r uh) AUTH_METHOD_SIGNATURE) as [Em|Em]; cbn [negb];
        (eapply accept_outcome; [done..|]).
      * apply step_refl. by rewrite Es, <- Ef.
      * apply step_updated; [done..|]. by rewrite Es, <- Ef.
    + apply downgrade_outcome; [done..| |by right]. rewrite Es. intros E%Z.eqb_neq. lia.
    + eapply accept_outcome; [done..|]. apply step_added; [done..|]. by rewrite Es.
  - apply downgrade_outcome; [done..| | |by right].
    + intros [? _]%andb_true_iff. done.
    + rewrite Es. destruct (isTracked r uh) eqn:Etr; cbn [andb]; [by intros E%Z.eqb_neq|].
      intros _. by rewrite (untracked r uh Etr).
Qed.

Lemma trackKey_outcome at_ uh value c :
  consistent c -> generation (km c) <> 0 -> outcome uh value c (trackKey at_ uh value c).2.
Proof using.
  intros Hc Hg. pose proof (outcome_refl uh value c c Hc eq_refl eq_refl eq_refl eq_refl) as Hrefl.
  unfold trackKey. destruct (finduser_handle uh (world c)) as [user|] eqn:Eu; [|done].
  destruct (_ =? ATTR_UNKNOWN); [done|].
  destruct (working (keyTypeToAuthringType at_) c) as [[tmp r]|] eqn:Ew; [|done].
  destruct (working_ok _ _ _ _ Hc Ew) as [Et Hok]. set (t := keyTypeToAuthringType at_) in *.
  destruct (isSignedKey r) eqn:Es; cbn [snd].
  { unfold track_signed. destruct (sig_cu255 uh (world c)); [by apply trackSignature_outcome|by apply outcome_refl]. }
  destruct (isTracked r uh) eqn:Etr; [case_bool_decide as Ef; cbn [negb andb snd]|cbn [andb snd]].
  - destruct (Z.ltb_spec (getAuthMethod r uh) AUTH_METHOD_SEEN) as [Em|Em]; (eapply accept_outcome; [done..|]).
    + apply step_updated; [done..|]. by rewrite Es, Ef.
    + apply step_refl. by rewrite Es, Ef.
  - apply downgrade_outcome; [done..| |].
    + rewrite Es. intros E%Z.leb_gt. exact E.
    + left. unfold isSignedKey in Es. rewrite Et in Es. apply negb_false_iff, Z.eqb_eq in Es. done.
  - eapply accept_outcome; [done..|]. apply step_added; [done..|]. by rewrite Es.
Qed.

Lemma track_outcome at_ uh value c :
  consistent c -> generation (km c) <> 0 -> outcome uh value c (track at_ uh value c).
Proof using.
  intros Hc Hg. unfold track. case_match; [by apply trackKey_outcome|].
  case_match; [by apply trackSignature_outcome|]. by apply outcome_refl.
Qed.

(** *** Rings in containers *)

Definition entry (f : Z * bytes) (m : Z * Z) : bytes := le_bytes 8 f.1 ++ f.2 ++ le_bytes 1 m.2.

Lemma entries_length fs ms :
  Forall (fun e : Z * bytes => 0 <= e.1 < 2 ^ 64 /\ length e.2 = 20%nat) fs -> length fs = length ms ->
  length (mjoin (zip_with entry fs ms)) = (29 * length fs)%nat.
Proof using.
  intros Hf. revert ms. induction Hf as [|f fs [_ Hl] Hf IH]; intros [|m ms] E; [done..|]. cbn [zip_with length].
  rewrite mjoin_cons, length_app, IH by (simpl in E; lia). unfold entry. rewrite !length_app, !length_le_bytes, Hl. lia.
Qed.

Lemma deserialize_entries ty b fs : forall ms af am fuel,
  Forall (fun e : Z * bytes => 0 <= e.1 < 2 ^ 64 /\ length e.2 = 20%nat) fs ->
  Forall (fun e : Z * Z => - 2 ^ 7 <= e.2 < 2 ^ 7) ms -> fs.*1 = ms.*1 ->
  omap_ok (af ++ fs) -> omap_ok (am ++ ms) -> (length fs < fuel)%nat ->
  deserialize_loop fuel (mjoin (zip_with entry fs ms)) (MkAuthRing ty af am b)
  = (true, MkAuthRing ty (af ++ fs) (am ++ ms) b).
Proof using.
  induction fs as [|[h fp] fs IH]; intros [|[h' m] ms] af am [|fuel] Hf Hm E Hof Hom Hfuel;
    cbn [length] in *; try lia; try done.
  { by rewrite !app_nil_r. }
  apply Forall_cons in Hf as [[Hh Hl] Hf]. apply Forall_cons in Hm as [Hm0 Hm]. cbn [fst snd fmap list_fmap] in *.
  injection E as <- E. cbn [zip_with]. rewrite mjoin_cons. unfold entry at 1. cbn [fst snd deserialize_loop].
  rewrite <- !app_assoc.
  rewrite (proj2 (Nat.leb_le 29 _)) by (rewrite !length_app, !length_le_bytes, Hl; lia).
  rewrite (take_app_exact _ _ 8), (drop_app_exact _ _ 8) by (by rewrite length_le_bytes).
  rewrite (take_app_exact fp _ 20), (drop_app_exact fp _ 20) by done.
  rewrite (take_app_exact _ _ 1), (drop_app_exact _ _ 1) by (by rewrite length_le_bytes).
  rewrite !le_value_bytes. change (256 ^ Z.of_nat 8) with (2 ^ 64). rewrite (Z.mod_small h) by done.
  change (m mod 256 ^ Z.of_nat 1) with (wrapu 8 m). rewrite wraps_wrapu by (done || lia). cbn [mType mFingerprint mAuthMethod mNeedsUpdate].
  destruct (KeysFacts.app_above af h fp fs Hof) as [A1 _].
  destruct (KeysFacts.app_above am h m ms Hom) as [A2 _].
  rewrite !insert_last by done. rewrite IH; [by rewrite <- !app_assoc|done..| | |lia].
  - by rewrite <- app_assoc.
  - by rewrite <- app_assoc.
Qed.

(** A ring that is written is read as it is, up to the mark that it changed. *)
Lemma authring_read r :
  ring_ok r ->
  new_AuthRing (mType r) (serializeForJS r) = MkAuthRing (mType r) (mFingerprint r) (mAuthMethod r) false.
Proof using.
  intros [Hf Hm Hs He Hx]. unfold new_AuthRing, serializeForJS.
  assert (length (mFingerprint r) = length (mAuthMethod r)) as El
    by (rewrite <- (length_fmap fst (mFingerprint r)), Hs; apply length_fmap).
  rewrite (deserialize_entries (mType r) false (mFingerprint r) (mAuthMethod r) [] []); [done..|].
  pose proof (entries_length _ _ He El) as L. unfold entry in L. rewrite L. lia.
Qed.

Lemma insert_keys {A B} (k : Z) (a : A) (b : B) l1 : forall l2,
  l1.*1 = l2.*1 -> (omap_insert k a l1).*1 = (omap_insert k b l2).*1.
Proof using.
  induction l1 as [|[k1 a1] l1 IH]; intros [|[k2 b2] l2] E; try done.
  cbn [fmap list_fmap fst] in E. injection E as <- E. simpl.
  repeat case_if; cbn [fmap list_fmap fst]; f_equal; auto. by f_equal.
Qed.

Lemma insert_found {A} (k : Z) (a : A) l : is_Some (omap_find k l) -> (omap_insert k a l).*1 = l.*1.
Proof using.
  induction l as [|[k1 a1] l IH]; intros [x E]; [done|]. rewrite KeysFacts.omap_find_cons in E. cbn [omap_insert].
  destruct (kltb k k1) eqn:E1; [done|]. destruct (kltb k1 k) eqn:E2.
  - cbn [fmap list_fmap fst]. f_equal. apply IH. by exists x.
  - cbn [fmap list_fmap fst]. f_equal. by apply kltb_total.
Qed.

Lemma updated_ok uh x r : ring_ok r -> - 2 ^ 7 <= x < 2 ^ 7 -> ring_ok (updated uh x r).
Proof using.
  intros Hr Hx. unfold updated, update. destruct (isTracked r uh) eqn:Et; [|done]. cbn [default id].
  destruct Hr as [H2 H3 H4 H5 H6]. constructor; cbn [mFingerprint mAuthMethod]; [done|by apply insert_ok| |done|].
  - rewrite insert_found; [done|]. by apply bool_decide_eq_true in Et.
  - by apply KeysFacts.omap_insert_Forall.
Qed.

Lemma put_ok uh fp x r b :
  ring_ok r -> 0 <= uh < 2 ^ 64 -> length fp = 20%nat -> - 2 ^ 7 <= x < 2 ^ 7 ->
  ring_ok (MkAuthRing (mType r) (omap_insert uh fp (mFingerprint r)) (omap_insert uh x (mAuthMethod r)) b).
Proof using.
  intros [H2 H3 H4 H5 H6] Hu Hl Hx.
  constructor; cbn [mFingerprint mAuthMethod]; [by apply insert_ok..|by apply insert_keys| |];
    by apply KeysFacts.omap_insert_Forall.
Qed.

(** Rings that are read are well formed. *)
Lemma read_ring_ok ty v : bytes_ok v -> mType (new_AuthRing ty v) = ty /\ ring_ok (new_AuthRing ty v).
Proof using.
  intros Hv. unfold new_AuthRing.
  assert (forall fuel v r, bytes_ok v -> ring_ok r ->
    mType (deserialize_loop fuel v r).2 = mType r /\ ring_ok (deserialize_loop fuel v r).2) as Hl.
  { clear v Hv. induction fuel as [|fuel IH]; intros v r Hv Hr; [done|]. cbn [deserialize_loop].
    destruct (29 <=? length v)%nat eqn:El; [|done]. apply Nat.leb_le in El.
    assert (forall n, bytes_ok (take n v)) as Hb by (intros; by apply Forall_take).
    match goal with |- context [deserialize_loop fuel ?v' ?r'] => destruct (IH v' r') as [E1 E2] end; [..|by rewrite E1].
    - by repeat apply Forall_drop.
    - apply put_ok; [done| |rewrite length_take, length_drop; lia|apply (wraps_range 8); lia].
      pose proof (le_value_range (take 8 v) (Hb 8%nat)) as R. rewrite length_take, Nat.min_l in R by lia. exact R. }
  apply Hl; [done|]. by constructor; try constructor.
Qed.

(** *** Credentials *)

(** What a client knows once it has read the keys. *)
Definition read_back m : KeyManager := KeyManager.updateAuthring ATTR_AUTHRING (mAuthEd25519 (keys m)) m.

(** Only the entry of the user differs. *)
Definition only (uh : Z) r r' : Prop :=
  forall v, v <> uh -> getAuthMethod r' v = getAuthMethod r v /\ getFingerprint r' v = getFingerprint r v.

Lemma read_back_verified uh r' cu m :
  omap_ok (mAuthRings m) -> uh <> me (client m) ->
  omap_find ATTR_AUTHCU255 (mAuthRings m) = Some cu -> mType cu = ATTR_AUTHCU255 ->
  getAuthMethod cu uh = AUTH_METHOD_SIGNATURE -> ring_ok r' -> mType r' = ATTR_AUTHRING ->
  let m' := read_back (setAuthRing (serializeForJS r') m) in
  KeyManager.areCredentialsVerified uh m' = (getAuthMethod r' uh =? AUTH_METHOD_FINGERPRINT)
  /\ exists r1, omap_find ATTR_AUTHRING (mAuthRings m') = Some r1
       /\ (forall v, getAuthMethod r1 v = getAuthMethod r' v /\ getFingerprint r1 v = getFingerprint r' v).
Proof using.
  intros Ho Hme Ec Tc Mc Hr Tr. cbv zeta.
  unfold read_back, KeyManager.updateAuthring, setAuthRing, KeyManager.areCredentialsVerified,
    AuthRing.areCredentialsVerified. cbn [Z.eqb ATTR_AUTHRING Pos.eqb keys set_keys mAuthEd25519 set_mAuthEd25519
    mAuthRings set_mAuthRings client].
  pose proof (authring_read r' Hr) as Rd. rewrite Tr in Rd. change 3 with ATTR_AUTHRING. rewrite Rd.
  rewrite (proj2 (Z.eqb_neq uh _)) by done.
  rewrite find_insert_ne by (by apply erase_ok || done). rewrite find_erase_ne by done. rewrite Ec, find_insert_eq.
  unfold isSignedKey. cbn [mType]. rewrite Tc, Mc. split; [done|].
  eexists. split; [done|]. done.
Qed.

Lemma only_updated uh x r :
  ring_ok r -> isTracked r uh = true ->
  only uh r (updated uh x r) /\ getAuthMethod (updated uh x r) uh = x
  /\ getFingerprint (updated uh x r) uh = getFingerprint r uh.
Proof using.
  intros Hr Ht. destruct (ring_updated_same uh x r) as [_ E].
  assert (forall v, getFingerprint (updated uh x r) v = getFingerprint r v) as Ef
    by (intros v; unfold getFingerprint; by rewrite E).
  split_and!; [|by rewrite getAuthMethod_updated, Z.eqb_refl|done].
  intros v Hv. by rewrite Ef, getAuthMethod_updated, (proj2 (Z.eqb_neq v uh) Hv).
Qed.

Lemma apply_verify_spec uh m ed cu :
  omap_find ATTR_AUTHRING (mAuthRings m) = Some ed -> omap_find ATTR_AUTHCU255 (mAuthRings m) = Some cu ->
  getAuthMethod cu uh = AUTH_METHOD_SIGNATURE -> ring_ok ed -> 0 <= uh < 2 ^ 64 ->
  getAuthMethod ed uh = AUTH_METHOD_SEEN
  \/ getAuthMethod ed uh = AUTH_METHOD_UNKNOWN /\ is_Some (finduser_handle uh (client m)) /\ is_Some (ed25519 uh (client m)) ->
  if isTracked ed uh && (getAuthMethod ed uh =? AUTH_METHOD_UNKNOWN) then apply_verify uh m = None
  else exists r', apply_verify uh m = Some (setAuthRing (serializeForJS r') m) /\ ring_ok r' /\ mType r' = mType ed
    /\ only uh ed r' /\ getAuthMethod r' uh = AUTH_METHOD_FINGERPRINT
    /\ (getAuthMethod ed uh = AUTH_METHOD_SEEN -> getFingerprint r' uh = getFingerprint ed uh).
Proof using.
  intros E1 E2 E3 Hr Hu Hm. unfold apply_verify. rewrite E1, E2, E3. cbn [negb Z.eqb AUTH_METHOD_SIGNATURE Pos.eqb].
  destruct Hm as [Em|(Em & [user Eu] & [key Ek])]; rewrite Em; cbn [Z.eqb AUTH_METHOD_SEEN AUTH_METHOD_UNKNOWN Pos.eqb].
  - rewrite andb_false_r. destruct (only_updated uh AUTH_METHOD_FINGERPRINT ed Hr) as (H1' & H2' & H3').
    { apply trusted_tracked. by rewrite Em. }
    eexists. split; [done|]. split_and!; [by apply updated_ok|by apply ring_updated_same|done..].
  - rewrite andb_true_r, Eu, Ek. cbn [mbind option_bind]. destruct (isTracked ed uh) eqn:Et.
    { by rewrite (add_tracked uh _ _ ed Et). }
    pose proof (getAuthMethod_added uh (fingerprint key) AUTH_METHOD_FINGERPRINT ed) as Ha.
    pose proof (getFingerprint_added uh (fingerprint key) AUTH_METHOD_FINGERPRINT ed) as Hf.
    unfold added in Ha, Hf. rewrite add_untracked in * by done. cbn [default id] in Ha, Hf.
    cbn [mbind option_bind]. eexists. split; [done|].
    split_and!; [apply put_ok; [done..| |done]|done| | |done].
    + unfold fingerprint. rewrite length_take, length_sha256. done.
    + intros v Hv. by rewrite Ha, Hf, (proj2 (Z.eqb_neq v uh) Hv).
    + by rewrite Ha, Z.eqb_refl.
Qed.

Lemma apply_reset_spec uh m ed :
  omap_find ATTR_AUTHRING (mAuthRings m) = Some ed -> ring_ok ed ->
  getAuthMethod ed uh = AUTH_METHOD_FINGERPRINT ->
  exists r', apply_reset uh m = setAuthRing (serializeForJS r') m /\ ring_ok r' /\ mType r' = mType ed
    /\ only uh ed r' /\ getAuthMethod r' uh = AUTH_METHOD_SEEN /\ getFingerprint r' uh = getFingerprint ed uh.
Proof using.
  intros E1 Hr Em. unfold apply_reset. rewrite E1, Em. cbn [negb Z.eqb AUTH_METHOD_FINGERPRINT Pos.eqb].
  destruct (only_updated uh AUTH_METHOD_SEEN ed Hr) as (H1' & H2' & H3').
  { apply trusted_tracked. by rewrite Em. }
  eexists. split; [done|]. split_and!; [by apply updated_ok|by apply ring_updated_same|done..].
Qed.

(** When the calls commit a change. *)
Lemma verify_ok uh c ed cu :
  generation (km c) <> 0 -> omap_find ATTR_AUTHRING (rings c) = Some ed ->
  omap_find ATTR_AUTHCU255 (rings c) = Some cu -> getAuthMethod cu uh = AUTH_METHOD_SIGNATURE ->
  AUTH_METHOD_UNKNOWN <= getAuthMethod ed uh <= AUTH_METHOD_FINGERPRINT ->
  ((verifyCredentials uh c).1 = API_OK <->
     getAuthMethod ed uh = AUTH_METHOD_SEEN
     \/ getAuthMethod ed uh = AUTH_METHOD_UNKNOWN /\ is_Some (finduser_handle uh (world c)) /\ is_Some (ed25519 uh (world c)))
  /\ ((verifyCredentials uh c).1 = API_OK -> commits (verifyCredentials uh c).2 = commits c ++ [Verify uh]).
Proof using.
  intros Hg%Z.eqb_neq E1 E2 E3 Hm. unfold verifyCredentials. rewrite Hg, E1, E2, E3.
  unfold AUTH_METHOD_UNKNOWN, AUTH_METHOD_FINGERPRINT, AUTH_METHOD_SEEN in *.
  cbn [negb Z.eqb AUTH_METHOD_SIGNATURE Pos.eqb].
  assert (getAuthMethod ed uh = -1 \/ getAuthMethod ed uh = 0 \/ getAuthMethod ed uh = 1) as [Em|[Em|Em]] by lia;
    rewrite Em; cbn [Z.eqb Pos.eqb andb].
  - destruct (finduser_handle uh (world c)) as [user|]; [destruct (ed25519 uh (world c)) as [key|]|];
      cbn [mbind option_bind]; (case_bool_decide as Eb; cbn [negb fst snd]);
      (split; [split; [intros|intros [?|(_ & ? & ?)]]|]); try done; try (by right);
      by (rewrite is_Some_alt in *; done) || (destruct Eb; by eexists).
  - cbn [fst snd]. by split; [split; [left|]|].
  - cbn [fst snd]. split; [split; [done|intros [?|[? _]]; lia]|done].
Qed.

Lemma reset_ok uh c ed cu :
  generation (km c) <> 0 -> uh <> me (world c) -> mType ed = ATTR_AUTHRING -> mType cu = ATTR_AUTHCU255 ->
  omap_find ATTR_AUTHRING (rings c) = Some ed -> omap_find ATTR_AUTHCU255 (rings c) = Some cu ->
  getAuthMethod cu uh = AUTH_METHOD_SIGNATURE ->
  AUTH_METHOD_UNKNOWN <= getAuthMethod ed uh <= AUTH_METHOD_FINGERPRINT ->
  areCredentialsVerified uh (km c) = (getAuthMethod ed uh =? AUTH_METHOD_FINGERPRINT)
  /\ ((resetCredentials uh c).1 = API_OK <-> getAuthMethod ed uh = AUTH_METHOD_FINGERPRINT)
  /\ ((resetCredentials uh c).1 = API_OK -> commits (resetCredentials uh c).2 = commits c ++ [Reset uh]).
Proof using.
  intros Hg%Z.eqb_neq Hme%Z.eqb_neq T1 T2 E1 E2 E3 Hm.
  unfold resetCredentials, KeyManager.areCredentialsVerified, AuthRing.areCredentialsVerified.
  fold (world c) (rings c). rewrite Hg, Hme, E1, E2.
  assert (isSignedKey cu = true /\ isSignedKey ed = false) as [-> ->] by (unfold isSignedKey; by rewrite T1, T2).
  rewrite E3. split; [done|]. unfold AUTH_METHOD_UNKNOWN, AUTH_METHOD_FINGERPRINT, AUTH_METHOD_SEEN in *.
  assert (getAuthMethod ed uh = -1 \/ getAuthMethod ed uh = 0 \/ getAuthMethod ed uh = 1) as [Em|[Em|Em]] by lia;
    rewrite Em; cbn [Z.eqb Pos.eqb fst snd]; by (split; [split; done|]).
Qed.

End facts.
End TrackFacts.

Section theorems.
Import Keys AuthRing KeyManager ContactKeys TrackFacts.
Context {W : Type} `{KeyClient W} `{KeyCrypto} `{!ContactClient W} `{ContactCrypto}.

(** C17: Whatever key or signature of a contact arrives, tracking it trusts nobody
    more: who had to be verified still has to be right after the call, and the
    trust in other users is untouched.  A key or signature that does not fit is
    reported and, once the rings are initialised, leaves its user in need of
    verification; this speaks of the state right after the call and lasts until
    the rings are next read back from the stored attribute, which the reply of a
    commit that is already on its way does too early ([withdrawal_window]).  The
    ring that is committed, or kept until the initialization ends, differs from
    the known one in that user only, keeps a pinned fingerprint, verifies nobody,
    and trusts the user only for the key at hand, which, for a signed key, carries
    a valid signature of the user's signing key.  The rings are consistent (as
    read) and the keys are initialised. *)
Theorem contact_tracking (at_ uh : Z) (value : bytes) (c : Contacts (W:=W)) :
  consistent c -> generation (km c) <> 0 ->
  let c' := track at_ uh value c in
  (forall v, verificationRequired v (km c) = true -> verificationRequired v (km c') = true)
  /\ (forall v, v <> uh -> verificationRequired v (km c') = verificationRequired v (km c))
  /\ keys (km c') = keys (km c)
  /\ report_step uh c c' /\ commit_step uh value c c' /\ temp_step uh value c c'.
Proof.
  intros Hc Hg. destruct (track_outcome at_ uh value c Hc Hg) as [Ha Hb Ht Hm]. cbv zeta.
  split_and!; [|by intros; eapply distrusts_others|by eapply distrusts_keys|done..].
  intros v. eapply distrusts_required; [|done]. destruct Hc as [[_ Hr] _]. intros t r E. by apply Hr.
Qed.

(** C18: For a user other than oneself whose Cu25519 key is tracked with a verified
    signature and whose signing key has no method, was seen or was compared, with
    both rings there and consistent and the keys initialised: verifying is
    accepted exactly when the signing key was seen, or has no method and is at
    hand; resetting exactly when the credentials are verified.  The call commits
    the change, and when it is applied to the keys at hand and they are read back
    the user is verified, or not any more; no other entry of the ring differs, and a fingerprint that was
    seen stays pinned.  One case is different: a user that is tracked without a
    method (whose key changed) is accepted for verification too, but an assertion
    of [AuthRing::add] fails when the commit is applied. *)
Theorem credentials_changed (uh : Z) (c : Contacts (W:=W)) (ed cu : AuthRing) :
  consistent c -> generation (km c) <> 0 -> 0 <= uh < 2 ^ 64 -> uh <> me (world c) ->
  omap_find ATTR_AUTHRING (rings c) = Some ed -> omap_find ATTR_AUTHCU255 (rings c) = Some cu ->
  AUTH_METHOD_UNKNOWN <= getAuthMethod ed uh <= AUTH_METHOD_FINGERPRINT ->
  getAuthMethod cu uh = AUTH_METHOD_SIGNATURE ->
  ((verifyCredentials uh c).1 = API_OK ->
     commits (verifyCredentials uh c).2 = commits c ++ [Verify uh]
     /\ if isTracked ed uh && (getAuthMethod ed uh =? AUTH_METHOD_UNKNOWN)
        then apply_change (Verify uh) (km c) = None
        else exists m r', apply_change (Verify uh) (km c) = Some m
          /\ areCredentialsVerified uh (read_back m) = true
          /\ omap_find ATTR_AUTHRING (mAuthRings (read_back m)) = Some r' /\ only uh ed r'
          /\ (getAuthMethod ed uh = AUTH_METHOD_SEEN -> getFingerprint r' uh = getFingerprint ed uh))
  /\ ((resetCredentials uh c).1 = API_OK ->
     commits (resetCredentials uh c).2 = commits c ++ [Reset uh]
     /\ areCredentialsVerified uh (km c) = true
     /\ exists m r', apply_change (Reset uh) (km c) = Some m
          /\ areCredentialsVerified uh (read_back m) = false
          /\ omap_find ATTR_AUTHRING (mAuthRings (read_back m)) = Some r' /\ only uh ed r'
          /\ getAuthMethod r' uh = AUTH_METHOD_SEEN /\ getFingerprint r' uh = getFingerprint ed uh)
  /\ ((verifyCredentials uh c).1 = API_OK <->
       getAuthMethod ed uh = AUTH_METHOD_SEEN
       \/ getAuthMethod ed uh = AUTH_METHOD_UNKNOWN /\ is_Some (finduser_handle uh (world c))
          /\ is_Some (ed25519 uh (world c)))
  /\ ((resetCredentials uh c).1 = API_OK <-> areCredentialsVerified uh (km c) = true).
Proof.
  intros Hc Hg Hu Hme E1 E2 Hm Ecu. destruct Hc as [[Ho Hr] _].
  destruct (Hr _ _ E1) as [T1 R1], (Hr _ _ E2) as [T2 R2].
  destruct (verify_ok uh c ed cu Hg E1 E2 Ecu Hm) as [V1 V2].
  destruct (reset_ok uh c ed cu Hg Hme T1 T2 E1 E2 Ecu Hm) as (S1 & S2 & S3).
  split_and!; [| |exact V1|by rewrite S1, Z.eqb_eq].
  - intros Hok. split; [by apply V2|]. cbn [apply_change].
    pose proof (apply_verify_spec uh (km c) ed cu E1 E2 Ecu R1 Hu (proj1 V1 Hok)) as Hv.
    destruct (isTracked ed uh && _); [exact Hv|]. destruct Hv as (r' & -> & Q1 & Q2 & Q3 & Q4 & Q5).
    destruct (read_back_verified uh r' cu (km c) Ho Hme E2 T2 Ecu Q1 (eq_trans Q2 T1)) as (B0 & r1 & B1 & B2).
    eexists _, r1. split; [done|]. rewrite B0, Q4. split_and!; [done..| |].
    + intros v Hne. destruct (B2 v) as [-> ->]. by apply Q3.
    + destruct (B2 uh) as [_ ->]. done.
  - intros Hok. split; [by apply S3|]. split; [by rewrite S1, Z.eqb_eq; apply S2|]. cbn [apply_change].
    destruct (apply_reset_spec uh (km c) ed E1 R1 (proj1 S2 Hok)) as (r' & -> & Q1 & Q2 & Q3 & Q4 & Q5).
    destruct (read_back_verified uh r' cu (km c) Ho Hme E2 T2 Ecu Q1 (eq_trans Q2 T1)) as (B0 & r1 & B1 & B2).
    eexists _, r1. split; [done|]. rewrite B0, Q4. split_and!; [done..| | |].
    + intros v Hne. destruct (B2 v) as [-> ->]. by apply Q3.
    + by destruct (B2 uh) as [-> _].
    + by destruct (B2 uh) as [_ ->].
Qed.

End theorems.

(** *** A contact whose key changes *)

Module ContactDemo.
Import Keys AuthRing KeyManager ContactKeys TrackFacts.

#[local] Existing Instance Demo.demo_client.
#[local] Existing Instance Demo.demo_crypto.
#[local] Existing Instance ToyAEAD.toy.

#[export] Instance demo_contacts : ContactClient unit := {
  ed25519 uh _ := Some (replicate 32 uh);
  sig_cu255 _ _ := Some (replicate 72 1);
  users _ := [7; 8];
  expire_cu25519 _ w := w;
  set_attribute _ _ _ w := w;
  remove_attribute _ _ w := w
}.

Lemma toy_length (x : bytes) : length (take 32 (x ++ replicate 32 0)) = 32%nat.
Proof. rewrite length_take, length_app, length_replicate. lia. Qed.

#[export] Instance demo_contact_crypto : ContactCrypto := {
  sha256 x := take 32 (x ++ replicate 32 0);
  length_sha256 := toy_length;
  sign_verify_detached _ _ _ := true
}.

(** Both rings are in the keys as well. *)
Definition ed_ring : bytes := serializeForJS (Demo.ring ATTR_AUTHRING AUTH_METHOD_SEEN).
Definition cu_ring : bytes := serializeForJS (Demo.ring ATTR_AUTHCU255 AUTH_METHOD_SIGNATURE).
Definition start_keys : KeyManager (W:=unit) :=
  set_keys (set_mAuthCu25519 cu_ring (set_mAuthEd25519 ed_ring Demo.demo_keys)) Demo.demo.
Definition start : Contacts := MkContacts start_keys [] [] [] [] [].

Lemma ring_ok_demo t m : - 2 ^ 7 <= m < 2 ^ 7 -> ring_ok (Demo.ring t m).
Proof.
  intros Hm. apply (put_ok 8 (replicate 20 2) m (MkAuthRing t [(7, replicate 20 1)] [(7, m)] false) true); [|lia|done|done].
  apply (put_ok 7 (replicate 20 1) m (MkAuthRing t [] [] false) false); [|lia|done|done].
  by constructor; try constructor.
Qed.

Lemma start_consistent : consistent start.
Proof.
  split; [|split; [done|intros t r; done]]. split; [by repeat constructor|].
  intros t r E%find_In; [|by repeat constructor].
  apply elem_of_cons in E as [[= -> ->]|[[= -> ->]|E]%elem_of_cons]; [| |by apply not_elem_of_nil in E];
    (split; [done|by apply ring_ok_demo]).
Qed.

Definition iv : bytes := replicate 12 7.
Definition quiesce (s : System (W:=unit)) : System :=
  MkSystem (CommitFacts.steps iv [] 40 (machine s)) (contacts s).
Definition on (ev : Commits.Event) (s : System) : System :=
  quiesce (MkSystem (default (machine s) (Commits.handle_event ev (machine s))) (contacts s)).

Definition km_of (s : System (W:=unit)) : KeyManager := Commits.km (machine s).
Definition trusted (uh : Z) (s : System (W:=unit)) : bool := negb (verificationRequired uh (km_of s)).

(** A commit is on its way when the signing key of alice (7) changes. *)
Definition s1 : System :=
  on (Commits.Commit (SetRing ATTR_AUTHRING ed_ring)) (MkSystem (Commits.start start_keys true) ([], [], [], [])).
Definition s2 : System := quiesce (on_contacts (track ATTR_ED25519_PUBK 7 (replicate 32 99)) s1).
Definition s3 : System := on Commits.PutStored s2.
Definition s4 : System := on Commits.PutStored s3.

(** Her trust is withdrawn at once, but the reply of the commit brings the old ring
    back: she is trusted again, and is sent the key of the share that waits for
    her, until the withdrawal is stored as well. *)
Lemma withdrawal_window :
  trusted 7 s1 = true /\ trusted 7 s2 = false
  /\ trusted 7 s3 = true /\ queued (km_of s2) = []
  /\ (pk_user <$> queued (km_of s3)) = [7] /\ trusted 7 s4 = false.
Proof. split_and!; vm_compute; reflexivity. Qed.

(** Two new contacts are tracked while a commit is on its way.  The rings to be
    committed are made when a key is tracked, not when the commit is applied, so the
    second one replaces the first. *)
Definition no_contacts : KeyManager (W:=unit) :=
  set_mAuthRings [(ATTR_AUTHRING, MkAuthRing ATTR_AUTHRING [] [] false);
                  (ATTR_AUTHCU255, MkAuthRing ATTR_AUTHCU255 [] [] false)] start_keys.
Definition t1 : System :=
  quiesce (on_contacts (track ATTR_ED25519_PUBK 7 (replicate 32 7))
    (MkSystem (Commits.start no_contacts true) ([], [], [], []))).
Definition t2 : System := quiesce (on_contacts (track ATTR_ED25519_PUBK 8 (replicate 32 8)) t1).
Definition t4 : System := on Commits.PutStored (on Commits.PutStored (on Commits.PutStored t2)).

(** Bob's signing key changes, and his credentials are verified: the call is
    accepted, but he is tracked already. *)
Lemma changed_key_verified :
  let c := track ATTR_ED25519_PUBK 8 (replicate 32 99) start in
  (verifyCredentials 8 c).1 = API_OK /\ apply_change (Verify 8) (km c) = None.
Proof. split; vm_compute; reflexivity. Qed.

Definition tracked_users (s : System (W:=unit)) : list Z :=
  match omap_find ATTR_AUTHRING (mAuthRings (km_of s)) with Some r => getTrackedUsers r | None => [] end.

Lemma tracked_contact_lost :
  tracked_users (on Commits.PutStored t1) = [7] /\ tracked_users t4 = [8]
  /\ Commits.activeQueue (machine t4) = [] /\ Commits.nextQueue (machine t4) = [].
Proof. split_and!; vm_compute; reflexivity. Qed.

End ContactDemo.

#[local] Existing Instance Demo.demo_client.
#[local] Existing Instance Demo.demo_crypto.
#[local] Existing Instance ContactDemo.demo_contacts.
#[local] Existing Instance ContactDemo.demo_contact_crypto.

Lemma contact_tracking_witness :
  let c' := ContactKeys.track ATTR_ED25519_PUBK 7 (replicate 32 99) ContactDemo.start in
  KeyManager.verificationRequired 7 (ContactKeys.km ContactDemo.start) = false
  /\ KeyManager.verificationRequired 7 (ContactKeys.km c') = true
  /\ KeyManager.verificationRequired 8 (ContactKeys.km c') = false.
Proof.
  destruct (contact_tracking ATTR_ED25519_PUBK 7 (replicate 32 99) ContactDemo.start ContactDemo.start_consistent)
    as (_ & H2 & _ & H3 & _); [vm_compute; discriminate|]. cbv zeta.
  split; [vm_compute; reflexivity|]. split.
  - destruct H3 as [E|(a & _ & H3)]; [exfalso; revert E; vm_compute; discriminate|by apply H3].
  - rewrite (H2 8) by lia. vm_compute. reflexivity.
Defined.

Lemma credentials_changed_witness :
  (ContactKeys.verifyCredentials 7 ContactDemo.start).1 = API_OK
  /\ exists m, ContactKeys.apply_change (ContactKeys.Verify 7) ContactDemo.start_keys = Some m
       /\ KeyManager.areCredentialsVerified 7 (TrackFacts.read_back m) = true.
Proof.
  assert ((ContactKeys.verifyCredentials 7 ContactDemo.start).1 = API_OK) as E by (vm_compute; reflexivity).
  destruct (credentials_changed 7 ContactDemo.start (Demo.ring ATTR_AUTHRING AUTH_METHOD_SEEN)
    (Demo.ring ATTR_AUTHCU255 AUTH_METHOD_SIGNATURE) ContactDemo.start_consistent) as (V & _);
    [vm_compute; discriminate|lia|vm_compute; discriminate|vm_compute; reflexivity..|vm_compute; split; discriminate
    |vm_compute; reflexivity|].
  split; [exact E|]. destruct (V E) as (_ & m & r' & V1 & V2 & _). exists m. split; [exact V1|exact V2].
Defined.
