(* ===== verification/Splitter.v ===== *)
(** * The streaming JSON parser

    [JSONSplitter] (src/json.cpp) walks a JSON text that arrives in chunks and
    calls a filter for every element whose path was asked for.  Proved: it always
    ends; without error objects inside of the stream and with filters that do not
    pause it, what it calls and the state it reaches do not depend on where the
    stream was cut into chunks; and on a well-formed document the calls are those
    of a reference walk over the value. *)

From S2P Require Import Prelude Crypto Encoding OMap Serialize Json.
Local Open Scope Z_scope.

Module JSONSplitter.

Inductive CallbackResult := SUCCESS | FAILED | PAUSED.

#[export] Instance result_eq_dec : EqDecision CallbackResult.
Proof. solve_decision. Defined.

(** A filter is given a position in the text: the element up to where the parser
    has got, and what follows it in the chunk; [W] is what it works on. *)
Definition FilterCallback (W : Type) : Type := bytes -> bytes -> W -> CallbackResult * W.
Definition FiltersChain (W : Type) : Type := list (option (list (bytes * FilterCallback W))).

(** The members that describe the place in the document ([mStack] top first). *)
Record Place := MkPlace {
  mLastName : bytes;
  mStack : list bytes;
  mCurrentPath : bytes;
  mExpectValue : Z
}.

Record Splitter := MkSplitter {
  place : Place;
  mProcessedBytes : nat;
  mStarting : bool;
  mFinished : bool;
  mFailed : bool;
  mPaused : bool
}.

Definition place0 : Place := MkPlace [] [] [] 1.

(** The constructor and [clear]. *)
Definition clear : Splitter := MkSplitter place0 0 true false false false.

(** The pointers [mLastPos] and [mPos] cut the data into three parts. *)
Record Cursor := MkCursor { passed : bytes; pend : bytes; text : bytes }.

Definition data (c : Cursor) : bytes := passed c ++ pend c ++ text c.

(** [mPos += n], [mLastPos = mPos]. *)
Definition advance (n : nat) (c : Cursor) : Cursor :=
  MkCursor (passed c) (pend c ++ take n (text c)) (drop n (text c)).
Definition catch_up (c : Cursor) : Cursor := MkCursor (passed c ++ pend c) [] (text c).

(** The length of the string at the start of the text, quotes included: the next
    quote behind an even number [n] of backslashes. *)
Fixpoint strEnd_from (even : bool) (l : bytes) : option nat :=
  match l with
  | [] => None
  | c :: l =>
      if c =? 0 then None
      else if (c =? cDquote) && even then Some 1%nat
      else S <$> strEnd_from (if c =? cBackslash then negb even else true) l
  end.
Definition strEnd (l : bytes) : option nat := S <$> strEnd_from true (drop 1 l).

Fixpoint num_len (l : bytes) : nat :=
  match l with
  | [] => 0
  | c :: l => if JSON.is_any c (str "0123456789-+eE.") then S (num_len l) else 0
  end.
Definition numEnd (l : bytes) : option nat :=
  let n := num_len l in if (n =? 0)%nat then None else Some n.

(** How the loop of [processChunk] ended. *)
Inductive Stop := Waiting | Finished | Failed | Paused_.

#[export] Instance stop_eq_dec : EqDecision Stop.
Proof. solve_decision. Defined.

Section splitter.
Context {W : Type} (filters : FiltersChain W).

(** The first filter of the chain for a path. *)
Fixpoint find_in (chain : FiltersChain W) (path : bytes) : option (FilterCallback W) :=
  match chain with
  | [] => None
  | Some m :: chain =>
      match omap_find path m with Some cb => Some cb | None => find_in chain path end
  | None :: chain => find_in chain path
  end.
Definition findCallback (path : bytes) : option (FilterCallback W) := find_in filters path.

(** A marker, called with an empty text; nothing depends on its result. *)
Definition notify (path : bytes) (w : W) : W :=
  match findCallback path with Some cb => (cb [] [] w).2 | None => w end.

(** One round of the loop: the next state, or that the rest of the text does not
    suffice, that the document is complete, that it is malformed or a filter
    refused it, that a filter asked for a pause. *)
Inductive Round :=
  | Next (p : Place) (c : Cursor) (w : W)
  | Wait
  | Complete (p : Place) (c : Cursor) (w : W)
  | Malformed (p : Place) (c : Cursor) (w : W)
  | Pause (w : W).

(** [[] or [{] *)
Definition open_element (ch : Z) (p : Place) (c : Cursor) (w : W) : Round :=
  if mExpectValue p =? 0 then Malformed p c w
  else
    let entry := ch :: mLastName p in
    let path := mCurrentPath p ++ entry in
    let c := if bool_decide (is_Some (findCallback path)) then catch_up c else c in
    Next (MkPlace [] (entry :: mStack p) path (if ch =? chr "[" then 1 else 0)) (advance 1 c) w.

Definition opens (entry : bytes) (ch : Z) : bool :=
  ((ch =? chr "]") && (cchar entry =? chr "[")) || ((ch =? chr "}") && (cchar entry =? chr "{")).

(** The data are an error object ({"err":...}) that ends here. *)
Definition err_object : bytes := chr "{" :: cDquote :: str "err" ++ [cDquote; chr ":"].
Definition is_error_object (ch : Z) (p : Place) (c : Cursor) : bool :=
  (length (mStack p) =? 1)%nat && (ch =? chr "}") && bool_decide (passed c = [])
  && bool_decide (take 7 (data c) = err_object).

(** []] or [}] *)
Definition close_element (ch : Z) (p : Place) (c : Cursor) (w : W) : Round :=
  if mExpectValue p <? 0 then Malformed p c w
  else
    match mStack p with
    | [] => Malformed p c w
    | entry :: stack =>
        if negb (opens entry ch) then Malformed p c w
        else
          let filter := if is_error_object ch p c then str "#" else mCurrentPath p in
          let p := MkPlace [] (mStack p) (mCurrentPath p) (mExpectValue p) in
          let c := advance 1 c in
          let '(r, c, w) :=
            match findCallback filter with
            | Some cb => let '(r, w) := cb (pend c) (text c) w in (r, if bool_decide (r = SUCCESS) then catch_up c else c, w)
            | None => (SUCCESS, c, w)
            end in
          if negb (bool_decide (r = SUCCESS)) then Malformed p c w
          else
            let p := MkPlace [] stack (take (length (mCurrentPath p) - length entry) (mCurrentPath p)) 0 in
            if bool_decide (stack = []) then Complete p (catch_up c) w else Next p c w
    end.

Definition comma (p : Place) (c : Cursor) (w : W) : Round :=
  if negb (mExpectValue p =? 0) then Malformed p c w
  else
    let c := if bool_decide (pend c = []) then catch_up (advance 1 c) else advance 1 c in
    match mStack p with
    | [] => Malformed p c w
    | entry :: _ =>
        Next (MkPlace (mLastName p) (mStack p) (mCurrentPath p) (if cchar entry =? chr "[" then 1 else 0)) c w
    end.

(** A string is a value if one is expected, otherwise a name. *)
Definition string_element (p : Place) (c : Cursor) (w : W) : Round :=
  match strEnd (text c) with
  | None => Wait
  | Some t =>
      if negb (mExpectValue p =? 0) then
        let p' := MkPlace [] (mStack p) (mCurrentPath p) 0 in
        match findCallback (mCurrentPath p ++ cDquote :: mLastName p) with
        | Some cb =>
            let '(r, w) := cb (take t (text c)) (drop t (text c)) w in
            match r with
            | FAILED => Malformed p c w
            | PAUSED => Pause w
            | SUCCESS => Next p' (catch_up (advance t c)) w
            end
        | None => Next p' (advance t c) w
        end
      else
        let after := cchar (drop t (text c)) in
        if after =? 0 then Wait
        else if negb (after =? chr ":") then Malformed p c w
        else Next (MkPlace (take (t - 2) (drop 1 (text c))) (mStack p) (mCurrentPath p) (-1)) (advance (t + 1) c) w
  end.

Definition number_element (p : Place) (c : Cursor) (w : W) : Round :=
  if mExpectValue p =? 0 then Malformed p c w
  else
    match numEnd (text c) with
    | None => Wait
    | Some j =>
        if cchar (drop j (text c)) =? 0 then Wait
        else
          let p := MkPlace (mLastName p) (mStack p) (mCurrentPath p) 0 in
          let c' := advance j c in
          if bool_decide (mStack p = []) then
            let '(r, w) :=
              match findCallback (str "#") with
              | Some cb => if bool_decide (pend c = []) then cb (take j (text c)) (drop j (text c)) w else (SUCCESS, w)
              | None => (SUCCESS, w)
              end in
            if negb (bool_decide (r = SUCCESS)) then Malformed p c' w else Complete p (catch_up c') w
          else Next p c' w
    end.

Definition round (p : Place) (c : Cursor) (w : W) : Round :=
  let ch := cchar (text c) in
  if ch =? 0 then Wait
  else if (ch =? chr "[") || (ch =? chr "{") then open_element ch p c w
  else if (ch =? chr "]") || (ch =? chr "}") then close_element ch p c w
  else if ch =? chr "," then comma p c w
  else if ch =? cDquote then string_element p c w
  else if ((chr "0" <=? ch) && (ch <=? chr "9")) || (ch =? chr ".") || (ch =? chr "-") then number_element p c w
  else if ch =? 32 then Next p (advance 1 c) w
  else Malformed p c w.

Fixpoint loop (fuel : nat) (p : Place) (c : Cursor) (w : W) : option (Stop * Place * Cursor * W) :=
  match fuel with
  | O => None
  | S fuel =>
      match round p c w with
      | Next p c w => loop fuel p c w
      | Wait => Some (Waiting, p, c, w)
      | Complete p c w => Some (Finished, p, c, w)
      | Malformed p c w => Some (Failed, p, c, w)
      | Pause w => Some (Paused_, p, c, w)
      end
  end.

(** [parseError] *)
Definition parseError (c : Cursor) (w : W) : W :=
  let w := match findCallback (str "E") with Some cb => (cb [] (text c) w).2 | None => w end in
  notify (str ">") w.

(** The filter for the start of the document. *)
Definition start_call (starting : bool) (w : W) : CallbackResult * W :=
  match findCallback [] with
  | Some cb => if starting then cb [] [] w else (SUCCESS, w)
  | None => (SUCCESS, w)
  end.

(** [processChunk]: the number of bytes consumed. *)
Definition processChunk (chunk : bytes) (s : Splitter) (w : W) : nat * Splitter * W :=
  if mFailed s || mFinished s then (0%nat, s, w)
  else
    let w := notify (str "<") w in
    let c := MkCursor [] (take (mProcessedBytes s) chunk) (drop (mProcessedBytes s) chunk) in
    let '(r, w) := start_call (mStarting s) w in
    if negb (bool_decide (r = SUCCESS))
    then (0%nat, MkSplitter (place s) 0 (mStarting s) (mFinished s) true false, parseError c w)
    else
      match loop (S (length chunk)) (place s) c w with
      | None => (0%nat, s, w)
      | Some (stop, p, c, w) =>
          match stop with
          | Failed => (0%nat, MkSplitter p 0 false false true false, parseError c w)
          | _ =>
              let done := bool_decide (stop = Finished) in
              (length (passed c),
               MkSplitter p (length (pend c)) false done false (bool_decide (stop = Paused_)),
               notify (str ">") w)
          end
      end.

(** The chunks of a stream: what was not consumed is passed again in front of the
    next one.  The result is what is left over. *)
Fixpoint feed (chunks : list bytes) (left : bytes) (s : Splitter) (w : W) : bytes * Splitter * W :=
  match chunks with
  | [] => (left, s, w)
  | chunk :: chunks =>
      let '(n, s, w) := processChunk (left ++ chunk) s w in feed chunks (drop n (left ++ chunk)) s w
  end.

End splitter.

End JSONSplitter.

(** ** Lemmas *)

Module SplitterFacts.
Import JSONSplitter.

Lemma strEnd_from_bound even l n : strEnd_from even l = Some n -> (1 <= n <= length l)%nat.
Proof.
  revert even n. induction l as [|c l IH]; intros even n E; cbn in E; [done|]. cbn [length].
  destruct (c =? 0); [done|]. destruct (_ && _); [injection E as <-; lia|].
  destruct (strEnd_from _ l) as [m|] eqn:Em; [|done]. cbn in E. injection E as <-. apply IH in Em. lia.
Qed.

Lemma strEnd_from_app even l x n : strEnd_from even l = Some n -> strEnd_from even (l ++ x) = Some n.
Proof.
  revert even n. induction l as [|c l IH]; intros even n E; cbn in E |- *; [done|].
  destruct (c =? 0); [done|]. destruct (_ && _); [done|].
  destruct (strEnd_from _ l) as [m|] eqn:Em; [|done]. by rewrite (IH _ _ Em).
Qed.

Lemma strEnd_bound l n : strEnd l = Some n -> (2 <= n <= length l)%nat.
Proof.
  unfold strEnd. destruct (strEnd_from true (drop 1 l)) as [m|] eqn:Em; [|done]. intros E. injection E as <-.
  apply strEnd_from_bound in Em. rewrite length_drop in Em. lia.
Qed.

Lemma strEnd_app l x n : strEnd l = Some n -> strEnd (l ++ x) = Some n.
Proof.
  unfold strEnd. destruct (strEnd_from true (drop 1 l)) as [m|] eqn:Em; [|done]. intros <-.
  pose proof (strEnd_from_bound _ _ _ Em) as Hb. rewrite length_drop in Hb.
  rewrite drop_app_le by lia. by rewrite (strEnd_from_app _ _ _ _ Em).
Qed.

Lemma num_len_bound l : (num_len l <= length l)%nat.
Proof. induction l as [|c l IH]; cbn [num_len length]; [lia|]. destruct (JSON.is_any c _); lia. Qed.

Lemma num_len_app l x : (num_len l < length l)%nat -> num_len (l ++ x) = num_len l.
Proof.
  induction l as [|c l IH]; cbn [num_len length app]; [lia|]. destruct (JSON.is_any c _); [|done].
  intros Hl. rewrite IH by lia. done.
Qed.

Lemma numEnd_bound l n : numEnd l = Some n -> (1 <= n <= length l)%nat.
Proof.
  unfold numEnd. pose proof (num_len_bound l) as Hb. destruct (Nat.eqb_spec (num_len l) 0); [done|].
  intros E. injection E as <-. lia.
Qed.

Lemma cchar_app l x : cchar l <> 0 -> cchar (l ++ x) = cchar l.
Proof. by destruct l. Qed.

Lemma cchar_drop_app n l x : cchar (drop n l) <> 0 -> cchar (drop n (l ++ x)) = cchar (drop n l) /\ (n < length l)%nat.
Proof.
  intros Hc. assert (n < length l)%nat as Hn.
  { destruct (Nat.lt_ge_cases n (length l)) as [|Hge]; [done|]. by rewrite drop_ge in Hc. }
  split; [|done]. rewrite drop_app_le by lia. by apply cchar_app.
Qed.

Lemma numEnd_app l x n : numEnd l = Some n -> cchar (drop n l) <> 0 -> numEnd (l ++ x) = Some n.
Proof.
  unfold numEnd. destruct (Nat.eqb_spec (num_len l) 0) as [|Hz]; [done|]. intros E Hc. injection E as <-.
  destruct (cchar_drop_app _ _ x Hc) as [_ Hl]. rewrite num_len_app by done. by destruct (Nat.eqb_spec (num_len l) 0).
Qed.

(** The same place in a longer text, with more text passed before. *)
Definition extend (pre x : bytes) (c : Cursor) : Cursor := MkCursor (pre ++ passed c) (pend c) (text c ++ x).

Lemma advance_extend pre x n c : (n <= length (text c))%nat -> advance n (extend pre x c) = extend pre x (advance n c).
Proof. intros Hn. unfold advance, extend. cbn. by rewrite take_app_le, drop_app_le by lia. Qed.

Lemma catch_up_extend pre x c : catch_up (extend pre x c) = extend pre x (catch_up c).
Proof. unfold catch_up, extend. cbn. by rewrite app_assoc. Qed.

Lemma data_advance n c : data (advance n c) = data c.
Proof. unfold data, advance. cbn. by rewrite <- (app_assoc (pend c)), take_drop. Qed.

Lemma data_catch_up c : data (catch_up c) = data c.
Proof. unfold data, catch_up. cbn. by rewrite app_assoc. Qed.

Lemma text_nonempty c : cchar (text c) =? 0 = false -> (1 <= length (text c))%nat.
Proof. destruct (text c); cbn; [done|lia]. Qed.

Section facts.
Context {W : Type} (filters : FiltersChain W).

(** *** Every round makes progress *)

Definition progress (c c' : Cursor) : Prop := data c' = data c /\ (length (text c') < length (text c))%nat.

Lemma progress_advance n c : (1 <= n <= length (text c))%nat -> progress c (advance n c).
Proof. intros Hn. split; [apply data_advance|]. unfold advance. cbn. rewrite length_drop. lia. Qed.

Lemma progress_catch_up c c' : progress c c' -> progress c (catch_up c').
Proof. intros [H1 H2]. split; [by rewrite data_catch_up|done]. Qed.

Lemma progress_catch_up_l c c' : progress (catch_up c) c' -> progress c c'.
Proof. intros [H1 H2]. split; [by rewrite H1, data_catch_up|done]. Qed.

Lemma round_progress p c (w : W) :
  match round filters p c w with
  | Next _ c' _ | Complete _ c' _ => progress c c'
  | _ => True
  end.
Proof.
  unfold round. destruct (cchar (text c) =? 0) eqn:E0; [done|]. pose proof (text_nonempty c E0) as Hne.
  assert (progress c (advance 1 c)) as H1 by (apply progress_advance; lia).
  destruct (_ || _); [|destruct (_ || _)]; [| |destruct (_ =? chr ",")].
  - unfold open_element. destruct (mExpectValue p =? 0); [done|]. case_bool_decide; [|done].
    apply progress_catch_up_l, progress_advance. cbn. lia.
  - unfold close_element. destruct (mExpectValue p <? 0); [done|]. destruct (mStack p) as [|entry stack]; [done|].
    destruct (negb (opens entry _)); [done|].
    destruct (findCallback filters _) as [cb|]; [destruct (cb _ _ _) as [r w']|].
    all: case_bool_decide; cbn [negb]; [|done].
    all: case_bool_decide; try apply progress_catch_up; try done. by apply progress_catch_up.
  - unfold comma. destruct (negb (mExpectValue p =? 0)); [done|]. destruct (mStack p); [done|].
    case_bool_decide; [by apply progress_catch_up|done].
  - destruct (_ =? cDquote); [|destruct (_ || _)]; [| |by destruct (_ =? 32)].
    + unfold string_element. destruct (strEnd (text c)) as [t|] eqn:Et; [|done]. apply strEnd_bound in Et.
      destruct (negb (mExpectValue p =? 0)).
      * destruct (findCallback filters _) as [cb|]; [destruct (cb _ _ _) as [ [| |] w'] |]; try done.
        -- apply progress_catch_up, progress_advance. lia.
        -- apply progress_advance. lia.
      * destruct (cchar (drop t (text c)) =? 0) eqn:Ez; [done|]. destruct (negb _); [done|]. apply progress_advance.
        destruct (cchar_drop_app t (text c) [] (proj1 (Z.eqb_neq _ _) Ez)). lia.
    + unfold number_element. destruct (mExpectValue p =? 0); [done|]. destruct (numEnd (text c)) as [j|] eqn:Ej; [|done].
      apply numEnd_bound in Ej. destruct (cchar (drop j (text c)) =? 0); [done|].
      assert (progress c (advance j c)) by (apply progress_advance; lia).
      case_bool_decide; [|done]. destruct (findCallback filters _) as [cb|]; [case_bool_decide; [destruct (cb _ _ _) as [r w']|]|].
      all: case_bool_decide; cbn [negb]; try done. all: by apply progress_catch_up.
Qed.

Lemma splitter_loop_total fuel : forall p c (w : W), (length (text c) < fuel)%nat -> is_Some (loop filters fuel p c w).
Proof.
  induction fuel as [|fuel IH]; intros p c w Hf; [lia|]. cbn [loop].
  pose proof (round_progress p c w) as Hr. destruct (round filters p c w); try (by eexists).
  apply IH. destruct Hr. lia.
Qed.

Lemma loop_mono fuel fuel' p c (w : W) r :
  loop filters fuel p c w = Some r -> (fuel <= fuel')%nat -> loop filters fuel' p c w = Some r.
Proof.
  revert fuel' p c w. induction fuel as [|fuel IH]; intros fuel' p c w E Hf; [done|].
  destruct fuel' as [|fuel']; [lia|]. cbn [loop] in *. destruct (round filters p c w); try done. apply IH; [done|lia].
Qed.

(** *** What filters keep *)

(** A property of the world that every filter keeps, the marker at the end of a
    chunk apart. *)
Section kept.
Context (P : W -> Prop).
Context (HP : forall path cb, findCallback filters path = Some cb -> path <> str ">" ->
  forall e r w, P w -> P (cb e r w).2).

(** No path begins like the marker at the end of a chunk. *)
Definition place_ok (p : Place) : Prop := cchar (mCurrentPath p) <> chr ">".

Lemma call_keeps path cb e r w : findCallback filters path = Some cb -> cchar path <> chr ">" -> P w -> P (cb e r w).2.
Proof using HP. intros E Hp Hw. apply (HP _ _ E); [|done]. intros ->. by apply Hp. Qed.

Lemma cchar_path l x : cchar l <> chr ">" -> cchar x <> chr ">" -> cchar (l ++ x) <> chr ">".
Proof using Type. by destruct l. Qed.

Lemma cchar_take n l : cchar l <> chr ">" -> cchar (take n l) <> chr ">".
Proof using Type. by destruct n, l. Qed.

(** What a round keeps of the place and of the world. *)
Definition keeps (r : Round) : Prop :=
  match r with
  | Next p _ w | Complete p _ w => place_ok p /\ P w
  | Pause w => P w
  | _ => True
  end.

Lemma close_keeps ch p c w : place_ok p -> P w -> keeps (close_element filters ch p c w).
Proof using HP.
  unfold place_ok. intros Hp Hw.
  unfold close_element. destruct (mExpectValue p <? 0); [done|]. destruct (mStack p) as [|entry stack]; [done|].
  destruct (negb (opens entry _)); [done|].
  destruct (findCallback filters _) as [cb|] eqn:Ecb.
  - pose proof (call_keeps _ _ (pend (advance 1 c)) (text (advance 1 c)) w Ecb ltac:(by destruct (is_error_object _ _ _)) Hw) as Hb.
    destruct (cb _ _ _) as [r w']. destruct (negb _); [done|].
    destruct (bool_decide (stack = [])); (split; [by apply cchar_take|exact Hb]).
  - destruct (negb _); [done|]. destruct (bool_decide (stack = [])); (split; [by apply cchar_take|done]).
Qed.

Lemma string_keeps p c w : place_ok p -> P w -> keeps (string_element filters p c w).
Proof using HP.
  unfold place_ok. intros Hp Hw. unfold string_element. destruct (strEnd (text c)) as [t|]; [|done].
  destruct (negb (mExpectValue p =? 0)).
  - destruct (findCallback filters _) as [cb|] eqn:Ecb; [|done].
    pose proof (call_keeps _ _ (take t (text c)) (drop t (text c)) w Ecb ltac:(by apply cchar_path) Hw) as Hb.
    by destruct (cb _ _ _) as [ [| |] w'].
  - destruct (cchar (drop t (text c)) =? 0); [done|]. by destruct (negb _).
Qed.

Lemma number_keeps p c w : place_ok p -> P w -> keeps (number_element filters p c w).
Proof using HP.
  unfold place_ok. intros Hp Hw.
  unfold number_element. destruct (mExpectValue p =? 0); [done|]. destruct (numEnd (text c)) as [j|]; [|done].
  destruct (cchar (drop j (text c)) =? 0); [done|]. case_bool_decide; [|done].
  destruct (findCallback filters _) as [cb|] eqn:Ecb; [case_bool_decide|].
  - pose proof (call_keeps _ _ (take j (text c)) (drop j (text c)) w Ecb ltac:(done) Hw) as Hb.
    destruct (cb _ _ _) as [r w']. destruct (negb _); [done|]. by split.
  - by destruct (negb _).
  - by destruct (negb _).
Qed.

Lemma round_keeps p c w : place_ok p -> P w -> keeps (round filters p c w).
Proof using HP.
  intros Hp Hw. unfold round.
  repeat match goal with |- context [if ?b then _ else _] => destruct b eqn:?; [first [done | idtac]|] end;
    auto using close_keeps, string_keeps, number_keeps.
  - unfold open_element. destruct (mExpectValue p =? 0); [done|]. split; [|done]. apply cchar_path; [done|].
    apply orb_true_iff in Heqb0 as [E%Z.eqb_eq | E%Z.eqb_eq]; by rewrite E.
  - unfold comma. destruct (negb (mExpectValue p =? 0)); [done|]. by destruct (mStack p).
  - by destruct (mStack p).
Qed.

Lemma loop_keeps fuel p c w stop p' c' w' : place_ok p -> P w ->
  loop filters fuel p c w = Some (stop, p', c', w') -> stop <> Failed -> place_ok p' /\ P w'.
Proof using HP.
  revert p c w. induction fuel as [|fuel IH]; intros p c w Hp Hw E Hs; [done|]. cbn [loop] in E.
  pose proof (round_keeps p c w Hp Hw) as Hr. destruct (round filters p c w) as [p1 c1 w1| |p1 c1 w1|p1 c1 w1|w1].
  - destruct Hr. by eapply IH.
  - by injection E as <- <- <- <-.
  - by injection E as <- <- <- <-.
  - injection E as <- <- <- <-. by destruct Hs.
  - by injection E as <- <- <- <-.
Qed.

Lemma notify_keeps path w : path <> str ">" -> P w -> P (notify filters path w).
Proof using HP. unfold notify. destruct (findCallback filters path) as [cb|] eqn:E; [|done]. intros Hp. by apply (HP _ _ E). Qed.

Lemma start_keeps st w : P w -> P (start_call filters st w).2.
Proof using HP.
  unfold start_call. intros Hw. destruct (findCallback filters []) as [cb|] eqn:E; [destruct st|]; [|done|done].
  by apply (HP _ _ E).
Qed.

(** Nothing fails while every filter succeeds and the marker keeps the property. *)
Lemma processChunk_keeps chunk s w n s' w' :
  place_ok (place s) -> P w -> (forall w, P w -> P (notify filters (str ">") w)) ->
  processChunk filters chunk s w = (n, s', w') -> mFailed s' = false -> place_ok (place s') /\ P w'.
Proof using HP.
  intros Hp Hw He. unfold processChunk. destruct (mFailed s || mFinished s); [by intros [= <- <- <-]|].
  pose proof (start_keeps (mStarting s) _ (notify_keeps (str "<") w ltac:(done) Hw)) as Hs.
  destruct (start_call filters _ _) as [r w1]. destruct (negb _); [by intros [= <- <- <-]|].
  destruct (loop filters _ _ _ w1) as [[[[stop p'] c'] w2]|] eqn:E; [|by intros [= <- <- <-]].
  destruct stop; [| |by intros [= <- <- <-]|]; intros [= <- <- <-] _; destruct (loop_keeps _ _ _ _ _ _ _ _ Hp Hs E ltac:(done)); split; auto.
Qed.

End kept.

(** *** Chunks *)

(** Filters look at their element only and never pause; the markers bracket a
    chunk: within it [busy] holds, and a new chunk resumes where the last one was
    left. *)
Record well_behaved (busy : W -> Prop) : Prop := {
  wb_local path cb : findCallback filters path = Some cb -> forall e r r' w, cb e r w = cb e r' w;
  wb_pause path cb : findCallback filters path = Some cb -> forall e r w, (cb e r w).1 <> PAUSED;
  wb_busy path cb : findCallback filters path = Some cb -> path <> str ">" ->
    forall e r w, busy w -> busy (cb e r w).2;
  wb_begin w : busy (notify filters (str "<") w);
  wb_resume w : busy w -> notify filters (str "<") (notify filters (str ">") w) = w
}.

Context (busy : W -> Prop) (Hwb : well_behaved busy).

Section extension.
Context (pre x : bytes).

(** The text does not look like an error object anywhere but at its start. *)
Definition no_error_at (c : Cursor) : Prop := pre <> [] -> take 7 (data c ++ x) <> err_object.

Definition extends (r : Round) (r' : @Round W) : Prop :=
  match r with
  | Next p c w => r' = Next p (extend pre x c) w
  | Complete p c w => r' = Complete p (extend pre x c) w
  | Malformed p c w => r' = Malformed p (extend pre x c) w
  | Wait => True
  | Pause _ => False
  end.

Lemma open_extends ch p c w : (1 <= length (text c))%nat ->
  extends (open_element filters ch p c w) (open_element filters ch p (extend pre x c) w).
Proof using Type.
  intros Hl. unfold open_element. destruct (mExpectValue p =? 0); [done|]. case_bool_decide; cbn [extends].
  - rewrite catch_up_extend, advance_extend; [done|by cbn].
  - by rewrite advance_extend.
Qed.

Lemma is_error_extends ch p c : cchar (text c) = ch -> ch <> 0 -> no_error_at c ->
  is_error_object ch p (extend pre x c) = is_error_object ch p c.
Proof using Type.
  intros Hch Hnz Hno. unfold is_error_object. destruct (length (mStack p) =? 1)%nat; [|done].
  destruct (Z.eqb_spec ch (chr "}")) as [E|]; [|done]. cbn [andb].
  destruct c as [d pe t]. cbn [passed text extend] in *. unfold no_error_at, data in *. cbn [passed pend text extend] in *.
  destruct (decide (pre = [])) as [->|Hp]; cbn [app].
  - case_bool_decide as Hd; [|done]. subst d. cbn [app andb].
    assert (forall r, take 7 (pe ++ t ++ r) = take 7 (pe ++ t) \/ take 7 (pe ++ t ++ r) <> err_object) as Htk.
    { intros r. destruct t as [|y t]; [done|]. cbn in Hch. subst y.
      destruct (Nat.le_gt_cases 7 (length pe + 1)) as [Hle|Hlt].
      - left. rewrite app_assoc, take_app_le; [done|]. rewrite length_app. cbn. lia.
      - right. intros Ee. assert ((pe ++ (ch :: t) ++ r) !! length pe = Some ch) as Hlk by (rewrite lookup_app_r, Nat.sub_diag by lia; done).
        rewrite <- (lookup_take_lt _ 7) in Hlk by lia. rewrite Ee in Hlk. subst ch. revert Hlk. clear.
        destruct (length pe) as [|[|[|[|[|[|[|n] ] ] ] ] ] ]; cbn; intros; simplify_eq. }
    destruct (Htk x) as [->|Hne]; [done|]. rewrite (bool_decide_eq_false_2 _ Hne).
    symmetry. apply bool_decide_eq_false_2. intros Ee. apply Hne.
    assert (length (take 7 (pe ++ t)) = 7%nat) as Hl7 by (by rewrite Ee).
    rewrite app_assoc, take_app_le; [done|]. rewrite length_take in Hl7. lia.
  - rewrite (bool_decide_eq_false_2 (pre ++ d = [])) by (destruct pre; done). cbn [andb].
    symmetry. case_bool_decide as Hd; [|done]. subst d. cbn [app andb]. apply bool_decide_eq_false_2.
    intros Ee. apply (Hno Hp). cbn [app]. rewrite <- Ee. assert (length (take 7 (pe ++ t)) = 7%nat) as Hl7 by (by rewrite Ee).
    rewrite take_app_le; [done|]. rewrite length_take in Hl7. lia.
Qed.

Lemma close_extends ch p c w : cchar (text c) = ch -> ch <> 0 -> no_error_at c ->
  extends (close_element filters ch p c w) (close_element filters ch p (extend pre x c) w).
Proof using Hwb.
  intros Hch Hnz Hno. unfold close_element. rewrite is_error_extends by done.
  assert (1 <= length (text c))%nat as Hl by (destruct (text c); cbn in *; [done|lia]).
  destruct (mExpectValue p <? 0); [done|]. destruct (mStack p) as [|entry stack]; [done|].
  destruct (negb (opens entry ch)); [done|]. rewrite advance_extend by done. cbn [mStack mCurrentPath mExpectValue].
  destruct (findCallback filters _) as [cb|] eqn:Ecb.
  - change (pend (extend pre x (advance 1 c))) with (pend (advance 1 c)).
    rewrite (wb_local _ Hwb _ _ Ecb _ (text (extend pre x (advance 1 c))) (text (advance 1 c))).
    destruct (cb _ _ _) as [r w']. case_bool_decide; cbn [negb]; [|done].
    rewrite !catch_up_extend. by case_bool_decide.
  - cbn [negb]. rewrite bool_decide_eq_true_2 by done. cbn [negb]. case_bool_decide; [|done]. cbn [extends]. by rewrite catch_up_extend.
Qed.

Lemma comma_extends p c w : (1 <= length (text c))%nat -> extends (comma p c w) (comma p (extend pre x c) w).
Proof using Type.
  intros Hl. unfold comma. destruct (negb (mExpectValue p =? 0)); [done|]. rewrite advance_extend by done.
  change (pend (extend pre x c)) with (pend c). case_bool_decide; rewrite ?catch_up_extend; by destruct (mStack p).
Qed.

Lemma string_extends p c w :
  extends (string_element filters p c w) (string_element filters p (extend pre x c) w).
Proof using Hwb.
  unfold string_element. destruct (strEnd (text c)) as [t|] eqn:Et; [|done].
  pose proof (strEnd_bound _ _ Et) as Hb. cbn [text extend]. rewrite (strEnd_app _ x _ Et).
  rewrite take_app_le, (drop_app_le (text c)) by lia.
  destruct (negb (mExpectValue p =? 0)).
  - destruct (findCallback filters _) as [cb|] eqn:Ecb.
    + rewrite (wb_local _ Hwb _ _ Ecb _ (drop t (text c) ++ x) (drop t (text c))).
      pose proof (wb_pause _ Hwb _ _ Ecb (take t (text c)) (drop t (text c)) w) as Hp.
      destruct (cb _ _ _) as [ [| |] w']; [|done|by destruct Hp].
      cbn [extends]. by rewrite <- catch_up_extend, <- advance_extend by lia.
    + cbn [extends]. by rewrite <- advance_extend by lia.
  - destruct (Z.eqb_spec (cchar (drop t (text c))) 0) as [|Hz]; [done|].
    destruct (cchar_drop_app t (text c) x Hz) as [Hc Hlt]. rewrite drop_app_le in Hc by lia. rewrite Hc.
    rewrite (proj2 (Z.eqb_neq _ _) Hz). destruct (negb _); [done|]. cbn [extends].
    rewrite <- advance_extend by lia. rewrite (drop_app_le _ _ 1) by lia.
    rewrite (take_app_le (drop 1 (text c))); [done|]. rewrite length_drop. lia.
Qed.

Lemma number_extends p c w :
  extends (number_element filters p c w) (number_element filters p (extend pre x c) w).
Proof using Hwb.
  unfold number_element. destruct (mExpectValue p =? 0); [done|].
  destruct (numEnd (text c)) as [j|] eqn:Ej; [|done]. pose proof (numEnd_bound _ _ Ej) as Hb.
  destruct (Z.eqb_spec (cchar (drop j (text c))) 0) as [|Hz]; [done|].
  destruct (cchar_drop_app j (text c) x Hz) as [Hc Hlt]. cbn [text extend].
  rewrite (numEnd_app _ x _ Ej Hz), Hc, (proj2 (Z.eqb_neq _ _) Hz).
  change (pend (extend pre x c)) with (pend c). rewrite advance_extend by lia.
  case_bool_decide; [|done]. rewrite take_app_le, drop_app_le by lia.
  destruct (findCallback filters _) as [cb|] eqn:Ecb; [case_bool_decide|].
  - rewrite (wb_local _ Hwb _ _ Ecb _ (drop j (text c) ++ x) (drop j (text c))).
    destruct (cb _ _ _) as [r w']. case_bool_decide; cbn [extends negb]; [by rewrite catch_up_extend|done].
  - cbn [extends]. by rewrite catch_up_extend.
  - cbn [extends]. by rewrite catch_up_extend.
Qed.

Lemma round_extends p c w : no_error_at c -> extends (round filters p c w) (round filters p (extend pre x c) w).
Proof using Hwb.
  intros Hno. unfold round. destruct (cchar (text c) =? 0) eqn:E0; [done|].
  pose proof (text_nonempty c E0) as Hl. apply Z.eqb_neq in E0. cbn [text extend].
  rewrite (cchar_app _ x E0), (proj2 (Z.eqb_neq _ _) E0).
  destruct (_ || _); [by apply open_extends|]. destruct (_ || _); [by apply close_extends|].
  destruct (_ =? chr ","); [by apply comma_extends|]. destruct (_ =? cDquote); [apply string_extends|].
  destruct (_ || _); [apply number_extends|]. destruct (_ =? 32); [|done]. cbn [extends]. by rewrite advance_extend.
Qed.

End extension.

Lemma loop_extends pre x fuel : forall p c w stop p' c' w',
  no_error_at pre x c -> loop filters fuel p c w = Some (stop, p', c', w') ->
  match stop with
  | Waiting => data c' = data c /\ forall f r, loop filters f p' (extend pre x c') w' = Some r ->
      exists f', loop filters f' p (extend pre x c) w = Some r
  | Paused_ => False
  | _ => exists f', loop filters f' p (extend pre x c) w = Some (stop, p', extend pre x c', w')
  end.
Proof using Hwb.
  induction fuel as [|fuel IH]; intros p c w stop p' c' w' Hno E; [done|]. cbn [loop] in E.
  pose proof (round_extends pre x p c w Hno) as Hx. pose proof (round_progress p c w) as Hp.
  destruct (round filters p c w) as [p1 c1 w1| |p1 c1 w1|p1 c1 w1|w1]; cbn [extends] in Hx.
  - destruct Hp as [Hd _].
    assert (no_error_at pre x c1) as Hno1 by (intros Hp; rewrite Hd; by apply Hno).
    specialize (IH _ _ _ _ _ _ _ Hno1 E). destruct stop; try done.
    + destruct IH as [Hd1 Hc]. split; [congruence|]. intros f r Hr. destruct (Hc f r Hr) as [f' E'].
      exists (S f'). cbn [loop]. by rewrite Hx.
    + destruct IH as [f' E']. exists (S f'). cbn [loop]. by rewrite Hx.
    + destruct IH as [f' E']. exists (S f'). cbn [loop]. by rewrite Hx.
  - injection E as <- <- <- <-. split; [done|]. intros f r Hr. by exists f.
  - injection E as <- <- <- <-. exists 1%nat. cbn [loop]. by rewrite Hx.
  - injection E as <- <- <- <-. exists 1%nat. cbn [loop]. by rewrite Hx.
  - done.
Qed.

Lemma parseError_local c c' (w : W) : parseError filters c w = parseError filters c' w.
Proof using Hwb.
  unfold parseError. destruct (findCallback filters (str "E")) as [cb|] eqn:E; [|done].
  by rewrite (wb_local _ Hwb _ _ E [] (text c) (text c')).
Qed.

(** What feeding leaves, in terms of the loop over the whole stream. *)
Definition fed (r : bytes * Splitter * W) (stop : Stop) (p : Place) (c : Cursor) (w : W) : Prop :=
  let '(rest, s, w') := r in
  match stop with
  | Failed => s = MkSplitter p 0 false false true false /\ w' = parseError filters c w
  | Paused_ => False
  | _ => s = MkSplitter p (length (pend c)) false (bool_decide (stop = Finished)) false false
         /\ w' = notify filters (str ">") w /\ rest = pend c ++ text c
  end.

Lemma feed_stopped chunks left s (w : W) : mFailed s || mFinished s = true ->
  feed filters chunks left s w = (left ++ mjoin chunks, s, w).
Proof using Type.
  intros Hs. revert left. induction chunks as [|chunk chunks IH]; intros left; cbn [feed mjoin list_join]; [by rewrite app_nil_r|].
  unfold processChunk. rewrite Hs, drop_0, IH. by rewrite <- app_assoc.
Qed.

(** One chunk, once the filter for the start has been called. *)
Lemma processChunk_loop pe t p st (w w1 : W) :
  start_call filters st (notify filters (str "<") w) = (SUCCESS, w1) ->
  exists stop p' c' w', loop filters (S (length (pe ++ t))) p (MkCursor [] pe t) w1 = Some (stop, p', c', w')
    /\ processChunk filters (pe ++ t) (MkSplitter p (length pe) st false false false) w =
       match stop with
       | Failed => (0%nat, MkSplitter p' 0 false false true false, parseError filters c' w')
       | _ => (length (passed c'), MkSplitter p' (length (pend c')) false (bool_decide (stop = Finished)) false
                 (bool_decide (stop = Paused_)), notify filters (str ">") w')
       end.
Proof using Type.
  intros Hst. destruct (splitter_loop_total (S (length (pe ++ t))) p (MkCursor [] pe t) w1) as [[[[stop p'] c'] w'] E].
  { cbn. rewrite length_app. lia. }
  exists stop, p', c', w'. split; [done|]. unfold processChunk. cbn [mFailed mFinished orb].
  cbn [mStarting]. rewrite Hst. rewrite bool_decide_eq_true_2 by done. cbn [negb mProcessedBytes place].
  by rewrite take_app_length, drop_app_length, E.
Qed.

(** No error object starts later in the stream. *)
Definition no_late_error (stream : bytes) : Prop := forall k, (0 < k)%nat -> take 7 (drop k stream) <> err_object.

Lemma no_late_at pre x c : no_late_error (pre ++ data c ++ x) -> no_error_at pre x c.
Proof using Type.
  intros Hl Hp. specialize (Hl (length pre)). rewrite drop_app_length in Hl. apply Hl. destruct pre; cbn; [done|lia].
Qed.

Lemma round_wait pre p c w : round filters p c w = Wait -> round filters p (extend pre [] c) w = Wait.
Proof using Type.
  unfold round. cbn [text extend]. rewrite app_nil_r. destruct (cchar (text c) =? 0); [done|].
  destruct (_ || _); [|destruct (_ || _)]; [| |destruct (_ =? chr ",")].
  - unfold open_element. by destruct (mExpectValue p =? 0).
  - intros E. exfalso. revert E. unfold close_element. destruct (mExpectValue p <? 0); [done|].
    destruct (mStack p) as [|entry stack]; [done|]. destruct (negb (opens entry _)); [done|].
    destruct (findCallback filters _) as [cb|]; [destruct (cb _ _ _) as [r w']|].
    all: destruct (negb _); [done|]; by case_bool_decide.
  - unfold comma. destruct (negb (mExpectValue p =? 0)); [done|]. by destruct (mStack p).
  - destruct (_ =? cDquote).
    + unfold string_element. cbn [text extend]. rewrite app_nil_r. destruct (strEnd (text c)) as [t|]; [|done].
      destruct (negb (mExpectValue p =? 0)).
      * destruct (findCallback filters _) as [cb|]; [|done]. by destruct (cb _ _ _) as [ [| |] w'].
      * destruct (cchar (drop t (text c)) =? 0); [done|]. by destruct (negb _).
    + destruct (_ || _).
      * unfold number_element. cbn [text extend]. rewrite app_nil_r. destruct (mExpectValue p =? 0); [done|].
        destruct (numEnd (text c)) as [j|]; [|done]. destruct (cchar (drop j (text c)) =? 0); [done|].
        case_bool_decide; [|done]. destruct (findCallback filters _) as [cb|]; [|done].
        change (pend (extend pre [] c)) with (pend c). case_bool_decide; [|done]. destruct (cb _ _ _) as [r w'].
        by destruct (negb _).
      * by destruct (_ =? 32).
Qed.

Lemma loop_stop fuel p c w stop p' c' w' :
  loop filters fuel p c w = Some (stop, p', c', w') ->
  (stop = Waiting -> round filters p' c' w' = Wait) /\ (stop <> Failed -> data c' = data c).
Proof using Type.
  revert p c w. induction fuel as [|fuel IH]; intros p c w E; [done|]. cbn [loop] in E.
  pose proof (round_progress p c w) as Hp. destruct (round filters p c w) as [p1 c1 w1| |p1 c1 w1|p1 c1 w1|w1] eqn:Er.
  - destruct (IH _ _ _ E) as [H1 H2]. split; [done|]. intros Hs. rewrite H2 by done. apply Hp.
  - injection E as <- <- <- <-. by split.
  - injection E as <- <- <- <-. split; [done|]. intros _. apply Hp.
  - injection E as <- <- <- <-. by split.
  - injection E as <- <- <- <-. by split.
Qed.

Lemma drop_passed c d : data c = d -> drop (length (passed c)) d = pend c ++ text c.
Proof using Type. intros <-. unfold data. by rewrite drop_app_length. Qed.

Lemma feed_cons chunk chunks rest s (w : W) :
  feed filters (chunk :: chunks) rest s w =
    let '(n, s, w) := processChunk filters (rest ++ chunk) s w in feed filters chunks (drop n (rest ++ chunk)) s w.
Proof using Type. done. Qed.

Lemma feed_loop chunks : forall chunk st p pre pe te w w1,
  place_ok p -> start_call filters st (notify filters (str "<") w) = (SUCCESS, w1) ->
  no_late_error (pre ++ pe ++ te ++ chunk ++ mjoin chunks) ->
  exists f stop p' c' w', loop filters f p (MkCursor pre pe (te ++ chunk ++ mjoin chunks)) w1 = Some (stop, p', c', w')
    /\ fed (feed filters (chunk :: chunks) (pe ++ te) (MkSplitter p (length pe) st false false false) w) stop p' c' w'.
Proof using Hwb.
  induction chunks as [|chunk2 chunks IH]; intros chunk st p pre pe te w w1 Hpl Hst Hlate.
  all: pose proof (start_keeps busy (wb_busy _ Hwb) st _ (wb_begin _ Hwb w)) as Hbusy; rewrite Hst in Hbusy.
  all: destruct (processChunk_loop pe (te ++ chunk) p st w w1 Hst) as (stop & p1 & c1 & w2 & E & Ec).
  all: rewrite feed_cons, <- app_assoc, Ec; clear Ec.
  all: destruct (loop_stop _ _ _ _ _ _ _ _ E) as [Hwait Hdata]; unfold data at 2 in Hdata; cbn [passed pend text app] in Hdata.
  - assert (no_error_at pre [] (MkCursor [] pe (te ++ chunk))) as Hno.
    { apply no_late_at. unfold data. cbn [passed pend text app mjoin list_join] in *. by rewrite app_nil_r in Hlate |- *. }
    pose proof (loop_extends pre [] _ _ _ _ _ _ _ _ Hno E) as Hx.
    replace (MkCursor pre pe (te ++ chunk ++ mjoin [])) with (extend pre [] (MkCursor [] pe (te ++ chunk)))
      by (unfold extend; cbn; by rewrite !app_nil_r).
    destruct stop; [| | |done].
    + destruct Hx as [_ Hx]. destruct (Hx 1%nat (Waiting, p1, extend pre [] c1, w2)) as [f' E'].
      { cbn [loop]. by rewrite round_wait by auto. }
      exists f', Waiting, p1, (extend pre [] c1), w2. split; [done|]. cbn. rewrite app_nil_r.
      split_and!; [done|done|]. apply drop_passed. by apply Hdata.
    + destruct Hx as [f' E']. exists f', Finished, p1, (extend pre [] c1), w2. split; [done|]. cbn. rewrite app_nil_r.
      split_and!; [done|done|]. apply drop_passed. by apply Hdata.
    + destruct Hx as [f' E']. exists f', Failed, p1, (extend pre [] c1), w2. split; [done|]. cbn. split; [done|].
      apply parseError_local.
  - set (x := mjoin (chunk2 :: chunks)) in *.
    pose proof (loop_extends pre x _ _ _ _ _ _ _ _ (no_late_at pre x (MkCursor [] pe (te ++ chunk))
      ltac:(unfold data; cbn [passed pend text app] in *; by rewrite <- !app_assoc)) E) as Hx.
    replace (MkCursor pre pe (te ++ chunk ++ x)) with (extend pre x (MkCursor [] pe (te ++ chunk)))
      by (unfold extend; cbn; by rewrite app_nil_r, <- app_assoc).
    destruct stop; [| | |done].
    + destruct Hx as [_ Hx].
      rewrite (drop_passed c1 _ (Hdata ltac:(done))).
      specialize (Hdata ltac:(done)). unfold data in Hdata.
      destruct (loop_keeps busy (wb_busy _ Hwb) _ _ _ _ _ _ _ _ Hpl Hbusy E ltac:(done)) as [Hpl1 Hbusy1].
      destruct (IH chunk2 false p1 (pre ++ passed c1) (pend c1) (text c1) (notify filters (str ">") w2) w2)
        as (f & stop & p2 & c2 & w3 & E2 & Hfed); [done| | |].
      { rewrite (wb_resume _ Hwb _ Hbusy1). unfold start_call. by destruct (findCallback filters []). }
      { subst x. cbn [mjoin list_join] in Hlate. rewrite <- !app_assoc.
        replace (passed c1 ++ pend c1 ++ text c1 ++ chunk2 ++ mjoin chunks)
          with ((passed c1 ++ pend c1 ++ text c1) ++ chunk2 ++ mjoin chunks) by (by rewrite <- !app_assoc).
        rewrite Hdata. by rewrite <- !app_assoc. }
      destruct (Hx f (stop, p2, c2, w3) E2) as [f' E'].
      exists f', stop, p2, c2, w3. split; [exact E'|exact Hfed].
    + destruct Hx as [f' E']. exists f', Finished, p1, (extend pre x c1), w2. split; [done|].
      rewrite feed_stopped by done. cbn. split_and!; [done|done|]. rewrite (drop_passed c1 _ (Hdata ltac:(done))). by rewrite <- app_assoc.
    + destruct Hx as [f' E']. exists f', Failed, p1, (extend pre x c1), w2. split; [done|].
      rewrite feed_stopped by done. cbn. split; [done|]. apply parseError_local.
Qed.

End facts.
(** *** Worlds of different detail *)

(** Filters on two worlds that correspond step by step keep them in step. *)
Section simulation.
Context {W1 W2 : Type} (f1 : FiltersChain W1) (f2 : FiltersChain W2) (h : W1 -> W2).
Context (Hf : forall path,
  match findCallback f1 path, findCallback f2 path with
  | Some cb1, Some cb2 => forall e r w, cb2 e r (h w) = (let '(x, w') := cb1 e r w in (x, h w'))
  | None, None => True
  | _, _ => False
  end).

Definition round_sim (r : @Round W1) : @Round W2 :=
  match r with
  | Next p c w => Next p c (h w)
  | Wait => Wait
  | Complete p c w => Complete p c (h w)
  | Malformed p c w => Malformed p c (h w)
  | Pause w => Pause (h w)
  end.

Lemma notify_sim path w : notify f2 path (h w) = h (notify f1 path w).
Proof using Hf.
  unfold notify. pose proof (Hf path) as H. destruct (findCallback f1 path) as [cb1|], (findCallback f2 path) as [cb2|]; try done.
  rewrite H. by destruct (cb1 _ _ _).
Qed.

Lemma findCallback_sim path : is_Some (findCallback f2 path) <-> is_Some (findCallback f1 path).
Proof using Hf.
  pose proof (Hf path) as H. by destruct (findCallback f1 path), (findCallback f2 path).
Qed.

Lemma close_sim ch p c w : close_element f2 ch p c (h w) = round_sim (close_element f1 ch p c w).
Proof using Hf.
  unfold close_element. destruct (mExpectValue p <? 0); [done|]. destruct (mStack p) as [|entry stack]; [done|].
  destruct (negb (opens entry ch)); [done|].
  pose proof (Hf (if is_error_object ch p c then str "#" else mCurrentPath p)) as H.
  destruct (findCallback f1 _) as [cb1|], (findCallback f2 _) as [cb2|]; try done.
  - rewrite H. destruct (cb1 _ _ _) as [r w']. destruct (negb _); [done|]. by destruct (bool_decide (stack = [])).
  - destruct (negb _); [done|]. by destruct (bool_decide (stack = [])).
Qed.

Lemma string_sim p c w : string_element f2 p c (h w) = round_sim (string_element f1 p c w).
Proof using Hf.
  unfold string_element. destruct (strEnd (text c)) as [t|]; [|done]. destruct (negb (mExpectValue p =? 0)).
  - pose proof (Hf (mCurrentPath p ++ cDquote :: mLastName p)) as H.
    destruct (findCallback f1 _) as [cb1|], (findCallback f2 _) as [cb2|]; try done.
    rewrite H. by destruct (cb1 _ _ _) as [ [| |] w'].
  - destruct (cchar (drop t (text c)) =? 0); [done|]. by destruct (negb _).
Qed.

Lemma number_sim p c w : number_element f2 p c (h w) = round_sim (number_element f1 p c w).
Proof using Hf.
  unfold number_element. destruct (mExpectValue p =? 0); [done|]. destruct (numEnd (text c)) as [j|]; [|done].
  destruct (cchar (drop j (text c)) =? 0); [done|]. cbn [mStack]. destruct (bool_decide (mStack p = [])); [|done].
  pose proof (Hf (str "#")) as H. destruct (findCallback f1 _) as [cb1|], (findCallback f2 _) as [cb2|]; try done.
  destruct (bool_decide (pend c = [])); [|by destruct (negb _)].
  rewrite H. destruct (cb1 _ _ _) as [r w']. by destruct (negb _).
Qed.

Lemma round_sim_eq p c w : round f2 p c (h w) = round_sim (round f1 p c w).
Proof using Hf.
  unfold round.
  repeat match goal with |- context [if ?b then _ else _] => destruct b; [try done|] end;
    auto using close_sim, string_sim, number_sim.
  - unfold open_element. destruct (mExpectValue p =? 0); [done|]. cbn [round_sim].
    by rewrite (bool_decide_ext _ _ (findCallback_sim _)).
  - unfold comma. destruct (negb (mExpectValue p =? 0)); [done|by destruct (mStack p)].
Qed.

Lemma loop_sim fuel p c w :
  loop f2 fuel p c (h w) = (fun '(stop, p, c, w) => (stop, p, c, h w)) <$> loop f1 fuel p c w.
Proof using Hf.
  revert p c w. induction fuel as [|fuel IH]; intros p c w; [done|]. cbn [loop]. rewrite round_sim_eq.
  destruct (round f1 p c w); cbn [round_sim]; done.
Qed.

Lemma processChunk_sim chunk s w :
  processChunk f2 chunk s (h w) = (let '(n, s, w) := processChunk f1 chunk s w in (n, s, h w)).
Proof using Hf.
  unfold processChunk. destruct (mFailed s || mFinished s); [done|]. rewrite notify_sim. unfold start_call, parseError.
  assert (forall c w, notify f2 (str ">") match findCallback f2 (str "E") with Some cb => (cb [] (text c) (h w)).2 | None => h w end
    = h (notify f1 (str ">") match findCallback f1 (str "E") with Some cb => (cb [] (text c) w).2 | None => w end)) as He.
  { intros c w0. pose proof (Hf (str "E")) as H.
    destruct (findCallback f1 _) as [cb1|], (findCallback f2 _) as [cb2|]; try done; [|apply notify_sim].
    rewrite H. destruct (cb1 _ _ _). apply notify_sim. }
  set (w0 := notify f1 (str "<") w).
  assert (match findCallback f2 [] with Some cb => if mStarting s then cb [] [] (h w0) else (SUCCESS, h w0) | None => (SUCCESS, h w0) end
    = let '(r, w) := match findCallback f1 [] with Some cb => if mStarting s then cb [] [] w0 else (SUCCESS, w0) | None => (SUCCESS, w0) end
      in (r, h w)) as ->.
  { pose proof (Hf []) as H. destruct (findCallback f1 []) as [cb1|], (findCallback f2 []) as [cb2|]; try done.
    destruct (mStarting s); [apply H|done]. }
  destruct (match findCallback f1 [] with Some cb => _ | None => _ end) as [r w1].
  destruct (negb _); [by rewrite He|]. rewrite loop_sim.
  destruct (loop f1 _ _ _ w1) as [[[[stop p'] c'] w']|]; cbn [fmap option_fmap option_map]; [|done].
  destruct stop; rewrite ?notify_sim; try done. by rewrite He.
Qed.

End simulation.
End SplitterFacts.

(** ** The reference walk *)

Module Walk.
Import JSONSplitter JsonValue.

Section walk.
Context {W : Type} (filters : FiltersChain W).

(** The separator behind an element: dropped behind one that was handed over. *)
Definition separate (pend : bytes) : bytes := if bool_decide (pend = []) then [] else pend ++ [chr ","].

(** The text not handed over when an element starts, and when it ends. *)
Definition start_element (ch : Z) (path pend : bytes) : bytes :=
  if bool_decide (is_Some (findCallback filters path)) then [ch] else pend ++ [ch].
Definition end_element (ch : Z) (path pend : bytes) (w : W) : bytes * W :=
  match findCallback filters path with
  | Some cb => ([], (cb (pend ++ [ch]) [] w).2)
  | None => (pend ++ [ch], w)
  end.

(** The elements one after the other, with [visit] for each. *)
Fixpoint visit_list {A} (visit : A -> bytes -> W -> bytes * W) (l : list A) (first : bool) (pend : bytes) (w : W)
    : bytes * W :=
  match l with
  | [] => (pend, w)
  | a :: l =>
      let '(pend, w) := visit a (if first then pend else separate pend) w in visit_list visit l false pend w
  end.

(** A value with the given name at a path: [pend] is the text since the last
    element handed to a filter. *)
Fixpoint visit (v : value) (path name pend : bytes) (w : W) {struct v} : bytes * W :=
  match v with
  | VNumber t => (pend ++ t, w)
  | VString raw =>
      match findCallback filters (path ++ cDquote :: name) with
      | Some cb => ([], (cb (quoted raw) [] w).2)
      | None => (pend ++ quoted raw, w)
      end
  | VArray items =>
      let path := path ++ chr "[" :: name in
      let '(pend, w) := visit_list (fun v => visit v path []) items true (start_element (chr "[") path pend) w in
      end_element (chr "]") path pend w
  | VObject members =>
      let path := path ++ chr "{" :: name in
      let '(pend, w) := visit_list (fun m pend => visit m.2 path m.1 (pend ++ quoted m.1 ++ [chr ":"])) members true
                          (start_element (chr "{") path pend) w in
      end_element (chr "}") path pend w
  end.

End walk.
End Walk.

Module WalkFacts.
Import JSONSplitter JsonValue SplitterFacts Walk.

Lemma strEnd_raw raw rest even : raw_ok raw (negb even) = true ->
  strEnd_from even (raw ++ cDquote :: rest) = Some (S (length raw)).
Proof.
  revert even. induction raw as [|c raw IH]; intros even Hr; cbn [raw_ok] in Hr; cbn [app strEnd_from length].
  - rewrite negb_involutive in Hr. by rewrite Hr.
  - rewrite !andb_true_iff in Hr. destruct Hr as [[Hz Hq] Hr]. apply negb_true_iff in Hz. rewrite Hz.
    assert ((c =? cDquote) && even = false) as -> by (revert Hq; by destruct (c =? cDquote), even).
    rewrite IH; [done|]. etrans; [|exact Hr]. f_equal. by destruct (c =? cBackslash), even.
Qed.

Lemma strEnd_quoted raw rest : raw_ok raw false = true -> strEnd (quoted raw ++ rest) = Some (length (quoted raw)).
Proof.
  intros Hr. unfold strEnd, quoted. cbn [app drop]. rewrite drop_0, <- app_assoc. cbn [app].
  rewrite (strEnd_raw raw rest true Hr). cbn. f_equal. rewrite length_app. cbn. lia.
Qed.

(** What follows a value inside an array or an object. *)
Definition follows (rest : bytes) : Prop := cchar rest = chr "," \/ cchar rest = chr "]" \/ cchar rest = chr "}".

Lemma numEnd_number text rest : number_ok text = true -> follows rest -> numEnd (text ++ rest) = Some (length text).
Proof.
  intros Hn Hf. unfold numEnd.
  assert (num_len (text ++ rest) = length text) as ->; [|by destruct text].
  assert (forallb (fun c => JSON.is_any c (str "0123456789-+eE.")) text = true) as Hall.
  { destruct text as [|c text]; [done|]. cbn [number_ok] in Hn. apply andb_true_iff in Hn as [Hc Ht]. cbn [forallb].
    assert (forall x, JSON.number_char x = true \/ x = chr "-" -> JSON.is_any x (str "0123456789-+eE.") = true) as Hx.
    { intros x. unfold JSON.number_char, CLib.is_digit, JSON.is_any. cbn [existsb]. intros Hx.
      rewrite !orb_true_iff, !Z.eqb_eq. rewrite !orb_true_iff, !Z.eqb_eq, andb_true_iff, !Z.leb_le in Hx. lia. }
    apply andb_true_iff. split.
    - apply Hx. apply orb_true_iff in Hc as [Hc|Hc%Z.eqb_eq]; [left|by right]. unfold JSON.number_char. by rewrite Hc.
    - rewrite forallb_forall in Ht |- *. auto. }
  clear Hn. induction text as [|c text IH]; cbn [app num_len length].
  - destruct rest as [|x rest]; [done|]. unfold follows in Hf. rewrite cchar_cons in Hf. by destruct Hf as [->|[->| ->] ].
  - cbn [forallb] in Hall. apply andb_true_iff in Hall as [-> Hall]. by rewrite IH.
Qed.

Section facts.
Context {W : Type} (filters : FiltersChain W) (busy : W -> Prop) (Hwb : well_behaved filters busy).
Context (Hok : forall path cb, findCallback filters path = Some cb -> forall e r w, (cb e r w).1 = SUCCESS).

(** The loop comes from one state to the other. *)
Definition reaches (p : Place) (c : Cursor) (w : W) (p' : Place) (c' : Cursor) (w' : W) : Prop :=
  data c' = data c /\
  forall f r, loop filters f p' c' w' = Some r -> exists f', loop filters f' p c w = Some r.

Lemma reaches_refl p c w : reaches p c w p c w.
Proof using Type. split; [done|]. intros f r E. by exists f. Qed.

Lemma reaches_trans p1 c1 w1 p2 c2 w2 p3 c3 w3 :
  reaches p1 c1 w1 p2 c2 w2 -> reaches p2 c2 w2 p3 c3 w3 -> reaches p1 c1 w1 p3 c3 w3.
Proof using Type.
  intros [A1 A2] [B1 B2]. split; [congruence|]. intros f r E. destruct (B2 f r E) as [f' E']. by eapply A2.
Qed.

Lemma reaches_round p c w p' c' w' : round filters p c w = Next p' c' w' -> reaches p c w p' c' w'.
Proof using Type.
  intros E. pose proof (round_progress filters p c w) as Hp. rewrite E in Hp. split; [apply Hp|].
  intros f r Er. exists (S f). cbn [loop]. by rewrite E.
Qed.

(** The callback of an element, independent of what follows. *)
Lemma call_ok path cb e r w : findCallback filters path = Some cb -> cb e r w = (SUCCESS, (cb e [] w).2).
Proof using Hwb Hok.
  intros E. rewrite (wb_local _ _ Hwb _ _ E e r []). specialize (Hok _ _ E e [] w). by destruct (cb e [] w) as [r' w']; cbn in *; subst.
Qed.

Lemma string_value name stack path ex passed pe raw rest w :
  raw_ok raw false = true -> ex <> 0 ->
  let '(pe', w') := visit filters (VString raw) path name pe w in
  exists passed', reaches (MkPlace name stack path ex) (MkCursor passed pe (quoted raw ++ rest)) w
                    (MkPlace [] stack path 0) (MkCursor passed' pe' rest) w'.
Proof using Hwb Hok.
  intros Hr Hex. cbn [visit].
  assert (round filters (MkPlace name stack path ex) (MkCursor passed pe (quoted raw ++ rest)) w
    = string_element filters (MkPlace name stack path ex) (MkCursor passed pe (quoted raw ++ rest)) w) as Er by done.
  unfold string_element in Er. cbn [text] in Er. rewrite strEnd_quoted in Er by done.
  cbn [mExpectValue] in Er. rewrite (proj2 (Z.eqb_neq _ _) Hex) in Er. cbn [negb mCurrentPath mLastName mStack] in Er.
  rewrite take_app_length, drop_app_length in Er.
  destruct (findCallback filters (path ++ cDquote :: name)) as [cb|] eqn:Ecb.
  - rewrite (call_ok _ _ _ _ _ Ecb) in Er. eexists. apply reaches_round. rewrite Er.
    unfold advance, catch_up. cbn. by rewrite take_app_length, drop_app_length.
  - eexists. apply reaches_round. rewrite Er. unfold advance. cbn. by rewrite take_app_length, drop_app_length.
Qed.

Lemma number_value name stack path ex passed pe t rest w :
  number_ok t = true -> ex <> 0 -> follows rest -> stack <> [] ->
  reaches (MkPlace name stack path ex) (MkCursor passed pe (t ++ rest)) w
    (MkPlace name stack path 0) (MkCursor passed (pe ++ t) rest) w.
Proof using Type.
  intros Ht Hex Hf Hst. apply reaches_round.
  assert (round filters (MkPlace name stack path ex) (MkCursor passed pe (t ++ rest)) w
    = number_element filters (MkPlace name stack path ex) (MkCursor passed pe (t ++ rest)) w) as ->.
  { destruct t as [|c t]; [done|]. cbn [number_ok] in Ht. apply andb_true_iff in Ht as [Hc%JsonFacts.digit_range _].
    unfold round. cbn [text app]. rewrite cchar_cons.
    rewrite !(proj2 (Z.eqb_neq c _)) by lia. cbn [orb].
    match goal with |- context [if ?b then number_element _ _ _ _ else _] => assert (b = true) as ->; [|done] end.
    rewrite !orb_true_iff, andb_true_iff, !Z.leb_le, !Z.eqb_eq. lia. }
  unfold number_element. cbn [mExpectValue text]. rewrite (proj2 (Z.eqb_neq _ _) Hex), numEnd_number by done.
  rewrite drop_app_length. rewrite (proj2 (Z.eqb_neq _ _)) by (destruct Hf as [->|[->| ->] ]; done).
  cbn [mStack]. rewrite bool_decide_eq_false_2 by done. unfold advance. cbn [text JSONSplitter.passed pend mLastName mCurrentPath].
  by rewrite take_app_length, drop_app_length.
Qed.

Lemma open_value ch name stack path ex ps pe rest w :
  ch = chr "[" \/ ch = chr "{" -> ex <> 0 ->
  exists ps', reaches (MkPlace name stack path ex) (MkCursor ps pe (ch :: rest)) w
    (MkPlace [] ((ch :: name) :: stack) (path ++ ch :: name) (if ch =? chr "[" then 1 else 0))
    (MkCursor ps' (start_element filters ch (path ++ ch :: name) pe) rest) w.
Proof using Type.
  intros Hch Hex. unfold start_element.
  assert (round filters (MkPlace name stack path ex) (MkCursor ps pe (ch :: rest)) w
    = open_element filters ch (MkPlace name stack path ex) (MkCursor ps pe (ch :: rest)) w) as Er by by destruct Hch as [-> | ->].
  unfold open_element in Er. cbn [mExpectValue mCurrentPath mLastName mStack] in Er. rewrite (proj2 (Z.eqb_neq _ _) Hex) in Er.
  destruct (bool_decide (is_Some (findCallback filters (path ++ ch :: name))));
    eexists; apply reaches_round; rewrite Er; unfold advance, catch_up; cbn; by rewrite drop_0.
Qed.

(** A closing bracket, below the top level or at it. *)
Lemma close_round ch entry name stack path ex ps pe rest w :
  opens entry ch = true -> 0 <= ex -> (stack = [] -> take 7 (ps ++ pe ++ ch :: rest) <> err_object) ->
  let '(pe', w') := end_element filters ch (path ++ entry) pe w in
  exists ps',
    let p := MkPlace [] stack path 0 in
    round filters (MkPlace name (entry :: stack) (path ++ entry) ex) (MkCursor ps pe (ch :: rest)) w
    = if bool_decide (stack = []) then Complete p (catch_up (MkCursor ps' pe' rest)) w' else Next p (MkCursor ps' pe' rest) w'.
Proof using Hwb Hok.
  intros Ho Hex Hno. unfold end_element.
  assert (ch = chr "]" \/ ch = chr "}") as Hch.
  { unfold opens in Ho. destruct (Z.eqb_spec ch (chr "]")); [by left|]. destruct (Z.eqb_spec ch (chr "}")); [by right|done]. }
  assert (round filters (MkPlace name (entry :: stack) (path ++ entry) ex) (MkCursor ps pe (ch :: rest)) w
    = close_element filters ch (MkPlace name (entry :: stack) (path ++ entry) ex) (MkCursor ps pe (ch :: rest)) w) as Er
    by by destruct Hch as [-> | ->].
  assert (is_error_object ch (MkPlace name (entry :: stack) (path ++ entry) ex) (MkCursor ps pe (ch :: rest)) = false) as Hie.
  { unfold is_error_object. destruct stack as [|e2 stack]; [|done]. unfold data. cbn [mStack length JSONSplitter.passed pend text].
    rewrite (bool_decide_eq_false_2 _ (Hno eq_refl)). by rewrite andb_false_r. }
  unfold close_element in Er. rewrite Hie in Er. cbn [mExpectValue mCurrentPath mLastName mStack] in Er.
  rewrite (proj2 (Z.ltb_ge _ _)) in Er by lia. rewrite Ho in Er. cbn [negb] in Er.
  assert (take (length (path ++ entry) - length entry) (path ++ entry) = path) as Ep.
  { rewrite length_app, Nat.add_sub. apply take_app_length. }
  rewrite Ep in Er.
  destruct (findCallback filters (path ++ entry)) as [cb|] eqn:Ecb.
  - rewrite (call_ok _ _ _ _ _ Ecb) in Er. rewrite !bool_decide_eq_true_2 in Er by done. cbn [negb] in Er.
    eexists. rewrite Er. unfold advance, catch_up. cbn. by rewrite drop_0.
  - rewrite bool_decide_eq_true_2 in Er by done. cbn [negb] in Er. eexists. rewrite Er. unfold advance, catch_up. cbn. by rewrite drop_0.
Qed.

Lemma close_value ch entry name stack path ex ps pe rest w :
  opens entry ch = true -> 0 <= ex -> stack <> [] ->
  let '(pe', w') := end_element filters ch (path ++ entry) pe w in
  exists ps', reaches (MkPlace name (entry :: stack) (path ++ entry) ex) (MkCursor ps pe (ch :: rest)) w
    (MkPlace [] stack path 0) (MkCursor ps' pe' rest) w'.
Proof using Hwb Hok.
  intros Ho Hex Hst. pose proof (close_round ch entry name stack path ex ps pe rest w Ho Hex ltac:(done)) as Hr.
  destruct (end_element filters ch (path ++ entry) pe w) as [pe' w']. destruct Hr as [ps' Hr].
  exists ps'. apply reaches_round. rewrite Hr. by rewrite bool_decide_eq_false_2.
Qed.

Lemma comma_value entry name stack path ps pe rest w :
  exists ps', reaches (MkPlace name (entry :: stack) path 0) (MkCursor ps pe (chr "," :: rest)) w
    (MkPlace name (entry :: stack) path (if cchar entry =? chr "[" then 1 else 0)) (MkCursor ps' (separate pe) rest) w.
Proof using Type.
  assert (round filters (MkPlace name (entry :: stack) path 0) (MkCursor ps pe (chr "," :: rest)) w
    = comma (MkPlace name (entry :: stack) path 0) (MkCursor ps pe (chr "," :: rest)) w) as Er by done.
  unfold comma in Er. cbn [mExpectValue mStack negb Z.eqb pend] in Er. unfold separate.
  destruct (bool_decide (pe = [])); eexists; apply reaches_round; rewrite Er; unfold advance, catch_up; cbn; by rewrite drop_0.
Qed.

Lemma name_value k name stack path ps pe rest w :
  raw_ok k false = true ->
  exists ps', reaches (MkPlace name stack path 0) (MkCursor ps pe (quoted k ++ chr ":" :: rest)) w
    (MkPlace k stack path (-1)) (MkCursor ps' (pe ++ quoted k ++ [chr ":"]) rest) w.
Proof using Type.
  intros Hk.
  assert (round filters (MkPlace name stack path 0) (MkCursor ps pe (quoted k ++ chr ":" :: rest)) w
    = string_element filters (MkPlace name stack path 0) (MkCursor ps pe (quoted k ++ chr ":" :: rest)) w) as Er by done.
  unfold string_element in Er. cbn [text] in Er. rewrite strEnd_quoted in Er by done.
  cbn [mExpectValue negb Z.eqb] in Er. rewrite drop_app_length, !cchar_cons in Er.
  cbn [negb Z.eqb Pos.eqb] in Er.
  eexists. apply reaches_round. rewrite Er. unfold advance. cbn [text pend JSONSplitter.passed].
  assert (length (quoted k) + 1 = length (quoted k ++ [chr ":"]))%nat as El by (by rewrite length_app).
  rewrite El. replace (quoted k ++ chr ":" :: rest) with ((quoted k ++ [chr ":"]) ++ rest) by (by rewrite <- app_assoc).
  rewrite take_app_length, drop_app_length. repeat f_equal.
  unfold quoted. cbn [length app drop]. rewrite drop_0, <- !app_assoc, length_app. cbn [length].
  replace (S (length k + 1) - 2)%nat with (length k) by lia. apply take_app_length.
Qed.

(** The elements of an array or an object, with a text and a walk for each. *)
Section elements.
Context {A : Type} (pr : A -> bytes) (vis : A -> bytes -> W -> bytes * W).
Context (entry : bytes) (stack : list bytes) (path : bytes) (good : bytes -> Prop).

Abbreviation ex0 := (if cchar entry =? chr "[" then 1 else 0).

Definition element_ok (a : A) : Prop :=
  forall name ps pe rest w, good name -> follows rest ->
    let '(pe', w') := vis a pe w in
    exists ps' name', good name' /\ reaches (MkPlace name (entry :: stack) path ex0) (MkCursor ps pe (pr a ++ rest)) w
      (MkPlace name' (entry :: stack) path 0) (MkCursor ps' pe' rest) w'.

Definition more (l : list A) : bytes := mjoin ((fun a => chr "," :: pr a) <$> l).

Lemma more_follows l rest : follows rest -> follows (more l ++ rest).
Proof using Type. intros Hf. destruct l; [done|]. by left. Qed.

Lemma more_elements l : Forall element_ok l -> forall name ps pe rest w, good name -> follows rest ->
  let '(pe', w') := visit_list vis l false pe w in
  exists ps' name', good name' /\ reaches (MkPlace name (entry :: stack) path 0) (MkCursor ps pe (more l ++ rest)) w
    (MkPlace name' (entry :: stack) path 0) (MkCursor ps' pe' rest) w'.
Proof using Type.
  induction 1 as [|a l Ha Hl IH]; intros name ps pe rest w Hn Hf; cbn [visit_list].
  - exists ps, name. split; [done|apply reaches_refl].
  - destruct (comma_value entry name stack path ps pe (pr a ++ more l ++ rest) w) as [ps1 H1].
    specialize (Ha name ps1 (separate pe) (more l ++ rest) w Hn (more_follows l rest Hf)).
    destruct (vis a (separate pe) w) as [pe2 w2]. destruct Ha as (ps2 & n2 & Hn2 & H2).
    specialize (IH n2 ps2 pe2 rest w2 Hn2 Hf). destruct (visit_list vis l false pe2 w2) as [pe3 w3].
    destruct IH as (ps3 & n3 & Hn3 & H3). exists ps3, n3. split; [done|].
    unfold more in *. rewrite fmap_cons, mjoin_cons. cbn [app]. rewrite <- app_assoc.
    eapply reaches_trans; [exact H1|]. eapply reaches_trans; [exact H2|exact H3].
Qed.

Lemma sep_more l : sep (map pr l) = match l with [] => [] | a :: l => pr a ++ more l end.
Proof using Type.
  destruct l as [|a l]; [done|]. revert a. induction l as [|b l IH]; intros a.
  - cbn. by rewrite app_nil_r.
  - cbn [map] in *. rewrite JsonFacts.sep_cons, IH. done.
Qed.

Lemma all_elements l : Forall element_ok l -> forall name ps pe rest w, good name -> follows rest ->
  let '(pe', w') := visit_list vis l true pe w in
  exists ps' name' ex', 0 <= ex' /\ reaches (MkPlace name (entry :: stack) path ex0) (MkCursor ps pe (sep (map pr l) ++ rest)) w
    (MkPlace name' (entry :: stack) path ex') (MkCursor ps' pe' rest) w'.
Proof using Type.
  intros Hl name ps pe rest w Hn Hf. rewrite sep_more. destruct Hl as [|a l Ha Hl]; cbn [visit_list].
  - exists ps, name, ex0. split; [destruct (_ =? _); lia|apply reaches_refl].
  - specialize (Ha name ps pe (more l ++ rest) w Hn (more_follows l rest Hf)).
    destruct (vis a pe w) as [pe2 w2]. destruct Ha as (ps2 & n2 & Hn2 & H2).
    pose proof (more_elements l Hl n2 ps2 pe2 rest w2 Hn2 Hf) as H3.
    destruct (visit_list vis l false pe2 w2) as [pe3 w3]. destruct H3 as (ps3 & n3 & Hn3 & H3).
    exists ps3, n3, 0. split; [done|]. rewrite <- app_assoc. by eapply reaches_trans.
Qed.

End elements.

(** An array or an object up to its closing bracket. *)
Definition value_ok (v : value) : Prop :=
  wf v = true -> forall name stack path ex ps pe rest w, ex <> 0 -> stack <> [] -> follows rest ->
    let '(pe', w') := visit filters v path name pe w in
    exists ps' name', (name' = [] \/ name' = name) /\
      reaches (MkPlace name stack path ex) (MkCursor ps pe (print v ++ rest)) w
        (MkPlace name' stack path 0) (MkCursor ps' pe' rest) w'.

Lemma array_elements items name stack path ex ps pe rest w :
  Forall value_ok items -> forallb wf items = true -> ex <> 0 -> follows rest ->
  let path' := path ++ chr "[" :: name in
  let '(pe', w') := visit_list (fun v => visit filters v path' []) items true (start_element filters (chr "[") path' pe) w in
  exists ps' name' ex', 0 <= ex' /\
    reaches (MkPlace name stack path ex) (MkCursor ps pe (chr "[" :: sep (map print items) ++ rest)) w
      (MkPlace name' ((chr "[" :: name) :: stack) path' ex') (MkCursor ps' pe' rest) w'.
Proof using Hwb Hok.
  intros Hitems Hwf Hex Hf path'.
  destruct (open_value (chr "[") name stack path ex ps pe (sep (map print items) ++ rest) w (or_introl eq_refl) Hex) as [ps1 H1].
  pose proof (all_elements print (fun v => visit filters v path' []) (chr "[" :: name) stack path' (fun n => n = []) items) as Hall.
  assert (Forall (element_ok print (fun v => visit filters v path' []) (chr "[" :: name) stack path' (fun n => n = [])) items) as Hel.
  { apply Forall_forall. intros v Hv n ps2 pe2 rest2 w2 -> Hf2. rewrite Forall_forall in Hitems. rewrite forallb_forall in Hwf.
    specialize (Hitems v Hv (Hwf v ltac:(by apply list_elem_of_In)) [] ((chr "[" :: name) :: stack) path' 1 ps2 pe2 rest2 w2
      ltac:(done) ltac:(done) Hf2). destruct (visit filters v path' [] pe2 w2) as [pe3 w3].
    destruct Hitems as (ps3 & n3 & Hn3 & H3). exists ps3, n3. split; [by destruct Hn3|exact H3]. }
  specialize (Hall Hel [] ps1 (start_element filters (chr "[") path' pe) rest w eq_refl Hf).
  destruct (visit_list _ items true _ w) as [pe2 w2]. destruct Hall as (ps2 & n2 & ex2 & Hex2 & H2).
  exists ps2, n2, ex2. split; [done|]. eapply reaches_trans; [exact H1|exact H2].
Qed.

Lemma object_elements members name stack path ex ps pe rest w :
  Forall (fun m => value_ok m.2) members -> forallb (fun m => raw_ok m.1 false && wf m.2) members = true ->
  ex <> 0 -> follows rest ->
  let path' := path ++ chr "{" :: name in
  let '(pe', w') := visit_list (fun m pend => visit filters m.2 path' m.1 (pend ++ quoted m.1 ++ [chr ":"])) members true
                      (start_element filters (chr "{") path' pe) w in
  exists ps' name' ex', 0 <= ex' /\
    reaches (MkPlace name stack path ex) (MkCursor ps pe (chr "{" :: sep (map print_member members) ++ rest)) w
      (MkPlace name' ((chr "{" :: name) :: stack) path' ex') (MkCursor ps' pe' rest) w'.
Proof using Hwb Hok.
  intros Hmem Hwf Hex Hf path'.
  destruct (open_value (chr "{") name stack path ex ps pe (sep (map print_member members) ++ rest) w (or_intror eq_refl) Hex) as [ps1 H1].
  pose proof (all_elements print_member (fun m pend => visit filters m.2 path' m.1 (pend ++ quoted m.1 ++ [chr ":"]))
    (chr "{" :: name) stack path' (fun _ => True) members) as Hall.
  assert (Forall (element_ok print_member (fun m pend => visit filters m.2 path' m.1 (pend ++ quoted m.1 ++ [chr ":"]))
    (chr "{" :: name) stack path' (fun _ => True)) members) as Hel.
  { apply Forall_forall. intros [k v] Hv n ps2 pe2 rest2 w2 _ Hf2. rewrite Forall_forall in Hmem. rewrite forallb_forall in Hwf.
    pose proof (Hwf (k, v) ltac:(by apply list_elem_of_In)) as [Hk Hwv]%andb_true_iff. cbn [fst snd] in *.
    destruct (name_value k n ((chr "{" :: name) :: stack) path' ps2 pe2 (print v ++ rest2) w2 Hk) as [ps3 H3].
    specialize (Hmem (k, v) Hv Hwv k ((chr "{" :: name) :: stack) path' (-1) ps3 (pe2 ++ quoted k ++ [chr ":"]) rest2 w2
      ltac:(done) ltac:(done) Hf2). cbn [fst snd] in Hmem.
    destruct (visit filters v path' k (pe2 ++ quoted k ++ [chr ":"]) w2) as [pe4 w4].
    destruct Hmem as (ps4 & n4 & _ & H4). exists ps4, n4. split; [done|]. unfold print_member. cbn [fst snd].
    rewrite <- app_assoc. cbn [app]. eapply reaches_trans; [exact H3|exact H4]. }
  specialize (Hall Hel [] ps1 (start_element filters (chr "{") path' pe) rest w I Hf).
  destruct (visit_list _ members true _ w) as [pe2 w2]. destruct Hall as (ps2 & n2 & ex2 & Hex2 & H2).
  exists ps2, n2, ex2. split; [done|]. eapply reaches_trans; [exact H1|exact H2].
Qed.

Lemma visit_value v : value_ok v.
Proof using Hwb Hok.
  induction v as [raw|t|items Hitems|members Hmem] using value_induction;
    intros Hwf name stack path ex ps pe rest w Hex Hst Hf.
  - pose proof (string_value name stack path ex ps pe raw rest w Hwf Hex) as Hs.
    destruct (visit filters (VString raw) path name pe w) as [pe' w']. destruct Hs as [ps' Hs].
    exists ps', []. split; [by left|exact Hs].
  - exists ps, name. split; [by right|]. by apply number_value.
  - cbn [visit]. pose proof (array_elements items name stack path ex ps pe (chr "]" :: rest) w Hitems Hwf Hex
      (or_intror (or_introl eq_refl))) as Ha. cbn zeta in Ha.
    destruct (visit_list _ items true _ w) as [pe1 w1]. destruct Ha as (ps1 & n1 & ex1 & Hex1 & H1).
    pose proof (close_value (chr "]") (chr "[" :: name) n1 stack path ex1 ps1 pe1 rest w1 eq_refl Hex1 Hst) as Hc.
    destruct (end_element filters _ _ pe1 w1) as [pe2 w2]. destruct Hc as [ps2 H2].
    exists ps2, []. split; [by left|]. cbn [print]. cbn [app]. rewrite <- app_assoc.
    eapply reaches_trans; [exact H1|exact H2].
  - cbn [visit]. pose proof (object_elements members name stack path ex ps pe (chr "}" :: rest) w Hmem Hwf Hex
      (or_intror (or_intror eq_refl))) as Ha. cbn zeta in Ha.
    destruct (visit_list _ members true _ w) as [pe1 w1]. destruct Ha as (ps1 & n1 & ex1 & Hex1 & H1).
    pose proof (close_value (chr "}") (chr "{" :: name) n1 stack path ex1 ps1 pe1 rest w1 eq_refl Hex1 Hst) as Hc.
    destruct (end_element filters _ _ pe1 w1) as [pe2 w2]. destruct Hc as [ps2 H2].
    exists ps2, []. split; [by left|]. cbn [print]. cbn [app]. rewrite <- app_assoc.
    eapply reaches_trans; [exact H1|exact H2].
Qed.

(** A whole document: the loop completes behind it. *)
Lemma document v rest w :
  wf v = true -> (forall t, v <> VNumber t) -> (forall raw, v <> VString raw) ->
  take 7 (print v ++ rest) <> err_object ->
  exists f c, data c = print v ++ rest /\ pend c = [] /\ text c = rest /\
    loop filters f place0 (MkCursor [] [] (print v ++ rest)) w
    = Some (Finished, MkPlace [] [] [] 0, c, (visit filters v [] [] [] w).2).
Proof using Hwb Hok.
  intros Hwf Hnum Hstr Hno.
  assert (forall ch entry pe w0 n1 ex1 ps1 rest0, opens entry ch = true -> 0 <= ex1 ->
    reaches place0 (MkCursor [] [] (print v ++ rest)) w (MkPlace n1 [entry] ([] ++ entry) ex1) (MkCursor ps1 pe (ch :: rest0)) w0 ->
    exists f c, data c = print v ++ rest /\ pend c = [] /\ text c = rest0 /\
      loop filters f place0 (MkCursor [] [] (print v ++ rest)) w
      = Some (Finished, MkPlace [] [] [] 0, c, (end_element filters ch ([] ++ entry) pe w0).2)) as Hclose.
  { intros ch entry pe w0 n1 ex1 ps1 rest0 Ho Hex [Hd Hr]. unfold data in Hd at 1 2. cbn [JSONSplitter.passed pend text app] in Hd.
    pose proof (close_round ch entry n1 [] [] ex1 ps1 pe rest0 w0 Ho Hex ltac:(intros _; by rewrite Hd)) as Hc.
    destruct (end_element filters ch ([] ++ entry) pe w0) as [pe' w']. destruct Hc as [ps' Hc].
    pose proof (round_progress filters (MkPlace n1 [entry] ([] ++ entry) ex1) (MkCursor ps1 pe (ch :: rest0)) w0) as Hp.
    rewrite Hc in Hp. cbn [bool_decide] in Hp. rewrite bool_decide_eq_true_2 in Hp, Hc by done. destruct Hp as [Hp _].
    destruct (Hr 1%nat (Finished, MkPlace [] [] [] 0, catch_up (MkCursor ps' pe' rest0), w')) as [f E].
    { cbn [loop]. by rewrite Hc. }
    exists f, (catch_up (MkCursor ps' pe' rest0)). split_and!; [by rewrite Hp|done|done|exact E]. }
  destruct v as [raw|t|items|members]; [by destruct (Hstr raw)|by destruct (Hnum t)| |].
  - pose proof (array_elements items [] [] [] 1 [] [] (chr "]" :: rest) w (proj2 (Forall_forall _ _) (fun v _ => visit_value v)) Hwf
      ltac:(done) (or_intror (or_introl eq_refl))) as Ha. cbn zeta in Ha. cbn [visit].
    destruct (visit_list _ items true _ w) as [pe1 w1]. destruct Ha as (ps1 & n1 & ex1 & Hex1 & H1).
    apply (Hclose (chr "]") [chr "["] pe1 w1 n1 ex1 ps1 rest eq_refl Hex1).
    cbn [print]. cbn [app]. rewrite <- app_assoc. exact H1.
  - pose proof (object_elements members [] [] [] 1 [] [] (chr "}" :: rest) w (proj2 (Forall_forall _ _) (fun m _ => visit_value m.2)) Hwf
      ltac:(done) (or_intror (or_intror eq_refl))) as Ha. cbn zeta in Ha. cbn [visit].
    destruct (visit_list _ members true _ w) as [pe1 w1]. destruct Ha as (ps1 & n1 & ex1 & Hex1 & H1).
    apply (Hclose (chr "}") [chr "{"] pe1 w1 n1 ex1 ps1 rest eq_refl Hex1).
    cbn [print]. cbn [app]. rewrite <- app_assoc. exact H1.
Qed.

End facts.
End WalkFacts.

(** ** Theorems *)

(** C4: The streaming parser always ends.  Provided that no error object begins
    inside of the stream behind its start ([no_late_error]) and that the filters
    are well behaved (each looks at its element only, none pauses the parser, and
    the markers < and > at most bracket the work on a chunk: resuming undoes
    pausing), where the stream is cut into chunks makes no difference: feeding it
    chunk by chunk, the unconsumed rest in front of the next chunk, calls the same
    filters with the same elements in the same order and leaves the parser in the
    same state as the whole stream at once; unless parsing failed, the unconsumed
    rest is the same as well.  Without the first condition the claim is false: an
    object inside of the document that looks like an error object is taken for
    the answer to the request when a chunk happens to begin with it
    ([error_object_by_chunks]). *)
Theorem splitter_chunks {W} (filters : JSONSplitter.FiltersChain W) busy chunk chunks (w : W) :
  SplitterFacts.well_behaved filters busy ->
  SplitterFacts.no_late_error (mjoin (chunk :: chunks)) ->
  let '(n, s1, w1) := JSONSplitter.processChunk filters (mjoin (chunk :: chunks)) JSONSplitter.clear w in
  let '(rest, s2, w2) := JSONSplitter.feed filters (chunk :: chunks) [] JSONSplitter.clear w in
  (forall p c w, is_Some (JSONSplitter.loop filters (S (length (JSONSplitter.text c))) p c w))
  /\ s2 = s1 /\ w2 = w1
  /\ (JSONSplitter.mFailed s1 = false -> rest = drop n (mjoin (chunk :: chunks))).
Proof.
  intros Hwb Hlate.
  assert (forall p c w, is_Some (JSONSplitter.loop filters (S (length (JSONSplitter.text c))) p c w)) as Htotal.
  { intros p c w0. apply SplitterFacts.splitter_loop_total. lia. }
  destruct (JSONSplitter.start_call filters true (JSONSplitter.notify filters (str "<") w)) as [r w1] eqn:Est.
  destruct (JSONSplitter.result_eq_dec r JSONSplitter.SUCCESS) as [->|Hr].
  - destruct (SplitterFacts.feed_loop filters busy Hwb chunks chunk true JSONSplitter.place0 [] [] [] w w1 ltac:(done) Est Hlate)
      as (f & stop & p & c & w2 & E & Hfed). cbn [app length] in E, Hfed.
    destruct (SplitterFacts.processChunk_loop filters [] (mjoin (chunk :: chunks)) JSONSplitter.place0 true w w1 Est)
      as (stop' & p' & c' & w2' & E' & Ec). cbn [app length] in E', Ec.
    assert (stop = stop' /\ p = p' /\ c = c' /\ w2 = w2') as (<- & <- & <- & <-).
    { pose proof (SplitterFacts.loop_mono filters _ (f + S (length (mjoin (chunk :: chunks)))) _ _ _ _ E ltac:(lia)) as E1.
      pose proof (SplitterFacts.loop_mono filters _ (f + S (length (mjoin (chunk :: chunks)))) _ _ _ _ E' ltac:(lia)) as E2.
      change (mjoin (chunk :: chunks)) with (chunk ++ mjoin chunks) in E2 at 2. rewrite E1 in E2. by injection E2. }
    destruct (SplitterFacts.loop_stop filters _ _ _ _ _ _ _ _ E') as [_ Hdata].
    change JSONSplitter.clear with (JSONSplitter.MkSplitter JSONSplitter.place0 0 true false false false). rewrite Ec.
    destruct (JSONSplitter.feed filters _ [] _ w) as [[rest s2] w3]. unfold SplitterFacts.fed in Hfed.
    destruct stop; [| | |done].
    + destruct Hfed as (-> & -> & ->). split_and!; [done|done|done|]. intros _. symmetry.
      apply SplitterFacts.drop_passed. by apply Hdata.
    + destruct Hfed as (-> & -> & ->). split_and!; [done|done|done|]. intros _. symmetry.
      apply SplitterFacts.drop_passed. by apply Hdata.
    + destruct Hfed as (-> & ->). by split_and!.
  - rewrite SplitterFacts.feed_cons. unfold JSONSplitter.processChunk. cbn [JSONSplitter.mFailed JSONSplitter.mFinished
      JSONSplitter.mStarting JSONSplitter.clear orb]. rewrite Est.
    rewrite (bool_decide_eq_false_2 _ Hr). cbn [negb]. rewrite SplitterFacts.feed_stopped by done.
    split_and!; [done|done|by eapply SplitterFacts.parseError_local|done].
Qed.

(** C5: On a well-formed document (an array or an object that is not an error
    object) the parser consumes exactly the document and calls the filters as the
    reference walk over the value does: for every element whose path has a filter,
    innermost first, in the order of the text, with the text since the last
    element handed over. *)
Theorem splitter_document {W} (filters : JSONSplitter.FiltersChain W) busy v rest (w w1 : W) :
  SplitterFacts.well_behaved filters busy ->
  (forall path cb, JSONSplitter.findCallback filters path = Some cb -> forall e r w, (cb e r w).1 = JSONSplitter.SUCCESS) ->
  JsonValue.wf v = true -> (forall t, v <> JsonValue.VNumber t) -> (forall raw, v <> JsonValue.VString raw) ->
  take 7 (JsonValue.print v ++ rest) <> JSONSplitter.err_object ->
  JSONSplitter.start_call filters true (JSONSplitter.notify filters (str "<") w) = (JSONSplitter.SUCCESS, w1) ->
  JSONSplitter.processChunk filters (JsonValue.print v ++ rest) JSONSplitter.clear w
  = (length (JsonValue.print v),
     JSONSplitter.MkSplitter (JSONSplitter.MkPlace [] [] [] 0) 0 false true false false,
     JSONSplitter.notify filters (str ">") (Walk.visit filters v [] [] [] w1).2).
Proof.
  intros Hwb Hok Hwf Hnum Hstr Hno Hst.
  destruct (WalkFacts.document filters busy Hwb Hok v rest w1 Hwf Hnum Hstr Hno) as (f & c & Hd & Hp & Ht & E).
  destruct (SplitterFacts.processChunk_loop filters [] (JsonValue.print v ++ rest) JSONSplitter.place0 true w w1 Hst)
    as (stop & p' & c' & w' & E' & Ec). cbn [app length] in E', Ec.
  pose proof (SplitterFacts.loop_mono filters _ (f + S (length (JsonValue.print v ++ rest))) _ _ _ _ E ltac:(lia)) as E1.
  pose proof (SplitterFacts.loop_mono filters _ (f + S (length (JsonValue.print v ++ rest))) _ _ _ _ E' ltac:(lia)) as E2.
  rewrite E1 in E2. injection E2 as <- <- <- <-.
  change JSONSplitter.clear with (JSONSplitter.MkSplitter JSONSplitter.place0 0 true false false false). rewrite Ec, Hp.
  unfold JSONSplitter.data in Hd. rewrite Hp, Ht in Hd. cbn [app] in Hd. apply app_inv_tail in Hd. by rewrite Hd.
Qed.

(** ** Examples *)

Module SplitterExamples.
Import JSONSplitter JsonValue.

(** Filters that log their path and element. *)
Definition log_filter (path : bytes) : FilterCallback (list (bytes * bytes)) :=
  fun e _ w => (SUCCESS, w ++ [(path, e)]).
Definition log_filters (paths : list bytes) : FiltersChain (list (bytes * bytes)) :=
  [Some (foldl (fun m p => omap_insert p (log_filter p) m) [] paths)].

Lemma find_log (m : list (bytes * FilterCallback (list (bytes * bytes)))) path cb :
  Forall (fun e => e.2 = log_filter e.1) m -> omap_find path m = Some cb -> exists p, cb = log_filter p.
Proof.
  induction 1 as [|[k f] m Hf Hm IH]; [done|].
  change (omap_find path ((k, f) :: m)) with
    (if kltb path k then None else if kltb k path then omap_find path m else Some f).
  destruct (kltb path k); [done|]. destruct (kltb k path); [exact IH|]. intros E. injection E as <-. exists k. exact Hf.
Qed.

Lemma log_found m path cb : Forall (fun e => e.2 = log_filter e.1) m ->
  findCallback [Some m] path = Some cb -> exists p, cb = log_filter p.
Proof.
  intros Hm. unfold findCallback. cbn [find_in]. destruct (omap_find path m) eqn:E; [|done].
  intros E2. injection E2 as <-. by eapply find_log.
Qed.

(** Objects in an array, a string and the document itself are asked for. *)
Definition paths : list bytes :=
  [str "{[f{"; chr "{" :: cDquote :: str "sn"; str "{"].
Definition nodes : FiltersChain (list (bytes * bytes)) := log_filters paths.

Definition doc : value :=
  VObject [(str "a", VNumber (str "1"));
           (str "f", VArray [VObject [(str "h", VString (str "x"))]; VObject [(str "h", VArray [])]]);
           (str "sn", VString (str "q"))].

Lemma nodes_behave : SplitterFacts.well_behaved nodes (fun _ => True).
Proof.
  assert (forall path cb, findCallback nodes path = Some cb -> exists p, cb = log_filter p) as Hf.
  { intros path cb. apply log_found. repeat (apply Forall_cons; split; [reflexivity|]). apply Forall_nil_2. }
  split; [| |done|done|done]; intros path cb [p ->]%Hf e; done.
Qed.

(** The document in one piece. *)
Lemma doc_calls :
  (processChunk nodes (print doc) clear []).2 =
  [(str "{[f{", print (VObject [(str "h", VString (str "x"))]));
   (str "{[f{", print (VObject [(str "h", VArray [])]));
   (chr "{" :: cDquote :: str "sn", quoted (str "q"));
   (str "{", str "}")].
Proof. vm_compute. reflexivity. Qed.

(** An error object behind an element that was handed over: it is taken for the
    answer to the request if a chunk happens to begin with it. *)
Definition inner : value :=
  VObject [(str "f", VArray [VArray [VNumber (str "1")]; VObject [(str "err", VNumber (str "5"))]])].
Definition errors : FiltersChain (list (bytes * bytes)) := log_filters [str "{[f["; str "#"].

Lemma error_object_by_chunks :
  (processChunk errors (print inner) clear []).2 = [(str "{[f[", str "[1]")]
  /\ (feed errors [take 10 (print inner); drop 10 (print inner)] [] clear []).2
     = [(str "{[f[", str "[1]"); (str "#", drop 10 (print inner))].
Proof. vm_compute. by split. Qed.

End SplitterExamples.

Lemma splitter_chunks_witness :
  (JSONSplitter.feed SplitterExamples.nodes
     [take 13 (JsonValue.print SplitterExamples.doc); drop 13 (JsonValue.print SplitterExamples.doc)]
     [] JSONSplitter.clear []).2
  = (JSONSplitter.processChunk SplitterExamples.nodes (JsonValue.print SplitterExamples.doc) JSONSplitter.clear []).2.
Proof.
  set (a := take 13 (JsonValue.print SplitterExamples.doc)). set (b := drop 13 (JsonValue.print SplitterExamples.doc)).
  assert (mjoin [a; b] = JsonValue.print SplitterExamples.doc) as E by (vm_compute; reflexivity).
  assert (SplitterFacts.no_late_error (mjoin [a; b])) as Hno.
  { rewrite E. intros k Hk. destruct (Nat.lt_ge_cases k (length (JsonValue.print SplitterExamples.doc))) as [Hlt|Hge].
    - revert Hk Hlt. change (length (JsonValue.print SplitterExamples.doc)) with 41%nat. intros Hk Hlt.
      do 41 (destruct k as [|k]; [try lia; vm_compute; congruence|]). lia.
    - rewrite drop_ge by done. done. }
  pose proof (splitter_chunks SplitterExamples.nodes (fun _ => True) a [b] [] SplitterExamples.nodes_behave Hno) as Hs. rewrite E in Hs.
  destruct (JSONSplitter.processChunk _ _ _ _) as [[n s1] w1]. destruct (JSONSplitter.feed _ _ _ _ _) as [[rest s2] w2].
  exact (proj1 (proj2 (proj2 Hs))).
Defined.

Lemma splitter_document_witness :
  JSONSplitter.processChunk SplitterExamples.nodes (JsonValue.print SplitterExamples.doc ++ str "]") JSONSplitter.clear []
  = (length (JsonValue.print SplitterExamples.doc),
     JSONSplitter.MkSplitter (JSONSplitter.MkPlace [] [] [] 0) 0 false true false false,
     (Walk.visit SplitterExamples.nodes SplitterExamples.doc [] [] [] []).2).
Proof.
  apply (splitter_document SplitterExamples.nodes (fun _ => True) SplitterExamples.doc (str "]") [] [] SplitterExamples.nodes_behave);
    [|vm_compute; reflexivity|done|done|vm_compute; congruence|vm_compute; reflexivity].
  intros path cb Hf e r w.
  assert (exists p, cb = SplitterExamples.log_filter p) as [p ->]; [|reflexivity].
  eapply SplitterExamples.log_found; [|exact Hf].
  repeat (apply Forall_cons; split; [reflexivity|]). apply Forall_nil_2.
Defined.
