(* ===== verification/Filters.v ===== *)
(** * Exclusion rules of syncs

    The rules of [.megaignore] files: reading the lines ([readLines],
    src/utils.cpp), parsing them ([FilterChain::load] and [add],
    src/syncfilter.cpp), matching names and paths against them ([GlobMatcher],
    [wildcardMatch]), writing the default rules
    ([DefaultFilterChain::generate]), and what the rules of a folder and of its
    parents mean for an item ([LocalNode::exclusionState], src/node.cpp, with
    [RemotePath] of src/filesystem.cpp).  Regular expressions, the normalization
    of Unicode and the file are parameters. *)

From S2P Require Import Prelude Crypto Encoding Serialize Json Files Fingerprint.
Local Open Scope Z_scope.

(** A C string ends at the first NUL. *)
Fixpoint c_str (l : bytes) : bytes :=
  match l with
  | c :: l => if c =? 0 then [] else c :: c_str l
  | [] => []
  end.

(** ** Wildcards *)

Module Glob.

Abbreviation star := (chr "*").
Abbreviation any := (chr "?").

(** The first loop: [None] is its [return false]. *)
Fixpoint leading (s m : bytes) : option (bytes * bytes) :=
  match s with
  | [] => Some (s, m)
  | c :: s' =>
      if (c =? 0) || (cchar m =? star) then Some (s, m)
      else if negb (cchar m =? c) && negb (cchar m =? any) then None
      else leading s' (drop 1 m)
  end.

Fixpoint skip_stars (m : bytes) : bytes :=
  match m with
  | c :: m' => if c =? star then skip_stars m' else m
  | [] => []
  end.

(** The end of [wildcardMatch]: trailing stars and then the end of the pattern. *)
Definition finish (m : bytes) : bool := cchar (skip_stars m) =? 0.

(** The second loop, with the pointers [mp] and [cp] to go back to; [None] is
    the end of the fuel, or a null pointer. *)
Fixpoint backtrack (fuel : nat) (s m : bytes) (back : option (bytes * bytes)) : option bool :=
  match fuel with
  | O => None
  | S fuel =>
      if cchar s =? 0 then Some (finish m)
      else if cchar m =? star then
        let m := drop 1 m in
        if cchar m =? 0 then Some true else backtrack fuel s m (Some (m, drop 1 s))
      else if (cchar m =? cchar s) || (cchar m =? any) then backtrack fuel (drop 1 s) (drop 1 m) back
      else match back with
           | Some (mp, cp) => backtrack fuel cp mp (Some (mp, drop 1 cp))
           | None => None
           end
  end.

Definition fuel_for (s m : bytes) : nat := (S (S (length s)) * S (length m))%nat.

Definition wildcardMatch (text pattern : bytes) : option bool :=
  let s := c_str text in
  let m := c_str pattern in
  match leading s m with
  | None => Some false
  | Some (s', m') => backtrack (fuel_for s m) s' m' None
  end.

(** The texts a pattern stands for. *)
Inductive glob : bytes -> bytes -> Prop :=
  | glob_nil : glob [] []
  | glob_char c m s : c <> star -> c <> any -> glob m s -> glob (c :: m) (c :: s)
  | glob_any c m s : glob m s -> glob (any :: m) (c :: s)
  | glob_none m s : glob m s -> glob (star :: m) s
  | glob_more c m s : glob (star :: m) s -> glob (star :: m) (c :: s).

End Glob.

Module GlobFacts.
Import Glob.

#[local] Hint Constructors glob : core.

Lemma glob_nil_inv s : glob [] s -> s = [].
Proof. by inversion 1. Qed.

Lemma glob_star_iff m s : glob (star :: m) s <-> exists u w, s = u ++ w /\ glob m w.
Proof.
  split.
  - remember (star :: m) as p eqn:Ep. intros H. induction H as [| | |m' s H IH|c m' s H IH]; simplify_eq.
    + by exists [], s.
    + destruct (IH eq_refl) as (u & w & -> & Hw). by exists (c :: u), w.
  - intros (u & w & -> & H). induction u as [|c u IH]; cbn [app]; auto.
Qed.

(** One character of a pattern that is not a star. *)
Definition fits (m c : Z) : Prop := m <> star /\ (m = c \/ m = any).

Lemma glob_step m c p s : m <> star -> glob (m :: p) (c :: s) <-> fits m c /\ glob p s.
Proof.
  intros Hm. split.
  - inversion 1; simplify_eq; unfold fits; auto.
  - intros [ [_ [->| ->] ] H]; auto. destruct (decide (c = any)) as [->|]; auto.
Qed.

Lemma glob_app q m w : Forall (fun c => c <> star) q -> glob (q ++ m) w ->
  exists u w', w = u ++ w' /\ length u = length q /\ glob m w'.
Proof.
  revert w. induction q as [|c q IH]; intros w Hq Hg; [by exists [], w|].
  apply Forall_cons in Hq as [Hc Hq]. cbn [app] in Hg.
  destruct w as [|d w]; [by inversion Hg|]. apply glob_step in Hg as [_ Hg]; [|done].
  destruct (IH w Hq Hg) as (u & w' & -> & Hl & Hw). exists (d :: u), w'. cbn. auto.
Qed.

(** At least as many characters as the pattern has besides its stars. *)
Definition solid (m : bytes) : nat := length (filter (fun c => c <> star) m).

Lemma solid_cons c m : solid (c :: m) = ((if decide (c = star) then 0 else 1) + solid m)%nat.
Proof.
  unfold solid. destruct (decide (c = star)) as [->|]; [by rewrite filter_cons_False by (intros H; by apply H)|].
  by rewrite filter_cons_True.
Qed.

Lemma glob_length m s : glob m s -> (solid m <= length s)%nat.
Proof.
  induction 1; rewrite ?solid_cons in *; cbn [length solid filter] in *; try (destruct (decide _)); lia || done.
Qed.

Lemma solid_app l1 l2 : solid (l1 ++ l2) = (solid l1 + solid l2)%nat.
Proof. unfold solid. by rewrite filter_app, length_app. Qed.

Lemma solid_all q : Forall (fun c => c <> star) q -> solid q = length q.
Proof. induction 1 as [|c q Hc Hq IH]; [done|]. rewrite solid_cons, IH. by destruct (decide (c = star)). Qed.

Lemma solid_stars m : solid m = 0%nat -> glob m [].
Proof. induction m as [|c m IH]; [auto|]. rewrite solid_cons. destruct (decide (c = star)) as [->|]; [auto|lia]. Qed.

(** *** C strings *)

Definition no_nul (l : bytes) : Prop := Forall (fun c => c <> 0) l.

Lemma c_str_no_nul l : no_nul (c_str l).
Proof.
  unfold no_nul. induction l as [|c l IH]; cbn [c_str]; [constructor|].
  destruct (Z.eqb_spec c 0); [constructor|]. by constructor.
Qed.

Lemma c_str_id l : no_nul l -> c_str l = l.
Proof.
  induction 1 as [|c l Hc Hl IH]; [done|]. cbn [c_str]. destruct (Z.eqb_spec c 0); [done|]. by rewrite IH.
Qed.

Lemma cchar_end l : no_nul l -> cchar l = 0 <-> l = [].
Proof. intros Hl. split; [|by intros ->]. destruct Hl as [|c l Hc Hl]; [done|]. cbn. done. Qed.

Lemma no_nul_drop n l : no_nul l -> no_nul (drop n l).
Proof. apply Forall_drop. Qed.

Lemma finish_iff m : no_nul m -> finish m = true <-> glob m [].
Proof.
  unfold finish. induction 1 as [|c m Hc Hm IH]; [by split|]. cbn [skip_stars].
  destruct (Z.eqb_spec c star) as [->|Hs].
  - rewrite IH. split; [auto|]. intros H. inversion H; simplify_eq; done.
  - cbn. rewrite (proj2 (Z.eqb_neq c 0)) by done. split; [done|]. inversion 1; simplify_eq.
Qed.

(** *** Going back to the last star is enough *)

Lemma star_prefix u m s : glob (star :: m) s -> glob (star :: m) (u ++ s).
Proof. intros H. induction u; cbn [app]; auto. Qed.

Lemma star_drop m s : glob (star :: m) s <-> glob m s \/ glob (star :: m) (drop 1 s).
Proof.
  split.
  - inversion 1; simplify_eq; cbn; auto.
  - intros [H|H]; [auto|]. destruct s as [|c s]; cbn in H; auto.
Qed.

(** [q] is the part of the pattern behind the last star that was matched with
    [u], from [start] on. *)
Record rest (start s m mp cp q u : bytes) : Prop := {
  rest_pattern : mp = q ++ m;
  rest_start : start = u ++ s;
  rest_length : length u = length q;
  rest_solid : Forall (fun c => c <> star) q;
  rest_cp : cp = drop 1 start
}.

(** What another start could match the next star can match from here. *)
Lemma greedy start s m cp q u : rest start s (star :: m) (q ++ star :: m) cp q u ->
  glob (star :: q ++ star :: m) cp -> glob (star :: m) s.
Proof.
  intros [_ Es El Hq Ec] (v & w & E & Hg)%glob_star_iff.
  apply glob_app in Hg as (u2 & w' & -> & Hl & Hg); [|done].
  assert (w' = drop (S (length v)) s) as ->; [|by rewrite <- (take_drop (S (length v)) s); apply star_prefix].
  assert (w' = drop (S (length v + length u2)) start) as ->.
  { rewrite <- Nat.add_1_l, <- drop_drop, <- Ec, E. rewrite app_assoc, drop_app_exact; [done|]. by rewrite length_app. }
  subst start. rewrite drop_app_ge by lia. f_equal. lia.
Qed.

Lemma backtrack_spec M fuel : forall start s m mp cp q u, rest start s m mp cp q u -> no_nul start -> no_nul mp ->
  (length mp <= M)%nat -> (length s <= S (length cp))%nat -> (0 < fuel)%nat ->
  (s <> [] -> (S (length cp * S M + length m) < fuel)%nat) ->
  exists b, backtrack fuel s m (Some (mp, cp)) = Some b /\ (b = true <-> glob m s \/ glob (star :: mp) cp).
Proof.
  induction fuel as [|fuel IH]; intros start s m mp cp q u Hr Hst Hmp HM Hs Hpos Hf; [lia|].
  pose proof Hr as [-> -> El Hq ->]. rename Hst into Hst'. pose proof Hst' as [_ Hst]%Forall_app. pose proof Hmp as [_ Hm]%Forall_app.
  assert (no_nul (drop 1 (u ++ s))) as Hcp by by apply no_nul_drop.
  cbn [backtrack]. destruct s as [|c s].
  { cbn. exists (finish m). split; [done|]. rewrite (finish_iff m Hm). split; [auto|]. intros [H|H]; [done|].
    apply solid_stars. apply glob_length in H. rewrite solid_cons, solid_app in H. cbn [decide] in H.
    destruct (decide (star = star)); [|done]. rewrite length_drop, app_nil_r in H.
    rewrite (solid_all q Hq) in H. lia. }
  specialize (Hf ltac:(done)). rewrite length_drop, length_app in Hf, Hs. rewrite length_app in HM. cbn [length] in Hf, Hs.
  apply Forall_cons in Hst as [Hc Hs']. change (cchar (c :: s)) with c.
  rewrite (proj2 (Z.eqb_neq c 0)) by done.
  assert (forall m1 b, (b = true <-> glob m1 (drop 1 (u ++ c :: s)) \/ glob (star :: m1) (drop 1 (drop 1 (u ++ c :: s))))
    -> (b = true <-> glob (star :: m1) (drop 1 (u ++ c :: s)))) as Hback by (intros m1 b; by rewrite <- star_drop).
  assert (forall m1, m1 = q ++ m -> ~ glob m (c :: s) ->
    exists b, backtrack fuel (drop 1 (u ++ c :: s)) m1 (Some (m1, drop 1 (drop 1 (u ++ c :: s)))) = Some b
      /\ (b = true <-> glob m (c :: s) \/ glob (star :: m1) (drop 1 (u ++ c :: s)))) as Hgo.
  { intros m1 -> Hno.
    destruct (IH (drop 1 (u ++ c :: s)) (drop 1 (u ++ c :: s)) (q ++ m) (q ++ m) (drop 1 (drop 1 (u ++ c :: s))) [] [])
      as (b & E & Hb); try done.
    - by rewrite length_app.
    - rewrite !length_drop. lia.
    - lia.
    - rewrite !length_drop, !length_app. cbn [length]. intros Hne.
      assert (2 <= length u + S (length s))%nat.
      { destruct u as [|c' u]; [|cbn; lia]. destruct s; [done|cbn; lia]. }
      nia.
    - exists b. split; [done|]. rewrite (Hback _ _ Hb). split; [auto|]. by intros [H|H]. }
  destruct m as [|d m].
  - change (cchar []) with 0. change (0 =? star) with false. rewrite (proj2 (Z.eqb_neq 0 c)) by done. apply (Hgo _ eq_refl). by inversion 1.
  - change (cchar (d :: m)) with d. change (drop 1 (d :: m)) with m. change (drop 1 (c :: s)) with s.
    destruct (Z.eqb_spec d star) as [->|Hd].
    + apply Forall_cons in Hm as [_ Hm]. destruct m as [|e m].
      * cbn. exists true. split; [done|]. split; [|done]. intros _. left. rewrite <- (app_nil_r (c :: s)). by apply star_prefix; auto.
      * change (cchar (e :: m)) with e. apply Forall_cons in Hm as [He Hm]. rewrite (proj2 (Z.eqb_neq e 0)) by done.
        destruct (IH (c :: s) (c :: s) (e :: m) (e :: m) s [] []) as (b & E & Hb); try done.
        -- by constructor.
        -- by constructor.
        -- cbn [length] in *. lia.
        -- lia.
        -- intros _. cbn [length] in *. nia.
        -- exists b. split; [done|]. rewrite Hb. change s with (drop 1 (c :: s)) at 2. rewrite <- star_drop.
           split; [auto|]. intros [H|H]; [done|]. by eapply greedy.
    + destruct ((d =? c) || (d =? any)) eqn:Ef.
      * destruct (IH (u ++ c :: s) s m (q ++ d :: m) (drop 1 (u ++ c :: s)) (q ++ [d]) (u ++ [c])) as (b & E & Hb); try done.
        -- split; [by rewrite <- app_assoc|by rewrite <- app_assoc|rewrite !length_app; cbn; lia| |done].
           apply Forall_app. split; [done|]. by apply Forall_singleton.
        -- by rewrite length_app.
        -- rewrite length_drop, length_app. cbn [length]. lia.
        -- lia.
        -- intros _. rewrite length_drop, length_app. cbn [length] in *. lia.
        -- exists b. split; [done|]. rewrite Hb, glob_step by done. unfold fits. zbool.
           apply orb_true_iff in Ef as [E1|E1]; apply Z.eqb_eq in E1; subst; tauto.
      * apply (Hgo _ eq_refl). rewrite glob_step by done. unfold fits. zbool. tauto.
Qed.

Lemma leading_spec s : forall m, no_nul s -> no_nul m ->
  match leading s m with
  | None => ~ glob m s
  | Some (s', m') =>
      (glob m s <-> glob m' s') /\ no_nul s' /\ no_nul m' /\ (length s' <= length s)%nat /\ (length m' <= length m)%nat
      /\ (s' = [] \/ cchar m' = star)
  end.
Proof.
  induction s as [|c s IH]; intros m Hs Hm; cbn [leading]; [by auto 10|].
  pose proof Hs as [Hc Hs']%Forall_cons. rewrite (proj2 (Z.eqb_neq c 0)) by done. cbn [orb].
  destruct (Z.eqb_spec (cchar m) star) as [E|Hstar]; [by auto 10|].
  destruct m as [|d m].
  { change (cchar []) with 0. rewrite (proj2 (Z.eqb_neq 0 c)) by done. by inversion 1. }
  change (cchar (d :: m)) with d in *. change (drop 1 (d :: m)) with m. pose proof Hm as [Hd Hm']%Forall_cons.
  destruct (negb (d =? c) && negb (d =? any)) eqn:Ef.
  - rewrite glob_step by done. unfold fits. zbool. tauto.
  - specialize (IH m Hs' Hm'). destruct (leading s m) as [[s' m']|].
    + destruct IH as (Hg & H1 & H2 & H3 & H4 & H5). cbn [length]. split_and!; try done; try lia.
      rewrite glob_step, Hg by done. apply andb_false_iff in Ef.
      rewrite !negb_false_iff, !Z.eqb_eq in Ef. unfold fits. tauto.
    + rewrite glob_step by done. tauto.
Qed.

Lemma wildcard_spec text pattern : exists b, wildcardMatch text pattern = Some b
  /\ (b = true <-> glob (c_str pattern) (c_str text)).
Proof.
  unfold wildcardMatch. pose proof (c_str_no_nul text) as Hs. pose proof (c_str_no_nul pattern) as Hm.
  generalize dependent (c_str pattern). generalize dependent (c_str text). intros s Hs m Hm.
  pose proof (leading_spec s m Hs Hm) as Hl. destruct (leading s m) as [[s' m']|]; [|by exists false].
  destruct Hl as (Hg & Hs' & Hm' & Ls & Lm & He). unfold fuel_for. setoid_rewrite Hg.
  destruct ((S (S (length s)) * S (length m))%nat) as [|fuel] eqn:Ef; [lia|]. cbn [backtrack].
  destruct s' as [|c s'].
  { exists (finish m'). split; [done|by apply finish_iff]. }
  destruct He as [|He]; [done|]. pose proof Hs' as [Hc _]%Forall_cons.
  change (cchar (c :: s')) with c. rewrite (proj2 (Z.eqb_neq c 0)), He by done. rewrite Z.eqb_refl.
  destruct m' as [|d m']; [done|]. change (cchar (d :: m')) with d in He. subst d. change (drop 1 (star :: m')) with m'.
  pose proof Hm' as [_ Hm2]%Forall_cons. destruct m' as [|d m'].
  { exists true. split; [done|]. split; [|done]. intros _. rewrite <- (app_nil_r (c :: s')). apply star_prefix; auto. }
  change (cchar (d :: m')) with d. pose proof Hm2 as [Hd _]%Forall_cons. rewrite (proj2 (Z.eqb_neq d 0)) by done.
  destruct (backtrack_spec (length (d :: m')) fuel (c :: s') (c :: s') (d :: m') (d :: m') s' [] []) as (b & E & Hb); try done.
  - cbn [length] in *. nia.
  - intros _. cbn [length] in *. nia.
  - exists b. split; [done|]. rewrite Hb. change s' with (drop 1 (c :: s')) at 2. by rewrite <- star_drop.
Qed.

End GlobFacts.

(** ** Reading the lines *)

Module Lines.

Definition is_eol (c : Z) : bool := (c =? 13) || (c =? 10).

Fixpoint skip_eols (l : bytes) : bytes :=
  match l with
  | c :: l' => if is_eol c then skip_eols l' else l
  | [] => []
  end.

(** Up to the delimiter. *)
Fixpoint line (l : bytes) : bytes :=
  match l with
  | c :: l => if is_eol c then [] else c :: line l
  | [] => []
  end.

(** How far the pointer [whitespace] gets: over the leading white space. *)
Fixpoint whitespace (l : bytes) : nat :=
  match l with
  | c :: l => if CLib.is_space c then S (whitespace l) else 0
  | [] => 0
  end.

Fixpoint lines_loop (fuel : nat) (current : bytes) : option (list bytes) :=
  match current with
  | [] => Some []
  | _ =>
      match fuel with
      | O => None
      | S fuel =>
          let l := line current in
          destination ← lines_loop fuel (skip_eols (drop (length l) current));
          Some (if (length l =? whitespace l)%nat then destination else l :: destination)
      end
  end.

Definition BOM : bytes := [239; 187; 191].

(** [readLines] of a string. *)
Definition readLines (input : bytes) : option (list bytes) :=
  let current := if bool_decide (take 3 input = BOM) then drop 3 input else input in
  lines_loop (length current) (skip_eols current).

(** Of a file; the inner option is whether it could be read. *)
Definition readLines_file (os : OSFile) (fa : FileAccess) : option (option (list bytes)) * FileAccess :=
  let s := FileInputStreamOps.open fa in
  let length := u32 (FileInputStreamOps.size s) in
  match FileInputStreamOps.read os s length with
  | (Some input, s) => (Some <$> readLines input, fileAccess s)
  | (None, s) => (Some None, fileAccess s)
  end.

End Lines.

(** ** Rules *)

Inductive nodetype_t :=
  | TYPE_NESTED_MOUNT | TYPE_SYMLINK | TYPE_DONOTSYNC | TYPE_SPECIAL | TYPE_UNKNOWN
  | FILENODE | FOLDERNODE | ROOTNODE | VAULTNODE | RUBBISHNODE.

#[export] Instance nodetype_eq_dec : EqDecision nodetype_t.
Proof. solve_decision. Defined.

Inductive ExclusionState := ES_EXCLUDED | ES_INCLUDED | ES_UNKNOWN | ES_UNMATCHED.

#[export] Instance exclusion_eq_dec : EqDecision ExclusionState.
Proof. solve_decision. Defined.

Inductive FilterLoadResult := FLR_DELETED | FLR_FAILED | FLR_SUCCESS.

(** [std::regex]: the matcher of a pattern, extended grammar, with or without
    case; [None] if it throws. *)
Class Regex := regex_compile : bytes -> bool -> option (bytes -> bool).

(** [utf8proc_NFC] *)
Class Normalization := utf8proc_NFC : bytes -> option bytes.

Record SizeFilter := MkSizeFilter { lower : Z; upper : Z }.

Inductive Target := AllTarget | DirectoryTarget | FileTarget | SymlinkTarget.

Inductive Matcher :=
  | GlobMatcher (mPattern : bytes) (mCaseSensitive : bool)
  | RegexMatcher (mRegexp : bytes -> bool).

(** A name or a path filter. *)
Record StringFilter := MkStringFilter {
  byPath : bool;
  mMatcher : Matcher;
  mTarget : Target;
  mInclusion : bool;
  mInheritable : bool
}.

Record FilterChain := MkFilterChain {
  mFingerprint : FileFingerprint;
  mLoadSucceeded : bool;
  mSyncThisMegaignore : bool;
  mStringFilters : list StringFilter;
  mSizeFilter : option SizeFilter
}.

Module Rules.

(** *** Matching *)

Definition new_SizeFilter : SizeFilter := MkSizeFilter 0 (2 ^ 64 - 1).

Definition size_match (f : SizeFilter) (s : Z) : bool :=
  if upper f <? lower f then (s <? upper f) || (lower f <? s) else (lower f <=? s) && (s <=? upper f).

Definition applicable (t : Target) (type : nodetype_t) : bool :=
  match t with
  | AllTarget => true
  | DirectoryTarget => bool_decide (type = FOLDERNODE)
  | FileTarget => bool_decide (type = FILENODE)
  | SymlinkTarget => bool_decide (type = TYPE_SYMLINK)
  end.

(** [std::toupper] in the C locale. *)
Definition toupper (c : Z) : Z := if (chr "a" <=? c) && (c <=? chr "z") then c - 32 else c.
Definition tolower (c : Z) : Z := if (chr "A" <=? c) && (c <=? chr "Z") then c + 32 else c.
Definition toUpper (text : bytes) : bytes := toupper <$> text.

Definition new_GlobMatcher (pattern : bytes) (caseSensitive : bool) : Matcher :=
  GlobMatcher (if caseSensitive then pattern else toUpper pattern) caseSensitive.

(** The outer option is the fuel of [wildcardMatch]. *)
Definition matcher_match (m : Matcher) (s : bytes) : option bool :=
  match m with
  | GlobMatcher pattern caseSensitive => Glob.wildcardMatch (if caseSensitive then s else toUpper s) pattern
  | RegexMatcher r => Some (r s)
  end.

(** A leaf name with a relative path. *)
Abbreviation RemotePathPair := (bytes * bytes)%type.

Definition filter_match (f : StringFilter) (p : RemotePathPair) : option bool :=
  matcher_match (mMatcher f) (if byPath f then p.2 else p.1).

(** The filters from the last one on. *)
Fixpoint first_match (fs : list StringFilter) (p : RemotePathPair) (type : nodetype_t) (onlyInheritable : bool)
    : option ExclusionState :=
  match fs with
  | [] => Some ES_UNMATCHED
  | f :: fs =>
      if onlyInheritable && negb (mInheritable f) then first_match fs p type onlyInheritable
      else
        matched ← (if applicable (mTarget f) type then filter_match f p else Some false);
        if (matched : bool) then Some (if mInclusion f then ES_INCLUDED else ES_EXCLUDED)
        else first_match fs p type onlyInheritable
  end.

Definition chain_match (fc : FilterChain) (p : RemotePathPair) (type : nodetype_t) (onlyInheritable : bool)
    : option ExclusionState :=
  if mLoadSucceeded fc then first_match (reverse (mStringFilters fc)) p type onlyInheritable else Some ES_UNKNOWN.

Definition chain_match_size (fc : FilterChain) (s : Z) : ExclusionState :=
  if mLoadSucceeded fc then
    match mSizeFilter fc with
    | None => ES_UNMATCHED
    | Some f => if size_match f (u64 s) then ES_INCLUDED else ES_EXCLUDED
    end
  else ES_UNKNOWN.

(** *** Parsing *)

(** [std::getline] with a delimiter that is found. *)
Fixpoint getline (delim : Z) (l : bytes) : option (bytes * bytes) :=
  match l with
  | [] => None
  | c :: l => if c =? delim then Some ([], l) else '(d, r) ← getline delim l; Some (c :: d, r)
  end.

(** [istream >> limit] *)
Definition extract (l : bytes) : option (Z * bytes) :=
  let v := CLib.digits 10 l 0 in if v <? 2 ^ 64 then Some (v, CLib.skip_digits l) else None.

Definition unit_shift (c : Z) : Z :=
  let c := tolower c in
  if c =? chr "k" then 10 else if c =? chr "m" then 20 else if c =? chr "g" then 30 else if c =? chr "t" then 40 else 0.

(** The limit with its unit. *)
Definition parse_limit (l : bytes) : option Z :=
  let l := CLib.skip_spaces l in
  if negb (CLib.is_digit (cchar l)) then None
  else
    '(limit, rest) ← extract l;
    match rest with
    | [] => Some limit
    | c :: rest =>
        let shift := unit_shift c in
        if shift =? 0 then None
        else if negb (bool_decide (CLib.skip_spaces rest = [])) then None
        else
          let temp := u64 (Z.shiftl limit shift) in
          if negb (limit =? Z.shiftr temp shift) then None else Some temp
    end.

(** [add] of a size filter; [None] is an error. *)
Definition add_size (text : bytes) (filter : option SizeFilter) : option SizeFilter :=
  '(directive, rest) ← getline (chr ":") text;
  let larger := bool_decide (directive = str "exclude-larger") in
  if negb larger && negb (bool_decide (directive = str "exclude-smaller")) then None
  else
    limit ← parse_limit rest;
    let f := default new_SizeFilter filter in
    let f := if larger then MkSizeFilter (lower f) limit else MkSizeFilter limit (upper f) in
    if lower f =? upper f then None else Some f.

Inductive FilterType := FT_NAME | FT_PATH | FT_DEFAULT_BY_CONTENT.
Inductive MatchStrategy := MS_GLOB | MS_REGEXP.

Definition parse_class (m : bytes) : option (bool * bytes) :=
  let c := cchar m in
  if c =? chr "+" then Some (true, drop 1 m) else if c =? chr "-" then Some (false, drop 1 m) else None.

Definition parse_target (m : bytes) : Target * bytes :=
  let c := cchar m in
  if c =? chr "a" then (AllTarget, drop 1 m)
  else if c =? chr "d" then (DirectoryTarget, drop 1 m)
  else if c =? chr "f" then (FileTarget, drop 1 m)
  else if c =? chr "s" then (SymlinkTarget, drop 1 m)
  else (AllTarget, m).

(** The type and whether the filter is inherited. *)
Definition parse_type (m : bytes) : FilterType * bool * bytes :=
  let c := cchar m in
  if c =? chr "N" then (FT_NAME, false, drop 1 m)
  else if c =? chr "n" then (FT_NAME, true, drop 1 m)
  else if c =? chr "p" then (FT_PATH, true, drop 1 m)
  else (FT_DEFAULT_BY_CONTENT, true, m).

Definition parse_strategy (m : bytes) : MatchStrategy * bool * bytes :=
  let c := cchar m in
  if c =? chr "G" then (MS_GLOB, true, drop 1 m)
  else if c =? chr "g" then (MS_GLOB, false, drop 1 m)
  else if c =? chr "R" then (MS_REGEXP, true, drop 1 m)
  else if c =? chr "r" then (MS_REGEXP, false, drop 1 m)
  else (MS_GLOB, false, m).

(** Without trailing white space. *)
Definition trim (l : bytes) : bytes := reverse (CLib.skip_spaces (reverse l)).

Definition SYNC_DIRECTIVE : bytes := str "sync:.megaignore".

(** [strchr] *)
Definition has_char (c : Z) (l : bytes) : bool := JSON.is_any c (c_str l).

(** [add] of a string filter: the flag of the ignore file itself, or a filter. *)
Definition add_string `{Regex} (text : bytes) : option (bool + StringFilter) :=
  '(inclusion, m) ← parse_class text;
  if bool_decide (c_str m = SYNC_DIRECTIVE) then Some (inl inclusion)
  else
    let '(target, m) := parse_target m in
    let '(type, inheritable, m) := parse_type m in
    let '(strategy, caseSensitive, m) := parse_strategy m in
    if negb (cchar m =? chr ":") then None
    else
      let m := drop 1 m in
      let byPath := match type with
                    | FT_NAME => false
                    | FT_PATH => true
                    | FT_DEFAULT_BY_CONTENT => has_char (chr "/") m
                    end in
      let pattern := trim m in
      matcher ← match strategy with
                | MS_GLOB => Some (new_GlobMatcher pattern caseSensitive)
                | MS_REGEXP => RegexMatcher <$> regex_compile pattern caseSensitive
                end;
      Some (inr (MkStringFilter byPath matcher target inclusion inheritable)).

(** *** Loading *)

(** [LocalPath::utf8_normalize]: the parts between NULs; empty on an error. *)
Fixpoint normalize_parts `{Normalization} (l part : bytes) : option bytes :=
  let flush := match part with [] => Some [] | _ => c_str <$> utf8proc_NFC part end in
  match l with
  | [] => flush
  | c :: l =>
      if c =? 0 then p ← flush; r ← normalize_parts l []; Some (p ++ 0 :: r)
      else normalize_parts l (part ++ [c])
  end.
Definition utf8_normalize `{Normalization} (l : bytes) : bytes := default [] (normalize_parts l []).

(** The loop of [load]: the filters, unless there is an error, and the flag,
    which is a member of the chain. *)
Fixpoint load_lines `{Regex, Normalization} (lines : list bytes) (strings : list StringFilter) (size : option SizeFilter)
    (sync : bool) : option (list StringFilter * option SizeFilter) * bool :=
  match lines with
  | [] => (Some (strings, size), sync)
  | line :: lines =>
      let l := utf8_normalize line in
      match l with
      | [] => (None, sync)
      | c :: _ =>
          if c =? chr "#" then load_lines lines strings size sync
          else if c =? chr "e" then
            match add_size l size with
            | Some f => load_lines lines strings (Some f) sync
            | None => (None, sync)
            end
          else
            match add_string l with
            | Some (inl sync) => load_lines lines strings size sync
            | Some (inr f) => load_lines lines (strings ++ [f]) size sync
            | None => (None, sync)
            end
      end
  end.

Definition new_FilterChain : FilterChain := MkFilterChain FP.init false false [] None.

(** [clear] *)
Definition clear (fc : FilterChain) : FilterChain :=
  MkFilterChain FP.init (mLoadSucceeded fc) (mSyncThisMegaignore fc) [] None.

Definition load_text `{Regex, Normalization} (lines : list bytes) (fc : FilterChain) : FilterLoadResult * FilterChain :=
  match load_lines lines [] None (mSyncThisMegaignore fc) with
  | (Some (strings, size), sync) =>
      (FLR_SUCCESS, MkFilterChain (mFingerprint fc) (mLoadSucceeded fc) sync strings size)
  | (None, sync) => (FLR_FAILED, MkFilterChain (mFingerprint fc) (mLoadSucceeded fc) sync (mStringFilters fc) (mSizeFilter fc))
  end.

(** [load] of an open file; the option is the fuel of [readLines]. *)
Definition load_file `{Regex, Normalization} (os : OSFile) (fa : FileAccess) (fc : FilterChain)
    : option (FilterLoadResult * FilterChain * FileAccess) :=
  let '(lines, fa) := Lines.readLines_file os fa in
  lines ← lines;
  Some (match lines with
        | None => (FLR_FAILED, fc, fa)
        | Some lines => let '(r, fc) := load_text lines fc in (r, fc, fa)
        end).

(** [load] of a path: [opened] is the file if it could be opened and is one. *)
Definition load `{Regex, Normalization, CRC32} (os : OSFile) (opened : option FileAccess) (fc : FilterChain)
    : option (FilterLoadResult * FilterChain) :=
  match opened with
  | None => Some (FLR_DELETED, fc)
  | Some fa =>
      '(result, fc, fa) ← load_file os fa fc;
      Some (match result with
            | FLR_SUCCESS =>
                let '(changed, fp, _) := FP.genfingerprint_file false os (mFingerprint fc) fa false in
                (if (changed : bool) then FLR_SUCCESS else FLR_FAILED,
                 MkFilterChain fp (mLoadSucceeded fc) (mSyncThisMegaignore fc) (mStringFilters fc) (mSizeFilter fc))
            | _ => (result, fc)
            end)
  end.

End Rules.

(** ** The default rules *)

Record DefaultFilterChain := MkDefaultFilterChain {
  mExcludedNames : list bytes;
  mLowerLimit : Z;
  mUpperLimit : Z
}.

Module Defaults.

Definition mPredefinedNameExclusions : list bytes :=
  [str "Thumbs.db"; str "desktop.ini"; str "~*"; str ".*"; str "*~.*"; str "*.crdownload";
   str "*.sb-????????-??????"; str "*.tmp"].

(** The constructor, [lowerLimit], [upperLimit] and [reset]. *)
Definition new_DefaultFilterChain : DefaultFilterChain := MkDefaultFilterChain mPredefinedNameExclusions 0 0.
Definition set_lowerLimit (v : Z) (d : DefaultFilterChain) := MkDefaultFilterChain (mExcludedNames d) v (mUpperLimit d).
Definition set_upperLimit (v : Z) (d : DefaultFilterChain) := MkDefaultFilterChain (mExcludedNames d) (mLowerLimit d) v.

Definition NL : bytes := [10].

(** [generate]; [paths] are the applicable paths in remote form. *)
Definition generate (d : DefaultFilterChain) (paths : list bytes) (includeBOM setSyncIgnoreFileFlag : bool) : bytes :=
  (if includeBOM then Lines.BOM else [])
  ++ (if setSyncIgnoreFileFlag then str "+sync:.megaignore" ++ NL else [])
  ++ (if mLowerLimit d =? 0 then [] else str "exclude-smaller:" ++ CLib.print_u64 (mLowerLimit d) ++ NL)
  ++ (if mUpperLimit d =? 0 then [] else str "exclude-larger:" ++ CLib.print_u64 (mUpperLimit d) ++ NL)
  ++ mjoin ((fun name => str "-:" ++ name ++ NL) <$> mExcludedNames d)
  ++ mjoin ((fun path => str "-p:" ++ path ++ NL) <$> paths).

End Defaults.

(** ** Paths and the folders of a sync *)

(** [RemotePath]; an index into the path is what follows it. *)
Module RemotePath.

Definition beginsWithSeparator (p : bytes) : bool := cchar p =? chr "/".
Definition endsInSeparator (p : bytes) : bool := match last p with Some c => c =? chr "/" | None => false end.

Definition appendWithSeparator (p component : bytes) (always : bool) : bytes :=
  if (always || negb (bool_decide (p = []))) && negb (endsInSeparator p)
     && negb (bool_decide (component = []) || beginsWithSeparator component)
  then p ++ chr "/" :: component else p ++ component.

Definition prependWithSeparator (p component : bytes) : bytes :=
  if negb (beginsWithSeparator p) && negb (endsInSeparator component)
  then component ++ chr "/" :: p else component ++ p.

Fixpoint skip_separators (l : bytes) : bytes :=
  match l with
  | c :: l' => if c =? chr "/" then skip_separators l' else l
  | [] => []
  end.

Fixpoint until_separator (l : bytes) : bytes * bytes :=
  match l with
  | [] => ([], [])
  | c :: l' => if c =? chr "/" then ([], l) else let '(a, b) := until_separator l' in (c :: a, b)
  end.

(** The component and the new index; [None] at the end. *)
Definition nextPathComponent (index : bytes) : option (bytes * bytes) :=
  match skip_separators index with
  | [] => None
  | l => Some (until_separator l)
  end.

Definition hasNextPathComponent (index : bytes) : bool := negb (bool_decide (index = [])).

End RemotePath.

(** A folder of the sync's tree; a folder is given with its parents. *)
Record LocalNode := MkLocalNode {
  toName_of_localname : bytes;
  mExclusionState : ExclusionState;
  filterChain : option FilterChain;
  mWaitingForIgnoreFileLoad : bool
}.

Module Exclusion.
Import Rules.

Definition IGNORE_FILE_NAME : bytes := str ".megaignore".

(** [calcExcluded] for names and paths: [here] at the folder itself. *)
Fixpoint calcExcluded (nodes : list LocalNode) (here : bool) (namePath : RemotePathPair) (type : nodetype_t)
    (inherited : bool) : option ExclusionState :=
  match nodes with
  | [] => Some ES_INCLUDED
  | node :: nodes =>
      let up := RemotePath.prependWithSeparator namePath.2 (toName_of_localname node) in
      match filterChain node with
      | None => calcExcluded nodes false (namePath.1, up) type inherited
      | Some fc =>
          let inherited := inherited || negb here in
          result ← chain_match fc namePath type inherited;
          if bool_decide (result = ES_UNMATCHED) then calcExcluded nodes false (namePath.1, up) type inherited
          else Some result
      end
  end.

(** For sizes. *)
Fixpoint calc_size (nodes : list LocalNode) (size : Z) : ExclusionState :=
  match nodes with
  | [] => ES_INCLUDED
  | node :: nodes =>
      match filterChain node with
      | None => calc_size nodes size
      | Some fc =>
          let result := chain_match_size fc size in
          if bool_decide (result = ES_UNMATCHED) then calc_size nodes size else result
      end
  end.
Definition calcExcluded_size (nodes : list LocalNode) (size : Z) : ExclusionState :=
  if size <? 0 then ES_INCLUDED else calc_size nodes size.

(** The loop over the components: an exclusion, or the last name with the path. *)
Fixpoint components (fuel : nat) (nodes : list LocalNode) (index : bytes) (namePath : RemotePathPair)
    : option (option RemotePathPair) :=
  match fuel with
  | O => None
  | S fuel =>
      match RemotePath.nextPathComponent index with
      | None => Some (Some namePath)
      | Some (component, index) =>
          let namePath := (component, RemotePath.appendWithSeparator namePath.2 component false) in
          if negb (RemotePath.hasNextPathComponent index) then Some (Some namePath)
          else
            r ← calcExcluded nodes true namePath FOLDERNODE false;
            if bool_decide (r = ES_EXCLUDED) then Some None else components fuel nodes index namePath
      end
  end.

(** What holds before any rule is looked at: the state of an item that does not
    depend on the rules. *)
Definition early (nodes : list LocalNode) (path : bytes) (type : nodetype_t) : option ExclusionState :=
  match nodes with
  | [] => None
  | node :: _ =>
      if negb (bool_decide (mExclusionState node = ES_INCLUDED)) then Some (mExclusionState node)
      else
        let waiting := if mWaitingForIgnoreFileLoad node then Some ES_UNKNOWN else None in
        match filterChain node with
        | None => waiting
        | Some fc =>
            if bool_decide (type = FILENODE) && bool_decide (path = IGNORE_FILE_NAME) then
              Some (if negb (isvalid (mFingerprint fc)) then ES_INCLUDED
                    else if negb (mLoadSucceeded fc) then ES_EXCLUDED
                    else if mSyncThisMegaignore fc then ES_INCLUDED else ES_EXCLUDED)
            else if negb (mLoadSucceeded fc) then Some ES_UNKNOWN else waiting
        end
  end.

(** [exclusionState] of an item below a folder; [None] is the end of the fuel. *)
Definition exclusionState (nodes : list LocalNode) (path : bytes) (type : nodetype_t) (size : Z) : option ExclusionState :=
  match early nodes path type with
  | Some r => Some r
  | None =>
      namePath ← components (S (length path)) nodes path ([], []);
      match namePath with
      | None => Some ES_EXCLUDED
      | Some namePath =>
          if bool_decide (type = FILENODE) && bool_decide (namePath.1 = IGNORE_FILE_NAME) then Some ES_INCLUDED
          else if bool_decide (type = FILENODE) && bool_decide (calcExcluded_size nodes size = ES_EXCLUDED) then Some ES_EXCLUDED
          else calcExcluded nodes true namePath type false
      end
  end.

End Exclusion.

(** ** Lemmas *)

Module LineFacts.
Import Lines.

(** The reference: a line ends at every single delimiter. *)
Fixpoint split (l : bytes) : list bytes :=
  match l with
  | [] => [[]]
  | c :: l =>
      if is_eol c then [] :: split l
      else match split l with x :: ls => (c :: x) :: ls | [] => [[c]] end
  end.

Definition blank (l : bytes) : bool := forallb CLib.is_space l.

Definition solid_lines (l : bytes) : list bytes := filter (fun x => blank x = false) (split l).

Lemma blank_whitespace l : (length l =? whitespace l)%nat = blank l.
Proof.
  induction l as [|c l IH]; [done|]. cbn [length whitespace blank forallb]. destruct (CLib.is_space c); [|done].
  cbn [andb Nat.eqb]. exact IH.
Qed.

Lemma split_line l : split l = line l :: match drop (length (line l)) l with [] => [] | _ :: l' => split l' end.
Proof.
  induction l as [|c l IH]; [done|]. cbn [split line]. destruct (is_eol c) eqn:Ec; [done|].
  rewrite IH. cbn [length drop]. done.
Qed.

Lemma solid_skip l : solid_lines (skip_eols l) = solid_lines l.
Proof.
  induction l as [|c l IH]; [done|]. cbn [skip_eols]. destruct (is_eol c) eqn:Ec; [|done].
  rewrite IH. unfold solid_lines. cbn [split]. rewrite Ec. by rewrite filter_cons_False.
Qed.

Lemma line_skip l : skip_eols l = l -> l <> [] -> (0 < length (line l))%nat.
Proof.
  destruct l as [|c l]; [done|]. cbn [skip_eols line]. destruct (is_eol c); [|cbn; lia].
  intros E. exfalso. apply (f_equal length) in E. cbn [length] in E.
  assert (forall l, (length (skip_eols l) <= length l)%nat) as Hle.
  { clear. induction l as [|c l IH]; cbn [skip_eols]; [done|]. destruct (is_eol c); cbn [length]; lia. }
  pose proof (Hle l). lia.
Qed.

Lemma line_stops l d r : drop (length (line l)) l = d :: r -> is_eol d = true.
Proof.
  induction l as [|c l IH]; [done|]. cbn [line]. destruct (is_eol c) eqn:Ec; [|apply IH].
  cbn. by intros [= -> ->].
Qed.

Lemma skip_skip l : skip_eols (skip_eols l) = skip_eols l.
Proof.
  induction l as [|c l IH]; [done|]. cbn [skip_eols]. destruct (is_eol c) eqn:Ec; [done|]. cbn [skip_eols]. by rewrite Ec.
Qed.

Lemma skip_length l : (length (skip_eols l) <= length l)%nat.
Proof. induction l as [|c l IH]; cbn [skip_eols]; [done|]. destruct (is_eol c); cbn [length]; lia. Qed.

Lemma lines_loop_spec fuel : forall l, skip_eols l = l -> (length l <= fuel)%nat ->
  lines_loop fuel l = Some (solid_lines l).
Proof.
  induction fuel as [|fuel IH]; intros l Hs Hl.
  { destruct l; [done|cbn in Hl; lia]. }
  destruct l as [|c l]; [done|]. set (s := c :: l) in *. pose proof (line_skip s Hs ltac:(done)) as Hp.
  change (lines_loop (S fuel) s) with
    (destination ← lines_loop fuel (skip_eols (drop (length (line s)) s));
     Some (if (length (line s) =? whitespace (line s))%nat then destination else line s :: destination)).
  rewrite IH; [|by rewrite skip_skip|pose proof (skip_length (drop (length (line s)) s)); rewrite length_drop in *; lia].
  cbn [mbind option_bind]. rewrite blank_whitespace, solid_skip. f_equal. unfold solid_lines at 3. rewrite split_line.
  assert (solid_lines (drop (length (line s)) s) = filter (fun x => blank x = false)
    match drop (length (line s)) s with [] => [] | _ :: l' => split l' end) as ->.
  { unfold solid_lines. destruct (drop (length (line s)) s) as [|d r] eqn:Ed; [done|].
    assert (is_eol d = true) as Hd.
    { by eapply line_stops. }
    cbn [split]. rewrite Hd. by rewrite filter_cons_False. }
  destruct (blank (line s)) eqn:Eb; [by rewrite filter_cons_False by (rewrite Eb; done)|by rewrite filter_cons_True].
Qed.

(** Lines that end with a newline. *)
Lemma solid_lines_app x l : Forall (fun c => is_eol c = false) x -> blank x = false ->
  solid_lines (x ++ 10 :: l) = x :: solid_lines l.
Proof.
  intros Hx Hb. unfold solid_lines. assert (split (x ++ 10 :: l) = x :: split l) as ->.
  { clear Hb. induction Hx as [|c x Hc Hx IH]; [done|]. cbn [app split]. rewrite Hc, IH. done. }
  by rewrite filter_cons_True.
Qed.

Lemma readLines_spec input :
  readLines input = Some (solid_lines (if bool_decide (take 3 input = BOM) then drop 3 input else input)).
Proof.
  unfold readLines. cbn zeta. rewrite <- solid_skip. apply lines_loop_spec; [apply skip_skip|apply skip_length].
Qed.

End LineFacts.

(** *** The syntax of a rule *)

Module RuleSyntax.
Import Rules.

Inductive TypeLetter := LocalName | SubtreeName | Path.

#[export] Instance type_letter_dec : EqDecision TypeLetter.
Proof. solve_decision. Defined.

(** A rule as it is documented: every letter may be left out. *)
Record Rule := MkRule {
  r_inclusion : bool;
  r_target : option Target;
  r_type : option TypeLetter;
  r_strategy : option (MatchStrategy * bool);
  r_pattern : bytes
}.

Definition target_letter (t : option Target) : bytes :=
  match t with
  | None => [] | Some AllTarget => [chr "a"] | Some DirectoryTarget => [chr "d"]
  | Some FileTarget => [chr "f"] | Some SymlinkTarget => [chr "s"]
  end.
Definition type_letter (t : option TypeLetter) : bytes :=
  match t with None => [] | Some LocalName => [chr "N"] | Some SubtreeName => [chr "n"] | Some Path => [chr "p"] end.
Definition strategy_letter (s : option (MatchStrategy * bool)) : bytes :=
  match s with
  | None => [] | Some (MS_GLOB, true) => [chr "G"] | Some (MS_GLOB, false) => [chr "g"]
  | Some (MS_REGEXP, true) => [chr "R"] | Some (MS_REGEXP, false) => [chr "r"]
  end.

Definition class_letter (b : bool) : Z := if b then chr "+" else chr "-".

Definition print (r : Rule) : bytes :=
  class_letter (r_inclusion r)
  :: target_letter (r_target r) ++ type_letter (r_type r) ++ strategy_letter (r_strategy r) ++ chr ":" :: r_pattern r.

(** The filter a rule stands for, unless its regular expression is malformed. *)
Definition meaning `{Regex} (r : Rule) : option StringFilter :=
  let byPath := match r_type r with
                | Some Path => true
                | Some _ => false
                | None => has_char (chr "/") (r_pattern r)
                end in
  let '(strategy, caseSensitive) := default (MS_GLOB, false) (r_strategy r) in
  matcher ← match strategy with
            | MS_GLOB => Some (new_GlobMatcher (r_pattern r) caseSensitive)
            | MS_REGEXP => RegexMatcher <$> regex_compile (r_pattern r) caseSensitive
            end;
  Some (MkStringFilter byPath matcher (default AllTarget (r_target r)) (r_inclusion r)
          (negb (bool_decide (r_type r = Some LocalName)))).

Definition spaces (l : bytes) : Prop := Forall (fun c => CLib.is_space c = true) l.
Definition trimmed (l : bytes) : Prop := trim l = l.

(** A line is a rule with white space behind it. *)
Definition reads (text : bytes) (r : Rule) : Prop :=
  exists ws, text = print r ++ ws /\ spaces ws /\ trimmed (r_pattern r).

(** A rule has to have a pattern. *)
Definition documented (r : Rule) : Prop := r_pattern r <> [].

End RuleSyntax.

Module RuleFacts.
Import Rules RuleSyntax.

Lemma skip_spaces_all l : spaces l -> CLib.skip_spaces l = [].
Proof. induction 1 as [|c l Hc Hl IH]; [done|]. cbn. by rewrite Hc. Qed.

Lemma skip_spaces_app ws l : spaces ws -> CLib.skip_spaces (ws ++ l) = CLib.skip_spaces l.
Proof. induction 1 as [|c ws Hc Hl IH]; [done|]. cbn. by rewrite Hc. Qed.

Lemma skip_spaces_split l : exists ws, spaces ws /\ l = ws ++ CLib.skip_spaces l.
Proof.
  induction l as [|c l (ws & Hw & IH)]; [by exists []; split; [constructor|]|]. cbn [CLib.skip_spaces].
  destruct (CLib.is_space c) eqn:Ec; [|by exists []; split; [constructor|]].
  exists (c :: ws). split; [by constructor|]. cbn. by rewrite <- IH.
Qed.

Lemma skip_spaces_idem l : CLib.skip_spaces (CLib.skip_spaces l) = CLib.skip_spaces l.
Proof.
  induction l as [|c l IH]; [done|]. cbn. destruct (CLib.is_space c) eqn:Ec; [done|]. cbn. by rewrite Ec.
Qed.

Lemma spaces_reverse l : spaces l -> spaces (reverse l).
Proof. unfold spaces. by rewrite !Forall_forall; setoid_rewrite elem_of_reverse. Qed.

Lemma trim_app p ws : spaces ws -> trim (p ++ ws) = trim p.
Proof. intros Hw. unfold trim. rewrite reverse_app, skip_spaces_app; [done|by apply spaces_reverse]. Qed.

Lemma trim_split m : exists ws, spaces ws /\ m = trim m ++ ws.
Proof.
  destruct (skip_spaces_split (reverse m)) as (ws & Hw & E). exists (reverse ws). split; [by apply spaces_reverse|].
  unfold trim. by rewrite <- reverse_app, <- E, reverse_involutive.
Qed.

Lemma trim_trimmed m : trimmed (trim m).
Proof. unfold trimmed, trim. by rewrite reverse_involutive, skip_spaces_idem. Qed.

Lemma is_any_app c l1 l2 : JSON.is_any c (l1 ++ l2) = JSON.is_any c l1 || JSON.is_any c l2.
Proof. unfold JSON.is_any. apply existsb_app. Qed.

Lemma has_char_spaces p ws : spaces ws -> has_char (chr "/") (p ++ ws) = has_char (chr "/") p.
Proof.
  intros Hw. unfold has_char. induction p as [|c p IH]; cbn [app c_str].
  - induction Hw as [|c ws Hc Hw IH]; [done|]. cbn [c_str]. destruct (c =? 0) eqn:E0; [done|].
    unfold JSON.is_any in *. cbn [existsb]. rewrite IH. destruct (47 =? c) eqn:E; [|done]. zbool. subst c. done.
  - destruct (c =? 0); [done|]. unfold JSON.is_any in *. cbn [existsb]. by rewrite IH.
Qed.

Lemma cchar_eq m c : cchar m = c -> c <> 0 -> m = c :: drop 1 m.
Proof. destruct m as [|d m]; cbn; [congruence|]. by intros ->. Qed.

Ltac letters :=
  repeat match goal with
  | |- context [if cchar ?m =? ?c then _ else _] =>
      let E := fresh "E" in destruct (cchar m =? c) eqn:E; [apply Z.eqb_eq in E; apply cchar_eq in E; [|done]|]
  end.

Lemma parse_target_spec m :
  exists o, m = target_letter o ++ (parse_target m).2 /\ (parse_target m).1 = default AllTarget o.
Proof.
  unfold parse_target. letters; [exists (Some AllTarget)|exists (Some DirectoryTarget)|exists (Some FileTarget)|
    exists (Some SymlinkTarget)|exists None]; by split.
Qed.

Lemma parse_type_spec m : exists o,
  m = type_letter o ++ (parse_type m).2
  /\ (parse_type m).1 = (match o with Some Path => FT_PATH | Some _ => FT_NAME | None => FT_DEFAULT_BY_CONTENT end,
        negb (bool_decide (o = Some LocalName))).
Proof.
  unfold parse_type. letters; [exists (Some LocalName)|exists (Some SubtreeName)|exists (Some Path)|exists None]; by split.
Qed.

Lemma parse_strategy_spec m : exists o,
  m = strategy_letter o ++ (parse_strategy m).2 /\ (parse_strategy m).1 = default (MS_GLOB, false) o.
Proof.
  unfold parse_strategy. letters; [exists (Some (MS_GLOB, true))|exists (Some (MS_GLOB, false))|
    exists (Some (MS_REGEXP, true))|exists (Some (MS_REGEXP, false))|exists None]; by split.
Qed.

Lemma parse_class_spec text i m : parse_class text = Some (i, m) -> text = class_letter i :: m.
Proof.
  unfold parse_class. destruct (Z.eqb_spec (cchar text) (chr "+")) as [E|_]; [|destruct (Z.eqb_spec (cchar text) (chr "-")) as [E|_]; [|done] ].
  all: intros [= <- <-]; by apply cchar_eq.
Qed.

Lemma parse_print r ws :
  let m := r_pattern r ++ ws in
  exists b m1 m2 m3,
    parse_class (print r ++ ws) = Some (r_inclusion r, m1) /\ c_str m1 <> SYNC_DIRECTIVE
    /\ parse_target m1 = (default AllTarget (r_target r), m2)
    /\ parse_type m2 = (match r_type r with Some Path => FT_PATH | Some _ => FT_NAME | None => FT_DEFAULT_BY_CONTENT end, b, m3)
    /\ b = negb (bool_decide (r_type r = Some LocalName))
    /\ parse_strategy m3 = (default (MS_GLOB, false) (r_strategy r), chr ":" :: m).
Proof.
  destruct r as [i t ty s p]. cbn zeta. unfold print. cbn [r_inclusion r_target r_type r_strategy r_pattern].
  eexists _, _, _, _. split_and!.
  - rewrite <- app_comm_cons. unfold parse_class. destruct i; reflexivity.
  - destruct t as [ [| | |]|], ty as [ [| |]|], s as [ [ [|] [|] ]|]; cbn; unfold SYNC_DIRECTIVE; discriminate.
  - instantiate (1 := type_letter ty ++ strategy_letter s ++ chr ":" :: p ++ ws).
    destruct t as [ [| | |]|]; destruct ty as [ [| |]|], s as [ [ [|] [|] ]|]; reflexivity.
  - instantiate (2 := negb (bool_decide (ty = Some LocalName))).
    instantiate (1 := strategy_letter s ++ chr ":" :: p ++ ws).
    destruct ty as [ [| |]|]; destruct s as [ [ [|] [|] ]|]; reflexivity.
  - done.
  - destruct s as [ [ [|] [|] ]|]; reflexivity.
Qed.

(** A line is read as one pattern only. *)
Lemma reads_pattern text r r' : reads text r -> reads text r' -> r_pattern r = r_pattern r'.
Proof.
  intros (ws & -> & Hw & Ht) (ws' & E & Hw' & Ht').
  destruct (parse_print r ws) as (b & m1 & m2 & m3 & E1 & _ & E2 & E3 & _ & E4).
  destruct (parse_print r' ws') as (b' & m1' & m2' & m3' & E1' & _ & E2' & E3' & _ & E4').
  rewrite <- E, E1 in E1'. injection E1' as _ <-. rewrite E2 in E2'. injection E2' as _ <-.
  rewrite E3 in E3'. injection E3' as _ _ <-. rewrite E4 in E4'. injection E4' as _ Em.
  unfold trimmed in *. by rewrite <- Ht, <- Ht', <- (trim_app _ ws), Em, trim_app.
Qed.

Lemma add_string_complete `{Regex} r ws f : spaces ws -> trimmed (r_pattern r) -> meaning r = Some f ->
  add_string (print r ++ ws) = Some (inr f).
Proof.
  intros Hw Ht Hm. destruct (parse_print r ws) as (b & m1 & m2 & m3 & E1 & Hd & E2 & E3 & -> & E4).
  unfold add_string. rewrite E1. cbn [mbind option_bind]. rewrite bool_decide_eq_false_2 by done.
  rewrite E2, E3, E4. unfold meaning in Hm. destruct (default (MS_GLOB, false) (r_strategy r)) as [st cs].
  change (cchar (chr ":" :: r_pattern r ++ ws)) with (chr ":"). rewrite Z.eqb_refl. cbn [negb].
  change (drop 1 (chr ":" :: r_pattern r ++ ws)) with (r_pattern r ++ ws).
  rewrite trim_app, has_char_spaces by done. unfold trimmed in Ht. rewrite Ht.
  destruct st; cbn [mbind option_bind] in Hm |- *.
  - injection Hm as <-. by destruct (r_type r) as [ [| |]|].
  - destruct (regex_compile (r_pattern r) cs); [|done]. cbn in Hm |- *. injection Hm as <-.
    by destruct (r_type r) as [ [| |]|].
Qed.

Lemma add_string_flag `{Regex} text b : add_string text = Some (inl b) ->
  exists m, text = class_letter b :: m /\ c_str m = SYNC_DIRECTIVE.
Proof.
  unfold add_string. destruct (parse_class text) as [[i m]|] eqn:E1; [|done]. cbn [mbind option_bind].
  case_bool_decide as Hd.
  - intros [= <-]. exists m. split; [by apply parse_class_spec|done].
  - destruct (parse_target m) as [t m2]. destruct (parse_type m2) as [[ty b'] m3]. destruct (parse_strategy m3) as [[st cs] m4].
    destruct (negb _); [done|]. destruct st; cbn; [done|]. by destruct (regex_compile _ cs).
Qed.

Lemma add_string_sound `{Regex} text f : add_string text = Some (inr f) ->
  exists r ws, text = print r ++ ws /\ spaces ws /\ trimmed (r_pattern r) /\ meaning r = Some f.
Proof.
  unfold add_string. destruct (parse_class text) as [[i m]|] eqn:E1; [|done]. cbn [mbind option_bind].
  case_bool_decide as Hd; [done|].
  destruct (parse_target_spec m) as (o1 & Em & Et). destruct (parse_target m) as [t m2]. cbn [fst snd] in Em, Et. subst t.
  destruct (parse_type_spec m2) as (o2 & Em2 & Ety). destruct (parse_type m2) as [[ty b] m3]. cbn [fst snd] in Em2, Ety.
  injection Ety as -> ->.
  destruct (parse_strategy_spec m3) as (o3 & Em3 & Es). destruct (parse_strategy m3) as [[st cs] m4]. cbn [fst snd] in Em3, Es.
  destruct (Z.eqb_spec (cchar m4) (chr ":")) as [E4|]; [|done]. cbn [negb]. apply cchar_eq in E4; [|done].
  set (p := drop 1 m4) in *. destruct (trim_split p) as (ws & Hw & Ep).
  intros Hf. exists (MkRule i o1 o2 o3 (trim p)), ws. split_and!.
  - unfold print. cbn [r_inclusion r_target r_type r_strategy r_pattern]. rewrite <- app_comm_cons, <- !app_assoc.
    rewrite (parse_class_spec _ _ _ E1), <- app_comm_cons, <- Ep, <- E4, <- Em3, <- Em2, <- Em. done.
  - done.
  - apply trim_trimmed.
  - unfold meaning. cbn [r_inclusion r_target r_type r_strategy r_pattern]. rewrite <- Es.
    assert (has_char (chr "/") (trim p) = has_char (chr "/") p) as -> by (by rewrite Ep at 2; rewrite has_char_spaces).
    destruct st; cbn [mbind option_bind] in Hf |- *.
    + injection Hf as <-. by destruct o2 as [ [| |]|].
    + destruct (regex_compile (trim p) cs); [|done]. cbn in Hf |- *. injection Hf as <-. by destruct o2 as [ [| |]|].
Qed.

End RuleFacts.

(** *** What a file says *)

Module LoadFacts.
Import Rules.

(** A line as a directive. *)
Inductive Directive :=
  | Comment
  | Limit (larger : bool) (limit : Z)
  | SyncFlag (b : bool)
  | AddFilter (f : StringFilter).

Definition size_directive (text : bytes) : option Directive :=
  '(directive, rest) ← getline (chr ":") text;
  let larger := bool_decide (directive = str "exclude-larger") in
  if negb larger && negb (bool_decide (directive = str "exclude-smaller")) then None
  else limit ← parse_limit rest; Some (Limit larger limit).

Definition directive `{Regex, Normalization} (line : bytes) : option Directive :=
  match utf8_normalize line with
  | [] => None
  | c :: l =>
      if c =? chr "#" then Some Comment
      else if c =? chr "e" then size_directive (c :: l)
      else match add_string (c :: l) with
           | Some (inl b) => Some (SyncFlag b)
           | Some (inr f) => Some (AddFilter f)
           | None => None
           end
  end.

Definition filters_of (ds : list Directive) : list StringFilter :=
  omap (fun d => match d with AddFilter f => Some f | _ => None end) ds.

Definition flag_of (ds : list Directive) (b : bool) : bool :=
  foldl (fun b d => match d with SyncFlag b => b | _ => b end) b ds.

(** The size filter, if no limit meets the other one. *)
Definition set_limit (larger : bool) (limit : Z) (size : option SizeFilter) : option SizeFilter :=
  let f := default new_SizeFilter size in
  let f := if larger then MkSizeFilter (lower f) limit else MkSizeFilter limit (upper f) in
  if lower f =? upper f then None else Some f.

Fixpoint limits_of (ds : list Directive) (size : option SizeFilter) : option (option SizeFilter) :=
  match ds with
  | [] => Some size
  | Limit larger limit :: ds => f ← set_limit larger limit size; limits_of ds (Some f)
  | _ :: ds => limits_of ds size
  end.

Definition size_ok (f : SizeFilter) : Prop :=
  0 <= lower f < 2 ^ 64 /\ 0 <= upper f < 2 ^ 64 /\ lower f <> upper f.

Lemma add_size_directive text size f :
  add_size text size = Some f <->
  exists larger limit, size_directive text = Some (Limit larger limit) /\ set_limit larger limit size = Some f.
Proof.
  unfold add_size, size_directive, set_limit. destruct (getline _ text) as [[d rest]|]; cbn [mbind option_bind].
  2: { split; [done|]. by intros (? & ? & ? & _). }
  destruct (negb _ && negb _).
  { split; [done|]. by intros (? & ? & ? & _). }
  destruct (parse_limit rest) as [limit|]; cbn [mbind option_bind].
  - split; [intros E; by eexists _, _|]. intros (larger & l & E & Hs). by injection E as <- <-.
  - split; [done|]. by intros (? & ? & ? & _).
Qed.

Lemma size_directive_limit text d : size_directive text = Some d -> exists larger n, d = Limit larger n.
Proof.
  unfold size_directive. destruct (getline _ _) as [[d' rest]|]; [|done]. cbn [mbind option_bind].
  destruct (negb _ && negb _); [done|]. destruct (parse_limit rest); [|done]. intros [= <-]. by eexists _, _.
Qed.

Lemma load_lines_spec `{Regex, Normalization} lines : forall strings size sync r,
  (load_lines lines strings size sync).1 = Some r <->
  exists ds size', mapM directive lines = Some ds /\ limits_of ds size = Some size' /\ r = (strings ++ filters_of ds, size').
Proof.
  induction lines as [|line lines IH]; intros strings size sync r.
  { cbn. split.
    - intros [= <-]. exists [], size. by rewrite app_nil_r.
    - intros (ds & size' & [= <-] & [= <-] & ->). by rewrite app_nil_r. }
  cbn [load_lines].
  change (mapM directive (line :: lines)) with (d ← directive line; ds ← mapM directive lines; Some (d :: ds)).
  set (rest := mapM directive lines) in *. unfold directive.
  assert (forall d k, (rest ≫= (fun ds => Some (d :: ds))) = Some k <-> exists ds, rest = Some ds /\ k = d :: ds) as Hmap.
  { intros d k. destruct rest as [ds|]; cbn; [|by split; [|intros (? & ? & _)] ].
    split; [intros [= <-]; by eexists|]. by intros (? & [= <-] & ->). }
  assert (None = Some r <-> exists ds size', None = Some ds /\ limits_of ds size = Some size'
    /\ r = (strings ++ filters_of ds, size')) as Hnone by (split; [done|by intros (? & ? & ? & _)]).
  destruct (utf8_normalize line) as [|c l]; [exact Hnone|].
  destruct (c =? chr "#"); [|destruct (c =? chr "e")].
  - rewrite IH. cbn [mbind option_bind]. setoid_rewrite Hmap. split.
    + intros (ds & size' & E & El & ->). exists (Comment :: ds), size'. eauto.
    + intros (k & size' & (ds & E & ->) & El & ->). eauto.
  - destruct (size_directive (c :: l)) as [d|] eqn:Ed.
    + destruct (size_directive_limit _ _ Ed) as (larger & limit & ->).
      cbn [mbind option_bind]. setoid_rewrite Hmap.
      destruct (set_limit larger limit size) as [f|] eqn:Es.
      * assert (add_size (c :: l) size = Some f) as -> by (apply add_size_directive; eauto).
        rewrite IH. split.
        -- intros (ds & size' & E & El & ->). exists (Limit larger limit :: ds), size'. cbn. rewrite Es. eauto.
        -- intros (k & size' & (ds & E & ->) & El & ->). cbn in El. rewrite Es in El. eauto.
      * assert (add_size (c :: l) size = None) as ->.
        { destruct (add_size (c :: l) size) eqn:Ea; [|done]. apply add_size_directive in Ea as (l1 & l2 & E & Ef).
          rewrite Ed in E. injection E as <- <-. congruence. }
        split; [done|]. intros (k & size' & (ds & E & ->) & El & _). cbn in El. by rewrite Es in El.
    + assert (add_size (c :: l) size = None) as ->; [|exact Hnone].
      destruct (add_size (c :: l) size) eqn:Ea; [|done]. apply add_size_directive in Ea as (l1 & l2 & E & _). congruence.
  - destruct (add_string (c :: l)) as [[b|f]|]; [| |exact Hnone].
    + rewrite IH. cbn [mbind option_bind]. setoid_rewrite Hmap. split.
      * intros (ds & size' & E & El & ->). exists (SyncFlag b :: ds), size'. eauto.
      * intros (k & size' & (ds & E & ->) & El & ->). eauto.
    + rewrite IH. cbn [mbind option_bind]. setoid_rewrite Hmap. split.
      * intros (ds & size' & E & El & ->). exists (AddFilter f :: ds), size'. rewrite <- app_assoc. eauto.
      * intros (k & size' & (ds & E & ->) & El & ->). exists ds, size'. rewrite <- app_assoc. eauto.
Qed.

(** *** Limits *)

Lemma digits_pos l : forall acc, 0 <= acc -> 0 <= CLib.digits 10 l acc.
Proof.
  induction l as [|c l IH]; intros acc Ha; [done|]. cbn [CLib.digits]. unfold CLib.digit_value, CLib.is_digit.
  destruct (_ <? 10) eqn:Ed; [|done]. apply IH. zbool. destruct (_ && _) eqn:E1; zbool; [lia|].
  destruct (_ && _) eqn:E2 in |- *; zbool; [lia|]. destruct (_ && _) eqn:E3 in |- *; zbool; lia.
Qed.

Lemma parse_limit_range l n : parse_limit l = Some n -> 0 <= n < 2 ^ 64.
Proof.
  unfold parse_limit. destruct (negb _); [done|]. unfold extract.
  pose proof (digits_pos (CLib.skip_spaces l) 0 ltac:(lia)) as Hp.
  destruct (CLib.digits _ _ _ <? 2 ^ 64) eqn:El; [|done]. zbool. cbn [mbind option_bind].
  destruct (CLib.skip_digits _) as [|c rest]; [intros [= <-]; lia|].
  destruct (unit_shift c =? 0); [done|]. destruct (negb _); [done|]. destruct (negb _); [done|]. intros [= <-].
  apply (wrapu_range 64). lia.
Qed.

Lemma size_directive_range text larger n : size_directive text = Some (Limit larger n) -> 0 <= n < 2 ^ 64.
Proof.
  unfold size_directive. destruct (getline _ _) as [[d rest]|]; [|done]. cbn [mbind option_bind].
  destruct (negb _ && negb _); [done|]. destruct (parse_limit rest) eqn:E; [|done]. intros [= <- <-]. by eapply parse_limit_range.
Qed.

Definition directive_ok (d : Directive) : Prop := match d with Limit _ n => 0 <= n < 2 ^ 64 | _ => True end.

Lemma directive_range `{Regex, Normalization} line d : directive line = Some d -> directive_ok d.
Proof.
  unfold directive. destruct (utf8_normalize line) as [|c l]; [done|]. destruct (c =? chr "#"); [by intros [= <-]|].
  destruct (c =? chr "e").
  - intros E. destruct d as [|larger n| |]; try done. by eapply size_directive_range.
  - destruct (add_string _) as [[b|f]|]; [by intros [= <-]..|done].
Qed.

Lemma set_limit_ok larger n size f : set_limit larger n size = Some f -> 0 <= n < 2 ^ 64 ->
  (forall g, size = Some g -> size_ok g) -> size_ok f.
Proof.
  unfold set_limit. intros E Hn Hs.
  assert (0 <= lower (default new_SizeFilter size) < 2 ^ 64 /\ 0 <= upper (default new_SizeFilter size) < 2 ^ 64) as [Hl Hu].
  { destruct size as [g|]; cbn [default]; [destruct (Hs g eq_refl) as (? & ? & _); auto|cbn; lia]. }
  destruct (Z.eqb _ _) eqn:Ez; [done|]. injection E as <-. zbool. unfold size_ok. by destruct larger.
Qed.

Lemma limits_ok ds : forall size f, Forall directive_ok ds -> (forall g, size = Some g -> size_ok g) ->
  limits_of ds size = Some (Some f) -> size_ok f.
Proof.
  induction ds as [|d ds IH]; intros size f Hd Hs E; [injection E as ->; auto|].
  apply Forall_cons in Hd as [Hd Hds]. destruct d as [|larger n|b|g]; try (by eapply IH; eauto).
  cbn in E. destruct (set_limit larger n size) as [g|] eqn:Eg; [|done]. cbn in E.
  eapply IH; [done| |done]. intros g' [= <-]. by eapply set_limit_ok.
Qed.

Lemma directives_ok `{Regex, Normalization} lines ds : mapM directive lines = Some ds -> Forall directive_ok ds.
Proof. intros E%mapM_Some_1. induction E; constructor; [by eapply directive_range|done]. Qed.

Lemma load_lines_flag `{Regex, Normalization} lines : forall strings size sync ds,
  mapM directive lines = Some ds -> is_Some (limits_of ds size) -> (load_lines lines strings size sync).2 = flag_of ds sync.
Proof.
  induction lines as [|line lines IH]; intros strings size sync ds E Hl; [by injection E as <-|].
  change (mapM directive (line :: lines)) with (d ← directive line; ds ← mapM directive lines; Some (d :: ds)) in E.
  cbn [load_lines]. destruct (directive line) as [d|] eqn:Ed; [|done]. cbn [mbind option_bind] in E.
  destruct (mapM directive lines) as [ds'|]; [|done]. injection E as <-. unfold directive in Ed.
  destruct (utf8_normalize line) as [|c l]; [done|]. destruct (c =? chr "#"); [injection Ed as <-; exact (IH _ _ _ ds' eq_refl Hl)|].
  destruct (c =? chr "e").
  - destruct (add_size (c :: l) size) as [f|] eqn:Ea.
    + apply add_size_directive in Ea as (larger & n & E1 & E2). rewrite Ed in E1. injection E1 as ->.
      cbn in Hl |- *. rewrite E2 in Hl. exact (IH _ _ _ ds' eq_refl Hl).
    + exfalso. destruct (size_directive_limit _ _ Ed) as (larger & n & ->). cbn in Hl. destruct (set_limit larger n size) as [f|] eqn:Es; [|by destruct Hl].
      assert (add_size (c :: l) size = Some f) by (apply add_size_directive; eauto). congruence.
  - destruct (add_string (c :: l)) as [[b|f]|]; [injection Ed as <-; exact (IH _ _ _ ds' eq_refl Hl)..|done].
Qed.

End LoadFacts.

(** *** The default rules *)

Module DefaultFacts.
Import Rules RuleSyntax LoadFacts Defaults.

Definition digit (c : Z) : Prop := chr "0" <= c <= chr "9".

Lemma digit_value_digit c : digit c -> CLib.is_digit c = true /\ CLib.digit_value 10 c = Some (c - chr "0").
Proof.
  unfold digit, CLib.digit_value, CLib.is_digit. intros Hc.
  assert ((48 <=? c) && (c <=? 57) = true) as -> by (apply andb_true_iff; split; apply Z.leb_le; lia).
  split; [done|]. by assert (c - 48 <? 10 = true) as -> by (apply Z.ltb_lt; lia).
Qed.

Lemma digits_snoc l c : Forall digit l -> digit c -> forall acc,
  CLib.digits 10 (l ++ [c]) acc = CLib.digits 10 l acc * 10 + (c - chr "0").
Proof.
  induction 1 as [|d l Hd Hl IH]; intros Hc acc; cbn [app CLib.digits].
  - by rewrite (proj2 (digit_value_digit c Hc)).
  - rewrite (proj2 (digit_value_digit d Hd)). by apply IH.
Qed.

Lemma decimal_digits fuel : forall n, 0 <= n -> Forall digit (CLib.decimal fuel n).
Proof.
  induction fuel as [|fuel IH]; intros n Hn; cbn [CLib.decimal]; [constructor|]. apply Forall_app. split.
  - destruct (n <? 10); [constructor|]. apply IH. apply Z.div_pos; lia.
  - apply Forall_singleton. unfold digit. pose proof (Z.mod_pos_bound n 10). lia.
Qed.

Lemma decimal_value fuel : forall n, 0 <= n < 10 ^ Z.of_nat fuel -> CLib.digits 10 (CLib.decimal fuel n) 0 = n.
Proof.
  induction fuel as [|fuel IH]; intros n Hn; [change (10 ^ Z.of_nat 0) with 1 in Hn; cbn; lia|].
  rewrite Nat2Z.inj_succ, Z.pow_succ_r in Hn by lia. cbn [CLib.decimal].
  rewrite digits_snoc.
  - destruct (Z.ltb_spec n 10).
    + cbn [CLib.digits]. rewrite Z.mod_small by lia. lia.
    + rewrite IH by dlia. dlia.
  - destruct (n <? 10); [constructor|]. apply decimal_digits. apply Z.div_pos; lia.
  - unfold digit. pose proof (Z.mod_pos_bound n 10). lia.
Qed.

Lemma decimal_nonempty n : exists c l, CLib.print_u64 n = c :: l.
Proof.
  unfold CLib.print_u64. cbn [CLib.decimal]. destruct (_ ++ [chr "0" + n mod 10]) as [|c l] eqn:E; [|eauto].
  apply app_eq_nil in E as [_ E]. done.
Qed.

Lemma skip_digits_all l : Forall digit l -> CLib.skip_digits l = [].
Proof. induction 1 as [|c l Hc Hl IH]; [done|]. cbn. by rewrite (proj1 (digit_value_digit c Hc)). Qed.

Lemma parse_limit_print n : 0 <= n < 2 ^ 64 -> parse_limit (CLib.print_u64 n) = Some n.
Proof.
  intros Hn. pose proof (decimal_digits 20 n ltac:(lia)) as Hd. change (CLib.decimal 20 n) with (CLib.print_u64 n) in Hd.
  assert (CLib.digits 10 (CLib.print_u64 n) 0 = n) as Hv by (apply decimal_value; split; [lia|]; eapply Z.lt_trans; [apply Hn|done]).
  unfold parse_limit, extract.
  assert (CLib.skip_spaces (CLib.print_u64 n) = CLib.print_u64 n) as ->.
  { destruct (decimal_nonempty n) as (c & l & E). rewrite E in Hd |- *. apply Forall_cons in Hd as [Hc _]. cbn.
    unfold digit, CLib.is_space in *. by replace ((9 <=? c) && (c <=? 13) || (c =? 32)) with false by (symmetry; zbool; lia). }
  rewrite Hv. destruct (decimal_nonempty n) as (c & l & E).
  assert (CLib.is_digit (cchar (CLib.print_u64 n)) = true) as ->.
  { rewrite E in Hd |- *. apply Forall_cons in Hd as [Hc _]. by apply digit_value_digit. }
  cbn [negb]. rewrite (proj2 (Z.ltb_lt n (2 ^ 64))) by lia. cbn [mbind option_bind]. by rewrite skip_digits_all.
Qed.

(** The filters of the default rules. *)
Definition exclude_name (name : bytes) : StringFilter :=
  MkStringFilter (has_char (chr "/") name) (new_GlobMatcher name false) AllTarget false true.
Definition exclude_path (path : bytes) : StringFilter :=
  MkStringFilter true (new_GlobMatcher path false) AllTarget false true.

Definition default_size (d : DefaultFilterChain) : option SizeFilter :=
  if (mLowerLimit d =? 0) && (mUpperLimit d =? 0) then None
  else Some (MkSizeFilter (mLowerLimit d) (if mUpperLimit d =? 0 then 2 ^ 64 - 1 else mUpperLimit d)).

Definition limit_prefix (larger : bool) : bytes := if larger then str "exclude-larger:" else str "exclude-smaller:".

Section rules.
Context `{Regex, Normalization}.

(** Text that can be written to a line and read back. *)
Definition writable (pre x : bytes) : Prop :=
  trimmed x /\ Forall (fun c => Lines.is_eol c = false) x /\ utf8_normalize (pre ++ x) = pre ++ x.

Lemma directive_rule r f : trimmed (r_pattern r) -> meaning r = Some f -> utf8_normalize (print r) = print r ->
  directive (print r) = Some (AddFilter f).
Proof using Type.
  intros Ht Hm Hn. unfold directive. rewrite Hn. pose proof (RuleFacts.add_string_complete r [] f ltac:(constructor) Ht Hm) as Ha.
  rewrite app_nil_r in Ha. assert (exists c l, print r = c :: l /\ (c =? chr "#") = false /\ (c =? chr "e") = false) as (c & l & E & E1 & E2).
  { unfold print. destruct (r_inclusion r); by eexists _, _. }
  rewrite E in Ha |- *. by rewrite E1, E2, Ha.
Qed.

Lemma directive_name x : writable (str "-:") x -> directive (str "-:" ++ x) = Some (AddFilter (exclude_name x)).
Proof using Type. intros (Ht & _ & Hn). by apply (directive_rule (MkRule false None None None x)). Qed.

Lemma directive_path x : writable (str "-p:") x -> directive (str "-p:" ++ x) = Some (AddFilter (exclude_path x)).
Proof using Type. intros (Ht & _ & Hn). by apply (directive_rule (MkRule false None (Some Path) None x)). Qed.

Hypothesis NFC_ascii : forall l, Forall (fun c => 0 < c < 128) l -> utf8proc_NFC l = Some l.

Lemma normalize_ascii l : Forall (fun c => 0 < c < 128) l -> utf8_normalize l = l.
Proof using Type*.
  intros Hl. unfold utf8_normalize.
  assert (forall part, Forall (fun c => 0 < c < 128) part -> normalize_parts l part = Some (part ++ l)) as ->; [|done|constructor].
  induction Hl as [|c l Hc Hl IH]; intros part Hp.
  - cbn. rewrite app_nil_r. destruct part as [|c part]; [done|]. rewrite NFC_ascii by done. cbn [fmap option_fmap option_map]. f_equal.
    apply GlobFacts.c_str_id. eapply Forall_impl; [exact Hp|]. cbn. lia.
  - cbn [normalize_parts]. rewrite (proj2 (Z.eqb_neq c 0)) by lia. rewrite IH.
    + by rewrite <- app_assoc.
    + apply Forall_app. split; [done|]. by apply Forall_singleton.
Qed.

Lemma digit_ascii l : Forall digit l -> Forall (fun c => 0 < c < 128) l.
Proof using Type. intros Hl. eapply Forall_impl; [exact Hl|]. unfold digit. intros; cbn in *; lia. Qed.

Lemma directive_limit larger n : 0 <= n < 2 ^ 64 ->
  directive (limit_prefix larger ++ CLib.print_u64 n) = Some (Limit larger n).
Proof using Type*.
  intros Hn. unfold directive. rewrite normalize_ascii.
  - destruct larger; cbn -[CLib.print_u64 parse_limit]; unfold size_directive; cbn -[CLib.print_u64 parse_limit]; by rewrite parse_limit_print.
  - apply Forall_app. split; [destruct larger; repeat (apply Forall_cons; split; [lia|]); constructor|].
    apply digit_ascii, decimal_digits. lia.
Qed.

Lemma directive_flag : directive (str "+sync:.megaignore") = Some (SyncFlag true).
Proof using Type*.
  unfold directive. rewrite normalize_ascii; [reflexivity|]. repeat (apply Forall_cons; split; [lia|]). constructor.
Qed.

(** *** The lines that are written *)

Definition all_lines (d : DefaultFilterChain) (paths : list bytes) (flag : bool) : list bytes :=
  (if flag then [str "+sync:.megaignore"] else [])
  ++ (if mLowerLimit d =? 0 then [] else [limit_prefix false ++ CLib.print_u64 (mLowerLimit d)])
  ++ (if mUpperLimit d =? 0 then [] else [limit_prefix true ++ CLib.print_u64 (mUpperLimit d)])
  ++ (app (str "-:") <$> mExcludedNames d) ++ (app (str "-p:") <$> paths).

Definition all_directives (d : DefaultFilterChain) (paths : list bytes) (flag : bool) : list Directive :=
  (if flag then [SyncFlag true] else [])
  ++ (if mLowerLimit d =? 0 then [] else [Limit false (mLowerLimit d)])
  ++ (if mUpperLimit d =? 0 then [] else [Limit true (mUpperLimit d)])
  ++ ((fun x => AddFilter (exclude_name x)) <$> mExcludedNames d) ++ ((fun x => AddFilter (exclude_path x)) <$> paths).

Definition with_newline (x : bytes) : bytes := x ++ NL.

Lemma generate_lines d paths bom flag :
  generate d paths bom flag = (if bom then Lines.BOM else []) ++ mjoin (with_newline <$> all_lines d paths flag).
Proof using Type.
  clear NFC_ascii. unfold generate, all_lines. f_equal. rewrite !fmap_app, !join_app, <- !list_fmap_compose.
  apply (f_equal2 app); [by destruct flag|].
  apply (f_equal2 app); [destruct (mLowerLimit d =? 0); [done|]; cbn -[CLib.print_u64]; by rewrite app_nil_r|].
  apply (f_equal2 app); [destruct (mUpperLimit d =? 0); [done|]; cbn -[CLib.print_u64]; by rewrite app_nil_r|].
  apply (f_equal2 app); f_equal; apply list_fmap_ext; intros i x _; unfold compose, with_newline; by rewrite <- app_assoc.
Qed.

Definition good_line (x : bytes) : Prop := Forall (fun c => Lines.is_eol c = false) x /\ LineFacts.blank x = false.

Lemma solid_newlines xs : Forall good_line xs -> LineFacts.solid_lines (mjoin (with_newline <$> xs)) = xs.
Proof using Type.
  induction 1 as [|x xs [Hx Hb] Hxs IH]; [done|]. cbn [fmap list_fmap]. rewrite mjoin_cons.
  unfold with_newline at 1, NL. rewrite <- app_assoc. cbn [app]. by rewrite LineFacts.solid_lines_app, IH.
Qed.

Lemma good_limit larger n : 0 <= n -> good_line (limit_prefix larger ++ CLib.print_u64 n).
Proof using Type.
  intros Hn. split.
  - apply Forall_app. split; [destruct larger; repeat (apply Forall_cons; split; [done|]); constructor|].
    eapply Forall_impl; [by apply (decimal_digits 20)|]. unfold digit, Lines.is_eol. intros c Hc. cbn in Hc. zbool.
    destruct (Z.eqb_spec c 13), (Z.eqb_spec c 10); cbn; lia.
  - by destruct larger.
Qed.

Lemma good_writable pre x : good_line pre -> writable pre x -> good_line (pre ++ x).
Proof using Type.
  intros [Hp Hb] (_ & Hx & _). split; [by apply Forall_app|].
  unfold LineFacts.blank in *. by rewrite forallb_app, Hb.
Qed.

Lemma all_lines_good d paths flag : 0 <= mLowerLimit d -> 0 <= mUpperLimit d ->
  Forall (writable (str "-:")) (mExcludedNames d) -> Forall (writable (str "-p:")) paths ->
  Forall good_line (all_lines d paths flag).
Proof using Type.
  intros Hl Hu Hn Hp.
  assert (forall s, forallb (fun c => negb (Lines.is_eol c)) s = true -> LineFacts.blank s = false -> good_line s) as Hg.
  { intros s H1 H2. split; [|done]. rewrite Forall_forall. intros c Hc. rewrite forallb_forall in H1.
    specialize (H1 c (proj1 (list_elem_of_In _ _) Hc)). by destruct (Lines.is_eol c). }
  unfold all_lines. repeat (apply Forall_app; split).
  - destruct flag; [|constructor]. apply Forall_singleton. by apply Hg.
  - destruct (_ =? 0); [constructor|]. apply Forall_singleton. by apply good_limit.
  - destruct (_ =? 0); [constructor|]. apply Forall_singleton. by apply good_limit.
  - rewrite Forall_fmap. eapply Forall_impl; [exact Hn|]. intros x Hx. by apply good_writable; [apply Hg|].
  - rewrite Forall_fmap. eapply Forall_impl; [exact Hp|]. intros x Hx. by apply good_writable; [apply Hg|].
Qed.

Lemma read_generated d paths bom flag : 0 <= mLowerLimit d -> 0 <= mUpperLimit d ->
  Forall (writable (str "-:")) (mExcludedNames d) -> Forall (writable (str "-p:")) paths ->
  Lines.readLines (generate d paths bom flag) = Some (all_lines d paths flag).
Proof using Type.
  intros Hl Hu Hn Hp. pose proof (all_lines_good d paths flag Hl Hu Hn Hp) as Hg.
  rewrite LineFacts.readLines_spec, generate_lines. f_equal. etransitivity; [|exact (solid_newlines _ Hg)]. destruct bom; [done|].
  cbn [app]. rewrite bool_decide_eq_false_2; [done|]. intros E. destruct (all_lines d paths flag) as [|x xs] eqn:Ex; [done|].
  assert (cchar x <> 239) as Hx; [|apply Forall_cons in Hg as [[_ Hb] _]; destruct x as [|c x]; [done|]; unfold Lines.BOM in E; cbn in E, Hx; congruence].
  assert (x ∈ all_lines d paths flag) as Hin by (rewrite Ex; left). clear -Hin. unfold all_lines in Hin.
  rewrite !elem_of_app, !list_elem_of_fmap in Hin.
  destruct flag, (mLowerLimit d =? 0), (mUpperLimit d =? 0); destruct_or! Hin; try set_solver; hyps; subst; done.
Qed.

Lemma map_directives {A} (f : A -> bytes) (g : A -> Directive) (l : list A) :
  Forall (fun x => directive (f x) = Some (g x)) l -> mapM directive (f <$> l) = Some (g <$> l).
Proof using Type. intros Hl. apply mapM_Some. rewrite Forall2_fmap. by apply Forall_Forall2_diag. Qed.

Lemma mapM_option_app {A B} (f : A -> option B) l1 l2 k1 k2 :
  mapM f l1 = Some k1 -> mapM f l2 = Some k2 -> mapM f (l1 ++ l2) = Some (k1 ++ k2).
Proof using Type. rewrite !mapM_Some. apply Forall2_app. Qed.

Lemma all_directives_spec d paths flag : 0 <= mLowerLimit d < 2 ^ 64 -> 0 <= mUpperLimit d < 2 ^ 64 ->
  Forall (writable (str "-:")) (mExcludedNames d) -> Forall (writable (str "-p:")) paths ->
  mapM directive (all_lines d paths flag) = Some (all_directives d paths flag).
Proof using Type*.
  intros Hl Hu Hn Hp. unfold all_lines, all_directives. repeat apply mapM_option_app.
  - destruct flag; [|done]. apply mapM_Some. constructor; [apply directive_flag|constructor].
  - destruct (_ =? 0); [done|]. apply mapM_Some. constructor; [by apply directive_limit|constructor].
  - destruct (_ =? 0); [done|]. apply mapM_Some. constructor; [by apply directive_limit|constructor].
  - apply map_directives. eapply Forall_impl; [exact Hn|]. apply directive_name.
  - apply map_directives. eapply Forall_impl; [exact Hp|]. apply directive_path.
Qed.

Lemma limits_filters ds size : Forall (fun d => match d with AddFilter _ => True | _ => False end) ds -> limits_of ds size = Some size.
Proof using Type. induction 1 as [|[]]; done. Qed.

Lemma all_limits d paths flag : mLowerLimit d <> 2 ^ 64 - 1 -> (mUpperLimit d <> 0 -> mLowerLimit d <> mUpperLimit d) ->
  limits_of (all_directives d paths flag) None = Some (default_size d).
Proof using Type.
  intros Hl Hu. unfold all_directives, default_size. set (fs := (_ <$> mExcludedNames d) ++ _).
  assert (forall size, limits_of fs size = Some size) as Hfs.
  { intros size. apply limits_filters, Forall_app. split; rewrite Forall_fmap; apply Forall_true; done. }
  assert (forall size, limits_of ((if flag then [SyncFlag true] else []) ++ size) None = limits_of size None) as -> by by destruct flag.
  assert (set_limit false (mLowerLimit d) None = Some (MkSizeFilter (mLowerLimit d) (2 ^ 64 - 1))) as Hlow.
  { unfold set_limit. cbn -[Z.eqb]. by rewrite (proj2 (Z.eqb_neq _ _)) by done. }
  destruct (Z.eqb_spec (mLowerLimit d) 0) as [E1|E1], (Z.eqb_spec (mUpperLimit d) 0) as [E2|E2]; cbn [app andb].
  - apply Hfs.
  - assert (set_limit true (mUpperLimit d) None = Some (MkSizeFilter 0 (mUpperLimit d))) as Es.
    { unfold set_limit. cbn -[Z.eqb]. by rewrite (proj2 (Z.eqb_neq 0 _)) by done. }
    cbn [limits_of]. rewrite Es. cbn [mbind option_bind]. by rewrite Hfs, E1.
  - cbn [limits_of]. rewrite Hlow. cbn [mbind option_bind]. by rewrite Hfs.
  - cbn [limits_of]. rewrite Hlow. cbn [mbind option_bind limits_of].
    assert (set_limit true (mUpperLimit d) (Some (MkSizeFilter (mLowerLimit d) (2 ^ 64 - 1)))
      = Some (MkSizeFilter (mLowerLimit d) (mUpperLimit d))) as ->.
    { unfold set_limit. cbn -[Z.eqb]. by rewrite (proj2 (Z.eqb_neq _ _)) by auto. }
    cbn [mbind option_bind]. by rewrite Hfs.
Qed.

(** The lower limit is the largest number, or the limits meet. *)
Definition refused (d : DefaultFilterChain) : bool :=
  (mLowerLimit d =? 2 ^ 64 - 1) || negb (mUpperLimit d =? 0) && (mLowerLimit d =? mUpperLimit d).

Lemma all_limits_refused d paths flag : refused d = true -> limits_of (all_directives d paths flag) None = None.
Proof using Type.
  intros Hr. unfold all_directives. set (fs := (_ <$> mExcludedNames d) ++ _).
  assert (forall size, limits_of ((if flag then [SyncFlag true] else []) ++ size) None = limits_of size None) as -> by by destruct flag.
  destruct (Z.eqb_spec (mLowerLimit d) 0) as [E1|E1].
  { unfold refused in Hr. rewrite E1 in Hr. apply orb_true_iff in Hr as [Hr|Hr]; [done|].
    destruct (Z.eqb_spec (mUpperLimit d) 0); [done|]. cbn [negb andb] in Hr. by apply Z.eqb_eq in Hr. }
  cbn [app limits_of]. unfold set_limit at 1. cbn -[Z.eqb]. unfold refused in Hr.
  destruct (Z.eqb_spec (mLowerLimit d) (2 ^ 64 - 1)); [done|]. cbn [orb mbind option_bind] in Hr |- *.
  destruct (mUpperLimit d =? 0); [done|]. cbn [negb andb app limits_of] in Hr |- *.
  unfold set_limit. cbn -[Z.eqb]. by rewrite Hr.
Qed.

Lemma filters_app ds1 ds2 : filters_of (ds1 ++ ds2) = filters_of ds1 ++ filters_of ds2.
Proof using Type. apply omap_app. Qed.

Lemma filters_map {A} (g : A -> StringFilter) l : filters_of ((fun x => AddFilter (g x)) <$> l) = g <$> l.
Proof using Type. induction l as [|x l IH]; [done|]. cbn. f_equal. exact IH. Qed.

Lemma all_filters d paths flag :
  filters_of (all_directives d paths flag) = (exclude_name <$> mExcludedNames d) ++ (exclude_path <$> paths).
Proof using Type.
  unfold all_directives. rewrite !filters_app, !filters_map.
  by destruct flag, (mLowerLimit d =? 0), (mUpperLimit d =? 0).
Qed.

Lemma all_flags d paths flag b : flag_of (all_directives d paths flag) b = flag || b.
Proof using Type.
  unfold all_directives, flag_of. rewrite !foldl_app.
  assert (forall {A} (g : A -> StringFilter) l b, foldl (fun b d => match d with SyncFlag b => b | _ => b end) b
    ((fun x => AddFilter (g x)) <$> l) = b) as Hf by (intros A g l; induction l; done).
  rewrite !Hf. by destruct flag, (mLowerLimit d =? 0), (mUpperLimit d =? 0).
Qed.

End rules.
End DefaultFacts.

(** *** What the rules of a folder and its parents mean *)

Module ExclusionFacts.
Import Rules Exclusion.

(** The rules that concern an item, the deciding ones first: those of the folder
    from the last line on, then the ones of its parents that are inherited; each
    with the name and the path it is matched against. *)
Fixpoint effective (nodes : list LocalNode) (here : bool) (p : RemotePathPair) : list (StringFilter * RemotePathPair) :=
  match nodes with
  | [] => []
  | node :: nodes =>
      match filterChain node with
      | None => []
      | Some fc => (fun f => (f, p)) <$> filter (fun f => here || mInheritable f = true) (reverse (mStringFilters fc))
      end ++ effective nodes false (p.1, RemotePath.prependWithSeparator p.2 (toName_of_localname node))
  end.

Definition applies (type : nodetype_t) (rule : StringFilter * RemotePathPair) : bool :=
  applicable (mTarget rule.1) type && bool_decide (filter_match rule.1 rule.2 = Some true).

(** The first rule that applies decides. *)
Definition decision (type : nodetype_t) (rules : list (StringFilter * RemotePathPair)) : ExclusionState :=
  match list_find (fun r => applies type r = true) rules with
  | Some (_, rule) => if mInclusion rule.1 then ES_INCLUDED else ES_EXCLUDED
  | None => ES_INCLUDED
  end.

(** The size filter of the nearest folder that has one. *)
Definition size_excluded (nodes : list LocalNode) (size : Z) : bool :=
  match head (omap (fun n => fc ← filterChain n; mSizeFilter fc) nodes) with
  | Some f => (0 <=? size) && negb (size_match f (u64 size))
  | None => false
  end.

Definition loaded (node : LocalNode) : Prop := forall fc, filterChain node = Some fc -> mLoadSucceeded fc = true.

Lemma filter_match_total f p : exists b, filter_match f p = Some b.
Proof.
  unfold filter_match, matcher_match. destruct (mMatcher f) as [pattern cs|r]; [|by eexists].
  destruct (GlobFacts.wildcard_spec (if cs then if byPath f then p.2 else p.1 else toUpper (if byPath f then p.2 else p.1)) pattern)
    as (b & E & _). by exists b.
Qed.

Lemma applies_match f p type :
  (if applicable (mTarget f) type then filter_match f p else Some false) = Some (applies type (f, p)).
Proof.
  unfold applies. cbn [fst snd]. destruct (applicable (mTarget f) type); [|done].
  destruct (filter_match_total f p) as (b & ->). by destruct b.
Qed.

Lemma first_match_spec fs p type only :
  first_match fs p type only
  = Some (match list_find (fun r => applies type r = true) ((fun f => (f, p)) <$> filter (fun f => negb only || mInheritable f = true) fs) with
          | Some (_, rule) => if mInclusion rule.1 then ES_INCLUDED else ES_EXCLUDED
          | None => ES_UNMATCHED
          end).
Proof.
  induction fs as [|f fs IH]; [done|]. cbn [first_match]. destruct (only && negb (mInheritable f)) eqn:Eo.
  - rewrite IH, filter_cons_False; [done|]. zbool. destruct only, (mInheritable f); cbn in *; congruence.
  - rewrite filter_cons_True by (destruct only, (mInheritable f); cbn in *; congruence).
    cbn [fmap list_fmap list_find]. rewrite applies_match. cbn [mbind option_bind].
    destruct (applies type (f, p)) eqn:Ea.
    + by rewrite decide_True.
    + rewrite decide_False by done. rewrite IH. by destruct (list_find _ _) as [[? ?]|].
Qed.

Lemma find_app {A} (P : A -> Prop) `{forall x, Decision (P x)} l1 l2 :
  snd <$> list_find P (l1 ++ l2) = match list_find P l1 with Some (_, x) => Some x | None => snd <$> list_find P l2 end.
Proof.
  induction l1 as [|x l1 IH]; [done|]. cbn [app list_find].
  destruct (decide (P x)); [done|]. destruct (list_find P (l1 ++ l2)) as [[i y]|], (list_find P l1) as [[j z]|]; cbn in *; congruence.
Qed.

Lemma decision_find type rules :
  decision type rules = match snd <$> list_find (fun r => applies type r = true) rules with
                        | Some rule => if mInclusion rule.1 then ES_INCLUDED else ES_EXCLUDED
                        | None => ES_INCLUDED
                        end.
Proof. unfold decision. by destruct (list_find _ rules) as [[i x]|]. Qed.

Lemma calcExcluded_spec nodes : forall here p type inherited, Forall loaded nodes -> (inherited = true -> here = false) ->
  calcExcluded nodes here p type inherited = Some (decision type (effective nodes here p)).
Proof.
  induction nodes as [|node nodes IH]; intros here p type inherited Hl Hi; [done|].
  apply Forall_cons in Hl as [Hn Hl]. cbn [calcExcluded effective]. destruct (filterChain node) as [fc|] eqn:Ec.
  - unfold chain_match. rewrite (Hn fc Ec), first_match_spec.
    assert (negb (inherited || negb here) = here) as -> by (destruct inherited, here; naive_solver).
    cbn [mbind option_bind]. rewrite decision_find, find_app.
    destruct (list_find _ (_ <$> _)) as [[i rule]|].
    + cbn. by destruct (mInclusion rule.1).
    + rewrite bool_decide_eq_true_2 by done. rewrite IH by done. by rewrite decision_find.
  - cbn [app]. apply IH; [done|]. done.
Qed.

Lemma calc_size_spec nodes size : Forall loaded nodes ->
  bool_decide (calcExcluded_size nodes size = ES_EXCLUDED) = size_excluded nodes size.
Proof.
  intros Hl. unfold calcExcluded_size, size_excluded. destruct (Z.ltb_spec size 0).
  { rewrite bool_decide_eq_false_2 by done. destruct (head _); [|done].
    by rewrite (proj2 (Z.leb_gt 0 size)) by lia. }
  rewrite (proj2 (Z.leb_le 0 size)) by lia. induction Hl as [|node nodes Hn Hl IH]; [done|].
  cbn [calc_size omap list_omap]. destruct (filterChain node) as [fc|] eqn:Ec; cbn [mbind option_bind]; [|exact IH].
  unfold chain_match_size. rewrite (Hn fc Ec). destruct (mSizeFilter fc) as [f|].
  - cbn [head]. destruct (size_match f (u64 size)); reflexivity.
  - change (bool_decide (ES_UNMATCHED = ES_UNMATCHED)) with true. exact IH.
Qed.

(** *** Items given by a name *)

Definition is_name (name : bytes) : Prop := name <> [] /\ Forall (fun c => c <> chr "/") name.

Lemma until_name name rest : Forall (fun c => c <> chr "/") name -> (rest = [] \/ cchar rest = chr "/") ->
  RemotePath.until_separator (name ++ rest) = (name, rest).
Proof.
  induction 1 as [|c name Hc Hn IH]; intros Hr; cbn [app RemotePath.until_separator].
  - destruct Hr as [->|Hr]; [done|]. destruct rest as [|c rest]; [done|]. cbn in Hr |- *. subst c. done.
  - rewrite (proj2 (Z.eqb_neq c _)) by done. by rewrite IH.
Qed.

Lemma next_name name rest : is_name name -> (rest = [] \/ cchar rest = chr "/") ->
  RemotePath.nextPathComponent (name ++ rest) = Some (name, rest).
Proof.
  intros [Hne Hn] Hr. unfold RemotePath.nextPathComponent.
  destruct name as [|c name]; [done|]. pose proof Hn as [Hc _]%Forall_cons. cbn [app RemotePath.skip_separators].
  rewrite (proj2 (Z.eqb_neq c _)) by done.
  change (c :: name ++ rest) with ((c :: name) ++ rest). by rewrite until_name.
Qed.

Lemma components_name fuel nodes name : is_name name -> components (S fuel) nodes name ([], []) = Some (Some (name, name)).
Proof.
  intros Hn. cbn [components]. pose proof (next_name name [] Hn (or_introl eq_refl)) as E. rewrite app_nil_r in E.
  by rewrite E.
Qed.

Lemma early_none node nodes path type : mExclusionState node = ES_INCLUDED -> mWaitingForIgnoreFileLoad node = false ->
  loaded node -> (type = FILENODE -> path <> IGNORE_FILE_NAME) -> early (node :: nodes) path type = None.
Proof.
  intros Hi Hw Hl Hp. unfold early. rewrite bool_decide_eq_true_2 by done. rewrite Hw. cbn [negb].
  destruct (filterChain node) as [fc|] eqn:Ec; [|done]. rewrite (Hl fc Ec).
  destruct (decide (type = FILENODE)) as [E|E].
  - rewrite (bool_decide_eq_false_2 (path = _)) by auto. by rewrite andb_false_r.
  - by rewrite bool_decide_eq_false_2.
Qed.

Lemma exclusion_name node parents name type size : Forall loaded (node :: parents) ->
  mExclusionState node = ES_INCLUDED -> mWaitingForIgnoreFileLoad node = false -> is_name name ->
  (type = FILENODE -> name <> IGNORE_FILE_NAME) ->
  exclusionState (node :: parents) name type size
  = Some (if bool_decide (type = FILENODE) && size_excluded (node :: parents) size then ES_EXCLUDED
          else decision type (effective (node :: parents) true (name, name))).
Proof.
  intros Hl Hi Hw Hn Hig. unfold exclusionState. pose proof Hl as [Hl0 _]%Forall_cons.
  rewrite (early_none node parents name type) by done.
  rewrite components_name by done. cbn [mbind option_bind fst].
  assert (bool_decide (type = FILENODE) && bool_decide (name = IGNORE_FILE_NAME) = false) as ->.
  { apply andb_false_iff. rewrite !bool_decide_eq_false. destruct (decide (type = FILENODE)); auto. }
  rewrite calc_size_spec by done. destruct (_ && _); [done|]. by apply calcExcluded_spec.
Qed.

(** *** Items given by a path *)

Lemma name_separators name : is_name name ->
  RemotePath.beginsWithSeparator name = false /\ RemotePath.endsInSeparator name = false.
Proof.
  intros [Hne Hn]. split.
  - unfold RemotePath.beginsWithSeparator. destruct Hn as [|c name Hc Hn]; [done|]. by apply Z.eqb_neq.
  - unfold RemotePath.endsInSeparator. destruct (last name) as [c|] eqn:E; [|done]. apply Z.eqb_neq.
    rewrite Forall_forall in Hn. apply Hn. rewrite last_lookup in E. by eapply list_elem_of_lookup_2.
Qed.

Lemma append_name s z : is_name s -> is_name z -> RemotePath.appendWithSeparator s z false = s ++ chr "/" :: z.
Proof.
  intros Hs Hz. unfold RemotePath.appendWithSeparator. rewrite (proj2 (name_separators s Hs)), (proj1 (name_separators z Hz)).
  destruct Hs as [Hs _], Hz as [Hz _]. by rewrite !bool_decide_eq_false_2.
Qed.

Lemma prepend_name s z : is_name s -> is_name z -> RemotePath.prependWithSeparator z s = s ++ chr "/" :: z.
Proof.
  intros Hs Hz. unfold RemotePath.prependWithSeparator.
  by rewrite (proj2 (name_separators s Hs)), (proj1 (name_separators z Hz)).
Qed.

Definition inherited_rules (node : LocalNode) : Prop :=
  forall fc, filterChain node = Some fc -> Forall (fun f => mInheritable f = true) (mStringFilters fc).

Lemma filter_inherited here fs : Forall (fun f => mInheritable f = true) fs ->
  filter (fun f => here || mInheritable f = true) fs = fs.
Proof.
  induction 1 as [|f fs Hf Hfs IH]; [done|]. rewrite filter_cons_True; [by rewrite IH|]. by rewrite Hf, orb_true_r.
Qed.

Lemma effective_inherited node nodes p : inherited_rules node ->
  effective (node :: nodes) false p = effective (node :: nodes) true p.
Proof.
  intros Hr. cbn [effective]. destruct (filterChain node) as [fc|] eqn:Ec; [|done].
  assert (Forall (fun f => mInheritable f = true) (reverse (mStringFilters fc))) as Hi by (apply Forall_reverse, Hr, Ec).
  by rewrite !filter_inherited.
Qed.

Lemma components_path nodes s z : is_name s -> is_name z -> Forall loaded nodes ->
  components (S (length (s ++ chr "/" :: z))) nodes (s ++ chr "/" :: z) ([], [])
  = Some (if bool_decide (decision FOLDERNODE (effective nodes true (s, s)) = ES_EXCLUDED) then None
          else Some (z, s ++ chr "/" :: z)).
Proof.
  intros Hs Hz Hl. rewrite length_app, Nat.add_comm. cbn [length Nat.add]. set (fuel := (length z + length s)%nat).
  cbn [components]. rewrite (next_name s (chr "/" :: z)) by auto.
  change (negb (RemotePath.hasNextPathComponent (chr "/" :: z))) with false. cbn iota beta.
  change (RemotePath.appendWithSeparator [] s false) with s. cbn [snd].
  rewrite calcExcluded_spec by done. cbn [mbind option_bind].
  destruct (bool_decide _); [done|].
  change (RemotePath.nextPathComponent (chr "/" :: z)) with (RemotePath.nextPathComponent z).
  pose proof (next_name z [] Hz (or_introl eq_refl)) as E. rewrite app_nil_r in E. rewrite E.
  change (negb (RemotePath.hasNextPathComponent [])) with true. cbn iota. by rewrite append_name.
Qed.

End ExclusionFacts.

(** ** Theorems *)

(** C22: The matching of a name against a glob always ends and decides what the
    pattern means: a star stands for any characters, a question mark for one, any
    other character for itself, or without case for both of its cases. *)
Theorem glob_matcher_meaning (pattern s : bytes) (caseSensitive : bool) :
  let fold l := if caseSensitive then l else Rules.toUpper l in
  exists b, Rules.matcher_match (Rules.new_GlobMatcher pattern caseSensitive) s = Some b
  /\ (b = true <-> Glob.glob (c_str (fold pattern)) (c_str (fold s))).
Proof. cbn. apply GlobFacts.wildcard_spec. Qed.

(** Reading lines ends on every text and gives the lines that are not blank,
    in order, without a byte order mark. *)
Theorem ignore_file_lines (input : bytes) :
  Lines.readLines input = Some (LineFacts.solid_lines (if bool_decide (take 3 input = Lines.BOM) then drop 3 input else input)).
Proof. apply LineFacts.readLines_spec. Qed.

(** C26: What the parser of a rule accepts: a line is taken for a filter just if it
    is a rule as documented, with any of the letters left out, a pattern that is
    not empty and white space behind it, or the same with an empty pattern, which
    the code means to refuse ([empty_pattern]: its test cannot hold); no line is
    both.  A regular expression has to compile.  The filter is the one the rule stands for.  And the directive for the
    ignore file itself is taken for one with nothing but that behind the sign. *)
Theorem rule_grammar `{Regex} (text : bytes) :
  (forall f, Rules.add_string text = Some (inr f) <->
     (exists r, RuleSyntax.reads text r /\ RuleSyntax.documented r /\ RuleSyntax.meaning r = Some f)
     \/ (exists r, RuleSyntax.reads text r /\ RuleSyntax.r_pattern r = [] /\ RuleSyntax.meaning r = Some f))
  /\ (forall r r', RuleSyntax.reads text r -> RuleSyntax.reads text r' -> RuleSyntax.documented r ->
        RuleSyntax.r_pattern r' <> [])
  /\ (forall b, Rules.add_string text = Some (inl b) <->
     exists m, text = RuleSyntax.class_letter b :: m /\ c_str m = Rules.SYNC_DIRECTIVE).
Proof.
  split; [|split].
  - intros f. split.
    + intros (r & ws & E & Hw & Ht & Hm)%RuleFacts.add_string_sound. unfold RuleSyntax.documented.
      assert (RuleSyntax.reads text r) as Hr by (by exists ws).
      destruct (decide (RuleSyntax.r_pattern r = [])); [right|left]; by exists r.
    + intros [(r & (ws & -> & Hw & Ht) & _ & Hm)|(r & (ws & -> & Hw & Ht) & _ & Hm)];
        by apply RuleFacts.add_string_complete.
  - intros r r' Hr Hr' Hd. by rewrite (RuleFacts.reads_pattern text r' r).
  - intros b. split; [apply RuleFacts.add_string_flag|].
    intros (m & -> & Hm). unfold Rules.add_string. destruct b; cbn; by rewrite bool_decide_eq_true_2.
Qed.

(** Loading an ignore file takes it as a whole: every line that is not blank
    must be a comment, a limit, the directive for the file or a filter, and the
    limits must not meet; then the chain holds the filters in the order of their
    lines and the last limits, otherwise it keeps the filters it had.  The size
    filter of a loaded chain is well formed: its bounds are 64-bit numbers that
    differ, which the matching asserts. *)
Theorem ignore_file_load `{Regex, Normalization} (lines : list bytes) (fc : FilterChain) :
  let '(result, fc') := Rules.load_text lines fc in
  (result = FLR_SUCCESS <-> exists ds size, mapM LoadFacts.directive lines = Some ds /\ LoadFacts.limits_of ds None = Some size)
  /\ (forall ds size, mapM LoadFacts.directive lines = Some ds -> LoadFacts.limits_of ds None = Some size ->
       fc' = MkFilterChain (mFingerprint fc) (mLoadSucceeded fc) (LoadFacts.flag_of ds (mSyncThisMegaignore fc))
               (LoadFacts.filters_of ds) size)
  /\ (result <> FLR_SUCCESS -> result = FLR_FAILED /\ mStringFilters fc' = mStringFilters fc /\ mSizeFilter fc' = mSizeFilter fc)
  /\ (forall f, result = FLR_SUCCESS -> mSizeFilter fc' = Some f -> LoadFacts.size_ok f).
Proof.
  unfold Rules.load_text. destruct (Rules.load_lines lines [] None (mSyncThisMegaignore fc)) as [r sync] eqn:El.
  assert (forall r', r = Some r' <-> exists ds size, mapM LoadFacts.directive lines = Some ds
    /\ LoadFacts.limits_of ds None = Some size /\ r' = (LoadFacts.filters_of ds, size)) as Hr.
  { intros r'. rewrite <- (LoadFacts.load_lines_spec lines [] None (mSyncThisMegaignore fc) r'). by rewrite El. }
  destruct r as [[strings size]|]; (split; [|split; [|split]]).
  - split; [|done]. intros _. destruct (proj1 (Hr _) eq_refl) as (ds & size' & E1 & E2 & _). eauto.
  - intros ds size' E1 E2. pose proof (proj2 (Hr (LoadFacts.filters_of ds, size')) ltac:(eauto)) as [= -> ->].
    pose proof (LoadFacts.load_lines_flag lines [] None (mSyncThisMegaignore fc) ds E1 ltac:(eauto)) as Hf. rewrite El in Hf.
    cbn in Hf. by subst sync.
  - done.
  - intros f _ Ef. cbn in Ef. subst size. destruct (proj1 (Hr _) eq_refl) as (ds & size' & E1 & E2 & [= -> <-]).
    apply (LoadFacts.limits_ok ds None); [by eapply LoadFacts.directives_ok|done|done].
  - split; [done|]. intros (ds & size & E1 & E2). by pose proof (proj2 (Hr (LoadFacts.filters_of ds, size)) ltac:(eauto)).
  - intros ds size E1 E2. by pose proof (proj2 (Hr (LoadFacts.filters_of ds, size)) ltac:(eauto)).
  - done.
  - done.
Qed.

(** C25: The file of default rules that the client writes, for names and paths that
    are normalized, on one line and without white space at the end, and for 64-bit
    limits: its lines are found and, unless the limits make the loader refuse it,
    all of them load, and the chain holds one filter for each excluded name and
    path and the limits.  It is refused, and the chain keeps the rules it had, just
    when the lower limit equals an upper limit that is set, or is the largest
    number ([equal_limits]). *)
Theorem default_rules_roundtrip `{Regex, Normalization} (d : DefaultFilterChain) (paths : list bytes)
    (includeBOM flag : bool) (fc : FilterChain) :
  (forall l, Forall (fun c => 0 < c < 128) l -> utf8proc_NFC l = Some l) ->
  0 <= mLowerLimit d < 2 ^ 64 -> 0 <= mUpperLimit d < 2 ^ 64 ->
  Forall (DefaultFacts.writable (str "-:")) (mExcludedNames d) -> Forall (DefaultFacts.writable (str "-p:")) paths ->
  exists lines, Lines.readLines (Defaults.generate d paths includeBOM flag) = Some lines
  /\ if DefaultFacts.refused d
     then exists sync, Rules.load_text lines fc
       = (FLR_FAILED, MkFilterChain (mFingerprint fc) (mLoadSucceeded fc) sync (mStringFilters fc) (mSizeFilter fc))
     else Rules.load_text lines fc
       = (FLR_SUCCESS, MkFilterChain (mFingerprint fc) (mLoadSucceeded fc) (flag || mSyncThisMegaignore fc)
            ((DefaultFacts.exclude_name <$> mExcludedNames d) ++ (DefaultFacts.exclude_path <$> paths))
            (DefaultFacts.default_size d)).
Proof.
  intros Hnfc Hl Hu Hn Hp. exists (DefaultFacts.all_lines d paths flag).
  split; [apply DefaultFacts.read_generated; lia || done|].
  pose proof (DefaultFacts.all_directives_spec Hnfc d paths flag ltac:(lia) Hu Hn Hp) as E1.
  unfold Rules.load_text. destruct (Rules.load_lines _ _ _ _) as [r sync] eqn:El.
  destruct (DefaultFacts.refused d) eqn:Er.
  - pose proof (DefaultFacts.all_limits_refused d paths flag Er) as E2. destruct r as [p|]; [|by exists sync].
    destruct (proj1 (LoadFacts.load_lines_spec (DefaultFacts.all_lines d paths flag) [] None (mSyncThisMegaignore fc) p)) as (ds & size & E & E3 & _);
      [by rewrite El|]. rewrite E1 in E. injection E as <-. by rewrite E2 in E3.
  - unfold DefaultFacts.refused in Er. apply orb_false_iff in Er as [Elow%Z.eqb_neq Emeet].
    assert (mUpperLimit d <> 0 -> mLowerLimit d <> mUpperLimit d) as Hlu.
    { intros Hne%Z.eqb_neq. rewrite Hne in Emeet. by apply Z.eqb_neq in Emeet. }
    pose proof (DefaultFacts.all_limits d paths flag Elow Hlu) as E2.
    pose proof (LoadFacts.load_lines_flag _ [] None (mSyncThisMegaignore fc) _ E1 ltac:(eauto)) as Hf.
    rewrite El, DefaultFacts.all_flags in Hf. cbn in Hf. subst sync.
    pose proof (proj2 (LoadFacts.load_lines_spec _ [] None (mSyncThisMegaignore fc) _) (ex_intro _ _ (ex_intro _ _ (conj E1 (conj E2 eq_refl))))) as Hr.
    rewrite El in Hr. cbn in Hr. subst r. by rewrite DefaultFacts.all_filters.
Qed.

(** C23: Whether an item of a folder is excluded: if the rules of the folder and of
    its parents are loaded, a file whose size the nearest size filter does not
    allow is excluded; otherwise the first rule that applies to it decides, in the
    folder from the last line on and then upwards among the rules that are
    inherited, each matched with the path from its own folder; and what no rule
    applies to is included. *)
Theorem exclusion_decided (node : LocalNode) (parents : list LocalNode) (name : bytes) (type : nodetype_t) (size : Z) :
  Forall ExclusionFacts.loaded (node :: parents) -> mExclusionState node = ES_INCLUDED -> mWaitingForIgnoreFileLoad node = false ->
  ExclusionFacts.is_name name -> (type = FILENODE -> name <> Exclusion.IGNORE_FILE_NAME) ->
  let rules := ExclusionFacts.effective (node :: parents) true (name, name) in
  Exclusion.exclusionState (node :: parents) name type size
  = Some (if bool_decide (type = FILENODE) && ExclusionFacts.size_excluded (node :: parents) size then ES_EXCLUDED
          else ExclusionFacts.decision type rules)
  /\ (forall l1 f p l2, rules = l1 ++ (f, p) :: l2 -> ExclusionFacts.applies type (f, p) = true ->
       Forall (fun r => ExclusionFacts.applies type r = false) l1 ->
       ExclusionFacts.decision type rules = if mInclusion f then ES_INCLUDED else ES_EXCLUDED)
  /\ (Forall (fun r => ExclusionFacts.applies type r = false) rules -> ExclusionFacts.decision type rules = ES_INCLUDED).
Proof.
  intros Hl Hi Hw Hn Hig rules. split; [|split].
  - by apply ExclusionFacts.exclusion_name.
  - intros l1 f p l2 -> Ha H1. rewrite ExclusionFacts.decision_find, ExclusionFacts.find_app.
    destruct (list_find _ l1) as [[i r]|] eqn:E.
    + apply list_find_Some in E as (E & Ea & _). rewrite Forall_forall in H1.
      pose proof (H1 r (list_elem_of_lookup_2 _ _ _ E)). congruence.
    + cbn [list_find]. by rewrite decide_True.
  - intros Hr. unfold ExclusionFacts.decision. destruct (list_find _ rules) as [[i r]|] eqn:E; [|done].
    apply list_find_Some in E as (E & Ea & _). rewrite Forall_forall in Hr.
    pose proof (Hr r (list_elem_of_lookup_2 _ _ _ E)). congruence.
Qed.

(** C24: Asking a folder about an item two levels below it agrees with asking the
    folder between them, if that has no rules of its own and the rules of the
    upper one are inherited: the item is excluded with the folder between, and
    otherwise as that says. *)
Theorem exclusion_by_path (node sub : LocalNode) (parents : list LocalNode) (z : bytes) (type : nodetype_t) (size : Z) :
  let s := toName_of_localname sub in
  Forall ExclusionFacts.loaded (node :: parents) -> ExclusionFacts.inherited_rules node ->
  mExclusionState node = ES_INCLUDED -> mWaitingForIgnoreFileLoad node = false ->
  mExclusionState sub = ES_INCLUDED -> mWaitingForIgnoreFileLoad sub = false -> filterChain sub = None ->
  ExclusionFacts.is_name s -> ExclusionFacts.is_name z -> (type = FILENODE -> z <> Exclusion.IGNORE_FILE_NAME) ->
  Exclusion.exclusionState (node :: parents) (s ++ chr "/" :: z) type size
  = (folder ← Exclusion.exclusionState (node :: parents) s FOLDERNODE (-1);
     if bool_decide (folder = ES_EXCLUDED) then Some ES_EXCLUDED
     else Exclusion.exclusionState (sub :: node :: parents) z type size).
Proof.
  intros s Hl Hr Hi Hw His Hws Hfs Hs Hz Hig. pose proof Hl as [Hl0 _]%Forall_cons.
  assert (ExclusionFacts.loaded sub) as Hls by (intros fc; by rewrite Hfs).
  rewrite (ExclusionFacts.exclusion_name node parents s FOLDERNODE) by done.
  rewrite (ExclusionFacts.exclusion_name sub (node :: parents) z) by (done || by constructor).
  unfold Exclusion.exclusionState.
  rewrite (ExclusionFacts.early_none node parents (s ++ chr "/" :: z) type); [|done..|].
  2: { intros _ E. assert (chr "/" ∈ Exclusion.IGNORE_FILE_NAME) as Hin by (rewrite <- E; set_solver). vm_compute in Hin.
       repeat (apply elem_of_cons in Hin as [Hin|Hin]; [done|]). by apply elem_of_nil in Hin. }
  rewrite ExclusionFacts.components_path by done. cbn [mbind option_bind].
  change (bool_decide (FOLDERNODE = FILENODE)) with false. cbn [andb].
  destruct (bool_decide _); [done|]. cbn [fst].
  assert (bool_decide (type = FILENODE) && bool_decide (z = Exclusion.IGNORE_FILE_NAME) = false) as ->.
  { apply andb_false_iff. rewrite !bool_decide_eq_false. destruct (decide (type = FILENODE)); auto. }
  rewrite ExclusionFacts.calc_size_spec, ExclusionFacts.calcExcluded_spec by done.
  assert (ExclusionFacts.size_excluded (sub :: node :: parents) size = ExclusionFacts.size_excluded (node :: parents) size) as ->.
  { unfold ExclusionFacts.size_excluded. cbn [omap list_omap]. by rewrite Hfs. }
  assert (ExclusionFacts.effective (sub :: node :: parents) true (z, z)
    = ExclusionFacts.effective (node :: parents) true (z, s ++ chr "/" :: z)) as ->.
  { change (ExclusionFacts.effective (sub :: node :: parents) true (z, z)) with
      (match filterChain sub with
       | None => []
       | Some fc => (fun f => (f, (z, z))) <$> filter (fun f => true || mInheritable f = true) (reverse (mStringFilters fc))
       end ++ ExclusionFacts.effective (node :: parents) false (z, RemotePath.prependWithSeparator z s)).
    rewrite Hfs, ExclusionFacts.prepend_name by done. cbn [app]. by apply ExclusionFacts.effective_inherited. }
  by destruct (_ && _).
Qed.

(** ** Examples *)

Module FilterExamples.
Import Rules Exclusion.

(** A matcher for plain text only, and text that is normalized. *)
#[export] Instance plain : Regex := fun p _ => Some (fun s => bool_decide (s = p)).
#[export] Instance normal : Normalization := fun l => Some l.

Definition defaults : DefaultFilterChain := MkDefaultFilterChain Defaults.mPredefinedNameExclusions 0 1048576.

Lemma defaults_writable : Forall (DefaultFacts.writable (str "-:")) Defaults.mPredefinedNameExclusions.
Proof. repeat (apply Forall_cons; split; [by split_and!; vm_compute; repeat constructor|]). by apply Forall_nil. Qed.

(** White space behind a limit is only allowed if there is a unit. *)
Lemma limit_blank : parse_limit (str "100 ") = None /\ parse_limit (str "100k ") = Some 102400.
Proof. vm_compute. by split. Qed.

(** A rule without a pattern is accepted, and matches nothing but an empty name. *)
Lemma empty_pattern : add_string (str "-:") = Some (inr (DefaultFacts.exclude_name [])).
Proof. reflexivity. Qed.

(** Equal limits are written to a file that cannot be loaded. *)
Lemma equal_limits :
  option_map (fun lines => (load_text lines new_FilterChain).1)
    (Lines.readLines (Defaults.generate (MkDefaultFilterChain [] 5 5) [] false false)) = Some FLR_FAILED.
Proof. reflexivity. Qed.

(** A failed load leaves the flag of the file behind. *)
Lemma flag_kept :
  load_text [str "+sync:.megaignore"; str "?"] new_FilterChain
  = (FLR_FAILED, MkFilterChain FP.init false true [] None).
Proof. reflexivity. Qed.

(** A rule for the names of one folder excludes an item of a subfolder if it is
    asked for by its path, but not if the subfolder is asked. *)
Definition chain_of (lines : list bytes) : FilterChain :=
  let fc := (load_text lines new_FilterChain).2 in
  MkFilterChain (mFingerprint fc) true (mSyncThisMegaignore fc) (mStringFilters fc) (mSizeFilter fc).
Definition folder (name : bytes) (lines : option (list bytes)) : LocalNode :=
  MkLocalNode name ES_INCLUDED (chain_of <$> lines) false.

Lemma local_rule_by_path :
  exclusionState [folder (str "top") (Some [str "-N:z"])] (str "s/z") FOLDERNODE (-1) = Some ES_EXCLUDED
  /\ exclusionState [folder (str "s") None; folder (str "top") (Some [str "-N:z"])] (str "z") FOLDERNODE (-1) = Some ES_INCLUDED.
Proof. vm_compute. by split. Qed.

Definition top : LocalNode := folder (str "top") (Some [str "-:*.tmp"; str "+p:s/keep*"; str "exclude-larger:1k"]).

Lemma top_loaded parents : Forall ExclusionFacts.loaded parents -> Forall ExclusionFacts.loaded (top :: parents).
Proof. intros Hp. constructor; [|done]. by intros fc [= <-]. Qed.

Lemma names : ExclusionFacts.is_name (str "s") /\ ExclusionFacts.is_name (str "keep.tmp") /\ ExclusionFacts.is_name (str "old.tmp").
Proof. by split_and!; split; repeat constructor. Qed.

End FilterExamples.

#[local] Existing Instance FilterExamples.plain.
#[local] Existing Instance FilterExamples.normal.

Lemma default_rules_roundtrip_witness :
  exists lines, Lines.readLines (Defaults.generate FilterExamples.defaults [str "a/b"] true true) = Some lines
  /\ Rules.load_text lines Rules.new_FilterChain
     = (FLR_SUCCESS, MkFilterChain FP.init false true
          ((DefaultFacts.exclude_name <$> Defaults.mPredefinedNameExclusions) ++ [DefaultFacts.exclude_path (str "a/b")])
          (Some (MkSizeFilter 0 1048576))).
Proof.
  apply (default_rules_roundtrip FilterExamples.defaults [str "a/b"] true true Rules.new_FilterChain).
  - done.
  - cbn. lia.
  - cbn. lia.
  - exact FilterExamples.defaults_writable.
  - repeat (apply Forall_cons; split; [by split_and!; vm_compute; repeat constructor|]). by apply Forall_nil.
Defined.

Lemma exclusion_decided_witness :
  Exclusion.exclusionState [FilterExamples.top] (str "old.tmp") FILENODE 5 = Some ES_EXCLUDED.
Proof.
  rewrite (proj1 (exclusion_decided FilterExamples.top [] (str "old.tmp") FILENODE 5
    (FilterExamples.top_loaded [] (Forall_nil_2 _)) eq_refl eq_refl (proj2 (proj2 FilterExamples.names)) ltac:(done))).
  vm_compute. reflexivity.
Defined.

Lemma exclusion_by_path_witness :
  Exclusion.exclusionState [FilterExamples.top] (str "s" ++ chr "/" :: str "keep.tmp") FILENODE 5 = Some ES_INCLUDED.
Proof.
  etransitivity; [apply (exclusion_by_path FilterExamples.top (FilterExamples.folder (str "s") None) [] (str "keep.tmp") FILENODE 5
    (FilterExamples.top_loaded [] (Forall_nil_2 _)) ltac:(intros fc [= <-]; repeat constructor) eq_refl eq_refl eq_refl eq_refl eq_refl
    (proj1 FilterExamples.names) (proj1 (proj2 FilterExamples.names)) ltac:(done))|].
  vm_compute. reflexivity.
Defined.
