(* ===== verification/Media.v ===== *)
(** * Media properties of files

    The media attributes of a file (src/mediafileattribute.cpp): width, height,
    frame rate, playing time and codecs, squeezed into eight or sixteen bytes,
    encrypted with XXTEA under the nonce of the file and stored as a file
    attribute; codec names are looked up in tables from the server.  Proved: the
    cipher and the whole attribute decode, up to the precision of the fields, and
    the cipher's loop, which runs until its sum wraps around to zero, ends.

    As elsewhere, memory is little-endian. *)

From S2P Require Import Prelude Encoding Serialize.
Local Open Scope Z_scope.

(** ** The cipher *)

Module XXTEA.

Definition EndianConversion32 (x : Z) : Z :=
  Z.lor (Z.lor (Z.lor (Z.shiftr (Z.land x 4278190080) 24) (Z.shiftr (Z.land x 16711680) 8))
    (u32 (Z.shiftl (Z.land x 65280) 8))) (u32 (Z.shiftl (Z.land x 255) 24)).

Definition DELTA : Z := 2654435769.

Definition word (v : list Z) (i : nat) : Z := default 0 (v !! i).

Definition mx (sum y z p e : Z) (key : list Z) : Z :=
  Z.lxor (u32 (Z.lxor (Z.shiftr z 5) (u32 (Z.shiftl y 2)) + Z.lxor (Z.shiftr y 3) (u32 (Z.shiftl z 4))))
    (u32 (Z.lxor sum y + Z.lxor (word key (Z.to_nat (Z.lxor (Z.land p 3) e))) z)).

(** The conversion of the key to match the web client. *)
Definition cipher_key (endianConv : bool) (key : list Z) : list Z :=
  if endianConv then EndianConversion32 <$> key else key.

Section cipher.
Context (key : list Z).

(** One assignment [v[p] = v[p] + mx(...)] with the running [z]. *)
Definition encrypt_word (sum e : Z) (vz : list Z * Z) (py : nat * nat) : list Z * Z :=
  let '(v, z) := vz in
  let '(p, y) := py in
  let x := u32 (word v p + mx sum (word v y) z (Z.of_nat p) e key) in (<[p := x]> v, x).

(** The positions and their successors: [0, ..., n - 1] and then [n]. *)
Definition positions (n : nat) : list (nat * nat) := ((fun p => (p, S p)) <$> seq 0 n) ++ [(n, 0%nat)].

Definition encrypt_round (sum : Z) (vz : list Z * Z) : list Z * Z :=
  let e := Z.land (Z.shiftr sum 2) 3 in
  foldl (encrypt_word sum e) vz (positions (length vz.1 - 1)).

Fixpoint encrypt_rounds (q : nat) (sum : Z) (vz : list Z * Z) : list Z * Z :=
  match q with
  | O => vz
  | S q => let sum := u32 (sum + DELTA) in encrypt_rounds q sum (encrypt_round sum vz)
  end.

Definition rounds (v : list Z) : nat := Z.to_nat (6 + 52 / zlength v).

Definition encrypt (v : list Z) : list Z :=
  (encrypt_rounds (rounds v) 0 (v, word v (length v - 1))).1.

(** [v[p] = v[p] - mx(...)] with the running [y]. *)
Definition decrypt_word (sum e : Z) (vy : list Z * Z) (pz : nat * nat) : list Z * Z :=
  let '(v, y) := vy in
  let '(p, z) := pz in
  let x := u32 (word v p - mx sum y (word v z) (Z.of_nat p) e key) in (<[p := x]> v, x).

(** [n, ..., 1] with their predecessors and then [0]. *)
Definition positions_back (n : nat) : list (nat * nat) :=
  ((fun p => (p, (p - 1)%nat)) <$> reverse (seq 1 n)) ++ [(0%nat, n)].

Definition decrypt_round (sum : Z) (vy : list Z * Z) : list Z * Z :=
  let e := Z.land (Z.shiftr sum 2) 3 in
  foldl (decrypt_word sum e) vy (positions_back (length vy.1 - 1)).

(** The loop runs until the sum is zero; [None] is the end of the fuel. *)
Fixpoint decrypt_rounds (fuel : nat) (sum : Z) (vy : list Z * Z) : option (list Z * Z) :=
  match fuel with
  | O => None
  | S fuel =>
      if sum =? 0 then Some vy else decrypt_rounds fuel (u32 (sum - DELTA)) (decrypt_round sum vy)
  end.

Definition decrypt (v : list Z) : option (list Z) :=
  fst <$> decrypt_rounds (S (rounds v)) (u32 (Z.of_nat (rounds v) * DELTA)) (v, word v 0).

End cipher.

(** The words and the key, which is converted back at the end. *)
Definition xxteaEncrypt (v key : list Z) (endianConv : bool) : list Z * list Z :=
  let key := cipher_key endianConv key in (encrypt key v, cipher_key endianConv key).
Definition xxteaDecrypt (v key : list Z) (endianConv : bool) : option (list Z * list Z) :=
  let key := cipher_key endianConv key in v ← decrypt key v; Some (v, cipher_key endianConv key).

End XXTEA.

Module XxteaFacts.
Import XXTEA.

Definition word_ok (x : Z) : Prop := 0 <= x < 2 ^ 32.

(** Reversing the bytes of a word. *)
Lemma land_mask x m k : 0 <= k -> Z.land x (Z.shiftl m k) = Z.shiftl (Z.land (Z.shiftr x k) m) k.
Proof.
  intros Hk. apply Z.bits_inj'. intros i Hi. rewrite Z.land_spec. destruct (Z.lt_ge_cases i k) as [Hl|Hg].
  - rewrite !Z.shiftl_spec_low by lia. by rewrite andb_false_r.
  - rewrite !Z.shiftl_spec, Z.land_spec, Z.shiftr_spec by lia. by replace (i - k + k) with i by lia.
Qed.

Lemma land255 x : Z.land x 255 = x mod 256.
Proof. exact (Z.land_ones x 8 ltac:(lia)). Qed.

Lemma endian_value x : word_ok x ->
  EndianConversion32 x = x / 2 ^ 24 + 2 ^ 8 * (x / 2 ^ 16 mod 256) + 2 ^ 16 * (x / 2 ^ 8 mod 256) + 2 ^ 24 * (x mod 256).
Proof.
  intros Hx. unfold word_ok in Hx. unfold EndianConversion32.
  change 4278190080 with (Z.shiftl 255 24). change 16711680 with (Z.shiftl 255 16). change 65280 with (Z.shiftl 255 8).
  rewrite !land_mask, !land255 by lia. rewrite !Z.shiftl_mul_pow2, !Z.shiftr_div_pow2 by lia.
  set (b3 := x / 2 ^ 24 mod 256). set (b2 := x / 2 ^ 16 mod 256). set (b1 := x / 2 ^ 8 mod 256). set (b0 := x mod 256).
  assert (x / 2 ^ 24 = b3) as -> by (unfold b3; symmetry; apply Z.mod_small; dlia).
  assert (0 <= b0 < 256 /\ 0 <= b1 < 256 /\ 0 <= b2 < 256 /\ 0 <= b3 < 256) as (H0 & H1 & H2 & H3)
    by (unfold b0, b1, b2, b3; repeat split; apply Z.mod_pos_bound; lia). clearbody b0 b1 b2 b3.
  rewrite Z.div_mul by lia. replace (b2 * 2 ^ 16 / 2 ^ 8) with (b2 * 2 ^ 8) by (apply Z.div_unique_exact; lia).
  replace (b1 * 2 ^ 8 * 2 ^ 8) with (b1 * 2 ^ 16) by lia. rewrite !wrapu_id by lia.
  rewrite (Z.lor_comm b3), (lor_low _ _ 8), (Z.lor_comm (_ + _)), (lor_low _ _ 16), Z.lor_comm, (lor_low _ _ 24) by lia. lia.
Qed.

Lemma endian_involutive x : word_ok x -> EndianConversion32 (EndianConversion32 x) = x.
Proof.
  intros Hx. assert (word_ok (EndianConversion32 x)) as Hy by (rewrite endian_value by done; unfold word_ok in *; dlia).
  rewrite (endian_value _ Hy), endian_value by done. unfold word_ok in Hx. clear Hy.
  set (b3 := x / 2 ^ 24). set (b2 := x / 2 ^ 16 mod 256). set (b1 := x / 2 ^ 8 mod 256). set (b0 := x mod 256).
  assert (x = b0 + 2 ^ 8 * b1 + 2 ^ 16 * b2 + 2 ^ 24 * b3) as Ex by (unfold b0, b1, b2, b3; dlia).
  assert (0 <= b0 < 256 /\ 0 <= b1 < 256 /\ 0 <= b2 < 256 /\ 0 <= b3 < 256) as (H0 & H1 & H2 & H3)
    by (unfold b0, b1, b2, b3; repeat split; dlia). clearbody b0 b1 b2 b3. rewrite Ex. dlia.
Qed.

Lemma cipher_key_involutive b key : Forall word_ok key -> cipher_key b (cipher_key b key) = key.
Proof.
  intros Hk. destruct b; [|done]. unfold cipher_key. rewrite <- list_fmap_compose.
  rewrite <- (list_fmap_id key) at 2. apply list_fmap_ext. intros i x Hx. rewrite Forall_lookup in Hk.
  by apply endian_involutive, (Hk i).
Qed.

(** In a round of encryption the running word is the cyclic predecessor. *)
Definition next (n p : nat) : nat := if (p =? n)%nat then 0%nat else S p.
Definition prev (n p : nat) : nat := if (p =? 0)%nat then n else (p - 1)%nat.

Section facts.
Context (key : list Z) (sum e : Z).

Definition step (v : list Z) (n p : nat) : list Z :=
  <[p := u32 (word v p + mx sum (word v (next n p)) (word v (prev n p)) (Z.of_nat p) e key)]> v.
Definition unstep (v : list Z) (n p : nat) : list Z :=
  <[p := u32 (word v p - mx sum (word v (next n p)) (word v (prev n p)) (Z.of_nat p) e key)]> v.

Lemma word_insert_eq v p x : (p < length v)%nat -> word (<[p := x]> v) p = x.
Proof using Type. intros H. unfold word. by rewrite list_lookup_insert_eq. Qed.
Lemma word_insert_ne v p q x : p <> q -> word (<[p := x]> v) q = word v q.
Proof using Type. intros H. unfold word. by rewrite list_lookup_insert_ne. Qed.

Lemma unstep_step v n p : length v = S n -> (1 <= n)%nat -> (p <= n)%nat -> Forall word_ok v -> unstep (step v n p) n p = v.
Proof using Type.
  intros Hl Hn Hp Hv. unfold unstep, step.
  assert (next n p <> p /\ prev n p <> p) as [H1 H2].
  { unfold next, prev. destruct (Nat.eqb_spec p n), (Nat.eqb_spec p 0); lia. }
  rewrite word_insert_eq, !word_insert_ne by (done || lia). rewrite list_insert_insert_eq.
  apply list_insert_id. destruct (lookup_lt_is_Some_2 v p ltac:(lia)) as [x Hx].
  rewrite Forall_lookup in Hv. pose proof (Hv _ _ Hx) as Hw.
  assert (word v p = x) as -> by (unfold word; by rewrite Hx). rewrite Hx. f_equal.
  unfold wrapu, word_ok in *. rewrite Zminus_mod_idemp_l, Z.add_simpl_r. symmetry. by apply Z.mod_small.
Qed.

Lemma step_ok v n p : Forall word_ok v -> Forall word_ok (step v n p) /\ length (step v n p) = length v.
Proof using Type.
  intros Hv. unfold step. split; [|apply length_insert]. apply Forall_insert; [done|]. by apply wrapu_range.
Qed.

(** The loops of the code are these steps. *)
Lemma encrypt_steps n : forall l v z, length v = S n -> (1 <= n)%nat ->
  (match l with [] => True | p :: _ => z = word v (prev n p) end) ->
  (forall i p q, l !! i = Some p -> l !! S i = Some q -> q = S p) -> Forall (fun p => (p <= n)%nat) l ->
  foldl (encrypt_word key sum e) (v, z) ((fun p => (p, next n p)) <$> l)
  = (foldl (fun v p => step v n p) v l, match last l with Some p => word (foldl (fun v p => step v n p) v l) p | None => z end).
Proof using Type.
  induction l as [|p l IH]; intros v z Hl Hn Hz Hc Hp; [done|]. apply Forall_cons in Hp as [Hp Hps].
  cbn [fmap list_fmap foldl encrypt_word]. rewrite Hz.
  set (x := u32 _). change (<[p := x]> v) with (step v n p).
  rewrite IH.
  - destruct l as [|q l].
    2:{ change (last (p :: q :: l)) with (last (q :: l)). destruct (proj2 (last_is_Some (q :: l)) ltac:(done)) as [x' E]. by rewrite E. }
    cbn [foldl last]. f_equal. unfold step. by rewrite word_insert_eq by lia.
  - unfold step. by rewrite length_insert.
  - done.
  - destruct l as [|q l]; [done|]. rewrite (Hc 0%nat p q eq_refl eq_refl). unfold prev. cbn [Nat.eqb]. rewrite Nat.sub_succ, Nat.sub_0_r.
    unfold step. by rewrite word_insert_eq by lia.
  - intros i a b Ha Hb. by apply (Hc (S i)).
  - done.
Qed.

Lemma decrypt_steps n : forall l v y, length v = S n -> (1 <= n)%nat ->
  (match l with [] => True | p :: _ => y = word v (next n p) end) ->
  (forall i p q, l !! i = Some p -> l !! S i = Some q -> p = S q) -> Forall (fun p => (p <= n)%nat) l ->
  foldl (decrypt_word key sum e) (v, y) ((fun p => (p, prev n p)) <$> l)
  = (foldl (fun v p => unstep v n p) v l, match last l with Some p => word (foldl (fun v p => unstep v n p) v l) p | None => y end).
Proof using Type.
  induction l as [|p l IH]; intros v y Hl Hn Hy Hc Hp; [done|]. apply Forall_cons in Hp as [Hp Hps].
  cbn [fmap list_fmap foldl decrypt_word]. rewrite Hy.
  set (x := u32 _). change (<[p := x]> v) with (unstep v n p).
  rewrite IH.
  - destruct l as [|q l].
    2:{ change (last (p :: q :: l)) with (last (q :: l)). destruct (proj2 (last_is_Some (q :: l)) ltac:(done)) as [x' E]. by rewrite E. }
    cbn [foldl last]. f_equal. unfold unstep. by rewrite word_insert_eq by lia.
  - unfold unstep. by rewrite length_insert.
  - done.
  - destruct l as [|q l]; [done|]. pose proof (Hc 0%nat p q eq_refl eq_refl) as ->. unfold next.
    apply Forall_cons in Hps as [Hq _]. destruct (Nat.eqb_spec q n); [lia|]. unfold unstep. by rewrite word_insert_eq by lia.
  - intros i a b Ha Hb. by apply (Hc (S i)).
  - done.
Qed.

Lemma unsteps_steps n l : forall v, length v = S n -> (1 <= n)%nat -> Forall (fun p => (p <= n)%nat) l -> Forall word_ok v ->
  foldl (fun v p => unstep v n p) (foldl (fun v p => step v n p) v l) (reverse l) = v.
Proof using Type.
  induction l as [|p l IH]; intros v Hl Hn Hp Hv; [done|]. apply Forall_cons in Hp as [Hp Hps]. cbn [foldl].
  rewrite reverse_cons, foldl_app. destruct (step_ok v n p Hv) as [Hv' Hl']. rewrite IH by (done || congruence). cbn [foldl].
  by apply unstep_step.
Qed.

Lemma steps_ok n l : forall v, Forall word_ok v -> Forall word_ok (foldl (fun v p => step v n p) v l)
  /\ length (foldl (fun v p => step v n p) v l) = length v.
Proof using Type.
  induction l as [|p l IH]; intros v Hv; [done|]. cbn [foldl]. destruct (step_ok v n p Hv) as [Hv' Hl'].
  destruct (IH _ Hv') as [H1 H2]. split; [done|congruence].
Qed.

Lemma positions_next n : positions n = (fun p => (p, next n p)) <$> seq 0 (S n).
Proof using Type.
  unfold positions. rewrite seq_S, fmap_app. f_equal; [|cbn; unfold next; by rewrite Nat.eqb_refl].
  apply list_fmap_ext. intros i p Hi. apply lookup_seq in Hi. unfold next. destruct (Nat.eqb_spec p n); [lia|done].
Qed.

Lemma positions_prev n : positions_back n = (fun p => (p, prev n p)) <$> reverse (seq 0 (S n)).
Proof using Type.
  unfold positions_back. cbn [seq]. rewrite reverse_cons, fmap_app. f_equal.
  apply list_fmap_ext. intros i p Hi. apply list_elem_of_lookup_2 in Hi.
  apply elem_of_reverse, elem_of_seq in Hi. unfold prev. destruct (Nat.eqb_spec p 0); [lia|done].
Qed.

Lemma reverse_seq_lookup n i p q : reverse (seq 0 (S n)) !! i = Some p -> reverse (seq 0 (S n)) !! S i = Some q -> p = S q.
Proof using Type.
  intros Hp Hq.
  assert (S i < length (seq 0 (S n)))%nat as Hlt by (rewrite <- length_reverse; by eapply lookup_lt_Some).
  rewrite reverse_lookup in Hp, Hq by lia. apply lookup_seq in Hp, Hq. rewrite length_seq in *. lia.
Qed.

End facts.

Section rounds.
Context (key : list Z).

Definition round (n : nat) (sum : Z) (v : list Z) : list Z :=
  foldl (fun v p => step key sum (Z.land (Z.shiftr sum 2) 3) v n p) v (seq 0 (S n)).

Lemma encrypt_round_eq n sum v : length v = S n -> (1 <= n)%nat ->
  encrypt_round key sum (v, word v n) = (round n sum v, word (round n sum v) n).
Proof using Type.
  intros Hl Hn. unfold encrypt_round. cbn [fst]. replace (length v - 1)%nat with n by lia.
  rewrite positions_next, (encrypt_steps key sum _ n); try done.
  - assert (last (seq 0 (S n)) = Some n) as -> by (by rewrite seq_S, last_snoc). done.
  - intros i p q Hp Hq. apply lookup_seq in Hp, Hq. lia.
  - apply Forall_forall. intros p Hp. apply elem_of_seq in Hp. lia.
Qed.

Lemma decrypt_round_eq n sum v : length v = S n -> (1 <= n)%nat -> Forall word_ok v ->
  decrypt_round key sum (round n sum v, word (round n sum v) 0) = (v, word v 0).
Proof using Type.
  intros Hl Hn Hv. unfold decrypt_round. cbn [fst].
  destruct (steps_ok key sum (Z.land (Z.shiftr sum 2) 3) n (seq 0 (S n)) v Hv) as [Hv' Hl'].
  change (foldl _ v (seq 0 (S n))) with (round n sum v) in Hv', Hl'. rewrite Hl', Hl.
  replace (S n - 1)%nat with n by lia.
  rewrite positions_prev, (decrypt_steps key sum _ n); try done; try congruence.
  - unfold round. rewrite unsteps_steps; try done.
    + rewrite last_reverse. done.
    + apply Forall_forall. intros p Hp. apply elem_of_seq in Hp. lia.
  - rewrite seq_S, reverse_snoc. unfold next. by rewrite Nat.eqb_refl.
  - apply reverse_seq_lookup.
  - apply Forall_forall. intros p Hp. apply elem_of_reverse, elem_of_seq in Hp. lia.
Qed.

Lemma encrypt_rounds_snoc q sum vz :
  encrypt_rounds key (S q) sum vz = encrypt_round key (u32 (sum + Z.of_nat (S q) * DELTA)) (encrypt_rounds key q sum vz).
Proof using Type.
  revert sum vz. induction q as [|q IH]; intros sum vz.
  - cbn [encrypt_rounds]. by rewrite Z.mul_1_l.
  - change (encrypt_rounds key (S (S q)) sum vz) with
      (encrypt_rounds key (S q) (u32 (sum + DELTA)) (encrypt_round key (u32 (sum + DELTA)) vz)).
    rewrite IH. cbn [encrypt_rounds]. f_equal. unfold wrapu. rewrite Zplus_mod_idemp_l. f_equal. lia.
Qed.

(** The sum is not zero before all rounds are undone. *)
Lemma sum_nonzero q : (0 < q <= 58)%nat -> u32 (Z.of_nat q * DELTA) <> 0.
Proof using Type.
  intros Hq. assert (all_below 59 (fun q => (q =? 0) || negb (u32 (q * DELTA) =? 0)) = true) as Hall by (vm_compute; reflexivity).
  apply (all_below_spec 59 _) with (z := Z.of_nat q) in Hall; [|lia].
  apply orb_true_iff in Hall as [Hz%Z.eqb_eq|Hz%negb_true_iff%Z.eqb_neq]; [lia|done].
Qed.

Lemma rounds_inverse n v q : length v = S n -> (1 <= n)%nat -> Forall word_ok v -> (q <= 58)%nat ->
  exists v', encrypt_rounds key q 0 (v, word v n) = (v', word v' n) /\ length v' = S n /\ Forall word_ok v' /\
    forall fuel, (q < fuel)%nat -> decrypt_rounds key fuel (u32 (Z.of_nat q * DELTA)) (v', word v' 0) = Some (v, word v 0).
Proof using Type.
  intros Hl Hn Hv. induction q as [|q IH]; intros Hq.
  - exists v. split_and!; try done. intros fuel Hf. by destruct fuel; [lia|].
  - destruct (IH ltac:(lia)) as (v' & E & Hl' & Hv' & Hd). rewrite encrypt_rounds_snoc, E, encrypt_round_eq by done.
    rewrite Z.add_0_l. set (sum := u32 (Z.of_nat (S q) * DELTA)).
    destruct (steps_ok key sum (Z.land (Z.shiftr sum 2) 3) n (seq 0 (S n)) v' Hv') as [Hv2 Hl2].
    exists (round n sum v'). split_and!; [done|by rewrite <- Hl'|done|].
    intros fuel Hf. destruct fuel as [|fuel]; [lia|]. cbn [decrypt_rounds].
    rewrite (proj2 (Z.eqb_neq _ _)) by (apply sum_nonzero; lia). rewrite decrypt_round_eq by done.
    rewrite <- (Hd fuel) by lia. f_equal. unfold sum, wrapu. rewrite Zminus_mod_idemp_l. f_equal. lia.
Qed.

End rounds.
End XxteaFacts.

(** ** The properties *)

Record MediaProperties := MkMediaProperties {
  shortformat : Z;
  width : Z;
  height : Z;
  fps : Z;
  playtime : Z;
  containerName : bytes;
  videocodecNames : bytes;
  audiocodecNames : bytes;
  containerFormat : bytes;
  videocodecFormat : bytes;
  audiocodecFormat : bytes;
  containerid : Z;
  videocodecid : Z;
  audiocodecid : Z;
  is_VFR : bool;
  no_audio : bool
}.

Module Media.
Import XXTEA.

Definition UNKNOWN_FORMAT : Z := 254.
Definition NOT_IDENTIFIED_FORMAT : Z := 255.
Definition MEDIA_INFO_BUILD : Z := 1.
Definition fa_media : Z := 8.
Definition fa_mediaext : Z := 9.

(** The constructor. *)
Definition new_MediaProperties : MediaProperties :=
  MkMediaProperties UNKNOWN_FORMAT 0 0 0 0 [] [] [] [] [] [] 0 0 0 false false.

Definition isPopulated (m : MediaProperties) : bool := negb (shortformat m =? UNKNOWN_FORMAT).
Definition isIdentified (m : MediaProperties) : bool := isPopulated m && negb (shortformat m =? NOT_IDENTIFIED_FORMAT).

Definition properties_eqb (m o : MediaProperties) : bool :=
  (shortformat m =? shortformat o) && (width m =? width o) && (height m =? height o) && (fps m =? fps o)
  && (playtime m =? playtime o)
  && (negb (shortformat m =? 0)
      || ((containerid m =? containerid o) && (videocodecid m =? videocodecid o) && (audiocodecid m =? audiocodecid o))).

(** [serialize] and the constructor that reads it back; a read that fails leaves
    its member uninitialised, as [junk] is. *)
Definition serialize (m : MediaProperties) : bytes :=
  let s := CacheableWriter.serializebyte [] (shortformat m) in
  let s := CacheableWriter.serializeu32 s (width m) in
  let s := CacheableWriter.serializeu32 s (height m) in
  let s := CacheableWriter.serializeu32 s (fps m) in
  let s := CacheableWriter.serializeu32 s (playtime m) in
  let s := CacheableWriter.serializeu32 s (containerid m) in
  let s := CacheableWriter.serializeu32 s (videocodecid m) in
  let s := CacheableWriter.serializeu32 s (audiocodecid m) in
  let s := CacheableWriter.serializebool s (is_VFR m) in
  let s := CacheableWriter.serializebool s (no_audio m) in
  CacheableWriter.serializeexpansionflags s (replicate 8 false).

Definition deserialize (junk : MediaProperties) (d : bytes) : MediaProperties :=
  let r := CacheableReader.init d in
  let '(_, sf, r) := CacheableReader.unserializebyte (shortformat junk) r in
  let '(_, w, r) := CacheableReader.unserializeu32 (width junk) r in
  let '(_, h, r) := CacheableReader.unserializeu32 (height junk) r in
  let '(_, f, r) := CacheableReader.unserializeu32 (fps junk) r in
  let '(_, p, r) := CacheableReader.unserializeu32 (playtime junk) r in
  let '(_, c, r) := CacheableReader.unserializeu32 (containerid junk) r in
  let '(_, v, r) := CacheableReader.unserializeu32 (videocodecid junk) r in
  let '(_, a, r) := CacheableReader.unserializeu32 (audiocodecid junk) r in
  let '(_, vfr, r) := CacheableReader.unserializebool (is_VFR junk) r in
  let '(_, na, r) := CacheableReader.unserializebool (no_audio junk) r in
  MkMediaProperties sf w h f p [] [] [] [] [] [] c v a vfr na.

(** Eight bytes as two words of memory, and back. *)
Definition words_of (b : bytes) : list Z := [le_value (take 4 b); le_value (take 4 (drop 4 b))].
Definition bytes_of (v : list Z) : bytes := mjoin (le_bytes 4 <$> v).

(** [result << id], a decimal number below ten. *)
Definition formatfileattr (id : Z) (data : bytes) (fakey : list Z) : bytes :=
  let v := (xxteaEncrypt (words_of data) fakey true).1 in
  chr "0" + id :: chr "*" :: Base64.btoa_string (bytes_of v).

(** The squeezed fields: the lowest bit tells that the scale was changed. *)
Definition squeeze_dim (x : Z) : Z :=
  let x := u32 (Z.shiftl x 1) in
  let x := if 32768 <=? x then Z.lor (Z.shiftr (u32 (x - 32768)) 3) 1 else x in
  if 32768 <=? x then 32767 else x.
Definition squeeze_playtime (x : Z) : Z :=
  let x := u32 (Z.shiftl x 1) in
  let x := if 262144 <=? x then Z.lor (u32 (x - 262200) / 60) 1 else x in
  if 262144 <=? x then 262143 else x.
Definition squeeze_fps (x : Z) : Z :=
  let x := u32 (Z.shiftl x 1) in
  let x := if 256 <=? x then Z.lor (Z.shiftr (u32 (x - 256)) 3) 1 else x in
  if 256 <=? x then 255 else x.

Definition pack (w h f p sf : Z) : bytes :=
  [Z.land w 255;
   u8 (Z.land (Z.shiftr w 8) 127 + Z.shiftl (Z.land h 1) 7);
   u8 (Z.land (Z.shiftr h 1) 255);
   u8 (Z.shiftl (Z.land f 3) 6 + Z.land (Z.shiftr h 9) 63);
   u8 (Z.shiftl (Z.land p 3) 6 + Z.shiftr f 2);
   u8 (Z.land (Z.shiftr p 2) 255);
   u8 (Z.shiftr p 10);
   sf].

Definition pack_ext (c v a : Z) : bytes :=
  [u8 c; Z.land v 255; u8 (Z.land (Z.shiftr v 8) 15 + Z.shiftl (Z.land a 15) 4); Z.land (Z.shiftr a 4) 255; 0; 0; 0; 0].

(** [encodeMediaPropertiesAttributes] *)
Definition encode (vp : MediaProperties) (fakey : list Z) : bytes :=
  let data := pack (squeeze_dim (width vp)) (squeeze_dim (height vp)) (squeeze_fps (fps vp)) (squeeze_playtime (playtime vp))
                (shortformat vp) in
  let result := formatfileattr fa_media data fakey in
  if shortformat vp =? 0 then
    result ++ chr "/" :: formatfileattr fa_mediaext (pack_ext (containerid vp) (videocodecid vp) (audiocodecid vp)) fakey
  else result.

(** [std::string::find]: the first position. *)
Fixpoint find_sub (pat l : bytes) : option nat :=
  if bool_decide (take (length pat) l = pat) then Some 0%nat
  else match l with [] => None | _ :: l => S <$> find_sub pat l end.

(** [Node::hasfileattribute]: the position of the attribute plus one. *)
Definition hasfileattribute (s : bytes) (t : Z) : Z :=
  match find_sub [chr ":"; chr "0" + t; chr "*"] s with Some n => Z.of_nat n + 1 | None => 0 end.

(** The eight bytes of an attribute at a position, decrypted; [v] is what the
    buffer held before. *)
Definition read_attr (attrs : bytes) (pos : Z) (fakey : list Z) (v : bytes) : option bytes :=
  binary ← Base64.atob_string (substr attrs (Z.to_nat (pos + 3)) 11);
  let v := take 8 binary ++ drop (Nat.min 8 (length binary)) v in
  '(v, _) ← xxteaDecrypt (words_of v) fakey true;
  Some (bytes_of v).

Definition byte_at (v : bytes) (i : nat) : Z := default 0 (v !! i).

Definition unpack_width (v : bytes) : Z :=
  let w := Z.shiftr (byte_at v 0) 1 + Z.shiftl (Z.land (byte_at v 1) 127) 7 in
  if Z.land (byte_at v 0) 1 =? 0 then w else u32 (Z.shiftl w 3 + 16384).
Definition unpack_height (v : bytes) : Z :=
  let h := byte_at v 2 + Z.shiftl (Z.land (byte_at v 3) 63) 8 in
  if Z.land (byte_at v 1) 128 =? 0 then h else u32 (Z.shiftl h 3 + 16384).
Definition unpack_fps (v : bytes) : Z :=
  let f := Z.shiftr (byte_at v 3) 7 + Z.shiftl (Z.land (byte_at v 4) 63) 1 in
  if Z.land (byte_at v 3) 64 =? 0 then f else u32 (Z.shiftl f 3 + 128).
Definition unpack_playtime (v : bytes) : Z :=
  let p := Z.shiftr (byte_at v 4) 7 + Z.shiftl (byte_at v 5) 1 + Z.shiftl (byte_at v 6) 9 in
  if Z.land (byte_at v 4) 64 =? 0 then p else u32 (p * 60 + 131100).

(** The position of an attribute with eleven characters behind it. *)
Definition attr_pos (attrs : bytes) (t : Z) : option Z :=
  let ppo := hasfileattribute attrs t in
  let pos := ppo - 1 in
  if negb (ppo =? 0) && (pos + 3 + 11 <=? s32 (zlength attrs)) then Some pos else None.

(** [decodeMediaPropertiesAttributes]; the outer option is the fuel of the
    routines called. *)
Definition decode (attrs : bytes) (fakey : list Z) (v : bytes) : option (option MediaProperties) :=
  match attr_pos attrs fa_media with
  | None => Some None
  | Some pos =>
      v ← read_attr attrs pos fakey v;
      let r := MkMediaProperties (byte_at v 7) (unpack_width v) (unpack_height v) (unpack_fps v) (unpack_playtime v)
                 [] [] [] [] [] [] 0 0 0 false false in
      if shortformat r =? 0 then
        match attr_pos attrs fa_mediaext with
        | None => Some (Some r)
        | Some pos =>
            v ← read_attr attrs pos fakey v;
            Some (Some (MkMediaProperties (shortformat r) (width r) (height r) (fps r) (playtime r) [] [] [] [] [] []
              (byte_at v 0)
              (byte_at v 1 + Z.shiftl (Z.land (byte_at v 2) 15) 8)
              (Z.shiftr (byte_at v 2) 4 + Z.shiftl (byte_at v 3) 4) false false))
        end
      else Some (Some r)
  end.

(** The attributes as the server returns them, as the check of the encoder in
    [convertMediaPropertyFileAttributes] has it: a colon in front, and one for
    the first slash. *)
Definition server_attrs (attrs : bytes) : bytes :=
  let s := chr ":" :: attrs in
  match find_sub [chr "/"] s with Some n => take n s ++ chr ":" :: drop (S n) s | None => s end.

(** ** Codec tables *)

(** [MediaCodecs] *)
Record shortformatrec := ShortFormat { rec_id : Z; rec_container : Z; rec_video : Z; rec_audio : Z }.

Record MediaCodecs := MkCodecs {
  containers : list (bytes * Z);
  videocodecs : list (bytes * Z);
  audiocodecs : list (bytes * Z);
  shortformats : list shortformatrec
}.

Definition separator : bytes := [32; chr "/"; 32].

(** [name.find(" / ", pos)], from the start of the name. *)
Definition find_from (pos : nat) (name : bytes) : option nat :=
  (fun n => pos + n)%nat <$> find_sub separator (drop pos name).

(** The first name of a list that is in the table: [substr] is given the end of
    the name as its length. *)
Fixpoint Lookup (fuel : nat) (name : bytes) (data : list (bytes * Z)) (notfound : Z) : option Z :=
  match fuel with
  | O => None
  | S fuel =>
      let fix loop (n : nat) (pos seppos : nat) : option Z :=
        match n with
        | O => None
        | S n =>
            result ← Lookup fuel (substr name pos seppos) data notfound;
            if negb (result =? notfound) then Some result
            else
              let pos := (seppos + 3)%nat in
              match find_from pos name with
              | Some seppos => loop n pos seppos
              | None => Lookup fuel (drop pos name) data notfound
              end
        end in
      match find_from 0 name with
      | Some seppos => loop (S (length name)) 0%nat seppos
      | None => Some (match list_find (fun e => e.1 = name) data with Some (_, e) => e.2 | None => notfound end)
      end
  end.

(** The last entry for a combination; zero is an exotic one. *)
Definition LookupShortFormat (codecs : MediaCodecs) (c v a : Z) : Z :=
  match list_find (fun r => rec_container r = c /\ rec_video r = v /\ rec_audio r = a) (reverse (shortformats codecs)) with
  | Some (_, r) => rec_id r
  | None => 0
  end.

(** [Lookup] of the name and, where that gives nothing, of the format. *)
Definition lookup_either (name format : bytes) (data : list (bytes * Z)) : option Z :=
  id ← Lookup (S (length name)) name data 0;
  if id =? 0 then Lookup (S (length format)) format data 0 else Some id.

(** [convertMediaPropertyFileAttributes]: the properties sent and the
    attributes; the versions are those of the library and of the tables. *)
Definition convert (codecs : MediaCodecs) (library maps : Z) (m : MediaProperties) (fakey : list Z)
    : option (MediaProperties * bytes) :=
  c ← lookup_either (containerName m) (containerFormat m) (containers codecs);
  v ← lookup_either (videocodecNames m) (videocodecFormat m) (videocodecs codecs);
  a ← lookup_either (audiocodecNames m) (audiocodecFormat m) (audiocodecs codecs);
  let identified :=
    negb (c =? 0)
    && ((negb (v =? 0) && negb (width m =? 0) && negb (height m =? 0) && (negb (a =? 0) || no_audio m))
        || (negb (a =? 0) && (v =? 0))) in
  let m' :=
    if identified then
      MkMediaProperties (LookupShortFormat codecs c v a) (width m) (height m) (fps m) (playtime m) (containerName m)
        (videocodecNames m) (audiocodecNames m) (containerFormat m) (videocodecFormat m) (audiocodecFormat m) c v a
        (is_VFR m) (no_audio m)
    else
      MkMediaProperties NOT_IDENTIFIED_FORMAT library 0 MEDIA_INFO_BUILD maps (containerName m)
        (videocodecNames m) (audiocodecNames m) (containerFormat m) (videocodecFormat m) (audiocodecFormat m) c v a
        (is_VFR m) (no_audio m) in
  Some (m', encode m' fakey).

(** [timeToRetryMediaPropertyExtraction] *)
Definition timeToRetry (library maps : Z) (attrs : bytes) (fakey junk : list Z) : option bool :=
  vp ← decode attrs fakey junk;
  Some (match vp with
        | Some vp => isIdentified vp && ((fps vp <? MEDIA_INFO_BUILD) || (width vp <? library) || (playtime vp <? maps))
        | None => false
        end).

End Media.

Module MediaFacts.
Import XXTEA Media.

(** What a reader of the attribute sees of a field. *)
Definition shown_dim (x : Z) : Z :=
  if x <? 16384 then x else if x <? 147456 then x - x mod 8 else 147448.
Definition shown_fps (x : Z) : Z :=
  if x <? 128 then x else if x <? 1152 then x - x mod 8 else 1144.
Definition shown_playtime (x : Z) : Z :=
  if x <? 131072 then x else if x <? 131100 then 7995360
  else if x <? 7995420 then x - (x - 131100) mod 60 else 7995360.

Lemma lor1 x : 0 <= x -> Z.lor x 1 = 2 * (x / 2) + 1.
Proof.
  intros Hx. pose proof (lor_low (x / 2) 1 1 ltac:(lia) ltac:(lia)) as E1. change (2 ^ 1) with 2 in E1.
  assert (x = x / 2 * 2 + x mod 2) as Ex by dlia.
  assert (x mod 2 = 0 \/ x mod 2 = 1) as [E | E] by (pose proof (Z.mod_pos_bound x 2); lia); rewrite E in Ex.
  - rewrite Ex at 1. rewrite Z.add_0_r, E1. lia.
  - rewrite Ex at 1. rewrite <- E1, <- Z.lor_assoc. change (Z.lor 1 1) with 1. lia.
Qed.

Definition expand_dim (x : Z) : Z := if x mod 2 =? 0 then x / 2 else x / 2 * 8 + 16384.
Definition expand_fps (x : Z) : Z := if x mod 2 =? 0 then x / 2 else x / 2 * 8 + 128.
Definition expand_playtime (x : Z) : Z := if x mod 2 =? 0 then x / 2 else x / 2 * 60 + 131100.

Lemma squeeze_dim_shown x : 0 <= x < 2 ^ 31 -> 0 <= squeeze_dim x < 32768 /\ expand_dim (squeeze_dim x) = shown_dim x.
Proof.
  intros Hx. unfold squeeze_dim, expand_dim, shown_dim. rewrite Z.shiftl_mul_pow2 by lia. rewrite (wrapu_id 32 (_ * _)) by lia.
  destruct (Z.leb_spec 32768 (x * 2 ^ 1)).
  - rewrite (wrapu_id 32) by lia. rewrite Z.shiftr_div_pow2, lor1 by (try apply Z.div_pos; lia).
    destruct (Z.leb_spec 32768 (2 * ((x * 2 ^ 1 - 32768) / 2 ^ 3 / 2) + 1)).
    + split; [lia|]. rewrite (proj2 (Z.ltb_ge x 16384)), (proj2 (Z.ltb_ge x 147456)) by dlia. done.
    + split; [dlia|]. rewrite (proj2 (Z.ltb_ge x 16384)), (proj2 (Z.ltb_lt x 147456)) by dlia.
      rewrite (proj2 (Z.eqb_neq _ 0)) by dlia. dlia.
  - rewrite (proj2 (Z.leb_gt _ _)), (proj2 (Z.ltb_lt x 16384)) by lia. rewrite (proj2 (Z.eqb_eq _ 0)) by dlia. dlia.
Qed.

Lemma squeeze_fps_shown x : 0 <= x < 2 ^ 31 -> 0 <= squeeze_fps x < 256 /\ expand_fps (squeeze_fps x) = shown_fps x.
Proof.
  intros Hx. unfold squeeze_fps, expand_fps, shown_fps. rewrite Z.shiftl_mul_pow2 by lia. rewrite (wrapu_id 32 (_ * _)) by lia.
  destruct (Z.leb_spec 256 (x * 2 ^ 1)).
  - rewrite (wrapu_id 32) by lia. rewrite Z.shiftr_div_pow2, lor1 by (try apply Z.div_pos; lia).
    destruct (Z.leb_spec 256 (2 * ((x * 2 ^ 1 - 256) / 2 ^ 3 / 2) + 1)).
    + split; [lia|]. rewrite (proj2 (Z.ltb_ge x 128)), (proj2 (Z.ltb_ge x 1152)) by dlia. done.
    + split; [dlia|]. rewrite (proj2 (Z.ltb_ge x 128)), (proj2 (Z.ltb_lt x 1152)) by dlia.
      rewrite (proj2 (Z.eqb_neq _ 0)) by dlia. dlia.
  - rewrite (proj2 (Z.leb_gt _ _)), (proj2 (Z.ltb_lt x 128)) by lia. rewrite (proj2 (Z.eqb_eq _ 0)) by dlia. dlia.
Qed.

Lemma squeeze_playtime_shown x : 0 <= x < 2 ^ 31 ->
  0 <= squeeze_playtime x < 262144 /\ expand_playtime (squeeze_playtime x) = shown_playtime x.
Proof.
  intros Hx. unfold squeeze_playtime, expand_playtime, shown_playtime. rewrite Z.shiftl_mul_pow2 by lia. rewrite (wrapu_id 32 (_ * _)) by lia.
  destruct (Z.leb_spec 262144 (x * 2 ^ 1)).
  - rewrite (proj2 (Z.ltb_ge x 131072)) by lia. destruct (Z.ltb_spec x 131100).
    + assert (u32 (x * 2 ^ 1 - 262200) = x * 2 ^ 1 - 262200 + 2 ^ 32) as ->.
      { unfold wrapu. symmetry. apply (Z.mod_unique_pos _ _ (-1)); lia. }
      rewrite lor1 by (apply Z.div_pos; lia). rewrite (proj2 (Z.leb_le _ _)) by dlia. split; [lia|done].
    + rewrite (wrapu_id 32) by lia. rewrite lor1 by (apply Z.div_pos; lia).
      destruct (Z.leb_spec 262144 (2 * ((x * 2 ^ 1 - 262200) / 60 / 2) + 1)).
      * split; [lia|]. rewrite (proj2 (Z.ltb_ge x 7995420)) by dlia. done.
      * split; [dlia|]. rewrite (proj2 (Z.ltb_lt x 7995420)) by dlia. rewrite (proj2 (Z.eqb_neq _ 0)) by dlia. dlia.
  - rewrite (proj2 (Z.leb_gt _ _)), (proj2 (Z.ltb_lt x 131072)) by lia. rewrite (proj2 (Z.eqb_eq _ 0)) by dlia. dlia.
Qed.

(** *** The bytes *)

Lemma land_mod x k m : m = 2 ^ k - 1 -> 0 <= k -> Z.land x m = x mod 2 ^ k.
Proof. intros -> Hk. rewrite <- Z.land_ones by done. f_equal. by rewrite Z.ones_equiv, Z.sub_1_r. Qed.

(** A single bit is tested by its remainder. *)
Lemma land_bit x k : 0 <= k -> (Z.land x (2 ^ k) =? 0) = (x / 2 ^ k mod 2 =? 0).
Proof.
  intros Hk. change (2 ^ k) with (2 ^ k) at 1. rewrite <- (Z.mul_1_l (2 ^ k)) at 1. rewrite <- Z.shiftl_mul_pow2 by done.
  rewrite XxteaFacts.land_mask by done. change 1 with (Z.ones 1). rewrite Z.land_ones by lia.
  rewrite Z.shiftl_mul_pow2, Z.shiftr_div_pow2 by done. change (2 ^ 1) with 2.
  destruct (Z.eqb_spec (x / 2 ^ k mod 2) 0) as [->|Hne]; [by rewrite Z.mul_0_l|].
  apply Z.eqb_neq. pose proof (Z.pow_pos_nonneg 2 k). nia.
Qed.

Lemma land128 x : (Z.land x 128 =? 0) = (x / 128 mod 2 =? 0).
Proof. exact (land_bit x 7 ltac:(lia)). Qed.
Lemma land64 x : (Z.land x 64 =? 0) = (x / 64 mod 2 =? 0).
Proof. exact (land_bit x 6 ltac:(lia)). Qed.

(** Masks and shifts as remainders and quotients by powers of two. *)
Ltac arith_bytes :=
  cbn [pack pack_ext byte_at lookup list_lookup default from_option];
  unfold byte_at, id;
  rewrite ?land128, ?land64;
  repeat first
    [ rewrite (land_mod _ 8 255) by lia | rewrite (land_mod _ 7 127) by lia | rewrite (land_mod _ 6 63) by lia
    | rewrite (land_mod _ 4 15) by lia | rewrite (land_mod _ 2 3) by lia | rewrite (land_mod _ 1 1) by lia ];
  rewrite ?Z.shiftl_mul_pow2, ?Z.shiftr_div_pow2 by lia; unfold wrapu;
  change (2 ^ 1) with 2; change (2 ^ 2) with 4; change (2 ^ 3) with 8; change (2 ^ 4) with 16; change (2 ^ 6) with 64;
  change (2 ^ 7) with 128; change (2 ^ 8) with 256; change (2 ^ 9) with 512; change (2 ^ 10) with 1024;
  change (2 ^ 32) with 4294967296.

(** A byte of two parts. *)
Lemma two_parts a b m n : 0 <= a < m -> 0 <= b < n -> 0 < m -> 0 < n ->
  (a + b * m) mod (m * n) = a + b * m /\ (a + b * m) mod m = a /\ (a + b * m) / m = b.
Proof.
  intros Ha Hb Hm Hn. split_and!.
  - apply Z.mod_small. nia.
  - rewrite Z.mod_add by lia. by apply Z.mod_small.
  - rewrite Z.div_add by lia. rewrite Z.div_small by done. lia.
Qed.

Section packed.
Context (w h f p sf : Z).
Context (Hw : 0 <= w < 32768) (Hh : 0 <= h < 32768) (Hf : 0 <= f < 256) (Hp : 0 <= p < 262144).

Lemma unpack_width_pack : unpack_width (pack w h f p sf) = expand_dim w.
Proof using Type*.
  unfold unpack_width, expand_dim. arith_bytes.
  destruct (two_parts ((w / 256) mod 128) (h mod 2) 128 2) as (E1 & E2 & _); try (apply Z.mod_pos_bound); try lia.
  change (128 * 2) with 256 in E1. rewrite E1, E2. clear E1 E2.
  assert (w mod 256 / 2 + (w / 256) mod 128 * 128 = w / 2) as -> by dlia.
  assert ((w mod 256) mod 2 = w mod 2) as -> by dlia. destruct (_ =? 0); [done|]. apply Z.mod_small. dlia.
Qed.

Lemma unpack_height_pack : unpack_height (pack w h f p sf) = expand_dim h.
Proof using Type*.
  unfold unpack_height, expand_dim. arith_bytes.
  destruct (two_parts ((w / 256) mod 128) (h mod 2) 128 2) as (E1 & _ & E2); try (apply Z.mod_pos_bound); try lia.
  change (128 * 2) with 256 in E1. rewrite E1, E2. clear E1 E2.
  destruct (two_parts ((h / 512) mod 64) (f mod 4) 64 4) as (E1 & E2 & _); try (apply Z.mod_pos_bound); try lia.
  change (64 * 4) with 256 in E1. rewrite (Z.add_comm (f mod 4 * 64)), E1, E2. clear E1 E2.
  assert ((h / 2) mod 256 mod 256 + (h / 512) mod 64 * 256 = h / 2) as -> by dlia.
  rewrite Zmod_mod. destruct (_ =? 0); [done|]. apply Z.mod_small. dlia.
Qed.

Lemma unpack_fps_pack : unpack_fps (pack w h f p sf) = expand_fps f.
Proof using Type*.
  unfold unpack_fps, expand_fps. arith_bytes.
  destruct (two_parts ((h / 512) mod 64) (f mod 4) 64 4) as (E1 & _ & E2); try (apply Z.mod_pos_bound); try lia.
  change (64 * 4) with 256 in E1. rewrite (Z.add_comm (f mod 4 * 64)), E1, E2.
  assert (((h / 512) mod 64 + f mod 4 * 64) / 128 = f mod 4 / 2) as -> by dlia. clear E1 E2.
  destruct (two_parts (f / 4) (p mod 4) 64 4) as (E1 & E2 & _); try (apply Z.mod_pos_bound); try dlia.
  change (64 * 4) with 256 in E1. rewrite (Z.add_comm (p mod 4 * 64)), E1, E2. clear E1 E2.
  assert (f mod 4 / 2 + f / 4 * 2 = f / 2) as -> by dlia.
  assert (f mod 4 mod 2 = f mod 2) as -> by dlia. destruct (_ =? 0); [done|]. apply Z.mod_small. dlia.
Qed.

Lemma unpack_playtime_pack : unpack_playtime (pack w h f p sf) = expand_playtime p.
Proof using Type*.
  unfold unpack_playtime, expand_playtime. arith_bytes.
  destruct (two_parts (f / 4) (p mod 4) 64 4) as (E1 & _ & E2); try (apply Z.mod_pos_bound); try dlia.
  change (64 * 4) with 256 in E1. rewrite (Z.add_comm (p mod 4 * 64)), E1, E2.
  assert ((f / 4 + p mod 4 * 64) / 128 = p mod 4 / 2) as -> by dlia. clear E1 E2.
  assert (p mod 4 / 2 + (p / 4) mod 256 mod 256 * 2 + (p / 1024) mod 256 * 512 = p / 2) as -> by dlia.
  assert (p mod 4 mod 2 = p mod 2) as -> by dlia. destruct (_ =? 0); [done|]. apply Z.mod_small. dlia.
Qed.

Lemma pack_ok : byte_ok sf -> bytes_ok (pack w h f p sf).
Proof using Type*.
  intros Hs. unfold pack. repeat (apply Forall_cons; split); try (apply byte_ok_u8); try done.
  rewrite (land_mod _ 8 255) by lia. apply Z.mod_pos_bound. lia.
Qed.

End packed.

Lemma pack_ext_ok c v a : bytes_ok (pack_ext c v a).
Proof.
  unfold pack_ext. repeat (apply Forall_cons; split); try (apply byte_ok_u8); try done.
  all: rewrite (land_mod _ 8 255) by lia; apply Z.mod_pos_bound; lia.
Qed.

Lemma unpack_ext_container c v a : byte_at (pack_ext c v a) 0 = c mod 256.
Proof. done. Qed.

Lemma unpack_ext_video c v a :
  byte_at (pack_ext c v a) 1 + Z.shiftl (Z.land (byte_at (pack_ext c v a) 2) 15) 8 = v mod 4096.
Proof.
  arith_bytes. destruct (two_parts ((v / 256) mod 16) (a mod 16) 16 16) as (E1 & E2 & _); try (apply Z.mod_pos_bound); try lia.
  change (16 * 16) with 256 in E1. rewrite E1, E2. dlia.
Qed.

Lemma unpack_ext_audio c v a :
  Z.shiftr (byte_at (pack_ext c v a) 2) 4 + Z.shiftl (byte_at (pack_ext c v a) 3) 4 = a mod 4096.
Proof.
  arith_bytes. destruct (two_parts ((v / 256) mod 16) (a mod 16) 16 16) as (E1 & _ & E2); try (apply Z.mod_pos_bound); try lia.
  change (16 * 16) with 256 in E1. rewrite E1, E2. dlia.
Qed.

(** *** The text *)

Lemma words_bytes b : bytes_ok b -> length b = 8%nat ->
  bytes_of (words_of b) = b /\ Forall XxteaFacts.word_ok (words_of b).
Proof.
  intros Hb Hl. unfold bytes_of, words_of.
  assert (length (take 4 b) = 4%nat /\ length (take 4 (drop 4 b)) = 4%nat) as [H1 H2] by (rewrite !length_take, length_drop; lia).
  assert (bytes_ok (take 4 b) /\ bytes_ok (take 4 (drop 4 b))) as [O1 O2] by (split; [|apply Forall_take, Forall_drop]; [by apply Forall_take|done]).
  split.
  - cbn [fmap list_fmap mjoin list_join]. pose proof (le_bytes_value _ O1) as L1. pose proof (le_bytes_value _ O2) as L2.
    rewrite H1 in L1. rewrite H2 in L2. rewrite L1, L2, app_nil_r, (take_ge (drop 4 b)) by (rewrite length_drop; lia).
    apply take_drop.
  - repeat (apply Forall_cons; split); [| |apply Forall_nil_2]; unfold XxteaFacts.word_ok.
    + pose proof (le_value_range _ O1) as Hr. by rewrite H1 in Hr.
    + pose proof (le_value_range _ O2) as Hr. by rewrite H2 in Hr.
Qed.

Lemma bytes_words v : Forall XxteaFacts.word_ok v -> length v = 2%nat ->
  words_of (bytes_of v) = v /\ bytes_ok (bytes_of v) /\ length (bytes_of v) = 8%nat.
Proof.
  intros Hv Hl. destruct v as [|x [|y [|? ?] ] ]; try done. apply Forall_cons in Hv as [Hx Hv]. apply Forall_cons in Hv as [Hy _].
  unfold bytes_of, words_of. cbn [fmap list_fmap mjoin list_join]. rewrite app_nil_r.
  rewrite (take_app_exact (le_bytes 4 x)), (drop_app_exact (le_bytes 4 x)), take_ge by (by rewrite ?length_le_bytes).
  rewrite !le_value_bytes. unfold XxteaFacts.word_ok in *. rewrite !Z.mod_small by done.
  split_and!; [done| |by rewrite length_app, !length_le_bytes]. apply Forall_app. split; apply le_bytes_ok.
Qed.

(** The encoded attribute: eleven characters without a separator. *)
Lemma btoa_separators b : Forall (fun c => c <> chr ":" /\ c <> chr "/") (Base64.btoa b).
Proof.
  assert (forall c, Base64.to64 c <> chr ":" /\ Base64.to64 c <> chr "/") as Ht.
  { intros c. unfold Base64.to64. rewrite (land_mod _ 6 63) by lia. pose proof (Z.mod_pos_bound c (2 ^ 6) ltac:(lia)).
    change (2 ^ 6) with 64 in *. repeat case_if; zbool; lia. }
  revert b. fix IH 1. intros [|b0 [|b1 [|b2 b] ] ]; cbn [Base64.btoa];
    repeat (apply Forall_cons; split); try apply Ht; try apply Forall_nil_2. apply IH.
Qed.

Lemma find_sub_here pat l : pat <> [] -> find_sub pat (pat ++ l) = Some 0%nat.
Proof.
  intros Hp. destruct pat as [|c pat]; [done|]. cbn [app find_sub].
  rewrite bool_decide_eq_true_2; [done|]. change (c :: pat ++ l) with ((c :: pat) ++ l). apply take_app_length.
Qed.

Lemma find_sub_skip c pat l1 l2 : Forall (fun x => x <> c) l1 ->
  find_sub (c :: pat) (l1 ++ l2) = (fun n => length l1 + n)%nat <$> find_sub (c :: pat) l2.
Proof.
  induction 1 as [|x l1 Hx Hl IH]; [cbn [app length]; by destruct (find_sub (c :: pat) l2)|]. cbn [app find_sub].
  rewrite bool_decide_eq_false_2 by (intros E; cbn in E; by injection E).
  rewrite IH. by destruct (find_sub (c :: pat) l2).
Qed.

Lemma length_encoded b : length b = 8%nat -> length (Base64.btoa b) = 11%nat.
Proof. intros Hb. pose proof (Base64.length_btoa b) as Hl. rewrite Hb in Hl. assert ((Z.of_nat 8 * 4 + 2) / 3 = 11) as E by reflexivity. lia. Qed.

Section attribute.
Context (key : list Z) (Hk : length key = 4%nat) (Hkw : Forall XxteaFacts.word_ok key).

(** An attribute of eight bytes, with what precedes and follows it. *)
Lemma formatted id data : bytes_ok data -> length data = 8%nat ->
  exists enc, formatfileattr id data key = chr "0" + id :: chr "*" :: enc /\ length enc = 11%nat
    /\ Forall (fun c => c <> chr ":" /\ c <> chr "/") enc
    /\ forall pre post v, length v = 8%nat ->
       read_attr (pre ++ chr ":" :: chr "0" + id :: chr "*" :: enc ++ post) (zlength pre) key v = Some data.
Proof using Type*.
  intros Hd Hl. destruct (words_bytes data Hd Hl) as [Hw Hwo].
  pose proof (XxteaFacts.cipher_key_involutive true key Hkw) as Hinv.
  assert (length (words_of data) = 2%nat) as Hl2 by done.
  set (key' := cipher_key true key) in *.
  assert (rounds (words_of data) <= 58)%nat as Hr by (unfold rounds; rewrite Hl2; dlia).
  destruct (XxteaFacts.rounds_inverse key' 1 (words_of data) (rounds (words_of data)) Hl2 ltac:(lia) Hwo Hr) as (c & E & Hlc & Hc & Hdec).
  destruct (bytes_words c Hc Hlc) as (Hcw & Hcb & Hc8).
  exists (Base64.btoa (bytes_of c)). split_and!.
  - unfold formatfileattr, xxteaEncrypt. cbn [fst]. fold key'. unfold encrypt. rewrite Hl2. cbn [Nat.sub]. by rewrite E.
  - by apply length_encoded.
  - apply btoa_separators.
  - intros pre post v Hv. unfold read_attr, substr.
    assert (take 11 (drop (Z.to_nat (zlength pre + 3)) (pre ++ chr ":" :: chr "0" + id :: chr "*" :: Base64.btoa (bytes_of c) ++ post))
      = Base64.btoa (bytes_of c)) as ->.
    { replace (Z.to_nat (Z.of_nat (length pre) + 3)) with (length pre + 3)%nat by lia. rewrite drop_app_add. cbn [drop].
      apply take_app_exact. symmetry. by apply length_encoded. }
    unfold Base64.atob_string. rewrite <- (app_nil_r (Base64.btoa (bytes_of c))) at 1.
    rewrite Base64.atob_btoa_app; [|done|done|].
    2:{ rewrite length_encoded, Hc8 by done. vm_compute. congruence. }
    cbn [mbind option_bind]. rewrite Hc8, take_ge, drop_ge, app_nil_r by (cbn; lia).
    rewrite Hcw. unfold xxteaDecrypt. fold key'. unfold decrypt.
    assert (rounds c = rounds (words_of data)) as -> by (unfold rounds; by rewrite Hlc).
    rewrite Hdec by lia. cbn [fmap option_fmap option_map mbind option_bind fst]. by rewrite Hw.
Qed.

End attribute.
End MediaFacts.

(** C39: The media attributes decode: from the attributes of a file, encoded under
    its key and returned by the server, the same key reads the format, the
    dimensions, the frame rate and the playing time, exactly below 16384, 128 and
    131072 and rounded down to steps of eight, eight and sixty above, up to the
    largest value of the field; and, where the format is exotic, the lower bits of
    the codec identifiers.  A playing time of 131072 to 131099 seconds is read as
    the largest value. *)
Theorem media_attributes_roundtrip (vp : MediaProperties) (key v : list Z) :
  byte_ok (shortformat vp) -> 0 <= width vp < 2 ^ 31 -> 0 <= height vp < 2 ^ 31 -> 0 <= fps vp < 2 ^ 31 ->
  0 <= playtime vp < 2 ^ 31 -> length key = 4%nat -> Forall XxteaFacts.word_ok key -> length v = 8%nat ->
  let exotic x := if shortformat vp =? 0 then x else 0 in
  Media.decode (Media.server_attrs (Media.encode vp key)) key v
  = Some (Some (MkMediaProperties (shortformat vp)
      (MediaFacts.shown_dim (width vp)) (MediaFacts.shown_dim (height vp))
      (MediaFacts.shown_fps (fps vp)) (MediaFacts.shown_playtime (playtime vp)) [] [] [] [] [] []
      (exotic (containerid vp mod 256)) (exotic (videocodecid vp mod 4096)) (exotic (audiocodecid vp mod 4096)) false false)).
Proof.
  intros Hsf Hw Hh Hf Hp Hk Hkw Hv exotic.
  destruct (MediaFacts.squeeze_dim_shown _ Hw) as [Rw <-]. destruct (MediaFacts.squeeze_dim_shown _ Hh) as [Rh <-].
  destruct (MediaFacts.squeeze_fps_shown _ Hf) as [Rf <-]. destruct (MediaFacts.squeeze_playtime_shown _ Hp) as [Rp <-].
  set (w := Media.squeeze_dim (width vp)) in *. set (h := Media.squeeze_dim (height vp)) in *.
  set (f := Media.squeeze_fps (fps vp)) in *. set (p := Media.squeeze_playtime (playtime vp)) in *.
  set (data := Media.pack w h f p (shortformat vp)).
  destruct (MediaFacts.formatted key Hk Hkw Media.fa_media data) as (enc & E & Hl & Hsep & Hr);
    [by apply MediaFacts.pack_ok|done|].
  set (ext := Media.pack_ext (containerid vp) (videocodecid vp) (audiocodecid vp)).
  destruct (MediaFacts.formatted key Hk Hkw Media.fa_mediaext ext) as (enc2 & E2 & Hl2 & Hsep2 & Hr2);
    [apply MediaFacts.pack_ext_ok|done|].
  assert (exists post, Media.server_attrs (Media.encode vp key) = chr ":" :: chr "8" :: chr "*" :: enc ++ post
    /\ post = if shortformat vp =? 0 then chr ":" :: chr "9" :: chr "*" :: enc2 else []) as (post & Ea & Epost).
  { unfold Media.encode. fold w h f p data ext. rewrite E, E2. unfold Media.server_attrs.
    change (chr "0" + Media.fa_media) with (chr "8"). change (chr "0" + Media.fa_mediaext) with (chr "9").
    set (l1 := chr ":" :: chr "8" :: chr "*" :: enc).
    assert (Forall (fun x => x <> chr "/") l1) as Hl1.
    { unfold l1. repeat (apply Forall_cons; split; [done|]). eapply Forall_impl; [exact Hsep|]. by intros x [_ Hx]. }
    destruct (shortformat vp =? 0).
    - eexists. split; [|reflexivity].
      change (chr ":" :: (chr "8" :: chr "*" :: enc) ++ chr "/" :: chr "9" :: chr "*" :: enc2) with (l1 ++ chr "/" :: chr "9" :: chr "*" :: enc2).
      rewrite MediaFacts.find_sub_skip by done.
      assert (Media.find_sub [chr "/"] (chr "/" :: chr "9" :: chr "*" :: enc2) = Some 0%nat) as -> by done.
      cbn [fmap option_fmap option_map]. rewrite Nat.add_0_r, take_app_length.
      rewrite <- Nat.add_1_r, drop_app_add. done.
    - eexists. split; [|reflexivity]. change (chr ":" :: chr "8" :: chr "*" :: enc) with l1.
      rewrite <- (app_nil_r l1) at 1. rewrite MediaFacts.find_sub_skip by done. cbn. by rewrite app_nil_r. }
  rewrite Ea. unfold Media.decode.
  assert (Media.attr_pos (chr ":" :: chr "8" :: chr "*" :: enc ++ post) Media.fa_media = Some 0) as ->.
  { unfold Media.attr_pos, Media.hasfileattribute.
    pose proof (MediaFacts.find_sub_here [chr ":"; chr "0" + Media.fa_media; chr "*"] (enc ++ post) ltac:(done)) as Hfs.
    cbn [app] in Hfs. change (chr "0" + Media.fa_media) with (chr "8") in Hfs |- *. rewrite Hfs. cbn [length].
    rewrite length_app, Hl. rewrite s32_id by (subst post; destruct (_ =? 0); cbn [length]; lia).
    rewrite (proj2 (Z.leb_le _ _)); [done|]. lia. }
  pose proof (Hr [] post v Hv) as Hr0. cbn [app length] in Hr0. change (chr "0" + Media.fa_media) with (chr "8") in Hr0.
  change (Z.of_nat 0) with 0 in Hr0. rewrite Hr0. cbn [mbind option_bind shortformat].
  change (Media.byte_at data 7) with (shortformat vp).
  unfold data. rewrite MediaFacts.unpack_width_pack, MediaFacts.unpack_height_pack, MediaFacts.unpack_fps_pack,
    MediaFacts.unpack_playtime_pack by done. fold data.
  unfold exotic. destruct (shortformat vp =? 0); [|done]. subst post.
  assert (Media.attr_pos (chr ":" :: chr "8" :: chr "*" :: enc ++ chr ":" :: chr "9" :: chr "*" :: enc2) Media.fa_mediaext = Some 14) as ->.
  { unfold Media.attr_pos, Media.hasfileattribute. change (chr "0" + Media.fa_mediaext) with (chr "9").
    assert (Media.find_sub [chr ":"; chr "9"; chr "*"] (chr ":" :: chr "8" :: chr "*" :: enc ++ chr ":" :: chr "9" :: chr "*" :: enc2) = Some 14%nat) as ->.
    { cbn [Media.find_sub]. rewrite bool_decide_eq_false_2 by done.
      change (chr "8" :: chr "*" :: enc ++ chr ":" :: chr "9" :: chr "*" :: enc2) with
        ((chr "8" :: chr "*" :: enc) ++ [chr ":"; chr "9"; chr "*"] ++ enc2).
      pose proof (MediaFacts.find_sub_skip (chr ":") [chr "9"; chr "*"] (chr "8" :: chr "*" :: enc) ([chr ":"; chr "9"; chr "*"] ++ enc2)) as Hfs.
      rewrite MediaFacts.find_sub_here in Hfs by done. cbn [app fmap option_fmap option_map length] in Hfs. rewrite Hl in Hfs.
      cbn [app]. cbn [Media.find_sub app] in Hfs. rewrite Hfs; [done|]. repeat (apply Forall_cons; split; [done|]).
      eapply Forall_impl; [exact Hsep|]. by intros x [Hx _]. }
    cbn [length]. rewrite length_app. cbn [length]. rewrite Hl, Hl2. done. }
  pose proof (Hr2 (chr ":" :: chr "8" :: chr "*" :: enc) [] data eq_refl) as Hr1. cbn [app length] in Hr1. rewrite Hl, app_nil_r in Hr1.
  change (chr "0" + Media.fa_mediaext) with (chr "9") in Hr1. change (Z.of_nat 14) with 14 in Hr1. rewrite Hr1. cbn [mbind option_bind].
  unfold ext. by rewrite MediaFacts.unpack_ext_video, MediaFacts.unpack_ext_audio, MediaFacts.unpack_ext_container.
Qed.

(** XXTEA: decrypting what was encrypted under the same key gives back the
    words and the key, for every text of at least two words, and the loop of the
    decryption, which only stops when its sum has wrapped around to zero, ends. *)
Theorem xxtea_roundtrip (v key : list Z) endianConv :
  (2 <= length v)%nat -> Forall XxteaFacts.word_ok v -> length key = 4%nat -> Forall XxteaFacts.word_ok key ->
  let '(c, key') := XXTEA.xxteaEncrypt v key endianConv in
  key' = key /\ length c = length v /\ XXTEA.xxteaDecrypt c key endianConv = Some (v, key).
Proof.
  intros Hl Hv Hk Hkw. unfold XXTEA.xxteaEncrypt, XXTEA.xxteaDecrypt. cbn zeta. rewrite XxteaFacts.cipher_key_involutive by done.
  set (key' := XXTEA.cipher_key endianConv key). destruct (length v) as [|n] eqn:E; [lia|].
  assert (XXTEA.rounds v <= 58)%nat as Hr by (unfold XXTEA.rounds; rewrite E; dlia).
  destruct (XxteaFacts.rounds_inverse key' n v (XXTEA.rounds v) E ltac:(lia) Hv Hr) as (v' & E' & Hl' & Hv' & Hd).
  assert (XXTEA.encrypt key' v = v') as ->.
  { unfold XXTEA.encrypt. rewrite E, Nat.sub_succ, Nat.sub_0_r, E'. done. }
  split_and!; [done|done|]. unfold XXTEA.decrypt.
  assert (XXTEA.rounds v' = XXTEA.rounds v) as -> by (unfold XXTEA.rounds; by rewrite Hl', E).
  by rewrite Hd by lia.
Qed.

(** The properties queued for an upload survive the cache, the names apart. *)
Lemma read_fixed_le {A} n (conv : bytes -> A) old v rest k :
  CacheableReader.read_fixed n conv old (Reader (le_bytes n v ++ rest) k)
  = (true, conv (le_bytes n v), Reader rest (u32 (k + 1))).
Proof.
  unfold CacheableReader.read_fixed. cbn [ptr].
  assert ((length (le_bytes n v ++ rest) <? n)%nat = false) as ->.
  { apply Nat.ltb_ge. rewrite length_app, length_le_bytes. lia. }
  unfold CacheableReader.advance. cbn [ptr fieldnum].
  by rewrite (take_app_exact (le_bytes n v)), (drop_app_exact (le_bytes n v)) by (by rewrite length_le_bytes).
Qed.

Lemma media_serialize_roundtrip (junk m : MediaProperties) :
  byte_ok (shortformat m) -> Forall XxteaFacts.word_ok [width m; height m; fps m; playtime m; containerid m; videocodecid m; audiocodecid m] ->
  Media.deserialize junk (Media.serialize m)
  = MkMediaProperties (shortformat m) (width m) (height m) (fps m) (playtime m) [] [] [] [] [] []
      (containerid m) (videocodecid m) (audiocodecid m) (is_VFR m) (no_audio m).
Proof.
  intros Hs Hw. repeat (apply Forall_cons in Hw as [? Hw]). clear Hw.
  assert (forall x, XxteaFacts.word_ok x -> le_value (le_bytes 4 x) = x) as Hle.
  { intros x Hx. rewrite le_value_bytes. by apply Z.mod_small. }
  assert (forall b, negb (le_value (le_bytes 1 (Z.b2z b)) =? 0) = b) as Hb by by intros [].
  assert (le_value (le_bytes 1 (shortformat m)) = shortformat m) as Hs1 by (rewrite le_value_bytes; by apply Z.mod_small).
  unfold Media.serialize, Media.deserialize, CacheableReader.init, CacheableWriter.serializeexpansionflags,
    CacheableWriter.serializebool, CacheableWriter.serializeu32, CacheableWriter.serializebyte. cbn [app].
  rewrite <- !app_assoc.
  unfold CacheableReader.unserializebyte, CacheableReader.unserializeu32, CacheableReader.unserializebool.
  do 10 (rewrite read_fixed_le; cbn iota beta).
  by rewrite Hs1, !Hle, !Hb.
Qed.

(** ** Examples *)

Module MediaExamples.
Import Media.

Definition key : list Z := [305419896; 4023233417; 19088743; 4275878552].
Definition clip : MediaProperties :=
  MkMediaProperties 0 1920 1080 30 131080 [] [] [] [] [] [] 4 27 300 false false.

(** A playing time between 131072 and 131099 seconds is read as three months. *)
Lemma playtime_gap :
  option_map (option_map playtime) (decode (server_attrs (encode clip key)) key (replicate 8 0)) = Some (Some 7995360).
Proof. vm_compute. reflexivity. Qed.

(** The third name of a list is also looked up cut to the length of the first. *)
Lemma lookup_truncated :
  Lookup 20 (str "aaa / b / cccc") [(str "ccc", 5)] 0 = Some 5.
Proof. vm_compute. reflexivity. Qed.

(** A file that was not identified by an older library is not tried again, one
    that was identified is, if its picture is narrower than the version number. *)
Definition codecs : MediaCodecs := MkCodecs [(str "mp4", 4)] [(str "avc1", 27)] [(str "aac", 12)] [ShortFormat 7 4 27 12].
Definition movie : MediaProperties :=
  MkMediaProperties 254 1280 720 25 60 (str "mp4") (str "avc1") (str "aac") [] [] [] 0 0 0 false false.
Definition unknown : MediaProperties :=
  MkMediaProperties 254 1280 720 25 60 (str "xyz") (str "avc1") (str "aac") [] [] [] 0 0 0 false false.

Definition retried (m : MediaProperties) (old new : Z) : option bool :=
  '(_, attrs) ← convert codecs old 50 m key; timeToRetry new 50 (server_attrs attrs) key (replicate 8 0).

Lemma retry_identified : retried movie 1710 1710 = Some true /\ retried unknown 1710 1711 = Some false.
Proof. vm_compute. by split. Qed.

End MediaExamples.

Lemma xxtea_roundtrip_witness :
  XXTEA.xxteaDecrypt (XXTEA.xxteaEncrypt [1; 2; 3] MediaExamples.key true).1 MediaExamples.key true
  = Some ([1; 2; 3], MediaExamples.key).
Proof.
  refine (proj2 (proj2 (xxtea_roundtrip [1; 2; 3] MediaExamples.key true _ _ eq_refl _))).
  - cbn. lia.
  - repeat constructor; done.
  - repeat constructor; done.
Defined.

Lemma media_attributes_roundtrip_witness :
  Media.decode (Media.server_attrs (Media.encode MediaExamples.clip MediaExamples.key)) MediaExamples.key (replicate 8 0)
  = Some (Some (MkMediaProperties 0 1920 1080 30 7995360 [] [] [] [] [] [] 4 27 300 false false)).
Proof.
  rewrite (media_attributes_roundtrip MediaExamples.clip MediaExamples.key (replicate 8 0));
    [vm_compute; reflexivity|vm_compute; split; congruence..|reflexivity|repeat constructor; done|reflexivity].
Defined.
