(* ===== verification/AttrMap.v ===== *)
(** * Node attributes (src/src/attrmap.cpp, mega/attrmap.h)

    [AttrMap]: the map from attribute names (packed into 64-bit [nameid]s) to
    values, its cache record, its JSON texts and the way updates are merged.
    Maps are ordered association lists ([OMap]); C strings are lists without a
    NUL, a [const char*] result is the rest of the buffer. *)

From S2P Require Import Prelude OMap Crypto Encoding Serialize Json.
Local Open Scope Z_scope.

Module AttrMap.

Abbreviation attr_map := (list (Z * bytes)).

(** ** Names *)

(** [nameid2string(id, buf)]: the loop from the top byte down; a zero byte is
    overwritten by the next. *)
Fixpoint name_bytes (k : nat) (id : Z) : bytes :=
  match k with
  | O => []
  | S k =>
      let c := Z.land (Z.shiftr id (8 * Z.of_nat k)) 0xff in
      (if c =? 0 then [] else [c]) ++ name_bytes k id
  end.
Definition nameid2string (id : Z) : bytes := name_bytes 8 id.

Definition string2nameid (n : option bytes) : Z :=
  match n with
  | None => 0
  | Some n => makeNameid n
  end.

(** ** Lookups *)

Definition storagesize (perrecord : Z) (map : attr_map) : Z :=
  foldl (fun t e => u32 (t + u32 (u32 perrecord + zlength e.2))) 0 map.

Definition getBool (map : attr_map) (name : bytes) : bool :=
  bool_decide (omap_find (string2nameid (Some name)) map = Some (str "1")).

Definition getString (map : attr_map) (name : bytes) : option bytes :=
  omap_find (makeNameid name) map.
Definition getStringView (map : attr_map) (k : bytes) : option bytes :=
  omap_find (makeNameid k) map.

Definition contains (map : attr_map) (k : Z) : bool := bool_decide (is_Some (omap_find k map)).

(** ** The cache record *)

Definition serialize_entry (e : Z * bytes) : bytes :=
  let buf := nameid2string e.1 in
  let l := u8 (zlength buf) in
  if l =? 0 then []
  else
    let ll := u16 (zlength e.2) in
    [l] ++ take (Z.to_nat l) buf ++ le_bytes 2 ll ++ take (Z.to_nat ll) e.2.

Definition serialize (map : attr_map) (d : bytes) : bytes :=
  foldl (fun d e => d ++ serialize_entry e) d map ++ [0].

(** [unserialize(ptr, end)]: the pointer it returns ([None] is NULL) and the
    map; every round consumes a byte. *)
Fixpoint unserialize_loop (fuel : nat) (ptr : bytes) (map : attr_map) : option bytes * attr_map :=
  match fuel with
  | O => (None, map)
  | S fuel =>
      match ptr with
      | [] => (Some [], map)
      | l :: ptr =>
          if l =? 0 then (Some ptr, map)
          else
            let l := Z.to_nat l in
            if (length ptr <? l + 2)%nat then (None, map)
            else
              let id := foldl (fun id c => u64 (u64 (Z.shiftl id 8) + c)) 0 (take l ptr) in
              let ptr := drop l ptr in
              let ll := Z.to_nat (le_value (take 2 ptr)) in
              let ptr := drop 2 ptr in
              if (length ptr <? ll)%nat then (None, map)
              else unserialize_loop fuel (drop ll ptr) (omap_insert id (take ll ptr) map)
      end
  end.

Definition unserialize (ptr : bytes) (map : attr_map) : option bytes * attr_map :=
  unserialize_loop (S (length ptr)) ptr map.

(** ** Updates *)

Definition hasUpdate (map : attr_map) (attrId : Z) (updates : attr_map) : bool :=
  match omap_find attrId updates with
  | None => false
  | Some upd =>
      match omap_find attrId map with
      | None => bool_decide (upd <> [])
      | Some cur => bool_decide (cur <> upd)
      end
  end.

Definition hasDifferentValue (map : attr_map) (attrId : Z) (otherAttrs : attr_map) : bool :=
  match omap_find attrId map, omap_find attrId otherAttrs with
  | Some _, None => true
  | None, Some _ => true
  | Some cur, Some other => bool_decide (cur <> other)
  | None, None => false
  end.

Definition removeEmptyValues (map : attr_map) : attr_map := filter (fun e => e.2 <> []) map.

Definition applyUpdates (map updates : attr_map) : attr_map :=
  foldl (fun m u => if bool_decide (u.2 = []) then omap_erase u.1 m else omap_insert u.1 u.2 m)
    map updates.

(** ** JSON *)

(** The escape of one character of a value in [getjson]. *)
Definition escape_byte (c : Z) : bytes :=
  if ((0 <=? schar c) && (c <? 32)) || (c =? cDquote) || (c =? cBackslash) then
    cBackslash ::
    (if c =? cDquote then [cDquote]
     else if c =? cBackslash then [cBackslash]
     else if c =? 10 then [chr "n"]
     else if c =? 13 then [chr "r"]
     else if c =? 8 then [chr "b"]
     else if c =? 12 then [chr "f"]
     else if c =? 9 then [chr "t"]
     else [chr "u"; chr "0"; chr "0"; hexdigit (Z.shiftr c 4); hexdigit (Z.land c 15)])
  else [c].
Definition escape_value (value : bytes) : bytes := mjoin (escape_byte <$> value).

(** One round of [getjson]. *)
Definition json_entry (s : bytes) (e : Z * bytes) : bytes :=
  let s := s ++ (match s with [] => [cDquote] | _ => [chr ","; cDquote] end) in
  if e.1 =? 0 then s
  else s ++ nameid2string e.1 ++ [cDquote; chr ":"; cDquote] ++ escape_value e.2 ++ [cDquote].

Definition getjson (map : attr_map) : bytes := foldl json_entry [] map.

(** [getJsonObject]: values are not escaped; [pop_back] drops the last comma
    (or the brace, when there is no entry). *)
Definition object_entry (e : Z * bytes) : bytes :=
  [cDquote] ++ nameid2string e.1 ++ [cDquote; chr ":"; cDquote] ++ e.2 ++ [cDquote; chr ","].

Definition getJsonObject (map : attr_map) : bytes :=
  let result := foldl (fun result e => result ++ object_entry e) [chr "{"] map in
  let result := take (length result - 1) result in
  match map with [] => result | _ => result ++ [chr "}"] end.

(** [fromjson]: each round reads a name (so the text gets shorter) and stores
    the value under it; the entry is created before the value is read. *)
Fixpoint fromjson_loop (fuel : nat) (pos : bytes) (map : attr_map) : attr_map :=
  match fuel with
  | O => map
  | S fuel =>
      let '(name, pos) := JSON.getnameid pos in
      if name =? EOO then map
      else
        let t := default [] (omap_find name map) in
        let map := omap_insert name t map in
        let '(ok, pos, t) := JSON.storeobject pos t in
        if ok then fromjson_loop fuel pos (omap_insert name (JSON.unescape t) map)
        else map
  end.

Definition fromjson (buf : option bytes) (map : attr_map) : attr_map :=
  match buf with
  | None => map
  | Some buf => fromjson_loop (S (length buf)) buf map
  end.

(** The loop of [fromjsonObject]: where it stops and the map, or [None] when a
    value could not be stored. *)
Fixpoint fromobject_loop (fuel : nat) (pos : bytes) (map : attr_map) : option (bytes * attr_map) :=
  match fuel with
  | O => None
  | S fuel =>
      let '(name, pos) := JSON.getnameid pos in
      if name =? EOO then Some (pos, map)
      else
        let t := default [] (omap_find name map) in
        let map := omap_insert name t map in
        let '(ok, pos, t) := JSON.storeobject pos t in
        if ok then fromobject_loop fuel pos (omap_insert name t map)
        else None
  end.

(** [fromjsonObject]; [fuel] is for [leaveobject], which need not end (then the
    result is [None]). *)
Definition fromjsonObject (fuel : nat) (buf : bytes) : option attr_map :=
  let pos := PaddedCBC.cstring buf in
  let '(ok, pos) := JSON.enterobject pos in
  if negb ok then Some []
  else
    match fromobject_loop (S (length pos)) pos [] with
    | None => Some []
    | Some (pos, map) =>
        match JSON.leaveobject fuel pos with
        | None => None
        | Some (ok, _) => Some (if ok then map else [])
        end
    end.

(** The search of [getComplexNestedJsonObject]: the position behind the child's
    name. *)
Fixpoint find_child (fuel : nat) (pos : bytes) (childId : Z) : option bytes :=
  match fuel with
  | O => None
  | S fuel =>
      let '(name, pos) := JSON.getnameid pos in
      if name =? EOO then None
      else if name =? childId then Some pos
      else find_child fuel (JSON.skip_object pos) childId
  end.

(** The characters before the first closing brace; [None]: there is none. *)
Fixpoint until_brace (l : bytes) : option bytes :=
  match l with
  | [] => None
  | c :: l => if c =? chr "}" then Some [] else cons c <$> until_brace l
  end.

Definition getComplexNestedJsonObject (map : attr_map) (parentName childName : bytes)
    : option attr_map :=
  match omap_find (makeNameid parentName) map with
  | None => None
  | Some value =>
      let buf := PaddedCBC.cstring value in
      let childId := makeNameid childName in
      match find_child (S (length buf)) buf childId with
      | None => None
      | Some pos =>
          let auxbuf := drop (length buf - length pos) value in
          match until_brace auxbuf with
          | None => None
          | Some text => Some (omap_insert childId (text ++ [chr "}"]) [])
          end
      end
  end.

Definition getNestedJsonObject (map : attr_map) (name : bytes) : option attr_map :=
  match omap_find (makeNameid name) map with
  | None => None
  | Some value => Some (fromjson (Some (PaddedCBC.cstring value)) [])
  end.

(** [applyUpdatesWithNestedFields]: the merged text of one nested field ([None]
    inside: the field is not merged; outside: [fromjsonObject] does not end). *)
Definition nested_field (fuel : nat) (map updates : attr_map) (field : bytes) : option (option bytes) :=
  let nameId := makeNameid field in
  if negb (hasUpdate map nameId updates)
     || bool_decide (default [] (getStringView updates field) = [])
  then Some None
  else
    match fromjsonObject fuel (default [] (omap_find nameId updates)) with
    | None => None
    | Some updated =>
        let current := match omap_find nameId map with
                       | Some v => fromjsonObject fuel v
                       | None => Some []
                       end in
        match current with
        | None => None
        | Some current => Some (Some (getJsonObject (applyUpdates current updated)))
        end
    end.

Definition applyUpdatesWithNestedFields (fuel : nat) (map updates : attr_map)
    (nestedFieldKeys : list bytes) : option attr_map :=
  match mapM (nested_field fuel map updates) nestedFieldKeys with
  | None => None
  | Some finalNestedStrs =>
      Some (foldl (fun m kf => match kf.2 with
                               | Some finalStr => omap_insert (makeNameid kf.1) finalStr m
                               | None => m
                               end)
              (applyUpdates map updates) (zip nestedFieldKeys finalNestedStrs))
  end.

End AttrMap.

Module AttrFacts.
Import AttrMap JsonValue.

(** ** Names as numbers

    A name is one to eight non-zero bytes; its [nameid] is the big-endian
    number they form. *)
Definition name_value (name : bytes) : Z := foldl (fun id c => id * 256 + c) 0 name.

Definition name_ok (name : bytes) : Prop :=
  (1 <= length name <= 8)%nat /\ Forall (fun c => 0 < c < 256) name.

#[export] Instance name_ok_dec name : Decision (name_ok name).
Proof. unfold name_ok. apply _. Defined.

Lemma name_value_snoc name c : name_value (name ++ [c]) = name_value name * 256 + c.
Proof. unfold name_value. by rewrite foldl_app. Qed.

Lemma name_value_range name :
  Forall (fun c => 0 < c < 256) name -> 0 <= name_value name < 256 ^ zlength name.
Proof.
  induction name as [|c name IH] using rev_ind; intros Hn; [done|].
  apply Forall_app in Hn as [Hn Hc]. apply Forall_cons in Hc as [Hc _].
  rewrite name_value_snoc, length_app, Nat2Z.inj_add, Z.pow_add_r by lia.
  specialize (IH Hn). change (256 ^ zlength [c]) with 256. nia.
Qed.

Lemma name_value_pos name :
  Forall (fun c => 0 < c < 256) name -> name <> [] -> 0 < name_value name.
Proof.
  destruct name as [|c name] using rev_ind; [done|]. intros Hn _.
  apply Forall_app in Hn as [Hn Hc]. apply Forall_cons in Hc as [Hc _].
  rewrite name_value_snoc. pose proof (name_value_range name Hn). lia.
Qed.

Lemma name_bytes_0 k : name_bytes k 0 = [].
Proof. induction k as [|k IH]; [done|]. cbn [name_bytes]. by rewrite Z.shiftr_0_l. Qed.

Lemma name_bytes_snoc k id c :
  0 <= id -> 0 < c < 256 -> name_bytes (S k) (id * 256 + c) = name_bytes k id ++ [c].
Proof.
  intros Hid Hc. induction k as [|k IH].
  - cbn [name_bytes]. rewrite Z.shiftr_0_r. change 0xff with (Z.ones 8).
    rewrite Z.land_ones by lia. change (2 ^ 8) with 256.
    rewrite Z.add_comm, Z.mod_add, Z.mod_small, (proj2 (Z.eqb_neq c 0)) by lia. done.
  - change (name_bytes (S (S k)) (id * 256 + c))
      with ((if Z.land (Z.shiftr (id * 256 + c) (8 * Z.of_nat (S k))) 0xff =? 0 then []
             else [Z.land (Z.shiftr (id * 256 + c) (8 * Z.of_nat (S k))) 0xff])
            ++ name_bytes (S k) (id * 256 + c)).
    rewrite IH. cbn [name_bytes]. rewrite <- app_assoc.
    replace (Z.shiftr (id * 256 + c) (8 * Z.of_nat (S k)))
      with (Z.shiftr id (8 * Z.of_nat k)); [done|].
    replace (8 * Z.of_nat (S k)) with (8 + 8 * Z.of_nat k) by lia.
    rewrite <- Z.shiftr_shiftr by lia. f_equal. rewrite Z.shiftr_div_pow2 by lia.
    change (2 ^ 8) with 256. rewrite Z.add_comm, Z.div_add, Z.div_small by lia. lia.
Qed.

Lemma name_bytes_value k name :
  Forall (fun c => 0 < c < 256) name -> (length name <= k)%nat ->
  name_bytes k (name_value name) = name.
Proof.
  revert k. induction name as [|c name IH] using rev_ind; intros k Hn Hk; [apply name_bytes_0|].
  apply Forall_app in Hn as [Hn Hc]. apply Forall_cons in Hc as [Hc _].
  rewrite length_app in Hk. destruct k as [|k]; [simpl in Hk; lia|].
  rewrite name_value_snoc, name_bytes_snoc by (done || by apply name_value_range).
  rewrite IH; [done|done|]. simpl in Hk. lia.
Qed.

Lemma nameid2string_value name : name_ok name -> nameid2string (name_value name) = name.
Proof. intros [Hl Hn]. by apply name_bytes_value; [|lia]. Qed.

(** Reading the bytes of a name back, with the 64-bit arithmetic of the code. *)
Lemma push_value (f : Z -> Z -> Z) name :
  (forall id c, 0 <= id -> c ∈ name -> f id c = u64 (u64 (Z.shiftl id 8) + c)) ->
  Forall (fun c => 0 < c < 256) name -> (length name <= 8)%nat ->
  foldl f 0 name = name_value name.
Proof.
  induction name as [|c name IH] using rev_ind; intros Hf Hn Hl; [done|].
  apply Forall_app in Hn as [Hn Hc]. apply Forall_cons in Hc as [Hc _].
  rewrite length_app in Hl. simpl in Hl.
  rewrite foldl_app, name_value_snoc. cbn [foldl].
  pose proof (name_value_range name Hn) as R.
  rewrite IH; [|intros; apply Hf; [done|by apply elem_of_app; left]|done|lia].
  rewrite Hf by (lia || (apply elem_of_app; right; by apply elem_of_cons; left)).
  rewrite Z.shiftl_mul_pow2 by lia. change (2 ^ 8) with 256.
  assert (256 ^ zlength name <= 256 ^ 7) by (apply Z.pow_le_mono_r; lia).
  change (256 ^ 7) with (2 ^ 56) in *. rewrite (wrapu_id 64 (_ * _)), wrapu_id by lia. done.
Qed.

(** [makeNameid] agrees on ASCII names; on others the signed [char] makes it
    differ from the cache record. *)
Lemma makeNameid_value name :
  name_ok name -> Forall (fun c => c < 128) name -> makeNameid name = name_value name.
Proof.
  intros [Hl Hn] Ha. unfold makeNameid. apply push_value; [|done|lia].
  intros id c _ Hc. unfold nameid_push.
  rewrite Forall_forall in Ha, Hn. specialize (Ha c Hc). specialize (Hn c Hc).
  unfold schar. rewrite (wraps_id 8) by (simpl; lia). rewrite (wrapu_id 64 c) by lia. done.
Qed.

(** ** The cache record *)

Definition entry_ok (e : Z * bytes) : Prop :=
  (exists name, name_ok name /\ e.1 = name_value name) /\ zlength e.2 <= 0xFFFF.

Definition entry_bytes (e : Z * bytes) : bytes :=
  zlength (nameid2string e.1) :: nameid2string e.1 ++ le_bytes 2 (zlength e.2) ++ e.2.
Definition body (map : attr_map) : bytes := mjoin (entry_bytes <$> map).

Lemma serialize_entry_ok e : entry_ok e -> serialize_entry e = entry_bytes e.
Proof.
  intros [ (name & Hn & E) Hv]. unfold serialize_entry, entry_bytes.
  rewrite E, nameid2string_value by done. destruct Hn as [Hl _]. cbv zeta.
  rewrite (wrapu_id 8), (wrapu_id 16) by lia. rewrite (proj2 (Z.eqb_neq _ 0)) by lia.
  rewrite !Nat2Z.id, !take_ge by lia. done.
Qed.

Lemma serialize_body map d : Forall entry_ok map -> serialize map d = d ++ body map ++ [0].
Proof.
  intros Hm. unfold serialize. rewrite app_assoc. f_equal. revert d.
  induction Hm as [|e map He Hm IH]; intros d; cbn [foldl]; [by rewrite app_nil_r|].
  rewrite serialize_entry_ok, IH by done. unfold body.
  by rewrite fmap_cons, mjoin_cons, app_assoc.
Qed.

Lemma length_entry e :
  length (entry_bytes e) = (1 + length (nameid2string e.1) + 2 + length e.2)%nat.
Proof.
  unfold entry_bytes. cbn [length]. rewrite !length_app, length_le_bytes. lia.
Qed.

(** The decoder over a whole entry. *)
Lemma read_entry fuel e rest m :
  entry_ok e ->
  unserialize_loop (S fuel) (entry_bytes e ++ rest) m
  = unserialize_loop fuel rest (omap_insert e.1 e.2 m).
Proof.
  intros [ (name & Hn & E) Hv]. unfold entry_bytes. rewrite E, nameid2string_value by done.
  pose proof Hn as [Hl Hb]. cbn [app unserialize_loop].
  rewrite (proj2 (Z.eqb_neq _ 0)), Nat2Z.id by lia. rewrite <- !app_assoc.
  rewrite (proj2 (Nat.ltb_ge _ _)) by (rewrite !length_app, length_le_bytes; lia).
  rewrite take_app_length, drop_app_length. cbv zeta.
  rewrite (push_value _ name) by (done || lia).
  rewrite take_app_exact, drop_app_exact by by rewrite length_le_bytes.
  rewrite le_value_bytes. change (256 ^ Z.of_nat 2) with 65536.
  rewrite Z.mod_small, Nat2Z.id by lia.
  rewrite (proj2 (Nat.ltb_ge _ _)) by (rewrite length_app; lia).
  by rewrite take_app_length, drop_app_length.
Qed.

(** The decoder over an entry that is cut. *)
Lemma read_cut_entry fuel e n m :
  entry_ok e -> (0 < n < length (entry_bytes e))%nat ->
  unserialize_loop (S fuel) (take n (entry_bytes e)) m = (None, m).
Proof.
  intros [ (name & Hn & E) Hv] Hlen. rewrite length_entry in Hlen. unfold entry_bytes.
  rewrite E, nameid2string_value in * by done.
  pose proof Hn as [Hl Hb]. destruct n as [|n]; [lia|]. cbn [take unserialize_loop].
  rewrite (proj2 (Z.eqb_neq _ 0)), Nat2Z.id by lia.
  destruct (Nat.ltb_spec (length (take n (name ++ le_bytes 2 (zlength e.2) ++ e.2)))
              (length name + 2)) as [|Hge]; [done|].
  rewrite length_take, !length_app, length_le_bytes in Hge.
  rewrite take_app_ge by lia. rewrite drop_app_length.
  rewrite (take_app_ge (le_bytes _ _)) by (rewrite length_le_bytes; lia).
  rewrite take_app_exact, drop_app_exact by by rewrite length_le_bytes.
  rewrite le_value_bytes. change (256 ^ Z.of_nat 2) with 65536.
  rewrite Z.mod_small, Nat2Z.id by lia.
  rewrite (proj2 (Nat.ltb_lt _ _)); [done|]. rewrite length_take, length_le_bytes. lia.
Qed.

Lemma read_body fuel map rest m :
  Forall entry_ok map ->
  unserialize_loop (S fuel + length map) (body map ++ 0 :: rest) m
  = (Some rest, foldl (fun m e => omap_insert e.1 e.2 m) m map).
Proof.
  intros Hm. revert m. induction Hm as [|e map He Hm IH]; intros m.
  - rewrite Nat.add_0_r. done.
  - unfold body. rewrite fmap_cons, mjoin_cons, <- app_assoc.
    replace (S fuel + length (e :: map))%nat with (S (S fuel + length map)) by (simpl; lia).
    rewrite read_entry by done. apply IH.
Qed.

Lemma read_prefix_entries fuel map n m r m' :
  Forall entry_ok map -> (n <= length (body map))%nat -> (length map < fuel)%nat ->
  unserialize_loop fuel (take n (body map)) m = (Some r, m') ->
  r = [] /\ exists k, m' = foldl (fun m e => omap_insert e.1 e.2 m) m (take k map)
    /\ take n (body map) = body (take k map).
Proof.
  intros Hm. revert fuel n m. induction Hm as [|e map He Hm IH]; intros [|fuel] n m Hn Hf Hr;
    simpl in Hf; try lia.
  - simpl in Hn. replace n with 0%nat in * by lia. simpl in Hr. simplify_eq. split; [done|].
    by exists 0%nat.
  - unfold body in Hn, Hr. rewrite fmap_cons, mjoin_cons in Hn, Hr. fold (body map) in Hn, Hr.
    rewrite length_app in Hn. destruct (decide (n = 0)%nat) as [->|Hn0].
    { simpl in Hr. simplify_eq. split; [done|]. exists 0%nat. by rewrite !take_0. }
    destruct (decide (n < length (entry_bytes e))%nat) as [Hlt|Hge].
    { rewrite take_app_le, read_cut_entry in Hr by (done || lia). done. }
    rewrite take_app_ge, read_entry in Hr by (done || lia).
    apply IH in Hr as (-> & k & Hm' & Hk); [|lia..]. split; [done|]. exists (S k). split; [done|].
    unfold body. cbn [take]. rewrite !fmap_cons, !mjoin_cons. fold (body map) (body (take k map)).
    by rewrite take_app_ge, Hk by lia.
Qed.

Lemma body_length map : (length map <= length (body map))%nat.
Proof.
  induction map as [|e map IH]; [simpl; lia|]. unfold body in *.
  rewrite fmap_cons, mjoin_cons, length_app, length_entry. cbn [length]. lia.
Qed.

(** Every round consumes a byte, so any fuel above the length is enough. *)
Lemma unserialize_fuel fuel fuel' ptr map :
  (length ptr < fuel)%nat -> (length ptr < fuel')%nat ->
  unserialize_loop fuel ptr map = unserialize_loop fuel' ptr map.
Proof.
  revert fuel' ptr map. induction fuel as [|fuel IH]; intros [|fuel'] ptr map H1 H2; try lia.
  cbn [unserialize_loop]. destruct ptr as [|l ptr]; [done|]. simpl in H1, H2.
  destruct (l =? 0); [reflexivity|]. destruct (_ <? Z.to_nat l + 2)%nat; [reflexivity|].
  destruct (_ <? _)%nat; [reflexivity|]. apply IH; rewrite !length_drop; lia.
Qed.

(** ** Updates *)

Lemma update_ok (map : attr_map) (u : Z * bytes) :
  omap_ok map -> omap_ok (if bool_decide (u.2 = []) then omap_erase u.1 map
                          else omap_insert u.1 u.2 map).
Proof. intros. case_if; [by apply erase_ok|by apply insert_ok]. Qed.

Lemma applyUpdates_ok (map updates : attr_map) : omap_ok map -> omap_ok (applyUpdates map updates).
Proof.
  unfold applyUpdates. revert map. induction updates as [|u updates IH]; intros map Hm; [done|].
  cbn [foldl]. by apply IH, update_ok.
Qed.

(** What an attribute is after an update. *)
Definition updated (map updates : attr_map) (id : Z) : option bytes :=
  match omap_find id updates with
  | Some [] => None
  | Some v => Some v
  | None => omap_find id map
  end.

Lemma applyUpdates_find (map updates : attr_map) id :
  omap_ok map -> omap_ok updates ->
  omap_find id (applyUpdates map updates) = updated map updates id.
Proof.
  unfold applyUpdates, updated. revert map. induction updates as [|[k v] updates IH]; intros map Hm Hu; [done|].
  destruct Hu as [Hb Hu]. cbn [foldl fst snd]. rewrite IH by (done || by apply (update_ok map (k, v))).
  rewrite find_cons.
  destruct (decide (id = k)) as [->|Hne].
  - rewrite (find_below k updates) by done. rewrite !Z.ltb_irrefl.
    case_bool_decide as Hv; [by rewrite Hv, find_erase_eq|].
    rewrite find_insert_eq. by destruct v.
  - assert (omap_find id (if bool_decide (v = []) then omap_erase k map else omap_insert k v map)
            = omap_find id map) as ->.
    { case_bool_decide; [by apply find_erase_ne|by apply find_insert_ne]. }
    destruct (id <? k) eqn:E1; zbool.
    + rewrite (find_below id updates); [done|]. eapply below_trans; [|done]. by apply Z.ltb_lt.
    + by rewrite (proj2 (Z.ltb_lt k id)) by lia.
Qed.

Lemma filter_all (map : attr_map) : Forall (fun e => e.2 <> []) map -> removeEmptyValues map = map.
Proof.
  unfold removeEmptyValues. induction 1 as [|e map He Hm IH]; [done|].
  by rewrite filter_cons_True, IH.
Qed.

Lemma find_nonempty (map : attr_map) id v :
  omap_ok map -> Forall (fun e => e.2 <> []) map -> omap_find id map = Some v -> v <> [].
Proof.
  intros Hok Hne Hf. apply find_In in Hf; [|done]. rewrite Forall_forall in Hne. by apply (Hne _ Hf).
Qed.

Lemma updated_nonempty (map updates : attr_map) id v :
  omap_ok map -> Forall (fun e => e.2 <> []) map -> updated map updates id = Some v -> v <> [].
Proof.
  intros Hok Hne. unfold updated. destruct (omap_find id updates) as [ [|c w]|].
  - done.
  - by intros [= <-].
  - by apply find_nonempty.
Qed.

(** No update of an attribute is no change of it. *)
Lemma updated_same (map updates : attr_map) id :
  omap_ok map -> Forall (fun e => e.2 <> []) map ->
  updated map updates id = omap_find id map <-> hasUpdate map id updates = false.
Proof.
  intros Hok Hne. pose proof (find_nonempty map id) as Hf. unfold updated, hasUpdate.
  destruct (omap_find id updates) as [upd|], (omap_find id map) as [cur|]; try done.
  - specialize (Hf cur Hok Hne eq_refl). rewrite bool_decide_eq_false.
    destruct upd as [|c upd]; (split; [intros E; simplify_eq; intros H; by destruct H|]).
    + intros H. by destruct H.
    + intros H. f_equal. symmetry. by apply dec_stable.
  - rewrite bool_decide_eq_false. destruct upd as [|c upd]; [split; [intros _ H; by destruct H|done]|].
    split; [done|]. intros H. by destruct H.
Qed.

Lemma updated_done (map updates map' : attr_map) id :
  (forall id, omap_find id map' = updated map updates id) -> hasUpdate map' id updates = false.
Proof.
  intros Hf. unfold hasUpdate. rewrite Hf. unfold updated.
  destruct (omap_find id updates) as [ [|c upd]|]; [done| |done].
  apply bool_decide_eq_false_2. by intros H.
Qed.

Lemma different_find (map other : attr_map) id :
  hasDifferentValue map id other = false <-> omap_find id map = omap_find id other.
Proof.
  unfold hasDifferentValue. destruct (omap_find id map) as [cur|], (omap_find id other) as [o|]; try done.
  rewrite bool_decide_eq_false. split; [intros H; f_equal; by apply dec_stable|].
  by intros [= ->] [].
Qed.

(** ** JSON *)

Definition same_escape (c : Z) : bool := bool_decide (escape_byte c = JSON.escape_char c c).

Lemma escape_byte_char c : byte_ok c -> escape_byte c = JSON.escape_char c c.
Proof.
  intros Hc. enough (same_escape c = true) as E by by apply bool_decide_eq_true_1 in E.
  apply (all_below_spec 256 same_escape); [vm_compute; reflexivity|]. unfold byte_ok in Hc. lia.
Qed.

Lemma unescape_byte c s : byte_ok c -> JSON.unescape (escape_byte c ++ s) = c :: JSON.unescape s.
Proof.
  intros Hc. destruct (decide (c < 0x80)) as [Hl|Hh].
  - rewrite escape_byte_char by done. apply EscapeFacts.unescape_escape_char.
    unfold byte_ok in Hc. lia.
  - unfold byte_ok in Hc. unfold escape_byte.
    rewrite (proj2 (Z.ltb_ge c 32)), !(proj2 (Z.eqb_neq c _)), andb_false_r by lia. cbn [orb app].
    apply EscapeFacts.unescape_plain. lia.
Qed.

(** An escaped character keeps the string open and the escape state clear. *)
Lemma raw_ok_app a r e : raw_ok a e = true -> raw_ok (a ++ r) e = raw_ok r false.
Proof.
  revert e. induction a as [|c a IH]; intros e; cbn [raw_ok app].
  - by intros ->%negb_true_iff.
  - intros [H1 H2]%andb_true_iff. rewrite H1. by apply IH.
Qed.

Lemma raw_ok_byte c : byte_ok c -> raw_ok (escape_byte c) false = true.
Proof.
  intros Hc. apply (all_below_spec 256 (fun c => raw_ok (escape_byte c) false));
    [vm_compute; reflexivity|]. unfold byte_ok in Hc. lia.
Qed.

Lemma escape_value_facts v :
  bytes_ok v -> raw_ok (escape_value v) false = true /\ JSON.unescape (escape_value v) = v.
Proof.
  unfold escape_value. induction 1 as [|c v Hc Hv [IH1 IH2] ]; [done|].
  rewrite fmap_cons, mjoin_cons. split.
  - by rewrite raw_ok_app by by apply raw_ok_byte.
  - by rewrite unescape_byte, IH2.
Qed.

(** Names that JSON does not have to escape. *)
Definition json_name (name : bytes) : Prop :=
  name_ok name /\ Forall (fun c => c < 128 /\ c <> cDquote) name.

#[export] Instance json_name_dec name : Decision (json_name name).
Proof. unfold json_name. apply _. Defined.

Definition key_ok (k : Z) : Prop := exists name, json_name name /\ k = name_value name.

Lemma until_quote_name name rest :
  json_name name -> JSON.until_quote (name ++ cDquote :: rest) = (name, cDquote :: rest).
Proof.
  intros [ [_ Hn] Hq]. induction name as [|c name IH]; [done|].
  apply Forall_cons in Hn as [Hc Hn]. apply Forall_cons in Hq as [ [_ Hc'] Hq].
  cbn [app JSON.until_quote]. rewrite (proj2 (Z.eqb_neq c 0)), (proj2 (Z.eqb_neq c _)) by lia.
  cbn [orb]. by rewrite IH.
Qed.

Lemma getnameid_fuel fuel lead name rest :
  lead = [] \/ lead = [chr ","] -> json_name name -> cchar rest = cDquote ->
  JSON.getNameidSkipNull (S fuel) (lead ++ cDquote :: name ++ cDquote :: chr ":" :: rest) true
  = Some (name_value name, rest).
Proof.
  intros Hlead Hn Hr. cbn [JSON.getNameidSkipNull].
  assert (JSON.skip_one [chr ","; chr ":"] (lead ++ cDquote :: name ++ cDquote :: chr ":" :: rest)
    = cDquote :: name ++ cDquote :: chr ":" :: rest) as ->.
  { destruct Hlead as [-> | ->]; unfold JSON.skip_one, JSON.is_any; cbn [app];
      rewrite cchar_cons; cbn [existsb Z.eqb Pos.eqb orb drop]; by rewrite ?drop_0. }
  rewrite cchar_cons, Z.eqb_refl. cbn [drop]. rewrite ?drop_0, until_quote_name by done.
  cbn [drop]. rewrite ?drop_0.
  change (foldl nameid_push 0 name) with (makeNameid name).
  rewrite makeNameid_value; [|apply Hn|eapply Forall_impl; [apply Hn|]; simpl; tauto].
  unfold JSON.skip_one at 1, JSON.is_any. rewrite cchar_cons.
  cbn [existsb Z.eqb Pos.eqb orb drop]. rewrite ?drop_0.
  pose proof (name_value_pos name) as Hpos. destruct Hn as [ [Hl Hn] _].
  rewrite (proj2 (Z.eqb_neq (name_value name) 0)).
  - cbn [negb andb]. unfold JSON.skipnullvalue. by rewrite Hr.
  - enough (0 < name_value name) by lia. apply Hpos; [done|]. by intros ->; simpl in Hl; lia.
Qed.

Lemma getnameid_name lead name rest :
  lead = [] \/ lead = [chr ","] -> json_name name -> cchar rest = cDquote ->
  JSON.getnameid (lead ++ cDquote :: name ++ cDquote :: chr ":" :: rest) = (name_value name, rest).
Proof. intros. unfold JSON.getnameid. by rewrite getnameid_fuel. Qed.

(** The members of a text, values encoded by [f]; only the first may come
    without a comma. *)
Fixpoint members_text (f : bytes -> bytes) (lead : bytes) (map : attr_map) : bytes :=
  match map with
  | [] => []
  | e :: map =>
      lead ++ cDquote :: nameid2string e.1 ++ cDquote :: chr ":" :: quoted (f e.2)
      ++ members_text f [chr ","] map
  end.

(** One round of the readers. *)
Lemma member_step f lead k v map rest t :
  lead = [] \/ lead = [chr ","] -> key_ok k -> raw_ok (f v) false = true ->
  cchar rest = 0 \/ cchar rest = chr "}" ->
  let after := members_text f [chr ","] map ++ rest in
  JSON.getnameid (members_text f lead ((k, v) :: map) ++ rest) = (k, quoted (f v) ++ after)
  /\ JSON.storeobject (quoted (f v) ++ after) t = (true, after, f v).
Proof.
  intros Hl (name & Hn & ->) Hv Hrest after. subst after. cbn [members_text fst snd].
  rewrite nameid2string_value by apply Hn. split.
  - rewrite <- app_assoc. cbn [app]. rewrite <- app_assoc. cbn [app]. rewrite <- app_assoc.
    by rewrite getnameid_name.
  - apply (JsonFacts.storeobject_value (VString (f v))); [done|].
    destruct map as [|e map]; [|done]. cbn [members_text app].
    unfold ends_number. by destruct Hrest as [-> | ->].
Qed.

Lemma getnameid_end rest :
  cchar rest = 0 \/ cchar rest = chr "}" -> JSON.getnameid rest = (0, rest).
Proof.
  intros Hr. unfold JSON.getnameid. cbn [JSON.getNameidSkipNull].
  assert (JSON.skip_one [chr ","; chr ":"] rest = rest) as ->.
  { unfold JSON.skip_one, JSON.is_any. by destruct Hr as [-> | ->]. }
  by destruct Hr as [-> | ->].
Qed.

Lemma key_not_eoo k : key_ok k -> (k =? EOO) = false.
Proof.
  intros (name & [ [Hl Hn] _] & ->). apply Z.eqb_neq. unfold EOO.
  enough (0 < name_value name) by lia. apply name_value_pos; [done|]. by intros ->; simpl in Hl; lia.
Qed.

Definition member_ok (f : bytes -> bytes) (e : Z * bytes) : Prop :=
  key_ok e.1 /\ raw_ok (f e.2) false = true.

Lemma fromjson_members f fuel lead map m :
  (forall e, e ∈ map -> JSON.unescape (f e.2) = e.2) ->
  lead = [] \/ lead = [chr ","] -> Forall (member_ok f) map -> (length map < fuel)%nat ->
  fromjson_loop fuel (members_text f lead map) m = foldl (fun m e => omap_insert e.1 e.2 m) m map.
Proof.
  intros Hf Hl Hm. revert fuel lead m Hl.
  induction Hm as [|[k v] map [Hk Hv] Hm IH]; intros [|fuel] lead m Hl Hfuel; simpl in Hfuel; try lia.
  - cbn [members_text fromjson_loop]. by rewrite getnameid_end by by left.
  - destruct (member_step f lead k v map [] (default [] (omap_find k m))) as [E1 E2];
      [done..|by left|]. rewrite !app_nil_r in *.
    cbn [fromjson_loop]. rewrite E1. rewrite key_not_eoo by done. rewrite E2.
    pose proof (Hf (k, v) ltac:(by apply elem_of_cons; left)) as E3. cbn [snd] in E3.
    cbn [foldl fst snd]. rewrite insert_insert, E3.
    apply IH; [|by right|lia]. intros e He. apply Hf. by apply elem_of_cons; right.
Qed.

Lemma fromobject_members fuel lead map m rest :
  lead = [] \/ lead = [chr ","] -> Forall (member_ok id) map -> (length map < fuel)%nat ->
  cchar rest = chr "}" ->
  fromobject_loop fuel (members_text id lead map ++ rest) m
  = Some (rest, foldl (fun m e => omap_insert e.1 e.2 m) m map).
Proof.
  intros Hl Hm. revert fuel lead m Hl.
  induction Hm as [|[k v] map [Hk Hv] Hm IH]; intros [|fuel] lead m Hl Hfuel Hr; simpl in Hfuel; try lia.
  - cbn [members_text fromobject_loop app]. by rewrite getnameid_end by by right.
  - destruct (member_step id lead k v map rest (default [] (omap_find k m))) as [E1 E2];
      [done..|by right|].
    cbn [fromobject_loop]. rewrite E1. rewrite key_not_eoo by done. rewrite E2.
    cbn [foldl fst snd]. rewrite insert_insert. apply IH; [by right|lia|done].
Qed.

Lemma json_entry_text s e :
  key_ok e.1 ->
  json_entry s e
  = s ++ (match s with [] => [] | _ => [chr ","] end)
      ++ cDquote :: nameid2string e.1 ++ cDquote :: chr ":" :: quoted (escape_value e.2).
Proof.
  intros Hk. unfold json_entry. pose proof (key_not_eoo _ Hk) as E. unfold EOO in E. rewrite E.
  unfold quoted. destruct s; cbn [app]; [done|]. by rewrite <- app_assoc.
Qed.

Lemma getjson_tail s map :
  s <> [] -> Forall (fun e => key_ok e.1) map ->
  foldl json_entry s map = s ++ members_text escape_value [chr ","] map.
Proof.
  intros Hs Hm. revert s Hs. induction Hm as [|e map Hk Hm IH]; intros s Hs; [by rewrite app_nil_r|].
  cbn [foldl members_text]. rewrite json_entry_text by done. destruct s as [|c s]; [done|].
  rewrite IH by done. rewrite <- !app_assoc. cbn [app]. by rewrite <- !app_assoc.
Qed.

Lemma getjson_text map :
  Forall (fun e => key_ok e.1) map -> getjson map = members_text escape_value [] map.
Proof.
  intros Hm. destruct Hm as [|e map Hk Hm]; [done|]. unfold getjson. cbn [foldl members_text app].
  rewrite json_entry_text, getjson_tail by done. cbn [app]. by rewrite <- !app_assoc.
Qed.

Lemma object_text lead map :
  map <> [] -> lead ++ mjoin (object_entry <$> map) = members_text id lead map ++ [chr ","].
Proof.
  revert lead. induction map as [|e map IH]; intros lead Hne; [done|].
  cbn [members_text]. rewrite fmap_cons, mjoin_cons. unfold object_entry at 1, quoted, id at 1.
  destruct map as [|e' map].
  - cbn [members_text fmap list_fmap]. rewrite <- !app_assoc. cbn [app].
    rewrite <- !app_assoc. cbn [app]. rewrite <- !app_assoc. done.
  - specialize (IH [chr ","] (ltac:(done))). cbn [app] in IH.
    rewrite <- ?app_assoc. cbn [app]. rewrite <- ?app_assoc. cbn [app]. rewrite <- ?app_assoc.
    cbn [app]. rewrite <- ?app_assoc. rewrite <- IH. done.
Qed.

Lemma getJsonObject_text map :
  map <> [] -> getJsonObject map = chr "{" :: members_text id [] map ++ [chr "}"].
Proof.
  intros Hne. unfold getJsonObject.
  assert (forall d, foldl (fun result e => result ++ object_entry e) d map
                    = d ++ mjoin (object_entry <$> map)) as E.
  { clear Hne. induction map as [|e map IH]; intros d; cbn [foldl]; [by rewrite app_nil_r|].
    by rewrite IH, fmap_cons, mjoin_cons, app_assoc. }
  rewrite E. pose proof (object_text [] map Hne) as T. cbn [app] in T. rewrite T.
  rewrite app_assoc, length_app, Nat.add_sub, take_app_length. by destruct map.
Qed.

Lemma cstring_id l : Forall (fun c => c <> 0) l -> PaddedCBC.cstring l = l.
Proof.
  induction 1 as [|c l Hc Hl IH]; [done|]. cbn [PaddedCBC.cstring].
  by rewrite (proj2 (Z.eqb_neq c 0)), IH.
Qed.

Lemma raw_ok_nonzero raw e : raw_ok raw e = true -> Forall (fun c => c <> 0) raw.
Proof.
  revert e. induction raw as [|c raw IH]; intros e; [constructor|]. cbn [raw_ok].
  intros [ [H1 _]%andb_true_iff H2]%andb_true_iff. zbool. constructor; [done|by eapply IH].
Qed.

Lemma members_nonzero lead map :
  Forall (fun c => c <> 0) lead -> Forall (member_ok id) map ->
  Forall (fun c => c <> 0) (members_text id lead map).
Proof.
  intros Hl Hm. revert lead Hl.
  induction Hm as [|[k v] map [ (name & [Hn Ha] & Hk) Hv] Hm IH]; intros lead Hl; [done|].
  cbn [members_text fst snd] in *. rewrite Hk, nameid2string_value by done.
  apply Forall_app_2; [done|]. constructor; [done|]. apply Forall_app_2.
  { eapply Forall_impl; [apply Hn|]. simpl. lia. }
  unfold quoted. cbn [app]. rewrite <- app_assoc. do 3 (constructor; [done|]). apply Forall_app_2; [by eapply raw_ok_nonzero|].
  constructor; [done|]. apply IH. by repeat constructor.
Qed.

Lemma enter_brace l : JSON.enterobject (chr "{" :: l) = (true, l).
Proof.
  unfold JSON.enterobject, JSON.skip_one, JSON.is_any. rewrite cchar_cons.
  cbn [existsb Z.eqb Pos.eqb orb]. rewrite cchar_cons. cbn [existsb Z.eqb Pos.eqb orb drop].
  by rewrite ?cchar_cons, ?drop_0.
Qed.

Lemma leave_brace fuel rest : JSON.leaveobject (S fuel) (chr "}" :: rest) = Some (true, rest).
Proof. unfold JSON.leaveobject. cbn [JSON.leave_loop]. rewrite cchar_cons. cbn. by rewrite drop_0. Qed.

Lemma members_length f lead map : (length map <= length (members_text f lead map))%nat.
Proof.
  revert lead. induction map as [|e map IH]; intros lead; [simpl; lia|].
  cbn [members_text length]. rewrite length_app. cbn [length]. rewrite length_app.
  cbn [length]. rewrite length_app. specialize (IH [chr ","]). lia.
Qed.

End AttrFacts.

(** ** Properties *)

(** Reading the cache record of a map gives the map and stops behind the
    record; a record that is cut is refused, except between two entries, where
    the missing terminator goes unnoticed and the entries so far are the map. *)
Theorem attr_record_roundtrip map rest :
  omap_ok map -> Forall AttrFacts.entry_ok map ->
  AttrMap.unserialize (AttrMap.serialize map [] ++ rest) [] = (Some rest, map)
  /\ forall n r map', (n < length (AttrMap.serialize map []))%nat ->
     AttrMap.unserialize (take n (AttrMap.serialize map [])) [] = (Some r, map') ->
     r = [] /\ exists k, map' = take k map
       /\ AttrMap.serialize map' [] = take n (AttrMap.serialize map []) ++ [0].
Proof.
  intros Hok Hm. rewrite AttrFacts.serialize_body by done. cbn [app]. split.
  - unfold AttrMap.unserialize. rewrite <- app_assoc. cbn [app].
    pose proof (AttrFacts.body_length map) as L.
    replace (S (length (AttrFacts.body map ++ 0%Z :: rest)))
      with (S (length (AttrFacts.body map ++ 0%Z :: rest) - length map) + length map)%nat.
    2: { rewrite length_app in *. lia. }
    rewrite AttrFacts.read_body by done. f_equal. by apply (rebuild []).
  - intros n r map' Hn Hr. rewrite length_app in Hn. simpl in Hn.
    rewrite take_app_le in * by lia. unfold AttrMap.unserialize in Hr.
    rewrite (AttrFacts.unserialize_fuel _ (S (length map + n))) in Hr by (rewrite ?length_take; lia).
    apply AttrFacts.read_prefix_entries in Hr as (-> & k & -> & Hk); [|done|lia|lia].
    split; [done|]. exists k. rewrite (rebuild []) by by apply take_ok.
    split; [done|]. rewrite AttrFacts.serialize_body by by apply Forall_take.
    by rewrite Hk.
Qed.

(** An update sets an attribute to the non-empty value it carries, removes
    it for an empty one and leaves the others.  On a map without empty values
    (which an update preserves) it changes nothing exactly when [hasUpdate] is
    false of every attribute, and afterwards [hasUpdate] is false of all;
    [hasDifferentValue] tells maps apart by lookup. *)
Theorem attr_updates map updates :
  omap_ok map -> omap_ok updates -> Forall (fun e => e.2 <> []) map ->
  let map' := AttrMap.applyUpdates map updates in
  (forall id, omap_find id map' = AttrFacts.updated map updates id)
  /\ omap_ok map' /\ AttrMap.removeEmptyValues map' = map'
  /\ (map' = map <-> forall id, AttrMap.hasUpdate map id updates = false)
  /\ (forall id, AttrMap.hasUpdate map' id updates = false)
  /\ (forall id other, AttrMap.hasDifferentValue map id other = false
        <-> omap_find id map = omap_find id other).
Proof.
  intros Hm Hu Hne map'.
  assert (forall id, omap_find id map' = AttrFacts.updated map updates id) as Hfind.
  { intros id. by apply AttrFacts.applyUpdates_find. }
  assert (omap_ok map') as Hok by by apply AttrFacts.applyUpdates_ok.
  split; [done|]. split; [done|]. split.
  { apply AttrFacts.filter_all, Forall_forall. intros [k v] He. apply (find_In k v) in He; [|done].
    rewrite Hfind in He. cbn [snd]. by eapply AttrFacts.updated_nonempty; [exact Hm|exact Hne|exact He]. }
  split; [|split].
  - split.
    + intros E id. apply AttrFacts.updated_same; [done..|]. by rewrite <- Hfind, E.
    + intros E. apply omap_ext; [done..|]. intros id. rewrite Hfind.
      apply AttrFacts.updated_same; [done|done|apply E].
  - intros id. by apply (AttrFacts.updated_done map).
  - intros id other. apply AttrFacts.different_find.
Qed.

(** The JSON text of a map (names of ASCII characters other than the quote,
    any bytes as values) reads back as the map; so does the object text when
    the values need no escaping. *)
Theorem attr_json_roundtrip map :
  omap_ok map -> Forall (fun e => AttrFacts.key_ok e.1 /\ bytes_ok e.2) map ->
  AttrMap.fromjson (Some (AttrMap.getjson map)) [] = map
  /\ (Forall (fun e => JsonValue.raw_ok e.2 false = true) map ->
      forall fuel, (0 < fuel)%nat -> AttrMap.fromjsonObject fuel (AttrMap.getJsonObject map) = Some map).
Proof.
  intros Hok Hm. split.
  - rewrite AttrFacts.getjson_text by (eapply Forall_impl; [exact Hm|]; simpl; tauto).
    unfold AttrMap.fromjson. rewrite (AttrFacts.fromjson_members AttrMap.escape_value).
    + by apply (rebuild []).
    + intros e He. rewrite Forall_forall in Hm. apply AttrFacts.escape_value_facts. by apply Hm.
    + by left.
    + eapply Forall_impl; [exact Hm|]. intros e [Hk Hb]. split; [done|].
      by apply AttrFacts.escape_value_facts.
    + pose proof (AttrFacts.members_length AttrMap.escape_value [] map). lia.
  - intros Hraw fuel Hfuel. destruct (decide (map = [])) as [->|Hne]; [done|].
    assert (Forall (AttrFacts.member_ok id) map) as Hms.
    { apply Forall_and in Hm as [Hk _]. apply Forall_and. by split. }
    rewrite AttrFacts.getJsonObject_text by done. unfold AttrMap.fromjsonObject.
    rewrite AttrFacts.cstring_id.
    2: { constructor; [done|]. apply Forall_app_2; [by apply AttrFacts.members_nonzero|].
         by repeat constructor. }
    rewrite AttrFacts.enter_brace. cbn [negb].
    rewrite AttrFacts.fromobject_members; [|by left|done| |done].
    2: { rewrite length_app. pose proof (AttrFacts.members_length id [] map). lia. }
    destruct fuel as [|fuel]; [lia|]. rewrite AttrFacts.leave_brace.
    by rewrite (rebuild []).
Qed.

(** ** Witnesses *)
Module AttrExamples.
Import AttrFacts.

Definition attrs : list (Z * bytes) :=
  [(name_value (str "n"), [233; 34; 10; 1]); (name_value (str "fav"), str "1")].

Lemma names_ok : json_name (str "n") /\ json_name (str "fav").
Proof. split; (split; [split; [simpl; lia|repeat constructor; lia]|repeat constructor; lia]). Qed.

Lemma attrs_ok : omap_ok attrs /\ Forall entry_ok attrs
  /\ Forall (fun e => key_ok e.1 /\ bytes_ok e.2) attrs.
Proof.
  destruct names_ok as [H1 H2]. split; [by repeat constructor|]. split.
  - constructor; [|constructor; [|done] ]; (split; [|simpl; lia]).
    + exists (str "n"). by split; [apply H1|].
    + exists (str "fav"). by split; [apply H2|].
  - constructor; [|constructor; [|done] ]; (split; [|repeat constructor; simpl; lia]).
    + by exists (str "n").
    + by exists (str "fav").
Qed.

End AttrExamples.

Lemma attr_record_roundtrip_witness :
  AttrMap.unserialize (AttrMap.serialize AttrExamples.attrs [] ++ [5]) []
  = (Some [5], AttrExamples.attrs).
Proof.
  destruct AttrExamples.attrs_ok as (H1 & H2 & H3). by apply attr_record_roundtrip.
Defined.

Lemma attr_updates_witness :
  let map' := AttrMap.applyUpdates AttrExamples.attrs [(110, []); (112, [7])] in
  AttrMap.removeEmptyValues map' = map' /\ forall id, AttrMap.hasUpdate map' id [(110, []); (112, [7])] = false.
Proof.
  destruct AttrExamples.attrs_ok as (H1 & H2 & H3).
  destruct (attr_updates AttrExamples.attrs [(110, []); (112, [7])]) as (_ & _ & H & _ & H' & _);
    [done|by repeat constructor|by repeat constructor|]. exact (conj H H').
Defined.

Lemma attr_json_roundtrip_witness :
  AttrMap.fromjson (Some (AttrMap.getjson AttrExamples.attrs)) [] = AttrExamples.attrs.
Proof.
  destruct AttrExamples.attrs_ok as (H1 & H2 & H3). by apply attr_json_roundtrip.
Defined.
