(* ===== verification/Timers.v ===== *)
(** * Backoff timers (src/src/backofftimer.cpp, mega/backofftimer.h)

    [BackoffTimer] (capped exponential backoff over the 32-bit clock of
    deciseconds), [BackoffTimerTracked] and [BackoffTimerGroupTracker], the
    multimap of the pending timeouts of a group of timers.

    The clock [Waiter::ds] is an argument.  The random part of a backoff, the
    truncated product [base / 2.0 * (rnd / RAND_MAX)] of doubles, is the
    parameter [jitter]: both factors being what they are, it lies between zero
    and half the base.  The model is of the release build ([update] only warns
    about [next == 1]). *)

From stdpp Require Import sorting.
From S2P Require Import Prelude.
Local Open Scope Z_scope.

Definition NEVER : Z := 2 ^ 32 - 1.

Record BackoffTimer := { next : Z; delta : Z; base : Z }.

Module BT.

Definition reset : BackoffTimer := {| next := 0; delta := 1; base := 1 |}.

(** [backoff()]. *)
Definition backoff (jitter : Z -> Z) (ds : Z) (t : BackoffTimer) : BackoffTimer :=
  let next := u32 (ds + delta t) in
  let base := u32 (Z.shiftl (base t) 1) in
  let base := if 6000 <? base then 6000 else base in
  {| next := next; delta := u32 (base + jitter base); base := base |}.

(** [backoff(newdelta)]. *)
Definition backoff_to (ds newdelta : Z) (t : BackoffTimer) : BackoffTimer :=
  {| next := if newdelta =? NEVER then NEVER else u32 (ds + newdelta);
     delta := newdelta; base := newdelta |}.

Definition armed (ds : Z) (t : BackoffTimer) : bool := (next t <=? 1) || (next t <=? ds).

Definition arm (ds : Z) (t : BackoffTimer) : bool * BackoffTimer :=
  if (next t =? NEVER) || (ds <? u32 (next t + delta t))
  then (true, {| next := ds; delta := 1; base := 1 |})
  else (false, t).

Definition set (newds : Z) (t : BackoffTimer) : BackoffTimer :=
  if newds <? next t then {| next := newds; delta := delta t; base := base t |} else t.

Definition retryin (ds : Z) (t : BackoffTimer) : Z :=
  if armed ds t then 0 else u32 (next t - ds).

Definition backoffdelta (t : BackoffTimer) : Z := delta t.
Definition nextset (t : BackoffTimer) : Z := next t.

(** [update(waituntil)]: the new [*waituntil] and the timer. *)
Definition update (ds waituntil : Z) (t : BackoffTimer) : Z * BackoffTimer :=
  if next t =? 0 then (waituntil, t)
  else if next t <=? ds then
    (if next t =? 1 then u32 (ds + 1) else 0,
     {| next := 1; delta := delta t; base := base t |})
  else if next t <? waituntil then (next t, t)
  else (waituntil, t).

End BT.

(** ** Groups of timers

    Timers are known by a number.  An iterator of [timeouts] is the entry of
    its timer, of which there is at most one. *)

Record BackoffTimerTracked := { mIsEnabled : bool; bt : BackoffTimer }.

Record Group := {
  timers : gmap nat BackoffTimerTracked;
  timeouts : list (Z * nat)
}.

Module Tracker.

Definition empty : Group := {| timers := ∅; timeouts := [] |}.

(** [multimap::emplace] inserts behind the equal keys. *)
Fixpoint emplace (k : Z) (i : nat) (l : list (Z * nat)) : list (Z * nat) :=
  match l with
  | [] => [(k, i)]
  | e :: l' => if k <? e.1 then (k, i) :: l else e :: emplace k i l'
  end.

Fixpoint erase (i : nat) (l : list (Z * nat)) : list (Z * nat) :=
  match l with
  | [] => []
  | e :: l => if (e.2 =? i)%nat then l else e :: erase i l
  end.

Definition is_tracked (t : BackoffTimerTracked) : bool :=
  mIsEnabled t && negb (BT.nextset (bt t) =? 0) && negb (BT.nextset (bt t) =? NEVER).

Definition add (i : nat) (t : BackoffTimerTracked) (l : list (Z * nat)) : list (Z * nat) :=
  emplace (if BT.nextset (bt t) =? 0 then NEVER else BT.nextset (bt t)) i l.

Definition untrack (i : nat) (t : BackoffTimerTracked) (l : list (Z * nat)) : list (Z * nat) :=
  if is_tracked t then erase i l else l.

Definition track (i : nat) (t : BackoffTimerTracked) (l : list (Z * nat)) : list (Z * nat) :=
  if is_tracked t then add i t l else l.

(** The shape of every member function of [BackoffTimerTracked] that changes the
    timer: untrack, change, track. *)
Definition on_timer (f : BackoffTimerTracked -> BackoffTimerTracked) (i : nat) (g : Group) : Group :=
  match timers g !! i with
  | None => g
  | Some t =>
      let t' := f t in
      {| timers := <[i := t']> (timers g);
         timeouts := track i t' (untrack i t (timeouts g)) |}
  end.

Definition on_bt (f : BackoffTimer -> BackoffTimer) : nat -> Group -> Group :=
  on_timer (fun t => {| mIsEnabled := mIsEnabled t; bt := f (bt t) |}).

Definition create (i : nat) (g : Group) : Group :=
  let t := {| mIsEnabled := true; bt := BT.reset |} in
  {| timers := <[i := t]> (timers g); timeouts := track i t (timeouts g) |}.

Definition destroy (i : nat) (g : Group) : Group :=
  match timers g !! i with
  | None => g
  | Some t => {| timers := delete i (timers g); timeouts := untrack i t (timeouts g) |}
  end.

Definition arm (ds : Z) := on_bt (fun t => snd (BT.arm ds t)).
Definition backoff (jitter : Z -> Z) (ds : Z) := on_bt (BT.backoff jitter ds).
Definition backoff_to (ds t : Z) := on_bt (BT.backoff_to ds t).
Definition set (t : Z) := on_bt (BT.set t).
Definition reset := on_bt (fun _ => BT.reset).
Definition enable (b : bool) := on_timer (fun t => {| mIsEnabled := b; bt := bt t |}).

Definition update (ds waituntil : Z) (i : nat) (g : Group) : Z * Group :=
  match timers g !! i with
  | None => (waituntil, g)
  | Some t => (fst (BT.update ds waituntil (bt t)),
               on_bt (fun t => snd (BT.update ds waituntil t)) i g)
  end.

Definition timer_armed (ds : Z) (g : Group) (i : nat) : bool :=
  match timers g !! i with Some t => BT.armed ds (bt t) | None => false end.

(** The timers to work on, for the two modes of the group update. *)
Fixpoint due_transfers (ds : Z) (l : list (Z * nat)) : list nat :=
  match l with
  | [] => []
  | e :: l => if e.1 <=? ds then e.2 :: due_transfers ds l else []
  end.

Fixpoint due_slots (ds : Z) (g : Group) (l : list (Z * nat)) : list nat :=
  match l with
  | [] => []
  | e :: l =>
      (if timer_armed ds g e.2 then [e.2] else []) ++
      (if ds <? e.1 then [] else due_slots ds g l)
  end.

(** One timer of the group update; transfers fire only once but stay armed. *)
Definition visit (ds : Z) (transfers : bool) (s : Z * Group) (i : nat) : Z * Group :=
  let '(waituntil, g) := update ds s.1 i s.2 in
  if transfers && timer_armed ds g i then (waituntil, set 0 i g) else (waituntil, g).

Definition update_group (ds waituntil : Z) (transfers : bool) (g : Group) : Z * Group :=
  let v := if transfers then due_transfers ds (timeouts g) else due_slots ds g (timeouts g) in
  foldl (visit ds transfers) (waituntil, g) v.

End Tracker.

Module TrackerFacts.
Import Tracker.

(** The multimap is the pending timeouts of the enabled timers, in order. *)
Record inv (g : Group) : Prop := {
  inv_sorted : StronglySorted (fun a b => a.1 <= b.1) (timeouts g);
  inv_nodup : NoDup (timeouts g).*2;
  inv_entry : forall k i, (k, i) ∈ timeouts g <->
    exists t, timers g !! i = Some t /\ is_tracked t = true /\ next (bt t) = k
}.

Lemma elem_emplace e k i l : e ∈ emplace k i l <-> e = (k, i) \/ e ∈ l.
Proof.
  induction l as [|a l IH]; cbn [emplace]; [by rewrite list_elem_of_singleton, elem_of_nil; tauto|].
  case_if; rewrite !elem_of_cons, ?IH, ?elem_of_cons; tauto.
Qed.

Lemma emplace_sorted k i l :
  StronglySorted (fun a b => a.1 <= b.1) l ->
  StronglySorted (fun a b => a.1 <= b.1) (emplace k i l).
Proof.
  induction 1 as [|a l Hs IH Ha]; cbn [emplace]; [by repeat constructor|].
  rewrite Forall_forall in Ha. case_if; zbool; constructor.
  - by constructor; [|apply Forall_forall].
  - apply Forall_forall. intros b [->|Hb]%elem_of_cons; [simpl; lia|].
    specialize (Ha b Hb). simpl. lia.
  - done.
  - apply Forall_forall. intros b [->|Hb]%elem_emplace; [done|]. by apply Ha.
Qed.

Lemma emplace_nodup k i l : i ∉ l.*2 -> NoDup l.*2 -> NoDup (emplace k i l).*2.
Proof.
  intros Hi Hl. induction l as [|a l IH]; cbn [emplace fmap list_fmap].
  { constructor; [apply not_elem_of_nil|constructor]. }
  rewrite fmap_cons, not_elem_of_cons in Hi. rewrite fmap_cons, NoDup_cons in Hl.
  destruct Hi as [Hi1 Hi2], Hl as [Ha Hl].
  case_if; rewrite ?fmap_cons, !NoDup_cons.
  - split; [by apply not_elem_of_cons|by split].
  - split; [|by apply IH]. rewrite list_elem_of_fmap. intros (e & E & [->|He]%elem_emplace).
    + by destruct Hi1.
    + apply Ha. rewrite E. by apply list_elem_of_fmap_2.
Qed.

Lemma elem_erase k j i l : NoDup l.*2 -> (k, j) ∈ erase i l <-> (k, j) ∈ l /\ j <> i.
Proof.
  intros Hl. induction l as [|[k' j'] l IH]; cbn [erase]; [rewrite elem_of_nil; tauto|].
  rewrite fmap_cons, NoDup_cons in Hl. destruct Hl as [Ha Hl]. cbn [fst snd] in *.
  destruct (Nat.eqb_spec j' i) as [->|Hne].
  - rewrite elem_of_cons. split; [|intros [ [E|H] Hne]; [by simplify_eq|done] ].
    intros H. split; [by right|]. intros ->. apply Ha.
    change i with (k, i).2. by apply list_elem_of_fmap_2.
  - rewrite !elem_of_cons, IH by done. split.
    + intros [E|[H Hj] ]; [by simplify_eq; split; [left|]|by split; [right|] ].
    + intros [ [E|H] Hj]; [by left|by right].
Qed.

Lemma erase_sublist i l : sublist (erase i l) l.
Proof.
  induction l as [|e l IH]; cbn [erase]; [constructor|]. case_if; [|by constructor].
  by apply sublist_cons.
Qed.

Lemma sorted_sublist (l l' : list (Z * nat)) :
  sublist l' l -> StronglySorted (fun a b => a.1 <= b.1) l ->
  StronglySorted (fun a b => a.1 <= b.1) l'.
Proof.
  induction 1 as [|a l1 l2 Hsub IH|a l1 l2 Hsub IH]; intros Hs; [done| |].
  - apply StronglySorted_inv in Hs as [Hs Ha]. constructor; [auto|].
    rewrite Forall_forall in *. intros b Hb. apply Ha. by eapply elem_of_sublist.
  - apply StronglySorted_inv in Hs as [Hs _]. auto.
Qed.

Lemma tracked_not_zero t : is_tracked t = true -> next (bt t) <> 0.
Proof. unfold is_tracked, BT.nextset. intros H. zbool. done. Qed.

(** The state without the entry of [i], which every change starts from. *)
Lemma untrack_facts g i t :
  inv g -> timers g !! i = Some t ->
  let l := untrack i t (timeouts g) in
  StronglySorted (fun a b => a.1 <= b.1) l /\ NoDup l.*2
  /\ (forall k j, (k, j) ∈ l <-> (k, j) ∈ timeouts g /\ j <> i).
Proof.
  intros [Hs Hn He] Hi. unfold untrack. destruct (is_tracked t) eqn:E; cbv zeta.
  - split; [|split].
    + eapply sorted_sublist; [apply erase_sublist|done].
    + apply (sublist_NoDup _ (timeouts g).*2); [done|]. apply (fmap_sublist snd), erase_sublist.
    + intros k j. by apply elem_erase.
  - split; [done|split; [done|] ]. intros k j. split; [|tauto]. intros H. split; [done|].
    intros ->. apply He in H as (t' & Ht' & Htr & _). congruence.
Qed.

(** Adding the entry of [i] to a list that has none. *)
Lemma track_facts i t (l : list (Z * nat)) :
  StronglySorted (fun a b => a.1 <= b.1) l -> NoDup l.*2 -> (forall k, (k, i) ∉ l) ->
  let l' := track i t l in
  StronglySorted (fun a b => a.1 <= b.1) l' /\ NoDup l'.*2
  /\ (forall k j, (k, j) ∈ l' <-> (k, j) ∈ l \/ (j = i /\ is_tracked t = true /\ next (bt t) = k)).
Proof.
  intros Hs Hn Hi. unfold track. destruct (is_tracked t) eqn:E; cbv zeta.
  - unfold add, BT.nextset. rewrite (proj2 (Z.eqb_neq _ _)) by by apply tracked_not_zero.
    split; [by apply emplace_sorted|]. split.
    + apply emplace_nodup; [|done]. rewrite list_elem_of_fmap. intros ([k j] & -> & H). by apply (Hi k).
    + intros k j. rewrite elem_emplace. split.
      * intros [H|H]; [simplify_eq; by right|by left].
      * intros [H|(-> & _ & <-)]; [by right|by left].
  - split; [done|split; [done|] ]. intros k j. split; [by left|].
    intros [H|(_ & H & _)]; [done|congruence].
Qed.

Lemma inv_empty : inv empty.
Proof.
  split; [constructor|constructor|]. intros k i. cbn. rewrite elem_of_nil, lookup_empty.
  split; [done|]. by intros (t & H & _).
Qed.

Lemma inv_change g i t t' :
  inv g -> timers g !! i = Some t ->
  inv {| timers := <[i := t']> (timers g); timeouts := track i t' (untrack i t (timeouts g)) |}.
Proof.
  intros Hg Hi. destruct (untrack_facts g i t Hg Hi) as (Hs & Hn & He).
  destruct (track_facts i t' (untrack i t (timeouts g))) as (Hs' & Hn' & He'); [done|done| |].
  { intros k H%He. by destruct H. }
  split; cbn [timeouts timers]; [done|done|]. intros k j. rewrite He', He, (inv_entry g Hg).
  destruct (decide (j = i)) as [->|Hne].
  - rewrite lookup_insert_eq. split.
    + intros [ [_ H]|(_ & H1 & H2)]; [done|]. by exists t'.
    + intros (t1 & E & H1 & H2). simplify_eq. by right.
  - rewrite lookup_insert_ne by done. split.
    + intros [ [H _]|(H & _)]; [done|by destruct Hne].
    + intros H. by left.
Qed.

Lemma inv_on_timer f i g : inv g -> inv (on_timer f i g).
Proof.
  intros Hg. unfold on_timer. destruct (timers g !! i) as [t|] eqn:E; [|done]. by apply inv_change.
Qed.

Lemma inv_create i g : inv g -> timers g !! i = None -> inv (create i g).
Proof.
  intros Hg Hi. unfold create. cbn. split; cbn [timeouts timers]; [apply Hg|apply Hg|].
  intros k j. rewrite (inv_entry g Hg). destruct (decide (j = i)) as [->|Hne].
  - rewrite lookup_insert_eq, Hi. split; [by intros (t & ? & _)|].
    intros (t & E & H & _). by simplify_eq.
  - by rewrite lookup_insert_ne.
Qed.

Lemma inv_destroy i g : inv g -> inv (destroy i g).
Proof.
  intros Hg. unfold destroy. destruct (timers g !! i) as [t|] eqn:E; [|done].
  destruct (untrack_facts g i t Hg E) as (Hs & Hn & He).
  split; cbn [timeouts timers]; [done|done|]. intros k j. rewrite He, (inv_entry g Hg).
  destruct (decide (j = i)) as [->|Hne].
  - rewrite lookup_delete_eq. split; [by intros [_ ?]|by intros (t' & ? & _)].
  - rewrite lookup_delete_ne by done. tauto.
Qed.

Lemma inv_visit ds tr s i : inv s.2 -> inv (visit ds tr s i).2.
Proof.
  intros Hg. unfold visit, update. destruct (timers s.2 !! i) as [t|] eqn:E; cbn [fst snd].
  - case_if; cbn [snd]; [apply inv_on_timer|]; by apply inv_on_timer.
  - by case_if; cbn [snd]; [apply inv_on_timer|].
Qed.

Lemma inv_update_group ds w tr g : inv g -> inv (update_group ds w tr g).2.
Proof.
  intros Hg. unfold update_group. generalize (if tr then due_transfers ds (timeouts g)
    else due_slots ds g (timeouts g)). intros v.
  assert (forall s, inv s.2 -> inv (foldl (visit ds tr) s v).2) as H; [|by apply H].
  induction v as [|i v IH]; intros s Hs; [done|]. cbn [foldl]. by apply IH, inv_visit.
Qed.

(** ** What a group update does *)

(** The due timers are those with a pending timeout up to [ds]. *)
Lemma due_transfers_spec ds l i :
  StronglySorted (fun a b => a.1 <= b.1) l ->
  i ∈ due_transfers ds l <-> exists k, (k, i) ∈ l /\ k <= ds.
Proof.
  induction 1 as [|[k j] l Hs IH Ha]; cbn [due_transfers fst snd].
  - rewrite elem_of_nil. split; [done|]. by intros (k & H%elem_of_nil & _).
  - destruct (k <=? ds) eqn:E; zbool.
    + rewrite elem_of_cons, IH. split.
      * intros [->|(k' & H & Hk)]; [exists k; by split; [left|]|exists k'; by split; [right|] ].
      * intros (k' & [H|H]%elem_of_cons & Hk); [simplify_eq; by left|right; by exists k'].
    + rewrite elem_of_nil. split; [done|]. rewrite Forall_forall in Ha.
      intros (k' & [H|H]%elem_of_cons & Hk); [simplify_eq; lia|].
      specialize (Ha _ H). simpl in Ha. lia.
Qed.

Lemma due_transfers_nodup ds l : NoDup l.*2 -> NoDup (due_transfers ds l).
Proof.
  induction l as [|[k j] l IH]; cbn [due_transfers]; [constructor|].
  rewrite fmap_cons, NoDup_cons. intros [Ha Hl]. case_if; [|constructor].
  constructor; [|auto]. intros H. apply Ha. clear -H. induction l as [|[k' j'] l IH]; [done|].
  cbn [due_transfers fst snd] in H. rewrite fmap_cons. revert H. case_if; [|by intros ?%elem_of_nil].
  intros [->|H]%elem_of_cons; [by apply elem_of_cons; left|]. apply elem_of_cons. right. auto.
Qed.

(** In the other mode the timers looked at are the same, once the clock runs. *)
Lemma due_slots_same ds g l :
  0 < ds -> (forall k i, (k, i) ∈ l -> exists t, timers g !! i = Some t /\ next (bt t) = k) ->
  due_slots ds g l = due_transfers ds l.
Proof.
  intros Hds. induction l as [|[k i] l IH]; intros Hl; [done|]. cbn [due_slots due_transfers fst snd].
  destruct (Hl k i) as (t & Ht & Hk); [by apply elem_of_cons; left|].
  unfold timer_armed, BT.armed. rewrite Ht, Hk.
  destruct (k <=? ds) eqn:E; zbool.
  - rewrite orb_true_r, (proj2 (Z.ltb_ge ds k)) by lia. cbn [app]. f_equal. apply IH.
    intros k' i' H. apply Hl. by apply elem_of_cons; right.
  - by rewrite (proj2 (Z.leb_gt k 1)), (proj2 (Z.ltb_lt ds k)) by lia.
Qed.

(** The effect on one due timer. *)
Definition fired (tr : bool) (t : BackoffTimerTracked) : BackoffTimerTracked :=
  {| mIsEnabled := mIsEnabled t;
     bt := {| next := if tr then 0 else 1; delta := delta (bt t); base := base (bt t) |} |}.

Lemma timers_on_bt f i g t :
  timers g !! i = Some t ->
  timers (on_bt f i g) = <[i := {| mIsEnabled := mIsEnabled t; bt := f (bt t) |}]> (timers g).
Proof. intros Ht. unfold on_bt, on_timer. by rewrite Ht. Qed.

Lemma visit_due ds tr w g i t :
  0 < ds -> timers g !! i = Some t -> next (bt t) <> 0 /\ next (bt t) <= ds ->
  timers (visit ds tr (w, g) i).2 = <[i := fired tr t]> (timers g)
  /\ (visit ds tr (w, g) i).1 = (if next (bt t) =? 1 then u32 (ds + 1) else 0).
Proof.
  intros Hds Ht Hn.
  assert (forall w, BT.update ds w (bt t) = (if next (bt t) =? 1 then u32 (ds + 1) else 0,
     {| next := 1; delta := delta (bt t); base := base (bt t) |})) as Hu.
  { intros w'. unfold BT.update. by rewrite (proj2 (Z.eqb_neq _ 0)), (proj2 (Z.leb_le _ _)) by lia. }
  unfold visit, update. cbn [fst snd]. rewrite Ht, Hu. cbn [fst snd].
  assert (timers (on_bt (fun t => (BT.update ds w t).2) i g)
          = <[i := fired false t]> (timers g)) as E1.
  { rewrite (timers_on_bt _ _ _ t) by done. by rewrite Hu. }
  unfold timer_armed. rewrite E1, lookup_insert_eq. cbn [BT.armed fired bt next Z.leb].
  rewrite andb_true_r. destruct tr; [|by split]. split; [|done]. cbn [snd].
  unfold set. rewrite (timers_on_bt _ _ _ (fired false t)) by by rewrite E1, lookup_insert_eq.
  by rewrite E1, insert_insert_eq.
Qed.

Lemma visit_all ds tr v w g :
  0 < ds -> NoDup v ->
  (forall i, i ∈ v -> exists t, timers g !! i = Some t /\ next (bt t) <> 0 /\ next (bt t) <= ds) ->
  let s := foldl (visit ds tr) (w, g) v in
  (forall i, timers s.2 !! i = if bool_decide (i ∈ v) then fired tr <$> timers g !! i else timers g !! i)
  /\ (v = [] -> s = (w, g)) /\ (v <> [] -> s.1 = 0 \/ s.1 = u32 (ds + 1)).
Proof.
  intros Hds Hv. revert w g. induction Hv as [|i v Hi Hv IH]; intros w g Hdue; cbv zeta.
  - cbn [foldl]. split; [|by split]. intros i. by rewrite bool_decide_eq_false_2 by apply not_elem_of_nil.
  - cbn [foldl]. destruct (Hdue i) as (t & Ht & Hn); [by apply elem_of_cons; left|].
    destruct (visit_due ds tr w g i t Hds Ht Hn) as [E1 E2].
    destruct (visit ds tr (w, g) i) as [w1 g1]. cbn [fst snd] in *.
    destruct (IH w1 g1) as (H1 & H2 & H3).
    { intros j Hj. rewrite E1, lookup_insert_ne by by intros ->.
      apply Hdue. by apply elem_of_cons; right. }
    split; [|split].
    + intros j. rewrite H1, E1. destruct (decide (j = i)) as [->|Hne].
      * rewrite lookup_insert_eq, bool_decide_eq_false_2 by done.
        rewrite bool_decide_eq_true_2 by (by apply elem_of_cons; left). by rewrite Ht.
      * rewrite lookup_insert_ne by done.
        rewrite (bool_decide_ext (j ∈ i :: v) (j ∈ v)); [done|]. rewrite elem_of_cons. tauto.
    + done.
    + intros _. destruct v as [|j v]; [|by apply H3]. cbn [foldl fst]. rewrite E2. case_if; auto.
Qed.

(** The timers an update of the group works on. *)
Definition due (ds : Z) (t : BackoffTimerTracked) : bool := is_tracked t && (next (bt t) <=? ds).

Lemma due_range ds t : due ds t = true -> next (bt t) <> 0 /\ next (bt t) <= ds.
Proof. unfold due. intros [H%tracked_not_zero ?]%andb_true_iff. zbool. done. Qed.

Lemma update_group_visits ds w tr g :
  inv g -> 0 < ds -> update_group ds w tr g = foldl (visit ds tr) (w, g) (due_transfers ds (timeouts g)).
Proof.
  intros Hg Hds. unfold update_group. destruct tr; [done|]. rewrite due_slots_same; [done|done|].
  intros k i (t & Ht & _ & Hk)%(inv_entry g Hg). by exists t.
Qed.

Lemma due_timers ds g i :
  inv g -> i ∈ due_transfers ds (timeouts g) <-> exists t, timers g !! i = Some t /\ due ds t = true.
Proof.
  intros Hg. rewrite due_transfers_spec by apply Hg. unfold due. split.
  - intros (k & (t & Ht & Htr & Hk)%(inv_entry g Hg) & Hle). exists t. rewrite Htr, Hk.
    split; [done|]. by apply Z.leb_le.
  - intros (t & Ht & [Htr Hle]%andb_true_iff). exists (next (bt t)). zbool. split; [|done].
    apply (inv_entry g Hg). by exists t.
Qed.

(** *** The operations of a program *)
Inductive step (jitter : Z -> Z) : Group -> Group -> Prop :=
  | step_create i g : timers g !! i = None -> step jitter g (create i g)
  | step_destroy i g : step jitter g (destroy i g)
  | step_arm ds i g : step jitter g (arm ds i g)
  | step_backoff ds i g : step jitter g (backoff jitter ds i g)
  | step_backoff_to ds t i g : step jitter g (backoff_to ds t i g)
  | step_set t i g : step jitter g (set t i g)
  | step_reset i g : step jitter g (reset i g)
  | step_enable b i g : step jitter g (enable b i g)
  | step_update ds w i g : step jitter g (update ds w i g).2
  | step_update_group ds w tr g : step jitter g (update_group ds w tr g).2.

Lemma timers_step_inv jitter g g' : step jitter g g' -> inv g -> inv g'.
Proof.
  intros Hs Hg. destruct Hs; try by apply inv_on_timer.
  - by apply inv_create.
  - by apply inv_destroy.
  - unfold update. destruct (timers g !! i); [by apply inv_on_timer|done].
  - by apply inv_update_group.
Qed.

(** *** The exponential backoff *)
Definition jitter_ok (jitter : Z -> Z) : Prop :=
  forall b, 0 <= b <= 6000 -> 0 <= jitter b <= b / 2.

Definition backoffs (jitter : Z -> Z) (dss : list Z) : BackoffTimer :=
  foldl (fun t ds => BT.backoff jitter ds t) BT.reset dss.

Lemma backoffs_range jitter dss :
  jitter_ok jitter ->
  base (backoffs jitter dss) = Z.min (2 ^ zlength dss) 6000
  /\ base (backoffs jitter dss) <= delta (backoffs jitter dss) <= base (backoffs jitter dss) * 3 / 2.
Proof.
  intros Hj. unfold backoffs. induction dss as [|ds dss IH] using rev_ind; [repeat split; vm_compute; congruence|].
  rewrite foldl_app. cbn [foldl]. destruct IH as [Hb Hd].
  set (t := foldl (fun t ds => BT.backoff jitter ds t) BT.reset dss) in *. clearbody t.
  unfold BT.backoff. cbn [base delta].
  rewrite length_app, Nat2Z.inj_add. change (zlength [ds]) with 1. rewrite Z.pow_add_r by lia.
  assert (1 <= 2 ^ zlength dss) by (apply (Z.pow_le_mono_r 2 0); lia).
  rewrite Z.shiftl_mul_pow2 by lia. change (2 ^ 1) with 2.
  rewrite (wrapu_id 32 (base t * 2)) by lia.
  set (b := if 6000 <? base t * 2 then 6000 else base t * 2).
  assert (b = Z.min (2 ^ zlength dss * 2) 6000) as -> by (subst b; case_if; zbool; lia).
  pose proof (Hj (Z.min (2 ^ zlength dss * 2) 6000)) as Hjb.
  rewrite wrapu_id by dlia. split; [done|]. dlia.
Qed.

End TrackerFacts.

(** ** Properties *)

(** After [n] backoffs since a reset the base is [2^n] deciseconds, capped at
    6000, and the next delay is the base plus at most half of it; one more
    backoff at time [ds] keeps the timer disarmed for exactly that delay. *)
Theorem timer_backoff jitter dss ds ds' :
  TrackerFacts.jitter_ok jitter -> 1 <= ds <= ds' -> ds' < 2 ^ 31 ->
  let t := TrackerFacts.backoffs jitter dss in
  base t = Z.min (2 ^ zlength dss) 6000
  /\ base t <= delta t <= base t * 3 / 2
  /\ BT.retryin ds' (BT.backoff jitter ds t) = Z.max 0 (ds + delta t - ds')
  /\ (BT.armed ds' (BT.backoff jitter ds t) = true <-> ds + delta t <= ds').
Proof.
  intros Hj Hds Hds' t. destruct (TrackerFacts.backoffs_range jitter dss Hj) as [Hb Hd].
  fold t in Hb, Hd. assert (1 <= 2 ^ zlength dss) by (apply (Z.pow_le_mono_r 2 0); lia).
  assert (1 <= delta t <= 9000) as Hdelta by dlia.
  split; [done|split; [done|] ]. unfold BT.retryin, BT.armed, BT.backoff. cbn [next].
  rewrite (wrapu_id 32 (ds + delta t)) by lia. rewrite (proj2 (Z.leb_gt (ds + delta t) 1)) by lia.
  cbn [orb]. rewrite Z.leb_le. split; [|done]. case_if; zbool; [lia|]. rewrite wrapu_id; lia.
Qed.

(** Whatever a program does with the timers of a group, the multimap holds
    exactly the pending timeouts of its enabled timers, in increasing order and
    each timer once. *)
Theorem timers_tracked jitter g :
  rtc (TrackerFacts.step jitter) Tracker.empty g -> TrackerFacts.inv g.
Proof.
  intros Hr. assert (TrackerFacts.inv Tracker.empty) as H0 by apply TrackerFacts.inv_empty.
  induction Hr as [|g1 g2 g3 Hs Hr IH]; [done|]. by apply IH, (TrackerFacts.timers_step_inv jitter g1).
Qed.

(** A group update fires the enabled timers whose timeout has come (their
    next trigger becomes 1, or 0 for transfers), leaves the others and asks for
    an immediate wake-up; when no timeout has come it changes nothing, so a
    timeout in the future never reaches [waituntil], which the update of a
    single timer would lower to it. *)
Theorem timers_update ds w tr g :
  TrackerFacts.inv g -> 0 < ds ->
  let s := Tracker.update_group ds w tr g in
  (forall i, timers s.2 !! i
     = (fun t => if TrackerFacts.due ds t then TrackerFacts.fired tr t else t) <$> timers g !! i)
  /\ ((exists i t, timers g !! i = Some t /\ TrackerFacts.due ds t = true) ->
      s.1 = 0 \/ s.1 = u32 (ds + 1))
  /\ ((forall i t, timers g !! i = Some t -> TrackerFacts.due ds t = false) -> s = (w, g))
  /\ (forall t, ds < next t < w -> BT.update ds w t = (next t, t)).
Proof.
  intros Hg Hds. cbv zeta. rewrite TrackerFacts.update_group_visits by done.
  destruct (TrackerFacts.visit_all ds tr (Tracker.due_transfers ds (timeouts g)) w g)
    as (H1 & H2 & H3); [done|apply TrackerFacts.due_transfers_nodup, Hg| |].
  { intros i (t & Ht & Hd)%TrackerFacts.due_timers; [|done]. exists t. split; [done|].
    by apply TrackerFacts.due_range. }
  split; [|split; [|split] ].
  - intros i. rewrite H1. case_bool_decide as Hi.
    + apply TrackerFacts.due_timers in Hi as (t & -> & Hd); [|done]. cbn. by rewrite Hd.
    + destruct (timers g !! i) as [t|] eqn:Ht; [|done]. cbn.
      destruct (TrackerFacts.due ds t) eqn:Hd; [|done]. destruct Hi.
      apply TrackerFacts.due_timers; [done|]. by exists t.
  - intros (i & t & Ht & Hd). apply H3. intros E.
    apply (not_elem_of_nil i). rewrite <- E. apply TrackerFacts.due_timers; [done|]. by exists t.
  - intros Hno. apply H2. apply elem_of_nil_inv. intros i (t & Ht & Hd)%TrackerFacts.due_timers; [|done].
    by rewrite (Hno i t Ht) in Hd.
  - intros t Ht. unfold BT.update.
    by rewrite (proj2 (Z.eqb_neq _ _)), (proj2 (Z.leb_gt _ _)), (proj2 (Z.ltb_lt _ _)) by lia.
Qed.

(** ** Witnesses *)
Module TimerExamples.

Definition half (b : Z) : Z := b / 2.

Lemma half_ok : TrackerFacts.jitter_ok half.
Proof. intros b Hb. unfold half. split; [apply Z.div_pos; lia|lia]. Qed.

(** Two timers: one due at 25, one in the far future. *)
Definition sample : Group :=
  Tracker.backoff_to 5 3000 2 (Tracker.create 2 (Tracker.backoff_to 5 20 1 (Tracker.create 1 Tracker.empty))).

Lemma sample_reachable : rtc (TrackerFacts.step half) Tracker.empty sample.
Proof.
  unfold sample. eapply rtc_l; [by apply (TrackerFacts.step_create _ 1)|].
  eapply rtc_l; [apply (TrackerFacts.step_backoff_to _ 5 20 1)|].
  eapply rtc_l; [by apply (TrackerFacts.step_create _ 2)|].
  apply rtc_once. apply (TrackerFacts.step_backoff_to _ 5 3000 2).
Qed.

Lemma sample_inv : TrackerFacts.inv sample.
Proof.
  unfold sample. apply TrackerFacts.inv_on_timer, TrackerFacts.inv_create; [|done].
  apply TrackerFacts.inv_on_timer, TrackerFacts.inv_create; [|done]. apply TrackerFacts.inv_empty.
Qed.

End TimerExamples.

Lemma timer_backoff_witness :
  let t := TrackerFacts.backoffs TimerExamples.half [10; 20; 30] in
  base t = 8 /\ BT.retryin 52 (BT.backoff TimerExamples.half 50 t) = Z.max 0 (50 + delta t - 52).
Proof.
  destruct (timer_backoff TimerExamples.half [10; 20; 30] 50 52) as (H1 & _ & H3 & _);
    [apply TimerExamples.half_ok|lia|lia|]. exact (conj H1 H3).
Defined.

Lemma timers_tracked_witness : TrackerFacts.inv TimerExamples.sample.
Proof. apply (timers_tracked TimerExamples.half), TimerExamples.sample_reachable. Defined.

Lemma timers_update_witness :
  let s := Tracker.update_group 10 NEVER false TimerExamples.sample in
  s = (NEVER, TimerExamples.sample)
  /\ forall t, 10 < next t < NEVER -> BT.update 10 NEVER t = (next t, t).
Proof.
  destruct (timers_update 10 NEVER false TimerExamples.sample) as (_ & _ & H & H');
    [apply TimerExamples.sample_inv|lia|].
  split; [|exact H']. apply H. intros i t Ht.
  destruct (decide (i = 2%nat)) as [->|H2]; [vm_compute in Ht; by simplify_eq|].
  destruct (decide (i = 1%nat)) as [->|H1]; [vm_compute in Ht; by simplify_eq|].
  exfalso. revert Ht. unfold TimerExamples.sample, Tracker.backoff_to, Tracker.on_bt, Tracker.on_timer,
    Tracker.create. cbn [timers]. simplify_map_eq. done.
Defined.
