(* ===== verification/Download.v ===== *)
(** * Downloads: from delivered pieces to the file

    What happens to a piece of ciphertext after the buffers delivered it
    (src/raid.cpp): [FilePiece::finalize] decrypts it and computes the MACs of its
    chunks, [bufferWriteCompletedAction] hands them to the transfer once the data
    is written, [DirectReadBufferManager::finalize] decrypts a piece for
    streaming, and [TransferBufferManager::nextNPosForConnection] chooses the
    range of the next request.  A step relation puts them together in the order
    [TransferSlot::doio] (src/transferslot.cpp) calls them, for any number of
    pieces in flight. *)

From S2P Require Import Prelude OMap Crypto Chunks Raid RaidFacts Files Fingerprint MetaMac.
Import ChunkedHash ChunkmacMap ChunkmacFacts MetaMacFacts.
Local Open Scope Z_scope.

(** [FilePiece] of a download: [dp_buf] is the buffer from [buf.start] on, with
    the spare bytes behind [buf.end]; [dp_len] is [buf.datalen()]. *)
Record DownloadPiece := MkDownloadPiece {
  dp_pos : Z;
  dp_buf : bytes;
  dp_len : Z;
  dp_macs : chunkmac_map;
  dp_finalized : bool
}.

(** The constructors: a buffer taken over, with its spare bytes. *)
Definition new_piece (pos : Z) (data spare : bytes) : DownloadPiece :=
  MkDownloadPiece pos (data ++ spare) (zlength data) clear false.

(** The members of [Transfer] involved. *)
Record Transfer := MkTransfer {
  tr_chunkmacs : chunkmac_map;
  tr_progresscompleted : Z
}.

Module Download.

Section finalize.
Context `{AES}.

(** What the loop body does to one chunk of the piece: the buffer from there on,
    the piece's MACs, the transfer's MACs and [queueParallel]. *)
Definition finalize_chunk (parallel : bool) (filesize ctriv startpos endpos chunksize : Z)
    (chunkstart : bytes) (macs : chunkmac_map) (source : option chunkmac_map) (queue : bool)
    : bytes * chunkmac_map * option chunkmac_map * bool :=
  let chunkid := chunkfloor startpos in
  if finishedAt chunkid macs then (chunkstart, macs, source, queue)
  else
    let '(macs, source) := match source with
                           | Some s => let '(s, macs) := copyEntryTo chunkid s macs in (macs, Some s)
                           | None => (macs, None)
                           end in
    if endpos =? chunkceil chunkid filesize then
      if parallel then
        let '(data, macs) := ctr_decrypt macs chunkid chunkstart chunksize startpos ctriv true in
        (data, macs, source, queue)
      else (chunkstart, macs, source, true)
    else if negb parallel then
      let '(data, macs) := ctr_decrypt macs chunkid chunkstart chunksize startpos ctriv false in
      (data, macs, source, queue)
    else (chunkstart, macs, source, queue).

(** The loop over the chunks the piece touches; [None] is running out of fuel. *)
Fixpoint finalize_loop (fuel : nat) (parallel : bool) (filesize finalpos ctriv startpos : Z)
    (chunkstart : bytes) (macs : chunkmac_map) (source : option chunkmac_map) (queue : bool)
    : option (bytes * chunkmac_map * option chunkmac_map * bool) :=
  let endpos := chunkceil startpos finalpos in
  let chunksize := u32 (endpos - startpos) in
  if chunksize =? 0 then Some (chunkstart, macs, source, queue)
  else
    match fuel with
    | O => None
    | S fuel =>
        let '(data, macs, source, queue) :=
          finalize_chunk parallel filesize ctriv startpos endpos chunksize chunkstart macs source queue in
        let n := Z.to_nat chunksize in
        '(rest, macs, source, queue) ←
          finalize_loop fuel parallel filesize finalpos ctriv endpos (drop n data) macs source queue;
        Some (take n data ++ rest, macs, source, queue)
    end.

(** A chunk that does not end with the piece has a segment at least. *)
Definition fuel_for (len : Z) : nat := S (S (Z.to_nat (len / SEGSIZE))).

(** [FilePiece::finalize]: [queueParallel], the piece and the transfer's MACs. *)
Definition finalize (parallel : bool) (filesize ctriv : Z) (source : option chunkmac_map)
    (p : DownloadPiece) : option (bool * DownloadPiece * option chunkmac_map) :=
  let finalpos := dp_pos p + dp_len p in
  let finalpos := if finalpos =? filesize then finalpos else Z.land finalpos (-16) in
  '(buf, macs, source, queue) ←
    finalize_loop (fuel_for (dp_len p)) parallel filesize finalpos ctriv (dp_pos p) (dp_buf p)
      (dp_macs p) source false;
  Some (queue, MkDownloadPiece (dp_pos p) buf (dp_len p) macs (negb queue), source).

End finalize.

(** The data handed to [fwrite]. *)
Definition piece_data (p : DownloadPiece) : bytes := take (Z.to_nat (dp_len p)) (dp_buf p).

(** [TransferBufferManager::bufferWriteCompletedAction]: the piece is discarded
    with its MACs. *)
Definition bufferWriteCompletedAction (r : DownloadPiece) (t : Transfer) : Transfer :=
  MkTransfer (copyEntriesTo (dp_macs r) (tr_chunkmacs t)) (tr_progresscompleted t + dp_len r).

(** [TransferSlot::updatecontiguousprogress] *)
Definition updatecontiguousprogress `{AES} (size : Z) (t : Transfer) : option (Z * Transfer) :=
  '(p, m) ← updateContiguousProgress size (tr_chunkmacs t);
  m ← updateMacsmacProgress m;
  Some (p, MkTransfer m (tr_progresscompleted t)).

(** [TransferSlot::checkDownloadTransferFinished]: not finished, complete, or
    failed with the MACs cleared. *)
Inductive FinishCheck := NotFinished | Complete (t : Transfer) (metamac : Z) | FailedKey (t : Transfer).

Definition checkDownloadTransferFinished `{AES} (size metamac : Z) (t : Transfer) : FinishCheck :=
  if tr_progresscompleted t =? size then
    if (size =? 0) || (macsmac (tr_chunkmacs t) =? metamac) then Complete t metamac
    else
      let '(ok, metamac) := checkMetaMacWithMissingLateEntries (tr_chunkmacs t) metamac in
      if ok then Complete t metamac
      else FailedKey (MkTransfer clear (tr_progresscompleted t))
  else NotFinished.

(** [DirectReadBufferManager::finalize]: the bytes up to the next block boundary
    go through a block of their own, whose other bytes ([stack]) are what the
    stack holds. *)
Definition direct_finalize `{AES} (ctriv : Z) (stack : bytes) (pos : Z) (buf : bytes) (len : Z) : bytes :=
  let r := Z.land pos 15 in
  let '(l, buf) :=
    if r =? 0 then (0, buf)
    else
      let l := Z.min (16 - r) len in
      let block := take (Z.to_nat r) stack ++ take (Z.to_nat l) buf ++ drop (Z.to_nat (r + l)) stack in
      let block := (SymmCipher.ctr_crypt block 16 (pos - r) ctriv None false true).1 in
      (l, substr block (Z.to_nat r) (Z.to_nat l) ++ drop (Z.to_nat l) buf) in
  if l <? len then
    take (Z.to_nat l) buf
    ++ (SymmCipher.ctr_crypt (drop (Z.to_nat l) buf) (u32 (len - l)) (pos + l) ctriv None false true).1
  else buf.

(** ** The next request

    [TransferBufferManager::nextNPosForConnection] for a transfer that is not
    raid. *)

Inductive direction_t := PUT | GET.

Definition MB : Z := 1048576.

(** Uploads: enough to saturate the connection, less at the end of the file. *)
Definition put_req_size (size npos uploadSpeed : Z) : Z :=
  let largeSize := 32 * MB in
  let maxsize := largeSize in
  let maxsize := if size <? npos + 2 * maxsize then Z.quot maxsize 2 else maxsize in
  let maxsize := if size <? npos + maxsize then Z.quot maxsize 2 else maxsize in
  let maxsize := if size <? npos + maxsize then Z.quot maxsize 2 else maxsize in
  let speedsize := Z.min maxsize (Z.quot (uploadSpeed * 2) 3) in
  let sizesize := if largeSize <? size then 8 * MB else 0 in
  Z.max sizesize speedsize.

(** Files fetched through the raid proxy: grow the limit until the request ends
    on a raid line. *)
Fixpoint raidline_size (fuel : nat) (size pos maxReqSize : Z) : option Z :=
  let nextChunk := chunkceil (pos + maxReqSize) size in
  if (nextChunk <? size) && negb (Z.rem (nextChunk - pos) RAIDLINE =? 0) then
    match fuel with
    | O => None
    | S fuel => raidline_size fuel size pos (chunkceil maxReqSize size)
    end
  else Some maxReqSize.

Definition newraid_req_size (size pos connections : Z) : option Z :=
  let defaultMaxReqSize := 2 * MB * EFFECTIVE_RAIDPARTS in
  let maxReqSize := Z.quot (defaultMaxReqSize * 4) connections in
  let maxReqSize := Z.max maxReqSize (MB * EFFECTIVE_RAIDPARTS) in
  let maxReqSize := Z.min maxReqSize size in
  let maxReqSize := if size <=? 25 * MB then Z.quot size 4 else maxReqSize in
  maxReqSize ← raidline_size (S (S (Z.to_nat (size / SEGSIZE)))) size pos maxReqSize;
  Some (maxReqSize + 1).

(** Other downloads: the largest power of two of the share of a connection, less
    the chunk that is requested anyway. *)
Fixpoint double_past (fuel : nat) (val limit : Z) : Z :=
  match fuel with
  | O => val
  | S fuel => if val <=? limit then double_past fuel (2 * val) limit else val
  end.

Definition get_req_size (size progresscompleted connectionCount maxRequestSize : Z) : Z :=
  let m := Z.quot (Z.quot (size - progresscompleted) connectionCount) 2 in
  let m := if maxRequestSize <? m then maxRequestSize else m in
  if 0x100000 <? m then Z.shiftr (double_past 63 0x100000 m) 1 - 0x100000 else 0.

(** The new position of the transfer and the range; [None] is out of fuel. *)
Definition nextNPosForConnection (type : direction_t) (isNewRaid : bool) (macs : chunkmac_map)
    (size pos progresscompleted connections maxRequestSize connectionCount uploadSpeed : Z)
    : option (Z * (Z * Z)) :=
  pos ← (if size =? 0 then Some 0 else nextUnprocessedPosFrom macs pos);
  let npos := if size =? 0 then 0 else chunkceil pos size in
  if pos <? npos then
    match type, isNewRaid with
    | GET, true =>
        if negb (Z.rem pos RAIDLINE =? 0) then Some (pos, (-1, -1))
        else
          maxReqSize ← newraid_req_size size pos connections;
          npos ← expandUnprocessedPiece macs pos npos size maxReqSize;
          if (npos <? size) && negb (Z.rem (npos - pos) RAIDLINE =? 0) then Some (pos, (-1, -1))
          else Some (pos, (pos, npos))
    | GET, false =>
        npos ← expandUnprocessedPiece macs pos npos size
                 (get_req_size size progresscompleted connectionCount maxRequestSize);
        Some (pos, (pos, npos))
    | PUT, _ =>
        npos ← expandUnprocessedPiece macs pos npos size (put_req_size size npos uploadSpeed);
        Some (pos, (pos, npos))
    end
  else Some (pos, (pos, npos)).

End Download.

(** ** The reference: the file as the server stores it *)

Module DownloadFacts.
Import Download.

Section cipher.
Context `{AES_laws}.

Definition nblocks (d : bytes) : nat := Z.to_nat ((zlength d + 15) / 16).

(** The file in counter mode from its first byte. *)
Definition encrypt_file (content : bytes) (iv : Z) : bytes :=
  zip_with Z.lxor content (keystream (SymmCipher.ctr_init 0 iv) (nblocks content)).

Lemma length_encrypt_file content iv : length (encrypt_file content iv) = length content.
Proof.
  unfold encrypt_file. rewrite length_zip_with, SymmCipher.length_keystream by apply SymmCipher.length_ctr_init.
  unfold nblocks, BLOCKSIZE. dlia.
Qed.

Lemma drop_zip_with {A B C} (f : A -> B -> C) n l k :
  drop n (zip_with f l k) = zip_with f (drop n l) (drop n k).
Proof.
  revert l k. induction n as [|n IH]; intros [|x l] [|y k]; simpl; try done.
  by destruct (drop n l).
Qed.

Lemma take_zip_with {A B C} (f : A -> B -> C) n l k :
  take n (zip_with f l k) = zip_with f (take n l) k.
Proof. revert l k. induction n as [|n IH]; intros [|x l] [|y k]; simpl; f_equal; auto. Qed.

Lemma zip_with_long {A B C} (f : A -> B -> C) l k k' :
  (length l <= length k)%nat -> zip_with f l (k ++ k') = zip_with f l k.
Proof. revert k. induction l as [|x l IH]; intros [|y k] Hl; simpl in *; [done..|lia|]. f_equal. apply IH. lia. Qed.

(** A slice of the stored file that starts with a block. *)
Lemma encrypt_slice content iv (b L m : nat) :
  zlength content < 2 ^ 62 -> (16 * b + L <= length content)%nat -> (L <= 16 * m)%nat ->
  Z.of_nat m < 2 ^ 58 ->
  substr (encrypt_file content iv) (16 * b) L
  = zip_with Z.lxor (substr content (16 * b) L)
      (keystream (SymmCipher.ctr_init (16 * Z.of_nat b) iv) m).
Proof.
  intros Hs HL Hm Hm'. unfold substr, encrypt_file. rewrite drop_zip_with, take_zip_with.
  set (n := nblocks content). assert (16 * n < length content + 16)%nat as Hn.
  { subst n. unfold nblocks. dlia. }
  assert (length content <= 16 * n)%nat as Hn' by (subst n; unfold nblocks; dlia).
  assert (length (take L (drop (16 * b) content)) = L) as Hl
    by (rewrite length_take, length_drop; lia).
  set (w := Nat.max (n - b) m).
  rewrite <- (zip_with_long _ _ (drop (16 * b) (keystream _ n))
    (keystream (SymmCipher.ctr_init (16 * Z.of_nat n) iv) (b + w - n))).
  2:{ rewrite length_drop, SymmCipher.length_keystream by apply SymmCipher.length_ctr_init.
      unfold BLOCKSIZE. lia. }
  rewrite <- (zip_with_long _ _ (keystream _ m)
    (keystream (SymmCipher.ctr_init (16 * Z.of_nat b + 16 * Z.of_nat m) iv) (w - m))).
  2:{ rewrite SymmCipher.length_keystream by apply SymmCipher.length_ctr_init. unfold BLOCKSIZE. lia. }
  f_equal. rewrite <- SymmCipher.keystream_app by lia.
  rewrite <- drop_app_le by (rewrite SymmCipher.length_keystream by apply SymmCipher.length_ctr_init;
    unfold BLOCKSIZE; lia).
  replace (16 * Z.of_nat n) with (0 + 16 * Z.of_nat n) by lia.
  rewrite <- SymmCipher.keystream_app by lia.
  replace (n + (b + w - n))%nat with (b + w)%nat by lia.
  rewrite SymmCipher.keystream_app by lia.
  rewrite drop_app_length' by (rewrite SymmCipher.length_keystream by apply SymmCipher.length_ctr_init;
    unfold BLOCKSIZE; lia).
  replace (m + (w - m))%nat with w by lia. done.
Qed.

(** Bytes after the length do not matter when decrypting. *)
Lemma mac_decrypt_ext f (p q q' : bytes) (mac : bytes) :
  SymmCipher.mac_decrypt f (p ++ q) (zlength p) mac = SymmCipher.mac_decrypt f (p ++ q') (zlength p) mac.
Proof.
  revert p mac. induction f as [|f IH]; intros p mac; [done|]. cbn [SymmCipher.mac_decrypt].
  destruct (Z.leb_spec 16 (zlength p)) as [Hge|Hlt].
  - rewrite !drop_app_le by (unfold BLOCKSIZE; lia).
    replace (zlength p - 16) with (zlength (drop BLOCKSIZE p)) by (rewrite length_drop; unfold BLOCKSIZE; lia).
    rewrite IH. f_equal. f_equal. unfold SymmCipher.xorblock, SymmCipher.xorblock_len, BLOCKSIZE.
    by rewrite !take_app_le by lia.
  - destruct (Z.ltb_spec 0 (zlength p)); [|done]. rewrite Nat2Z.id.
    unfold SymmCipher.xorblock_len. by rewrite !take_app_length.
Qed.

(** Decrypting a buffer that starts with a slice of the stored file. *)
Lemma ctr_crypt_slice content iv (b L : nat) (buf : bytes) (mac : option bytes) initmac :
  zlength content < 2 ^ 62 -> (16 * b + L <= length content)%nat -> Z.of_nat L < 2 ^ 31 ->
  take L buf = substr (encrypt_file content iv) (16 * b) L ->
  16 * ((Z.of_nat L + 15) / 16) <= zlength buf ->
  let p := substr content (16 * b) L in
  exists junk, SymmCipher.ctr_crypt buf (Z.of_nat L) (16 * Z.of_nat b) iv mac false initmac
    = (p ++ junk,
       (fun m => SymmCipher.mac_decrypt L (pad16 p) (Z.of_nat L)
          (if initmac then take 8 (SymmCipher.ctr_init (16 * Z.of_nat b) iv)
                           ++ take 8 (SymmCipher.ctr_init (16 * Z.of_nat b) iv) else m)) <$> mac)
    /\ ((16 | Z.of_nat L) -> junk = drop L buf) /\ length (p ++ junk) = length buf.
Proof.
  intros Hs Hb HL Hbuf Hlen p. set (n := Z.to_nat ((Z.of_nat L + 15) / 16)).
  assert (length p = L) as Hp by (apply length_substr; lia).
  unfold SymmCipher.ctr_crypt. cbv zeta. rewrite SymmCipher.paddedLen_eq by lia.
  replace (Z.to_nat (16 * ((Z.of_nat L + 15) / 16))) with (16 * n)%nat by (subst n; dlia).
  assert (length (take (16 * n) buf) = (BLOCKSIZE * n)%nat) as Hn
    by (rewrite length_take; unfold BLOCKSIZE; subst n; dlia).
  rewrite (SymmCipher.ctr_process_blocks _ _ _ n) by done.
  set (ctr := SymmCipher.ctr_init (16 * Z.of_nat b) iv). set (ks := keystream ctr n).
  assert (length ks = (16 * n)%nat) as Hks by (apply SymmCipher.length_keystream, SymmCipher.length_ctr_init).
  assert (L <= 16 * n)%nat as HLn by (subst n; dlia).
  assert (take L (zip_with Z.lxor (take (16 * n) buf) ks) = p) as Ht.
  { rewrite take_zip_with, take_take, Nat.min_l, Hbuf by lia.
    rewrite (encrypt_slice content iv b L n) by (done || (subst n; dlia)). fold ctr ks p.
    apply SymmCipher.lxor_cancel. lia. }
  set (d := zip_with Z.lxor (take (16 * n) buf) ks) in *.
  assert (length d = (16 * n)%nat) as Hd by (subst d; rewrite length_zip_with; unfold BLOCKSIZE in *; lia).
  exists (drop L d ++ drop (16 * n) buf).
  assert (d ++ drop (16 * n) buf = p ++ drop L d ++ drop (16 * n) buf) as Happ
    by (rewrite app_assoc, <- Ht, take_drop; done).
  split_and!.
  - rewrite Happ. f_equal. destruct mac as [m|]; [|done]. cbn [fmap option_fmap option_map]. f_equal.
    rewrite Nat2Z.id. unfold pad16. rewrite <- Hp. apply mac_decrypt_ext.
  - intros [k Hk]. rewrite drop_ge by (rewrite Hd; subst n; dlia). simpl. f_equal. subst n. dlia.
  - rewrite <- Happ, length_app, length_drop, Hd. subst n. dlia.
Qed.

(** ** Chunks of a piece *)

Definition chunk_len (size c : Z) : Z := chunkceil c size - c.

(** The entry of a chunk that has been decrypted. *)
Definition final (content : bytes) (iv c : Z) : ChunkMAC :=
  MkChunkMAC (chunk_mac iv c (chunk content c)) 0 true.

Lemma chunk_start_16 c : chunk_start c -> exists b, c = 16 * Z.of_nat b.
Proof.
  intros [Hz Hf]. pose proof (floor_is_chunk c Hz Hf) as Hc.
  assert (c mod 16 = 0) as Hm by (unfold is_chunk in Hc; repeat destruct Hc as [Hc|Hc]; hyps; subst; dlia).
  exists (Z.to_nat (c / 16)). dlia.
Qed.

Lemma chunk_len_bounds size c :
  chunk_start c -> c < size -> 0 < chunk_len size c <= 1048576 /\ c + chunk_len size c <= size.
Proof.
  intros [Hz Hf] Hs. unfold chunk_len. pose proof (chunkceil_step size c ltac:(lia)) as Hst.
  pose proof (chunkceil_limit c size ltac:(lia)). pose proof (is_chunk_size _ _ (floor_is_chunk c Hz Hf)).
  unfold SEGSIZE in *. lia.
Qed.

(** A chunk that is not the last one is whole blocks. *)
Lemma chunk_len_16 size c :
  chunk_start c -> c + chunk_len size c < size -> (16 | chunk_len size c).
Proof.
  intros Hc Hlt. unfold chunk_len in *. assert (0 <= size) as Hz by (destruct Hc as [Hz _];
    destruct (Z.leb_spec 0 size); [done|]; rewrite chunkceil_nolimit in Hlt by lia;
    pose proof (chunk_spec c Hz); lia).
  rewrite chunkceil_limit in * by done. rewrite Z.min_l in * by lia.
  destruct (chunk_start_16 c Hc) as [b Hb].
  destruct (chunk_start_16 _ (chunk_start_ceil c (proj1 Hc))) as [b' Hb'].
  exists (Z.of_nat b' - Z.of_nat b). lia.
Qed.

(** Decrypting a chunk at the head of a buffer. *)
Lemma ctr_decrypt_slice content iv c macs buf :
  zlength content < 2 ^ 62 -> chunk_start c -> c < zlength content ->
  notStarted (entry c macs) = true ->
  let L := chunk_len (zlength content) c in
  take (Z.to_nat L) buf = substr (encrypt_file content iv) (Z.to_nat c) (Z.to_nat L) ->
  16 * ((L + 15) / 16) <= zlength buf ->
  exists junk, ctr_decrypt macs c buf L c iv true
    = (chunk content c ++ junk, set_map (omap_insert c (final content iv c) (mMacMap macs)) macs)
    /\ ((16 | L) -> junk = drop (Z.to_nat L) buf) /\ length (chunk content c ++ junk) = length buf.
Proof.
  intros Hs Hc Hlt Hn L Hbuf Hlen. destruct (chunk_len_bounds _ _ Hc Hlt) as [HL HLs]. fold L in HL, HLs.
  destruct (chunk_start_16 c Hc) as [b Hb].
  destruct (ctr_crypt_slice content iv b (Z.to_nat L) buf (Some (mac (entry c macs))) true) as (junk & E & Hj & Hl);
    try (rewrite ?Z2Nat.id by lia; lia).
  { replace (16 * b)%nat with (Z.to_nat c) by lia. done. }
  rewrite Z2Nat.id in E, Hj by lia. rewrite <- Hb in E.
  replace (16 * b)%nat with (Z.to_nat c) in E, Hl by lia. fold (chunk content c) in E, Hl.
  exists junk. split_and!; [|done|done]. unfold ctr_decrypt. rewrite Hn, E.
  cbn [fmap option_fmap option_map default id from_option]. unfold final, chunk_mac. do 5 f_equal.
  destruct (padding_facts (chunk content c)) as [H1 H2]. unfold pad16.
  destruct (chunk_length content c ltac:(lia)) as [HcL _]. fold (chunk_len (zlength content) c) L in HcL.
  rewrite HcL. apply SymmCipher.mac_decrypt_encrypt; try done; try lia.
  by rewrite length_app, length_replicate.
Qed.

End cipher.

(** The chunks from [s] to [e]. *)
Fixpoint chain (size s e : Z) (ks : list Z) : Prop :=
  match ks with
  | [] => s = e
  | k :: ks => k = s /\ chunk_start s /\ s < size /\ chain size (chunkceil s size) e ks
  end.

(** The range of a piece: from the start of a chunk to the start of another or
    to the end of the file. *)
Definition aligned (size s e : Z) : Prop :=
  chunk_start s /\ s < e <= size /\ (e = size \/ chunk_start e).

Lemma chain_le size s e ks : chain size s e ks -> s <= e /\ Forall (fun k => s <= k < e) ks.
Proof.
  revert s. induction ks as [|k ks IH]; intros s Hc; simpl in Hc; [subst; split; [lia|constructor]|].
  destruct Hc as (-> & Hs & Hlt & Hc). pose proof (chunkceil_step size s ltac:(destruct Hs; lia)).
  destruct (IH _ Hc) as [H1 H2]. split; [lia|]. constructor; [lia|].
  eapply Forall_impl; [exact H2|]. simpl. lia.
Qed.

Lemma chain_NoDup size s e ks : chain size s e ks -> NoDup ks.
Proof.
  revert s. induction ks as [|k ks IH]; intros s Hc; [constructor|].
  destruct Hc as (-> & Hs & Hlt & Hc). pose proof (chunkceil_step size s ltac:(destruct Hs; lia)).
  constructor; [|by eapply IH]. intros Hin. destruct (chain_le _ _ _ _ Hc) as [_ Hf].
  rewrite Forall_forall in Hf. specialize (Hf _ Hin). simpl in Hf. lia.
Qed.

Lemma chain_starts size s e ks : chain size s e ks -> Forall (fun k => chunk_start k /\ k < size) ks.
Proof.
  revert s. induction ks as [|k ks IH]; intros s Hc; [constructor|].
  destruct Hc as (-> & Hs & Hlt & Hc). constructor; [done|]. by eapply IH.
Qed.

Lemma chain_ceil size s e ks :
  0 <= size -> chain size (chunkceil s size) e ks -> chunk_start s -> s < size -> chunkceil s e = chunkceil s size.
Proof.
  intros H0 Hc Hs Hlt. destruct (chain_le _ _ _ _ Hc) as [Hle _].
  destruct Hs as [Hs0 _]. pose proof (chunkceil_step size s ltac:(lia)) as Hst.
  pose proof (chunkceil_limit s size ltac:(lia)) as E1. pose proof (chunkceil_limit s e ltac:(lia)) as E2.
  destruct (Z.min_spec (chunkceil s (-1)) size) as [[Hm E]|[Hm E]]; [lia|].
  destruct ks as [|k ks]; simpl in Hc; lia.
Qed.

Lemma chain_sum size s e ks :
  chain size s e ks -> foldr (fun k n => chunk_len size k + n) 0 ks = e - s.
Proof.
  revert s. induction ks as [|k ks IH]; intros s Hc; simpl in *; [lia|].
  destruct Hc as (-> & _ & _ & Hc). rewrite (IH _ Hc). unfold chunk_len. lia.
Qed.

(** All chunks but the last one have a segment at least. *)
Lemma chain_fuel size s e ks : 0 <= size -> chain size s e ks -> SEGSIZE * (Z.of_nat (length ks) - 1) <= e - s.
Proof.
  intros H0. revert s. induction ks as [|k ks IH]; intros s Hc; cbn [length].
  { simpl in Hc. subst. unfold SEGSIZE. lia. }
  destruct Hc as (-> & Hs & Hlt & Hc). specialize (IH _ Hc). destruct ks as [|k' ks]; cbn [length] in *.
  { simpl in Hc. pose proof (chunkceil_step size s ltac:(destruct Hs; lia)). unfold SEGSIZE. lia. }
  destruct Hc as (_ & _ & Hlt' & _). rewrite chunkceil_limit in * by done.
  pose proof (is_chunk_size _ _ (floor_is_chunk s (proj1 Hs) (proj2 Hs))). lia.
Qed.

Lemma aligned_chain size s e : aligned size s e -> exists ks, ks <> [] /\ chain size s e ks.
Proof.
  intros Ha. remember (Z.to_nat (e - s)) as n eqn:Hn. revert s Ha Hn.
  induction n as [n IH] using lt_wf_ind. intros s (Hs & Hse & He) ->.
  pose proof (chunkceil_step size s ltac:(destruct Hs; lia)) as Hst.
  assert (chunkceil s size <= e) as Hle.
  { rewrite chunkceil_limit in * by (destruct Hs; lia). destruct He as [->|He]; [lia|].
    destruct (decide (chunkceil s (-1) <= e)); [lia|].
    assert (e = s); [|lia]. apply chunk_start_unique; [done..|lia]. }
  destruct (decide (chunkceil s size = e)) as [E|Hne].
  - exists [s]. split; [done|]. simpl. split_and!; (done || lia).
  - destruct (IH (Z.to_nat (e - chunkceil s size)) ltac:(lia) (chunkceil s size)) as (ks & _ & Hks);
      [|done|exists (s :: ks); split; [done|]; simpl; split_and!; (done || lia)].
    split_and!; [|lia|lia|done]. rewrite chunkceil_limit in * by (destruct Hs; lia).
    rewrite Z.min_l in * by lia. by apply chunk_start_ceil, Hs.
Qed.

(** ** Finalizing a piece *)

Definition put_keys (f : Z -> ChunkMAC) (ks : list Z) (l : list (Z * ChunkMAC)) : list (Z * ChunkMAC) :=
  foldl (fun l k => omap_insert k (f k) l) l ks.

Definition blank (k : Z) : ChunkMAC := ChunkMAC_init.

Lemma find_put_keys f ks k l :
  omap_ok l -> omap_find k (put_keys f ks l) = if decide (k ∈ ks) then Some (f k) else omap_find k l.
Proof.
  revert l. induction ks as [|x ks IH]; intros l Hl; [by rewrite decide_False by apply not_elem_of_nil|].
  change (put_keys f (x :: ks) l) with (put_keys f ks (omap_insert x (f x) l)). rewrite IH by by apply insert_ok.
  destruct (decide (k ∈ ks)) as [Hin|Hin].
  - by rewrite decide_True by by right.
  - destruct (decide (k = x)) as [->|Hne].
    + by rewrite decide_True, find_insert_eq by by left.
    + rewrite decide_False by by intros [?|?]%elem_of_cons. apply find_insert_ne; (done || congruence).
Qed.

Lemma put_keys_ok f ks l : omap_ok l -> omap_ok (put_keys f ks l).
Proof. revert l. induction ks as [|k ks IH]; intros l Hl; [done|]. by apply IH, insert_ok. Qed.

Lemma set_map_map l l' m : set_map l (set_map l' m) = set_map l m.
Proof. done. Qed.

Lemma take_split {A} n m (l : list A) : take (n + m) l = take n l ++ take m (drop n l).
Proof. by rewrite take_take_drop. Qed.

Section finalizing.
Context `{HA : AES, !AES_laws}.
Context (content : bytes) (iv : Z).
Let size := zlength content.
Context (Hsize : size < 2 ^ 62).

(** The first pass leaves the data alone and marks every chunk, in the piece and
    in the transfer. *)
Lemma loop_queue fuel : forall s e ks buf macs src q,
  chain size s e ks -> (length ks <= fuel)%nat -> 0 <= s -> omap_ok (mMacMap macs) ->
  (forall k, k ∈ ks -> omap_find k (mMacMap macs) = None) ->
  finalize_loop fuel false size e iv s buf macs (Some src) q
  = Some (buf, set_map (put_keys blank ks (mMacMap macs)) macs,
          Some (set_map (put_keys blank ks (mMacMap src)) src), q || negb (bool_decide (ks = []))).
Proof.
  induction fuel as [|fuel IH]; intros s e ks buf macs src q Hc Hf Hs0 Hok Hn.
  all: destruct ks as [|k ks]; cbn [finalize_loop length] in *; try lia.
  1,2: simpl in Hc; subst e; rewrite chunkceil_limit by done;
    destruct (chunk_spec s Hs0) as [_ ?]; rewrite Z.min_r, Z.sub_diag by lia;
    cbn [orb]; rewrite orb_false_r; by destruct macs, src.
  pose proof (chain_NoDup _ _ _ _ Hc) as Hnd. apply NoDup_cons in Hnd as [Hkn Hnd].
  destruct Hc as (-> & Hs & Hlt & Hc). rewrite (chain_ceil size s e ks) by (done || lia).
  destruct (chunk_len_bounds size s Hs Hlt) as [HL HLs]. unfold chunk_len in *.
  rewrite wrapu_id, (proj2 (Z.eqb_neq _ _)) by lia. unfold finalize_chunk. rewrite (proj2 Hs).
  assert (omap_find s (mMacMap macs) = None) as Hk by (apply Hn; by left).
  unfold finishedAt. rewrite Hk. unfold copyEntryTo, entry. rewrite Hk. cbn [default from_option id].
  rewrite Z.eqb_refl. rewrite (IH _ _ ks); [|done|lia|lia|by apply insert_ok|].
  2:{ intros x Hx. simpl. rewrite find_insert_ne; [apply Hn; by right|done|congruence]. }
  cbn [mbind option_bind]. rewrite take_drop, orb_true_r. done.
Qed.

(** The second pass decrypts the chunks and finishes their entries. *)
Lemma loop_decrypt fuel : forall s e ks buf macs q,
  chain size s e ks -> (length ks <= fuel)%nat -> 0 <= s -> omap_ok (mMacMap macs) ->
  (forall k, k ∈ ks -> finishedAt k macs = false /\ notStarted (entry k macs) = true) ->
  take (Z.to_nat (e - s)) buf = substr (encrypt_file content iv) (Z.to_nat s) (Z.to_nat (e - s)) ->
  16 * ((e - s + 15) / 16) <= zlength buf ->
  exists buf', finalize_loop fuel true size e iv s buf macs None q
    = Some (buf', set_map (put_keys (final content iv) ks (mMacMap macs)) macs, None, q)
    /\ take (Z.to_nat (e - s)) buf' = substr content (Z.to_nat s) (Z.to_nat (e - s)).
Proof.
  induction fuel as [|fuel IH]; intros s e ks buf macs q Hc Hf Hs0 Hok Hn Hbuf Hlen.
  all: destruct ks as [|k ks]; cbn [finalize_loop length] in *; try lia.
  1,2: simpl in Hc; subst e; rewrite chunkceil_limit by done;
    destruct (chunk_spec s Hs0) as [_ ?]; rewrite Z.min_r, Z.sub_diag by lia;
    exists buf; split; [by destruct macs|done].
  pose proof (chain_NoDup _ _ _ _ Hc) as Hnd. apply NoDup_cons in Hnd as [Hkn Hnd].
  pose proof (chain_le _ _ _ _ Hc) as [Hse _].
  destruct Hc as (-> & Hs & Hlt & Hc). rewrite (chain_ceil size s e ks) by (done || lia).
  pose proof (chain_le _ _ _ _ Hc) as [Hce _].
  destruct (chunk_len_bounds size s Hs Hlt) as [HL HLs]. set (L := chunk_len size s) in *.
  assert (chunkceil s size = s + L) as Ec by (unfold L, chunk_len; lia). rewrite Ec in *.
  replace (s + L - s) with L by lia.
  rewrite wrapu_id, (proj2 (Z.eqb_neq _ _)) by lia. unfold finalize_chunk. rewrite (proj2 Hs).
  destruct (Hn s ltac:(by left)) as [-> Hns]. rewrite Ec, Z.eqb_refl.
  set (n := Z.to_nat L) in *. set (r := Z.to_nat (e - (s + L))).
  replace (Z.to_nat (e - s)) with (n + r)%nat in * by lia.
  unfold substr in Hbuf. rewrite !take_split, !drop_drop in Hbuf.
  apply app_inj_1 in Hbuf as [Hb1 Hb2].
  2:{ rewrite !length_take, length_drop, length_encrypt_file.
      assert (n <= length buf)%nat by (subst n; clear - Hlen HL Hce; dlia).
      assert (Z.of_nat n <= size - s) by lia. subst size. lia. }
  destruct (ctr_decrypt_slice content iv s macs buf) as (junk & E & Hj & Hl);
    [done..|by fold size L|fold size L; dlia|].
  fold size L in E, Hj. rewrite E. cbn [mbind option_bind].
  assert (length (chunk content s) = n) as Hcl.
  { destruct (chunk_length content s ltac:(destruct Hs; lia)) as [HcL _].
    fold size (chunk_len size s) L in HcL. lia. }
  rewrite length_app in Hl. rewrite take_app_length', drop_app_length' by done.
  assert ((0 < r)%nat -> junk = drop n buf /\ (16 | L)) as Hjunk.
  { intros Hr. pose proof (chunk_len_16 size s Hs) as H16. fold L in H16.
    assert (16 | L) as Hd; [|split; [by apply Hj|done]]. apply H16.
    destruct ks as [|k' ks]; simpl in Hc; [lia|]. lia. }
  destruct (IH (s + L) e ks junk (set_map (omap_insert s (final content iv s) (mMacMap macs)) macs) q)
    as (buf' & -> & Hb'); [done|lia|lia|by apply insert_ok| | | |].
  - intros k Hk. unfold finishedAt, entry. cbn [mMacMap set_map].
    rewrite find_insert_ne by (done || congruence). apply Hn. by right.
  - fold r. destruct (decide (r = 0%nat)) as [->|Hr]; [by rewrite !take_0|].
    destruct (Hjunk ltac:(lia)) as [-> _]. unfold substr. rewrite Hb2. f_equal. f_equal. lia.
  - destruct (decide (r = 0%nat)) as [E0|Hr]; [dlia|].
    destruct (Hjunk ltac:(lia)) as [_ [x Hx]]. dlia.
  - eexists. split; [done|]. fold r in Hb'. unfold substr in *.
    rewrite !take_split, take_app_length', drop_app_length', Hb', drop_drop by done.
    unfold chunk, substr. fold size (chunk_len size s) L n. do 3 f_equal. lia.
Qed.

Lemma aligned_land s e : aligned size s e -> (if e =? size then e else Z.land e (-16)) = e.
Proof.
  intros (_ & _ & He). destruct (Z.eqb_spec e size) as [|Hne]; [done|].
  destruct He as [|He]; [done|]. destruct (chunk_start_16 e He) as [b ->].
  change (-16) with (Z.lnot 15). rewrite PaddedCBC.land_high. dlia.
Qed.

Lemma chain_fuel_for s e ks : 0 <= s -> chain size s e ks -> (length ks <= fuel_for (e - s))%nat.
Proof.
  intros Hs Hc. assert (0 <= size) as Hz by (subst size; lia).
  pose proof (chain_fuel size s e ks Hz Hc). pose proof (chain_le _ _ _ _ Hc) as [Hle _].
  unfold fuel_for, SEGSIZE in *. dlia.
Qed.

(** What [doio] does first with a delivered piece. *)
Lemma finalize_queue s e spare src :
  aligned size s e ->
  let data := substr (encrypt_file content iv) (Z.to_nat s) (Z.to_nat (e - s)) in
  exists ks, ks <> [] /\ chain size s e ks
    /\ finalize false size iv (Some src) (new_piece s data spare)
       = Some (true, MkDownloadPiece s (data ++ spare) (e - s) (set_map (put_keys blank ks []) clear) false,
               Some (set_map (put_keys blank ks (mMacMap src)) src)).
Proof.
  intros Ha data. destruct (aligned_chain _ _ _ Ha) as (ks & Hne & Hc). exists ks. split_and!; [done..|].
  destruct Ha as (Hs & Hse & He) eqn:Ea. clear Ea.
  assert (zlength data = e - s) as Hd.
  { subst data. rewrite length_substr; [lia|]. rewrite length_encrypt_file. destruct Hs. subst size. lia. }
  unfold finalize, new_piece. cbn [dp_pos dp_len dp_buf dp_macs]. rewrite Hd.
  replace (s + (e - s)) with e by lia. rewrite (aligned_land s) by exact (conj Hs (conj Hse He)).
  rewrite (loop_queue _ _ _ ks); [|done| | |done|done].
  - rewrite bool_decide_false by done. done.
  - apply chain_fuel_for; [apply Hs|done].
  - apply Hs.
Qed.

(** What the worker does later. *)
Lemma finalize_decrypt s e ks buf :
  aligned size s e -> chain size s e ks ->
  take (Z.to_nat (e - s)) buf = substr (encrypt_file content iv) (Z.to_nat s) (Z.to_nat (e - s)) ->
  16 * ((e - s + 15) / 16) <= zlength buf ->
  exists buf', finalize true size iv None
      (MkDownloadPiece s buf (e - s) (set_map (put_keys blank ks []) clear) false)
    = Some (false, MkDownloadPiece s buf' (e - s) (set_map (put_keys (final content iv) ks []) clear) true, None)
    /\ take (Z.to_nat (e - s)) buf' = substr content (Z.to_nat s) (Z.to_nat (e - s)).
Proof.
  intros Ha Hc Hbuf Hlen. pose proof (aligned_land _ _ Ha) as Hl. destruct Ha as (Hs & Hse & He).
  unfold finalize. cbn [dp_pos dp_len dp_buf dp_macs]. replace (s + (e - s)) with e by lia. rewrite Hl.
  destruct (loop_decrypt (fuel_for (e - s)) s e ks buf (set_map (put_keys blank ks []) clear) false) as (buf' & E & Hb);
    try done.
  - apply chain_fuel_for; [apply Hs|done].
  - apply Hs.
  - by apply put_keys_ok.
  - intros k Hk. unfold finishedAt, entry. cbn [mMacMap set_map]. by rewrite find_put_keys, decide_True.
  - exists buf'. split; [|done]. rewrite E. cbn [mbind option_bind negb]. do 4 f_equal.
    rewrite set_map_map. cbn [mMacMap set_map clear]. f_equal.
    apply omap_ext; [by apply put_keys_ok, put_keys_ok|by apply put_keys_ok|].
    intros k. rewrite !find_put_keys by (done || by apply put_keys_ok). by case_decide.
Qed.

End finalizing.

(** ** Folded maps *)

Section folding.
Context `{AES}.

(** [m] is the map with the entries [g], of which a prefix may be folded. *)
Definition folds (m : chunkmac_map) (g : list (Z * ChunkMAC)) : Prop :=
  mMacMap m = g
  \/ exists l k rest, g = l ++ rest /\ Forall (fun e => e.1 <= k) l /\ macsmacSoFarPos m = k
     /\ mMacMap m = (k, MkChunkMAC (foldl fold_mac (replicate BLOCKSIZE 0) (l.*2)) (2 ^ 32 - 1) true) :: rest.

Lemma folds_macsmac m g : folds m g -> macsmac m = condense (foldl fold_mac (replicate BLOCKSIZE 0) (g.*2)).
Proof.
  unfold macsmac. intros [->|(l & k & rest & -> & _ & _ & ->)]; [done|].
  cbn [fmap list_fmap snd foldl]. rewrite fmap_app, foldl_app. done.
Qed.

Lemma find_skip k (l rest : list (Z * ChunkMAC)) :
  Forall (fun e => e.1 < k) l -> omap_find k (l ++ rest) = omap_find k rest.
Proof.
  induction 1 as [|[k0 c0] l Hk Hl IH]; [done|]. simpl in Hk. cbn [app]. rewrite find_tail; done.
Qed.

Lemma insert_skip k c (l rest : list (Z * ChunkMAC)) :
  Forall (fun e => e.1 < k) l -> omap_insert k c (l ++ rest) = l ++ omap_insert k c rest.
Proof.
  induction 1 as [|[k0 c0] l Hk Hl IH]; [done|]. simpl in Hk. cbn [app]. rewrite insert_cons.
  rewrite (proj2 (Z.ltb_ge k k0)), (proj2 (Z.ltb_lt k0 k)) by lia. by rewrite IH.
Qed.

Lemma folds_find m g k : folds m g -> macsmacSoFarPos m < k -> omap_find k (mMacMap m) = omap_find k g.
Proof.
  intros [->|(l & k0 & rest & -> & Hl & Hp & ->)] Hk; [done|]. rewrite Hp in Hk.
  rewrite find_tail, find_skip; [done|eapply Forall_impl; [exact Hl|]; simpl; lia|lia].
Qed.

Lemma folds_insert m g k c :
  folds m g -> macsmacSoFarPos m < k ->
  folds (set_map (omap_insert k c (mMacMap m)) m) (omap_insert k c g).
Proof.
  intros [E|(l & k0 & rest & -> & Hl & Hp & E)] Hk; [left; simpl; by rewrite E|right].
  rewrite Hp in Hk. exists l, k0, (omap_insert k c rest). split_and!.
  - apply insert_skip. eapply Forall_impl; [exact Hl|]. simpl. lia.
  - done.
  - done.
  - simpl. rewrite E, insert_cons. rewrite (proj2 (Z.ltb_ge k k0)), (proj2 (Z.ltb_lt k0 k)) by lia. done.
Qed.

Definition plain (g : list (Z * ChunkMAC)) : Prop := Forall (fun e => isMacsmacSoFar e.2 = false) g.

Lemma folds_step fileSize m m' g :
  inv fileSize m -> plain g -> folds m g -> macsmac_pending m = true -> macsmac_step m = Some m' ->
  folds m' g.
Proof.
  intros Hi Hg Hf Hpend Hst. unfold macsmac_step in Hst.
  destruct (mMacMap m) as [|[k0 c0] rest0] eqn:Em; [done|].
  destruct (isMacsmacSoFar c0) eqn:Es.
  - destruct Hf as [E|(l & k & rest & -> & Hl & Hp & E)].
    { rewrite Em in E. subst g. apply Forall_cons in Hg as [Hg _]. simpl in Hg. congruence. }
    rewrite Em in E. simplify_eq. destruct rest as [|[k1 c1] rest]; [done|].
    destruct (prefix_next _ _ _ _ _ Hi Em Es) as (c1' & rest' & E1 & Hfin & _).
    { unfold macsmac_pending in Hpend. zbool. unfold SEGSIZE. lia. }
    simplify_eq. right. apply Forall_app in Hg as [_ [Hc1 _]%Forall_cons]. simpl in Hc1.
    exists (l ++ [(chunkceil (macsmacSoFarPos m) (-1), c1')]), (chunkceil (macsmacSoFarPos m) (-1)), rest'.
    pose proof (inv_keys _ _ Hi) as Hk. unfold keys_ok in Hk. rewrite Em in Hk.
    apply Forall_cons in Hk as [[Hk _] _]. simpl in Hk. destruct (chunk_spec (macsmacSoFarPos m) ltac:(lia)) as [_ Hb].
    split_and!; [by rewrite <- app_assoc| |done|].
    + apply Forall_app. split; [|by repeat constructor]. eapply Forall_impl; [exact Hl|]. simpl. lia.
    + simpl. rewrite fmap_app, foldl_app. cbn [fmap list_fmap snd foldl]. rewrite Hfin.
      do 3 f_equal. unfold fold_mac at 2. by rewrite Hc1.
  - destruct ((k0 =? 0) && finishedAt 0 m) eqn:E0; [|done]. zbool. subst k0. simplify_eq. right.
    destruct Hf as [E|(l & k & rest & -> & Hl & Hp & E)].
    2:{ rewrite Em in E. simplify_eq. }
    rewrite Em in E. subst g. exists [(0, c0)], 0, rest0. split_and!; [done|by repeat constructor|done|].
    simpl. unfold fold_mac. rewrite Es.
    match goal with Hx : finishedAt 0 m = true |- _ =>
      unfold finishedAt in Hx; rewrite Em, find_head in Hx; by rewrite Hx end.
Qed.

Lemma folds_loop fileSize g fuel : forall m m',
  inv fileSize m -> plain g -> folds m g -> macsmac_loop fuel m = Some m' -> folds m' g.
Proof.
  induction fuel as [|fuel IH]; intros m m' Hi Hg Hf E; cbn [macsmac_loop] in E;
    destruct (macsmac_pending m) eqn:Ep; simplify_eq; try done.
  destruct (step_pending _ _ Hi Ep) as (m1 & E1 & Hi1 & _). rewrite E1 in E. simpl in E.
  apply (IH m1 m'); [exact Hi1|exact Hg|by apply (folds_step fileSize m)|exact E].
Qed.

End folding.

(** ** A transfer *)

(** [fwrite] at a position of the file. *)
Definition pwrite (f : bytes) (pos : Z) (d : bytes) : bytes :=
  PaddedCBC.resize (Z.to_nat pos) 0 f ++ d ++ drop (Z.to_nat pos + length d) f.

(** The transfer, the pieces its connections hold, and the local file. *)
Record dstate := MkState { ds_transfer : Transfer; ds_flight : list DownloadPiece; ds_file : bytes }.

Definition covers (p : DownloadPiece) (c : Z) : Prop := dp_pos p <= c < dp_pos p + dp_len p.

Section transfer.
Context `{HA : AES, !AES_laws}.
Context (content : bytes) (iv : Z).
Let size := zlength content.

(** None of the chunks from [s] to [e] is finished or held by a connection. *)
Definition unclaimed (st : dstate) (s e : Z) : Prop :=
  forall c, chunk_start c -> s <= c < e ->
    macsmacSoFarPos (tr_chunkmacs (ds_transfer st)) < c
    /\ finishedAt c (tr_chunkmacs (ds_transfer st)) = false
    /\ Forall (fun p => ~ covers p c) (ds_flight st).

Definition stored (s e : Z) : bytes :=
  substr (encrypt_file content iv) (Z.to_nat s) (Z.to_nat (e - s)).

(** Delivery with the first pass, the worker's pass, the write and what follows
    it, a failed write, and the progress update. *)
Inductive tstep : dstate -> dstate -> Prop :=
| t_deliver t fl f s e spare q p m :
    aligned size s e -> 15 <= zlength spare -> unclaimed (MkState t fl f) s e ->
    finalize false size iv (Some (tr_chunkmacs t)) (new_piece s (stored s e) spare) = Some (q, p, Some m) ->
    tstep (MkState t fl f) (MkState (MkTransfer m (tr_progresscompleted t)) (fl ++ [p]) f)
| t_decrypt t fl1 p fl2 f q p' :
    dp_finalized p = false -> finalize true size iv None p = Some (q, p', None) ->
    tstep (MkState t (fl1 ++ p :: fl2) f) (MkState t (fl1 ++ p' :: fl2) f)
| t_write t fl1 p fl2 f :
    dp_finalized p = true ->
    tstep (MkState t (fl1 ++ p :: fl2) f)
      (MkState (bufferWriteCompletedAction p t) (fl1 ++ fl2) (pwrite f (dp_pos p) (piece_data p)))
| t_discard t fl1 p fl2 f :
    dp_finalized p = true -> tstep (MkState t (fl1 ++ p :: fl2) f) (MkState t (fl1 ++ fl2) f)
| t_progress t fl f pos t' :
    updatecontiguousprogress size t = Some (pos, t') -> tstep (MkState t fl f) (MkState t' fl f).

(** The state of a piece with the chunks [ks]. *)
Definition piece_inv (p : DownloadPiece) (ks : list Z) : Prop :=
  aligned size (dp_pos p) (dp_pos p + dp_len p) /\ chain size (dp_pos p) (dp_pos p + dp_len p) ks
  /\ if dp_finalized p
     then mMacMap (dp_macs p) = put_keys (final content iv) ks []
          /\ piece_data p = substr content (Z.to_nat (dp_pos p)) (Z.to_nat (dp_len p))
     else dp_macs p = set_map (put_keys blank ks []) clear
          /\ piece_data p = stored (dp_pos p) (dp_pos p + dp_len p)
          /\ 16 * ((dp_len p + 15) / 16) <= zlength (dp_buf p).

Definition sum_len (ks : list Z) : Z := foldr (fun k n => chunk_len size k + n) 0 ks.

(** [g]: the chunk MACs as if nothing had been folded; [ds]: the chunks written. *)
Record tinv_of (st : dstate) (g : list (Z * ChunkMAC)) (ds : list Z) (kss : list (list Z)) : Prop := {
  ti_folds : folds (tr_chunkmacs (ds_transfer st)) g;
  ti_map : inv size (tr_chunkmacs (ds_transfer st));
  ti_ok : omap_ok g;
  ti_find : forall k, if decide (k ∈ ds) then omap_find k g = Some (final content iv k)
                      else omap_find k g = None \/ (omap_find k g = Some (blank k) /\ chunk_start k /\ k < size);
  ti_pos : forall c, chunk_start c -> c <= macsmacSoFarPos (tr_chunkmacs (ds_transfer st)) -> c ∈ ds;
  ti_starts : Forall (fun k => chunk_start k /\ k < size) ds;
  ti_nodup : NoDup (ds ++ mjoin kss);
  ti_progress : tr_progresscompleted (ds_transfer st) = sum_len ds;
  ti_size : zlength (ds_file st) <= size;
  ti_file : forall c i, c ∈ ds -> c <= Z.of_nat i < c + chunk_len size c -> ds_file st !! i = content !! i;
  ti_flight : Forall2 piece_inv (ds_flight st) kss
}.
Definition tinv (st : dstate) : Prop := exists g ds kss, tinv_of st g ds kss.

Lemma plain_of st g ds kss : tinv_of st g ds kss -> plain g.
Proof.
  intros Hi. apply Forall_forall. intros [k c] Hin. simpl. apply (find_In k c g (ti_ok _ _ _ _ Hi)) in Hin.
  pose proof (ti_find _ _ _ _ Hi k) as Hf. case_decide; rewrite Hin in Hf.
  - by simplify_eq.
  - destruct Hf as [|[? _]]; by simplify_eq.
Qed.

(** A chunk that is not folded is finished exactly when it has been written. *)
Lemma finished_iff st g ds kss k :
  tinv_of st g ds kss -> macsmacSoFarPos (tr_chunkmacs (ds_transfer st)) < k ->
  finishedAt k (tr_chunkmacs (ds_transfer st)) = true <-> k ∈ ds.
Proof.
  intros Hi Hk. unfold finishedAt. rewrite (folds_find _ g) by (try done; apply Hi).
  pose proof (ti_find _ _ _ _ Hi k) as Hf. case_decide; [rewrite Hf; done|].
  split; [|done]. destruct Hf as [->|[-> _]]; done.
Qed.

(** Storing entries beyond the folded prefix. *)
Lemma put_keys_state f ks : forall m g,
  inv size m -> folds m g -> NoDup ks -> (forall k, k ∈ ks -> storable_entry size m k (f k)) ->
  inv size (set_map (put_keys f ks (mMacMap m)) m) /\ folds (set_map (put_keys f ks (mMacMap m)) m) (put_keys f ks g).
Proof.
  induction ks as [|k ks IH]; intros m g Hi Hf Hnd Hst; [by destruct m|].
  apply NoDup_cons in Hnd as [Hk Hnd]. pose proof (Hst k ltac:(by left)) as Hsk.
  pose proof (inv_insert _ _ _ _ Hi Hsk) as Hi1.
  destruct Hsk as (_ & _ & Hpos & _). pose proof (folds_insert _ _ k (f k) Hf Hpos) as Hf1.
  apply (IH _ _ Hi1 Hf1 Hnd). intros x Hx. destruct (Hst x ltac:(by right)) as (H1 & H2 & H3 & H4 & H5).
  split_and!; try done. unfold finishedAt in *. cbn [mMacMap set_map].
  rewrite find_insert_ne; [done|apply Hi|congruence].
Qed.

Lemma chain_range s e ks k : chain size s e ks -> k ∈ ks -> s <= k /\ k + chunk_len size k <= e.
Proof.
  revert s. induction ks as [|x ks IH]; intros s Hc Hk; [by apply not_elem_of_nil in Hk|].
  destruct Hc as (-> & Hs & Hlt & Hc). pose proof (chain_le _ _ _ _ Hc) as [Hle _].
  destruct (chunk_len_bounds size s Hs Hlt) as [HL _]. unfold chunk_len in *.
  apply elem_of_cons in Hk as [->|Hk]; [lia|]. destruct (IH _ Hc Hk). lia.
Qed.

(** The chain has every chunk of its range. *)
Lemma chain_complete s e ks k : chain size s e ks -> e <= size -> chunk_start k -> s <= k < e -> k ∈ ks.
Proof.
  revert s. induction ks as [|x ks IH]; intros s Hc He Hk Hr; [simpl in Hc; lia|].
  destruct Hc as (-> & Hs & Hlt & Hc). destruct (decide (chunkceil s size <= k)) as [Hge|Hl].
  - right. apply (IH _ Hc); (done || lia).
  - assert (k = s) as ->; [|by left]. apply chunk_start_unique; [done..|].
    rewrite chunkceil_limit in Hl by (destruct Hs; lia). lia.
Qed.

Lemma piece_range p ks k : piece_inv p ks -> k ∈ ks -> covers p k /\ chunk_start k /\ k < size.
Proof.
  intros (Ha & Hc & _) Hk. destruct (chain_le _ _ _ _ Hc) as [_ Hf].
  rewrite Forall_forall in Hf. pose proof (chain_starts _ _ _ _ Hc) as Hs. rewrite Forall_forall in Hs.
  split; [|by apply Hs]. unfold covers. by apply Hf.
Qed.

Lemma length_pwrite f pos d : length (pwrite f pos d) = Nat.max (length f) (Z.to_nat pos + length d).
Proof. unfold pwrite, PaddedCBC.resize. rewrite !length_app, length_take, length_replicate, length_drop. lia. Qed.

Lemma pwrite_inside f pos d i :
  (Z.to_nat pos <= i < Z.to_nat pos + length d)%nat -> pwrite f pos d !! i = d !! (i - Z.to_nat pos)%nat.
Proof.
  intros Hi. unfold pwrite. assert (length (PaddedCBC.resize (Z.to_nat pos) 0 f) = Z.to_nat pos) as Hl
    by (unfold PaddedCBC.resize; rewrite length_app, length_take, length_replicate; lia).
  rewrite lookup_app_r, lookup_app_l by lia. by rewrite Hl.
Qed.

Lemma pwrite_outside f pos d i x :
  f !! i = Some x -> ~ (Z.to_nat pos <= i < Z.to_nat pos + length d)%nat -> pwrite f pos d !! i = Some x.
Proof.
  intros Hf Hi. unfold pwrite. pose proof (lookup_lt_Some _ _ _ Hf) as Hlt.
  assert (length (PaddedCBC.resize (Z.to_nat pos) 0 f) = Z.to_nat pos) as Hl
    by (unfold PaddedCBC.resize; rewrite length_app, length_take, length_replicate; lia).
  destruct (decide (i < Z.to_nat pos)%nat).
  - rewrite lookup_app_l by lia. unfold PaddedCBC.resize.
    rewrite lookup_app_l by (rewrite length_take; lia). by rewrite lookup_take_lt.
  - rewrite !lookup_app_r by lia. rewrite lookup_drop, Hl. rewrite <- Hf. f_equal. lia.
Qed.

Lemma merge_find k (es : list (Z * ChunkMAC)) : forall l, omap_ok l -> omap_ok es ->
  omap_find k (foldl (fun l e => omap_insert e.1 e.2 l) l es)
  = match omap_find k es with Some c => Some c | None => omap_find k l end.
Proof.
  induction es as [|[k0 c0] es IH]; intros l Hl He; [done|]. destruct He as [Hb He].
  cbn [foldl fst snd]. rewrite IH by (try done; by apply insert_ok). rewrite find_cons.
  destruct (Z.ltb_spec k k0) as [Hlt|Hge].
  - rewrite (find_below k es) by (eapply below_trans; [|exact Hb]; by apply Z.ltb_lt).
    rewrite find_insert_ne by (done || lia). done.
  - destruct (Z.ltb_spec k0 k) as [Hlt|Hge'].
    + by rewrite find_insert_ne by (done || lia).
    + assert (k = k0) as -> by lia. rewrite (find_below k0 es) by done. by rewrite find_insert_eq.
Qed.

Lemma merge_ok (es : list (Z * ChunkMAC)) : forall l, omap_ok l ->
  omap_ok (foldl (fun l e => omap_insert e.1 e.2 l) l es).
Proof. induction es as [|e es IH]; intros l Hl; [done|]. by apply IH, insert_ok. Qed.

Lemma copy_put f ks m macs :
  omap_ok (mMacMap m) -> mMacMap macs = put_keys f ks [] ->
  copyEntriesTo macs m = set_map (put_keys f ks (mMacMap m)) m.
Proof.
  intros Hm E. unfold copyEntriesTo. f_equal. rewrite E. apply omap_ext.
  - by apply merge_ok.
  - by apply put_keys_ok.
  - intros k. rewrite merge_find by (try done; by apply put_keys_ok). rewrite !find_put_keys by done.
    by case_decide.
Qed.

Lemma sum_len_app l l' : sum_len (l ++ l') = sum_len l + sum_len l'.
Proof. unfold sum_len. induction l as [|k l IH]; simpl; lia. Qed.

(** A byte of a chunk lies in a piece exactly when the chunk does. *)
Lemma chunk_in_piece p ks c i :
  piece_inv p ks -> chunk_start c -> c < size -> c <= i < c + chunk_len size c ->
  dp_pos p <= i < dp_pos p + dp_len p -> c ∈ ks.
Proof.
  intros ((Hs & Hse & He) & Hc & _) Hcs Hlt Hi Hr. apply (chain_complete _ _ _ _ Hc); [lia|done|].
  destruct (decide (dp_pos p <= c)); [lia|]. exfalso.
  assert (dp_pos p = c); [|lia]. apply chunk_start_unique; [done..|].
  unfold chunk_len in Hi. rewrite chunkceil_limit in Hi by (destruct Hcs; lia). lia.
Qed.

Lemma ds_start st g ds kss c : tinv_of st g ds kss -> c ∈ ds -> chunk_start c /\ c < size.
Proof. intros Hi Hc. pose proof (ti_starts _ _ _ _ Hi) as Hf. rewrite Forall_forall in Hf. by apply Hf. Qed.

(** A chunk not written lies beyond the folded prefix. *)
Lemma undone_pos st g ds kss k :
  tinv_of st g ds kss -> chunk_start k -> k ∉ ds -> macsmacSoFarPos (tr_chunkmacs (ds_transfer st)) < k.
Proof.
  intros Hi Hk Hn. destruct (decide (macsmacSoFarPos (tr_chunkmacs (ds_transfer st)) < k)); [done|].
  destruct Hn. apply (ti_pos _ _ _ _ Hi); [done|lia].
Qed.

Lemma step_deliver t fl f s e spare :
  size < 2 ^ 62 -> tinv (MkState t fl f) -> aligned size s e -> 15 <= zlength spare ->
  unclaimed (MkState t fl f) s e ->
  exists p m, finalize false size iv (Some (tr_chunkmacs t)) (new_piece s (stored s e) spare) = Some (true, p, Some m)
    /\ tinv (MkState (MkTransfer m (tr_progresscompleted t)) (fl ++ [p]) f).
Proof.
  intros Hsz (g & ds & kss & Hi) Ha Hsp Hun.
  destruct (finalize_queue content iv s e spare (tr_chunkmacs t) Ha) as (ks & Hne & Hc & E).
  fold (stored s e) in E. eexists _, _. split; [exact E|].
  assert (forall k, k ∈ ks -> chunk_start k /\ k < size /\ s <= k < e) as Hks.
  { intros k Hk. pose proof (chain_starts _ _ _ _ Hc) as H1. pose proof (chain_le _ _ _ _ Hc) as [_ H2].
    rewrite Forall_forall in H1, H2. split_and!; [apply H1|apply H1|apply H2|apply H2]; done. }
  assert (forall k, k ∈ ks -> k ∉ ds) as Hkd.
  { intros k Hk Hd. destruct (Hks k Hk) as (H1 & H2 & H3). destruct (Hun k H1 H3) as (H4 & H5 & _).
    pose proof (proj2 (finished_iff _ _ _ _ k Hi H4) Hd). congruence. }
  destruct (put_keys_state blank ks (tr_chunkmacs t) g) as [Hi' Hf'];
    [apply Hi|apply Hi|by eapply chain_NoDup| |].
  { intros k Hk. destruct (Hks k Hk) as (H1 & H2 & H3). destruct (Hun k H1 H3) as (H4 & H5 & _).
    split_and!; try done. cbn [ds_transfer] in H5. by rewrite H5. }
  assert (zlength (stored s e) = e - s) as Hd.
  { unfold stored. destruct Ha as ([? _] & ? & _).
    assert (size = zlength content) by done. rewrite length_substr; [lia|]. rewrite length_encrypt_file. lia. }
  exists (put_keys blank ks g), ds, (kss ++ [ks]). destruct Hi.
  split; cbn [ds_transfer ds_flight ds_file tr_chunkmacs tr_progresscompleted] in *; try done.
  - by apply put_keys_ok.
  - intros k. specialize (ti_find0 k). rewrite find_put_keys by done.
    destruct (decide (k ∈ ds)) as [Hin|Hin].
    + rewrite decide_False; [done|]. intros Hk. by apply (Hkd k Hk).
    + destruct (decide (k ∈ ks)) as [Hk|]; [|done]. right. destruct (Hks k Hk) as (? & ? & _). done.
  - rewrite join_app. cbn [mjoin list_join]. rewrite app_nil_r, app_assoc. apply NoDup_app.
    split_and!; [done| |by eapply chain_NoDup]. intros k Hk Hk'. destruct (Hks k Hk') as (H1 & H2 & H3).
    apply elem_of_app in Hk as [Hk|Hk]; [by apply (Hkd k Hk')|].
    apply list_elem_of_join in Hk as (ks' & Hk & Hin).
    apply list_elem_of_lookup_1 in Hin as [i Hin].
    destruct (Forall2_lookup_r _ _ _ _ _ ti_flight0 Hin) as (p & Hp%list_elem_of_lookup_2 & Hpi).
    destruct (Hun k H1 H3) as (_ & _ & Hcov). simpl in Hcov. rewrite Forall_forall in Hcov.
    apply (Hcov p Hp). by apply (piece_range p ks').
  - apply Forall2_app; [done|]. constructor; [|constructor]. unfold piece_inv, piece_data.
    cbn [dp_pos dp_len dp_finalized dp_macs dp_buf]. fold (stored s e). replace (s + (e - s)) with e by lia.
    rewrite take_app_length', length_app by lia. pose proof Ha as (_ & ? & _).
    split_and!; (done || dlia).
Qed.

Lemma step_decrypt_inv t fl1 p fl2 f :
  size < 2 ^ 62 -> tinv (MkState t (fl1 ++ p :: fl2) f) -> dp_finalized p = false ->
  exists p', finalize true size iv None p = Some (false, p', None) /\ dp_finalized p' = true
    /\ tinv (MkState t (fl1 ++ p' :: fl2) f).
Proof.
  intros Hsz (g & ds & kss & Hi) Hp. pose proof (ti_flight _ _ _ _ Hi) as Hfl. cbn [ds_flight] in Hfl.
  apply Forall2_app_inv_l in Hfl as (k1 & k2 & Hf1 & Hf2 & ->).
  apply Forall2_cons_inv_l in Hf2 as (ks & k2' & Hpi & Hf2 & ->).
  destruct p as [s buf len macs fin]. simpl in Hp. subst fin.
  destruct Hpi as (Ha & Hc & Hm & Hb & Hl). cbn [dp_pos dp_len dp_macs dp_finalized dp_buf] in *. subst macs.
  destruct (finalize_decrypt content iv Hsz s (s + len) ks buf Ha Hc) as (buf' & E & Hb').
  { unfold piece_data, stored in Hb. cbn [dp_buf dp_len] in Hb. replace (s + len - s) with len in * by lia. done. }
  { by replace (s + len - s) with len by lia. }
  replace (s + len - s) with len in * by lia. eexists. split; [exact E|]. split; [done|].
  exists g, ds, (k1 ++ ks :: k2'). destruct Hi. split; try done. cbn [ds_flight] in *.
  apply Forall2_app; [done|]. constructor; [|done]. split_and!; done.
Qed.

(** A piece leaves: its chunks are no longer held. *)
Lemma flight_perm (ds ks : list Z) k1 k2 :
  ds ++ mjoin (k1 ++ ks :: k2) ≡ₚ (ds ++ ks) ++ mjoin (k1 ++ k2).
Proof. rewrite !join_app. cbn [mjoin list_join]. solve_Permutation. Qed.

Lemma step_write_inv t fl1 p fl2 f :
  tinv (MkState t (fl1 ++ p :: fl2) f) -> dp_finalized p = true ->
  tinv (MkState (bufferWriteCompletedAction p t) (fl1 ++ fl2) (pwrite f (dp_pos p) (piece_data p))).
Proof.
  intros (g & ds & kss & Hi) Hp. pose proof (ti_flight _ _ _ _ Hi) as Hfl. cbn [ds_flight] in Hfl.
  apply Forall2_app_inv_l in Hfl as (k1 & k2 & Hf1 & Hf2 & ->).
  apply Forall2_cons_inv_l in Hf2 as (ks & k2' & Hpi & Hf2 & ->).
  pose proof Hpi as (Ha & Hc & Hst). rewrite Hp in Hst. destruct Hst as [Hm Hd].
  pose proof (ti_nodup _ _ _ _ Hi) as Hnd. rewrite flight_perm in Hnd.
  pose proof Hnd as ((_ & Hdk & _)%NoDup_app & _ & _)%NoDup_app.
  assert (forall k, k ∈ ks -> k ∉ ds) as Hkd by (intros k Hk Hk'; by apply (Hdk k)).
  pose proof Ha as (Hs & Hse & He). destruct Hs as [Hs0 _].
  assert (zlength (piece_data p) = dp_len p) as Hlen.
  { rewrite Hd, length_substr; [lia|]. assert (size = zlength content) by done. lia. }
  unfold bufferWriteCompletedAction. rewrite (copy_put (final content iv) ks) by (try done; apply Hi).
  destruct (put_keys_state (final content iv) ks (tr_chunkmacs t) g) as [Hi' Hf'];
    [apply Hi|apply Hi|by eapply chain_NoDup| |].
  { intros k Hk. destruct (piece_range _ _ _ Hpi Hk) as (_ & H1 & H2).
    pose proof (undone_pos _ _ _ _ k Hi H1 (Hkd k Hk)). split_and!; done. }
  pose proof (fun c => ds_start _ _ _ _ c Hi) as Hdst.
  exists (put_keys (final content iv) ks g), (ds ++ ks), (k1 ++ k2'). destruct Hi.
  split; cbn [ds_transfer ds_flight ds_file tr_chunkmacs tr_progresscompleted] in *; try done.
  - by apply put_keys_ok.
  - intros k. specialize (ti_find0 k). rewrite find_put_keys by done.
    destruct (decide (k ∈ ks)) as [Hk|Hk].
    + by rewrite decide_True by (apply elem_of_app; by right).
    + destruct (decide (k ∈ ds)) as [Hin|Hin].
      * by rewrite decide_True by (apply elem_of_app; by left).
      * rewrite decide_False; [done|]. rewrite elem_of_app. tauto.
  - intros c Hcs Hle. apply elem_of_app. left. by apply ti_pos0.
  - apply Forall_app. split; [done|]. by eapply chain_starts.
  - rewrite sum_len_app, ti_progress0. pose proof (chain_sum _ _ _ _ Hc). unfold sum_len in *. lia.
  - rewrite length_pwrite. lia.
  - intros c i Hcd Hci. destruct (decide (dp_pos p <= Z.of_nat i < dp_pos p + dp_len p)) as [Hin|Hout].
    + rewrite pwrite_inside by lia. rewrite Hd. unfold substr.
      rewrite lookup_take_lt, lookup_drop by lia. f_equal. lia.
    + apply elem_of_app in Hcd as [Hcd|Hcd].
      * specialize (ti_file0 c i Hcd Hci). destruct (Hdst c Hcd) as [Hcs Hlt].
        destruct (chunk_len_bounds size c Hcs Hlt) as [_ HL].
        destruct (content !! i) as [x|] eqn:Ex; [|apply lookup_ge_None in Ex; assert (size = zlength content) by done; lia].
        apply pwrite_outside; [done|lia].
      * destruct (chain_range _ _ _ _ Hc Hcd). lia.
  - by apply Forall2_app.
Qed.

Lemma step_discard_inv t fl1 p fl2 f :
  tinv (MkState t (fl1 ++ p :: fl2) f) -> tinv (MkState t (fl1 ++ fl2) f).
Proof.
  intros (g & ds & kss & Hi). pose proof (ti_flight _ _ _ _ Hi) as Hfl. cbn [ds_flight] in Hfl.
  apply Forall2_app_inv_l in Hfl as (k1 & k2 & Hf1 & Hf2 & ->).
  apply Forall2_cons_inv_l in Hf2 as (ks & k2' & Hpi & Hf2 & ->).
  pose proof (ti_nodup _ _ _ _ Hi) as Hnd. rewrite flight_perm, (Permutation_app_comm ds ks), <- app_assoc in Hnd.
  apply NoDup_app in Hnd as (_ & _ & Hnd).
  exists g, ds, (k1 ++ k2'). destruct Hi. split; try done. by apply Forall2_app.
Qed.

Lemma step_progress_inv t fl f :
  tinv (MkState t fl f) ->
  exists pos t', updatecontiguousprogress size t = Some (pos, t') /\ tinv (MkState t' fl f).
Proof.
  intros (g & ds & kss & Hi). pose proof (ti_map _ _ _ _ Hi) as Hm. cbn [ds_transfer] in Hm.
  destruct (updateContiguousProgress_spec _ _ Hm) as (q & E1 & Hm1 & Hq & _ & Hfin).
  destruct (updateMacsmacProgress_spec _ _ Hm1) as (m2 & E2 & Hm2 & [_ _ A3 A4 A5] & _).
  eexists q, _. unfold updatecontiguousprogress. rewrite E1. cbn [mbind option_bind].
  rewrite E2. cbn [mbind option_bind]. split; [done|].
  pose proof (plain_of _ _ _ _ Hi) as Hpl. pose proof (fun k => finished_iff _ _ _ _ k Hi) as Hfi.
  exists g, ds, kss. destruct Hi.
  split; cbn [ds_transfer ds_flight ds_file tr_chunkmacs tr_progresscompleted] in *; try done.
  - unfold updateMacsmacProgress in E2. refine (folds_loop size g _ _ _ Hm1 Hpl _ E2). exact ti_folds0.
  - intros c Hc Hle. destruct (decide (c <= macsmacSoFarPos (tr_chunkmacs t))); [by apply ti_pos0|].
    apply Hfi; [lia|]. apply (A4 c Hc). cbn [macsmacSoFarPos setProgressContiguous]. lia.
Qed.

Lemma tstep_inv st st' : size < 2 ^ 62 -> tinv st -> tstep st st' -> tinv st'.
Proof.
  intros Hsz Hi Hst. destruct Hst as [t fl f s e spare q p m Ha Hsp Hun E|t fl1 p fl2 f q p' Hp E|t fl1 p fl2 f Hp
    |t fl1 p fl2 f Hp|t fl f pos t' E].
  - destruct (step_deliver _ _ _ _ _ _ Hsz Hi Ha Hsp Hun) as (p0 & m0 & E0 & H0). by simplify_eq.
  - destruct (step_decrypt_inv _ _ _ _ _ Hsz Hi Hp) as (p0 & E0 & _ & H0). by simplify_eq.
  - by apply step_write_inv.
  - by eapply step_discard_inv.
  - destruct (step_progress_inv _ _ _ Hi) as (q & t0 & E0 & H0). by simplify_eq.
Qed.

Definition start (f0 : bytes) : dstate := MkState (MkTransfer clear 0) [] f0.

Lemma tinv_start f0 : zlength f0 <= size -> tinv (start f0).
Proof.
  intros Hf. exists [], [], []. split; simpl; try done.
  - by left.
  - assert (0 <= size) by (unfold size; lia). split; try done.
    + by apply Forall_nil.
    + split; [done|]. left. by split.
    + intros c [? _] Hc. simpl in Hc. lia.
  - intros k. by left.
  - intros c [? _]. lia.
  - constructor.
  - intros c i Hc. by apply not_elem_of_nil in Hc.
Qed.

Lemma tinv_reach f0 st : size < 2 ^ 62 -> zlength f0 <= size -> rtc tstep (start f0) st -> tinv st.
Proof.
  intros Hsz Hf Hr. pose proof (tinv_start f0 Hf) as Hi. revert Hi.
  induction Hr as [st|st st1 st2 Hs _ IH]; intros Hi; [done|]. apply IH. by eapply tstep_inv.
Qed.

(** The chunks of the whole file. *)
Lemma all_chunks : exists all, chain size 0 size all.
Proof.
  destruct (decide (size = 0)) as [E|Hne]; [exists []; by rewrite E|].
  assert (0 <= size) by (unfold size; lia).
  destruct (aligned_chain size 0 size) as (ks & _ & Hks); [|by exists ks].
  split_and!; [split; [lia|done]|lia|lia|by left].
Qed.

Lemma sum_len_perm l l' : l ≡ₚ l' -> sum_len l = sum_len l'.
Proof. unfold sum_len. induction 1; simpl in *; lia. Qed.

Lemma sum_len_pos l : Forall (fun k => chunk_start k /\ k < size) l -> 0 <= sum_len l /\ (sum_len l = 0 -> l = []).
Proof.
  unfold sum_len. induction 1 as [|k l [Hk Hl] _ [IH _]]; simpl; [done|].
  destruct (chunk_len_bounds size k Hk Hl). split; [lia|]. lia.
Qed.

(** The chunks written are some of all chunks, so their lengths add up to the
    size only when they are all. *)
Lemma sum_len_all ds :
  NoDup ds -> Forall (fun k => chunk_start k /\ k < size) ds ->
  sum_len ds <= size /\ (sum_len ds = size -> forall k, chunk_start k -> k < size -> k ∈ ds).
Proof.
  intros Hnd Hds. destruct all_chunks as [all Hall]. pose proof (chain_sum _ _ _ _ Hall) as Hsum.
  fold (sum_len all) in Hsum. assert (forall k, chunk_start k -> k < size -> k ∈ all) as Hin.
  { intros k Hk Hl. apply (chain_complete _ _ _ _ Hall); [lia|done|destruct Hk; lia]. }
  assert (ds ⊆+ all) as [extra He]%submseteq_Permutation.
  { apply NoDup_submseteq; [done|]. intros k Hk. rewrite Forall_forall in Hds. by apply Hin; apply Hds. }
  pose proof (sum_len_perm _ _ He) as Hp. rewrite sum_len_app in Hp.
  assert (Forall (fun k => chunk_start k /\ k < size) extra) as Hex.
  { pose proof (chain_starts _ _ _ _ Hall) as Ha. rewrite He in Ha. by apply Forall_app in Ha as [_ ?]. }
  destruct (sum_len_pos extra Hex) as [Hge H0]. split; [lia|].
  intros E k Hk Hl. rewrite (H0 ltac:(lia)), app_nil_r in He. rewrite <- He. by apply Hin.
Qed.

Lemma tinv_progress st : tinv st -> tr_progresscompleted (ds_transfer st) <= size.
Proof.
  intros (g & ds & kss & Hi). rewrite (ti_progress _ _ _ _ Hi). apply sum_len_all; [|apply Hi].
  pose proof (ti_nodup _ _ _ _ Hi) as Hnd. by apply NoDup_app in Hnd as (? & _).
Qed.

(** A finished chunk is in the file. *)
Lemma tinv_chunk st c :
  tinv st -> chunk_start c -> c < size ->
  c <= macsmacSoFarPos (tr_chunkmacs (ds_transfer st)) \/ finishedAt c (tr_chunkmacs (ds_transfer st)) = true ->
  substr (ds_file st) (Z.to_nat c) (Z.to_nat (chunk_len size c)) = chunk content c.
Proof.
  intros (g & ds & kss & Hi) Hc Hlt Hfin.
  assert (c ∈ ds) as Hin.
  { destruct (decide (c <= macsmacSoFarPos (tr_chunkmacs (ds_transfer st)))); [by apply (ti_pos _ _ _ _ Hi)|].
    destruct Hfin as [|Hfin]; [lia|]. apply (finished_iff _ _ _ _ c Hi); [lia|done]. }
  unfold chunk. fold size (chunk_len size c). apply list_eq. intros i. unfold substr.
  destruct (decide (i < Z.to_nat (chunk_len size c))%nat) as [Hlt'|Hge].
  - rewrite !lookup_take_lt, !lookup_drop by done. apply (ti_file _ _ _ _ Hi c); [done|].
    destruct Hc. lia.
  - rewrite !lookup_take_ge by lia. done.
Qed.

(** When the progress reaches the size, the file is there and its MAC is known. *)
Lemma tinv_complete st mtime :
  tinv st -> tr_progresscompleted (ds_transfer st) = size ->
  ds_file st = content
  /\ exists fa, MetaMac.generateMetaMac_file (plain_file content) (plain_access content mtime) iv
       = Some (true, macsmac (tr_chunkmacs (ds_transfer st)), fa).
Proof.
  intros (g & ds & kss & Hi) Hp. rewrite (ti_progress _ _ _ _ Hi) in Hp.
  pose proof (ti_nodup _ _ _ _ Hi) as Hnd. apply NoDup_app in Hnd as (Hnd & _).
  destruct (sum_len_all ds Hnd (ti_starts _ _ _ _ Hi)) as [_ Hall]. specialize (Hall Hp). split.
  - assert (size = zlength content) as Hsz by done. pose proof (ti_size _ _ _ _ Hi) as Hl.
    assert (forall i, (i < length content)%nat -> ds_file st !! i = content !! i) as Hf.
    { intros i Hlt. destruct (chunk_spec (Z.of_nat i) ltac:(lia)) as [Hch Hb].
      pose proof (is_chunk_size _ _ Hch) as [Hc0 _].
      destruct (is_chunk_at _ _ (chunkfloor (Z.of_nat i)) Hch ltac:(lia)) as [E1 E2].
      assert (chunk_start (chunkfloor (Z.of_nat i))) as Hc by (by split).
      apply (ti_file _ _ _ _ Hi (chunkfloor (Z.of_nat i))); [apply Hall; [done|lia]|].
      unfold chunk_len. rewrite chunkceil_limit, E2 by lia. lia. }
    apply list_eq. intros i. destruct (decide (i < length content)%nat) as [Hlt|Hge]; [by apply Hf|].
    rewrite !lookup_ge_None_2 by lia. done.
  - destruct (generate_plain content iv mtime) as (m & s & E & Hm).
    exists (fileAccess s). unfold MetaMac.generateMetaMac_file, MetaMac.generateMetaMacCancellable_file.
    unfold file_stream in E. rewrite E. cbn. do 3 f_equal.
    rewrite (folds_macsmac (tr_chunkmacs (ds_transfer st)) g) by apply Hi. unfold macsmac. do 3 f_equal.
    eapply macs_unique; [exact Hm|]. split; [apply Hi|]. intros k.
    pose proof (ti_find _ _ _ _ Hi k) as Hf. fold size.
    destruct (decide (chunk_start k /\ k < size)) as [[Hk Hlt]|Hno].
    + by rewrite decide_True in Hf by by apply Hall.
    + rewrite decide_False in Hf; [destruct Hf as [|[_ ?]]; tauto|].
      intros Hin. destruct Hno. by apply (ds_start _ _ _ _ _ Hi).
Qed.

End transfer.

(** ** Streaming *)

Section direct.
Context `{HA : AES, !AES_laws}.
Context (content : bytes) (iv : Z).
Let size := zlength content.
Context (Hsize : size < 2 ^ 62).

Lemma substr_substr {A} (l : list A) a n b m :
  (b + m <= n)%nat -> substr (substr l a n) b m = substr l (a + b) m.
Proof.
  intros Hm. unfold substr. rewrite (take_drop_commute (take n (drop a l)) m b), take_take, Nat.min_l by lia.
  by rewrite <- take_drop_commute, drop_drop.
Qed.

(** The first bytes, up to a block boundary, go through a block of their own. *)
Lemma direct_head s l stack (buf : bytes) :
  let r := s mod 16 in
  0 <= s -> 0 <= l -> r + l <= 16 -> s + l <= size -> length stack = 16%nat ->
  take (Z.to_nat l) buf = substr (encrypt_file content iv) (Z.to_nat s) (Z.to_nat l) ->
  let block := take (Z.to_nat r) stack ++ take (Z.to_nat l) buf ++ drop (Z.to_nat (r + l)) stack in
  substr (SymmCipher.ctr_crypt block 16 (s - r) iv None false true).1 (Z.to_nat r) (Z.to_nat l)
  = substr content (Z.to_nat s) (Z.to_nat l).
Proof.
  intros r Hs Hl Hrl Hsz Hst Hbuf block. assert (0 <= r < 16) as Hr by (subst r; dlia).
  assert (size = zlength content) as Hc by done.
  assert (length (take (Z.to_nat l) buf) = Z.to_nat l) as Hlb.
  { rewrite Hbuf, length_substr; [done|]. rewrite length_encrypt_file. lia. }
  assert (length block = 16%nat) as Hb.
  { subst block. rewrite !length_app, length_take, length_drop, Hlb, Hst. lia. }
  unfold SymmCipher.ctr_crypt. rewrite SymmCipher.paddedLen_eq by lia. cbn [fst].
  change (Z.to_nat (16 * ((16 + 15) / 16))) with 16%nat. rewrite take_ge, (drop_ge block), app_nil_r by lia.
  rewrite (SymmCipher.ctr_process_blocks _ _ _ 1) by (rewrite Hb; done).
  set (ks := keystream _ 1). unfold substr at 1. rewrite drop_zip_with, take_zip_with.
  assert (take (Z.to_nat l) (drop (Z.to_nat r) block) = take (Z.to_nat l) buf) as ->.
  { subst block. rewrite drop_app_length' by (rewrite length_take; lia).
    by rewrite take_app_length' by lia. }
  pose proof (encrypt_slice content iv (Z.to_nat (s / 16)) (Z.to_nat (r + l)) 1
    ltac:(lia) ltac:(subst r; dlia) ltac:(lia) ltac:(lia)) as E.
  replace (16 * Z.of_nat (Z.to_nat (s / 16))) with (s - r) in E by (subst r; dlia). fold ks in E.
  assert (substr (encrypt_file content iv) (Z.to_nat s) (Z.to_nat l)
          = zip_with Z.lxor (substr content (Z.to_nat s) (Z.to_nat l)) (drop (Z.to_nat r) ks)) as E'.
  { assert (Z.to_nat s = (16 * Z.to_nat (s / 16) + Z.to_nat r)%nat) as Es by (subst r; dlia).
    rewrite !Es. rewrite <- (substr_substr _ _ (Z.to_nat (r + l))) by lia. rewrite E.
    rewrite <- (substr_substr content _ (Z.to_nat (r + l))) by lia.
    unfold substr at 1 3. by rewrite drop_zip_with, take_zip_with. }
  rewrite Hbuf, E'. apply SymmCipher.lxor_cancel.
  rewrite length_drop, length_substr by lia. subst ks.
  rewrite SymmCipher.length_keystream by apply SymmCipher.length_ctr_init. unfold BLOCKSIZE. lia.
Qed.

(** A piece of any range, decrypted for streaming. *)
Lemma direct_slice s len stack (buf : bytes) :
  0 <= s -> 0 <= len < 2 ^ 31 -> s + len <= size -> length stack = 16%nat ->
  take (Z.to_nat len) buf = substr (encrypt_file content iv) (Z.to_nat s) (Z.to_nat len) ->
  len + 15 <= zlength buf ->
  take (Z.to_nat len) (direct_finalize iv stack s buf len) = substr content (Z.to_nat s) (Z.to_nat len).
Proof.
  intros Hs Hlen Hsz Hst Hbuf Hl. assert (size = zlength content) as Hc by done.
  unfold direct_finalize. rewrite PaddedCBC.land_low.
  set (r := s mod 16). assert (0 <= r < 16) as Hr by (subst r; dlia).
  set (l := if r =? 0 then 0 else Z.min (16 - r) len).
  assert (exists head, (if r =? 0 then (0, buf) else
      (Z.min (16 - r) len, substr (SymmCipher.ctr_crypt (take (Z.to_nat r) stack
           ++ take (Z.to_nat (Z.min (16 - r) len)) buf ++ drop (Z.to_nat (r + Z.min (16 - r) len)) stack) 16 (s - r) iv
           None false true).1 (Z.to_nat r) (Z.to_nat (Z.min (16 - r) len))
         ++ drop (Z.to_nat (Z.min (16 - r) len)) buf)) = (l, head ++ drop (Z.to_nat l) buf)
      /\ head = substr content (Z.to_nat s) (Z.to_nat l) /\ length head = Z.to_nat l) as (head & E & Hh & Hhl).
  { subst l. destruct (Z.eqb_spec r 0) as [E0|Hne]; [by exists []|]. eexists. split; [done|].
    pose proof (direct_head s (Z.min (16 - r) len) stack buf) as Hd. cbv zeta in Hd. fold r in Hd.
    rewrite Hd; try lia; try done; [split; [done|]; rewrite length_substr; lia|].
    apply (f_equal (take (Z.to_nat (Z.min (16 - r) len)))) in Hbuf. unfold substr in *.
    rewrite !take_take in Hbuf. by replace (Z.to_nat (Z.min (16 - r) len) `min` Z.to_nat len)%nat
      with (Z.to_nat (Z.min (16 - r) len)) in Hbuf by lia. }
  rewrite E. clear E. assert (0 <= l <= len) as Hll by (subst l; case_if; lia).
  destruct (Z.ltb_spec l len) as [Hlt|Hge].
  - assert (exists b, s + l = 16 * Z.of_nat b) as [b Hb].
    { assert (r = 0 /\ l = 0 \/ r <> 0 /\ l = 16 - r) as Hrl
        by (revert Hlt; subst l; destruct (Z.eqb_spec r 0); lia).
      exists (Z.to_nat ((s + l) / 16)). clearbody l. subst r. clear - Hrl Hs Hll. dlia. }
    rewrite (take_app_length' head) by done. rewrite (drop_app_length' head) by done. rewrite (wrapu_id _ (len - l)) by lia.
    destruct (ctr_crypt_slice content iv b (Z.to_nat (len - l)) (drop (Z.to_nat l) buf) None true)
      as (junk & E & _ & _); try lia.
    + replace (16 * b)%nat with (Z.to_nat s + Z.to_nat l)%nat by lia.
      rewrite <- (substr_substr _ _ (Z.to_nat len)) by lia. rewrite <- Hbuf. unfold substr.
      rewrite (take_drop_commute buf), (take_drop_commute (take (Z.to_nat len) buf)), take_take.
      do 2 f_equal. lia.
    + rewrite length_drop. dlia.
    + rewrite Z2Nat.id, <- Hb in E by lia. rewrite E. cbn [fst].
      replace (16 * b)%nat with (Z.to_nat s + Z.to_nat l)%nat by lia.
      rewrite app_assoc, take_app_length'.
      * rewrite Hh. unfold substr. rewrite <- drop_drop, <- take_split. f_equal. lia.
      * rewrite length_app, Hhl, length_substr by lia. lia.
  - assert (l = len) as -> by lia. by rewrite take_app_length'.
Qed.

Definition enc_byte (x : Z) : Z := default 0 (encrypt_file content iv !! Z.to_nat x).

Lemma fsub_substr (d : bytes) a n :
  0 <= a -> (Z.to_nat a + n <= length d)%nat -> fsub (fun x => default 0 (d !! Z.to_nat x)) a n = substr d (Z.to_nat a) n.
Proof.
  revert a. induction n as [|n IH]; intros a Ha Hl; [done|]. cbn [fsub]. rewrite IH by lia.
  replace (Z.to_nat (a + 1)) with (S (Z.to_nat a)) by lia. unfold substr.
  destruct (lookup_lt_is_Some_2 d (Z.to_nat a) ltac:(lia)) as [x Hx].
  rewrite (drop_S _ _ _ Hx), Hx. done.
Qed.

(** What the application gets of a delivered piece. *)
Definition stream_piece (stack spare : bytes) (pc : FilePiece) : bytes :=
  match pbuf pc with
  | Data d => take (length d) (direct_finalize iv stack (ppos pc) (d ++ spare) (zlength d))
  | Null _ => []
  end.

Lemma stream_tiled stack spare t : forall R e,
  length stack = 16%nat -> length spare = 16%nat -> 0 <= R -> e <= size ->
  Forall (fun pc => Z.of_nat (datalen (pbuf pc)) < 2 ^ 31) t -> tiled enc_byte R t e ->
  R <= e /\ mjoin (stream_piece stack spare <$> t) = substr content (Z.to_nat R) (Z.to_nat (e - R)).
Proof.
  induction t as [|pc t IH]; intros R e Hst Hsp HR He Hf Ht.
  { simpl in Ht. subst e. split; [lia|]. by rewrite Z.sub_diag. }
  destruct Ht as (Hp & [n Hn] & Ht). apply Forall_cons in Hf as [Hpc Hf].
  assert (piece_end pc = R + Z.of_nat n) as Hpe.
  { unfold piece_end. rewrite Hp, Hn. cbn [datalen]. by rewrite length_fsub. }
  rewrite Hpe in Ht. destruct (IH (R + Z.of_nat n) e Hst Hsp ltac:(lia) He Hf Ht) as [Hle E].
  assert (size = zlength content) as Hc by done. split; [lia|].
  change (mjoin _) with (stream_piece stack spare pc ++ mjoin (stream_piece stack spare <$> t)). rewrite E. unfold stream_piece. rewrite Hn in *. cbn [datalen] in Hpc. rewrite length_fsub in *.
  unfold enc_byte. rewrite fsub_substr by (rewrite ?length_encrypt_file; lia). rewrite Hp.
  pose proof (direct_slice R (Z.of_nat n) stack
    (substr (encrypt_file content iv) (Z.to_nat R) n ++ spare)) as D.
  rewrite Nat2Z.id in D. rewrite D; try done; try lia.
  - replace (Z.to_nat (e - R)) with (n + Z.to_nat (e - (R + Z.of_nat n)))%nat by lia.
    unfold substr. rewrite take_split, drop_drop. do 3 f_equal. lia.
  - rewrite take_app_length'; [done|]. rewrite length_substr; [lia|]. rewrite length_encrypt_file. lia.
  - rewrite length_app, length_substr; [lia|]. rewrite length_encrypt_file. lia.
Qed.

End direct.

(** ** Requests *)

(** Where the growth of a request stops. *)
Lemma expand_stop fileSize maxReqSize fuel m pos npos q :
  (chunk_start npos \/ fileSize <= npos) -> 0 <= fileSize ->
  expand_loop fuel m pos npos fileSize maxReqSize = Some q ->
  (chunk_start q \/ fileSize <= q)
  /\ (q < fileSize -> maxReqSize <= q - pos \/ exists c, omap_find q (mMacMap m) = Some c /\ notStarted c = false)
  /\ (forall c, chunk_start c -> npos <= c < q -> c - pos < maxReqSize).
Proof.
  intros Hs H0 E. revert npos Hs E. induction fuel as [|fuel IH]; intros npos Hs E; cbn [expand_loop] in E;
    destruct (_ && _ && _) eqn:Ec; simplify_eq.
  1,3: split_and!; [done| |intros; lia]; intros Hlt; apply andb_false_iff in Ec as [Ec|Ec];
    [apply andb_false_iff in Ec as [Ec|Ec]; zbool; [lia|by left]|];
    right; destruct (omap_find q (mMacMap m)) as [c|] eqn:Ef; [|done]; by exists c.
  zbool. destruct Hs as [Hs|?]; [|lia]. pose proof (chunkceil_step fileSize npos ltac:(destruct Hs; lia)) as Hst.
  pose proof (chunkceil_limit npos fileSize H0) as Hlim.
  destruct (IH (chunkceil npos fileSize)) as (G1 & G2 & G3); [|done|].
  - destruct (decide (chunkceil npos fileSize = fileSize)); [right; lia|left].
    rewrite Hlim, Z.min_l by lia. apply chunk_start_ceil, Hs.
  - split_and!; [done|done|]. intros c Hc Hr.
    destruct (decide (chunkceil npos fileSize <= c)); [apply G3; [done|lia]|].
    assert (c = npos) as ->; [apply chunk_start_unique; (done || lia)|]. lia.
Qed.

(** At most one round leads to a chunk boundary, every later one adds a segment. *)
Lemma raidline_size_spec size pos fuel : forall M,
  0 <= pos -> 0 <= M -> 0 <= size ->
  size - M <= SEGSIZE * (Z.of_nat fuel - (if decide (chunk_start M) then 0 else 1)) \/ M = size ->
  exists M', raidline_size fuel size pos M = Some M' /\ M <= M'
    /\ (chunkceil (pos + M') size = size \/ Z.rem (chunkceil (pos + M') size - pos) RAIDLINE = 0).
Proof.
  induction fuel as [|fuel IH]; intros M Hp HM Hs Hf; cbn [raidline_size].
  all: destruct (_ && _) eqn:Ec;
    [|exists M; split_and!; [done|lia|]; pose proof (chunkceil_limit (pos + M) size Hs);
      apply andb_false_iff in Ec as [Ec|Ec]; zbool; [left; lia|by right]].
  all: zbool; pose proof (chunkceil_limit (pos + M) size Hs) as Hl1;
    destruct (chunk_spec (pos + M) ltac:(lia)) as [Hc1 Hb1]; pose proof (is_chunk_size _ _ Hc1) as Hz1.
  { unfold SEGSIZE in *. case_decide; lia. }
  pose proof (chunkceil_limit M size Hs) as Hl2. destruct (chunk_spec M HM) as [Hc2 Hb2].
  destruct (IH (chunkceil M size) Hp ltac:(lia) Hs) as (M' & E & H1 & H2);
    [|exists M'; split_and!; [done|lia|done]].
  destruct Hf as [Hf| ->]; [|exfalso; lia].
  destruct (decide (chunkceil M (-1) <= size)); [left|right; lia].
  rewrite Hl2, Z.min_l in * by lia. rewrite (decide_True (P := chunk_start (chunkceil M (-1)))) by by apply chunk_start_ceil.
  pose proof (is_chunk_size _ _ Hc2) as Hz2. unfold SEGSIZE in *.
  case_decide as Hd; [destruct Hd as [_ Hd]; rewrite Hd in *|]; lia.
Qed.

Lemma newraid_size size pos connections :
  0 <= pos -> 0 <= size -> 0 < connections ->
  exists M, newraid_req_size size pos connections = Some (M + 1) /\ 0 <= M
    /\ (chunkceil (pos + M) size = size \/ Z.rem (chunkceil (pos + M) size - pos) RAIDLINE = 0).
Proof.
  intros Hp Hs Hc. unfold newraid_req_size. set (M0 := if size <=? 25 * MB then _ else _).
  assert (0 <= M0) as HM0.
  { subst M0. unfold MB, EFFECTIVE_RAIDPARTS. case_if; [apply Z.quot_pos; lia|lia]. }
  destruct (raidline_size_spec size pos (S (S (Z.to_nat (size / SEGSIZE)))) M0 Hp HM0 Hs) as (M & -> & H1 & H2).
  { left. unfold SEGSIZE in *. clearbody M0. case_decide; dlia. }
  exists M. split_and!; [done|lia|done].
Qed.

(** The next boundary after a position. *)
Lemma next_start p c : 0 <= p -> chunk_start c -> p < c -> chunkceil p (-1) <= c.
Proof.
  intros Hp Hc Hlt. destruct (decide (chunkceil p (-1) <= c)); [done|]. exfalso.
  destruct (chunk_spec p Hp) as [Hch Hb]. destruct (is_chunk_at _ _ (chunkfloor p) Hch ltac:(lia)) as [E1 E2].
  assert (c = chunkfloor p); [|lia].
  apply chunk_start_unique; [split; [apply (is_chunk_size _ _ Hch)|done]|done|]. rewrite E2. lia.
Qed.

(** The boundary a request ends at when nothing after it has been started. *)
Lemma expand_target size M m p n :
  0 <= p < size -> 0 <= M ->
  (forall c, chunk_start c -> p < c -> omap_find c (mMacMap m) = None) ->
  expandUnprocessedPiece m p (chunkceil p size) size (M + 1) = Some n ->
  chunkceil p size <= n <= size -> n = chunkceil (p + M) size.
Proof.
  intros Hp HM Hnone E Hn. unfold expandUnprocessedPiece in E.
  pose proof (chunkceil_limit p size ltac:(lia)) as Hlp. pose proof (chunkceil_limit (p + M) size ltac:(lia)) as HlM.
  destruct (chunk_spec (p + M) ltac:(lia)) as [_ HbM]. destruct (chunk_spec p ltac:(lia)) as [_ Hbp].
  pose proof (chunk_start_ceil (p + M) ltac:(lia)) as Hsc.
  pose proof (next_start p _ ltac:(lia) Hsc ltac:(lia)) as Hnext.
  assert (chunk_start (chunkceil p size) \/ size <= chunkceil p size) as Hst.
  { destruct (decide (chunkceil p (-1) <= size)); [left|right; lia].
    rewrite Hlp, Z.min_l by lia. apply chunk_start_ceil. lia. }
  destruct (expand_stop _ _ _ _ _ _ _ Hst ltac:(lia) E) as (G1 & G2 & G3).
  assert (~ (chunkceil (p + M) (-1) < n)) as Hnot.
  { intros Hbad. specialize (G3 _ Hsc ltac:(lia)). lia. }
  destruct (decide (n < size)) as [Hns|Hns]; [|lia].
  destruct G1 as [G1|?]; [|lia]. destruct (G2 Hns) as [Hge|(c & Hc & _)].
  - pose proof (next_start (p + M) n ltac:(lia) G1 ltac:(lia)). lia.
  - rewrite Hnone in Hc; [done|done|lia].
Qed.

End DownloadFacts.

Import Download DownloadFacts.

(** A file of one chunk, and the states of its download. *)
Module DownloadExamples.
Local Existing Instances ToyCipher.toy ToyCipher.toy_laws.

Definition content : bytes := [1; 2; 3; 4; 5; 6; 7; 8; 9; 10; 11; 12; 13; 14; 15; 16; 17; 18; 19; 20].
Definition spare : bytes := replicate 16 77.
Definition pass1 := Download.finalize false 20 5 (Some clear) (new_piece 0 (stored content 5 0 20) spare).
Definition piece1 : DownloadPiece :=
  match pass1 with Some (_, p, _) => p | None => new_piece 0 [] [] end.
Definition macs1 : chunkmac_map := match pass1 with Some (_, _, Some m) => m | _ => clear end.
Definition piece2 : DownloadPiece :=
  match Download.finalize true 20 5 None piece1 with Some (_, p, _) => p | None => piece1 end.
Definition written : dstate :=
  MkState (bufferWriteCompletedAction piece2 (MkTransfer macs1 0)) [] (pwrite [9] 0 (piece_data piece2)).

Lemma reached : rtc (tstep content 5) (start [9]) written.
Proof.
  eapply rtc_l.
  { apply (t_deliver content 5 (MkTransfer clear 0) [] [9] 0 20 spare true piece1 macs1).
    - split; [split; [lia|reflexivity]|]. split; [vm_compute; split; congruence|]. left. reflexivity.
    - vm_compute. congruence.
    - intros c [Hc _] Hr. split_and!; [simpl; lia|reflexivity|constructor].
    - vm_compute. reflexivity. }
  eapply rtc_l.
  { apply (t_decrypt content 5 _ [] piece1 [] _ false piece2); vm_compute; reflexivity. }
  apply rtc_once. apply (t_write content 5 _ [] piece2 []). vm_compute. reflexivity.
Qed.
End DownloadExamples.

(** C2: a download ends with the file.  From an empty transfer over any initial
    local file, whatever the order in which pieces of the stored file arrive on
    any number of connections, are decrypted by the workers, written, lost to
    failed writes and fetched again, and the progress is folded: every pass over
    a piece returns; a chunk that is recorded as finished is in the local file;
    the progress never exceeds the size; and when it reaches the size the local
    file is the plain file, its MAC is the one computed from the plain file, and
    the final check completes the transfer. *)
Theorem transfer_download `{AES_laws} (content f0 : bytes) (iv mtime : Z) (st : dstate) :
  zlength content < 2 ^ 62 -> zlength f0 <= zlength content ->
  rtc (tstep content iv) (start f0) st ->
  let size := zlength content in
  let t := ds_transfer st in
  (forall s e spare, aligned size s e -> 15 <= zlength spare -> unclaimed st s e ->
     exists p m, Download.finalize false size iv (Some (tr_chunkmacs t)) (new_piece s (stored content iv s e) spare)
       = Some (true, p, Some m))
  /\ (forall p, p ∈ ds_flight st -> dp_finalized p = false ->
     exists p', Download.finalize true size iv None p = Some (false, p', None) /\ dp_finalized p' = true)
  /\ is_Some (updatecontiguousprogress size t)
  /\ (forall c, chunk_start c -> c < size ->
        c <= macsmacSoFarPos (tr_chunkmacs t) \/ finishedAt c (tr_chunkmacs t) = true ->
        substr (ds_file st) (Z.to_nat c) (Z.to_nat (chunk_len size c)) = MetaMacFacts.chunk content c)
  /\ tr_progresscompleted t <= size
  /\ (tr_progresscompleted t = size ->
      ds_file st = content
      /\ exists metamac fa,
           MetaMac.generateMetaMac_file (plain_file content) (plain_access content mtime) iv
             = Some (true, metamac, fa)
           /\ checkDownloadTransferFinished size metamac t = Complete t metamac).
Proof.
  intros Hsz Hf Hr size t. pose proof (tinv_reach content iv f0 st Hsz Hf Hr) as Hi.
  destruct st as [t' fl f]. cbn [ds_transfer ds_flight ds_file] in *. subst t. split_and!.
  - intros s e spare Ha Hsp Hu. destruct (step_deliver content iv _ _ _ _ _ _ Hsz Hi Ha Hsp Hu) as (p & m & E & _).
    eauto.
  - intros p (fl1 & fl2 & ->)%list_elem_of_split Hp.
    destruct (step_decrypt_inv content iv _ _ _ _ _ Hsz Hi Hp) as (p' & E & Hp' & _). eauto.
  - destruct (step_progress_inv content iv _ _ _ Hi) as (pos & t0 & E & _). by exists (pos, t0).
  - intros c Hc Hlt Hfin. by apply (tinv_chunk content iv _ c Hi).
  - apply (tinv_progress content iv _ Hi).
  - intros Hp. destruct (tinv_complete content iv _ mtime Hi Hp) as [Hfile [fa E]]. split; [exact Hfile|].
    eexists _, fa. split; [exact E|]. unfold checkDownloadTransferFinished. simpl in Hp. rewrite Hp.
    by rewrite !Z.eqb_refl, orb_true_r.
Qed.

Local Existing Instances ToyCipher.toy ToyCipher.toy_laws.

Lemma transfer_download_witness :
  let st := DownloadExamples.written in
  tr_progresscompleted (ds_transfer st) = 20
  /\ ds_file st = DownloadExamples.content
  /\ exists metamac fa,
       MetaMac.generateMetaMac_file (plain_file DownloadExamples.content) (plain_access DownloadExamples.content 7) 5
         = Some (true, metamac, fa)
       /\ checkDownloadTransferFinished 20 metamac (ds_transfer st) = Complete (ds_transfer st) metamac.
Proof.
  intros st. split; [vm_compute; reflexivity|].
  apply (transfer_download DownloadExamples.content [9] 5 7 st).
  - vm_compute. reflexivity.
  - vm_compute. congruence.
  - exact DownloadExamples.reached.
  - vm_compute. reflexivity.
Defined.

(** C3: a direct read streams the requested range: for any pieces of the stored
    file that cover it in order (what a raid download delivers, whatever their
    boundaries), the decrypted pieces put together are the plain bytes of the
    range, whatever the stack and the spare bytes of the buffers hold. *)
Theorem direct_read `{AES_laws} (content stack spare : bytes) (iv R e : Z) (t : list FilePiece) :
  zlength content < 2 ^ 62 -> length stack = 16%nat -> length spare = 16%nat ->
  0 <= R -> e <= zlength content ->
  Forall (fun pc => Z.of_nat (datalen (pbuf pc)) < 2 ^ 31) t ->
  tiled (enc_byte content iv) R t e ->
  R <= e /\ mjoin (stream_piece iv stack spare <$> t) = substr content (Z.to_nat R) (Z.to_nat (e - R)).
Proof. intros Hsz Hst Hsp HR He Hf Ht. by apply stream_tiled. Qed.


Lemma direct_read_witness :
  let content := DownloadExamples.content in
  let fb := enc_byte content 5 in
  3 <= 19 /\ mjoin (stream_piece 5 (replicate 16 88) (replicate 16 99)
      <$> [MkPiece 3 (Data (fsub fb 3 7)); MkPiece 10 (Data (fsub fb 10 9))])
    = substr content 3 16.
Proof.
  apply (direct_read DownloadExamples.content (replicate 16 88) (replicate 16 99) 5 3 19
    [MkPiece 3 (Data (fsub (enc_byte DownloadExamples.content 5) 3 7));
     MkPiece 10 (Data (fsub (enc_byte DownloadExamples.content 5) 10 9))]).
  - vm_compute. reflexivity.
  - reflexivity.
  - reflexivity.
  - lia.
  - vm_compute. congruence.
  - repeat constructor.
  - split; [reflexivity|]. split; [by exists 7%nat|]. split; [reflexivity|]. split; [by exists 9%nat|]. reflexivity.
Defined.

(** The rest of a chunk does not continue its MAC: [copyEntryTo] copies from
    its argument to the object it is called on, so the first pass over a piece
    that starts inside a chunk replaces the transfer's entry of the chunk, with
    the MAC and the length of the part already decrypted, by a blank one, and
    the second pass computes the MAC of the chunk as if the piece were all of
    it, whatever the transfer's entry was. *)
Theorem partial_chunk_restarted `{AES_laws} (filesize iv s : Z) (data spare : bytes) (c : ChunkMAC) (m : chunkmac_map) :
  let k := chunkfloor s in
  let e := s + zlength data in
  0 <= s -> chunkfloor s < s -> 0 < zlength data -> e = chunkceil s filesize -> e <= filesize ->
  omap_find k (mMacMap m) = Some c -> finished c = false -> offset c = s - k ->
  exists p p', Download.finalize false filesize iv (Some m) (new_piece s data spare)
      = Some (true, p, Some (set_map (omap_insert k ChunkMAC_init (mMacMap m)) m))
    /\ Download.finalize true filesize iv None p = Some (false, p', None)
    /\ dp_macs p' = (ctr_decrypt clear k (data ++ spare) (zlength data) s iv true).2.
Proof.
  intros k e Hs Hks Hd He Hle Hf Hfin Ho.
  destruct (chunk_spec s Hs) as [Hch Hb]. fold k in Hch, Hb. pose proof (is_chunk_size _ _ Hch) as Hsz.
  pose proof (chunkceil_limit s filesize ltac:(lia)) as Hl.
  destruct (is_chunk_at _ _ k Hch ltac:(lia)) as [Ek1 Ek2].
  assert (chunkceil k filesize = e) as Ek by (rewrite chunkceil_limit, Ek2 by lia; lia).
  assert (exists fp, (if e =? filesize then e else Z.land e (-16)) = fp /\ fp = e) as (fp & Efp & ->).
  { eexists. split; [done|]. destruct (Z.eqb_spec e filesize) as [|Hne]; [done|].
    assert (chunk_start e) as Hce by (replace e with (chunkceil s (-1)) by lia; by apply chunk_start_ceil).
    destruct (chunk_start_16 e Hce) as [b ->]. change (-16) with (Z.lnot 15). rewrite PaddedCBC.land_high. dlia. }
  assert (chunkceil s e = e) as Ese by (rewrite chunkceil_limit by lia; lia).
  assert (chunkceil e e = e) as Eee.
  { rewrite chunkceil_limit by lia. destruct (chunk_spec e ltac:(lia)) as [_ ?]. lia. }
  assert (u32 (e - s) = zlength data) as Eu by (rewrite wrapu_id; unfold SEGSIZE in *; lia).
  eexists _, _. unfold Download.finalize, new_piece. cbn [dp_pos dp_len dp_buf dp_macs]. fold e. rewrite Efp.
  unfold fuel_for. cbn [finalize_loop]. rewrite Ese, Eu, (proj2 (Z.eqb_neq (zlength data) 0)) by lia.
  unfold finalize_chunk. fold k. rewrite Ek, Z.eqb_refl.
  change (finishedAt k clear) with false. unfold copyEntryTo. cbn [mMacMap clear omap_find].
  rewrite Eee, Z.sub_diag. change (u32 0 =? 0) with true. cbn [mbind option_bind negb].
  split; [done|]. cbn [dp_macs dp_pos dp_len dp_buf]. rewrite take_drop. fold e. rewrite Efp.
  cbn [finalize_loop]. rewrite Ese, Eu, (proj2 (Z.eqb_neq (zlength data) 0)) by lia.
  unfold finalize_chunk. fold k. rewrite Ek, Z.eqb_refl.
  set (m1 := set_map _ clear). assert (finishedAt k m1 = false) as ->.
  { unfold finishedAt, m1. cbn [mMacMap set_map]. by rewrite find_insert_eq. }
  set (X := ctr_decrypt m1 k _ _ _ _ _). rewrite (surjective_pairing X).
  rewrite Eee, Z.sub_diag. change (u32 0 =? 0) with true. cbn [mbind option_bind negb].
  split; [done|]. cbn [dp_macs]. subst X.
  unfold ctr_decrypt, entry, m1. cbn [mMacMap set_map clear omap_find]. rewrite find_insert_eq.
  change (default ChunkMAC_init None) with ChunkMAC_init. change (default ChunkMAC_init (Some ?x)) with x.
  destruct (SymmCipher.ctr_crypt _ _ _ _ _ _ _) as [d' mc]. cbn [snd]. unfold set_map.
  cbn [mMacMap macsmacSoFarPos progresscontiguous]. f_equal. by rewrite insert_insert.
Qed.


(** The MAC that continuing the transfer's entry would have given is another. *)
Lemma partial_chunk_restarted_witness :
  let data := replicate 24 7 in
  let m := MkChunkmacMap [(0, MkChunkMAC (replicate 16 9) 16 false)] (-1) 0 in
  (exists p p', Download.finalize false 40 5 (Some m) (new_piece 16 data (replicate 16 0))
      = Some (true, p, Some (set_map (omap_insert 0 ChunkMAC_init (mMacMap m)) m))
    /\ Download.finalize true 40 5 None p = Some (false, p', None)
    /\ dp_macs p' = (ctr_decrypt clear 0 (data ++ replicate 16 0) 24 16 5 true).2)
  /\ mMacMap (ctr_decrypt clear 0 (data ++ replicate 16 0) 24 16 5 true).2
     <> mMacMap (ctr_decrypt m 0 (data ++ replicate 16 0) 24 16 5 true).2.
Proof.
  split; [|vm_compute; congruence].
  apply (partial_chunk_restarted 40 5 16 (replicate 24 7) (replicate 16 0) (MkChunkMAC (replicate 16 9) 16 false)).
  - lia.
  - vm_compute. reflexivity.
  - simpl. lia.
  - vm_compute. reflexivity.
  - simpl. lia.
  - reflexivity.
  - reflexivity.
  - reflexivity.
Defined.

(** The range of the next request of a transfer that is not raid.  It starts
    in the first chunk after the position that is not finished, where that chunk
    stopped; with no such chunk there is nothing to request.  It ends at a chunk
    boundary or the end of the file and covers only chunks not started.  For a
    file fetched through the raid proxy it ends on a raid line (or at the end of
    the file) or the range is invalid, and it is valid when the start is on a
    raid line and no later chunk has been started.  All loops end. *)
Theorem next_request (type : direction_t) (newRaid : bool) (m : chunkmac_map)
    (size pos progress connections maxReq connectionCount speed : Z) :
  0 < size -> 0 < connections -> chunk_start pos ->
  Forall (fun e => chunk_start e.1 /\ e.1 < size /\ 0 <= offset e.2 /\ e.1 + offset e.2 < chunkceil e.1 size)
    (mMacMap m) ->
  let request := nextNPosForConnection type newRaid m size pos progress connections maxReq connectionCount speed in
  exists q, chunk_start q /\ pos <= q
    /\ (forall c, chunk_start c -> pos <= c < q -> finishedAt c m = true) /\ finishedAt q m = false
    /\ let p := q + offset (entry q m) in
       (size <= q -> request = Some (p, (p, size)) /\ size <= p)
       /\ (q < size ->
           (request = Some (p, (-1, -1)) /\ type = GET /\ newRaid = true
            /\ ~ (Z.rem p RAIDLINE = 0
                  /\ forall c, chunk_start c -> p < c -> omap_find c (mMacMap m) = None))
           \/ exists n, request = Some (p, (p, n)) /\ p < n <= size /\ (n = size \/ chunk_start n)
                /\ (forall c, chunk_start c -> p < c < n ->
                      match omap_find c (mMacMap m) with None => True | Some e => notStarted e = true end)
                /\ (type = GET -> newRaid = true -> n = size \/ Z.rem (n - p) RAIDLINE = 0)).
Proof.
  intros Hsz Hconn Hpos Hm request.
  destruct (next_loop_spec (ChunkmacMap.size m) m pos Hpos (count_ge_length _ _)) as (q & Hq & Hle & Hfin & Hnf & E).
  exists q. split_and!; [done..|]. set (p := q + offset (entry q m)) in *.
  assert (0 <= q) as Hq0 by (destruct Hq; done).
  unfold request, nextNPosForConnection. rewrite (proj2 (Z.eqb_neq size 0)) by lia.
  unfold nextUnprocessedPosFrom. rewrite E. cbn [mbind option_bind]. clear E request.
  assert (0 <= offset (entry q m) /\ (q < size -> p < chunkceil q size)) as [Ho Hp].
  { unfold p, entry. destruct (omap_find q (mMacMap m)) as [c|] eqn:Ef.
    - destruct (find_Forall _ _ _ _ Ef Hm) as (_ & ? & ? & ?). simpl in *. lia.
    - simpl. split; [lia|]. intros Hlt. pose proof (chunkceil_step size q ltac:(lia)). lia. }
  pose proof (chunkceil_limit p size ltac:(lia)) as Hl. pose proof (chunkceil_limit q size ltac:(lia)) as Hlq.
  split.
  - intros Hge. assert (chunkceil p size = size) as ->.
    { destruct (chunk_spec p ltac:(lia)) as [_ ?]. lia. }
    rewrite (proj2 (Z.ltb_ge p size)) by lia. split; [done|lia].
  - intros Hlt. specialize (Hp Hlt).
    destruct (chunk_spec q Hq0) as [Hch Hb]. rewrite (proj2 Hq) in Hch, Hb.
    destruct (is_chunk_at _ _ p Hch ltac:(lia)) as [_ Ecp]. rewrite Ecp in Hl.
    assert (p < chunkceil p size <= size) as Hc by lia.
    rewrite (proj2 (Z.ltb_lt p _)) by lia.
    assert (chunk_start (chunkceil p size) \/ size <= chunkceil p size) as Hst.
    { rewrite Hl. destruct (decide (chunkceil q (-1) <= size)); [left|right; lia].
      rewrite Z.min_l by lia. by apply chunk_start_ceil. }
    assert (forall M, exists n, expandUnprocessedPiece m p (chunkceil p size) size M = Some n
       /\ chunkceil p size <= n <= size /\ (n = size \/ chunk_start n)
       /\ forall c, chunk_start c -> p < c < n ->
            match omap_find c (mMacMap m) with None => True | Some e => notStarted e = true end) as Hexp.
    { intros M. unfold expandUnprocessedPiece.
      destruct (expand_loop_spec size M (S (Z.to_nat ((size - chunkceil p size) / SEGSIZE + 1))) m p (chunkceil p size))
        as (n & En & H1 & H2 & H3); [done|intros _; unfold SEGSIZE; dlia|].
      destruct (expand_stop _ _ _ _ _ _ _ Hst ltac:(lia) En) as (G1 & _ & _).
      exists n. split_and!; [done|done|apply H2; lia|destruct G1; [by right|left; specialize (H2 ltac:(lia)); lia]|].
      intros c Hcs Hr. apply H3; [done|]. pose proof (next_start p c ltac:(lia) Hcs ltac:(lia)). lia. }
    destruct type; [|destruct newRaid].
    + destruct (Hexp (put_req_size size (chunkceil p size) speed)) as (n & -> & Hn & Hn' & Hu). right. exists n.
      split_and!; (done || lia).
    + destruct (Z.eqb_spec (Z.rem p RAIDLINE) 0) as [Er|Er]; cbn [negb].
      2:{ left. split_and!; try done. intros [? _]. done. }
      destruct (newraid_size size p connections ltac:(lia) ltac:(lia) Hconn) as (M & -> & HM & HMr).
      cbn [mbind option_bind]. destruct (Hexp (M + 1)) as (n & En & Hn & Hn' & Hu). rewrite En. cbn [mbind option_bind].
      destruct (_ && _) eqn:Ebad; zbool.
      * left. split_and!; try done. intros [_ Hnone].
        pose proof (expand_target size M m p n ltac:(lia) HM Hnone En Hn) as Et.
        destruct HMr as [HMr|HMr]; rewrite <- Et in HMr; [lia|done].
      * right. exists n. split_and!; try (done || lia).
    + destruct (Hexp (get_req_size size progress connectionCount maxReq)) as (n & -> & Hn & Hn' & Hu). right. exists n.
      split_and!; (done || lia).
Qed.


Lemma next_request_witness :
  let m := MkChunkmacMap [(0, MkChunkMAC (replicate 16 7) 0 true)] (-1) 131072 in
  exists q, chunk_start q /\ 0 <= q
    /\ (forall c, chunk_start c -> 0 <= c < q -> finishedAt c m = true) /\ finishedAt q m = false
    /\ let p := q + offset (entry q m) in
       (40000000 <= q -> nextNPosForConnection GET true m 40000000 0 131072 4 (16 * MB) 4 0 = Some (p, (p, 40000000))
          /\ 40000000 <= p)
       /\ (q < 40000000 ->
           (nextNPosForConnection GET true m 40000000 0 131072 4 (16 * MB) 4 0 = Some (p, (-1, -1))
            /\ GET = GET /\ true = true
            /\ ~ (Z.rem p RAIDLINE = 0
                  /\ forall c, chunk_start c -> p < c -> omap_find c (mMacMap m) = None))
           \/ exists n, nextNPosForConnection GET true m 40000000 0 131072 4 (16 * MB) 4 0 = Some (p, (p, n))
                /\ p < n <= 40000000 /\ (n = 40000000 \/ chunk_start n)
                /\ (forall c, chunk_start c -> p < c < n ->
                      match omap_find c (mMacMap m) with None => True | Some e => notStarted e = true end)
                /\ (GET = GET -> true = true -> n = 40000000 \/ Z.rem (n - p) RAIDLINE = 0)).
Proof.
  intros m. apply (next_request GET true m 40000000 0 131072 4 (16 * MB) 4 0).
  - lia.
  - lia.
  - split; [lia|reflexivity].
  - constructor; [|constructor]. simpl. split; [split; [lia|reflexivity]|]. vm_compute. split_and!; (done || congruence).
Defined.
