(* ===== verification/Transfers.v ===== *)
(** * The queue of transfers

    [TransferList] (src/transfer.cpp): uploads and downloads in the order of their
    64-bit priorities, kept in deques that erase lazily
    ([deque_with_lazy_bulk_erase], mega/types.h).  Moving a transfer gives it a
    priority between its new neighbours, and where there is no room the
    priorities in front are set anew.  Proved: the deque refines a list, the
    order of the priorities is the order of the list after every operation, so
    that the binary search finds every transfer, and each operation moves what it
    should, except that moving an iterator down moves nothing.

    Transfers are shared objects: the lists hold identifiers, and the objects are
    in a store.  The calls into the WebSocket engine ([MEGA_USE_WSUPLOAD]) are not
    modelled, nor is the choice of the next transfers. *)

From stdpp Require Import gmap sorting.
From S2P Require Import Prelude.
Local Open Scope Z_scope.

(** ** The deque *)

Module LazyDeque.

Section deque.
Context {T K : Type}.

(** An element, or what an erased one leaves for comparisons. *)
Inductive Entry := Live (t : T) | Erased (k : K).

Definition isErased (e : Entry) : bool := match e with Erased _ => true | Live _ => false end.

Record Deque := MkDeque { mDeque : list Entry; nErased : nat }.

(** The elements, and the invariant. *)
Definition live (d : Deque) : list T := omap (fun e => match e with Live t => Some t | Erased _ => None end) (mDeque d).
Definition counted (d : Deque) : Prop := nErased d = length (filter (fun e => isErased e = true) (mDeque d)).

Definition empty : Deque := MkDeque [] 0.

Definition erase (i : nat) (k : T -> K) (d : Deque) : Deque :=
  MkDeque (alter (fun e => match e with Live t => Erased (k t) | Erased k => Erased k end) i (mDeque d)) (S (nErased d)).

(** The two loops of [applyErase] over the front and the back. *)
Fixpoint pop_front (l : list Entry) (n : nat) : list Entry * nat :=
  match l, n with
  | Erased _ :: l', S n' => pop_front l' n'
  | _, _ => (l, n)
  end.
Definition pop_back (l : list Entry) (n : nat) : list Entry * nat :=
  let '(l, n) := pop_front (reverse l) n in (reverse l, n).

Definition applyErase (d : Deque) : Deque :=
  if (nErased d =? 0)%nat then d
  else
    let '(l, n) := pop_front (mDeque d) (nErased d) in
    let '(l, n) := pop_back l n in
    if (n =? 0)%nat then MkDeque l n else MkDeque (filter (fun e => isErased e = false) l) 0.

Definition size (d : Deque) : nat := length (mDeque (applyErase d)).
Definition push_front (t : T) (d : Deque) : Deque :=
  let d := applyErase d in MkDeque (Live t :: mDeque d) (nErased d).
Definition push_back (t : T) (d : Deque) : Deque :=
  let d := applyErase d in MkDeque (mDeque d ++ [Live t]) (nErased d).
Definition insert (i : nat) (t : T) (d : Deque) : Deque :=
  let d := applyErase d in MkDeque (take i (mDeque d) ++ Live t :: drop i (mDeque d)) (nErased d).

(** *** Lemmas *)

Definition lives (l : list T) : Deque := MkDeque (Live <$> l) 0.

Definition only (l : list Entry) : list T := omap (fun e => match e with Live t => Some t | Erased _ => None end) l.
Definition erased (l : list Entry) : nat := length (filter (fun e => isErased e = true) l).

Lemma only_app l1 l2 : only (l1 ++ l2) = only l1 ++ only l2.
Proof using Type. apply omap_app. Qed.

Lemma erased_app l1 l2 : erased (l1 ++ l2) = (erased l1 + erased l2)%nat.
Proof using Type. unfold erased. by rewrite filter_app, length_app. Qed.

Lemma erased_zero l : erased l = 0%nat -> l = Live <$> only l.
Proof using Type.
  induction l as [|[t|k] l IH]; intros Hl; [done| |].
  - cbn. f_equal. by apply IH.
  - unfold erased in Hl. by rewrite filter_cons_True in Hl.
Qed.

Lemma erased_live l : erased (Live <$> l) = 0%nat.
Proof using Type. induction l as [|t l IH]; [done|]. unfold erased in *. cbn [fmap list_fmap]. by rewrite filter_cons_False. Qed.

Lemma only_live l : only (Live <$> l) = l.
Proof using Type. induction l as [|t l IH]; [done|]. cbn. f_equal. exact IH. Qed.

Lemma only_reverse l : only (reverse l) = reverse (only l).
Proof using Type.
  induction l as [|e l IH]; [done|]. rewrite reverse_cons, only_app, IH. destruct e as [t|k].
  - change (only (Live t :: l)) with (t :: only l). by rewrite reverse_cons.
  - apply app_nil_r.
Qed.

Lemma erased_reverse l : erased (reverse l) = erased l.
Proof using Type.
  induction l as [|e l IH]; [done|]. rewrite reverse_cons, erased_app, IH.
  change (e :: l) with ([e] ++ l). rewrite erased_app. lia.
Qed.

Lemma pop_front_spec l n : n = erased l ->
  let '(l', n') := pop_front l n in only l' = only l /\ n' = erased l'.
Proof using Type.
  revert n. induction l as [|[t|k] l IH]; intros n Hn; [by destruct n|by destruct n|].
  unfold erased in Hn. rewrite filter_cons_True in Hn by done. cbn [length] in Hn. destruct n as [|n]; [done|].
  injection Hn as Hn. cbn [pop_front]. specialize (IH n Hn). destruct (pop_front l n) as [l' n']. done.
Qed.

Lemma only_filter l : only (filter (fun e => isErased e = false) l) = only l /\ erased (filter (fun e => isErased e = false) l) = 0%nat.
Proof using Type.
  unfold erased. induction l as [|[t|k] l [IH1 IH2] ]; [done| |].
  - rewrite filter_cons_True by done. split; [cbn; f_equal; exact IH1|]. by rewrite filter_cons_False.
  - rewrite filter_cons_False by done. split; [exact IH1|exact IH2].
Qed.

(** After the erasures are applied the deque is the list of its elements. *)
Lemma applyErase_live d : counted d -> applyErase d = lives (live d).
Proof using Type.
  unfold counted. change (length (filter _ (mDeque d))) with (erased (mDeque d)). change (live d) with (only (mDeque d)).
  destruct d as [l n]. cbn [mDeque nErased]. intros Hn. unfold applyErase. cbn [mDeque nErased].
  destruct (Nat.eqb_spec n 0) as [->|_].
  - unfold lives. rewrite <- erased_zero by done. done.
  - pose proof (pop_front_spec l n Hn) as H1. destruct (pop_front l n) as [l1 n1]. destruct H1 as [E1 ->].
    unfold pop_back. pose proof (pop_front_spec (reverse l1) (erased l1) ltac:(by rewrite erased_reverse)) as H2.
    destruct (pop_front (reverse l1) (erased l1)) as [l2 n2]. destruct H2 as [E2 ->].
    assert (only (reverse l2) = only l) as E3 by (by rewrite only_reverse, E2, only_reverse, reverse_involutive).
    destruct (Nat.eqb_spec (erased l2) 0) as [Hz|_].
    + rewrite Hz. unfold lives. rewrite <- E3, <- erased_zero; [done|]. by rewrite erased_reverse.
    + destruct (only_filter (reverse l2)) as [E4 E5]. unfold lives. rewrite <- E3, <- E4, <- erased_zero by done. done.
Qed.

Lemma live_lives l : live (lives l) = l.
Proof using Type. apply only_live. Qed.

Lemma counted_lives l : counted (lives l).
Proof using Type. unfold counted, lives. cbn [nErased mDeque]. symmetry. apply erased_live. Qed.

Lemma erase_live i k t d : mDeque d !! i = Some (Live t) -> counted d ->
  counted (erase i k d)
  /\ exists l1 l2, live d = l1 ++ t :: l2 /\ live (erase i k d) = l1 ++ l2 /\ only (take i (mDeque d)) = l1.
Proof using Type.
  intros Hi Hc. destruct d as [l n]. unfold counted, erase, live in *. cbn [mDeque nErased] in *.
  change (n = erased l) in Hc. apply list_elem_of_split_length in Hi as (l1 & l2 & -> & ->).
  assert (alter (fun e => match e with Live t => Erased (k t) | Erased k => Erased k end) (length l1) (l1 ++ Live t :: l2)
    = l1 ++ Erased (k t) :: l2) as ->.
  { by rewrite alter_app_r_alt, Nat.sub_diag by lia. }
  split.
  - change (S n = erased (l1 ++ Erased (k t) :: l2)). rewrite erased_app in Hc |- *.
    unfold erased in *. rewrite filter_cons_False in Hc by done. rewrite (filter_cons_True _ (Erased (k t))) by done. cbn [length]. lia.
  - exists (only l1), (only l2). split_and!; [by rewrite omap_app|by rewrite omap_app|]. by rewrite take_app_length.
Qed.

End deque.

Arguments Entry : clear implicits.
Arguments Deque : clear implicits.
End LazyDeque.

(** ** The list of transfers *)

Inductive direction_t := GET | PUT.
Inductive transferstate_t :=
  | TRANSFERSTATE_NONE | TRANSFERSTATE_QUEUED | TRANSFERSTATE_ACTIVE | TRANSFERSTATE_PAUSED
  | TRANSFERSTATE_RETRYING | TRANSFERSTATE_COMPLETING | TRANSFERSTATE_COMPLETED
  | TRANSFERSTATE_CANCELLED | TRANSFERSTATE_FAILED.

#[export] Instance direction_eq_dec : EqDecision direction_t.
Proof. solve_decision. Defined.
#[export] Instance transferstate_eq_dec : EqDecision transferstate_t.
Proof. solve_decision. Defined.

(** The members of a [Transfer] the list works with: [slot] tells whether it has
    one, [armed] whether its backoff timer [bt] is armed. *)
Record Transfer := MkTransfer {
  type : direction_t;
  priority : Z;
  state : transferstate_t;
  slot : bool;
  armed : bool
}.

Definition set_priority (v : Z) (t : Transfer) : Transfer := MkTransfer (type t) v (state t) (slot t) (armed t).
Definition set_state (v : transferstate_t) (t : Transfer) : Transfer := MkTransfer (type t) (priority t) v (slot t) (armed t).
Definition set_slot (v : bool) (t : Transfer) : Transfer := MkTransfer (type t) (priority t) (state t) v (armed t).
Definition set_armed (v : bool) (t : Transfer) : Transfer := MkTransfer (type t) (priority t) (state t) (slot t) v.

(** Writing a transfer to the cache, and telling the application. *)
Inductive Notice := CacheAdd (id : positive) | Update (id : positive).

Abbreviation transfer_list := (LazyDeque.Deque positive Z).

Record TransferList := MkTransferList {
  objects : gmap positive Transfer;
  gets : transfer_list;
  puts : transfer_list;
  currentpriority : Z;
  tslots : list positive;
  storage_red : bool;
  notices : list Notice
}.

Module TransferListOps.

Definition PRIORITY_START : Z := 140737488355328.
Definition PRIORITY_STEP : Z := 65536.

Definition set_objects v s := MkTransferList v (gets s) (puts s) (currentpriority s) (tslots s) (storage_red s) (notices s).
Definition set_currentpriority v s := MkTransferList (objects s) (gets s) (puts s) v (tslots s) (storage_red s) (notices s).
Definition set_tslots v s := MkTransferList (objects s) (gets s) (puts s) (currentpriority s) v (storage_red s) (notices s).
Definition notify v s := MkTransferList (objects s) (gets s) (puts s) (currentpriority s) (tslots s) (storage_red s) (notices s ++ v).

Definition transfers (d : direction_t) (s : TransferList) : transfer_list := match d with GET => gets s | PUT => puts s end.
Definition set_transfers (d : direction_t) (v : transfer_list) (s : TransferList) : TransferList :=
  match d with
  | GET => MkTransferList (objects s) v (puts s) (currentpriority s) (tslots s) (storage_red s) (notices s)
  | PUT => MkTransferList (objects s) (gets s) v (currentpriority s) (tslots s) (storage_red s) (notices s)
  end.

Definition no_transfer : Transfer := MkTransfer GET 0 TRANSFERSTATE_NONE false false.
Definition object (s : TransferList) (id : positive) : Transfer := default no_transfer (objects s !! id).
Definition prio (s : TransferList) (id : positive) : Z := priority (object s id).
Definition change (id : positive) (f : Transfer -> Transfer) (s : TransferList) : TransferList :=
  set_objects (alter f id (objects s)) s.

(** The constructor. *)
Definition new_TransferList : TransferList :=
  MkTransferList ∅ LazyDeque.empty LazyDeque.empty PRIORITY_START [] false [].

(** [applyErase] of a list, which every access but one makes. *)
Definition applied (d : direction_t) (s : TransferList) : TransferList :=
  set_transfers d (LazyDeque.applyErase (transfers d s)) s.

(** What [priority_comparator] compares. *)
Definition entry_key (s : TransferList) (e : LazyDeque.Entry positive Z) : Z :=
  match e with LazyDeque.Live id => prio s id | LazyDeque.Erased k => k end.

(** [std::lower_bound]: the first element that is not below. *)
Fixpoint lower_bound (keys : list Z) (v : Z) : nat :=
  match keys with
  | [] => 0
  | k :: keys => if k <? v then S (lower_bound keys v) else 0
  end.

Definition lower_bound_of (id : positive) (s : TransferList) : nat :=
  lower_bound (entry_key s <$> LazyDeque.mDeque (transfers (type (object s id)) s)) (prio s id).

(** [getIterator]: the index of the transfer, if it is found. *)
Definition getIterator (id : positive) (canHandleErasedElements : bool) (s : TransferList) : option nat * TransferList :=
  let s := if canHandleErasedElements then s else applied (type (object s id)) s in
  let i := lower_bound_of id s in
  match LazyDeque.mDeque (transfers (type (object s id)) s) !! i with
  | Some (LazyDeque.Live id') => (if bool_decide (id' = id) then Some i else None, s)
  | _ => (None, s)
  end.

Definition isReady (t : Transfer) : bool :=
  (bool_decide (state t = TRANSFERSTATE_QUEUED) || bool_decide (state t = TRANSFERSTATE_RETRYING)) && armed t.

(** The timer is armed unless the storage is full, and the slot deleted. *)
Definition arm_unless_full (t : Transfer) (s : TransferList) : Transfer :=
  if negb (storage_red s) || bool_decide (type t = GET) then set_armed true t else t.
Definition delete_slot (id : positive) (s : TransferList) : TransferList :=
  set_tslots (filter (fun i => i <> id) (tslots s)) (change id (set_slot false) s).
Definition yield_slot (id : positive) (s : TransferList) : TransferList :=
  let s := change id (fun t => arm_unless_full t s) s in change id (set_state TRANSFERSTATE_QUEUED) (delete_slot id s).

(** The active transfer with the highest priority value above the given one. *)
Definition last_active (id : positive) (s : TransferList) : option positive :=
  foldl (fun best i =>
      let t := object s i in
      if bool_decide (type t = type (object s id)) && slot t && bool_decide (state t = TRANSFERSTATE_ACTIVE)
         && (prio s id <? priority t)
         && match best with None => true | Some b => prio s b <? priority t end
      then Some i else best) None (tslots s).

(** [prepareIncreasePriority], where the destination is not the end. *)
Definition prepareIncreasePriority (id : positive) (s : TransferList) : TransferList :=
  if negb (slot (object s id)) && negb (bool_decide (state (object s id) = TRANSFERSTATE_PAUSED)) then
    match last_active id s with
    | None => s
    | Some i => notify [CacheAdd i; Update i] (yield_slot i s)
    end
  else s.

(** The loop of [prepareDecreasePriority] over the transfers from [cit]. *)
Fixpoint decrease_loop (id : positive) (l : list positive) (cit dst : nat) (s : TransferList) : TransferList :=
  match l with
  | [] => s
  | i :: l =>
      if negb (slot (object s i)) && isReady (object s i) then yield_slot id s
      else if (cit =? dst)%nat then s else decrease_loop id l (S cit) dst s
  end.

Definition elements (d : direction_t) (s : TransferList) : list positive := LazyDeque.live (transfers d s).

Definition prepareDecreasePriority (id : positive) (it dst : nat) (s : TransferList) : TransferList :=
  if slot (object s id) && bool_decide (state (object s id) = TRANSFERSTATE_ACTIVE)
  then decrease_loop id (drop (S it) (elements (type (object s id)) s)) (S it) dst s else s.

(** [addtransfer] *)
Definition addtransfer (id : positive) (startFirst : bool) (s : TransferList) : TransferList :=
  let s := if bool_decide (state (object s id) = TRANSFERSTATE_PAUSED) then s
           else change id (set_state TRANSFERSTATE_QUEUED) s in
  let d := type (object s id) in
  if prio s id =? 0 then
    let s := applied d s in
    let s :=
      match elements d s with
      | first :: _ =>
          if startFirst then
            let s := change id (set_priority (u64 (prio s first - PRIORITY_STEP))) s in
            let s := prepareIncreasePriority id s in
            set_transfers d (LazyDeque.push_front id (transfers d s)) s
          else
            let s := set_currentpriority (u64 (currentpriority s + PRIORITY_STEP)) s in
            let s := change id (set_priority (currentpriority s)) s in
            set_transfers d (LazyDeque.push_back id (transfers d s)) s
      | [] =>
          let s := set_currentpriority (u64 (currentpriority s + PRIORITY_STEP)) s in
          let s := change id (set_priority (currentpriority s)) s in
          set_transfers d (LazyDeque.push_back id (transfers d s)) s
      end in
    notify [CacheAdd id] s
  else
    let s := applied d s in
    set_transfers d (LazyDeque.insert (lower_bound_of id s) id (transfers d s)) s.

(** [removetransfer] *)
Definition removetransfer (id : positive) (s : TransferList) : TransferList :=
  match getIterator id true s with
  | (Some i, s) =>
      let d := type (object s id) in set_transfers d (LazyDeque.erase i (prio s) (transfers d s)) s
  | (None, s) => s
  end.

(** The transfers in front get new priorities, steps apart. *)
Fixpoint fix_priorities (l : list positive) (fixedPriority : Z) (s : TransferList) : Z * TransferList :=
  match l with
  | [] => (fixedPriority, s)
  | i :: l =>
      fix_priorities l (u64 (fixedPriority + PRIORITY_STEP))
        (notify [CacheAdd i; Update i] (change i (set_priority fixedPriority) s))
  end.

(** The priority of a transfer that is put in front of [next] at [dst]: halfway
    from its predecessor, or where there is no room behind new priorities. *)
Definition new_priority (d : direction_t) (dst : nat) (next : positive) (s : TransferList) : Z * TransferList :=
  let nextpriority := prio s next in
  let prevpriority :=
    match dst with
    | O => u64 (nextpriority - 2 * PRIORITY_STEP)
    | S p => default 0 (prio s <$> elements d s !! p)
    end in
  let newpriority := u64 (prevpriority + nextpriority) / 2 in
  if prevpriority =? newpriority then
    fix_priorities (take dst (elements d s))
      (u64 (default 0 (prio s <$> head (elements d s)) - PRIORITY_STEP * (Z.of_nat dst + 1))) s
  else (newpriority, s).

(** [movetransfer] between two positions of the list. *)
Definition move_at (d : direction_t) (it dst : nat) (s : TransferList) : TransferList :=
  if (it =? dst)%nat || (it + 1 =? dst)%nat then s
  else
    let s := applied d s in
    match elements d s !! it with
    | None => s
    | Some id =>
        match elements d s !! dst with
        | None =>
            let s := prepareDecreasePriority id it dst s in
            let s := set_transfers d (LazyDeque.erase it (prio s) (transfers d s)) s in
            let s := set_currentpriority (u64 (currentpriority s + PRIORITY_STEP)) s in
            let s := change id (set_priority (currentpriority s)) s in
            notify [CacheAdd id; Update id] (set_transfers d (LazyDeque.push_back id (transfers d s)) s)
        | Some next =>
            let '(newpriority, s) := new_priority d dst next s in
            let s := change id (set_priority newpriority) s in
            let '(dstindex, s) :=
              if (dst <? it)%nat then (dst, prepareIncreasePriority id s)
              else ((dst - 1)%nat, prepareDecreasePriority id it dst s) in
            let s := set_transfers d (LazyDeque.erase it (prio s) (transfers d s)) s in
            notify [CacheAdd id; Update id] (set_transfers d (LazyDeque.insert dstindex id (transfers d s)) s)
        end
    end.

(** The other ways to name the positions. *)
Definition movetransfer_to (id : positive) (dst : nat) (s : TransferList) : TransferList :=
  match getIterator id false s with
  | (Some it, s) => move_at (type (object s id)) it dst s
  | (None, s) => s
  end.
Definition movetransfer_before (id prev : positive) (s : TransferList) : TransferList :=
  match getIterator prev false s with
  | (Some dst, s) => movetransfer_to id dst s
  | (None, s) => s
  end.
Definition movetransfer (id : positive) (position : nat) (s : TransferList) : TransferList :=
  let s := applied (type (object s id)) s in
  movetransfer_to id (Nat.min position (length (elements (type (object s id)) s))) s.
Definition movetofirst (id : positive) (s : TransferList) : TransferList :=
  movetransfer_to id 0 (applied (type (object s id)) s).
Definition movetolast (id : positive) (s : TransferList) : TransferList :=
  let s := applied (type (object s id)) s in movetransfer_to id (length (elements (type (object s id)) s)) s.

Definition moveup (id : positive) (s : TransferList) : TransferList :=
  match getIterator id false s with
  | (Some it, s) => if (it =? 0)%nat then s else move_at (type (object s id)) it (it - 1) s
  | (None, s) => s
  end.
Definition movedown (id : positive) (s : TransferList) : TransferList :=
  match getIterator id false s with
  | (Some it, s) =>
      if (it + 1 =? length (elements (type (object s id)) s))%nat then s
      else move_at (type (object s id)) it (it + 2) s
  | (None, s) => s
  end.

(** The same of an iterator. *)
Definition movetofirst_iterator (d : direction_t) (it : nat) (s : TransferList) : TransferList :=
  move_at d it 0 (applied d s).
Definition movetolast_iterator (d : direction_t) (it : nat) (s : TransferList) : TransferList :=
  let s := applied d s in move_at d it (length (elements d s)) s.
Definition moveup_iterator (d : direction_t) (it : nat) (s : TransferList) : TransferList :=
  let s := applied d s in
  if (it =? 0)%nat then s else move_at d it (it - 1) s.
Definition movedown_iterator (d : direction_t) (it : nat) (s : TransferList) : TransferList :=
  let s := applied d s in
  if (it =? length (elements d s))%nat then s else move_at d it (it + 1) s.

(** [pause]: the error code. *)
Definition pause (id : positive) (enable : bool) (s : TransferList) : Z * TransferList :=
  let t := object s id in
  let paused := bool_decide (state t = TRANSFERSTATE_PAUSED) in
  if eqb enable paused then (0, s)
  else if negb enable then
    let s := change id (set_state TRANSFERSTATE_QUEUED) s in
    let s :=
      match getIterator id false s with
      | (Some _, s) => prepareIncreasePriority id s
      | (None, s) => s
      end in
    (0, notify [CacheAdd id; Update id] s)
  else if bool_decide (state t = TRANSFERSTATE_ACTIVE) || bool_decide (state t = TRANSFERSTATE_QUEUED)
          || bool_decide (state t = TRANSFERSTATE_RETRYING) then
    let s := if slot t then let s := change id (fun t => arm_unless_full t s) s in delete_slot id s else s in
    (0, notify [CacheAdd id; Update id] (change id (set_state TRANSFERSTATE_PAUSED) s))
  else (-5, s).

Definition transferat (d : direction_t) (position : nat) (s : TransferList) : option positive * TransferList :=
  let s := applied d s in (elements d s !! position, s).

End TransferListOps.

(** ** Lemmas *)

Module TransferFacts.
Import TransferListOps.

Definition sorted (f : positive -> Z) (l : list positive) : Prop := StronglySorted Z.lt (f <$> l).

Lemma sorted_app f l1 l2 : sorted f (l1 ++ l2) <->
  sorted f l1 /\ sorted f l2 /\ (forall x y, x ∈ l1 -> y ∈ l2 -> f x < f y).
Proof.
  unfold sorted. rewrite fmap_app, StronglySorted_app. split.
  - intros (H1 & H2 & H3). split_and!; try done. intros x y Hx Hy. apply H1; by apply list_elem_of_fmap_2.
  - intros (H1 & H2 & H3). split_and!; try done. intros x y (a & -> & Ha)%list_elem_of_fmap (b & -> & Hb)%list_elem_of_fmap. by apply H3.
Qed.

Lemma sorted_cons f x l : sorted f (x :: l) <-> sorted f l /\ (forall y, y ∈ l -> f x < f y).
Proof.
  unfold sorted. cbn [fmap list_fmap]. rewrite StronglySorted_cons, Forall_fmap, Forall_forall. naive_solver.
Qed.

Lemma sorted_ext f g l : (forall x, x ∈ l -> f x = g x) -> sorted f l -> sorted g l.
Proof.
  intros Hfg. unfold sorted. by rewrite (list_fmap_ext f g l (fun i x Hx => Hfg x (list_elem_of_lookup_2 _ _ _ Hx))).
Qed.

Lemma sorted_nodup f l : sorted f l -> NoDup l.
Proof.
  induction l as [|x l IH]; intros Hs; [constructor|]. apply sorted_cons in Hs as [Hs Hx]. constructor; [|by apply IH].
  intros Hin. specialize (Hx _ Hin). lia.
Qed.

(** Every element but [x]. *)
Definition without (x : positive) (l : list positive) : list positive := filter (fun y => y <> x) l.

Lemma without_in x y l : y ∈ without x l <-> y <> x /\ y ∈ l.
Proof. unfold without. by rewrite list_elem_of_filter. Qed.

Lemma without_none x l : x ∉ l -> without x l = l.
Proof.
  intros Hx. induction l as [|y l IH]; [done|]. unfold without in *. rewrite filter_cons_True by set_solver.
  f_equal. apply IH. set_solver.
Qed.

Lemma without_app x l1 l2 : without x (l1 ++ l2) = without x l1 ++ without x l2.
Proof. apply filter_app. Qed.

Lemma without_delete x it l : NoDup l -> l !! it = Some x -> without x l = delete it l.
Proof.
  intros Hn Hx. apply list_elem_of_split_length in Hx as (l1 & l2 & -> & ->).
  rewrite delete_middle, without_app. apply NoDup_app in Hn as (H1 & H2 & H3). apply NoDup_cons in H3 as [H3 _].
  f_equal; [apply without_none; set_solver|]. unfold without. rewrite filter_cons_False by auto. by apply without_none.
Qed.

Lemma sorted_without f x l : sorted f l -> sorted f (without x l).
Proof.
  induction l as [|y l IH]; intros Hs; [done|]. apply sorted_cons in Hs as [Hs Hy]. unfold without.
  destruct (decide (y = x)) as [->|Hne]; [rewrite filter_cons_False by auto; by apply IH|].
  rewrite filter_cons_True by done. apply sorted_cons. split; [by apply IH|]. intros z Hz. apply Hy. by apply without_in in Hz as [_ Hz].
Qed.

(** An element is put between those with lower and those with higher keys. *)
Lemma sorted_insert f x l1 l2 : sorted f l1 -> sorted f l2 -> (forall y, y ∈ l1 -> f y < f x) -> (forall y, y ∈ l2 -> f x < f y) ->
  sorted f (l1 ++ x :: l2).
Proof.
  intros H1 H2 Hl Hr. apply sorted_app. split_and!; [done|by apply sorted_cons|].
  intros y z Hy [->|Hz]%elem_of_cons; [by apply Hl|]. specialize (Hl _ Hy). specialize (Hr _ Hz). lia.
Qed.

(** *** The deques *)

Lemma live_erase (it : nat) k (l : list positive) x : l !! it = Some x ->
  LazyDeque.counted (LazyDeque.erase it k (LazyDeque.lives l : transfer_list))
  /\ LazyDeque.live (LazyDeque.erase it k (LazyDeque.lives l : transfer_list)) = delete it l.
Proof.
  intros Hx. destruct (LazyDeque.erase_live it k x (LazyDeque.lives l : transfer_list)) as (Hc & l1 & l2 & E & -> & Ht).
  { cbn. by rewrite list_lookup_fmap, Hx. }
  { apply LazyDeque.counted_lives. }
  split; [done|]. rewrite LazyDeque.live_lives in E. subst l.
  cbn [LazyDeque.mDeque LazyDeque.lives] in Ht. rewrite <- fmap_take, LazyDeque.only_live in Ht.
  assert (length l1 = it) as <-.
  { rewrite <- Ht, length_take. apply lookup_lt_Some in Hx. lia. }
  by rewrite delete_middle.
Qed.

Lemma live_insert (j : nat) x (d : transfer_list) : LazyDeque.counted d ->
  LazyDeque.insert j x d = LazyDeque.lives (take j (LazyDeque.live d) ++ x :: drop j (LazyDeque.live d)).
Proof.
  intros Hc. unfold LazyDeque.insert. rewrite LazyDeque.applyErase_live by done. unfold LazyDeque.lives.
  cbn [LazyDeque.mDeque LazyDeque.nErased]. by rewrite fmap_app, fmap_cons, fmap_take, fmap_drop.
Qed.

Lemma live_push_back x (d : transfer_list) : LazyDeque.counted d ->
  LazyDeque.push_back x d = LazyDeque.lives (LazyDeque.live d ++ [x]).
Proof.
  intros Hc. unfold LazyDeque.push_back. rewrite LazyDeque.applyErase_live by done. unfold LazyDeque.lives. by rewrite fmap_app.
Qed.

Lemma live_push_front x (d : transfer_list) : LazyDeque.counted d ->
  LazyDeque.push_front x d = LazyDeque.lives (x :: LazyDeque.live d).
Proof. intros Hc. unfold LazyDeque.push_front. by rewrite LazyDeque.applyErase_live. Qed.

(** *** The state *)

Record wf (s : TransferList) : Prop := {
  wf_counted d : LazyDeque.counted (transfers d s);
  wf_known d id : id ∈ elements d s -> is_Some (objects s !! id) /\ type (object s id) = d;
  wf_keys d : StronglySorted Z.lt (entry_key s <$> LazyDeque.mDeque (transfers d s));
  wf_current d id : id ∈ elements d s -> prio s id <= currentpriority s
}.

Lemma keys_sorted s (l : list (LazyDeque.Entry positive Z)) :
  StronglySorted Z.lt (entry_key s <$> l) -> sorted (prio s) (LazyDeque.only l).
Proof.
  induction l as [|[x|k] l IH]; intros Hs; [constructor| |].
  - cbn [fmap list_fmap] in Hs. apply StronglySorted_cons in Hs as [Hx Hs].
    change (LazyDeque.only (LazyDeque.Live x :: l)) with (x :: LazyDeque.only l). apply sorted_cons. split; [by apply IH|].
    intros y Hy. rewrite Forall_fmap, Forall_forall in Hx. apply list_elem_of_omap in Hy as (e & He & Hy).
    destruct e as [y'|]; [|done]. injection Hy as ->. exact (Hx _ He).
  - cbn [fmap list_fmap] in Hs. apply StronglySorted_cons in Hs as [_ Hs]. by apply IH.
Qed.

Lemma wf_sorted s d : wf s -> sorted (prio s) (elements d s).
Proof. intros Hs. apply (keys_sorted s (LazyDeque.mDeque (transfers d s))), wf_keys, Hs. Qed.

Lemma keys_lives s l : sorted (prio s) l -> StronglySorted Z.lt (entry_key s <$> LazyDeque.mDeque (LazyDeque.lives l : transfer_list)).
Proof. unfold sorted. intros Hs. cbn. by rewrite <- list_fmap_compose. Qed.

Lemma transfers_set d d' v s : transfers d (set_transfers d' v s) = if decide (d = d') then v else transfers d s.
Proof. by destruct d, d'. Qed.

Lemma object_set d v s id : object (set_transfers d v s) id = object s id.
Proof. by destruct d. Qed.

(** Nothing about the order has changed. *)
Record same_order (s s' : TransferList) : Prop := {
  so_prio id : prio s' id = prio s id;
  so_type id : type (object s' id) = type (object s id);
  so_known id : is_Some (objects s' !! id) <-> is_Some (objects s !! id);
  so_transfers d : transfers d s' = transfers d s;
  so_current : currentpriority s' = currentpriority s
}.

Lemma same_refl s : same_order s s.
Proof. done. Qed.
Lemma same_trans s1 s2 s3 : same_order s1 s2 -> same_order s2 s3 -> same_order s1 s3.
Proof. intros [A1 A2 A3 A4 A5] [B1 B2 B3 B4 B5]. split; intros; by rewrite ?B1, ?B2, ?B3, ?B4, ?B5. Qed.

Lemma object_change id f s i :
  object (change id f s) i = if decide (i = id) then default no_transfer (f <$> objects s !! id) else object s i.
Proof.
  unfold object, change, set_objects. cbn [objects]. destruct (decide (i = id)) as [->|Hne].
  - by rewrite lookup_alter_eq.
  - by rewrite lookup_alter_ne.
Qed.

Lemma known_change id f s i : is_Some (objects (change id f s) !! i) <-> is_Some (objects s !! i).
Proof.
  unfold change, set_objects. cbn [objects]. destruct (decide (i = id)) as [->|Hne].
  - rewrite lookup_alter_eq. by rewrite fmap_is_Some.
  - by rewrite lookup_alter_ne.
Qed.

Lemma change_same id f s : (forall t, priority (f t) = priority t /\ type (f t) = type t) -> same_order s (change id f s).
Proof.
  intros Hf. split; try done.
  - intros i. unfold prio. rewrite object_change. destruct (decide (i = id)) as [->|]; [|done].
    unfold object. destruct (objects s !! id) as [t|]; [|done]. apply Hf.
  - intros i. rewrite object_change. destruct (decide (i = id)) as [->|]; [|done].
    unfold object. destruct (objects s !! id) as [t|]; [|done]. apply Hf.
  - intros i. apply known_change.
Qed.

Lemma set_tslots_same v s : same_order s (set_tslots v s).
Proof. split; done. Qed.

Lemma yield_same id s : same_order s (yield_slot id s).
Proof.
  unfold yield_slot, delete_slot. eapply same_trans; [|apply change_same; done].
  eapply same_trans; [|apply set_tslots_same].
  eapply same_trans; [|apply change_same; done].
  apply change_same. intros t. unfold arm_unless_full. by destruct (_ || _).
Qed.

Lemma notify_same v s : same_order s (notify v s).
Proof. split; done. Qed.

Lemma increase_same id s : same_order s (prepareIncreasePriority id s).
Proof.
  unfold prepareIncreasePriority. destruct (_ && _); [|apply same_refl]. destruct (last_active id s) as [i|]; [|apply same_refl].
  eapply same_trans; [apply (yield_same i)|apply notify_same].
Qed.

Lemma decrease_same id it dst s : same_order s (prepareDecreasePriority id it dst s).
Proof.
  unfold prepareDecreasePriority. destruct (_ && _); [|apply same_refl].
  generalize (drop (S it) (elements (type (object s id)) s)) as l. intros l. generalize (S it) as cit.
  induction l as [|i l IH]; intros cit; cbn [decrease_loop]; [apply same_refl|].
  destruct (_ && _); [apply yield_same|]. destruct (_ =? _)%nat; [apply same_refl|apply IH].
Qed.

(** The state is fine again if one list is replaced by a sorted one. *)
Lemma wf_replace d l s s' :
  wf s -> transfers d s' = LazyDeque.lives l ->
  (forall d', d' <> d -> transfers d' s' = transfers d' s) ->
  sorted (prio s') l ->
  (forall i, i ∈ l -> is_Some (objects s' !! i) /\ type (object s' i) = d /\ prio s' i <= currentpriority s') ->
  (forall d' i, d' <> d -> i ∈ elements d' s -> is_Some (objects s' !! i) /\ type (object s' i) = d' /\ prio s' i = prio s i) ->
  currentpriority s <= currentpriority s' ->
  wf s' /\ elements d s' = l.
Proof.
  intros Hs Hd Ho Hso Hl Hk Hc.
  assert (elements d s' = l) as El by (unfold elements; rewrite Hd; apply LazyDeque.live_lives).
  assert (forall d', d' <> d -> elements d' s' = elements d' s) as Eo by (intros d' Hd'; unfold elements; by rewrite Ho).
  split; [|done]. split; intros d'; destruct (decide (d' = d)) as [->|Hne].
  - rewrite Hd. apply LazyDeque.counted_lives.
  - rewrite Ho by done. by apply wf_counted.
  - rewrite El. intros i Hi. destruct (Hl i Hi) as (H1 & H2 & _). done.
  - intros i Hi. rewrite Eo in Hi by done. by destruct (Hk d' i Hne Hi) as (H1 & H2 & _).
  - rewrite Hd. by apply keys_lives.
  - rewrite Ho by done.
    rewrite (list_fmap_ext (entry_key s') (entry_key s)); [by apply wf_keys|].
    intros n [i|k] He; [|done]. cbn. apply (Hk d' i); [done|]. unfold elements, LazyDeque.live. apply list_elem_of_omap.
    exists (LazyDeque.Live i). split; [by eapply list_elem_of_lookup_2|done].
  - rewrite El. intros i Hi. by destruct (Hl i Hi) as (_ & _ & H3).
  - intros i Hi. rewrite Eo in Hi by done. destruct (Hk d' i Hne Hi) as (_ & _ & ->). pose proof (wf_current s Hs d' i Hi). lia.
Qed.

Lemma applied_wf d s : wf s ->
  wf (applied d s) /\ (forall d', elements d' (applied d s) = elements d' s) /\ transfers d (applied d s) = LazyDeque.lives (elements d s).
Proof.
  intros Hs.
  assert (transfers d (applied d s) = LazyDeque.lives (elements d s)) as Et.
  { unfold applied. rewrite transfers_set, decide_True by done. rewrite LazyDeque.applyErase_live; [done|]. by apply wf_counted. }
  assert (forall d', d' <> d -> transfers d' (applied d s) = transfers d' s) as Eo.
  { intros d' Hne. unfold applied. by rewrite transfers_set, decide_False. }
  assert (forall i, object (applied d s) i = object s i) as Eobj by (intros i; apply object_set).
  assert (objects (applied d s) = objects s /\ currentpriority (applied d s) = currentpriority s) as [Eos Ec] by (unfold applied; by destruct d).
  destruct (wf_replace d (elements d s) s (applied d s) Hs Et Eo) as [Hwf El].
  - eapply sorted_ext; [|by apply wf_sorted]. intros x _. unfold prio. by rewrite Eobj.
  - intros i Hi. destruct (wf_known s Hs d i Hi). unfold prio. rewrite Eos, Ec, Eobj. split_and!; [done|done|]. by apply (wf_current s Hs d).
  - intros d' i Hne Hi. destruct (wf_known s Hs d' i Hi). unfold prio. by rewrite Eos, Eobj.
  - lia.
  - split_and!; [done| |done]. intros d'. destruct (decide (d' = d)) as [->|Hne]; [done|]. unfold elements. by rewrite Eo.
Qed.

(** *** Moving *)

(** The lists are the same, if not the priorities. *)
Record same_lists (s s' : TransferList) : Prop := {
  sl_type id : type (object s' id) = type (object s id);
  sl_known id : is_Some (objects s' !! id) <-> is_Some (objects s !! id);
  sl_transfers d : transfers d s' = transfers d s;
  sl_current : currentpriority s' = currentpriority s
}.

Lemma order_lists s s' : same_order s s' -> same_lists s s'.
Proof. by intros []. Qed.
Lemma lists_trans s1 s2 s3 : same_lists s1 s2 -> same_lists s2 s3 -> same_lists s1 s3.
Proof. intros [A2 A3 A4 A5] [B2 B3 B4 B5]. split; intros; by rewrite ?B2, ?B3, ?B4, ?B5. Qed.

Lemma set_priority_lists id v s : same_lists s (change id (set_priority v) s).
Proof.
  split; try done; [|intros i; apply known_change].
  intros i. rewrite object_change. destruct (decide (i = id)) as [->|]; [|done]. unfold object. by destruct (objects s !! id).
Qed.

Lemma set_priority_prio id v s i : is_Some (objects s !! id) ->
  prio (change id (set_priority v) s) i = if decide (i = id) then v else prio s i.
Proof.
  intros [t Ht]. unfold prio. rewrite object_change. destruct (decide (i = id)); [|done]. by rewrite Ht.
Qed.

Lemma fix_spec l : forall F s, NoDup l -> 0 <= F -> F + PRIORITY_STEP * Z.of_nat (length l) < 2 ^ 64 ->
  (forall i, i ∈ l -> is_Some (objects s !! i)) ->
  let '(F', s') := fix_priorities l F s in
  F' = F + PRIORITY_STEP * Z.of_nat (length l) /\ same_lists s s'
  /\ (forall k i, l !! k = Some i -> prio s' i = F + PRIORITY_STEP * Z.of_nat k)
  /\ (forall i, i ∉ l -> prio s' i = prio s i).
Proof.
  induction l as [|x l IH]; intros F s Hn HF Hb Hk; cbn [fix_priorities].
  - split_and!; [cbn; lia|split; done|done|done].
  - cbn [length] in Hb. unfold PRIORITY_STEP in *. apply NoDup_cons in Hn as [Hx Hn]. rewrite (wrapu_id 64) by lia.
    set (s1 := notify _ _).
    assert (same_lists s s1) as H1 by (eapply lists_trans; [apply set_priority_lists|apply order_lists, notify_same]).
    specialize (IH (F + 65536) s1 Hn ltac:(lia) ltac:(lia)).
    assert (forall i, i ∈ l -> is_Some (objects s1 !! i)) as Hk1 by (intros i Hi; apply (sl_known _ _ H1), Hk; by right).
    specialize (IH Hk1). destruct (fix_priorities l (F + 65536) s1) as [F' s']. destruct IH as (-> & H2 & H3 & H4).
    assert (forall i, prio s1 i = if decide (i = x) then F else prio s i) as Hp.
    { intros i. unfold s1, prio. change (object (notify _ ?s) i) with (object s i).
      apply (set_priority_prio x F s i). apply Hk. left. }
    split_and!; [cbn [length]; lia|by eapply lists_trans| |].
    + intros [|k] i Hi.
      * injection Hi as <-. rewrite H4, Hp, decide_True by done. lia.
      * rewrite (H3 k i Hi). lia.
    + intros i Hi. rewrite H4, Hp, decide_False by set_solver. done.
Qed.

(** There is room for one more change of all priorities. *)
Definition room (d : direction_t) (s : TransferList) : Prop :=
  (forall id, id ∈ elements d s -> PRIORITY_STEP * (Z.of_nat (length (elements d s)) + 2) <= prio s id)
  /\ currentpriority s + PRIORITY_STEP < 2 ^ 63.

Lemma sorted_lookup f l i j x y : sorted f l -> l !! i = Some x -> l !! j = Some y -> (i < j)%nat -> f x < f y.
Proof.
  intros Hs Hx Hy Hij. apply list_elem_of_split_length in Hy as (l1 & l2 & -> & ->).
  rewrite lookup_app_l in Hx by done. apply sorted_app in Hs as (_ & _ & Hs). apply Hs; [by eapply list_elem_of_lookup_2|left].
Qed.

Lemma steps_sorted F n : forall m, StronglySorted Z.lt ((fun k => F + 65536 * Z.of_nat k) <$> seq m n).
Proof.
  induction n as [|n IH]; intros m; [constructor|]. cbn [seq fmap list_fmap]. apply StronglySorted_cons.
  split; [|apply IH]. rewrite Forall_fmap, Forall_forall. intros k Hk. apply elem_of_seq in Hk. cbn. lia.
Qed.

Lemma new_priority_spec d dst next x s :
  wf s -> room d s -> elements d s !! dst = Some next -> x ∈ elements d s -> x <> next ->
  (forall p, dst = S p -> elements d s !! p <> Some x) ->
  let '(np, s1) := new_priority d dst next s in
  let s2 := change x (set_priority np) s1 in
  same_lists s s2 /\ (forall i, i ∉ elements d s -> prio s2 i = prio s i)
  /\ sorted (prio s2) (without x (take dst (elements d s)) ++ x :: without x (drop dst (elements d s)))
  /\ (forall i, i ∈ elements d s -> prio s2 i <= currentpriority s).
Proof.
  intros Hs [Hroom Hcur] Hnext Hx Hxn Hprev. set (l := elements d s) in *.
  pose proof (wf_sorted s d Hs) as Hso. fold l in Hso. pose proof (sorted_nodup _ _ Hso) as Hnd.
  assert (forall i, i ∈ l -> prio s i <= currentpriority s) as Hle by (intros i Hi; by apply (wf_current s Hs d)).
  assert (forall i, i ∈ l -> is_Some (objects s !! i)) as Hkn by (intros i Hi; by apply (wf_known s Hs d)).
  assert (take dst l ++ drop dst l = l) as Esplit by apply take_drop.
  pose proof Hso as Hso2. rewrite <- Esplit in Hso2. apply sorted_app in Hso2 as (Ht & Hd & Htd).
  assert (dst < length l)%nat as Hlt by by eapply lookup_lt_Some.
  assert (next ∈ l) as Hnl by by eapply list_elem_of_lookup_2.
  assert (forall i, i ∈ drop dst l -> prio s next <= prio s i) as Hge.
  { intros i Hi. rewrite (drop_S _ _ _ Hnext) in Hi, Hd. apply sorted_cons in Hd as [_ Hd]. apply elem_of_cons in Hi as [->|Hi]; [lia|].
    specialize (Hd _ Hi). lia. }
  pose proof (Hroom _ Hnl) as Hrn. pose proof (Hle _ Hnl) as Hln. unfold PRIORITY_STEP in *.
  unfold new_priority, PRIORITY_STEP. fold l.
  (* the case of a priority between the neighbours *)
  assert (forall np, (forall i, i ∈ take dst l -> i <> x -> prio s i < np) -> np < prio s next ->
    same_lists s (change x (set_priority np) s) /\ (forall i, i ∉ l -> prio (change x (set_priority np) s) i = prio s i)
    /\ sorted (prio (change x (set_priority np) s)) (without x (take dst l) ++ x :: without x (drop dst l))
    /\ (forall i, i ∈ l -> prio (change x (set_priority np) s) i <= currentpriority s)) as Hbetween.
  { intros np Hlow Hhigh.
    assert (forall i, prio (change x (set_priority np) s) i = if decide (i = x) then np else prio s i) as Hp
      by (intros i; by apply set_priority_prio, Hkn).
    split_and!; [apply set_priority_lists| | |].
    - intros i Hi. rewrite Hp, decide_False by set_solver. done.
    - apply sorted_insert.
      + eapply sorted_ext; [|by apply sorted_without]. intros y [Hy _]%without_in. by rewrite Hp, decide_False.
      + eapply sorted_ext; [|by apply sorted_without]. intros y [Hy _]%without_in. by rewrite Hp, decide_False.
      + intros y [Hy Hin]%without_in. rewrite !Hp, decide_False, decide_True by done. by apply Hlow.
      + intros y [Hy Hin]%without_in. rewrite !Hp, decide_True, (decide_False (P := y = x)) by done. specialize (Hge _ Hin). lia.
    - intros i Hi. rewrite Hp. destruct (decide (i = x)); [lia|by apply Hle]. }
  destruct dst as [|p].
  - rewrite (wrapu_id 64 (_ - _)) by lia. rewrite (wrapu_id 64 (_ + _)) by lia.
    rewrite (proj2 (Z.eqb_neq _ _)) by dlia. apply Hbetween; [by intros i Hi%elem_of_nil|dlia].
  - destruct (lookup_lt_is_Some_2 l p ltac:(lia)) as [prev Hpv]. rewrite Hpv. cbn [fmap option_fmap option_map default from_option].
    assert (prev ∈ l) as Hpl by by eapply list_elem_of_lookup_2.
    pose proof (sorted_lookup _ _ _ _ _ _ Hso Hpv Hnext ltac:(lia)) as Hlt2. unfold id.
    pose proof (Hroom _ Hpl) as Hrp. rewrite (wrapu_id 64 (_ + _)) by lia.
    assert (forall i, i ∈ take (S p) l -> prio s i <= prio s prev) as Hlow.
    { intros i Hi. apply list_elem_of_lookup in Hi as [k Hk]. apply lookup_take_Some in Hk as [Hk Hkp].
      destruct (decide (k = p)) as [->|Hne]; [rewrite Hpv in Hk; injection Hk as ->; lia|].
      pose proof (sorted_lookup _ _ _ _ _ _ Hso Hk Hpv ltac:(lia)). lia. }
    destruct (Z.eqb_spec (prio s prev) ((prio s prev + prio s next) / 2)) as [Heq|Hne].
    + clearbody l. destruct l as [|first l']; [done|]. cbn [head fmap option_fmap option_map default from_option]. unfold id.
      assert (first ∈ first :: l') as Hfl by left. pose proof (Hroom _ Hfl) as Hrf. pose proof (Hle _ Hfl) as Hlf.
      cbn [length] in Hrf, Hlt.
      rewrite (wrapu_id 64) by lia. set (F := prio s first - 65536 * (Z.of_nat (S p) + 1)).
      assert (length (take (S p) (first :: l')) = S p) as Hlen by (rewrite length_take; cbn [length]; lia).
      assert (NoDup (take (S p) (first :: l'))) as Hndt by (rewrite <- Esplit in Hnd; by apply NoDup_app in Hnd as (? & _)).
      pose proof (fix_spec (take (S p) (first :: l')) F s Hndt) as Hfix. rewrite Hlen in Hfix. unfold PRIORITY_STEP in Hfix.
      specialize (Hfix ltac:(unfold F; lia) ltac:(unfold F; lia)).
      assert (forall i, i ∈ take (S p) (first :: l') -> is_Some (objects s !! i)) as Hk1.
      { intros i Hi. apply Hkn. rewrite <- Esplit. apply elem_of_app. by left. }
      specialize (Hfix Hk1). destruct (fix_priorities _ F s) as [np s1]. destruct Hfix as (-> & Hsl & Hin & Hout).
      assert (forall i, prio (change x (set_priority (F + 65536 * Z.of_nat (S p))) s1) i
        = if decide (i = x) then F + 65536 * Z.of_nat (S p) else prio s1 i) as Hp2.
      { intros i. apply set_priority_prio. apply (sl_known _ _ Hsl), Hkn. done. }
      assert (forall i, i ∈ drop (S p) (first :: l') -> prio s1 i = prio s i) as Hdr.
      { intros i Hi. apply Hout. intros Hi2. specialize (Htd i i Hi2 Hi). lia. }
      split_and!.
      * eapply lists_trans; [exact Hsl|apply set_priority_lists].
      * intros i Hi. rewrite Hp2, decide_False by set_solver. apply Hout. intros Hi2. apply Hi. rewrite <- Esplit. apply elem_of_app. by left.
      * apply sorted_insert.
        -- eapply (sorted_ext (prio s1)); [intros y [Hy _]%without_in; by rewrite Hp2, decide_False|]. apply sorted_without.
           unfold sorted. replace (prio s1 <$> take (S p) (first :: l')) with ((fun k => F + 65536 * Z.of_nat k) <$> seq 0 (S p)); [apply steps_sorted|].
           apply list_eq. intros k. rewrite !list_lookup_fmap. destruct (decide (k < S p)%nat) as [Hk|Hk].
           ++ rewrite lookup_seq_lt by done. destruct (lookup_lt_is_Some_2 (take (S p) (first :: l')) k ltac:(lia)) as [i Hi].
              rewrite Hi. cbn [fmap option_fmap option_map]. by rewrite (Hin k i Hi).
           ++ rewrite !lookup_ge_None_2; [done|lia|rewrite length_seq; lia].
        -- eapply sorted_ext; [|by apply sorted_without]. intros y [Hy Hyd]%without_in. by rewrite Hp2, decide_False, Hdr.
        -- intros y [Hy Hyt]%without_in. rewrite !Hp2, decide_False, decide_True by done.
           apply list_elem_of_lookup in Hyt as [k Hk]. rewrite (Hin k y Hk). apply lookup_lt_Some in Hk. lia.
        -- intros y [Hy Hyd]%without_in. rewrite !Hp2, decide_True, (decide_False (P := y = x)), Hdr by done.
           assert (prio s first < prio s y); [|unfold F; lia]. apply Htd; [left|done].
      * intros i Hi. rewrite Hp2. destruct (decide (i = x)) as [->|]; [unfold F; lia|].
        rewrite <- Esplit in Hi. apply elem_of_app in Hi as [Hi|Hi].
        -- apply list_elem_of_lookup in Hi as [k Hk]. rewrite (Hin k i Hk). apply lookup_lt_Some in Hk. unfold F. lia.
        -- rewrite Hdr by done. apply Hle. rewrite <- Esplit. apply elem_of_app. by right.
    + apply Hbetween; [|dlia]. intros i Hi Hix.
      assert (prio s i <= prio s prev) by by apply Hlow. dlia.
Qed.

(** The list in which the element at [it] has moved in front of that at [dst]. *)
Definition moved (it dst : nat) (l : list positive) : list positive :=
  if (it =? dst)%nat || (it + 1 =? dst)%nat then l
  else
    match l !! it with
    | None => l
    | Some x =>
        let j := if (dst <? it)%nat then dst else (dst - 1)%nat in
        take j (delete it l) ++ x :: drop j (delete it l)
    end.

Lemma length_without x l : NoDup l -> length (without x l) = (length l - if bool_decide (x ∈ l) then 1 else 0)%nat.
Proof.
  induction l as [|y l IH]; intros Hn; [done|]. apply NoDup_cons in Hn as [Hy Hn]. unfold without in *.
  destruct (decide (y = x)) as [->|Hne].
  - rewrite filter_cons_False by auto. fold (without x l). rewrite without_none by done. rewrite bool_decide_eq_true_2 by left. cbn. lia.
  - rewrite filter_cons_True by done. cbn [length]. rewrite IH by done.
    assert (x ∈ y :: l <-> x ∈ l) as Hiff by set_solver. rewrite (bool_decide_ext _ _ Hiff). case_bool_decide as Hx; [|lia].
    destruct l; [by apply elem_of_nil in Hx|]. cbn [length]. lia.
Qed.

Lemma moved_split it dst x l : NoDup l -> l !! it = Some x -> (dst <= length l)%nat -> it <> dst ->
  let j := if (dst <? it)%nat then dst else (dst - 1)%nat in
  take j (delete it l) = without x (take dst l) /\ drop j (delete it l) = without x (drop dst l).
Proof.
  intros Hn Hx Hd Hne j. rewrite <- (without_delete x it l) by done.
  rewrite <- (take_drop dst l) at 1 3. rewrite without_app.
  assert (length (without x (take dst l)) = j) as <-.
  { rewrite length_without by (rewrite <- (take_drop dst l) in Hn; by apply NoDup_app in Hn as (? & _)).
    rewrite length_take. unfold j. destruct (Nat.ltb_spec dst it) as [Hlt|Hge].
    - rewrite bool_decide_eq_false_2; [lia|]. intros Hin. apply list_elem_of_lookup in Hin as [k Hk].
      apply lookup_take_Some in Hk as [Hk Hkd]. pose proof (NoDup_lookup l k it x Hn Hk Hx). lia.
    - rewrite bool_decide_eq_true_2; [lia|]. apply list_elem_of_lookup. exists it. apply lookup_take_Some. split; [done|lia]. }
  by rewrite take_app_length, drop_app_length.
Qed.

(** Erasing the moved element and inserting it again. *)
Lemma reinserted d it j x sa s v :
  wf sa -> transfers d sa = LazyDeque.lives (elements d sa) -> same_lists sa s -> elements d sa !! it = Some x ->
  let l' := take j (delete it (elements d sa)) ++ x :: drop j (delete it (elements d sa)) in
  (forall i, i ∉ elements d sa -> prio s i = prio sa i) ->
  sorted (prio s) l' ->
  (forall i, i ∈ elements d sa -> prio s i <= currentpriority sa) ->
  let s1 := set_transfers d (LazyDeque.erase it (prio s) (transfers d s)) s in
  let s2 := notify v (set_transfers d (LazyDeque.insert j x (transfers d s1)) s1) in
  wf s2 /\ elements d s2 = l' /\ forall d', d' <> d -> elements d' s2 = elements d' sa.
Proof.
  intros Hwf Ht Hsl Hx l' Hout Hso Hcur s1 s2. set (l := elements d sa) in *.
  destruct (live_erase it (prio s) l x Hx) as [Hc El].
  assert (transfers d s1 = LazyDeque.erase it (prio s) (LazyDeque.lives l)) as E1.
  { unfold s1. rewrite transfers_set, decide_True by done. by rewrite (sl_transfers _ _ Hsl), Ht. }
  assert (transfers d s2 = LazyDeque.lives l') as E2.
  { unfold s2. change (transfers d (notify v ?t)) with (transfers d t). rewrite transfers_set, decide_True by done.
    rewrite E1, live_insert by done. by rewrite El. }
  assert (forall i, object s2 i = object s i) as Eo.
  { intros i. unfold s2, s1. change (object (notify v ?t) i) with (object t i). by rewrite !object_set. }
  assert (objects s2 = objects s /\ currentpriority s2 = currentpriority s) as [Eos Ec] by (unfold s2, s1; by destruct d).
  assert (forall d', d' <> d -> transfers d' s2 = transfers d' sa) as Et.
  { intros d' Hne. unfold s2, s1. change (transfers d' (notify v ?t)) with (transfers d' t).
    rewrite !transfers_set, !decide_False by done. apply (sl_transfers _ _ Hsl). }
  assert (forall i, i ∈ l' -> i ∈ l) as Hin.
  { intros i. unfold l'. rewrite elem_of_app, elem_of_cons. intros Hi.
    assert (i = x \/ i ∈ delete it l) as [->|Hi'].
    { destruct Hi as [Hi|[Hi|Hi] ]; [right|by left|right]; rewrite <- (take_drop j (delete it l)); apply elem_of_app; auto. }
    - by eapply list_elem_of_lookup_2.
    - rewrite <- (without_delete x) in Hi'; [by apply without_in in Hi' as [_ ?]| |done]. by apply (sorted_nodup (prio sa)), wf_sorted. }
  destruct (wf_replace d l' sa s2 Hwf E2 Et) as [H1 H2].
  - eapply sorted_ext; [|exact Hso]. intros i _. unfold prio. by rewrite Eo.
  - intros i Hi. apply Hin in Hi. destruct (wf_known sa Hwf d i Hi) as [Hk Hty]. rewrite Eos, Ec, Eo. unfold prio. rewrite Eo.
    rewrite (sl_type _ _ Hsl), (sl_current _ _ Hsl). split_and!; [by apply (sl_known _ _ Hsl)|done|by apply Hcur].
  - intros d' i Hne Hi. destruct (wf_known sa Hwf d' i Hi) as [Hk Hty]. rewrite Eos, Eo. unfold prio. rewrite Eo.
    rewrite (sl_type _ _ Hsl). split_and!; [by apply (sl_known _ _ Hsl)|done|]. apply Hout. intros Hi2.
    destruct (wf_known sa Hwf d i Hi2). congruence.
  - rewrite Ec, (sl_current _ _ Hsl). lia.
  - split_and!; [done|done|]. intros d' Hne. unfold elements. by rewrite Et.
Qed.

Lemma moved_last d it x sa s v :
  wf sa -> transfers d sa = LazyDeque.lives (elements d sa) -> same_order sa s -> elements d sa !! it = Some x ->
  currentpriority sa + PRIORITY_STEP < 2 ^ 63 -> 0 <= currentpriority sa ->
  let s1 := set_transfers d (LazyDeque.erase it (prio s) (transfers d s)) s in
  let s2 := set_currentpriority (u64 (currentpriority s1 + PRIORITY_STEP)) s1 in
  let s3 := change x (set_priority (currentpriority s2)) s2 in
  let s4 := notify v (set_transfers d (LazyDeque.push_back x (transfers d s3)) s3) in
  wf s4 /\ elements d s4 = without x (elements d sa) ++ [x] /\ forall d', d' <> d -> elements d' s4 = elements d' sa.
Proof.
  intros Hwf Ht Hsl Hx Hcur Hc0 s1 s2 s3 s4. set (l := elements d sa) in *.
  pose proof (wf_sorted sa d Hwf) as Hsa. fold l in Hsa. pose proof (sorted_nodup _ _ Hsa) as Hnd.
  assert (x ∈ l) as Hxl by by eapply list_elem_of_lookup_2.
  destruct (wf_known sa Hwf d x Hxl) as [Hkx Htx].
  destruct (live_erase it (prio s) l x Hx) as [Hc El].
  assert (currentpriority s1 = currentpriority sa) as Ec1 by (unfold s1; rewrite <- (so_current _ _ Hsl); by destruct d).
  assert (currentpriority s2 = currentpriority sa + PRIORITY_STEP) as Ec2.
  { unfold s2. cbn [set_currentpriority currentpriority]. rewrite Ec1. apply wrapu_id. unfold PRIORITY_STEP in *. lia. }
  assert (forall i, object s2 i = object s i) as Eo2 by (intros i; unfold s2, s1; apply object_set).
  assert (forall i, is_Some (objects s2 !! i) <-> is_Some (objects sa !! i)) as Ek2.
  { intros i. rewrite <- (so_known _ _ Hsl). unfold s2, s1. by destruct d. }
  assert (forall i, prio s3 i = if decide (i = x) then currentpriority s2 else prio sa i) as Hp3.
  { intros i. unfold s3. rewrite set_priority_prio by (by apply Ek2). destruct (decide (i = x)); [done|].
    unfold prio. rewrite Eo2. apply (so_prio _ _ Hsl). }
  assert (forall i, object s4 i = object s3 i) as Eo4 by (intros i; unfold s4; change (object (notify v ?t) i) with (object t i); apply object_set).
  assert (transfers d s3 = LazyDeque.erase it (prio s) (LazyDeque.lives l)) as E3.
  { change (transfers d s3) with (transfers d s1). unfold s1. rewrite transfers_set, decide_True by done. by rewrite (so_transfers _ _ Hsl), Ht. }
  assert (transfers d s4 = LazyDeque.lives (without x l ++ [x])) as E4.
  { unfold s4. change (transfers d (notify v ?t)) with (transfers d t). rewrite transfers_set, decide_True by done.
    rewrite E3, live_push_back by done. by rewrite El, <- (without_delete x) by done. }
  assert (forall d', d' <> d -> transfers d' s4 = transfers d' sa) as Et.
  { intros d' Hne. unfold s4. change (transfers d' (notify v ?t)) with (transfers d' t). rewrite transfers_set, decide_False by done.
    change (transfers d' s3) with (transfers d' s1). unfold s1. rewrite transfers_set, decide_False by done. apply (so_transfers _ _ Hsl). }
  assert (forall i, prio s4 i = prio s3 i) as Hp4 by (intros i; unfold prio; by rewrite Eo4).
  assert (currentpriority s4 = currentpriority s2) as Ec4 by (unfold s4; by destruct d).
  assert (forall i, type (object s4 i) = type (object sa i)) as Hty.
  { intros i. rewrite Eo4. unfold s3. rewrite (sl_type _ _ (set_priority_lists x _ s2)), Eo2. apply (so_type _ _ Hsl). }
  assert (forall i, is_Some (objects s4 !! i) <-> is_Some (objects sa !! i)) as Hk4.
  { intros i. rewrite <- Ek2, <- (known_change x (set_priority (currentpriority s2)) s2). unfold s4. by destruct d. }
  destruct (wf_replace d (without x l ++ [x]) sa s4 Hwf E4 Et) as [H1 H2].
  - apply sorted_insert; [| | |by intros y Hy%elem_of_nil].
    + eapply (sorted_ext (prio sa)); [|by apply sorted_without]. intros y [Hy _]%without_in. by rewrite Hp4, Hp3, decide_False.
    + constructor.
    + intros y [Hy Hyl]%without_in. rewrite !Hp4, !Hp3, decide_False, decide_True by done.
      pose proof (wf_current sa Hwf d y Hyl). unfold PRIORITY_STEP in *. lia.
  - intros i Hi. assert (i ∈ l) as Hil by (apply elem_of_app in Hi as [Hi|Hi]; [by apply without_in in Hi as [_ ?]|by apply list_elem_of_singleton in Hi as ->]).
    destruct (wf_known sa Hwf d i Hil). rewrite Hty, Hp4, Hp3, Ec4. split_and!; [by apply Hk4|done|].
    destruct (decide (i = x)); [lia|]. pose proof (wf_current sa Hwf d i Hil). unfold PRIORITY_STEP in *. lia.
  - intros d' i Hne Hi. destruct (wf_known sa Hwf d' i Hi). rewrite Hty, Hp4, Hp3. split_and!; [by apply Hk4|done|].
    rewrite decide_False; [done|]. intros ->. congruence.
  - rewrite Ec4, Ec2. unfold PRIORITY_STEP. lia.
  - split_and!; [done|done|]. intros d' Hne. unfold elements. by rewrite Et.
Qed.

Lemma prios_same s s' l : same_order s s' -> sorted (prio s) l -> sorted (prio s') l.
Proof. intros Hso. apply sorted_ext. intros i _. symmetry. apply (so_prio _ _ Hso). Qed.

Lemma applied_room d s : wf s -> room d s -> room d (applied d s).
Proof.
  intros Hs [H1 H2]. destruct (applied_wf d s Hs) as (_ & He & _). unfold room. rewrite He. split.
  - intros id Hid. unfold prio, applied. rewrite object_set. by apply H1.
  - unfold applied. by destruct d.
Qed.

Lemma move_at_spec d it dst s :
  wf s -> room d s -> (it < length (elements d s))%nat -> (dst <= length (elements d s))%nat ->
  let s' := move_at d it dst s in
  wf s' /\ elements d s' = moved it dst (elements d s) /\ forall d', d' <> d -> elements d' s' = elements d' s.
Proof.
  intros Hs Hroom Hit Hdst. cbn zeta. unfold move_at, moved.
  destruct ((it =? dst)%nat || (it + 1 =? dst)%nat) eqn:Eq; [done|]. apply orb_false_iff in Eq as [E1%Nat.eqb_neq E2%Nat.eqb_neq].
  destruct (applied_wf d s Hs) as (Hwf & He & Ht). pose proof (applied_room d s Hs Hroom) as Hroom'. rewrite <- (He d) in Ht.
  set (sa := applied d s) in *. rewrite <- (He d) in Hit, Hdst |- *.
  assert (forall d', d' <> d -> elements d' sa = elements d' s) as He' by (intros d' _; apply He).
  destruct (lookup_lt_is_Some_2 (elements d sa) it Hit) as [x Hx]. rewrite Hx.
  pose proof (sorted_nodup _ _ (wf_sorted sa d Hwf)) as Hnd.
  destruct (moved_split it dst x _ Hnd Hx Hdst ltac:(done)) as [M1 M2].
  assert (x ∈ elements d sa) as Hxl by by eapply list_elem_of_lookup_2.
  destruct (elements d sa !! dst) as [next|] eqn:Hn.
  - pose proof (new_priority_spec d dst next x sa Hwf Hroom' Hn Hxl) as Hnp.
    assert (x <> next) as Hxn by (intros ->; by pose proof (NoDup_lookup _ _ _ _ Hnd Hx Hn)).
    assert (forall p, dst = S p -> elements d sa !! p <> Some x) as Hpv.
    { intros p -> Hp. pose proof (NoDup_lookup _ _ _ _ Hnd Hx Hp). lia. }
    specialize (Hnp Hxn Hpv). destruct (new_priority d dst next sa) as [np s1]. destruct Hnp as (Hsl & Hout & Hso & Hle).
    rewrite <- M1, <- M2 in Hso.
    assert (exists s3, same_order (change x (set_priority np) s1) s3 /\
      (if (dst <? it)%nat then (dst, prepareIncreasePriority x (change x (set_priority np) s1))
       else ((dst - 1)%nat, prepareDecreasePriority x it dst (change x (set_priority np) s1)))
      = (if (dst <? it)%nat then dst else (dst - 1)%nat, s3)) as (s3 & Hs3 & ->).
    { destruct (dst <? it)%nat; eexists; (split; [|reflexivity]); [apply increase_same|apply decrease_same]. }
    destruct (reinserted d it (if (dst <? it)%nat then dst else (dst - 1)%nat) x sa s3 [CacheAdd x; Update x] Hwf Ht) as (R1 & R2 & R3); try done.
    + eapply lists_trans; [exact Hsl|by apply order_lists].
    + intros i Hi. rewrite (so_prio _ _ Hs3). by apply Hout.
    + by eapply prios_same.
    + intros i Hi. rewrite (so_prio _ _ Hs3). by apply Hle.
    + split_and!; [done|done|]. intros d' Hne. rewrite R3 by done. by apply He'.
  - apply lookup_ge_None in Hn. assert (dst = length (elements d sa)) as Hde by lia.
    rewrite Hde, (proj2 (Nat.ltb_ge _ _)) by lia. rewrite Hde in M1, M2, Hdst, E1, E2.
    rewrite (proj2 (Nat.ltb_ge _ _)) in M1, M2 by lia. rewrite (take_ge (elements d sa)) in M1 by done. rewrite (drop_ge (elements d sa)) in M2 by done.
    rewrite M1, M2. destruct (moved_last d it x sa (prepareDecreasePriority x it (length (elements d sa)) sa) [CacheAdd x; Update x]
      Hwf Ht (decrease_same _ _ _ _) Hx ltac:(apply Hroom')) as (R1 & R2 & R3).
    { pose proof (proj1 Hroom' x Hxl). pose proof (wf_current sa Hwf d x Hxl). unfold PRIORITY_STEP in *. lia. }
    split_and!; [done|done|]. intros d' Hne. rewrite R3 by done. by apply He'.
Qed.

(** *** Finding *)

Lemma lower_bound_found keys i v : StronglySorted Z.lt keys -> keys !! i = Some v -> lower_bound keys v = i.
Proof.
  revert i. induction keys as [|k keys IH]; intros i Hs Hi; [done|]. apply StronglySorted_cons in Hs as [Hk Hs]. cbn [lower_bound].
  destruct i as [|i].
  - injection Hi as ->. by rewrite Z.ltb_irrefl.
  - rewrite Forall_forall in Hk. rewrite (proj2 (Z.ltb_lt _ _)) by (by eapply Hk, list_elem_of_lookup_2). f_equal. by apply IH.
Qed.

Lemma entry_found s id : wf s -> id ∈ elements (type (object s id)) s ->
  exists i, LazyDeque.mDeque (transfers (type (object s id)) s) !! i = Some (LazyDeque.Live id) /\ lower_bound_of id s = i.
Proof.
  intros Hs Hid. unfold elements, LazyDeque.live in Hid. apply list_elem_of_omap in Hid as (e & He & E).
  destruct e as [id'|]; [|done]. injection E as ->. apply list_elem_of_lookup in He as [i Hi]. exists i. split; [done|].
  unfold lower_bound_of. apply lower_bound_found; [by apply wf_keys|]. by rewrite list_lookup_fmap, Hi.
Qed.

(** With the erasures applied: the index in the list. *)
Lemma getIterator_spec s id : wf s ->
  let d := type (object s id) in
  getIterator id false s = (fst <$> list_find (fun i => i = id) (elements d s), applied d s).
Proof.
  intros Hs d. unfold getIterator. destruct (applied_wf d s Hs) as (Hwf & He & Ht).
  assert (forall i, object (applied d s) i = object s i) as Eo by (intros i; apply object_set).
  rewrite !Eo. fold d. f_equal. rewrite Ht. cbn [LazyDeque.lives LazyDeque.mDeque]. rewrite list_lookup_fmap.
  destruct (list_find (fun i => i = id) (elements d s)) as [[i id']|] eqn:Ef.
  - apply list_find_Some in Ef as (Hi & -> & _). cbn [fmap option_fmap option_map fst].
    assert (id ∈ elements d (applied d s)) as Hin by (rewrite He; by eapply list_elem_of_lookup_2).
    destruct (entry_found (applied d s) id Hwf) as (j & Hj & ->); [by rewrite Eo|].
    rewrite Eo in Hj. fold d in Hj. rewrite Ht in Hj. cbn in Hj. rewrite list_lookup_fmap in Hj.
    destruct (elements d s !! j) as [y|] eqn:Ey; [|done]. injection Hj as ->.
    cbn [fmap option_fmap option_map]. rewrite bool_decide_eq_true_2 by done. do 2 f_equal.
    eapply NoDup_lookup; [|exact Ey|exact Hi]. by apply (sorted_nodup (prio s)), wf_sorted.
  - destruct (elements d s !! lower_bound_of id (applied d s)) as [y|] eqn:Ey; [|done]. cbn [fmap option_fmap option_map].
    case_bool_decide as Hy; [|done]. subst y. apply list_find_None in Ef. rewrite Forall_forall in Ef.
    destruct (Ef id); [by eapply list_elem_of_lookup_2|done].
Qed.

(** *** Removing *)

Lemma remove_spec id s : wf s ->
  let s' := removetransfer id s in
  wf s' /\ (forall d, elements d s' = if decide (d = type (object s id)) then without id (elements d s) else elements d s).
Proof.
  intros Hs. cbn zeta. set (d := type (object s id)). unfold removetransfer, getIterator. fold d.
  destruct (decide (id ∈ elements d s)) as [Hin|Hin].
  - destruct (entry_found s id Hs Hin) as (i & Hi & ->). fold d in Hi. rewrite Hi, bool_decide_eq_true_2 by done. fold d.
    set (dq := LazyDeque.erase i (prio s) (transfers d s)). set (s' := set_transfers d dq s).
    destruct (LazyDeque.erase_live i (prio s) id (transfers d s) Hi (wf_counted s Hs d)) as (Hc & l1 & l2 & E1 & E2 & _).
    fold dq in Hc, E2.
    assert (forall d', transfers d' s' = if decide (d' = d) then dq else transfers d' s) as Et by (intros d'; apply transfers_set).
    assert (forall i, object s' i = object s i) as Eo by (intros j; apply object_set).
    assert (objects s' = objects s /\ currentpriority s' = currentpriority s) as [Eos Ec] by (unfold s'; by destruct d).
    assert (forall d', elements d' s' = if decide (d' = d) then without id (elements d' s) else elements d' s) as El.
    { intros d'. unfold elements at 1. rewrite Et. destruct (decide (d' = d)) as [->|]; [|done]. rewrite E2.
      pose proof (sorted_nodup _ _ (wf_sorted s d Hs)) as Hnd. unfold elements in *. rewrite E1 in *.
      apply NoDup_app in Hnd as (N1 & N2 & N3). apply NoDup_cons in N3 as [N3 _].
      rewrite without_app. unfold without at 2. rewrite filter_cons_False by auto. fold (without id l2).
      rewrite !without_none; [done|done|]. intros Hl1. apply (N2 id Hl1). left. }
    assert (forall d' j, j ∈ elements d' s' -> j ∈ elements d' s) as Hsub.
    { intros d' j. rewrite El. destruct (decide (d' = d)); [|done]. by intros [_ ?]%without_in. }
    split; [|done]. split.
    + intros d'. rewrite Et. destruct (decide (d' = d)); [done|by apply wf_counted].
    + intros d' j Hj. apply Hsub in Hj. rewrite Eos, Eo. by apply wf_known.
    + intros d'. rewrite Et.
      assert (forall l, entry_key s' <$> l = entry_key s <$> l) as ->.
      { intros l. apply list_fmap_ext. intros k [j|] _; [|done]. cbn. unfold prio. by rewrite Eo. }
      destruct (decide (d' = d)) as [->|]; [|by apply wf_keys].
      unfold dq, LazyDeque.erase. cbn [LazyDeque.mDeque].
      assert (entry_key s <$> alter (fun e => match e with LazyDeque.Live t => LazyDeque.Erased (prio s t) | LazyDeque.Erased k => LazyDeque.Erased k end) i
        (LazyDeque.mDeque (transfers d s)) = entry_key s <$> LazyDeque.mDeque (transfers d s)) as ->; [|by apply wf_keys].
      apply list_eq. intros k. rewrite !list_lookup_fmap. destruct (decide (k = i)) as [->|Hne].
      * rewrite list_lookup_alter_eq, Hi. done.
      * by rewrite list_lookup_alter_ne.
    + intros d' j Hj. apply Hsub in Hj. unfold prio. rewrite Eo, Ec. by apply (wf_current s Hs d').
  - assert (forall d', elements d' s = if decide (d' = d) then without id (elements d' s) else elements d' s) as El.
    { intros d'. destruct (decide (d' = d)) as [->|]; [|done]. by rewrite without_none. }
    destruct (LazyDeque.mDeque (transfers d s) !! lower_bound_of id s) as [[j|]|] eqn:Ej; [|by split|by split].
    case_bool_decide as Hj; [|by split]. subst j. destruct Hin. unfold elements, LazyDeque.live. apply list_elem_of_omap.
    eexists. split; [by eapply list_elem_of_lookup_2|done].
Qed.

(** *** Adding *)

Lemma same_wf s s' : wf s -> same_order s s' -> wf s' /\ forall d, elements d s' = elements d s.
Proof.
  intros Hs [Hp Hty Hk Ht Hc]. assert (forall d, elements d s' = elements d s) as He by (intros d; unfold elements; by rewrite Ht).
  split; [|done]. split; intros d.
  - rewrite Ht. by apply wf_counted.
  - intros i Hi. rewrite He in Hi. rewrite Hk, Hty. by apply wf_known.
  - rewrite Ht, (list_fmap_ext (entry_key s') (entry_key s)); [by apply wf_keys|]. intros n [i|k] _; [apply Hp|done].
  - intros i Hi. rewrite He in Hi. rewrite Hp, Hc. by apply (wf_current s Hs d).
Qed.

Lemma same_room d s s' : same_order s s' -> room d s -> room d s'.
Proof.
  intros [Hp Hty Hk Ht Hc] [R1 R2]. unfold room. assert (elements d s' = elements d s) as He by (unfold elements; by rewrite Ht).
  rewrite He, Hc. split; [|done]. intros i Hi. rewrite Hp. by apply R1.
Qed.

(** A transfer that is not in the list is put into it, with its priority set. *)
Lemma added d x l1 l2 sa s s2 :
  wf sa -> elements d sa = l1 ++ l2 -> same_lists sa s -> is_Some (objects sa !! x) -> type (object sa x) = d ->
  (forall i, i <> x -> prio s i = prio sa i) -> x ∉ l1 ++ l2 ->
  (forall i, i ∈ l1 -> prio sa i < prio s x) -> (forall i, i ∈ l2 -> prio s x < prio sa i) ->
  transfers d s2 = LazyDeque.lives (l1 ++ x :: l2) -> (forall d', d' <> d -> transfers d' s2 = transfers d' s) ->
  objects s2 = objects s -> currentpriority sa <= currentpriority s2 -> prio s x <= currentpriority s2 ->
  wf s2 /\ elements d s2 = l1 ++ x :: l2 /\ forall d', d' <> d -> elements d' s2 = elements d' sa.
Proof.
  intros Hwf El Hsl Hkx Htx Hp Hx Hlow Hhigh Et Eo Eos Ec Ecx.
  assert (forall i, object s2 i = object s i) as Eob by (intros i; unfold object; by rewrite Eos).
  assert (forall i, prio s2 i = prio s i) as Hp2 by (intros i; unfold prio; by rewrite Eob).
  pose proof (wf_sorted sa d Hwf) as Hso. rewrite El in Hso. apply sorted_app in Hso as (H1 & H2 & _).
  assert (forall i, i ∈ l1 ++ l2 -> i <> x) as Hne by (intros i Hi ->; done).
  assert (forall d', d' <> d -> transfers d' s2 = transfers d' sa) as Et2.
  { intros d' Hd. rewrite Eo by done. apply (sl_transfers _ _ Hsl). }
  destruct (wf_replace d (l1 ++ x :: l2) sa s2 Hwf Et Et2) as [R1 R2].
  - apply sorted_insert.
    + eapply sorted_ext; [|exact H1]. intros i Hi. rewrite Hp2, Hp; [done|]. apply Hne, elem_of_app. by left.
    + eapply sorted_ext; [|exact H2]. intros i Hi. rewrite Hp2, Hp; [done|]. apply Hne, elem_of_app. by right.
    + intros i Hi. rewrite !Hp2, (Hp i) by (apply Hne, elem_of_app; by left). by apply Hlow.
    + intros i Hi. rewrite !Hp2, (Hp i) by (apply Hne, elem_of_app; by right). by apply Hhigh.
  - intros i Hi. rewrite Eos, Eob, Hp2, (sl_type _ _ Hsl), (sl_known _ _ Hsl).
    destruct (decide (i = x)) as [->|Hix]; [done|].
    assert (i ∈ elements d sa) as Hil by (rewrite El; set_solver). destruct (wf_known sa Hwf d i Hil). split_and!; [done|done|].
    rewrite Hp by done. pose proof (wf_current sa Hwf d i Hil). lia.
  - intros d' i Hd Hi. destruct (wf_known sa Hwf d' i Hi). rewrite Eos, Eob, Hp2, (sl_type _ _ Hsl), (sl_known _ _ Hsl).
    split_and!; [done|done|]. apply Hp. intros ->. congruence.
  - done.
  - split_and!; [done|done|]. intros d' Hd. unfold elements. by rewrite Et2.
Qed.

Lemma objects_set d v s : objects (set_transfers d v s) = objects s /\ currentpriority (set_transfers d v s) = currentpriority s.
Proof. by destruct d. Qed.

Lemma add_new_spec x startFirst s :
  let d := type (object s x) in
  wf s -> room d s -> 0 <= currentpriority s -> is_Some (objects s !! x) -> x ∉ elements d s -> prio s x = 0 ->
  let s' := addtransfer x startFirst s in
  wf s' /\ elements d s' = (if startFirst && negb (bool_decide (elements d s = [])) then x :: elements d s else elements d s ++ [x])
  /\ forall d', d' <> d -> elements d' s' = elements d' s.
Proof.
  intros d Hs Hroom Hc0 Hkx Hx Hpx. cbn zeta. unfold addtransfer.
  set (s0 := if bool_decide _ then s else _).
  assert (same_order s s0) as H0 by (unfold s0; destruct (bool_decide _); [apply same_refl|by apply change_same]).
  destruct (same_wf s s0 Hs H0) as [Hs0 He0]. pose proof (same_room d s s0 H0 Hroom) as Hroom0.
  rewrite (so_type _ _ H0), (so_prio _ _ H0), Hpx. fold d. cbn [Z.eqb].
  destruct (applied_wf d s0 Hs0) as (Hsa & Hea & Hta). pose proof (applied_room d s0 Hs0 Hroom0) as Hrooma.
  set (sa := applied d s0) in *.
  assert (elements d sa = elements d s) as Eda by (by rewrite Hea, He0).
  assert (forall d', d' <> d -> elements d' sa = elements d' s) as Eoa by (intros d' _; by rewrite Hea, He0).
  assert (is_Some (objects sa !! x)) as Hkxa.
  { unfold sa, applied. rewrite (proj1 (objects_set _ _ _)). by apply (so_known _ _ H0). }
  assert (type (object sa x) = d) as Htxa by (unfold sa, applied; rewrite object_set; apply (so_type _ _ H0)).
  assert (currentpriority sa = currentpriority s) as Eca.
  { unfold sa, applied. rewrite (proj2 (objects_set _ _ _)). apply (so_current _ _ H0). }
  rewrite <- Eda in Hx |- *. destruct Hrooma as [R1 R2]. unfold PRIORITY_STEP in *.
  assert (forall s', wf s' /\ elements d s' = elements d sa ++ [x] /\ (forall d', d' <> d -> elements d' s' = elements d' sa) ->
    wf s' /\ elements d s' = elements d sa ++ [x] /\ (forall d', d' <> d -> elements d' s' = elements d' s)) as Hend.
  { intros s' (A & B & D). split_and!; [done|done|]. intros d' Hd. rewrite D by done. by apply Eoa. }
  set (sb := set_currentpriority _ sa). set (sc := change x (set_priority (currentpriority sb)) sb).
  assert (currentpriority sb = currentpriority sa + 65536) as Ecb by (unfold sb; cbn; apply wrapu_id; lia).
  assert (wf (notify [CacheAdd x] (set_transfers d (LazyDeque.push_back x (transfers d sc)) sc))
    /\ elements d (notify [CacheAdd x] (set_transfers d (LazyDeque.push_back x (transfers d sc)) sc)) = elements d sa ++ [x]
    /\ (forall d', d' <> d -> elements d' (notify [CacheAdd x] (set_transfers d (LazyDeque.push_back x (transfers d sc)) sc)) = elements d' sa)) as Hback.
  { assert (forall i, prio sc i = if decide (i = x) then currentpriority sb else prio sa i) as Hpc.
    { intros i. unfold sc. by rewrite set_priority_prio. }
    set (sd := set_transfers d _ sc).
    assert (same_lists sa (change x (set_priority (currentpriority sb)) sa)) as Hsl by apply set_priority_lists.
    apply (added d x (elements d sa) [] sa (change x (set_priority (currentpriority sb)) sa)); try done.
    - by rewrite app_nil_r.
    - intros i Hi. by rewrite set_priority_prio, decide_False.
    - by rewrite app_nil_r.
    - intros i Hi. rewrite set_priority_prio, decide_True by done. pose proof (wf_current sa Hsa d i Hi). lia.
    - intros i Hi. by apply elem_of_nil in Hi.
    - change (transfers d (notify [CacheAdd x] sd)) with (transfers d sd). unfold sd. rewrite transfers_set, decide_True by done.
      change (transfers d sc) with (transfers d sa). rewrite live_push_back by (by apply wf_counted). done.
    - intros d' Hd. change (transfers d' (notify [CacheAdd x] sd)) with (transfers d' sd). unfold sd. by rewrite transfers_set, decide_False.
    - change (objects (notify [CacheAdd x] sd)) with (objects sd). unfold sd. by rewrite (proj1 (objects_set _ _ _)).
    - change (currentpriority (notify [CacheAdd x] sd)) with (currentpriority sd). unfold sd. rewrite (proj2 (objects_set _ _ _)).
      change (currentpriority sc) with (currentpriority sb). lia.
    - change (currentpriority (notify [CacheAdd x] sd)) with (currentpriority sd). unfold sd. rewrite (proj2 (objects_set _ _ _)).
      rewrite set_priority_prio, decide_True by done. done. }
  destruct (elements d sa) as [|first l] eqn:El.
  - rewrite andb_false_r. by apply Hend.
  - destruct startFirst; [|by apply Hend]. rewrite bool_decide_eq_false_2 by done. cbn [andb negb].
    assert (first ∈ elements d sa) as Hf by (rewrite El; left). pose proof (wf_current sa Hsa d first Hf) as Hcf.
    pose proof (R1 first ltac:(left)) as Hrf. cbn [length] in Hrf.
    rewrite (wrapu_id 64) by lia. set (se := change x (set_priority _) sa).
    pose proof (increase_same x se) as Hsi. set (sf := prepareIncreasePriority x se) in *. set (sg := set_transfers d _ sf).
    assert (forall i, prio sf i = if decide (i = x) then prio sa first - 65536 else prio sa i) as Hpf.
    { intros i. rewrite (so_prio _ _ Hsi). unfold se. by rewrite set_priority_prio. }
    assert (same_lists sa sf) as Hsl by (eapply lists_trans; [apply set_priority_lists|by apply order_lists]).
    pose proof (wf_sorted sa d Hsa) as Hso. rewrite El in Hso. apply sorted_cons in Hso as [_ Hso].
    destruct (added d x [] (first :: l) sa sf (notify [CacheAdd x] sg) Hsa El Hsl Hkxa Htxa) as (A & B & D); try done.
    + intros i Hi. by rewrite Hpf, decide_False.
    + intros i Hi. by apply elem_of_nil in Hi.
    + intros i Hi. rewrite Hpf, decide_True by done. apply elem_of_cons in Hi as [->|Hi]; [lia|]. specialize (Hso _ Hi). lia.
    + change (transfers d (notify [CacheAdd x] sg)) with (transfers d sg). unfold sg. rewrite transfers_set, decide_True by done.
      assert (transfers d sf = transfers d sa) as -> by apply (sl_transfers _ _ Hsl).
      rewrite live_push_front by (by apply wf_counted). change (LazyDeque.live (transfers d sa)) with (elements d sa). by rewrite El.
    + intros d' Hd. change (transfers d' (notify [CacheAdd x] sg)) with (transfers d' sg). unfold sg. by rewrite transfers_set, decide_False.
    + change (objects (notify [CacheAdd x] sg)) with (objects sg). unfold sg. by rewrite (proj1 (objects_set _ _ _)).
    + change (currentpriority (notify [CacheAdd x] sg)) with (currentpriority sg). unfold sg. rewrite (proj2 (objects_set _ _ _)).
      rewrite (sl_current _ _ Hsl). lia.
    + change (currentpriority (notify [CacheAdd x] sg)) with (currentpriority sg). unfold sg. rewrite (proj2 (objects_set _ _ _)).
      rewrite (sl_current _ _ Hsl), Hpf, decide_True by done. lia.
    + split_and!; [done|done|]. intros d' Hd. rewrite D by done. by apply Eoa.
Qed.

Lemma lower_bound_split f l v : sorted f l -> (forall i, i ∈ l -> f i <> v) ->
  let n := lower_bound (f <$> l) v in
  (forall i, i ∈ take n l -> f i < v) /\ (forall i, i ∈ drop n l -> v < f i).
Proof.
  induction l as [|x l IH]; intros Hs Hv; cbn [fmap list_fmap lower_bound].
  - split; intros i Hi; by apply elem_of_nil in Hi.
  - apply sorted_cons in Hs as [Hs Hx]. specialize (IH Hs ltac:(intros i Hi; apply Hv; by right)).
    pose proof (Hv x ltac:(left)). destruct (Z.ltb_spec (f x) v) as [Hlt|Hge]; cbn [take drop].
    + destruct IH as [IH1 IH2]. split; [|done]. intros i [->|Hi]%elem_of_cons; [done|by apply IH1].
    + split; [intros i Hi; by apply elem_of_nil in Hi|]. intros i [->|Hi]%elem_of_cons; [lia|]. specialize (Hx _ Hi). lia.
Qed.

(** A transfer that has a priority (from the cache) goes to its place. *)
Lemma add_resumed_spec x startFirst s :
  let d := type (object s x) in
  wf s -> is_Some (objects s !! x) -> x ∉ elements d s -> prio s x <> 0 -> prio s x <= currentpriority s ->
  (forall i, i ∈ elements d s -> prio s i <> prio s x) ->
  let s' := addtransfer x startFirst s in
  wf s' /\ (exists l1 l2, elements d s = l1 ++ l2 /\ elements d s' = l1 ++ x :: l2
    /\ (forall i, i ∈ l1 -> prio s i < prio s x) /\ (forall i, i ∈ l2 -> prio s x < prio s i))
  /\ forall d', d' <> d -> elements d' s' = elements d' s.
Proof.
  intros d Hs Hkx Hx Hpx Hcx Hneq. cbn zeta. unfold addtransfer.
  set (s0 := if bool_decide _ then s else _).
  assert (same_order s s0) as H0 by (unfold s0; destruct (bool_decide _); [apply same_refl|by apply change_same]).
  destruct (same_wf s s0 Hs H0) as [Hs0 He0].
  rewrite (so_type _ _ H0), (so_prio _ _ H0). fold d. rewrite (proj2 (Z.eqb_neq _ _)) by done.
  destruct (applied_wf d s0 Hs0) as (Hsa & Hea & Hta). set (sa := applied d s0) in *.
  assert (elements d sa = elements d s) as Eda by (by rewrite Hea, He0).
  assert (forall i, object sa i = object s0 i) as Eoa by (intros i; apply object_set).
  assert (forall i, prio sa i = prio s i) as Epa by (intros i; unfold prio at 1; rewrite Eoa; apply (so_prio _ _ H0)).
  assert (is_Some (objects sa !! x)) as Hkxa.
  { unfold sa, applied. rewrite (proj1 (objects_set _ _ _)). by apply (so_known _ _ H0). }
  assert (type (object sa x) = d) as Htxa by (rewrite Eoa; apply (so_type _ _ H0)).
  assert (lower_bound_of x sa = lower_bound (prio sa <$> elements d s) (prio s x)) as ->.
  { unfold lower_bound_of. rewrite Htxa, Hta, Epa. cbn [LazyDeque.mDeque LazyDeque.lives]. rewrite <- list_fmap_compose, He0. done. }
  set (n := lower_bound _ _). set (sg := set_transfers d _ sa).
  pose proof (wf_sorted sa d Hsa) as Hso. rewrite Eda in Hso.
  destruct (lower_bound_split (prio sa) (elements d s) (prio s x) Hso) as [Hlow Hhigh].
  { intros i Hi. rewrite Epa. by apply Hneq. }
  fold n in Hlow, Hhigh.
  destruct (added d x (take n (elements d s)) (drop n (elements d s)) sa sa sg Hsa) as (A & B & D); try done.
  - by rewrite take_drop.
  - by rewrite take_drop.
  - intros i Hi. rewrite (Epa x). by apply Hlow.
  - intros i Hi. rewrite (Epa x). by apply Hhigh.
  - unfold sg. rewrite transfers_set, decide_True by done. rewrite live_insert by (by apply wf_counted).
    change (LazyDeque.live (transfers d sa)) with (elements d sa). by rewrite Eda.
  - intros d' Hd. unfold sg. by rewrite transfers_set, decide_False.
  - unfold sg. by rewrite (proj1 (objects_set _ _ _)).
  - unfold sg. by rewrite (proj2 (objects_set _ _ _)).
  - unfold sg. rewrite (proj2 (objects_set _ _ _)), Epa. unfold sa, applied. rewrite (proj2 (objects_set _ _ _)), (so_current _ _ H0). done.
  - split_and!; [done| |].
    + exists (take n (elements d s)), (drop n (elements d s)). split_and!; [by rewrite take_drop|done| |].
      * intros i Hi. rewrite <- Epa. by apply Hlow.
      * intros i Hi. rewrite <- (Epa i). by apply Hhigh.
    + intros d' Hd. rewrite D by done. by rewrite Hea, He0.
Qed.

(** *** The other operations *)

Definition index (x : positive) (l : list positive) : option nat := fst <$> list_find (fun i => i = x) l.

Lemma index_lt x l i : index x l = Some i -> (i < length l)%nat.
Proof.
  unfold index. destruct (list_find _ l) as [[j y]|] eqn:E; [|done]. intros [= <-].
  apply list_find_Some in E as (Hj & _). by eapply lookup_lt_Some.
Qed.

Inductive Op :=
  | Move (x : positive) (position : nat)
  | MoveBefore (x prev : positive)
  | First (x : positive) | Last (x : positive)
  | Up (x : positive) | Down (x : positive)
  | FirstAt (d : direction_t) (it : nat) | LastAt (d : direction_t) (it : nat)
  | UpAt (d : direction_t) (it : nat) | DownAt (d : direction_t) (it : nat)
  | Pause (x : positive) (enable : bool)
  | Remove (x : positive).

(** The list an operation works on: that of its transfer, or of its iterator. *)
Definition queue (op : Op) (s : TransferList) : direction_t :=
  match op with
  | Move x _ | MoveBefore x _ | First x | Last x | Up x | Down x | Pause x _ | Remove x => type (object s x)
  | FirstAt d _ | LastAt d _ | UpAt d _ | DownAt d _ => d
  end.

(** Both transfers of [MoveBefore] are in one list; an iterator points to an element. *)
Definition allowed (op : Op) (s : TransferList) : Prop :=
  match op with
  | MoveBefore x prev => type (object s prev) = type (object s x)
  | FirstAt d it | LastAt d it | UpAt d it | DownAt d it => (it < length (elements d s))%nat
  | _ => True
  end.

Definition run (op : Op) (s : TransferList) : TransferList :=
  match op with
  | Move x p => movetransfer x p s
  | MoveBefore x prev => movetransfer_before x prev s
  | First x => movetofirst x s
  | Last x => movetolast x s
  | Up x => moveup x s
  | Down x => movedown x s
  | FirstAt d it => movetofirst_iterator d it s
  | LastAt d it => movetolast_iterator d it s
  | UpAt d it => moveup_iterator d it s
  | DownAt d it => movedown_iterator d it s
  | Pause x b => (pause x b s).2
  | Remove x => removetransfer x s
  end.

(** What an operation does to its list; [movedown] of an iterator does nothing. *)
Definition effect (op : Op) (l : list positive) : list positive :=
  let move x dst := match index x l with Some it => moved it dst l | None => l end in
  match op with
  | Move x p => move x (Nat.min p (length l))
  | MoveBefore x prev => match index prev l with Some dst => move x dst | None => l end
  | First x => move x 0%nat
  | Last x => move x (length l)
  | Up x => match index x l with Some (S i) => moved (S i) i l | _ => l end
  | Down x => match index x l with Some i => if (i + 1 =? length l)%nat then l else moved i (i + 2) l | None => l end
  | FirstAt _ it => moved it 0 l
  | LastAt _ it => moved it (length l) l
  | UpAt _ it => match it with S i => moved (S i) i l | O => l end
  | DownAt _ it => l
  | Pause _ _ => l
  | Remove x => without x l
  end.

Lemma movetransfer_to_spec x dst s :
  let d := type (object s x) in
  wf s -> room d s -> (dst <= length (elements d s))%nat ->
  let s' := movetransfer_to x dst s in
  wf s' /\ elements d s' = (match index x (elements d s) with Some it => moved it dst (elements d s) | None => elements d s end)
  /\ forall d', d' <> d -> elements d' s' = elements d' s.
Proof.
  intros d Hs Hr Hd. cbn zeta. unfold movetransfer_to. rewrite getIterator_spec by done. fold d. fold (index x (elements d s)).
  destruct (applied_wf d s Hs) as (Hwf & He & Ht). destruct (index x (elements d s)) as [it|] eqn:Ei.
  - rewrite <- (He d). assert (type (object (applied d s) x) = d) as -> by (unfold applied; by rewrite object_set).
    destruct (move_at_spec d it dst (applied d s) Hwf (applied_room d s Hs Hr)) as (A & B & D).
    + rewrite He. by eapply index_lt.
    + by rewrite He.
    + split_and!; [done|done|]. intros d' Hne. rewrite D by done. apply He.
  - split_and!; [done|by rewrite He|]. intros d' _. apply He.
Qed.

(** The moves of an iterator, on the list as the deferred erasures leave it. *)
Lemma move_iterator_spec d it dst s :
  wf s -> room d s -> (it < length (elements d s))%nat -> (dst <= length (elements d s))%nat ->
  let s' := move_at d it dst (applied d s) in
  wf s' /\ elements d s' = moved it dst (elements d s) /\ forall d', d' <> d -> elements d' s' = elements d' s.
Proof.
  intros Hs Hr Hi Hd. destruct (applied_wf d s Hs) as (Hwf & He & _). cbn zeta.
  destruct (move_at_spec d it dst (applied d s) Hwf (applied_room d s Hs Hr)) as (A & B & D); [by rewrite He..|].
  rewrite He in B. split_and!; [done|done|]. intros d' Hne. rewrite D by done. apply He.
Qed.

(** Moving an iterator down leaves it where it is. *)
Lemma movedown_iterator_stays d it s : movedown_iterator d it s = applied d s.
Proof.
  unfold movedown_iterator, move_at. destruct (_ =? _)%nat; [done|].
  by rewrite Nat.eqb_refl, orb_true_r.
Qed.

Lemma run_spec op s :
  let d := queue op s in
  wf s -> room d s -> allowed op s ->
  wf (run op s) /\ elements d (run op s) = effect op (elements d s) /\ forall d', d' <> d -> elements d' (run op s) = elements d' s.
Proof.
  intros d Hs Hr Hb. destruct (applied_wf d s Hs) as (Hwf & He & Ht).
  assert (forall i, object (applied d s) i = object s i) as Eo by (intros i; apply object_set).
  pose proof (applied_room d s Hs Hr) as Hra.
  assert (forall x dst, type (object s x) = d -> (dst <= length (elements d s))%nat ->
    let s' := movetransfer_to x dst (applied d s) in
    wf s' /\ elements d s' = (match index x (elements d s) with Some it => moved it dst (elements d s) | None => elements d s end)
    /\ forall d', d' <> d -> elements d' s' = elements d' s) as Hto.
  { intros x dst Hx Hd. pose proof (movetransfer_to_spec x dst (applied d s)) as Hm. cbn zeta in Hm. rewrite Eo, Hx, He in Hm.
    destruct (Hm Hwf Hra Hd) as (A & B & D). split_and!; [done|done|]. intros d' Hne. rewrite D by done. apply He. }
  destruct op as [x p|x prev|x|x|x|x|d0 it|d0 it|d0 it|d0 it|x b|x]; cbn [run effect queue allowed] in *.
  - unfold movetransfer. fold d. rewrite Eo. fold d. rewrite He. apply Hto; [done|lia].
  - unfold movetransfer_before. rewrite getIterator_spec by done. rewrite Hb. fold d. fold (index prev (elements d s)).
    destruct (index prev (elements d s)) as [dst|] eqn:Ei.
    + apply Hto; [done|]. apply index_lt in Ei. lia.
    + split_and!; [done|by rewrite He|]. intros d' _. apply He.
  - unfold movetofirst. fold d. apply Hto; [done|lia].
  - unfold movetolast. fold d. rewrite Eo. fold d. rewrite He. apply Hto; [done|lia].
  - unfold moveup. rewrite getIterator_spec by done. fold d. fold (index x (elements d s)).
    destruct (index x (elements d s)) as [[|i]|] eqn:Ei; cbn [Nat.eqb].
    + split_and!; [done|by rewrite He|]. intros d' _. apply He.
    + rewrite Eo. fold d. replace (S i - 1)%nat with i by lia. apply index_lt in Ei.
      destruct (move_at_spec d (S i) i (applied d s) Hwf Hra) as (A & B & D); [rewrite He; lia|rewrite He; lia|].
      rewrite He in B. split_and!; [done|done|]. intros d' Hne. rewrite D by done. apply He.
    + split_and!; [done|by rewrite He|]. intros d' _. apply He.
  - unfold movedown. rewrite getIterator_spec by done. fold d. fold (index x (elements d s)).
    destruct (index x (elements d s)) as [i|] eqn:Ei.
    + rewrite Eo. fold d. rewrite He. apply index_lt in Ei.
      destruct (Nat.eqb_spec (i + 1) (length (elements d s))).
      * split_and!; [done|by rewrite He|]. intros d' _. apply He.
      * destruct (move_at_spec d i (i + 2) (applied d s) Hwf Hra) as (A & B & D); [rewrite He; lia|rewrite He; lia|].
        rewrite He in B. split_and!; [done|done|]. intros d' Hne. rewrite D by done. apply He.
    + split_and!; [done|by rewrite He|]. intros d' _. apply He.
  - by apply move_iterator_spec; [..|lia].
  - unfold movetolast_iterator. rewrite He. by apply move_iterator_spec.
  - unfold moveup_iterator. destruct it as [|i]; cbn [Nat.eqb].
    + split_and!; [done|by rewrite He|]. intros d' _. apply He.
    + replace (S i - 1)%nat with i by lia. by apply move_iterator_spec; [..|lia].
  - rewrite movedown_iterator_stays. split_and!; [done|by rewrite He|]. intros d' _. apply He.
  - assert (forall s2, wf s2 -> (forall d', elements d' s2 = elements d' s) ->
      forall s3, same_order s2 s3 -> wf s3 /\ elements d s3 = elements d s /\ (forall d', d' <> d -> elements d' s3 = elements d' s)) as Hsame.
    { intros s2 H2 E2 s3 H3. destruct (same_wf s2 s3 H2 H3) as [A B]. split_and!; [done|by rewrite B|]. intros d' _. by rewrite B. }
    unfold pause. destruct (eqb _ _); [by apply (Hsame s)|]. destruct (negb b).
    + set (s1 := change x (set_state TRANSFERSTATE_QUEUED) s).
      assert (same_order s s1) as H1 by (by apply change_same). destruct (same_wf s s1 Hs H1) as [Hs1 He1].
      rewrite getIterator_spec by done. destruct (applied_wf (type (object s1 x)) s1 Hs1) as (Hw1 & Ha1 & _).
      assert (forall d', elements d' (applied (type (object s1 x)) s1) = elements d' s) as Ee by (intros d'; by rewrite Ha1, He1).
      destruct (fst <$> _); cbn [snd].
      * apply (Hsame (applied (type (object s1 x)) s1) Hw1 Ee). eapply same_trans; [apply increase_same|apply notify_same].
      * apply (Hsame (applied (type (object s1 x)) s1) Hw1 Ee). apply notify_same.
    + destruct (_ || _); [|by apply (Hsame s)]. cbn [snd]. apply (Hsame s Hs); [done|].
      eapply same_trans; [|apply notify_same]. eapply same_trans; [|by apply change_same].
      destruct (slot (object s x)); [|apply same_refl]. unfold delete_slot.
      eapply same_trans; [|apply set_tslots_same]. eapply same_trans; [|by apply change_same].
      apply change_same. intros t. unfold arm_unless_full. by destruct (_ || _).
  - destruct (remove_spec x s Hs) as [A B]. fold d in B. split_and!; [done| |].
    + rewrite B. by rewrite decide_True.
    + intros d' Hne. rewrite B. by rewrite decide_False.
Qed.

(** The plain moves are exchanges of neighbours, and moves to the ends. *)
Lemma moved_up l1 y x l2 : moved (S (length l1)) (length l1) (l1 ++ y :: x :: l2) = l1 ++ x :: y :: l2.
Proof.
  unfold moved. rewrite (proj2 (Nat.eqb_neq _ _)), (proj2 (Nat.eqb_neq _ _)) by lia. cbn [orb].
  assert ((l1 ++ y :: x :: l2) !! S (length l1) = Some x) as -> by (rewrite lookup_app_r by lia; by replace (S (length l1) - length l1)%nat with 1%nat by lia).
  rewrite (proj2 (Nat.ltb_lt _ _)) by lia.
  assert (delete (S (length l1)) (l1 ++ y :: x :: l2) = l1 ++ y :: l2) as ->.
  { change (l1 ++ y :: x :: l2) with (l1 ++ [y] ++ x :: l2). rewrite app_assoc.
    replace (S (length l1)) with (length (l1 ++ [y])) by (rewrite length_app; cbn; lia). rewrite delete_middle, <- app_assoc. done. }
  by rewrite take_app_length, drop_app_length.
Qed.

Lemma moved_down l1 x y l2 : moved (length l1) (length l1 + 2) (l1 ++ x :: y :: l2) = l1 ++ y :: x :: l2.
Proof.
  unfold moved. rewrite (proj2 (Nat.eqb_neq _ _)), (proj2 (Nat.eqb_neq _ _)) by lia. cbn [orb].
  rewrite list_lookup_middle by done. rewrite (proj2 (Nat.ltb_ge _ _)) by lia. rewrite delete_middle.
  replace (length l1 + 2 - 1)%nat with (length l1 + 1)%nat by lia. rewrite take_app_add, drop_app_add. cbn. by rewrite drop_0, <- app_assoc.
Qed.

End TransferFacts.

(** ** Theorems *)

(** C21: The queue of transfers stays in order: whatever the application does to a
    transfer (moving it to a position, before another one of the same list, to the
    front, to the back, one up, one down, pausing and resuming it, removing it, and
    the moves of an iterator), its list changes as the same operation on a plain
    list says, with exchanges of neighbours for the single steps; only moving an
    iterator down changes nothing, although its name says otherwise.  The other
    list does not change, and the priorities increase along the lists afterwards,
    although a move only sets the priority of what it moves where there is room
    between the neighbours.  Provided that one more change of all priorities does
    not wrap around ([room]: the priorities are at least [PRIORITY_STEP] times the
    length of the list plus two, and [currentpriority] can grow by a step). *)
Theorem transfer_queue_order (op : TransferFacts.Op) (s : TransferList) :
  let d := TransferFacts.queue op s in
  TransferFacts.wf s -> TransferFacts.room d s -> TransferFacts.allowed op s ->
  let s' := TransferFacts.run op s in
  TransferFacts.wf s'
  /\ (forall d', TransferFacts.sorted (TransferListOps.prio s') (TransferListOps.elements d' s'))
  /\ TransferListOps.elements d s' = TransferFacts.effect op (TransferListOps.elements d s)
  /\ (forall d', d' <> d -> TransferListOps.elements d' s' = TransferListOps.elements d' s)
  /\ (forall l1 x y l2, TransferFacts.moved (S (length l1)) (length l1) (l1 ++ y :: x :: l2) = l1 ++ x :: y :: l2
        /\ TransferFacts.moved (length l1) (length l1 + 2) (l1 ++ x :: y :: l2) = l1 ++ y :: x :: l2).
Proof.
  intros d Hs Hr Hb. destruct (TransferFacts.run_spec op s Hs Hr Hb) as (A & B & D). cbn zeta.
  split_and!; [done| |done|done|].
  - intros d'. by apply TransferFacts.wf_sorted.
  - intros l1 x y l2. split; [apply TransferFacts.moved_up|apply TransferFacts.moved_down].
Qed.

(** A transfer is added at the back of its list, or at the front if it is to
    start first, and one that has a priority from the cache between those with
    lower and those with higher priorities; and afterwards the binary search
    finds every transfer of the lists and nothing else. *)
Theorem transfer_added_and_found (x : positive) (startFirst : bool) (s : TransferList) :
  let d := type (TransferListOps.object s x) in
  let l := TransferListOps.elements d s in
  TransferFacts.wf s -> TransferFacts.room d s -> 0 <= currentpriority s -> is_Some (objects s !! x) -> x ∉ l ->
  (TransferListOps.prio s x <> 0 ->
     TransferListOps.prio s x <= currentpriority s /\ forall i, i ∈ l -> TransferListOps.prio s i <> TransferListOps.prio s x) ->
  let s' := TransferListOps.addtransfer x startFirst s in
  let l' := TransferListOps.elements d s' in
  TransferFacts.wf s'
  /\ (TransferListOps.prio s x = 0 -> l' = if startFirst && negb (bool_decide (l = [])) then x :: l else l ++ [x])
  /\ (TransferListOps.prio s x <> 0 -> exists l1 l2, l = l1 ++ l2 /\ l' = l1 ++ x :: l2
        /\ (forall i, i ∈ l1 -> TransferListOps.prio s i < TransferListOps.prio s x)
        /\ (forall i, i ∈ l2 -> TransferListOps.prio s x < TransferListOps.prio s i))
  /\ (forall d', d' <> d -> TransferListOps.elements d' s' = TransferListOps.elements d' s)
  /\ (forall y, (TransferListOps.getIterator y false s').1
        = TransferFacts.index y (TransferListOps.elements (type (TransferListOps.object s' y)) s')).
Proof.
  intros d l Hs Hr Hc Hk Hx Hp. cbn zeta.
  assert (forall s', TransferFacts.wf s' -> forall y, (TransferListOps.getIterator y false s').1
    = TransferFacts.index y (TransferListOps.elements (type (TransferListOps.object s' y)) s')) as Hfind.
  { intros s' Hs' y. by rewrite TransferFacts.getIterator_spec. }
  destruct (decide (TransferListOps.prio s x = 0)) as [E|E].
  - destruct (TransferFacts.add_new_spec x startFirst s Hs Hr Hc Hk Hx E) as (A & B & D). split_and!; auto. by intros Hne.
  - destruct (Hp E) as [Hpc Hne]. destruct (TransferFacts.add_resumed_spec x startFirst s Hs Hk Hx E Hpc Hne) as (A & B & D).
    split_and!; auto. by intros Hz.
Qed.

(** ** Examples *)

Module TransferExamples.
Import TransferListOps TransferFacts.

Definition queued : Transfer := MkTransfer GET 0 TRANSFERSTATE_NONE false true.

(** Three downloads, added in turn. *)
Definition start : TransferList :=
  MkTransferList (list_to_map [(1%positive, queued); (2%positive, queued); (3%positive, queued)])
    LazyDeque.empty LazyDeque.empty PRIORITY_START [] false [].
Definition one : TransferList := addtransfer 1 false start.
Definition two : TransferList := addtransfer 2 false one.
Definition three : TransferList := addtransfer 3 true two.

Lemma start_wf : wf start.
Proof.
  split; try (intros []; done); try (intros [] i Hi; by apply elem_of_nil in Hi). intros []; constructor.
Qed.

Ltac room_tac := split; [|vm_compute; reflexivity]; let i := fresh in let Hi := fresh in intros i Hi;
  vm_compute in Hi; repeat (apply elem_of_cons in Hi as [->|Hi]; [vm_compute; congruence|]); by apply elem_of_nil in Hi.

Ltac fresh_tac := let Hi := fresh in intros Hi; vm_compute in Hi; set_solver.

Lemma one_wf : wf one.
Proof. apply add_new_spec; [apply start_wf|room_tac|vm_compute; congruence|by eexists|fresh_tac|done]. Qed.
Lemma two_wf : wf two.
Proof. apply add_new_spec; [apply one_wf|room_tac|vm_compute; congruence|vm_compute; by eexists|fresh_tac|done]. Qed.
Lemma three_wf : wf three.
Proof. apply add_new_spec; [apply two_wf|room_tac|vm_compute; congruence|vm_compute; by eexists|fresh_tac|done]. Qed.

Lemma three_room : room GET three.
Proof. room_tac. Qed.

Lemma three_elements : elements GET three = [3; 1; 2]%positive.
Proof. vm_compute. reflexivity. Qed.

End TransferExamples.

Lemma transfer_queue_order_witness :
  TransferListOps.elements GET (TransferFacts.run (TransferFacts.Last 3) TransferExamples.three) = [1; 2; 3]%positive.
Proof.
  pose proof (transfer_queue_order (TransferFacts.Last 3) TransferExamples.three TransferExamples.three_wf TransferExamples.three_room I) as H.
  exact (proj1 (proj2 (proj2 H))).
Defined.

Lemma transfer_added_and_found_witness :
  TransferFacts.wf (TransferListOps.addtransfer 3 true TransferExamples.two).
Proof.
  refine (proj1 (transfer_added_and_found 3 true TransferExamples.two TransferExamples.two_wf _ _ _ _ _)).
  - TransferExamples.room_tac.
  - vm_compute; congruence.
  - vm_compute. by eexists.
  - TransferExamples.fresh_tac.
  - intros Hp. by destruct Hp.
Defined.
