(* ===== verification/AvlTree.v ===== *)
(** * The AVL tree of the file service

    [AVLTree] of src/src/file_service/mega/file_service/avl_tree.h is intrusive:
    every node carries the links of the trees it is in, and the operations change
    child, parent and height fields in place.  The model keeps these fields in a
    store, follows the code pointer by pointer, and gives [None] where the code
    would follow a null or dangling pointer.

    Proved, by a simulation of functional trees with a zipper for the way back to
    the root: no operation follows a bad pointer or runs out of fuel, the parent
    links stay those of the children, the tree stays balanced (so that the eight
    bits of the heights are enough for every tree that fits into the memory), and
    the tree is the ordered list of its nodes: [AVLTree] implements the interface
    [OrderedIndex] that the range trees of RangeTree.v are built on.  The metadata
    of augmented trees is left out; the range trees have none. *)

From Stdlib Require Import Sorted.
From S2P Require Import Prelude.
Local Open Scope Z_scope.

(** Nodes are identified by their addresses. *)
Abbreviation node := Z.

Module AVLTree.

(** [AVLTreeNode]. *)
Record Link := MkLink {
  mLeft : option node;
  mRight : option node;
  mParent : option node;
  mHeight : Z
}.

Definition child (direction : bool) (l : Link) : option node := if direction then mRight l else mLeft l.
Definition set_child (direction : bool) (x : option node) (l : Link) : Link :=
  if direction then MkLink (mLeft l) x (mParent l) (mHeight l) else MkLink x (mRight l) (mParent l) (mHeight l).
Definition set_parent (x : option node) (l : Link) : Link := MkLink (mLeft l) (mRight l) x (mHeight l).
Definition set_height (x : Z) (l : Link) : Link := MkLink (mLeft l) (mRight l) (mParent l) x.

Abbreviation Links := (gmap Z Link).

Definition modify (f : Link -> Link) (n : node) (s : Links) : option Links := l ← s !! n; Some (<[n := f l]> s).

(** The height of a child, 0 where there is none. *)
Definition height_of (c : option node) (s : Links) : option Z :=
  match c with Some n => mHeight <$> s !! n | None => Some 0 end.

Definition balance (n : node) (s : Links) : option Z :=
  l ← s !! n; hr ← height_of (mRight l) s; hl ← height_of (mLeft l) s; Some (hr - hl).

Definition update (n : node) (s : Links) : option Links :=
  l ← s !! n; hl ← height_of (mLeft l) s; hr ← height_of (mRight l) s;
  modify (set_height (u8 (Z.max hl hr + 1))) n s.

(** To the right if [direction], else to the left. *)
Definition rotate (n : node) (direction : bool) (s : Links) : option (node * Links) :=
  ln ← s !! n;
  c ← child (negb direction) ln;
  s ← modify (set_parent (mParent ln)) c s;
  s ← modify (set_parent (Some c)) n s;
  lc ← s !! c;
  let grandchild := child direction lc in
  s ← match grandchild with Some g => modify (set_parent (Some n)) g s | None => Some s end;
  s ← modify (set_child direction (Some n)) c s;
  s ← modify (set_child (negb direction) grandchild) n s;
  s ← update n s;
  s ← update c s;
  Some (c, s).

Definition rebalance_node (n : node) (direction : bool) (s : Links) : option (node * Links) :=
  ln ← s !! n;
  c ← child direction ln;
  b ← balance c s;
  s ← (if b =? (if direction then -1 else 1) then
         '(c, s) ← rotate c direction s; modify (set_child direction (Some c)) n s
       else Some s);
  rotate n (negb direction) s.

Definition maybeRebalance (n : node) (s : Links) : option (node * Links) :=
  b ← balance n s;
  if 1 <? Z.abs b then rebalance_node n (0 <? b) s
  else s ← update n s; Some (n, s).

(** The size is a [size_t]. *)
Record Tree := MkTree {
  links : Links;
  mRoot : option node;
  mSize : Z
}.

Definition set_links (s : Links) (t : Tree) : Tree := MkTree s (mRoot t) (mSize t).
Definition set_root (r : option node) (t : Tree) : Tree := MkTree (links t) r (mSize t).

Definition empty : Tree := MkTree ∅ None 0.

(** The links of a node that is constructed. *)
Definition construct (n : node) (t : Tree) : Tree := set_links (<[n := MkLink None None None 0]> (links t)) t.

(** Upwards from a node; the fuel bounds the number of nodes on the way. *)
Fixpoint rebalance (fuel : nat) (n : node) (t : Tree) : option Tree :=
  match fuel with
  | O => None
  | S fuel =>
      ln ← links t !! n;
      match mParent ln with
      | None => '(r, s) ← maybeRebalance n (links t); Some (MkTree s (Some r) (mSize t))
      | Some parent =>
          lp ← links t !! parent;
          let direction := negb (bool_decide (mLeft lp = Some n)) in
          '(r, s) ← maybeRebalance n (links t);
          s ← modify (set_child direction (Some r)) parent s;
          rebalance fuel parent (set_links s t)
      end
  end.

(** No way in a tree is longer than its number of nodes. *)
Definition fuel (t : Tree) : nat := S (S (Z.to_nat (mSize t))).

(** A pointer to a link: that of the root, or of a child. *)
Inductive Ref := Root | Child (n : node) (direction : bool).

Definition get_link (r : Ref) (t : Tree) : option (option node) :=
  match r with Root => Some (mRoot t) | Child n d => child d <$> links t !! n end.
Definition put_link (r : Ref) (x : option node) (t : Tree) : option Tree :=
  match r with
  | Root => Some (set_root x t)
  | Child n d => s ← modify (set_child d x) n (links t); Some (set_links s t)
  end.

Section ops.
Context (key : node -> Z).

Definition compare (lhs rhs : Z) : Z := if lhs <? rhs then -1 else if rhs <? lhs then 1 else 0.

Fixpoint findLink_loop (fuel : nat) (k : Z) (parent : option node) (link : Ref) (t : Tree)
    : option (option node * Ref) :=
  match fuel with
  | O => None
  | S fuel =>
      c ← get_link link t;
      match c with
      | None => Some (parent, link)
      | Some c =>
          let relationship := compare k (key c) in
          if relationship =? 0 then Some (parent, link)
          else findLink_loop fuel k (Some c) (Child c (0 <? relationship)) t
      end
  end.

Definition findLink (k : Z) (t : Tree) : option (option node * Ref) := findLink_loop (fuel t) k None Root t.

Definition find (k : Z) (t : Tree) : option (option node) :=
  '(_, link) ← findLink k t; get_link link t.

(** [lower_bound] and [upper_bound]. *)
Fixpoint lower_loop (fuel : nat) (k : Z) (n candidate : option node) (t : Tree) : option (option node) :=
  match fuel with
  | O => None
  | S fuel =>
      match n with
      | None => Some candidate
      | Some n =>
          let relationship := compare k (key n) in
          if relationship =? 0 then Some (Some n)
          else
            l ← links t !! n;
            lower_loop fuel k (child (0 <? relationship) l) (if relationship <? 0 then Some n else candidate) t
      end
  end.

Definition lower_bound (k : Z) (t : Tree) : option (option node) := lower_loop (fuel t) k (mRoot t) None t.

Fixpoint upper_loop (fuel : nat) (k : Z) (n candidate : option node) (t : Tree) : option (option node) :=
  match fuel with
  | O => None
  | S fuel =>
      match n with
      | None => Some candidate
      | Some n =>
          let relationship := compare k (key n) in
          l ← links t !! n;
          upper_loop fuel k (child (0 <=? relationship) l) (if relationship <? 0 then Some n else candidate) t
      end
  end.

Definition upper_bound (k : Z) (t : Tree) : option (option node) := upper_loop (fuel t) k (mRoot t) None t.

(** The node that has the key now, and whether it was added. *)
Definition add_at (link : Ref) (n : node) (parent : option node) (t : Tree) : option (node * bool * Tree) :=
  c ← get_link link t;
  match c with
  | Some c => Some (c, false, t)
  | None =>
      t ← put_link link (Some n) t;
      s ← modify (set_parent parent) n (links t);
      let t := MkTree s (mRoot t) (u64 (mSize t + 1)) in
      t ← rebalance (fuel t) n t;
      Some (n, true, t)
  end.

Definition add (n : node) (t : Tree) : option (node * bool * Tree) :=
  '(parent, link) ← findLink (key n) t; add_at link n parent t.

(** The last node to the right, and the link to it. *)
Fixpoint rightmost (fuel : nat) (replacement : node) (replacementLink : Ref) (t : Tree) : option (node * Ref) :=
  match fuel with
  | O => None
  | S fuel =>
      l ← links t !! replacement;
      match mRight l with
      | None => Some (replacement, replacementLink)
      | Some next => rightmost fuel next (Child replacement true) t
      end
  end.

Definition set_parent_of (c : option node) (parent : option node) (s : Links) : option Links :=
  match c with Some c => modify (set_parent parent) c s | None => Some s end.

(** A node with two children is replaced by its predecessor. *)
Definition remove_inner (link : Ref) (n replacement : node) (t : Tree) : option (node * Tree) :=
  '(replacement, replacementLink) ← rightmost (fuel t) replacement (Child n false) t;
  lr ← links t !! replacement;
  let parent := if bool_decide (mParent lr = Some n) then Some replacement else mParent lr in
  t ← put_link replacementLink (mLeft lr) t;
  t ← put_link link (Some replacement) t;
  ln ← links t !! n;
  s ← modify (fun _ => ln) replacement (links t);
  c ← get_link replacementLink (set_links s t);
  s ← set_parent_of c parent s;
  lr ← s !! replacement;
  s ← set_parent_of (mLeft lr) (Some replacement) s;
  s ← set_parent_of (mRight lr) (Some replacement) s;
  parent ← parent;
  t ← rebalance (fuel t) parent (set_links s t);
  Some (n, t).

(** Any other node is replaced by its child, if it has one. *)
Definition remove_outer (link : Ref) (n : node) (replacement parent : option node) (t : Tree) : option (node * Tree) :=
  t ← put_link link replacement t;
  s ← set_parent_of replacement parent (links t);
  let t := set_links s t in
  match parent with
  | Some parent => t ← rebalance (fuel t) parent t; Some (n, t)
  | None => Some (n, t)
  end.

Definition remove_at (link : Ref) (parent : option node) (t : Tree) : option (node * Tree) :=
  n ← get_link link t;
  n ← n;
  ln ← links t !! n;
  let t := MkTree (links t) (mRoot t) (u64 (mSize t - 1)) in
  match mLeft ln with
  | Some replacement =>
      if bool_decide (is_Some (mRight ln)) then remove_inner link n replacement t
      else remove_outer link n (Some replacement) parent t
  | None => remove_outer link n (mRight ln) parent t
  end.

(** By key: nothing, if no node has it. *)
Definition remove_key (k : Z) (t : Tree) : option (option node * Tree) :=
  '(parent, link) ← findLink k t;
  c ← get_link link t;
  match c with
  | Some _ => '(n, t) ← remove_at link parent t; Some (Some n, t)
  | None => Some (None, t)
  end.

(** The node of an iterator. *)
Definition remove (n : node) (t : Tree) : option (node * Tree) :=
  ln ← links t !! n;
  match mParent ln with
  | None => remove_at Root None t
  | Some parent =>
      lp ← links t !! parent;
      remove_at (Child parent (negb (bool_decide (mLeft lp = Some n)))) (Some parent) t
  end.

End ops.

(** *** Iterators *)

(** As far as possible in one direction. *)
Fixpoint outermost (fuel : nat) (direction : bool) (n : node) (t : Tree) : option node :=
  match fuel with
  | O => None
  | S fuel =>
      l ← links t !! n;
      match child direction l with Some c => outermost fuel direction c t | None => Some n end
  end.

Definition begin (t : Tree) : option (option node) :=
  match mRoot t with Some n => Some <$> outermost (fuel t) false n t | None => Some None end.
Definition rbegin (t : Tree) : option (option node) :=
  match mRoot t with Some n => Some <$> outermost (fuel t) true n t | None => Some None end.

(** Up to the first node that is reached from the other side. *)
Fixpoint ascend (fuel : nat) (direction : bool) (n : node) (t : Tree) : option (option node) :=
  match fuel with
  | O => None
  | S fuel =>
      l ← links t !! n;
      match mParent l with
      | None => Some None
      | Some parent =>
          lp ← links t !! parent;
          if bool_decide (child direction lp = Some n) then ascend fuel direction parent t else Some (Some parent)
      end
  end.

(** [next] ([direction]) and [previous] of an iterator. *)
Definition step (direction : bool) (n : node) (t : Tree) : option (option node) :=
  l ← links t !! n;
  match child direction l with
  | Some c => Some <$> outermost (fuel t) (negb direction) c t
  | None => ascend (fuel t) direction n t
  end.

End AVLTree.

(** ** Functional trees

    What the store represents: trees of nodes, and for a place in a tree the
    frames of the way from there to the root. *)

Module Avl.

Inductive tree := E | N (l : tree) (n : node) (r : tree).

Fixpoint ht (t : tree) : Z := match t with E => 0 | N l _ r => Z.max (ht l) (ht r) + 1 end.
Fixpoint nodes (t : tree) : list node := match t with E => [] | N l n r => nodes l ++ n :: nodes r end.
Definition root (t : tree) : option node := match t with E => None | N _ n _ => Some n end.

(** A node with its child in a direction, and the other child. *)
Definition mk (d : bool) (x : tree) (n : node) (y : tree) : tree := if d then N y n x else N x n y.

Definition balance (t : tree) : Z := match t with E => 0 | N l _ r => ht r - ht l end.

Fixpoint avl (t : tree) : Prop :=
  match t with E => True | N l _ r => avl l /\ avl r /\ Z.abs (ht r - ht l) <= 1 end.

Definition rotate (d : bool) (t : tree) : tree :=
  if d then match t with N (N ll c lr) n r => N ll c (N lr n r) | _ => t end
  else match t with N l n (N rl c rr) => N (N l n rl) c rr | _ => t end.

(** [maybeRebalance]. *)
Definition bal (l : tree) (n : node) (r : tree) : tree :=
  let b := ht r - ht l in
  if 1 <? Z.abs b then
    let d := 0 <? b in
    let c := if d then r else l in
    let c := if balance c =? (if d then -1 else 1) then rotate d c else c in
    rotate (negb d) (if d then N l n c else N c n r)
  else N l n r.

Record frame := MkFrame { dir : bool; top : node; sibling : tree }.

Fixpoint plug (ctx : list frame) (t : tree) : tree :=
  match ctx with [] => t | f :: ctx => plug ctx (mk (dir f) t (top f) (sibling f)) end.

Definition mk_bal (d : bool) (x : tree) (n : node) (y : tree) : tree := if d then bal y n x else bal x n y.

(** The tree after a change at the hole. *)
Fixpoint rebuild (ctx : list frame) (t : tree) : tree :=
  match ctx with [] => t | f :: ctx => rebuild ctx (mk_bal (dir f) t (top f) (sibling f)) end.

(** The nodes in front of the hole and behind it. *)
Fixpoint before (ctx : list frame) : list node :=
  match ctx with
  | [] => []
  | f :: ctx => before ctx ++ (if dir f then nodes (sibling f) ++ [top f] else [])
  end.
Fixpoint behind (ctx : list frame) : list node :=
  match ctx with
  | [] => []
  | f :: ctx => (if dir f then [] else top f :: nodes (sibling f)) ++ behind ctx
  end.

Lemma nodes_mk d x n y : nodes (mk d x n y) = (if d then nodes y ++ [n] else []) ++ nodes x ++ (if d then [] else n :: nodes y).
Proof. destruct d; cbn [mk nodes]; by rewrite ?app_nil_r, <- ?app_assoc. Qed.

Lemma nodes_plug ctx : forall t, nodes (plug ctx t) = before ctx ++ nodes t ++ behind ctx.
Proof.
  induction ctx as [|f ctx IH]; intros t; cbn [plug before behind]; [by rewrite app_nil_r|].
  rewrite IH, nodes_mk. by rewrite <- !app_assoc.
Qed.

Lemma nodes_rotate d t : nodes (rotate d t) = nodes t.
Proof.
  destruct d, t as [|l n r]; try done; cbn [rotate].
  - destruct l as [|ll c lr]; [done|]. cbn [nodes]. by rewrite <- app_assoc.
  - destruct r as [|rl c rr]; [done|]. cbn [nodes]. by rewrite <- app_assoc.
Qed.

Lemma nodes_bal l n r : nodes (bal l n r) = nodes l ++ n :: nodes r.
Proof.
  unfold bal. destruct (1 <? _); [|done]. destruct (0 <? _).
  - rewrite nodes_rotate. cbn [nodes]. destruct (_ =? _); by rewrite ?nodes_rotate.
  - rewrite nodes_rotate. cbn [nodes]. destruct (_ =? _); by rewrite ?nodes_rotate.
Qed.

Lemma nodes_rebuild ctx : forall t, nodes (rebuild ctx t) = before ctx ++ nodes t ++ behind ctx.
Proof.
  induction ctx as [|f ctx IH]; intros t; cbn [rebuild before behind]; [by rewrite app_nil_r|].
  rewrite IH. unfold mk_bal. destruct (dir f); rewrite nodes_bal; by rewrite <- ?app_assoc.
Qed.

Lemma ht_nonneg t : 0 <= ht t.
Proof. induction t; cbn [ht]; lia. Qed.

(** Rebalancing a tree that is off by at most two. *)
Lemma avl_bal l n r :
  avl l -> avl r -> Z.abs (ht r - ht l) <= 2 ->
  avl (bal l n r) /\ Z.max (ht l) (ht r) <= ht (bal l n r) <= Z.max (ht l) (ht r) + 1
  /\ (Z.abs (ht r - ht l) <= 1 -> ht (bal l n r) = Z.max (ht l) (ht r) + 1).
Proof.
  intros Hl Hr Hd. unfold bal. destruct (Z.ltb_spec 1 (Z.abs (ht r - ht l))); [|cbn [avl ht]; split_and!; done || lia].
  destruct (Z.ltb_spec 0 (ht r - ht l)).
  - destruct r as [|rl c rr]; [cbn in *; pose proof (ht_nonneg l); lia|].
    cbn [balance]. destruct (Z.eqb_spec (ht rr - ht rl) (-1)).
    + destruct rl as [|rll g rlr]; [cbn in *; pose proof (ht_nonneg rr); lia|].
      cbn [rotate negb avl ht] in *. split_and!; destruct_and?; try done; lia.
    + cbn [rotate negb avl ht] in *. split_and!; destruct_and?; try done; lia.
  - destruct l as [|ll c lr]; [cbn in *; pose proof (ht_nonneg r); lia|].
    cbn [balance]. destruct (Z.eqb_spec (ht lr - ht ll) 1).
    + destruct lr as [|lrl g lrr]; [cbn in *; pose proof (ht_nonneg ll); lia|].
      cbn [rotate negb avl ht] in *. split_and!; destruct_and?; try done; lia.
    + cbn [rotate negb avl ht] in *. split_and!; destruct_and?; try done; lia.
Qed.

(** The frames of a balanced tree whose hole had height [h], which keep all
    heights below a limit. *)
Definition limit := 200.
Fixpoint avl_ctx (ctx : list frame) (h : Z) : Prop :=
  match ctx with
  | [] => h <= limit
  | f :: ctx => avl (sibling f) /\ Z.abs (ht (sibling f) - h) <= 1 /\ avl_ctx ctx (Z.max (ht (sibling f)) h + 1)
  end.

Lemma avl_ctx_limit ctx : forall h, avl_ctx ctx h -> h <= limit.
Proof. induction ctx as [|f ctx IH]; intros h; cbn [avl_ctx]; [done|]. intros (_ & _ & Hc). specialize (IH _ Hc). lia. Qed.

Lemma ht_mk d x n y : ht (mk d x n y) = Z.max (ht y) (ht x) + 1.
Proof. destruct d; cbn [mk ht]; lia. Qed.

Lemma avl_plug ctx : forall t, avl (plug ctx t) /\ ht (plug ctx t) <= limit <-> avl t /\ avl_ctx ctx (ht t).
Proof.
  induction ctx as [|f ctx IH]; intros t; cbn [plug avl_ctx]; [done|]. rewrite IH, ht_mk.
  destruct (dir f); cbn [mk avl]; split; intros H; destruct_and?; split_and!; try done; lia.
Qed.

Lemma avl_mk_bal d x n y h :
  avl x -> avl y -> Z.abs (ht x - h) <= 1 -> Z.abs (ht y - h) <= 1 ->
  avl (mk_bal d x n y) /\ Z.abs (ht (mk_bal d x n y) - (Z.max (ht y) h + 1)) <= 1.
Proof.
  intros Hx Hy Hh Hd. unfold mk_bal.
  destruct d; [destruct (avl_bal y n x Hy Hx)|destruct (avl_bal x n y Hx Hy)]; try lia; (split; [done|lia]).
Qed.

Lemma avl_rebuild ctx : forall t h, avl t -> Z.abs (ht t - h) <= 1 -> avl_ctx ctx h -> avl (rebuild ctx t).
Proof.
  induction ctx as [|f ctx IH]; intros t h Ht Hh Hc; cbn [rebuild avl_ctx] in *; [done|].
  destruct Hc as (Hs & Hd & Hc). destruct (avl_mk_bal (dir f) t (top f) (sibling f) h Ht Hs Hh Hd) as [B1 B2].
  by apply (IH _ _ B1 B2).
Qed.

(** A balanced tree is exponentially larger than it is high. *)
Lemma avl_size t : avl t -> 2 ^ ht t <= (zlength (nodes t) + 1) * (zlength (nodes t) + 1).
Proof.
  induction t as [|l IHl n r IHr]; cbn [avl ht nodes]; [done|]. intros (Hl & Hr & Hd).
  specialize (IHl Hl). specialize (IHr Hr). rewrite length_app. cbn [length].
  set (a := zlength (nodes l) + 1) in *. set (b := zlength (nodes r) + 1) in *.
  replace (Z.of_nat (length (nodes l) + S (length (nodes r))) + 1) with (a + b) by lia.
  pose proof (ht_nonneg l). pose proof (ht_nonneg r).
  assert (forall x y X, 0 <= x -> 0 <= y -> 0 <= X -> X <= x * x -> X <= y * y -> X <= x * y) as Hm by nia.
  assert (forall h, 0 <= h -> 2 ^ (h + 1) = 2 * 2 ^ h) as Hp by (intros; rewrite Z.pow_add_r by lia; lia).
  assert (0 <= a /\ 0 <= b) as [Ha Hb] by lia.
  assert (ht r = ht l \/ ht r = ht l + 1 \/ ht l = ht r + 1) as [E|[E|E]] by lia; rewrite E in *.
  - rewrite Z.max_id, Hp by done. specialize (Hm a b (2 ^ ht l)). pose proof (Z.pow_nonneg 2 (ht l)). nia.
  - rewrite Z.max_r, !Hp by lia. rewrite Hp in IHr by done.
    specialize (Hm a b (2 ^ ht l)). pose proof (Z.pow_nonneg 2 (ht l)). nia.
  - rewrite Z.max_l, !Hp by lia. rewrite Hp in IHl by done.
    specialize (Hm a b (2 ^ ht r)). pose proof (Z.pow_nonneg 2 (ht r)). nia.
Qed.

Lemma avl_height t : avl t -> zlength (nodes t) < 2 ^ 64 -> ht t <= 129.
Proof.
  intros Ha Hn. pose proof (avl_size t Ha) as Hs. pose proof (ht_nonneg t).
  assert (2 ^ ht t < 2 ^ 130) as Hl; [|apply Z.pow_lt_mono_r_iff in Hl; lia].
  change (2 ^ 130) with (4 * (2 ^ 64 * 2 ^ 64)). nia.
Qed.

End Avl.

(** ** The store represents a tree *)

Module AvlRep.
Import Avl AVLTree.

Fixpoint elems (t : tree) : gset Z :=
  match t with E => ∅ | N l n r => elems l ∪ {[n]} ∪ elems r end.

Fixpoint uniq (t : tree) : Prop :=
  match t with
  | E => True
  | N l n r => n ∉ elems l /\ n ∉ elems r /\ elems l ## elems r /\ uniq l /\ uniq r
  end.

Fixpoint rep (s : Links) (parent : option node) (t : tree) : Prop :=
  match t with
  | E => True
  | N l n r => s !! n = Some (MkLink (root l) (root r) parent (ht t)) /\ rep s (Some n) l /\ rep s (Some n) r
  end.

Definition mklink (d : bool) (x y parent : option node) (h : Z) : Link :=
  if d then MkLink y x parent h else MkLink x y parent h.

Lemma elems_mk d x n y : elems (mk d x n y) = elems x ∪ {[n]} ∪ elems y.
Proof. destruct d; cbn [mk elems]; set_solver. Qed.

Lemma uniq_mk d x n y :
  uniq (mk d x n y) <-> n ∉ elems x /\ n ∉ elems y /\ elems x ## elems y /\ uniq x /\ uniq y.
Proof. destruct d; cbn [mk uniq]; [|done]. split; intros (? & ? & ? & ? & ?); split_and!; done. Qed.

Lemma rep_mk s parent d x n y :
  rep s parent (mk d x n y) <->
  s !! n = Some (mklink d (root x) (root y) parent (Z.max (ht x) (ht y) + 1)) /\ rep s (Some n) x /\ rep s (Some n) y.
Proof.
  destruct d; cbn [mk rep mklink ht root]; [|done]. rewrite (Z.max_comm (ht y)). by split; intros (? & ? & ?).
Qed.

Lemma root_mk d x n y : root (mk d x n y) = Some n.
Proof. by destruct d. Qed.

Lemma elems_nodes t n : n ∈ elems t <-> In n (nodes t).
Proof.
  induction t as [|l IHl m r IHr]; cbn [elems nodes]; [set_solver|].
  rewrite in_app_iff. cbn [In]. rewrite !elem_of_union, elem_of_singleton, IHl, IHr. firstorder.
Qed.

Lemma uniq_nodes t : uniq t <-> NoDup (nodes t).
Proof.
  induction t as [|l IHl m r IHr]; cbn [uniq nodes]; [split; [constructor|done]|].
  rewrite NoDup_app, NoDup_cons, IHl, IHr.
  setoid_rewrite list_elem_of_In. cbn [In]. setoid_rewrite <- elems_nodes. set_solver.
Qed.

Lemma root_elems t n : root t = Some n -> n ∈ elems t.
Proof. destruct t; cbn [root elems]; [done|]. intros [= ->]. set_solver. Qed.

(** Changes outside of a tree do not touch it. *)
Lemma rep_frame s s' parent t :
  rep s parent t -> (forall q, q ∈ elems t -> s' !! q = s !! q) -> rep s' parent t.
Proof.
  revert parent. induction t as [|l IHl n r IHr]; intros parent; cbn [rep elems]; [done|].
  intros (Hn & Hl & Hr) Hs. split; [rewrite Hs by set_solver; exact Hn|].
  split; [apply IHl|apply IHr]; try done; intros q Hq; apply Hs; set_solver.
Qed.

Lemma rep_insert s parent t q l : rep s parent t -> q ∉ elems t -> rep (<[q := l]> s) parent t.
Proof.
  intros Hr Hq. eapply rep_frame; [exact Hr|]. intros q' Hq'. apply lookup_insert_ne. by intros ->.
Qed.

Lemma height_rep s parent t : rep s parent t -> height_of (root t) s = Some (ht t).
Proof. destruct t as [|l n r]; cbn [rep root height_of]; [done|]. by intros (-> & _ & _). Qed.

Lemma modify_spec f n s l : s !! n = Some l -> modify f n s = Some (<[n := f l]> s).
Proof. unfold modify. by intros ->. Qed.

(** The height of a node whose children are right. *)
Lemma update_spec s n d x y px py parent h :
  s !! n = Some (mklink d (root x) (root y) parent h) -> rep s px x -> rep s py y -> ht x < 255 -> ht y < 255 ->
  update n s = Some (<[n := mklink d (root x) (root y) parent (Z.max (ht x) (ht y) + 1)]> s).
Proof.
  intros Hn Hx%height_rep Hy%height_rep Lx Ly. unfold update. rewrite Hn. cbn [mbind option_bind].
  assert (u8 (Z.max (ht x) (ht y) + 1) = Z.max (ht x) (ht y) + 1) as Hu.
  { pose proof (ht_nonneg x). pose proof (ht_nonneg y). apply Z.mod_small. lia. }
  destruct d; cbn [mklink mLeft mRight]; rewrite Hx, Hy; cbn [mbind option_bind];
    rewrite (modify_spec _ _ _ _ Hn); unfold set_height; cbn [mklink mLeft mRight mParent]; [rewrite Z.max_comm|]; by rewrite Hu.
Qed.

Lemma balance_spec s n l r pl pr parent h :
  s !! n = Some (MkLink (root l) (root r) parent h) -> rep s pl l -> rep s pr r -> balance n s = Some (ht r - ht l).
Proof.
  intros Hn Hl%height_rep Hr%height_rep. unfold balance. rewrite Hn. cbn [mbind option_bind mLeft mRight].
  by rewrite Hl, Hr.
Qed.

Lemma mklink_child d x y p h : child d (mklink d x y p h) = x /\ child (negb d) (mklink d x y p h) = y.
Proof. by destruct d. Qed.
Lemma mklink_parent d x y p h : mParent (mklink d x y p h) = p.
Proof. by destruct d. Qed.
Lemma mklink_set_parent d x y p h q : set_parent q (mklink d x y p h) = mklink d x y q h.
Proof. by destruct d. Qed.
Lemma mklink_set_child d x y p h q :
  set_child d q (mklink d x y p h) = mklink d q y p h /\ set_child (negb d) q (mklink d x y p h) = mklink d x q p h.
Proof. by destruct d. Qed.
Lemma mklink_flip d x y p h : mklink d x y p h = mklink (negb d) y x p h.
Proof. by destruct d. Qed.

(** The parent of a root is changed. *)
Lemma reparent s p p' t : rep s p t -> uniq t ->
  exists s', set_parent_of (root t) p' s = Some s' /\ rep s' p' t /\ (forall q, root t <> Some q -> s' !! q = s !! q).
Proof.
  destruct t as [|l n r]; cbn [rep uniq root set_parent_of]; intros Hr Hu; [by exists s|].
  destruct Hr as (Hn & Hl & Hr), Hu as (U1 & U2 & _). rewrite (modify_spec _ _ _ _ Hn).
  eexists. split; [done|]. split; [|by intros q Hq; apply lookup_insert_ne; congruence].
  split; [by rewrite lookup_insert_eq|]. split; by apply rep_insert.
Qed.

(** Lookups behind changes of other nodes. *)
Ltac look := repeat first [rewrite lookup_insert_eq | rewrite lookup_insert_ne by set_solver].

Lemma rotate_rep s n d x c y z parent h hc :
  s !! n = Some (mklink d (root x) (Some c) parent h) -> s !! c = Some (mklink d (root y) (root z) (Some n) hc) ->
  rep s (Some n) x -> rep s (Some c) y -> rep s (Some c) z -> uniq (mk d x n (mk d y c z)) ->
  ht x < 250 -> ht y < 250 -> ht z < 250 ->
  exists s', rotate n d s = Some (c, s') /\ rep s' parent (mk d (mk d x n y) c z)
    /\ forall q, q ∉ elems (mk d x n (mk d y c z)) -> s' !! q = s !! q.
Proof.
  intros Hn Hc Hx Hy Hz Hu Lx Ly Lz. rewrite !uniq_mk, !elems_mk in Hu.
  destruct Hu as (U1 & U2 & U3 & Ux & U4 & U5 & U6 & Uy & Uz).
  assert (n <> c) as Hnc by set_solver.
  unfold rotate. rewrite Hn. cbn [mbind option_bind]. rewrite (proj2 (mklink_child _ _ _ _ _)). cbn [mbind option_bind].
  rewrite mklink_parent, (modify_spec _ _ _ _ Hc). cbn [mbind option_bind]. rewrite mklink_set_parent.
  erewrite modify_spec by (look; exact Hn). cbn [mbind option_bind]. rewrite mklink_set_parent. look. cbn [mbind option_bind].
  rewrite (proj1 (mklink_child _ _ _ _ _)).
  set (s1 := <[n := _]> (<[c := _]> s)).
  assert (rep s1 (Some c) y) as Hy1 by (unfold s1; apply rep_insert; [apply rep_insert; [done|set_solver]|set_solver]).
  destruct (reparent s1 (Some c) (Some n) y Hy1 Uy) as (s2 & E2 & Hy2 & F2).
  change (match root y with Some g => modify (set_parent (Some n)) g s1 | None => Some s1 end)
    with (set_parent_of (root y) (Some n) s1).
  rewrite E2. cbn [mbind option_bind].
  assert (forall q, q ∉ elems y -> s2 !! q = s1 !! q) as F2' by (intros q Hq; apply F2; intros E%root_elems; done).
  assert (s2 !! c = Some (mklink d (root y) (root z) parent hc)) as Hc2
    by (rewrite F2' by set_solver; unfold s1; look; done).
  assert (s2 !! n = Some (mklink d (root x) (Some c) (Some c) h)) as Hn2
    by (rewrite F2' by set_solver; unfold s1; look; done).
  rewrite (modify_spec _ _ _ _ Hc2), (proj1 (mklink_set_child _ _ _ _ _ _)). cbn [mbind option_bind].
  erewrite modify_spec by (look; exact Hn2). rewrite (proj2 (mklink_set_child _ _ _ _ _ _)). cbn [mbind option_bind].
  set (s3 := <[n := _]> (<[c := _]> s2)).
  assert (forall t p, rep s p t -> n ∉ elems t -> c ∉ elems t -> elems t ## elems y -> rep s3 p t) as Hrep.
  { intros t p Ht T1 T2 T3. apply rep_insert; [|done]. apply rep_insert; [|done]. eapply rep_frame; [exact Ht|].
    intros q Hq. rewrite F2' by set_solver. unfold s1. by look. }
  assert (rep s3 (Some n) x) as Hx3 by (apply Hrep; set_solver).
  assert (rep s3 (Some c) z) as Hz3 by (apply Hrep; set_solver).
  assert (rep s3 (Some n) y) as Hy3 by (apply rep_insert; [apply rep_insert; [done|set_solver]|set_solver]).
  rewrite (update_spec s3 n d x y (Some n) (Some n) (Some c) h) by (done || lia || by unfold s3; look).
  cbn [mbind option_bind]. set (s4 := <[n := _]> s3).
  assert (rep s4 (Some c) (mk d x n y)) as Hm4.
  { apply rep_mk. unfold s4. split; [by look|]. split; apply rep_insert; done || set_solver. }
  assert (rep s4 (Some c) z) as Hz4 by (apply rep_insert; [done|set_solver]).
  rewrite (update_spec s4 c d (mk d x n y) z (Some c) (Some c) parent hc);
    [|unfold s4, s3; rewrite root_mk; by look|done..|rewrite ht_mk; lia|lia].
  cbn [mbind option_bind]. eexists. split; [done|]. split.
  - apply rep_mk. split; [by look|]. split; apply rep_insert; try done; rewrite ?elems_mk; set_solver.
  - intros q Hq. rewrite !elems_mk in Hq. look. unfold s4, s3. look. rewrite F2' by set_solver. unfold s1. by look.
Qed.

Lemma mk_flip d x n y : mk (negb d) x n y = mk d y n x.
Proof. by destruct d. Qed.

Lemma rotate_mk d x n y c z : Avl.rotate d (mk d x n (mk d y c z)) = mk d (mk d x n y) c z.
Proof. by destruct d. Qed.

Lemma rotate_mk_flip d x n y c z : Avl.rotate (negb d) (mk d (mk d z c y) n x) = mk d z c (mk d y n x).
Proof. by destruct d. Qed.

Lemma rep_link s parent d x n y : rep s parent (mk d x n y) -> exists h, s !! n = Some (mklink d (root x) (root y) parent h).
Proof. intros (E & _ & _)%rep_mk. eauto. Qed.

Lemma mk_nonempty d t : 0 < ht t -> exists x n y, t = mk d x n y.
Proof. destruct t as [|l n r]; [cbn; lia|]. intros _. destruct d; [by exists r, n, l|by exists l, n, r]. Qed.

Lemma balance_mk d x n y : Avl.balance (mk d x n y) = if d then ht x - ht y else ht y - ht x.
Proof. by destruct d. Qed.

Lemma avl_mk d x n y : avl (mk d x n y) <-> avl x /\ avl y /\ Z.abs (ht x - ht y) <= 1.
Proof. destruct d; cbn [mk avl]; split; intros (? & ? & ?); split_and!; done || lia. Qed.

Ltac ht_lia :=
  repeat match goal with
    | t : tree |- _ => lazymatch goal with H : 0 <= ht t |- _ => fail | _ => pose proof (ht_nonneg t) end
    end;
  rewrite ?ht_mk in *; repeat match goal with d : bool |- _ => destruct d end; lia.

(** The child of a node whose other child is two lower is rotated to the top,
    after it was rotated itself where its inner child is the higher one. *)
Lemma rebalance_rep s n d c o parent h :
  s !! n = Some (mklink d (root c) (root o) parent h) -> rep s (Some n) c -> rep s (Some n) o ->
  avl c -> ht c = ht o + 2 -> uniq (mk d c n o) -> ht c <= limit + 1 ->
  let t := Avl.rotate (negb d) (mk d (if Avl.balance c =? (if d then -1 else 1) then Avl.rotate d c else c) n o) in
  exists m s', rebalance_node n d s = Some (m, s') /\ root t = Some m /\ rep s' parent t
    /\ forall q, q ∉ elems (mk d c n o) -> s' !! q = s !! q.
Proof.
  intros Hn Hc Ho Ac Hh Hu Hlim. pose proof (ht_nonneg o) as Hpos. unfold limit in Hlim.
  destruct (mk_nonempty d c) as (y & m & z & ->); [lia|].
  apply avl_mk in Ac as (Ay & Az & Hb). rewrite ht_mk in Hh, Hlim. cbv zeta.
  pose proof Hc as Hc'. apply rep_mk in Hc' as (Hm & Hy & Hz).
  unfold rebalance_node. rewrite Hn. cbn [mbind option_bind]. rewrite (proj1 (mklink_child _ _ _ _ _)), root_mk.
  cbn [mbind option_bind].
  assert (AVLTree.balance m s = Some (Avl.balance (mk d y m z))) as ->.
  { destruct d; cbn [mklink mk Avl.balance] in *; by eapply balance_spec. }
  cbn [mbind option_bind]. rewrite balance_mk.
  destruct (Z.eqb_spec (if d then ht y - ht z else ht z - ht y) (if d then -1 else 1)) as [E|E].
  - (* the inner child is higher *)
    destruct (mk_nonempty d z) as (z1 & g & z2 & ->); [ht_lia|].
    rewrite rotate_mk, rotate_mk_flip. rewrite ht_mk in *.
    destruct (rep_link _ _ _ _ _ _ Hz) as (hg & Hg). apply rep_mk in Hz as (_ & Hz1 & Hz2).
    pose proof Hu as Hu0. rewrite !uniq_mk, !elems_mk in Hu0.
    destruct Hu0 as (U1 & U2 & U3 & (U4 & U5 & U6 & Uy & U7 & U8 & U9 & Uz1 & Uz2) & Uo). rewrite root_mk in Hm, Hn.
    destruct (rotate_rep s m d y g z1 z2 (Some n) _ hg Hm Hg Hy Hz1 Hz2) as (s1 & E1 & R1 & F1);
      [rewrite !uniq_mk, !elems_mk; split_and!; done|ht_lia..|].
    rewrite !elems_mk in F1. rewrite E1. cbn [mbind option_bind].
    rewrite (modify_spec _ _ _ (mklink d (Some m) (root o) parent h)) by (rewrite F1 by set_solver; exact Hn).
    rewrite (proj1 (mklink_set_child _ _ _ _ _ _)). cbn [mbind option_bind].
    set (s2 := <[n := _]> s1).
    assert (rep s2 (Some n) (mk d (mk d y m z1) g z2)) as R2 by (apply rep_insert; [done|rewrite !elems_mk; set_solver]).
    assert (rep s2 (Some n) o) as Ho2.
    { apply rep_insert; [|done]. eapply rep_frame; [exact Ho|]. intros q Hq. apply F1. set_solver. }
    destruct (rep_link _ _ _ _ _ _ R2) as (hg' & Hg2). apply rep_mk in R2 as (_ & R2a & R2b).
    rewrite mklink_flip in Hg2.
    destruct (rotate_rep s2 n (negb d) o g z2 (mk d y m z1) parent h hg') as (s3 & E3 & R3 & F3);
      [unfold s2; rewrite lookup_insert_eq; by rewrite mklink_flip|done|done|done|done| | | | |].
    2, 3, 4 : ht_lia.
    { rewrite !mk_flip, !uniq_mk, !elems_mk. split_and!; try done; set_solver. }
    rewrite E3. rewrite !mk_flip in R3. exists g, s3. split; [done|]. split; [by rewrite root_mk|]. split; [exact R3|].
    intros q Hq. rewrite !elems_mk in Hq. rewrite F3 by (rewrite !mk_flip, !elems_mk; set_solver).
    unfold s2. rewrite lookup_insert_ne by set_solver. apply F1. set_solver.
  - rewrite rotate_mk_flip. cbn [mbind option_bind]. rewrite root_mk in Hn. rewrite mklink_flip in Hn, Hm.
    destruct (rotate_rep s n (negb d) o m z y parent h _ Hn Hm Ho Hz Hy) as (s1 & E1 & R1 & F1).
    2, 3, 4 : ht_lia.
    { rewrite !mk_flip, !uniq_mk, !elems_mk in *. destruct Hu as (? & ? & ? & (? & ? & ? & ? & ?) & ?). split_and!; try done; set_solver. }
    rewrite E1. rewrite !mk_flip in *. exists m, s1. split; [done|]. split; [by rewrite root_mk|]. split; [exact R1|].
    intros q Hq. apply F1. rewrite !elems_mk in *. set_solver.
Qed.

Lemma bal_mk (d : bool) c n o : ht c = ht o + 2 ->
  bal (if d then o else c) n (if d then c else o)
  = Avl.rotate (negb d) (mk d (if Avl.balance c =? (if d then -1 else 1) then Avl.rotate d c else c) n o).
Proof.
  intros Hh. unfold bal. destruct d.
  - rewrite (proj2 (Z.ltb_lt _ _)), (proj2 (Z.ltb_lt _ _)) by lia. done.
  - rewrite (proj2 (Z.ltb_lt 1 _)), (proj2 (Z.ltb_ge 0 _)) by lia. done.
Qed.

Lemma maybeRebalance_rep s n l r parent h :
  s !! n = Some (MkLink (root l) (root r) parent h) -> rep s (Some n) l -> rep s (Some n) r ->
  avl l -> avl r -> Z.abs (ht r - ht l) <= 2 -> uniq (N l n r) -> ht l <= limit + 1 -> ht r <= limit + 1 ->
  exists m s', maybeRebalance n s = Some (m, s') /\ root (bal l n r) = Some m /\ rep s' parent (bal l n r)
    /\ forall q, q ∉ elems (N l n r) -> s' !! q = s !! q.
Proof.
  intros Hn Hl Hr Al Ar Hd Hu Ll Lr. unfold maybeRebalance.
  rewrite (balance_spec _ _ _ _ _ _ _ _ Hn Hl Hr). cbn [mbind option_bind].
  destruct (Z.ltb_spec 1 (Z.abs (ht r - ht l))) as [Hb|Hb].
  - destruct (Z.ltb_spec 0 (ht r - ht l)).
    + rewrite (bal_mk true r n l) by lia. by eapply (rebalance_rep s n true r l); try done; lia.
    + rewrite (bal_mk false l n r) by lia. by eapply (rebalance_rep s n false l r); try done; lia.
  - unfold limit in *. rewrite (update_spec s n false l r _ _ parent h Hn Hl Hr) by lia. cbn [mbind option_bind].
    assert (bal l n r = N l n r) as -> by (unfold bal; by rewrite (proj2 (Z.ltb_ge _ _))).
    eexists _, _. split; [done|]. split; [done|]. cbn [uniq elems] in *.
    split; [|intros q Hq; apply lookup_insert_ne; set_solver].
    cbn [rep ht]. split; [by rewrite lookup_insert_eq|]. split; apply rep_insert; done || set_solver.
Qed.

(** *** The way to the root *)

(** Frames below a node [p], or of the whole way ([None]). *)
Definition ctx_par (p : option node) (ctx : list frame) : option node :=
  match ctx with [] => p | f :: _ => Some (top f) end.

Fixpoint ctx_root (ctx : list frame) (hole : option node) : option node :=
  match ctx with [] => hole | f :: ctx => ctx_root ctx (Some (top f)) end.

Fixpoint rep_ctx (s : Links) (p : option node) (ctx : list frame) (hole : option node) : Prop :=
  match ctx with
  | [] => True
  | f :: ctx =>
      (exists h, s !! top f = Some (mklink (dir f) hole (root (sibling f)) (ctx_par p ctx) h))
      /\ rep s (Some (top f)) (sibling f) /\ rep_ctx s p ctx (Some (top f))
  end.

Fixpoint elems_ctx (ctx : list frame) : gset Z :=
  match ctx with [] => ∅ | f :: ctx => {[top f]} ∪ elems (sibling f) ∪ elems_ctx ctx end.

Fixpoint uniq_ctx (ctx : list frame) : Prop :=
  match ctx with
  | [] => True
  | f :: ctx => top f ∉ elems (sibling f) /\ top f ∉ elems_ctx ctx /\ elems (sibling f) ## elems_ctx ctx
                /\ uniq (sibling f) /\ uniq_ctx ctx
  end.

Lemma elems_plug ctx : forall t, elems (plug ctx t) = elems t ∪ elems_ctx ctx.
Proof.
  induction ctx as [|f ctx IH]; intros t; cbn [plug elems_ctx]; [set_solver|]. rewrite IH, elems_mk. set_solver.
Qed.

Lemma uniq_plug ctx : forall t, uniq (plug ctx t) <-> uniq t /\ uniq_ctx ctx /\ elems t ## elems_ctx ctx.
Proof.
  induction ctx as [|f ctx IH]; intros t; cbn [plug elems_ctx uniq_ctx]; [set_solver|].
  rewrite IH, uniq_mk, elems_mk. split; intros H; destruct_and?; split_and!; done || set_solver.
Qed.

Lemma rep_plug s p ctx : forall t, rep s p (plug ctx t) -> rep_ctx s p ctx (root t) /\ rep s (ctx_par p ctx) t.
Proof.
  induction ctx as [|f ctx IH]; intros t; cbn [plug rep_ctx ctx_par]; [done|]. intros Hr.
  destruct (IH _ Hr) as [Hc Hm]. rewrite root_mk in Hc. apply rep_mk in Hm as (Hn & Ht & Hs).
  split; [|done]. split_and!; eauto.
Qed.

Lemma root_plug ctx : forall t, root (plug ctx t) = ctx_root ctx (root t).
Proof. induction ctx as [|f ctx IH]; intros t; cbn [plug ctx_root]; [done|]. by rewrite IH, root_mk. Qed.

Lemma rep_ctx_frame s s' p ctx hole :
  rep_ctx s p ctx hole -> (forall q, q ∈ elems_ctx ctx -> s' !! q = s !! q) -> rep_ctx s' p ctx hole.
Proof.
  revert hole. induction ctx as [|f ctx IH]; intros hole; cbn [rep_ctx elems_ctx]; [done|].
  intros ((h & Hn) & Hs & Hc) Hq. split_and!.
  - exists h. by rewrite Hq by set_solver.
  - eapply rep_frame; [exact Hs|]. intros q Hin. apply Hq. set_solver.
  - apply IH; [done|]. intros q Hin. apply Hq. set_solver.
Qed.

Lemma elems_bal l n r : elems (bal l n r) = elems (N l n r).
Proof. apply set_eq. intros q. by rewrite !elems_nodes, nodes_bal. Qed.
Lemma uniq_bal l n r : uniq (bal l n r) <-> uniq (N l n r).
Proof. by rewrite !uniq_nodes, nodes_bal. Qed.

Lemma disjoint_parts (X A B : gset Z) p : X ## {[p]} ∪ A ∪ B -> p ∉ X /\ A ## X /\ B ## X.
Proof. set_solver. Qed.

(** Rebalancing from a node upwards makes the store represent the rebuilt tree. *)
Lemma rebalance_spec ctx : forall fuel l n r t h0 h,
  links t !! n = Some (MkLink (root l) (root r) (ctx_par None ctx) h0) ->
  rep (links t) (Some n) l -> rep (links t) (Some n) r -> avl l -> avl r -> Z.abs (ht r - ht l) <= 2 ->
  ht l <= limit + 1 -> ht r <= limit + 1 -> Z.abs (ht (bal l n r) - h) <= 1 -> avl_ctx ctx h ->
  rep_ctx (links t) None ctx (Some n) -> mRoot t = ctx_root ctx (Some n) -> uniq (plug ctx (N l n r)) ->
  (length ctx < fuel)%nat ->
  exists s', rebalance fuel n t = Some (MkTree s' (root (rebuild ctx (bal l n r))) (mSize t))
    /\ rep s' None (rebuild ctx (bal l n r))
    /\ forall q, q ∉ elems (plug ctx (N l n r)) -> s' !! q = links t !! q.
Proof.
  induction ctx as [|f ctx IH]; intros fuel l n r t h0 h Hn Hl Hr Al Ar Hd Ll Lr Hh Hc Hrc Hroot Hu Hf;
    (destruct fuel as [|fuel]; [cbn in Hf; lia|]); pose proof Hu as Hu'; rewrite uniq_plug in Hu'; destruct Hu' as (U1 & U2 & U3);
    destruct (maybeRebalance_rep (links t) n l r _ h0 Hn Hl Hr Al Ar Hd U1 Ll Lr) as (m & s1 & E1 & Rt & R1 & F1);
    cbn [rebalance]; rewrite Hn; cbn [mbind option_bind mParent ctx_par].
  { rewrite E1. cbn [mbind option_bind rebuild plug]. exists s1. by rewrite Rt. }
  cbn [rep_ctx elems_ctx uniq_ctx avl_ctx plug rebuild ctx_root length] in *.
  destruct Hrc as ((hp & Hp) & Hs & Hrc), U2 as (V1 & V2 & V3 & V4 & V5), Hc as (As & Ds & Hc).
  rewrite Hp. cbn [mbind option_bind].
  assert (top f ∉ elems (N l n r) /\ elems (sibling f) ## elems (N l n r) /\ elems_ctx ctx ## elems (N l n r))
    as (O1 & O2 & O3) by by apply disjoint_parts.
  assert (n ∈ elems (N l n r)) as On by (apply elems_nodes; cbn [nodes]; apply in_app_iff; right; by left).
  assert (negb (bool_decide (mLeft (mklink (dir f) (Some n) (root (sibling f)) (ctx_par None ctx) hp) = Some n)) = dir f) as ->.
  { destruct (dir f); cbn [mklink mLeft]; [|by rewrite bool_decide_eq_true_2].
    rewrite bool_decide_eq_false_2; [done|]. intros E%root_elems. by apply (O2 n). }
  rewrite E1. cbn [mbind option_bind].
  rewrite (modify_spec _ _ _ (mklink (dir f) (Some n) (root (sibling f)) (ctx_par None ctx) hp)) by (rewrite F1 by done; exact Hp).
  rewrite (proj1 (mklink_set_child _ _ _ _ _ _)). cbn [mbind option_bind]. rewrite <- Rt. set (s2 := <[top f := _]> s1).
  pose proof (proj1 (avl_bal l n r Al Ar Hd)) as Ab. pose proof (avl_ctx_limit _ _ Hc) as Hlim.
  assert (rep s2 (Some (top f)) (bal l n r)) as R2 by (apply rep_insert; [exact R1|by rewrite elems_bal]).
  assert (rep s2 (Some (top f)) (sibling f)) as Hs2.
  { apply rep_insert; [|done]. eapply rep_frame; [exact Hs|]. intros q Hq. apply F1. intros Hq'. by apply (O2 q). }
  assert (rep_ctx s2 None ctx (Some (top f))) as Hrc2.
  { eapply rep_ctx_frame; [exact Hrc|]. intros q Hq. unfold s2. rewrite lookup_insert_ne by (by intros <-).
    apply F1. intros Hq'. by apply (O3 q). }
  destruct (avl_mk_bal (dir f) (bal l n r) (top f) (sibling f) h Ab As Hh Ds) as [_ Hb].
  assert (uniq (plug ctx (mk (dir f) (bal l n r) (top f) (sibling f)))
    /\ elems (plug ctx (mk (dir f) (bal l n r) (top f) (sibling f))) = elems (plug ctx (mk (dir f) (N l n r) (top f) (sibling f))))
    as [Hu2 <-].
  { rewrite uniq_plug, uniq_mk, elems_mk, !elems_plug, !elems_mk, elems_bal, uniq_bal in *. done. }
  assert (forall q, q ∉ elems (plug ctx (mk (dir f) (bal l n r) (top f) (sibling f))) -> s2 !! q = links t !! q) as F2.
  { intros q. rewrite elems_plug, elems_mk, elems_bal. intros Hq. unfold s2.
    rewrite lookup_insert_ne by (clear - Hq; set_solver). apply F1. clear - Hq. set_solver. }
  assert (s2 !! top f = Some (mklink (dir f) (root (bal l n r)) (root (sibling f)) (ctx_par None ctx) hp)) as Hp2
    by apply lookup_insert_eq.
  clearbody s2. unfold mk_bal, mklink, mk in *. set (T := bal l n r) in *. clearbody T.
  pose proof (ht_nonneg T). pose proof (ht_nonneg (sibling f)).
  destruct (dir f).
  - destruct (IH fuel (sibling f) (top f) T (set_links s2 t) hp (Z.max (ht (sibling f)) h + 1)) as (s' & E & R & F);
      try done; [lia..|]. exists s'. split; [exact E|]. split; [exact R|]. intros q Hq. rewrite F by done. by apply F2.
  - destruct (IH fuel T (top f) (sibling f) (set_links s2 t) hp (Z.max (ht (sibling f)) h + 1)) as (s' & E & R & F);
      try done; [lia..|]. exists s'. split; [exact E|]. split; [exact R|]. intros q Hq. rewrite F by done. by apply F2.
Qed.

(** The same for a place whose subtree was replaced. *)
Lemma rebalance_at f ctx fuel o t h :
  rep_ctx (links t) None (f :: ctx) (root o) -> rep (links t) (Some (top f)) o -> avl o -> Z.abs (ht o - h) <= 1 ->
  avl_ctx (f :: ctx) h -> mRoot t = ctx_root ctx (Some (top f)) -> uniq (plug (f :: ctx) o) -> (length ctx < fuel)%nat ->
  exists s', rebalance fuel (top f) t = Some (MkTree s' (root (rebuild (f :: ctx) o)) (mSize t))
    /\ rep s' None (rebuild (f :: ctx) o)
    /\ forall q, q ∉ elems (plug (f :: ctx) o) -> s' !! q = links t !! q.
Proof.
  cbn [rep_ctx avl_ctx plug rebuild]. intros ((hp & Hp) & Hs & Hrc) Ho Ao Hh (As & Ds & Hc) Hroot Hu Hf.
  pose proof (avl_ctx_limit _ _ Hc) as Hlim.
  destruct (avl_mk_bal (dir f) o (top f) (sibling f) h Ao As Hh Ds) as [_ Hb]. unfold mk_bal, mklink, mk in *.
  destruct (dir f).
  - eapply (rebalance_spec ctx fuel (sibling f) (top f) o t hp); try done; lia.
  - eapply (rebalance_spec ctx fuel o (top f) (sibling f) t hp); try done; lia.
Qed.

(** *** Links to places *)

Definition ref (ctx : list frame) : Ref := match ctx with [] => Root | f :: _ => Child (top f) (dir f) end.

Lemma get_link_spec t ctx hole :
  rep_ctx (links t) None ctx hole -> mRoot t = ctx_root ctx hole -> get_link (ref ctx) t = Some hole.
Proof.
  destruct ctx as [|f ctx]; cbn [rep_ctx ctx_root ref get_link]; [by intros _ ->|].
  intros ((h & ->) & _ & _) _. cbn [fmap option_fmap option_map]. by rewrite (proj1 (mklink_child _ _ _ _ _)).
Qed.

Lemma put_link_spec t ctx hole x :
  rep_ctx (links t) None ctx hole -> mRoot t = ctx_root ctx hole -> uniq_ctx ctx ->
  exists t', put_link (ref ctx) x t = Some t' /\ rep_ctx (links t') None ctx x /\ mRoot t' = ctx_root ctx x
    /\ mSize t' = mSize t /\ (forall q, q ∉ elems_ctx ctx -> links t' !! q = links t !! q).
Proof.
  destruct ctx as [|f ctx]; cbn [rep_ctx ctx_root ref put_link uniq_ctx elems_ctx].
  - intros _ _ _. eexists. split; [done|]. done.
  - intros ((h & Hf) & Hs & Hc) Hr (U1 & U2 & U3 & U4 & U5). rewrite (modify_spec _ _ _ _ Hf).
    rewrite (proj1 (mklink_set_child _ _ _ _ _ _)). cbn [mbind option_bind]. eexists. split; [done|].
    unfold set_links. cbn [links mRoot mSize]. split_and!; [|by apply rep_insert| |done|done|].
    + exists h. by rewrite lookup_insert_eq.
    + eapply rep_ctx_frame; [exact Hc|]. intros q Hq. apply lookup_insert_ne. by intros <-.
    + intros q Hq. apply lookup_insert_ne. set_solver.
Qed.

Lemma rep_ctx_app s p a : forall c hole,
  rep_ctx s p (a ++ c) hole <-> rep_ctx s (ctx_par p c) a hole /\ rep_ctx s p c (ctx_root a hole).
Proof.
  induction a as [|f a IH]; intros c hole; cbn [rep_ctx ctx_root app]; [split; [done|by intros [_ ?]]|].
  rewrite IH. assert (ctx_par p (a ++ c) = ctx_par (ctx_par p c) a) as -> by by destruct a. firstorder.
Qed.

Lemma elems_ctx_app a c : elems_ctx (a ++ c) = elems_ctx a ∪ elems_ctx c.
Proof. induction a as [|f a IH]; cbn [elems_ctx app]; [set_solver|]. rewrite IH. set_solver. Qed.

Lemma ctx_root_app a c hole : ctx_root (a ++ c) hole = ctx_root c (ctx_root a hole).
Proof. revert hole. induction a as [|f a IH]; intros hole; cbn [ctx_root app]; [done|]. apply IH. Qed.

Lemma plug_app a c t : plug (a ++ c) t = plug c (plug a t).
Proof. revert t. induction a as [|f a IH]; intros t; cbn [plug app]; [done|]. apply IH. Qed.

Lemma ctx_root_elems a hole q : a <> [] -> ctx_root a hole = Some q -> q ∈ elems_ctx a.
Proof.
  revert hole. induction a as [|f a IH]; intros hole; [done|]. intros _. cbn [ctx_root elems_ctx].
  destruct a as [|g a]; [cbn [ctx_root]; intros [= <-]; set_solver|].
  intros Hq. apply elem_of_union_r. eapply IH; [done|exact Hq].
Qed.

(** The parent of the topmost frame is changed. *)
Lemma reparent_ctx s p p' a hole :
  a <> [] -> rep_ctx s p a hole -> uniq_ctx a ->
  exists s', set_parent_of (ctx_root a hole) p' s = Some s' /\ rep_ctx s' p' a hole
    /\ (forall q, ctx_root a hole <> Some q -> s' !! q = s !! q).
Proof.
  revert hole. induction a as [|f a IH]; intros hole; [done|]. intros _. cbn [rep_ctx ctx_root uniq_ctx].
  intros ((h & Hf) & Hs & Hc) (U1 & U2 & U3 & U4 & U5).
  destruct a as [|g a].
  - cbn [ctx_root set_parent_of ctx_par rep_ctx] in *. rewrite (modify_spec _ _ _ _ Hf), mklink_set_parent.
    eexists. split; [done|]. split; [|intros q Hq; apply lookup_insert_ne; congruence].
    split_and!; [exists h; by rewrite lookup_insert_eq|by apply rep_insert|done].
  - destruct (IH (Some (top f)) ltac:(done) Hc U5) as (s' & E & Hc' & F). exists s'. split; [exact E|].
    assert (forall q, q ∉ elems_ctx (g :: a) -> s' !! q = s !! q) as F'.
    { intros q Hq. apply F. intros Hr%ctx_root_elems; [by apply Hq|done]. }
    split; [|exact F]. split_and!; [exists h; rewrite F' by done; exact Hf| |done].
    eapply rep_frame; [exact Hs|]. intros q Hq. apply F'. intros Hq'. by apply (U3 q).
Qed.

(** *** Trees *)

Definition sorted (key : node -> Z) (l : list node) : Prop := StronglySorted (fun a b => key a < key b) l.

Record repr (key : node -> Z) (t : Tree) (tr : tree) : Prop := {
  repr_root : mRoot t = root tr;
  repr_rep : rep (links t) None tr;
  repr_avl : avl tr;
  repr_sorted : sorted key (nodes tr);
  repr_size : mSize t = zlength (nodes tr);
  repr_small : zlength (nodes tr) < 2 ^ 64
}.

Lemma in_order_app key a b : sorted key (a ++ b) <->
  sorted key a /\ sorted key b /\ forall x y, In x a -> In y b -> key x < key y.
Proof.
  unfold sorted. induction a as [|x a IH]; cbn [app].
  - split; [|by intros (_ & ? & _)]. intros H. split_and!; [constructor|done|by intros ? ? []].
  - split.
    + intros [Ha Hx]%StronglySorted_inv. apply IH in Ha as (Ha & Hb & Hab). apply Forall_app in Hx as [Hx Hxb].
      split_and!; [by constructor|done|]. intros y z [<-|Hy] Hz; [|by apply Hab].
      rewrite List.Forall_forall in Hxb. by apply Hxb.
    + intros ([Ha Hx]%StronglySorted_inv & Hb & Hab). constructor; [apply IH; split_and!; try done; intros; apply Hab; [by right|done]|].
      apply Forall_app. split; [done|]. apply List.Forall_forall. intros y Hy. apply Hab; [by left|done].
Qed.

Lemma sorted_remove key a n b : sorted key (a ++ n :: b) -> sorted key (a ++ b).
Proof.
  rewrite !in_order_app. intros (Ha & [Hb _]%StronglySorted_inv & Hab). split_and!; [done|done|].
  intros x y Hx Hy. apply Hab; [done|by right].
Qed.

Lemma in_order_nodup key l : sorted key l -> NoDup l.
Proof.
  induction 1 as [|x l Hl IH Hx]; constructor; [|done]. intros Hin%list_elem_of_In.
  rewrite List.Forall_forall in Hx. specialize (Hx x Hin). lia.
Qed.

Lemma in_order_ext key key' l : (forall n, In n l -> key n = key' n) -> sorted key l -> sorted key' l.
Proof.
  intros He. induction 1 as [|x l Hl IH Hx]; constructor.
  - apply IH. intros n Hn. apply He. by right.
  - rewrite List.Forall_forall in *. intros y Hy. rewrite <- (He x (or_introl eq_refl)), <- (He y (or_intror Hy)). by apply Hx.
Qed.

Lemma repr_uniq key t tr : repr key t tr -> uniq tr.
Proof. intros Hr. apply uniq_nodes. eapply in_order_nodup, repr_sorted, Hr. Qed.

Lemma ctx_length ctx : forall t, (length ctx + length (nodes t) <= length (nodes (plug ctx t)))%nat.
Proof.
  induction ctx as [|f ctx IH]; intros t; cbn [plug length]; [lia|]. specialize (IH (mk (dir f) t (top f) (sibling f))).
  rewrite nodes_mk, !length_app in IH. destruct (dir f); cbn [length] in IH; rewrite ?length_app in IH; cbn [length] in IH; lia.
Qed.

(** What an operation at a place needs to know of it. *)
Lemma repr_place key t ctx sub : repr key t (plug ctx sub) ->
  rep_ctx (links t) None ctx (root sub) /\ rep (links t) (ctx_par None ctx) sub /\ mRoot t = ctx_root ctx (root sub)
  /\ avl sub /\ avl_ctx ctx (ht sub) /\ uniq sub /\ uniq_ctx ctx /\ elems sub ## elems_ctx ctx
  /\ (length ctx + length (nodes sub) < fuel t)%nat.
Proof.
  intros Hr. pose proof (repr_uniq _ _ _ Hr) as Hu. destruct Hr as [R1 R2 R3 R4 R5 R6].
  apply uniq_plug in Hu as (U1 & U2 & U3). destruct (rep_plug _ _ _ _ R2) as [P1 P2].
  pose proof (avl_height _ R3 R6) as Hh. destruct (proj1 (avl_plug ctx sub)) as [A1 A2]; [unfold limit; split; [done|lia]|].
  rewrite root_plug in R1. split_and!; try done. unfold fuel. rewrite R5. pose proof (ctx_length ctx sub). lia.
Qed.

(** *** Searching *)

Section search.
Context (key : node -> Z).

Lemma compare_spec a b :
  a < b /\ compare a b = -1 \/ a = b /\ compare a b = 0 \/ b < a /\ compare a b = 1.
Proof. unfold compare. destruct (Z.ltb_spec a b); [by left|]. destruct (Z.ltb_spec b a); [by right; right|]. right. left. lia. Qed.

(** The place of a key: all nodes in front of it have smaller ones, those behind it
    greater ones. *)
Record place (tr : tree) (k : Z) (ctx : list frame) (sub : tree) : Prop := {
  pl_plug : plug ctx sub = tr;
  pl_found : sub = E \/ exists l n r, sub = N l n r /\ key n = k;
  pl_before : forall m, In m (before ctx) -> key m < k;
  pl_behind : forall m, In m (behind ctx) -> k < key m
}.

Lemma findLink_loop_spec k t tr : repr key t tr -> forall sub ctx fuel,
  plug ctx sub = tr -> (forall m, In m (before ctx) -> key m < k) -> (forall m, In m (behind ctx) -> k < key m) ->
  (length (nodes sub) < fuel)%nat ->
  exists ctx' sub', findLink_loop key fuel k (ctx_par None ctx) (ref ctx) t = Some (ctx_par None ctx', ref ctx')
    /\ place tr k ctx' sub'.
Proof.
  intros Hr. induction sub as [|l IHl n r IHr]; intros ctx fuel Hp Hb Ha Hf; subst tr;
    (destruct fuel as [|fuel]; [lia|]); destruct (repr_place _ _ _ _ Hr) as (P1 & P2 & P3 & _);
    cbn [findLink_loop]; rewrite (get_link_spec t ctx _ P1 P3); cbn [mbind option_bind root].
  { exists ctx, E. split; [done|]. split; [done|by left|done|done]. }
  cbn [nodes] in Hf. rewrite length_app in Hf. cbn [length] in Hf.
  pose proof (repr_sorted _ _ _ Hr) as Hs. rewrite nodes_plug in Hs. cbn [nodes] in Hs.
  apply in_order_app in Hs as (_ & [[_ Hs]%in_order_app _]%in_order_app & _).
  assert (sorted key (nodes l ++ n :: nodes r)) as Hs'.
  { pose proof (repr_sorted _ _ _ Hr) as Hs'. rewrite nodes_plug in Hs'. cbn [nodes] in Hs'.
    apply in_order_app in Hs' as (_ & [Hs' _]%in_order_app & _). exact Hs'. }
  apply in_order_app in Hs' as (_ & [_ Hn]%StronglySorted_inv & Hln). rewrite List.Forall_forall in Hn.
  destruct (compare_spec k (key n)) as [[Hk ->]|[[Hk ->]|[Hk ->]]]; cbn [Z.eqb Z.ltb Z.compare].
  - apply (IHl (MkFrame false n r :: ctx)); [done|cbn [before dir]; by rewrite app_nil_r| |lia].
    intros m. cbn [behind dir top sibling]. rewrite in_app_iff. intros [[<-|Hm]|Hm]; [done|specialize (Hn _ Hm); lia|by apply Ha].
  - exists ctx, (N l n r). split; [done|]. split; [done| |done|done]. right. by exists l, n, r.
  - apply (IHr (MkFrame true n l :: ctx)); [done| |cbn [behind dir app]; done|lia].
    intros m. cbn [before dir top sibling]. rewrite !in_app_iff. intros [Hm|[Hm|[<-|[]]]]; [by apply Hb| |done].
    specialize (Hln _ _ Hm (or_introl eq_refl)). lia.
Qed.

Lemma findLink_spec k t tr : repr key t tr ->
  exists ctx sub, findLink key k t = Some (ctx_par None ctx, ref ctx) /\ place tr k ctx sub.
Proof.
  intros Hr. apply (findLink_loop_spec k t tr Hr tr []); [done|by intros ? []..|].
  pose proof (repr_size _ _ _ Hr). unfold fuel. lia.
Qed.

(** In an ordered list a search by key splits the list. *)
Lemma find_sorted (P : Z -> bool) a n b :
  (forall x y, x < y -> P x = true -> P y = true) -> sorted key (a ++ n :: b) ->
  List.find (fun m => P (key m)) (a ++ n :: b) =
  if P (key n) then Some (default n (List.find (fun m => P (key m)) a)) else List.find (fun m => P (key m)) b.
Proof.
  intros HP Hs. apply in_order_app in Hs as (_ & _ & Ha). induction a as [|x a IH]; cbn [app List.find].
  - by destruct (P (key n)).
  - destruct (P (key x)) eqn:Ex.
    + by rewrite (HP (key x) (key n)) by (done || apply Ha; by left).
    + apply IH. intros y z Hy. apply Ha. by right.
Qed.

Lemma lower_loop_spec k t : forall sub fuel candidate parent,
  rep (links t) parent sub -> sorted key (nodes sub) -> (length (nodes sub) < fuel)%nat ->
  lower_loop key fuel k (root sub) candidate t =
  Some (match List.find (fun m => k <=? key m) (nodes sub) with Some m => Some m | None => candidate end).
Proof.
  induction sub as [|l IHl n r IHr]; intros fuel candidate parent Hr Hs Hf; (destruct fuel as [|fuel]; [lia|]);
    cbn [lower_loop root nodes]; [done|]. cbn [rep nodes] in *. destruct Hr as (Hn & Hl & Hr).
  rewrite length_app in Hf. cbn [length] in Hf.
  rewrite (find_sorted (Z.leb k)) by (done || intros x y Hx Hle; apply Z.leb_le in Hle; apply Z.leb_le; lia).
  apply in_order_app in Hs as (Sl & [Sr _]%StronglySorted_inv & Hln).
  destruct (compare_spec k (key n)) as [[Hk ->]|[[Hk ->]|[Hk ->]]]; cbn [Z.eqb Z.ltb Z.compare].
  - rewrite Hn. cbn [mbind option_bind child mLeft]. rewrite (IHl _ _ _ Hl Sl) by lia.
    rewrite (proj2 (Z.leb_le k (key n))) by lia. by destruct (List.find _ _).
  - rewrite (proj2 (Z.leb_le k (key n))) by lia. destruct (List.find _ _) as [m|] eqn:Ef; [|done].
    apply find_some in Ef as [Hm Hle%Z.leb_le]. specialize (Hln m n Hm (or_introl eq_refl)). lia.
  - rewrite Hn. cbn [mbind option_bind child mRight]. rewrite (IHr _ _ _ Hr Sr) by lia.
    by rewrite (proj2 (Z.leb_gt k (key n))) by lia.
Qed.

Lemma upper_loop_spec k t : forall sub fuel candidate parent,
  rep (links t) parent sub -> sorted key (nodes sub) -> (length (nodes sub) < fuel)%nat ->
  upper_loop key fuel k (root sub) candidate t =
  Some (match List.find (fun m => k <? key m) (nodes sub) with Some m => Some m | None => candidate end).
Proof.
  induction sub as [|l IHl n r IHr]; intros fuel candidate parent Hr Hs Hf; (destruct fuel as [|fuel]; [lia|]);
    cbn [upper_loop root nodes]; [done|]. cbn [rep nodes] in *. destruct Hr as (Hn & Hl & Hr).
  rewrite length_app in Hf. cbn [length] in Hf.
  rewrite (find_sorted (Z.ltb k)) by (done || intros x y Hx Hle; apply Z.ltb_lt in Hle; apply Z.ltb_lt; lia).
  apply in_order_app in Hs as (Sl & [Sr _]%StronglySorted_inv & Hln).
  rewrite Hn. cbn [mbind option_bind child mLeft].
  destruct (compare_spec k (key n)) as [[Hk ->]|[[Hk ->]|[Hk ->]]]; cbn [Z.leb Z.ltb Z.compare child mLeft mRight].
  - rewrite (IHl _ _ _ Hl Sl) by lia. rewrite (proj2 (Z.ltb_lt k (key n))) by lia. by destruct (List.find _ _).
  - rewrite (IHr _ _ _ Hr Sr) by lia. by rewrite (proj2 (Z.ltb_ge k (key n))) by lia.
  - rewrite (IHr _ _ _ Hr Sr) by lia. by rewrite (proj2 (Z.ltb_ge k (key n))) by lia.
Qed.

End search.

(** *** Adding *)

Lemma add_spec key n t tr :
  repr key t tr -> links t !! n = Some (MkLink None None None 0) -> n ∉ elems tr -> zlength (nodes tr) + 1 < 2 ^ 64 ->
  (exists m, In m (nodes tr) /\ key m = key n /\ add key n t = Some (m, false, t))
  \/ (exists a b t' tr', nodes tr = a ++ b /\ add key n t = Some (n, true, t') /\ repr key t' tr'
       /\ nodes tr' = a ++ n :: b).
Proof.
  intros Hr Hn Hin Hsmall. destruct (findLink_spec key (key n) t tr Hr) as (ctx & sub & Ef & [<- Hf Hb Ha]).
  destruct (repr_place _ _ _ _ Hr) as (P1 & P2 & P3 & P4 & P5 & P6 & P7 & P8 & P9).
  unfold add. rewrite Ef. cbn [mbind option_bind]. unfold add_at. rewrite (get_link_spec t ctx _ P1 P3). cbn [mbind option_bind].
  destruct Hf as [->|(l & m & r & -> & Hk)].
  2: { left. exists m. cbn [root]. split_and!; [|done..]. rewrite nodes_plug. cbn [nodes]. rewrite !in_app_iff. cbn [In]. tauto. }
  right. cbn [root ht] in *. rewrite elems_plug in Hin. cbn [elems] in Hin.
  destruct (put_link_spec t ctx None (Some n) P1 P3 P7) as (t1 & E1 & Q1 & Q2 & Q3 & Q4).
  rewrite E1. cbn [mbind option_bind]. rewrite (modify_spec _ _ _ (MkLink None None None 0)) by (rewrite Q4 by set_solver; exact Hn).
  cbn [mbind option_bind set_parent mLeft mRight mHeight]. set (s2 := <[n := _]> (links t1)).
  set (t2 := MkTree s2 _ _).
  destruct (rebalance_spec ctx (fuel t2) E n E t2 0 0) as (s3 & E3 & R3 & _);
    [apply lookup_insert_eq|done|done|done|done|done|done|done|done|done| |exact Q2| | |].
  { eapply rep_ctx_frame; [exact Q1|]. intros q Hq. apply lookup_insert_ne. intros <-. set_solver. }
  { apply uniq_plug. cbn [uniq elems]. split_and!; try done; set_solver. }
  { unfold fuel, t2 in *. cbn [mSize]. rewrite Q3, (repr_size _ _ _ Hr).
    unfold wrapu. rewrite Z.mod_small by lia. rewrite (repr_size _ _ _ Hr) in P9. cbn [nodes length] in P9. lia. }
  rewrite E3. cbn [mbind option_bind]. eexists (before ctx), (behind ctx), _, (rebuild ctx (bal E n E)).
  assert (nodes (rebuild ctx (bal E n E)) = before ctx ++ n :: behind ctx) as En by (rewrite nodes_rebuild, nodes_bal; done).
  split; [rewrite nodes_plug; done|]. split; [done|]. split; [|exact En].
  pose proof (repr_sorted _ _ _ Hr) as Hs. rewrite nodes_plug in Hs. cbn [nodes app] in Hs.
  rewrite nodes_plug, length_app in Hsmall. cbn [nodes app] in Hsmall.
  split; cbn [mRoot links mSize]; [done|done|by apply (avl_rebuild ctx _ 0)|rewrite En|rewrite En..].
  - apply in_order_app in Hs as (S1 & S2 & S3). apply in_order_app. split_and!; [done| |].
    + constructor; [done|]. apply List.Forall_forall. exact Ha.
    + intros x y Hx [<-|Hy]; [by apply Hb|by apply S3].
  - unfold t2. cbn [mSize]. rewrite Q3, (repr_size _ _ _ Hr), nodes_plug, !length_app. cbn [nodes app length].
    unfold wrapu. rewrite Z.mod_small; lia.
  - rewrite length_app. cbn [length]. lia.
Qed.

(** *** Removing *)

Lemma uniq_plug_sub ctx sub o : uniq (plug ctx sub) -> uniq o -> elems o ⊆ elems sub -> uniq (plug ctx o).
Proof. rewrite !uniq_plug. set_solver. Qed.

(** A subtree is replaced by a part of it that is at most one lower. *)
Lemma remove_outer_spec key t ctx sub o n p m :
  repr key t (plug ctx sub) -> avl o -> Z.abs (ht o - ht sub) <= 1 -> rep (links t) p o -> uniq o ->
  elems o ⊆ elems sub -> (length ctx <= Z.to_nat m)%nat ->
  exists s', remove_outer (ref ctx) n (root o) (ctx_par None ctx) (MkTree (links t) (mRoot t) m)
    = Some (n, MkTree s' (root (rebuild ctx o)) m) /\ rep s' None (rebuild ctx o).
Proof.
  intros Hr Ao Hh Ro Uo Hsub Hm. pose proof (repr_uniq _ _ _ Hr) as Hu.
  destruct (repr_place _ _ _ _ Hr) as (P1 & _ & P3 & _ & P5 & _ & P7 & P8 & _).
  set (t0 := MkTree (links t) (mRoot t) m). unfold remove_outer.
  destruct (put_link_spec t0 ctx _ (root o) P1 P3 P7) as (t1 & E1 & Q1 & Q2 & Q3 & Q4).
  rewrite E1. cbn [mbind option_bind].
  assert (rep (links t1) p o) as Ro1 by (eapply rep_frame; [exact Ro|]; intros q Hq; apply Q4; set_solver).
  destruct (reparent _ _ (ctx_par None ctx) o Ro1 Uo) as (s2 & E2 & R2 & F2). rewrite E2. cbn [mbind option_bind].
  destruct ctx as [|f ctx]; cbn [ctx_par] in *.
  { exists s2. split; [|exact R2]. unfold set_links. rewrite Q2, Q3. done. }
  assert (rep_ctx s2 None (f :: ctx) (root o)) as Q1'.
  { eapply rep_ctx_frame; [exact Q1|]. intros q Hq. apply F2. intros Hq'%root_elems. set_solver. }
  destruct (rebalance_at f ctx (fuel (set_links s2 t1)) o (set_links s2 t1) (ht sub) Q1' R2 Ao Hh P5 Q2) as (s3 & E3 & R3 & _).
  { by apply (uniq_plug_sub (f :: ctx) sub). }
  { unfold fuel, set_links. cbn [mSize]. rewrite Q3. cbn [mSize t0 length] in *. lia. }
  rewrite E3. cbn [mbind option_bind]. exists s3. split; [|exact R3]. unfold set_links. cbn [mSize]. by rewrite Q3.
Qed.

Lemma rightmost_spec t : forall sub C fuel n parent,
  root sub = Some n -> rep (links t) parent sub -> (length (nodes sub) < fuel)%nat ->
  exists a pl q, rightmost fuel n (ref C) t = Some (q, ref (a ++ C)) /\ plug a (N pl q E) = sub /\ Forall (fun f => dir f = true) a.
Proof.
  induction sub as [|l _ m r IHr]; intros C fuel n parent; [done|]. cbn [root rep nodes]. intros [= ->] (Hn & Hl & Hr) Hf.
  rewrite length_app in Hf. cbn [length] in Hf. destruct fuel as [|fuel]; [lia|]. cbn [rightmost].
  rewrite Hn. cbn [mbind option_bind mRight]. destruct (root r) as [q|] eqn:Er.
  - destruct (IHr (MkFrame true n l :: C) fuel q _ eq_refl Hr) as (a & pl & q' & E1 & <- & Ha); [lia|].
    exists (a ++ [MkFrame true n l]), pl, q'. cbn [ref dir top] in E1. rewrite E1, <- app_assoc. split; [done|].
    split; [by rewrite plug_app|]. apply Forall_app. by split; [|constructor].
  - destruct r; [|done]. by exists [], l, n.
Qed.

Lemma before_app a c : before (a ++ c) = before c ++ before a.
Proof. induction a as [|f a IH]; cbn [before app]; [by rewrite app_nil_r|]. by rewrite IH, app_assoc. Qed.
Lemma behind_app a c : behind (a ++ c) = behind a ++ behind c.
Proof. induction a as [|f a IH]; cbn [behind app]; [done|]. by rewrite IH, app_assoc. Qed.
Lemma behind_right a : Forall (fun f => dir f = true) a -> behind a = [].
Proof. induction 1 as [|f a Hf Ha IH]; cbn [behind]; [done|]. by rewrite Hf, IH. Qed.

Lemma uniq_ctx_app a c : uniq_ctx (a ++ c) -> uniq_ctx a /\ uniq_ctx c /\ elems_ctx a ## elems_ctx c.
Proof.
  induction a as [|f a IH]; cbn [uniq_ctx app elems_ctx]; [intros H; split_and!; [done|done|set_solver]|].
  rewrite elems_ctx_app. intros (U1 & U2 & U3 & U4 & U5). destruct (IH U5) as (V1 & V2 & V3).
  split_and!; try done; clear - U1 U2 U3 V3; set_solver.
Qed.

Lemma ctx_par_app p a c : ctx_par p (a ++ c) = ctx_par (ctx_par p c) a.
Proof. by destruct a. Qed.

Lemma avl_ctx_rename a d n q r ctx : forall h,
  avl_ctx (a ++ MkFrame d n r :: ctx) h -> avl_ctx (a ++ MkFrame d q r :: ctx) h.
Proof.
  induction a as [|f a IH]; intros h; cbn [avl_ctx app sibling]; [done|]. intros (? & ? & ?). split_and!; try done. by apply IH.
Qed.

(** The nodes below the removed node [n] get their new parent, the predecessor
    [q] from the bottom of the left subtree, which has taken the place of [n]. *)
Lemma relink_spec s ctx a pl q n r h :
  rep_ctx s (Some n) a (root pl) -> rep s (Some q) pl -> rep s (Some n) r ->
  s !! q = Some (MkLink (ctx_root a (root pl)) (root r) (ctx_par None ctx) h) ->
  rep_ctx s None ctx (Some q) ->
  uniq pl -> uniq_ctx a -> uniq r ->
  q ∉ elems pl ∪ elems_ctx a ∪ elems r ->
  elems pl ## elems_ctx a -> elems pl ## elems r -> elems_ctx a ## elems r ->
  elems_ctx ctx ## elems pl ∪ elems_ctx a ∪ elems r ->
  exists s4 lr s5 s', set_parent_of (root pl) (ctx_par (Some q) a) s = Some s4 /\ s4 !! q = Some lr
    /\ set_parent_of (mLeft lr) (Some q) s4 = Some s5 /\ set_parent_of (mRight lr) (Some q) s5 = Some s'
    /\ rep_ctx s' None (a ++ MkFrame false q r :: ctx) (root pl)
    /\ rep s' (ctx_par None (a ++ MkFrame false q r :: ctx)) pl.
Proof.
  intros Ha Hpl Hr Hq Hc Upl Ua Ur Q1 D1 D2 D3 D4.
  destruct (reparent s _ (ctx_par (Some q) a) pl Hpl Upl) as (s4 & E4 & R4 & F4).
  assert (forall x, x ∉ elems pl -> s4 !! x = s !! x) as F4' by (intros x Hx; apply F4; by intros ?%root_elems).
  assert (s4 !! q = Some (MkLink (ctx_root a (root pl)) (root r) (ctx_par None ctx) h)) as Hq4
    by (rewrite F4' by (clear - Q1; set_solver); exact Hq).
  assert (exists s5, set_parent_of (ctx_root a (root pl)) (Some q) s4 = Some s5 /\ rep_ctx s5 (Some q) a (root pl)
    /\ rep s5 (ctx_par (Some q) a) pl /\ forall x, x ∉ elems pl ∪ elems_ctx a -> s5 !! x = s4 !! x) as (s5 & E5 & R5 & R5' & F5).
  { destruct a as [|f a].
    - destruct (reparent s4 _ (Some q) pl R4 Upl) as (s5 & E5 & R5 & F5). exists s5. split_and!; try done.
      intros x Hx. apply F5. intros ?%root_elems. clear - H Hx. set_solver.
    - destruct (reparent_ctx s4 (Some n) (Some q) (f :: a) (root pl)) as (s5 & E5 & R5 & F5); [done| |done|].
      { eapply rep_ctx_frame; [exact Ha|]. intros x Hx. apply F4'. clear - Hx D1. set_solver. }
      assert (forall x, x ∉ elems_ctx (f :: a) -> s5 !! x = s4 !! x) as F5'
        by (intros x Hx; apply F5; by intros ?%ctx_root_elems).
      exists s5. split_and!; [done..| |intros x Hx; apply F5'; clear - Hx; set_solver].
      eapply rep_frame; [exact R4|]. intros x Hx. apply F5'. clear - Hx D1. set_solver. }
  assert (forall x, x ∉ elems pl ∪ elems_ctx a -> s5 !! x = s !! x) as F5'
    by (intros x Hx; rewrite F5 by done; apply F4'; clear - Hx; set_solver).
  destruct (reparent s5 (Some n) (Some q) r) as (s6 & E6 & R6 & F6);
    [eapply rep_frame; [exact Hr|]; intros x Hx; apply F5'; clear - Hx D2 D3; set_solver|done|].
  assert (forall x, x ∉ elems r -> s6 !! x = s5 !! x) as F6' by (intros x Hx; apply F6; by intros ?%root_elems).
  eexists s4, _, s5, s6. split; [exact E4|]. split; [exact Hq4|]. cbn [mLeft mRight].
  split; [exact E5|]. split; [exact E6|]. rewrite rep_ctx_app, ctx_par_app. cbn [rep_ctx dir top sibling ctx_par mklink]. split_and!.
  - eapply rep_ctx_frame; [exact R5|]. intros x Hx. apply F6'. clear - Hx D3. set_solver.
  - exists h. rewrite F6', F5' by (clear - Q1; set_solver). exact Hq.
  - exact R6.
  - eapply rep_ctx_frame; [exact Hc|]. intros x Hx. rewrite F6', F5'; [done|clear - Hx D4; set_solver..].
  - eapply rep_frame; [exact R5'|]. intros x Hx. apply F6'. clear - Hx D2. set_solver.
Qed.

(** Up to the rebalancing, from the predecessor or from its old parent. *)
Lemma remove_inner_relinked key t ctx l n r x m :
  repr key t (plug ctx (N l n r)) -> root l = Some x -> (length (nodes (plug ctx (N l n r))) <= S (Z.to_nat m))%nat ->
  exists a pl q t2 s, l = plug a (N pl q E) /\ Forall (fun f => dir f = true) a
    /\ remove_inner (ref ctx) n x (MkTree (links t) (mRoot t) m)
       = (parent ← ctx_par (Some q) a; t ← rebalance (fuel t2) parent (set_links s t2); Some (n, t))
    /\ mRoot t2 = ctx_root ctx (Some q) /\ mSize t2 = m
    /\ rep_ctx s None (a ++ MkFrame false q r :: ctx) (root pl)
    /\ rep s (ctx_par None (a ++ MkFrame false q r :: ctx)) pl.
Proof.
  intros Hr Hx Hm. destruct (repr_place _ _ _ _ Hr) as (P1 & P2 & P3 & P4 & P5 & P6 & P7 & P8 & P9).
  cbn [rep] in P2. destruct P2 as (Hn & Hl & Hrr).
  set (t0 := MkTree (links t) (mRoot t) m). unfold remove_inner.
  destruct (rightmost_spec t0 l (MkFrame false n r :: ctx) (fuel t0) x (Some n) Hx Hl) as (a & pl & q & E1 & El & Ha).
  { rewrite nodes_plug in Hm. cbn [nodes] in Hm. rewrite !length_app in Hm. cbn [length] in Hm. unfold fuel, t0. cbn [mSize]. lia. }
  cbn [ref top dir] in E1. rewrite E1. cbn [mbind option_bind]. clear E1. subst l.
  set (C := MkFrame false n r :: ctx) in *.
  assert (plug ctx (N (plug a (N pl q E)) n r) = plug (a ++ C) (N pl q E)) as Et by by rewrite plug_app.
  rewrite Et in *. destruct (repr_place _ _ _ _ Hr) as (Q1 & Q2 & Q3 & Q4 & Q5 & Q6 & Q7 & Q8 & _).
  rewrite ctx_par_app in Q2. cbn [C ctx_par top] in Q2. cbn [rep root] in Q2. destruct Q2 as (Hq & Hpl & _).
  destruct (uniq_ctx_app _ _ Q7) as (Ua & UC & DaC). cbn [C uniq_ctx elems_ctx top sibling] in UC, DaC.
  destruct UC as (N1 & N2 & N3 & Ur & Uc). cbn [uniq elems] in Q6, Q8. destruct Q6 as (N4 & _ & _ & Upl & _).
  rewrite elems_ctx_app in Q8. cbn [C elems_ctx top sibling] in Q8. pose proof Q8 as Q8'.
  rewrite !disjoint_union_l, !disjoint_union_r, !disjoint_singleton_l, !disjoint_singleton_r in Q8'.
  destruct Q8' as (((? & (? & ?) & ?) & (? & (? & ?) & ?)) & _).
  pose proof DaC as DaC'. rewrite !disjoint_union_r in DaC'. destruct DaC' as ((? & ?) & ?).
  change (links t0) with (links t). rewrite Hq. cbn [mbind option_bind mParent mLeft].
  assert ((if bool_decide (ctx_par (Some n) a = Some n) then Some q else ctx_par (Some n) a) = ctx_par (Some q) a) as ->.
  { destruct a as [|f a]; cbn [ctx_par]; [by rewrite bool_decide_eq_true_2|]. rewrite bool_decide_eq_false_2; [done|].
    cbn [elems_ctx] in DaC. clear - DaC. intros [= <-]. set_solver. }
  destruct (put_link_spec t0 (a ++ C) (Some q) (root pl) Q1 Q3 Q7) as (t1 & E1 & R1 & R1r & R1s & F1).
  rewrite E1. cbn [mbind option_bind]. rewrite elems_ctx_app in F1. cbn [C elems_ctx top sibling] in F1.
  pose proof (get_link_spec _ _ _ R1 R1r) as G1. rewrite ctx_root_app in R1r. cbn [C ctx_root top] in R1r.
  apply rep_ctx_app in R1 as [R1a R1c]. cbn [C rep_ctx ctx_par dir top sibling mklink] in R1a, R1c.
  destruct R1c as ((hn & Hn1) & Hr1 & Hc1).
  destruct (put_link_spec t1 ctx (Some n) (Some q) Hc1 R1r Uc) as (t2 & E2 & R2 & R2r & R2s & F2).
  rewrite E2. cbn [mbind option_bind]. rewrite F2 by done. rewrite Hn1. cbn [mbind option_bind].
  assert (forall z, z ∉ elems_ctx ctx -> z <> q -> <[q := MkLink (ctx_root a (root pl)) (root r) (ctx_par None ctx) hn]> (links t2) !! z = links t1 !! z)
    as F3 by (intros z Hz Hzq; rewrite lookup_insert_ne by congruence; by apply F2).
  rewrite (modify_spec _ q _ (MkLink (root pl) None (ctx_par (Some n) a) (ht (N pl q E)))).
  2: { rewrite F2, F1; [exact Hq|clear - Q8; set_solver..]. }
  cbn [mbind option_bind]. set (s3 := <[q := _]> (links t2)) in *.
  assert (get_link (ref (a ++ C)) (set_links s3 t2) = Some (root pl)) as ->.
  { rewrite <- G1. assert (exists z d, ref (a ++ C) = Child z d /\ z ∈ {[n]} ∪ elems_ctx a) as (z & d & -> & Hz).
    { destruct a as [|f a]; [exists n, false|exists (top f), (dir f)]; (split; [done|]); cbn [elems_ctx]; clear; set_solver. }
    cbn [get_link links set_links]. rewrite F3; [done|clear - Hz N2 DaC; set_solver|clear - Hz Q8; intros ->; set_solver]. }
  cbn [mbind option_bind].
  destruct (relink_spec s3 ctx a pl q n r hn) as (s4 & lr & s5 & s6 & G4 & Gq & G5 & G6 & S1 & S2);
    [| | | | |done|done|done| | | | | |].
  { eapply rep_ctx_frame; [exact R1a|]. intros z Hz. apply F3; [clear - Hz DaC; set_solver|clear - Hz Q8; intros ->; set_solver]. }
  { eapply rep_frame; [exact Hpl|]. intros z Hz. assert (z ∈ elems pl ∪ {[q]} ∪ ∅) as Hz' by (rewrite !elem_of_union; auto).
    rewrite F3, F1; [done|intros Hz2; by apply (Q8 z)| |by intros ->].
    intros Hz2. apply (Q8 z); [done|]. rewrite !elem_of_union. auto. }
  { eapply rep_frame; [exact Hr1|]. intros z Hz. apply F3; [clear - Hz N3; set_solver|clear - Hz Q8; intros ->; set_solver]. }
  { apply lookup_insert_eq. }
  { eapply rep_ctx_frame; [exact R2|]. intros z Hz. apply lookup_insert_ne. clear - Hz Q8. intros <-. set_solver. }
  1-5: rewrite ?not_elem_of_union, ?disjoint_union_r; split_and?; done || (by symmetry) || idtac.
  exists a, pl, q, t2, s6. split_and!; try done; [|by rewrite R2s, R1s].
  rewrite G4. cbn [mbind option_bind]. rewrite Gq. cbn [mbind option_bind]. rewrite G5. cbn [mbind option_bind].
  by rewrite G6.
Qed.

Lemma remove_inner_spec key t ctx l n r x m :
  repr key t (plug ctx (N l n r)) -> root l = Some x -> (length (nodes (plug ctx (N l n r))) <= S (Z.to_nat m))%nat ->
  exists s' tr', remove_inner (ref ctx) n x (MkTree (links t) (mRoot t) m) = Some (n, MkTree s' (root tr') m)
    /\ rep s' None tr' /\ avl tr' /\ nodes tr' = before ctx ++ (nodes l ++ nodes r) ++ behind ctx.
Proof.
  intros Hr Hx Hm. destruct (remove_inner_relinked key t ctx l n r x m Hr Hx Hm) as (a & pl & q & t2 & s & -> & Ha & -> & Tr & Ts & S1 & S2).
  destruct (repr_place _ _ _ _ Hr) as (_ & _ & _ & P4 & P5 & P6 & P7 & P8 & _). cbn [avl ht] in P4, P5. destruct P4 as (Al & Ar & Ab).
  set (D := MkFrame false q r :: ctx) in *.
  assert (nodes (plug (a ++ D) pl) = before ctx ++ (nodes (plug a (N pl q E)) ++ nodes r) ++ behind ctx) as En.
  { rewrite !nodes_plug, before_app, behind_app. cbn [D nodes before behind dir top sibling].
    rewrite (behind_right a Ha), !app_nil_r. cbn [app]. by rewrite <- !app_assoc. }
  assert (uniq (plug (a ++ D) pl)) as Hu.
  { rewrite uniq_nodes, En. pose proof (repr_sorted _ _ _ Hr) as Hs. rewrite nodes_plug in Hs. cbn [nodes] in Hs.
    eapply (in_order_nodup key). rewrite <- !app_assoc in *. cbn [app] in Hs. rewrite app_assoc in Hs |- *.
    by eapply sorted_remove. }
  assert (length (a ++ D) < fuel t2)%nat as Hf.
  { pose proof (ctx_length (a ++ D) pl) as Hlen. rewrite En in Hlen. rewrite nodes_plug in Hm. cbn [nodes] in Hm.
    rewrite !length_app in *. cbn [length] in *. unfold fuel. rewrite Ts. lia. }
  destruct a as [|f a]; cbn [ctx_par mbind option_bind app plug] in *.
  - cbn [avl ht] in Al, Ab, P5. destruct Al as (Apl & _ & Al). cbn [D rep_ctx dir top sibling mklink] in S1, S2.
    destruct S1 as ((h & Hq) & Hr' & Hc). pose proof (avl_ctx_limit _ _ P5). pose proof (ht_nonneg pl). pose proof (ht_nonneg r).
    destruct (rebalance_spec ctx (fuel t2) pl q r (set_links s t2) h (Z.max (Z.max (ht pl) 0 + 1) (ht r) + 1))
      as (s' & -> & R' & _); try done; try lia.
    { destruct (avl_bal pl q r Apl Ar) as (_ & B1 & B2); lia. }
    { cbn [D length] in Hf. lia. }
    cbn [mbind option_bind set_links mSize]. rewrite Ts. exists s', (rebuild ctx (bal pl q r)). split; [done|]. split; [done|].
    split; [|rewrite nodes_rebuild, nodes_bal; cbn [nodes]; by rewrite <- !app_assoc].
    apply (avl_rebuild ctx _ (Z.max (Z.max (ht pl) 0 + 1) (ht r) + 1)); [apply avl_bal; try done; lia| |done].
    destruct (avl_bal pl q r Apl Ar) as (_ & B1 & B2); lia.
  - assert (avl_ctx (f :: a ++ D) (ht (N pl q E)) /\ avl pl /\ ht (N pl q E) - 1 = ht pl) as (Hc & Apl & Hpl).
    { assert (avl_ctx ((f :: a) ++ MkFrame false n r :: ctx) (ht (N pl q E)) /\ avl (N pl q E)) as [Hc Aq].
      { change (repr key t (plug (MkFrame false n r :: ctx) (plug (f :: a) (N pl q E)))) in Hr.
        rewrite <- plug_app in Hr. destruct (repr_place _ _ _ _ Hr) as (_ & _ & _ & ? & ? & _). by split. }
      split; [by apply (avl_ctx_rename (f :: a) false n q r ctx)|]. cbn [avl ht] in Aq |- *. destruct Aq as (? & _ & ?).
      pose proof (ht_nonneg pl). split; [done|lia]. }
    destruct (rebalance_at f (a ++ D) (fuel t2) pl (set_links s t2) (ht (N pl q E))) as (s' & -> & R' & _); try done; try lia.
    { cbn [set_links mRoot]. rewrite Tr, ctx_root_app. done. }
    { cbn [length] in Hf. lia. }
    cbn [mbind option_bind set_links mSize]. rewrite Ts. exists s', (rebuild (f :: a ++ D) pl). split; [done|]. split; [done|].
    split; [apply (avl_rebuild _ _ (ht (N pl q E))); [done|lia|done]|].
    rewrite nodes_rebuild, <- nodes_plug. exact En.
Qed.

Lemma remove_at_spec key t ctx l n r : repr key t (plug ctx (N l n r)) ->
  exists t' tr', remove_at (ref ctx) (ctx_par None ctx) t = Some (n, t') /\ repr key t' tr'
    /\ nodes tr' = before ctx ++ (nodes l ++ nodes r) ++ behind ctx.
Proof.
  intros Hr. destruct (repr_place _ _ _ _ Hr) as (P1 & P2 & P3 & P4 & P5 & P6 & P7 & P8 & P9).
  unfold remove_at. rewrite (get_link_spec t ctx _ P1 P3). cbn [mbind option_bind root rep] in *.
  destruct P2 as (Hn & Hl & Hrr). rewrite Hn. cbn [mbind option_bind mLeft mRight].
  pose proof (repr_size _ _ _ Hr) as Hz. pose proof (repr_small _ _ _ Hr) as Hs. pose proof (repr_sorted _ _ _ Hr) as Ho.
  rewrite nodes_plug in Hz, Hs, Ho. cbn [nodes] in Hz, Hs, Ho. rewrite !length_app in Hz, Hs. cbn [length] in Hz, Hs.
  set (m := u64 (mSize t - 1)). assert (m = mSize t - 1) as Hm by (unfold m; apply Z.mod_small; lia).
  assert (forall s tr', rep s None tr' -> avl tr' -> nodes tr' = before ctx ++ (nodes l ++ nodes r) ++ behind ctx ->
    repr key (MkTree s (root tr') m) tr') as Hrep.
  { intros s tr' R' A' En. split; cbn [mRoot links mSize]; try done; rewrite En, ?length_app; [|lia..].
    rewrite <- !app_assoc in *. cbn [app] in Ho. rewrite app_assoc in Ho |- *. by eapply sorted_remove. }
  cbn [avl uniq elems] in P4, P6. destruct P4 as (Al & Ar & Ab), P6 as (U1 & U2 & U3 & Ul & Ur).
  assert (forall o p, avl o -> Z.abs (ht o - ht (N l n r)) <= 1 -> rep (links t) p o -> uniq o -> elems o ⊆ elems (N l n r) ->
    nodes o = nodes l ++ nodes r ->
    exists t' tr', remove_outer (ref ctx) n (root o) (ctx_par None ctx) (MkTree (links t) (mRoot t) m) = Some (n, t')
      /\ repr key t' tr' /\ nodes tr' = before ctx ++ (nodes l ++ nodes r) ++ behind ctx) as Houter.
  { intros o p Ao Hh Ro Uo Eo En.
    destruct (remove_outer_spec key t ctx (N l n r) o n p m Hr Ao Hh Ro Uo Eo) as (s' & E & R').
    { pose proof (ctx_length ctx (N l n r)) as Hlen. rewrite nodes_plug in Hlen. cbn [nodes] in Hlen.
      rewrite !length_app in Hlen. cbn [length] in Hlen. lia. }
    assert (nodes (rebuild ctx o) = before ctx ++ (nodes l ++ nodes r) ++ behind ctx) as En' by by rewrite nodes_rebuild, En.
    eexists _, (rebuild ctx o). split; [exact E|]. split; [|done]. apply Hrep; [done| |done]. by eapply avl_rebuild. }
  destruct l as [|ll x lr]; cbn [root].
  - apply (Houter r (Some n)); try done; [cbn [ht]; pose proof (ht_nonneg r); lia|cbn [elems]; set_solver].
  - destruct r as [|rl y rr]; cbn [root].
    + rewrite bool_decide_eq_false_2 by by intros [? ?].
      apply (Houter (N ll x lr) (Some n)); try done; [cbn [ht] in *; pose proof (ht_nonneg ll); pose proof (ht_nonneg lr); lia|
        cbn [elems]; set_solver|cbn [nodes]; by rewrite app_nil_r].
    + rewrite bool_decide_eq_true_2 by done.
      destruct (remove_inner_spec key t ctx (N ll x lr) n (N rl y rr) x m Hr eq_refl) as (s' & tr' & E & R' & A' & En).
      { rewrite nodes_plug. cbn [nodes] in *. rewrite !length_app in *. cbn [length] in *. rewrite !length_app in *. cbn [length] in *. lia. }
      eexists _, tr'. split; [exact E|]. split; [by apply Hrep|done].
Qed.

(** *** Iterators *)

Lemma node_place tr n : In n (nodes tr) -> exists ctx l r, tr = plug ctx (N l n r).
Proof.
  induction tr as [|l IHl m r IHr]; cbn [nodes]; [done|]. rewrite in_app_iff. cbn [In]. intros [Hn|[->|Hn]].
  - destruct (IHl Hn) as (ctx & l' & r' & ->). exists (ctx ++ [MkFrame false m r]), l', r'. by rewrite plug_app.
  - by exists [], l, r.
  - destruct (IHr Hn) as (ctx & l' & r' & ->). exists (ctx ++ [MkFrame true m l]), l', r'. by rewrite plug_app.
Qed.

Lemma split_unique {A} (n : A) u v a b : NoDup (u ++ n :: v) -> u ++ n :: v = a ++ n :: b -> u = a /\ v = b.
Proof.
  revert a. induction u as [|x u IH]; intros [|y a]; cbn [app]; intros Hnd E.
  - by injection E.
  - injection E as <- ->. apply NoDup_cons in Hnd as [Hn _]. destruct Hn. apply elem_of_app. right. by left.
  - injection E as -> <-. apply NoDup_cons in Hnd as [Hn _]. destruct Hn. apply elem_of_app. right. by left.
  - injection E as <- E. apply NoDup_cons in Hnd as [_ Hnd]. by destruct (IH a Hnd E) as [-> ->].
Qed.

Lemma remove_node_spec key t tr a n b : repr key t tr -> nodes tr = a ++ n :: b ->
  exists t' tr', remove n t = Some (n, t') /\ repr key t' tr' /\ nodes tr' = a ++ b.
Proof.
  intros Hr Hl. destruct (node_place tr n) as (ctx & l & r & ->); [rewrite Hl, in_app_iff; right; by left|].
  destruct (repr_place _ _ _ _ Hr) as (P1 & P2 & P3 & _ & _ & _ & _ & P8 & _). cbn [rep] in P2. destruct P2 as (Hn & _).
  destruct (remove_at_spec key t ctx l n r Hr) as (t' & tr' & E & R' & En).
  assert (remove n t = remove_at (ref ctx) (ctx_par None ctx) t) as ->.
  { unfold remove. rewrite Hn. cbn [mbind option_bind mParent]. destruct ctx as [|f ctx]; [done|]. cbn [ctx_par ref rep_ctx] in *.
    destruct P1 as ((h & ->) & _ & _). cbn [mbind option_bind]. do 2 f_equal.
    destruct (dir f); cbn [mklink mLeft]; [|by rewrite bool_decide_eq_true_2].
    rewrite bool_decide_eq_false_2; [done|]. intros Er%root_elems. cbn [elems elems_ctx] in P8. clear - Er P8. set_solver. }
  exists t', tr'. split; [exact E|]. split; [exact R'|]. rewrite En.
  pose proof (repr_sorted _ _ _ Hr) as Hs%in_order_nodup. rewrite nodes_plug in Hl, Hs. cbn [nodes] in Hl, Hs.
  rewrite <- !app_assoc in *. cbn [app] in *. rewrite app_assoc in Hl, Hs |- *.
  by destruct (split_unique _ _ _ _ _ Hs Hl) as [-> ->].
Qed.

Lemma last_behind {A} (x y : list A) : y <> [] -> last (x ++ y) = last y.
Proof. intros Hy. rewrite last_app. destruct (last y) eqn:E; [done|]. by apply last_None in E. Qed.

Lemma outermost_spec t d : forall sub fuel n parent,
  root sub = Some n -> rep (links t) parent sub -> (length (nodes sub) < fuel)%nat ->
  outermost fuel d n t = (if d then last (nodes sub) else head (nodes sub)).
Proof.
  induction sub as [|l IHl m r IHr]; intros fuel n parent; [done|]. cbn [root rep nodes]. intros [= ->] (Hn & Hl & Hr) Hf.
  rewrite length_app in Hf. cbn [length] in Hf. destruct fuel as [|fuel]; [lia|]. cbn [outermost]. rewrite Hn.
  cbn [mbind option_bind]. destruct d; cbn [child mLeft mRight].
  - destruct (root r) as [c|] eqn:Er.
    + rewrite (IHr fuel c _ eq_refl Hr) by lia. destruct r as [|rl c' rr]; [done|]. cbn [nodes].
      rewrite (last_behind (nodes l)) by done. symmetry. apply (last_behind [n]). by destruct (nodes rl).
    + destruct r; [|done]. by rewrite last_behind.
  - destruct (root l) as [c|] eqn:El.
    + rewrite (IHl fuel c _ eq_refl Hl) by lia. destruct l as [|ll c' lr]; [done|]. cbn [nodes]. by destruct (nodes ll).
    + by destruct l.
Qed.

(** Upwards from the hole of a context. *)
Lemma ascend_spec t d : forall ctx fuel n ln,
  rep_ctx (links t) None ctx (Some n) -> links t !! n = Some ln -> mParent ln = ctx_par None ctx ->
  n ∉ elems_ctx ctx -> uniq_ctx ctx -> (length ctx < fuel)%nat ->
  ascend fuel d n t = Some (if d then head (behind ctx) else last (before ctx)).
Proof.
  induction ctx as [|f ctx IH]; intros fuel n ln Hc Hn Hp Hin Hu Hf; (destruct fuel as [|fuel]; [cbn in Hf; lia|]);
    cbn [ascend]; rewrite Hn; cbn [mbind option_bind]; rewrite Hp; cbn [ctx_par before behind] in *; [by destruct d|].
  cbn [rep_ctx elems_ctx uniq_ctx length] in *. destruct Hc as ((h & Hp') & Hs & Hc), Hu as (U1 & U2 & U3 & U4 & U5).
  assert (root (sibling f) <> Some n) as Hr by (intros Er%root_elems; clear - Er Hin; set_solver).
  rewrite Hp'. cbn [mbind option_bind].
  assert (forall d', ascend fuel d' (top f) t = Some (if d' then head (behind ctx) else last (before ctx)) ->
    d' = d -> ascend fuel d (top f) t = Some (if d then head (behind ctx) else last (before ctx))) as Hgo by by intros ? ? ->.
  assert (ascend fuel d (top f) t = Some (if d then head (behind ctx) else last (before ctx))) as Hup.
  { eapply IH; [exact Hc|exact Hp'|apply mklink_parent|exact U2|exact U5|lia]. }
  destruct d, (dir f); cbn [mklink child mLeft mRight app].
  - by rewrite bool_decide_eq_true_2.
  - by rewrite bool_decide_eq_false_2.
  - rewrite bool_decide_eq_false_2 by done. by rewrite app_assoc, last_snoc.
  - rewrite bool_decide_eq_true_2 by done. by rewrite app_nil_r.
Qed.

Lemma step_spec key t tr a n b d : repr key t tr -> nodes tr = a ++ n :: b ->
  step d n t = Some (if d then head b else last a).
Proof.
  intros Hr Hl. destruct (node_place tr n) as (ctx & l & r & ->); [rewrite Hl, in_app_iff; right; by left|].
  destruct (repr_place _ _ _ _ Hr) as (P1 & P2 & P3 & P4 & P5 & P6 & P7 & P8 & P9). cbn [rep root] in P1, P2.
  destruct P2 as (Hn & Hrl & Hrr). cbn [nodes elems] in P8, P9. rewrite length_app in P9. cbn [length] in P9.
  pose proof (repr_sorted _ _ _ Hr) as Hs%in_order_nodup. rewrite nodes_plug in Hl, Hs. cbn [nodes] in Hl, Hs.
  rewrite <- !app_assoc in *. cbn [app] in *. rewrite app_assoc in Hl, Hs.
  destruct (split_unique _ _ _ _ _ Hs Hl) as [<- <-]. unfold step. rewrite Hn. cbn [mbind option_bind].
  assert (ascend (fuel t) d n t = Some (if d then head (behind ctx) else last (before ctx))) as Hup.
  { eapply (ascend_spec t d ctx); [exact P1|exact Hn|done|clear - P8; set_solver|done|lia]. }
  destruct d; cbn [child mLeft mRight negb].
  - destruct (root r) as [c|] eqn:Er.
    + rewrite (outermost_spec t false r _ c _ Er Hrr) by lia. destruct r as [|rl c' rr]; [done|]. cbn [nodes].
      by destruct (nodes rl).
    + destruct r; [|done]. exact Hup.
  - destruct (root l) as [c|] eqn:El.
    + rewrite (outermost_spec t true l _ c _ El Hrl) by lia. destruct l as [|ll c' lr]; [done|]. cbn [nodes].
      rewrite (last_behind (before ctx)) by by destruct (nodes ll).
      destruct (last (nodes ll ++ c' :: nodes lr)) eqn:E; [done|]. apply last_None in E. by destruct (nodes ll).
    + destruct l; [|done]. cbn [nodes]. by rewrite app_nil_r.
Qed.

Lemma begin_spec key t tr : repr key t tr ->
  begin t = Some (head (nodes tr)) /\ rbegin t = Some (last (nodes tr)).
Proof.
  intros [R1 R2 _ _ R5 _]. unfold begin, rbegin. rewrite R1. destruct (root tr) as [n|] eqn:E; [|by destruct tr].
  rewrite !(outermost_spec t _ tr _ n None E R2) by (unfold fuel; lia).
  assert (nodes tr <> []) as Hne by (destruct tr as [|l m r]; [done|]; cbn [nodes]; by destruct (nodes l)).
  split; [by destruct (nodes tr)|]. destruct (last (nodes tr)) eqn:El; [done|]. by apply last_None in El.
Qed.

End AvlRep.

(** ** The interface

    What the range trees ask of an index of nodes: it is the list of its nodes in
    the order of their keys. *)

Class OrderedIndex (T : Type) := {
  ix_empty : T;
  ix_construct : node -> T -> T;
  ix_size : T -> Z;
  ix_add : (node -> Z) -> node -> T -> option (node * bool * T);
  ix_remove : node -> T -> option (node * T);
  ix_find : (node -> Z) -> Z -> T -> option (option node);
  ix_lower_bound : (node -> Z) -> Z -> T -> option (option node);
  ix_upper_bound : (node -> Z) -> Z -> T -> option (option node);
  ix_begin : T -> option (option node);
  ix_rbegin : T -> option (option node);
  ix_step : bool -> node -> T -> option (option node)
}.

Class OrderedIndexLaws (T : Type) `{OrderedIndex T} := {
  holds : (node -> Z) -> T -> list node -> Prop;
  (** Nodes whose links are those of a new node. *)
  ready : node -> T -> Prop;
  holds_empty key : holds key ix_empty [];
  holds_sorted key t l : holds key t l -> AvlRep.sorted key l;
  holds_size key t l : holds key t l -> ix_size t = zlength l /\ zlength l < 2 ^ 64;
  holds_ext key key' t l : (forall n, In n l -> key n = key' n) -> holds key t l -> holds key' t l;
  construct_ready n t : ready n (ix_construct n t);
  construct_holds key n t l : holds key t l -> ~ In n l -> holds key (ix_construct n t) l;
  add_holds key n t l :
    holds key t l -> ready n t -> ~ In n l -> zlength l + 1 < 2 ^ 64 ->
    (exists m, In m l /\ key m = key n /\ ix_add key n t = Some (m, false, t))
    \/ (exists a b t', l = a ++ b /\ ix_add key n t = Some (n, true, t') /\ holds key t' (a ++ n :: b));
  remove_holds key t a n b :
    holds key t (a ++ n :: b) -> exists t', ix_remove n t = Some (n, t') /\ holds key t' (a ++ b);
  find_holds key k t l : holds key t l -> ix_find key k t = Some (List.find (fun n => k =? key n) l);
  lower_holds key k t l : holds key t l -> ix_lower_bound key k t = Some (List.find (fun n => k <=? key n) l);
  upper_holds key k t l : holds key t l -> ix_upper_bound key k t = Some (List.find (fun n => k <? key n) l);
  begin_holds key t l : holds key t l -> ix_begin t = Some (head l);
  rbegin_holds key t l : holds key t l -> ix_rbegin t = Some (last l);
  step_holds key d t a n b : holds key t (a ++ n :: b) -> ix_step d n t = Some (if d then head b else last a)
}.

#[export] Instance avl_index : OrderedIndex AVLTree.Tree := {
  ix_empty := AVLTree.empty;
  ix_construct := AVLTree.construct;
  ix_size := AVLTree.mSize;
  ix_add := AVLTree.add;
  ix_remove := AVLTree.remove;
  ix_find := AVLTree.find;
  ix_lower_bound := AVLTree.lower_bound;
  ix_upper_bound := AVLTree.upper_bound;
  ix_begin := AVLTree.begin;
  ix_rbegin := AVLTree.rbegin;
  ix_step := AVLTree.step
}.

Module AvlIndex.
Import Avl AVLTree AvlRep.

Definition avl_holds (key : node -> Z) (t : Tree) (l : list node) : Prop :=
  exists tr, repr key t tr /\ nodes tr = l.
Definition avl_ready (n : node) (t : Tree) : Prop := links t !! n = Some (MkLink None None None 0).

Lemma find_holds_avl key k t tr : repr key t tr -> find key k t = Some (List.find (fun n => k =? key n) (nodes tr)).
Proof.
  intros Hr. destruct (findLink_spec key k t tr Hr) as (ctx & sub & Ef & [<- Hf Hb Ha]).
  destruct (repr_place _ _ _ _ Hr) as (P1 & _ & P3 & _). unfold find. rewrite Ef. cbn [mbind option_bind].
  rewrite (get_link_spec t ctx _ P1 P3). f_equal. rewrite nodes_plug.
  assert (forall l (P : node -> bool), (forall m, In m l -> P m = false) -> forall r, List.find P (l ++ r) = List.find P r) as Hskip.
  { intros l P Hl r. induction l as [|x l IH]; cbn [app List.find]; [done|]. rewrite Hl by by left. apply IH. intros m Hm. apply Hl. by right. }
  assert (forall m, In m (before ctx) -> (k =? key m) = false) as Hb' by (intros m Hm%Hb; apply Z.eqb_neq; lia).
  assert (forall m, In m (behind ctx) -> (k =? key m) = false) as Ha' by (intros m Hm%Ha; apply Z.eqb_neq; lia).
  rewrite (Hskip _ _ Hb'). destruct Hf as [->|(l & n & r & -> & Hk)]; cbn [nodes root app].
  - rewrite <- (app_nil_r (behind ctx)). by rewrite (Hskip _ _ Ha').
  - pose proof (repr_sorted _ _ _ Hr) as Hs. rewrite nodes_plug in Hs. cbn [nodes] in Hs.
    apply in_order_app in Hs as (_ & [Hs _]%in_order_app & _). apply in_order_app in Hs as (_ & _ & Hln).
    rewrite <- app_assoc. rewrite Hskip; [cbn [app List.find]; by rewrite Hk, Z.eqb_refl|].
    intros m Hm. specialize (Hln m n Hm (or_introl eq_refl)). apply Z.eqb_neq. lia.
Qed.

Lemma construct_repr key n t tr : repr key t tr -> n ∉ elems tr -> repr key (construct n t) tr.
Proof. intros [R1 R2 R3 R4 R5 R6] Hn. split; try done. by apply rep_insert. Qed.

Lemma add_holds_avl key n t l :
  avl_holds key t l -> avl_ready n t -> ~ In n l -> zlength l + 1 < 2 ^ 64 ->
  (exists m, In m l /\ key m = key n /\ add key n t = Some (m, false, t))
  \/ (exists a b t', l = a ++ b /\ add key n t = Some (n, true, t') /\ avl_holds key t' (a ++ n :: b)).
Proof.
  intros (tr & Hr & <-) Hn Hin Hs. rewrite <- elems_nodes in Hin.
  destruct (add_spec key n t tr Hr Hn Hin Hs) as [H|(a & b & t' & tr' & -> & E & R & En)]; [by left|].
  right. exists a, b, t'. split; [done|]. split; [done|]. by exists tr'.
Qed.

#[export] Instance avl_laws : OrderedIndexLaws Tree.
Proof.
  refine {| holds := avl_holds; ready := avl_ready |}.
  - intros key. exists E. split; [|done]. split; try done. constructor.
  - intros key t l (tr & Hr & <-). apply Hr.
  - intros key t l (tr & Hr & <-). split; apply Hr.
  - intros key key' t l He (tr & [R1 R2 R3 R4 R5 R6] & <-). exists tr. split; [|done]. split; try done. by eapply in_order_ext.
  - intros n t. apply lookup_insert_eq.
  - intros key n t l (tr & Hr & <-) Hn. exists tr. split; [|done]. apply construct_repr; [done|]. by rewrite elems_nodes.
  - exact add_holds_avl.
  - intros key t a n b (tr & Hr & En). destruct (remove_node_spec key t tr a n b Hr En) as (t' & tr' & E & R & En').
    exists t'. split; [done|]. by exists tr'.
  - intros key k t l (tr & Hr & <-). by apply find_holds_avl.
  - intros key k t l (tr & Hr & <-). cbn [ix_lower_bound avl_index]. unfold lower_bound. rewrite (repr_root _ _ _ Hr).
    rewrite (lower_loop_spec key k t tr _ _ _ (repr_rep _ _ _ Hr) (repr_sorted _ _ _ Hr)); [by destruct (List.find _ _)|].
    pose proof (repr_size _ _ _ Hr). unfold fuel. lia.
  - intros key k t l (tr & Hr & <-). cbn [ix_upper_bound avl_index]. unfold upper_bound. rewrite (repr_root _ _ _ Hr).
    rewrite (upper_loop_spec key k t tr _ _ _ (repr_rep _ _ _ Hr) (repr_sorted _ _ _ Hr)); [by destruct (List.find _ _)|].
    pose proof (repr_size _ _ _ Hr). unfold fuel. lia.
  - intros key t l (tr & Hr & <-). apply (begin_spec _ _ _ Hr).
  - intros key t l (tr & Hr & <-). apply (begin_spec _ _ _ Hr).
  - intros key d t a n b (tr & Hr & En). by apply (step_spec key t tr).
Defined.

End AvlIndex.

(** ** Runs of operations *)

Module AvlRun.
Import AVLTree.

Inductive Op := Add (n : node) | Remove (n : node) | RemoveKey (k : Z).

Section run.
Context (key : node -> Z).

Definition apply (op : Op) (t : Tree) : option Tree :=
  match op with
  | Add n => snd <$> add key n (construct n t)
  | Remove n => snd <$> remove n t
  | RemoveKey k => snd <$> remove_key key k t
  end.

Fixpoint run (ops : list Op) (t : Tree) : option Tree :=
  match ops with [] => Some t | op :: ops => t ← apply op t; run ops t end.

(** The same on ordered lists: a key that is there already stays where it is. *)
Fixpoint insert (n : node) (l : list node) : list node :=
  match l with
  | [] => [n]
  | m :: l => if key n <? key m then n :: m :: l else if key m <? key n then m :: insert n l else m :: l
  end.

(** [None]: a node is added that is in the tree, or removed that is not. *)
Definition apply_list (op : Op) (l : list node) : option (list node) :=
  match op with
  | Add n => if bool_decide (n ∈ l) then None else Some (insert n l)
  | Remove n => if bool_decide (n ∈ l) then Some (filter (fun m => m <> n) l) else None
  | RemoveKey k => Some (filter (fun m => key m <> k) l)
  end.

Fixpoint run_list (ops : list Op) (l : list node) : option (list node) :=
  match ops with [] => Some l | op :: ops => l ← apply_list op l; run_list ops l end.

End run.

Section facts.
Import Avl AvlRep AvlIndex.
Context (key : node -> Z).

Lemma insert_sorted a n b : sorted key (a ++ n :: b) -> insert key n (a ++ b) = a ++ n :: b.
Proof.
  intros (Ha & [_ Hb]%StronglySorted_inv & Hab)%in_order_app. rewrite List.Forall_forall in Hb.
  induction a as [|x a IH]; cbn [app insert].
  - destruct b as [|y b]; [done|]. cbn [insert]. by rewrite (proj2 (Z.ltb_lt _ _)) by (apply Hb; by left).
  - apply StronglySorted_inv in Ha as [Ha _]. assert (key x < key n) by (apply Hab; by left).
    rewrite (proj2 (Z.ltb_ge (key n) _)), (proj2 (Z.ltb_lt _ _)) by lia. f_equal. apply IH; [done|].
    intros y z Hy. apply Hab. by right.
Qed.

Lemma insert_present n m l : sorted key l -> In m l -> key m = key n -> insert key n l = l.
Proof.
  intros Hs Hm Hk. induction Hs as [|x l Hs IH Hx]; [done|]. cbn [insert]. rewrite List.Forall_forall in Hx.
  destruct Hm as [->|Hm].
  - by rewrite Hk, !(proj2 (Z.ltb_ge _ _)) by lia.
  - specialize (Hx m Hm). rewrite (proj2 (Z.ltb_ge (key n) _)), (proj2 (Z.ltb_lt (key x) _)) by lia. f_equal. by apply IH.
Qed.

Lemma filter_none_dropped (P : node -> Prop) `{!forall x, Decision (P x)} l : (forall m, In m l -> P m) -> filter P l = l.
Proof.
  induction l as [|x l IH]; intros Hl; [done|]. rewrite filter_cons_True by (apply Hl; by left).
  f_equal. apply IH. intros m Hm. apply Hl. by right.
Qed.

Lemma filter_one (P : node -> Prop) `{!forall x, Decision (P x)} a n b :
  ~ P n -> (forall m, In m (a ++ b) -> P m) -> filter P (a ++ n :: b) = a ++ b.
Proof. intros Hn Hab. rewrite filter_app, filter_cons_False by done. rewrite <- filter_app. by apply filter_none_dropped. Qed.

(** In a sorted list a node is told apart by its key. *)
Lemma sorted_others a n b : sorted key (a ++ n :: b) -> forall m, In m (a ++ b) -> key m <> key n.
Proof.
  intros (_ & [_ Hb]%StronglySorted_inv & Hab)%in_order_app m [Hm|Hm]%in_app_iff.
  - specialize (Hab m n Hm (or_introl eq_refl)). lia.
  - rewrite List.Forall_forall in Hb. specialize (Hb m Hm). lia.
Qed.

Lemma apply_spec op t tr l :
  repr key t tr -> zlength (nodes tr) + 1 < 2 ^ 64 -> apply_list key op (nodes tr) = Some l ->
  exists t' tr', apply key op t = Some t' /\ repr key t' tr' /\ nodes tr' = l.
Proof.
  intros Hr Hsz. pose proof (repr_sorted _ _ _ Hr) as Hs. destruct op as [n|n|k]; cbn [apply_list apply].
  - case_bool_decide as Hin; [done|]. intros [= <-].
    assert (n ∉ elems tr) as Hn by (rewrite elems_nodes; by rewrite <- list_elem_of_In).
    destruct (add_spec key n (construct n t) tr) as [(m & Hm & Hk & ->)|(a & b & t' & tr' & E & -> & R & En)];
      [by apply construct_repr|apply lookup_insert_eq|done|done| |]; cbn [fmap option_fmap option_map snd].
    + exists (construct n t), tr. split; [done|]. split; [by apply construct_repr|]. by erewrite insert_present.
    + exists t', tr'. split; [done|]. split; [done|]. rewrite E, En. symmetry. apply insert_sorted.
      rewrite <- En. by apply R.
  - case_bool_decide as Hin; [|done]. intros [= <-]. apply list_elem_of_In, in_split in Hin as (a & b & En).
    destruct (remove_node_spec key t tr a n b Hr En) as (t' & tr' & -> & R & En'). exists t', tr'.
    split; [done|]. split; [done|]. rewrite En', En in *. symmetry. apply filter_one; [by intros []|].
    intros m Hm ->. by apply (sorted_others _ _ _ Hs n Hm).
  - intros [= <-]. destruct (findLink_spec key k t tr Hr) as (ctx & sub & Ef & [<- Hf Hb Ha]).
    destruct (repr_place _ _ _ _ Hr) as (P1 & _ & P3 & _). unfold remove_key. rewrite Ef. cbn [mbind option_bind].
    rewrite (get_link_spec t ctx _ P1 P3). cbn [mbind option_bind]. destruct Hf as [->|(l & n & r & -> & <-)]; cbn [root].
    + exists t, (plug ctx E). split; [done|]. split; [done|]. symmetry. apply filter_none_dropped.
      rewrite nodes_plug. cbn [nodes app]. intros m [Hm%Hb|Hm%Ha]%in_app_iff; lia.
    + destruct (remove_at_spec key t ctx l n r Hr) as (t' & tr' & -> & R & En). exists t', tr'.
      split; [done|]. split; [done|]. rewrite En, nodes_plug in *. cbn [nodes] in *. rewrite <- !app_assoc in *. cbn [app] in *.
      rewrite app_assoc in Hs |- *. rewrite (app_assoc _ (nodes l)). symmetry. apply filter_one; [by intros []|].
      by apply sorted_others.
Qed.

Lemma apply_length_in_order op l l' : apply_list key op l = Some l' -> (length l' <= S (length l))%nat.
Proof.
  destruct op as [n|n|k]; cbn [apply_list].
  - case_bool_decide; [done|]. intros [= <-]. induction l as [|m l IH]; cbn [insert length]; [lia|].
    destruct (key n <? key m); [cbn [length]; lia|]. destruct (key m <? key n); cbn [length]; [|lia].
    apply le_n_S, IH. set_solver.
  - case_bool_decide; [|done]. intros [= <-]. pose proof (length_filter (fun m => m <> n) l). lia.
  - intros [= <-]. pose proof (length_filter (fun m => key m <> k) l). lia.
Qed.

Lemma run_in_order ops : forall t tr l,
  repr key t tr -> zlength (nodes tr) + zlength ops < 2 ^ 64 -> run_list key ops (nodes tr) = Some l ->
  exists t' tr', run key ops t = Some t' /\ repr key t' tr' /\ nodes tr' = l.
Proof.
  induction ops as [|op ops IH]; intros t tr l Hr Hsz; cbn [run_list run length] in *; [intros [= <-]; by exists t, tr|].
  destruct (apply_list key op (nodes tr)) as [l1|] eqn:E1; [|done]. cbn [mbind option_bind]. intros Hl.
  destruct (apply_spec op t tr l1 Hr ltac:(lia) E1) as (t1 & tr1 & -> & R1 & <-). cbn [mbind option_bind].
  apply (IH t1 tr1 l R1); [|done]. pose proof (apply_length_in_order _ _ _ E1). lia.
Qed.

(** Every node knows its height, and its subtrees differ by at most one. *)
Lemma repr_balanced t tr n : repr key t tr -> In n (nodes tr) ->
  (exists h, height_of (Some n) (links t) = Some h /\ 1 <= h <= 129)
  /\ exists b, AVLTree.balance n (links t) = Some b /\ Z.abs b <= 1.
Proof.
  intros Hr (ctx & l & r & ->)%node_place. destruct (repr_place _ _ _ _ Hr) as (_ & P2 & _ & P4 & _).
  pose proof P2 as (Hn & Hl & Hrr). split.
  - exists (ht (N l n r)). split; [by apply (height_rep _ _ _ P2)|].
    cbn [ht]. pose proof (ht_nonneg l). pose proof (ht_nonneg r). split; [lia|]. apply (avl_height (N l n r)); [done|].
    pose proof (repr_small _ _ _ Hr) as Hs. rewrite nodes_plug, !length_app in Hs. lia.
  - exists (ht r - ht l). split; [by apply (balance_spec _ _ _ _ _ _ _ _ Hn Hl Hrr)|]. apply P4.
Qed.

End facts.
End AvlRun.

(** ** Property *)

Section theorems.
Import AVLTree AvlIndex AvlRun.

(** C27: Whatever nodes are added to an empty tree and removed from it, by iterator
    or by key, the tree is the list of its nodes in the order of their keys: no
    operation follows a null or dangling pointer or ends without a result, lookups,
    bounds and iterators give what they give on the list, every node is balanced,
    and heights stay far below the 256 that their eight bits can hold. *)
Theorem avl_tree (key : node -> Z) (ops : list Op) (l : list node) :
  zlength ops < 2 ^ 64 -> run_list key ops [] = Some l ->
  exists t, run key ops empty = Some t /\ mSize t = zlength l /\ AvlRep.sorted key l
    /\ (forall k, find key k t = Some (List.find (fun n => k =? key n) l)
         /\ lower_bound key k t = Some (List.find (fun n => k <=? key n) l)
         /\ upper_bound key k t = Some (List.find (fun n => k <? key n) l))
    /\ begin t = Some (head l) /\ rbegin t = Some (last l)
    /\ (forall a n b, l = a ++ n :: b -> step true n t = Some (head b) /\ step false n t = Some (last a))
    /\ (forall n, In n l ->
         (exists h, height_of (Some n) (links t) = Some h /\ 1 <= h <= 129)
         /\ exists b, balance n (links t) = Some b /\ Z.abs b <= 1).
Proof.
  intros Hsz Hl. destruct (holds_empty (T:=Tree) key) as (e & He & Ee). rewrite <- Ee in Hl.
  destruct (run_in_order key ops empty e l He) as (t & tr & E & R & En); [rewrite Ee; cbn [length]; lia|done|].
  assert (holds key t l) as Hh by by exists tr. exists t. split; [exact E|]. split; [apply (holds_size key t l Hh)|].
  split; [by apply (holds_sorted key t l)|]. split_and!.
  - intros k. split_and!; [exact (find_holds key k t l Hh)|exact (lower_holds key k t l Hh)|exact (upper_holds key k t l Hh)].
  - exact (begin_holds key t l Hh).
  - exact (rbegin_holds key t l Hh).
  - intros a n b ->. split; [exact (step_holds key true t a n b Hh)|exact (step_holds key false t a n b Hh)].
  - intros n Hn. rewrite <- En in Hn. by apply (repr_balanced key t tr n).
Qed.

End theorems.

Lemma avl_tree_witness :
  let ops := map AvlRun.Add [5; 2; 8; 1; 9; 3; 7; 4; 6] ++ [AvlRun.Remove 5; AvlRun.RemoveKey (-8)] in
  exists t, AvlRun.run Z.opp ops AVLTree.empty = Some t /\ AVLTree.begin t = Some (Some 9)
    /\ AVLTree.step true 6 t = Some (Some 4).
Proof.
  cbv zeta.
  destruct (avl_tree Z.opp (map AvlRun.Add [5; 2; 8; 1; 9; 3; 7; 4; 6] ++ [AvlRun.Remove 5; AvlRun.RemoveKey (-8)])
    [9; 7; 6; 4; 3; 2; 1]) as (t & E & _ & _ & _ & Hb & _ & Hs & _); [vm_compute; reflexivity..|].
  exists t. split; [exact E|]. split; [exact Hb|]. apply (Hs [9; 7] 6 [4; 3; 2; 1]). reflexivity.
Defined.
