(* ===== verification/RangeTree.v ===== *)
(** * Ranges of a file

    [FileRange] (src/src/file_service/file_range.cpp) and the tree of disjoint
    ranges of src/src/file_service/mega/file_service/file_range_tree.h: nodes with a
    range and a value, in one index by where their ranges begin and in another by
    where they end.  The indices are those of the interface [OrderedIndex]
    (AvlTree.v).  [Ranges] is what the operations mean: the list of the ranges in
    the order of the file.

    Proved: both indices always hold the same disjoint ranges and every operation
    does what it does on the list; the gaps that an iterator of
    file_range_tree_utilities.h finds are the positions that no range covers, as
    long as no two ranges touch each other ([touching_gaps] shows what happens
    otherwise). *)

From Stdlib Require Import Sorted.
From S2P Require Import Prelude AvlTree.
Local Open Scope Z_scope.

Module FileRange.

(** Positions are 64-bit unsigned integers. *)
Record FileRange := MkFileRange { mBegin : Z; mEnd : Z }.

#[export] Instance FileRange_eq_dec : EqDecision FileRange.
Proof. solve_decision. Defined.

(** The constructor orders its arguments. *)
Definition new (begin end_ : Z) : FileRange := MkFileRange (Z.min begin end_) (Z.max begin end_).

Definition contains (r : FileRange) (position : Z) : bool := (mBegin r <=? position) && (position <? mEnd r).
Definition empty (r : FileRange) : bool := mBegin r =? mEnd r.
Definition length_ (r : FileRange) : Z := u64 (mEnd r - mBegin r).

Definition clamp (r : FileRange) (begin end_ : Z) : FileRange :=
  new (Z.max (Z.min (mBegin r) end_) begin) (Z.max (Z.min (mEnd r) end_) begin).

Definition combine (lhs rhs : FileRange) : FileRange :=
  new (Z.min (mBegin lhs) (mBegin rhs)) (Z.max (mEnd lhs) (mEnd rhs)).

Definition extend (r : FileRange) (adjustment : Z) : FileRange :=
  new (mBegin r - Z.min adjustment (mBegin r)) (u64 (mEnd r + adjustment)).

End FileRange.

(** ** The tree *)

Module FileRangeTree.
Import FileRange.

Section tree.
Context {T : Type} `{OrderedIndex T} {V : Type}.

(** The values of the nodes, the indices, and an address for the next node. *)
Record RangeTree := MkRangeTree {
  values : gmap Z (FileRange * V);
  mByRangeBegin : T;
  mByRangeEnd : T;
  next : Z
}.

Definition new_tree : RangeTree := MkRangeTree ∅ ix_empty ix_empty 1.

Definition range_of (t : RangeTree) (n : node) : FileRange :=
  match values t !! n with Some (r, _) => r | None => MkFileRange 0 0 end.
Definition begin_key (t : RangeTree) (n : node) : Z := mBegin (range_of t n).
Definition end_key (t : RangeTree) (n : node) : Z := mEnd (range_of t n).

Definition beginsAfter (p : Z) (t : RangeTree) : option (option node) := ix_upper_bound (begin_key t) p (mByRangeBegin t).
Definition beginsAt (p : Z) (t : RangeTree) : option (option node) := ix_find (begin_key t) p (mByRangeBegin t).
Definition beginsAtOrAfter (p : Z) (t : RangeTree) : option (option node) := ix_lower_bound (begin_key t) p (mByRangeBegin t).
Definition endsAfter (p : Z) (t : RangeTree) : option (option node) := ix_upper_bound (end_key t) p (mByRangeEnd t).
Definition endsAt (p : Z) (t : RangeTree) : option (option node) := ix_find (end_key t) p (mByRangeEnd t).
Definition endsAtOrAfter (p : Z) (t : RangeTree) : option (option node) := ix_lower_bound (end_key t) p (mByRangeEnd t).

Definition begin (t : RangeTree) : option (option node) := ix_begin (mByRangeBegin t).
Definition last (t : RangeTree) : option (option node) := ix_rbegin (mByRangeBegin t).
Definition size (t : RangeTree) : Z := ix_size (mByRangeBegin t).
Definition empty (t : RangeTree) : bool := ix_size (mByRangeBegin t) =? 0.

Definition contains (p : Z) (t : RangeTree) : option (option node) :=
  i ← endsAfter p t;
  match i with
  | None => Some None
  | Some n => if p <? begin_key t n then Some None else Some (Some n)
  end.

(** A new node in both indices. *)
Definition insert (r : FileRange) (v : V) (t : RangeTree) : option (node * bool * RangeTree) :=
  let n := next t in
  let t := MkRangeTree (<[n := (r, v)]> (values t)) (ix_construct n (mByRangeBegin t))
             (ix_construct n (mByRangeEnd t)) (next t + 1) in
  '(it, _, b) ← ix_add (begin_key t) n (mByRangeBegin t);
  '(_, _, e) ← ix_add (end_key t) n (mByRangeEnd t);
  Some (it, true, MkRangeTree (values t) b e (next t)).

(** [add] and [tryAdd], which differ in when the node is allocated only. *)
Definition add (r : FileRange) (v : V) (t : RangeTree) : option (node * bool * RangeTree) :=
  i ← ix_upper_bound (end_key t) (mBegin r) (mByRangeEnd t);
  match i with
  | Some o =>
      if begin_key t o <=? mBegin r then Some (o, false, t)
      else insert (MkFileRange (mBegin r) (Z.min (mEnd r) (begin_key t o))) v t
  | None => insert r v t
  end.

(** The ranges that overlap a range, from the first one to the one behind. *)
Definition find (r : FileRange) (t : RangeTree) : option (option node * option node) :=
  i ← ix_upper_bound (end_key t) (mBegin r) (mByRangeEnd t);
  match i with
  | None => Some (None, None)
  | Some n =>
      if mEnd r <=? begin_key t n then Some (None, None)
      else j ← ix_lower_bound (begin_key t) (mEnd r) (mByRangeBegin t); Some (Some n, j)
  end.

(** One node, with the one behind it. *)
Definition remove (n : node) (t : RangeTree) : option (option node * RangeTree) :=
  i ← ix_step true n (mByRangeBegin t);
  '(_, b) ← ix_remove n (mByRangeBegin t);
  '(_, e) ← ix_remove n (mByRangeEnd t);
  Some (i, MkRangeTree (delete n (values t)) b e (next t)).

Fixpoint remove_loop (fuel : nat) (i j : option node) (t : RangeTree) : option (option node * RangeTree) :=
  match fuel with
  | O => None
  | S fuel =>
      if bool_decide (i = j) then Some (i, t)
      else n ← i; '(i, t) ← remove n t; remove_loop fuel i j t
  end.

Definition remove_between (i j : option node) (t : RangeTree) : option (option node * RangeTree) :=
  remove_loop (S (Z.to_nat (size t))) i j t.

Definition remove_range (r : FileRange) (t : RangeTree) : option (option node * RangeTree) :=
  b ← ix_lower_bound (begin_key t) (mBegin r) (mByRangeBegin t);
  match b with
  | None => Some (None, t)
  | Some n =>
      if mEnd r <? end_key t n then Some (None, t)
      else e ← ix_lower_bound (begin_key t) (mEnd r) (mByRangeBegin t); remove_between b e t
  end.

Definition clear (t : RangeTree) : option RangeTree :=
  b ← begin t; '(_, t) ← remove_between b None t; Some t.

(** What a loop from [begin] to [end] visits. *)
Fixpoint visit (fuel : nat) (i : option node) (t : RangeTree) : option (list (FileRange * V)) :=
  match fuel, i with
  | _, None => Some []
  | O, Some _ => None
  | S fuel, Some n =>
      e ← values t !! n; i ← ix_step true n (mByRangeBegin t); rest ← visit fuel i t; Some (e :: rest)
  end.

Definition items (t : RangeTree) : option (list (FileRange * V)) := i ← begin t; visit (Z.to_nat (size t)) i t.

(** *** Gaps *)

(** [FileRangeGapIterator]. *)
Record Gaps := MkGaps { mIterator : option node; mGap : FileRange; mRange : FileRange }.

Definition detect (t : RangeTree) (g : Gaps) : option Gaps :=
  match mIterator g with
  | None => Some (MkGaps None (mRange g) (MkFileRange 0 0))
  | Some n =>
      let range := range_of t n in
      if mBegin (mRange g) <? mBegin range then
        let gap := MkFileRange (mBegin (mRange g)) (Z.min (mEnd (mRange g)) (mBegin range)) in
        Some (MkGaps (Some n) gap (MkFileRange (mEnd gap) (mEnd (mRange g))))
      else if mEnd (mRange g) <=? mEnd range then Some (MkGaps (Some n) (MkFileRange 0 0) (MkFileRange 0 0))
      else
        let gap := new (mEnd range) (mEnd (mRange g)) in
        i ← ix_step true n (mByRangeBegin t);
        let gap :=
          match i with
          | Some m => MkFileRange (mBegin gap) (Z.min (mEnd (mRange g)) (begin_key t m))
          | None => gap
          end in
        Some (MkGaps i gap (MkFileRange (mEnd gap) (mEnd (mRange g))))
  end.

Definition new_gaps (t : RangeTree) (r : FileRange) : option Gaps :=
  i ← endsAfter (mBegin r) t;
  let g := MkGaps i (MkFileRange 0 0) r in
  if mEnd r <=? mBegin r then Some g else detect t g.

(** What a loop over the iterator sees. *)
Fixpoint gaps_loop (fuel : nat) (t : RangeTree) (g : Gaps) : option (list FileRange) :=
  match fuel with
  | O => None
  | S fuel =>
      if FileRange.empty (mGap g) then Some []
      else g' ← detect t g; rest ← gaps_loop fuel t g'; Some (mGap g :: rest)
  end.

Definition gaps (t : RangeTree) (r : FileRange) : option (list FileRange) :=
  g ← new_gaps t r; gaps_loop (Z.to_nat (size t) + 3) t g.

End tree.
End FileRangeTree.

(** ** What the operations mean

    A list of ranges with values, in the order of the file. *)

Module Ranges.
Import FileRange.

Section ranges.
Context {V : Type}.
Abbreviation entry := (FileRange * V)%type.
Implicit Types (e : entry) (l : list entry).

(** Ranges are not empty and do not overlap. *)
Definition precedes (e e' : entry) : Prop := mEnd e.1 <= mBegin e'.1.
Definition nonempty (e : entry) : Prop := mBegin e.1 < mEnd e.1.
Definition disjoint_ranges (l : list entry) : Prop := Forall nonempty l /\ StronglySorted precedes l.

Definition beginsAfter (p : Z) l : option entry := List.find (fun e => p <? mBegin e.1) l.
Definition beginsAt (p : Z) l : option entry := List.find (fun e => p =? mBegin e.1) l.
Definition beginsAtOrAfter (p : Z) l : option entry := List.find (fun e => p <=? mBegin e.1) l.
Definition endsAfter (p : Z) l : option entry := List.find (fun e => p <? mEnd e.1) l.
Definition endsAt (p : Z) l : option entry := List.find (fun e => p =? mEnd e.1) l.
Definition endsAtOrAfter (p : Z) l : option entry := List.find (fun e => p <=? mEnd e.1) l.

Definition contains (p : Z) l : option entry :=
  e ← endsAfter p l; if p <? mBegin e.1 then None else Some e.

Fixpoint insert (e : entry) l : list entry :=
  match l with
  | [] => [e]
  | x :: l => if mBegin e.1 <? mBegin x.1 then e :: x :: l else x :: insert e l
  end.

(** The range is cut at the next one, or not added where another one is. *)
Definition add (r : FileRange) (v : V) l : entry * bool * list entry :=
  match endsAfter (mBegin r) l with
  | Some o =>
      if mBegin o.1 <=? mBegin r then (o, false, l)
      else let e := (MkFileRange (mBegin r) (Z.min (mEnd r) (mBegin o.1)), v) in (e, true, insert e l)
  | None => ((r, v), true, insert (r, v) l)
  end.

Definition find (r : FileRange) l : option entry * option entry :=
  match endsAfter (mBegin r) l with
  | None => (None, None)
  | Some e => if mEnd r <=? mBegin e.1 then (None, None) else (Some e, beginsAtOrAfter (mEnd r) l)
  end.

(** The entries between two iterators, and the others. *)
Definition is_between (i j : option entry) (e : entry) : bool :=
  match i with
  | None => false
  | Some i => (mBegin i.1 <=? mBegin e.1) && match j with Some j => mBegin e.1 <? mBegin j.1 | None => true end
  end.
Definition between (i j : option entry) l : list entry := List.filter (is_between i j) l.
Definition remove_between (i j : option entry) l : list entry := List.filter (fun e => negb (is_between i j e)) l.

(** The entry in front of another one. *)
Definition prev (e : entry) l : option entry := last (List.filter (fun x => mBegin x.1 <? mBegin e.1) l).

(** What a caller removes with the iterators that [find] gives it. *)
Definition remove_found (r : FileRange) l : list entry :=
  List.filter (fun e => (mEnd r <=? mBegin e.1) || (mEnd e.1 <=? mBegin r)) l.

Definition remove_at (p : Z) l : list entry := List.filter (fun e => negb (mBegin e.1 =? p)) l.

Definition remove_range (r : FileRange) l : list entry :=
  match beginsAtOrAfter (mBegin r) l with
  | None => l
  | Some e =>
      if mEnd r <? mEnd e.1 then l
      else List.filter (fun e => (mBegin e.1 <? mBegin r) || (mEnd r <=? mBegin e.1)) l
  end.

(** The gaps of a range between the entries that follow. *)
Fixpoint gaps_from (begin end_ : Z) l : list FileRange :=
  if end_ <=? begin then []
  else
    match l with
    | [] => [MkFileRange begin end_]
    | e :: l =>
        if mEnd e.1 <=? begin then gaps_from begin end_ l
        else if end_ <=? mBegin e.1 then [MkFileRange begin end_]
        else if begin <? mBegin e.1 then MkFileRange begin (mBegin e.1) :: gaps_from (mEnd e.1) end_ l
        else gaps_from (mEnd e.1) end_ l
    end.

Definition gaps (r : FileRange) l : list FileRange := gaps_from (mBegin r) (mEnd r) l.

(** The first gap that an iterator finds, which is empty if there is none. *)
Definition first_gap (r : FileRange) l : FileRange :=
  if mEnd r <=? mBegin r then MkFileRange 0 0
  else
    match List.filter (fun e => mBegin r <? mEnd e.1) l with
    | [] => r
    | e :: l =>
        if mBegin r <? mBegin e.1 then MkFileRange (mBegin r) (Z.min (mEnd r) (mBegin e.1))
        else if mEnd r <=? mEnd e.1 then MkFileRange 0 0
        else MkFileRange (mEnd e.1) (match l with [] => mEnd r | x :: _ => Z.min (mEnd r) (mBegin x.1) end)
    end.

(** No two ranges touch each other. *)
Definition separated (e e' : entry) : Prop := mEnd e.1 < mBegin e'.1.

End ranges.
End Ranges.

(** ** The tree is the list *)

Module RangeFacts.
Import FileRange FileRangeTree.

Lemma split_place {A} (P : A -> Prop) (a b a' b' : list A) :
  (forall x, In x a -> P x) -> (forall x, In x b -> ~ P x) -> (forall x, In x a' -> P x) -> (forall x, In x b' -> ~ P x) ->
  a ++ b = a' ++ b' -> a = a' /\ b = b'.
Proof.
  revert a'. induction a as [|x a IH]; intros [|y a']; cbn [app]; intros Ha Hb Ha' Hb' E.
  - done.
  - subst b. exfalso. apply (Hb y); [by left|]. apply Ha'. by left.
  - subst b'. exfalso. apply (Hb' x); [by left|]. apply Ha. by left.
  - injection E as <- E. destruct (IH a') as [-> ->]; try done; intros z Hz; [apply Ha|apply Ha']; by right.
Qed.

(** A node is added where its key belongs. *)
Lemma ix_add_split `{OrderedIndexLaws T} key n (t : T) a b :
  holds key t (a ++ b) -> ready n t -> ~ In n (a ++ b) -> zlength (a ++ b) + 1 < 2 ^ 64 ->
  (forall m, In m a -> key m < key n) -> (forall m, In m b -> key n < key m) ->
  exists t', ix_add key n t = Some (n, true, t') /\ holds key t' (a ++ n :: b).
Proof.
  intros Ht Hn Hin Hs Ha Hb. destruct (add_holds key n t (a ++ b) Ht Hn Hin Hs) as [(m & Hm & Hk & _)|(a' & b' & t' & E & Hadd & Ht')].
  - apply in_app_iff in Hm as [Hm|Hm]; [specialize (Ha m Hm)|specialize (Hb m Hm)]; lia.
  - exists t'. split; [done|]. pose proof (holds_sorted key t' _ Ht') as (_ & [_ Hb']%StronglySorted_inv & Ha')%AvlRep.in_order_app.
    rewrite List.Forall_forall in Hb'.
    destruct (split_place (fun m => key m < key n) a b a' b') as [-> ->]; try done.
    + intros m Hm. specialize (Hb m Hm). lia.
    + intros m Hm. apply Ha'; [done|by left].
    + intros m Hm. specialize (Hb' m Hm). lia.
Qed.

Lemma sorted_split {A} (R : A -> A -> Prop) a b : StronglySorted R (a ++ b) -> StronglySorted R a /\ StronglySorted R b.
Proof.
  induction a as [|x a IH]; cbn [app]; [by split; [constructor|]|]. intros [Hs Hx]%StronglySorted_inv.
  destruct (IH Hs) as [Ha Hb]. split; [|done]. constructor; [done|]. by apply Forall_app in Hx as [Hx _].
Qed.

Section lists.
Context {V : Type}.
Implicit Types (e x y o : FileRange * V) (l a b : list (FileRange * V)).
Import Ranges.

Lemma disjoint_app a b : disjoint_ranges (a ++ b) <->
  disjoint_ranges a /\ disjoint_ranges b /\ forall x y, In x a -> In y b -> precedes x y.
Proof.
  unfold disjoint_ranges. induction a as [|x a IH]; cbn [app].
  - split; [|by intros (_ & ? & _)]. intros [H1 H2]. split; [split; constructor|]. split; [done|by intros ? ? []].
  - split.
    + intros [[Hx Ha]%Forall_cons [Hs Hp]%StronglySorted_inv]. destruct (proj1 IH (conj Ha Hs)) as ([A1 A2] & Hb & Hab).
      apply Forall_app in Hp as [Hp Hpb]. split; [by split; constructor|]. split; [done|].
      intros y z [<-|Hy] Hz; [|by apply Hab]. rewrite List.Forall_forall in Hpb. by apply Hpb.
    + intros ([[Hx Ha]%Forall_cons [Hs Hp]%StronglySorted_inv] & Hb & Hab).
      destruct (proj2 IH) as [A1 A2]; [split; [by split|]; split; [done|]; intros; apply Hab; [by right|done]|].
      split; [by constructor|]. constructor; [done|]. apply Forall_app. split; [done|].
      apply List.Forall_forall. intros y Hy. apply Hab; [by left|done].
Qed.

Lemma disjoint_cons e l : disjoint_ranges (e :: l) <-> nonempty e /\ disjoint_ranges l /\ forall y, In y l -> precedes e y.
Proof.
  change (e :: l) with ([e] ++ l). rewrite disjoint_app. split.
  - intros ([[He _]%Forall_cons _] & Hl & Hel). split_and!; [done|done|]. intros y Hy. apply Hel; [by left|done].
  - intros (He & Hl & Hel). split_and!; [split; repeat constructor; done|done|]. intros x y [<-|[]] Hy. by apply Hel.
Qed.

(** The first entry that ends behind a position splits the list. *)
Lemma endsAfter_split p l : disjoint_ranges l ->
  exists a b, l = a ++ b /\ (forall x, In x a -> mEnd x.1 <= p) /\ endsAfter p l = head b
    /\ (forall x, In x b -> p < mEnd x.1).
Proof.
  unfold endsAfter. induction l as [|e l IH]; intros Hl; cbn [List.find].
  - exists [], []. split_and!; [done|by intros ? []|done|by intros ? []].
  - apply disjoint_cons in Hl as (He & Hl & Hel). destruct (Z.ltb_spec p (mEnd e.1)) as [Hp|Hp].
    + exists [], (e :: l). split_and!; [done|by intros ? []|done|]. intros x [<-|Hx]; [done|].
      specialize (Hel x Hx). destruct Hl as [Hn _]. rewrite Forall_forall in Hn.
      specialize (Hn x ltac:(by apply list_elem_of_In)). unfold precedes, nonempty in *. lia.
    + destruct (IH Hl) as (a & b & -> & Ha & -> & Hb). exists (e :: a), b. split_and!; [done| |done|done].
      intros x [<-|Hx]; [done|by apply Ha].
Qed.

Lemma insert_split a e b :
  (forall x, In x a -> mBegin x.1 <= mBegin e.1) -> (forall x, In x b -> mBegin e.1 < mBegin x.1) -> insert e (a ++ b) = a ++ e :: b.
Proof.
  intros Ha Hb. induction a as [|x a IH]; cbn [app insert].
  - destruct b as [|y b]; [done|]. cbn [insert]. by rewrite (proj2 (Z.ltb_lt _ _)) by (apply Hb; by left).
  - rewrite (proj2 (Z.ltb_ge _ _)) by (apply Ha; by left). f_equal. apply IH. intros y Hy. apply Ha. by right.
Qed.

(** What [add] does: nothing, or the range, perhaps cut, is put between those
    before and those behind it. *)
Lemma add_cases r v l : disjoint_ranges l -> mBegin r < mEnd r ->
  (exists o, endsAfter (mBegin r) l = Some o /\ mBegin o.1 <= mBegin r /\ add r v l = (o, false, l))
  \/ exists a b r', l = a ++ b /\ add r v l = ((r', v), true, a ++ (r', v) :: b) /\ mBegin r' = mBegin r /\ mBegin r' < mEnd r' <= mEnd r
     /\ (forall x, In x a -> mEnd x.1 <= mBegin r') /\ (forall x, In x b -> mEnd r' <= mBegin x.1)
     /\ r' = match endsAfter (mBegin r) l with Some o => MkFileRange (mBegin r) (Z.min (mEnd r) (mBegin o.1)) | None => r end
     /\ (forall o, endsAfter (mBegin r) l = Some o -> mBegin r < mBegin o.1).
Proof.
  intros Hl Hr. destruct (endsAfter_split (mBegin r) l Hl) as (a & b & -> & Ha & E & Hb). unfold add. rewrite E.
  pose proof Hl as (Hla & Hlb & Hab)%disjoint_app.
  assert (forall x, In x a -> mBegin x.1 <= mBegin r) as Ha'.
  { intros x Hx. specialize (Ha x Hx). destruct Hla as [Hn _]. rewrite Forall_forall in Hn.
    specialize (Hn x ltac:(by apply list_elem_of_In)). unfold nonempty in Hn. lia. }
  destruct b as [|o b]; cbn [head].
  - right. exists a, [], r. rewrite insert_split by (done || by intros ? []). split_and!; try done; by destruct r.
  - apply disjoint_cons in Hlb as (Ho & Hlb & Hob). destruct (Z.leb_spec (mBegin o.1) (mBegin r)) as [Hle|Hgt].
    + left. by exists o.
    + right. eexists a, (o :: b), _. split; [done|]. split; [f_equal; apply insert_split; cbn [fst mBegin]|].
      * exact Ha'.
      * intros x [<-|Hx]; [done|]. specialize (Hob x Hx). unfold precedes, nonempty in *. lia.
      * cbn [mBegin mEnd]. split_and!; try done; try lia; [|by intros ? [= <-]].
        intros x [<-|Hx]; [lia|]. specialize (Hob x Hx). unfold precedes, nonempty in *. lia.
Qed.

Lemma disjoint_insert a e b : disjoint_ranges (a ++ b) -> nonempty e ->
  (forall x, In x a -> mEnd x.1 <= mBegin e.1) -> (forall x, In x b -> mEnd e.1 <= mBegin x.1) -> disjoint_ranges (a ++ e :: b).
Proof.
  intros (Ha & Hb & Hab)%disjoint_app He Hea Heb. apply disjoint_app. split; [done|]. split; [by apply disjoint_cons|].
  intros x y Hx [<-|Hy]; [by apply Hea|by apply Hab].
Qed.

Lemma add_disjoint r v l : disjoint_ranges l -> mBegin r < mEnd r -> disjoint_ranges (add r v l).2.
Proof.
  intros Hl Hr. destruct (add_cases r v l Hl Hr) as [(o & _ & _ & ->)|(a & b & r' & -> & -> & E & H1 & H2 & H3 & _)]; [done|].
  cbn [snd]. apply disjoint_insert; [done|unfold nonempty; cbn [fst]; lia|done|done].
Qed.

Lemma contains_iff r p : FileRange.contains r p = true <-> mBegin r <= p < mEnd r.
Proof. unfold FileRange.contains. rewrite andb_true_iff, Z.leb_le, Z.ltb_lt. done. Qed.

Lemma contains_not r p : FileRange.contains r p = false <-> p < mBegin r \/ mEnd r <= p.
Proof. unfold FileRange.contains. rewrite andb_false_iff, Z.leb_gt, Z.ltb_ge. done. Qed.

Lemma forall_cons (P : FileRange * V -> Prop) e l : (forall x, In x (e :: l) -> P x) <-> P e /\ forall x, In x l -> P x.
Proof.
  split; [intros HP; split; [apply HP; by left|intros x Hx; apply HP; by right]|].
  by intros [He HP] x [<-|Hx]; [|apply HP].
Qed.

Lemma exists_cons (P : FileRange -> Prop) g (gs : list FileRange) :
  (exists h, In h (g :: gs) /\ P h) <-> P g \/ exists h, In h gs /\ P h.
Proof.
  split.
  - intros (h & [<-|Hh] & HP); [by left|]. right. by exists h.
  - intros [HP|(h & Hh & HP)]; [exists g|exists h]; (split; [|done]); [by left|by right].
Qed.

(** The gaps from a position on. *)
Lemma gaps_from_covers l : forall s q p, disjoint_ranges l ->
  (exists g, In g (gaps_from s q l) /\ FileRange.contains g p = true)
  <-> s <= p < q /\ forall e, In e l -> FileRange.contains e.1 p = false.
Proof.
  induction l as [|e l IH]; intros s q p Hl; cbn [gaps_from].
  - destruct (Z.leb_spec q s) as [Hq|Hq]; [split; [by intros (g & [] & _)|lia]|].
    rewrite exists_cons, contains_iff. cbn [mBegin mEnd]. split.
    + intros [Hp|(g & [] & _)]. split; [done|by intros ? []].
    + intros [Hp _]. by left.
  - apply disjoint_cons in Hl as (He & Hl & Hel). unfold nonempty in He.
    destruct (Z.leb_spec q s) as [Hq|Hq]; [split; [by intros (g & [] & _)|lia]|].
    rewrite forall_cons, contains_not.
    assert (p < mEnd e.1 -> forall x, In x l -> FileRange.contains x.1 p = false) as Hbefore.
    { intros Hp x Hx. specialize (Hel x Hx). unfold precedes in Hel. apply contains_not. lia. }
    destruct (Z.leb_spec (mEnd e.1) s) as [Hes|Hes]; [|destruct (Z.leb_spec q (mBegin e.1)) as [Hqe|Hqe]].
    + rewrite IH by done. intuition lia.
    + rewrite exists_cons, contains_iff. cbn [mBegin mEnd]. split.
      * intros [Hp|(g & [] & _)]. split; [done|]. split; [lia|]. apply Hbefore. lia.
      * intros [Hp _]. by left.
    + destruct (Z.ltb_spec s (mBegin e.1)) as [Hse|Hse].
      * rewrite exists_cons, contains_iff, IH by done. cbn [mBegin mEnd]. intuition (try lia). apply Hbefore; [lia|done].
      * rewrite IH by done. intuition lia.
Qed.

End lists.

(** *** Both indices hold the same ranges *)

Section representation.
Context {T : Type} `{OrderedIndexLaws T} {V : Type}.
Implicit Types (t : RangeTree (T:=T) (V:=V)) (l : list (FileRange * V)).

Record repr t (ns : list node) l : Prop := {
  repr_begin : holds (begin_key t) (mByRangeBegin t) ns;
  repr_end : holds (end_key t) (mByRangeEnd t) ns;
  repr_values : Forall2 (fun n e => values t !! n = Some e) ns l;
  repr_disjoint : Ranges.disjoint_ranges l;
  repr_next : forall n, In n ns -> n < next t
}.

(** What an iterator points to. *)
Definition entry_at t (i : option node) : option (FileRange * V) := i ≫= fun n => values t !! n.

Lemma key_of_value t n e : values t !! n = Some e -> begin_key t n = mBegin e.1 /\ end_key t n = mEnd e.1.
Proof. intros E. unfold begin_key, end_key, range_of. rewrite E. by destruct e. Qed.

Lemma find_matches t (P : node -> bool) (Q : FileRange * V -> bool) ns l :
  Forall2 (fun n e => values t !! n = Some e) ns l -> (forall n e, values t !! n = Some e -> P n = Q e) ->
  entry_at t (List.find P ns) = List.find Q l.
Proof.
  intros Hv HP. induction Hv as [|n e ns l E Hv IH]; [done|]. cbn [List.find]. rewrite (HP n e E).
  by destruct (Q e).
Qed.

Section queries.
Context (t : RangeTree (T:=T) (V:=V)) (ns : list node) (l : list (FileRange * V)) (Hr : repr t ns l).

Lemma find_begin (f : (node -> Z) -> node -> bool) (Q : Z -> bool) :
  (forall k n, f k n = Q (k n)) -> entry_at t (List.find (f (begin_key t)) ns) = List.find (fun e => Q (mBegin e.1)) l.
Proof. intros Hf. apply find_matches; [apply Hr|]. intros n e [<- _]%key_of_value. apply Hf. Qed.

Lemma find_end (f : (node -> Z) -> node -> bool) (Q : Z -> bool) :
  (forall k n, f k n = Q (k n)) -> entry_at t (List.find (f (end_key t)) ns) = List.find (fun e => Q (mEnd e.1)) l.
Proof. intros Hf. apply find_matches; [apply Hr|]. intros n e [_ <-]%key_of_value. apply Hf. Qed.

(** Every query finds what it finds on the list. *)
Lemma queries p :
  entry_at t <$> beginsAfter p t = Some (Ranges.beginsAfter p l)
  /\ entry_at t <$> beginsAt p t = Some (Ranges.beginsAt p l)
  /\ entry_at t <$> beginsAtOrAfter p t = Some (Ranges.beginsAtOrAfter p l)
  /\ entry_at t <$> endsAfter p t = Some (Ranges.endsAfter p l)
  /\ entry_at t <$> endsAt p t = Some (Ranges.endsAt p l)
  /\ entry_at t <$> endsAtOrAfter p t = Some (Ranges.endsAtOrAfter p l).
Proof.
  destruct Hr as [Hb He _ _ _].
  unfold beginsAfter, beginsAt, beginsAtOrAfter, endsAfter, endsAt, endsAtOrAfter.
  rewrite (upper_holds _ _ _ _ Hb), (find_holds _ _ _ _ Hb), (lower_holds _ _ _ _ Hb).
  rewrite (upper_holds _ _ _ _ He), (find_holds _ _ _ _ He), (lower_holds _ _ _ _ He). cbn [fmap option_fmap option_map].
  split_and!; f_equal.
  - by apply (find_begin (fun k n => p <? k n)).
  - by apply (find_begin (fun k n => p =? k n)).
  - by apply (find_begin (fun k n => p <=? k n)).
  - by apply (find_end (fun k n => p <? k n)).
  - by apply (find_end (fun k n => p =? k n)).
  - by apply (find_end (fun k n => p <=? k n)).
Qed.

End queries.

Lemma values_in t ns l n : Forall2 (fun n e => values t !! n = Some e) ns l -> In n ns -> is_Some (values t !! n).
Proof. intros Hv. induction Hv as [|m e ns l E Hv IH]; [intros []|]. intros [<-|Hn]; [by rewrite E|auto]. Qed.

Lemma values_app t ns a b : Forall2 (fun n e => values t !! n = Some e) ns (a ++ b) ->
  exists na nb, ns = na ++ nb /\ Forall2 (fun n e => values t !! n = Some e) na a /\ Forall2 (fun n e => values t !! n = Some e) nb b.
Proof. intros Hv. apply Forall2_app_inv_r in Hv as (na & nb & Ha & Hb & ->). by exists na, nb. Qed.

Lemma values_keys t ns l n : Forall2 (fun n e => values t !! n = Some e) ns l -> In n ns ->
  exists e, In e l /\ begin_key t n = mBegin e.1 /\ end_key t n = mEnd e.1.
Proof.
  intros Hv. induction Hv as [|m e ns l E Hv IH]; [intros []|]. intros [<-|Hn].
  - exists e. split; [by left|]. by apply key_of_value.
  - destruct (IH Hn) as (e' & He' & Hk). exists e'. split; [by right|done].
Qed.

Lemma values_ext t t' ns l : (forall m, In m ns -> values t' !! m = values t !! m) ->
  Forall2 (fun n e => values t !! n = Some e) ns l -> Forall2 (fun n e => values t' !! n = Some e) ns l.
Proof.
  intros Hm Hv. induction Hv as [|m e ns l E Hv IH]; constructor; [by rewrite Hm by by left|].
  apply IH. intros k Hk. apply Hm. by right.
Qed.

Lemma repr_new : repr (new_tree (T:=T) (V:=V)) [] [].
Proof.
  split; [apply holds_empty|apply holds_empty|constructor| |by intros ? []].
  split; constructor.
Qed.

Lemma insert_repr t ns r v a b :
  repr t ns (a ++ b) -> zlength (a ++ b) + 1 < 2 ^ 64 -> mBegin r < mEnd r ->
  (forall x, In x a -> mEnd x.1 <= mBegin r) -> (forall x, In x b -> mEnd r <= mBegin x.1) ->
  exists t' ns', insert r v t = Some (next t, true, t') /\ repr t' ns' (a ++ (r, v) :: b) /\ values t' !! next t = Some (r, v).
Proof.
  intros [Hb He Hv Hd Hn] Hs Hr Ha Hb'. set (n := next t).
  destruct (values_app _ _ _ _ Hv) as (na & nb & -> & Hva & Hvb).
  pose proof (Forall2_length _ _ _ Hv) as Hlen.
  set (t1 := MkRangeTree (<[n := (r, v)]> (values t)) (ix_construct n (mByRangeBegin t)) (ix_construct n (mByRangeEnd t)) (n + 1)).
  assert (~ In n (na ++ nb)) as Hin by (intros Hi%Hn; lia).
  assert (forall m, In m (na ++ nb) -> values t1 !! m = values t !! m) as Hold.
  { intros m Hm. apply lookup_insert_ne. intros <-. by apply Hin. }
  assert (forall m, In m (na ++ nb) -> begin_key t m = begin_key t1 m /\ end_key t m = end_key t1 m) as Hkeys.
  { intros m Hm. unfold begin_key, end_key, range_of. by rewrite (Hold m Hm). }
  assert (values t1 !! n = Some (r, v)) as Hnew by apply lookup_insert_eq.
  destruct (key_of_value t1 n (r, v) Hnew) as [Kb Ke]. cbn [fst] in Kb, Ke.
  pose proof Hd as (Hda & Hdb & _)%disjoint_app.
  assert (forall x, In x a \/ In x b -> mBegin x.1 < mEnd x.1) as Hne.
  { intros x Hx. destruct Hd as [Hne _]. rewrite List.Forall_forall in Hne. apply (Hne x). by apply in_app_iff. }
  assert (forall m, In m na -> begin_key t1 m < begin_key t1 n /\ end_key t1 m < end_key t1 n) as Hka.
  { intros m Hm. destruct (Hkeys m) as [<- <-]; [apply in_app_iff; by left|]. rewrite Kb, Ke.
    destruct (values_keys _ _ _ _ Hva Hm) as (e & He' & -> & ->). specialize (Ha e He'). specialize (Hne e (or_introl He')). lia. }
  assert (forall m, In m nb -> begin_key t1 n < begin_key t1 m /\ end_key t1 n < end_key t1 m) as Hkb.
  { intros m Hm. destruct (Hkeys m) as [<- <-]; [apply in_app_iff; by right|]. rewrite Kb, Ke.
    destruct (values_keys _ _ _ _ Hvb Hm) as (e & He' & -> & ->). specialize (Hb' e He'). specialize (Hne e (or_intror He')). lia. }
  destruct (ix_add_split (begin_key t1) n (mByRangeBegin t1) na nb) as (tb & Eb & Hb2); try (by intros; apply Hka || apply Hkb).
  { apply construct_holds; [|done]. eapply holds_ext; [|exact Hb]. by intros m Hm; apply Hkeys. }
  { apply construct_ready. }
  { done. }
  { lia. }
  destruct (ix_add_split (end_key t1) n (mByRangeEnd t1) na nb) as (te & Ee & He2); try (by intros; apply Hka || apply Hkb).
  { apply construct_holds; [|done]. eapply holds_ext; [|exact He]. by intros m Hm; apply Hkeys. }
  { apply construct_ready. }
  { done. }
  { lia. }
  exists (MkRangeTree (values t1) tb te (next t1)), (na ++ n :: nb). split; [|split; [|done]].
  - unfold insert. fold n t1. rewrite Eb. cbn [mbind option_bind]. by rewrite Ee.
  - split; [done|done| | |].
    + apply Forall2_app; [|constructor; [done|]].
      * eapply values_ext; [|exact Hva]. intros m Hm. apply Hold, in_app_iff. by left.
      * eapply values_ext; [|exact Hvb]. intros m Hm. apply Hold, in_app_iff. by right.
    + by apply disjoint_insert.
    + cbn [next]. intros m [Hm|[<-|Hm]]%in_app_iff; [|unfold t1; cbn [next]; lia|].
      * assert (m < next t) by (apply Hn, in_app_iff; by left). unfold t1; cbn [next]; lia.
      * assert (m < next t) by (apply Hn, in_app_iff; by right). unfold t1; cbn [next]; lia.
Qed.

Lemma endsAfter_at t ns l p : repr t ns l -> exists i, endsAfter p t = Some i /\ entry_at t i = Ranges.endsAfter p l.
Proof.
  intros Hr. destruct (queries t ns l Hr p) as (_ & _ & _ & Q & _ & _).
  destruct (endsAfter p t) as [i|]; [|done]. injection Q as Q. by exists i.
Qed.

(** An iterator points to a range of the tree. *)
Lemma endsAfter_in t ns l p n : repr t ns l -> endsAfter p t = Some (Some n) -> is_Some (values t !! n).
Proof.
  intros [_ He Hv _ _] E. unfold endsAfter in E. rewrite (upper_holds _ _ _ _ He) in E. injection E as E.
  apply List.find_some in E as [E _]. by eapply values_in.
Qed.

Lemma entry_at_some t i e : entry_at t i = Some e -> exists n, i = Some n /\ values t !! n = Some e.
Proof. destruct i as [n|]; [|done]. intros E. by exists n. Qed.

(** [add] does what it does on the list; the iterator is that of the new range or
    of the one in the way. *)
Lemma add_repr t ns r v l : repr t ns l -> zlength l + 1 < 2 ^ 64 -> mBegin r < mEnd r ->
  exists n t' ns', add r v t = Some (n, (Ranges.add r v l).1.2, t') /\ repr t' ns' (Ranges.add r v l).2
    /\ values t' !! n = Some (Ranges.add r v l).1.1.
Proof.
  intros Hr Hs Hne. pose proof (repr_disjoint _ _ _ Hr) as Hd. destruct (endsAfter_at t ns l (mBegin r) Hr) as (i & Ei & Hi).
  unfold add. fold (endsAfter (mBegin r) t). rewrite Ei. cbn [mbind option_bind].
  destruct (add_cases r v l Hd Hne) as [(o & Eo & Hle & ->)|(a & b & r' & -> & -> & Hb & He & H1 & H2 & Er' & Hgt)].
  - rewrite Eo in Hi. apply entry_at_some in Hi as (n & -> & E). destruct (key_of_value _ _ _ E) as [-> _].
    rewrite (proj2 (Z.leb_le _ _)) by done. by exists n, t, ns.
  - cbn [fst snd]. assert (i = None /\ r' = r \/ exists n, i = Some n /\ mBegin r < begin_key t n
      /\ r' = MkFileRange (mBegin r) (Z.min (mEnd r) (begin_key t n))) as Hcase.
    { destruct i as [n|].
      - right. exists n. split; [done|]. cbn [entry_at mbind option_bind] in Hi.
        destruct (Ranges.endsAfter (mBegin r) (a ++ b)) as [o|].
        + destruct (key_of_value _ _ _ Hi) as [-> _]. split; [by apply Hgt|done].
        + exfalso. destruct (endsAfter_in t ns (a ++ b) (mBegin r) n Hr Ei) as [? E]. congruence.
      - left. split; [done|]. cbn [entry_at mbind option_bind] in Hi. by rewrite <- Hi in Er'. }
    assert (exists t' ns', insert r' v t = Some (next t, true, t') /\ repr t' ns' (a ++ (r', v) :: b) /\ values t' !! next t = Some (r', v))
      as (t' & ns' & E & Hr' & Hv) by (apply (insert_repr t ns); [done..|lia|done|done]).
    exists (next t), t', ns'. split; [|done]. destruct Hcase as [[-> ->]|(n & -> & Hlt & <-)]; [done|].
    by rewrite (proj2 (Z.leb_gt _ _)).
Qed.

Lemma repr_nodup t ns l : repr t ns l -> NoDup ns.
Proof. intros [Hb _ _ _ _]. eapply AvlRep.in_order_nodup, holds_sorted, Hb. Qed.

Lemma disjoint_remove (a m b : list (FileRange * V)) : Ranges.disjoint_ranges (a ++ m ++ b) -> Ranges.disjoint_ranges (a ++ b).
Proof.
  intros (Ha & (Hm & Hb & Hmb)%disjoint_app & Hab)%disjoint_app. apply disjoint_app. split; [done|]. split; [done|].
  intros x y Hx Hy. apply Hab; [done|]. apply in_app_iff. by right.
Qed.

Lemma remove_repr t a n b la e lb : repr t (a ++ n :: b) (la ++ e :: lb) -> length a = length la ->
  exists t', remove n t = Some (head b, t') /\ repr t' (a ++ b) (la ++ lb).
Proof.
  intros Hr Hlen. pose proof (repr_nodup _ _ _ Hr) as Hnd. destruct Hr as [Hb He Hv Hd Hn].
  destruct (remove_holds _ _ _ _ _ Hb) as (tb & Eb & Hb'). destruct (remove_holds _ _ _ _ _ He) as (te & Ee & He').
  apply Forall2_app_inv in Hv as [Hva [En Hvb]%Forall2_cons]; [|done].
  apply NoDup_app in Hnd as (_ & Hna & [Hnb _]%NoDup_cons).
  assert (forall m, In m (a ++ b) -> m <> n) as Hne.
  { intros m Hm ->. apply list_elem_of_In, elem_of_app in Hm as [Hm|Hm]; [|done]. apply (Hna n Hm). left. }
  exists (MkRangeTree (delete n (values t)) tb te (next t)).
  assert (forall m, In m (a ++ b) -> delete n (values t) !! m = values t !! m) as Hold.
  { intros m Hm. apply lookup_delete_ne. intros <-. by apply (Hne n Hm). }
  split.
  - unfold remove. rewrite (step_holds _ true _ _ _ _ Hb). cbn [mbind option_bind]. rewrite Eb. cbn [mbind option_bind]. by rewrite Ee.
  - split; cbn [mByRangeBegin mByRangeEnd values next].
    + eapply holds_ext; [|exact Hb']. intros m Hm. unfold begin_key, range_of. cbn [values]. by rewrite Hold.
    + eapply holds_ext; [|exact He']. intros m Hm. unfold end_key, range_of. cbn [values]. by rewrite Hold.
    + refine (values_ext t (MkRangeTree (delete n (values t)) tb te (next t)) (a ++ b) (la ++ lb) Hold _). by apply Forall2_app.
    + by apply (disjoint_remove la [e] lb).
    + intros m Hm. apply Hn. apply in_app_iff in Hm as [Hm|Hm]; apply in_app_iff; [by left|right; by right].
Qed.

Lemma remove_loop_repr m : forall fuel t a b la lm lb,
  repr t (a ++ m ++ b) (la ++ lm ++ lb) -> length a = length la -> length m = length lm -> (length m < fuel)%nat ->
  exists t', remove_loop fuel (head (m ++ b)) (head b) t = Some (head b, t') /\ repr t' (a ++ b) (la ++ lb).
Proof.
  induction m as [|n m IH]; intros [|fuel] t a b la [|e lm] lb Hr Ha Hm Hf; cbn [length] in *; try lia; cbn [remove_loop].
  - exists t. cbn [app]. by rewrite bool_decide_true.
  - cbn [app head]. rewrite bool_decide_false.
    + destruct (remove_repr t a n (m ++ b) la e (lm ++ lb) Hr Ha) as (t1 & E1 & Hr1). cbn [mbind option_bind].
      rewrite E1. cbn [mbind option_bind]. apply (IH fuel t1 a b la lm lb Hr1); lia.
    + intros E. pose proof (repr_nodup _ _ _ Hr) as (_ & _ & [Hn _]%NoDup_cons)%NoDup_app. apply Hn.
      destruct b as [|y b]; [done|]. injection E as ->. apply elem_of_app. right. left.
Qed.

(** The entries between two iterators. *)
Lemma remove_between_repr t a m b la lm lb : repr t (a ++ m ++ b) (la ++ lm ++ lb) -> length a = length la -> length m = length lm ->
  exists t', remove_between (head (m ++ b)) (head b) t = Some (head b, t') /\ repr t' (a ++ b) (la ++ lb).
Proof.
  intros Hr Ha Hm. apply (remove_loop_repr m _ _ _ _ _ lm); [done..|].
  unfold size. rewrite (proj1 (holds_size _ _ _ (repr_begin _ _ _ Hr))), !length_app. lia.
Qed.

(** *** Removing what is found *)

Lemma find_nodes t (P : node -> bool) (Q : FileRange * V -> bool) na nb a b :
  Forall2 (fun n e => values t !! n = Some e) na a -> Forall2 (fun n e => values t !! n = Some e) nb b ->
  (forall n e, values t !! n = Some e -> P n = Q e) ->
  (forall x, In x a -> Q x = false) -> (forall x, In x b -> Q x = true) -> List.find P (na ++ nb) = head nb.
Proof.
  intros Ha Hb HP HQ Hh. induction Ha as [|n e na a E Ha IH]; cbn [app List.find].
  - destruct Hb as [|n e nb b E Hb]; [done|]. cbn [List.find head]. by rewrite (HP n e E), Hh by by left.
  - rewrite (HP n e E), HQ by by left. apply IH. intros x Hx. apply HQ. by right.
Qed.

(** A test that stays true along the file splits the list. *)
Lemma list_split (Q : FileRange * V -> bool) l : Ranges.disjoint_ranges l ->
  (forall x y, In x l -> In y l -> Ranges.precedes x y -> Q x = true -> Q y = true) ->
  exists a b, l = a ++ b /\ (forall x, In x a -> Q x = false) /\ (forall x, In x b -> Q x = true).
Proof.
  induction l as [|e l IH]; intros Hl HQ; [exists [], []; split_and!; [done|by intros ? []..]|].
  apply disjoint_cons in Hl as (_ & Hl & Hel). destruct (Q e) eqn:E.
  - exists [], (e :: l). split_and!; [done|by intros ? []|]. intros x [<-|Hx]; [done|].
    apply (HQ e x); [by left|by right|by apply Hel|done].
  - destruct (IH Hl) as (a & b & -> & Ha & Hb); [intros x y Hx Hy; apply HQ; by right|].
    exists (e :: a), b. split_and!; [done| |done]. intros x [<-|Hx]; [done|by apply Ha].
Qed.

Lemma filter_middle (Q : FileRange * V -> bool) a m b :
  (forall x, In x a \/ In x b -> Q x = true) -> (forall x, In x m -> Q x = false) -> List.filter Q (a ++ m ++ b) = a ++ b.
Proof.
  intros Hab Hm. rewrite !List.filter_app, (filter_kept Q a), (filter_kept Q b) by auto. f_equal. f_equal.
  induction m as [|x m IH]; [done|]. cbn [List.filter]. rewrite Hm by by left. apply IH. intros y Hy. apply Hm. by right.
Qed.

Lemma values_split t ns l Q : Forall2 (fun n e => values t !! n = Some e) ns l -> Ranges.disjoint_ranges l ->
  (forall x y, In x l -> In y l -> Ranges.precedes x y -> Q x = true -> Q y = true) ->
  exists na nb a b, ns = na ++ nb /\ l = a ++ b /\ (forall x, In x a -> Q x = false) /\ (forall x, In x b -> Q x = true)
    /\ Forall2 (fun n e => values t !! n = Some e) na a /\ Forall2 (fun n e => values t !! n = Some e) nb b.
Proof.
  intros Hv Hd HQ. destruct (list_split Q l Hd HQ) as (a & b & -> & Ha & Hb).
  destruct (values_app _ _ _ _ Hv) as (na & nb & -> & Va & Vb). by exists na, nb, a, b.
Qed.

Lemma nonempty_in l x : Ranges.disjoint_ranges l -> In x l -> mBegin x.1 < mEnd x.1.
Proof. intros [Hn _] Hx. rewrite List.Forall_forall in Hn. by apply Hn. Qed.

Lemma remove_nothing t ns l : repr t ns l -> remove_between None None t = Some (None, t).
Proof. intros _. unfold remove_between. cbn [remove_loop]. by rewrite bool_decide_true. Qed.

(** The ranges from an iterator to the first one that begins at or after a position. *)
Lemma remove_until t na nb a b p : repr t (na ++ nb) (a ++ b) ->
  Forall2 (fun n e => values t !! n = Some e) na a -> Forall2 (fun n e => values t !! n = Some e) nb b ->
  (forall x, In x a -> mBegin x.1 < p) ->
  exists t' ns' i m c, (j ← beginsAtOrAfter p t; remove_between (head nb) j t) = Some (i, t') /\ b = m ++ c /\ repr t' ns' (a ++ c)
    /\ (forall x, In x m -> mBegin x.1 < p) /\ (forall x, In x c -> p <= mBegin x.1).
Proof.
  intros Hr Va Vb Ha. pose proof (repr_disjoint _ _ _ Hr) as Hd. pose proof (nonempty_in (a ++ b)) as Hin.
  assert (forall x y, In x (a ++ b) -> In y (a ++ b) -> Ranges.precedes x y -> (p <=? mBegin x.1) = true -> (p <=? mBegin y.1) = true) as Hmono.
  { intros x y Hx Hy Hp Hq%Z.leb_le. apply Z.leb_le. specialize (Hin x Hd Hx). unfold Ranges.precedes in Hp. lia. }
  pose proof Hd as (_ & Hdb & _)%disjoint_app.
  destruct (values_split t nb b (fun x => p <=? mBegin x.1) Vb Hdb) as (nm & nc & m & c & -> & -> & Hm & Hc & Vm & Vc).
  { intros x y Hx Hy. apply Hmono; apply in_app_iff; by right. }
  unfold beginsAtOrAfter. rewrite (lower_holds _ _ _ _ (repr_begin _ _ _ Hr)). cbn [mbind option_bind].
  rewrite (app_assoc na), (find_nodes t _ (fun x => p <=? mBegin x.1) (na ++ nm) nc (a ++ m) c);
    [|by apply Forall2_app|done|by intros n e [-> _]%key_of_value| |done].
  - destruct (remove_between_repr t na nm nc a m c Hr) as (t' & E & Hr'); [by eapply Forall2_length..|].
    exists t', (na ++ nc), (head nc), m, c. split_and!; [done..| |].
    + intros x Hx. apply Z.leb_gt, Hm, Hx.
    + intros x Hx. apply Z.leb_le, Hc, Hx.
  - intros x [Hx|Hx]%in_app_iff; [|by apply Hm]. apply Z.leb_gt, Ha, Hx.
Qed.

(** The caller of [find] removes what overlaps the range. *)
Lemma remove_found_repr t ns l r : repr t ns l -> mBegin r <= mEnd r ->
  exists t' ns', ('(i, j) ← find r t; snd <$> remove_between i j t) = Some t' /\ repr t' ns' (Ranges.remove_found r l).
Proof.
  intros Hr Hne. pose proof (repr_disjoint _ _ _ Hr) as Hd. pose proof (nonempty_in l) as Hin.
  destruct (values_split t ns l (fun e => mBegin r <? mEnd e.1) (repr_values _ _ _ Hr) Hd) as (na & nb & a & b & -> & -> & Ha & Hb & Va & Vb).
  { intros x y Hx Hy Hp Hq%Z.ltb_lt. apply Z.ltb_lt. pose proof (Hin y Hd Hy). unfold Ranges.precedes in Hp. lia. }
  assert (forall x, In x a -> mEnd x.1 <= mBegin r) as Ha' by (intros x Hx; apply Z.ltb_ge, Ha, Hx).
  assert (forall m c, (forall x, In x c -> mEnd r <= mBegin x.1) -> (forall x, In x m -> mBegin x.1 < mEnd r /\ mBegin r < mEnd x.1) ->
    Ranges.remove_found r (a ++ m ++ c) = a ++ c) as Hfilter.
  { intros m c Hc Hm. apply filter_middle.
    - intros x [Hx|Hx]; apply orb_true_iff; [right; apply Z.leb_le, Ha', Hx|left; apply Z.leb_le, Hc, Hx].
    - intros x Hx. destruct (Hm x Hx). by rewrite !(proj2 (Z.leb_gt _ _)). }
  unfold find. rewrite (upper_holds _ _ _ _ (repr_end _ _ _ Hr)).
  rewrite (find_nodes t _ (fun e => mBegin r <? mEnd e.1) na nb a b Va Vb); [|by intros n e [_ ->]%key_of_value|done..].
  cbn [mbind option_bind]. pose proof Vb as Vb'. destruct Vb' as [|n e nb b E Vb']; cbn [head mbind option_bind].
  - rewrite (remove_nothing t _ _ Hr). exists t, (na ++ []). split; [done|].
    assert (Ranges.remove_found r (a ++ []) = a ++ []) as -> by (apply (Hfilter [] []); by intros ? []). done.
  - destruct (key_of_value _ _ _ E) as [-> _]. destruct (Z.leb_spec (mEnd r) (mBegin e.1)) as [Hle|Hgt]; cbn [mbind option_bind].
    + rewrite (remove_nothing t _ _ Hr). exists t, (na ++ n :: nb). split; [done|].
      assert (Ranges.remove_found r (a ++ e :: b) = a ++ e :: b) as ->; [apply (Hfilter [] (e :: b)); [|by intros ? []]|done].
      pose proof Hd as (_ & (_ & _ & Hp)%disjoint_cons & _)%disjoint_app. intros x [<-|Hx]; [done|].
      specialize (Hp x Hx). specialize (Hin e Hd ltac:(apply in_app_iff; right; by left)). unfold Ranges.precedes in Hp. lia.
    + destruct (remove_until t na (n :: nb) a (e :: b) (mEnd r) Hr Va Vb) as (t' & ns' & i & m & c & E' & Eb & Hr' & Hm & Hc).
      { intros x Hx. specialize (Ha' x Hx). specialize (Hin x Hd ltac:(apply in_app_iff; by left)). lia. }
      exists t', ns'. fold (beginsAtOrAfter (mEnd r) t). cbn [head] in E'. split.
      * destruct (beginsAtOrAfter (mEnd r) t); [|done]. cbn [mbind option_bind] in *. by rewrite E'.
      * rewrite Eb, Hfilter; [done|done|]. intros x Hx. split; [by apply Hm|]. apply Z.ltb_lt, Hb. rewrite Eb. apply in_app_iff. by left.
Qed.

Lemma remove_range_repr t ns l r : repr t ns l -> mBegin r <= mEnd r ->
  exists t' ns', snd <$> remove_range r t = Some t' /\ repr t' ns' (Ranges.remove_range r l).
Proof.
  intros Hr Hne. pose proof (repr_disjoint _ _ _ Hr) as Hd. pose proof (nonempty_in l) as Hin.
  destruct (values_split t ns l (fun e => mBegin r <=? mBegin e.1) (repr_values _ _ _ Hr) Hd) as (na & nb & a & b & -> & -> & Ha & Hb & Va & Vb).
  { intros x y Hx Hy Hp Hq%Z.leb_le. apply Z.leb_le. specialize (Hin x Hd Hx). unfold Ranges.precedes in Hp. lia. }
  unfold remove_range, Ranges.remove_range, Ranges.beginsAtOrAfter. rewrite (lower_holds _ (mBegin r) _ _ (repr_begin _ _ _ Hr)).
  rewrite (find_nodes t (fun n => mBegin r <=? begin_key t n) (fun e => mBegin r <=? mBegin e.1) na nb a b Va Vb);
    [|by intros n e [-> _]%key_of_value|done..].
  assert (List.find (fun e => mBegin r <=? mBegin e.1) (a ++ b) = head b) as ->.
  { clear - Ha Hb. induction a as [|x a IH]; cbn [app List.find].
    - destruct b as [|x b]; [done|]. cbn [List.find head]. by rewrite (Hb x) by by left.
    - rewrite Ha by by left. apply IH. intros y Hy. apply Ha. by right. }
  cbn [mbind option_bind]. pose proof Vb as Vb'. destruct Vb' as [|n e nb b E Vb']; cbn [head mbind option_bind].
  - by exists t, (na ++ []).
  - destruct (key_of_value _ _ _ E) as [_ ->]. destruct (Z.ltb_spec (mEnd r) (mEnd e.1)) as [Hle|Hgt]; [by exists t, (na ++ n :: nb)|].
    destruct (remove_until t na (n :: nb) a (e :: b) (mEnd r) Hr Va Vb) as (t' & ns' & i & m & c & E' & Eb & Hr' & Hm & Hc).
    { intros x Hx%Ha%Z.leb_gt. lia. }
    exists t', ns'. fold (beginsAtOrAfter (mEnd r) t). cbn [head] in E'. rewrite E'. split; [done|]. rewrite Eb, filter_middle; [done| |].
    + intros x [Hx|Hx]; apply orb_true_iff; [left; apply Z.ltb_lt, Z.leb_gt, Ha, Hx|right; apply Z.leb_le, Hc, Hx].
    + intros x Hx. rewrite (proj2 (Z.leb_gt _ _)) by by apply Hm. rewrite orb_false_r. apply Z.ltb_ge, Z.leb_le, Hb.
      rewrite Eb. apply in_app_iff. by left.
Qed.

Lemma remove_at_repr t ns l p : repr t ns l ->
  exists t' ns', (i ← beginsAt p t; match i with Some n => snd <$> remove n t | None => Some t end) = Some t'
    /\ repr t' ns' (Ranges.remove_at p l).
Proof.
  intros Hr. pose proof (repr_disjoint _ _ _ Hr) as Hd. unfold beginsAt. rewrite (find_holds _ _ _ _ (repr_begin _ _ _ Hr)).
  cbn [mbind option_bind]. destruct (List.find _ ns) as [n|] eqn:E.
  - apply List.find_some in E as [Hin Hp%Z.eqb_eq]. apply in_split in Hin as (na & nb & ->).
    pose proof (repr_values _ _ _ Hr) as (la & lb' & Va & Vb & ->)%Forall2_app_inv_l. inversion Vb as [|? e ? lb En Vb' E1 E2]. subst.
    destruct (remove_repr t na n nb la e lb Hr (Forall2_length _ _ _ Va)) as (t' & -> & Hr'). exists t', (na ++ nb).
    split; [done|]. unfold Ranges.remove_at. rewrite (filter_middle _ la [e] lb); [done| |].
    + destruct (key_of_value _ _ _ En) as [-> _]. intros x Hx. apply negb_true_iff, Z.eqb_neq.
      apply disjoint_app in Hd as (Ha & (He & Hb & Hel)%disjoint_cons & Hae). destruct Hx as [Hx|Hx].
      * specialize (Hae x e Hx ltac:(by left)). pose proof (nonempty_in _ _ Ha Hx). unfold Ranges.precedes in Hae. lia.
      * specialize (Hel x Hx). unfold Ranges.precedes, Ranges.nonempty in *. lia.
    + destruct (key_of_value _ _ _ En) as [-> _]. intros x [<-|[]]. by rewrite Z.eqb_refl.
  - exists t, ns. split; [done|]. unfold Ranges.remove_at. rewrite filter_kept; [done|]. intros x Hx.
    pose proof (find_matches t (fun n => p =? begin_key t n) (fun e => p =? mBegin e.1) ns l (repr_values _ _ _ Hr)) as Hf.
    rewrite E in Hf. cbn [entry_at mbind option_bind] in Hf. specialize (Hf ltac:(by intros n e [-> _]%key_of_value)).
    symmetry in Hf. pose proof (List.find_none _ _ Hf x Hx) as Hn. cbn beta in Hn. by rewrite Z.eqb_sym, Hn.
Qed.

Lemma clear_repr t ns l : repr t ns l -> exists t', clear t = Some t' /\ repr t' [] [].
Proof.
  intros Hr. unfold clear, begin. rewrite (begin_holds _ _ _ (repr_begin _ _ _ Hr)). cbn [mbind option_bind].
  pose proof (Forall2_length _ _ _ (repr_values _ _ _ Hr)) as Hlen.
  destruct (remove_between_repr t [] ns [] [] l []) as (t' & E & Hr'); [by rewrite !app_nil_r|done|done|].
  cbn [head] in E. rewrite app_nil_r in E. rewrite E. by exists t'.
Qed.

Lemma visit_repr t na nb : forall la lb, repr t (na ++ nb) (la ++ lb) -> length na = length la -> visit (length nb) (head nb) t = Some lb.
Proof.
  revert na. induction nb as [|n nb IH]; intros na la lb Hr Hlen; pose proof (repr_values _ _ _ Hr) as Hv;
    apply Forall2_app_inv in Hv as [Va Vb]; try done; inversion Vb as [|? e ? lb' En Vb' E1 E2]; subst; [done|].
  cbn [length head visit]. rewrite En. cbn [mbind option_bind]. rewrite (step_holds _ true _ _ _ _ (repr_begin _ _ _ Hr)). cbn [mbind option_bind].
  rewrite (IH (na ++ [n]) (la ++ [e]) lb'); [done| |rewrite !length_app; cbn [length]; lia].
  by rewrite <- !app_assoc.
Qed.

Lemma items_repr t ns l : repr t ns l -> items t = Some l.
Proof.
  intros Hr. unfold items, begin. rewrite (begin_holds _ _ _ (repr_begin _ _ _ Hr)). cbn [mbind option_bind].
  unfold size. rewrite (proj1 (holds_size _ _ _ (repr_begin _ _ _ Hr))). rewrite Nat2Z.id. by apply (visit_repr t [] ns [] l).
Qed.

(** *** Gaps *)

(** Where an iterator over gaps stands: in front of [lb], which ends behind it. *)
Record stands t (na nb : list node) (la lb : list (FileRange * V)) (g : Gaps) : Prop := {
  stands_at : mIterator g = head nb;
  stands_behind : forall x, In x lb -> mBegin (mRange g) < mEnd x.1;
  stands_values : Forall2 (fun n e => values t !! n = Some e) nb lb;
  stands_range : mBegin (mRange g) <= mEnd (mRange g)
}.

Lemma gaps_from_nil p q (l : list (FileRange * V)) : q <= p -> Ranges.gaps_from p q l = [].
Proof. intros Hq. destruct l; cbn [Ranges.gaps_from]; by rewrite (proj2 (Z.leb_le _ _)). Qed.

Lemma gaps_from_before p q e (l : list (FileRange * V)) : p < q -> p < mBegin e.1 -> mBegin e.1 < mEnd e.1 ->
  Ranges.gaps_from p q (e :: l) = MkFileRange p (Z.min q (mBegin e.1)) :: Ranges.gaps_from (Z.min q (mBegin e.1)) q (e :: l).
Proof.
  intros Hq Hp He. cbn [Ranges.gaps_from]. rewrite !(proj2 (Z.leb_gt _ _)) by lia.
  destruct (Z.leb_spec q (mBegin e.1)) as [Hle|Hgt].
  - rewrite !Z.min_l by done. by rewrite (proj2 (Z.leb_le q q)).
  - rewrite !Z.min_r by lia. rewrite (proj2 (Z.ltb_lt p _)) by done. rewrite (proj2 (Z.leb_gt q _)), (proj2 (Z.leb_gt (mEnd e.1) _)) by lia.
    by rewrite Z.ltb_irrefl.
Qed.

Lemma gaps_from_inside p q e (l : list (FileRange * V)) : mBegin e.1 <= p < mEnd e.1 ->
  Ranges.gaps_from p q (e :: l) = Ranges.gaps_from (mEnd e.1) q l.
Proof.
  intros [Hb He]. cbn [Ranges.gaps_from]. destruct (Z.leb_spec q p) as [Hq|Hq]; [by rewrite gaps_from_nil by lia|].
  rewrite !(proj2 (Z.leb_gt _ _)) by lia. by rewrite (proj2 (Z.ltb_ge _ _)).
Qed.

Lemma detect_spec t na nb la lb g :
  repr t (na ++ nb) (la ++ lb) -> StronglySorted Ranges.separated (la ++ lb) -> length na = length la -> stands t na nb la lb g ->
  exists g', detect t g = Some g' /\
    if FileRange.empty (mGap g') then Ranges.gaps_from (mBegin (mRange g)) (mEnd (mRange g)) lb = []
    else exists na' nb' la' lb', na ++ nb = na' ++ nb' /\ la ++ lb = la' ++ lb' /\ length na' = length la' /\ stands t na' nb' la' lb' g'
      /\ Ranges.gaps_from (mBegin (mRange g)) (mEnd (mRange g)) lb = mGap g' :: Ranges.gaps_from (mBegin (mRange g')) (mEnd (mRange g')) lb'.
Proof.
  intros Hr Hsep Hlen [Hi Hbeh Hv Hq]. unfold detect. rewrite Hi. destruct g as [i gap [p q]]. cbn [mIterator mRange mBegin mEnd mGap] in *.
  destruct Hv as [|n e nb lb En Hv]; cbn [head].
  - eexists. split; [done|]. unfold FileRange.empty. cbn [mGap mBegin mEnd mRange Ranges.gaps_from].
    destruct (Z.eqb_spec p q) as [->|]; [by rewrite (proj2 (Z.leb_le _ _))|]. exists na, [], la, []. split_and!; try done.
    by rewrite (proj2 (Z.leb_gt _ _)) by lia.
  - assert (range_of t n = e.1) as -> by (unfold range_of; rewrite En; by destruct e).
    pose proof (repr_disjoint _ _ _ Hr) as Hd. pose proof (nonempty_in _ e Hd ltac:(apply in_app_iff; right; by left)) as Hne.
    assert (forall x, In x lb -> mEnd e.1 < mEnd x.1) as Hends.
    { intros x Hx. pose proof Hd as (_ & (_ & _ & Hp)%disjoint_cons & _)%disjoint_app. specialize (Hp x Hx). unfold Ranges.precedes in Hp.
      pose proof (nonempty_in _ x Hd ltac:(apply in_app_iff; right; by right)). lia. }
    pose proof (Hbeh e (or_introl eq_refl)) as Hpe.
    destruct (Z.ltb_spec p (mBegin e.1)) as [Hlt|Hge]; [|destruct (Z.leb_spec q (mEnd e.1)) as [Hle|Hgt]].
    + eexists. split; [done|]. unfold FileRange.empty. cbn [mGap mBegin mEnd mRange].
      destruct (Z.eqb_spec p (Z.min q (mBegin e.1))) as [Hp|Hp]; [apply gaps_from_nil; lia|].
      exists na, (n :: nb), la, (e :: lb). split_and!; try done; [|by apply gaps_from_before; lia].
      split; cbn [mRange mIterator mBegin mEnd]; [done| |by constructor|lia]. intros x [<-|Hx]; [lia|]. specialize (Hends x Hx). lia.
    + rewrite gaps_from_inside by done. eexists. split; [done|]. cbn. by apply gaps_from_nil.
    + rewrite gaps_from_inside by done. rewrite (step_holds _ true _ _ _ _ (repr_begin _ _ _ Hr)). cbn [mbind option_bind].
      unfold new. rewrite Z.min_l, Z.max_r by lia. cbn [mBegin mEnd]. eexists. split; [done|].
      assert (length (na ++ [n]) = length (la ++ [e])) as Hlen' by (rewrite !length_app; cbn [length]; lia).
      destruct Hv as [|m e' nb lb Em Hv]; cbn [head]; unfold FileRange.empty; cbn [mGap mRange mBegin mEnd].
      * rewrite (proj2 (Z.eqb_neq _ _)) by lia. exists (na ++ [n]), [], (la ++ [e]), []. split_and!; [by rewrite <- app_assoc..|done| |].
        -- split; cbn [mRange mIterator mBegin mEnd]; [done|by intros ? []|constructor|lia].
        -- cbn [Ranges.gaps_from]. by rewrite (proj2 (Z.leb_gt _ _)), (proj2 (Z.leb_le q q)) by lia.
      * destruct (key_of_value _ _ _ Em) as [-> _].
        assert (mEnd e.1 < mBegin e'.1) as Hgap.
        { apply sorted_split in Hsep as (_ & [_ Hs]%StronglySorted_inv). rewrite List.Forall_forall in Hs. apply Hs. by left. }
        rewrite (proj2 (Z.eqb_neq _ _)) by lia. exists (na ++ [n]), (m :: nb), (la ++ [e]), (e' :: lb).
        split_and!; [by rewrite <- app_assoc..|done| |].
        -- split; cbn [mRange mIterator mBegin mEnd]; [done| |by constructor|lia]. intros x Hx. specialize (Hends x Hx).
           pose proof (nonempty_in _ e' Hd ltac:(apply in_app_iff; right; right; by left)).
           destruct Hx as [<-|Hx]; [lia|].
           pose proof Hd as (_ & (_ & (_ & _ & Hp)%disjoint_cons & _)%disjoint_cons & _)%disjoint_app. specialize (Hp x Hx). unfold Ranges.precedes in Hp.
           pose proof (nonempty_in _ x Hd ltac:(apply in_app_iff; right; right; by right)). lia.
        -- apply gaps_from_before; [lia|lia|]. apply (nonempty_in _ e' Hd). apply in_app_iff; right; right; by left.
Qed.

(** Enough steps for every gap. *)
Lemma gaps_loop_spec fuel : forall t na nb la lb g,
  repr t (na ++ nb) (la ++ lb) -> StronglySorted Ranges.separated (la ++ lb) -> length na = length la -> stands t na nb la lb g ->
  (length (Ranges.gaps_from (mBegin (mRange g)) (mEnd (mRange g)) lb) < fuel)%nat ->
  (g ← detect t g; gaps_loop fuel t g) = Some (Ranges.gaps_from (mBegin (mRange g)) (mEnd (mRange g)) lb).
Proof.
  induction fuel as [|fuel IH]; intros t na nb la lb g Hr Hsep Hlen Hst Hf; [lia|].
  destruct (detect_spec t na nb la lb g Hr Hsep Hlen Hst) as (g' & -> & Hg). cbn [mbind option_bind gaps_loop].
  destruct (FileRange.empty (mGap g')) eqn:E; [by rewrite Hg|].
  destruct Hg as (na' & nb' & la' & lb' & En & El & Hlen' & Hst' & Eg). rewrite Eg in Hf |- *. cbn [length] in Hf.
  rewrite En, El in Hr. rewrite El in Hsep. specialize (IH t na' nb' la' lb' g' Hr Hsep Hlen' Hst' ltac:(lia)).
  destruct (detect t g') as [g2|]; [|done]. cbn [mbind option_bind] in IH |- *. by rewrite IH.
Qed.

Lemma gaps_from_length (l : list (FileRange * V)) : forall p q, (length (Ranges.gaps_from p q l) <= S (length l))%nat.
Proof.
  induction l as [|e l IH]; intros p q; cbn [Ranges.gaps_from length]; repeat case_match; cbn [length]; try lia.
  - specialize (IH p q). lia.
  - specialize (IH (mEnd e.1) q). lia.
  - specialize (IH (mEnd e.1) q). lia.
Qed.

Lemma gaps_repr t ns l r : repr t ns l -> StronglySorted Ranges.separated l -> mBegin r <= mEnd r ->
  gaps t r = Some (Ranges.gaps r l).
Proof.
  intros Hr Hsep Hle. pose proof (repr_disjoint _ _ _ Hr) as Hd. pose proof (nonempty_in l) as Hin.
  destruct (values_split t ns l (fun e => mBegin r <? mEnd e.1) (repr_values _ _ _ Hr) Hd) as (na & nb & a & b & -> & -> & Ha & Hb & Va & Vb).
  { intros x y Hx Hy Hp Hq%Z.ltb_lt. apply Z.ltb_lt. pose proof (Hin y Hd Hy). unfold Ranges.precedes in Hp. lia. }
  assert (Ranges.gaps r (a ++ b) = Ranges.gaps_from (mBegin r) (mEnd r) b) as ->.
  { unfold Ranges.gaps. clear - Ha. induction a as [|x a IH]; cbn [app Ranges.gaps_from]; [done|].
    destruct (Z.leb_spec (mEnd r) (mBegin r)) as [Hq|Hq]; [by rewrite gaps_from_nil by lia|].
    rewrite (proj2 (Z.leb_le _ _)) by (apply Z.ltb_ge, Ha; by left). apply IH. intros y Hy. apply Ha. by right. }
  unfold gaps, new_gaps, endsAfter. rewrite (upper_holds _ _ _ _ (repr_end _ _ _ Hr)).
  rewrite (find_nodes t _ (fun e => mBegin r <? mEnd e.1) na nb a b Va Vb); [|by intros n e [_ ->]%key_of_value|done..].
  cbn [mbind option_bind]. destruct (Z.leb_spec (mEnd r) (mBegin r)) as [Hq|Hq]; cbn [mbind option_bind].
  - rewrite gaps_from_nil by lia. replace (Z.to_nat (size t) + 3)%nat with (S (Z.to_nat (size t) + 2)) by lia. done.
  - apply (gaps_loop_spec (Z.to_nat (size t) + 3) t na nb a b (MkGaps (head nb) (MkFileRange 0 0) r) Hr Hsep); [by eapply Forall2_length| |].
    + split; cbn [mRange mIterator]; [done| |done|lia]. intros x Hx. apply Z.ltb_lt, Hb, Hx.
    + cbn [mRange]. pose proof (gaps_from_length b (mBegin r) (mEnd r)). pose proof (Forall2_length _ _ _ Vb).
      unfold size. rewrite (proj1 (holds_size _ _ _ (repr_begin _ _ _ Hr))), !length_app. lia.
Qed.

(** The first gap that an iterator finds, whether ranges touch or not. *)
Lemma first_gap_repr t ns l r : repr t ns l -> mBegin r <= mEnd r ->
  exists g, new_gaps t r = Some g /\ mGap g = Ranges.first_gap r l.
Proof.
  intros Hr Hle. pose proof (repr_disjoint _ _ _ Hr) as Hd. pose proof (nonempty_in l) as Hin.
  destruct (values_split t ns l (fun e => mBegin r <? mEnd e.1) (repr_values _ _ _ Hr) Hd) as (na & nb & a & b & -> & -> & Ha & Hb & Va & Vb).
  { intros x y Hx Hy Hp Hq%Z.ltb_lt. apply Z.ltb_lt. pose proof (Hin y Hd Hy). unfold Ranges.precedes in Hp. lia. }
  assert (List.filter (fun e => mBegin r <? mEnd e.1) (a ++ b) = b) as Ef.
  { rewrite List.filter_app. assert (List.filter (fun e => mBegin r <? mEnd e.1) a = []) as ->
      by (clear - Ha; induction a as [|x a IH]; [done|]; cbn [List.filter]; rewrite Ha by (by left); apply IH; intros y Hy; apply Ha; by right).
    cbn [app]. clear - Hb. induction b as [|x b IH]; [done|]. cbn [List.filter]. rewrite Hb by (by left). f_equal. apply IH. intros y Hy. apply Hb. by right. }
  unfold new_gaps, endsAfter, Ranges.first_gap. rewrite (upper_holds _ _ _ _ (repr_end _ _ _ Hr)), Ef.
  rewrite (find_nodes t _ (fun e => mBegin r <? mEnd e.1) na nb a b Va Vb); [|by intros n e [_ ->]%key_of_value|done..].
  cbn [mbind option_bind]. destruct (Z.leb_spec (mEnd r) (mBegin r)) as [Hq|Hq]; [by eexists|]. unfold detect. cbn [mIterator mRange mGap].
  destruct Vb as [|n e nb b En Vb]; cbn [head]; [by eexists|].
  assert (range_of t n = e.1) as -> by (unfold range_of; rewrite En; by destruct e).
  pose proof (Hin e Hd ltac:(apply in_app_iff; right; by left)) as Hne.
  destruct (_ <? mBegin e.1); [by eexists|]. destruct (Z.leb_spec (mEnd r) (mEnd e.1)) as [He|He]; [by eexists|].
  rewrite (step_holds _ true _ _ _ _ (repr_begin _ _ _ Hr)). cbn [mbind option_bind]. unfold new. rewrite Z.min_l, Z.max_r by lia. cbn [mBegin mEnd].
  destruct Vb as [|m x nb b Em Vb]; cbn [head]; eexists; (split; [done|]); cbn [mGap]; [done|].
  by destruct (key_of_value _ _ _ Em) as [-> _].
Qed.

End representation.
End RangeFacts.

(** ** Runs of operations *)

Module RangeRun.
Import FileRange.

Inductive Op (V : Type) :=
| Add (r : FileRange) (v : V)
| RemoveAt (p : Z)                (* the range that [beginsAt] finds *)
| RemoveFound (r : FileRange)     (* the ranges between the iterators of [find] *)
| RemoveRange (r : FileRange)
| Clear.
Arguments Add {V} r v.
Arguments RemoveAt {V} p.
Arguments RemoveFound {V} r.
Arguments RemoveRange {V} r.
Arguments Clear {V}.

Section run.
Context {T : Type} `{OrderedIndexLaws T} {V : Type}.
Implicit Types (t : FileRangeTree.RangeTree (T:=T) (V:=V)) (l : list (FileRange * V)).

(** Ranges are ordered, and those added are not empty. *)
Definition valid (op : Op V) : Prop :=
  match op with
  | Add r _ => mBegin r < mEnd r
  | RemoveFound r | RemoveRange r => mBegin r <= mEnd r
  | RemoveAt _ | Clear => True
  end.

Definition apply (op : Op V) t : option (FileRangeTree.RangeTree (T:=T) (V:=V)) :=
  match op with
  | Add r v => snd <$> FileRangeTree.add r v t
  | RemoveAt p => i ← FileRangeTree.beginsAt p t; match i with Some n => snd <$> FileRangeTree.remove n t | None => Some t end
  | RemoveFound r => '(i, j) ← FileRangeTree.find r t; snd <$> FileRangeTree.remove_between i j t
  | RemoveRange r => snd <$> FileRangeTree.remove_range r t
  | Clear => FileRangeTree.clear t
  end.

Fixpoint run (ops : list (Op V)) t : option (FileRangeTree.RangeTree (T:=T) (V:=V)) :=
  match ops with [] => Some t | op :: ops => t ← apply op t; run ops t end.

Definition apply_list (op : Op V) l : list (FileRange * V) :=
  match op with
  | Add r v => (Ranges.add r v l).2
  | RemoveAt p => Ranges.remove_at p l
  | RemoveFound r => Ranges.remove_found r l
  | RemoveRange r => Ranges.remove_range r l
  | Clear => []
  end.

Fixpoint run_list (ops : list (Op V)) l : list (FileRange * V) :=
  match ops with [] => l | op :: ops => run_list ops (apply_list op l) end.

Lemma apply_repr op t ns l : RangeFacts.repr t ns l -> valid op -> zlength l + 1 < 2 ^ 64 ->
  exists t' ns', apply op t = Some t' /\ RangeFacts.repr t' ns' (apply_list op l).
Proof.
  intros Hr Hv Hs. destruct op as [r v|p|r|r|]; cbn [apply apply_list valid] in *.
  - destruct (RangeFacts.add_repr t ns r v l Hr Hs Hv) as (n & t' & ns' & -> & Hr' & _). by exists t', ns'.
  - by apply RangeFacts.remove_at_repr with (ns := ns).
  - by apply RangeFacts.remove_found_repr with (ns := ns).
  - by apply RangeFacts.remove_range_repr with (ns := ns).
  - destruct (RangeFacts.clear_repr t ns l Hr) as (t' & E & Hr'). by exists t', [].
Qed.

Lemma filter_shorter (Q : FileRange * V -> bool) l : (length (List.filter Q l) <= length l)%nat.
Proof. induction l as [|x l IH]; cbn [List.filter length]; [lia|]. destruct (Q x); cbn [length]; lia. Qed.

Lemma apply_range_length op l : (length (apply_list op l) <= S (length l))%nat.
Proof.
  assert (forall e, length (Ranges.insert e l) = S (length l)) as Hins.
  { intros e. induction l as [|x l IH]; [done|]. cbn [Ranges.insert]. case_match; cbn [length]; lia. }
  destruct op as [r v|p|r|r|]; cbn [apply_list length]; [| | | |lia].
  - unfold Ranges.add. repeat case_match; cbn [snd]; rewrite ?Hins; lia.
  - unfold Ranges.remove_at. pose proof (filter_shorter (fun e => negb (mBegin e.1 =? p)) l). lia.
  - unfold Ranges.remove_found. pose proof (filter_shorter (fun e => (mEnd r <=? mBegin e.1) || (mEnd e.1 <=? mBegin r)) l). lia.
  - unfold Ranges.remove_range. pose proof (filter_shorter (fun e => (mBegin e.1 <? mBegin r) || (mEnd r <=? mBegin e.1)) l).
    repeat case_match; lia.
Qed.

Lemma run_repr ops : forall t ns l, RangeFacts.repr t ns l -> Forall valid ops -> zlength l + zlength ops < 2 ^ 64 ->
  exists t' ns', run ops t = Some t' /\ RangeFacts.repr t' ns' (run_list ops l).
Proof.
  induction ops as [|op ops IH]; intros t ns l Hr Hv Hs; cbn [run run_list length] in *; [by exists t, ns|].
  apply Forall_cons in Hv as [Hop Hv]. destruct (apply_repr op t ns l Hr Hop ltac:(lia)) as (t1 & ns1 & -> & Hr1).
  cbn [mbind option_bind]. apply (IH t1 ns1 _ Hr1 Hv). pose proof (apply_range_length op l). lia.
Qed.

End run.
End RangeRun.

(** ** Properties *)

Section theorems.
Import FileRange RangeRun AvlIndex.
Context {V : Type}.

(** C28: Whatever is added to a tree of ranges on AVL trees and removed from it,
    it is the list of disjoint ranges that the same operations give on lists, in
    the order of the file: no operation fails, the two indices never disagree,
    every query finds what it finds on the list, and iterating over the gaps of a
    range gives the parts between the ranges as long as none touch. *)
Theorem range_tree (ops : list (Op V)) :
  Forall valid ops -> zlength ops < 2 ^ 64 ->
  let l := run_list ops [] in
  exists t, run ops (FileRangeTree.new_tree (T:=AVLTree.Tree)) = Some t
    /\ FileRangeTree.items t = Some l /\ Ranges.disjoint_ranges l
    /\ FileRangeTree.size t = zlength l
    /\ (forall p, RangeFacts.entry_at t <$> FileRangeTree.beginsAfter p t = Some (Ranges.beginsAfter p l)
         /\ RangeFacts.entry_at t <$> FileRangeTree.beginsAt p t = Some (Ranges.beginsAt p l)
         /\ RangeFacts.entry_at t <$> FileRangeTree.beginsAtOrAfter p t = Some (Ranges.beginsAtOrAfter p l)
         /\ RangeFacts.entry_at t <$> FileRangeTree.endsAfter p t = Some (Ranges.endsAfter p l)
         /\ RangeFacts.entry_at t <$> FileRangeTree.endsAt p t = Some (Ranges.endsAt p l)
         /\ RangeFacts.entry_at t <$> FileRangeTree.endsAtOrAfter p t = Some (Ranges.endsAtOrAfter p l))
    /\ (StronglySorted Ranges.separated l -> forall r, mBegin r <= mEnd r -> FileRangeTree.gaps t r = Some (Ranges.gaps r l)).
Proof.
  intros Hv Hs l. destruct (run_repr ops (FileRangeTree.new_tree (T:=AVLTree.Tree)) [] [] RangeFacts.repr_new Hv) as (t & ns & E & Hr); [done|].
  exists t. split; [done|]. split_and!.
  - by apply (RangeFacts.items_repr t ns).
  - apply Hr.
  - unfold FileRangeTree.size. rewrite (proj1 (holds_size _ _ _ (RangeFacts.repr_begin _ _ _ Hr))).
    by rewrite (Forall2_length _ _ _ (RangeFacts.repr_values _ _ _ Hr)).
  - intros p. by apply (RangeFacts.queries t ns).
  - intros Hsep r. by apply (RangeFacts.gaps_repr t ns).
Qed.

(** The gaps of a range are the positions of it that no range of the tree
    contains. *)
Theorem gaps_uncovered (l : list (FileRange * V)) r p :
  Ranges.disjoint_ranges l ->
  (exists g, In g (Ranges.gaps r l) /\ contains g p = true)
  <-> contains r p = true /\ forall e, In e l -> contains e.1 p = false.
Proof.
  intros Hl. unfold Ranges.gaps. by rewrite (RangeFacts.gaps_from_covers l _ _ p Hl), (RangeFacts.contains_iff r).
Qed.

End theorems.

Lemma range_tree_witness :
  let r := FileRange.MkFileRange in
  let ops := [RangeRun.Add (r 10 20) 1; RangeRun.Add (r 0 15) 2; RangeRun.Add (r 30 40) 3; RangeRun.RemoveAt 10] in
  exists t, RangeRun.run ops (FileRangeTree.new_tree (T:=AVLTree.Tree)) = Some t
    /\ FileRangeTree.items t = Some [(r 0 10, 2); (r 30 40, 3)]
    /\ FileRangeTree.gaps t (r 5 50) = Some [r 10 30; r 40 50].
Proof.
  cbv zeta. set (r := FileRange.MkFileRange).
  destruct (range_tree [RangeRun.Add (r 10 20) 1; RangeRun.Add (r 0 15) 2; RangeRun.Add (r 30 40) 3; RangeRun.RemoveAt 10])
    as (t & E & Hi & _ & _ & _ & Hg); [repeat constructor|reflexivity|].
  exists t. split; [exact E|]. split; [exact Hi|]. apply Hg; [|discriminate]. repeat constructor.
Defined.

Lemma gaps_uncovered_witness :
  let r := FileRange.MkFileRange in
  let l := [(r 0 10, 2); (r 30 40, 3)] in
  Ranges.gaps (r 5 50) l = [r 10 30; r 40 50] /\ exists g, In g (Ranges.gaps (r 5 50) l) /\ FileRange.contains g 12 = true.
Proof.
  cbv zeta. split; [reflexivity|]. apply gaps_uncovered.
  - split; [repeat constructor|]. repeat constructor; intros H; discriminate H.
  - split; [reflexivity|]. intros e [<-|[<-|[]]]; reflexivity.
Defined.

(** *** Where the names promise more *)

(** An iterator over gaps stops where two ranges touch: the gap behind them is
    lost. *)
Lemma touching_gaps :
  let r := FileRange.MkFileRange in
  let l := [(r 0 10, 1); (r 10 20, 2)] in
  exists t, RangeRun.run [RangeRun.Add (r 0 10) 1; RangeRun.Add (r 10 20) 2] (FileRangeTree.new_tree (T:=AVLTree.Tree)) = Some t
    /\ FileRangeTree.items t = Some l
    /\ Ranges.gaps (r 5 25) l = [r 20 25]
    /\ FileRangeTree.gaps t (r 5 25) = Some [].
Proof. vm_compute. eexists. by split_and!. Qed.

(** Removing the ranges that a range contains also removes the last one if it
    begins inside the range and ends behind it. *)
Lemma partly_contained_removed :
  let r := FileRange.MkFileRange in
  let l := [(r 0 10, 1); (r 10 20, 2)] in
  Ranges.remove_range (r 0 15) l = [].
Proof. reflexivity. Qed.
