(* ===== verification/FileCache.v ===== *)
(** * The cache of a file's content

    [FileContext] of src/src/file_service/file_context.cpp with what it keeps on
    disk (sparse_file_buffer.cpp), its downloads ([DownloadContext]), its requests
    and their lock (file_read_write_state.cpp).  The sets and maps of ranges are the
    lists of RangeTree.v, which the trees of ranges are proved to implement.

    What is done under [mLock], and what the callbacks of requests and downloads do,
    is a step of [FileContext.step]; steps of any number of threads interleave
    freely.  The environment chooses how much a write to the local file writes, the
    estimated bitrate, whether a download can be created and when it delivers, fails
    or ends.

    [ClientPartialDownload::cancel] (src/common/client_adapter.cpp) ends a download
    before it returns, so a truncation that cancels downloads goes on when they have
    ended ([Shrunk]).

    Proved: whatever the order of the steps, the readers and writers of the cache
    see a plain file ([cache_is_file]), and what is kept about the ranges on disk is
    in order ([cache_invariant]), provided that requests are [orderly]: appends
    write all their bytes or none, and no file is reclaimed that was written.  FileServing.v proves that requests are served.  The
    last part shows runs that the conditions of the theorems exclude.

    A fetch is the reads that it issues.  A flush holds the lock until its upload ends
    ([Flushed]), which succeeds only with the whole file on disk.  Not modelled:
    removing and touching a file, pinning, observers, read-only files, and
    exceptions of the database, which roll its transaction back. *)

From Stdlib Require Import Sorted.
From S2P Require Import Prelude AvlTree RangeTree.
Local Open Scope Z_scope.

(** ** Local content *)

Module SparseFileBuffer.

(** The bytes of the local file; its reported size is their number. *)
Abbreviation content := (list Z).

Definition byte_at (f : content) (p : Z) : Z := if p <? 0 then 0 else nth (Z.to_nat p) f 0.

(** Zeros up to a position. *)
Definition pad (p : Z) (f : content) : content := f ++ repeat 0 (Z.to_nat p - length f).

(** The operating system writes nothing behind [limit]. *)
Definition write (limit : Z) (buffer : list Z) (offset : Z) (f : content) : Z * content :=
  let count := Z.max 0 (Z.min (limit - offset) (zlength buffer)) in
  if count =? 0 then (0, f)
  else (count, take (Z.to_nat offset) (pad offset f) ++ take (Z.to_nat count) buffer ++ drop (Z.to_nat (offset + count)) f).

(** Behind its end the local file reads as zeros, up to the size of the file. *)
Definition read (size offset length : Z) (f : content) : list Z :=
  let length := Z.min length (Z.max offset size - offset) in
  let count := Z.min length (Z.max offset (zlength f) - offset) in
  take (Z.to_nat count) (drop (Z.to_nat offset) f) ++ repeat 0 (Z.to_nat (length - count)).

Definition truncate (newSize : Z) (f : content) : content := take (Z.to_nat newSize) (pad newSize f).

(** The bytes of a range. *)
Definition slice (g : Z -> Z) (begin end_ : Z) : list Z :=
  map (fun i => g (begin + Z.of_nat i)) (seq 0 (Z.to_nat (end_ - begin))).

End SparseFileBuffer.

Module FileReadWriteState.

(** A [long]: 1 while a writer has the lock, minus the number of readers else. *)
Definition long_min : Z := - 2 ^ 63.

Definition read (mState : Z) : Z * bool :=
  let adjustment := (mState <=? 0) && (long_min <? mState) in
  (if adjustment then mState - 1 else mState, adjustment).
Definition readCompleted (mState : Z) : Z := mState + 1.
Definition write (mState : Z) : Z * bool :=
  let adjustment := mState =? 0 in
  (if adjustment then mState + 1 else mState, adjustment).
Definition writeCompleted (mState : Z) : Z := mState - 1.

End FileReadWriteState.

(** ** The cache *)

Module FileContext.
Import FileRange.

Record ServiceOptions := MkServiceOptions {
  mImmediateDownloadThreshold : Z;
  mJumpBackwardAlignment : Z;
  mJumpBackwardDistance : Z;
  mJumpForwardDistance : Z;
  mMaximumRangeRetries : Z;
  mMinimumRangeSize : Z
}.

(** [FileReadRequest]. *)
Record FileReadRequest := MkRead { mRange : FileRange; mIsJumpCandidate : bool }.

Inductive Request :=
| Read (request : FileReadRequest)
| Write (range : FileRange) (buffer : option (list Z))
| Append (buffer : list Z)
| Truncate (size : Z)
| Flush
| Reclaim.

Definition is_read (request : Request) : bool := match request with Read _ | Flush => true | _ => false end.

Inductive FileResult := FILE_INVALID_ARGUMENTS | FILE_CANCELLED | FILE_FAILED | FILE_READONLY | FILE_REMOVED | FILE_SUCCESS.

(** What the callback of a request is told: a read, the range that it may read from
    the buffer. *)
Inductive Completion := ReadDone (range : FileRange) | ReaderDone (result : FileResult) | WriterDone (result : FileResult).

(** [DownloadContext], with the client's side of the download: the content of the
    node that it downloads and where it continues. *)
Record Download := MkDownload {
  d_id : nat;
  d_end : Z;            (* mRange.mEnd *)
  d_retries : Z;
  d_source : Z -> Z;
  d_next : Z;
  d_open : bool         (* it has not been told to stop *)
}.

Abbreviation RangeSet := (list (FileRange * unit)).
Abbreviation RangeMap := (list (FileRange * Download)).

Record Database := MkDatabase { db_size : Z; db_ranges : list FileRange }.

Record State := MkState {
  mSize : Z;
  mDirty : bool;
  mBuffer : list Z;
  mOnDisk : RangeSet;
  mDatabase : Database;
  mLarge : RangeMap;
  mSmall : RangeMap;
  mReplaced : list FileRange;               (* what replaced downloads did not download *)
  mNext : nat;                              (* for the next download *)
  mPendingReadRequests : list FileReadRequest;
  mReadWriteState : Z;
  mRequests : list Request;
  mCompleted : list Completion;             (* callbacks queued for execution *)
  mExecutions : nat;                        (* calls of execute() to come *)
  mCancels : list FileRange;                (* calls of cancel() to come *)
  mShrinking : option (Z * Z * list nat);   (* a truncation that waits for downloads *)
  mFlushing : nat;                          (* flushes in progress *)
  mCloud : Z -> Z                           (* the content of the node *)
}.

(** What the environment decides while a request executes. *)
Record Oracle := MkOracle { o_limit : Z; o_bitrate : Z; o_created : bool }.

(** *** Setters *)

Definition set_disk (size : Z) (dirty : bool) (buffer : list Z) (ranges : RangeSet) (db : Database) (s : State) : State :=
  MkState size dirty buffer ranges db (mLarge s) (mSmall s) (mReplaced s) (mNext s) (mPendingReadRequests s) (mReadWriteState s)
    (mRequests s) (mCompleted s) (mExecutions s) (mCancels s) (mShrinking s) (mFlushing s) (mCloud s).
Definition set_downloads (large small : RangeMap) (replaced : list FileRange) (next : nat) (s : State) : State :=
  MkState (mSize s) (mDirty s) (mBuffer s) (mOnDisk s) (mDatabase s) large small replaced next (mPendingReadRequests s) (mReadWriteState s)
    (mRequests s) (mCompleted s) (mExecutions s) (mCancels s) (mShrinking s) (mFlushing s) (mCloud s).
Definition set_pending (pending : list FileReadRequest) (completed : list Completion) (s : State) : State :=
  MkState (mSize s) (mDirty s) (mBuffer s) (mOnDisk s) (mDatabase s) (mLarge s) (mSmall s) (mReplaced s) (mNext s) pending (mReadWriteState s)
    (mRequests s) completed (mExecutions s) (mCancels s) (mShrinking s) (mFlushing s) (mCloud s).
Definition set_requests (state : Z) (requests : list Request) (executions : nat) (s : State) : State :=
  MkState (mSize s) (mDirty s) (mBuffer s) (mOnDisk s) (mDatabase s) (mLarge s) (mSmall s) (mReplaced s) (mNext s) (mPendingReadRequests s) state
    requests (mCompleted s) executions (mCancels s) (mShrinking s) (mFlushing s) (mCloud s).
Definition set_cancels (cancels : list FileRange) (shrinking : option (Z * Z * list nat)) (s : State) : State :=
  MkState (mSize s) (mDirty s) (mBuffer s) (mOnDisk s) (mDatabase s) (mLarge s) (mSmall s) (mReplaced s) (mNext s) (mPendingReadRequests s)
    (mReadWriteState s) (mRequests s) (mCompleted s) (mExecutions s) cancels shrinking (mFlushing s) (mCloud s).
Definition set_flush (flushing : nat) (cloud : Z -> Z) (s : State) : State :=
  MkState (mSize s) (mDirty s) (mBuffer s) (mOnDisk s) (mDatabase s) (mLarge s) (mSmall s) (mReplaced s) (mNext s) (mPendingReadRequests s)
    (mReadWriteState s) (mRequests s) (mCompleted s) (mExecutions s) (mCancels s) (mShrinking s) flushing cloud.

Definition init (size : Z) (cloud : Z -> Z) : State :=
  MkState size false [] [] (MkDatabase size []) [] [] [] 0 [] 0 [] [] 0 [] None 0 cloud.

(** *** Completing requests *)

(** The callback is queued for execution. *)
Definition completed (c : Completion) (s : State) : State := set_pending (mPendingReadRequests s) (mCompleted s ++ [c]) s.

(** [FileReadRequestLess]: by begin, then by end. *)
Definition less (lhs rhs : FileRange) : bool :=
  if mBegin lhs <? mBegin rhs then true else if mBegin rhs <? mBegin lhs then false else mEnd lhs <? mEnd rhs.

Fixpoint insert_read (request : FileReadRequest) (l : list FileReadRequest) : list FileReadRequest :=
  match l with
  | [] => [request]
  | x :: l' => if less (mRange request) (mRange x) then request :: l else x :: insert_read request l'
  end.

(** The reads that begin in a range, in order: what two lower bounds in the ordered
    set delimit. *)
Definition dispatchable (range : FileRange) (request : FileReadRequest) : bool :=
  (mBegin range <=? mBegin (mRange request)) && (mBegin (mRange request) <? mEnd range).

(** [completed(range)]: reads that begin in what was written are served, with what is
    there. *)
Definition dispatch (range : FileRange) (s : State) : State :=
  let '(now, later) := List.partition (dispatchable range) (mPendingReadRequests s) in
  set_pending later
    (mCompleted s ++ map (fun r => ReadDone (MkFileRange (mBegin (mRange r)) (Z.min (mEnd range) (mEnd (mRange r))))) now) s.

Definition covered {V} (p : Z) (m : list (FileRange * V)) : bool :=
  match Ranges.contains p m with Some _ => true | None => false end.

(** [failed]: the reads of a range that no other download will serve. *)
Definition failing (range : FileRange) (s : State) (request : FileReadRequest) : bool :=
  let begin := mBegin (mRange request) in
  (mBegin range <=? begin) && (begin <=? mEnd range) && negb (covered begin (mLarge s)) && negb (covered begin (mSmall s)).

Definition failed (range : FileRange) (result : FileResult) (s : State) : State :=
  let '(now, later) := List.partition (failing range s) (mPendingReadRequests s) in
  set_pending later (mCompleted s ++ map (fun _ => ReaderDone result) now) s.

(** *** Ranges on disk *)

Definition removeRanges (range : FileRange) (db : Database) : Database :=
  MkDatabase (db_size db) (List.filter (fun r => negb ((mBegin range <=? mBegin r) && (mEnd r <=? mEnd range))) (db_ranges db)).
Definition addRange (range : FileRange) (db : Database) : Database := MkDatabase (db_size db) (db_ranges db ++ [range]).
Definition updateSize (size : Z) (db : Database) : Database := MkDatabase size (db_ranges db).

(** A range that was written, with its neighbours. *)
Definition effective (range : FileRange) (onDisk : RangeSet) : FileRange :=
  let '(begin, end_) := Ranges.find (extend range 1) onDisk in
  match begin with
  | None => range
  | Some b =>
      let from := Z.min (mBegin b.1) (mBegin range) in
      let to := Z.max (mEnd b.1) (mEnd range) in
      match end_ with
      | Some e => match Ranges.prev e onDisk with Some x => MkFileRange from (Z.max (mEnd x.1) to) | None => MkFileRange from to end
      | None => match last onDisk with Some x => MkFileRange from (Z.max (mEnd x.1) to) | None => MkFileRange from to end
      end
  end.

Definition updateRanges (range : FileRange) (s : State) : State :=
  let range := MkFileRange (Z.min (mBegin range) (mSize s)) (mEnd range) in
  let '(begin, end_) := Ranges.find (extend range 1) (mOnDisk s) in
  let range := effective range (mOnDisk s) in
  let db := updateSize (Z.max (mSize s) (mEnd range)) (addRange range (removeRanges range (mDatabase s))) in
  let onDisk := (Ranges.add range tt (Ranges.remove_between begin end_ (mOnDisk s))).2 in
  set_disk (mSize s) (mDirty s) (mBuffer s) onDisk db s.

(** *** Downloads *)

Definition find_download (id : nat) (m : RangeMap) : option (FileRange * Download) :=
  List.find (fun e => Nat.eqb (d_id e.2) id) m.

(** The context of a download changes in place. *)
Definition modify_download (id : nat) (f : Download -> Download) (m : RangeMap) : RangeMap :=
  map (fun e => if Nat.eqb (d_id e.2) id then (e.1, f e.2) else e) m.

Definition modify_downloads (id : nat) (f : Download -> Download) (s : State) : State :=
  set_downloads (modify_download id f (mLarge s)) (modify_download id f (mSmall s)) (mReplaced s) (mNext s) s.

(** [timeUntil], in milliseconds. *)
Definition timeUntil (bitrate position : Z) (d : Download) : Z :=
  if position <? d_end d then 0 else u64 ((position - d_end d + 1) * 8000) / bitrate.

(** [addDownload], which fails the reads of its range if it cannot be created. *)
Definition addDownload (o : Oracle) (large : bool) (range : FileRange) (s : State) : State :=
  let d := MkDownload (mNext s) (mBegin range) 0 (mCloud s) (mBegin range) true in
  if o_created o then
    if large then set_downloads (Ranges.add range d (mLarge s)).2 (mSmall s) (mReplaced s) (S (mNext s)) s
    else set_downloads (mLarge s) (Ranges.add range d (mSmall s)).2 (mReplaced s) (S (mNext s)) s
  else failed range FILE_FAILED s.

(** [DownloadContext::range]: a download is moved to a smaller range. *)
Definition move (e : FileRange * Download) (range : FileRange) (m : RangeMap) : RangeMap :=
  if bool_decide (e.1 = range) then m
  else
    let d := e.2 in
    let d := MkDownload (d_id d) (Z.min (mEnd range) (Z.max (mBegin range) (d_end d))) (d_retries d) (d_source d) (d_next d) (d_open d) in
    (Ranges.add range d (Ranges.remove_at (mBegin e.1) m)).2.

(** [cancel(map, range)]: what sticks out of the range stays; the downloads to be
    cancelled are those that still overlap it. *)
Definition cancel_map (range : FileRange) (m : RangeMap) : RangeMap * list nat :=
  match Ranges.endsAfter (mBegin range) m with
  | None => (m, [])
  | Some b =>
      if mEnd range <=? mBegin b.1 then (m, [])
      else
        let m := if (mBegin b.1 <? mBegin range) && (mEnd b.1 <=? mEnd range)
                 then move b (MkFileRange (mBegin b.1) (mBegin range)) m else m in
        let m := match Ranges.endsAfter (mEnd range) m with
                 | Some e => if mBegin e.1 <? mEnd range then move e (MkFileRange (mEnd range) (mEnd e.1)) m else m
                 | None => m
                 end in
        let '(begin, end_) := Ranges.find range m in
        (m, map (fun e => d_id e.2) (Ranges.between begin end_ m))
  end.

Definition cancel (range : FileRange) (s : State) : State * list nat :=
  let '(large, ids) := cancel_map range (mLarge s) in
  let '(small, ids') := cancel_map range (mSmall s) in
  (set_downloads large small (mReplaced s) (mNext s) s, ids ++ ids').

(** *** Reading *)

Section reading.
Context (options : ServiceOptions).

(** Whether a large read is better served by a new large download. *)
Definition isJump (o : Oracle) (request : FileReadRequest) (s : State) : bool :=
  let range := mRange request in
  if negb (mIsJumpCandidate request) then false
  else if FileRange.length_ range <=? mImmediateDownloadThreshold options then false
  else
    match mLarge s with
    | [] => false
    | (first, context) :: _ =>
        let on_disk := match Ranges.contains (mBegin range) (mOnDisk s) with Some e => mEnd range <=? mEnd e.1 | None => false end in
        if on_disk then false
        else
          let effectiveBegin :=
            match Ranges.endsAtOrAfter (mBegin first) (mOnDisk s) with
            | Some e => if mBegin e.1 <? mBegin first then mBegin e.1 else mBegin first
            | None => mBegin first
            end in
          if mBegin range <? effectiveBegin then mImmediateDownloadThreshold options <? effectiveBegin - mBegin range
          else if mBegin range <? mBegin first then false
          else mJumpForwardDistance options <? timeUntil (o_bitrate o) (mBegin range) context
    end.

(** The large download in progress is taken out of its map. *)
Definition replaced (s : State) : State :=
  match mLarge s with
  | [] => s
  | (first, d) :: rest => set_downloads rest (mSmall s) (mReplaced s ++ [FileRange.new (d_end d) (mEnd first)]) (mNext s) s
  end.

(** The part of a read in front of a large download that begins shortly after it. *)
Definition isSmallPrefix (range : FileRange) (s : State) : option FileRange :=
  match Ranges.beginsAfter (mBegin range) (mLarge s) with
  | None => None
  | Some e =>
      if mEnd range <=? mBegin e.1 then None
      else if mImmediateDownloadThreshold options <? mBegin e.1 - mBegin range then None
      else Some (MkFileRange (mBegin range) (mBegin e.1))
  end.

Definition completeIfOnDisk (range : FileRange) (s : State) : option State :=
  match Ranges.contains (mBegin range) (mOnDisk s) with
  | None => None
  | Some e => Some (completed (ReadDone (MkFileRange (mBegin range) (Z.min (mEnd e.1) (mEnd range)))) s)
  end.

Definition queueRequest (request : FileReadRequest) (s : State) : State :=
  set_pending (insert_read request (mPendingReadRequests s)) (mCompleted s) s.

(** Where a large download for a read begins. *)
Definition large_begin (o : Oracle) (range : FileRange) (s : State) : Z :=
  let backwardBytes := u64 (mJumpBackwardDistance options * o_bitrate o) / 8 / 1000 in
  let begin := mBegin range - Z.min backwardBytes (mBegin range) in
  let begin := Z.shiftl (Z.shiftr begin (mJumpBackwardAlignment options)) (mJumpBackwardAlignment options) in
  match Ranges.endsAfter begin (mOnDisk s) with
  | Some e => if mBegin e.1 <=? begin then mEnd e.1 else begin
  | None => begin
  end.

Definition large_read (o : Oracle) (request : FileReadRequest) (s : State) : State :=
  let range := mRange request in
  let s := match completeIfOnDisk range s with Some s => s | None => queueRequest request s end in
  match mLarge s with
  | _ :: _ => s
  | [] =>
      let begin := large_begin o range s in
      if mSize s - begin =? 0 then s else addDownload o true (MkFileRange begin (mSize s)) s
  end.

Definition small_read (o : Oracle) (request : FileReadRequest) (s : State) : State :=
  let range := mRange request in
  match completeIfOnDisk range s with
  | Some s => s
  | None =>
      let s := queueRequest request s in
      let soon := match Ranges.contains (mBegin range) (mLarge s) with
                  | Some e => timeUntil (o_bitrate o) (mBegin range) e.2 <=? 1000
                  | None => false
                  end in
      if soon then s
      else
        let length := Z.max (mMinimumRangeSize options) (FileRange.length_ range) in
        let length := Z.min length (mSize s - mBegin range) in
        let gap := Ranges.first_gap (MkFileRange (mBegin range) (mBegin range + length)) (mSmall s) in
        if FileRange.empty gap then s else addDownload o false gap s
  end.

Definition execute_read (o : Oracle) (request : FileReadRequest) (s : State) : State :=
  let range := FileRange.clamp (mRange request) 0 (mSize s) in
  let request := MkRead range (mIsJumpCandidate request) in
  if FileRange.empty range then completed (ReadDone range) s
  else
    let s := if isJump o request s then replaced s else s in
    if mImmediateDownloadThreshold options <? FileRange.length_ range then
      match isSmallPrefix range s with
      | Some range => small_read o (MkRead range (mIsJumpCandidate request)) s
      | None => large_read o request s
      end
    else small_read o request s.

End reading.

(** *** Writing *)

(** What a step changes of the file that readers and writers see. *)
Inductive Label :=
| ReadBytes (range : FileRange) (bytes : list Z)
| Written (offset : Z) (bytes : list Z)
| Truncated (size : Z).

(** [mInfo->written]. *)
Definition written (end_ : Z) (s : State) : State :=
  set_disk (Z.max (mSize s) end_) true (mBuffer s) (mOnDisk s) (mDatabase s) s.

Definition set_buffer (buffer : list Z) (s : State) : State := set_disk (mSize s) (mDirty s) buffer (mOnDisk s) (mDatabase s) s.

Definition execute_write (o : Oracle) (range : FileRange) (buffer : option (list Z)) (s : State) : State * list Label :=
  if mEnd range - mBegin range =? 0 then (completed (WriterDone FILE_SUCCESS) s, [])
  else
    match buffer with
    | None => (completed (WriterDone FILE_INVALID_ARGUMENTS) s, [])
    | Some bytes =>
        let '(length, buffer) := SparseFileBuffer.write (o_limit o) bytes (mBegin range) (mBuffer s) in
        let range := MkFileRange (mBegin range) (mBegin range + length) in
        let s := set_cancels (mCancels s ++ [range]) (mShrinking s) s in
        if length =? 0 then (completed (WriterDone FILE_FAILED) s, [])
        else
          let s := updateRanges range (set_buffer buffer s) in
          (completed (WriterDone FILE_SUCCESS) (written (mEnd range) s), [Written (mBegin range) (take (Z.to_nat length) bytes)])
    end.

Definition execute_append (o : Oracle) (bytes : list Z) (s : State) : State * list Label :=
  let size := mSize s in
  let '(length, buffer) := SparseFileBuffer.write (o_limit o) bytes size (mBuffer s) in
  let s := set_buffer buffer s in
  if length <? zlength bytes then (completed (WriterDone FILE_FAILED) s, [])
  else
    let range := MkFileRange size (size + zlength bytes) in
    (completed (WriterDone FILE_SUCCESS) (written (mEnd range) (updateRanges range s)), [Written size bytes]).

(** [mInfo->truncated]. *)
Definition truncated (size : Z) (s : State) : State :=
  set_disk size true (mBuffer s) (mOnDisk s) (mDatabase s) s.

(** A file shrinks once the downloads that would be cut off have ended. *)
Definition execute_truncate (newSize : Z) (s : State) : State * list Label :=
  let oldSize := mSize s in
  if newSize =? oldSize then (completed (WriterDone FILE_SUCCESS) s, [])
  else if oldSize <? newSize then
    (completed (WriterDone FILE_SUCCESS) (truncated newSize (updateRanges (MkFileRange oldSize newSize) s)), [Truncated newSize])
  else
    let '(s, ids) := cancel (FileRange.new oldSize newSize) s in
    (set_cancels (mCancels s) (Some (newSize, oldSize, ids)) s, []).

Definition shrink (newSize oldSize : Z) (s : State) : State :=
  let buffer := SparseFileBuffer.truncate newSize (mBuffer s) in
  match Ranges.endsAfter newSize (mOnDisk s) with
  | None => set_disk (mSize s) (mDirty s) buffer (mOnDisk s) (mDatabase s) s
  | Some b =>
      let range := MkFileRange (mBegin b.1) oldSize in
      let db := updateSize newSize (removeRanges range (mDatabase s)) in
      let onDisk := Ranges.remove_between (Some b) None (mOnDisk s) in
      if mBegin range <? newSize then
        let range := MkFileRange (mBegin range) newSize in
        set_disk (mSize s) (mDirty s) buffer (Ranges.add range tt onDisk).2 (addRange range db) s
      else set_disk (mSize s) (mDirty s) buffer onDisk db s
  end.

(** [execute(FileReclaimRequest)]. *)
Definition execute_reclaim (s : State) : State :=
  match mLarge s, mSmall s with
  | [], [] =>
      let db := updateSize (mSize s) (removeRanges (MkFileRange 0 (mSize s)) (mDatabase s)) in
      completed (WriterDone FILE_SUCCESS) (set_disk (mSize s) (mDirty s) (SparseFileBuffer.truncate 0 (mBuffer s)) [] db s)
  | _, _ => completed (WriterDone FILE_SUCCESS) s
  end.

(** A flush of a clean file is done; any other joins the one in progress. *)
Definition execute_flush (s : State) : State :=
  if mDirty s then set_flush (S (mFlushing s)) (mCloud s) s else completed (ReaderDone FILE_SUCCESS) s.

(** *** Downloads deliver, fail and end *)

(** Data is written to the gaps of its range until one is written in part only: how
    far it got, and whether that is all. *)
Fixpoint write_gaps (limit : Z) (source : Z -> Z) (gaps : list FileRange) (end_ : Z) (buffer : list Z) : Z * bool * list Z :=
  match gaps with
  | [] => (end_, true, buffer)
  | g :: gaps =>
      let '(count, buffer) := SparseFileBuffer.write limit (SparseFileBuffer.slice source (mBegin g) (mEnd g)) (mBegin g) buffer in
      let end_ := mBegin g + count in
      if count <? mEnd g - mBegin g then (end_, false, buffer) else write_gaps limit source gaps end_ buffer
  end.

Definition set_download (end_ next : Z) (open : bool) (d : Download) : Download :=
  MkDownload (d_id d) end_ 0 (d_source d) next open.

(** [DownloadContext::data] of a download that has not been replaced. *)
Definition data (limit length : Z) (first : FileRange) (d : Download) (s : State) : State :=
  let offset := d_next d in
  let next := offset + length in
  let update end_ open := modify_downloads (d_id d) (set_download end_ next open) in
  if mEnd first <=? offset then update (d_end d) false s
  else
    let range := FileRange.new offset (Z.min next (mEnd first)) in
    let '(written_end, all, buffer) := write_gaps limit (d_source d) (Ranges.gaps range (mOnDisk s)) offset (mBuffer s) in
    let s := set_buffer buffer s in
    let more end_ s := negb (FileRange.empty (Ranges.first_gap (FileRange.new end_ (mEnd first)) (mOnDisk s))) in
    if written_end =? offset then
      if all then update (mEnd range) (more (mEnd range) s) s else update (d_end d) false s
    else
      let written := if all then range else MkFileRange offset written_end in
      let s := dispatch written (updateRanges written s) in
      update (mEnd written) (all && more (mEnd written) s) s.

(** [DownloadContext::failed]: whether to try again. *)
Definition download_failed (options : ServiceOptions) (retryable overquota : bool) (d : Download) : Download :=
  if retryable && negb overquota && (d_retries d <? mMaximumRangeRetries options)
  then MkDownload (d_id d) (d_end d) (d_retries d + 1) (d_source d) (d_next d) (d_open d)
  else MkDownload (d_id d) (d_end d) (d_retries d) (d_source d) (d_next d) false.

(** [DownloadContext::completed]. *)
Definition download_completed (large : bool) (first : FileRange) (d : Download) (result : FileResult) (s : State) : State :=
  let s :=
    if large then set_downloads (Ranges.remove_at (mBegin first) (mLarge s)) (mSmall s) (mReplaced s) (mNext s) s
    else set_downloads (mLarge s) (Ranges.remove_at (mBegin first) (mSmall s)) (mReplaced s) (mNext s) s in
  failed (FileRange.new (d_end d) (mEnd first)) result s.

(** *** Steps *)

Inductive Event :=
| Submit (o : Oracle) (request : Request)      (* executeOrQueue *)
| QueueReclaim                                 (* ReclaimContext::flushed *)
| Callback (i : nat)                           (* a queued callback runs, and releases the lock *)
| Execute (o : Oracle)                         (* one round of execute() *)
| Data (id : nat) (limit length : Z)
| Failure (id : nat) (retryable overquota : bool)
| Ended (id : nat) (result : FileResult)
| ReplacedEnded (i : nat) (result : FileResult)
| Cancel (i : nat)                             (* the canceller of a write *)
| Shrunk                                       (* the rest of a truncation *)
| Flushed (success : bool).                    (* the upload of a flush *)

Section steps.
Context (options : ServiceOptions).

Definition execute (o : Oracle) (request : Request) (s : State) : State * list Label :=
  match request with
  | Read request => (execute_read options o request s, [])
  | Write range buffer => execute_write o range buffer s
  | Append bytes => execute_append o bytes s
  | Truncate size => execute_truncate size s
  | Flush => (execute_flush s, [])
  | Reclaim => (execute_reclaim s, [])
  end.

(** The lock for a request, if it can be had. *)
Definition executable (request : Request) (s : State) : Z * bool :=
  if is_read request then FileReadWriteState.read (mReadWriteState s) else FileReadWriteState.write (mReadWriteState s).

(** [queue]: a reclamation goes in front of all other requests. *)
Definition queue (request : Request) (requests : list Request) : list Request :=
  match request with Reclaim => request :: requests | _ => requests ++ [request] end.

Definition executeOrQueue (o : Oracle) (request : Request) (s : State) : State * list Label :=
  let '(state, ok) := executable request s in
  if ok then execute o request (set_requests state (mRequests s) (mExecutions s) s)
  else (set_requests state (queue request (mRequests s)) (mExecutions s) s, []).

Definition executed (c : Completion) (s : State) : State :=
  let state := match c with
               | ReadDone _ | ReaderDone _ => FileReadWriteState.readCompleted (mReadWriteState s)
               | WriterDone _ => FileReadWriteState.writeCompleted (mReadWriteState s)
               end in
  set_requests state (mRequests s) (S (mExecutions s)) s.

(** The callback of a read reads its range from the buffer. *)
Definition callback (c : Completion) (s : State) : list Label :=
  match c with
  | ReadDone range =>
      [ReadBytes range (SparseFileBuffer.read (mSize s) (mBegin range) (mEnd range - mBegin range) (mBuffer s))]
  | _ => []
  end.

Definition execute_next (o : Oracle) (s : State) : State * list Label :=
  match mRequests s with
  | [] => (set_requests (mReadWriteState s) [] (pred (mExecutions s)) s, [])
  | request :: rest =>
      let '(state, ok) := executable request s in
      if ok then execute o request (set_requests state rest (mExecutions s) s)
      else (set_requests state (mRequests s) (pred (mExecutions s)) s, [])
  end.

Definition find_any (id : nat) (s : State) : option (bool * (FileRange * Download)) :=
  match find_download id (mLarge s) with
  | Some e => Some (true, e)
  | None => match find_download id (mSmall s) with Some e => Some (false, e) | None => None end
  end.

Definition downloads_present (ids : list nat) (s : State) : bool :=
  existsb (fun id => match find_any id s with Some _ => true | None => false end) ids.

(** [None]: the step is not possible in this state. *)
Definition step (ev : Event) (s : State) : option (State * list Label) :=
  match ev with
  | Submit o request => Some (executeOrQueue o request s)
  | QueueReclaim => Some (set_requests (mReadWriteState s) (queue Reclaim (mRequests s)) (mExecutions s) s, [])
  | Callback i =>
      c ← mCompleted s !! i;
      Some (executed c (set_pending (mPendingReadRequests s) (delete i (mCompleted s)) s), callback c s)
  | Execute o => if (mExecutions s =? 0)%nat then None else Some (execute_next o s)
  | Data id limit length =>
      '(_, (first, d)) ← find_any id s;
      if d_open d && (0 <=? length) then Some (data limit length first d s, []) else None
  | Failure id retryable overquota => Some (modify_downloads id (download_failed options retryable overquota) s, [])
  | Ended id result => '(large, (first, d)) ← find_any id s; Some (download_completed large first d result s, [])
  | ReplacedEnded i result =>
      range ← mReplaced s !! i;
      Some (failed range result (set_downloads (mLarge s) (mSmall s) (delete i (mReplaced s)) (mNext s) s), [])
  | Cancel i =>
      range ← mCancels s !! i;
      Some (set_cancels (delete i (mCancels s)) (mShrinking s) (fst (cancel range s)), [])
  | Shrunk =>
      '(newSize, oldSize, ids) ← mShrinking s;
      if downloads_present ids s then None
      else Some (completed (WriterDone FILE_SUCCESS) (truncated newSize (shrink newSize oldSize (set_cancels (mCancels s) None s))),
                 [Truncated newSize])
  | Flushed success =>
      if (mFlushing s =? 0)%nat then None
      else
        let done := set_pending (mPendingReadRequests s)
                      (mCompleted s ++ repeat (ReaderDone (if success then FILE_SUCCESS else FILE_FAILED)) (mFlushing s)) s in
        if negb success then Some (set_flush 0 (mCloud s) done, [])
        else if bool_decide (Forall (fun p => covered (Z.of_nat p) (mOnDisk s) = true) (seq 0 (Z.to_nat (mSize s)))) then
          let flushed := set_flush 0 (SparseFileBuffer.byte_at (mBuffer s)) done in
          Some (set_disk (mSize s) false (mBuffer s) (mOnDisk s) (mDatabase s) flushed, [])
        else None
  end.

End steps.

(** *** A plain file *)

Record File := MkFile { f_size : Z; f_bytes : Z -> Z }.

Definition apply_label (l : Label) (f : File) : File :=
  match l with
  | ReadBytes _ _ => f
  | Written offset bytes =>
      MkFile (Z.max (f_size f) (offset + zlength bytes))
        (fun p => if (offset <=? p) && (p <? offset + zlength bytes) then nth (Z.to_nat (p - offset)) bytes 0
                  else if p <? f_size f then f_bytes f p else 0)
  | Truncated size => MkFile size (fun p => if p <? f_size f then f_bytes f p else 0)
  end.

Definition allows (l : Label) (f : File) : Prop :=
  match l with
  | ReadBytes range bytes => 0 <= mBegin range <= mEnd range /\ mEnd range <= f_size f /\ bytes = SparseFileBuffer.slice (f_bytes f) (mBegin range) (mEnd range)
  | _ => True
  end.

Fixpoint replays (ls : list Label) (f : File) : Prop :=
  match ls with [] => True | l :: ls => allows l f /\ replays ls (apply_label l f) end.

(** What the cache stands for: what is on disk, and the content of the node else. *)
Definition file_content (s : State) (p : Z) : Z :=
  if covered p (mOnDisk s) then SparseFileBuffer.byte_at (mBuffer s) p else mCloud s p.

End FileContext.

(** ** Facts about ranges *)

Module RangeListFacts.
Import FileRange RangeFacts.

Section lists.
Context {V : Type}.
Implicit Types (e x y : FileRange * V) (l a b c m : list (FileRange * V)).
Import Ranges.

Lemma covered_iff l p : disjoint_ranges l ->
  FileContext.covered p l = true <-> exists e, In e l /\ mBegin e.1 <= p < mEnd e.1.
Proof.
  intros Hl. unfold FileContext.covered, contains. destruct (endsAfter_split p l Hl) as (a & b & -> & Ha & -> & Hb).
  destruct b as [|e b]; cbn [head mbind option_bind].
  - split; [done|]. intros (e & [He%Ha|[]]%in_app_iff & Hp). lia.
  - pose proof Hl as (_ & (_ & _ & Hel)%disjoint_cons & _)%disjoint_app.
    destruct (Z.ltb_spec p (mBegin e.1)) as [Hlt|Hge].
    + split; [done|]. intros (x & [Hx%Ha|[<-|Hx]]%in_app_iff & Hp); [lia|lia|]. specialize (Hel x Hx).
      unfold precedes in Hel. pose proof (Hb e (or_introl eq_refl)). lia.
    + split; [|done]. intros _. exists e. split; [apply in_app_iff; right; by left|]. split; [lia|]. apply Hb. by left.
Qed.

Lemma contains_some p l e : disjoint_ranges l -> contains p l = Some e -> In e l /\ mBegin e.1 <= p < mEnd e.1.
Proof.
  intros Hl. unfold contains, endsAfter. destruct (List.find _ l) as [x|] eqn:E; [|done]. cbn [mbind option_bind].
  apply List.find_some in E as [Hx Hp%Z.ltb_lt]. destruct (Z.ltb_spec p (mBegin x.1)); [done|]. by intros [= <-].
Qed.

Lemma contains_covered p l : contains p l = None <-> FileContext.covered p l = false.
Proof. unfold FileContext.covered. by destruct (contains p l). Qed.

(** The entries that overlap a range lie next to each other. *)
Lemma find_cases l r : disjoint_ranges l -> mBegin r <= mEnd r ->
  exists a m c, l = a ++ m ++ c /\ (forall x, In x a -> mEnd x.1 <= mBegin r)
    /\ (forall x, In x m -> mBegin r < mEnd x.1 /\ mBegin x.1 < mEnd r) /\ (forall x, In x c -> mEnd r <= mBegin x.1)
    /\ find r l = (head m, match m with [] => None | _ => head c end).
Proof.
  intros Hl Hr. unfold find. destruct (endsAfter_split (mBegin r) l Hl) as (a & b & -> & Ha & -> & Hb).
  pose proof Hl as (Hla & Hlb & _)%disjoint_app.
  destruct (list_split (fun e => mEnd r <=? mBegin e.1) b Hlb) as (m & c & -> & Hm & Hc).
  { intros x y Hx _ Hp Hq%Z.leb_le. apply Z.leb_le. pose proof (nonempty_in b x Hlb Hx). unfold precedes in Hp. lia. }
  assert (forall x, In x m -> mBegin x.1 < mEnd r) as Hm' by (intros x Hx%Hm; by apply Z.leb_gt).
  assert (forall x, In x c -> mEnd r <= mBegin x.1) as Hc' by (intros x Hx%Hc; by apply Z.leb_le).
  assert (forall x, In x m -> mBegin r < mEnd x.1) as Hmb by (intros x Hx; apply Hb, in_app_iff; by left).
  exists a, m, c. split_and!; [done|done|by split; [apply Hmb|apply Hm']|done|].
  destruct m as [|e m]; cbn [app head].
  - destruct c as [|e c]; cbn [head]; [done|]. by rewrite (proj2 (Z.leb_le _ _)) by (apply Hc'; by left).
  - rewrite (proj2 (Z.leb_gt _ _)) by (apply Hm'; by left). f_equal. unfold beginsAtOrAfter.
    rewrite (app_comm_cons m c e), app_assoc.
    assert (forall d, (forall x, In x d -> (mEnd r <=? mBegin x.1) = false) -> List.find (fun e0 => mEnd r <=? mBegin e0.1) (d ++ c) = head c) as Hskip.
    { induction d as [|x d IH]; intros Hd; cbn [app List.find].
      - destruct c as [|x c]; [done|]. cbn [List.find head]. by rewrite Hc by by left.
      - rewrite Hd by by left. apply IH. intros y Hy. apply Hd. by right. }
    apply Hskip. intros x [Hx|Hx]%in_app_iff; apply Z.leb_gt; [|by apply Hm'].
    pose proof (nonempty_in a x Hla Hx). specialize (Ha x Hx). lia.
Qed.

Lemma is_between_split a m c x : disjoint_ranges (a ++ m ++ c) -> In x (a ++ m ++ c) ->
  is_between (head m) (match m with [] => None | _ => head c end) x = true <-> In x m.
Proof.
  intros Hl Hx. pose proof Hl as (_ & (Hm & Hc & Hmc)%disjoint_app & Ha)%disjoint_app.
  assert (forall y z, In y m -> In z c -> mBegin y.1 < mBegin z.1) as Hmc'.
  { intros y z Hy Hz. specialize (Hmc y z Hy Hz). pose proof (nonempty_in m y Hm Hy). unfold precedes in Hmc. lia. }
  assert (forall y z, In y a -> In z m -> mBegin y.1 < mBegin z.1) as Ham.
  { intros y z Hy Hz. specialize (Ha y z Hy ltac:(apply in_app_iff; by left)).
    pose proof (nonempty_in _ y Hl ltac:(apply in_app_iff; by left)). unfold precedes in Ha. lia. }
  destruct m as [|b m]; cbn [head is_between]; [done|]. rewrite andb_true_iff, Z.leb_le.
  assert (forall y, In y m -> mBegin b.1 < mBegin y.1) as Hbm.
  { apply disjoint_cons in Hm as (Hb & _ & Hbm). intros y Hy. specialize (Hbm y Hy). unfold precedes, nonempty in *. lia. }
  split.
  - intros [Hb Hj]. apply in_app_iff in Hx as [Hx|[Hx|Hx]%in_app_iff]; [|done|].
    + specialize (Ham x b Hx (or_introl eq_refl)). lia.
    + destruct c as [|j c]; [done|]. cbn [head] in Hj. apply Z.ltb_lt in Hj. apply disjoint_cons in Hc as (Hj' & _ & Hjc).
      destruct Hx as [<-|Hx]; [lia|]. specialize (Hjc x Hx). unfold precedes, nonempty in *. lia.
  - intros Hxm. split.
    + destruct Hxm as [<-|Hxm]; [done|]. specialize (Hbm x Hxm). lia.
    + destruct c as [|j c]; [done|]. cbn [head]. apply Z.ltb_lt, Hmc'; [done|by left].
Qed.

Lemma between_split a m c : disjoint_ranges (a ++ m ++ c) ->
  between (head m) (match m with [] => None | _ => head c end) (a ++ m ++ c) = m
  /\ remove_between (head m) (match m with [] => None | _ => head c end) (a ++ m ++ c) = a ++ c.
Proof.
  intros Hl. pose proof (is_between_split a m c) as Hb.
  assert (forall x, In x a \/ In x c -> In x (a ++ m ++ c) /\ ~ In x m) as Hout.
  { pose proof Hl as (_ & (_ & _ & Hmc)%disjoint_app & Ha)%disjoint_app. intros x Hx.
    pose proof (nonempty_in _ x Hl ltac:(rewrite !in_app_iff; tauto)) as Hne. split; [rewrite !in_app_iff; tauto|]. intros Hm. destruct Hx as [Hx|Hx].
    - specialize (Ha x x Hx ltac:(apply in_app_iff; by left)). unfold precedes in Ha. lia.
    - specialize (Hmc x x Hm Hx). unfold precedes in Hmc. lia. }
  assert (forall x, In x m -> In x (a ++ m ++ c)) as Hin by (intros x Hx; rewrite !in_app_iff; tauto).
  split.
  - unfold between. rewrite !List.filter_app, (filter_kept _ m), (filter_dropped _ a), (filter_dropped _ c), app_nil_r; [done| | |].
    + intros x Hx. destruct (Hout x (or_intror Hx)) as [H1 H2]. apply not_true_iff_false. by rewrite Hb.
    + intros x Hx. destruct (Hout x (or_introl Hx)) as [H1 H2]. apply not_true_iff_false. by rewrite Hb.
    + intros x Hx. by apply Hb; [|apply Hin|].
  - apply filter_middle.
    + intros x Hx. destruct (Hout x Hx) as [H1 H2]. apply negb_true_iff, not_true_iff_false. by rewrite Hb.
    + intros x Hx. apply negb_false_iff. by apply Hb; [|apply Hin|].
Qed.

(** A range that fits between its neighbours is added as it is. *)
Lemma add_fits a b r v : disjoint_ranges (a ++ b) -> mBegin r < mEnd r ->
  (forall x, In x a -> mEnd x.1 <= mBegin r) -> (forall x, In x b -> mEnd r <= mBegin x.1) ->
  (add r v (a ++ b)).2 = a ++ (r, v) :: b.
Proof.
  intros Hl Hr Ha Hb. pose proof Hl as (Hla & Hlb & _)%disjoint_app.
  assert (endsAfter (mBegin r) (a ++ b) = head b) as E.
  { unfold endsAfter. induction a as [|x a IH]; cbn [app List.find].
    - destruct b as [|x b]; [done|]. cbn [List.find head]. pose proof (nonempty_in _ x Hlb (or_introl eq_refl)).
      specialize (Hb x (or_introl eq_refl)). by rewrite (proj2 (Z.ltb_lt _ _)) by lia.
    - rewrite (proj2 (Z.ltb_ge _ _)) by (apply Ha; by left). apply disjoint_cons in Hl as (_ & Hl & _). apply disjoint_cons in Hla as (_ & Hla & _).
      apply IH; [done| |done]. intros y Hy. apply Ha. by right. }
  assert (forall x, In x a -> mBegin x.1 <= mBegin r) as Ha'.
  { intros x Hx. specialize (Ha x Hx). pose proof (nonempty_in _ x Hla Hx). lia. }
  unfold add. rewrite E. destruct b as [|o b]; cbn [head].
  - cbn [snd]. by apply insert_split.
  - pose proof (Hb o (or_introl eq_refl)) as Ho. rewrite (proj2 (Z.leb_gt _ _)) by lia. cbn [snd]. rewrite Z.min_l by lia.
    replace (MkFileRange (mBegin r) (mEnd r)) with r by by destruct r. apply insert_split; [done|].
    intros x Hx. specialize (Hb x Hx). cbn [fst]. lia.
Qed.

End lists.
(** *** Ranges on disk *)

Section disk.
Import Ranges.
Implicit Types (l a b c m : FileContext.RangeSet) (x y e : FileRange * unit).

(** What [updateRanges] does to the ranges: those that touch the new one are merged
    with it. *)
Definition merged (range : FileRange) l : FileContext.RangeSet :=
  let '(begin, end_) := find (extend range 1) l in
  (add (FileContext.effective range l) tt (remove_between begin end_ l)).2.

Lemma extend_1 r : 0 <= mBegin r < mEnd r -> mEnd r < 2 ^ 63 ->
  extend r 1 = MkFileRange (mBegin r - Z.min 1 (mBegin r)) (mEnd r + 1).
Proof.
  intros Hb He. unfold extend, new. rewrite wrapu_id by lia. f_equal; lia.
Qed.

(** The hull of a range and of those that touch it. *)
Lemma effective_hull a m c r : disjoint_ranges (a ++ m ++ c) -> 0 <= mBegin r < mEnd r -> mEnd r < 2 ^ 63 ->
  find (extend r 1) (a ++ m ++ c) = (head m, match m with [] => None | _ => head c end) ->
  FileContext.effective r (a ++ m ++ c) =
    match head m, last m with
    | Some b, Some x => MkFileRange (Z.min (mBegin b.1) (mBegin r)) (Z.max (mEnd x.1) (Z.max (mEnd b.1) (mEnd r)))
    | _, _ => r
    end.
Proof.
  intros Hl Hr He E. unfold FileContext.effective. rewrite E. destruct m as [|b m]; cbn [head]; [done|].
  assert (exists x, last (b :: m) = Some x) as [x Ex] by (destruct (last (b :: m)) eqn:El; [by eexists|by apply last_None in El]).
  rewrite Ex. destruct c as [|e c]; cbn [head].
  - rewrite app_nil_r, last_app, Ex. done.
  - unfold prev. rewrite (app_assoc a (b :: m) (e :: c)), List.filter_app.
    rewrite (filter_kept _ (a ++ b :: m)), (filter_dropped _ (e :: c)), app_nil_r, last_app, Ex; [done| |].
    + rewrite app_assoc in Hl. apply disjoint_app in Hl as (_ & (He' & _ & Hec)%disjoint_cons & _).
      intros y [<-|Hy]; apply Z.ltb_ge; [lia|]. specialize (Hec y Hy). unfold precedes, nonempty in *. lia.
    + intros y Hy. apply Z.ltb_lt. rewrite app_assoc in Hl. pose proof (nonempty_in _ y Hl ltac:(apply in_app_iff; by left)).
      apply disjoint_app in Hl as (_ & _ & Hl). specialize (Hl y e Hy (or_introl eq_refl)). unfold precedes in Hl. lia.
Qed.

Lemma separated_app a b : StronglySorted separated (a ++ b) <->
  StronglySorted separated a /\ StronglySorted separated b /\ forall x y, In x a -> In y b -> separated x y.
Proof.
  induction a as [|z a IH]; cbn [app].
  - split; [intros H; split_and!; [constructor|done|by intros ? ? []]|by intros (_ & H & _)].
  - split.
    + intros [Hs Hz]%StronglySorted_inv. apply IH in Hs as (Ha & Hb & Hab). apply Forall_app in Hz as [Hza Hzb].
      split_and!; [by constructor|done|]. intros x y [<-|Hx] Hy; [|by apply Hab]. rewrite List.Forall_forall in Hzb. by apply Hzb.
    + intros ([Ha Hz]%StronglySorted_inv & Hb & Hab). constructor.
      * apply IH. split_and!; [done|done|]. intros x y Hx. apply Hab. by right.
      * apply Forall_app. split; [done|]. apply List.Forall_forall. intros y Hy. apply Hab; [by left|done].
Qed.

Definition hull m r : FileRange :=
  match head m, last m with
  | Some b, Some x => MkFileRange (Z.min (mBegin b.1) (mBegin r)) (Z.max (mEnd x.1) (Z.max (mEnd b.1) (mEnd r)))
  | _, _ => r
  end.

Lemma in_hull m r y : disjoint_ranges m -> In y m -> mBegin (hull m r) <= mBegin y.1 /\ mEnd y.1 <= mEnd (hull m r).
Proof.
  intros Hm Hy. unfold hull. destruct m as [|b m]; [done|]. cbn [head].
  destruct (last (b :: m)) as [x|] eqn:Ex; [|by apply last_None in Ex]. cbn [mBegin mEnd]. split.
  - apply disjoint_cons in Hm as (Hb & _ & Hbm). destruct Hy as [<-|Hy]; [lia|]. specialize (Hbm y Hy). unfold precedes, nonempty in *. lia.
  - apply last_Some in Ex as [m' Em]. rewrite Em in Hm, Hy. apply disjoint_app in Hm as (_ & (Hx & _)%disjoint_cons & Hmx).
    apply in_app_iff in Hy as [Hy|[<-|[]]]; [|lia]. specialize (Hmx y x Hy (or_introl eq_refl)). unfold precedes, nonempty in *. lia.
Qed.

Lemma hull_positions m r p : disjoint_ranges m -> mBegin r < mEnd r ->
  (forall y, In y m -> mBegin r <= mEnd y.1 /\ mBegin y.1 <= mEnd r) ->
  mBegin (hull m r) <= mBegin r /\ mEnd r <= mEnd (hull m r)
  /\ (mBegin (hull m r) <= p < mEnd (hull m r) <-> (mBegin r <= p < mEnd r) \/ exists y, In y m /\ mBegin y.1 <= p < mEnd y.1).
Proof.
  intros Hm Hr Ht. assert (mBegin (hull m r) <= mBegin r /\ mEnd r <= mEnd (hull m r)) as Hb.
  { unfold hull. destruct (head m), (last m); cbn [mBegin mEnd]; lia. }
  split; [apply Hb|]. split; [apply Hb|]. split.
  - unfold hull. destruct m as [|b m]; cbn [head]; [by left|].
    destruct (last (b :: m)) as [x|] eqn:Ex; [|by left]. cbn [mBegin mEnd]. intros Hp.
    assert (In x (b :: m)) as Hx by (apply last_Some in Ex as [m' ->]; apply in_app_iff; right; by left).
    pose proof (Ht x Hx). pose proof (Ht b (or_introl eq_refl)). pose proof (nonempty_in _ x Hm Hx). pose proof (nonempty_in _ b Hm (or_introl eq_refl)).
    destruct (decide (mBegin r <= p < mEnd r)); [by left|]. right.
    destruct (decide (mBegin b.1 <= p < mEnd b.1)); [exists b; split; [by left|done]|]. exists x. split; [done|lia].
  - intros [Hp|(y & Hy & Hp)]; [lia|]. pose proof (in_hull m r y Hm Hy). lia.
Qed.

Lemma merged_spec l r : disjoint_ranges l -> StronglySorted separated l -> (forall e, In e l -> 0 <= mBegin e.1) ->
  0 <= mBegin r < mEnd r -> mEnd r < 2 ^ 63 ->
  exists a m c, l = a ++ m ++ c /\ merged r l = a ++ (hull m r, tt) :: c /\ FileContext.effective r l = hull m r
    /\ (forall y, In y m -> mBegin r <= mEnd y.1 /\ mBegin y.1 <= mEnd r)
    /\ (forall x, In x a -> mEnd x.1 < mBegin (hull m r)) /\ (forall x, In x c -> mEnd (hull m r) < mBegin x.1).
Proof.
  intros Hl Hs Hpos Hr He. assert (mBegin (extend r 1) <= mEnd (extend r 1)) as Hx by (rewrite extend_1 by done; cbn [mBegin mEnd]; lia).
  destruct (find_cases l (extend r 1) Hl Hx) as (a & m & c & -> & Ha & Hm & Hc & E).
  pose proof (effective_hull a m c r Hl Hr He E) as Eeff. destruct (between_split a m c Hl) as [_ Erem].
  rewrite extend_1 in Ha, Hm, Hc by done. cbn [mBegin mEnd] in Ha, Hm, Hc. fold (hull m r) in Eeff.
  exists a, m, c. apply separated_app in Hs as (_ & (_ & _ & Hmc)%separated_app & Hamc).
  assert (forall y, In y m -> mBegin r <= mEnd y.1 /\ mBegin y.1 <= mEnd r) as Ht by (intros y Hy; pose proof (Hm y Hy); lia).
  pose proof Hl as (_ & (Hdm & _)%disjoint_app & _)%disjoint_app. pose proof (hull_positions m r (mBegin r) Hdm ltac:(lia) Ht) as (Hb & Hend & _).
  assert (forall x, In x a -> mEnd x.1 < mBegin (hull m r)) as Ha'.
  { intros x Hxa. pose proof (Ha x Hxa). pose proof (nonempty_in _ x Hl ltac:(apply in_app_iff; by left)).
    pose proof (Hpos x ltac:(apply in_app_iff; by left)). unfold hull. destruct (head m) as [b|] eqn:Eb; [|lia].
    destruct (last m); [|lia]. cbn [mBegin]. destruct m as [|b' m]; [done|]. injection Eb as ->.
    pose proof (Hamc x b Hxa (or_introl eq_refl)) as Hs. unfold separated in Hs. lia. }
  assert (forall x, In x c -> mEnd (hull m r) < mBegin x.1) as Hc'.
  { intros x Hxc. pose proof (Hc x Hxc). unfold hull. destruct (head m) as [b|] eqn:Eb; [|lia].
    destruct (last m) as [y|] eqn:Ey; [|lia]. cbn [mEnd]. apply last_Some in Ey as [m' ->].
    pose proof (Hmc y x ltac:(apply in_app_iff; right; by left) Hxc) as Hs. unfold separated in Hs.
    assert (In b (m' ++ [y])) as Hin by (destruct m'; injection Eb as ->; by left).
    pose proof (Hmc b x Hin Hxc) as Hs'. unfold separated in Hs'. lia. }
  split_and!; try done. unfold merged. rewrite E, Erem, Eeff. apply add_fits.
  - by apply disjoint_remove with (m := m).
  - lia.
  - intros x Hxa. specialize (Ha' x Hxa). lia.
  - intros x Hxc. specialize (Hc' x Hxc). lia.
Qed.

Lemma merged_disjoint l r : disjoint_ranges l -> StronglySorted separated l -> (forall e, In e l -> 0 <= mBegin e.1) ->
  0 <= mBegin r < mEnd r -> mEnd r < 2 ^ 63 ->
  disjoint_ranges (merged r l) /\ StronglySorted separated (merged r l)
  /\ forall p, FileContext.covered p (merged r l) = true <-> (mBegin r <= p < mEnd r) \/ FileContext.covered p l = true.
Proof.
  intros Hl Hs Hpos Hr He. destruct (merged_spec l r Hl Hs Hpos Hr He) as (a & m & c & -> & -> & _ & Ht & Ha & Hc).
  pose proof Hl as (_ & (Hdm & _)%disjoint_app & _)%disjoint_app.
  assert (disjoint_ranges (a ++ (hull m r, tt) :: c)) as Hd.
  { pose proof (hull_positions m r 0 Hdm ltac:(lia) Ht) as (Hb & Hend & _).
    apply disjoint_insert; [by apply disjoint_remove with (m := m)|unfold nonempty; cbn [fst]; lia| |]; cbn [fst]; intros x Hx;
      [specialize (Ha x Hx)|specialize (Hc x Hx)]; lia. }
  split; [done|]. split.
  - apply separated_app in Hs as (Hsa & (_ & Hsc & _)%separated_app & Hamc). apply separated_app. split; [done|]. split.
    + constructor; [done|]. apply List.Forall_forall. intros y Hy. by apply Hc.
    + intros x y Hx [<-|Hy]; [by apply Ha|]. apply Hamc; [done|]. apply in_app_iff. by right.
  - intros p. rewrite !covered_iff by done. pose proof (hull_positions m r p Hdm ltac:(lia) Ht) as (_ & _ & Hp). split.
    + intros (e & [He'|[<-|He']]%in_app_iff & Hpe).
      * right. exists e. split; [apply in_app_iff; by left|done].
      * cbn [fst] in Hpe. apply Hp in Hpe as [Hpe|(y & Hy & Hpe)]; [by left|]. right. exists y. split; [rewrite !in_app_iff; tauto|done].
      * right. exists e. split; [rewrite !in_app_iff; tauto|done].
    + intros [Hpr|(e & He' & Hpe)].
      * exists (hull m r, tt). split; [apply in_app_iff; right; by left|]. cbn [fst]. apply Hp. by left.
      * apply in_app_iff in He' as [He'|[He'|He']%in_app_iff].
        -- exists e. split; [apply in_app_iff; by left|done].
        -- exists (hull m r, tt). split; [apply in_app_iff; right; by left|]. cbn [fst]. apply Hp. right. by exists e.
        -- exists e. split; [apply in_app_iff; right; by right|done].
Qed.

End disk.
End RangeListFacts.

(** ** Facts about the local file *)

Module BufferFacts.
Import SparseFileBuffer.
Implicit Types (f : list Z) (p : Z).

Lemma byte_at_lookup f p : 0 <= p -> byte_at f p = default 0 (f !! Z.to_nat p).
Proof. intros Hp. unfold byte_at. rewrite (proj2 (Z.ltb_ge _ _)) by done. by rewrite nth_lookup. Qed.

Lemma byte_at_negative f p : p < 0 -> byte_at f p = 0.
Proof. intros Hp. unfold byte_at. by rewrite (proj2 (Z.ltb_lt _ _)). Qed.

Lemma byte_at_behind f p : zlength f <= p -> byte_at f p = 0.
Proof. intros Hp. rewrite byte_at_lookup by lia. rewrite lookup_ge_None_2; [done|lia]. Qed.

Lemma lookup_pad n f i : default 0 (pad n f !! i) = default 0 (f !! i).
Proof.
  unfold pad. destruct (decide (i < length f)%nat) as [Hi|Hi].
  - by rewrite lookup_app_l.
  - rewrite lookup_app_r by lia. rewrite (lookup_ge_None_2 f) by lia.
    destruct (repeat 0 _ !! _) as [x|] eqn:E; [|done]. cbn [default]. apply list_elem_of_lookup_2, list_elem_of_In, repeat_spec in E. done.
Qed.

Lemma length_pad n f : 0 <= n -> n <= zlength (pad n f).
Proof. intros Hn. unfold pad. rewrite length_app, repeat_length. lia. Qed.

Lemma byte_at_truncate n f p : 0 <= n -> byte_at (truncate n f) p = if p <? n then byte_at f p else 0.
Proof.
  intros Hn. destruct (Z.ltb_spec p 0) as [Hp|Hp]; [rewrite !byte_at_negative by done; by destruct (p <? n)|].
  rewrite !byte_at_lookup by done. unfold truncate. destruct (Z.ltb_spec p n) as [Hpn|Hpn].
  - rewrite lookup_take_lt by lia. apply lookup_pad.
  - by rewrite lookup_take_ge by lia.
Qed.

Lemma write_spec limit bytes offset f : 0 <= offset ->
  let '(count, f') := write limit bytes offset f in
  count = Z.max 0 (Z.min (limit - offset) (zlength bytes))
  /\ forall p, byte_at f' p = if (offset <=? p) && (p <? offset + count) then nth (Z.to_nat (p - offset)) bytes 0 else byte_at f p.
Proof.
  intros Ho. unfold write. set (count := Z.max 0 (Z.min (limit - offset) (zlength bytes))).
  destruct (Z.eqb_spec count 0) as [Hc|Hc].
  - split; [done|]. intros p. destruct (_ && _) eqn:E; [|done]. apply andb_true_iff in E as [E1%Z.leb_le E2%Z.ltb_lt]. lia.
  - split; [done|]. intros p. destruct (Z.ltb_spec p 0) as [Hp|Hp].
    { rewrite (proj2 (Z.leb_gt _ _)) by lia. cbn [andb]. by rewrite !byte_at_negative. }
    pose proof (length_pad offset f Ho) as Hpad. assert (0 < count <= zlength bytes) as Hcount by lia.
    rewrite !byte_at_lookup by done.
    assert (length (take (Z.to_nat offset) (pad offset f)) = Z.to_nat offset) as L1 by (rewrite length_take; lia).
    assert (length (take (Z.to_nat count) bytes) = Z.to_nat count) as L2 by (rewrite length_take; lia).
    destruct (Z.leb_spec offset p) as [Hop|Hop]; cbn [andb].
    + rewrite lookup_app_r by lia. rewrite L1. destruct (Z.ltb_spec p (offset + count)) as [Hpc|Hpc].
      * rewrite lookup_app_l by lia. rewrite lookup_take_lt by lia. rewrite nth_lookup. do 2 f_equal. lia.
      * rewrite lookup_app_r by lia. rewrite L2, lookup_drop. do 2 f_equal. lia.
    + rewrite lookup_app_l by lia. rewrite lookup_take_lt by lia. apply lookup_pad.
Qed.

Lemma slice_lookup g b e i : slice g b e !! i = if bool_decide (Z.of_nat i < e - b) then Some (g (b + Z.of_nat i)) else None.
Proof.
  unfold slice. rewrite list_lookup_fmap. case_bool_decide as Hi.
  - rewrite lookup_seq_lt by lia. done.
  - rewrite lookup_seq_ge by lia. done.
Qed.

Lemma slice_length g b e : length (slice g b e) = Z.to_nat (e - b).
Proof. unfold slice. by rewrite length_map, length_seq. Qed.

Lemma slice_ext g g' b e : (forall p, b <= p < e -> g p = g' p) -> slice g b e = slice g' b e.
Proof.
  intros Hg. apply list_eq. intros i. rewrite !slice_lookup. case_bool_decide as Hi; [|done]. f_equal. apply Hg. lia.
Qed.

Lemma nth_slice g b e p : b <= p < e -> nth (Z.to_nat (p - b)) (slice g b e) 0 = g p.
Proof.
  intros Hp. rewrite nth_lookup, slice_lookup. rewrite bool_decide_true by lia. cbn [from_option]. unfold id. f_equal. lia.
Qed.

(** A read inside the file gets what is there. *)
Lemma read_spec size b e f : 0 <= b <= e -> e <= size -> read size b (e - b) f = slice (byte_at f) b e.
Proof.
  intros Hb He. unfold read. rewrite (Z.max_r b size), (Z.min_l (e - b) (size - b)) by lia. set (count := Z.min (e - b) (Z.max b (zlength f) - b)).
  assert (0 <= count <= e - b /\ count <= Z.max 0 (zlength f - b) /\ (count < e - b -> zlength f <= b + count)) as Hcount by lia. clearbody count.
  apply list_eq. intros i. rewrite slice_lookup.
  assert (length (take (Z.to_nat count) (drop (Z.to_nat b) f)) = Z.to_nat count) as L by (rewrite length_take, length_drop; lia).
  destruct (decide (Z.of_nat i < count)) as [Hc|Hc].
  - rewrite bool_decide_true, lookup_app_l, lookup_take_lt, lookup_drop, byte_at_lookup by lia.
    replace (Z.to_nat (b + Z.of_nat i)) with (Z.to_nat b + i)%nat by lia.
    destruct (f !! (Z.to_nat b + i)%nat) as [x|] eqn:E; [done|]. apply lookup_ge_None_1 in E. lia.
  - rewrite lookup_app_r, L by lia. case_bool_decide as Hi.
    + rewrite byte_at_behind by lia. change (repeat 0) with (fun n => repeat 0 n). cbn beta.
      destruct (repeat 0 _ !! _) as [x|] eqn:E.
      * apply list_elem_of_lookup_2, list_elem_of_In, repeat_spec in E. by subst.
      * apply lookup_ge_None_1 in E. rewrite repeat_length in E. lia.
    + apply lookup_ge_None_2. rewrite repeat_length. lia.
Qed.

End BufferFacts.

(** ** The invariant *)

Module CacheInvariant.
Import FileRange FileContext SparseFileBuffer RangeFacts RangeListFacts BufferFacts.

(** The ranges on disk lie in the file and do not touch; the database has the same;
    behind the file the buffer is empty. *)
Record disk_ok (size : Z) (buffer : list Z) (ranges : RangeSet) (db : Database) : Prop := {
  disk_size : 0 <= size < 2 ^ 63;
  disk_disjoint : Ranges.disjoint_ranges ranges;
  disk_separated : StronglySorted Ranges.separated ranges;
  disk_inside : forall e, In e ranges -> 0 <= mBegin e.1 /\ mEnd e.1 <= size;
  disk_database : Permutation (db_ranges db) (map fst ranges);
  disk_behind : forall p, size <= p -> byte_at buffer p = 0
}.

(** Downloads lie in the file, and deliver what is missing. *)
Record downloads_ok (size : Z) (ranges : RangeSet) (cloud : Z -> Z) (m : RangeMap) : Prop := {
  dl_disjoint : Ranges.disjoint_ranges m;
  dl_inside : forall e, In e m -> 0 <= mBegin e.1 /\ mEnd e.1 <= size /\ 0 <= d_next e.2;
  dl_source : forall e p, In e m -> 0 <= p < size -> covered p ranges = false -> d_source e.2 p = cloud p
}.

(** A file that is not dirty is the node. *)
Definition clean_ok (dirty : bool) (size : Z) (buffer : list Z) (ranges : RangeSet) (cloud : Z -> Z) : Prop :=
  dirty = false -> forall p, 0 <= p < size -> covered p ranges = true -> byte_at buffer p = cloud p.

(** Reads wait for data that is not on disk. *)
Definition pending_ok (size : Z) (ranges : RangeSet) (pending : list FileReadRequest) : Prop :=
  forall r, In r pending -> 0 <= mBegin (mRange r) < mEnd (mRange r) /\ mEnd (mRange r) <= size /\ covered (mBegin (mRange r)) ranges = false.

(** Reads are completed with what is on disk. *)
Definition done_ok (size : Z) (ranges : RangeSet) (done : list Completion) : Prop :=
  forall r, In (ReadDone r) done -> 0 <= mBegin r <= mEnd r /\ mEnd r <= size
    /\ forall p, mBegin r <= p < mEnd r -> covered p ranges = true.

Definition is_reader (c : Completion) : bool := match c with WriterDone _ => false | _ => true end.
Definition readers (pending : list FileReadRequest) (done : list Completion) (flushing : nat) : Z :=
  Z.of_nat (length pending + length (List.filter is_reader done) + flushing).
Definition writers (done : list Completion) (shrinking : option (Z * Z * list nat)) : Z :=
  Z.of_nat (length (List.filter (fun c => negb (is_reader c)) done)) + (match shrinking with Some _ => 1 | None => 0 end).

(** Any number of readers or one writer. *)
Definition lock_ok (state readers writers : Z) : Prop :=
  (writers = 0 /\ state = - readers) \/ (writers = 1 /\ readers = 0 /\ state = 1).

Definition shrink_ok (size : Z) (shrinking : option (Z * Z * list nat)) (large small : RangeMap) : Prop :=
  forall newSize oldSize ids, shrinking = Some (newSize, oldSize, ids) ->
    0 <= newSize < size /\ oldSize = size /\ forall e, In e large \/ In e small -> In (d_id e.2) ids \/ mEnd e.1 <= newSize.

(** With the reader or writer that is executing and has the lock. *)
Record Inv (executing_reader executing_writer : Z) (s : State) : Prop := {
  inv_disk : disk_ok (mSize s) (mBuffer s) (mOnDisk s) (mDatabase s);
  inv_large : downloads_ok (mSize s) (mOnDisk s) (mCloud s) (mLarge s);
  inv_small : downloads_ok (mSize s) (mOnDisk s) (mCloud s) (mSmall s);
  inv_clean : clean_ok (mDirty s) (mSize s) (mBuffer s) (mOnDisk s) (mCloud s);
  inv_pending : pending_ok (mSize s) (mOnDisk s) (mPendingReadRequests s);
  inv_done : done_ok (mSize s) (mOnDisk s) (mCompleted s);
  inv_lock : lock_ok (mReadWriteState s) (executing_reader + readers (mPendingReadRequests s) (mCompleted s) (mFlushing s))
               (executing_writer + writers (mCompleted s) (mShrinking s));
  inv_shrink : shrink_ok (mSize s) (mShrinking s) (mLarge s) (mSmall s);
  inv_cancels : forall r, In r (mCancels s) -> mBegin r <= mEnd r
}.

(** The cache stands for a file. *)
Definition abstracts (s : State) (f : File) : Prop :=
  f_size f = mSize s /\ forall p, 0 <= p < mSize s -> file_content s p = f_bytes f p.

(** *** Writing to the disk *)

Lemma updated_database ranges r db : Ranges.disjoint_ranges ranges -> StronglySorted Ranges.separated ranges ->
  (forall e, In e ranges -> 0 <= mBegin e.1) -> 0 <= mBegin r < mEnd r -> mEnd r < 2 ^ 63 -> Permutation (db_ranges db) (map fst ranges) ->
  Permutation (db_ranges (addRange (effective r ranges) (removeRanges (effective r ranges) db))) (map fst (merged r ranges)).
Proof.
  intros Hd Hs Hpos Hr He Hdb. destruct (merged_spec ranges r Hd Hs Hpos Hr He) as (a & m & c & -> & -> & -> & Ht & Ha & Hc).
  cbn [db_ranges addRange removeRanges]. pose proof Hd as (_ & (Hdm & _)%disjoint_app & _)%disjoint_app.
  set (Q := fun x : FileRange => negb ((mBegin (hull m r) <=? mBegin x) && (mEnd x <=? mEnd (hull m r)))).
  assert (Permutation (List.filter Q (db_ranges db)) (List.filter Q (map fst (a ++ m ++ c)))) as Hp by by apply filter_permutation.
  assert (List.filter Q (map fst (a ++ m ++ c)) = map fst (a ++ c)) as E.
  { assert (forall l : RangeSet, (forall x, In x l -> Q x.1 = true) -> List.filter Q (map fst l) = map fst l) as Hkeep.
    { intros l. induction l as [|x l IH]; intros Hl; [done|]. cbn [map List.filter]. rewrite (Hl x) by by left. f_equal. apply IH. intros y Hy. apply Hl. by right. }
    assert (List.filter Q (map fst m) = []) as Hdrop.
    { clear - Hdm. assert (forall y, In y m -> Q y.1 = false) as Hq.
      { intros y Hy. pose proof (in_hull m r y Hdm Hy) as [H1 H2]. unfold Q. by rewrite !(proj2 (Z.leb_le _ _)). }
      clearbody Q. clear Hdm. induction m as [|x m IH]; [done|]. cbn [map List.filter]. rewrite (Hq x) by by left. apply IH. intros y Hy. apply Hq. by right. }
    rewrite !map_app, !List.filter_app, Hdrop, !Hkeep; [done| |]; intros x Hx; unfold Q; apply negb_true_iff, andb_false_iff.
    - right. apply Z.leb_gt. specialize (Hc x Hx). pose proof (nonempty_in _ x Hd ltac:(rewrite !in_app_iff; tauto)). lia.
    - left. apply Z.leb_gt. specialize (Ha x Hx). pose proof (nonempty_in _ x Hd ltac:(rewrite !in_app_iff; tauto)). lia. }
  rewrite Hp, E, !map_app. cbn [map fst]. rewrite <- app_assoc. apply Permutation_app_head. symmetry. apply Permutation_cons_append.
Qed.

Lemma updated_disk size buffer ranges db r buffer' :
  disk_ok size buffer ranges db -> 0 <= mBegin r < mEnd r -> mEnd r < 2 ^ 63 ->
  (forall p, Z.max size (mEnd r) <= p -> byte_at buffer' p = byte_at buffer p) ->
  let r' := MkFileRange (Z.min (mBegin r) size) (mEnd r) in
  disk_ok (Z.max size (mEnd r)) buffer' (merged r' ranges)
    (updateSize (Z.max size (mEnd (effective r' ranges))) (addRange (effective r' ranges) (removeRanges (effective r' ranges) db)))
  /\ forall p, covered p (merged r' ranges) = true <-> (Z.min (mBegin r) size <= p < mEnd r) \/ covered p ranges = true.
Proof.
  intros [H1 H2 H3 H4 H5 H6] Hr He Hb r'. assert (0 <= mBegin r' < mEnd r') as Hr' by (subst r'; cbn [mBegin mEnd]; lia).
  assert (forall e, In e ranges -> 0 <= mBegin e.1) as Hpos by (intros e Hin; by apply H4).
  destruct (merged_disjoint ranges r' H2 H3 Hpos Hr' He) as (D1 & D2 & D3). split; [|exact D3]. split; [lia|done|done| | |].
  - intros e Hin. destruct (merged_spec ranges r' H2 H3 Hpos Hr' He) as (a & m & c & El & Em & _ & Ht & _). rewrite Em in Hin.
    assert (forall x, In x m -> 0 <= mBegin x.1 /\ mEnd x.1 <= size) as Hm by (intros x Hx; apply H4; rewrite El, !in_app_iff; tauto).
    apply in_app_iff in Hin as [Hin|[<-|Hin]].
    + assert (In e ranges) as Hin' by (rewrite El, in_app_iff; by left). specialize (H4 e Hin'). lia.
    + cbn [fst]. unfold hull. destruct (head m) as [b|] eqn:Eb; [|subst r'; cbn [mBegin mEnd] in *; lia].
      destruct (last m) as [x|] eqn:Ex; [|subst r'; cbn [mBegin mEnd] in *; lia]. cbn [mBegin mEnd].
      assert (In b m) as Hbm by (destruct m; [done|]; injection Eb as ->; by left).
      apply last_Some in Ex as [m' Ex]. assert (In x m) as Hxm by (rewrite Ex, in_app_iff; right; by left).
      pose proof (Hm b Hbm). pose proof (Hm x Hxm). subst r'. cbn [mBegin mEnd] in *. lia.
    + assert (In e ranges) as Hin' by (rewrite El, !in_app_iff; tauto). specialize (H4 e Hin'). lia.
  - by apply updated_database.
  - intros p Hp. rewrite Hb by done. apply H6. lia.
Qed.

Lemma updateRanges_fields r s : let r' := MkFileRange (Z.min (mBegin r) (mSize s)) (mEnd r) in
  updateRanges r s = set_disk (mSize s) (mDirty s) (mBuffer s) (merged r' (mOnDisk s))
    (updateSize (Z.max (mSize s) (mEnd (effective r' (mOnDisk s))))
       (addRange (effective r' (mOnDisk s)) (removeRanges (effective r' (mOnDisk s)) (mDatabase s)))) s.
Proof. unfold updateRanges, merged. cbn zeta. by destruct (Ranges.find _ _). Qed.

(** *** Serving reads *)

Lemma filter_split {A} (Q : A -> bool) (l : list A) :
  (length (List.filter Q l) + length (List.filter (fun x => negb (Q x)) l) = length l)%nat.
Proof. induction l as [|x l IH]; cbn [List.filter length]; [done|]. destruct (Q x); cbn [negb length]; lia. Qed.

Lemma filter_map {A B} (Q : B -> bool) (g : A -> B) (l : list A) (v : bool) :
  (forall x, Q (g x) = v) -> List.filter Q (map g l) = if v then map g l else [].
Proof. intros Hg. induction l as [|x l IH]; cbn [map List.filter]; [by destruct v|]. rewrite Hg, IH. by destruct v. Qed.

(** Some waiting reads are completed: the lock stays as it is. *)
Lemma served_readers (Q : FileReadRequest -> bool) (g : FileReadRequest -> Completion) pending done flushing shrinking :
  (forall r, is_reader (g r) = true) ->
  readers (List.filter (fun r => negb (Q r)) pending) (done ++ map g (List.filter Q pending)) flushing = readers pending done flushing
  /\ writers (done ++ map g (List.filter Q pending)) shrinking = writers done shrinking.
Proof.
  intros Hg. unfold readers, writers. rewrite !List.filter_app, !length_app.
  rewrite (filter_map is_reader g _ true Hg), (filter_map (fun c => negb (is_reader c)) g _ false) by (intros r; by rewrite Hg).
  rewrite length_map. cbn [length]. pose proof (filter_split Q pending). lia.
Qed.

Lemma pending_filter size ranges ranges' pending (Q : FileReadRequest -> bool) :
  pending_ok size ranges pending ->
  (forall r, In r pending -> Q r = true -> covered (mBegin (mRange r)) ranges = false -> covered (mBegin (mRange r)) ranges' = false) ->
  pending_ok size ranges' (List.filter Q pending).
Proof. intros Hp Hc r [Hr HQ]%in_filter. destruct (Hp r Hr) as (H1 & H2 & H3). split_and!; [apply H1|apply H1|done|by apply Hc]. Qed.

Lemma done_more size size' ranges ranges' done :
  done_ok size ranges done -> size <= size' -> (forall p, covered p ranges = true -> covered p ranges' = true) -> done_ok size' ranges' done.
Proof. intros Hd Hs Hc r Hr. destruct (Hd r Hr) as (H1 & H2 & H3). split_and!; [lia|lia|lia|]. intros p Hp. by apply Hc, H3. Qed.

Lemma done_app size ranges done done' : done_ok size ranges (done ++ done') <-> done_ok size ranges done /\ done_ok size ranges done'.
Proof.
  unfold done_ok. split.
  - intros H. split; intros r Hr; apply H, in_app_iff; auto.
  - intros [H1 H2] r [Hr|Hr]%in_app_iff; auto.
Qed.

Lemma done_other size ranges c : (forall r, c <> ReadDone r) -> done_ok size ranges [c].
Proof. intros Hc r [E|[]]. by destruct (Hc r). Qed.

Lemma failed_inv er ew range result s : Inv er ew s -> Inv er ew (failed range result s).
Proof.
  intros [I1 I2 I3 I4 I5 I6 I7 I8 I9]. unfold failed. rewrite partition_as_filter.
  destruct (served_readers (failing range s) (fun _ => ReaderDone result) (mPendingReadRequests s) (mCompleted s) (mFlushing s) (mShrinking s)) as [R W]; [done|].
  split; cbn; try done.
  - apply (pending_filter _ _ _ _ _ I5). done.
  - apply done_app. split; [done|]. intros r (x & E & _)%in_map_iff. done.
  - by rewrite R, W.
Qed.

Lemma completed_inv er c s : Inv (er + 1) 0 s -> is_reader c = true -> done_ok (mSize s) (mOnDisk s) [c] -> Inv er 0 (completed c s).
Proof.
  intros [I1 I2 I3 I4 I5 I6 I7 I8 I9] Hc Hd. split; cbn; try done.
  - by apply done_app.
  - unfold readers, writers in *. rewrite !List.filter_app, !length_app. cbn [List.filter]. rewrite Hc. cbn [negb length].
    unfold lock_ok in *. lia.
Qed.

Lemma completed_writer c s : Inv 0 1 s -> is_reader c = false -> Inv 0 0 (completed c s).
Proof.
  intros [I1 I2 I3 I4 I5 I6 I7 I8 I9] Hc. split; cbn; try done.
  - apply done_app. split; [done|]. apply done_other. by intros r ->.
  - unfold readers, writers in *. rewrite !List.filter_app, !length_app. cbn [List.filter]. rewrite Hc. cbn [negb length].
    unfold lock_ok in *. lia.
Qed.

(** *** Data of a download *)

Lemma gaps_from_bounds (l : RangeSet) : forall b q, Ranges.disjoint_ranges l ->
  StronglySorted (fun g h => mEnd g <= mBegin h) (Ranges.gaps_from b q l)
  /\ forall g, In g (Ranges.gaps_from b q l) -> b <= mBegin g < mEnd g /\ mEnd g <= q.
Proof.
  assert (forall b q, b < q -> StronglySorted (fun g h => mEnd g <= mBegin h) [MkFileRange b q]
    /\ forall g, In g [MkFileRange b q] -> b <= mBegin g < mEnd g /\ mEnd g <= q) as Hone.
  { intros b q Hq. split; [repeat constructor|]. intros g [<-|[]]. cbn [mBegin mEnd]. lia. }
  induction l as [|e l IH]; intros b q Hl; cbn [Ranges.gaps_from].
  - destruct (Z.leb_spec q b); [by split; [constructor|intros ? []]|by apply Hone].
  - apply disjoint_cons in Hl as (He & Hl & Hel). unfold Ranges.nonempty in He.
    destruct (Z.leb_spec q b); [by split; [constructor|intros ? []]|].
    destruct (Z.leb_spec (mEnd e.1) b); [by apply IH|]. destruct (Z.leb_spec q (mBegin e.1)); [by apply Hone|].
    destruct (IH (mEnd e.1) q Hl) as [S1 S2]. destruct (Z.ltb_spec b (mBegin e.1)) as [Hb|Hb].
    + split.
      * constructor; [done|]. apply List.Forall_forall. intros g Hg. specialize (S2 g Hg). cbn [mEnd]. lia.
      * intros g [<-|Hg]; [cbn [mBegin mEnd]; lia|]. specialize (S2 g Hg). lia.
    + split; [done|]. intros g Hg. specialize (S2 g Hg). lia.
Qed.

Lemma write_gaps_spec limit source gs : forall e buffer q,
  StronglySorted (fun g h => mEnd g <= mBegin h) gs -> (forall g, In g gs -> 0 <= mBegin g < mEnd g /\ e <= mBegin g /\ mEnd g <= q) -> e <= q ->
  let '(e', all, buffer') := write_gaps limit source gs e buffer in
  e <= e' <= q
  /\ (all = true -> forall g, In g gs -> mEnd g <= e')
  /\ (forall p g, In g gs -> mBegin g <= p < mEnd g -> p < e' -> byte_at buffer' p = source p)
  /\ (forall p, (forall g, In g gs -> mBegin g <= p < mEnd g -> e' <= p) -> byte_at buffer' p = byte_at buffer p).
Proof.
  induction gs as [|g gs IH]; intros e buffer q Hs Hg Hq; cbn [write_gaps]; [split_and!; [lia|lia|by intros ? ?|by intros ? ? []|done]|].
  apply StronglySorted_inv in Hs as [Hs Hgs]. rewrite List.Forall_forall in Hgs. pose proof (Hg g (or_introl eq_refl)) as (Hg0 & Heg & Hgq).
  pose proof (write_spec limit (slice source (mBegin g) (mEnd g)) (mBegin g) buffer ltac:(lia)) as Hw.
  destruct (write _ _ _ buffer) as [count buffer1]. destruct Hw as [Hc Hw]. rewrite slice_length in Hc.
  assert (0 <= count <= mEnd g - mBegin g) as Hcount by lia.
  assert (forall p, mBegin g <= p < mBegin g + count -> byte_at buffer1 p = source p) as Hin.
  { intros p Hp. rewrite Hw, (proj2 (Z.leb_le _ _)), (proj2 (Z.ltb_lt _ _)) by lia. cbn [andb]. apply nth_slice. lia. }
  assert (forall p, ~ (mBegin g <= p < mBegin g + count) -> byte_at buffer1 p = byte_at buffer p) as Hout.
  { intros p Hp. rewrite Hw. destruct (Z.leb_spec (mBegin g) p), (Z.ltb_spec p (mBegin g + count)); cbn [andb]; try done. lia. }
  destruct (Z.ltb_spec count (mEnd g - mBegin g)) as [Hshort|Hfull].
  - split_and!; [lia|lia|done| |].
    + intros p h [<-|Hh] Hp He'; [apply Hin; lia|]. specialize (Hgs h Hh). lia.
    + intros p Hp. apply Hout. intros Hpg. specialize (Hp g (or_introl eq_refl) ltac:(lia)). lia.
  - specialize (IH (mBegin g + count) buffer1 q Hs).
    assert (forall h, In h gs -> 0 <= mBegin h < mEnd h /\ mBegin g + count <= mBegin h /\ mEnd h <= q) as Hrest.
    { intros h Hh. pose proof (Hg h (or_intror Hh)). specialize (Hgs h Hh). lia. }
    specialize (IH Hrest ltac:(lia)). destruct (write_gaps limit source gs (mBegin g + count) buffer1) as [[e' all] buffer'].
    destruct IH as (I1 & I2 & I3 & I4). split_and!; [lia|lia| | |].
    + intros Hall h [<-|Hh]; [lia|by apply I2].
    + intros p h [<-|Hh] Hp He'; [|by apply (I3 p h)]. rewrite I4; [apply Hin; lia|].
      intros k Hk Hpk. specialize (Hgs k Hk). lia.
    + intros p Hp. rewrite I4; [|intros h Hh; apply Hp; by right]. apply Hout. intros Hpg.
      specialize (Hp g (or_introl eq_refl) ltac:(lia)). lia.
Qed.

(** A download changes in place. *)
Lemma modify_in id f m e : In e (modify_download id f m) -> exists d, In (e.1, d) m /\ (e.2 = d \/ (d_id d = id /\ e.2 = f d)).
Proof.
  unfold modify_download. intros ([r d] & <- & Hin)%in_map_iff. cbn [snd fst].
  destruct (Nat.eqb_spec (d_id d) id); exists d; (split; [done|]); [by right|by left].
Qed.

Lemma modify_fst id f m : map fst (modify_download id f m) = map fst m.
Proof. unfold modify_download. rewrite map_map. apply map_ext. intros [r d]. cbn [snd fst]. by destruct (Nat.eqb (d_id d) id). Qed.

Lemma disjoint_fst {V W} (m : list (FileRange * V)) (m' : list (FileRange * W)) : map fst m = map fst m' -> Ranges.disjoint_ranges m -> Ranges.disjoint_ranges m'.
Proof.
  revert m'. induction m as [|e m IH]; intros [|e' m']; cbn [map]; intros E Hd; [by split; constructor|discriminate E|discriminate E|].
  injection E as He Hm. apply disjoint_cons in Hd as (H1 & H2 & H3). apply disjoint_cons. split_and!; [by unfold Ranges.nonempty in *; rewrite <- He|by apply IH|].
  intros y Hy. assert (In y.1 (map fst m)) as Hin by (rewrite Hm; by apply in_map).
  apply in_map_iff in Hin as (x & Ex & Hx). specialize (H3 x Hx). unfold Ranges.precedes in *. by rewrite <- He, <- Ex.
Qed.

Lemma modify_ok size ranges cloud id f m :
  (forall d, d_source (f d) = d_source d /\ (0 <= d_next d -> 0 <= d_next (f d))) ->
  downloads_ok size ranges cloud m -> downloads_ok size ranges cloud (modify_download id f m).
Proof.
  intros Hf [H1 H2 H3]. split.
  - eapply disjoint_fst; [|exact H1]. symmetry. apply modify_fst.
  - intros e (d & Hin & Hd)%modify_in. specialize (H2 (e.1, d) Hin). cbn [fst snd] in H2. split_and!; [apply H2|apply H2|].
    destruct Hd as [->|[_ ->]]; [apply H2|apply Hf, H2].
  - intros e p (d & Hin & Hd)%modify_in Hp Hc. specialize (H3 (e.1, d) p Hin Hp Hc). cbn [snd] in H3.
    destruct Hd as [->|[_ ->]]; [done|by rewrite (proj1 (Hf d))].
Qed.

Lemma modify_shrink size shrinking id f large small :
  (forall d, d_id (f d) = d_id d) -> shrink_ok size shrinking large small ->
  shrink_ok size shrinking (modify_download id f large) (modify_download id f small).
Proof.
  intros Hf Hs n o ids E. destruct (Hs n o ids E) as (H1 & H2 & H3). split_and!; [apply H1|apply H1|done|].
  intros e [Hin|Hin]; apply modify_in in Hin as (d & Hin & Hd);
    (destruct (H3 (e.1, d)) as [H4|H4]; [auto| |by right]; left; cbn [snd] in H4; destruct Hd as [->|[_ ->]]; [done|by rewrite Hf]).
Qed.

Lemma modify_inv er ew id f s :
  (forall d, d_source (f d) = d_source d /\ (0 <= d_next d -> 0 <= d_next (f d)) /\ d_id (f d) = d_id d) ->
  Inv er ew s -> Inv er ew (modify_downloads id f s).
Proof.
  intros Hf [I1 I2 I3 I4 I5 I6 I7 I8 I9]. split; cbn; try done.
  - apply modify_ok; [|done]. intros d. split; apply Hf.
  - apply modify_ok; [|done]. intros d. split; apply Hf.
  - apply modify_shrink; [|done]. intros d. apply Hf.
Qed.

(** More on disk: the rest of the state stays in order. *)
Lemma downloads_more size size' ranges ranges' cloud m :
  downloads_ok size ranges cloud m -> size <= size' ->
  (forall p, 0 <= p < size' -> covered p ranges' = false -> p < size /\ covered p ranges = false) ->
  downloads_ok size' ranges' cloud m.
Proof.
  intros [H1 H2 H3] Hs Hc. split; [done| |].
  - intros e He. specialize (H2 e He). lia.
  - intros e p He Hp Hcp. destruct (Hc p Hp Hcp). apply H3; [done|lia|done].
Qed.

Lemma covered_false {p} {l l' : RangeSet} {P : Prop} :
  (covered p l' = true <-> P \/ covered p l = true) -> covered p l' = false <-> ~ P /\ covered p l = false.
Proof. intros H. destruct (covered p l'), (covered p l); intuition congruence. Qed.

Lemma buffer_inv er ew buffer s : Inv er ew s ->
  (forall p, 0 <= p < mSize s -> covered p (mOnDisk s) = true -> byte_at buffer p = byte_at (mBuffer s) p) ->
  (forall p, mSize s <= p -> byte_at buffer p = byte_at (mBuffer s) p) ->
  Inv er ew (set_buffer buffer s).
Proof.
  intros [[D1 D2 D3 D4 D5 D6] I2 I3 I4 I5 I6 I7 I8 I9] HC HO. split; cbn; try done.
  - split; try done. intros p Hp. rewrite HO by done. by apply D6.
  - intros Hd p Hp Hc. rewrite HC by done. by apply I4.
Qed.

(** What [completed(range)] dispatches can be read. *)
Lemma dispatch_inv er ew s range ranges' db' buffer' :
  Inv er ew s ->
  disk_ok (mSize s) buffer' ranges' db' ->
  (forall p, covered p ranges' = true <-> (mBegin range <= p < mEnd range) \/ covered p (mOnDisk s) = true) ->
  (forall p, 0 <= p < mSize s -> covered p (mOnDisk s) = true -> byte_at buffer' p = byte_at (mBuffer s) p) ->
  (forall p, mBegin range <= p < mEnd range -> covered p (mOnDisk s) = false -> byte_at buffer' p = mCloud s p) ->
  mEnd range <= mSize s ->
  Inv er ew (dispatch range (set_disk (mSize s) (mDirty s) buffer' ranges' db' s)).
Proof.
  intros [I1 I2 I3 I4 I5 I6 I7 I8 I9] Hd Hcov HC HN He. unfold dispatch. rewrite partition_as_filter.
  set (g := fun r => ReadDone (MkFileRange (mBegin (mRange r)) (Z.min (mEnd range) (mEnd (mRange r))))).
  destruct (served_readers (dispatchable range) g (mPendingReadRequests s) (mCompleted s) (mFlushing s) (mShrinking s)) as [R W]; [done|].
  assert (forall m, downloads_ok (mSize s) (mOnDisk s) (mCloud s) m -> downloads_ok (mSize s) ranges' (mCloud s) m) as Hdl.
  { intros m Hm. eapply downloads_more; [exact Hm|done|]. intros p Hp [_ Hc]%(covered_false (Hcov p)). split; [lia|done]. }
  split; cbn; try done; [by apply Hdl|by apply Hdl| | | |].
  - intros Hdirty p Hp [Hpr|Hc]%Hcov.
    + destruct (covered p (mOnDisk s)) eqn:Ec; [|by apply HN]. rewrite HC by done. by apply I4.
    + rewrite HC by done. by apply I4.
  - eapply pending_filter; [exact I5|]. intros r _ HQ%negb_true_iff Hc. apply (covered_false (Hcov _)). split; [|done].
    unfold dispatchable in HQ. intros Hr. rewrite (proj2 (Z.leb_le _ _)), (proj2 (Z.ltb_lt _ _)) in HQ by lia. done.
  - apply done_app. split.
    + eapply done_more; [exact I6|done|]. intros p Hc. apply Hcov. by right.
    + intros r (x & E & Hx)%in_map_iff. injection E as <-. apply in_filter in Hx as [Hx HQ].
      apply andb_true_iff in HQ as [Q1%Z.leb_le Q2%Z.ltb_lt]. destruct (I5 x Hx) as (P1 & P2 & P3). cbn [mBegin mEnd].
      split_and!; [lia|lia|lia|]. intros p Hp. apply Hcov. left. lia.
  - by rewrite R, W.
Qed.

(** What is written to the gaps of a range: how far it got, and what the buffer is. *)
Lemma gaps_written limit source range (ranges : RangeSet) buffer : Ranges.disjoint_ranges ranges -> 0 <= mBegin range <= mEnd range ->
  let '(e, all, buffer') := write_gaps limit source (Ranges.gaps range ranges) (mBegin range) buffer in
  mBegin range <= e <= mEnd range
  /\ (forall p, covered p ranges = true \/ p < mBegin range \/ mEnd range <= p -> byte_at buffer' p = byte_at buffer p)
  /\ (forall p, mBegin range <= p < (if all : bool then mEnd range else e) -> covered p ranges = false -> byte_at buffer' p = source p)
  /\ (all = true -> forall p, e <= p < mEnd range -> covered p ranges = true).
Proof.
  intros Hd Hr. destruct (gaps_from_bounds ranges (mBegin range) (mEnd range) Hd) as [G1 G2]. fold (Ranges.gaps range ranges) in G1, G2.
  pose proof (write_gaps_spec limit source (Ranges.gaps range ranges) (mBegin range) buffer (mEnd range) G1) as Hw.
  destruct (write_gaps _ _ _ _ buffer) as [[e all] buffer']. destruct Hw as (W1 & W2 & W3 & W4); [intros g Hg; specialize (G2 g Hg); lia|lia|].
  assert (forall p, (exists g, In g (Ranges.gaps range ranges) /\ mBegin g <= p < mEnd g) <-> (mBegin range <= p < mEnd range) /\ covered p ranges = false) as Hgaps.
  { intros p. pose proof (gaps_from_covers ranges (mBegin range) (mEnd range) p Hd) as Hg. fold (Ranges.gaps range ranges) in Hg.
    setoid_rewrite contains_iff in Hg. rewrite Hg. apply and_iff_compat_l. split.
    - intros Hno. apply not_true_iff_false. intros (x & Hx & Hp)%covered_iff; [|done]. specialize (Hno x Hx). apply contains_not in Hno. lia.
    - intros Hc x Hx. apply contains_not. apply not_true_iff_false in Hc. rewrite covered_iff in Hc by done.
      destruct (decide (mBegin x.1 <= p < mEnd x.1)); [|lia]. destruct Hc. by exists x. }
  assert (forall p, mBegin range <= p < mEnd range -> covered p ranges = false -> all = true -> p < e) as Hall.
  { intros p Hp Hc Ha. destruct (proj2 (Hgaps p)) as (g & Hg & Hpg); [done|]. specialize (W2 Ha g Hg). lia. }
  split_and!; [lia|lia| | |].
  - intros p Hp. apply W4. intros g Hg Hpg. destruct (proj1 (Hgaps p)) as [Hr' Hc]; [by exists g|]. destruct Hp as [Hp|Hp]; [congruence|lia].
  - intros p Hp Hc. destruct (proj2 (Hgaps p)) as (g & Hg & Hpg); [destruct all; (split; [lia|done])|].
    apply (W3 p g Hg Hpg). destruct all; [|lia]. by apply Hall.
  - intros Ha p Hp. destruct (covered p ranges) eqn:Hc; [done|]. specialize (Hall p ltac:(lia) Hc Ha). lia.
Qed.

(** The range that a delivery is for. *)
Lemma delivered_range (d : Download) first length : 0 <= length -> d_next d < mEnd first ->
  FileRange.new (d_next d) (Z.min (d_next d + length) (mEnd first)) = MkFileRange (d_next d) (Z.min (d_next d + length) (mEnd first)).
Proof. intros H1 H2. unfold FileRange.new. f_equal; lia. Qed.

(** What a delivery writes. *)
Lemma delivered_inv er ew s buffer' w : Inv er ew s -> 0 <= mBegin w < mEnd w -> mEnd w <= mSize s ->
  (forall p, covered p (mOnDisk s) = true \/ mSize s <= p -> byte_at buffer' p = byte_at (mBuffer s) p) ->
  (forall p, mBegin w <= p < mEnd w -> covered p (mOnDisk s) = false -> byte_at buffer' p = mCloud s p) ->
  let s' := dispatch w (updateRanges w (set_buffer buffer' s)) in
  Inv er ew s' /\ mSize s' = mSize s /\ (forall p, file_content s' p = file_content s p)
  /\ (forall p, covered p (mOnDisk s') = true <-> mBegin w <= p < mEnd w \/ covered p (mOnDisk s) = true)
  /\ (mLarge s', mSmall s', mReplaced s', mNext s') = (mLarge s, mSmall s, mReplaced s, mNext s)
  /\ forall r, In r (mPendingReadRequests s') -> In r (mPendingReadRequests s).
Proof.
  intros HI Hw He HC HN s'. pose proof (disk_size _ _ _ _ (inv_disk _ _ _ HI)) as Hsize.
  assert (updateRanges w (set_buffer buffer' s) = set_disk (mSize s) (mDirty s) buffer' (merged w (mOnDisk s))
    (updateSize (Z.max (mSize s) (mEnd (effective w (mOnDisk s)))) (addRange (effective w (mOnDisk s)) (removeRanges (effective w (mOnDisk s)) (mDatabase s)))) s) as E.
  { rewrite updateRanges_fields. cbn [mSize mDirty mBuffer mOnDisk mDatabase set_buffer set_disk]. rewrite (Z.min_l (mBegin w)) by lia. by destruct w. }
  destruct (updated_disk (mSize s) (mBuffer s) (mOnDisk s) (mDatabase s) w buffer' (inv_disk _ _ _ HI)) as [U1 U2]; [lia|lia|intros p Hp; apply HC; right; lia|].
  rewrite (Z.max_l (mSize s) (mEnd w)) in U1 by lia. rewrite (Z.min_l (mBegin w) (mSize s)) in U1, U2 by lia.
  replace (MkFileRange (mBegin w) (mEnd w)) with w in U1, U2 by by destruct w. unfold s'. rewrite E. split_and!.
  - apply (dispatch_inv er ew s w _ _ buffer' HI U1 U2); [intros p _ Hc; apply HC; by left|done|done].
  - unfold dispatch. by destruct (List.partition _ _).
  - intros p. unfold file_content, dispatch. destruct (List.partition _ _) as [now later]. cbn [mOnDisk mBuffer mCloud set_pending set_disk].
    destruct (covered p (mOnDisk s)) eqn:Ec.
    + rewrite (proj2 (U2 p)) by by right. apply HC. by left.
    + destruct (covered p (merged w (mOnDisk s))) eqn:Ec'; [|done]. apply U2 in Ec' as [Hp|Hp]; [by apply HN|congruence].
  - unfold dispatch. destruct (List.partition _ _) as [now later]. exact U2.
  - unfold dispatch. by destruct (List.partition _ _).
  - unfold dispatch. rewrite partition_as_filter. by intros r [Hr _]%in_filter.
Qed.

Lemma download_facts er ew s first d : Inv er ew s -> In (first, d) (mLarge s) \/ In (first, d) (mSmall s) ->
  0 <= mBegin first /\ mEnd first <= mSize s /\ 0 <= d_next d
  /\ forall p, 0 <= p < mSize s -> covered p (mOnDisk s) = false -> d_source d p = mCloud s p.
Proof.
  intros HI [Hin|Hin]; [destruct (inv_large _ _ _ HI) as [_ H2 H3]|destruct (inv_small _ _ _ HI) as [_ H2 H3]];
    (specialize (H2 _ Hin); cbn [fst snd] in H2; split_and!; [apply H2..|]; intros p; by apply (H3 (first, d))).
Qed.

(** A delivery changes what is on disk and the download only. *)
Lemma data_spec er ew limit length first d s : Inv er ew s -> In (first, d) (mLarge s) \/ In (first, d) (mSmall s) -> 0 <= length ->
  exists end_ open s1, data limit length first d s = modify_downloads (d_id d) (set_download end_ (d_next d + length) open) s1
    /\ Inv er ew s1 /\ mSize s1 = mSize s /\ (forall p, file_content s1 p = file_content s p)
    /\ (mLarge s1, mSmall s1, mReplaced s1, mNext s1) = (mLarge s, mSmall s, mReplaced s, mNext s)
    /\ (forall r, In r (mPendingReadRequests s1) -> In r (mPendingReadRequests s))
    /\ (forall p, covered p (mOnDisk s) = true -> covered p (mOnDisk s1) = true)
    /\ (end_ = d_end d \/ (d_next d < mEnd first /\ end_ <= mEnd first) /\ forall p, d_next d <= p < end_ -> covered p (mOnDisk s1) = true)
    /\ (open = true -> d_next d + length <= end_ \/ mEnd first <= d_next d + length).
Proof.
  intros HI Hin Hlen. destruct (download_facts er ew s first d HI Hin) as (F1 & F2 & F3 & F4). unfold data.
  destruct (Z.leb_spec (mEnd first) (d_next d)) as [Hend|Hend]; [eexists _, _, s; split_and!; try done; by left|].
  rewrite delivered_range by done. set (range := MkFileRange (d_next d) (Z.min (d_next d + length) (mEnd first))).
  pose proof (gaps_written limit (d_source d) range (mOnDisk s) (mBuffer s) (disk_disjoint _ _ _ _ (inv_disk _ _ _ HI)) ltac:(cbn [range mBegin mEnd]; lia)) as Hw.
  change (mBegin range) with (d_next d) in Hw. destruct (write_gaps _ _ _ _ (mBuffer s)) as [[e all] buffer']. destruct Hw as (W1 & W2 & W3 & W4).
  cbn [range mEnd] in W1, W2, W3, W4.
  assert (forall p, covered p (mOnDisk s) = true \/ mSize s <= p -> byte_at buffer' p = byte_at (mBuffer s) p) as HC
    by (intros p [Hp|Hp]; apply W2; [by left|right; right; lia]).
  destruct (Z.eqb_spec e (d_next d)) as [He|He].
  - assert (Inv er ew (set_buffer buffer' s) /\ forall p, file_content (set_buffer buffer' s) p = file_content s p) as [HB HF].
    { split; [apply buffer_inv; [done|intros p _ Hc; apply HC; by left|intros p Hp; apply HC; by right]|].
      intros p. unfold file_content. cbn. destruct (covered p (mOnDisk s)) eqn:Ec; [apply HC; by left|done]. }
    destruct all; eexists _, _, (set_buffer buffer' s); (split; [reflexivity|]); split_and!; try done; [|cbn [range mEnd]; lia|by left].
    right. cbn [range mEnd]. split; [lia|]. intros p Hp. apply W4; [done|lia].
  - set (w := if all then range else MkFileRange (d_next d) e).
    assert (mBegin w = d_next d /\ d_next d < mEnd w <= mEnd first /\ (all = true -> w = range)
      /\ forall p, mBegin w <= p < mEnd w -> d_next d <= p < (if all then mEnd range else e)) as (B1 & B2 & B3 & B4).
    { unfold w. destruct all; cbn [range mBegin mEnd] in *; split_and!; try done; lia. }
    destruct (delivered_inv er ew s buffer' w HI) as (D1 & D2 & D3 & D4 & D5 & D6); [lia|lia|exact HC| |].
    { intros p Hp Hc. rewrite W3; [apply F4; [lia|done]|by apply B4|done]. }
    eexists _, _, (dispatch w (updateRanges w (set_buffer buffer' s))). split; [reflexivity|]. split; [exact D1|]. split; [exact D2|]. split; [exact D3|].
    split; [exact D5|]. split; [exact D6|]. split; [intros p Hc; apply D4; by right|]. split.
    + right. split; [lia|]. intros p Hp. apply D4. left. lia.
    + intros [Ha _]%andb_true_iff. rewrite (B3 Ha). cbn [range mEnd]. lia.
Qed.

Lemma data_inv er ew limit length first d s : Inv er ew s -> In (first, d) (mLarge s) \/ In (first, d) (mSmall s) -> 0 <= length ->
  Inv er ew (data limit length first d s) /\ mSize (data limit length first d s) = mSize s
  /\ forall p, 0 <= p < mSize s -> file_content (data limit length first d s) p = file_content s p.
Proof.
  intros HI Hin Hlen. destruct (data_spec er ew limit length first d s HI Hin Hlen) as (e & o & s1 & -> & D1 & D2 & D3 & _).
  destruct (download_facts er ew s first d HI Hin) as (_ & _ & Hn & _). split; [|split; [exact D2|intros p _; apply D3]].
  apply modify_inv; [|done]. intros d'. cbn. split_and!; [done|lia|done].
Qed.

(** *** Reading *)

Definition same_disk (s s' : State) : Prop :=
  mSize s' = mSize s /\ mBuffer s' = mBuffer s /\ mOnDisk s' = mOnDisk s /\ mCloud s' = mCloud s /\ mDirty s' = mDirty s.

Lemma same_content s s' f : same_disk s s' -> abstracts s f -> abstracts s' f.
Proof. intros (E1 & E2 & E3 & E4 & _) [A1 A2]. unfold abstracts, file_content. by rewrite E1, E2, E3, E4. Qed.

Lemma same_disk_trans s s' s'' : same_disk s s' -> same_disk s' s'' -> same_disk s s''.
Proof. unfold same_disk. intros (-> & -> & -> & -> & ->) H. exact H. Qed.

Lemma failed_same range result s : same_disk s (failed range result s).
Proof. unfold failed. by destruct (List.partition _ _). Qed.

Lemma insert_read_in r l x : In x (insert_read r l) <-> x = r \/ In x l.
Proof.
  induction l as [|y l IH]; cbn [insert_read].
  - cbn [In]. split; [intros [->|[]]; by left|intros [->|[]]; by left].
  - destruct (less _ _); cbn [In]; [|rewrite IH]; split.
    + intros [->|H]; [by left|by right].
    + intros [->|H]; [by left|by right].
    + intros [->|[->|H]]; [right; by left|by left|right; by right].
    + intros [->|[->|H]]; [right; by left|by left|right; by right].
Qed.

Lemma insert_read_length r l : length (insert_read r l) = S (length l).
Proof. induction l as [|y l IH]; cbn [insert_read]; [done|]. destruct (less _ _); cbn [length]; [done|]. by rewrite IH. Qed.

(** A read of the file that is executing. *)
Definition read_ok (s : State) (range : FileRange) : Prop := 0 <= mBegin range < mEnd range /\ mEnd range <= mSize s.

Lemma queue_inv r s : Inv 1 0 s -> read_ok s (mRange r) -> covered (mBegin (mRange r)) (mOnDisk s) = false -> Inv 0 0 (queueRequest r s).
Proof.
  intros [I1 I2 I3 I4 I5 I6 I7 I8 I9] [Hr1 Hr2] Hc. split; cbn; try done.
  - intros x [->|Hx]%insert_read_in; [split_and!; [apply Hr1|apply Hr1|done|done]|by apply I5].
  - unfold readers, writers in *. rewrite insert_read_length. unfold lock_ok in *. lia.
Qed.

Lemma added_in {V} (r : FileRange) (v : V) m e : Ranges.disjoint_ranges m -> mBegin r < mEnd r -> In e (Ranges.add r v m).2 ->
  In e m \/ (e.2 = v /\ mBegin e.1 = mBegin r /\ mEnd e.1 <= mEnd r).
Proof.
  intros Hm Hr. destruct (add_cases r v m Hm Hr) as [(o & _ & _ & ->)|(a & b & r' & -> & -> & E & H1 & _)]; [by left|].
  cbn [snd]. intros [He|[<-|He]]%in_app_iff; [left; apply in_app_iff; by left| |left; apply in_app_iff; by right].
  right. cbn [fst snd]. split_and!; [done|done|lia].
Qed.

Lemma no_writer er ew s : 0 < er -> 0 <= ew -> Inv er ew s -> mShrinking s = None.
Proof.
  intros He Hw [_ _ _ _ _ _ I7 _ _]. unfold lock_ok, readers, writers in I7. destruct (mShrinking s); [|done]. lia.
Qed.

Lemma addDownload_inv er o large range s : Inv er 0 s -> mShrinking s = None -> read_ok s range -> Inv er 0 (addDownload o large range s).
Proof.
  intros HI Hs [Hr1 Hr2]. unfold addDownload. destruct (o_created o); [|by apply failed_inv].
  set (d := MkDownload _ _ _ _ _ _).
  assert (forall m, downloads_ok (mSize s) (mOnDisk s) (mCloud s) m -> downloads_ok (mSize s) (mOnDisk s) (mCloud s) (Ranges.add range d m).2) as Hadd.
  { intros m [H1 H2 H3]. split; [by apply add_disjoint; [|lia]| |].
    - intros e [He|(E1 & E2 & E3)]%added_in; [by apply H2| |done|lia]. rewrite E1. cbn [d d_next]. lia.
    - intros e p [He|(E1 & _)]%added_in Hp Hc; [by apply (H3 e)| |done|lia]. by rewrite E1. }
  destruct HI as [I1 I2 I3 I4 I5 I6 I7 I8 I9]. destruct large; split; cbn; try done; try (by apply Hadd); rewrite Hs; by intros ? ? ?.
Qed.

Lemma complete_on_disk er range s s' : Inv (er + 1) 0 s -> read_ok s range -> completeIfOnDisk range s = Some s' -> Inv er 0 s' /\ same_disk s s'.
Proof.
  intros HI [Hr1 Hr2]. unfold completeIfOnDisk. destruct (Ranges.contains _ _) as [e|] eqn:E; [|done]. intros [= <-].
  pose proof (disk_disjoint _ _ _ _ (inv_disk _ _ _ HI)) as Hd. destruct (contains_some _ _ _ Hd E) as [He Hp].
  pose proof (disk_inside _ _ _ _ (inv_disk _ _ _ HI) e He). split; [|done]. apply completed_inv; [done|done|].
  intros r [[= <-]|[]]. cbn [mBegin mEnd]. split_and!; [lia|lia|lia|]. intros p Hp'. apply covered_iff; [done|]. exists e. split; [done|lia].
Qed.

Lemma not_on_disk range s : completeIfOnDisk range s = None -> covered (mBegin range) (mOnDisk s) = false.
Proof. unfold completeIfOnDisk. intros H. apply contains_covered. by destruct (Ranges.contains _ _). Qed.

Section reading.
Context (options : ServiceOptions).

(** The options are durations and sizes. *)
Definition options_ok : Prop :=
  0 <= mImmediateDownloadThreshold options /\ 0 <= mJumpBackwardAlignment options /\ 0 <= mJumpBackwardDistance options /\ 0 <= mMinimumRangeSize options.

Lemma align_bounds x k : 0 <= k -> 0 <= x -> 0 <= Z.shiftl (Z.shiftr x k) k <= x.
Proof.
  intros Hk Hx. rewrite Z.shiftr_div_pow2, Z.shiftl_mul_pow2 by done. pose proof (Z.div_mod x (2 ^ k) ltac:(lia)).
  pose proof (Z.mod_pos_bound x (2 ^ k) ltac:(lia)). pose proof (Z.div_pos x (2 ^ k) Hx ltac:(lia)). nia.
Qed.

(** A large download begins where the read begins or in front of it, unless what is
    on disk reaches further. *)
Lemma large_begin_spec er ew o range s : options_ok -> 0 <= o_bitrate o -> Inv er ew s -> read_ok s range ->
  0 <= large_begin options o range s <= mSize s
  /\ (covered (mBegin range) (mOnDisk s) = false -> large_begin options o range s <= mBegin range).
Proof.
  intros (_ & Oa & Od & _) Hb HI [Hr1 Hr2]. unfold large_begin.
  set (back := u64 (mJumpBackwardDistance options * o_bitrate o) / 8 / 1000).
  assert (0 <= back) by (unfold back; repeat apply Z.div_pos; try lia; by apply wrapu_range).
  destruct (align_bounds (mBegin range - Z.min back (mBegin range)) (mJumpBackwardAlignment options) Oa ltac:(lia)) as [B1 B2].
  set (begin := Z.shiftl _ _) in *. clearbody begin back.
  pose proof (disk_disjoint _ _ _ _ (inv_disk _ _ _ HI)) as Hd. pose proof (disk_inside _ _ _ _ (inv_disk _ _ _ HI)) as Hi.
  destruct (Ranges.endsAfter begin (mOnDisk s)) as [e|] eqn:E; [|lia]. apply List.find_some in E as [He Hend%Z.ltb_lt].
  destruct (Z.leb_spec (mBegin e.1) begin); [|lia]. specialize (Hi e He). split; [lia|]. intros Hc.
  apply not_true_iff_false in Hc. rewrite covered_iff in Hc by done. destruct (Z.le_gt_cases (mEnd e.1) (mBegin range)); [done|].
  destruct Hc. exists e. split; [done|lia].
Qed.

Lemma large_read_inv o r s : options_ok -> 0 <= o_bitrate o -> Inv 1 0 s -> read_ok s (mRange r) ->
  Inv 0 0 (large_read options o r s) /\ same_disk s (large_read options o r s).
Proof.
  intros Ho Hb HI Hr. pose proof (no_writer 1 0 s ltac:(lia) ltac:(lia) HI) as Hsh.
  pose proof (large_begin_spec 1 0 o (mRange r) s Ho Hb HI Hr) as [HB _]. unfold large_read.
  assert (exists s1, (match completeIfOnDisk (mRange r) s with Some s => s | None => queueRequest r s end) = s1 /\ Inv 0 0 s1 /\ same_disk s s1
    /\ mShrinking s1 = None /\ mLarge s1 = mLarge s) as (s1 & -> & HI1 & Hsame & Hsh1 & EL).
  { destruct (completeIfOnDisk _ _) as [s1|] eqn:E.
    - exists s1. destruct (complete_on_disk 0 _ _ _ HI Hr E). split_and!; try done; unfold completeIfOnDisk in E; destruct (Ranges.contains _ _); (discriminate || by injection E as <-).
    - exists (queueRequest r s). split_and!; try done. apply queue_inv; [done|done|]. by apply not_on_disk. }
  rewrite EL. destruct (mLarge s); [|done].
  assert (large_begin options o (mRange r) s1 = large_begin options o (mRange r) s) as ->
    by (unfold large_begin; destruct Hsame as (_ & _ & -> & _); done).
  destruct Hsame as (E1 & E2 & E3 & E4 & E5). rewrite E1. destruct (Z.eqb_spec (mSize s - large_begin options o (mRange r) s) 0); [done|]. split.
  - apply addDownload_inv; [done|done|]. split; cbn [mBegin mEnd]; rewrite ?E1; lia.
  - unfold addDownload. destruct (o_created o); [done|]. eapply same_disk_trans; [|apply failed_same]. done.
Qed.

Lemma first_gap_in {V} r (m : list (FileRange * V)) : let g := Ranges.first_gap r m in
  FileRange.empty g = false -> Ranges.disjoint_ranges m -> mBegin r <= mBegin g < mEnd g /\ mEnd g <= mEnd r.
Proof.
  intros g Hg Hm. unfold g, Ranges.first_gap in *. destruct (Z.leb_spec (mEnd r) (mBegin r)) as [Hr|Hr]; [done|].
  destruct (List.filter _ m) as [|e l] eqn:E; [lia|].
  assert (In e m /\ mBegin r < mEnd e.1) as [He Hp].
  { assert (In e (e :: l)) as Hin by by left. rewrite <- E in Hin. apply in_filter in Hin as [H1 H2%Z.ltb_lt]. done. }
  destruct (Z.ltb_spec (mBegin r) (mBegin e.1)); cbn [mBegin mEnd]; [lia|].
  destruct (Z.leb_spec (mEnd r) (mEnd e.1)); [done|]. cbn [mBegin mEnd] in *. unfold FileRange.empty in Hg. cbn [mBegin mEnd] in Hg.
  apply Z.eqb_neq in Hg. destruct l as [|x l]; [lia|].
  assert (mEnd e.1 <= mBegin x.1).
  { assert (StronglySorted Ranges.precedes (List.filter (fun e => mBegin r <? mEnd e.1) m)) as Hs.
    { destruct Hm as [_ Hs]. clear - Hs. induction Hs as [|y m Hs IH Hy]; cbn [List.filter]; [constructor|].
      destruct (_ <? _); [|done]. constructor; [done|]. apply List.Forall_forall. intros z [Hz _]%in_filter. rewrite List.Forall_forall in Hy. by apply Hy. }
    rewrite E in Hs. apply StronglySorted_inv in Hs as [_ Hs]. rewrite List.Forall_forall in Hs. apply Hs. by left. }
  lia.
Qed.

Lemma small_read_inv o r s : options_ok -> Inv 1 0 s -> read_ok s (mRange r) ->
  Inv 0 0 (small_read options o r s) /\ same_disk s (small_read options o r s).
Proof.
  intros Ho HI Hr. unfold small_read. destruct (completeIfOnDisk _ _) as [s1|] eqn:E; [by apply (complete_on_disk 0 (mRange r))|].
  pose proof (queue_inv r s HI Hr (not_on_disk _ _ E)) as HI1. pose proof (no_writer 1 0 s ltac:(lia) ltac:(lia) HI) as Hsh.
  destruct (match Ranges.contains _ (mLarge _) with Some e => _ | None => false end); [done|].
  set (gap := Ranges.first_gap _ _). destruct (FileRange.empty gap) eqn:Eg; [done|].
  pose proof (dl_disjoint _ _ _ _ (inv_small _ _ _ HI)) as Hd. pose proof (first_gap_in _ _ Eg Hd) as Hgap.
  destruct Hr as [Hr1 Hr2]. fold gap in Hgap. cbn zeta in Hgap. cbn [mSize queueRequest set_pending mBegin mEnd] in Hgap. split.
  - apply addDownload_inv; [done|done|]. split; cbn [mSize queueRequest set_pending]; lia.
  - unfold addDownload. destruct (o_created o); [done|]. eapply same_disk_trans; [|apply failed_same]. done.
Qed.

Lemma downloads_tail size ranges cloud e m : downloads_ok size ranges cloud (e :: m) -> downloads_ok size ranges cloud m.
Proof.
  intros [(_ & H1 & _)%disjoint_cons H2 H3]. split; [done| |]; intros; [apply H2|apply H3]; try done; by right.
Qed.

Lemma replaced_inv er ew s : Inv er ew s -> Inv er ew (replaced s) /\ same_disk s (replaced s).
Proof.
  intros HI. unfold replaced. destruct (mLarge s) as [|[first d] rest] eqn:E; [done|]. split; [|done].
  destruct HI as [I1 I2 I3 I4 I5 I6 I7 I8 I9]. rewrite E in I2, I8. split; cbn; try done.
  - by eapply downloads_tail.
  - intros n o ids Es. destruct (I8 n o ids Es) as (H1 & H2 & H3). split_and!; [apply H1|apply H1|done|].
    intros e [He|He]; apply H3; [left; by right|by right].
Qed.

Lemma clamp_file r size : 0 <= size -> 0 <= mBegin r <= mEnd r ->
  FileRange.clamp r 0 size = MkFileRange (Z.min (mBegin r) size) (Z.min (mEnd r) size).
Proof. intros Hs Hr. unfold FileRange.clamp, FileRange.new. f_equal; lia. Qed.

Lemma execute_read_inv o r s : options_ok -> 0 <= o_bitrate o -> 0 <= mBegin (mRange r) <= mEnd (mRange r) -> Inv 1 0 s ->
  Inv 0 0 (execute_read options o r s) /\ same_disk s (execute_read options o r s).
Proof.
  intros Ho Hb Hr HI. pose proof (disk_size _ _ _ _ (inv_disk _ _ _ HI)) as Hsize. unfold execute_read.
  rewrite clamp_file by (done || lia). set (range := MkFileRange (Z.min _ _) (Z.min _ _)).
  assert (0 <= mBegin range <= mEnd range /\ mEnd range <= mSize s) as Hrange by (cbn [range mBegin mEnd]; lia). clearbody range.
  unfold FileRange.empty. destruct (Z.eqb_spec (mBegin range) (mEnd range)) as [He|He].
  { split; [|done]. apply completed_inv; [done|done|]. intros x [[= <-]|[]]. split_and!; [lia|lia|lia|]. intros p Hp. lia. }
  set (s1 := if isJump _ _ _ _ then _ else _).
  assert (Inv 1 0 s1 /\ same_disk s s1) as [HI1 Hs1] by (unfold s1; destruct (isJump _ _ _ _); [by apply replaced_inv|done]). clearbody s1.
  assert (read_ok s1 range) as Hread by (split; [lia|]; rewrite (proj1 Hs1); lia).
  assert (forall s', Inv 0 0 s' /\ same_disk s1 s' -> Inv 0 0 s' /\ same_disk s s') as Hfin by (intros s' [H1 H2]; split; [done|by eapply same_disk_trans]).
  apply Hfin. destruct (_ <? FileRange.length_ range); [|by apply small_read_inv].
  unfold isSmallPrefix. destruct (Ranges.beginsAfter _ _) as [e|] eqn:E; [|by apply large_read_inv].
  apply List.find_some in E as [_ E%Z.ltb_lt]. destruct (Z.leb_spec (mEnd range) (mBegin e.1)); [by apply large_read_inv|].
  destruct (_ <? _); [by apply large_read_inv|]. apply small_read_inv; [done|done|].
  destruct Hread. split; cbn [mRange mBegin mEnd]; lia.
Qed.

End reading.

(** *** Writing *)

(** While there is a writer no read waits, and none is about to read. *)
Lemma writer_alone er ew s : 0 <= er -> 0 <= ew -> 0 < ew + (match mShrinking s with Some _ => 1 | None => 0 end) -> Inv er ew s ->
  mPendingReadRequests s = [] /\ (forall x, ~ In (ReadDone x) (mCompleted s)) /\ mFlushing s = 0%nat.
Proof.
  intros He Hw Hpos HI. pose proof (inv_lock _ _ _ HI) as HL. unfold lock_ok, readers, writers in HL.
  assert (length (mPendingReadRequests s) = 0 /\ length (List.filter is_reader (mCompleted s)) = 0 /\ mFlushing s = 0)%nat as (H1 & H2 & H3)
    by (destruct (mShrinking s); lia).
  split_and!; [by apply length_zero_iff_nil| |done]. intros x Hx.
  assert (In (ReadDone x) (List.filter is_reader (mCompleted s))) as Hin by by apply in_filter.
  apply length_zero_iff_nil in H2. by rewrite H2 in Hin.
Qed.

(** What a write, an append or a growing truncation does to the disk. *)
Lemma grown_inv s r dirty buffer' : Inv 0 1 s -> 0 <= mBegin r < mEnd r -> mEnd r < 2 ^ 63 ->
  (forall p, (Z.max (mSize s) (mEnd r) <= p \/ 0 <= p < mBegin r /\ p < mSize s) -> byte_at buffer' p = byte_at (mBuffer s) p) ->
  (forall p, mEnd r <= p -> byte_at buffer' p = byte_at (mBuffer s) p) ->
  let s1 := updateRanges r (set_buffer buffer' s) in
  let s2 := set_disk (Z.max (mSize s) (mEnd r)) true (mBuffer s1) (mOnDisk s1) (mDatabase s1) s1 in
  dirty = true -> Inv 0 1 s2
  /\ mSize s2 = Z.max (mSize s) (mEnd r)
  /\ forall p, 0 <= p < Z.max (mSize s) (mEnd r) ->
       file_content s2 p = if (Z.min (mBegin r) (mSize s) <=? p) && (p <? mEnd r) then byte_at buffer' p else file_content s p.
Proof.
  intros HI Hr He HB HE s1 s2 _. destruct (writer_alone 0 1 s) as (Hp & Hd & _); [done|lia|destruct (mShrinking s); lia|done|].
  assert (mShrinking s = None) as Hsh.
  { pose proof (inv_lock _ _ _ HI) as HL. unfold lock_ok, writers in HL. destruct (mShrinking s); [|done]. lia. }
  destruct (updated_disk (mSize s) (mBuffer s) (mOnDisk s) (mDatabase s) r buffer' (inv_disk _ _ _ HI) Hr He) as [U1 U2]; [intros p Hm; apply HE; lia|].
  assert (s2 = set_disk (Z.max (mSize s) (mEnd r)) true buffer' (merged (MkFileRange (Z.min (mBegin r) (mSize s)) (mEnd r)) (mOnDisk s)) (mDatabase s1) s) as E2
    by (unfold s2, s1; by rewrite updateRanges_fields).
  assert (forall p, 0 <= p < Z.max (mSize s) (mEnd r) -> covered p (mOnDisk s2) = false -> p < mSize s /\ covered p (mOnDisk s) = false) as Hcov.
  { intros p Hpp. rewrite E2. cbn [mOnDisk set_disk]. intros [Hn Hc]%(covered_false (U2 p)). split; [lia|done]. }
  destruct HI as [I1 I2 I3 I4 I5 I6 I7 I8 I9]. split; [|split].
  - rewrite E2 in Hcov |- *. split; cbn; try done.
    + unfold s1. rewrite updateRanges_fields. exact U1.
    + eapply downloads_more; [exact I2|lia|exact Hcov].
    + eapply downloads_more; [exact I3|lia|exact Hcov].
    + rewrite Hp. by intros ? ?.
    + intros x Hx. by destruct (Hd x).
    + rewrite Hsh. by intros ? ? ?.
  - by rewrite E2.
  - intros p Hpp. rewrite E2. unfold file_content. cbn [mOnDisk mBuffer mCloud set_disk].
    destruct (Z.leb_spec (Z.min (mBegin r) (mSize s)) p) as [H1|H1], (Z.ltb_spec p (mEnd r)) as [H2|H2]; cbn [andb].
    + by rewrite (proj2 (U2 p)) by by left.
    + destruct (covered p (mOnDisk s)) eqn:Ec; [rewrite (proj2 (U2 p)) by (by right); by apply HE|].
      by rewrite (proj2 (covered_false (U2 p))) by (split; [lia|done]).
    + destruct (covered p (mOnDisk s)) eqn:Ec; [rewrite (proj2 (U2 p)) by (by right); apply HB; lia|].
      by rewrite (proj2 (covered_false (U2 p))) by (split; [lia|done]).
    + destruct (covered p (mOnDisk s)) eqn:Ec; [rewrite (proj2 (U2 p)) by (by right); by apply HE|].
      by rewrite (proj2 (covered_false (U2 p))) by (split; [lia|done]).
Qed.

Definition apply_labels (ls : list Label) (f : File) : File := foldl (fun f l => apply_label l f) f ls.

(** A step that emits labels, seen from the file. *)
Definition simulates (f : File) (r : State * list Label) : Prop :=
  Inv 0 0 r.1 /\ replays r.2 f /\ abstracts r.1 (apply_labels r.2 f).

Lemma set_cancels_inv er ew cancels s : Inv er ew s -> (forall r, In r cancels -> mBegin r <= mEnd r) -> Inv er ew (set_cancels cancels (mShrinking s) s).
Proof. intros [I1 I2 I3 I4 I5 I6 I7 I8 I9] Hc. by split. Qed.

Lemma nth_take (n : nat) (i : nat) (l : list Z) : (i < n)%nat -> nth i (take n l) 0 = nth i l 0.
Proof. intros Hi. rewrite !nth_lookup. by rewrite lookup_take_lt. Qed.

Lemma written_grown e r buffer' s : written e (updateRanges r (set_buffer buffer' s)) =
  let s1 := updateRanges r (set_buffer buffer' s) in
  set_disk (Z.max (mSize s) e) true (mBuffer s1) (mOnDisk s1) (mDatabase s1) s1.
Proof. unfold written. by rewrite updateRanges_fields. Qed.

(** Bytes written at a position, whatever was between it and the end of the file. *)
Lemma bytes_written s f b bytes buffer' count : Inv 0 1 s -> abstracts s f -> 0 <= b -> 0 < count <= zlength bytes -> b + count < 2 ^ 63 ->
  (forall p, byte_at buffer' p = if (b <=? p) && (p <? b + count) then nth (Z.to_nat (p - b)) bytes 0 else byte_at (mBuffer s) p) ->
  simulates f (completed (WriterDone FILE_SUCCESS) (written (b + count) (updateRanges (MkFileRange b (b + count)) (set_buffer buffer' s))),
               [Written b (take (Z.to_nat count) bytes)]).
Proof.
  intros HI [A1 A2] Hb Hcount Hend Hw. pose proof (disk_size _ _ _ _ (inv_disk _ _ _ HI)) as Hsize.
  assert (forall p, p < b \/ b + count <= p -> byte_at buffer' p = byte_at (mBuffer s) p) as Hout.
  { intros p Hp. rewrite Hw. destruct (Z.leb_spec b p), (Z.ltb_spec p (b + count)); cbn [andb]; try done. lia. }
  destruct (grown_inv s (MkFileRange b (b + count)) true buffer' HI) as (G1 & G2 & G3); cbn [mBegin mEnd]; [lia|lia|intros p Hp; apply Hout; lia|intros p Hp; apply Hout; lia|done|].
  assert (zlength (take (Z.to_nat count) bytes) = count) as Hlen by (rewrite length_take; lia).
  rewrite written_grown. split; [by apply completed_writer|]. split; [done|]. cbn [apply_labels foldl fst snd apply_label]. split; cbn [f_size f_bytes].
  - rewrite Hlen, A1. symmetry. exact G2.
  - intros p Hp. rewrite Hlen. cbn [mSize completed set_pending] in Hp. cbn [mBegin mEnd] in G2, G3. rewrite G2 in Hp.
    etrans; [exact (G3 p Hp)|]. rewrite Hw, A1. destruct (Z.leb_spec (Z.min b (mSize s)) p), (Z.ltb_spec p (b + count)), (Z.leb_spec b p), (Z.ltb_spec p (mSize s)); cbn [andb]; try lia.
    + rewrite nth_take by lia. done.
    + rewrite nth_take by lia. done.
    + apply (disk_behind _ _ _ _ (inv_disk _ _ _ HI)). lia.
    + apply A2. lia.
    + apply A2. lia.
Qed.

Lemma completed_simulates f c s : Inv 0 1 s -> is_reader c = false -> abstracts s f -> simulates f (completed c s, []).
Proof. intros HI Hc HA. split; [by apply completed_writer|]. by split. Qed.

Lemma write_simulates o r buffer s f : Inv 0 1 s -> abstracts s f -> 0 <= mBegin r <= mEnd r -> mEnd r < 2 ^ 63 ->
  (match buffer with Some bytes => zlength bytes = mEnd r - mBegin r | None => True end) -> simulates f (execute_write o r buffer s).
Proof.
  intros HI HA Hr He Hlen. unfold execute_write. destruct (Z.eqb_spec (mEnd r - mBegin r) 0) as [E|E]; [by apply completed_simulates|].
  destruct buffer as [bytes|]; [|by apply completed_simulates].
  pose proof (write_spec (o_limit o) bytes (mBegin r) (mBuffer s) ltac:(lia)) as Hw. destruct (write _ _ _ (mBuffer s)) as [count buffer'].
  destruct Hw as [Hc Hw]. set (s1 := set_cancels _ _ s). assert (Inv 0 1 s1) as HI1.
  { apply set_cancels_inv; [done|]. intros x [Hx|[<-|[]]]%in_app_iff; [by apply (inv_cancels _ _ _ HI)|cbn [mBegin mEnd]; lia]. }
  destruct (Z.eqb_spec count 0); [by apply completed_simulates|]. cbn [mBegin mEnd]. apply bytes_written; [done|done|lia|lia|lia|exact Hw].
Qed.

Lemma append_simulates o bytes s f : Inv 0 1 s -> abstracts s f -> bytes <> [] -> mSize s + zlength bytes < 2 ^ 63 ->
  mSize s + zlength bytes <= o_limit o \/ o_limit o <= mSize s -> simulates f (execute_append o bytes s).
Proof.
  intros HI HA Hne Hs Hl. pose proof (disk_size _ _ _ _ (inv_disk _ _ _ HI)) as Hsize. unfold execute_append.
  assert (0 < zlength bytes) as Hpos by (destruct bytes; [done|cbn [length]; lia]).
  pose proof (write_spec (o_limit o) bytes (mSize s) (mBuffer s) ltac:(lia)) as Hw. destruct (write _ _ _ (mBuffer s)) as [count buffer'].
  destruct Hw as [Hc Hw]. destruct (Z.ltb_spec count (zlength bytes)) as [Hlt|Hge].
  - assert (forall p, byte_at buffer' p = byte_at (mBuffer s) p) as Hsame.
    { intros p. rewrite Hw. destruct (Z.leb_spec (mSize s) p), (Z.ltb_spec p (mSize s + count)); cbn [andb]; try done. lia. }
    apply completed_simulates; [by apply buffer_inv|done|]. destruct HA as [A1 A2]. split; [done|]. intros p Hp.
    etrans; [|by apply A2]. unfold file_content. cbn [mOnDisk mBuffer mCloud set_buffer set_disk]. destruct (covered p (mOnDisk s)); [apply Hsame|done].
  - assert (count = zlength bytes) as -> by lia.
    pose proof (bytes_written s f (mSize s) bytes buffer' (zlength bytes) HI HA ltac:(lia) ltac:(lia) Hs Hw) as HS.
    rewrite take_ge in HS by lia. exact HS.
Qed.

Lemma grow_simulates newSize s f : Inv 0 1 s -> abstracts s f -> mSize s < newSize < 2 ^ 63 ->
  simulates f (completed (WriterDone FILE_SUCCESS) (truncated newSize (updateRanges (MkFileRange (mSize s) newSize) s)), [Truncated newSize]).
Proof.
  intros HI [A1 A2] Hn. pose proof (disk_size _ _ _ _ (inv_disk _ _ _ HI)) as Hsize.
  destruct (grown_inv s (MkFileRange (mSize s) newSize) true (mBuffer s) HI) as (G1 & G2 & G3); cbn [mBegin mEnd]; [lia|lia|done|done|done|].
  assert (updateRanges (MkFileRange (mSize s) newSize) (set_buffer (mBuffer s) s) = updateRanges (MkFileRange (mSize s) newSize) s) as E
    by by rewrite !updateRanges_fields.
  rewrite E in G1, G2, G3. cbn [mBegin mEnd] in G1, G2, G3. rewrite Z.max_r in G1, G3 by lia. rewrite Z.max_r in G2 by lia.
  split; [by apply completed_writer|]. split; [done|]. cbn [apply_labels foldl fst snd apply_label]. split; cbn [f_size f_bytes]; [done|].
  intros p Hp. cbn [mSize completed set_pending truncated set_disk] in Hp. etrans; [apply G3; lia|]. rewrite A1.
  destruct (Z.leb_spec (Z.min (mSize s) (mSize s)) p), (Z.ltb_spec p newSize), (Z.ltb_spec p (mSize s)); cbn [andb]; try lia.
  - apply (disk_behind _ _ _ _ (inv_disk _ _ _ HI)). lia.
  - apply A2. lia.
Qed.

(** *** Cancelling downloads *)

(** What a download has done so far: what is behind it is on disk, and it goes on
    where that ends. *)
Definition progress (on_disk : Z -> Prop) (e : FileRange * Download) : Prop :=
  (forall p, mBegin e.1 <= p < d_end e.2 -> on_disk p) /\ d_end e.2 <= mEnd e.1
  /\ (d_open e.2 = true -> d_next e.2 <= Z.max (mBegin e.1) (d_end e.2) \/ mEnd e.1 <= d_next e.2).

(** The same download, with a smaller range. *)
Record smaller (e e' : FileRange * Download) : Prop := {
  smaller_id : d_id e'.2 = d_id e.2;
  smaller_source : d_source e'.2 = d_source e.2;
  smaller_next : d_next e'.2 = d_next e.2;
  smaller_begin : mBegin e.1 <= mBegin e'.1;
  smaller_end : mEnd e'.1 <= mEnd e.1;
  smaller_progress : forall C, progress C e -> progress C e'
}.

Lemma smaller_refl e : smaller e e.
Proof. by split. Qed.

Lemma smaller_trans e e' e'' : smaller e e' -> smaller e' e'' -> smaller e e''.
Proof. intros [] []. split; try congruence; try lia. auto. Qed.

Lemma remove_at_split {V} (a b : list (FileRange * V)) e : Ranges.disjoint_ranges (a ++ e :: b) ->
  Ranges.remove_at (mBegin e.1) (a ++ e :: b) = a ++ b.
Proof.
  intros Hd. unfold Ranges.remove_at. apply (filter_middle _ a [e] b).
  - pose proof Hd as (Ha & (He & Hb & Hel)%disjoint_cons & Hae)%disjoint_app. intros x Hx. apply negb_true_iff, Z.eqb_neq. destruct Hx as [Hx|Hx].
    + specialize (Hae x e Hx ltac:(by left)). pose proof (nonempty_in _ _ Ha Hx). unfold Ranges.precedes in Hae. lia.
    + specialize (Hel x Hx). unfold Ranges.precedes, Ranges.nonempty in *. lia.
  - intros x [<-|[]]. by rewrite Z.eqb_refl.
Qed.

Lemma move_split a b e r : Ranges.disjoint_ranges (a ++ e :: b) -> mBegin e.1 <= mBegin r < mEnd r -> mEnd r <= mEnd e.1 ->
  exists d, move e r (a ++ e :: b) = a ++ (r, d) :: b /\ smaller e (r, d) /\ Ranges.disjoint_ranges (a ++ (r, d) :: b).
Proof.
  intros Hd Hr He. unfold move. case_bool_decide as Heq.
  - exists e.2. destruct e as [x d]. cbn [fst snd] in *. subst x. split_and!; [done|apply smaller_refl|done].
  - pose proof Hd as (_ & (_ & _ & Hel)%disjoint_cons & Hae)%disjoint_app.
    assert (forall x, In x a -> mEnd x.1 <= mBegin r) as Ha by (intros x Hx; specialize (Hae x e Hx (or_introl eq_refl)); unfold Ranges.precedes in Hae; lia).
    assert (forall x, In x b -> mEnd r <= mBegin x.1) as Hb by (intros x Hx; specialize (Hel x Hx); unfold Ranges.precedes in Hel; lia).
    assert (Ranges.disjoint_ranges (a ++ b)) as Hab by by apply (disjoint_remove a [e] b).
    rewrite (remove_at_split a b e Hd), add_fits by (done || lia). eexists. split; [done|]. split.
    + split; cbn [fst snd d_id d_source d_next d_open d_end]; try done; try lia. intros C (P1 & P2 & P3). split; [|split].
      * intros p Hp. cbn [fst snd d_end] in Hp. apply P1. lia.
      * cbn [fst snd d_end]. lia.
      * cbn [fst snd d_end d_next d_open]. intros Ho. specialize (P3 Ho). lia.
    + apply disjoint_insert; [done|unfold Ranges.nonempty; cbn [fst]; lia|done|done].
Qed.

Definition ids (m : RangeMap) : list nat := map (fun e => d_id e.2) m.

(** A map after some of its downloads were moved. *)
Definition moved (m m' : RangeMap) : Prop :=
  Ranges.disjoint_ranges m' /\ ids m' = ids m /\ forall e', In e' m' -> exists e, In e m /\ smaller e e'.

Lemma moved_refl m : Ranges.disjoint_ranges m -> moved m m.
Proof. intros Hm. split_and!; [done|done|]. intros e He. exists e. split; [done|apply smaller_refl]. Qed.

Lemma moved_trans m m' m'' : moved m m' -> moved m' m'' -> moved m m''.
Proof.
  intros (H1 & H2 & H3) (H4 & H5 & H6). split_and!; [done|congruence|]. intros e He. destruct (H6 e He) as (e' & He' & Hs).
  destruct (H3 e' He') as (e0 & He0 & Hs0). exists e0. split; [done|]. by eapply smaller_trans.
Qed.

Lemma move_moved m e r : Ranges.disjoint_ranges m -> In e m -> mBegin e.1 <= mBegin r < mEnd r -> mEnd r <= mEnd e.1 -> moved m (move e r m).
Proof.
  intros Hd Hin Hr He. apply in_split in Hin as (a & b & ->). destruct (move_split a b e r Hd Hr He) as (d & -> & Hs & Hd').
  split; [done|]. split; [unfold ids; rewrite !map_app; cbn [map]; f_equal; f_equal; apply Hs|].
  intros x [Hx|[<-|Hx]]%in_app_iff.
  - exists x. split; [apply in_app_iff; by left|apply smaller_refl].
  - exists e. split; [apply in_app_iff; right; by left|done].
  - exists x. split; [apply in_app_iff; right; by right|apply smaller_refl].
Qed.

(** What still overlaps the range afterwards is to be cancelled. *)
Lemma cancel_map_spec range m : Ranges.disjoint_ranges m -> mBegin range <= mEnd range ->
  let '(m', cancelled) := cancel_map range m in
  moved m m' /\ forall e, In e m' -> In (d_id e.2) cancelled \/ mEnd e.1 <= mBegin range \/ mEnd range <= mBegin e.1.
Proof.
  intros Hm Hr. unfold cancel_map. destruct (endsAfter_split (mBegin range) m Hm) as (a & b & Em & Ha & E & Hb). rewrite E.
  assert (forall m' : RangeMap, moved m m' ->
    let '(begin, end_) := Ranges.find range m' in
    moved m m' /\ forall e, In e m' -> In (d_id e.2) (map (fun e => d_id e.2) (Ranges.between begin end_ m')) \/ mEnd e.1 <= mBegin range \/ mEnd range <= mBegin e.1) as Hfin.
  { intros m' Hm'. pose proof Hm' as (Hd & _). destruct (find_cases m' range Hd Hr) as (a' & m2 & c & -> & H1 & H2 & H3 & ->).
    split; [done|]. destruct (between_split a' m2 c Hd) as [-> _]. intros e [He|[He|He]%in_app_iff]%in_app_iff; [right; left; by apply H1| |right; right; by apply H3].
    left. by apply (in_map (fun e => d_id e.2)). }
  destruct b as [|e b]; cbn [head].
  { split; [by apply moved_refl|]. intros x Hx. rewrite Em, app_nil_r in Hx. right. left. by apply Ha. }
  destruct (Z.leb_spec (mEnd range) (mBegin e.1)) as [Hle|Hgt].
  { split; [by apply moved_refl|]. rewrite Em in Hm |- *. pose proof Hm as (_ & (He & _ & Hel)%disjoint_cons & _)%disjoint_app.
    intros x [Hx|[<-|Hx]]%in_app_iff; right; [left; by apply Ha|by right|]. specialize (Hel x Hx). unfold Ranges.precedes, Ranges.nonempty in *. lia. }
  assert (In e m) as Hin by (rewrite Em, in_app_iff; right; by left).
  set (m1 := if (mBegin e.1 <? mBegin range) && (mEnd e.1 <=? mEnd range) then _ else m).
  assert (moved m m1) as Hm1.
  { unfold m1. destruct (_ && _) eqn:Ec; [|by apply moved_refl]. apply andb_true_iff in Ec as [C1%Z.ltb_lt C2%Z.leb_le].
    pose proof (Hb e (or_introl eq_refl)). apply move_moved; [done|done| |]; cbn [mBegin mEnd]; lia. }
  clearbody m1. set (m2 := match Ranges.endsAfter _ m1 with Some _ => _ | None => m1 end).
  assert (moved m m2) as Hm2.
  { unfold m2. destruct (Ranges.endsAfter _ m1) as [x|] eqn:Ex; [|done]. apply List.find_some in Ex as [Hx Hend%Z.ltb_lt].
    destruct (Z.ltb_spec (mBegin x.1) (mEnd range)); [|done]. eapply moved_trans; [exact Hm1|].
    apply move_moved; [apply Hm1|done| |]; cbn [mBegin mEnd]; lia. }
  specialize (Hfin m2 Hm2). clearbody m2. destruct (Ranges.find range m2). exact Hfin.
Qed.

Lemma moved_ok size ranges cloud m m' : downloads_ok size ranges cloud m -> moved m m' -> downloads_ok size ranges cloud m'.
Proof.
  intros [H1 H2 H3] (M1 & _ & M3). split; [done| |].
  - intros e' He'. destruct (M3 e' He') as (e & He & [S1 S2 S3 S4 S5 _]). specialize (H2 e He). rewrite S3. lia.
  - intros e' p He' Hp Hc. destruct (M3 e' He') as (e & He & [S1 S2 S3 S4 S5 _]). rewrite S2. by apply H3.
Qed.

Lemma moved_shrink size shrinking large small large' small' : shrink_ok size shrinking large small -> moved large large' -> moved small small' ->
  shrink_ok size shrinking large' small'.
Proof.
  intros Hs (_ & _ & L) (_ & _ & S) n o l E. destruct (Hs n o l E) as (H1 & H2 & H3). split_and!; [apply H1|apply H1|done|].
  intros e' [He|He]; [destruct (L e' He) as (e & Hin & Hsm)|destruct (S e' He) as (e & Hin & Hsm)];
    (destruct (H3 e) as [H4|H4]; [auto|left; by rewrite (smaller_id _ _ Hsm)|right; pose proof (smaller_end _ _ Hsm); lia]).
Qed.

Lemma cancel_inv er ew range s : Inv er ew s -> mBegin range <= mEnd range ->
  let '(s', cancelled) := cancel range s in
  Inv er ew s' /\ same_disk s s' /\ moved (mLarge s) (mLarge s') /\ moved (mSmall s) (mSmall s')
  /\ forall e, In e (mLarge s') \/ In e (mSmall s') -> In (d_id e.2) cancelled \/ mEnd e.1 <= mBegin range \/ mEnd range <= mBegin e.1.
Proof.
  intros [I1 I2 I3 I4 I5 I6 I7 I8 I9] Hr. unfold cancel.
  pose proof (cancel_map_spec range (mLarge s) (dl_disjoint _ _ _ _ I2) Hr) as HL. destruct (cancel_map range (mLarge s)) as [large l1].
  pose proof (cancel_map_spec range (mSmall s) (dl_disjoint _ _ _ _ I3) Hr) as HS. destruct (cancel_map range (mSmall s)) as [small l2].
  destruct HL as [HL1 HL2], HS as [HS1 HS2]. split_and!; [|done|done|done|].
  - split; cbn; try done; [exact (moved_ok _ _ _ _ _ I2 HL1)|exact (moved_ok _ _ _ _ _ I3 HS1)|exact (moved_shrink _ _ _ _ _ _ I8 HL1 HS1)].
  - cbn. intros e [He|He]; rewrite in_app_iff; [destruct (HL2 e He)|destruct (HS2 e He)]; tauto.
Qed.

(** *** Shrinking *)

Lemma execute_shrink_simulates newSize s f : Inv 0 1 s -> abstracts s f -> 0 <= newSize < mSize s -> simulates f (execute_truncate newSize s).
Proof.
  intros HI HA Hn. unfold execute_truncate. rewrite (proj2 (Z.eqb_neq _ _)), (proj2 (Z.ltb_ge _ _)) by lia.
  assert (FileRange.new (mSize s) newSize = MkFileRange newSize (mSize s)) as -> by (unfold FileRange.new; f_equal; lia).
  pose proof (cancel_inv 0 1 (MkFileRange newSize (mSize s)) s HI ltac:(cbn [mBegin mEnd]; lia)) as HC.
  destruct (cancel _ s) as [s1 l]. destruct HC as (HI1 & Hsame & _ & _ & Hov). pose proof Hsame as (E1 & _). cbn [mBegin mEnd] in Hov.
  split; [|split; [done|]]; cbn [fst snd apply_labels foldl]; [|exact (same_content s s1 f Hsame HA)].
  destruct HI1 as [I1 I2 I3 I4 I5 I6 I7 I8 I9]. split; cbn; try done.
  - unfold writers in *. unfold lock_ok in *. destruct (mShrinking s1); lia.
  - intros n o l' [= <- <- <-]. rewrite E1. split_and!; [lia|lia|done|]. intros e He. destruct (Hov e He) as [H|[H|H]]; [by left|by right|]. exfalso.
    destruct He as [He|He].
    + pose proof (nonempty_in _ e (dl_disjoint _ _ _ _ I2) He). pose proof (dl_inside _ _ _ _ I2 e He). lia.
    + pose proof (nonempty_in _ e (dl_disjoint _ _ _ _ I3) He). pose proof (dl_inside _ _ _ _ I3 e He). lia.
Qed.

(** The ranges in front of a position, and what is cut off there. *)
Lemma cut_covered (a c : RangeSet) b newSize p : Ranges.disjoint_ranges (a ++ b :: c) -> (forall x, In x (b :: c) -> newSize < mEnd x.1) ->
  p < newSize -> covered p (a ++ b :: c) = true <-> covered p a = true \/ mBegin b.1 <= p.
Proof.
  intros D2 Hm Hp. pose proof D2 as (Da & (_ & _ & Hbc)%disjoint_cons & _)%disjoint_app.
  rewrite !covered_iff by done. pose proof (Hm b (or_introl eq_refl)). split.
  - intros (e & [He|[<-|He]]%in_app_iff & Hpe); [left; by exists e|right; lia|]. specialize (Hbc e He). unfold Ranges.precedes in Hbc.
    pose proof (nonempty_in _ b D2 ltac:(apply in_app_iff; right; by left)). right; lia.
  - intros [(e & He & Hpe)|Hpe]; [exists e; split; [apply in_app_iff; by left|done]|exists b; split; [apply in_app_iff; right; by left|lia]].
Qed.

Lemma cut_database (a c : RangeSet) b size db : Ranges.disjoint_ranges (a ++ b :: c) -> (forall e, In e (b :: c) -> mEnd e.1 <= size) ->
  Permutation (db_ranges db) (map fst (a ++ b :: c)) ->
  Permutation (db_ranges (removeRanges (MkFileRange (mBegin b.1) size) db)) (map fst a).
Proof.
  intros D2 D4 D5. pose proof D2 as (Da & Dbc & Hab)%disjoint_app. cbn [db_ranges removeRanges mBegin mEnd].
  rewrite (filter_permutation _ _ _ D5), map_app, List.filter_app. rewrite (filter_dropped _ (map fst (b :: c))), app_nil_r, filter_kept; [done| |].
  - intros x (e & <- & He)%in_map_iff. specialize (Hab e b He (or_introl eq_refl)). pose proof (nonempty_in _ e Da He). unfold Ranges.precedes in Hab.
    rewrite (proj2 (Z.leb_gt _ _)) by lia. done.
  - intros x (e & <- & He)%in_map_iff. pose proof (D4 e He) as He2. assert (mBegin b.1 <= mBegin e.1) as He1.
    { destruct He as [<-|He]; [lia|]. pose proof (nonempty_in _ b Dbc (or_introl eq_refl)). apply disjoint_cons in Dbc as (_ & _ & Hbc).
      specialize (Hbc e He). unfold Ranges.precedes in Hbc. lia. }
    by rewrite !(proj2 (Z.leb_le _ _)).
Qed.

Lemma shrink_disk newSize s : disk_ok (mSize s) (mBuffer s) (mOnDisk s) (mDatabase s) -> 0 <= newSize < mSize s ->
  exists ranges db, shrink newSize (mSize s) s = set_disk (mSize s) (mDirty s) (truncate newSize (mBuffer s)) ranges db s
    /\ disk_ok newSize (truncate newSize (mBuffer s)) ranges db /\ forall p, p < newSize -> covered p ranges = covered p (mOnDisk s).
Proof.
  intros [D1 D2 D3 D4 D5 D6] Hn. unfold shrink.
  assert (forall p, newSize <= p -> byte_at (truncate newSize (mBuffer s)) p = 0) as Hz.
  { intros p Hp. rewrite byte_at_truncate by lia. by rewrite (proj2 (Z.ltb_ge _ _)). }
  destruct (endsAfter_split newSize (mOnDisk s) D2) as (a & m & Em & Ha & E & Hm). rewrite E. destruct m as [|b c]; cbn [head].
  { eexists _, _. split; [done|]. split; [|done]. split; try done; [lia|]. intros e He. split; [by apply D4|]. apply Ha. rewrite Em, app_nil_r in He. exact He. }
  rewrite Em in D2, D3, D4, D5 |- *. pose proof (between_split a (b :: c) [] ltac:(by rewrite app_nil_r)) as [_ Erem]. cbn [head] in Erem. rewrite !app_nil_r in Erem. rewrite Erem.
  pose proof (fun p => cut_covered a c b newSize p D2 Hm) as Hcov.
  pose proof (cut_database a c b (mSize s) (mDatabase s) D2 ltac:(intros e He; apply D4, in_app_iff; by right) D5) as Hdb.
  pose proof D2 as (Da & _ & Hab)%disjoint_app. pose proof D3 as (Sa & _ & Sab)%separated_app. pose proof (D4 b ltac:(apply in_app_iff; right; by left)) as Hb0.
  assert (forall e, In e a -> 0 <= mBegin e.1 /\ mEnd e.1 <= newSize) as Hin by (intros e He; split; [apply D4, in_app_iff; by left|by apply Ha]).
  cbn [mBegin]. destruct (Z.ltb_spec (mBegin b.1) newSize) as [Hlt|Hge].
  - set (r := MkFileRange (mBegin b.1) newSize).
    assert ((Ranges.add r tt a).2 = a ++ [(r, tt)] /\ Ranges.disjoint_ranges (a ++ [(r, tt)])) as [-> Dn].
    { split; [rewrite <- (app_nil_r a) at 1; apply add_fits|apply disjoint_insert]; try (by rewrite app_nil_r); try (by intros ? []); try exact Hlt;
        intros x Hx; exact (Hab x b Hx (or_introl eq_refl)). }
    eexists _, _. split; [done|]. split.
    + split; [lia|done| | | |exact Hz].
      * apply separated_app. split_and!; [done|repeat constructor|]. intros x y Hx [<-|[]]. exact (Sab x b Hx (or_introl eq_refl)).
      * intros e [He|[<-|[]]]%in_app_iff; [by apply Hin|cbn [fst r mBegin mEnd]; lia].
      * cbn [db_ranges addRange updateSize] in *. rewrite map_app. by apply Permutation_app_tail.
    + intros p Hp. apply eq_iff_eq_true. rewrite (Hcov p Hp), (covered_iff a), covered_iff by done. split.
      * intros (e & [He|[<-|[]]]%in_app_iff & Hpe); [left; by exists e|right; cbn [fst r mBegin] in Hpe; lia].
      * intros [(e & He & Hpe)|Hpe]; [exists e; split; [apply in_app_iff; by left|done]|]. eexists. split; [apply in_app_iff; right; by left|]. cbn [fst r mBegin mEnd]. lia.
  - eexists _, _. split; [done|]. split; [split; try done; lia|]. intros p Hp. apply eq_iff_eq_true. rewrite (Hcov p Hp). intuition lia.
Qed.

Lemma find_download_in m e : In e m -> exists x, find_download (d_id e.2) m = Some x.
Proof.
  intros He. unfold find_download. destruct (List.find _ m) as [x|] eqn:E; [by exists x|]. pose proof (List.find_none _ _ E e He) as H.
  cbn beta in H. by rewrite Nat.eqb_refl in H.
Qed.

Lemma download_present s e l : In e (mLarge s) \/ In e (mSmall s) -> In (d_id e.2) l -> downloads_present l s = true.
Proof.
  intros He Hl. apply existsb_exists. exists (d_id e.2). split; [done|]. unfold find_any.
  destruct (find_download (d_id e.2) (mLarge s)) eqn:E; [done|]. destruct He as [He|He]; apply find_download_in in He as [x Ex]; congruence || by rewrite Ex.
Qed.

Lemma shrunk_simulates newSize l s f : Inv 0 0 s -> abstracts s f -> mShrinking s = Some (newSize, mSize s, l) -> downloads_present l s = false ->
  simulates f (completed (WriterDone FILE_SUCCESS) (truncated newSize (shrink newSize (mSize s) (set_cancels (mCancels s) None s))), [Truncated newSize]).
Proof.
  intros HI [A1 A2] Es Hl. set (s0 := set_cancels _ None s).
  destruct (writer_alone 0 0 s) as (Hp & Hd & _); [done|done|rewrite Es; lia|done|].
  destruct (inv_shrink _ _ _ HI newSize (mSize s) l Es) as (Hn & _ & Hdl).
  assert (forall e, In e (mLarge s) \/ In e (mSmall s) -> mEnd e.1 <= newSize) as Hends.
  { intros e He. destruct (Hdl e He) as [H|H]; [|done]. rewrite (download_present s e l He H) in Hl. done. }
  destruct (shrink_disk newSize s0 (inv_disk _ _ _ HI) Hn) as (ranges & db & Esh & Hdisk & Hcov). cbn [mSize s0 set_cancels] in Esh.
  fold s0. rewrite Esh. destruct HI as [I1 I2 I3 I4 I5 I6 I7 I8 I9]. cbn [mOnDisk mBuffer s0 set_cancels] in *.
  assert (forall m, (forall e, In e m -> mEnd e.1 <= newSize) -> downloads_ok (mSize s) (mOnDisk s) (mCloud s) m -> downloads_ok newSize ranges (mCloud s) m) as Hmap.
  { intros m Hm [H1 H2 H3]. split; [done| |].
    - intros e He. specialize (H2 e He). specialize (Hm e He). lia.
    - intros e p He Hpp Hc. rewrite Hcov in Hc by lia. apply H3; [done|lia|done]. }
  split; [apply completed_writer; [|done]|]; cbn [fst snd].
  - split; cbn; try done.
    + apply Hmap; [auto|done].
    + apply Hmap; [auto|done].
    + rewrite Hp. by intros ? ?.
    + intros x Hx. by destruct (Hd x).
    + rewrite Es in I7. unfold writers in *. unfold lock_ok in *. lia.
  - split; [done|]. cbn [apply_labels foldl apply_label]. split; cbn [f_size f_bytes]; [done|].
    cbn. intros p Hpp. rewrite A1, (proj2 (Z.ltb_lt p (mSize s))), <- A2 by lia. unfold file_content. cbn. rewrite Hcov by lia.
    destruct (covered p (mOnDisk s)); [|done]. rewrite byte_at_truncate by lia. by rewrite (proj2 (Z.ltb_lt _ _)) by lia.
Qed.

(** *** Requests and their lock *)

Lemma reclaim_simulates s f : Inv 0 1 s -> abstracts s f -> mDirty s = false -> simulates f (execute_reclaim s, []).
Proof.
  intros HI HA Hd. unfold execute_reclaim. destruct (mLarge s) as [|x l] eqn:EL; [|by apply completed_simulates].
  destruct (mSmall s) as [|x l] eqn:ES; [|by apply completed_simulates].
  destruct (writer_alone 0 1 s) as (Hp & Hdone & _); [done|lia|destruct (mShrinking s); lia|done|].
  destruct HI as [[D1 D2 D3 D4 D5 D6] I2 I3 I4 I5 I6 I7 I8 I9].
  assert (forall p, byte_at (truncate 0 (mBuffer s)) p = 0) as Hz.
  { intros p. destruct (Z.ltb_spec p 0); [by apply byte_at_negative|]. rewrite byte_at_truncate by lia. by rewrite (proj2 (Z.ltb_ge _ _)). }
  apply completed_simulates; [|done|].
  - split; cbn; try done.
    + split; try done; [by split; constructor|constructor|]. cbn [db_ranges updateSize removeRanges mBegin mEnd].
      rewrite (filter_permutation _ _ _ D5), filter_dropped; [done|]. intros x (e & <- & He)%in_map_iff. specialize (D4 e He).
      by rewrite !(proj2 (Z.leb_le _ _)) by lia.
    + rewrite EL. split; [by split; constructor|by intros ? []|by intros ? ? []].
    + rewrite ES. split; [by split; constructor|by intros ? []|by intros ? ? []].
    + rewrite Hp. by intros ? ?.
    + intros x Hx. by destruct (Hdone x).
  - destruct HA as [A1 A2]. split; [done|]. cbn. intros p Hpp. rewrite <- A2 by done. unfold file_content. cbn.
    destruct (covered p (mOnDisk s)) eqn:Ec; [|done]. symmetry. by apply I4.
Qed.

Lemma flush_inv s : Inv 1 0 s -> Inv 0 0 (execute_flush s) /\ same_disk s (execute_flush s).
Proof.
  intros HI. unfold execute_flush. destruct (mDirty s).
  - split; [|done]. destruct HI as [I1 I2 I3 I4 I5 I6 I7 I8 I9]. split; cbn; try done. unfold lock_ok, readers, writers in *. lia.
  - split; [|done]. apply completed_inv; [done|done|]. by apply done_other.
Qed.

Lemma executable_inv request requests n s : Inv 0 0 s ->
  let '(state, ok) := executable request s in
  if ok then (if is_read request then Inv 1 0 else Inv 0 1) (set_requests state requests n s)
  else Inv 0 0 (set_requests state requests n s).
Proof.
  intros [I1 I2 I3 I4 I5 I6 I7 I8 I9]. unfold executable, FileReadWriteState.read, FileReadWriteState.write.
  destruct (is_read request).
  - destruct ((mReadWriteState s <=? 0) && _) eqn:E; split; cbn; try done. apply andb_true_iff in E as [E%Z.leb_le _].
    unfold lock_ok, readers, writers in *. destruct (mShrinking s); lia.
  - destruct (Z.eqb_spec (mReadWriteState s) 0) as [E|E]; split; cbn; try done. unfold lock_ok, readers, writers in *. destruct (mShrinking s); lia.
Qed.

Lemma delete_filter {A} (Q : A -> bool) (l : list A) i x : l !! i = Some x ->
  length (List.filter Q l) = ((if Q x then 1 else 0) + length (List.filter Q (delete i l)))%nat.
Proof.
  intros Hx. rewrite (Permutation_length (filter_permutation Q _ _ (delete_Permutation l i x Hx))). cbn [List.filter].
  by destruct (Q x).
Qed.

Lemma delete_in {A} (l : list A) i x : In x (delete i l) -> In x l.
Proof.
  rewrite delete_take_drop, in_app_iff. intros [H|H].
  - rewrite <- (take_drop i l), in_app_iff. by left.
  - rewrite <- (take_drop (S i) l), in_app_iff. by right.
Qed.

Lemma callback_simulates s f c i : Inv 0 0 s -> abstracts s f -> mCompleted s !! i = Some c ->
  simulates f (executed c (set_pending (mPendingReadRequests s) (delete i (mCompleted s)) s), callback c s).
Proof.
  intros HI HA Hi. assert (In c (mCompleted s)) as Hin by by eapply list_elem_of_In, list_elem_of_lookup_2.
  assert (Inv 0 0 (executed c (set_pending (mPendingReadRequests s) (delete i (mCompleted s)) s))) as HI'.
  { destruct HI as [I1 I2 I3 I4 I5 I6 I7 I8 I9]. pose proof (delete_filter is_reader _ _ _ Hi) as HR.
    pose proof (delete_filter (fun c => negb (is_reader c)) _ _ _ Hi) as HW. cbn beta in HW.
    split; cbn; try done.
    - intros r Hr%delete_in. by apply I6.
    - unfold lock_ok, readers, writers, FileReadWriteState.readCompleted, FileReadWriteState.writeCompleted in *.
      destruct c; cbn [is_reader negb] in HR, HW; destruct (mShrinking s); lia. }
  destruct c as [r|r|r]; cbn [callback]; (split; [exact HI'|]; split; [|exact HA]); cbn [snd replays allows]; try done.
  destruct (inv_done _ _ _ HI r Hin) as (H1 & H2 & H3). destruct HA as [A1 A2]. split; [|done]. split_and!; [lia|lia|lia|].
  rewrite read_spec by lia. apply slice_ext. intros p Hp. rewrite <- A2 by lia. unfold file_content. by rewrite H3.
Qed.

Section steps.
Context (options : ServiceOptions) (Hoptions : options_ok options).

(** What is asked of the callers and the environment: ranges are ordered and files
    smaller than 2^63, an append writes all its bytes or none, and a file is only
    reclaimed while it is the node. *)
Definition orderly_request (o : Oracle) (request : Request) (s : State) : Prop :=
  match request with
  | Read r => 0 <= o_bitrate o /\ 0 <= mBegin (mRange r) <= mEnd (mRange r)
  | Write r buffer => 0 <= mBegin r <= mEnd r /\ mEnd r < 2 ^ 63 /\ match buffer with Some bytes => zlength bytes = mEnd r - mBegin r | None => True end
  | Append bytes => bytes <> [] /\ mSize s + zlength bytes < 2 ^ 63 /\ (mSize s + zlength bytes <= o_limit o \/ o_limit o <= mSize s)
  | Truncate size => 0 <= size < 2 ^ 63
  | Flush => True
  | Reclaim => mDirty s = false
  end.

Definition orderly (ev : Event) (s : State) : Prop :=
  match ev with
  | Submit o request => snd (executable request s) = true -> orderly_request o request s
  | Execute o =>
      match mRequests s with request :: _ => snd (executable request s) = true -> orderly_request o request s | [] => True end
  | _ => True
  end.

#[export] Instance orderly_request_dec o request s : Decision (orderly_request o request s).
Proof. destruct request as [r|r [bytes|]|bytes|size| |]; cbn [orderly_request]; apply _. Defined.

#[export] Instance orderly_dec ev s : Decision (orderly ev s).
Proof. destruct ev; cbn [orderly]; try apply _. destruct (mRequests s); apply _. Defined.

Lemma still_simulates s s' f : Inv 0 0 s' -> same_disk s s' -> abstracts s f -> simulates f (s', []).
Proof. intros HI Hs HA. split; [done|]. split; [done|]. exact (same_content s s' f Hs HA). Qed.

Lemma execute_simulates o request s f : (if is_read request then Inv 1 0 else Inv 0 1) s -> abstracts s f -> orderly_request o request s ->
  simulates f (execute options o request s).
Proof.
  intros HI HA Ho. destruct request as [r|r buffer|bytes|size| |]; cbn [is_read execute orderly_request] in *.
  - destruct Ho as [Hb Hr]. destruct (execute_read_inv options o r s Hoptions Hb Hr HI). by eapply still_simulates.
  - destruct Ho as (H1 & H2 & H3). by apply write_simulates.
  - destruct Ho as (H1 & H2 & H3). by apply append_simulates.
  - destruct (Z.lt_trichotomy size (mSize s)) as [H|[H|H]].
    + apply execute_shrink_simulates; [done|done|lia].
    + unfold execute_truncate. rewrite (proj2 (Z.eqb_eq _ _)) by done. by apply completed_simulates.
    + unfold execute_truncate. rewrite (proj2 (Z.eqb_neq _ _)), (proj2 (Z.ltb_lt _ _)) by lia. apply grow_simulates; [done|done|lia].
  - destruct (flush_inv s HI). by eapply still_simulates.
  - by apply reclaim_simulates.
Qed.

Lemma locked_simulates o request requests n s f (again : State) : Inv 0 0 s -> abstracts s f ->
  (snd (executable request s) = true -> orderly_request o request s) ->
  Inv 0 0 again -> same_disk s again ->
  simulates f (let '(state, ok) := executable request s in
               if ok then execute options o request (set_requests state requests n s) else (again, [])).
Proof.
  intros HI HA Ho HI' Hs. pose proof (executable_inv request requests n s HI) as HE. destruct (executable request s) as [state ok]. cbn [snd] in Ho.
  destruct ok; [|by eapply still_simulates]. specialize (Ho eq_refl). apply execute_simulates; [exact HE|exact HA|]. exact Ho.
Qed.

Lemma find_any_in id s large first d : find_any id s = Some (large, (first, d)) ->
  (if large then In (first, d) (mLarge s) else In (first, d) (mSmall s)).
Proof.
  unfold find_any, find_download. destruct (List.find _ (mLarge s)) as [e|] eqn:E.
  - intros [= <- ->]. by apply List.find_some in E as [E _].
  - destruct (List.find _ (mSmall s)) as [e|] eqn:E'; [|done]. intros [= <- ->]. by apply List.find_some in E' as [E' _].
Qed.

Lemma remove_ok size ranges cloud p m : downloads_ok size ranges cloud m -> downloads_ok size ranges cloud (Ranges.remove_at p m).
Proof.
  intros [H1 H2 H3]. split.
  - unfold Ranges.remove_at. clear H2 H3. induction m as [|e m IH]; cbn [List.filter]; [done|].
    apply disjoint_cons in H1 as (He & Hm & Hem). destruct (negb _); [|by apply IH]. apply disjoint_cons. split_and!; [done|by apply IH|].
    intros y [Hy _]%in_filter. by apply Hem.
  - intros e [He _]%in_filter. by apply H2.
  - intros e q [He _]%in_filter. by apply H3.
Qed.

Lemma ended_inv large first d result s : Inv 0 0 s ->
  Inv 0 0 (download_completed large first d result s) /\ same_disk s (download_completed large first d result s).
Proof.
  intros HI. unfold download_completed. split; [|eapply same_disk_trans; [|apply failed_same]; by destruct large].
  apply failed_inv. destruct HI as [I1 I2 I3 I4 I5 I6 I7 I8 I9].
  destruct large; split; cbn; try done; try (by apply remove_ok);
    (intros n o l E; destruct (I8 n o l E) as (H1 & H2 & H3); split_and!; [apply H1|apply H1|done|]; intros e [He|He]; apply H3).
  - left. by apply in_filter in He as [He _].
  - by right.
  - by left.
  - right. by apply in_filter in He as [He _].
Qed.

Lemma filter_repeat {A} (Q : A -> bool) x n : List.filter Q (repeat x n) = if Q x then repeat x n else [].
Proof. induction n as [|n IH]; cbn [repeat List.filter]; [by destruct (Q x)|]. rewrite IH. by destruct (Q x). Qed.

(** The callbacks of all flushes. *)
Lemma flush_done_inv result cloud s : Inv 0 0 s -> cloud = mCloud s ->
  Inv 0 0 (set_flush 0 cloud (set_pending (mPendingReadRequests s) (mCompleted s ++ repeat (ReaderDone result) (mFlushing s)) s)).
Proof.
  intros [I1 I2 I3 I4 I5 I6 I7 I8 I9] ->. split; cbn; try done.
  - apply done_app. split; [done|]. by intros r Hr%repeat_spec.
  - unfold readers, writers in *. rewrite !List.filter_app, !filter_repeat, !length_app. cbn [is_reader negb length].
    rewrite repeat_length. unfold lock_ok in *. lia.
Qed.

(** With everything on disk the node becomes what is there. *)
Lemma cleaned_inv s : Inv 0 0 s -> (forall p, 0 <= p < mSize s -> covered p (mOnDisk s) = true) ->
  Inv 0 0 (set_disk (mSize s) false (mBuffer s) (mOnDisk s) (mDatabase s) (set_flush (mFlushing s) (byte_at (mBuffer s)) s)).
Proof.
  intros [I1 I2 I3 I4 I5 I6 I7 I8 I9] Hall. split; cbn; try done.
  - destruct I2 as [H1 H2 H3]. split; [done|done|]. intros e p _ Hp Hc. rewrite (Hall p Hp) in Hc. done.
  - destruct I3 as [H1 H2 H3]. split; [done|done|]. intros e p _ Hp Hc. rewrite (Hall p Hp) in Hc. done.
Qed.

Lemma flushed_simulates success s f s' ls : Inv 0 0 s -> abstracts s f -> step options (Flushed success) s = Some (s', ls) -> simulates f (s', ls).
Proof.
  intros HI HA. cbn [step]. destruct (mFlushing s =? 0)%nat; [done|]. destruct success; cbn [negb].
  - case_bool_decide as Hall; [|done]. intros [= <- <-].
    assert (forall p, 0 <= p < mSize s -> covered p (mOnDisk s) = true) as Hall'.
    { intros p Hp. rewrite List.Forall_forall in Hall. specialize (Hall (Z.to_nat p)). rewrite Z2Nat.id in Hall by lia. apply Hall, in_seq. lia. }
    pose proof (cleaned_inv _ (flush_done_inv FILE_SUCCESS _ s HI eq_refl) Hall') as HI'. split; [exact HI'|]. split; [done|].
    destruct HA as [A1 A2]. split; [done|]. cbn. intros p Hp. rewrite <- A2 by done. unfold file_content. cbn. by rewrite Hall'.
  - intros [= <- <-]. split; [by apply flush_done_inv|]. by split.
Qed.

(** Every step is one of the file, or none. *)
Lemma step_simulates ev s f s' ls : Inv 0 0 s -> abstracts s f -> orderly ev s -> step options ev s = Some (s', ls) -> simulates f (s', ls).
Proof.
  intros HI HA Ho. destruct ev as [o request| |i|o|id limit length|id retryable overquota|id result|i result|i| |success]; cbn [step orderly] in *.
  - intros [= E]. rewrite <- E. unfold executeOrQueue.
    pose proof (executable_inv request (queue request (mRequests s)) (mExecutions s) s HI) as HE.
    pose proof (locked_simulates o request (mRequests s) (mExecutions s) s f) as HL.
    destruct (executable request s) as [state ok]. destruct ok; [by apply (HL s)|]. by eapply still_simulates.
  - intros [= <- <-]. eapply still_simulates; [|done|exact HA]. by destruct HI.
  - destruct (mCompleted s !! i) as [c|] eqn:E; [|done]. cbn [mbind option_bind]. intros [= <- <-]. by apply callback_simulates.
  - destruct (mExecutions s =? 0)%nat; [done|]. intros [= E]. rewrite <- E. unfold execute_next.
    destruct (mRequests s) as [|request rest] eqn:ER; [eapply still_simulates; [|done|exact HA]; by destruct HI|].
    pose proof (executable_inv request (request :: rest) (pred (mExecutions s)) s HI) as HE.
    pose proof (locked_simulates o request rest (mExecutions s) s f) as HL. 
    destruct (executable request s) as [state ok]. destruct ok; [by apply (HL s)|]. by eapply still_simulates.
  - destruct (find_any id s) as [[large [first d]]|] eqn:E; [|done]. cbn [mbind option_bind].
    destruct (d_open d && (0 <=? length)) eqn:Ec; [|done]. apply andb_true_iff in Ec as [_ Ec%Z.leb_le]. intros [= <- <-].
    apply find_any_in in E. destruct (data_inv 0 0 limit length first d s HI) as (H1 & H2 & H3); [destruct large; [by left|by right]|done|].
    split; [done|]. split; [done|]. destruct HA as [A1 A2]. split; cbn [fst snd apply_labels foldl]; [by rewrite H2|]. intros p Hp. rewrite H2 in Hp.
    rewrite H3 by done. by apply A2.
  - intros [= <- <-]. eapply still_simulates; [|done|exact HA]. apply modify_inv; [|done]. intros d. unfold download_failed. by destruct (_ && _).
  - destruct (find_any id s) as [[large [first d]]|] eqn:E; [|done]. cbn [mbind option_bind]. intros [= <- <-].
    destruct (ended_inv large first d result s HI). by eapply still_simulates.
  - destruct (mReplaced s !! i) as [range|]; [|done]. cbn [mbind option_bind]. intros [= <- <-].
    eapply still_simulates; [apply failed_inv; by destruct HI|eapply same_disk_trans; [|apply failed_same]; done|exact HA].
  - destruct (mCancels s !! i) as [range|] eqn:E; [|done]. cbn [mbind option_bind]. intros [= <- <-].
    assert (mBegin range <= mEnd range) as Hr by by eapply (inv_cancels _ _ _ HI), list_elem_of_In, list_elem_of_lookup_2.
    pose proof (cancel_inv 0 0 range s HI Hr) as HC. destruct (cancel range s) as [s1 l] eqn:EC. destruct HC as (HI1 & Hs & _). cbn [fst].
    assert (mShrinking s1 = mShrinking s /\ mCancels s1 = mCancels s) as [E1 E2].
    { unfold cancel in EC. destruct (cancel_map _ _), (cancel_map _ _). by injection EC as <- _. }
    eapply still_simulates; [|exact Hs|exact HA]. rewrite <- E1. apply set_cancels_inv; [done|]. intros r Hr'%delete_in. by apply (inv_cancels _ _ _ HI).
  - destruct (mShrinking s) as [[[n o] l]|] eqn:E; [|done]. cbn [mbind option_bind]. destruct (downloads_present l s) eqn:El; [done|]. intros [= <- <-].
    destruct (inv_shrink _ _ _ HI n o l E) as (_ & -> & _). by apply shrunk_simulates with (l := l).
  - by apply flushed_simulates.
Qed.

(** *** Runs *)

(** Any sequence of steps from a file that has just been added to the service. *)
Inductive reachable (size : Z) (cloud : Z -> Z) : State -> list Label -> Prop :=
| reachable_init : reachable size cloud (init size cloud) []
| reachable_step s ls ev s' ls' : reachable size cloud s ls -> orderly ev s -> step options ev s = Some (s', ls') ->
    reachable size cloud s' (ls ++ ls').

Lemma replays_app ls ls' f : replays (ls ++ ls') f <-> replays ls f /\ replays ls' (apply_labels ls f).
Proof.
  revert f. induction ls as [|l ls IH]; intros f; cbn [app replays]; [by split; [|intros [_ H]]|].
  rewrite IH. unfold apply_labels. cbn [foldl]. tauto.
Qed.

Lemma init_inv size cloud : 0 <= size < 2 ^ 63 -> Inv 0 0 (init size cloud).
Proof.
  intros Hs. split; cbn; try done.
  - split; cbn; try done; [by split; constructor|constructor|]. intros p Hp. unfold byte_at. by destruct (p <? 0), (Z.to_nat p).
  - split; [by split; constructor|by intros ? []|by intros ? ? []].
  - split; [by split; constructor|by intros ? []|by intros ? ? []].
  - by left.
Qed.

Lemma reachable_simulates size cloud s ls : 0 <= size < 2 ^ 63 -> reachable size cloud s ls ->
  simulates (MkFile size cloud) (s, ls).
Proof.
  intros Hs HR. induction HR as [|s ls ev s' ls' HR (HI & Hl & HA) Ho E].
  - split; [by apply init_inv|]. by split.
  - destruct (step_simulates ev s _ s' ls' HI HA Ho E) as (HI' & Hl' & HA'). split; [done|]. cbn [fst snd] in *. split.
    + by apply replays_app.
    + unfold apply_labels in *. by rewrite foldl_app.
Qed.

(** A run given by its steps. *)
Fixpoint run (evs : list Event) (s : State) : option (State * list Label) :=
  match evs with
  | [] => Some (s, [])
  | ev :: evs => '(s, ls) ← step options ev s; '(s, ls') ← run evs s; Some (s, ls ++ ls')
  end.

Fixpoint orderly_run (evs : list Event) (s : State) : Prop :=
  match evs with
  | [] => True
  | ev :: evs => orderly ev s /\ match step options ev s with Some (s, _) => orderly_run evs s | None => True end
  end.

#[export] Instance orderly_run_dec evs : forall s, Decision (orderly_run evs s).
Proof.
  induction evs as [|ev evs IH]; intros s; cbn [orderly_run]; [apply _|]. destruct (step options ev s) as [[s' ls]|]; apply _.
Defined.

Lemma run_reachable size cloud evs : forall s ls s' ls', reachable size cloud s ls -> orderly_run evs s -> run evs s = Some (s', ls') ->
  reachable size cloud s' (ls ++ ls').
Proof.
  induction evs as [|ev evs IH]; intros s ls s' ls' HR; cbn [run orderly_run].
  - intros _ [= <- <-]. by rewrite app_nil_r.
  - intros [Ho Hrun]. destruct (step options ev s) as [[s1 ls1]|] eqn:E; [|done]. cbn [mbind option_bind].
    destruct (run evs s1) as [[s2 ls2]|] eqn:E2; [|done]. cbn [mbind option_bind]. intros [= <- <-]. rewrite app_assoc.
    apply (IH s1 _ s2 ls2); [by eapply reachable_step|done|done].
Qed.

End steps.

End CacheInvariant.

(** ** The cache is a file *)

Import FileRange FileContext CacheInvariant.

(** C29: In every interleaving of the requests, downloads, callbacks and
    cancellations of any number of threads whose requests are [orderly], the cache
    is a plain file: every read gets the bytes that the writes, appends and
    truncations completed before it leave of the node's content, and what is on
    disk together with the node is that file.  Orderly: the ranges of reads and
    writes are ordered and the buffer of a write has the length of its range; the
    file stays smaller than 2^63; an append has bytes to write, and writes all of
    them or none; and a reclamation is executed only while the file is not dirty.
    Without the last two the claim is false ([failed_append_appears],
    [reclaim_drops_write]). *)
Theorem cache_is_file options size cloud s ls : options_ok options -> 0 <= size < 2 ^ 63 -> reachable options size cloud s ls ->
  replays ls (MkFile size cloud) /\ abstracts s (apply_labels ls (MkFile size cloud)).
Proof. intros Ho Hs HR. by destruct (reachable_simulates options Ho size cloud s ls Hs HR) as (_ & H1 & H2). Qed.

(** C30: In the same runs: the ranges on disk lie in the file and do not touch each other, and the
    database has the same ranges; downloads lie in the file; a file that is not dirty
    is the node; only reads whose data is not on disk wait; and there is at most one
    writer, and no reader with it. *)
Theorem cache_invariant options size cloud s ls : options_ok options -> 0 <= size < 2 ^ 63 -> reachable options size cloud s ls ->
  (forall e, In e (mOnDisk s) -> 0 <= mBegin e.1 < mEnd e.1 /\ mEnd e.1 <= mSize s)
  /\ StronglySorted Ranges.separated (mOnDisk s)
  /\ Permutation (db_ranges (mDatabase s)) (map fst (mOnDisk s))
  /\ (forall e, In e (mLarge s) \/ In e (mSmall s) -> 0 <= mBegin e.1 < mEnd e.1 /\ mEnd e.1 <= mSize s)
  /\ (mDirty s = false -> forall p, 0 <= p < mSize s -> file_content s p = mCloud s p)
  /\ (forall r, In r (mPendingReadRequests s) -> covered (mBegin (mRange r)) (mOnDisk s) = false)
  /\ lock_ok (mReadWriteState s) (readers (mPendingReadRequests s) (mCompleted s) (mFlushing s)) (writers (mCompleted s) (mShrinking s)).
Proof.
  intros Ho Hs HR. destruct (reachable_simulates options Ho size cloud s ls Hs HR) as (HI & _). cbn [fst] in HI.
  destruct HI as [[D1 D2 D3 D4 D5 D6] [L1 L2 L3] [S1 S2 S3] I4 I5 I6 I7 I8 I9].
  assert (forall V (m : list (FileRange * V)) e, Ranges.disjoint_ranges m -> In e m -> mBegin e.1 < mEnd e.1) as Hne
    by (intros V m e Hm; by apply RangeFacts.nonempty_in).
  split_and!; try done.
  - intros e He. specialize (D4 e He). pose proof (Hne _ _ e D2 He). lia.
  - intros e [He|He]; [specialize (L2 e He); pose proof (Hne _ _ e L1 He)|specialize (S2 e He); pose proof (Hne _ _ e S1 He)]; lia.
  - intros Hd p Hp. unfold file_content. destruct (covered p (mOnDisk s)) eqn:Ec; [by apply I4|done].
  - intros r Hr. by destruct (I5 r Hr) as (_ & _ & Hc).
Qed.

(** *** A run *)

(** A read, a write and an append wait for the lock while downloads deliver; a large
    read is cut off by a truncation. *)
Definition example_options : ServiceOptions := MkServiceOptions 8 2 0 100 2 4.

Definition example_run : list Event :=
  let o := MkOracle 1000 8000 true in
  let read b e := Submit o (Read (MkRead (MkFileRange b e) true)) in
  [read 2 4; Submit o (Write (MkFileRange 0 3) (Some [7; 8; 9])); Data 0 1000 4; Ended 0 FILE_SUCCESS; Callback 0; Execute o;
   read 0 20; Callback 0; Cancel 0; Execute o; Callback 0; Execute o; read 10 30; Data 1 1000 8; Submit o (Truncate 20);
   Data 1 1000 16; Ended 1 FILE_CANCELLED; Callback 0; Execute o; Shrunk; Submit o (Append [1; 2; 3]); Callback 0; Execute o;
   Callback 0; Execute o; read 15 30; Callback 0].

Definition example_labels : list Label :=
  [ReadBytes (MkFileRange 2 4) [102; 103]; Written 0 [7; 8; 9]; ReadBytes (MkFileRange 0 6) [7; 8; 9; 103; 104; 105];
   ReadBytes (MkFileRange 10 14) [110; 111; 112; 113]; Truncated 20; Written 20 [1; 2; 3];
   ReadBytes (MkFileRange 15 23) [115; 116; 117; 118; 119; 1; 2; 3]].

Lemma example_reachable : exists s, reachable example_options 32 (fun p => p + 100) s example_labels
  /\ mOnDisk s = [(MkFileRange 0 23, tt)] /\ mDirty s = true.
Proof.
  assert (exists s, run example_options example_run (init 32 (fun p => p + 100)) = Some (s, example_labels)
    /\ mOnDisk s = [(MkFileRange 0 23, tt)] /\ mDirty s = true) as (s & E & H).
  { eexists. split; [vm_compute; reflexivity|]. by split. }
  exists s. split; [|exact H]. apply (run_reachable _ _ _ example_run (init 32 (fun p => p + 100)) [] s example_labels (reachable_init _ _ _)); [|exact E].
  apply (bool_decide_unpack _). vm_compute. exact I.
Qed.

Lemma cache_is_file_witness : exists s,
  replays example_labels (MkFile 32 (fun p => p + 100)) /\ abstracts s (apply_labels example_labels (MkFile 32 (fun p => p + 100))).
Proof.
  destruct example_reachable as (s & HR & _). exists s. apply (cache_is_file example_options); [vm_compute; intuition discriminate|lia|exact HR].
Defined.

Lemma cache_invariant_witness : exists s, mOnDisk s = [(MkFileRange 0 23, tt)] /\ Permutation (db_ranges (mDatabase s)) [MkFileRange 0 23].
Proof.
  destruct example_reachable as (s & HR & Hd & _). exists s. split; [exact Hd|].
  destruct (cache_invariant example_options 32 (fun p => p + 100) s example_labels) as (_ & _ & HP & _);
    [vm_compute; intuition discriminate|lia|exact HR|]. rewrite Hd in HP. exact HP.
Defined.

(** ** Where the code falls short

    Runs that the conditions above exclude, or that the cache survives but its
    database does not. *)

Definition any_oracle : Oracle := MkOracle 1000 8000 true.

(** A file that shrinks in front of everything on disk keeps its old size in the
    database. *)
Lemma shrink_keeps_old_size : exists s,
  run example_options [Submit any_oracle (Truncate 20); Shrunk] (init 32 (fun p => p + 100)) = Some (s, [Truncated 20])
  /\ mSize s = 20 /\ db_size (mDatabase s) = 32.
Proof. eexists. split; [vm_compute; reflexivity|]. by split. Qed.

(** A large read that begins in front of the large download in progress, as the read
    of a fetch does, still waits when all downloads have ended. *)
Lemma stray_read : exists s ls,
  run example_options
    [Submit any_oracle (Read (MkRead (MkFileRange 12 32) true)); Submit any_oracle (Read (MkRead (MkFileRange 0 32) false));
     Data 0 1000 20; Ended 0 FILE_SUCCESS; Callback 0] (init 32 (fun p => p + 100)) = Some (s, ls)
  /\ mLarge s = [] /\ mSmall s = [] /\ mReplaced s = [] /\ mCompleted s = []
  /\ map mRange (mPendingReadRequests s) = [MkFileRange 0 32] /\ mReadWriteState s = -1.
Proof. eexists _, _. split; [vm_compute; reflexivity|]. by split_and!. Qed.

(** The canceller of a write runs when another thread reads already: it takes the
    front of the download away from the read, which is neither served nor failed
    when the download fails, and keeps the lock. *)
Lemma cancel_strands_read : exists s ls,
  run example_options
    [Submit any_oracle (Read (MkRead (MkFileRange 0 32) true)); Data 0 1000 4; Callback 0;
     Submit any_oracle (Write (MkFileRange 10 12) (Some [7; 8])); Callback 0;
     Submit any_oracle (Read (MkRead (MkFileRange 6 10) true)); Cancel 0; Ended 0 FILE_FAILED;
     Execute any_oracle; Execute any_oracle] (init 32 (fun p => p + 100)) = Some (s, ls)
  /\ mLarge s = [] /\ mSmall s = [] /\ mReplaced s = [] /\ mCompleted s = [] /\ mExecutions s = 0%nat
  /\ map mRange (mPendingReadRequests s) = [MkFileRange 6 10] /\ mReadWriteState s = -1.
Proof. eexists _, _. split; [vm_compute; reflexivity|]. by split_and!. Qed.

(** What a failed append has written appears when the file grows. *)
Lemma failed_append_appears : exists s,
  run example_options
    [Submit (MkOracle 6 8000 true) (Append [1; 2; 3]); Callback 0; Execute any_oracle; Submit any_oracle (Truncate 8); Callback 0;
     Execute any_oracle; Submit any_oracle (Read (MkRead (MkFileRange 4 8) true)); Callback 0] (init 4 (fun p => p + 100))
    = Some (s, [Truncated 8; ReadBytes (MkFileRange 4 8) [1; 2; 0; 0]])
  /\ ~ replays [Truncated 8; ReadBytes (MkFileRange 4 8) [1; 2; 0; 0]] (MkFile 4 (fun p => p + 100)).
Proof. eexists. split; [vm_compute; reflexivity|]. vm_compute. intuition discriminate. Qed.

(** An append of nothing adds a range that is empty. *)
Lemma empty_append_adds_range : exists s ls,
  run example_options [Submit any_oracle (Append [])] (init 4 (fun p => p + 100)) = Some (s, ls) /\ mOnDisk s = [(MkFileRange 4 4, tt)].
Proof. eexists _, _. split; [vm_compute; reflexivity|done]. Qed.

(** A write that gets the lock between the flush of a reclamation and its execution
    is lost. *)
Lemma reclaim_drops_write : exists s,
  run example_options
    [Submit any_oracle Flush; QueueReclaim; Callback 0; Submit any_oracle (Write (MkFileRange 0 1) (Some [7])); Callback 0; Execute any_oracle]
    (init 4 (fun p => p + 100)) = Some (s, [Written 0 [7]])
  /\ mDirty s = true /\ file_content s 0 = 100.
Proof. eexists. split; [vm_compute; reflexivity|]. by split. Qed.
