(* ===== verification/FileServing.v ===== *)
(** * Every read of a file's cache is served

    The progress of the requests of [FileContext] (FileCache.v): a read that waits is
    one that a download in progress will serve or fail, and a request that waits for
    the lock is taken up when the lock is released.

    What this takes is made explicit ([attended]).  Requests are orderly.  No large
    read that is no jump begins in front of the large download in progress: it would
    be lost ([stray]; [stray_read] of FileCache.v shows it happen).  The canceller of
    a write runs before other reads wait, as it does when the thread that writes is
    not overtaken: otherwise a read can be lost ([cancel_strands_read]).  And a
    reclamation is queued while its flush still holds the lock. *)

From S2P Require Import Prelude AvlTree RangeTree FileCache.
Local Open Scope Z_scope.
Import FileRange FileContext RangeFacts RangeListFacts CacheInvariant.

Module FileServing.

Section serving.
Context (options : ServiceOptions).

(** A large read that no download will serve. *)
Definition stray (o : Oracle) (request : FileReadRequest) (s : State) : bool :=
  let range := FileRange.clamp (mRange request) 0 (mSize s) in
  let request := MkRead range (mIsJumpCandidate request) in
  if FileRange.empty range then false
  else
    let s := if isJump options o request s then replaced s else s in
    (mImmediateDownloadThreshold options <? FileRange.length_ range)
      && (match isSmallPrefix options range s with Some _ => false | None => true end)
      && negb (covered (mBegin range) (mOnDisk s))
      && (match mLarge s with [] => false | _ => negb (covered (mBegin range) (mLarge s)) end).

Definition attended_request (o : Oracle) (request : Request) (s : State) : Prop :=
  match request with Read r => stray o r s = false | _ => True end.

(** Orderly steps that lose no read. *)
Definition attended (ev : Event) (s : State) : Prop :=
  orderly ev s /\
  match ev with
  | Submit o request => attended_request o request s
  | Execute o => match mRequests s with request :: _ => attended_request o request s | [] => True end
  | QueueReclaim => mReadWriteState s <> 0
  | Cancel _ => mPendingReadRequests s = []
  | _ => True
  end.

(** What serves a read that begins at a position, or fails it. *)
Definition served (s : State) (b : Z) : Prop :=
  covered b (mLarge s) = true \/ covered b (mSmall s) = true \/ exists r, In r (mReplaced s) /\ mBegin r <= b <= mEnd r.

Definition on_disk (s : State) (p : Z) : Prop := covered p (mOnDisk s) = true.

(** Downloads have names of their own, and what they have passed is on disk. *)
Record downloads_good (s : State) : Prop := {
  dg_ids : NoDup (ids (mLarge s) ++ ids (mSmall s));
  dg_fresh : forall i, In i (ids (mLarge s) ++ ids (mSmall s)) -> (i < mNext s)%nat;
  dg_progress : forall e, In e (mLarge s) \/ In e (mSmall s) -> progress (on_disk s) e
}.

Definition pending_served (s : State) : Prop :=
  forall r, In r (mPendingReadRequests s) -> served s (mBegin (mRange r)).

(** A request waits while the lock is held or somebody will look for it. *)
Definition requests_waiting (s : State) : Prop :=
  mRequests s <> [] -> mReadWriteState s <> 0 \/ (0 < mExecutions s)%nat.

Definition serving (s : State) : Prop := downloads_good s /\ pending_served s.

(** *** What does not matter *)

Lemma progress_mono (C C' : Z -> Prop) e : (forall p, C p -> C' p) -> progress C e -> progress C' e.
Proof. intros HC (H1 & H2 & H3). split_and!; [|done|done]. intros p Hp. by apply HC, H1. Qed.

Lemma downloads_good_mono s s' : mLarge s' = mLarge s -> mSmall s' = mSmall s -> mNext s' = mNext s ->
  (forall e p, In e (mLarge s) \/ In e (mSmall s) -> p < mEnd e.1 -> on_disk s p -> on_disk s' p) -> downloads_good s -> downloads_good s'.
Proof.
  intros EL ES EN HC [H1 H2 H3]. split; rewrite ?EL, ?ES, ?EN; [done|done|]. intros e He. destruct (H3 e He) as (P1 & P2 & P3).
  split_and!; [|done|done]. intros p Hp. apply (HC e); [done|lia|by apply P1].
Qed.

Lemma pending_served_mono s s' : mLarge s' = mLarge s -> mSmall s' = mSmall s -> mReplaced s' = mReplaced s ->
  (forall r, In r (mPendingReadRequests s') -> In r (mPendingReadRequests s)) -> pending_served s -> pending_served s'.
Proof. intros EL ES ER HP H r Hr. unfold served. rewrite EL, ES, ER. by apply H, HP. Qed.

Lemma serving_mono s s' : mLarge s' = mLarge s -> mSmall s' = mSmall s -> mReplaced s' = mReplaced s -> mNext s' = mNext s ->
  (forall r, In r (mPendingReadRequests s') -> In r (mPendingReadRequests s)) -> (forall p, on_disk s p -> on_disk s' p) ->
  serving s -> serving s'.
Proof.
  intros EL ES ER EN HP HC [H1 H2]. split; [|by eapply pending_served_mono].
  eapply downloads_good_mono; try done. intros e p _ _. apply HC.
Qed.

Lemma serving_alone s s' : mLarge s' = mLarge s -> mSmall s' = mSmall s -> mNext s' = mNext s -> mPendingReadRequests s' = [] ->
  (forall e p, In e (mLarge s) \/ In e (mSmall s) -> p < mEnd e.1 -> on_disk s p -> on_disk s' p) -> serving s -> serving s'.
Proof. intros EL ES EN EP HC [H _]. split; [by eapply downloads_good_mono|]. intros r Hr. by rewrite EP in Hr. Qed.

(** *** Downloads that end *)

Lemma failed_fields range result s : let s' := failed range result s in
  mLarge s' = mLarge s /\ mSmall s' = mSmall s /\ mReplaced s' = mReplaced s /\ mNext s' = mNext s /\ mOnDisk s' = mOnDisk s
  /\ forall r, In r (mPendingReadRequests s') -> In r (mPendingReadRequests s) /\ failing range s r = false.
Proof.
  unfold failed. rewrite partition_as_filter. cbn. split_and!; try done. intros r [Hr Hf%negb_true_iff]%in_filter. done.
Qed.

(** The reads of a range fail unless a download serves them. *)
Lemma failed_pending range result s :
  (forall r, In r (mPendingReadRequests s) -> served s (mBegin (mRange r)) \/ mBegin range <= mBegin (mRange r) <= mEnd range) ->
  pending_served (failed range result s).
Proof.
  intros HP r Hr. destruct (failed_fields range result s) as (EL & ES & ER & _ & _ & Hp). destruct (Hp r Hr) as [Hin Hf].
  unfold served. rewrite EL, ES, ER. destruct (HP r Hin) as [H|[H1 H2]]; [done|].
  unfold failing in Hf. rewrite (proj2 (Z.leb_le _ _) H1), (proj2 (Z.leb_le _ _) H2) in Hf. cbn [andb] in Hf.
  destruct (covered _ (mLarge s)) eqn:EcL; [by left|]. destruct (covered _ (mSmall s)) eqn:EcS; [by right; left|done].
Qed.

Lemma failed_downloads range result s : downloads_good s -> downloads_good (failed range result s).
Proof.
  destruct (failed_fields range result s) as (EL & ES & _ & EN & ED & _). apply downloads_good_mono; try done.
  intros e p _ _. unfold on_disk. by rewrite ED.
Qed.

Lemma covered_remove (m : RangeMap) e b : Ranges.disjoint_ranges m -> In e m -> covered b m = true ->
  covered b (Ranges.remove_at (mBegin e.1) m) = true \/ mBegin e.1 <= b < mEnd e.1.
Proof.
  intros Hm He (x & Hx & Hp)%covered_iff; [|done]. apply in_split in He as (m1 & m2 & ->). rewrite remove_at_split by done.
  apply in_app_iff in Hx as [Hx|[<-|Hx]]; [left|by right|left]; (apply covered_iff;
    [by apply (disjoint_remove m1 [e] m2)|exists x; split; [apply in_app_iff; by (left + right)|done]]).
Qed.

Lemma ids_remove (m : RangeMap) e : Ranges.disjoint_ranges m -> In e m -> Permutation (ids m) (d_id e.2 :: ids (Ranges.remove_at (mBegin e.1) m)).
Proof.
  intros Hm He. apply in_split in He as (m1 & m2 & ->). rewrite remove_at_split by done. unfold ids. rewrite !map_app. cbn [map].
  symmetry. apply Permutation_middle.
Qed.

(** A read that a download served, and that still waits, lies behind what it has done. *)
Lemma behind_progress s e b : progress (on_disk s) e -> covered b (mOnDisk s) = false ->
  mBegin e.1 <= b < mEnd e.1 -> mBegin (FileRange.new (d_end e.2) (mEnd e.1)) <= b <= mEnd (FileRange.new (d_end e.2) (mEnd e.1)).
Proof.
  intros (P1 & P2 & _) Hc Hb. unfold FileRange.new. cbn [mBegin mEnd]. destruct (Z.lt_ge_cases b (d_end e.2)) as [Hlt|Hge]; [|lia].
  specialize (P1 b ltac:(lia)). unfold on_disk in P1. congruence.
Qed.

(** A download is taken out of its map. *)
Definition drop (large : bool) (e : FileRange * Download) (more : list FileRange) (s : State) : State :=
  if large then set_downloads (Ranges.remove_at (mBegin e.1) (mLarge s)) (mSmall s) (mReplaced s ++ more) (mNext s) s
  else set_downloads (mLarge s) (Ranges.remove_at (mBegin e.1) (mSmall s)) (mReplaced s ++ more) (mNext s) s.

Definition in_map (large : bool) (e : FileRange * Download) (s : State) : Prop := In e (if large then mLarge s else mSmall s).

Lemma in_remove {V} p (m : list (FileRange * V)) x : In x (Ranges.remove_at p m) -> In x m.
Proof. unfold Ranges.remove_at. by intros [H _]%in_filter. Qed.

Lemma drop_good er ew large e more s : Inv er ew s -> in_map large e s -> downloads_good s -> downloads_good (drop large e more s).
Proof.
  intros HI He [H1 H2 H3]. pose proof (dl_disjoint _ _ _ _ (inv_large _ _ _ HI)) as HL. pose proof (dl_disjoint _ _ _ _ (inv_small _ _ _ HI)) as HS.
  assert (Permutation (ids (mLarge s) ++ ids (mSmall s)) (d_id e.2 :: ids (mLarge (drop large e more s)) ++ ids (mSmall (drop large e more s)))) as HP.
  { destruct large; cbn [drop mLarge mSmall set_downloads in_map] in *.
    - by rewrite (ids_remove (mLarge s) e HL He).
    - rewrite (ids_remove (mSmall s) e HS He). symmetry. apply Permutation_middle. }
  rewrite HP in H1. apply NoDup_cons in H1 as [_ H1]. split; [done| |].
  - intros i Hi. assert (mNext (drop large e more s) = mNext s) as -> by by destruct large.
    apply H2, list_elem_of_In. rewrite HP. right. by apply list_elem_of_In.
  - intros x Hx. apply (progress_mono (on_disk s)); [unfold on_disk; by destruct large|]. apply H3.
    destruct large; cbn [drop mLarge mSmall set_downloads] in Hx; destruct Hx as [Hx|Hx]; try (by left); try (by right).
    + left. by apply in_remove in Hx.
    + right. by apply in_remove in Hx.
Qed.

Lemma drop_served er ew large e more s b : Inv er ew s -> in_map large e s -> downloads_good s -> served s b -> covered b (mOnDisk s) = false ->
  served (drop large e more s) b \/ mBegin (FileRange.new (d_end e.2) (mEnd e.1)) <= b <= mEnd (FileRange.new (d_end e.2) (mEnd e.1)).
Proof.
  intros HI He [_ _ H3] Hb Hc. pose proof (dl_disjoint _ _ _ _ (inv_large _ _ _ HI)) as HL. pose proof (dl_disjoint _ _ _ _ (inv_small _ _ _ HI)) as HS.
  assert (progress (on_disk s) e) as Hp by (apply H3; destruct large; [by left|by right]).
  assert (forall m : RangeMap, Ranges.disjoint_ranges m -> In e m -> covered b m = true ->
    covered b (Ranges.remove_at (mBegin e.1) m) = true \/ mBegin (FileRange.new (d_end e.2) (mEnd e.1)) <= b <= mEnd (FileRange.new (d_end e.2) (mEnd e.1))) as Hm.
  { intros m Hm Hin Hcm. destruct (covered_remove m e b Hm Hin Hcm) as [H|H]; [by left|right]. by apply (behind_progress s). }
  unfold served. destruct large; cbn [drop mLarge mSmall mReplaced set_downloads in_map] in *; destruct Hb as [Hb|[Hb|(r & Hr & Hb)]].
  - destruct (Hm _ HL He Hb); tauto.
  - tauto.
  - left. right. right. exists r. split; [apply in_app_iff; by left|done].
  - tauto.
  - destruct (Hm _ HS He Hb); tauto.
  - left. right. right. exists r. split; [apply in_app_iff; by left|done].
Qed.

Lemma pending_not_on_disk er ew s r : Inv er ew s -> In r (mPendingReadRequests s) -> covered (mBegin (mRange r)) (mOnDisk s) = false.
Proof. intros HI Hr. apply (inv_pending _ _ _ HI r Hr). Qed.

Lemma drop_pending large e more s : mPendingReadRequests (drop large e more s) = mPendingReadRequests s.
Proof. by destruct large. Qed.

Lemma ended_serving large first d result s : Inv 0 0 s -> in_map large (first, d) s -> serving s -> serving (download_completed large first d result s).
Proof.
  intros HI He [Hg Hp]. unfold download_completed.
  assert ((if large then set_downloads (Ranges.remove_at (mBegin first) (mLarge s)) (mSmall s) (mReplaced s) (mNext s) s
           else set_downloads (mLarge s) (Ranges.remove_at (mBegin first) (mSmall s)) (mReplaced s) (mNext s) s) = drop large (first, d) [] s) as ->
    by (unfold drop; by rewrite app_nil_r).
  split; [by apply failed_downloads, (drop_good 0 0)|]. apply failed_pending. intros r Hr. rewrite drop_pending in Hr.
  apply (drop_served 0 0 large (first, d) [] s _ HI He Hg); [by apply Hp|by apply (pending_not_on_disk 0 0)].
Qed.

Lemma replaced_serving er ew s : Inv er ew s -> serving s -> serving (replaced s).
Proof.
  intros HI [Hg Hp]. unfold replaced. destruct (mLarge s) as [|[first d] rest] eqn:E; [done|].
  assert (in_map true (first, d) s) as He by (unfold in_map; rewrite E; by left).
  pose proof (dl_disjoint _ _ _ _ (inv_large _ _ _ HI)) as HL. rewrite E in HL.
  assert (set_downloads rest (mSmall s) (mReplaced s ++ [FileRange.new (d_end d) (mEnd first)]) (mNext s) s
    = drop true (first, d) [FileRange.new (d_end d) (mEnd first)] s) as ->.
  { unfold drop. rewrite E. pose proof (remove_at_split [] rest (first, d) HL) as H. cbn [app fst] in H. cbn [fst]. by rewrite H. }
  split; [by apply (drop_good er ew)|]. intros r Hr. rewrite drop_pending in Hr.
  destruct (drop_served er ew true (first, d) [FileRange.new (d_end d) (mEnd first)] s _ HI He Hg (Hp r Hr) (pending_not_on_disk er ew s r HI Hr)) as [H|H]; [done|].
  right. right. cbn [drop mReplaced set_downloads]. eexists. split; [apply in_app_iff; right; by left|exact H].
Qed.

Lemma replaced_ended_serving i range result s : serving s -> mReplaced s !! i = Some range ->
  serving (failed range result (set_downloads (mLarge s) (mSmall s) (delete i (mReplaced s)) (mNext s) s)).
Proof.
  intros [Hg Hp] Hi. split; [apply failed_downloads; eapply downloads_good_mono; [..|exact Hg]; done|]. apply failed_pending.
  intros r Hr. destruct (Hp r Hr) as [H|[H|(x & Hx & H)]]; [left; by left|left; right; by left|].
  apply list_elem_of_In in Hx. rewrite (delete_Permutation _ _ _ Hi) in Hx. apply elem_of_cons in Hx as [->|Hx]; [by right|left].
  right. right. exists x. split; [by apply list_elem_of_In|done].
Qed.

(** *** Downloads that deliver *)

Lemma NoDup_map_inj {A B} (g : A -> B) l x y : NoDup (map g l) -> In x l -> In y l -> g x = g y -> x = y.
Proof.
  induction l as [|z l IH]; [by intros _ []|]. cbn [map]. intros [Hz Hl]%NoDup_cons [<-|Hx] [<-|Hy] E; [done| | |by apply IH].
  - destruct Hz. rewrite E. by apply list_elem_of_In, List.in_map.
  - destruct Hz. rewrite <- E. by apply list_elem_of_In, List.in_map.
Qed.

Lemma unique_id s e e' : downloads_good s -> In e (mLarge s) \/ In e (mSmall s) -> In e' (mLarge s) \/ In e' (mSmall s) ->
  d_id e.2 = d_id e'.2 -> e = e'.
Proof.
  intros [H1 _ _] He He'. apply (NoDup_map_inj (fun e => d_id e.2) (mLarge s ++ mSmall s)); [by rewrite map_app|by apply in_app_iff|by apply in_app_iff].
Qed.

Lemma covered_fst {V W} (m : list (FileRange * V)) (m' : list (FileRange * W)) b : map fst m = map fst m' -> covered b m = covered b m'.
Proof.
  unfold covered, Ranges.contains, Ranges.endsAfter. revert m'. induction m as [|e m IH]; intros [|e' m']; cbn [map]; intros E; try discriminate E; [done|].
  injection E as E Em. cbn [List.find]. rewrite <- E. destruct (b <? mEnd e.1); [|by apply IH]. cbn [mbind option_bind]. rewrite <- E. by destruct (b <? mBegin e.1).
Qed.

Lemma modify_ids id f m : (forall d, d_id (f d) = d_id d) -> ids (modify_download id f m) = ids m.
Proof.
  intros Hf. unfold ids, modify_download. rewrite map_map. apply map_ext. intros e. destruct (Nat.eqb _ _); [|done]. cbn [snd]. apply Hf.
Qed.

(** A download changes in place. *)
Lemma modify_serving id f s : (forall d, d_id (f d) = d_id d) ->
  (forall e, In e (mLarge s) \/ In e (mSmall s) -> d_id e.2 = id -> progress (on_disk s) (e.1, f e.2)) ->
  serving s -> serving (modify_downloads id f s).
Proof.
  intros Hf HP [[H1 H2 H3] Hp]. split.
  - split; cbn [mLarge mSmall mNext modify_downloads set_downloads]; rewrite ?modify_ids by done; [done|done|].
    assert (forall m, (forall e, In e m -> In e (mLarge s) \/ In e (mSmall s)) -> forall e', In e' (modify_download id f m) -> progress (on_disk s) e') as Hm.
    { intros m Hm [r d'] (d0 & Hin & Hd)%modify_in. cbn [fst snd] in *. specialize (Hm _ Hin). destruct Hd as [->|[Hid ->]].
      - by apply H3.
      - by apply (HP (r, d0)). }
    intros e [He|He]; [apply (Hm (mLarge s)); [by left|done]|apply (Hm (mSmall s)); [by right|done]].
  - intros r Hr. unfold served. cbn [mLarge mSmall mReplaced modify_downloads set_downloads].
    rewrite (covered_fst (modify_download id f (mLarge s)) (mLarge s)), (covered_fst (modify_download id f (mSmall s)) (mSmall s)) by apply modify_fst.
    by apply Hp.
Qed.

Lemma data_serving limit length first d s : Inv 0 0 s -> In (first, d) (mLarge s) \/ In (first, d) (mSmall s) -> d_open d = true -> 0 <= length ->
  serving s -> serving (data limit length first d s).
Proof.
  intros HI Hin Ho Hlen HS.
  destruct (data_spec 0 0 limit length first d s HI Hin Hlen) as (e & o & s1 & -> & _ & _ & _ & EM & EP & EC & HE & HO).
  injection EM as EL ES ER EN. assert (serving s1) as HS1 by (apply (serving_mono s); done). destruct HS as [Hg _].
  apply modify_serving; [done| |done]. rewrite EL, ES. intros x Hx Hid. assert (x = (first, d)) as -> by (by apply (unique_id s)).
  destruct (dg_progress _ Hg (first, d) Hin) as (P1 & P2 & P3). cbn [fst snd] in *. specialize (P3 Ho). split_and!; cbn [fst snd d_end d_open d_next set_download].
  - intros p Hp. destruct HE as [->|[[HE0 HE1] HE2]]; [by apply EC, P1|]. destruct (Z.lt_ge_cases p (d_next d)) as [Hlt|Hge]; [|apply HE2; lia].
    apply EC, P1. lia.
  - by destruct HE as [->|[[_ HE1] _]].
  - intros Hopen. specialize (HO Hopen). lia.
Qed.

Lemma failure_serving id retryable overquota s : serving s -> serving (modify_downloads id (download_failed options retryable overquota) s).
Proof.
  intros HS. apply modify_serving; [|intros e He _|done].
  - intros d. unfold download_failed. by destruct (_ && _).
  - destruct (dg_progress _ (proj1 HS) e He) as (P1 & P2 & P3). unfold download_failed. destruct (_ && _); split_and!; cbn; try done.
Qed.

(** *** Downloads that begin *)

Lemma covered_add (r : FileRange) (v : Download) m : Ranges.disjoint_ranges m -> mBegin r < mEnd r ->
  (forall b, covered b m = true -> covered b (Ranges.add r v m).2 = true) /\ covered (mBegin r) (Ranges.add r v m).2 = true.
Proof.
  intros Hm Hr. pose proof (add_disjoint r v m Hm Hr) as Hd.
  destruct (add_cases r v m Hm Hr) as [(x & Ex & Hx & E)|(a & b & r' & Em & E & H1 & H2 & _)]; rewrite E in Hd |- *; cbn [snd] in *.
  - split; [done|]. apply List.find_some in Ex as [Hin Hlt%Z.ltb_lt]. apply covered_iff; [done|]. by exists x.
  - split.
    + intros p (x & Hx & Hp)%covered_iff; [|done]. apply covered_iff; [done|]. exists x. split; [|done]. rewrite Em in Hx.
      apply in_app_iff in Hx as [Hx|Hx]; apply in_app_iff; [by left|right; by right].
    + apply covered_iff; [done|]. exists (r', v). split; [apply in_app_iff; right; by left|]. cbn [fst]. lia.
Qed.

Lemma added_ids (r : FileRange) (v : Download) m : Ranges.disjoint_ranges m -> mBegin r < mEnd r ->
  (Ranges.add r v m).2 = m \/ Permutation (ids (Ranges.add r v m).2) (d_id v :: ids m).
Proof.
  intros Hm Hr. destruct (add_cases r v m Hm Hr) as [(x & _ & _ & E)|(a & b & r' & -> & E & _)]; rewrite E; cbn [snd]; [by left|right].
  unfold ids. rewrite !map_app. cbn [map snd]. symmetry. apply Permutation_middle.
Qed.

Lemma added_good er o large range s : Inv er 0 s -> mBegin range < mEnd range -> downloads_good s -> downloads_good (addDownload o large range s).
Proof.
  intros HI Hr Hg. pose proof (dl_disjoint _ _ _ _ (inv_large _ _ _ HI)) as HL. pose proof (dl_disjoint _ _ _ _ (inv_small _ _ _ HI)) as HS.
  unfold addDownload. destruct (o_created o); [|by apply failed_downloads]. set (d := MkDownload _ _ _ _ _ _).
  destruct Hg as [H1 H2 H3].
  assert (forall m e, Ranges.disjoint_ranges m -> In e (Ranges.add range d m).2 -> In e m \/ progress (on_disk s) e) as Hprog.
  { intros m e Hm He. pose proof (nonempty_in _ e (add_disjoint range d m Hm Hr) He) as Hne.
    apply added_in in He as [He|(E1 & E2 & E3)]; [by left| |done|done]. right. unfold progress. rewrite E1. cbn [d_end d_next d_open d].
    split_and!; [intros p Hp; lia|lia|intros _; left; lia]. }
  assert (~ In (mNext s) (ids (mLarge s) ++ ids (mSmall s))) as Hnew by (intros H%H2; lia).
  destruct large; split; cbn [mLarge mSmall mNext set_downloads].
  - destruct (added_ids range d (mLarge s) HL Hr) as [->|E]; [done|]. rewrite E. cbn [app]. apply NoDup_cons. split; [|done]. by rewrite list_elem_of_In.
  - intros i Hi. destruct (added_ids range d (mLarge s) HL Hr) as [E|E]; [rewrite E in Hi; specialize (H2 i Hi); lia|].
    apply list_elem_of_In in Hi. rewrite E in Hi. cbn [app] in Hi. apply elem_of_cons in Hi as [->|Hi%list_elem_of_In]; [cbn; lia|specialize (H2 i Hi); lia].
  - intros e [He|He]; [|by apply H3; right]. destruct (Hprog _ e HL He) as [He'|He']; [by apply H3; left|done].
  - destruct (added_ids range d (mSmall s) HS Hr) as [->|E]; [done|]. rewrite E, <- Permutation_middle. apply NoDup_cons. split; [|done]. by rewrite list_elem_of_In.
  - intros i Hi. destruct (added_ids range d (mSmall s) HS Hr) as [E|E]; [rewrite E in Hi; specialize (H2 i Hi); lia|].
    apply list_elem_of_In in Hi. rewrite E, <- Permutation_middle in Hi. apply elem_of_cons in Hi as [->|Hi%list_elem_of_In]; [cbn; lia|specialize (H2 i Hi); lia].
  - intros e [He|He]; [by apply H3; left|]. destruct (Hprog _ e HS He) as [He'|He']; [by apply H3; right|done].
Qed.

(** A read that a new download covers is served, or fails with it. *)
Lemma added_serving er o large range s : Inv er 0 s -> mBegin range < mEnd range -> downloads_good s ->
  (forall r, In r (mPendingReadRequests s) -> served s (mBegin (mRange r)) \/
     (mBegin range <= mBegin (mRange r) <= mEnd range
      /\ forall d : Download, covered (mBegin (mRange r)) (Ranges.add range d (if large : bool then mLarge s else mSmall s)).2 = true)) ->
  serving (addDownload o large range s).
Proof.
  intros HI Hr Hg HP. split; [by apply (added_good er)|].
  pose proof (dl_disjoint _ _ _ _ (inv_large _ _ _ HI)) as HL. pose proof (dl_disjoint _ _ _ _ (inv_small _ _ _ HI)) as HS.
  unfold addDownload. destruct (o_created o); [|apply failed_pending; intros r Hin; destruct (HP r Hin) as [H|[H _]]; [by left|by right]].
  set (d := MkDownload _ _ _ _ _ _). intros r Hin. destruct large; cbn [mPendingReadRequests set_downloads] in Hin; unfold served; cbn [mLarge mSmall mReplaced set_downloads].
  - destruct (HP r Hin) as [[H|H]|[_ H]]; [left; by apply covered_add|by right|left; apply H].
  - destruct (HP r Hin) as [[H|[H|H]]|[_ H]]; [tauto|right; left; by apply covered_add|tauto|right; left; apply H].
Qed.

(** *** Reads that begin *)

Lemma queued_serving r s : serving s -> served s (mBegin (mRange r)) -> serving (queueRequest r s).
Proof.
  intros [Hg Hp] Hs. split; [by apply (downloads_good_mono s)|]. intros x [->|Hx]%insert_read_in; [exact Hs|by apply Hp].
Qed.

Lemma on_disk_serving range s s' : completeIfOnDisk range s = Some s' -> serving s -> serving s'.
Proof.
  unfold completeIfOnDisk. destruct (Ranges.contains _ _); [|done]. intros [= <-]. by apply (serving_mono s).
Qed.

(** The first gap from a position on begins there, or a range contains it. *)
Lemma first_gap_begin (m : RangeMap) b e : Ranges.disjoint_ranges m -> b < e ->
  let gap := Ranges.first_gap (MkFileRange b e) m in
  covered b m = true \/ (FileRange.empty gap = false /\ mBegin gap = b).
Proof.
  intros Hm Hb. unfold Ranges.first_gap. cbn [mBegin mEnd]. rewrite (proj2 (Z.leb_gt _ _)) by done.
  destruct (List.filter _ m) as [|x l] eqn:E; [right; split; [apply Z.eqb_neq; cbn [mBegin mEnd]; lia|done]|].
  assert (In x m /\ b < mEnd x.1) as [Hx Hbx].
  { assert (In x (x :: l)) as Hin by by left. rewrite <- E in Hin. apply in_filter in Hin as [H1 H2%Z.ltb_lt]. done. }
  destruct (Z.ltb_spec b (mBegin x.1)) as [Hlt|Hge]; [right; split; [apply Z.eqb_neq; cbn [mBegin mEnd]; lia|done]|].
  left. apply covered_iff; [done|]. by exists x.
Qed.

Lemma small_read_serving o r s : options_ok options -> Inv 1 0 s -> read_ok s (mRange r) -> serving s -> serving (small_read options o r s).
Proof.
  intros Ho HI Hr HS. unfold small_read. destruct (completeIfOnDisk _ _) as [s1|] eqn:E; [by eapply on_disk_serving|].
  pose proof (queue_inv r s HI Hr (not_on_disk _ _ E)) as HI1. set (s1 := queueRequest r s) in *.
  destruct (match Ranges.contains _ (mLarge s1) with Some e => _ | None => false end) eqn:Esoon.
  { apply queued_serving; [done|]. left. unfold covered. cbn [s1 mLarge queueRequest set_pending] in Esoon. by destruct (Ranges.contains _ (mLarge s)). }
  set (gap := Ranges.first_gap _ _). destruct Hr as [Hr1 Hr2]. pose proof (dl_disjoint _ _ _ _ (inv_small _ _ _ HI1)) as HD.
  destruct Ho as (_ & _ & _ & Hmin).
  pose proof (first_gap_begin (mSmall s1) (mBegin (mRange r)) (mBegin (mRange r) + Z.min (Z.max (mMinimumRangeSize options) (FileRange.length_ (mRange r))) (mSize s1 - mBegin (mRange r))) HD) as Hb.
  pose proof (disk_size _ _ _ _ (inv_disk _ _ _ HI)) as Hsize. assert (FileRange.length_ (mRange r) = mEnd (mRange r) - mBegin (mRange r)) as El by (apply wrapu_id; lia).
  specialize (Hb ltac:(change (mSize s1) with (mSize s); rewrite El; lia)). fold gap in Hb. cbn zeta in Hb.
  assert (forall x, In x (mPendingReadRequests s1) -> served s1 (mBegin (mRange x)) \/ mBegin (mRange x) = mBegin (mRange r)) as HP.
  { intros x [->|Hx]%insert_read_in; [by right|left]. by apply HS. }
  assert (downloads_good s1) as Hg by (apply (downloads_good_mono s); try done; apply HS).
  destruct (FileRange.empty gap) eqn:Eg.
  - split; [done|]. intros x Hx. destruct (HP x Hx) as [H| ->]; [done|]. destruct Hb as [Hb|[Hb _]]; [by right; left|done].
  - pose proof (first_gap_in _ _ Eg HD) as Hgap. fold gap in Hgap. cbn zeta in Hgap.
    apply (added_serving 0); [done|lia|done|]. intros x Hx. destruct (HP x Hx) as [H| ->]; [by left|].
    destruct Hb as [Hb|[_ <-]]; [left; by right; left|right]. split; [lia|]. intros d. apply covered_add; [done|lia].
Qed.

Lemma large_read_serving o r s : options_ok options -> 0 <= o_bitrate o -> Inv 1 0 s -> read_ok s (mRange r) -> serving s ->
  (mLarge s <> [] -> covered (mBegin (mRange r)) (mOnDisk s) = false -> covered (mBegin (mRange r)) (mLarge s) = true) ->
  serving (large_read options o r s).
Proof.
  intros Ho Hb HI Hr HS Hstray. unfold large_read. destruct (completeIfOnDisk (mRange r) s) as [s1|] eqn:E.
  - pose proof (on_disk_serving _ _ _ E HS) as HS1. destruct (complete_on_disk 0 _ _ _ HI Hr E) as [HI1 (E1 & _)].
    destruct (mLarge s1) as [|x l] eqn:EL; [|done]. destruct (_ =? 0) eqn:E0; [done|]. apply Z.eqb_neq in E0.
    assert (read_ok s1 (mRange r)) as Hr1 by (unfold read_ok; by rewrite E1).
    destruct (large_begin_spec options 0 0 o (mRange r) s1 Ho Hb HI1 Hr1) as [HB _].
    apply (added_serving 0); [done|cbn [mBegin mEnd]; lia|apply HS1|]. intros x Hx. left. by apply HS1.
  - pose proof (not_on_disk _ _ E) as Hc. pose proof (queue_inv r s HI Hr Hc) as HI1. set (s1 := queueRequest r s) in *.
    assert (mLarge s1 = mLarge s) as EL by done. rewrite EL.
    destruct (mLarge s) as [|x l] eqn:EL0; [|apply queued_serving; [done|left; rewrite EL0; by apply Hstray]].
    assert (read_ok s1 (mRange r)) as Hr1 by exact Hr.
    destruct (large_begin_spec options 0 0 o (mRange r) s1 Ho Hb HI1 Hr1) as [HB HB']. specialize (HB' Hc). destruct Hr as [Hr Hr2].
    change (mSize s1) with (mSize s) in *. rewrite (proj2 (Z.eqb_neq _ _)) by lia.
    apply (added_serving 0); [done|cbn [mBegin mEnd]; lia|apply (downloads_good_mono s); try done; apply HS|].
    intros x [->|Hx]%insert_read_in; [right|left; by apply HS]. cbn [mBegin mEnd]. split; [lia|]. intros d. rewrite EL.
    unfold covered, Ranges.add, Ranges.contains, Ranges.endsAfter. cbn [List.find snd Ranges.insert fst mBegin mEnd].
    rewrite (proj2 (Z.ltb_lt _ (mSize s))) by lia. cbn [mbind option_bind fst mBegin]. by rewrite (proj2 (Z.ltb_ge _ _)) by lia.
Qed.

Lemma small_prefix_ok range prefix s : isSmallPrefix options range s = Some prefix -> read_ok s range -> read_ok s prefix.
Proof.
  unfold isSmallPrefix. destruct (Ranges.beginsAfter _ _) as [e|] eqn:E; [|done]. apply List.find_some in E as [_ E%Z.ltb_lt].
  destruct (Z.leb_spec (mEnd range) (mBegin e.1)); [done|]. destruct (_ <? _); [done|]. intros [= <-] [H1 H2]. split; cbn [mBegin mEnd]; lia.
Qed.

Lemma execute_read_serving o r s : options_ok options -> 0 <= o_bitrate o -> 0 <= mBegin (mRange r) <= mEnd (mRange r) -> Inv 1 0 s ->
  stray o r s = false -> serving s -> serving (execute_read options o r s).
Proof.
  intros Ho Hb Hr HI Hstray HS. pose proof (disk_size _ _ _ _ (inv_disk _ _ _ HI)) as Hsize. unfold execute_read. unfold stray in Hstray.
  rewrite clamp_file in Hstray |- * by (done || lia). set (range := MkFileRange (Z.min _ _) (Z.min _ _)) in *.
  assert (0 <= mBegin range <= mEnd range /\ mEnd range <= mSize s) as Hrange by (cbn [range mBegin mEnd]; lia). clearbody range.
  unfold FileRange.empty in *. destruct (Z.eqb_spec (mBegin range) (mEnd range)) as [He|He]; [by apply (serving_mono s)|].
  cbn zeta in Hstray. set (s1 := if isJump _ _ _ _ then _ else _) in *.
  assert (Inv 1 0 s1 /\ same_disk s s1 /\ serving s1) as (HI1 & Hs1 & HS1).
  { unfold s1. destruct (isJump _ _ _ _); [|done]. destruct (replaced_inv 1 0 s HI). split_and!; [done|done|by apply (replaced_serving 1 0)]. }
  clearbody s1. destruct Hs1 as (E1 & E2 & E3 & _).
  assert (read_ok s1 range) as Hread by (split; [lia|]; rewrite E1; lia).
  destruct (_ <? FileRange.length_ range); [|by apply small_read_serving]. cbn [andb] in Hstray.
  destruct (isSmallPrefix options range s1) as [prefix|] eqn:E.
  - apply small_read_serving; try done. by eapply small_prefix_ok.
  - apply large_read_serving; try done. cbn [mRange]. intros Hne Hc. rewrite Hc in Hstray. cbn [andb negb] in Hstray.
    destruct (mLarge s1); [done|]. by apply negb_false_iff in Hstray.
Qed.

(** *** Writing and truncating *)

Lemma updated_on_disk er ew r buffer s p : Inv er ew s -> 0 <= mBegin r < mEnd r -> mEnd r < 2 ^ 63 -> on_disk s p -> on_disk (updateRanges r (set_buffer buffer s)) p.
Proof.
  intros HI Hr He Hp. unfold on_disk. rewrite updateRanges_fields. cbn [mOnDisk set_disk set_buffer].
  apply (updated_disk (mSize s) (mBuffer s) (mOnDisk s) (mDatabase s) r (mBuffer s) (inv_disk _ _ _ HI)); [done|done|done|by right].
Qed.

Lemma updated_serving er ew r buffer s s' : Inv er ew s -> 0 <= mBegin r < mEnd r -> mEnd r < 2 ^ 63 -> mPendingReadRequests s = [] -> serving s ->
  mLarge s' = mLarge s -> mSmall s' = mSmall s -> mNext s' = mNext s -> mPendingReadRequests s' = mPendingReadRequests s ->
  mOnDisk s' = mOnDisk (updateRanges r (set_buffer buffer s)) -> serving s'.
Proof.
  intros HI Hr He Hp HS EL ES EN EP ED. apply (serving_alone s); try done; [congruence|]. intros e p _ _ Hd. unfold on_disk. rewrite ED. by apply (updated_on_disk er ew).
Qed.

Lemma write_serving o r buffer s : Inv 0 1 s -> 0 <= mBegin r <= mEnd r -> mEnd r < 2 ^ 63 ->
  (match buffer with Some bytes => zlength bytes = mEnd r - mBegin r | None => True end) -> serving s -> serving (execute_write o r buffer s).1.
Proof.
  intros HI Hr He Hlen HS. destruct (writer_alone 0 1 s) as (Hp & _); [done|lia|destruct (mShrinking s); lia|done|].
  unfold execute_write. destruct (_ =? 0) eqn:E0; [by apply (serving_mono s)|]. destruct buffer as [bytes|]; [|by apply (serving_mono s)].
  pose proof (BufferFacts.write_spec (o_limit o) bytes (mBegin r) (mBuffer s) ltac:(lia)) as Hw. destruct (SparseFileBuffer.write _ _ _ (mBuffer s)) as [count buffer'].
  destruct Hw as [Hc _]. destruct (Z.eqb_spec count 0); [by apply (serving_mono s)|].
  apply (updated_serving 0 1 (MkFileRange (mBegin r) (mBegin r + count)) buffer' s); cbn [mBegin mEnd fst]; try done; try lia;
    unfold written; by rewrite !updateRanges_fields.
Qed.

Lemma append_serving o bytes s : Inv 0 1 s -> bytes <> [] -> mSize s + zlength bytes < 2 ^ 63 -> serving s -> serving (execute_append o bytes s).1.
Proof.
  intros HI Hne Hs HS. destruct (writer_alone 0 1 s) as (Hp & _); [done|lia|destruct (mShrinking s); lia|done|].
  pose proof (disk_size _ _ _ _ (inv_disk _ _ _ HI)) as Hsize. assert (0 < zlength bytes) as Hpos by (destruct bytes; [done|cbn [length]; lia]).
  unfold execute_append. destruct (SparseFileBuffer.write _ _ _ (mBuffer s)) as [count buffer']. destruct (_ <? _); [by apply (serving_mono s)|].
  apply (updated_serving 0 1 (MkFileRange (mSize s) (mSize s + zlength bytes)) buffer' s); cbn [mBegin mEnd fst]; try done; try lia;
    unfold written; by rewrite !updateRanges_fields.
Qed.

Lemma moved_serving s s' : mNext s' = mNext s -> moved (mLarge s) (mLarge s') -> moved (mSmall s) (mSmall s') -> mOnDisk s' = mOnDisk s ->
  mPendingReadRequests s' = [] -> serving s -> serving s'.
Proof.
  intros EN (_ & L2 & L3) (_ & S2 & S3) ED EP [[H1 H2 H3] _]. split; [|by intros r Hr; rewrite EP in Hr]. split; rewrite ?L2, ?S2, ?EN; [done|done|].
  intros e' [He|He]; [destruct (L3 e' He) as (e & Hin & Hs)|destruct (S3 e' He) as (e & Hin & Hs)];
    (apply (progress_mono (on_disk s)); [unfold on_disk; by rewrite ED|]; apply (smaller_progress _ _ Hs), H3; by (left + right)).
Qed.

Lemma cancel_serving er ew range s : Inv er ew s -> mBegin range <= mEnd range -> mPendingReadRequests s = [] -> serving s -> serving (cancel range s).1.
Proof.
  intros HI Hr Hp HS. pose proof (cancel_inv er ew range s HI Hr) as HC.
  assert (mNext (cancel range s).1 = mNext s /\ mPendingReadRequests (cancel range s).1 = mPendingReadRequests s) as [EN EP]
    by (unfold cancel; by destruct (cancel_map range (mLarge s)), (cancel_map range (mSmall s))).
  destruct (cancel range s) as [s' l]. destruct HC as (_ & (_ & _ & ED & _) & HL & HM & _). cbn [fst] in *. apply (moved_serving s); try done. congruence.
Qed.

Lemma truncate_serving size s : Inv 0 1 s -> 0 <= size < 2 ^ 63 -> serving s -> serving (execute_truncate size s).1.
Proof.
  intros HI Hsz HS. destruct (writer_alone 0 1 s) as (Hp & _); [done|lia|destruct (mShrinking s); lia|done|].
  pose proof (disk_size _ _ _ _ (inv_disk _ _ _ HI)) as Hsize. unfold execute_truncate.
  destruct (Z.eqb_spec size (mSize s)); [by apply (serving_mono s)|]. destruct (Z.ltb_spec (mSize s) size).
  - assert (updateRanges (MkFileRange (mSize s) size) (set_buffer (mBuffer s) s) = updateRanges (MkFileRange (mSize s) size) s) as E by by rewrite !updateRanges_fields.
    apply (updated_serving 0 1 (MkFileRange (mSize s) size) (mBuffer s) s); cbn [mBegin mEnd fst]; try done; try lia; rewrite ?E;
      unfold truncated; by rewrite !updateRanges_fields.
  - assert (mBegin (FileRange.new (mSize s) size) <= mEnd (FileRange.new (mSize s) size)) as Hr by (unfold FileRange.new; cbn [mBegin mEnd]; lia).
    pose proof (cancel_serving 0 1 _ s HI Hr Hp HS) as HC. destruct (cancel _ s) as [s1 l]. cbn [fst] in *. by apply (serving_mono s1).
Qed.

Lemma shrunk_serving newSize l s : Inv 0 0 s -> mShrinking s = Some (newSize, mSize s, l) -> downloads_present l s = false -> serving s ->
  serving (completed (WriterDone FILE_SUCCESS) (truncated newSize (shrink newSize (mSize s) (set_cancels (mCancels s) None s)))).
Proof.
  intros HI Es Hl HS. destruct (writer_alone 0 0 s) as (Hp & _); [done|done|rewrite Es; lia|done|].
  destruct (inv_shrink _ _ _ HI newSize (mSize s) l Es) as (Hn & _ & Hdl).
  destruct (shrink_disk newSize (set_cancels (mCancels s) None s) (inv_disk _ _ _ HI) Hn) as (ranges & db & Esh & _ & Hcov).
  cbn [mSize set_cancels] in Esh. rewrite Esh. apply (serving_alone s); try done. intros e p He Hpe Hd. unfold on_disk. cbn.
  rewrite Hcov; [exact Hd|]. destruct (Hdl e He) as [H|H]; [|lia]. by rewrite (download_present s e l He H) in Hl.
Qed.

Lemma reclaim_serving s : Inv 0 1 s -> serving s -> serving (execute_reclaim s).
Proof.
  intros HI HS. destruct (writer_alone 0 1 s) as (Hp & _); [done|lia|destruct (mShrinking s); lia|done|].
  unfold execute_reclaim. destruct (mLarge s) as [|x l] eqn:EL; [|by apply (serving_mono s)].
  destruct (mSmall s) as [|x l] eqn:ES; [|by apply (serving_mono s)].
  apply (serving_alone s); try done. intros e p He. rewrite EL, ES in He. by destruct He.
Qed.

Lemma execute_serving o request s : options_ok options -> (if is_read request then Inv 1 0 else Inv 0 1) s -> orderly_request o request s ->
  attended_request o request s -> serving s -> serving (execute options o request s).1.
Proof.
  intros Hopt HI Ho Ha HS. destruct request as [r|r buffer|bytes|size| |]; cbn [is_read execute orderly_request attended_request fst] in *.
  - destruct Ho as [Hb Hr]. by apply execute_read_serving.
  - destruct Ho as (H1 & H2 & H3). by apply write_serving.
  - destruct Ho as (H1 & H2 & _). by apply append_serving.
  - by apply truncate_serving.
  - unfold execute_flush. destruct (mDirty s); by apply (serving_mono s).
  - by apply reclaim_serving.
Qed.

(** *** The queue of requests *)

Definition queue_of (s : State) : list Request * Z * nat := (mRequests s, mReadWriteState s, mExecutions s).

Lemma failed_queue range result s : queue_of (failed range result s) = queue_of s.
Proof. unfold failed. by destruct (List.partition _ _). Qed.

Lemma added_queue o large range s : queue_of (addDownload o large range s) = queue_of s.
Proof. unfold addDownload. destruct (o_created o), large; try done; apply failed_queue. Qed.

Lemma small_read_queue o r s : queue_of (small_read options o r s) = queue_of s.
Proof.
  unfold small_read, completeIfOnDisk. destruct (Ranges.contains _ (mOnDisk s)); [done|]. case_match; [done|].
  destruct (FileRange.empty _); [done|]. by rewrite added_queue.
Qed.

Lemma large_read_queue o r s : queue_of (large_read options o r s) = queue_of s.
Proof.
  unfold large_read, completeIfOnDisk. destruct (Ranges.contains _ (mOnDisk s));
    (match goal with |- context [mLarge ?x] => destruct (mLarge x) end; [|done]); (destruct (_ =? 0); [done|]); by rewrite added_queue.
Qed.

Lemma execute_queue o request s : queue_of (execute options o request s).1 = queue_of s.
Proof.
  destruct request as [r|r buffer|bytes|size| |]; cbn [execute fst].
  - unfold execute_read. destruct (FileRange.empty _); [done|].
    assert (forall s, queue_of (replaced s) = queue_of s) as Hr by (intros s'; unfold replaced; by destruct (mLarge s') as [|[first d] rest]).
    destruct (isJump _ _ _ _); [rewrite <- (Hr s)|]; (destruct (_ <? _); [destruct (isSmallPrefix _ _ _)|]); try apply small_read_queue; apply large_read_queue.
  - unfold execute_write. destruct (_ =? 0); [done|]. destruct buffer as [bytes|]; [|done].
    destruct (SparseFileBuffer.write _ _ _ _) as [count buffer']. destruct (count =? 0); [done|]. unfold written. by rewrite updateRanges_fields.
  - unfold execute_append. destruct (SparseFileBuffer.write _ _ _ _) as [count buffer']. destruct (_ <? _); [done|]. unfold written. by rewrite updateRanges_fields.
  - unfold execute_truncate. destruct (_ =? _); [done|]. destruct (_ <? _); [unfold truncated; by rewrite updateRanges_fields|].
    unfold cancel. by destruct (cancel_map _ (mLarge s)), (cancel_map _ (mSmall s)).
  - unfold execute_flush. by destruct (mDirty s).
  - unfold execute_reclaim. by destruct (mLarge s), (mSmall s).
Qed.

Lemma waiting_same s s' : queue_of s' = queue_of s -> requests_waiting s -> requests_waiting s'.
Proof. intros [= E1 E2 E3]. unfold requests_waiting. by rewrite E1, E2, E3. Qed.

(** A request that gets the lock holds it; one that does not waits for another. *)
Lemma executable_state request s : let '(state, ok) := executable request s in state <> 0.
Proof.
  unfold executable, FileReadWriteState.read, FileReadWriteState.write. destruct (is_read request).
  - destruct (Z.leb_spec (mReadWriteState s) 0) as [H|H]; cbn [andb]; [|lia]. unfold FileReadWriteState.long_min.
    destruct (Z.ltb_spec (- 2 ^ 63) (mReadWriteState s)); lia.
  - destruct (Z.eqb_spec (mReadWriteState s) 0); lia.
Qed.

Lemma step_waiting ev s s' ls : attended ev s -> step options ev s = Some (s', ls) -> requests_waiting s -> requests_waiting s'.
Proof.
  intros [_ Ha] E HW. destruct ev as [o request| |i|o|id limit length|id retryable overquota|id result|i result|i| |success]; cbn [step] in E.
  - injection E as E. unfold executeOrQueue in E. pose proof (executable_state request s) as Hst. destruct (executable request s) as [state ok].
    destruct ok; [|injection E as <- <-; by left].
    pose proof (execute_queue o request (set_requests state (mRequests s) (mExecutions s) s)) as HQ. rewrite E in HQ.
    eapply waiting_same; [exact HQ|]. by left.
  - injection E as <- <-. intros _. left. exact Ha.
  - destruct (mCompleted s !! i) as [c|]; [|done]. cbn [mbind option_bind] in E. injection E as <- <-. intros _. right. cbn. lia.
  - destruct (mExecutions s =? 0)%nat; [done|]. injection E as E. unfold execute_next in E. destruct (mRequests s) as [|request rest]; [injection E as <- <-; by intros H; destruct H|].
    pose proof (executable_state request s) as Hst. destruct (executable request s) as [state ok]. destruct ok; [|injection E as <- <-; by left].
    pose proof (execute_queue o request (set_requests state rest (mExecutions s) s)) as HQ. rewrite E in HQ. eapply waiting_same; [exact HQ|]. by left.
  - destruct (find_any id s) as [[large [first d]]|]; [|done]. cbn [mbind option_bind] in E. destruct (_ && _); [|done]. injection E as <- <-.
    apply (waiting_same s); [|done]. unfold data. destruct (_ <=? _); [done|]. destruct (write_gaps _ _ _ _ _) as [[e all] b].
    destruct (_ =? _); [by destruct all|]. unfold dispatch. rewrite updateRanges_fields. by destruct (List.partition _ _).
  - by injection E as <- <-.
  - destruct (find_any id s) as [[large [first d]]|]; [|done]. cbn [mbind option_bind] in E. injection E as <- <-.
    apply (waiting_same s); [|done]. unfold download_completed. rewrite failed_queue. by destruct large.
  - destruct (mReplaced s !! i); [|done]. cbn [mbind option_bind] in E. injection E as <- <-. apply (waiting_same s); [|done]. by rewrite failed_queue.
  - destruct (mCancels s !! i); [|done]. cbn [mbind option_bind] in E. injection E as <- <-. apply (waiting_same s); [|done].
    unfold cancel. by destruct (cancel_map _ (mLarge s)), (cancel_map _ (mSmall s)).
  - destruct (mShrinking s) as [[[n o] l]|]; [|done]. cbn [mbind option_bind] in E. destruct (downloads_present l s); [done|]. injection E as <- <-.
    apply (waiting_same s); [|done]. unfold shrink. destruct (Ranges.endsAfter _ _) as [b|]; [|done]. by destruct (_ <? n).
  - destruct (mFlushing s =? 0)%nat; [done|]. destruct success; cbn [negb] in E; [|by injection E as <- <-]. case_bool_decide; [|done]. by injection E as <- <-.
Qed.

(** *** Every step *)

Lemma attended_locked o request state requests n s : attended_request o request s -> attended_request o request (set_requests state requests n s).
Proof.
  destruct request as [r| | | | |]; try done. cbn [attended_request]. intros <-. unfold stray. cbn [mSize set_requests].
  destruct (FileRange.empty _); [done|].
  change (isJump options o ?x (set_requests state requests n s)) with (isJump options o x s). destruct (isJump _ _ _ s); [|done].
  unfold replaced. cbn [mLarge set_requests]. by destruct (mLarge s) as [|[first d] rest].
Qed.

Lemma locked_serving o request requests n s : options_ok options -> Inv 0 0 s -> attended_request o request s ->
  (snd (executable request s) = true -> orderly_request o request s) -> serving s ->
  let '(state, ok) := executable request s in
  ok = true -> serving (execute options o request (set_requests state requests n s)).1.
Proof.
  intros Hopt HI Ha Ho HS. pose proof (executable_inv request requests n s HI) as HE. destruct (executable request s) as [state ok].
  intros ->. apply execute_serving; [done|exact HE|exact (Ho eq_refl)|by apply attended_locked|by apply (serving_mono s)].
Qed.

Lemma find_any_map id s large first d : find_any id s = Some (large, (first, d)) -> in_map large (first, d) s.
Proof. intros H%find_any_in. unfold in_map. by destruct large. Qed.

Lemma step_serving ev s s' ls : options_ok options -> Inv 0 0 s -> attended ev s -> step options ev s = Some (s', ls) -> serving s -> serving s'.
Proof.
  intros Hopt HI [Ho Ha] E HS. destruct ev as [o request| |i|o|id limit length|id retryable overquota|id result|i result|i| |success]; cbn [step orderly] in *.
  - injection E as E. unfold executeOrQueue in E. pose proof (locked_serving o request (mRequests s) (mExecutions s) s Hopt HI Ha Ho HS) as HL.
    destruct (executable request s) as [state ok]. destruct ok; [by rewrite E in HL; apply HL|]. injection E as <- <-. by apply (serving_mono s).
  - injection E as <- <-. by apply (serving_mono s).
  - destruct (mCompleted s !! i) as [c|]; [|done]. cbn [mbind option_bind] in E. injection E as <- <-. by apply (serving_mono s).
  - destruct (mExecutions s =? 0)%nat; [done|]. injection E as E. unfold execute_next in E.
    destruct (mRequests s) as [|request rest] eqn:ER; [injection E as <- <-; by apply (serving_mono s)|].
    pose proof (locked_serving o request rest (mExecutions s) s Hopt HI Ha Ho HS) as HL.
    destruct (executable request s) as [state ok]. destruct ok; [by rewrite E in HL; apply HL|]. injection E as <- <-. by apply (serving_mono s).
  - destruct (find_any id s) as [[large [first d]]|] eqn:Ef; [|done]. cbn [mbind option_bind] in E.
    destruct (d_open d && (0 <=? length)) eqn:Ec; [|done]. apply andb_true_iff in Ec as [Ec1 Ec2%Z.leb_le]. injection E as <- <-.
    apply data_serving; try done. apply find_any_in in Ef. destruct large; [by left|by right].
  - injection E as <- <-. by apply failure_serving.
  - destruct (find_any id s) as [[large [first d]]|] eqn:Ef; [|done]. cbn [mbind option_bind] in E. injection E as <- <-.
    apply ended_serving; [done|by eapply find_any_map|done].
  - destruct (mReplaced s !! i) as [range|] eqn:Er; [|done]. cbn [mbind option_bind] in E. injection E as <- <-. by apply replaced_ended_serving.
  - destruct (mCancels s !! i) as [range|] eqn:Er; [|done]. cbn [mbind option_bind] in E. injection E as <- <-.
    assert (mBegin range <= mEnd range) as Hr by by eapply (inv_cancels _ _ _ HI), list_elem_of_In, list_elem_of_lookup_2.
    pose proof (cancel_serving 0 0 range s HI Hr Ha HS). by apply (serving_mono (cancel range s).1).
  - destruct (mShrinking s) as [[[n o] l]|] eqn:Es; [|done]. cbn [mbind option_bind] in E. destruct (downloads_present l s) eqn:El; [done|].
    injection E as <- <-. destruct (inv_shrink _ _ _ HI n o l Es) as (_ & -> & _). by apply (shrunk_serving n l).
  - destruct (mFlushing s =? 0)%nat; [done|]. destruct success; cbn [negb] in E; [|injection E as <- <-; by apply (serving_mono s)].
    case_bool_decide; [|done]. injection E as <- <-. by apply (serving_mono s).
Qed.

(** *** Runs *)

Inductive attended_reachable (size : Z) (cloud : Z -> Z) : State -> Prop :=
| attended_init : attended_reachable size cloud (init size cloud)
| attended_step s ev s' ls : attended_reachable size cloud s -> attended ev s -> step options ev s = Some (s', ls) ->
    attended_reachable size cloud s'.

Lemma attended_is_reachable size cloud s : attended_reachable size cloud s -> exists ls, reachable options size cloud s ls.
Proof.
  intros HR. induction HR as [|s ev s' ls HR [ls0 IH] [Ho _] E]; [eexists; constructor|]. eexists. by eapply reachable_step.
Qed.

Lemma attended_inv size cloud s : options_ok options -> 0 <= size < 2 ^ 63 -> attended_reachable size cloud s -> Inv 0 0 s.
Proof.
  intros Hopt Hs [ls HL]%attended_is_reachable. by destruct (reachable_simulates options Hopt size cloud s ls Hs HL).
Qed.

Lemma attended_serving size cloud s : options_ok options -> 0 <= size < 2 ^ 63 -> attended_reachable size cloud s ->
  serving s /\ requests_waiting s.
Proof.
  intros Hopt Hs HR. induction HR as [|s ev s' ls HR [IH1 IH2] Ha E].
  - split; [|by intros H; destruct H]. split; [|by intros ? []]. split; cbn; [constructor|by intros ? []|by intros ? [[]|[]]].
  - split; [|by eapply step_waiting]. eapply step_serving; try done. by apply (attended_inv size cloud).
Qed.

(** A run given by its steps. *)
#[export] Instance attended_request_dec o request s : Decision (attended_request o request s).
Proof. destruct request; cbn [attended_request]; apply _. Defined.

#[export] Instance attended_dec ev s : Decision (attended ev s).
Proof. unfold attended. apply and_dec; [apply _|]. destruct ev; try apply _. destruct (mRequests s); apply _. Defined.

Fixpoint attended_run (evs : list Event) (s : State) : Prop :=
  match evs with
  | [] => True
  | ev :: evs => attended ev s /\ match step options ev s with Some (s, _) => attended_run evs s | None => True end
  end.

#[export] Instance attended_run_dec evs : forall s, Decision (attended_run evs s).
Proof.
  induction evs as [|ev evs IH]; intros s; cbn [attended_run]; [apply _|]. destruct (step options ev s) as [[s' ls]|]; apply _.
Defined.

Lemma run_attended size cloud evs : forall s s' ls, attended_reachable size cloud s -> attended_run evs s -> run options evs s = Some (s', ls) ->
  attended_reachable size cloud s'.
Proof.
  induction evs as [|ev evs IH]; intros s s' ls HR; cbn [run attended_run].
  - by intros _ [= <- _].
  - intros [Ho Hrun]. destruct (step options ev s) as [[s1 ls1]|] eqn:E; [|done]. cbn [mbind option_bind].
    destruct (run options evs s1) as [[s2 ls2]|] eqn:E2; [|done]. cbn [mbind option_bind]. intros [= <- _].
    apply (IH s1 s2 ls2); [by eapply attended_step|done|done].
Qed.

End serving.
End FileServing.

Import FileServing.

(** C31: In the runs all of whose steps are [attended], a read waits only while a
    download in progress, or one that was replaced, will serve it or fail it when it
    ends; and once no download, callback, execution, flush or truncation is left,
    nobody waits: no read is pending, no request is queued, and the lock is free.
    Attended: the requests are orderly (see [cache_is_file]); no large read is
    executed that is no jump and begins in front of the large download
    ([stray_read]); the canceller of a write runs only while no read is pending
    ([cancel_strands_read]); and a reclamation is queued only while the lock is
    held.  The two runs named show that reads are lost otherwise. *)
Theorem requests_served options size cloud s : options_ok options -> 0 <= size < 2 ^ 63 -> attended_reachable options size cloud s ->
  (forall r, In r (mPendingReadRequests s) -> served s (mBegin (mRange r)))
  /\ (mLarge s = [] -> mSmall s = [] -> mReplaced s = [] -> mCompleted s = [] -> mExecutions s = 0%nat -> mShrinking s = None -> mFlushing s = 0%nat ->
      mPendingReadRequests s = [] /\ mRequests s = [] /\ mReadWriteState s = 0).
Proof.
  intros Hopt Hs HR. pose proof (attended_inv options size cloud s Hopt Hs HR) as HI. destruct (attended_serving options size cloud s Hopt Hs HR) as ([_ Hp] & HW). split; [exact Hp|].
  intros EL ES ER EC EX EK EF. assert (mPendingReadRequests s = []) as EP.
  { destruct (mPendingReadRequests s) as [|r l] eqn:E; [done|]. destruct (Hp r) as [H|[H|(x & H & _)]]; [rewrite E; by left|..].
    - by rewrite EL in H.
    - by rewrite ES in H.
    - by rewrite ER in H. }
  assert (mReadWriteState s = 0) as E0.
  { pose proof (inv_lock _ _ _ HI) as HL. unfold lock_ok, readers, writers in HL. rewrite EP, EC, EK, EF in HL. cbn in HL. lia. }
  split_and!; [done| |done]. destruct (mRequests s) as [|r l] eqn:E; [done|]. destruct HW as [H|H]; [by rewrite E|done|lia].
Qed.

(** A read waits for its download; and after the run of FileCache.v nobody waits. *)
Lemma example_attended evs (s : State) : (exists ls, run example_options evs (init 32 (fun p => p + 100)) = Some (s, ls)) ->
  bool_decide (attended_run example_options evs (init 32 (fun p => p + 100))) = true ->
  attended_reachable example_options 32 (fun p => p + 100) s.
Proof. intros [ls E] Ha%bool_decide_eq_true. by apply (run_attended _ _ _ evs (init 32 (fun p => p + 100)) s ls (attended_init _ _ _)). Qed.

Lemma requests_served_witness : exists s s',
  map mRange (mPendingReadRequests s) = [MkFileRange 2 4] /\ served s 2
  /\ mPendingReadRequests s' = [] /\ mRequests s' = [] /\ mReadWriteState s' = 0.
Proof.
  set (o := MkOracle 1000 8000 true).
  assert (exists s, (exists ls, run example_options (take 1 example_run) (init 32 (fun p => p + 100)) = Some (s, ls))
    /\ mPendingReadRequests s = [MkRead (MkFileRange 2 4) true]) as (s & E & H1)
    by (eexists; split; [eexists; vm_compute; reflexivity|reflexivity]).
  assert (exists s, (exists ls, run example_options (example_run ++ repeat (Execute o) 5) (init 32 (fun p => p + 100)) = Some (s, ls))
    /\ mLarge s = [] /\ mSmall s = [] /\ mReplaced s = [] /\ mCompleted s = [] /\ mExecutions s = 0%nat /\ mShrinking s = None /\ mFlushing s = 0%nat)
    as (s' & E' & H2) by (eexists; split; [eexists; vm_compute; reflexivity|split_and!; reflexivity]).
  exists s, s'. split; [by rewrite H1|]. split.
  - destruct (requests_served example_options 32 (fun p => p + 100) s) as [HS _]; [vm_compute; intuition discriminate|lia| |].
    + apply (example_attended (take 1 example_run)); [exact E|vm_compute; reflexivity].
    + apply (HS (MkRead (MkFileRange 2 4) true)). rewrite H1. by left.
  - destruct (requests_served example_options 32 (fun p => p + 100) s') as [_ HS]; [vm_compute; intuition discriminate|lia| |].
    + apply (example_attended (example_run ++ repeat (Execute o) 5)); [exact E'|vm_compute; reflexivity].
    + by apply HS; apply H2.
Defined.
