(* ===== verification/Requests.v ===== *)
(** * Client-server requests

    [RequestDispatcher] and [Request] (src/request.cpp): commands are queued in
    batches, a batch is sent and re-sent with the same text and idempotence
    identifier until the server answers, and the reply is dealt out to the
    commands, waiting where a reply carries a sequence tag for the action packets
    to catch up ([MegaClient::sc_checkSequenceTag], src/megaclient.cpp).

    A command is a value of the class [CommandOps]: its virtual methods are
    parameters, and the calls it makes back into the dispatcher while its result
    is processed are part of what [procresult] returns.  Replies that are parsed
    while they arrive ([processChunk]) are in Streaming.v. *)

From S2P Require Import Prelude Crypto Encoding OMap Serialize Json Splitter.
Local Open Scope Z_scope.

(** [Error] (mega/types.h) and [Command::Result] (mega/command.h). *)
Record Error := MkError { mError : Z; mUserStatus : Z; mLinkStatus : Z }.

Definition API_OK : Z := 0.
Definition API_EINTERNAL : Z := -1.
Definition API_EBUSINESSPASTDUE : Z := -28.
Definition API_EPAYWALL : Z := -29.

Definition Error_of (e : Z) : Error := MkError e (-1) (-1).

Inductive Result :=
  | CmdError (e : Error)
  | CmdArray
  | CmdObject
  | CmdItem.

Inductive retryreason_t :=
  | RETRY_NONE | RETRY_CONNECTIVITY | RETRY_SERVERS_BUSY | RETRY_API_LOCK | RETRY_RATE_LIMIT
  | RETRY_LOCAL_LOCK | RETRY_UNKNOWN.

#[export] Instance retryreason_eq_dec : EqDecision retryreason_t.
Proof. solve_decision. Defined.

(** The members of [MegaClient] involved; [world] is the rest of it. *)
Record Client (W : Type) := MkClient {
  restag : Z;
  mCurrentSeqtag : bytes;
  mCurrentSeqtagSeen : bool;
  mCurrentSeqtagCmdtag : Z;
  mPriorSeqTag : bytes;
  scsn_ready : bool;
  world : W
}.
Arguments MkClient {W}.
Arguments restag {W}.
Arguments mCurrentSeqtag {W}.
Arguments mCurrentSeqtagSeen {W}.
Arguments mCurrentSeqtagCmdtag {W}.
Arguments mPriorSeqTag {W}.
Arguments scsn_ready {W}.
Arguments world {W}.

(** What a command may do to the dispatcher while its result is processed. *)
Inductive Call (C : Type) := CallAdd (c : C) | CallClear.
Arguments CallAdd {C}.
Arguments CallClear {C}.

Class CommandOps (C W : Type) := {
  commandStr : C -> bytes;
  tag : C -> Z;
  batchSeparately : C -> bool;
  mSeqtagArray : C -> bool;
  is_fetchnodes : C -> bool;
  getJSON : C -> Client W -> bytes;
  procresult : C -> Result -> bytes -> Client W -> bool * bytes * Client W * list (Call C);
  activateoverquota : Client W -> Client W;
  setBusinessStatusExpired : Client W -> Client W
}.

Record Request (C : Type) := MkRequest {
  cmds : list (option C);
  json : option bytes;
  processindex : nat;
  cachedJSON : bytes;
  cachedIdempotenceId : bytes;
  cachedCounts : bytes;
  stopProcessing : bool;
  mJsonSplitter : JSONSplitter.Splitter;
  mChunkedProgress : nat
}.
Arguments MkRequest {C}.
Arguments cmds {C}.
Arguments json {C}.
Arguments processindex {C}.
Arguments cachedJSON {C}.
Arguments cachedIdempotenceId {C}.
Arguments cachedCounts {C}.
Arguments stopProcessing {C}.
Arguments mJsonSplitter {C}.
Arguments mChunkedProgress {C}.

Record RequestDispatcher (C : Type) := MkDispatcher {
  inflightreq : Request C;
  inflightFailReason : retryreason_t;
  nextreqs : list (Request C);
  processing : bool;
  clearWhenSafe : bool;
  reqid : bytes
}.
Arguments MkDispatcher {C}.
Arguments inflightreq {C}.
Arguments inflightFailReason {C}.
Arguments nextreqs {C}.
Arguments processing {C}.
Arguments clearWhenSafe {C}.
Arguments reqid {C}.

(** Assignments to single members. *)
Section setters.
Context {C W : Type}.

Definition set_restag (v : Z) (cl : Client W) : Client W :=
  MkClient v (mCurrentSeqtag cl) (mCurrentSeqtagSeen cl) (mCurrentSeqtagCmdtag cl) (mPriorSeqTag cl)
    (scsn_ready cl) (world cl).
Definition set_seqtag (st : bytes) (seen : bool) (cl : Client W) : Client W :=
  MkClient (restag cl) st seen (mCurrentSeqtagCmdtag cl) (mPriorSeqTag cl) (scsn_ready cl) (world cl).
Definition expect_seqtag (st : bytes) (cmdtag : Z) (cl : Client W) : Client W :=
  MkClient (restag cl) st false cmdtag (mCurrentSeqtag cl) (scsn_ready cl) (world cl).

Definition set_cmds (v : list (option C)) (r : Request C) : Request C :=
  MkRequest v (json r) (processindex r) (cachedJSON r) (cachedIdempotenceId r) (cachedCounts r) (stopProcessing r)
    (mJsonSplitter r) (mChunkedProgress r).
Definition set_json (v : option bytes) (r : Request C) : Request C :=
  MkRequest (cmds r) v (processindex r) (cachedJSON r) (cachedIdempotenceId r) (cachedCounts r) (stopProcessing r)
    (mJsonSplitter r) (mChunkedProgress r).
Definition set_processindex (v : nat) (r : Request C) : Request C :=
  MkRequest (cmds r) (json r) v (cachedJSON r) (cachedIdempotenceId r) (cachedCounts r) (stopProcessing r)
    (mJsonSplitter r) (mChunkedProgress r).
Definition set_cached (j id counts : bytes) (r : Request C) : Request C :=
  MkRequest (cmds r) (json r) (processindex r) j id counts (stopProcessing r)
    (mJsonSplitter r) (mChunkedProgress r).
Definition set_stopProcessing (v : bool) (r : Request C) : Request C :=
  MkRequest (cmds r) (json r) (processindex r) (cachedJSON r) (cachedIdempotenceId r) (cachedCounts r) v
    (mJsonSplitter r) (mChunkedProgress r).
Definition set_splitter (v : JSONSplitter.Splitter) (progress : nat) (r : Request C) : Request C :=
  MkRequest (cmds r) (json r) (processindex r) (cachedJSON r) (cachedIdempotenceId r) (cachedCounts r) (stopProcessing r)
    v progress.

Definition set_inflight (v : Request C) (d : RequestDispatcher C) : RequestDispatcher C :=
  MkDispatcher v (inflightFailReason d) (nextreqs d) (processing d) (clearWhenSafe d) (reqid d).
Definition set_failreason (v : retryreason_t) (d : RequestDispatcher C) : RequestDispatcher C :=
  MkDispatcher (inflightreq d) v (nextreqs d) (processing d) (clearWhenSafe d) (reqid d).
Definition set_nextreqs (v : list (Request C)) (d : RequestDispatcher C) : RequestDispatcher C :=
  MkDispatcher (inflightreq d) (inflightFailReason d) v (processing d) (clearWhenSafe d) (reqid d).
Definition set_processing (v : bool) (d : RequestDispatcher C) : RequestDispatcher C :=
  MkDispatcher (inflightreq d) (inflightFailReason d) (nextreqs d) v (clearWhenSafe d) (reqid d).
Definition set_clearWhenSafe (v : bool) (d : RequestDispatcher C) : RequestDispatcher C :=
  MkDispatcher (inflightreq d) (inflightFailReason d) (nextreqs d) (processing d) v (reqid d).
Definition set_reqid (v : bytes) (d : RequestDispatcher C) : RequestDispatcher C :=
  MkDispatcher (inflightreq d) (inflightFailReason d) (nextreqs d) (processing d) (clearWhenSafe d) v.

End setters.

(** [std::to_string] of a count. *)
Fixpoint decimal_loop (fuel n : nat) : bytes :=
  match fuel with
  | O => []
  | S fuel =>
      (if (n <? 10)%nat then [] else decimal_loop fuel (n / 10)) ++ [chr "0" + Z.of_nat (n mod 10)]
  end.
Definition decimal (n : nat) : bytes := decimal_loop (S n) n.

(** [s << e << ","...]. *)
Definition sep_by (c : Z) (l : list bytes) : bytes :=
  match l with
  | [] => []
  | x :: l => x ++ mjoin ((fun y => c :: y) <$> l)
  end.

Section dispatcher.
Context {C W : Type} `{CommandOps C W}.

(** ** One request *)

Definition new_Request : Request C := MkRequest [] None 0 [] [] [] false JSONSplitter.clear 0.

Definition request_add (c : C) (r : Request C) : Request C := set_cmds (cmds r ++ [Some c]) r.
Definition request_size (r : Request C) : nat := length (cmds r).
Definition request_empty (r : Request C) : bool := bool_decide (cmds r = []).

Definition isFetchNodes (r : Request C) : bool :=
  match cmds r with [Some c] => is_fetchnodes c | _ => false end.

(** [Request::clear] leaves the cached text alone. *)
Definition request_clear (r : Request C) : Request C :=
  MkRequest [] None 0 (cachedJSON r) (cachedIdempotenceId r) (cachedCounts r) false JSONSplitter.clear 0.

(** [++counts[commandStr]] *)
Definition count_command (counts : list (bytes * nat)) (c : C) : list (bytes * nat) :=
  omap_insert (commandStr c) (S (default 0%nat (omap_find (commandStr c) counts))) counts.

Definition counts_text (counts : list (bytes * nat)) : bytes :=
  sep_by 32 ((fun e => e.1 ++ chr ":" :: decimal e.2) <$> counts).

(** The loop from the last character of the identifier. *)
Fixpoint bump_rev (l : bytes) : bytes :=
  match l with
  | [] => []
  | c :: l => if c <? chr "z" then c + 1 :: l else chr "a" :: bump_rev l
  end.
Definition bump_reqid (id : bytes) : bytes := rev (bump_rev (rev id)).

Definition live (r : Request C) : list C := omap id (cmds r).

Definition batch_text (cl : Client W) (cs : list C) : bytes :=
  chr "[" :: sep_by (chr ",") ((fun c => chr "{" :: getJSON c cl ++ [chr "}"]) <$> cs) ++ [chr "]"].

(** [Request::get]: the text, the identifier, the counter and the request. *)
Definition request_get (cl : Client W) (id : bytes) (r : Request C) : bytes * bytes * bytes * Request C :=
  if bool_decide (cachedJSON r = []) then
    let id := bump_reqid id in
    let r := set_cached (batch_text cl (live r)) id (counts_text (foldl count_command [] (live r))) r in
    (cachedJSON r, cachedIdempotenceId r, id, r)
  else (cachedJSON r, cachedIdempotenceId r, id, r).

(** ** Queueing *)

Definition MAX_COMMANDS : nat := Z.to_nat 10000.

Definition back (d : RequestDispatcher C) : Request C := default new_Request (last (nextreqs d)).
Definition set_back (r : Request C) (d : RequestDispatcher C) : RequestDispatcher C :=
  set_nextreqs (removelast (nextreqs d) ++ [r]) d.
Definition push_back (r : Request C) (d : RequestDispatcher C) : RequestDispatcher C :=
  set_nextreqs (nextreqs d ++ [r]) d.

(** The constructor, with the random identifier. *)
Definition new_dispatcher (id : bytes) : RequestDispatcher C :=
  MkDispatcher new_Request RETRY_NONE [new_Request] false false id.

Definition add (c : C) (d : RequestDispatcher C) : RequestDispatcher C :=
  let d := if (MAX_COMMANDS <=? request_size (back d))%nat then push_back new_Request d else d in
  let d := if batchSeparately c && negb (request_empty (back d)) then push_back new_Request d else d in
  let d := set_back (request_add c (back d)) d in
  if batchSeparately c then push_back new_Request d else d.

Definition readyToSend (d : RequestDispatcher C) : bool :=
  if negb (request_empty (inflightreq d)) then negb (bool_decide (inflightFailReason d = RETRY_NONE))
  else match nextreqs d with [] => false | r :: _ => negb (request_empty r) end.

Definition cmdsInflight (d : RequestDispatcher C) : bool :=
  negb (request_empty (inflightreq d)) && negb (bool_decide (inflightFailReason d = RETRY_API_LOCK))
  && negb (bool_decide (inflightFailReason d = RETRY_RATE_LIMIT)).

Definition retryReasonIsApi (d : RequestDispatcher C) : bool :=
  negb (request_empty (inflightreq d))
  && (bool_decide (inflightFailReason d = RETRY_API_LOCK) || bool_decide (inflightFailReason d = RETRY_RATE_LIMIT)).

Definition getCurrentCommand (currSeqtagSeen : bool) (d : RequestDispatcher C) : option C :=
  if currSeqtagSeen then default None (cmds (inflightreq d) !! processindex (inflightreq d)) else None.

(** [inflightreq.swap(nextreqs.front())]: the commands and the cached text move. *)
Definition take_front (front inflight : Request C) : Request C :=
  MkRequest (cmds front) (json inflight) (processindex inflight) (cachedJSON front) (cachedIdempotenceId front)
    (cachedCounts front) (stopProcessing inflight) (mJsonSplitter inflight) (mChunkedProgress inflight).

(** The text, the identifier and whether the batch fetches the nodes. *)
Definition serverrequest (cl : Client W) (d : RequestDispatcher C)
    : bytes * bytes * bool * RequestDispatcher C :=
  let d :=
    if negb (request_empty (inflightreq d)) && negb (bool_decide (inflightFailReason d = RETRY_NONE)) then d
    else match nextreqs d with
         | [] => d
         | front :: rest =>
             set_nextreqs (match rest with [] => [new_Request] | _ => rest end)
               (set_inflight (take_front front (inflightreq d)) d)
         end in
  let '(text, id, counter, r) := request_get cl (reqid d) (inflightreq d) in
  (text, id, isFetchNodes r, set_failreason RETRY_NONE (set_reqid counter (set_inflight r d))).

Definition inflightFailure (reason : retryreason_t) (d : RequestDispatcher C) : RequestDispatcher C :=
  set_failreason reason d.

(** [clear] *)
Definition clear (d : RequestDispatcher C) : RequestDispatcher C :=
  if processing d
  then set_clearWhenSafe true (set_inflight (set_stopProcessing true (inflightreq d)) d)
  else MkDispatcher (request_clear (inflightreq d)) RETRY_NONE [new_Request] false false (reqid d).

(** ** Processing replies *)

(** [Command::checkError]: what it leaves in the error, and the JSON. *)
Fixpoint error_members (fuel : nat) (pos : bytes) (e : Error) (detected : bool) : option (Error * bool * bytes) :=
  match fuel with
  | O => None
  | S fuel =>
      let '(name, pos) := JSON.getnameid pos in
      if name =? makeNameid (str "err") then
        let '(v, pos) := JSON.getint pos in
        error_members fuel pos (MkError (s32 v) (mUserStatus e) (mLinkStatus e)) true
      else if name =? makeNameid (str "u") then
        let '(v, pos) := JSON.getint pos in
        error_members fuel pos (MkError (mError e) v (mLinkStatus e)) detected
      else if name =? makeNameid (str "l") then
        let '(v, pos) := JSON.getint pos in
        error_members fuel pos (MkError (mError e) (mUserStatus e) v) detected
      else if name =? EOO then Some (e, detected, pos)
      else error_members fuel (JSON.skip_object pos) e detected
  end.

(** [{"err":] *)
Definition err_object : bytes := chr "{" :: cDquote :: str "err" ++ [cDquote; chr ":"].

Definition parse_error (pos : bytes) : option (bool * Error * bytes) :=
  let e := Error_of API_EINTERNAL in
  let '(numeric, pos', v) := JSON.isNumericError pos in
  if numeric then Some (true, MkError v (mUserStatus e) (mLinkStatus e), pos')
  else if bool_decide (take 7 (JSON.skip_one [chr ","] pos) = err_object) then
    '(e, detected, pos) ← error_members (S (length pos)) (JSON.enterobject pos).2 e false;
    '(_, pos) ← JSON.leaveobject (S (length pos)) pos;
    Some (detected, e, pos)
  else Some (false, e, pos).

Definition checkError (pos : bytes) (cl : Client W) : option (bool * Error * bytes * Client W) :=
  '(detected, e, pos) ← parse_error pos;
  let cl := if detected && (mError e =? API_EPAYWALL) then activateoverquota cl else cl in
  let cl := if detected && (mError e =? API_EBUSINESSPASTDUE) then setBusinessStatusExpired cl else cl in
  Some (detected, e, pos, cl).

(** [couldBeError && cmd->checkError(e, json)] *)
Definition check_reply (couldBeError : bool) (pos : bytes) (cl : Client W)
    : option (bool * Error * bytes * Client W) :=
  if couldBeError then checkError pos cl else Some (false, Error_of API_EINTERNAL, pos, cl).

(** The dispatcher calls a command made. *)
Definition run_call (d : RequestDispatcher C) (c : Call C) : RequestDispatcher C :=
  match c with CallAdd c => add c d | CallClear => clear d end.

(** The result of executing a command: whether the JSON was consumed properly,
    where it was left, the client and the dispatcher. *)
Definition Step : Type := bool * bytes * Client W * RequestDispatcher C.

Definition proc (c : C) (r : Result) (pos : bytes) (cl : Client W) (d : RequestDispatcher C) : Step :=
  let '(ok, pos, cl, calls) := procresult c r pos cl in (ok, pos, cl, foldl run_call d calls).

(** [processCmdJSON]; [None]: [leaveobject] does not return. *)
Definition processCmdJSON (c : C) (couldBeError : bool) (pos : bytes) (cl : Client W)
    (d : RequestDispatcher C) : option Step :=
  '(detected, e, pos, cl) ← check_reply couldBeError pos cl;
  if (detected : bool) then Some (proc c (CmdError e) pos cl d)
  else
    let '(isobject, pos) := JSON.enterobject pos in
    if isobject then
      let '(ok, pos, cl, d) := proc c CmdObject pos cl d in
      if ok then '(ok, pos) ← JSON.leaveobject (S (length pos)) pos; Some (ok, pos, cl, d)
      else Some (false, pos, cl, d)
    else
      let '(isarray, pos) := JSON.enterarray pos in
      if isarray then
        let '(ok, pos, cl, d) := proc c CmdArray pos cl d in
        if ok then let '(ok, pos) := JSON.leavearray pos in Some (ok, pos, cl, d)
        else Some (false, pos, cl, d)
      else Some (proc c CmdItem pos cl d).

(** [processSeqTag]: executed, or waiting for the tag. *)
Definition processSeqTag (c : C) (withJSON inSeqTagArray : bool) (pos : bytes) (cl : Client W)
    (d : RequestDispatcher C) : option (Step + Client W) :=
  let '(_, pos, st) := JSON.storeobject pos [] in
  let pos := if inSeqTagArray && (cchar pos =? chr ",") then drop 1 pos else pos in
  if bool_decide (mCurrentSeqtag cl = st) || negb (scsn_ready cl) then
    let cl := set_seqtag [] false cl in
    if withJSON then s ← processCmdJSON c false pos cl d; Some (inl s)
    else Some (inl (proc c (CmdError (Error_of API_OK)) pos cl d))
  else Some (inr (expect_seqtag st (tag c) cl)).

(** [0,<json>] or [<st>,<json>] after the bracket. *)
Definition process_tagged (c : C) (pos : bytes) (cl : Client W) (d : RequestDispatcher C)
    : option (Step + Client W) :=
  if (cchar pos =? chr "0") && (cchar (drop 1 pos) =? chr ",")
  then s ← processCmdJSON c false (drop 2 pos) cl d; Some (inl s)
  else processSeqTag c true true pos cl d.

(** The body of the loop of [Request::process]: a command executed or waiting. *)
Definition process_command (c : C) (pos : bytes) (cl : Client W) (d : RequestDispatcher C)
    : option (Step + Client W) :=
  let cl := set_restag (tag c) cl in
  let pos := JSON.skip_one [chr ","] pos in
  let '(seqarray, pos) := if mSeqtagArray c then JSON.enterarray pos else (false, pos) in
  if seqarray then
    r ← process_tagged c pos cl d;
    match (r : Step + Client W) with
    | inr cl => Some (inr cl)
    | inl (ok, pos, cl, d) =>
        if ok then let '(ok, pos) := JSON.leavearray pos in Some (inl (ok, pos, cl, d))
        else Some (inl (false, pos, cl, d))
    end
  else if cchar pos =? cDquote then processSeqTag c false false pos cl d
  else s ← processCmdJSON c true pos cl d; Some (inl s).

(** [cmds[processindex].reset()] and [processindex++]. *)
Definition finish_command (d : RequestDispatcher C) : RequestDispatcher C :=
  let r := inflightreq d in
  set_inflight (set_processindex (S (processindex r)) (set_cmds (<[processindex r := None]> (cmds r)) r)) d.

(** The loop, at most [n] more commands; the flag is set when it waits. *)
Fixpoint process_loop (n : nat) (pos : bytes) (cl : Client W) (d : RequestDispatcher C)
    : option (bool * bytes * Client W * RequestDispatcher C) :=
  match n with
  | O => Some (false, pos, cl, d)
  | S n =>
      if stopProcessing (inflightreq d) then Some (false, pos, cl, d)
      else
        match default None (cmds (inflightreq d) !! processindex (inflightreq d)) with
        | None => None
        | Some c =>
            r ← process_command c pos cl d;
            match (r : Step + Client W) with
            | inr cl => Some (true, pos, cl, d)
            | inl (ok, pos', cl, d) =>
                process_loop n (if (ok : bool) then pos' else JSON.skip_object pos) cl (finish_command d)
            end
        end
  end.

(** [Request::process] of the request in flight. *)
Definition process (cl : Client W) (d : RequestDispatcher C) : option (Client W * RequestDispatcher C) :=
  let r := inflightreq d in
  '(waiting, pos, cl, d) ← process_loop (length (cmds r) - processindex r) (default [] (json r)) cl d;
  let r := set_json (Some pos) (inflightreq d) in
  Some (cl,
    set_inflight (if negb waiting && ((processindex r =? length (cmds r))%nat || stopProcessing r)
                  then request_clear r else r) d).

Definition request_serverresponse (text : bytes) (r : Request C) : Request C :=
  set_json (Some (JSON.enterarray text).2) r.

(** [serverresponse], [servererror] and [continueProcessing] share this frame. *)
Definition run_process (cl : Client W) (d : RequestDispatcher C) : option (Client W * RequestDispatcher C) :=
  '(cl, d) ← process cl (set_processing true d);
  Some (cl, let d := set_processing false d in if clearWhenSafe d then clear d else d).

Definition serverresponse (text : bytes) (cl : Client W) (d : RequestDispatcher C) :=
  run_process cl (set_inflight (request_serverresponse text (inflightreq d)) d).

Definition error_text (e : bytes) (n : nat) : bytes :=
  chr "[" :: sep_by (chr ",") (replicate n e) ++ [chr "]"].

Definition servererror (e : bytes) (cl : Client W) (d : RequestDispatcher C)
    : option (Client W * RequestDispatcher C) :=
  let r := inflightreq d in
  let d := set_inflight (request_serverresponse (error_text e (length (cmds r))) r) d in
  '(cl, d) ← process cl (set_processing true d);
  Some (cl, let d := set_processing false (set_failreason RETRY_NONE d) in if clearWhenSafe d then clear d else d).

Definition continueProcessing (cl : Client W) (d : RequestDispatcher C) := run_process cl d.

End dispatcher.

(** ** Waiting for action packets *)

(** The other members of [MegaClient] that [sc_checkSequenceTag] keeps, with the
    tags reported to the application. *)
Record ScTags := MkScTags {
  mLastReceivedScSeqTag : bytes;
  mLargestEverSeenScSeqTag : bytes;
  scDbSeqTag : bytes;
  reported : list bytes
}.

(** [std::string] comparison, shorter tags first. *)
Definition larger_tag (a b : bytes) : bool :=
  (length b <? length a)%nat || ((length a =? length b)%nat && bytes_ltb b a).

Section seqtags.
Context {C W : Type} `{CommandOps C W}.

(** The endless loop for a non-empty tag; [None] is running out of fuel. *)
Fixpoint seqtag_loop (fuel : nat) (tag : bytes) (cl : Client W) (d : RequestDispatcher C)
    : option (bool * Client W * RequestDispatcher C) :=
  match fuel with
  | O => None
  | S fuel =>
      if bool_decide (mCurrentSeqtag cl = []) then Some (negb (cmdsInflight d), cl, d)
      else if bool_decide (tag = mCurrentSeqtag cl) then
        Some (true, set_seqtag (mCurrentSeqtag cl) true cl, d)
      else if mCurrentSeqtagSeen cl then
        '(cl, d) ← continueProcessing cl d; seqtag_loop fuel tag cl d
      else Some (true, cl, d)
  end.

Definition remaining (d : RequestDispatcher C) : nat := length (live (inflightreq d)).

(** [MegaClient::sc_checkSequenceTag] *)
Definition sc_checkSequenceTag (tag : bytes) (sc : ScTags) (cl : Client W) (d : RequestDispatcher C)
    : option (bool * ScTags * Client W * RequestDispatcher C) :=
  if bool_decide (tag = []) then
    '(cl, d) ← (if negb (bool_decide (mCurrentSeqtag cl = [])) && mCurrentSeqtagSeen cl
                then continueProcessing cl d else Some (cl, d));
    let last := mLastReceivedScSeqTag sc in
    let sc := if bool_decide (last = []) then sc
              else MkScTags [] (mLargestEverSeenScSeqTag sc) (scDbSeqTag sc) (reported sc ++ [last]) in
    Some (true, sc, cl, d)
  else
    let largest := if larger_tag tag (mLargestEverSeenScSeqTag sc) then tag else mLargestEverSeenScSeqTag sc in
    let sc := MkScTags tag largest tag (reported sc) in
    '(go, cl, d) ← seqtag_loop (remaining d + 2) tag cl d;
    Some (go, sc, cl, d).

End seqtags.

(** ** The queue *)

Module RequestFacts.

Section facts.
Context {C W : Type} `{CommandOps C W}.

(** A queued batch. *)
Record batch_ok (r : Request C) : Prop := {
  bo_live : Forall is_Some (cmds r);
  bo_size : (length (cmds r) <= MAX_COMMANDS)%nat;
  bo_separate : (1 < length (cmds r))%nat -> Forall (fun c => batchSeparately c = false) (live r);
  bo_fresh : json r = None /\ processindex r = 0%nat /\ cachedJSON r = [] /\ stopProcessing r = false
}.

(** The last batch takes any command that is not sent separately. *)
Definition open_batch (r : Request C) : Prop :=
  cmds r <> [] -> Forall (fun c => batchSeparately c = false) (live r).

(** Only the last batch may be empty. *)
Record queue_inv (l : list (Request C)) : Prop := {
  qi_split : exists fr b, l = fr ++ [b] /\ Forall (fun r => cmds r <> []) fr /\ open_batch b;
  qi_batches : Forall batch_ok l
}.

(** The batch in flight: the first commands are done, [cs] are to come. *)
Definition run_ok (r : Request C) (cs : list C) : Prop :=
  cmds r = replicate (processindex r) None ++ (Some <$> cs).

Record inflight_ok (r : Request C) : Prop := {
  io_cmds : exists cs, run_ok r cs /\ (cs <> [] \/ processindex r = 0%nat /\ json r = None);
  io_start : json r = None -> processindex r = 0%nat;
  io_cached : cmds r <> [] -> cachedJSON r <> [];
  io_size : (length (cmds r) <= MAX_COMMANDS)%nat;
  io_separate : (1 < length (cmds r))%nat -> Forall (fun c => batchSeparately c = false) (live r)
}.

Definition pending (d : RequestDispatcher C) : list C :=
  live (inflightreq d) ++ mjoin (live <$> nextreqs d).

Record wf (d : RequestDispatcher C) : Prop := {
  wf_queue : queue_inv (nextreqs d);
  wf_inflight : inflight_ok (inflightreq d);
  wf_stop : stopProcessing (inflightreq d) = false;
  wf_idle : processing d = false /\ clearWhenSafe d = false
}.

Lemma batch_new : batch_ok new_Request.
Proof. split; simpl; try done; lia. Qed.

Lemma back_snoc (d : RequestDispatcher C) fr b : nextreqs d = fr ++ [b] -> back d = b.
Proof. intros E. unfold back. by rewrite E, last_snoc. Qed.

Lemma set_back_snoc (d : RequestDispatcher C) fr b r : nextreqs d = fr ++ [b] -> set_back r d = set_nextreqs (fr ++ [r]) d.
Proof. intros E. unfold set_back. by rewrite E, removelast_last. Qed.

Lemma live_add (c : C) r : live (request_add c r) = live r ++ [c].
Proof. unfold live, request_add. simpl. by rewrite omap_app. Qed.

Lemma live_length (r : Request C) : Forall is_Some (cmds r) -> length (live r) = length (cmds r).
Proof. unfold live. induction 1 as [|o l [c ->] Hl IH]; [done|]. cbn. f_equal. exact IH. Qed.

Lemma batch_add c r :
  batch_ok r -> (length (cmds r) < MAX_COMMANDS)%nat -> (cmds r <> [] -> batchSeparately c = false) ->
  (cmds r <> [] -> Forall (fun x => batchSeparately x = false) (live r)) -> batch_ok (request_add c r).
Proof.
  intros [H1 H2 H3 H4] Hlt Hsep Hr. split; simpl; [|rewrite length_app; simpl; lia| |done].
  - apply Forall_app. split; [done|]. repeat constructor. by exists c.
  - intros Hl. rewrite live_add. rewrite length_app in Hl. simpl in Hl.
    assert (cmds r <> []) as Hne by (intros E; rewrite E in Hl; simpl in Hl; lia).
    apply Forall_app. split; [by apply Hr|]. repeat constructor. by apply Hsep.
Qed.

Lemma open_new : open_batch new_Request.
Proof. by intros E. Qed.

Lemma queue_new l : queue_inv l -> (exists fr b, l = fr ++ [b] /\ cmds b <> []) -> queue_inv (l ++ [new_Request]).
Proof.
  intros [(fr & b & -> & Hfr & Hb) Hall] (fr' & b' & E & Hne). apply app_inj_tail in E as [<- <-].
  split.
  - exists (fr ++ [b]), new_Request. split_and!; [done| |apply open_new].
    apply Forall_app. split; [done|]. by apply Forall_singleton.
  - apply Forall_app. split; [done|]. apply Forall_singleton, batch_new.
Qed.

(** [add] in terms of the last batch. *)
Lemma add_queue c (d : RequestDispatcher C) :
  queue_inv (nextreqs d) ->
  queue_inv (nextreqs (add c d)) /\ mjoin (live <$> nextreqs (add c d)) = mjoin (live <$> nextreqs d) ++ [c]
  /\ inflightreq (add c d) = inflightreq d /\ processing (add c d) = processing d
  /\ clearWhenSafe (add c d) = clearWhenSafe d /\ inflightFailReason (add c d) = inflightFailReason d
  /\ reqid (add c d) = reqid d.
Proof.
  intros Hq. unfold add.
  set (d1 := if (MAX_COMMANDS <=? request_size (back d))%nat then push_back new_Request d else d).
  assert (queue_inv (nextreqs d1) /\ mjoin (live <$> nextreqs d1) = mjoin (live <$> nextreqs d)
    /\ (forall fr b, nextreqs d1 = fr ++ [b] -> (length (cmds b) < MAX_COMMANDS)%nat)
    /\ exists l, d1 = set_nextreqs l d) as (Hq1 & Hj1 & Hs1 & l1 & Hd1).
  { destruct (qi_split _ Hq) as (fr & b & E & Hfr & Hb). unfold d1, request_size. rewrite (back_snoc _ _ _ E).
    destruct (Nat.leb_spec MAX_COMMANDS (length (cmds b))) as [Hge|Hlt].
    - assert (cmds b <> []) as Hne by (intros E0; rewrite E0 in Hge; cbn in Hge; unfold MAX_COMMANDS in Hge; lia).
      cbn [push_back set_nextreqs nextreqs]. split_and!.
      + apply queue_new; [done|]. by exists fr, b.
      + rewrite fmap_app, join_app. cbn. by rewrite app_nil_r.
      + intros fr' b' [_ <-]%app_inj_tail. cbn. unfold MAX_COMMANDS. lia.
      + by eexists.
    - split_and!; [done|done| |exists (nextreqs d); by destruct d].
      intros fr' b' E'. rewrite E in E'. by apply app_inj_tail in E' as [_ <-]. }
  clearbody d1.
  set (d2 := if batchSeparately c && negb (request_empty (back d1)) then push_back new_Request d1 else d1).
  assert (queue_inv (nextreqs d2) /\ mjoin (live <$> nextreqs d2) = mjoin (live <$> nextreqs d)
    /\ (forall fr b, nextreqs d2 = fr ++ [b] -> (length (cmds b) < MAX_COMMANDS)%nat
         /\ (batchSeparately c = true -> cmds b = []))
    /\ exists l, d2 = set_nextreqs l d) as (Hq2 & Hj2 & Hs2 & l2 & Hd2).
  { destruct (qi_split _ Hq1) as (fr & b & E & Hfr & Hb). unfold d2, request_empty. rewrite (back_snoc _ _ _ E).
    destruct (batchSeparately c && negb (bool_decide (cmds b = []))) eqn:Es.
    - apply andb_true_iff in Es as [_ Es]. apply negb_true_iff, bool_decide_eq_false in Es.
      cbn [push_back set_nextreqs nextreqs]. split_and!.
      + apply queue_new; [done|]. by exists fr, b.
      + rewrite fmap_app, join_app. cbn. by rewrite app_nil_r.
      + intros fr' b' [_ <-]%app_inj_tail. cbn. unfold MAX_COMMANDS. split; [lia|done].
      + subst d1. by eexists.
    - split_and!; [done|done| |by exists l1]. intros fr' b' E'. split; [by eapply Hs1|]. intros Hc.
      rewrite E in E'. apply app_inj_tail in E' as [_ <-]. rewrite Hc in Es. cbn in Es.
      by apply negb_false_iff, bool_decide_eq_true in Es. }
  clearbody d2. clear Hd1 Hq1 Hj1 Hs1.
  destruct (qi_split _ Hq2) as (fr & b & E & Hfr & Hb). destruct (Hs2 _ _ E) as [Hlt Hsep].
  rewrite (back_snoc _ _ _ E), (set_back_snoc _ _ _ _ E).
  assert (Forall batch_ok (fr ++ [request_add c b])) as Hall.
  { pose proof (qi_batches _ Hq2) as Hb2. rewrite E in Hb2. apply Forall_app in Hb2 as [Hb2 Hb3].
    apply Forall_cons in Hb3 as [Hb3 _]. apply Forall_app. split; [done|]. apply Forall_singleton.
    apply batch_add; [done|done| |done]. intros Hne. destruct (batchSeparately c); [|done]. by destruct Hne, Hsep. }
  assert (mjoin (live <$> fr ++ [request_add c b]) = mjoin (live <$> nextreqs d) ++ [c]) as Hj.
  { rewrite <- Hj2, E, !fmap_app, !join_app.
    change (mjoin (live <$> [request_add c b])) with (live (request_add c b) ++ []).
    change (mjoin (live <$> [b])) with (live b ++ []). by rewrite live_add, !app_nil_r, app_assoc. }
  subst d2. destruct (batchSeparately c) eqn:Ec.
  - cbn [push_back set_nextreqs nextreqs inflightreq processing clearWhenSafe inflightFailReason reqid].
    split_and!; try done.
    + assert (cmds (request_add c b) <> []) as Hne by (cbn; by destruct (cmds b)).
      split.
      * exists (fr ++ [request_add c b]), new_Request. split_and!; [done| |apply open_new].
        apply Forall_app. split; [done|]. by apply Forall_singleton.
      * apply Forall_app. split; [done|]. apply Forall_singleton, batch_new.
    + rewrite fmap_app, join_app, Hj. cbn. by rewrite app_nil_r.
  - cbn [set_nextreqs nextreqs inflightreq processing clearWhenSafe inflightFailReason reqid].
    split_and!; try done. split; [|done]. exists fr, (request_add c b). split_and!; [done|done|].
    intros _. rewrite live_add. apply Forall_app. split; [|by apply Forall_singleton].
    destruct (cmds b) as [|o l] eqn:Eb; [unfold live; by rewrite Eb|]. apply Hb. by rewrite Eb.
Qed.

Lemma live_run r cs : run_ok r cs -> live r = cs.
Proof.
  unfold run_ok, live. intros ->. rewrite omap_app.
  assert (omap id (replicate (processindex r) (@None C)) = []) as -> by (induction (processindex r); done).
  cbn [app]. induction cs as [|c cs IH]; [done|]. cbn. f_equal. exact IH.
Qed.

Lemma run_batch r : batch_ok r -> run_ok r (live r).
Proof.
  intros [Hl _ _ (_ & Hi & _)]. unfold run_ok. rewrite Hi. cbn [replicate app]. unfold live.
  induction Hl as [|o l [c ->] Hl IH]; [done|]. cbn. f_equal. exact IH.
Qed.

Lemma run_empty r cs : run_ok r cs -> cmds r = [] <-> cs = [] /\ processindex r = 0%nat.
Proof.
  unfold run_ok. intros ->. destruct (processindex r); destruct cs; cbn; naive_solver.
Qed.

(** The calls of a command while it is processed. *)
Definition adds (calls : list (Call C)) : list C :=
  omap (fun c => match c with CallAdd c => Some c | CallClear => None end) calls.
Definition clears (calls : list (Call C)) : bool :=
  existsb (fun c => match c with CallAdd _ => false | CallClear => true end) calls.

Definition queued (d : RequestDispatcher C) : list C := mjoin (live <$> nextreqs d).

(** [d'] differs from [d] by calls of a command in progress. *)
Record called (d d' : RequestDispatcher C) (added : list C) (cleared : bool) : Prop := {
  ca_queue : queue_inv (nextreqs d');
  ca_queued : queued d' = queued d ++ added;
  ca_inflight : inflightreq d' = set_stopProcessing (stopProcessing (inflightreq d) || cleared) (inflightreq d);
  ca_processing : processing d' = true;
  ca_clear : clearWhenSafe d' = clearWhenSafe d || cleared;
  ca_reason : inflightFailReason d' = inflightFailReason d;
  ca_reqid : reqid d' = reqid d
}.

Lemma called_refl d : queue_inv (nextreqs d) -> processing d = true -> called d d [] false.
Proof.
  intros Hq Hp. split; try done; [by rewrite app_nil_r|rewrite orb_false_r; by destruct (inflightreq d)|].
  by rewrite orb_false_r.
Qed.

Lemma called_trans d1 d2 d3 a1 a2 c1 c2 :
  called d1 d2 a1 c1 -> called d2 d3 a2 c2 -> called d1 d3 (a1 ++ a2) (c1 || c2).
Proof.
  intros [A1 A2 A3 A4 A5 A6 A7] [B1 B2 B3 B4 B5 B6 B7]. split; try done; try congruence.
  - by rewrite B2, A2, app_assoc.
  - rewrite B3, A3. unfold set_stopProcessing. cbn. by rewrite orb_assoc.
  - by rewrite B5, A5, orb_assoc.
Qed.

Lemma run_call_called d c : queue_inv (nextreqs d) -> processing d = true ->
  called d (run_call d c) (adds [c]) (clears [c]).
Proof.
  intros Hq Hp. destruct c as [c|]; cbn [run_call].
  - destruct (add_queue c d Hq) as (H1 & H2 & H3 & H4 & H5 & H6 & H7). split; try done.
    + rewrite H3. cbn. rewrite orb_false_r. by destruct (inflightreq d).
    + by rewrite H4.
    + by rewrite H5, orb_false_r.
  - unfold clear. rewrite Hp. split; cbn; try done; [by rewrite app_nil_r|by rewrite orb_true_r|by rewrite orb_true_r].
Qed.

Lemma run_calls_called calls : forall d, queue_inv (nextreqs d) -> processing d = true ->
  called d (foldl run_call d calls) (adds calls) (clears calls).
Proof.
  induction calls as [|c calls IH]; intros d Hq Hp; [by apply called_refl|].
  pose proof (run_call_called d c Hq Hp) as H1.
  pose proof (IH (run_call d c) (ca_queue _ _ _ _ H1) (ca_processing _ _ _ _ H1)) as H2.
  pose proof (called_trans _ _ _ _ _ _ _ H1 H2) as H3. cbn [foldl].
  replace (adds (c :: calls)) with (adds [c] ++ adds calls) by (destruct c; done).
  replace (clears (c :: calls)) with (clears [c] || clears calls) by (destruct c; done). done.
Qed.

(** *** Histories *)

(** The world records the commands added and those whose result was processed. *)
Class Recorded (issued answered : W -> list C) := {
  rec_procresult c r pos cl :
    let '(_, _, cl', calls) := procresult c r pos cl in
    answered (world cl') = answered (world cl) ++ [c] /\ issued (world cl') = issued (world cl) ++ adds calls;
  rec_overquota cl : world (activateoverquota cl) = world cl;
  rec_business cl : world (setBusinessStatusExpired cl) = world cl
}.

(** No command clears the dispatcher. *)
Definition quiet : Prop :=
  forall c r pos cl, let '(_, _, _, calls) := procresult c r pos cl in clears calls = false.

Context (issued answered : W -> list C) `{!Recorded issued answered}.

(** From [cl], [d] the commands [cs] were executed. *)
Definition executed (cs : list C) (w : W) (d : RequestDispatcher C) (w' : W) (d' : RequestDispatcher C)
    (added : list C) (cleared : bool) : Prop :=
  answered w' = answered w ++ cs /\ issued w' = issued w ++ added
  /\ queue_inv (nextreqs d') /\ queued d' = queued d ++ added /\ processing d' = true
  /\ clearWhenSafe d' = clearWhenSafe d || cleared /\ inflightFailReason d' = inflightFailReason d
  /\ reqid d' = reqid d /\ (quiet -> cleared = false).

Definition step_calls (c : C) (cl : Client W) (d : RequestDispatcher C) (s : @Step C W) : Prop :=
  exists added cleared, called d s.2 added cleared /\ executed [c] (world cl) d (world s.1.2) s.2 added cleared.

Lemma proc_called c r pos cl d :
  queue_inv (nextreqs d) -> processing d = true -> step_calls c cl d (proc c r pos cl d).
Proof using Type*.
  intros Hq Hp. unfold proc. pose proof (rec_procresult c r pos cl) as Hrec.
  assert (quiet -> let '(_, _, _, calls) := procresult c r pos cl in clears calls = false) as Hqt by (intros Hn; apply Hn).
  destruct (procresult c r pos cl) as [[[ok pos'] cl'] calls]. destruct Hrec as [Ha Hi].
  pose proof (run_calls_called calls d Hq Hp) as Hc.
  exists (adds calls), (clears calls). split; [done|]. destruct Hc. by split_and!.
Qed.

Lemma check_reply_world b pos cl det e pos' cl' :
  check_reply b pos cl = Some (det, e, pos', cl') -> world cl' = world cl.
Proof using Type*.
  unfold check_reply, checkError. destruct b; [|intros; by simplify_eq].
  destruct (parse_error pos) as [[[det0 e0] pos0]|]; [|done]. cbn [mbind option_bind]. intros E. simplify_eq.
  destruct (_ && _); [rewrite rec_business|]; destruct (_ && _); by rewrite ?rec_overquota.
Qed.

Lemma step_calls_world c cl cl' d s : world cl' = world cl -> step_calls c cl' d s -> step_calls c cl d s.
Proof. unfold step_calls. by intros ->. Qed.

Lemma step_calls_pos c cl d ok pos cl' d' ok' pos' :
  step_calls c cl d (ok, pos, cl', d') -> step_calls c cl d (ok', pos', cl', d').
Proof. done. Qed.

Lemma processCmdJSON_called c b pos cl d s :
  queue_inv (nextreqs d) -> processing d = true -> processCmdJSON c b pos cl d = Some s -> step_calls c cl d s.
Proof using Type*.
  intros Hq Hp E. unfold processCmdJSON in E.
  destruct (check_reply b pos cl) as [[[[det e] pos1] cl1]|] eqn:Ec; [|done].
  eapply step_calls_world; [by eapply check_reply_world|].
  cbn [mbind option_bind] in E. destruct det; [simplify_eq; by apply proc_called|].
  destruct (JSON.enterobject pos1) as [[|] pos2].
  - pose proof (proc_called c CmdObject pos2 cl1 d Hq Hp) as Hs.
    destruct (proc c CmdObject pos2 cl1 d) as [[[ok pos3] cl3] d3]. destruct ok; [|by simplify_eq].
    destruct (JSON.leaveobject _ pos3) as [[ok' pos4]|]; [|done]. cbn in E. by simplify_eq.
  - destruct (JSON.enterarray pos2) as [[|] pos3]; [|simplify_eq; by apply proc_called].
    pose proof (proc_called c CmdArray pos3 cl1 d Hq Hp) as Hs.
    destruct (proc c CmdArray pos3 cl1 d) as [[[ok pos4] cl4] d4]. destruct ok; [|by simplify_eq].
    destruct (JSON.leavearray pos4) as [ok' pos5]. by simplify_eq.
Qed.

Definition outcome (c : C) (cl : Client W) (d : RequestDispatcher C) (r : @Step C W + Client W) : Prop :=
  match r with inl s => step_calls c cl d s | inr cl' => world cl' = world cl end.

Lemma processSeqTag_called c wj ia pos cl d r :
  queue_inv (nextreqs d) -> processing d = true -> processSeqTag c wj ia pos cl d = Some r -> outcome c cl d r.
Proof using Type*.
  intros Hq Hp E. unfold processSeqTag in E. destruct (JSON.storeobject pos []) as [[ok pos1] st].
  destruct (_ || _) in E; [|by simplify_eq].
  destruct wj.
  - destruct (processCmdJSON c false _ _ d) as [s1|] eqn:E1 in E; [|done].
    cbn [mbind option_bind] in E. simplify_eq. cbn. eapply step_calls_world; [|by eapply processCmdJSON_called]. done.
  - simplify_eq. cbn. eapply step_calls_world; [|by apply proc_called]. done.
Qed.

Lemma process_command_called c pos cl d r :
  queue_inv (nextreqs d) -> processing d = true -> process_command c pos cl d = Some r -> outcome c cl d r.
Proof using Type*.
  intros Hq Hp E. unfold process_command in E.
  assert (forall r, outcome c (set_restag (tag c) cl) d r -> outcome c cl d r) as Hw by (by intros [s|cl']).
  apply Hw. destruct (if mSeqtagArray c then _ else _) as [[|] pos1].
  - unfold process_tagged in E. destruct (_ && _) in E.
    + destruct (processCmdJSON c false _ _ d) as [s1|] eqn:E1; [|done]. cbn [mbind option_bind] in E.
      pose proof (processCmdJSON_called _ _ _ _ _ _ Hq Hp E1) as Hs.
      destruct s1 as [[[ok pos2] cl2] d2]. destruct ok; [|by simplify_eq].
      destruct (JSON.leavearray pos2) as [ok' pos3]. by simplify_eq.
    + destruct (processSeqTag c true true pos1 _ d) as [r1|] eqn:E1; [|done]. cbn [mbind option_bind] in E.
      apply processSeqTag_called in E1; [|done..]. destruct r1 as [s1|cl1]; [|by simplify_eq].
      destruct s1 as [[[ok pos2] cl2] d2]. destruct ok; [|by simplify_eq].
      destruct (JSON.leavearray pos2) as [ok' pos3]. by simplify_eq.
  - destruct (_ =? _) in E; [by eapply processSeqTag_called|].
    destruct (processCmdJSON c true _ _ d) as [s1|] eqn:E1; [|done]. cbn in E. simplify_eq.
    by eapply processCmdJSON_called.
Qed.

Lemma executed_nil w d :
  queue_inv (nextreqs d) -> processing d = true -> executed [] w d w d [] false.
Proof. intros Hq Hp. split_and!; rewrite ?app_nil_r, ?orb_false_r; done. Qed.

Lemma executed_app cs1 cs2 w1 d1 w2 d2 w3 d3 a1 a2 c1 c2 :
  executed cs1 w1 d1 w2 d2 a1 c1 -> executed cs2 w2 d2 w3 d3 a2 c2 ->
  executed (cs1 ++ cs2) w1 d1 w3 d3 (a1 ++ a2) (c1 || c2).
Proof.
  intros (A1 & A2 & A3 & A4 & A5 & A6 & A7 & A8 & A9) (B1 & B2 & B3 & B4 & B5 & B6 & B7 & B8 & B9).
  split_and!; try done.
  - by rewrite B1, A1, app_assoc.
  - by rewrite B2, A2, app_assoc.
  - by rewrite B4, A4, app_assoc.
  - by rewrite B6, A6, orb_assoc.
  - by rewrite B7.
  - by rewrite B8.
  - intros Hn. by rewrite A9, B9.
Qed.

(** The request in flight may differ. *)
Lemma executed_inflight cs w d w' d' a c r :
  executed cs w d w' d' a c -> executed cs w d w' (set_inflight r d') a c.
Proof. done. Qed.

Lemma run_current (r : Request C) c cs : run_ok r (c :: cs) -> cmds r !! processindex r = Some (Some c).
Proof.
  intros Hr. rewrite Hr. rewrite lookup_app_r by (rewrite length_replicate; lia).
  by rewrite length_replicate, Nat.sub_diag.
Qed.

Lemma run_length (r : Request C) cs : run_ok r cs -> length (cmds r) = (processindex r + length cs)%nat.
Proof. intros Hr. by rewrite Hr, length_app, length_replicate, length_fmap. Qed.

Lemma run_finish (d : RequestDispatcher C) c cs :
  run_ok (inflightreq d) (c :: cs) -> run_ok (inflightreq (finish_command d)) cs.
Proof.
  intros Hr. unfold run_ok, finish_command. cbn [inflightreq set_inflight set_processindex cmds set_cmds processindex].
  rewrite Hr at 1. rewrite insert_app_r_alt by (rewrite length_replicate; lia).
  rewrite length_replicate, Nat.sub_diag, replicate_S_end, <- app_assoc. done.
Qed.

(** What the loop leaves. *)
Record looped (cl : Client W) (d : RequestDispatcher C) (cs : list C) (waiting : bool)
    (cl' : Client W) (d' : RequestDispatcher C) : Prop := {
  lo_run : exists dn rest added cleared, cs = dn ++ rest /\ run_ok (inflightreq d') rest
    /\ executed dn (world cl) d (world cl') d' added cleared
    /\ stopProcessing (inflightreq d') = stopProcessing (inflightreq d) || cleared
    /\ (if waiting then rest <> [] /\ stopProcessing (inflightreq d') = false
        else rest = [] \/ stopProcessing (inflightreq d') = true);
  lo_cached : cachedJSON (inflightreq d') = cachedJSON (inflightreq d)
    /\ cachedIdempotenceId (inflightreq d') = cachedIdempotenceId (inflightreq d);
  lo_length : length (cmds (inflightreq d')) = length (cmds (inflightreq d))
}.

Lemma process_loop_looped cs : forall pos cl d waiting pos' cl' d',
  run_ok (inflightreq d) cs -> queue_inv (nextreqs d) -> processing d = true ->
  process_loop (length cs) pos cl d = Some (waiting, pos', cl', d') -> looped cl d cs waiting cl' d'.
Proof using Type*.
  assert (forall cl d cs, run_ok (inflightreq d) cs -> queue_inv (nextreqs d) -> processing d = true ->
    cs = [] \/ stopProcessing (inflightreq d) = true -> looped cl d cs false cl d) as Hstop.
  { intros cl d cs0 Hr Hq Hp Hor. split; [|done|done]. exists [], cs0, [], false. rewrite orb_false_r.
    split_and!; try done. by apply executed_nil. }
  induction cs as [|c cs IH]; intros pos cl d waiting pos' cl' d' Hr Hq Hp E; cbn [length process_loop] in E.
  - simplify_eq. apply Hstop; auto.
  - destruct (stopProcessing (inflightreq d)) eqn:Es.
    { simplify_eq. apply Hstop; auto. }
    rewrite (run_current _ _ _ Hr) in E. cbn [default] in E. unfold id in E.
    destruct (process_command c pos cl d) as [r|] eqn:Ec; [|done]. cbn [mbind option_bind] in E.
    apply process_command_called in Ec; [|done..].
    destruct r as [[[[ok pos1] cl1] d1]|cl1]; cycle 1.
    { simplify_eq. cbn in Ec. split; [|done|done]. exists [], (c :: cs), [], false.
      split_and!; try done; [|by rewrite Es]. rewrite Ec. by apply executed_nil. }
    destruct Ec as (a1 & c1 & Hc & He). cbn in Hc, He.
    assert (run_ok (inflightreq (finish_command d1)) cs) as Hr1.
    { apply run_finish with (c := c). rewrite (ca_inflight _ _ _ _ Hc). done. }
    specialize (IH _ _ _ _ _ _ _ Hr1 (ca_queue _ _ _ _ Hc) (ca_processing _ _ _ _ Hc) E).
    destruct IH as [(dn & rest & a2 & c2 & -> & Hr2 & He2 & Hs2 & Hw) [Hj Hi] Hl].
    assert (inflightreq d1 = set_stopProcessing c1 (inflightreq d)) as Hd1.
    { rewrite (ca_inflight _ _ _ _ Hc), Es. done. }
    split.
    + exists (c :: dn), rest, (a1 ++ a2), (c1 || c2). split_and!; try done.
      * exact (executed_app [c] dn _ _ _ _ _ _ _ _ _ _ He He2).
      * rewrite Hs2. cbn [finish_command inflightreq set_inflight set_processindex set_cmds stopProcessing].
        by rewrite Hd1, Es.
    + rewrite Hj, Hi. cbn [finish_command inflightreq set_inflight set_processindex set_cmds cachedJSON cachedIdempotenceId].
      by rewrite Hd1.
    + rewrite Hl. cbn [finish_command inflightreq set_inflight set_processindex set_cmds cmds].
      by rewrite length_insert, Hd1.
Qed.

(** [process], within the frame the dispatcher puts around it. *)
Lemma process_wf cl d cl' d' :
  inflight_ok (inflightreq d) -> queue_inv (nextreqs d) -> processing d = true ->
  stopProcessing (inflightreq d) = false -> clearWhenSafe d = false ->
  process cl d = Some (cl', d') ->
  exists dn rest added cleared, live (inflightreq d) = dn ++ rest
    /\ executed dn (world cl) d (world cl') d' added cleared
    /\ inflight_ok (inflightreq d') /\ stopProcessing (inflightreq d') = false
    /\ live (inflightreq d') = (if cleared then [] else rest).
Proof using Type*.
  intros Hio Hq Hp Hs Hcw E. destruct (io_cmds _ Hio) as (cs & Hr & _).
  unfold process in E. rewrite (run_length _ _ Hr), Nat.add_comm, Nat.add_sub in E.
  destruct (process_loop (length cs) _ cl d) as [[[[waiting pos] cl1] d1]|] eqn:El; [|done].
  cbn [mbind option_bind] in E. apply process_loop_looped in El; [|done..].
  destruct El as [(dn & rest & added & cleared & -> & Hr1 & He & Hst & Hw) [Hj Hi] Hl].
  rewrite Hs in Hst. cbn in Hst. rewrite Hst in Hw.
  set (r := set_json (Some pos) (inflightreq d1)) in *. injection E as <- <-.
  exists dn, rest, added, cleared. split; [by apply live_run|]. split; [exact He|].
  cbn [inflightreq set_inflight].
  assert (run_ok r rest) as Hr2 by exact Hr1. assert (cmds r = [] -> rest = []) as Hre by (intros E0; by apply (run_empty _ _ Hr2)).
  assert (inflight_ok (request_clear r)) as Hclr.
  { split; cbn; try done; try lia. exists []. split; [done|]. by right. }
  assert (rest <> [] -> cleared = false -> inflight_ok r /\ stopProcessing r = false /\ live r = rest) as Hgo.
  { intros Hne ->. split_and!; [|exact Hst|by apply live_run]. split; try done.
    - exists rest. split; [done|]. by left.
    - intros _. change (cachedJSON r) with (cachedJSON (inflightreq d1)). rewrite Hj. apply (io_cached _ Hio).
      intros E0. apply (run_empty _ _ Hr) in E0 as [E0 _]. by destruct dn, rest.
    - change (cmds r) with (cmds (inflightreq d1)). rewrite Hl. apply (io_size _ Hio).
    - change (cmds r) with (cmds (inflightreq d1)). rewrite Hl. intros Hlt.
      pose proof (io_separate _ Hio Hlt) as Hf. rewrite (live_run _ _ Hr), Forall_app in Hf.
      change (live r) with (live (inflightreq d1)). rewrite (live_run _ _ Hr1). apply Hf. }
  assert (processindex r = length (cmds r) <-> rest = []) as Hpi.
  { rewrite (run_length _ _ Hr2). split; [|intros ->; cbn; lia]. intros E0. destruct rest; [done|cbn in E0; lia]. }
  destruct waiting.
  - destruct Hw as [Hne Hc]. cbn [negb andb]. rewrite Hc. by apply Hgo.
  - cbn [negb andb]. change (stopProcessing r) with (stopProcessing (inflightreq d1)). rewrite Hst.
    destruct (Nat.eqb_spec (processindex (inflightreq d1)) (length (cmds (inflightreq d1)))) as [E0|E0]; cbn [orb].
    + apply Hpi in E0. subst rest. split_and!; [done|done|]. by destruct cleared.
    + destruct cleared; [by split_and!|]. destruct Hw as [Hw|]; [|done]. by apply Hpi in Hw.
Qed.

(** What an operation on a well-formed dispatcher does to the histories. *)
Definition advanced (w : W) (d : RequestDispatcher C) (w' : W) (d' : RequestDispatcher C) : Prop :=
  exists dn rest added (cleared : bool), pending d = dn ++ rest
    /\ answered w' = answered w ++ dn /\ issued w' = issued w ++ added
    /\ pending d' = (if cleared then [] else rest ++ added) /\ (quiet -> cleared = false).

Lemma wf_fresh r id : cmds r = [] -> processindex r = 0%nat -> json r = None -> stopProcessing r = false ->
  wf (MkDispatcher r RETRY_NONE [new_Request] false false id).
Proof using Type.
  intros Hc Hi Hj Hs. split; try done; cbn.
  - split; [|by apply Forall_singleton, batch_new]. exists [], new_Request. split_and!; [done|constructor|apply open_new].
  - split; try done; rewrite ?Hc; cbn; try lia. exists [].
    split; [unfold run_ok; by rewrite Hc, Hi|]. by right.
Qed.

(** The end of [serverresponse], [servererror] and [continueProcessing]. *)
Lemma settle w w' d d1 dn rest added cleared reason :
  live (inflightreq d) = dn ++ rest -> clearWhenSafe d = false ->
  executed dn w (set_processing true d) w' d1 added cleared ->
  inflight_ok (inflightreq d1) -> stopProcessing (inflightreq d1) = false ->
  live (inflightreq d1) = (if cleared then [] else rest) ->
  let d2 := set_processing false (set_failreason reason d1) in
  let d' := if clearWhenSafe d2 then clear d2 else d2 in
  wf d' /\ advanced w d w' d'.
Proof using Type*.
  intros Hlive Hcw (Ha & Hi & Hq & Hqd & Hp & Hcl & Hrs & Hid & Hqt) Hio Hst Hl d2 d'.
  change (clearWhenSafe d2) with (clearWhenSafe d1) in d'. cbn in Hcl. rewrite Hcw in Hcl. cbn in Hcl. subst d'.
  rewrite Hcl. destruct cleared.
  - unfold clear. change (processing d2) with false. cbv iota. split; [by apply wf_fresh|].
    exists dn, (rest ++ queued d), added, true. split_and!; try done.
    unfold pending. by rewrite Hlive, <- app_assoc.
  - split; [split; try done; by split|]. exists dn, (rest ++ queued d), added, false. split_and!; try done.
    + unfold pending. by rewrite Hlive, <- app_assoc.
    + unfold pending. change (live (inflightreq d2)) with (live (inflightreq d1)).
      change (mjoin (live <$> nextreqs d2)) with (queued d1). rewrite Hl, Hqd. by rewrite <- app_assoc.
Qed.

Lemma run_process_wf cl d cl' d' :
  wf d -> run_process cl d = Some (cl', d') -> wf d' /\ advanced (world cl) d (world cl') d'.
Proof using Type*.
  intros [Hq Hio Hs [Hp Hc]] E. unfold run_process in E.
  destruct (process cl (set_processing true d)) as [[cl1 d1]|] eqn:Ep; [|done].
  cbn [mbind option_bind] in E. injection E as <- <-.
  apply process_wf in Ep as (dn & rest & added & cleared & Hl & He & Hio1 & Hs1 & Hl1); [|done..].
  exact (settle _ _ d d1 dn rest added cleared (inflightFailReason d1) Hl Hc He Hio1 Hs1 Hl1).
Qed.

Lemma response_wf text d :
  wf d -> json (inflightreq d) = None -> cmds (inflightreq d) <> [] ->
  wf (set_inflight (request_serverresponse text (inflightreq d)) d).
Proof using Type.
  intros [Hq [H1 H2 H3 H4 H5] Hs Hpc] Hj Hne. split; try done. split; try done. cbn.
  destruct H1 as (cs & Hr & _). exists cs. split; [done|]. left. intros ->.
  apply Hne. by rewrite Hr, (H2 Hj).
Qed.

Lemma serverresponse_wf text cl d cl' d' :
  wf d -> json (inflightreq d) = None -> cmds (inflightreq d) <> [] ->
  serverresponse text cl d = Some (cl', d') -> wf d' /\ advanced (world cl) d (world cl') d'.
Proof using Type*. intros Hwf Hj Hne E. exact (run_process_wf _ _ _ _ (response_wf text d Hwf Hj Hne) E). Qed.

Lemma servererror_wf e cl d cl' d' :
  wf d -> json (inflightreq d) = None -> cmds (inflightreq d) <> [] ->
  servererror e cl d = Some (cl', d') -> wf d' /\ advanced (world cl) d (world cl') d'.
Proof using Type*.
  intros Hwf Hj Hne E. unfold servererror in E.
  set (text := error_text e (length (cmds (inflightreq d)))) in *.
  destruct (response_wf text d Hwf Hj Hne) as [Hq Hio Hs [Hp Hc]].
  set (d0 := set_inflight (request_serverresponse text (inflightreq d)) d) in *.
  destruct (process cl (set_processing true d0)) as [[cl1 d1]|] eqn:Ep; [|done].
  cbn [mbind option_bind] in E. injection E as <- <-.
  apply process_wf in Ep as (dn & rest & added & cleared & Hl & He & Hio1 & Hs1 & Hl1); [|done..].
  exact (settle _ _ d0 d1 dn rest added cleared RETRY_NONE Hl Hc He Hio1 Hs1 Hl1).
Qed.

Lemma queue_pop front rest : queue_inv (front :: rest) -> queue_inv (match rest with [] => [new_Request] | _ => rest end).
Proof using Type.
  intros [(fr & b & E & Hfr & Hb) Hall]. apply Forall_cons in Hall as [_ Hall].
  destruct rest as [|r rest].
  - split; [|by apply Forall_singleton, batch_new]. exists [], new_Request. split_and!; [done|constructor|apply open_new].
  - split; [|done]. destruct fr as [|x fr]; [by destruct rest|]. injection E as -> E. apply Forall_cons in Hfr as [_ Hfr].
    by exists fr, b.
Qed.

Lemma pop_live (rest : list (Request C)) :
  mjoin (live <$> match rest with [] => [new_Request] | _ => rest end) = mjoin (live <$> rest) .
Proof using Type. by destruct rest. Qed.

Lemma request_get_json cl id r : cachedJSON (request_get cl id r).2 <> [].
Proof using Type. unfold request_get. by case_bool_decide. Qed.

Lemma request_get_set cl id r :
  exists j i c, (request_get cl id r).2 = set_cached j i c r.
Proof using Type. unfold request_get. case_bool_decide; cbn; [by eexists _, _, _|]. destruct r. by eexists _, _, _. Qed.

Lemma idle_inflight d : wf d -> cmds (inflightreq d) = [] ->
  live (inflightreq d) = [] /\ processindex (inflightreq d) = 0%nat /\ json (inflightreq d) = None.
Proof using Type.
  intros Hwf He. destruct (io_cmds _ (wf_inflight _ Hwf)) as (cs & Hr & Hor).
  destruct (proj1 (run_empty _ _ Hr) He) as [-> Hi]. split_and!; [by apply live_run|done|].
  by destruct Hor as [|[_ ?]].
Qed.

(** The batch that goes on the wire. *)
Definition to_send (d : RequestDispatcher C) : RequestDispatcher C :=
  if negb (request_empty (inflightreq d)) then d
  else match nextreqs d with
       | [] => d
       | front :: rest =>
           set_nextreqs (match rest with [] => [new_Request] | _ => rest end)
             (set_inflight (take_front front (inflightreq d)) d)
       end.

Lemma serverrequest_to_send cl d : readyToSend d = true ->
  serverrequest cl d =
    let '(text, id, counter, r) := request_get cl (reqid (to_send d)) (inflightreq (to_send d)) in
    (text, id, isFetchNodes r, set_failreason RETRY_NONE (set_reqid counter (set_inflight r (to_send d)))).
Proof using Type.
  unfold readyToSend, serverrequest, to_send. destruct (negb (request_empty (inflightreq d))); cbn; [|done].
  by intros ->.
Qed.

Lemma to_send_pending d : wf d -> pending (to_send d) = pending d.
Proof using Type.
  intros Hwf. unfold to_send, request_empty. case_bool_decide as He; [|done]. cbn [negb].
  destruct (idle_inflight d Hwf He) as (Hl & _ & _).
  unfold pending. destruct (nextreqs d) as [|front rest] eqn:En; [by rewrite En|].
  cbn [nextreqs set_nextreqs inflightreq set_inflight]. rewrite pop_live, Hl. done.
Qed.

Lemma sent_wf cl d : wf d -> readyToSend d = true ->
  wf (serverrequest cl d).2 /\ pending (serverrequest cl d).2 = pending d
  /\ cmds (inflightreq (serverrequest cl d).2) <> [].
Proof using Type.
  intros Hwf Hrd. rewrite <- (to_send_pending d Hwf), serverrequest_to_send by done.
  pose proof (request_get_json cl (reqid (to_send d)) (inflightreq (to_send d))) as Hcj.
  destruct (request_get_set cl (reqid (to_send d)) (inflightreq (to_send d))) as (j & i & c & Eg).
  destruct (request_get _ _ _) as [[[text id] counter] r]. cbn [snd] in Eg, Hcj |- *. subst r.
  cbn [inflightreq set_failreason set_reqid set_inflight]. change (cmds (set_cached j i c _)) with (cmds (inflightreq (to_send d))).
  unfold to_send, readyToSend, request_empty in *. case_bool_decide as He; cbn [negb] in Hrd |- *; cycle 1.
  { destruct Hwf as [Hq [H1 H2 H3 H4 H5] Hs Hpc]. by split_and!; [split; try done; split| |]. }
  destruct (idle_inflight d Hwf He) as (Hl & Hi & Hj). destruct Hwf as [Hq Hio Hs Hpc].
  destruct (nextreqs d) as [|front rest]; [done|].
  apply negb_true_iff, bool_decide_eq_false in Hrd.
  cbn [inflightreq set_nextreqs set_inflight take_front cmds]. split_and!; [|done|done].
  pose proof (qi_batches _ Hq) as [Hf _]%Forall_cons. split; [by eapply queue_pop| |done|done].
  destruct Hf as [B1 B2 B3 B4]. split; try done.
  exists (live front). split; [|by right]. unfold run_ok. cbn. rewrite Hi.
  pose proof (run_batch front) as Hrb. unfold run_ok in Hrb.
  replace (processindex front) with 0%nat in Hrb by (symmetry; apply B4). by apply Hrb.
Qed.

(** *** Operations in sequence *)

Inductive Op :=
  | OpAdd (c : C)
  | OpSend
  | OpFailure (reason : retryreason_t)
  | OpReply (text : bytes)
  | OpError (e : bytes)
  | OpContinue
  | OpClear
  | OpOther.

(** What the client does with the dispatcher, under the conditions the code
    asserts.  [OpOther] is any work of the client that leaves it alone. *)
Inductive op_step : Client W * RequestDispatcher C -> Op -> Client W * RequestDispatcher C -> Prop :=
  | step_add cl d cl' c :
      issued (world cl') = issued (world cl) ++ [c] -> answered (world cl') = answered (world cl) ->
      op_step (cl, d) (OpAdd c) (cl', add c d)
  | step_send cl d :
      readyToSend d = true -> op_step (cl, d) OpSend (cl, (serverrequest cl d).2)
  | step_failure cl d reason :
      cmds (inflightreq d) <> [] -> json (inflightreq d) = None ->
      op_step (cl, d) (OpFailure reason) (cl, inflightFailure reason d)
  | step_reply cl d text cl' d' :
      cmds (inflightreq d) <> [] -> json (inflightreq d) = None ->
      serverresponse text cl d = Some (cl', d') -> op_step (cl, d) (OpReply text) (cl', d')
  | step_error cl d e cl' d' :
      cmds (inflightreq d) <> [] -> json (inflightreq d) = None ->
      servererror e cl d = Some (cl', d') -> op_step (cl, d) (OpError e) (cl', d')
  | step_continue cl d cl' d' :
      cmds (inflightreq d) <> [] ->
      continueProcessing cl d = Some (cl', d') -> op_step (cl, d) OpContinue (cl', d')
  | step_clear cl d : op_step (cl, d) OpClear (cl, clear d)
  | step_other cl d cl' :
      issued (world cl') = issued (world cl) -> answered (world cl') = answered (world cl) ->
      op_step (cl, d) OpOther (cl', d).

Inductive op_steps : Client W * RequestDispatcher C -> list Op -> Client W * RequestDispatcher C -> Prop :=
  | op_nil s : op_steps s [] s
  | op_snoc s1 s2 s3 ops o : op_steps s1 ops s2 -> op_step s2 o s3 -> op_steps s1 (ops ++ [o]) s3.

(** Commands are answered in the order they were added, none twice. *)
Record history_ok (tame : Prop) (s : Client W * RequestDispatcher C) : Prop := {
  hi_wf : wf s.2;
  hi_order : sublist (answered (world s.1) ++ pending s.2) (issued (world s.1));
  hi_all : tame -> issued (world s.1) = answered (world s.1) ++ pending s.2
}.

Lemma advanced_history (tame : Prop) w d w' d' :
  (tame -> quiet) -> advanced w d w' d' -> sublist (answered w ++ pending d) (issued w) ->
  (tame -> issued w = answered w ++ pending d) ->
  sublist (answered w' ++ pending d') (issued w') /\ (tame -> issued w' = answered w' ++ pending d').
Proof using Type*.
  intros Hqt (dn & rest & added & cleared & Hp & Ha & Hi & Hp' & Hc) Hsub Hall. rewrite Hp', Ha, Hi. split.
  - destruct cleared; rewrite ?app_nil_r, ?app_assoc.
    + trans (issued w); [|apply sublist_inserts_r; reflexivity]. etrans; [|exact Hsub]. rewrite Hp, app_assoc. apply sublist_inserts_r; reflexivity.
    + apply sublist_app; [|done]. by rewrite <- app_assoc, <- Hp.
  - intros Ht. rewrite Hc by auto. rewrite Hall, Hp, !app_assoc by done. done.
Qed.

Lemma pending_add c d : queue_inv (nextreqs d) -> pending (add c d) = pending d ++ [c].
Proof using Type.
  intros Hq. destruct (add_queue c d Hq) as (_ & H2 & H3 & _). unfold pending. by rewrite H2, H3, app_assoc.
Qed.

Lemma clear_wf d : wf d -> wf (clear d) /\ pending (clear d) = [].
Proof using Type.
  intros [Hq Hio Hs [Hp Hc]]. unfold clear. rewrite Hp. split; [by apply wf_fresh|done].
Qed.

Lemma op_step_history tame s o s' :
  (tame -> quiet) -> (tame -> o <> OpClear) -> history_ok tame s -> op_step s o s' -> history_ok tame s'.
Proof using Type*.
  intros Hqt Hnc [Hwf Hsub Hall] Hstep.
  assert (forall cl d cl' d', (cl, d) = s -> wf d' /\ advanced (world cl) d (world cl') d' -> history_ok tame (cl', d')) as Hadv.
  { intros cl d cl' d' <- [Hwf' Had]. cbn in Hsub, Hall.
    destruct (advanced_history tame _ _ _ _ Hqt Had Hsub Hall). by split. }
  destruct Hstep as [cl d cl' c Hi Ha|cl d Hrd|cl d reason Hne Hj|cl d text cl' d' Hne Hj E|cl d e cl' d' Hne Hj E
    |cl d cl' d' Hne E|cl d|cl d cl' Hi Ha]; cbn in Hwf, Hsub, Hall.
  - destruct (add_queue c d (wf_queue _ Hwf)) as (H1 & H2 & H3 & H4 & H5 & _).
    split; cbn; rewrite ?(pending_add c d (wf_queue _ Hwf)), ?Ha, ?Hi.
    + destruct Hwf as [Hq Hio Hs Hpc]. split; rewrite ?H3, ?H4, ?H5; done.
    + rewrite app_assoc. by apply sublist_app.
    + intros Ht. by rewrite Hall, app_assoc.
  - destruct (sent_wf cl d Hwf Hrd) as (H1 & H2 & _). split; cbn; rewrite ?H2; done.
  - split; [|done|done]. destruct Hwf as [Hq Hio Hs Hpc]. by split.
  - apply (Hadv cl d); [done|]. by eapply serverresponse_wf.
  - apply (Hadv cl d); [done|]. by eapply servererror_wf.
  - apply (Hadv cl d); [done|]. by apply run_process_wf.
  - destruct (clear_wf d Hwf) as [H1 H2]. split; cbn; [done| |intros Ht; by destruct (Hnc Ht)].
    rewrite H2, app_nil_r. etrans; [|exact Hsub]. apply sublist_inserts_r; reflexivity.
  - split; cbn; rewrite ?Hi, ?Ha; done.
Qed.

Lemma not_stranded d : wf d -> pending d <> [] -> readyToSend d = true \/ cmds (inflightreq d) <> [].
Proof using Type.
  intros Hwf Hp. unfold readyToSend, request_empty. case_bool_decide as He; [left|by right].
  destruct (idle_inflight d Hwf He) as (Hl & _). unfold pending in Hp. rewrite Hl in Hp.
  destruct (qi_split _ (wf_queue _ Hwf)) as (fr & b & En & Hfr & _). rewrite En in *. cbn [negb].
  destruct fr as [|r fr]; cbn in *.
  - apply negb_true_iff, bool_decide_eq_false. intros E0. apply Hp. unfold live. by rewrite E0.
  - apply Forall_cons in Hfr as [Hr _]. by apply negb_true_iff, bool_decide_eq_false.
Qed.

Lemma op_steps_history tame cl0 id ops s :
  (tame -> quiet) -> (tame -> Forall (fun o => o <> OpClear) ops) ->
  issued (world cl0) = [] -> answered (world cl0) = [] ->
  op_steps (cl0, new_dispatcher id) ops s -> history_ok tame s.
Proof using Type*.
  intros Hqt Hnc Hi Ha Hs. remember (cl0, new_dispatcher id) as s0 eqn:E0.
  induction Hs as [s|s1 s2 s3 ops o Hs IH Ho].
  - subst s. split; cbn; rewrite ?Hi, ?Ha; [by apply wf_fresh|reflexivity|done].
  - subst s1. eapply op_step_history; [done| |apply IH; [|done]|exact Ho].
    + intros [_ [Hl _]%Forall_cons]%Hnc%Forall_app. exact Hl.
    + by intros [Hl _]%Hnc%Forall_app.
Qed.

(** *** The identifier of a batch *)

Definition retry_op (o : Op) : Prop :=
  match o with OpAdd _ | OpSend | OpFailure _ | OpOther => True | _ => False end.

(** The batch in flight has been sent as [text] under [id]. *)
Definition sent_as (text id : bytes) (d : RequestDispatcher C) : Prop :=
  cmds (inflightreq d) <> [] /\ text <> [] /\ cachedJSON (inflightreq d) = text
  /\ cachedIdempotenceId (inflightreq d) = id.

Lemma sent_as_send text id cl d : sent_as text id d -> readyToSend d = true ->
  sent_as text id (serverrequest cl d).2 /\ (serverrequest cl d).1.1 = (text, id).
Proof using Type.
  intros (Hne & Ht & Hj & Hi) Hrd. rewrite serverrequest_to_send by done.
  assert (to_send d = d) as -> by (unfold to_send, request_empty; by rewrite bool_decide_eq_false_2).
  unfold request_get. rewrite bool_decide_eq_false_2 by (by rewrite Hj). cbn. by rewrite Hj, Hi.
Qed.

Lemma sent_as_step text id s o s' :
  wf s.2 -> retry_op o -> sent_as text id s.2 -> op_step s o s' -> sent_as text id s'.2.
Proof using Type.
  intros Hwf Hop Hs Hstep. destruct Hstep; try done; cbn in *.
  - unfold sent_as. by rewrite (proj1 (proj2 (proj2 (add_queue c d (wf_queue _ Hwf))))).
  - by apply sent_as_send.
Qed.

Lemma sent_as_steps text id s ops s' :
  history_ok False s -> sent_as text id s.2 -> op_steps s ops s' -> Forall retry_op ops ->
  history_ok False s' /\ sent_as text id s'.2.
Proof using Type*.
  intros Hh Hs Hst. induction Hst as [s|s1 s2 s3 ops o Hst IH Ho]; [done|].
  intros [Hf [Hf1 _]%Forall_cons]%Forall_app. destruct (IH Hh Hs Hf) as [Hh2 Hs2]. split.
  - by eapply op_step_history.
  - eapply sent_as_step; [apply Hh2|done|done|done].
Qed.

Lemma send_sent_as cl d : wf d -> readyToSend d = true ->
  sent_as (serverrequest cl d).1.1.1 (serverrequest cl d).1.1.2 (serverrequest cl d).2.
Proof using Type.
  intros Hwf Hrd. destruct (sent_wf cl d Hwf Hrd) as (Hwf' & _ & Hne). unfold sent_as.
  pose proof (io_cached _ (wf_inflight _ Hwf') Hne) as Hc. revert Hne Hc.
  rewrite serverrequest_to_send by done. unfold request_get. case_bool_decide as E; by cbn.
Qed.

(** A batch sent for the first time. *)
Lemma send_new cl d : wf d -> readyToSend d = true -> cmds (inflightreq d) = [] ->
  (serverrequest cl d).1.1 = (batch_text cl (live (inflightreq (to_send d))), bump_reqid (reqid d))
  /\ reqid (serverrequest cl d).2 = bump_reqid (reqid d)
  /\ exists later, pending d = live (inflightreq (to_send d)) ++ later.
Proof using Type.
  intros Hwf Hrd He. rewrite serverrequest_to_send by done.
  rewrite <- (to_send_pending d Hwf).
  assert (cachedJSON (inflightreq (to_send d)) = [] /\ reqid (to_send d) = reqid d) as [Hc Hr].
  { unfold to_send, request_empty. unfold readyToSend, request_empty in Hrd. rewrite (bool_decide_eq_true_2 _ He) in *.
    cbn [negb] in *. destruct (qi_batches _ (wf_queue _ Hwf)) as [|front rest Hb _]; [done|].
    split; [|done]. apply Hb. }
  unfold request_get. rewrite bool_decide_eq_true_2 by done. cbn. rewrite Hr.
  split_and!; [done|done|]. by exists (queued (to_send d)).
Qed.

Definition letter (c : Z) : Prop := chr "a" <= c <= chr "z".

(** The number the letters stand for, first letter most significant. *)
Fixpoint rev_value (l : bytes) : Z :=
  match l with [] => 0 | c :: l => (c - chr "a") + 26 * rev_value l end.
Definition id_value (id : bytes) : Z := rev_value (rev id).

Lemma bump_rev_value l : Forall letter l ->
  Forall letter (bump_rev l) /\ length (bump_rev l) = length l
  /\ 0 <= rev_value l < 26 ^ Z.of_nat (length l)
  /\ rev_value (bump_rev l) = (rev_value l + 1) mod 26 ^ Z.of_nat (length l).
Proof using Type.
  induction 1 as [|c l Hc Hl (IH1 & IH2 & IH3 & IH4)]; [done|]. unfold letter in *.
  assert (26 ^ Z.of_nat (length (c :: l)) = 26 * 26 ^ Z.of_nat (length l)) as Ep.
  { cbn [length]. rewrite Nat2Z.inj_succ, Z.pow_succ_r by lia. done. }
  assert (0 < 26 ^ Z.of_nat (length l)) as Hpos by lia. rewrite Ep.
  cbn [bump_rev]. destruct (Z.ltb_spec c (chr "z")) as [Hz|Hz]; cbn [length rev_value].
  - split_and!; [by constructor; [lia|]|done|lia|lia|]. rewrite Z.mod_small; lia.
  - assert (c = 122) as -> by lia. split_and!; [by constructor; [lia|]|by f_equal|lia|lia|].
    rewrite IH4. replace (122 - 97 + 26 * rev_value l + 1) with (26 * (rev_value l + 1)) by lia.
    rewrite Z.mul_mod_distr_l by lia. lia.
Qed.

Lemma bump_value id : Forall letter id ->
  Forall letter (bump_reqid id) /\ length (bump_reqid id) = length id
  /\ 0 <= id_value id < 26 ^ Z.of_nat (length id)
  /\ id_value (bump_reqid id) = (id_value id + 1) mod 26 ^ Z.of_nat (length id).
Proof using Type.
  intros Hl. apply Forall_rev in Hl. destruct (bump_rev_value _ Hl) as (H1 & H2 & H3 & H4).
  rewrite length_rev in H2, H3, H4. unfold bump_reqid, id_value. rewrite rev_involutive, length_rev.
  split_and!; try done; try lia. by apply Forall_rev.
Qed.

Lemma bump_iter k id : Forall letter id ->
  Forall letter (Nat.iter k bump_reqid id) /\ length (Nat.iter k bump_reqid id) = length id
  /\ id_value (Nat.iter k bump_reqid id) = (id_value id + Z.of_nat k) mod 26 ^ Z.of_nat (length id).
Proof using Type.
  intros Hl. induction k as [|k (IH1 & IH2 & IH3)].
  - destruct (bump_value id Hl) as (_ & _ & H3 & _). cbn. rewrite Z.add_0_r, Z.mod_small by lia. done.
  - change (Nat.iter (S k) bump_reqid id) with (bump_reqid (Nat.iter k bump_reqid id)).
    destruct (bump_value _ IH1) as (H1 & H2 & _ & H4). rewrite H2, H4, IH2, IH3. split_and!; [done|done|].
    rewrite Zplus_mod_idemp_l. f_equal. lia.
Qed.

(** The counter behind the identifiers. *)
Lemma clear_reqid (d : RequestDispatcher C) : reqid (clear d) = reqid d.
Proof using Type. unfold clear. by destruct (processing d). Qed.

Lemma process_reqid cl d cl' d' : wf d -> process cl (set_processing true d) = Some (cl', d') -> reqid d' = reqid d.
Proof using Type*.
  intros [Hq Hio Hs [Hp Hc]] E. apply process_wf in E as (dn & rest & added & cleared & _ & He & _); [|done..].
  exact (proj1 (proj2 (proj2 (proj2 (proj2 (proj2 (proj2 (proj2 He)))))))).
Qed.

Lemma run_process_reqid cl d cl' d' : wf d -> run_process cl d = Some (cl', d') -> reqid d' = reqid d.
Proof using Type*.
  intros Hwf E. unfold run_process in E. destruct (process cl (set_processing true d)) as [[cl1 d1]|] eqn:Ep; [|done].
  apply process_reqid in Ep; [|done]. cbn [mbind option_bind] in E. injection E as <- <-.
  destruct (clearWhenSafe _); rewrite ?clear_reqid; exact Ep.
Qed.

Lemma op_step_reqid s o s' : wf s.2 -> op_step s o s' -> reqid s'.2 = reqid s.2 \/ reqid s'.2 = bump_reqid (reqid s.2).
Proof using Type*.
  intros Hwf Hstep. destruct Hstep as [cl d cl' c Hi Ha|cl d Hrd|cl d reason Hne Hj|cl d text cl' d' Hne Hj E
    |cl d e cl' d' Hne Hj E|cl d cl' d' Hne E|cl d|cl d cl' Hi Ha]; cbn in Hwf |- *; try (by left).
  - left. apply (add_queue c d (wf_queue _ Hwf)).
  - rewrite serverrequest_to_send by done.
    assert (reqid (to_send d) = reqid d) as <- by (unfold to_send; destruct (negb _); [done|]; by destruct (nextreqs d)).
    unfold request_get. case_bool_decide; cbn; auto.
  - left. by rewrite (run_process_reqid _ _ _ _ (response_wf text d Hwf Hj Hne) E).
  - left. unfold servererror in E. set (tx := error_text e _) in E.
    destruct (process cl _) as [[cl1 d1]|] eqn:Ep; [|done]. apply (process_reqid _ _ _ _ (response_wf tx d Hwf Hj Hne)) in Ep.
    cbn [mbind option_bind] in E. injection E as <- <-. destruct (clearWhenSafe _); rewrite ?clear_reqid; exact Ep.
  - left. by eapply run_process_reqid.
  - left. apply clear_reqid.
Qed.

Lemma op_steps_reqid cl0 id ops s :
  issued (world cl0) = [] -> answered (world cl0) = [] ->
  op_steps (cl0, new_dispatcher id) ops s -> exists n, reqid s.2 = Nat.iter n bump_reqid id.
Proof using Type*.
  intros Hi Ha Hs. remember (cl0, new_dispatcher id) as s0 eqn:E0.
  induction Hs as [s|s1 s2 s3 ops o Hs IH Ho]; [exists 0%nat; by subst s|].
  destruct (IH E0) as [n En]. subst s1.
  assert (history_ok False s2) as Hh by exact (op_steps_history False cl0 id ops s2 (False_ind _) (False_ind _) Hi Ha Hs).
  destruct (op_step_reqid _ _ _ (hi_wf _ _ Hh) Ho) as [E|E]; rewrite E, En; [by exists n|by exists (S n)].
Qed.

End facts.
End RequestFacts.

(** ** Theorems *)

(** C11: In every sequence of adding commands, sending, failures of the connection,
    replies and errors that have arrived whole, continuing after action packets
    and clearing, the queue stays well formed: batches hold at most [MAX_COMMANDS]
    commands, a command that must be sent separately is alone in its batch, only
    the last batch may be empty.  Commands are told their results in the order
    they were added, each at most once; if neither the client ([OpClear]) nor a
    command while its result is processed ([quiet]) clears the queue, none is
    lost; and a command that is queued is in flight or can be sent.  Replies that
    are parsed while they arrive are not among these operations: see
    [streamed_reply_chunks] of Streaming.v, and [error_in_flight] there for a
    command that is lost in that way. *)
Theorem request_queue {C W} `{CommandOps C W} issued answered `{!RequestFacts.Recorded issued answered} cl0 id ops cl d :
  issued (world cl0) = [] -> answered (world cl0) = [] ->
  RequestFacts.op_steps issued answered (cl0, new_dispatcher id) ops (cl, d) ->
  RequestFacts.wf d
  /\ sublist (answered (world cl) ++ RequestFacts.pending d) (issued (world cl))
  /\ (RequestFacts.quiet -> Forall (fun o => o <> RequestFacts.OpClear) ops ->
      issued (world cl) = answered (world cl) ++ RequestFacts.pending d)
  /\ (RequestFacts.pending d <> [] -> readyToSend d = true \/ cmds (inflightreq d) <> []).
Proof.
  intros Hi Ha Hs.
  destruct (RequestFacts.op_steps_history issued answered
    (RequestFacts.quiet /\ Forall (fun o => o <> RequestFacts.OpClear) ops) cl0 id ops (cl, d)
    ltac:(by intros [? ?]) ltac:(by intros [? ?]) Hi Ha Hs) as [Hwf Hsub Hall].
  split_and!; [done|done|auto|by apply RequestFacts.not_stranded].
Qed.

(** C12: A batch is sent under a new identifier, the successor of the last one
    (identifiers repeat only after 26^10 batches), and holds the oldest commands;
    until it is answered or the queue is cleared every retry sends the same text
    under the same identifier, whatever was queued or changed in between. *)
Theorem idempotent_retry {C W} `{CommandOps C W} issued answered `{!RequestFacts.Recorded issued answered} cl0 id ops cl d :
  issued (world cl0) = [] -> answered (world cl0) = [] -> Forall RequestFacts.letter id ->
  RequestFacts.op_steps issued answered (cl0, new_dispatcher id) ops (cl, d) -> readyToSend d = true ->
  let '(text, rid, _, d1) := serverrequest cl d in
  (cmds (inflightreq d) = [] ->
     text = batch_text cl (live (inflightreq d1)) /\ rid = bump_reqid (reqid d) /\ reqid d1 = rid
     /\ exists later, RequestFacts.pending d = live (inflightreq d1) ++ later)
  /\ (exists n, reqid d = Nat.iter n bump_reqid id)
  /\ (forall n m, (n < m)%nat -> Z.of_nat m < Z.of_nat n + 26 ^ Z.of_nat (length id) ->
        Nat.iter n bump_reqid id <> Nat.iter m bump_reqid id)
  /\ (forall ops' cl2 d2, RequestFacts.op_steps issued answered (cl, d1) ops' (cl2, d2) ->
        Forall RequestFacts.retry_op ops' -> readyToSend d2 = true -> (serverrequest cl2 d2).1.1 = (text, rid)).
Proof.
  intros Hi Ha Hid Hs Hrd.
  assert (RequestFacts.history_ok issued answered False (cl, d)) as Hh
    by exact (RequestFacts.op_steps_history issued answered False cl0 id ops (cl, d) (False_ind _) (False_ind _) Hi Ha Hs).
  pose proof (RequestFacts.hi_wf _ _ _ _ Hh) as Hwf. cbn in Hwf.
  pose proof (RequestFacts.send_sent_as cl d Hwf Hrd) as Hsent.
  pose proof (RequestFacts.send_new cl d Hwf Hrd) as Hnew.
  assert (RequestFacts.history_ok issued answered False (cl, (serverrequest cl d).2)) as Hh1.
  { eapply (RequestFacts.op_step_history _ _ _ _ RequestFacts.OpSend); [done|done|exact Hh|]. by constructor. }
  assert (live (inflightreq (serverrequest cl d).2) = live (inflightreq (RequestFacts.to_send d))) as Hlv.
  { rewrite RequestFacts.serverrequest_to_send by done.
    destruct (RequestFacts.request_get_set cl (reqid (RequestFacts.to_send d)) (inflightreq (RequestFacts.to_send d)))
      as (j & i & c & Eg). destruct (request_get _ _ _) as [[[text rid] counter] r]. cbn [snd] in Eg. by subst r. }
  destruct (serverrequest cl d) as [[[text rid] f] d1]. cbn [fst snd] in *. split_and!.
  - intros He. destruct (Hnew He) as (E & Er & Hl). injection E as -> ->. by rewrite Hlv.
  - by eapply (RequestFacts.op_steps_reqid issued answered cl0 id ops (cl, d)).
  - intros n m Hlt Hm E. destruct (RequestFacts.bump_iter n id Hid) as (_ & _ & En).
    destruct (RequestFacts.bump_iter m id Hid) as (_ & _ & Em). rewrite E, Em in En.
    set (p := 26 ^ Z.of_nat (length id)) in *. assert (0 < p) as Hp by (apply Z.pow_pos_nonneg; lia).
    pose proof (Z.div_mod (RequestFacts.id_value id + Z.of_nat n) p ltac:(lia)) as E1.
    pose proof (Z.div_mod (RequestFacts.id_value id + Z.of_nat m) p ltac:(lia)) as E2.
    set (q1 := (RequestFacts.id_value id + Z.of_nat n) / p) in *. set (q2 := (RequestFacts.id_value id + Z.of_nat m) / p) in *.
    assert (Z.of_nat m - Z.of_nat n = p * (q2 - q1)) as Eq by lia. clearbody q1 q2 p.
    assert (0 < q2 - q1) by nia. nia.
  - intros ops' cl2 d2 Hs2 Hf Hrd2.
    destruct (RequestFacts.sent_as_steps issued answered text rid (cl, d1) ops' (cl2, d2) Hh1 Hsent Hs2 Hf) as [_ H2].
    by apply RequestFacts.sent_as_send.
Qed.

(** ** Examples *)

Module RequestExamples.

(** A command that logs its result, does not understand objects and may add
    another command. *)
Record Cmd := MkCmd { k_tag : Z; k_separate : bool; k_array : bool; k_follow : option Z }.

(** The commands added and the tags of those answered with what they were told. *)
Record World := MkWorld { w_issued : list Cmd; w_answered : list Cmd; w_told : list (Z * Result) }.

Definition note (c : Cmd) (r : Result) (added : list Cmd) (cl : Client World) : Client World :=
  let w := world cl in
  MkClient (restag cl) (mCurrentSeqtag cl) (mCurrentSeqtagSeen cl) (mCurrentSeqtagCmdtag cl) (mPriorSeqTag cl)
    (scsn_ready cl) (MkWorld (w_issued w ++ added) (w_answered w ++ [c]) (w_told w ++ [(k_tag c, r)])).

Definition follow (c : Cmd) : list Cmd :=
  match k_follow c with Some t => [MkCmd t false false None] | None => [] end.

#[local] Instance cmd_ops : CommandOps Cmd World := {
  commandStr c := str "x";
  tag := k_tag;
  batchSeparately := k_separate;
  mSeqtagArray := k_array;
  is_fetchnodes c := false;
  getJSON c cl := [cDquote] ++ str "a" ++ [cDquote] ++ str ":" ++ decimal (Z.to_nat (k_tag c));
  procresult c r pos cl :=
    let '(ok, pos) := match r with
                      | CmdError _ => (true, pos)
                      | CmdItem => (true, JSON.skip_object pos)
                      | _ => (false, pos)
                      end in
    (ok, pos, note c r (follow c) cl, CallAdd <$> follow c);
  activateoverquota cl := cl;
  setBusinessStatusExpired cl := cl
}.

#[local] Instance cmd_recorded : RequestFacts.Recorded w_issued w_answered.
Proof.
  split; try done. intros c r pos cl. cbn. destruct r; cbn; (split; [done|]; unfold follow; by destruct (k_follow c)).
Defined.

Definition client0 : Client World := MkClient 0 [] false 0 [] false (MkWorld [] [] []).
Definition id0 : bytes := str "aaaaaaaazz".

Definition k1 : Cmd := MkCmd 1 false false (Some 7).
Definition k2 : Cmd := MkCmd 2 false false None.
Definition k3 : Cmd := MkCmd 3 true false None.

Definition issue (c : Cmd) (cl : Client World) : Client World :=
  let w := world cl in
  MkClient (restag cl) (mCurrentSeqtag cl) (mCurrentSeqtagSeen cl) (mCurrentSeqtagCmdtag cl) (mPriorSeqTag cl)
    (scsn_ready cl) (MkWorld (w_issued w ++ [c]) (w_answered w) (w_told w)).

(** Three commands are queued, the first batch is sent and fails. *)
Definition client3 : Client World := issue k3 (issue k2 (issue k1 client0)).
Definition queued3 : RequestDispatcher Cmd := add k3 (add k2 (add k1 (new_dispatcher id0))).
Definition sent : RequestDispatcher Cmd := (serverrequest client3 queued3).2.
Definition failed : RequestDispatcher Cmd := inflightFailure RETRY_CONNECTIVITY sent.

(** It is sent again and answered. *)
Definition again : RequestDispatcher Cmd := (serverrequest client3 failed).2.
Definition answer_text : bytes := str "[0,-9]".
Definition answered : option (Client World * RequestDispatcher Cmd) := serverresponse answer_text client3 again.
Definition client4 : Client World := (default (client3, again) answered).1.
Definition dispatcher4 : RequestDispatcher Cmd := (default (client3, again) answered).2.

Definition first_ops : list (@RequestFacts.Op Cmd) :=
  [RequestFacts.OpAdd k1; RequestFacts.OpAdd k2; RequestFacts.OpAdd k3].
Definition retry_ops : list (@RequestFacts.Op Cmd) :=
  [RequestFacts.OpSend; RequestFacts.OpFailure RETRY_CONNECTIVITY].

Lemma first_steps : RequestFacts.op_steps w_issued w_answered (client0, new_dispatcher id0) first_ops (client3, queued3).
Proof.
  apply (RequestFacts.op_snoc _ _ _ (issue k2 (issue k1 client0), add k2 (add k1 (new_dispatcher id0))) _ [_; _]);
    [|by constructor].
  apply (RequestFacts.op_snoc _ _ _ (issue k1 client0, add k1 (new_dispatcher id0)) _ [_]); [|by constructor].
  apply (RequestFacts.op_snoc _ _ _ (client0, new_dispatcher id0) _ []); [|by constructor]. constructor.
Qed.

Lemma all_steps : RequestFacts.op_steps w_issued w_answered (client0, new_dispatcher id0)
  (first_ops ++ retry_ops ++ [RequestFacts.OpSend; RequestFacts.OpReply answer_text]) (client4, dispatcher4).
Proof.
  apply (RequestFacts.op_snoc _ _ _ (client3, again) _ (first_ops ++ retry_ops ++ [RequestFacts.OpSend])).
  - apply (RequestFacts.op_snoc _ _ _ (client3, failed) _ (first_ops ++ retry_ops)).
    + apply (RequestFacts.op_snoc _ _ _ (client3, sent) _ (first_ops ++ [RequestFacts.OpSend])).
      * apply (RequestFacts.op_snoc _ _ _ (client3, queued3) _ first_ops); [apply first_steps|].
        apply RequestFacts.step_send. vm_compute. reflexivity.
      * apply RequestFacts.step_failure; vm_compute; congruence.
    + apply RequestFacts.step_send. vm_compute. reflexivity.
  - apply RequestFacts.step_reply; [vm_compute; congruence..|]. vm_compute. reflexivity.
Qed.

Lemma batch_sent : (serverrequest client3 queued3).1
  = (chr "[" :: (chr "{" :: getJSON k1 client0 ++ [chr "}"]) ++ chr "," :: (chr "{" :: getJSON k2 client0 ++ [chr "}"]) ++ [chr "]"],
     str "aaaaaaabaa", false).
Proof. vm_compute. reflexivity. Qed.

(** The first command added the command 7, behind the separate command 3. *)
Lemma batch_answered :
  w_told (world client4) = [(1, CmdError (MkError 0 (-1) (-1))); (2, CmdError (MkError (-9) (-1) (-1)))]
  /\ RequestFacts.pending dispatcher4 = [k3; MkCmd 7 false false None].
Proof. vm_compute. by split. Qed.

End RequestExamples.

Section witnesses.
Local Existing Instance RequestExamples.cmd_ops.
Local Existing Instance RequestExamples.cmd_recorded.

Lemma request_queue_witness :
  RequestExamples.w_issued (world RequestExamples.client4)
    = [RequestExamples.k1; RequestExamples.k2; RequestExamples.k3; RequestExamples.MkCmd 7 false false None]
  /\ RequestFacts.wf RequestExamples.dispatcher4
  /\ sublist ([RequestExamples.k1; RequestExamples.k2] ++ RequestFacts.pending RequestExamples.dispatcher4)
       (RequestExamples.w_issued (world RequestExamples.client4)).
Proof.
  destruct (request_queue RequestExamples.w_issued RequestExamples.w_answered RequestExamples.client0
    RequestExamples.id0 _ RequestExamples.client4 RequestExamples.dispatcher4 eq_refl eq_refl RequestExamples.all_steps)
    as (Hwf & Hsub & _).
  split; [vm_compute; reflexivity|]. split; [exact Hwf|exact Hsub].
Defined.

Lemma idempotent_retry_witness :
  (serverrequest RequestExamples.client3 RequestExamples.failed).1.1
  = (serverrequest RequestExamples.client3 RequestExamples.queued3).1.1.
Proof.
  pose proof (idempotent_retry RequestExamples.w_issued RequestExamples.w_answered RequestExamples.client0
    RequestExamples.id0 RequestExamples.first_ops RequestExamples.client3 RequestExamples.queued3 eq_refl eq_refl) as Hr.
  specialize (Hr ltac:(repeat (constructor; [split; vm_compute; discriminate|]); constructor)
    RequestExamples.first_steps ltac:(vm_compute; reflexivity)).
  destruct (serverrequest RequestExamples.client3 RequestExamples.queued3) as [[[text rid] f] d1] eqn:E.
  destruct Hr as (_ & _ & _ & Hr).
  assert (d1 = RequestExamples.sent) as Ed by (unfold RequestExamples.sent; rewrite E; reflexivity).
  apply (Hr [RequestFacts.OpFailure RETRY_CONNECTIVITY] RequestExamples.client3 RequestExamples.failed).
  - rewrite Ed. apply (RequestFacts.op_snoc _ _ _ (RequestExamples.client3, RequestExamples.sent) _ []); [constructor|].
    apply RequestFacts.step_failure; vm_compute; congruence.
  - repeat constructor.
  - vm_compute. reflexivity.
Defined.

End witnesses.
