(* ===== verification/Streaming.v ===== *)
(** * Streamed replies

    A reply that is parsed while it arrives: [Request::processChunk],
    [RequestDispatcher::serverChunk] (src/request.cpp) and the parts of
    [MegaClient::exec] (src/megaclient.cpp) that pass on the chunks, drop what was
    consumed and decide what the complete reply means.  It joins the dispatcher of
    Requests.v and the parser of Splitter.v. *)

From S2P Require Import Prelude Crypto Encoding OMap Serialize Json Splitter Requests.
Local Open Scope Z_scope.

(** [Command::mFilters]: a filter works on the client and may call back into the
    dispatcher. *)
Class ChunkOps (C W : Type) := {
  mFilters : C -> list (bytes * (bytes -> bytes -> Client W -> JSONSplitter.CallbackResult * Client W * list (Call C)))
}.

Module Streaming.
Import JSONSplitter.

Section streaming.
Context {C W : Type} `{CommandOps C W} `{ChunkOps C W}.

(** What the filters of a command in flight work on. *)
Definition World : Type := Client W * RequestDispatcher C.

Definition run_filter (f : bytes -> bytes -> Client W -> CallbackResult * Client W * list (Call C))
    : FilterCallback World :=
  fun e rest w => let '(r, cl, calls) := f e rest w.1 in (r, (cl, foldl run_call w.2 calls)).

(** The chain of one map that is passed to the parser. *)
Definition filters (c : C) : FiltersChain World := [Some ((fun e => (e.1, run_filter e.2)) <$> mFilters c)].

(** The request with a position in the chunk. *)
Definition at_pos (pos : bytes) (r : Request C) : Request C := set_json (Some pos) r.

(** [processChunk] of the request in flight: the number of bytes consumed;
    [None] is a null command. *)
Definition processChunk (chunk : bytes) (cl : Client W) (d : RequestDispatcher C)
    : option (nat * Client W * RequestDispatcher C) :=
  let r := inflightreq d in
  if stopProcessing r || negb (length (cmds r) =? 1)%nat then Some (0%nat, cl, set_inflight (request_clear r) d)
  else
    match cmds r with
    | Some c :: _ =>
        let cl := set_restag (tag c) cl in
        let start := bool_decide (json r = None) in
        let '(ok, pos) := if start then JSON.enterarray chunk else (true, chunk) in
        let r := at_pos pos r in
        if negb ok then Some (0%nat, cl, set_inflight (request_clear r) d)
        else
          let consumed := if start then 1%nat else 0%nat in
          let '(n, s, (cl, d)) := JSONSplitter.processChunk (filters c) pos (mJsonSplitter r) (cl, set_inflight r d) in
          let consumed := (consumed + n)%nat in
          let r := set_splitter s (mChunkedProgress (inflightreq d)) (inflightreq d) in
          if mFailed s then Some (0%nat, cl, set_inflight (request_clear r) d)
          else
            let r := at_pos (drop consumed chunk) (set_splitter s (mChunkedProgress r + consumed)%nat r) in
            if mFinished s then
              let consumed := if (JSON.leavearray (drop consumed chunk)).1 then S consumed else consumed in
              Some (consumed, cl, set_inflight (request_clear r) d)
            else Some (consumed, cl, set_inflight r d)
    | _ => None
    end.

(** [serverChunk] *)
Definition serverChunk (chunk : bytes) (cl : Client W) (d : RequestDispatcher C)
    : option (nat * Client W * RequestDispatcher C) :=
  '(n, cl, d) ← processChunk chunk cl (set_processing true d);
  let d := set_processing false d in
  Some (n, cl, if clearWhenSafe d then Requests.clear d else d).

Definition chunkedProgress (d : RequestDispatcher C) : nat := mChunkedProgress (inflightreq d).

(** While the reply arrives: what was consumed is purged. *)
Fixpoint receive (chunks : list bytes) (left : bytes) (cl : Client W) (d : RequestDispatcher C)
    : option (bytes * Client W * RequestDispatcher C) :=
  match chunks with
  | [] => Some (left, cl, d)
  | chunk :: chunks =>
      '(n, cl, d) ← serverChunk (left ++ chunk) cl d; receive chunks (drop n (left ++ chunk)) cl d
  end.

(** What a complete reply means to the client. *)
Inductive Outcome := Done | RequestError (e : Z) | Retry (reason : retryreason_t).

(** [atoi] *)
Definition c_atoi (l : bytes) : Z := s32 (CLib.atoll l).

(** The error and its text of a reply that is not an array. *)
Definition request_error (reply : bytes) : Z * bytes :=
  let '(valid, _, e) := JSON.storeobject reply [] in
  let v := if (valid : bool) then c_atoi (if bool_decide (take 7 e = err_object) then drop 7 e else e) else 0 in
  if v =? 0 then (API_EINTERNAL, str "-1") else (v, e).

(** The case [REQ_SUCCESS] for a chunked request ([reply] is what was not
    purged) and for one that is not. *)
Definition request_success (chunked : bool) (reply : bytes) (cl : Client W) (d : RequestDispatcher C)
    : option (Outcome * Client W * RequestDispatcher C) :=
  let progress := chunked && (0 <? chunkedProgress d)%nat in
  if progress || negb (bool_decide (reply = str "-3") || bool_decide (reply = str "-4")) then
    if progress || (cchar reply =? chr "[") || (chunked && bool_decide (reply = [])) then
      if negb chunked then '(cl, d) ← serverresponse reply cl d; Some (Done, cl, d)
      else '(_, cl, d) ← serverChunk reply cl d; Some (Done, cl, d)
    else
      let '(e, text) := request_error reply in
      '(cl, d) ← servererror text cl d; Some (RequestError e, cl, d)
  else
    let reason := if bool_decide (reply = str "-3") then RETRY_API_LOCK else RETRY_RATE_LIMIT in
    Some (Retry reason, cl, inflightFailure reason d).

(** A whole reply, in the chunks in which it was seen. *)
Definition streamed_reply (chunks : list bytes) (cl : Client W) (d : RequestDispatcher C)
    : option (Outcome * Client W * RequestDispatcher C) :=
  '(reply, cl, d) ← receive chunks [] cl d; request_success true reply cl d.

End streaming.
End Streaming.

(** ** Lemmas *)

Module StreamFacts.
Import JSONSplitter SplitterFacts Streaming.

Section facts.
Context {C W : Type} `{CommandOps C W} `{ChunkOps C W}.

(** The dispatcher with the given request in flight, in between clearing. *)
Definition frame (r : Request C) (p : bool) (d : RequestDispatcher C) : RequestDispatcher C :=
  MkDispatcher r (inflightFailReason d) (nextreqs d) p false (reqid d).

Definition framed (r : Request C) (w : @World C W) : @World C W := (w.1, frame r true w.2).

Lemma add_frame c r p d : add c (frame r p d) = frame r p (add c d).
Proof using Type.
  assert (forall d, back (frame r p d) = back d) as Hb by done.
  assert (forall x d, push_back x (frame r p d) = frame r p (push_back x d)) as Hp by done.
  assert (forall x d, set_back x (frame r p d) = frame r p (set_back x d)) as Hs by done.
  unfold add. cbn zeta. rewrite Hb. destruct (MAX_COMMANDS <=? _)%nat; rewrite ?Hp, Hb;
    destruct (_ && _); rewrite ?Hp, Hb, Hs; by destruct (batchSeparately c).
Qed.

Lemma run_calls_frame calls r p d : RequestFacts.clears calls = false ->
  foldl run_call (frame r p d) calls = frame r p (foldl run_call d calls).
Proof using Type.
  revert d. induction calls as [|[c|] calls IH]; intros d Hc; [done| |done].
  cbn [foldl run_call]. rewrite add_frame. by apply IH.
Qed.

(** Filters that succeed and only add commands to the queue. *)
Record filters_ok (c : C) (busy : @World C W -> Prop) : Prop := {
  fo_behave : well_behaved (filters c) busy;
  fo_success path cb : findCallback (filters c) path = Some cb -> forall e r w, (cb e r w).1 = SUCCESS;
  fo_quiet : Forall (fun f => forall e r cl, let '(_, cl', calls) := f.2 e r cl in
               restag cl' = restag cl /\ RequestFacts.clears calls = false) (mFilters c)
}.

Lemma omap_find_in {V} k (m : list (bytes * V)) v : omap_find k m = Some v -> exists k', (k', v) ∈ m.
Proof using Type.
  induction m as [|[k' v'] m IH]; [done|].
  change (omap_find k ((k', v') :: m)) with
    (if kltb k k' then None else if kltb k' k then omap_find k m else Some v').
  destruct (kltb k k'); [done|]. destruct (kltb k' k).
  - intros E. destruct (IH E) as [k2 Hk]. exists k2. by right.
  - intros [= ->]. exists k'. left.
Qed.

(** A filter that is found is one of the command. *)
Lemma find_filter c path cb : findCallback (filters c) path = Some cb ->
  exists f, cb = run_filter f /\ exists k, (k, f) ∈ mFilters c.
Proof using Type.
  unfold findCallback, filters. cbn [find_in]. destruct (omap_find _ _) as [cb'|] eqn:E; [|done]. intros [= <-].
  apply omap_find_in in E as [k E]. apply list_elem_of_fmap in E as ([k' f] & [= -> ->] & E). eauto.
Qed.

Context (c : C) (busy : @World C W -> Prop) (Hok : filters_ok c busy).

Lemma filters_framed r path :
  match findCallback (filters c) path, findCallback (filters c) path with
  | Some cb1, Some cb2 => forall e rest w, cb2 e rest (framed r w) = (let '(x, w') := cb1 e rest w in (x, framed r w'))
  | None, None => True
  | _, _ => False
  end.
Proof using Hok.
  destruct (findCallback (filters c) path) as [cb|] eqn:E; [|done]. intros e rest [cl d].
  destruct (find_filter _ _ _ E) as (f & -> & k & Hin). unfold run_filter, framed. cbn [fst snd].
  pose proof (proj1 (Forall_forall _ _) (fo_quiet _ _ Hok) _ Hin e rest cl) as Hq. cbn [snd] in Hq.
  destruct (f e rest cl) as [[x cl'] calls]. cbn [fst snd]. rewrite run_calls_frame; [done|apply Hq].
Qed.

Lemma filters_restag path cb e rest w : findCallback (filters c) path = Some cb -> restag (cb e rest w).2.1 = restag w.1.
Proof using Hok.
  intros E. destruct (find_filter _ _ _ E) as (f & -> & k & Hin). unfold run_filter.
  pose proof (proj1 (Forall_forall _ _) (fo_quiet _ _ Hok) _ Hin e rest w.1) as Hq. cbn [snd] in Hq.
  destruct (f e rest w.1) as [[x cl'] calls]. apply Hq.
Qed.

(** *** One chunk *)

Definition prefix (r : Request C) : bytes := match json r with None => [chr "["] | Some _ => [] end.

(** The request waits for (the rest of) the reply to [c]. *)
Record waiting (r : Request C) (s : Splitter) : Prop := {
  wa_cmds : cmds r = [Some c];
  wa_stop : stopProcessing r = false;
  wa_splitter : mJsonSplitter r = s;
  wa_place : place_ok (place s)
}.

(** The request behind a chunk of which [n] bytes of the document were consumed. *)
Definition after_chunk (chunk : bytes) (n : nat) (s : Splitter) (r : Request C) : Request C :=
  at_pos (drop n chunk) (set_splitter s (mChunkedProgress r + n)%nat r).

Lemma set_restag_same (cl : Client W) t : restag cl = t -> set_restag t cl = cl.
Proof using Type. intros <-. by destruct cl. Qed.

Lemma serverChunk_step r s w t n s' w' :
  waiting r s -> restag w.1 = tag c -> JSONSplitter.processChunk (filters c) t s w = (n, s', w') -> mFailed s' = false ->
  let n := (length (prefix r) + n)%nat in
  let rest := drop n (prefix r ++ t) in
  let r' := after_chunk (prefix r ++ t) n s' (at_pos t r) in
  serverChunk (prefix r ++ t) w.1 (frame r false w.2)
  = Some (if mFinished s' && (cchar rest =? chr "]") then S n else n, w'.1,
      frame (if mFinished s' then request_clear r' else r') false w'.2)
  /\ restag w'.1 = tag c /\ waiting r' s'.
Proof using Hok.
  intros [Hc Hst Hsp Hpl] Ht E Hf. cbn zeta.
  assert (place_ok (place s') /\ restag w'.1 = tag c) as [Hpl' Ht'].
  { eapply (processChunk_keeps (filters c) (fun w => restag w.1 = tag c)); [|exact Hpl|exact Ht| |exact E|exact Hf].
    - intros path cb Ecb _ e rest w0 Hw0. by rewrite (filters_restag _ _ _ _ _ Ecb).
    - intros w0 Hw0. unfold notify. destruct (findCallback (filters c) (str ">")) as [cb|] eqn:Ecb; [|done].
      by rewrite (filters_restag _ _ _ _ _ Ecb). }
  split; [|done]. unfold serverChunk, processChunk. cbn [inflightreq set_processing frame]. rewrite Hst, Hc. cbn [orb negb length Nat.eqb].
  rewrite set_restag_same by done.
  assert ((if bool_decide (json r = None) then JSON.enterarray (prefix r ++ t) else (true, prefix r ++ t)) = (true, t)
    /\ (if bool_decide (json r = None) then 1%nat else 0%nat) = length (prefix r)) as [-> Hn].
  { unfold prefix. by destruct (json r). }
  rewrite Hn. cbn [negb].
  pose proof (processChunk_sim (filters c) (filters c) (framed (at_pos t r)) (filters_framed (at_pos t r)) t (mJsonSplitter r) w) as Hsim.
  rewrite Hsp, E in Hsim.
  change (w.1, set_inflight (at_pos t r) (set_processing true (frame r false w.2))) with (framed (at_pos t r) w).
  change (mJsonSplitter (at_pos t r)) with (mJsonSplitter r). rewrite Hsp, Hsim.
  destruct w' as [cl' d']. cbn [framed fst snd]. rewrite Hf.
  destruct (mFinished s'); cbn [andb]; [|done].
  unfold JSON.leavearray. destruct (_ =? chr "]"); done.
Qed.


(** *** The chunks *)

Lemma feed_app (l1 l2 : list bytes) rest s (w : @World C W) :
  feed (filters c) (l1 ++ l2) rest s w
  = (let '(rest, s, w) := feed (filters c) l1 rest s w in feed (filters c) l2 rest s w).
Proof using Type.
  revert rest s w. induction l1 as [|x l1 IH]; intros rest s w; [done|]. cbn [app feed].
  destruct (JSONSplitter.processChunk _ _ _ _) as [[n s1] w1]. apply IH.
Qed.

(** A stream that has stopped stays so. *)
Lemma feed_running (l : list bytes) rest s (w : @World C W) rest' s' w' :
  feed (filters c) l rest s w = (rest', s', w') -> mFailed s' = false -> mFinished s' = false ->
  mFailed s = false /\ mFinished s = false.
Proof using Type.
  intros E H1 H2. destruct (mFailed s || mFinished s) eqn:Es.
  - rewrite feed_stopped in E by done. injection E as <- <- <-. by rewrite H1, H2 in Es.
  - by apply orb_false_iff in Es.
Qed.

Lemma receive_cons (chunk : bytes) (chunks : list bytes) left (cl : Client W) (d : RequestDispatcher C) :
  receive (chunk :: chunks) left cl d
  = ('(n, cl, d) ← serverChunk (left ++ chunk) cl d; receive chunks (drop n (left ++ chunk)) cl d).
Proof using Type. done. Qed.

Lemma receive_app (l1 l2 : list bytes) left (cl : Client W) (d : RequestDispatcher C) :
  receive (l1 ++ l2) left cl d = ('(left, cl, d) ← receive l1 left cl d; receive l2 left cl d).
Proof using Type.
  revert left cl d. induction l1 as [|x l1 IH]; intros left cl d; [done|]. cbn [app]. rewrite !receive_cons.
  destruct (serverChunk _ _ _) as [[[n cl1] d1]|]; [|done]. apply IH.
Qed.

(** Before the document is complete. *)
Lemma receive_waiting (l : list bytes) : forall r s w rest rest' s' w',
  waiting r s -> restag w.1 = tag c -> feed (filters c) l rest s w = (rest', s', w') ->
  mFailed s' = false -> mFinished s' = false ->
  exists r', receive l (prefix r ++ rest) w.1 (frame r false w.2) = Some (prefix r' ++ rest', w'.1, frame r' false w'.2)
    /\ waiting r' s' /\ restag w'.1 = tag c /\ request_clear r' = request_clear r.
Proof using Hok.
  induction l as [|x l IH]; intros r s w rest rest' s' w' Hw Ht E Hf Hfin.
  - injection E as <- <- <-. by exists r.
  - cbn [feed] in E. destruct (JSONSplitter.processChunk _ _ _ _) as [[n s1] w1] eqn:E1.
    destruct (feed_running _ _ _ _ _ _ _ E Hf Hfin) as [Hf1 Hfin1].
    destruct (serverChunk_step r s w _ n s1 w1 Hw Ht E1 Hf1) as (Hs & Ht1 & Hw1).
    rewrite receive_cons, <- app_assoc, Hs, Hfin1. cbn [andb mbind option_bind].
    destruct (IH _ _ _ _ _ _ _ Hw1 Ht1 E Hf Hfin) as (r' & Er & Hw' & Ht' & Hr').
    exists r'. split_and!; [|done|done|by rewrite Hr'].
    rewrite <- Er. f_equal. cbn [prefix after_chunk at_pos set_json json app].
    by rewrite drop_app_add.
Qed.

(** The chunk that completes it. *)
Lemma receive_finish (l : list bytes) x r s w rest rest1 s1 w1 rest' s' w' :
  waiting r s -> restag w.1 = tag c -> feed (filters c) l rest s w = (rest1, s1, w1) ->
  mFailed s1 = false -> mFinished s1 = false ->
  feed (filters c) [x] rest1 s1 w1 = (rest', s', w') -> mFailed s' = false -> mFinished s' = true ->
  receive (l ++ [x]) (prefix r ++ rest) w.1 (frame r false w.2)
  = Some (if cchar rest' =? chr "]" then drop 1 rest' else rest', w'.1, frame (request_clear r) false w'.2).
Proof using Hok.
  intros Hw Ht E Hf1 Hfin1 E2 Hf Hfin.
  destruct (receive_waiting l r s w rest rest1 s1 w1 Hw Ht E Hf1 Hfin1) as (r1 & Er & Hw1 & Ht1 & Hc1).
  rewrite receive_app, Er. cbn [mbind option_bind]. rewrite receive_cons.
  cbn [feed] in E2. destruct (JSONSplitter.processChunk _ _ _ _) as [[n s2] w2] eqn:E3. injection E2 as <- <- <-.
  destruct (serverChunk_step r1 s1 w1 _ n s2 w2 Hw1 Ht1 E3 Hf) as (Hs & Ht2 & Hw2).
  rewrite <- app_assoc, Hs, Hfin. cbn [andb mbind option_bind receive]. rewrite drop_app_add.
  replace (request_clear (after_chunk _ _ _ _)) with (request_clear r) by (by rewrite <- Hc1).
  destruct (cchar (drop n (rest1 ++ x)) =? chr "]"); [|by rewrite drop_app_add].
  rewrite <- Nat.add_succ_r, drop_app_add, drop_drop. by rewrite Nat.add_1_r.
Qed.

(** Nothing is done for a request that is gone. *)
Lemma serverChunk_gone t (cl : Client W) r (d : RequestDispatcher C) :
  serverChunk t cl (frame (request_clear r) false d) = Some (0%nat, cl, frame (request_clear r) false d).
Proof using Type. done. Qed.

(** The world behind a document, for the client and the queue it starts with. *)
Definition document_world (v : JsonValue.value) (cl : Client W) (d : RequestDispatcher C) : @World C W :=
  let w := notify (filters c) (str "<") (set_restag (tag c) cl, frame new_Request true d) in
  let w := (start_call (filters c) true w).2 in
  notify (filters c) (str ">") (Walk.visit (filters c) v [] [] [] w).2.

(** A document in an array, not an error object and without one inside. *)
Record document_ok (v : JsonValue.value) : Prop := {
  do_wf : JsonValue.wf v = true;
  do_number t : v <> JsonValue.VNumber t;
  do_string raw : v <> JsonValue.VString raw;
  do_error k : take 7 (drop k (JsonValue.print v ++ [chr "]"])) <> err_object
}.

Lemma take_err l x : take 7 (l ++ x) <> err_object -> take 7 l <> err_object.
Proof using Type.
  intros Hn E. apply Hn. rewrite <- E. apply take_app_le.
  assert (length (take 7 l) = 7%nat) as Hl by (by rewrite E). rewrite length_take in Hl. lia.
Qed.

(** Behind all chunks the document is complete, before the last one it is not. *)
Lemma feed_complete v rest cl d (l : list bytes) x :
  document_ok v -> rest = [] \/ rest = [chr "]"] -> mjoin (l ++ [x]) = JsonValue.print v ++ rest ->
  (l <> [] -> x <> []) -> x <> rest ->
  let w0 := (set_restag (tag c) cl, frame new_Request true d) in
  let '(rest1, s1, w1) := feed (filters c) l [] clear w0 in
  mFailed s1 = false /\ mFinished s1 = false /\
  let '(rest2, s2, w2) := feed (filters c) [x] rest1 s1 w1 in
  mFailed s2 = false /\ mFinished s2 = true /\ rest2 = rest /\ w2 = document_world v cl d.
Proof using Hok.
  intros [Hv Hnum Hstr Herr] Hrest Hj Hx Hxr w0.
  pose proof (fo_behave _ _ Hok) as Hwb.
  assert (forall k, take 7 (drop k (JsonValue.print v ++ rest)) <> err_object) as Herr'.
  { destruct Hrest as [-> | ->]; [|done]. intros k. rewrite app_nil_r. specialize (Herr k).
    destruct (Nat.le_ge_cases k (length (JsonValue.print v))) as [Hle|Hge].
    - rewrite drop_app_le in Herr by done. by eapply take_err.
    - rewrite drop_ge by done. done. }
  assert (start_call (filters c) true (notify (filters c) (str "<") w0)
    = (SUCCESS, (start_call (filters c) true (notify (filters c) (str "<") w0)).2)) as Hst.
  { unfold start_call. destruct (findCallback (filters c) []) as [cb|] eqn:E; [|done].
    pose proof (fo_success _ _ Hok _ _ E [] [] (notify (filters c) (str "<") w0)) as Hs. by destruct (cb _ _ _); cbn in *; subst. }
  pose proof (splitter_document (filters c) busy v rest w0 _ Hwb (fo_success _ _ Hok) Hv Hnum Hstr (Herr' 0%nat) Hst) as Hdoc.
  assert (exists y m, l ++ [x] = y :: m) as (y & m & Em) by (destruct l; by eexists _, _).
  assert (no_late_error (mjoin (y :: m))) as Hlate by (intros k _; rewrite <- Em, Hj; apply Herr').
  pose proof (splitter_chunks (filters c) busy y m w0 Hwb Hlate) as Hch. rewrite <- Em, Hj, Hdoc in Hch.
  rewrite feed_app in Hch. destruct (feed (filters c) l [] clear w0) as [[rest1 s1] w1] eqn:El.
  destruct (feed (filters c) [x] rest1 s1 w1) as [[rest2 s2] w2] eqn:Ex. destruct Hch as (_ & -> & -> & Hr).
  specialize (Hr eq_refl). rewrite drop_app_length in Hr.
  assert (mFailed s1 || mFinished s1 = false) as [Hf Hfin]%orb_false_iff; [|done].
  destruct (mFailed s1 || mFinished s1) eqn:Es; [exfalso|done].
  destruct (decide (l = [])) as [->|Hl]; [by injection El as <- <- <-|]. specialize (Hx Hl).
  rewrite feed_stopped in Ex by done. injection Ex as Ex _ _. rewrite Hr in Ex. cbn [mjoin list_join] in Ex. rewrite app_nil_r in Ex.
  destruct Hrest as [-> | ->]; [by apply app_eq_nil in Ex as [_ ->]|].
  destruct rest1 as [|z [|? ?] ]; [by subst|by destruct x|by destruct x].
Qed.

Lemma receive_restag (l : list bytes) x left (cl : Client W) (d : RequestDispatcher C) :
  cmds (inflightreq d) = [Some c] -> stopProcessing (inflightreq d) = false ->
  receive (x :: l) left cl d = receive (x :: l) left (set_restag (tag c) cl) d.
Proof using Type.
  intros Hc Hs. rewrite !receive_cons. unfold serverChunk, processChunk. cbn [inflightreq set_processing].
  by rewrite Hc, Hs.
Qed.

Lemma print_nonempty v : document_ok v -> JsonValue.print v <> [].
Proof using Type.
  intros [Hwf Hnum Hstr _]. destruct v as [raw|t|items|members]; [by destruct (Hstr raw)|by destruct (Hnum t)|done|done].
Qed.

(** The bracket in front of the document. *)
Lemma strip_bracket (l : list bytes) x t :
  Forall (fun x => x <> []) (l ++ [x]) -> mjoin (l ++ [x]) = chr "[" :: t ->
  exists l' x', mjoin (l' ++ [x']) = t /\ (l' <> [] -> x' = x) /\
    forall (cl : Client W) (d : RequestDispatcher C), receive (l ++ [x]) [] cl d = receive (l' ++ [x']) [chr "["] cl d.
Proof using Type.
  intros Hne Hj. destruct l as [|y l]; cbn [app mjoin list_join] in *; apply Forall_cons in Hne as [Hy _].
  - rewrite app_nil_r in Hj. subst x. exists [], t. split_and!; [cbn; by rewrite app_nil_r|done|done].
  - destruct y as [|ch y]; [done|]. cbn [app] in Hj. injection Hj as -> Hj. by exists (y :: l), x.
Qed.

(** The stream up to the end of the document. *)
Lemma receive_document v rest cl d (l : list bytes) x :
  document_ok v -> rest = [] \/ rest = [chr "]"] ->
  mjoin (l ++ [x]) = chr "[" :: JsonValue.print v ++ rest -> Forall (fun x => x <> []) (l ++ [x]) -> x <> rest ->
  cmds (inflightreq d) = [Some c] -> json (inflightreq d) = None -> stopProcessing (inflightreq d) = false ->
  mJsonSplitter (inflightreq d) = clear -> processing d = false -> clearWhenSafe d = false ->
  receive (l ++ [x]) [] cl d
  = Some ([], (document_world v cl d).1, frame (request_clear (inflightreq d)) false (document_world v cl d).2).
Proof using Hok.
  intros Hv Hrest Hj Hne Hxr Hc Hjs Hst Hsp Hp Hcl.
  destruct (strip_bracket l x _ Hne Hj) as (l' & x' & Hj' & Hx' & ->).
  assert (exists y m, l' ++ [x'] = y :: m) as (y & m & Em) by (destruct l'; by eexists _, _).
  assert (x' <> rest) as Hxr'.
  { destruct (decide (l' = [])) as [->|Hl]; [|by rewrite (Hx' Hl)]. cbn in Hj'. rewrite app_nil_r in Hj'. intros ->.
    apply (print_nonempty v Hv). symmetry in Hj'. exact (app_inv_tail rest _ [] Hj'). }
  assert (l' <> [] -> x' <> []) as Hx0.
  { intros Hl. rewrite (Hx' Hl). apply Forall_app in Hne as [_ Hne]. exact (proj1 (Forall_singleton _ _) Hne). }
  pose proof (feed_complete v rest cl d l' x' Hv Hrest Hj' Hx0 Hxr') as Hfc. cbn zeta in Hfc.
  destruct (feed (filters c) l' _ _ _) as [[rest1 s1] w1] eqn:El. destruct Hfc as (Hf1 & Hfin1 & Hfc).
  destruct (feed (filters c) [x'] rest1 s1 w1) as [[rest2 s2] w2] eqn:Ex. destruct Hfc as (Hf2 & Hfin2 & -> & ->).
  rewrite Em, receive_restag, <- Em by done.
  assert (waiting (inflightreq d) clear) as Hw by done.
  pose proof (receive_finish l' x' (inflightreq d) clear _ [] rest1 s1 w1 rest s2 _ Hw
    (eq_refl : restag (set_restag (tag c) cl, frame new_Request true d).1 = tag c) El Hf1 Hfin1 Ex Hf2 Hfin2) as Hr.
  unfold prefix in Hr. rewrite Hjs in Hr. cbn [app fst snd] in Hr.
  assert (d = frame (inflightreq d) false (frame new_Request true d)) as Hd.
  { destruct d. cbn in *. by subst. }
  rewrite Hd at 1. rewrite Hr. by destruct Hrest as [-> | ->].
Qed.

End facts.
End StreamFacts.

(** ** Theorems *)

(** C6: The reply to a command that parses it while it arrives, an array around
    one document, calls the filters of the command as the reference walk over the
    document does, consumes everything and ends the request, and the client counts
    it as done: provided that the closing bracket does not arrive on its own.  If
    it does, the request has ended as well, the bracket is left over, and the
    client reports an internal error for it.  This holds for every way of cutting
    the reply into chunks that are not empty, for an array or object that holds
    no error object anywhere ([document_ok]: otherwise the cut decides about the
    filters called, [error_object_by_chunks] of Splitter.v), for filters that
    succeed, do not pause, and leave the tag of the request alone and the queue
    uncleared ([filters_ok]), and for a command alone in flight whose parser is
    fresh, in a dispatcher that is not at work and has nothing to clear. *)
Theorem streamed_reply_chunks {C W} `{CommandOps C W} `{ChunkOps C W} (c : C) busy v (chunks : list bytes) last (cl : Client W)
    (d : RequestDispatcher C) :
  StreamFacts.filters_ok c busy -> StreamFacts.document_ok v ->
  cmds (inflightreq d) = [Some c] -> json (inflightreq d) = None -> stopProcessing (inflightreq d) = false ->
  mJsonSplitter (inflightreq d) = JSONSplitter.clear -> processing d = false -> clearWhenSafe d = false ->
  Forall (fun x => x <> []) (chunks ++ [last]) ->
  mjoin (chunks ++ [last]) = chr "[" :: JsonValue.print v ++ [chr "]"] ->
  let '(cl', d') := StreamFacts.document_world c v cl d in
  let d' := StreamFacts.frame (request_clear (inflightreq d)) false d' in
  Streaming.streamed_reply (chunks ++ [last]) cl d
  = Some (if bool_decide (last = [chr "]"]) then (Streaming.RequestError API_EINTERNAL, cl', set_failreason RETRY_NONE d')
          else (Streaming.Done, cl', d')).
Proof.
  intros Hok Hv Hc Hjs Hst Hsp Hp Hcl Hne Hj.
  destruct (StreamFacts.document_world c v cl d) as [cl' d'] eqn:Ew. unfold Streaming.streamed_reply.
  case_bool_decide as Hl.
  - subst last. destruct chunks as [|x chunks _] using rev_ind; [done|].
    assert (mjoin (chunks ++ [x]) = chr "[" :: JsonValue.print v ++ []) as Hj1.
    { rewrite join_app in Hj. cbn [mjoin list_join] in Hj. rewrite app_nil_r in Hj |- *.
      change (chr "[" :: JsonValue.print v ++ [chr "]"]) with ((chr "[" :: JsonValue.print v) ++ [chr "]"]) in Hj.
      by apply app_inv_tail in Hj. }
    apply Forall_app in Hne as [Hne _].
    assert (x <> []) as Hx by (apply Forall_app in Hne as [_ Hne]; exact (proj1 (Forall_singleton _ _) Hne)).
    rewrite StreamFacts.receive_app.
    rewrite (StreamFacts.receive_document c busy Hok v [] cl d chunks x) by auto. rewrite Ew. done.
  - rewrite (StreamFacts.receive_document c busy Hok v [chr "]"] cl d chunks last) by auto. rewrite Ew. done.
Qed.

(** ** Examples *)

Module StreamExamples.
Import JSONSplitter JsonValue Streaming.

(** One command that logs the elements it is given, and the calls of its result. *)
Definition Log : Type := list (bytes * bytes).

#[export] Instance ops : CommandOps unit Log := {
  commandStr _ := str "f";
  tag _ := 7;
  batchSeparately _ := true;
  mSeqtagArray _ := false;
  is_fetchnodes _ := true;
  getJSON _ _ := str "x";
  procresult _ r pos cl :=
    (true, pos, MkClient (restag cl) (mCurrentSeqtag cl) (mCurrentSeqtagSeen cl) (mCurrentSeqtagCmdtag cl) (mPriorSeqTag cl)
      (scsn_ready cl) (world cl ++ [(str "result", pos)]), []);
  activateoverquota cl := cl;
  setBusinessStatusExpired cl := cl
}.

Definition log (path e : bytes) (cl : Client Log) : Client Log :=
  MkClient (restag cl) (mCurrentSeqtag cl) (mCurrentSeqtagSeen cl) (mCurrentSeqtagCmdtag cl) (mPriorSeqTag cl)
    (scsn_ready cl) (world cl ++ [(path, e)]).

Definition filter (path : bytes) := (path, fun (e _ : bytes) (cl : Client Log) => (SUCCESS, log path e cl, @nil (Call unit))).

#[export] Instance chunk_ops : ChunkOps unit Log := {
  mFilters _ := foldr (fun p m => omap_insert p (filter p).2 m) []
                  [str "{[f{"; chr "{" :: cDquote :: str "sn"; str "{"; str "E"]
}.

Definition client : Client Log := MkClient 0 [] false 0 [] true [].

(** The command is sent. *)
Definition sent : RequestDispatcher unit := (serverrequest client (add tt (new_dispatcher (str "aaaaaaaaaa")))).2.

Definition doc : value :=
  VObject [(str "f", VArray [VObject [(str "h", VString (str "x"))]; VObject [(str "h", VArray [])]]);
           (str "sn", VString (str "q"))].
Definition reply : bytes := chr "[" :: print doc ++ [chr "]"].

Definition outcome {A B D : Type} (r : option (A * Client B * D)) : option (A * B) :=
  (fun '(a, cl, _) => (a, world cl)) <$> r.

Definition calls : Log :=
  [(str "{[f{", print (VObject [(str "h", VString (str "x"))]));
   (str "{[f{", print (VObject [(str "h", VArray [])]));
   (chr "{" :: cDquote :: str "sn", quoted (str "q"));
   (str "{", str "}")].

Lemma in_one_piece : outcome (streamed_reply [reply] client sent) = Some (Done, calls).
Proof. vm_compute. reflexivity. Qed.

(** The bracket on its own. *)
Lemma bracket_alone :
  outcome (streamed_reply [take (length reply - 1) reply; str "]"] client sent)
  = Some (RequestError API_EINTERNAL, calls).
Proof. vm_compute. reflexivity. Qed.

(** A connection that breaks off in the middle of the reply: the request is sent
    again, but the parser goes on where it was, and the complete second reply
    fails. *)
Definition interrupted : option (Outcome * Client Log * RequestDispatcher unit) :=
  '(_, cl, d) ← receive [take 20 reply] [] client sent;
  let '(_, _, _, d) := serverrequest cl (inflightFailure RETRY_CONNECTIVITY d) in
  streamed_reply [reply] cl d.

Lemma interrupted_fails :
  outcome interrupted = Some (Done, [(str "{[f{", print (VObject [(str "h", VString (str "x"))])); (str "E", [])]).
Proof. vm_compute. reflexivity. Qed.

(** A request-level error that is seen before the reply is complete: the request is
    gone, and the retry the client schedules has nothing to send. *)
Lemma error_in_flight :
  (r ← streamed_reply [str "-3"] client sent;
   let '(o, _, d) := (r : Outcome * Client Log * RequestDispatcher unit) in Some (o, inflightreq d, readyToSend d))
  = Some (Retry RETRY_API_LOCK, request_clear (inflightreq sent), false).
Proof. vm_compute. reflexivity. Qed.

(** Seen with the complete reply it is retried. *)
Lemma error_at_end :
  (r ← request_success true (str "-3") client sent;
   let '(o, _, d) := (r : Outcome * Client Log * RequestDispatcher unit) in Some (o, inflightreq d, readyToSend d))
  = Some (Retry RETRY_API_LOCK, inflightreq sent, true).
Proof. vm_compute. reflexivity. Qed.

Lemma filters_behave : StreamFacts.filters_ok tt (fun _ => True).
Proof.
  assert (Forall (fun f => exists p, f.2 = (filter p).2) (mFilters tt)) as Hall.
  { vm_compute. repeat (apply Forall_cons; split; [eexists; reflexivity|]). apply Forall_nil_2. }
  assert (forall path cb, findCallback (filters tt) path = Some cb -> exists p, cb = run_filter (filter p).2) as Hf.
  { intros path cb (f & -> & k & Hin)%StreamFacts.find_filter. rewrite Forall_forall in Hall.
    destruct (Hall _ Hin) as [p E]. cbn in E. subst f. by exists p. }
  split; [split; [| |done|done|done]| |]; try (intros path cb [p ->]%Hf; by intros).
  eapply Forall_impl; [exact Hall|]. intros [k f] [p E]. cbn in E. subst f. done.
Qed.

Lemma doc_ok : StreamFacts.document_ok doc.
Proof.
  split; [done|done|done|]. intros k.
  destruct (Nat.lt_ge_cases k (length (print doc ++ [chr "]"]))) as [Hlt|Hge]; [|by rewrite drop_ge].
  revert Hlt. change (length (print doc ++ [chr "]"])) with 36%nat. intros Hlt.
  do 36 (destruct k as [|k]; [vm_compute; congruence|]). lia.
Qed.

End StreamExamples.

#[local] Existing Instance StreamExamples.ops.
#[local] Existing Instance StreamExamples.chunk_ops.

Lemma streamed_reply_chunks_witness :
  Streaming.streamed_reply ([take 20 StreamExamples.reply] ++ [drop 20 StreamExamples.reply]) StreamExamples.client StreamExamples.sent
  = Some (Streaming.Done, (StreamFacts.document_world tt StreamExamples.doc StreamExamples.client StreamExamples.sent).1,
      StreamFacts.frame (request_clear (inflightreq StreamExamples.sent)) false
        (StreamFacts.document_world tt StreamExamples.doc StreamExamples.client StreamExamples.sent).2).
Proof.
  pose proof (streamed_reply_chunks tt (fun _ => True) StreamExamples.doc [take 20 StreamExamples.reply] (drop 20 StreamExamples.reply)
    StreamExamples.client StreamExamples.sent StreamExamples.filters_behave StreamExamples.doc_ok eq_refl eq_refl eq_refl eq_refl eq_refl eq_refl
    ltac:(repeat (apply Forall_cons; split; [done|]); apply Forall_nil_2) eq_refl) as Hr.
  destruct (StreamFacts.document_world _ _ _ _) as [cl' d']. rewrite Hr. reflexivity.
Defined.
