(* ===== verification/Replies.v ===== *)
(** * Replies to a batch

    What each command of a batch is given when the server answers: a reference
    that hands every command its own value of the reply, and the proof that
    [Requests.process] does the same whatever the commands before it left; the
    error reply of [servererror]; replies that wait for action packets. *)

From S2P Require Import Prelude Crypto Encoding OMap Serialize Json Requests.
Local Open Scope Z_scope.

Import JsonValue.

(** ** The reference *)

(** A number that [checkError] takes as an error code. *)
Definition error_number (text : bytes) : bool :=
  (cchar text =? chr "0")
  || ((cchar text =? chr "-") && (chr "1" <=? cchar (drop 1 text)) && (cchar (drop 1 text) <=? chr "9")).

Definition error_of (text : bytes) : Error := MkError (s32 (CLib.atoll text)) (-1) (-1).

(** How a value is handed to a command, and the text it may read. *)
Definition result_of (v : value) : Result :=
  match v with
  | VObject _ => CmdObject
  | VArray _ => CmdArray
  | VNumber text => if error_number text then CmdError (error_of text) else CmdItem
  | VString _ => CmdItem
  end.

Definition inner (v : value) : bytes :=
  match v with
  | VObject members => sep (map print_member members) ++ [chr "}"]
  | VArray items => sep (map print items) ++ [chr "]"]
  | VNumber text => if error_number text then [] else text
  | VString raw => quoted raw
  end.

(** Where a command that consumed its value leaves the position. *)
Definition leaves (r : Result) (pos : bytes) : Prop :=
  match r with
  | CmdObject => exists members, Forall (fun m => raw_ok m.1 false = true /\ wf m.2 = true) members
                                 /\ pos = JsonFacts.remaining members ++ [chr "}"]
  | CmdArray => pos = [chr "]"]
  | _ => pos = []
  end.

(** After a value of the reply comes a comma or the end of the array. *)
Definition after_value (rest : bytes) : Prop := cchar rest = chr "," \/ cchar rest = chr "]".

(** How a value is handed over when it cannot be an error code. *)
Definition item_result (v : value) : Result :=
  match v with VObject _ => CmdObject | VArray _ => CmdArray | _ => CmdItem end.

Definition item_text (v : value) : bytes :=
  match v with VNumber text => text | _ => inner v end.

(** One command's part of a reply: a value, [0,value], ["st",value] or "st". *)
Inductive item :=
  | NoTag (v : value)
  | ZeroTag (v : value)
  | TagValue (st : bytes) (v : value)
  | TagOnly (st : bytes).

Definition item_value (it : item) : value :=
  match it with
  | NoTag v => v
  | ZeroTag v => VArray [VNumber (str "0"); v]
  | TagValue st v => VArray [VString st; v]
  | TagOnly st => VString st
  end.

Definition item_tag (it : item) : option bytes :=
  match it with TagValue st _ | TagOnly st => Some st | _ => None end.

(** The whole reply. *)
Definition reply_text (items : list item) : bytes :=
  chr "[" :: sep (map print (map item_value items)) ++ [chr "]"].

Section deal.
Context {C W : Type} `{CommandOps C W}.

(** An error code the client reacts to before the command is told. *)
Definition react (r : Result) (cl : Client W) : Client W :=
  match r with
  | CmdError e =>
      let cl := if mError e =? API_EPAYWALL then activateoverquota cl else cl in
      if mError e =? API_EBUSINESSPASTDUE then setBusinessStatusExpired cl else cl
  | _ => cl
  end.

(** The tag the command must wait for. *)
Definition blocked (it : item) (cl : Client W) : option bytes :=
  match item_tag it with
  | Some st => if bool_decide (mCurrentSeqtag cl = st) || negb (scsn_ready cl) then None else Some st
  | None => None
  end.

(** Every command is given its own value only. *)
Definition answer (c : C) (it : item) (cl : Client W) : bool * bytes * Client W * list (Call C) :=
  let cl := set_restag (tag c) cl in
  match it with
  | NoTag v => procresult c (result_of v) (inner v) (react (result_of v) cl)
  | ZeroTag v => procresult c (item_result v) (item_text v) cl
  | TagValue _ v => procresult c (item_result v) (item_text v) (set_seqtag [] false cl)
  | TagOnly _ => procresult c (CmdError (Error_of API_OK)) [] (set_seqtag [] false cl)
  end.

(** The client after it, and the calls the command made. *)
Definition told (c : C) (it : item) (cl : Client W) : Client W * list (Call C) :=
  let '(_, _, cl, calls) := answer c it cl in (cl, calls).

(** The batch, up to a command that waits or that clears the dispatcher: the
    client, the commands added, whether the dispatcher was cleared, and the
    commands and items that remain. *)
Fixpoint deal (cs : list C) (items : list item) (cl : Client W)
    : Client W * list C * bool * list (C * item) :=
  match cs, items with
  | c :: cs, it :: items =>
      match blocked it cl with
      | Some st => (expect_seqtag st (tag c) (set_restag (tag c) cl), [], false, zip (c :: cs) (it :: items))
      | None =>
          let '(cl, calls) := told c it cl in
          if RequestFacts.clears calls then (cl, RequestFacts.adds calls, true, zip cs items)
          else
            let '(cl, added, cleared, rest) := deal cs items cl in
            (cl, RequestFacts.adds calls ++ added, cleared, rest)
      end
  | _, _ => (cl, [], false, [])
  end.

(** What is asked of the implementation of a command: it reads no further than
    the text of its own value, and if it says it consumed that, it did. *)
Definition reads (c : C) (r : Result) (text : bytes) : Prop :=
  forall rest cl, after_value rest ->
    let '(ok, pos, cl', calls) := procresult c r text cl in
    procresult c r (text ++ rest) cl = (ok, pos ++ rest, cl', calls) /\ (ok = true -> leaves r pos).

(** The value carries no sequence tag and is not an error object. *)
Definition plain (c : C) (v : value) : Prop :=
  match v with
  | VString _ => False
  | VArray _ => mSeqtagArray c = false
  | VObject (m :: _) => m.1 <> str "err"
  | _ => True
  end.

(** An item the command expects. *)
Definition fits (c : C) (it : item) : Prop :=
  wf (item_value it) = true /\
  match it with
  | NoTag v => plain c v /\ reads c (result_of v) (inner v)
  | ZeroTag v | TagValue _ v => mSeqtagArray c = true /\ reads c (item_result v) (item_text v)
  | TagOnly _ => reads c (CmdError (Error_of API_OK)) []
  end.

End deal.

Module ReplyFacts.
Import JSON JsonFacts.

Lemma after_ends rest : after_value rest -> ends_number rest = true.
Proof. unfold ends_number. by intros [-> | ->]. Qed.


Lemma digits_app l rest : after_value rest -> forall acc, CLib.digits 10 (l ++ rest) acc = CLib.digits 10 l acc.
Proof.
  intros Hr. induction l as [|c l IH]; intros acc; cbn [app CLib.digits].
  - destruct rest as [|x rest]; [done|]. cbn [CLib.digits]. unfold after_value in Hr. rewrite cchar_cons in Hr.
    by destruct Hr as [-> | ->].
  - by destruct (CLib.digit_value 10 c).
Qed.

(** The number at the start of a text does not depend on what follows it. *)
Lemma atoll_app text rest : number_ok text = true -> after_value rest ->
  CLib.atoll (text ++ rest) = CLib.atoll text.
Proof.
  destruct text as [|c text]; [done|]. cbn [number_ok]. intros [Hc%digit_range _]%andb_true_iff Hr.
  unfold CLib.atoll. cbn [app CLib.skip_spaces].
  assert (CLib.is_space c = false) as -> by (unfold CLib.is_space; lia).
  rewrite !cchar_cons. rewrite (proj2 (Z.eqb_neq c (chr "+"))) by lia.
  destruct (Z.eqb_spec c (chr "-")) as [->|]; cbn [drop].
  - by rewrite !drop_0, digits_app.
  - change (c :: text ++ rest) with ((c :: text) ++ rest). by rewrite digits_app.
Qed.

Lemma second_after text rest : number_ok text = true -> after_value rest ->
  (chr "1" <=? cchar (drop 1 (text ++ rest))) && (cchar (drop 1 (text ++ rest)) <=? chr "9")
  = (chr "1" <=? cchar (drop 1 text)) && (cchar (drop 1 text) <=? chr "9").
Proof.
  destruct text as [|c [|c' text]]; [done| |done]. intros _ Hr. cbn [app drop]. rewrite drop_0.
  by destruct Hr as [-> | ->].
Qed.

Lemma skip_one_stay l pos : is_any (cchar pos) l = false -> skip_one l pos = pos.
Proof. unfold skip_one. by intros ->. Qed.

(** The characters a value does not start with. *)
Lemma starts_not v rest c : wf v = true -> c = chr "," \/ c = chr ":" \/ c = chr "]" \/ c = chr "}" ->
  cchar (print v ++ rest) =? c = false.
Proof.
  intros Hv Hc. apply Z.eqb_neq. pose proof (value_head v rest Hv) as Hs.
  apply starts_value_facts in Hs. lia.
Qed.

Lemma skip_value v rest : wf v = true -> after_value rest -> skip_object (print v ++ rest) = rest.
Proof.
  intros Hv Hr. unfold skip_object. rewrite storeobject_value; [done|done|by apply after_ends].
Qed.

Lemma numeric_error v rest : wf v = true -> after_value rest ->
  isNumericError (print v ++ rest) =
    match v with
    | VNumber text => if error_number text then (true, rest, s32 (CLib.atoll text)) else (false, text ++ rest, 0)
    | _ => (false, print v ++ rest, 0)
    end.
Proof.
  intros Hv Hr. unfold isNumericError.
  rewrite (skip_one_stay [chr ","]) by (unfold is_any; cbn [existsb]; rewrite (starts_not _ _ _ Hv); auto).
  destruct v as [raw|text|items|members]; try done. cbn [print] in *.
  pose proof (skip_value (VNumber text) rest Hv Hr) as Hsk. cbn [print wf] in Hsk, Hv.
  rewrite Hsk, (second_after _ _ Hv Hr), (atoll_app _ _ Hv Hr). unfold error_number.
  destruct text as [|c text]; [done|]. cbn [app]. rewrite !cchar_cons.
  destruct (c =? chr "-") eqn:E1; destruct (c =? chr "0") eqn:E0; cbn [negb andb orb]; try done;
    [by apply Z.eqb_eq in E1 as ->|]; by destruct (_ <=? _), (_ <=? _).
Qed.

(** No member but [err] makes an object an error object. *)
Lemma not_err v rest : wf v = true ->
  match v with VObject (m :: _) => m.1 <> str "err" | _ => True end ->
  take 7 (print v ++ rest) <> err_object.
Proof.
  intros Hv Hm E. unfold err_object in E.
  destruct v as [raw|text|items|[|[k v] ms] ].
  - by injection E.
  - destruct text as [|c text]; [done|]. cbn [wf number_ok] in Hv. apply andb_true_iff in Hv as [Hc%digit_range _].
    injection E as -> _. lia.
  - by injection E.
  - by injection E.
  - cbn [wf forallb fst snd] in Hv. apply andb_true_iff in Hv as [[Hk _]%andb_true_iff _]. cbn [fst] in Hm.
    cbn [print map fst snd] in E.
    set (tl := map _ ms) in E. clearbody tl.
    assert (exists more, (chr "{" :: sep ((quoted k ++ chr ":" :: print v) :: tl) ++ [chr "}"]) ++ rest
      = chr "{" :: cDquote :: k ++ cDquote :: chr ":" :: more) as [more Em].
    { unfold quoted. destruct tl; cbn [sep app]; eexists; cbn; repeat (f_equal; rewrite <- ?app_assoc); done. }
    rewrite Em in E. clear Em.
    destruct k as [|k1 [|k2 [|k3 [|k4 k] ] ] ]; cbn in E; try (by injection E).
    + injection E as -> -> ->. by apply Hm.
    + injection E as -> -> -> -> _. done.
Qed.

Lemma remaining_length members : (4 * length members <= length (remaining members))%nat.
Proof.
  unfold remaining, print_member, quoted. induction members as [|m ms IH]; [done|].
  rewrite fmap_cons, mjoin_cons, length_app. cbn [length].
  repeat (rewrite length_app; cbn [length]). lia.
Qed.

Lemma leaveobject_members members rest :
  Forall (fun m => raw_ok m.1 false = true /\ JsonValue.wf m.2 = true) members ->
  leaveobject (S (length (remaining members ++ chr "}" :: rest))) (remaining members ++ chr "}" :: rest)
  = Some (true, rest).
Proof.
  intros Hms. unfold leaveobject. pose proof (remaining_length members) as Hl. rewrite length_app. cbn [length].
  replace (S (length (remaining members) + S (length rest)))
    with (S (S (length rest + (length (remaining members) - 4 * length members))) + 4 * length members)%nat by lia.
  rewrite leave_members by done. rewrite cchar_cons. cbn [drop]. by rewrite drop_0.
Qed.

Lemma enterobject_object members rest :
  enterobject (print (VObject members) ++ rest) = (true, inner (VObject members) ++ rest).
Proof.
  change (print (VObject members)) with (chr "{" :: inner (VObject members)).
  generalize (inner (VObject members)) as t. intros t. cbn. by rewrite drop_0.
Qed.

Lemma enterarray_array items rest :
  enterarray (print (VArray items) ++ rest) = (true, inner (VArray items) ++ rest).
Proof.
  change (print (VArray items)) with (chr "[" :: inner (VArray items)).
  generalize (inner (VArray items)) as t. intros t. cbn. by rewrite drop_0.
Qed.

Lemma enter_other v rest : JsonValue.wf v = true ->
  (forall ms, v <> VObject ms) -> enterobject (print v ++ rest) = (false, print v ++ rest).
Proof.
  intros Hv Hno. unfold enterobject.
  rewrite (skip_one_stay [chr "}"]) by (unfold is_any; cbn [existsb]; rewrite (starts_not _ _ _ Hv); auto).
  rewrite (skip_one_stay [chr ","]) by (unfold is_any; cbn [existsb]; rewrite (starts_not _ _ _ Hv); auto).
  destruct v as [raw|[|c text]|items|ms]; try done; [|by destruct (Hno ms)].
  cbn [JsonValue.wf number_ok] in Hv. apply andb_true_iff in Hv as [Hc%digit_range _]. cbn [print app]. rewrite cchar_cons.
  by rewrite (proj2 (Z.eqb_neq c (chr "{"))) by lia.
Qed.

Lemma enterarray_other v rest : JsonValue.wf v = true ->
  (forall vs, v <> VArray vs) -> enterarray (print v ++ rest) = (false, print v ++ rest).
Proof.
  intros Hv Hno. unfold enterarray.
  rewrite (skip_one_stay [chr ","; chr ":"]) by (unfold is_any; cbn [existsb]; rewrite !(starts_not _ _ _ Hv); auto).
  destruct v as [raw|[|c text]|items|ms]; try done; [|by destruct (Hno items)].
  cbn [JsonValue.wf number_ok] in Hv. apply andb_true_iff in Hv as [Hc%digit_range _]. cbn [print app]. rewrite cchar_cons.
  by rewrite (proj2 (Z.eqb_neq c (chr "["))) by lia.
Qed.

Lemma skip_lead v lead rest : JsonValue.wf v = true -> lead = [] \/ lead = [chr ","] ->
  skip_one [chr ","] (lead ++ print v ++ rest) = print v ++ rest.
Proof.
  intros Hv [-> | ->]; cbn [app].
  - apply skip_one_stay. unfold is_any; cbn [existsb]; rewrite (starts_not _ _ _ Hv); auto.
  - unfold skip_one, is_any. cbn [existsb]. rewrite cchar_cons. cbn [Z.eqb Pos.eqb orb drop]. by rewrite drop_0.
Qed.

Lemma skip_lead_value v lead rest : JsonValue.wf v = true -> lead = [] \/ lead = [chr ","] -> after_value rest ->
  skip_object (lead ++ print v ++ rest) = rest.
Proof.
  intros Hv Hlead Hr. unfold skip_object.
  pose proof (storeobject_lead [] lead v rest [] (Forall_nil_2 _) Hlead Hv) as Es. cbn [app] in Es. rewrite Es.
  by apply skip_value.
Qed.

Lemma leavearray_end rest : leavearray (chr "]" :: rest) = (true, rest).
Proof. unfold leavearray. rewrite cchar_cons. cbn [Z.eqb Pos.eqb drop]. by rewrite drop_0. Qed.

(** The first character of a value that is not a string. *)
Lemma not_quote v rest : JsonValue.wf v = true -> (forall raw, v <> VString raw) ->
  cchar (print v ++ rest) =? cDquote = false.
Proof.
  intros Hv Hno. apply Z.eqb_neq. destruct v as [raw|[|x text]|items|members]; try done; [by destruct (Hno raw)|].
  cbn [JsonValue.wf number_ok] in Hv. apply andb_true_iff in Hv as [Hc%digit_range _]. cbn [print app]. rewrite cchar_cons. lia.
Qed.

Section told.
Context {C W : Type} `{CommandOps C W}.

(** [s] is the step that a call of [procresult] with the command's own text
    gives, and the position is [rest] if the text was consumed. *)
Definition handed (a : bool * bytes * Client W * list (Call C)) (rest : bytes) (d : RequestDispatcher C)
    (s : option (@Step C W)) : Prop :=
  let '(_, _, cl', calls) := a in
  exists ok pos, s = Some (ok, pos, cl', foldl run_call d calls) /\ (ok = true -> pos = rest).

Lemma proc_own c r text rest cl d : reads c r text -> after_value rest ->
  let '(ok, pos, cl', calls) := procresult c r text cl in
  proc c r (text ++ rest) cl d = (ok, pos ++ rest, cl', foldl run_call d calls) /\ (ok = true -> leaves r pos).
Proof.
  intros Ho Hr. specialize (Ho rest cl Hr). destruct (procresult c r text cl) as [[[ok pos] cl'] calls].
  destruct Ho as [E Hl]. unfold proc. by rewrite E.
Qed.

(** Objects, arrays and other values behind [checkError]. *)
Lemma proc_item c v rest cl d :
  JsonValue.wf v = true -> reads c (item_result v) (item_text v) -> after_value rest ->
  handed (procresult c (item_result v) (item_text v) cl) rest d (processCmdJSON c false (print v ++ rest) cl d).
Proof.
  intros Hv Ho Hr. unfold processCmdJSON, check_reply. cbn [mbind option_bind].
  pose proof (proc_own c _ _ rest cl d Ho Hr) as Hown. unfold handed.
  destruct (procresult c (item_result v) (item_text v) cl) as [[[ok pos] cl'] calls].
  destruct Hown as [E Hl]. destruct v as [raw|text|items|members]; cbn [item_result item_text leaves] in *.
  - rewrite (enter_other (VString raw)), (enterarray_other (VString raw)) by done.
    exists ok, (pos ++ rest). split; [f_equal; exact E|]. intros Hok. by rewrite Hl.
  - rewrite (enter_other (VNumber text)), (enterarray_other (VNumber text)) by done.
    exists ok, (pos ++ rest). split; [f_equal; exact E|]. intros Hok. by rewrite Hl.
  - rewrite (enter_other (VArray items)), enterarray_array by done. rewrite E. destruct ok; [|by eexists _, _].
    rewrite (Hl eq_refl). cbn [app]. rewrite leavearray_end. by eexists _, _.
  - rewrite enterobject_object, E. destruct ok; [|by eexists _, _].
    destruct (Hl eq_refl) as (ms & Hms & ->). rewrite <- app_assoc. cbn [app]. rewrite leaveobject_members by done.
    by eexists _, _.
Qed.

(** Behind [checkError], an error code or like the others. *)
Lemma proc_value c v rest cl d :
  JsonValue.wf v = true -> plain c v -> reads c (result_of v) (inner v) -> after_value rest ->
  handed (procresult c (result_of v) (inner v) (react (result_of v) cl)) rest d
    (processCmdJSON c true (print v ++ rest) cl d).
Proof.
  intros Hv Hp Ho Hr.
  assert (parse_error (print v ++ rest) =
    Some (match v with
          | VNumber text => if error_number text then (true, error_of text, rest) else (false, Error_of API_EINTERNAL, print v ++ rest)
          | _ => (false, Error_of API_EINTERNAL, print v ++ rest) end)) as Epe.
  { unfold parse_error. rewrite numeric_error by done.
    rewrite (skip_one_stay [chr ","]) by (unfold is_any; cbn [existsb]; rewrite (starts_not _ _ _ Hv); auto).
    assert (match v with VObject (m :: _) => m.1 <> str "err" | _ => True end) as Hm by by destruct v.
    pose proof (not_err v rest Hv Hm) as Hne. rewrite (bool_decide_eq_false_2 _ Hne).
    destruct v as [raw|text|items|members]; [done| |done|done]. by destruct (error_number text). }
  destruct (match v with VNumber text => error_number text | _ => false end) eqn:Ee.
  - destruct v as [raw|text|items|members]; try done. rewrite Ee in Epe.
    cbn [result_of inner] in *. rewrite Ee in *. unfold processCmdJSON, check_reply, checkError. rewrite Epe.
    cbn [mbind option_bind andb]. pose proof (proc_own c _ _ rest (react (CmdError (error_of text)) cl) d Ho Hr) as Hown.
    unfold handed. destruct (procresult c _ [] _) as [[[ok pos] cl'] calls]. destruct Hown as [E Hl].
    exists ok, (pos ++ rest). split; [f_equal; exact E|]. intros Hok. by rewrite Hl.
  - assert (result_of v = item_result v /\ inner v = item_text v) as [Er Ei].
    { destruct v as [raw|text|items|members]; try done. cbn. by rewrite Ee. }
    rewrite Er, Ei in *. replace (react (item_result v) cl) with cl by by destruct v.
    pose proof (proc_item c v rest cl d Hv Ho Hr) as Ht.
    unfold processCmdJSON, check_reply, checkError in *. rewrite Epe.
    destruct v as [raw|text|items|members]; try done. by rewrite Ee.
Qed.

Lemma processSeqTag_text c wj ia st tail cl d :
  raw_ok st false = true -> ends_number tail = true ->
  processSeqTag c wj ia (quoted st ++ tail) cl d =
    let pos := if ia && (cchar tail =? chr ",") then drop 1 tail else tail in
    if bool_decide (mCurrentSeqtag cl = st) || negb (scsn_ready cl) then
      let cl := set_seqtag [] false cl in
      if wj then s ← processCmdJSON c false pos cl d; Some (inl s)
      else Some (inl (proc c (CmdError (Error_of API_OK)) pos cl d))
    else Some (inr (expect_seqtag st (tag c) cl)).
Proof.
  intros Hst Ht. unfold processSeqTag.
  change (quoted st ++ tail) with (print (VString st) ++ tail). by rewrite storeobject_value.
Qed.

End told.

(** The reply from the next value on. *)
Fixpoint body (lead : bytes) (items : list item) : bytes :=
  match items with
  | [] => [chr "]"]
  | it :: items => lead ++ print (item_value it) ++ body [chr ","] items
  end.

Lemma body_after items : after_value (body [chr ","] items).
Proof. destruct items; [by right|by left]. Qed.

Lemma body_sep items : sep (map print (map item_value items)) ++ [chr "]"] = body [] items.
Proof.
  destruct items as [|v vs]; [done|]. cbn [map body app]. revert v. induction vs as [|w vs IH]; intros v; [done|].
  cbn [map] in *. rewrite sep_cons, <- app_assoc. cbn [app body]. by rewrite IH.
Qed.


(** A pair behind the bracket. *)
Lemma enter_pair v1 v2 rest :
  enterarray (print (VArray [v1; v2]) ++ rest) = (true, print v1 ++ chr "," :: print v2 ++ chr "]" :: rest).
Proof. rewrite enterarray_array. cbn [inner map sep]. by rewrite <- !app_assoc. Qed.

Section commands.
Context {C W : Type} `{CommandOps C W}.

Definition executed (c : C) (it : item) (rest : bytes) (cl : Client W) (d : RequestDispatcher C)
    (r : option (@Step C W + Client W)) : Prop :=
  let '(_, _, cl', calls) := answer c it cl in
  exists ok pos, r = Some (inl (ok, pos, cl', foldl run_call d calls)) /\ (ok = true -> pos = rest).

(** The end of the array around a tagged value. *)
Definition close_pair (r : option (@Step C W + Client W)) : option (@Step C W + Client W) :=
  r ← r;
  match (r : @Step C W + Client W) with
  | inr cl => Some (inr cl)
  | inl (ok, pos, cl, d) =>
      if ok then let '(ok, pos) := leavearray pos in Some (inl (ok, pos, cl, d))
      else Some (inl (false, pos, cl, d))
  end.

Lemma close_pair_handed a rest d s :
  handed a (chr "]" :: rest) d s ->
  let '(_, _, cl', calls) := a in
  exists ok pos, close_pair (s ← s; Some (inl s)) = Some (inl (ok, pos, cl', foldl run_call d calls))
    /\ (ok = true -> pos = rest).
Proof.
  unfold handed. destruct a as [[[ok0 pos0] cl'] calls]. intros (ok & pos & -> & Hok).
  unfold close_pair. cbn [mbind option_bind]. destruct ok; [|by eexists _, _].
  rewrite (Hok eq_refl), leavearray_end. by eexists _, _.
Qed.

Lemma process_command_at c it lead rest cl d :
  fits c it -> after_value rest -> lead = [] \/ lead = [chr ","] ->
  match blocked it cl with
  | Some st => process_command c (lead ++ print (item_value it) ++ rest) cl d
               = Some (inr (expect_seqtag st (tag c) (set_restag (tag c) cl)))
  | None => executed c it rest cl d (process_command c (lead ++ print (item_value it) ++ rest) cl d)
  end.
Proof.
  intros [Hv Hf] Hr Hlead. unfold process_command. rewrite skip_lead by done. unfold blocked, executed, answer.
  set (cl1 := set_restag (tag c) cl). change (mCurrentSeqtag cl) with (mCurrentSeqtag cl1).
  change (scsn_ready cl) with (scsn_ready cl1). clearbody cl1.
  destruct it as [v|v|st v|st]; cbn [item_tag item_value] in *.
  - destruct Hf as [Hp Ho].
    assert ((if mSeqtagArray c then enterarray (print v ++ rest) else (false, print v ++ rest)) = (false, print v ++ rest)) as ->.
    { destruct (mSeqtagArray c) eqn:Em; [|done]. apply enterarray_other; [done|].
      intros vs ->. cbn in Hp. by rewrite Hp in Em. }
    rewrite not_quote; [|done|by intros raw ->].
    pose proof (proc_value c v rest cl1 d Hv Hp Ho Hr) as Ht. unfold handed in Ht.
    destruct (procresult _ _ _ _) as [[[ok0 pos0] cl'] calls]. destruct Ht as (ok & pos & -> & Hok). by exists ok, pos.
  - destruct Hf as [Hm Ho]. rewrite Hm, enter_pair. cbn [wf forallb] in Hv. rewrite !andb_true_iff in Hv.
    unfold process_tagged. cbn [print]. change (cchar (str "0" ++ _)) with (chr "0").
    change (cchar (drop 1 (str "0" ++ _))) with (chr ","). cbn [Z.eqb Pos.eqb andb].
    change (drop 2 (str "0" ++ chr "," :: ?l)) with (drop 0 l). rewrite drop_0.
    apply (close_pair_handed _ _ _ _ (proc_item c v (chr "]" :: rest) cl1 d (proj1 (proj2 Hv)) Ho (or_intror eq_refl))).
  - destruct Hf as [Hm Ho]. rewrite Hm, enter_pair. cbn [wf forallb] in Hv. rewrite !andb_true_iff in Hv.
    unfold process_tagged. cbn [print]. change (cchar (quoted st ++ _)) with cDquote. cbn [Z.eqb Pos.eqb andb].
    rewrite processSeqTag_text by (apply Hv || done). cbn [andb]. rewrite cchar_cons. cbn [Z.eqb Pos.eqb drop]. rewrite drop_0.
    destruct (_ || _) eqn:Eb; cbn [mbind option_bind]; [|done].
    apply (close_pair_handed _ _ _ _
      (proc_item c v (chr "]" :: rest) (set_seqtag [] false cl1) d (proj1 (proj2 Hv)) Ho (or_intror eq_refl))).
  - assert ((if mSeqtagArray c then enterarray (print (VString st) ++ rest) else (false, print (VString st) ++ rest))
      = (false, print (VString st) ++ rest)) as ->.
    { destruct (mSeqtagArray c); [|done]. by apply enterarray_other. }
    change (cchar (print (VString st) ++ rest)) with cDquote. cbn [Z.eqb Pos.eqb].
    cbn [print]. rewrite processSeqTag_text by (done || by apply after_ends). cbn [andb].
    destruct (_ || _) eqn:Eb; [|done].
    pose proof (proc_own c _ _ rest (set_seqtag [] false cl1) d Hf Hr) as Hown.
    destruct (procresult _ _ _ _) as [[[ok pos] cl'] calls]. destruct Hown as [E Hl]. cbn [app] in E. rewrite E.
    eexists _, _. split; [done|]. intros Hok. by rewrite (Hl Hok).
Qed.

Lemma process_command_item c it lead rest cl d :
  fits c it -> after_value rest -> lead = [] \/ lead = [chr ","] ->
  match blocked it cl with
  | Some st => process_command c (lead ++ print (item_value it) ++ rest) cl d
               = Some (inr (expect_seqtag st (tag c) (set_restag (tag c) cl)))
  | None =>
      exists ok pos, process_command c (lead ++ print (item_value it) ++ rest) cl d
          = Some (inl (ok, pos, (told c it cl).1, foldl run_call d (told c it cl).2))
        /\ (if ok then pos else skip_object (lead ++ print (item_value it) ++ rest)) = rest
  end.
Proof.
  intros Hf Hr Hlead. pose proof (process_command_at c it lead rest cl d Hf Hr Hlead) as Ht.
  destruct (blocked it cl); [done|]. unfold executed in Ht. unfold told.
  destruct (answer c it cl) as [[[ok0 pos0] cl'] calls]. destruct Ht as (ok & pos & E & Hok).
  exists ok, pos. split; [done|]. destruct ok; [by apply Hok|]. apply skip_lead_value; [apply Hf|done|done].
Qed.

End commands.

Section loop.
Context {C W : Type} `{CommandOps C W}.

Definition lead_ok (lead : bytes) : Prop := lead = [] \/ lead = [chr ","].

Lemma zip_both {A B} (l : list A) (k : list B) : length l = length k -> (zip l k).*1 = l /\ (zip l k).*2 = k.
Proof. intros E. split; [apply fst_zip|apply snd_zip]; lia. Qed.

(** What the loop leaves, in terms of the reference. *)
Record loop_dealt (d : RequestDispatcher C) (r : Client W * list C * bool * list (C * item))
    (waiting : bool) (pos : bytes) (cl' : Client W) (d' : RequestDispatcher C) : Prop := {
  ld_client : cl' = r.1.1.1;
  ld_queue : RequestFacts.queue_inv (nextreqs d');
  ld_queued : RequestFacts.queued d' = RequestFacts.queued d ++ r.1.1.2;
  ld_run : RequestFacts.run_ok (inflightreq d') r.2.*1;
  ld_fits : Forall2 fits r.2.*1 r.2.*2;
  ld_waiting : waiting = negb (bool_decide (r.2 = [])) && negb r.1.2;
  ld_pos : waiting = true -> exists lead, lead_ok lead /\ pos = body lead r.2.*2;
  ld_stop : stopProcessing (inflightreq d') = r.1.2;
  ld_cached : cachedJSON (inflightreq d') = cachedJSON (inflightreq d);
  ld_length : length (cmds (inflightreq d')) = length (cmds (inflightreq d));
  ld_clear : clearWhenSafe d' = clearWhenSafe d || r.1.2;
  ld_processing : processing d' = true
}.

Lemma process_loop_deal cs : forall items lead cl d,
  Forall2 fits cs items -> lead_ok lead ->
  RequestFacts.run_ok (inflightreq d) cs -> RequestFacts.queue_inv (nextreqs d) -> processing d = true ->
  stopProcessing (inflightreq d) = false ->
  exists waiting pos cl' d', process_loop (length cs) (body lead items) cl d = Some (waiting, pos, cl', d')
    /\ loop_dealt d (deal cs items cl) waiting pos cl' d'.
Proof.
  induction cs as [|c cs IH]; intros items lead cl d Hfit Hlead Hr Hq Hp Hs.
  { exists false, (body lead items), cl, d. apply Forall2_nil_inv_l in Hfit as ->. split; [done|].
    split; try done; by rewrite ?app_nil_r, ?orb_false_r. }
  pose proof Hfit as Hfit0. apply Forall2_cons_inv_l in Hfit as (it & items' & Hf & Hfit & ->).
  cbn [length process_loop deal body]. rewrite Hs, (RequestFacts.run_current _ _ _ Hr). cbn [default]. unfold id.
  pose proof (process_command_item c it lead (body [chr ","] items') cl d Hf (body_after _) Hlead) as Hc.
  pose proof (Forall2_length _ _ _ Hfit) as Hlen.
  destruct (blocked it cl) as [st|].
  { rewrite Hc. cbn [mbind option_bind]. eexists true, (lead ++ print (item_value it) ++ body [chr ","] items'), _, d.
    split; [done|]. destruct (zip_both (c :: cs) (it :: items')) as [E1 E2]; [by cbn; f_equal|].
    split; cbn [fst snd]; rewrite ?E1, ?E2, ?app_nil_r, ?orb_false_r; try done. intros _. by exists lead. }
  destruct Hc as (ok & pos & E & Hok). rewrite E. cbn [mbind option_bind]. rewrite Hok. clear E Hok.
  destruct (told c it cl) as [cl1 calls]. cbn [fst snd].
  pose proof (RequestFacts.run_calls_called calls d Hq Hp) as Hc. set (d1 := foldl run_call d calls) in *. clearbody d1.
  pose proof (RequestFacts.ca_inflight _ _ _ _ Hc) as Hi. rewrite Hs in Hi. cbn [orb] in Hi.
  set (d2 := finish_command d1).
  assert (RequestFacts.run_ok (inflightreq d2) cs) as Hr1.
  { apply RequestFacts.run_finish with (c := c). by rewrite Hi. }
  assert (stopProcessing (inflightreq d2) = RequestFacts.clears calls /\ cachedJSON (inflightreq d2) = cachedJSON (inflightreq d)
    /\ length (cmds (inflightreq d2)) = length (cmds (inflightreq d))) as (Hs1 & Hj1 & Hl1).
  { unfold d2, finish_command. cbn. by rewrite length_insert, Hi. }
  destruct Hc as [Ca1 Ca2 _ Ca4 Ca5 _ _]. destruct (RequestFacts.clears calls) eqn:Ecl.
  - exists false, (body [chr ","] items'), cl1, d2. split; [destruct cs; cbn [length process_loop]; [done|by rewrite Hs1]|].
    destruct (zip_both cs items' Hlen) as [E1 E2].
    split; cbn [fst snd]; rewrite ?E1, ?E2; try done. by rewrite andb_false_r.
  - destruct (IH items' [chr ","] cl1 d2 Hfit (or_intror eq_refl) Hr1 Ca1 Ca4 Hs1) as (w & pos2 & cl2 & d3 & E & Hd).
    destruct (deal cs items' cl1) as [[[cl3 added] cleared] rest]. exists w, pos2, cl2, d3. split; [done|].
    destruct Hd as [L1 L2 L3 L4 L5 L6 L7 L8 L9 L10 L11 L12]. cbn [fst snd] in *. split; cbn [fst snd]; try done.
    + rewrite L3. change (RequestFacts.queued d2) with (RequestFacts.queued d1). by rewrite Ca2, app_assoc.
    + by rewrite L9.
    + by rewrite L10.
    + rewrite L11. change (clearWhenSafe d2) with (clearWhenSafe d1). by rewrite Ca5, orb_false_r.
Qed.

(** The dispatcher is dealing out a reply: [rest] are the commands to come with
    their items; none is an idle dispatcher. *)
Definition dealing (d : RequestDispatcher C) (rest : list (C * item)) : Prop :=
  RequestFacts.wf d /\ Forall2 fits rest.*1 rest.*2 /\ live (inflightreq d) = rest.*1
  /\ match rest with
     | [] => cmds (inflightreq d) = []
     | _ => exists lead, lead_ok lead /\ json (inflightreq d) = Some (body lead rest.*2)
     end.

(** The dispatcher that the reference describes. *)
Definition dealt (d : RequestDispatcher C) (r : Client W * list C * bool * list (C * item)) (d' : RequestDispatcher C) : Prop :=
  let '(_, added, cleared, rest) := r in
  if cleared then RequestFacts.pending d' = [] /\ dealing d' []
  else dealing d' rest /\ RequestFacts.queued d' = RequestFacts.queued d ++ added.

Lemma deal_suffix cs : forall items cl, length cs = length items -> exists dn, cs = dn ++ (deal cs items cl).2.*1.
Proof.
  induction cs as [|c cs IH]; intros [|it items] cl Hl; try done; [by exists []|].
  injection Hl as Hl. cbn [deal]. destruct (blocked it cl).
  - exists []. cbn [snd app]. symmetry. apply zip_both. by cbn; f_equal.
  - destruct (told c it cl) as [cl1 calls]. destruct (RequestFacts.clears calls).
    + exists [c]. cbn [snd app]. f_equal. symmetry. by apply zip_both.
    + destruct (IH items cl1 Hl) as [dn E]. destruct (deal cs items cl1) as [[[cl3 added] cleared] rest]. cbn [snd] in *.
      exists (c :: dn). cbn [app]. by f_equal.
Qed.

Lemma idle_dealing (d : RequestDispatcher C) : RequestFacts.wf d -> cmds (inflightreq d) = [] -> dealing d [].
Proof.
  intros Hwf He. split; [done|]. split; [constructor|]. by destruct (RequestFacts.idle_inflight d Hwf He) as (-> & _).
Qed.

(** The request in flight after a pause. *)
Lemma paused_ok (r r0 : Request C) cs rest pos :
  RequestFacts.inflight_ok r0 -> RequestFacts.run_ok r0 cs -> RequestFacts.run_ok r rest -> rest <> [] ->
  (exists dn, cs = dn ++ rest) -> cachedJSON r = cachedJSON r0 -> length (cmds r) = length (cmds r0) ->
  RequestFacts.inflight_ok (set_json (Some pos) r).
Proof.
  intros Hio Hr0 Hr Hne [dn ->] Hj Hl. split; try done.
  - exists rest. split; [done|]. by left.
  - intros _. change (cachedJSON (set_json _ r)) with (cachedJSON r). rewrite Hj. apply (RequestFacts.io_cached _ Hio).
    intros E0. apply (RequestFacts.run_empty _ _ Hr0) in E0 as [E0 _]. by destruct dn, rest.
  - change (cmds (set_json _ r)) with (cmds r). rewrite Hl. apply (RequestFacts.io_size _ Hio).
  - change (cmds (set_json _ r)) with (cmds r). rewrite Hl. intros Hlt.
    pose proof (RequestFacts.io_separate _ Hio Hlt) as Hf. rewrite (RequestFacts.live_run _ _ Hr0), Forall_app in Hf.
    change (live (set_json _ r)) with (live r). rewrite (RequestFacts.live_run _ _ Hr). apply Hf.
Qed.

Lemma run_process_dealt cl (d : RequestDispatcher C) cs items lead :
  RequestFacts.wf d -> Forall2 fits cs items -> live (inflightreq d) = cs ->
  lead_ok lead -> json (inflightreq d) = Some (body lead items) ->
  exists d', run_process cl d = Some ((deal cs items cl).1.1.1, d') /\ dealt d (deal cs items cl) d'.
Proof.
  intros [Hq Hio Hs [Hp Hc]] Hfit Hlive Hlead Hj.
  destruct (RequestFacts.io_cmds _ Hio) as (cs' & Hr & _). rewrite (RequestFacts.live_run _ _ Hr) in Hlive. subst cs'.
  destruct (process_loop_deal cs items lead cl (set_processing true d) Hfit Hlead Hr Hq eq_refl Hs)
    as (w & pos & cl1 & d1 & E & Hd).
  destruct (deal_suffix cs items cl (Forall2_length _ _ _ Hfit)) as [dn Edn].
  unfold run_process, process, dealt. change (inflightreq (set_processing true d)) with (inflightreq d).
  rewrite Hj, (RequestFacts.run_length _ _ Hr), Nat.add_comm, Nat.add_sub. cbn [default]. unfold id. rewrite E.
  cbn [mbind option_bind].
  destruct (deal cs items cl) as [[[cl2 added] cleared] rest]. destruct Hd as [L1 L2 L3 L4 L5 L6 L7 L8 L9 L10 L11 L12].
  cbn [fst snd] in *. subst cl1.
  set (r := set_json (Some pos) (inflightreq d1)). eexists. split; [reflexivity|].
  change (clearWhenSafe (set_processing true d)) with (clearWhenSafe d) in L11. rewrite Hc in L11. cbn [orb] in L11.
  change (clearWhenSafe (set_processing false _)) with (clearWhenSafe d1). rewrite L11.
  destruct cleared.
  { unfold clear. change (processing (set_processing false _)) with false. cbv iota.
    assert (RequestFacts.wf (MkDispatcher (request_clear (inflightreq (set_processing false (set_inflight
      (if negb w && ((processindex r =? length (cmds r))%nat || stopProcessing r) then request_clear r else r) d1))))
      RETRY_NONE [new_Request] false false (reqid d1))) as Hwf by by apply RequestFacts.wf_fresh.
    split; [done|]. by apply idle_dealing. }
  rewrite andb_true_r in L6.
  assert (inflightreq d1 = inflightreq d1 /\ processindex r = processindex (inflightreq d1) /\ cmds r = cmds (inflightreq d1)) as (_ & Epi & Ecm) by done.
  assert ((processindex r =? length (cmds r))%nat = bool_decide (rest = [])) as Eend.
  { rewrite Epi, Ecm, (RequestFacts.run_length _ _ L4), length_fmap. destruct rest; cbn [length].
    - by rewrite Nat.add_0_r, Nat.eqb_refl.
    - apply Nat.eqb_neq. lia. }
  change (stopProcessing r) with (stopProcessing (inflightreq d1)). rewrite L8, Eend, orb_false_r, L6.
  case_bool_decide as He; cbn [negb andb].
  - subst rest. split; [|done]. apply idle_dealing; [|done].
    split; try done; cbn. split; cbn; try done; try lia. exists []. split; [done|]. by right.
  - destruct (L7 L6) as (lead' & Hlead' & ->). split; [|done]. split.
    + split; [done| |done|done]. eapply paused_ok; [exact Hio|exact Hr|exact L4| |by exists dn|done|done].
      intros E0. apply He. by apply fmap_nil_inv in E0.
    + split; [done|]. split; [by apply (RequestFacts.live_run _ _ L4)|]. destruct rest; [done|]. by exists lead'.
Qed.
(** *** Action packets *)

(** The commands leave the sequence tags alone. *)
Class KeepsTags : Prop := {
  kt_procresult c r pos (cl : Client W) :
    let cl' := (procresult c r pos cl).1.2 in
    mCurrentSeqtag cl' = mCurrentSeqtag cl /\ mCurrentSeqtagSeen cl' = mCurrentSeqtagSeen cl
    /\ scsn_ready cl' = scsn_ready cl;
  kt_react (cl : Client W) :
    mCurrentSeqtag (activateoverquota cl) = mCurrentSeqtag cl
    /\ mCurrentSeqtagSeen (activateoverquota cl) = mCurrentSeqtagSeen cl
    /\ scsn_ready (activateoverquota cl) = scsn_ready cl
    /\ mCurrentSeqtag (setBusinessStatusExpired cl) = mCurrentSeqtag cl
    /\ mCurrentSeqtagSeen (setBusinessStatusExpired cl) = mCurrentSeqtagSeen cl
    /\ scsn_ready (setBusinessStatusExpired cl) = scsn_ready cl
}.

(** No tag is expected. *)
Definition no_tag (cl : Client W) : Prop := mCurrentSeqtag cl = [] /\ mCurrentSeqtagSeen cl = false.

(** The tag expected is that of the next item, and not seen. *)
Definition waits_for (cl : Client W) (items : list item) : Prop :=
  mCurrentSeqtag cl <> [] /\ mCurrentSeqtagSeen cl = false
  /\ exists it items', items = it :: items' /\ item_tag it = Some (mCurrentSeqtag cl).

Context `{!KeepsTags}.

Lemma react_tags r (cl : Client W) :
  mCurrentSeqtag (react r cl) = mCurrentSeqtag cl /\ mCurrentSeqtagSeen (react r cl) = mCurrentSeqtagSeen cl
  /\ scsn_ready (react r cl) = scsn_ready cl.
Proof.
  destruct (kt_react cl) as (A1 & A2 & A3 & A4 & A5 & A6). destruct r as [e| | |]; try done. cbn [react].
  destruct (kt_react (activateoverquota cl)) as (_ & _ & _ & B4 & B5 & B6).
  destruct (mError e =? API_EPAYWALL), (mError e =? API_EBUSINESSPASTDUE); rewrite ?B4, ?B5, ?B6; done.
Qed.

Lemma told_tags c it (cl : Client W) :
  scsn_ready (told c it cl).1 = scsn_ready cl
  /\ (match item_tag it with
      | Some _ => no_tag (told c it cl).1
      | None => mCurrentSeqtag (told c it cl).1 = mCurrentSeqtag cl
                /\ mCurrentSeqtagSeen (told c it cl).1 = mCurrentSeqtagSeen cl
      end).
Proof.
  assert ((told c it cl).1 = (answer c it cl).1.2) as ->.
  { unfold told. by destruct (answer c it cl) as [[[? ?] ?] ?]. }
  unfold no_tag. destruct it as [v|v|st v|st]; cbn [answer item_tag].
  - destruct (kt_procresult c (result_of v) (inner v) (react (result_of v) (set_restag (tag c) cl))) as (-> & -> & ->).
    by destruct (react_tags (result_of v) (set_restag (tag c) cl)) as (-> & -> & ->).
  - by destruct (kt_procresult c (item_result v) (item_text v) (set_restag (tag c) cl)) as (-> & -> & ->).
  - by destruct (kt_procresult c (item_result v) (item_text v) (set_seqtag [] false (set_restag (tag c) cl))) as (-> & -> & ->).
  - by destruct (kt_procresult c (CmdError (Error_of API_OK)) [] (set_seqtag [] false (set_restag (tag c) cl))) as (-> & -> & ->).
Qed.

(** After the batch no tag is expected; if it pauses, that of the next item. *)
Lemma deal_tags cs : forall items (cl : Client W),
  length cs = length items -> scsn_ready cl = true ->
  no_tag cl \/ (exists it items', items = it :: items' /\ item_tag it = Some (mCurrentSeqtag cl)) ->
  let '(cl', _, cleared, rest) := deal cs items cl in
  if bool_decide (rest = []) || cleared then cs = [] \/ no_tag cl' else waits_for cl' rest.*2.
Proof.
  induction cs as [|c cs IH]; intros [|it items] cl Hlen Hready Htag; try done; [by left|].
  injection Hlen as Hlen. cbn [deal]. unfold blocked.
  destruct (told_tags c it cl) as [Hr2 Ht]. destruct (told c it cl) as [cl1 calls]. cbn [fst] in *.
  assert ((exists st, item_tag it = Some st /\ mCurrentSeqtag cl <> st /\ mCurrentSeqtag cl = []) \/ no_tag cl1
    /\ match item_tag it with
       | Some st => if bool_decide (mCurrentSeqtag cl = st) || negb (scsn_ready cl) then None else Some st
       | None => None end = None) as [(st & Est & Hst & Hnil)|[Hno ->]].
  { destruct (item_tag it) as [st|] eqn:Est.
    - case_bool_decide as Hc; [by right|]. left. exists st. destruct Htag as [[H1 H2]|(it' & items' & E & E')]; [done|].
      injection E as <- <-. congruence.
    - right. split; [|done]. unfold no_tag. destruct Ht as [-> ->].
      destruct Htag as [|(it' & items' & E & E')]; [done|]. injection E as <- <-. by rewrite Est in E'. }
  - rewrite Est, bool_decide_eq_false_2, Hready by done. cbn [negb orb].
    rewrite bool_decide_eq_false_2 by done. cbn [orb]. split_and!; cbn; [congruence|done|].
    exists it, (zip cs items).*2. by split.
  - destruct (RequestFacts.clears calls).
    + rewrite orb_true_r. by right.
    + specialize (IH items cl1 Hlen (eq_trans Hr2 Hready) (or_introl Hno)).
      destruct (deal cs items cl1) as [[[cl3 added] cleared] rest] eqn:Ed.
      destruct (bool_decide (rest = []) || cleared); [|done]. right. destruct IH as [->|]; [|done].
      cbn in Ed. by injection Ed as <- <- <- <-.
Qed.

End loop.

End ReplyFacts.

(** *** Error replies *)

Lemma sep_by_sep l : sep_by (chr ",") l = sep l.
Proof.
  destruct l as [|x l]; [done|]. cbn [sep_by]. revert x. induction l as [|y l IH]; intros x; [apply app_nil_r|].
  rewrite fmap_cons, mjoin_cons. rewrite JsonFacts.sep_cons, <- (IH y). done.
Qed.

Lemma error_text_reply e n : error_text e n = reply_text (replicate n (NoTag (VNumber e))).
Proof.
  unfold error_text, reply_text. rewrite sep_by_sep. do 3 f_equal. by induction n as [|n IH]; [|cbn; f_equal].
Qed.

Section errors.
Context {C W : Type} `{CommandOps C W}.

Lemma servererror_run e (cl : Client W) (d : RequestDispatcher C) :
  servererror e cl d =
    '(cl, d) ← run_process cl (set_inflight
      (request_serverresponse (error_text e (length (cmds (inflightreq d)))) (inflightreq d)) d);
    Some (cl, set_failreason RETRY_NONE d).
Proof.
  unfold servererror, run_process. destruct (process cl _) as [[cl1 d1]|]; [|done]. cbn [mbind option_bind].
  do 2 f_equal. change (clearWhenSafe (set_processing false (set_failreason RETRY_NONE d1))) with (clearWhenSafe d1).
  change (clearWhenSafe (set_processing false d1)) with (clearWhenSafe d1). by destruct (clearWhenSafe d1).
Qed.

Lemma deal_untagged (cs : list C) : forall vs (cl : Client W),
  let '(_, _, cleared, rest) := deal cs (NoTag <$> vs) cl in cleared = false -> rest = [].
Proof.
  induction cs as [|c cs IH]; intros [|v vs] cl; try done. rewrite fmap_cons. cbn [deal blocked item_tag].
  destruct (told c (NoTag v) cl) as [cl1 calls]. destruct (RequestFacts.clears calls); [done|].
  specialize (IH vs cl1). by destruct (deal cs (NoTag <$> vs) cl1) as [[[cl2 added] cleared] rest].
Qed.

End errors.

(** *** Sequences of action packets *)

Section packets.
Context {C W : Type} `{CommandOps C W}.

(** The tags of the packets in order, until one has to wait. *)
Fixpoint sc_packets (tags : list bytes) (sc : ScTags) (cl : Client W) (d : RequestDispatcher C)
    : option (bool * ScTags * Client W * RequestDispatcher C) :=
  match tags with
  | [] => Some (true, sc, cl, d)
  | t :: tags =>
      '(go, sc, cl, d) ← sc_checkSequenceTag t sc cl d;
      if (go : bool) then sc_packets tags sc cl d else Some (false, sc, cl, d)
  end.

(** The expected tag has arrived. *)
Definition mark (t : bytes) (cl : Client W) : Client W :=
  if bool_decide (t <> [] /\ mCurrentSeqtag cl = t) then set_seqtag (mCurrentSeqtag cl) true cl else cl.

(** A packet before the expected one, or the expected one. *)
Lemma packet_stays t sc (cl : Client W) (d : RequestDispatcher C) :
  t <> [] -> mCurrentSeqtag cl <> [] -> mCurrentSeqtagSeen cl = false \/ t = mCurrentSeqtag cl ->
  exists sc', sc_checkSequenceTag t sc cl d = Some (true, sc', mark t cl, d).
Proof.
  intros Ht Hc Hor. unfold sc_checkSequenceTag. rewrite (bool_decide_eq_false_2 _ Ht).
  rewrite Nat.add_comm. cbn [Nat.add seqtag_loop]. rewrite (bool_decide_eq_false_2 _ Hc). unfold mark.
  destruct (decide (t = mCurrentSeqtag cl)) as [E|E].
  - rewrite !bool_decide_eq_true_2 by done. by eexists.
  - destruct Hor as [-> |]; [|done]. rewrite !bool_decide_eq_false_2 by naive_solver. by eexists.
Qed.

Lemma packets_app ts1 ts2 sc (cl : Client W) (d : RequestDispatcher C) sc1 cl1 d1 :
  sc_packets ts1 sc cl d = Some (true, sc1, cl1, d1) ->
  sc_packets (ts1 ++ ts2) sc cl d = sc_packets ts2 sc1 cl1 d1.
Proof.
  revert sc cl d. induction ts1 as [|t ts1 IH]; intros sc cl d E; cbn [sc_packets app] in *; [by injection E as -> -> ->|].
  destruct (sc_checkSequenceTag t sc cl d) as [[[[go sc2] cl2] d2]|]; [|done]. cbn [mbind option_bind] in *.
  destruct go; [by apply IH|done].
Qed.

Lemma packets_before ts sc (cl : Client W) (d : RequestDispatcher C) :
  mCurrentSeqtag cl <> [] -> mCurrentSeqtagSeen cl = false ->
  Forall (fun t => t <> [] /\ t <> mCurrentSeqtag cl) ts ->
  exists sc', sc_packets ts sc cl d = Some (true, sc', cl, d).
Proof.
  intros Hc Hs Hts. revert sc. induction Hts as [|t ts [Ht Hne] Hts IH]; intros sc; [by exists sc|].
  destruct (packet_stays t sc cl d Ht Hc (or_introl Hs)) as [sc1 E]. unfold mark in E.
  rewrite bool_decide_eq_false_2 in E by naive_solver. cbn [sc_packets]. rewrite E. cbn [mbind option_bind]. apply IH.
Qed.

Lemma packets_own k sc (cl : Client W) (d : RequestDispatcher C) :
  mCurrentSeqtag cl <> [] ->
  exists sc', sc_packets (replicate (S k) (mCurrentSeqtag cl)) sc cl d
    = Some (true, sc', set_seqtag (mCurrentSeqtag cl) true cl, d).
Proof.
  intros Hc. set (st := mCurrentSeqtag cl) in *.
  assert (mark st cl = set_seqtag st true cl) as Em by (unfold mark; by rewrite bool_decide_eq_true_2).
  assert (mark st (set_seqtag st true cl) = set_seqtag st true cl) as Em2 by (unfold mark; by rewrite bool_decide_eq_true_2).
  destruct (packet_stays st sc cl d Hc Hc (or_intror eq_refl)) as [sc1 E]. cbn [replicate sc_packets].
  rewrite E, Em. cbn [mbind option_bind]. clear E. revert sc1. induction k as [|k IH]; intros sc1; [by exists sc1|].
  destruct (packet_stays st sc1 (set_seqtag st true cl) d Hc Hc (or_intror eq_refl)) as [sc2 E].
  cbn [replicate sc_packets]. rewrite E. cbn [mbind option_bind]. rewrite Em2. apply IH.
Qed.

(** What follows once the commands have been dealt with. *)
Lemma packet_after fuel t (cl : Client W) (d : RequestDispatcher C) rest :
  t <> [] -> ReplyFacts.dealing d rest ->
  rest = [] /\ ReplyFacts.no_tag cl \/ ReplyFacts.waits_for cl rest.*2 ->
  seqtag_loop (S fuel) t cl d = Some (true, mark t cl, d).
Proof.
  intros Ht (_ & _ & _ & Hd) Hor. cbn [seqtag_loop]. unfold mark. destruct Hor as [[-> [Hc Hs]]|(Hc & Hs & _)].
  - rewrite (bool_decide_eq_true_2 _ Hc). unfold cmdsInflight, request_empty. rewrite Hd. cbn.
    rewrite bool_decide_eq_false_2; [done|]. rewrite Hc. intros [H1 H2]. by apply H1.
  - rewrite (bool_decide_eq_false_2 _ Hc), Hs. destruct (decide (t = mCurrentSeqtag cl)) as [E|E].
    + by rewrite !bool_decide_eq_true_2.
    + by rewrite !bool_decide_eq_false_2 by naive_solver.
Qed.

End packets.

(** ** Theorems *)


(** When the server answers with an error code for the whole batch, every
    command in it is told that error, in order, until one of them clears the
    dispatcher; the batch is over and need not be sent again. *)
Theorem servererror_all {C W} `{CommandOps C W} (cl : Client W) (d : RequestDispatcher C) e :
  RequestFacts.wf d -> json (inflightreq d) = None -> live (inflightreq d) <> [] ->
  number_ok e = true -> error_number e = true ->
  Forall (fun c => reads c (CmdError (error_of e)) []) (live (inflightreq d)) ->
  let '(cl', added, cleared, _) := deal (live (inflightreq d))
    (replicate (length (live (inflightreq d))) (NoTag (VNumber e))) cl in
  exists d', servererror e cl d = Some (cl', d')
    /\ cmds (inflightreq d') = [] /\ inflightFailReason d' = RETRY_NONE
    /\ RequestFacts.queued d' = (if cleared then [] else RequestFacts.queued d ++ added).
Proof.
  intros Hwf Hj Hne He Hn Hreads.
  assert (cmds (inflightreq d) <> []) as Hcm by (intros E; apply Hne; unfold live; by rewrite E).
  pose proof (RequestFacts.response_wf (error_text e (length (cmds (inflightreq d)))) d Hwf Hj Hcm) as Hwf0.
  rewrite servererror_run. set (d0 := set_inflight _ d) in *.
  destruct (RequestFacts.io_cmds _ (RequestFacts.wf_inflight _ Hwf)) as (cs & Hr & _).
  pose proof (RequestFacts.live_run _ _ Hr) as Hlive. rewrite Hlive in *.
  set (items := replicate (length cs) (NoTag (VNumber e))).
  assert (Forall2 fits cs items) as Hfit.
  { apply Forall2_same_length_lookup_2; [subst items; by rewrite length_replicate|]. intros i c it Hc Hi.
    apply lookup_replicate in Hi as [-> _]. split; [done|]. split; [done|]. cbn [result_of inner]. rewrite Hn.
    exact (Forall_lookup_1 _ _ _ _ Hreads Hc). }
  destruct (ReplyFacts.run_process_dealt cl d0 cs items [] Hwf0 Hfit Hlive (or_introl eq_refl)) as (d' & E & Hd).
  { change (json (inflightreq d0)) with (Some (JSON.enterarray (error_text e (length (cmds (inflightreq d))))).2).
    rewrite (RequestFacts.run_length _ _ Hr), (RequestFacts.io_start _ (RequestFacts.wf_inflight _ Hwf) Hj).
    cbn [Nat.add]. rewrite error_text_reply. fold items. unfold reply_text. rewrite <- ReplyFacts.body_sep.
    generalize (sep (map print (map item_value items)) ++ [chr "]"]) as t. intros t. cbn. by rewrite drop_0. }
  rewrite E. pose proof (deal_untagged cs (replicate (length cs) (VNumber e)) cl) as Hu.
  rewrite fmap_replicate in Hu. fold items in Hu. clear E.
  destruct (deal cs items cl) as [[[cl' added] cleared] rest]. cbn [mbind option_bind fst snd].
  eexists. split; [reflexivity|]. unfold ReplyFacts.dealt in Hd. destruct cleared.
  - destruct Hd as [Hp (_ & _ & _ & Hd)]. split_and!; [done|done|]. apply app_nil in Hp as [_ Hp]. exact Hp.
  - rewrite (Hu eq_refl) in Hd. by destruct Hd as [(_ & _ & _ & Hd) Hq].
Qed.

(** C20: A command whose reply carries a sequence tag is held back while the action
    packets before those with its tag, and those with its tag, are processed; it
    is told its result exactly before the next packet with another tag (or
    without one), together with the commands behind it up to the next one that
    has to wait; the check always ends, and packets only wait while the answer to
    a request in flight is outstanding. *)
Theorem seqtag_order {C W} `{CommandOps C W} `{!ReplyFacts.KeepsTags} (sc : ScTags) (cl : Client W)
    (d : RequestDispatcher C) c it rest st :
  scsn_ready cl = true -> mCurrentSeqtag cl = st -> st <> [] -> mCurrentSeqtagSeen cl = false ->
  item_tag it = Some st -> ReplyFacts.dealing d ((c, it) :: rest) ->
  (forall before k, Forall (fun t => t <> [] /\ t <> st) before ->
     exists sc', sc_packets (before ++ replicate (S k) st) sc cl d = Some (true, sc', set_seqtag st true cl, d))
  /\ (forall t, t <> st ->
      let r := deal (c :: rest.*1) (it :: rest.*2) (set_seqtag st true cl) in
      blocked it (set_seqtag st true cl) = None
      /\ exists sc' d', sc_checkSequenceTag t sc (set_seqtag st true cl) d = Some (true, sc', mark t r.1.1.1, d')
           /\ ReplyFacts.dealt d r d')
  /\ (forall t cl d, t <> [] -> mCurrentSeqtag cl = [] ->
      exists sc', sc_checkSequenceTag t sc cl d = Some (negb (cmdsInflight d), sc', cl, d)).
Proof.
  intros Hready Hcur Hst Hseen Htag Hdeal. subst st. set (st := mCurrentSeqtag cl) in *.
  set (cl1 := set_seqtag st true cl). split_and!.
  - intros before k Hbefore. destruct (packets_before before sc cl d Hst Hseen Hbefore) as [sc1 E1].
    destruct (packets_own k sc1 cl d Hst) as [sc2 E2]. exists sc2. by rewrite (packets_app _ _ _ _ _ _ _ _ E1).
  - intros t Ht r. split; [unfold blocked; rewrite Htag; by rewrite bool_decide_eq_true_2|].
    destruct Hdeal as (Hwf & Hfit & Hlive & Hd). cbn [fst snd] in *. rewrite !fmap_cons in *. cbn [fst snd] in *.
    destruct Hd as (lead & Hlead & Hj).
    destruct (ReplyFacts.run_process_dealt cl1 d _ _ lead Hwf Hfit Hlive Hlead Hj) as (d' & E & Hd'). fold r in E, Hd'.
    pose proof (ReplyFacts.deal_tags (c :: rest.*1) (it :: rest.*2) cl1 (Forall2_length _ _ _ Hfit) Hready) as Htags.
    specialize (Htags (or_intror (ex_intro _ it (ex_intro _ rest.*2 (conj eq_refl Htag))))). fold r in Htags.
    assert (exists rest', ReplyFacts.dealing d' rest'
      /\ (rest' = [] /\ ReplyFacts.no_tag r.1.1.1 \/ ReplyFacts.waits_for r.1.1.1 rest'.*2)) as (rest' & Hdl & Hor).
    { destruct r as [[[cl2 added] cleared] rest']. cbn [fst snd] in *. unfold ReplyFacts.dealt in Hd'. destruct cleared.
      - exists []. split; [apply Hd'|]. left. split; [done|]. rewrite orb_true_r in Htags. by destruct Htags.
      - exists rest'. split; [apply Hd'|]. rewrite orb_false_r in Htags. case_bool_decide; [left|by right].
        split; [done|]. by destruct Htags. }
    unfold sc_checkSequenceTag. case_bool_decide as Hnil.
    + change (mCurrentSeqtag cl1) with st. rewrite (bool_decide_eq_false_2 _ Hst). cbn [negb andb mCurrentSeqtagSeen set_seqtag cl1].
      unfold continueProcessing. rewrite E. cbn [mbind option_bind]. eexists _, d'. split; [|done]. by subst t.
    + assert (exists f, (remaining d + 2)%nat = S f /\ f = S (remaining d)) as (f & -> & Ef) by (eexists; split; [|done]; lia).
      cbn [seqtag_loop].
      change (mCurrentSeqtag cl1) with st. rewrite (bool_decide_eq_false_2 _ Hst), (bool_decide_eq_false_2 _ Ht).
      cbn [mCurrentSeqtagSeen set_seqtag cl1]. unfold continueProcessing. rewrite E. cbn [mbind option_bind].
      rewrite Ef, (packet_after _ t _ d' rest' Hnil Hdl Hor). cbn [mbind option_bind]. by eexists _, d'.
  - intros t cl2 d2 Ht Hc. unfold sc_checkSequenceTag. rewrite (bool_decide_eq_false_2 _ Ht).
    rewrite Nat.add_comm. cbn [Nat.add seqtag_loop]. rewrite (bool_decide_eq_true_2 _ Hc). cbn [mbind option_bind]. by eexists.
Qed.

(** ** Examples *)

Module ReplyExamples.
Import RequestExamples.
#[local] Existing Instance cmd_ops.
#[local] Existing Instance cmd_recorded.

Lemma cmd_reads (c : Cmd) r text :
  match r with
  | CmdError _ => text = []
  | CmdItem => exists v, wf v = true /\ text = print v /\ JSON.skip_object text = []
  | _ => True
  end -> reads c r text.
Proof.
  intros Hr rest cl Hrest. destruct r as [e| | |]; [by subst text|done|done|]. cbn.
  destruct Hr as (v & Hv & -> & ->). split; [|done]. by rewrite ReplyFacts.skip_value.
Qed.

#[local] Instance cmd_keeps : ReplyFacts.KeepsTags.
Proof. split; [|done]. intros c r pos cl. by destruct r. Defined.

Lemma state_wf ops cl (d : RequestDispatcher Cmd) :
  RequestFacts.op_steps w_issued w_answered (client0, new_dispatcher id0) ops (cl, d) -> RequestFacts.wf d.
Proof.
  intros Hs. pose proof (RequestFacts.op_steps_history w_issued w_answered False client0 id0 ops (cl, d)
    (False_ind _) (False_ind _) eq_refl eq_refl Hs) as Hh. exact (RequestFacts.hi_wf _ _ _ _ Hh).
Qed.

(** The batch of the commands 1 and 2 in flight. *)
Lemma sent_state_wf : RequestFacts.wf sent.
Proof.
  apply (state_wf (first_ops ++ [RequestFacts.OpSend]) client3). eapply RequestFacts.op_snoc; [apply first_steps|].
  apply RequestFacts.step_send. vm_compute. reflexivity.
Qed.



(** Two commands that change nodes and one that does not. *)
Definition a1 : Cmd := MkCmd 1 false true None.
Definition a2 : Cmd := MkCmd 2 false false None.
Definition a3 : Cmd := MkCmd 3 false true None.

Definition ready_client (cl : Client World) : Client World :=
  MkClient (restag cl) (mCurrentSeqtag cl) (mCurrentSeqtagSeen cl) (mCurrentSeqtagCmdtag cl) (mPriorSeqTag cl) true (world cl).

Definition tag_client : Client World := ready_client (issue a3 (issue a2 (issue a1 client0))).
Definition tag_sent : RequestDispatcher Cmd :=
  (serverrequest tag_client (add a3 (add a2 (add a1 (new_dispatcher id0))))).2.

Definition tag_items : list item :=
  [TagValue (str "b1") (VNumber (str "5")); NoTag (VNumber (str "0")); TagOnly (str "b3")].

(** The first command waits. *)
Definition tag_state : Client World * RequestDispatcher Cmd :=
  default (tag_client, tag_sent) (serverresponse (reply_text tag_items) tag_client tag_sent).
Definition waiting_client : Client World := tag_state.1.
Definition waiting : RequestDispatcher Cmd := tag_state.2.

Definition tag_ops : list (@RequestFacts.Op Cmd) :=
  [RequestFacts.OpAdd a1; RequestFacts.OpAdd a2; RequestFacts.OpAdd a3; RequestFacts.OpOther; RequestFacts.OpSend;
   RequestFacts.OpReply (reply_text tag_items)].

Lemma waiting_wf : RequestFacts.wf waiting.
Proof.
  apply (state_wf tag_ops waiting_client).
  apply (RequestFacts.op_snoc _ _ _ (tag_client, tag_sent) _ [_; _; _; _; _]).
  - apply (RequestFacts.op_snoc _ _ _ (tag_client, add a3 (add a2 (add a1 (new_dispatcher id0)))) _ [_; _; _; _]).
    + apply (RequestFacts.op_snoc _ _ _ (issue a3 (issue a2 (issue a1 client0)), add a3 (add a2 (add a1 (new_dispatcher id0)))) _ [_; _; _]);
        [|by constructor].
      apply (RequestFacts.op_snoc _ _ _ (issue a2 (issue a1 client0), add a2 (add a1 (new_dispatcher id0))) _ [_; _]);
        [|by constructor].
      apply (RequestFacts.op_snoc _ _ _ (issue a1 client0, add a1 (new_dispatcher id0)) _ [_]); [|by constructor].
      apply (RequestFacts.op_snoc _ _ _ (client0, new_dispatcher id0) _ []); [constructor|by constructor].
    + apply RequestFacts.step_send. vm_compute. reflexivity.
  - apply RequestFacts.step_reply; [vm_compute; congruence..|]. vm_compute. reflexivity.
Qed.

Definition tag_rest : list (Cmd * item) := zip [a2; a3] (tail tag_items).

Lemma waiting_dealing : ReplyFacts.dealing waiting ((a1, TagValue (str "b1") (VNumber (str "5"))) :: tag_rest).
Proof.
  split; [exact waiting_wf|]. split; [|split; [vm_compute; reflexivity|]].
  - change (Forall2 fits [a1; a2; a3] tag_items). unfold tag_items.
    repeat (apply Forall2_cons_2; [split; [done|]|]); [| | |apply Forall2_nil_2].
    + split; [done|]. apply cmd_reads. exists (VNumber (str "5")). split_and!; [done|done|vm_compute; reflexivity].
    + split; [done|]. by apply cmd_reads.
    + by apply cmd_reads.
  - exists []. split; [by left|]. vm_compute. reflexivity.
Qed.

End ReplyExamples.

Section witnesses.
Local Existing Instance RequestExamples.cmd_ops.
Local Existing Instance RequestExamples.cmd_recorded.
Local Existing Instance ReplyExamples.cmd_keeps.


Lemma servererror_all_witness :
  exists d', servererror (str "-3") RequestExamples.client3 RequestExamples.sent
    = Some ((deal [RequestExamples.k1; RequestExamples.k2] (replicate 2 (NoTag (VNumber (str "-3")))) RequestExamples.client3).1.1.1, d')
  /\ cmds (inflightreq d') = [] /\ inflightFailReason d' = RETRY_NONE.
Proof.
  assert (live (inflightreq RequestExamples.sent) = [RequestExamples.k1; RequestExamples.k2]) as E by (vm_compute; reflexivity).
  pose proof (servererror_all RequestExamples.client3 RequestExamples.sent (str "-3") ReplyExamples.sent_state_wf
    ltac:(vm_compute; reflexivity) ltac:(rewrite E; discriminate) eq_refl eq_refl) as Hs.
  rewrite E in Hs.
  specialize (Hs ltac:(repeat (apply Forall_cons; split; [by apply ReplyExamples.cmd_reads|]); apply Forall_nil_2)).
  cbn [length replicate] in Hs |- *.
  destruct (deal _ _ _) as [[[cl' added] cleared] rest]. destruct Hs as (d' & H1 & H2 & H3 & _). exact (ex_intro _ d' (conj H1 (conj H2 H3))).
Defined.

(** The tags b0, b1, b1 hold the command back, b2 lets it and the next one through. *)
Lemma seqtag_order_witness :
  exists sc', sc_packets [str "b0"; str "b1"; str "b1"] (MkScTags [] [] [] []) ReplyExamples.waiting_client ReplyExamples.waiting
    = Some (true, sc', set_seqtag (str "b1") true ReplyExamples.waiting_client, ReplyExamples.waiting).
Proof.
  assert (Forall (fun t => t <> [] /\ t <> str "b1") [str "b0"]) as Hb by (repeat constructor; discriminate).
  apply (proj1 (seqtag_order (MkScTags [] [] [] []) ReplyExamples.waiting_client ReplyExamples.waiting ReplyExamples.a1
    (TagValue (str "b1") (VNumber (str "5"))) ReplyExamples.tag_rest (str "b1") ltac:(vm_compute; reflexivity)
    ltac:(vm_compute; reflexivity) ltac:(discriminate) ltac:(vm_compute; reflexivity) eq_refl ReplyExamples.waiting_dealing)
    [str "b0"] 1%nat Hb).
Defined.

End witnesses.
